(* ===== verification/_CoqProject ===== *)
-Q . S2P
Prelude.v
RustStd.v
Bytes.v
Effects.v
F64.v
TransformAst.v
TransformTypes.v
TransformFunctions.v
TransformExec.v
TransformExecFacts.v
TransformFunctionFacts.v
TransformOptimizer.v
TransformOptimizerFacts.v
TransformSimplifyFacts.v
TransformTypesFacts.v
AuditEntry.v
AuditMerkle.v
AuditStore.v
AuditChain.v
AuditChainFacts.v
AuditSample.v
BTree.v
HashRing.v
HashRingFacts.v
CoordState.v
CoordStateFacts.v
CircuitBreaker.v
RetryStrategy.v
Dedup.v
CheckpointStorage.v
WorkflowDefinition.v
WorkflowDag.v
WorkflowEngine.v
WorkflowEngineFacts.v
WorkflowSample.v
WalEntry.v
WalFile.v
WalFileFacts.v
WalSample.v
WalCoordinator.v
WalCoordinatorFacts.v
WalRecovery.v
WalSystem.v
TemporalIndexes.v
TemporalIndexFacts.v
RustText.v
RdfTerm.v
SparqlUpdate.v
SparqlUpdateFacts.v
ShardRegistry.v
ShardRegistryFacts.v
ShardSample.v
Tasks.v
ShardPool.v
ShardCoordinator.v
ShardCoordinatorFacts.v
ShardStoreSample.v
WfRouting.v
BatchJobs.v
KvScan.v
BatchStore.v
BatchExecutor.v
BatchExecutorFacts.v
BatchSample.v
HealthMonitor.v
LineageGraph.v
LineageStore.v
LineageStoreFacts.v
ImpactAnalysis.v
LineageSample.v
Gdpr.v
RowLineage.v
RowLineageFacts.v
GdprCoordinator.v
SchemaStore.v
ColumnLineage.v
ColumnLineageFacts.v
ColumnGraph.v
Anonymizer.v
GdprSample.v
