(* ===== verification/Prelude.v ===== *)
(** * ARCXA: a verification library for the platform's core logic

    ARCXA is a governed data platform written in Rust: it loads rows from data
    sources, transforms and maps them, stores the result in a sharded graph
    store, and keeps an audit trail of every change.  This library models the
    parts of it that carry decisions rather than input and output, and proves
    what makes each of them correct.

    ** The modelled program

    - The transformation language
      ([arcxa-coordinator/src/mapping/loader/transformation/]).  A mapping rule
      is an expression; it is checked, optimized, compiled to a plan and run on
      every row, one at a time or in batches.
      - [TransformAst]: [ast.rs], expressions, their static queries and their
        printed form.
      - [TransformTypes]: [types.rs], values, conversions, casts, the type
        checker.
      - [TransformFunctions]: [functions.rs], the function registry and 37
        built-ins.
      - [TransformExec]: [executor.rs], evaluation, plans, batches, [LIKE].
      - [TransformOptimizer]: [optimizer.rs].
    - The audit trail ([arcxa-coordinator/src/bitemporal/audit/]).  Entries are
      hashed, signed and chained, kept in memory and in a key-value store, and
      summed up by Merkle trees.
      - [AuditEntry]: [crypto.rs] and [entry.rs].
      - [AuditMerkle]: [merkle.rs].
      - [AuditStore]: [store.rs].
      - [AuditChain]: [chain.rs] and [verifier.rs]; it calls the three others.
    - Sharding and the coordinator cluster ([arcxa-coordinator/src/ha/]).
      Coordinators apply a replicated log of commands; the state they keep has
      the hash ring that routes keys to shards.
      - [HashRing]: [consistent_hash.rs] with the default hasher (SipHash), over
        the ordered maps of [BTree].
      - [CoordState]: [state_machine.rs]; its commands call the ring's
        operations.
      - [HealthMonitor]: [health_monitor.rs], the health, circuit breaker and
        response times of every shard behind one lock.
    - The write-ahead log ([arcxa-coordinator/src/storage/wal/]).  Changes are
      appended to segment files before storage is touched; a coordinator runs
      transactions in two phases over the log.
      - [WalEntry]: [entry.rs], [errors.rs] and [config.rs].
      - [WalFile]: [file_wal.rs], the segmented file with its rotation, index,
        compaction and archive.
      - [WalCoordinator]: [coordinator.rs] over the trait of [traits.rs], the
        class [WriteAheadLog]; [WalSystem] makes [WalFile] an instance of it.
      - [WalRecovery]: [recovery.rs], reading segment files back.
    - Workflows ([arcxa-core/src/orchestration/workflow/]).  A definition is
      validated, turned into a graph of steps, registered and persisted.
      - [WorkflowDefinition]: [definition.rs]; [WorkflowDag]: [dag.rs].
      - [WorkflowEngine]: the registry of [engine.rs]; it calls both.
    - Checkpointing ([arcxa-core/src/checkpointing/]): [Dedup] models [dedup.rs] and
      what the ingestion ([ingestion/dataflow.rs]) does with it for a record,
      [CheckpointStorage] the rest.
    - The bitemporal store ([arcxa-coordinator/src/bitemporal/]).  Versions of a
      fact carry the time they hold in the world and the transactions that
      recorded and superseded them; indexes answer what was known when.
      - [TemporalIndexes]: [annotations.rs], [transaction_manager.rs] and the
        operations of [indexes.rs] that write versions and look them up.
    - Reliability ([arcxa-core/src/reliability/]): [CircuitBreaker] models
      [circuit_breaker.rs], [RetryStrategy] models [retry_strategy.rs], which
      calls it.
    - The sharded RDF store ([arcxa-coordinator/src/governance/]).  Shards
      register and get a range of the hash space each; the coordinator sends
      triples to the shard of their subject and queries and updates to all.
      - [RdfTerm]: [shard_coordinator/rdf/], terms, literals, datatypes.
      - [SparqlUpdate]: [shard_coordinator/sparql/], the validator, the builder
        of updates and the parser of [INSERT DATA].
      - [ShardRegistry]: [distributed/shard_metadata.rs], [shard_registry.rs] and
        [auto_registration.rs], which calls it.
      - [ShardPool]: [shard_coordinator/connection.rs] and the messages of the
        protocol; [ShardCoordinator]: [routing.rs], [query_config.rs],
        [insert.rs], [query.rs] and [update.rs], which call all of the above.
    - The workflow engine of the coordinator ([arcxa-coordinator/src/workflows/]).
      Data takes a route of a workflow; a batch job runs a workflow for many
      sources in waves of concurrent executions.
      - [WfRouting]: [domain/condition.rs], [route.rs], [workflow.rs] and
        [engine/evaluator.rs], [router.rs].
      - [BatchJobs]: [domain/batch_job.rs] and the planning of
        [engine/batch_executor.rs]; [BatchStore]: [storage/batch_job_store.rs];
        [BatchExecutor]: the rest of [batch_executor.rs] with the loop over
        actions of [executor.rs], the records of [domain/execution.rs] and the
        in-memory store of executions; it calls both.
    - Lineage ([arcxa-core/src/core/lineage/] and the stores of
      [arcxa-coordinator/src/storage/]).  Events say which data a record, a row or a
      column came from; stores in RocksDB keep them with their indexes.
      - [LineageGraph]: [lineage/mod.rs], the graph of events and its walks;
        [LineageStore]: [storage/rocks.rs]; [ImpactAnalysis]: [lineage/impact.rs], over
        the interface [LineageSink] that the store implements.
      - [RowLineage]: [row_level.rs] and [row_lineage_store.rs];
        [SchemaStore]: [schema_evolution.rs] and [schema_evolution_store.rs];
        [ColumnLineage] and [ColumnGraph]: [column_level.rs] and
        [column_lineage_store.rs], the store and the walks over it; [KvScan]
        has [serialization_version.rs].
    - Erasure of personal data ([arcxa-core/src/gdpr/], [arcxa-coordinator/src/gdpr/]).
      - [Gdpr]: [types.rs], [data_erasure.rs] and [retention.rs], with the interface
        [DataErasure] and its laws [ErasureOk], which the three stores of lineage
        implement; [GdprCoordinator]: [coordinator.rs], over the interface alone;
        [Anonymizer]: [anonymization.rs], which replaces values instead of erasing them.

    Eight files hold what the components share: this one (results of fallible
    code and loops over them), [RustStd] (machine integers under both overflow
    regimes, [str] methods and order, decimal text), [RustText] (slices,
    searches, splits and classes of characters, and a text for any countable value,
    for the concrete runs), [F64] (IEEE-754 doubles), [Bytes]
    (fixed-width integers as bytes), [Effects] (methods that change a state
    and can fail, with the assertions they keep), [Tasks] (concurrent tasks,
    their schedules and the assertion [does] on what a task logs) and [KvScan] (a
    column family in the order of its keys, one of lists from which entries are taken
    out, and the versioned envelope of what is stored).  Where a component is small its
    theorems are in the same file, behind the definitions.  Data
    types keep the constructors and fields of the source, under a prefix where
    Rocq needs one; each operation is a definition with the name of its Rust
    function, and the doc comment above it names that function.

    ** What the theorems show

    - Transformation language.  [LIKE] matching is equivalent to its declarative
      meaning.  Evaluation keeps integers in the range of
      [i64], plans list exactly the fields a rule reads and precompute right
      values ([TransformExecFacts]).  No built-in but two can panic in a release
      build; masking, slugs, substrings and dispatch
      by name do what they say ([TransformFunctionFacts]).  Casts give the type
      asked for and the strict checker is sound ([TransformTypesFacts]).
      Constant folding is exact, and the optimizer as a whole keeps every value,
      on the expressions that meet decidable conditions
      ([TransformOptimizerFacts], [TransformSimplifyFacts]); the rewritings that
      change results outside them are refuted on concrete rows.
    - Audit trail.  Every reachable chain verifies, tampering is reported where
      it happened, the two verifiers agree, a chain survives export, import and
      a restart, compaction loses nothing, and Merkle trees refine a reference
      tree, with proofs complete, and sound up to a collision of SHA-256 among the
      inputs hashed in the two computations compared
      ([AuditMerkle], [AuditStore], [AuditChainFacts]).  [AuditSample] runs the
      trail on an executable instance of the crates it uses.
    - Sharding and cluster.  Keys go to the closest virtual node clockwise;
      adding or removing a shard moves only that shard's keys; the tables of a
      ring agree ([HashRingFacts]).  Replicas that apply the same log agree
      whatever their clocks and hash tables do; the ring follows the active
      shards; errors leave the state alone; a migration moves its virtual nodes
      and no others ([CoordStateFacts]).  A shard whose probes keep failing is not
      routed to; the window of response times holds the last ones
      ([HealthMonitor]).
    - Write-ahead log.  With preallocated, mapped segments, calls one after another
      and payloads that bincode can read back, an acknowledged append can be read
      back until the index drops it and survives a crash when the log is set to sync.
      Over a log that was empty when the coordinator started, records follow
      the two-phase protocol, storage is written only after the commit record and
      outcomes are final, whatever operations interleave (the removal of a
      transaction from the table is a step of its own); a committed
      transaction's record is on the device
      ([WalFileFacts], [WalCoordinatorFacts], [WalSystem]).  Recovery always
      ends and takes the decisions it documents, but reads segment files in a
      format the writer does not produce ([WalRecovery]).
    - Workflows.  Exactly the definitions with known and acyclic dependencies
      become graphs; the execution order and the parallel batches run every step
      once and after its dependencies, each as early as possible
      ([WorkflowDag]).  Whatever overlaps, every registered workflow can be
      scheduled; without overlaps a failed change is undone and a restart
      restores the registry; with overlaps an undone update can erase another
      ([WorkflowEngineFacts]).  [WorkflowSample] has a graph library that keeps
      the laws the proofs use.
    - Checkpointing.  Forgetting old records is never observed by a worker while the
      clock does not go back and the records of a window fit the map; a recovery goes
      back to the last checkpoint ([Dedup]); the checkpoint of a shutdown is the one a
      restart reads ([CheckpointStorage]).
    - Bitemporal store.  Every lookup of a reachable index, answered by its cache
      or not, is the answer of the list of versions written, the current version
      being the last one unless it was superseded; what was recorded
      at a past instant does not change under later writes
      ([TemporalIndexFacts]), which also runs the indexes on executable crates.
    - Reliability.  The breaker's counters never overflow and stay below their
      thresholds; it opens at the threshold, fails fast while open, and after the
      timeout lets calls run, closes after enough successes and opens again at any
      failure before ([CircuitBreaker]).  A retried operation is called a bounded number
      of times and its outcome reports what the calls and the breaker did
      ([RetryStrategy]).
    - Sharded RDF store.  Printed terms are parsed back; what reaches an update is
      escaped; the parser of [INSERT DATA] reads a text as the triples it stands
      for ([RdfTerm], [SparqlUpdateFacts]).  Successful registrations cut the
      hash space among the shards, and what a restart and a removal lose is stated
      ([ShardRegistryFacts]).  Whatever the schedule of the requests and the
      answers of the network: a batch reported as inserted was delivered once,
      each triple to the shard that owns it; a query returns what enough shards
      answered; an update runs on every active shard; and which failures never
      open a circuit ([ShardPool], [ShardCoordinatorFacts]).  [ShardSample]
      and [ShardStoreSample] have the concrete runs.
    - Workflow engine of the coordinator.  The route taken is the eligible one of
      highest priority ([WfRouting]).  Exactly the jobs without a cycle are
      planned, and their waves are a topological order in which everything runs as
      early as it may ([BatchJobs]).  The indexes and the cache of the job
      store agree with the stored jobs but for those that an update put in when they
      were not there, so a list by status is exact up to these ([BatchStore]).  Under every schedule the executions of a job run after
      what they depend on, and a retry never turns a failure into a success;
      an execution that is paused and resumed runs every
      action once if its runs do not overlap ([BatchExecutorFacts]).  [BatchSample] has the concrete runs.
    - Lineage.  The walk up the graph finds exactly the sources of the records it may
      visit, and all there are when the limit is not less than the number of records;
      what the walks down find, and which records count as circular, is stated as it is
      ([LineageGraph]).  Whatever was written and deleted before, with identifiers
      of their own and finite metrics, the lineage of a
      record is exactly its stored events, also as of a past second when no two events
      share one ([LineageStoreFacts]); the analyses find the readers
      and sources of those events ([ImpactAnalysis]).  The key of a row is read back as the
      row ([RowLineage]); a batch of row or column events in which no row or target
      column comes twice is added to what was recorded before, with the indexes it should
      have, and a batch that fails leaves nothing of its own ([RowLineageFacts],
      [ColumnLineageFacts]).  The graph of a column has exactly the events it is made by when
      the depth allowed is more than the number of columns, one of each identifier, and it
      is called circular exactly when it is, unless the search for the cycle itself ends in
      an error of the database ([ColumnGraph]).
      [LineageSample] has the concrete runs.
    - Erasure.  Deletion is allowed exactly when no hold and no retention forbids it
      ([Gdpr]).  Erasing a user or a tenant takes out what it says and nothing else in
      each store ([RowLineageFacts], [SchemaStore], [ColumnLineageFacts]), which
      makes the three stores instances of the interface; over any three backends that
      keep its laws, a held user is not erased, a dry run changes nothing, and a
      successful report means that no stored record is left among those the backends count
      (events in a write buffer are not looked at) ([GdprCoordinator]).  [GdprSample]
      runs all of it on concrete encodings, and shows what the erasures miss.  A masked
      value tells no more than its length and what is kept, a range of ages has the age,
      the replacements by a counter differ, and the values on which the byte slices
      panic are characterized ([Anonymizer]).

    Theorems under a heading such as "Outside the conditions" are concrete runs
    on which the code does not do what one would expect of it.

    ** How the code is modelled

    - Fallible code returns [result]: [Ok], [Err] or [Panic].  Arithmetic takes
      a flag for the build profile: overflow panics or wraps.
    - A Rust string is a sequence of 8-bit characters.  The methods that need
      Unicode tables (case, white space, alphanumeric) follow ASCII, except in
      [Anonymizer], where a string is its UTF-8 bytes.
    - Doubles are the Standard Library's [spec_float], so every operation
      computes.
    - Code of other crates is a class of operations, with the documented laws
      the proofs use in a second class: [ValueExternals] (decimals and dates),
      [AuditExternals] (SHA-256, Ed25519, hexadecimal, serde), [KvStore]
      (RocksDB), [WalCodec] (bincode, CRC-32), [PetGraph] (petgraph), [Codec]
      (bincode, zstd), [IndexDb], [VersionCache] and [IndexCodec] (RocksDB, lru
      and bincode under the bitemporal indexes), [HashOrder], [RegistryDb] and
      [RegistryCodec] (hash tables, RocksDB and serde under the shard registry),
      [ShardNet] (the network and the shards behind it), [StoreCrates] (the
      Turtle parser and UUIDs), [RegexCrate] (regex), [ExecOrder], [JobDb] and
      [BatchEnv] (hash tables, RocksDB, and what an action of a workflow does),
      [LineageDb], [RowDb], [SchemaDb] and [ColumnDb] (RocksDB, serde, bincode and
      zstd under the stores of lineage), [SetOrder] and [ReportOrder] (hash sets),
      [AnonymizerEnv] (SHA-256 and the numeric characters); [f64::log2] is an argument.
      Each has a concrete instance on which the theorems are applied.
    - Tasks spawned on the runtime are resumptions: atomic actions on the shared
      state, between which other tasks may act.  A schedule is a list of the tasks
      that act next and an argument of the caller; theorems hold for all of them.
      Locks and semaphores only forbid schedules.
    - Operations behind a lock are single steps on an explicit state; the clock,
      the answers of the file system and the iteration order of hash tables are
      arguments.  A change of the workflow registry takes its lock twice, so it
      is two steps, and [engine_step] has their interleavings.
    - Recursion is structural on the data, with four exceptions.  The printer of
      doubles in [F64] searches the shortest text among up to 17 digits, which
      always suffice, and removes up to 800 trailing zeros, more than the decimal
      digits a double has.  The loops of [WalRecovery] walk over the positions of
      a file, each at least one byte further, so one more than the length of the file is
      enough fuel: they answer [None] when it is spent, which is proved never to happen.  The walks of [LineageGraph] visit a record once and push
      what it leads to, so the number of those pushes is enough, which is proved too,
      as it is that the search for cycles of [ColumnGraph] goes no deeper than the number
      of columns with events.
    - Sequence numbers of the log are [u64] counters that wrap; the theorems on
      runs of the log carry the hypothesis that they have not wrapped.

    ** What is not modelled

    The parser of the transformation language (over the [nom] crate) and its
    built-ins for dates, regular expressions and powers; logging and metrics;
    interleavings inside an operation of the circuit breaker, whose fields have
    a lock each; the log's rotation manager, which nothing calls; the runtime
    that executes workflow steps over JSON rows; the timer of the health monitor;
    the health checks, backups,
    statistics and SPARQL text of the bitemporal store; the deserializers serde
    derives; the embedded RDF store, SHACL and the log of the RDF store; single
    actions, streams, schedules, approvals and preflight checks of the workflow
    engine, and its transaction coordinator, which nothing calls; the pool of writers
    of the lineage store; consent and export of personal data, which are types
    without operations.
    Of the rest of the platform (REST interface, connectors, Raft, services and user
    interfaces) nothing; the rebalancer, the schema registry's
    compatibility checks, the string similarities of the mapping discovery and
    the bitemporal version manager are the next candidates, in this order. *)

From Stdlib Require Import ZArith Lia Ascii.
From stdpp Require Import base numbers option strings gmap list.

(** ** Results of fallible Rust code

    [Ok] and [Err] are Rust's [Result]; [Panic] is an unwinding (or aborting)
    panic: arithmetic overflow in a build with overflow checks, [unwrap] on
    [None], an out-of-range index. *)
Inductive result (E A : Type) : Type :=
  | Ok (a : A)
  | Err (e : E)
  | Panic.
Arguments Ok {E A} a.
Arguments Err {E A} e.
Arguments Panic {E A}.

#[global] Instance result_ret {E} : MRet (result E) := λ A a, Ok a.
#[global] Instance result_bind {E} : MBind (result E) := λ A B f m,
  match m with
  | Ok a => f a
  | Err e => Err e
  | Panic => Panic
  end.
#[global] Instance result_fmap {E} : FMap (result E) := λ A B f m,
  match m with
  | Ok a => Ok (f a)
  | Err e => Err e
  | Panic => Panic
  end.

#[global] Instance result_eq_dec {E A} `{EqDecision E, EqDecision A} :
  EqDecision (result E A).
Proof. solve_decision. Defined.

(** Rust's [Option::ok_or_else]. *)
Definition ok_or {E A} (o : option A) (e : E) : result E A :=
  match o with
  | Some a => Ok a
  | None => Err e
  end.

(** [iter().map(f).collect::<Result<Vec<_>>>()]: stops at the first failure. *)
Section ResultMap.
Context {E A B : Type} (f : A → result E B).

Fixpoint result_mapM (l : list A) : result E (list B) :=
  match l with
  | [] => Ok []
  | x :: l' =>
      match f x with
      | Ok y =>
          match result_mapM l' with
          | Ok ys => Ok (y :: ys)
          | Err e => Err e
          | Panic => Panic
          end
      | Err e => Err e
      | Panic => Panic
      end
  end.
End ResultMap.

(** Facts about the range of machine integers, for [auto]. *)
Create HintDb machine_int.

(** A [for] loop over a list whose body can fail. *)
Section ResultFold.
Context {E A S : Type} (f : S → A → result E S).

Fixpoint result_foldM (acc : S) (l : list A) : result E S :=
  match l with
  | [] => Ok acc
  | x :: l' =>
      match f acc x with
      | Ok acc' => result_foldM acc' l'
      | Err e => Err e
      | Panic => Panic
      end
  end.
End ResultFold.

(** Break the [match]es on results in the context and in the goal. *)
Ltac break_result :=
  repeat match goal with
  | H : Ok _ = Ok _ |- _ => injection H as H; simplify_eq
  | H : Err _ = Err _ |- _ => injection H as H; simplify_eq
  | H : Ok _ = Err _ |- _ => discriminate H
  | H : Ok _ = Panic |- _ => discriminate H
  | H : Err _ = Ok _ |- _ => discriminate H
  | H : Err _ = Panic |- _ => discriminate H
  | H : Panic = Ok _ |- _ => discriminate H
  | H : Panic = Err _ |- _ => discriminate H
  | H : context [mbind ?f ?m] |- _ =>
      unfold mbind, result_bind in H
  | H : context [match ?m with Ok _ => _ | Err _ => _ | Panic => _ end] |- _ =>
      let E := fresh "E" in destruct m eqn:E
  end.

Lemma result_bind_Ok {E A B} (m : result E A) (f : A → result E B) b :
  (m ≫= f) = Ok b ↔ ∃ a, m = Ok a ∧ f a = Ok b.
Proof. destruct m; simpl; naive_solver. Qed.

Lemma result_mapM_Ok {E A B} (f : A → result E B) l k :
  result_mapM f l = Ok k ↔ Forall2 (λ x y, f x = Ok y) l k.
Proof.
  split.
  - revert k. induction l as [|x l IH]; simpl; intros k H; break_result; eauto.
  - induction 1 as [|x y l k Hx _ IH]; simpl; [done|]. by rewrite Hx, IH.
Qed.

Lemma result_mapM_ext {E A B} (f g : A → result E B) l :
  Forall (λ x, f x = g x) l → result_mapM f l = result_mapM g l.
Proof. induction 1 as [|x l Hx _ IH]; simpl; [done|]. by rewrite Hx, IH. Qed.

Lemma result_mapM_length {E A B} (f : A → result E B) l k :
  result_mapM f l = Ok k → length k = length l.
Proof. rewrite result_mapM_Ok. intros H. symmetry. by eapply Forall2_length. Qed.

Lemma result_mapM_total {E A B} (f : A → B) l :
  result_mapM (λ x, Ok (E := E) (f x)) l = Ok (map f l).
Proof. induction l as [|x l IH]; simpl; [done|]. by rewrite IH. Qed.

(** A loop that keeps an invariant indexed by the elements already processed
    and whose body succeeds under it runs to the end. *)
Lemma result_foldM_prefix {E A S} (f : S → A → result E S) (I : list A → S → Prop) l acc :
  I [] acc →
  (∀ pre x post s, l = pre ++ x :: post → I pre s → ∃ s', f s x = Ok s' ∧ I (pre ++ [x]) s') →
  ∃ s', result_foldM f acc l = Ok s' ∧ I l s'.
Proof.
  intros HI Hstep.
  cut (∀ post pre s, l = pre ++ post → I pre s → ∃ s', result_foldM f s post = Ok s' ∧ I l s').
  { intros Hc. by apply (Hc l []). }
  induction post as [|x post IH]; intros pre s Hl Hs; simpl.
  - rewrite app_nil_r in Hl. subst pre. eauto.
  - destruct (Hstep pre x post s Hl Hs) as (s' & -> & Hs').
    apply (IH (pre ++ [x])); [|done]. by rewrite <- app_assoc.
Qed.

(** A [for i in 0..n] loop that keeps an invariant indexed by the iteration and
    whose body succeeds under it runs to the end. *)
Lemma result_foldM_seq {E S} (f : S → nat → result E S) (I : nat → S → Prop) start n acc :
  I start acc →
  (∀ i s, (start ≤ i < start + n)%nat → I i s → ∃ s', f s i = Ok s' ∧ I (Datatypes.S i) s') →
  ∃ s', result_foldM f acc (seq start n) = Ok s' ∧ I (start + n)%nat s'.
Proof.
  revert start acc. induction n as [|n IH]; intros start acc HI Hstep; simpl.
  - exists acc. by rewrite Nat.add_0_r.
  - destruct (Hstep start acc) as (s' & Hs' & HI'); [lia|done|]. rewrite Hs'.
    destruct (IH (Datatypes.S start) s' HI') as (s'' & Hs'' & HI'').
    { intros i s Hi. apply Hstep. lia. }
    exists s''. split; [done|]. by replace (start + Datatypes.S n)%nat with (Datatypes.S start + n)%nat by lia.
Qed.

(** Elements paired with their positions. *)
Lemma imap_pair_snd {A} (l : list A) : (imap pair l).*2 = l.
Proof.
  rewrite fmap_imap. unfold compose. simpl. rewrite <- (list_fmap_id l) at 2.
  apply imap_const.
Qed.
