(* ===== verification/RustStd.v ===== *)
(** * The part of Rust's language and standard library the components use

    Machine integers with the two overflow behaviours of the build profiles,
    the [str] methods, and decimal conversion of integers.  A Rust string is a
    Rocq [string], its bytes.  The methods that depend on the Unicode tables
    ([to_uppercase], [to_lowercase], [trim]) are modelled on ASCII text: a byte
    above 127 is left as it is. *)

From Stdlib Require Import ZArith Lia Ascii.
From Stdlib Require String Decimal DecimalString DecimalZ.
From stdpp Require Import base numbers option strings gmap list.
From S2P Require Import Prelude.

Open Scope Z_scope.

(** ** 64-bit signed integers *)

Definition i64_min : Z := - 2 ^ 63.
Definition i64_max : Z := 2 ^ 63 - 1.
Definition in_i64 (z : Z) : bool := (i64_min <=? z) && (z <=? i64_max).

(** Two's complement truncation to 64 bits. *)
Definition wrap_i64 (z : Z) : Z := (z + 2 ^ 63) mod 2 ^ 64 - 2 ^ 63.

(** [usize] of a 64-bit target; [z as usize] of an [i64]. *)
Definition as_usize (z : Z) : Z := z mod 2 ^ 64.

Section Checked.
Context {E : Type}.
(** [overflow-checks] of the build profile: set in [dev], off in [release]. *)
Context (overflow_checks : bool).

Definition i64_checked (z : Z) : result E Z :=
  if in_i64 z then Ok z
  else if overflow_checks then Panic else Ok (wrap_i64 z).

Definition i64_add (a b : Z) : result E Z := i64_checked (a + b).
Definition i64_sub (a b : Z) : result E Z := i64_checked (a - b).
Definition i64_mul (a b : Z) : result E Z := i64_checked (a * b).
Definition i64_neg (a : Z) : result E Z := i64_checked (- a).
Definition i64_abs (a : Z) : result E Z := i64_checked (Z.abs a).

(** Division and remainder truncate toward zero; [i64::MIN / -1] and
    [i64::MIN % -1] panic in every profile, and so does a zero divisor. *)
Definition i64_div (a b : Z) : result E Z :=
  if b =? 0 then Panic
  else if (a =? i64_min) && (b =? -1) then Panic
  else Ok (Z.quot a b).

Definition i64_rem (a b : Z) : result E Z :=
  if b =? 0 then Panic
  else if (a =? i64_min) && (b =? -1) then Panic
  else Ok (Z.rem a b).
End Checked.

Lemma in_i64_spec z : in_i64 z = true ↔ i64_min ≤ z ≤ i64_max.
Proof. unfold in_i64. rewrite andb_true_iff, !Z.leb_le. done. Qed.

Lemma wrap_i64_range z : in_i64 (wrap_i64 z) = true.
Proof.
  rewrite in_i64_spec. unfold wrap_i64, i64_min, i64_max.
  pose proof (Z.mod_pos_bound (z + 2 ^ 63) (2 ^ 64) ltac:(lia)). lia.
Qed.

Lemma wrap_i64_id z : in_i64 z = true → wrap_i64 z = z.
Proof.
  rewrite in_i64_spec. unfold wrap_i64, i64_min, i64_max. intros ?.
  rewrite Z.mod_small by lia. lia.
Qed.

Lemma i64_checked_in {E} oc z : in_i64 z = true → i64_checked (E := E) oc z = Ok z.
Proof. intros H. unfold i64_checked. by rewrite H. Qed.

Lemma i64_checked_range {E} oc z r :
  i64_checked (E := E) oc z = Ok r → in_i64 r = true.
Proof.
  unfold i64_checked. destruct (in_i64 z) eqn:H; [|destruct oc]; intros ?;
    simplify_eq; [done|apply wrap_i64_range].
Qed.

Lemma i64_rem_range {E} a b r :
  in_i64 a = true → in_i64 b = true → i64_rem (E := E) a b = Ok r → in_i64 r = true.
Proof.
  rewrite !in_i64_spec. unfold i64_rem, i64_min, i64_max. intros Ha Hb Hr.
  destruct (b =? 0) eqn:Hz; [done|].
  destruct ((a =? - 2 ^ 63) && (b =? -1)); simplify_eq.
  apply Z.eqb_neq in Hz. pose proof (Z.rem_bound_abs a b Hz). lia.
Qed.

Lemma i64_div_range {E} a b r :
  in_i64 a = true → in_i64 b = true → i64_div (E := E) a b = Ok r → in_i64 r = true.
Proof.
  rewrite !in_i64_spec. unfold i64_div, i64_min, i64_max.
  intros Ha Hb. destruct (b =? 0) eqn:Hz; [done|].
  destruct ((a =? - 2 ^ 63) && (b =? -1)) eqn:Hm; intros ?; simplify_eq.
  apply Z.eqb_neq in Hz. apply andb_false_iff in Hm. rewrite !Z.eqb_neq in Hm.
  destruct (decide (b = -1)) as [->|].
  - change (-1) with (- (1)). rewrite Z.quot_opp_r, Z.quot_1_r by lia. lia.
  - assert (Z.abs (Z.quot a b) <= Z.abs a) as Hq.
    { rewrite <- Z.quot_abs by done. apply Z.quot_le_upper_bound; [lia|]. nia. }
    destruct (decide (Z.quot a b = 2 ^ 63)) as [Eq|]; [|lia].
    assert (a = - 2 ^ 63) as -> by lia.
    pose proof (Z.quot_rem' (- 2 ^ 63) b) as Hqr. rewrite Eq in Hqr.
    pose proof (Z.rem_bound_abs (- 2 ^ 63) b Hz). lia.
Qed.

#[export] Hint Resolve wrap_i64_range i64_checked_range i64_rem_range i64_div_range
  : machine_int.
#[export] Hint Unfold i64_add i64_sub i64_mul i64_neg i64_abs : machine_int.

(** ** Decimal text of integers *)

(** [i64::to_string]. *)
Definition i64_to_string (z : Z) : string :=
  DecimalString.NilZero.string_of_int (Z.to_int z).

(** A non-empty run of ASCII digits. *)
Definition parse_digits (s : string) : option Z :=
  Z.of_uint <$> DecimalString.NilZero.uint_of_string s.

(** [<i64 as FromStr>::from_str]: an optional sign, digits, no overflow. *)
Definition i64_from_str (s : string) : option Z :=
  let signed :=
    match s with
    | String "+" r => parse_digits r
    | String "-" r => Z.opp <$> parse_digits r
    | _ => parse_digits s
    end in
  z ← signed; if in_i64 z then Some z else None.

Lemma parse_digits_to_string (d : Decimal.uint) :
  d ≠ Decimal.Nil →
  parse_digits (DecimalString.NilZero.string_of_uint d) = Some (Z.of_uint d).
Proof.
  intros Hd. unfold parse_digits.
  assert (DecimalString.NilZero.uint_of_string
            (DecimalString.NilZero.string_of_uint d) = Some d) as ->; [|done].
  rewrite DecimalString.NilZero.usu by done. done.
Qed.

Lemma pos_to_uint_nonnil p : Pos.to_uint p ≠ Decimal.Nil.
Proof. apply DecimalPos.Unsigned.to_uint_nonnil. Qed.

Lemma string_of_uint_head (d : Decimal.uint) :
  match DecimalString.NilZero.string_of_uint d with
  | String "+" _ | String "-" _ => False
  | _ => True
  end.
Proof. by destruct d. Qed.

(** Printing an [i64] and parsing the text back is the identity. *)
Lemma i64_from_to_string z :
  in_i64 z = true → i64_from_str (i64_to_string z) = Some z.
Proof.
  intros Hz. unfold i64_from_str, i64_to_string.
  destruct z as [|p|p]; [done| |]; simpl.
  - pose proof (string_of_uint_head (Pos.to_uint p)) as Hh.
    assert (parse_digits (DecimalString.NilZero.string_of_uint (Pos.to_uint p))
            = Some (Zpos p)) as Hp.
    { rewrite parse_digits_to_string by apply pos_to_uint_nonnil.
      f_equal. apply (DecimalZ.of_to (Zpos p)). }
    destruct (DecimalString.NilZero.string_of_uint (Pos.to_uint p)) as [|c r];
      [by rewrite Hp; simpl; rewrite Hz|].
    destruct c as [[][][][][][][][]]; try done; rewrite Hp; simpl; by rewrite Hz.
  - rewrite parse_digits_to_string by apply pos_to_uint_nonnil. simpl.
    replace (- Z.of_uint (Pos.to_uint p)) with (Zneg p).
    + by rewrite Hz.
    + symmetry. apply (DecimalZ.of_to (Zneg p)).
Qed.

Close Scope Z_scope.

(** ** Characters and [str] methods *)

Definition ascii_to_upper (c : ascii) : ascii :=
  let n := nat_of_ascii c in
  if (97 <=? n)%nat && (n <=? 122)%nat then ascii_of_nat (n - 32) else c.

Definition ascii_to_lower (c : ascii) : ascii :=
  let n := nat_of_ascii c in
  if (65 <=? n)%nat && (n <=? 90)%nat then ascii_of_nat (n + 32) else c.

Fixpoint str_map (f : ascii → ascii) (s : string) : string :=
  match s with
  | EmptyString => EmptyString
  | String c s' => String (f c) (str_map f s')
  end.

Definition to_uppercase : string → string := str_map ascii_to_upper.
Definition to_lowercase : string → string := str_map ascii_to_lower.

(** [char::is_whitespace] on ASCII. *)
Definition is_whitespace (c : ascii) : bool := Ascii.is_space c.

Fixpoint trim_start (s : string) : string :=
  match s with
  | EmptyString => EmptyString
  | String c s' => if is_whitespace c then trim_start s' else s
  end.

Fixpoint trim_end (s : string) : string :=
  match s with
  | EmptyString => EmptyString
  | String c s' =>
      match trim_end s' with
      | EmptyString => if is_whitespace c then EmptyString else String c EmptyString
      | t => String c t
      end
  end.

Definition trim (s : string) : string := trim_end (trim_start s).

(** [&s[n..]], [chars().skip(n)], [chars().take(n)]. *)
Fixpoint str_drop (n : nat) (s : string) : string :=
  match n, s with
  | O, _ => s
  | S n', String _ s' => str_drop n' s'
  | S _, EmptyString => EmptyString
  end.

Fixpoint str_take (n : nat) (s : string) : string :=
  match n, s with
  | S n', String c s' => String c (str_take n' s')
  | _, _ => EmptyString
  end.

Fixpoint str_rev_app (s acc : string) : string :=
  match s with
  | EmptyString => acc
  | String c s' => str_rev_app s' (String c acc)
  end.

(** [chars().rev().collect()]. *)
Definition str_rev (s : string) : string := str_rev_app s EmptyString.

Fixpoint str_repeat (s : string) (n : nat) : string :=
  match n with
  | O => EmptyString
  | S n' => s +:+ str_repeat s n'
  end.

Fixpoint str_contains_char (c : ascii) (s : string) : bool :=
  match s with
  | EmptyString => false
  | String d s' => Ascii.eqb c d || str_contains_char c s'
  end.

(** [text.starts_with(part)], [text.ends_with(part)], [text.find(part)]. *)
Definition starts_with (text part : string) : bool := String.prefix part text.

Fixpoint ends_with (text part : string) : bool :=
  if String.eqb text part then true
  else match text with
       | EmptyString => false
       | String _ text' => ends_with text' part
       end.

Fixpoint str_find (text part : string) : option nat :=
  if String.prefix part text then Some 0%nat
  else match text with
       | EmptyString => None
       | String _ text' => S <$> str_find text' part
       end.

(** [s.split(c)] for a character: always at least one part. *)
Fixpoint split_char (c : ascii) (s : string) : list string :=
  match s with
  | EmptyString => [EmptyString]
  | String d s' =>
      match split_char c s' with
      | p :: ps => if Ascii.eqb c d then EmptyString :: p :: ps else String d p :: ps
      | [] => [String d EmptyString]
      end
  end.

(** *** Lemmas *)

Lemma str_app_nil_r s : s +:+ "" = s.
Proof. induction s as [|c s IH]; [done|]. unfold String.app in *; simpl. by rewrite IH. Qed.

Lemma str_app_assoc a b c : (a +:+ b) +:+ c = a +:+ (b +:+ c).
Proof.
  induction a as [|x a IH]; [done|]. unfold String.app in *; simpl. by rewrite IH.
Qed.

Lemma str_app_cons c a b : String c a +:+ b = String c (a +:+ b).
Proof. done. Qed.

Lemma str_app_length a b :
  String.length (a +:+ b) = (String.length a + String.length b)%nat.
Proof.
  induction a as [|x a IH]; [done|]. rewrite str_app_cons. simpl. by rewrite IH.
Qed.

Lemma str_app_nil_inv a b : a +:+ b = "" → a = "" ∧ b = "".
Proof. destruct a; [done|]. rewrite str_app_cons. done. Qed.

Lemma str_app_inj_l a b c : a +:+ b = a +:+ c → b = c.
Proof.
  induction a as [|x a IH]; [done|]. rewrite !str_app_cons. intros [=]. auto.
Qed.

Lemma str_drop_app a b : str_drop (String.length a) (a +:+ b) = b.
Proof. induction a as [|x a IH]; [done|]. rewrite str_app_cons. simpl. done. Qed.

Lemma str_take_app a b : str_take (String.length a) (a +:+ b) = a.
Proof. induction a as [|x a IH]; [by destruct b|]. rewrite str_app_cons. simpl. by rewrite IH. Qed.

Lemma str_take_drop n s : str_take n s +:+ str_drop n s = s.
Proof.
  revert s. induction n as [|n IH]; intros [|c s]; try done.
  cbn [str_take str_drop]. rewrite str_app_cons. by rewrite IH.
Qed.

Lemma str_take_length n s :
  (n ≤ String.length s)%nat → String.length (str_take n s) = n.
Proof. revert s. induction n as [|n IH]; intros [|c s] H; simpl in *; try lia. rewrite IH; lia. Qed.

Lemma str_take_all n s : (String.length s ≤ n)%nat → str_take n s = s.
Proof. revert n. induction s as [|c s IH]; intros [|n] H; simpl in *; try lia; [done..|]. rewrite IH; [done|lia]. Qed.

Lemma str_drop_all n s : (String.length s ≤ n)%nat → str_drop n s = "".
Proof.
  revert n. induction s as [|c s IH]; intros [|n] H; simpl in *; try lia; [done..|].
  apply IH. lia.
Qed.

Lemma str_drop_drop n m s : str_drop n (str_drop m s) = str_drop (m + n) s.
Proof.
  revert s. induction m as [|m IH]; intros s; [done|].
  destruct s as [|c s]; simpl; [by destruct n|apply IH].
Qed.

Lemma str_prefix_iff p s : String.prefix p s = true ↔ ∃ r, s = p +:+ r.
Proof.
  revert s. induction p as [|c p IH]; intros s.
  - split; [eexists; done|by destruct s].
  - destruct s as [|d s]; simpl.
    + split; [done|]. intros [r Hr]. by rewrite str_app_cons in Hr.
    + destruct (ascii_dec c d) as [->|Hn].
      * rewrite IH. setoid_rewrite str_app_cons. naive_solver.
      * split; [done|]. setoid_rewrite str_app_cons. naive_solver.
Qed.

Lemma starts_with_iff text part :
  starts_with text part = true ↔ ∃ r, text = part +:+ r.
Proof. apply str_prefix_iff. Qed.

Lemma ends_with_iff text part :
  ends_with text part = true ↔ ∃ a, text = a +:+ part.
Proof.
  induction text as [|c text IH]; cbn [ends_with].
  - destruct (String.eqb_spec "" part) as [<-|Hn]; [split; [by exists ""|done]|].
    split; [done|]. intros [a Ha]. symmetry in Ha.
    apply str_app_nil_inv in Ha as [_ Ha]. congruence.
  - destruct (String.eqb_spec (String c text) part) as [<-|Hn]; [split; [by exists ""|done]|].
    rewrite IH. split.
    + intros [a ->]. by exists (String c a).
    + intros [[|d a] Ha]; [done|]. rewrite str_app_cons in Ha. simplify_eq. eauto.
Qed.

(** [find] returns the first occurrence. *)
Lemma str_find_Some text part i :
  str_find text part = Some i →
  ∃ a b, text = a +:+ part +:+ b ∧ String.length a = i ∧
    ∀ a' b', text = a' +:+ part +:+ b' → (i ≤ String.length a')%nat.
Proof.
  revert i. induction text as [|c text IH]; intros i; cbn [str_find];
    destruct (String.prefix part _) eqn:Hp.
  1,3: intros ?; simplify_eq; apply str_prefix_iff in Hp as [r ->];
       exists "", r; split_and!; [done|done|lia].
  - done.
  - destruct (str_find text part) as [j|] eqn:Hf; simpl; intros ?; simplify_eq.
    destruct (IH j eq_refl) as (a & b & -> & Hj & Hmin).
    exists (String c a), b. split_and!; [done|simpl; lia|].
    intros [|d a'] b' Heq.
    + exfalso. assert (String.prefix part (String c (a +:+ part +:+ b)) = true); [|congruence].
      apply str_prefix_iff. by exists b'.
    + rewrite str_app_cons in Heq. injection Heq as -> Heq. simpl.
      specialize (Hmin a' b' Heq). lia.
Qed.

Lemma str_find_None text part :
  str_find text part = None → ∀ a b, text ≠ a +:+ part +:+ b.
Proof.
  induction text as [|c text IH]; cbn [str_find];
    destruct (String.prefix part _) eqn:Hp; try done.
  - intros _ a b Heq. symmetry in Heq. apply str_app_nil_inv in Heq as [_ Heq].
    apply str_app_nil_inv in Heq as [-> ->]. done.
  - destruct (str_find text part) eqn:Hf; [done|]. intros _ [|d a] b Heq.
    + assert (String.prefix part (String c text) = true); [|congruence].
      apply str_prefix_iff. by exists b.
    + rewrite str_app_cons in Heq. injection Heq as -> Heq. by eapply IH.
Qed.

Lemma str_find_total text part :
  (∃ a b, text = a +:+ part +:+ b) → ∃ i, str_find text part = Some i.
Proof.
  intros (a & b & Heq). destruct (str_find text part) as [i|] eqn:Hf; [eauto|].
  by destruct (str_find_None _ _ Hf a b).
Qed.

(** The parts of a split, joined with the separator, give the text back, and no
    part contains the separator. *)
Fixpoint str_join (c : ascii) (ps : list string) : string :=
  match ps with
  | [] => EmptyString
  | [p] => p
  | p :: ps' => p +:+ String c (str_join c ps')
  end.

Lemma split_char_nonempty c s : split_char c s ≠ [].
Proof.
  destruct s as [|d s]; simpl; [done|]. destruct (split_char c s); [done|].
  by destruct (Ascii.eqb c d).
Qed.

Lemma split_char_join c s : str_join c (split_char c s) = s.
Proof.
  induction s as [|d s IH]; [done|]. cbn [split_char].
  destruct (split_char c s) as [|p ps] eqn:E; [by apply split_char_nonempty in E|].
  destruct (Ascii.eqb_spec c d) as [->|Hn].
  - cbn [str_join]. unfold String.app at 1. simpl. by rewrite <- IH.
  - rewrite <- IH. destruct ps; [done|]. cbn [str_join]. by rewrite str_app_cons.
Qed.

Lemma split_char_no_sep c s :
  Forall (λ p, str_contains_char c p = false) (split_char c s).
Proof.
  induction s as [|d s IH]; cbn [split_char]; [by repeat constructor|].
  destruct (split_char c s) as [|p ps] eqn:E; [by apply split_char_nonempty in E|].
  inversion_clear IH as [|? ? Hp Hps].
  destruct (Ascii.eqb_spec c d) as [->|Hn]; [by repeat constructor|].
  constructor; [|done]. simpl. rewrite Hp.
  by rewrite (proj2 (Ascii.eqb_neq c d)).
Qed.

(** *** Searching, splitting and counting with 64-bit sizes *)

Definition str_size (s : string) : Z := Z.of_nat (String.length s).

Lemma str_drop_size n s :
  (0 ≤ n ≤ str_size s)%Z → str_size (str_drop (Z.to_nat n) s) = (str_size s - n)%Z.
Proof.
  unfold str_size. intros Hn.
  assert (∀ k t, String.length (str_drop k t) = (String.length t - k)%nat) as Hl.
  { induction k as [|k IH]; intros [|c t]; simpl; auto. }
  rewrite Hl. lia.
Qed.

(** [chars().skip(n)] and [chars().take(n)] for a [usize] count. *)
Definition str_skip (n : Z) (s : string) : string :=
  str_drop (Z.to_nat (Z.min n (str_size s))) s.
Definition str_takez (n : Z) (s : string) : string :=
  str_take (Z.to_nat (Z.min n (str_size s))) s.

(** [s.replace(from, to)]: leftmost non-overlapping matches; an empty pattern
    matches between any two characters and at both ends. *)
Fixpoint replace_from (skip : nat) (from to s : string) : string :=
  match s with
  | EmptyString => EmptyString
  | String c s' =>
      match skip with
      | S k => replace_from k from to s'
      | O =>
          if String.prefix from s
          then to +:+ replace_from (String.length from - 1) from to s'
          else String c (replace_from 0 from to s')
      end
  end.

Fixpoint replace_empty (to s : string) : string :=
  match s with
  | EmptyString => to
  | String c s' => to +:+ String c (replace_empty to s')
  end.

Definition str_replace (s from to : string) : string :=
  match from with
  | EmptyString => replace_empty to s
  | _ => replace_from 0 from to s
  end.

(** [s.split(pat)] for a string pattern. *)
Fixpoint split_from (skip : nat) (pat s : string) : list string :=
  match s with
  | EmptyString => [EmptyString]
  | String c s' =>
      match skip with
      | S k => split_from k pat s'
      | O =>
          if String.prefix pat s
          then EmptyString :: split_from (String.length pat - 1) pat s'
          else match split_from 0 pat s' with
               | p :: ps => String c p :: ps
               | [] => [String c EmptyString]
               end
      end
  end.

Fixpoint split_chars (s : string) : list string :=
  match s with
  | EmptyString => [EmptyString]
  | String c s' => String c EmptyString :: split_chars s'
  end.

Definition str_split (s pat : string) : list string :=
  match pat with
  | EmptyString => EmptyString :: split_chars s
  | _ => split_from 0 pat s
  end.

(** [s.split_whitespace()]. *)
Fixpoint split_ws (s : string) : list string :=
  match s with
  | EmptyString => [EmptyString]
  | String c s' =>
      match split_ws s' with
      | p :: ps => if is_whitespace c then EmptyString :: p :: ps else String c p :: ps
      | [] => [String c EmptyString]
      end
  end.

Definition nonempty_str (s : string) : bool := negb (String.eqb s "").
Definition split_whitespace (s : string) : list string := List.filter nonempty_str (split_ws s).

(** [char::is_alphanumeric] on ASCII. *)
Definition is_alphanumeric (c : ascii) : bool :=
  let n := nat_of_ascii c in
  ((48 <=? n) && (n <=? 57) || (65 <=? n) && (n <=? 90) || (97 <=? n) && (n <=? 122))%nat.

Example replace_ex1 : str_replace "aaa" "aa" "b" = "ba". Proof. reflexivity. Qed.
Example replace_ex2 : str_replace "ab" "" "-" = "-a-b-". Proof. reflexivity. Qed.
Example split_ex1 : str_split "a,b,,c" "," = ["a"; "b"; ""; "c"]. Proof. reflexivity. Qed.
Example split_ex2 : str_split "ab" "" = [""; "a"; "b"; ""]. Proof. reflexivity. Qed.
Example split_ex3 : split_whitespace "  ab c " = ["ab"; "c"]. Proof. reflexivity. Qed.

(** ** The order of [str] *)

(** Bytes, from the left. *)
Fixpoint str_leb (a b : string) : bool :=
  match a, b with
  | EmptyString, _ => true
  | String _ _, EmptyString => false
  | String x a', String y b' =>
      let i := nat_of_ascii x in
      let j := nat_of_ascii y in
      (i <? j)%nat || ((i =? j)%nat && str_leb a' b')
  end.

Lemma str_leb_total a b : str_leb a b = true ∨ str_leb b a = true.
Proof.
  revert b. induction a as [|x a IH]; intros [|y b]; simpl; auto.
  destruct (Nat.ltb_spec (nat_of_ascii x) (nat_of_ascii y)); [by left|].
  destruct (Nat.ltb_spec (nat_of_ascii y) (nat_of_ascii x)); [by right|].
  assert (nat_of_ascii x = nat_of_ascii y) as -> by lia. rewrite !Nat.eqb_refl. apply IH.
Qed.

Lemma str_leb_trans a b c : str_leb a b = true → str_leb b c = true → str_leb a c = true.
Proof.
  revert b c. induction a as [|x a IH]; intros [|y b] [|z c]; simpl; try done.
  rewrite !orb_true_iff, !andb_true_iff, !Nat.ltb_lt, !Nat.eqb_eq.
  intros [?|[? ?]] [?|[? ?]]; [left; lia..|]. right. split; [lia|eauto].
Qed.

(** ** [s.chars().all(p)] *)

Fixpoint str_all (p : ascii → bool) (s : string) : bool :=
  match s with
  | EmptyString => true
  | String c s' => p c && str_all p s'
  end.

Lemma str_all_app p a b : str_all p (a +:+ b) = str_all p a && str_all p b.
Proof. induction a as [|c a IH]; simpl; [done|]. by rewrite IH, andb_assoc. Qed.

Lemma str_all_impl (p q : ascii → bool) s :
  (∀ c, p c = true → q c = true) → str_all p s = true → str_all q s = true.
Proof.
  intros Hpq. induction s as [|c s IH]; simpl; [done|].
  rewrite !andb_true_iff. naive_solver.
Qed.
