(* ===== verification/Bytes.v ===== *)
(** * Bytes and the fixed-width encodings of integers

    The conversions of the standard library between integers and byte arrays,
    most significant byte first (the keys of the audit store) and least
    significant byte first (the fixed-width integers of the write-ahead log). *)

From Stdlib Require Import ZArith Lia Ascii.
From stdpp Require Import base numbers option strings list countable.
From S2P Require Import Prelude.

Abbreviation byte := Byte.byte.

(** ** Big-endian integers *)

(** The low byte of an integer. *)
Definition low_byte (z : Z) : byte :=
  default Byte.x00 (Byte.of_N (Z.to_N (z mod 256))).
Definition byte_val (b : byte) : Z := Z.of_N (Byte.to_N b).

(** [u64::to_be_bytes]: most significant byte first. *)
Definition to_be_bytes (z : Z) : list byte :=
  map (λ k, low_byte (Z.shiftr z (8 * k))) [7; 6; 5; 4; 3; 2; 1; 0]%Z.

(** [u64::from_be_bytes]. *)
Definition from_be_bytes (bs : list byte) : Z :=
  foldl (λ acc b, acc * 256 + byte_val b)%Z 0%Z bs.

Lemma byte_val_low z : byte_val (low_byte z) = (z mod 256)%Z.
Proof.
  unfold byte_val, low_byte. pose proof (Z.mod_pos_bound z 256 ltac:(lia)) as Hz.
  destruct (Byte.of_N (Z.to_N (z mod 256))) as [b|] eqn:Hb.
  - apply Byte.to_of_N in Hb. simpl. rewrite Hb. lia.
  - apply Byte.of_N_None_iff in Hb. lia.
Qed.

Lemma from_to_be_bytes z :
  (0 ≤ z < 2 ^ 64)%Z → from_be_bytes (to_be_bytes z) = z.
Proof.
  intros Hz. unfold from_be_bytes, to_be_bytes. cbn [map foldl].
  rewrite !byte_val_low, !Z.shiftr_div_pow2 by lia. simpl (2 ^ (8 * _))%Z.
  Z.to_euclidean_division_equations. lia.
Qed.

Lemma to_be_bytes_inj a b :
  (0 ≤ a < 2 ^ 64)%Z → (0 ≤ b < 2 ^ 64)%Z → to_be_bytes a = to_be_bytes b → a = b.
Proof. intros Ha Hb E. by rewrite <- (from_to_be_bytes a), E, from_to_be_bytes. Qed.

(** ** Little-endian integers *)

(** [to_le_bytes] of an integer of [n] bytes. *)
Fixpoint to_le_bytes (n : nat) (z : Z) : list byte :=
  match n with
  | O => []
  | S n' => low_byte z :: to_le_bytes n' (z / 256)%Z
  end.

(** [from_le_bytes]. *)
Fixpoint from_le_bytes (bs : list byte) : Z :=
  match bs with
  | [] => 0%Z
  | b :: bs' => (byte_val b + 256 * from_le_bytes bs')%Z
  end.

Lemma byte_val_range b : (0 ≤ byte_val b < 256)%Z.
Proof. unfold byte_val. pose proof (Byte.to_N_bounded b). lia. Qed.

#[export] Hint Resolve byte_val_range : machine_int.

Lemma byte_val_inj a b : byte_val a = byte_val b → a = b.
Proof.
  unfold byte_val. intros E. assert (Byte.to_N a = Byte.to_N b) as E' by lia.
  apply (f_equal Byte.of_N) in E'. rewrite !Byte.of_to_N in E'. congruence.
Qed.

Lemma to_le_bytes_length n z : length (to_le_bytes n z) = n.
Proof. revert z. induction n as [|n IH]; intros z; simpl; [done|]. by rewrite IH. Qed.

Lemma from_to_le_bytes n z :
  (0 ≤ z < 256 ^ Z.of_nat n)%Z → from_le_bytes (to_le_bytes n z) = z.
Proof.
  revert z. induction n as [|n IH]; intros z Hz; simpl; [simpl in Hz; lia|].
  rewrite byte_val_low, IH.
  - pose proof (Z.div_mod z 256). lia.
  - rewrite Nat2Z.inj_succ, Z.pow_succ_r in Hz by lia.
    split; [apply Z.div_pos; lia|]. apply Z.div_lt_upper_bound; lia.
Qed.

Lemma from_le_bytes_range bs : (0 ≤ from_le_bytes bs < 256 ^ Z.of_nat (length bs))%Z.
Proof.
  induction bs as [|b bs IH]; [simpl; lia|]. cbn [from_le_bytes length].
  rewrite Nat2Z.inj_succ, Z.pow_succ_r by lia. pose proof (byte_val_range b). lia.
Qed.

#[global] Instance byte_eq_dec : EqDecision byte := Byte.byte_eq_dec.

#[global] Program Instance byte_countable : Countable byte :=
  inj_countable Byte.to_N Byte.of_N _.
Next Obligation. apply Byte.of_to_N. Qed.

(** ** Numbers as bytes *)

(** A positive as one byte per bit. *)
Fixpoint pos_bytes (p : positive) : list byte :=
  match p with
  | xH => []
  | xO p' => Byte.x00 :: pos_bytes p'
  | xI p' => Byte.x01 :: pos_bytes p'
  end.

Fixpoint bytes_pos (bs : list byte) : positive :=
  match bs with
  | [] => xH
  | Byte.x00 :: bs' => xO (bytes_pos bs')
  | _ :: bs' => xI (bytes_pos bs')
  end.

Lemma bytes_pos_bytes p : bytes_pos (pos_bytes p) = p.
Proof. induction p as [p IH|p IH|]; simpl; congruence. Qed.
