(* ===== verification/Effects.v ===== *)
(** * Methods with state and errors

    A Rust method that takes [&self] with interior mutability (or [&mut self])
    and returns a [Result] is a function from a state to the state it leaves and
    its result.  An error does not undo the changes made before it.  The monad
    of such functions is [method]; [preserves] is the partial-correctness triple
    with the same assertion before and after, on every outcome. *)

From stdpp Require Import base option list.
From S2P Require Import Prelude.

Section Method.
Context {S E : Type}.

Definition method (A : Type) : Type := S → S * result E A.

Definition method_ret A (a : A) : method A := λ s, (s, Ok a).

Definition method_bind A B (f : A → method B) (m : method A) : method B :=
  λ s, match m s with
       | (s', Ok a) => f a s'
       | (s', Err e) => (s', Err e)
       | (s', Panic) => (s', Panic)
       end.

(** [return Err(e)], a read and a write of the state. *)
Definition fail {A} (e : E) : method A := λ s, (s, Err e).
Definition panic {A} : method A := λ s, (s, Panic).
Definition gets {A} (f : S → A) : method A := λ s, (s, Ok (f s)).
Definition modify (f : S → S) : method unit := λ s, (f s, Ok tt).

(** A computation that does not touch the state. *)
Definition lift {A} (r : result E A) : method A := λ s, (s, r).

(** [if !ok { return Err(e) }]. *)
Definition guard_ok (ok : bool) (e : E) : method unit :=
  if ok then method_ret unit tt else fail e.

(** A loop over a list whose body can fail, collecting the results. *)
Section MapM.
Context {A B : Type} (f : A → method B).

Fixpoint method_mapM (l : list A) : method (list B) :=
  match l with
  | [] => method_ret _ []
  | x :: l' =>
      method_bind _ _ (λ y, method_bind _ _ (λ ys, method_ret _ (y :: ys)) (method_mapM l')) (f x)
  end.
End MapM.

(** A loop over a list whose body can fail and threads an accumulator. *)
Section FoldM.
Context {A B : Type} (f : B → A → method B).

Fixpoint method_foldM (acc : B) (l : list A) : method B :=
  match l with
  | [] => method_ret _ acc
  | x :: l' => method_bind _ _ (λ acc', method_foldM acc' l') (f acc x)
  end.
End FoldM.

(** [if let Err(e) = m { log }]: errors are dropped, a panic is not. *)
Definition ignore_errors {A} (m : method A) : method unit :=
  λ s, match m s with
       | (s', Ok _) => (s', Ok tt)
       | (s', Err _) => (s', Ok tt)
       | (s', Panic) => (s', Panic)
       end.
End Method.
Arguments method : clear implicits.

#[global] Instance method_MRet {S E} : MRet (method S E) := method_ret.
#[global] Instance method_MBind {S E} : MBind (method S E) := method_bind.

(** ** Assertions *)

Section Triples.
Context {S E : Type}.

(** Whatever the outcome, a state satisfying [P] is left in one satisfying it. *)
Definition preserves {A} (P : S → Prop) (m : method S E A) : Prop :=
  ∀ s s' r, m s = (s', r) → P s → P s'.

Lemma preserves_ret {A} (P : S → Prop) (a : A) : preserves P (mret a : method S E A).
Proof. intros s s' r [= <- <-]. done. Qed.

Lemma preserves_fail {A} (P : S → Prop) (e : E) : preserves P (fail (A := A) e).
Proof. intros s s' r [= <- <-]. done. Qed.

Lemma preserves_panic {A} (P : S → Prop) : preserves P (panic (E := E) (A := A)).
Proof. intros s s' r [= <- <-]. done. Qed.

Lemma preserves_gets {A} (P : S → Prop) (f : S → A) : preserves P (gets (E := E) f).
Proof. intros s s' r [= <- <-]. done. Qed.

Lemma preserves_lift {A} (P : S → Prop) (x : result E A) : preserves P (lift x).
Proof. intros s s' r [= <- <-]. done. Qed.

Lemma preserves_modify (P : S → Prop) (f : S → S) :
  (∀ s, P s → P (f s)) → preserves P (modify (E := E) f).
Proof. intros Hf s s' r [= <- <-]. apply Hf. Qed.

Lemma preserves_guard (P : S → Prop) ok (e : E) : preserves P (guard_ok ok e).
Proof. destruct ok; [apply preserves_ret|apply preserves_fail]. Qed.

Lemma preserves_bind {A B} (P : S → Prop) (m : method S E A) (f : A → method S E B) :
  preserves P m → (∀ a, preserves P (f a)) → preserves P (m ≫= f).
Proof.
  intros Hm Hf s s' r H Hs. unfold mbind, method_MBind, method_bind in H.
  destruct (m s) as [s1 [a|e|]] eqn:Em; [eapply Hf|..]; try done;
    simplify_eq; by eapply Hm.
Qed.

Lemma preserves_mapM {A B} (P : S → Prop) (f : A → method S E B) l :
  (∀ x, x ∈ l → preserves P (f x)) → preserves P (method_mapM f l).
Proof.
  induction l as [|x l IH]; intros Hf; simpl; [apply preserves_ret|].
  apply (preserves_bind P (f x)); [apply Hf; left|]. intros y.
  apply (preserves_bind P (method_mapM f l)); [|intros; apply preserves_ret].
  apply IH. intros z Hz. apply Hf. by right.
Qed.

Lemma preserves_ignore {A} (P : S → Prop) (m : method S E A) :
  preserves P m → preserves P (ignore_errors m).
Proof.
  intros Hm s s' r H Hs. unfold ignore_errors in H.
  destruct (m s) as [s1 [a|e|]] eqn:Em; simplify_eq; by eapply Hm.
Qed.

Lemma preserves_if {A} (P : S → Prop) (b : bool) (m1 m2 : method S E A) :
  preserves P m1 → preserves P m2 → preserves P (if b then m1 else m2).
Proof. by destruct b. Qed.

(** The outcomes of a sequence. *)
Lemma method_bind_inv {A B} (m : method S E A) (f : A → method S E B) s s' r :
  (m ≫= f) s = (s', r) →
  (∃ s1 a, m s = (s1, Ok a) ∧ f a s1 = (s', r)) ∨
  (∃ e, m s = (s', Err e) ∧ r = Err e) ∨
  (m s = (s', Panic) ∧ r = Panic).
Proof.
  unfold mbind, method_MBind, method_bind.
  destruct (m s) as [s1 [a|e|]]; intros ?; simplify_eq; eauto 10.
Qed.

Lemma method_bind_Ok {A B} (m : method S E A) (f : A → method S E B) s s' b :
  (m ≫= f) s = (s', Ok b) → ∃ s1 a, m s = (s1, Ok a) ∧ f a s1 = (s', Ok b).
Proof. intros [?|[(? & ? & ?)|[? ?]]]%method_bind_inv; naive_solver. Qed.

(** The method never panics. *)
Definition never_panics {A} (m : method S E A) : Prop := ∀ s, (m s).2 ≠ Panic.

Lemma never_panics_bind {A B} (m : method S E A) (f : A → method S E B) :
  never_panics m → (∀ a, never_panics (f a)) → never_panics (m ≫= f).
Proof.
  intros Hm Hf s. unfold mbind, method_MBind, method_bind. specialize (Hm s).
  destruct (m s) as [s1 [a|e|]]; [apply Hf|done..].
Qed.

Lemma never_panics_mapM {A B} (f : A → method S E B) l :
  (∀ x, never_panics (f x)) → never_panics (method_mapM f l).
Proof.
  intros Hf. induction l as [|x l IH]; [done|]. apply (never_panics_bind (f x)); [done|].
  intros y. by apply (never_panics_bind (method_mapM f l)).
Qed.

Lemma ignore_errors_Ok {A} (m : method S E A) s :
  never_panics m → ignore_errors m s = ((m s).1, Ok tt).
Proof.
  intros Hm. unfold ignore_errors. specialize (Hm s). by destruct (m s) as [s1 [a|e|]].
Qed.
End Triples.

Create HintDb methods.
#[export] Hint Resolve preserves_ret preserves_fail preserves_panic preserves_gets
  preserves_lift preserves_guard : methods.

(** Follow the structure of a method, leaving the writes and the calls that have
    no hint. *)
Ltac walk_method :=
  repeat match goal with
  | |- ∀ _, preserves _ _ => intros ?; cbv beta
  | |- preserves _ (_ ≫= _) => apply preserves_bind
  | |- preserves _ (if _ then _ else _) => apply preserves_if
  | |- preserves _ (ignore_errors _) => apply preserves_ignore
  | |- preserves _ (match ?x with _ => _ end) => destruct x
  | |- preserves _ _ => solve [auto with methods]
  end.

(** Unfold the monad's operations. *)
Ltac unfold_method :=
  unfold mret, method_MRet, method_ret, mbind, method_MBind, method_bind, gets, modify, lift,
    panic, fail, guard_ok in *; simpl in *.

(** ** Operations that only read

    An operation that keeps a state within [I] and ends in a value with [Q] or in
    an error with [F], never in a panic. *)

Section Reads.
Context {S E : Type} (I : S → Prop) (F : E → Prop).

Definition reads {A} (Q : A → Prop) (m : method S E A) : Prop :=
  ∀ s, I s → I (m s).1 ∧ match (m s).2 with Ok a => Q a | Err e => F e | Panic => False end.

Lemma reads_ret {A} (Q : A → Prop) a : Q a → reads Q (mret a).
Proof. intros HQ s Hs. done. Qed.

Lemma reads_gets {A} (Q : A → Prop) (f : S → A) : (∀ s, I s → Q (f s)) → reads Q (gets f).
Proof. intros HQ s Hs. split; [done|by apply HQ]. Qed.

Lemma reads_ok_or {A} (Q : A → Prop) o e :
  (∀ a, o = Some a → Q a) → (o = None → F e) → reads Q (lift (ok_or o e)).
Proof. intros H1 H2 s Hs. split; [done|]. destruct o; simpl; auto. Qed.

Lemma reads_bind {A B} (P : A → Prop) (Q : B → Prop) (m : method S E A) (f : A → method S E B) :
  reads P m → (∀ a, P a → reads Q (f a)) → reads Q (m ≫= f).
Proof.
  intros Hm Hf s Hs. specialize (Hm s Hs). unfold mbind, method_MBind, method_bind.
  destruct (m s) as [s' [a|e|]]; simpl in *; [|done..]. destruct Hm as [Hs' HP]. by apply Hf.
Qed.

Lemma reads_mapM {A B} (Q : A → B → Prop) (f : A → method S E B) l :
  (∀ x, x ∈ l → reads (Q x) (f x)) → reads (Forall2 Q l) (method_mapM f l).
Proof.
  induction l as [|x l IH]; intros Hf; [by apply reads_ret|].
  apply (reads_bind (Q x)); [apply Hf; left|]. intros y Hy.
  apply (reads_bind (Forall2 Q l)); [apply IH; intros; apply Hf; by right|].
  intros ys Hys. apply reads_ret. by constructor.
Qed.

Lemma reads_foldM {A B} (Q : list A → B → Prop) (f : B → A → method S E B) l acc :
  Q [] acc →
  (∀ l1 x l2 acc, l = l1 ++ x :: l2 → Q l1 acc → reads (Q (l1 ++ [x])) (f acc x)) →
  reads (Q l) (method_foldM f acc l).
Proof.
  intros H0 Hf. cut (∀ l2 l1 acc, l = l1 ++ l2 → Q l1 acc → reads (Q l) (method_foldM f acc l2)).
  { intros H. by apply (H l []). }
  intros l2. induction l2 as [|x l2 IH]; intros l1 acc' El HQ.
  - apply reads_ret. rewrite El. by rewrite (right_id_L [] (++)).
  - apply (reads_bind (Q (l1 ++ [x])) (Q l) (f acc' x)); [by eapply Hf|].
    intros acc'' HQ'. apply (IH (l1 ++ [x])); [by rewrite El, <- (assoc_L (++))|done].
Qed.

Lemma reads_weaken {A} (Q Q' : A → Prop) m : (∀ a, Q a → Q' a) → reads Q m → reads Q' m.
Proof.
  intros HQ Hm s Hs. destruct (Hm s Hs) as [? Hr]. split; [done|].
  destruct (m s).2; [by apply HQ|done..].
Qed.
End Reads.
