(* ===== verification/F64.v ===== *)
(** * IEEE-754 binary64, as Rust's [f64]

    Values are the Standard Library's [spec_float] at precision 53 and maximal
    exponent 1024, so every operation computes and no axiom is used.  Besides
    the arithmetic this file has the conversions the transformation engine
    relies on: [as i64], [as f64], [FromStr] and [Display]. *)

From Stdlib Require Import ZArith Lia Ascii.
From Stdlib Require String Decimal DecimalString.
From Stdlib Require Import SpecFloat.
From stdpp Require Import base numbers option strings gmap list.
From S2P Require Import Prelude RustStd.

Open Scope Z_scope.

Abbreviation f64 := spec_float.
Definition f64_prec : Z := 53.
Definition f64_emax : Z := 1024.

#[global] Instance f64_eq_dec : EqDecision f64.
Proof. solve_decision. Defined.

Definition f64_add : f64 → f64 → f64 := SFadd f64_prec f64_emax.
Definition f64_sub : f64 → f64 → f64 := SFsub f64_prec f64_emax.
Definition f64_mul : f64 → f64 → f64 := SFmul f64_prec f64_emax.
Definition f64_div : f64 → f64 → f64 := SFdiv f64_prec f64_emax.
Definition f64_neg : f64 → f64 := SFopp.
Definition f64_abs : f64 → f64 := SFabs.
Definition f64_sqrt : f64 → f64 := SFsqrt f64_prec f64_emax.

(** Rust's [==], [<] and [>] on floats: false as soon as a NaN is involved. *)
Definition f64_eqb : f64 → f64 → bool := SFeqb.
Definition f64_ltb : f64 → f64 → bool := SFltb.

Definition f64_zero : f64 := S754_zero false.
Definition f64_one : f64 := S754_finite false 4503599627370496 (-52).

(** [i as f64]: round to nearest, ties to even. *)
Definition f64_of_i64 (z : Z) : f64 := binary_normalize f64_prec f64_emax z 0 false.

(** The integer part of [m * 2^e], rounded toward minus infinity. *)
Definition scaled_floor (m e : Z) : Z := Z.shiftl m e.

(** [f as i64]: truncates toward zero, saturates, NaN becomes 0. *)
Definition saturate_i64 (z : Z) : Z := Z.max i64_min (Z.min i64_max z).
Definition f64_to_i64 (f : f64) : Z :=
  match f with
  | S754_zero _ | S754_nan => 0
  | S754_infinity s => if s then i64_min else i64_max
  | S754_finite s m e =>
      let t := scaled_floor (Zpos m) e in
      saturate_i64 (if s then - t else t)
  end.

(** [floor] and [ceil]; [-0.0], infinities and NaN are unchanged. *)
Definition f64_floor (f : f64) : f64 :=
  match f with
  | S754_finite s m e =>
      if 0 <=? e then f
      else binary_normalize f64_prec f64_emax
             (scaled_floor (if s then Zneg m else Zpos m) e) 0 s
  | _ => f
  end.

Definition f64_ceil (f : f64) : f64 := f64_neg (f64_floor (f64_neg f)).

(** ** Decimal text to float *)

(** The float nearest to [± m * 10^e]. *)
Definition f64_of_decimal (s : bool) (m : Z) (e : Z) : f64 :=
  match m with
  | Zpos p =>
      if 0 <=? e
      then binary_round f64_prec f64_emax s (p * Z.to_pos (10 ^ e)) 0
      else
        let '(q, e', l) :=
          SFdiv_core_binary f64_prec f64_emax (Zpos p) 0 (10 ^ (- e)) 0 in
        binary_round_aux f64_prec f64_emax s q e' l
  | _ => S754_zero s
  end.

Definition is_digit (c : ascii) : bool :=
  (48 <=? nat_of_ascii c)%nat && (nat_of_ascii c <=? 57)%nat.

Fixpoint span_digits (s : string) : string * string :=
  match s with
  | String c s' =>
      if is_digit c
      then let '(d, r) := span_digits s' in (String c d, r)
      else (EmptyString, s)
  | EmptyString => (EmptyString, EmptyString)
  end.

Definition digits_value (s : string) : Z := default 0 (parse_digits s).

(** The exponent part of a number: [e] or [E], an optional sign, digits; all
    of the remaining text must be consumed. *)
Definition parse_exponent (s : string) : option Z :=
  match s with
  | EmptyString => Some 0
  | String c r =>
      if Ascii.eqb c "e" || Ascii.eqb c "E" then
        match r with
        | String "+" r' => parse_digits r'
        | String "-" r' => Z.opp <$> parse_digits r'
        | _ => parse_digits r
        end
      else None
  end.

Definition parse_number (sign : bool) (s : string) : option f64 :=
  let '(d1, r1) := span_digits s in
  let '(d2, r2) :=
    match r1 with
    | String "." r => span_digits r
    | _ => (EmptyString, r1)
    end in
  if (String.length d1 + String.length d2 =? 0)%nat then None
  else
    e ← parse_exponent r2;
    Some (f64_of_decimal sign (digits_value (d1 +:+ d2)) (e - Z.of_nat (String.length d2))).

(** [<f64 as FromStr>::from_str]. *)
Definition f64_from_str (s : string) : option f64 :=
  let '(sign, body) :=
    match s with
    | String "+" r => (false, r)
    | String "-" r => (true, r)
    | _ => (false, s)
    end in
  let lower := to_lowercase body in
  if String.eqb lower "inf" || String.eqb lower "infinity" then Some (S754_infinity sign)
  else if String.eqb lower "nan" then Some S754_nan
  else parse_number sign body.

(** ** Float to decimal text *)

Definition nat_digits (z : Z) : string := i64_to_string z.

Fixpoint strip_zeros (fuel : nat) (c k : Z) : Z * Z :=
  match fuel with
  | O => (c, k)
  | S fuel' => if c mod 10 =? 0 then strip_zeros fuel' (c / 10) (k + 1) else (c, k)
  end.

(** The text of [c * 10^k] without an exponent. *)
Definition render_decimal (c k : Z) : string :=
  let ds := nat_digits c in
  let n := String.length ds in
  if 0 <=? k then ds +:+ str_repeat "0" (Z.to_nat k)
  else
    let p := Z.to_nat (- k) in
    if (p <? n)%nat then str_take (n - p) ds +:+ "." +:+ str_drop (n - p) ds
    else "0." +:+ str_repeat "0" (p - n) +:+ ds.

(** The shortest digits that read back as [f], nearest to its exact value
    [mm * 10^ee]; [len] is the number of digits of [mm]. *)
Fixpoint shortest (fuel : nat) (n : Z) (f : f64) (mm ee len : Z) : Z * Z :=
  match fuel with
  | O => (mm, ee)
  | S fuel' =>
      if len <=? n then (mm, ee)
      else
        let w := 10 ^ (len - n) in
        let lo := mm / w in
        let r := mm mod w in
        let k := ee + (len - n) in
        let ok_lo := f64_eqb (f64_of_decimal false lo k) f in
        let ok_hi := f64_eqb (f64_of_decimal false (lo + 1) k) f in
        let lo_nearer := (2 * r <? w) || ((2 * r =? w) && Z.even lo) in
        match ok_lo, ok_hi with
        | true, true => if lo_nearer then (lo, k) else (lo + 1, k)
        | true, false => (lo, k)
        | false, true => (lo + 1, k)
        | false, false => shortest fuel' (n + 1) f mm ee len
        end
  end.

(** [f64::to_string] (the [Display] form): 17 digits always suffice. *)
Definition f64_to_string (f : f64) : string :=
  match f with
  | S754_nan => "NaN"
  | S754_infinity s => if s then "-inf" else "inf"
  | S754_zero s => if s then "-0" else "0"
  | S754_finite s m e =>
      let '(mm, ee) :=
        if 0 <=? e then (Z.shiftl (Zpos m) e, 0) else (Zpos m * 5 ^ (- e), e) in
      let len := Z.of_nat (String.length (nat_digits mm)) in
      let '(c, k) := shortest 17 1 (S754_finite false m e) mm ee len in
      let '(c', k') := strip_zeros 800 c k in
      (if s then "-" else "") +:+ render_decimal c' k'
  end.

(** ** Lemmas *)

Lemma f64_eqb_refl f : f ≠ S754_nan → f64_eqb f f = true.
Proof.
  unfold f64_eqb, SFeqb. destruct f as [s|s| |s m e]; try done; simpl; intros _.
  - by destruct s.
  - rewrite Z.compare_refl. rewrite Pos.compare_cont_refl. by destruct s.
Qed.

Lemma f64_to_i64_range f : in_i64 (f64_to_i64 f) = true.
Proof.
  rewrite in_i64_spec. unfold f64_to_i64, saturate_i64, i64_min, i64_max.
  destruct f as [s|s| |s m e]; [lia|destruct s; lia|lia|lia].
Qed.

Close Scope Z_scope.

Example f64_text_1 : f64_to_string (f64_div f64_one (f64_of_i64 10)) = "0.1".
Proof. vm_compute. reflexivity. Qed.
Example f64_text_2 :
  f64_to_string <$> f64_from_str "-12.5e2" = Some "-1250".
Proof. vm_compute. reflexivity. Qed.
