(* ===== verification/TransformAst.v ===== *)
(** * Transformation engine: the expression AST

    Models [mapping/loader/transformation/ast.rs]: the expression, literal,
    operator and type enumerations, the static queries on expressions and
    their [Display] form.  The constructor prefixes [E], [L] and [Ty] stand for
    the Rust paths [Expression::], [Literal::] and [DataType::]. *)

From Stdlib Require Import ZArith Lia Ascii.
From stdpp Require Import base numbers option strings gmap list.
From S2P Require Import Prelude RustStd F64.

Inductive Literal : Type :=
  | LString (s : string)
  | LInteger (i : Z)
  | LFloat (f : f64)
  | LBoolean (b : bool)
  | LNull.

Inductive BinaryOp : Type :=
  | Add | Subtract | Multiply | Divide | Modulo
  | Concat
  | Equal | NotEqual | LessThan | LessThanOrEqual | GreaterThan | GreaterThanOrEqual
  | And | Or
  | Like | NotLike.

Inductive UnaryOp : Type :=
  | Negate | Not | IsNull | IsNotNull.

Inductive DataType : Type :=
  | TyString | TyInteger | TyFloat | TyBoolean | TyDate | TyTimestamp
  | TyDecimal (precision scale : Z)
  | TyUnknown.

Inductive Expression : Type :=
  | ELiteral (l : Literal)
  | EVariable (name : string)
  | EFunctionCall (name : string) (args : list Expression)
  | EBinaryOp (lhs : Expression) (op : BinaryOp) (rhs : Expression)
  | EUnaryOp (op : UnaryOp) (expr : Expression)
  | ECase (conditions : list (Expression * Expression)) (else_expr : option Expression)
  | ECast (expr : Expression) (target_type : DataType).

#[global] Instance Literal_eq_dec : EqDecision Literal.
Proof. solve_decision. Defined.
#[global] Instance BinaryOp_eq_dec : EqDecision BinaryOp.
Proof. solve_decision. Defined.
#[global] Instance UnaryOp_eq_dec : EqDecision UnaryOp.
Proof. solve_decision. Defined.
#[global] Instance DataType_eq_dec : EqDecision DataType.
Proof. solve_decision. Defined.

(** ** Induction over nested expressions *)

Section ExpressionInd.
Context (P : Expression → Prop).
Context (HLit : ∀ l, P (ELiteral l)).
Context (HVar : ∀ x, P (EVariable x)).
Context (HFun : ∀ f args, Forall P args → P (EFunctionCall f args)).
Context (HBin : ∀ l op r, P l → P r → P (EBinaryOp l op r)).
Context (HUn : ∀ op e, P e → P (EUnaryOp op e)).
Context (HCase : ∀ cs els,
  Forall (λ c, P c.1 ∧ P c.2) cs →
  match els with Some e => P e | None => True end →
  P (ECase cs els)).
Context (HCast : ∀ e t, P e → P (ECast e t)).

Fixpoint Expression_rec_nested (e : Expression) : P e :=
  match e with
  | ELiteral l => HLit l
  | EVariable x => HVar x
  | EFunctionCall f args =>
      HFun f args
        ((fix go (l : list Expression) : Forall P l :=
            match l with
            | [] => List.Forall_nil P
            | a :: l' => @List.Forall_cons _ P a l' (Expression_rec_nested a) (go l')
            end) args)
  | EBinaryOp l op r => HBin l op r (Expression_rec_nested l) (Expression_rec_nested r)
  | EUnaryOp op e => HUn op e (Expression_rec_nested e)
  | ECase cs els =>
      HCase cs els
        ((fix go (l : list (Expression * Expression)) :
              Forall (λ c, P c.1 ∧ P c.2) l :=
            match l with
            | [] => List.Forall_nil _
            | (c, t) :: l' =>
                @List.Forall_cons _ (λ c, P c.1 ∧ P c.2) (c, t) l'
                  (conj (Expression_rec_nested c) (Expression_rec_nested t)) (go l')
            end) cs)
        (match els with
         | Some e => Expression_rec_nested e
         | None => I
         end)
  | ECast e t => HCast e t (Expression_rec_nested e)
  end.
End ExpressionInd.

(** ** Static queries *)

(** [Expression::is_constant]. *)
Fixpoint is_constant (e : Expression) : bool :=
  match e with
  | ELiteral _ => true
  | EFunctionCall name args =>
      (String.eqb name "CURRENT_DATE" || String.eqb name "PI" || String.eqb name "E")
      || forallb is_constant args
  | EBinaryOp lhs _ rhs => is_constant lhs && is_constant rhs
  | EUnaryOp _ expr => is_constant expr
  | ECast expr _ => is_constant expr
  | _ => false
  end.

Definition literal_type (l : Literal) : DataType :=
  match l with
  | LString _ => TyString
  | LInteger _ => TyInteger
  | LFloat _ => TyFloat
  | LBoolean _ => TyBoolean
  | LNull => TyUnknown
  end.

Definition str_in (s : string) (l : list string) : bool := existsb (String.eqb s) l.

(** [Expression::infer_type]. *)
Fixpoint infer_type (e : Expression) : DataType :=
  match e with
  | ELiteral lit => literal_type lit
  | EVariable _ => TyUnknown
  | EFunctionCall name _ =>
      let n := to_uppercase name in
      if str_in n ["UPPER"; "LOWER"; "TRIM"; "LTRIM"; "RTRIM"; "REPLACE"; "CONCAT"]
      then TyString
      else if str_in n ["LENGTH"; "ABS"; "ROUND"; "FLOOR"; "CEIL"] then TyInteger
      else if String.eqb n "CURRENT_DATE" then TyDate
      else TyUnknown
  | EBinaryOp lhs op _ =>
      match op with
      | Concat => TyString
      | Add | Subtract | Multiply | Divide | Modulo =>
          match infer_type lhs with
          | TyFloat | TyDecimal _ _ => TyFloat
          | _ => TyInteger
          end
      | Equal | NotEqual | LessThan | LessThanOrEqual | GreaterThan
      | GreaterThanOrEqual | And | Or | Like | NotLike => TyBoolean
      end
  | EUnaryOp op expr =>
      match op with
      | Negate => infer_type expr
      | Not | IsNull | IsNotNull => TyBoolean
      end
  | ECase conditions else_expr =>
      match conditions with
      | (_, then_expr) :: _ => infer_type then_expr
      | [] =>
          match else_expr with
          | Some e => infer_type e
          | None => TyUnknown
          end
      end
  | ECast _ target_type => target_type
  end.

(** [Expression::has_variables]. *)
Fixpoint has_variables (e : Expression) : bool :=
  match e with
  | EVariable _ => true
  | EFunctionCall _ args => existsb has_variables args
  | EBinaryOp lhs _ rhs => has_variables lhs || has_variables rhs
  | EUnaryOp _ expr => has_variables expr
  | ECase conditions else_expr =>
      existsb (λ '(cond, then_expr), has_variables cond || has_variables then_expr) conditions
      || match else_expr with Some e => has_variables e | None => false end
  | ECast expr _ => has_variables expr
  | _ => false
  end.

(** ** [Display] *)

Definition binop_text (op : BinaryOp) : string :=
  match op with
  | Add => "+"
  | Subtract => "-"
  | Multiply => "*"
  | Divide => "/"
  | Modulo => "%"
  | Concat => "||"
  | Equal => "="
  | NotEqual => "!="
  | LessThan => "<"
  | LessThanOrEqual => "<="
  | GreaterThan => ">"
  | GreaterThanOrEqual => ">="
  | And => "AND"
  | Or => "OR"
  | Like => "LIKE"
  | NotLike => "NOT LIKE"
  end.

Definition unop_text (op : UnaryOp) : string :=
  match op with
  | Negate => "-"
  | Not => "NOT "
  | IsNull => "IS NULL"
  | IsNotNull => "IS NOT NULL"
  end.

(** The derived [Debug] of [DataType], used by the [CAST] form. *)
Definition datatype_debug (t : DataType) : string :=
  match t with
  | TyString => "String"
  | TyInteger => "Integer"
  | TyFloat => "Float"
  | TyBoolean => "Boolean"
  | TyDate => "Date"
  | TyTimestamp => "Timestamp"
  | TyDecimal p s =>
      "Decimal { precision: " +:+ i64_to_string p +:+ ", scale: " +:+ i64_to_string s +:+ " }"
  | TyUnknown => "Unknown"
  end.

Definition bool_text (b : bool) : string := if b then "true" else "false".

Definition literal_text (l : Literal) : string :=
  match l with
  | LString s => "'" +:+ s +:+ "'"
  | LInteger i => i64_to_string i
  | LFloat f => f64_to_string f
  | LBoolean b => bool_text b
  | LNull => "NULL"
  end.

(** [strings.join(sep)]. *)
Fixpoint join (sep : string) (l : list string) : string :=
  match l with
  | [] => ""
  | [s] => s
  | s :: l' => s +:+ sep +:+ join sep l'
  end.

(** [impl Display for Expression]. *)
Fixpoint expr_text (e : Expression) : string :=
  match e with
  | ELiteral lit => literal_text lit
  | EVariable name => "{" +:+ name +:+ "}"
  | EFunctionCall name args => name +:+ "(" +:+ join ", " (map expr_text args) +:+ ")"
  | EBinaryOp lhs op rhs =>
      "(" +:+ expr_text lhs +:+ " " +:+ binop_text op +:+ " " +:+ expr_text rhs +:+ ")"
  | EUnaryOp op expr => unop_text op +:+ expr_text expr
  | ECase conditions else_expr =>
      "CASE"
      +:+ foldr (λ '(cond, then_expr) acc,
                   " WHEN " +:+ expr_text cond +:+ " THEN " +:+ expr_text then_expr +:+ acc)
                "" conditions
      +:+ match else_expr with
          | Some e => " ELSE " +:+ expr_text e
          | None => ""
          end
      +:+ " END"
  | ECast expr target_type =>
      "CAST(" +:+ expr_text expr +:+ " AS " +:+ datatype_debug target_type +:+ ")"
  end.

Example expr_text_ex :
  expr_text (EBinaryOp (EVariable "a") Add (ECase [(ELiteral (LBoolean true), ELiteral (LInteger 5))] None))
  = "({a} + CASE WHEN true THEN 5 END)".
Proof. vm_compute. reflexivity. Qed.
