(* ===== verification/TransformTypes.v ===== *)
(** * Transformation engine: runtime values and the type checker

    Models [mapping/loader/transformation/types.rs].  Decimals and dates are
    types of the crates [rust_decimal] and [chrono]: they and the conversions
    the source calls are the fields of the class [ValueExternals]. *)

From Stdlib Require Import ZArith Lia Ascii.
From Stdlib Require Import SpecFloat.
From stdpp Require Import base numbers option strings gmap list.
From S2P Require Import Prelude RustStd F64 TransformAst.

(** The third-party types of [Value] and what the source calls on them. *)
Class ValueExternals := {
  Decimal : Type;
  decimal_eqb : Decimal → Decimal → bool;
  decimal_to_string : Decimal → string;
  decimal_to_i64 : Decimal → option Z;
  decimal_to_f64 : Decimal → option f64;
  decimal_from_str : string → option Decimal;
  decimal_from_i64 : Z → Decimal;
  decimal_from_f64_retain : f64 → option Decimal;
  decimal_zero : Decimal;
  NaiveDate : Type;
  date_eqb : NaiveDate → NaiveDate → bool;
  (** [format("%Y-%m-%d")] and [Display]. *)
  date_format : NaiveDate → string;
  date_display : NaiveDate → string;
  date_parse : string → option NaiveDate;
  NaiveDateTime : Type;
  timestamp_eqb : NaiveDateTime → NaiveDateTime → bool;
  (** [format("%Y-%m-%d %H:%M:%S")] and [Display]. *)
  timestamp_format : NaiveDateTime → string;
  timestamp_display : NaiveDateTime → string;
  timestamp_parse : string → option NaiveDateTime;
  timestamp_date : NaiveDateTime → NaiveDate;
}.

(** One constructor per [anyhow!] message of the engine. *)
Inductive eval_error : Type :=
  | CannotConvertToInteger | NullToInteger
  | CannotConvertToFloat | NullToFloat
  | CannotParseDate | CannotConvertToDate
  | CannotParseDecimal | CannotConvertToDecimal
  | CannotParseTimestamp | CannotConvertToTimestamp
  | VariableNotFound (name : string)
  | DivisionByZero | ModuloByZero | ModuloRequiresIntegers
  | CannotNegate | CannotCompare
  | UnknownFunction (name : string)
  | TooFewArguments (name : string) (min got : nat)
  | TooManyArguments (name : string) (max got : nat)
  | FunctionError (msg : string)
  | CaseConditionNotBoolean
  | WrongArgumentCount (name : string)
  | IncompatibleArithmetic | LogicalNeedsBoolean | LikeNeedsString
  | NegationNeedsNumeric | NotNeedsBoolean.

Section Values.
Context `{ValueExternals}.

Inductive Value : Type :=
  | VString (s : string)
  | VInteger (i : Z)
  | VFloat (f : f64)
  | VDecimal (d : Decimal)
  | VBoolean (b : bool)
  | VDate (d : NaiveDate)
  | VTimestamp (t : NaiveDateTime)
  | VNull
  | VArray (vs : list Value).

(** The derived [PartialEq]: floats compare as IEEE floats. *)
Fixpoint value_eqb (a b : Value) {struct a} : bool :=
  match a, b with
  | VString x, VString y => String.eqb x y
  | VInteger x, VInteger y => Z.eqb x y
  | VFloat x, VFloat y => f64_eqb x y
  | VDecimal x, VDecimal y => decimal_eqb x y
  | VBoolean x, VBoolean y => Bool.eqb x y
  | VDate x, VDate y => date_eqb x y
  | VTimestamp x, VTimestamp y => timestamp_eqb x y
  | VNull, VNull => true
  | VArray xs, VArray ys =>
      (fix go (xs ys : list Value) : bool :=
         match xs, ys with
         | [], [] => true
         | x :: xs', y :: ys' => value_eqb x y && go xs' ys'
         | _, _ => false
         end) xs ys
  | _, _ => false
  end.

(** [Value::is_null]. *)
Definition is_null (v : Value) : bool :=
  match v with VNull => true | _ => false end.

(** [Value::data_type]. *)
Definition data_type (v : Value) : DataType :=
  match v with
  | VString _ => TyString
  | VInteger _ => TyInteger
  | VFloat _ => TyFloat
  | VDecimal _ => TyDecimal 38 10
  | VBoolean _ => TyBoolean
  | VDate _ => TyDate
  | VTimestamp _ => TyTimestamp
  | VNull => TyUnknown
  | VArray _ => TyUnknown
  end.

(** [Value::as_string]. *)
Fixpoint as_string (v : Value) : string :=
  match v with
  | VString s => s
  | VInteger i => i64_to_string i
  | VFloat f => f64_to_string f
  | VDecimal d => decimal_to_string d
  | VBoolean b => if b then "true" else "false"
  | VDate d => date_format d
  | VTimestamp t => timestamp_format t
  | VNull => ""
  | VArray arr => join "," (map as_string arr)
  end.

(** [Value::as_integer]. *)
Definition as_integer (v : Value) : result eval_error Z :=
  match v with
  | VInteger i => Ok i
  | VFloat f => Ok (f64_to_i64 f)
  | VDecimal d => Ok (default 0%Z (decimal_to_i64 d))
  | VString s => ok_or (i64_from_str (trim s)) CannotConvertToInteger
  | VBoolean b => Ok (if b then 1%Z else 0%Z)
  | VNull => Err NullToInteger
  | _ => Err CannotConvertToInteger
  end.

(** [Value::as_float]. *)
Definition as_float (v : Value) : result eval_error f64 :=
  match v with
  | VFloat f => Ok f
  | VInteger i => Ok (f64_of_i64 i)
  | VDecimal d => Ok (default f64_zero (decimal_to_f64 d))
  | VString s => ok_or (f64_from_str (trim s)) CannotConvertToFloat
  | VBoolean b => Ok (if b then f64_one else f64_zero)
  | VNull => Err NullToFloat
  | _ => Err CannotConvertToFloat
  end.

(** [Value::as_boolean]. *)
Definition as_boolean (v : Value) : bool :=
  match v with
  | VBoolean b => b
  | VInteger i => negb (i =? 0)%Z
  | VFloat f => negb (f64_eqb f f64_zero)
  | VString s =>
      negb (String.eqb s "") && negb (String.eqb s "0")
      && negb (String.eqb (to_lowercase s) "false")
  | VNull => false
  | _ => true
  end.

(** [Value::as_date]. *)
Definition as_date (v : Value) : result eval_error NaiveDate :=
  match v with
  | VDate d => Ok d
  | VTimestamp t => Ok (timestamp_date t)
  | VString s => ok_or (date_parse (trim s)) CannotParseDate
  | _ => Err CannotConvertToDate
  end.

(** [Value::cast]. *)
Definition cast (v : Value) (target_type : DataType) : result eval_error Value :=
  match target_type with
  | TyString => Ok (VString (as_string v))
  | TyInteger => i ← as_integer v; Ok (VInteger i)
  | TyFloat => f ← as_float v; Ok (VFloat f)
  | TyBoolean => Ok (VBoolean (as_boolean v))
  | TyDate => d ← as_date v; Ok (VDate d)
  | TyDecimal _ _ =>
      match v with
      | VDecimal d => Ok (VDecimal d)
      | VString s => d ← ok_or (decimal_from_str s) CannotParseDecimal; Ok (VDecimal d)
      | VInteger i => Ok (VDecimal (decimal_from_i64 i))
      | VFloat f => Ok (VDecimal (default decimal_zero (decimal_from_f64_retain f)))
      | _ => Err CannotConvertToDecimal
      end
  | TyTimestamp =>
      match v with
      | VTimestamp t => Ok (VTimestamp t)
      | VString s =>
          t ← ok_or (timestamp_parse (trim s)) CannotParseTimestamp; Ok (VTimestamp t)
      | _ => Err CannotConvertToTimestamp
      end
  | TyUnknown => Ok v
  end.

(** [Value::coerce_types]. *)
Definition coerce_types (l r : Value) : Value * Value :=
  match l, r with
  | VNull, _ | _, VNull => (l, r)
  | VString _, VString _
  | VInteger _, VInteger _
  | VFloat _, VFloat _
  | VBoolean _, VBoolean _
  | VDate _, VDate _ => (l, r)
  | VInteger i, VFloat _ => (VFloat (f64_of_i64 i), r)
  | VFloat _, VInteger i => (l, VFloat (f64_of_i64 i))
  | _, _ => (VString (as_string l), VString (as_string r))
  end.

(** [impl Display for Value]. *)
Fixpoint value_text (v : Value) : string :=
  match v with
  | VString s => s
  | VInteger i => i64_to_string i
  | VFloat f => f64_to_string f
  | VDecimal d => decimal_to_string d
  | VBoolean b => bool_text b
  | VDate d => date_display d
  | VTimestamp t => timestamp_display t
  | VNull => "NULL"
  | VArray arr => "[" +:+ join ", " (map value_text arr) +:+ "]"
  end.
End Values.

(** ** The type checker *)

Section Checker.
(** [TypeChecker::strict_mode]: off in [TypeChecker::new]. *)
Context (strict_mode : bool).

Definition is_known_not (t want : DataType) : bool :=
  negb (bool_decide (t = want)) && negb (bool_decide (t = TyUnknown)).

(** [TypeChecker::check_binary_op_types]. *)
Definition check_binary_op_types (l : DataType) (op : BinaryOp) (r : DataType)
    : result eval_error DataType :=
  match op with
  | Add | Subtract | Multiply | Divide | Modulo =>
      if strict_mode then
        match l, r with
        | TyInteger, TyInteger => Ok TyInteger
        | TyFloat, _ | _, TyFloat => Ok TyFloat
        | TyUnknown, _ | _, TyUnknown => Ok TyUnknown
        | _, _ => Err IncompatibleArithmetic
        end
      else Ok TyFloat
  | Concat => Ok TyString
  | Equal | NotEqual | LessThan | LessThanOrEqual | GreaterThan | GreaterThanOrEqual =>
      Ok TyBoolean
  | And | Or =>
      if strict_mode && is_known_not l TyBoolean then Err LogicalNeedsBoolean
      else Ok TyBoolean
  | Like | NotLike =>
      if strict_mode && is_known_not l TyString then Err LikeNeedsString
      else Ok TyBoolean
  end.

(** [TypeChecker::check_unary_op_type]. *)
Definition check_unary_op_type (op : UnaryOp) (t : DataType)
    : result eval_error DataType :=
  match op with
  | Negate =>
      if strict_mode
         && negb (match t with TyInteger | TyFloat | TyUnknown => true | _ => false end)
      then Err NegationNeedsNumeric
      else Ok t
  | Not =>
      if strict_mode && is_known_not t TyBoolean then Err NotNeedsBoolean
      else Ok TyBoolean
  | IsNull | IsNotNull => Ok TyBoolean
  end.

Section Loops.
Context (chk : Expression → result eval_error DataType).

(** The [COALESCE] loop: the first argument whose type is known. *)
Fixpoint first_known_type (args : list Expression) : result eval_error DataType :=
  match args with
  | [] => Ok TyUnknown
  | arg :: args' =>
      match chk arg with
      | Ok t => if bool_decide (t = TyUnknown) then first_known_type args' else Ok t
      | Err e => Err e
      | Panic => Panic
      end
  end.

(** The loop over the [WHEN] conditions. *)
Fixpoint check_conditions (cs : list (Expression * Expression))
    : result eval_error () :=
  match cs with
  | [] => Ok ()
  | (cond, _) :: cs' =>
      match chk cond with
      | Ok t =>
          if strict_mode && is_known_not t TyBoolean then Err CaseConditionNotBoolean
          else check_conditions cs'
      | Err e => Err e
      | Panic => Panic
      end
  end.

(** [TypeChecker::check_function_types]. *)
Definition check_function_types (name : string) (args : list Expression)
    : result eval_error DataType :=
  let n := to_uppercase name in
  if str_in n ["UPPER"; "LOWER"; "TRIM"; "LTRIM"; "RTRIM"] then
    if negb (length args =? 1)%nat then Err (WrongArgumentCount name) else Ok TyString
  else if String.eqb n "CONCAT" then
    if (length args =? 0)%nat then Err (WrongArgumentCount name) else Ok TyString
  else if String.eqb n "LENGTH" then
    if negb (length args =? 1)%nat then Err (WrongArgumentCount name) else Ok TyInteger
  else if String.eqb n "SUBSTRING" then
    if (length args <? 2)%nat || (3 <? length args)%nat
    then Err (WrongArgumentCount name) else Ok TyString
  else if String.eqb n "COALESCE" then
    if (length args =? 0)%nat then Err (WrongArgumentCount name)
    else first_known_type args
  else Ok TyUnknown.
End Loops.

(** [TypeChecker::check]. *)
Fixpoint check (e : Expression) : result eval_error DataType :=
  match e with
  | ELiteral lit => Ok (literal_type lit)
  | EVariable _ => Ok TyUnknown
  | EFunctionCall name args => check_function_types check name args
  | EBinaryOp lhs op rhs =>
      left_type ← check lhs;
      right_type ← check rhs;
      check_binary_op_types left_type op right_type
  | EUnaryOp op expr =>
      expr_type ← check expr;
      check_unary_op_type op expr_type
  | ECast _ target_type => Ok target_type
  | ECase conditions else_expr =>
      _ ← check_conditions check conditions;
      match conditions with
      | (_, then_expr) :: _ => check then_expr
      | [] =>
          match else_expr with
          | Some e => check e
          | None => Ok TyUnknown
          end
      end
  end.
End Checker.
