(* ===== verification/TransformFunctions.v ===== *)
(** * Transformation engine: the function registry and its built-ins

    Models [mapping/loader/transformation/functions.rs]: the
    [TransformFunction] trait as a record, the registry, and the built-ins
    that do not call [chrono], [regex] or [libm].  The remaining built-ins are
    the section parameter [external_builtins]. *)

From Stdlib Require Import ZArith Lia Ascii.
From Stdlib Require Import SpecFloat.
From stdpp Require Import base numbers option strings gmap list.
From S2P Require Import Prelude RustStd F64 TransformAst TransformTypes.

Section Functions.
Context `{ValueExternals}.
Context (overflow_checks : bool).

Abbreviation res := (result eval_error Value).

(** The trait [TransformFunction]. *)
Record TransformFunction : Type := {
  fn_execute : list Value → res;
  fn_min_args : nat;
  fn_max_args : option nat;
}.

Abbreviation FunctionRegistry := (gmap string TransformFunction).

(** [FunctionRegistry::register]. *)
Definition register (reg : FunctionRegistry) (name : string) (func : TransformFunction)
    : FunctionRegistry := <[to_uppercase name := func]> reg.

(** [FunctionRegistry::execute]. *)
Definition registry_execute (reg : FunctionRegistry) (name : string) (args : list Value)
    : res :=
  match reg !! to_uppercase name with
  | None => Err (UnknownFunction name)
  | Some func =>
      if (length args <? fn_min_args func)%nat
      then Err (TooFewArguments name (fn_min_args func) (length args))
      else
        match fn_max_args func with
        | Some max =>
            if (max <? length args)%nat
            then Err (TooManyArguments name max (length args))
            else fn_execute func args
        | None => fn_execute func args
        end
  end.

(** [FunctionRegistry::has_function]. *)
Definition has_function (reg : FunctionRegistry) (name : string) : bool :=
  bool_decide (is_Some (reg !! to_uppercase name)).

(** Indexing a slice. *)
Definition idx (args : list Value) (i : nat) : res :=
  match args !! i with
  | Some v => Ok v
  | None => Panic
  end.

(** [if args[0].is_null() { return Ok(Value::Null) }] and the rest. *)
Definition unless_null (args : list Value) (k : Value → res) : res :=
  v ← idx args 0;
  if is_null v then Ok VNull else k v.

Definition usize_arg (args : list Value) (i : nat) : result eval_error Z :=
  v ← idx args i;
  n ← as_integer v;
  Ok (as_usize n).

(** ** String functions *)

Definition upper_execute (args : list Value) : res :=
  unless_null args (λ v, Ok (VString (to_uppercase (as_string v)))).

Definition lower_execute (args : list Value) : res :=
  unless_null args (λ v, Ok (VString (to_lowercase (as_string v)))).

Definition trim_execute (args : list Value) : res :=
  unless_null args (λ v, Ok (VString (trim (as_string v)))).

Definition ltrim_execute (args : list Value) : res :=
  unless_null args (λ v, Ok (VString (trim_start (as_string v)))).

Definition rtrim_execute (args : list Value) : res :=
  unless_null args (λ v, Ok (VString (trim_end (as_string v)))).

Definition length_execute (args : list Value) : res :=
  unless_null args (λ v, Ok (VInteger (wrap_i64 (str_size (as_string v))))).

Definition substring_execute (args : list Value) : res :=
  unless_null args (λ v,
    let s := as_string v in
    start ← usize_arg args 1;
    let start := if (0 <? start)%Z then (start - 1)%Z else 0%Z in
    if (2 <? length args)%nat then
      len ← usize_arg args 2;
      Ok (VString (str_takez len (str_skip start s)))
    else Ok (VString (str_skip start s))).

Definition replace_execute (args : list Value) : res :=
  unless_null args (λ v,
    from ← idx args 1;
    to ← idx args 2;
    Ok (VString (str_replace (as_string v) (as_string from) (as_string to)))).

Definition concat_execute (args : list Value) : res :=
  Ok (VString (foldl (λ acc arg, if is_null arg then acc else acc +:+ as_string arg) "" args)).

Definition left_execute (args : list Value) : res :=
  unless_null args (λ v,
    n ← usize_arg args 1;
    Ok (VString (str_takez n (as_string v)))).

Definition right_execute (args : list Value) : res :=
  unless_null args (λ v,
    let s := as_string v in
    n ← usize_arg args 1;
    let len := str_size s in
    if (len <=? n)%Z then Ok (VString s)
    else Ok (VString (str_skip (len - n) s))).

(** [str::repeat] panics when the result would exceed [isize::MAX] bytes. *)
Definition repeat_execute (args : list Value) : res :=
  unless_null args (λ v,
    let s := as_string v in
    n ← usize_arg args 1;
    if (i64_max <? str_size s * n)%Z then Panic
    else Ok (VString (if String.eqb s "" then "" else str_repeat s (Z.to_nat n)))).

Definition reverse_execute (args : list Value) : res :=
  unless_null args (λ v, Ok (VString (str_rev (as_string v)))).

Definition split_part_execute (args : list Value) : res :=
  unless_null args (λ v,
    delimiter ← idx args 1;
    index ← usize_arg args 2;
    if (index =? 0)%Z
    then Err (FunctionError "SPLIT_PART index must be >= 1 (1-based indexing)")
    else
      let parts := str_split (as_string v) (as_string delimiter) in
      if (Z.of_nat (length parts) <? index)%Z then Ok (VString "")
      else
        match parts !! Z.to_nat (index - 1) with
        | Some p => Ok (VString p)
        | None => Panic
        end).

(** ** Numeric functions *)

Definition abs_execute (args : list Value) : res :=
  v ← idx args 0;
  match v with
  | VNull => Ok VNull
  | VInteger i => n ← i64_abs overflow_checks i; Ok (VInteger n)
  | VFloat f => Ok (VFloat (f64_abs f))
  | _ => f ← as_float v; Ok (VFloat (f64_abs f))
  end.

Definition floor_execute (args : list Value) : res :=
  unless_null args (λ v,
    f ← as_float v;
    Ok (VInteger (f64_to_i64 (f64_floor f)))).

Definition ceil_execute (args : list Value) : res :=
  unless_null args (λ v,
    f ← as_float v;
    Ok (VInteger (f64_to_i64 (f64_ceil f)))).

Definition sqrt_execute (args : list Value) : res :=
  unless_null args (λ v,
    f ← as_float v;
    if f64_ltb f f64_zero
    then Err (FunctionError "Cannot take square root of negative number")
    else Ok (VFloat (f64_sqrt f))).

Definition mod_execute (args : list Value) : res :=
  x ← idx args 0;
  if is_null x then Ok VNull
  else
    y ← idx args 1;
    if is_null y then Ok VNull
    else
      a ← as_integer x;
      b ← as_integer y;
      if (b =? 0)%Z then Err ModuloByZero
      else r ← i64_rem a b; Ok (VInteger r).

(** ** NULL handling and conditionals *)

(** The first argument that is neither null nor an empty string. *)
Definition coalesce_skips (v : Value) : bool :=
  match v with
  | VNull => true
  | VString s => String.eqb s ""
  | _ => false
  end.

Fixpoint coalesce_execute (args : list Value) : res :=
  match args with
  | [] => Ok VNull
  | arg :: args' => if coalesce_skips arg then coalesce_execute args' else Ok arg
  end.

Definition nullif_execute (args : list Value) : res :=
  x ← idx args 0;
  y ← idx args 1;
  if value_eqb x y then Ok VNull else Ok x.

Definition ifnull_execute (args : list Value) : res :=
  x ← idx args 0;
  if is_null x then idx args 1 else Ok x.

Definition cast_execute (args : list Value) : res := idx args 0.

Definition if_execute (args : list Value) : res :=
  c ← idx args 0;
  if as_boolean c then idx args 1 else idx args 2.

(** The pairs [(condition, value)] of [CASE], then the else value. *)
Fixpoint case_pairs (args : list Value) : res :=
  match args with
  | c :: v :: args' => if as_boolean c then Ok v else case_pairs args'
  | [e] => Ok e
  | [] => Panic
  end.

Definition case_execute (args : list Value) : res :=
  if (length args <? 3)%nat || Nat.even (length args)
  then Err (FunctionError "CASE requires odd number of arguments")
  else case_pairs args.

Definition is_null_execute (args : list Value) : res :=
  v ← idx args 0; Ok (VBoolean (is_null v)).

Definition is_not_null_execute (args : list Value) : res :=
  v ← idx args 0; Ok (VBoolean (negb (is_null v))).

Definition is_empty_execute (args : list Value) : res :=
  v ← idx args 0;
  match v with
  | VNull => Ok (VBoolean true)
  | VString s => Ok (VBoolean (String.eqb s ""))
  | VArray a => Ok (VBoolean (match a with [] => true | _ => false end))
  | _ => Ok (VBoolean false)
  end.

Definition is_numeric_execute (args : list Value) : res :=
  v ← idx args 0;
  match v with
  | VInteger _ | VFloat _ | VDecimal _ => Ok (VBoolean true)
  | VString s => Ok (VBoolean (match f64_from_str s with Some _ => true | None => false end))
  | _ => Ok (VBoolean false)
  end.

Definition and_execute (args : list Value) : res := Ok (VBoolean (forallb as_boolean args)).
Definition or_execute (args : list Value) : res := Ok (VBoolean (existsb as_boolean args)).
Definition not_execute (args : list Value) : res :=
  v ← idx args 0; Ok (VBoolean (negb (as_boolean v))).

(** ** Enhanced string functions *)

Definition capitalize (s : string) : string :=
  match s with
  | EmptyString => EmptyString
  | String c s' => String (ascii_to_upper c) s'
  end.

Definition capitalize_execute (args : list Value) : res :=
  unless_null args (λ v, Ok (VString (capitalize (as_string v)))).

Definition title_word (w : string) : string :=
  match w with
  | EmptyString => EmptyString
  | String c w' => String (ascii_to_upper c) (to_lowercase w')
  end.

Definition title_case_execute (args : list Value) : res :=
  unless_null args (λ v,
    Ok (VString (join " " (map title_word (split_whitespace (as_string v)))))).

Definition slug_char (c : ascii) : ascii :=
  if is_alphanumeric c || Ascii.eqb c "-" then c else "-"%char.

Definition slugify (s : string) : string :=
  join "-" (List.filter nonempty_str (split_char "-" (str_map slug_char (to_lowercase s)))).

Definition slug_execute (args : list Value) : res :=
  unless_null args (λ v, Ok (VString (slugify (as_string v)))).

(** [usize] arithmetic under the build profile. *)
Definition usize_checked (z : Z) : result eval_error Z :=
  if (0 <=? z)%Z && (z <? 2 ^ 64)%Z then Ok z
  else if overflow_checks then Panic else Ok (z mod 2 ^ 64)%Z.

(** The loop of [MASK]: [i] is the index of the head of [cs]. *)
Fixpoint mask_chars (mask_char : ascii) (visible_start hide_to : Z) (i : Z) (cs : string)
    : string :=
  match cs with
  | EmptyString => EmptyString
  | String c cs' =>
      String (if (i <? visible_start)%Z || (hide_to <=? i)%Z then c else mask_char)
             (mask_chars mask_char visible_start hide_to (i + 1)%Z cs')
  end.

Definition mask_text (text : string) (mask_char : ascii) (visible_start visible_end : Z)
    : result eval_error string :=
  let len := str_size text in
  sum ← usize_checked (visible_start + visible_end)%Z;
  if (len <=? sum)%Z then Ok text
  else
    hide_to ← usize_checked (len - visible_end)%Z;
    Ok (mask_chars mask_char visible_start hide_to 0 text).

Definition mask_execute (args : list Value) : res :=
  unless_null args (λ v,
    let text := as_string v in
    mask_char ←
      (if (1 <? length args)%nat then
         m ← idx args 1;
         Ok (if is_null m then "*"%char
             else match as_string m with
                  | String c _ => c
                  | EmptyString => "*"%char
                  end)
       else Ok "*"%char);
    visible_start ← (if (2 <? length args)%nat then usize_arg args 2 else Ok 0%Z);
    visible_end ← (if (3 <? length args)%nat then usize_arg args 3 else Ok 0%Z);
    r ← mask_text text mask_char visible_start visible_end;
    Ok (VString r)).

Definition truncate_execute (args : list Value) : res :=
  unless_null args (λ v,
    let text := as_string v in
    max_length ← usize_arg args 1;
    suffix ←
      (if (2 <? length args)%nat then
         s ← idx args 2; Ok (if is_null s then "..." else as_string s)
       else Ok "...");
    if (str_size text <=? max_length)%Z then Ok (VString text)
    else Ok (VString (str_takez max_length text +:+ suffix))).

(** ** The table of built-ins *)

Definition mk_fn (f : list Value → res) (min : nat) (max : option nat) : TransformFunction :=
  {| fn_execute := f; fn_min_args := min; fn_max_args := max |}.

(** The registrations of [FunctionRegistry::with_builtins] whose functions are
    modelled, with each function's [min_args] and [max_args]. *)
Definition modelled_builtins : list (string * TransformFunction) := [
  ("UPPER", mk_fn upper_execute 1 (Some 1));
  ("LOWER", mk_fn lower_execute 1 (Some 1));
  ("TRIM", mk_fn trim_execute 1 (Some 1));
  ("LTRIM", mk_fn ltrim_execute 1 (Some 1));
  ("RTRIM", mk_fn rtrim_execute 1 (Some 1));
  ("LENGTH", mk_fn length_execute 1 (Some 1));
  ("SUBSTRING", mk_fn substring_execute 2 (Some 3));
  ("REPLACE", mk_fn replace_execute 3 (Some 3));
  ("CONCAT", mk_fn concat_execute 1 None);
  ("LEFT", mk_fn left_execute 2 (Some 2));
  ("RIGHT", mk_fn right_execute 2 (Some 2));
  ("REPEAT", mk_fn repeat_execute 2 (Some 2));
  ("REVERSE", mk_fn reverse_execute 1 (Some 1));
  ("SPLIT_PART", mk_fn split_part_execute 3 (Some 3));
  ("ABS", mk_fn abs_execute 1 (Some 1));
  ("FLOOR", mk_fn floor_execute 1 (Some 1));
  ("CEIL", mk_fn ceil_execute 1 (Some 1));
  ("SQRT", mk_fn sqrt_execute 1 (Some 1));
  ("MOD", mk_fn mod_execute 2 (Some 2));
  ("COALESCE", mk_fn coalesce_execute 1 None);
  ("NULLIF", mk_fn nullif_execute 2 (Some 2));
  ("IFNULL", mk_fn ifnull_execute 2 (Some 2));
  ("CAST", mk_fn cast_execute 2 (Some 2));
  ("IF", mk_fn if_execute 3 (Some 3));
  ("CASE", mk_fn case_execute 3 None);
  ("IS_NULL", mk_fn is_null_execute 1 (Some 1));
  ("IS_NOT_NULL", mk_fn is_not_null_execute 1 (Some 1));
  ("IS_EMPTY", mk_fn is_empty_execute 1 (Some 1));
  ("IS_NUMERIC", mk_fn is_numeric_execute 1 (Some 1));
  ("AND", mk_fn and_execute 2 None);
  ("OR", mk_fn or_execute 2 None);
  ("NOT", mk_fn not_execute 1 (Some 1));
  ("CAPITALIZE", mk_fn capitalize_execute 1 (Some 1));
  ("TITLE_CASE", mk_fn title_case_execute 1 (Some 1));
  ("SLUG", mk_fn slug_execute 1 (Some 1));
  ("MASK", mk_fn mask_execute 1 (Some 4));
  ("TRUNCATE", mk_fn truncate_execute 2 (Some 3))
].

Definition register_all (fns : list (string * TransformFunction)) (reg : FunctionRegistry)
    : FunctionRegistry := foldl (λ r '(name, f), register r name f) reg fns.

(** [FunctionRegistry::with_builtins]; [external_builtins] are the
    registrations of the date, regex and [libm] functions, whose names are
    all different from the modelled ones. *)
Definition with_builtins (external_builtins : list (string * TransformFunction))
    : FunctionRegistry := register_all modelled_builtins (register_all external_builtins ∅).
End Functions.
