(* ===== verification/TransformExec.v ===== *)
(** * Transformation engine: the executor

    Models [mapping/loader/transformation/executor.rs]: the expression
    evaluator, the execution plan with its required fields and constants, and
    execution of single rows and batches. *)

From Stdlib Require Import ZArith Lia Ascii.
From Stdlib Require Import SpecFloat.
From stdpp Require Import base numbers option strings gmap list.
From S2P Require Import Prelude RustStd F64 TransformAst TransformTypes TransformFunctions.

(** ** [SimpleExecutor::match_like_pattern] *)

(** The loop over the parts between the wildcards; [i] is the index of the head
    of [parts] and [n] the number of all parts. *)
Fixpoint like_loop (text pattern : string) (n i pos : nat) (parts : list string) : bool :=
  match parts with
  | [] => true
  | part :: rest =>
      if String.eqb part "" then like_loop text pattern n (S i) pos rest
      else if (i =? 0)%nat && negb (starts_with pattern "%") then
        if starts_with text part
        then like_loop text pattern n (S i) (String.length part) rest
        else false
      else if (i =? n - 1)%nat && negb (ends_with pattern "%") then
        ends_with (str_drop pos text) part
      else
        match str_find (str_drop pos text) part with
        | Some j => like_loop text pattern n (S i) (pos + (j + String.length part)) rest
        | None => false
        end
  end.

Definition match_like_pattern (text pattern : string) : bool :=
  if str_contains_char "%" pattern then
    let parts := split_char "%" pattern in
    like_loop text pattern (length parts) 0 0 parts
  else String.eqb text pattern.

Section Exec.
Context `{ValueExternals}.
Context (overflow_checks : bool).

Abbreviation res := (result eval_error Value).
Abbreviation FunctionRegistry := (gmap string TransformFunction).
Abbreviation context := (gmap string Value).

(** [SimpleExecutor::eval_literal]. *)
Definition eval_literal (lit : Literal) : Value :=
  match lit with
  | LString s => VString s
  | LInteger i => VInteger i
  | LFloat f => VFloat f
  | LBoolean b => VBoolean b
  | LNull => VNull
  end.

Definition bool_compare (a b : bool) : comparison :=
  match a, b with
  | false, true => Lt
  | true, false => Gt
  | _, _ => Eq
  end.

Definition ordering_as_i32 (c : comparison) : Z :=
  match c with Lt => -1 | Eq => 0 | Gt => 1 end%Z.

(** [SimpleExecutor::compare_values]. *)
Definition compare_values (l r : Value) : result eval_error Z :=
  match l, r with
  | VInteger l, VInteger r => Ok (ordering_as_i32 (Z.compare l r))
  | VFloat l, VFloat r =>
      if f64_ltb l r then Ok (-1)%Z
      else if f64_ltb r l then Ok 1%Z
      else Ok 0%Z
  | VString l, VString r => Ok (ordering_as_i32 (String.compare l r))
  | VBoolean l, VBoolean r => Ok (ordering_as_i32 (bool_compare l r))
  | _, _ => Err CannotCompare
  end.

Definition arith (int_op : Z → Z → result eval_error Z) (float_op : f64 → f64 → f64)
    (l r : Value) : res :=
  match l, r with
  | VInteger a, VInteger b => n ← int_op a b; Ok (VInteger n)
  | VFloat a, VFloat b => Ok (VFloat (float_op a b))
  | _, _ =>
      a ← as_float l;
      b ← as_float r;
      Ok (VFloat (float_op a b))
  end.

Definition compare_op (test : Z → bool) (l r : Value) : res :=
  let '(a, b) := coerce_types l r in
  c ← compare_values a b;
  Ok (VBoolean (test c)).

(** [SimpleExecutor::eval_binary_op]. *)
Definition eval_binary_op (l : Value) (op : BinaryOp) (r : Value) : res :=
  if (match op with Equal | NotEqual => false | _ => true end) && (is_null l || is_null r)
  then Ok VNull
  else
    match op with
    | Add => arith (i64_add overflow_checks) f64_add l r
    | Subtract => arith (i64_sub overflow_checks) f64_sub l r
    | Multiply => arith (i64_mul overflow_checks) f64_mul l r
    | Divide =>
        a ← as_float l;
        b ← as_float r;
        if f64_eqb b f64_zero then Err DivisionByZero
        else Ok (VFloat (f64_div a b))
    | Modulo =>
        match l, r with
        | VInteger a, VInteger b =>
            if (b =? 0)%Z then Err ModuloByZero
            else n ← i64_rem a b; Ok (VInteger n)
        | _, _ => Err ModuloRequiresIntegers
        end
    | Concat => Ok (VString (as_string l +:+ as_string r))
    | Equal => let '(a, b) := coerce_types l r in Ok (VBoolean (value_eqb a b))
    | NotEqual => let '(a, b) := coerce_types l r in Ok (VBoolean (negb (value_eqb a b)))
    | LessThan => compare_op (λ c, c <? 0)%Z l r
    | LessThanOrEqual => compare_op (λ c, c <=? 0)%Z l r
    | GreaterThan => compare_op (λ c, 0 <? c)%Z l r
    | GreaterThanOrEqual => compare_op (λ c, 0 <=? c)%Z l r
    | And => Ok (VBoolean (as_boolean l && as_boolean r))
    | Or => Ok (VBoolean (as_boolean l || as_boolean r))
    | Like => Ok (VBoolean (match_like_pattern (as_string l) (as_string r)))
    | NotLike => Ok (VBoolean (negb (match_like_pattern (as_string l) (as_string r))))
    end.

(** [SimpleExecutor::eval_unary_op]. *)
Definition eval_unary_op (op : UnaryOp) (v : Value) : res :=
  match op with
  | Negate =>
      match v with
      | VInteger i => n ← i64_neg overflow_checks i; Ok (VInteger n)
      | VFloat f => Ok (VFloat (f64_neg f))
      | VNull => Ok VNull
      | _ => Err CannotNegate
      end
  | Not => Ok (VBoolean (negb (as_boolean v)))
  | IsNull => Ok (VBoolean (is_null v))
  | IsNotNull => Ok (VBoolean (negb (is_null v)))
  end.

Section CaseLoop.
Context (ev : Expression → res) (els : option Expression).

(** The loop over the [WHEN] clauses of a [CASE]. *)
Fixpoint eval_case (cs : list (Expression * Expression)) : res :=
  match cs with
  | [] => match els with Some e => ev e | None => Ok VNull end
  | (cond, then_expr) :: cs' =>
      match ev cond with
      | Ok v => if as_boolean v then ev then_expr else eval_case cs'
      | Err e => Err e
      | Panic => Panic
      end
  end.
End CaseLoop.

Context (functions : FunctionRegistry).

(** [SimpleExecutor::eval_expr]. *)
Fixpoint eval_expr (ctx : context) (e : Expression) : res :=
  match e with
  | ELiteral lit => Ok (eval_literal lit)
  | EVariable name => ok_or (ctx !! name) (VariableNotFound name)
  | EFunctionCall name args =>
      arg_values ← result_mapM (eval_expr ctx) args;
      registry_execute functions name arg_values
  | EBinaryOp lhs op rhs =>
      left_val ← eval_expr ctx lhs;
      right_val ← eval_expr ctx rhs;
      eval_binary_op left_val op right_val
  | EUnaryOp op expr =>
      v ← eval_expr ctx expr;
      eval_unary_op op v
  | ECase conditions else_expr => eval_case (eval_expr ctx) else_expr conditions
  | ECast expr target_type =>
      v ← eval_expr ctx expr;
      cast v target_type
  end.

(** ** Execution plans *)

(** [extract_required_fields]: threads the [Vec] of names. *)
Fixpoint extract_required_fields (acc : list string) (e : Expression) : list string :=
  match e with
  | EVariable name => if bool_decide (name ∈ acc) then acc else acc ++ [name]
  | EFunctionCall _ args => foldl extract_required_fields acc args
  | EBinaryOp lhs _ rhs =>
      extract_required_fields (extract_required_fields acc lhs) rhs
  | EUnaryOp _ expr => extract_required_fields acc expr
  | ECase conditions else_expr =>
      let acc :=
        foldl (λ acc '(cond, then_expr),
                 extract_required_fields (extract_required_fields acc cond) then_expr)
              acc conditions in
      match else_expr with
      | Some e => extract_required_fields acc e
      | None => acc
      end
  | ECast expr _ => extract_required_fields acc expr
  | ELiteral _ => acc
  end.

(** The constant of one node, if it has one. *)
Definition constant_of (e : Expression) : result eval_error (list (Expression * Value)) :=
  if is_constant e && negb (has_variables e) then
    match eval_expr ∅ e with
    | Ok v => Ok [(e, v)]
    | Err _ => Ok []
    | Panic => Panic
    end
  else Ok [].

(** [precompute_constants]: the insertions into the constant table, in order.
    The table is keyed by the expression itself, which the source renders with
    its derived [Debug]. *)
Fixpoint precompute_constants (e : Expression)
    : result eval_error (list (Expression * Value)) :=
  here ← constant_of e;
  sub ←
    match e with
    | EFunctionCall _ args =>
        ls ← result_mapM precompute_constants args;
        Ok (concat ls)
    | EBinaryOp lhs _ rhs =>
        l ← precompute_constants lhs;
        r ← precompute_constants rhs;
        Ok (l ++ r)
    | EUnaryOp _ expr => precompute_constants expr
    | ECase conditions else_expr =>
        ls ← result_mapM (λ '(cond, then_expr),
               l ← precompute_constants cond;
               r ← precompute_constants then_expr;
               Ok (l ++ r)) conditions;
        els ← match else_expr with
              | Some e => precompute_constants e
              | None => Ok []
              end;
        Ok (concat ls ++ els)
    | ECast expr _ => precompute_constants expr
    | _ => Ok []
    end;
  Ok (here ++ sub).

Record ExecutionPlan : Type := {
  root : Expression;
  constants : list (Expression * Value);
  required_fields : list string;
  is_parallel_safe : bool;
}.

(** [check_parallel_safety]: every expression is parallel safe. *)
Definition check_parallel_safety (e : Expression) : bool := true.

(** [ExecutionPlan::from_ast]. *)
Definition from_ast (e : Expression) : result eval_error ExecutionPlan :=
  let fields := extract_required_fields [] e in
  cs ← precompute_constants e;
  Ok {| root := e; constants := cs; required_fields := fields;
        is_parallel_safe := check_parallel_safety e |}.

(** [TransformationExecutor::execute_single]: every field of a row is text. *)
Definition execute_single (plan : ExecutionPlan) (row : gmap string string) : res :=
  eval_expr (VString <$> row) (root plan).

(** [TransformationExecutor::execute_batch]: one result per row, in order, on
    the parallel and on the sequential path. *)
Definition execute_batch (plan : ExecutionPlan) (batch : list (gmap string string))
    : list res :=
  if is_parallel_safe plan && (100 <? length batch)%nat
  then map (λ row, eval_expr (VString <$> row) (root plan)) batch
  else map (execute_single plan) batch.
End Exec.
