(* ===== verification/TransformExecFacts.v ===== *)
(** * Transformation engine: properties of evaluation

    The machine-integer invariant of values, what an execution plan's required
    fields and constants mean, and the agreement of batch and single-row
    execution. *)

From Stdlib Require Import ZArith Lia Ascii.
From Stdlib Require Import SpecFloat.
From stdpp Require Import base numbers option strings gmap list.
From S2P Require Import Prelude RustStd F64 TransformAst TransformTypes TransformFunctions.
From S2P Require Import TransformExec.

(** [Decimal::to_i64] returns an [Option<i64>]. *)
Class ValueExternalsOk `{ValueExternals} : Prop := {
  decimal_to_i64_range d z : decimal_to_i64 d = Some z → in_i64 z = true;
}.

Section Facts.
Context `{VE : ValueExternals}.
Context (oc : bool).

Abbreviation FunctionRegistry := (gmap string TransformFunction).

(** ** Values hold 64-bit integers *)

Fixpoint value_wf (v : Value) : bool :=
  match v with
  | VInteger i => in_i64 i
  | VArray vs => forallb value_wf vs
  | _ => true
  end.

Definition literal_wf (l : Literal) : bool :=
  match l with LInteger i => in_i64 i | _ => true end.

Fixpoint expr_wf (e : Expression) : bool :=
  match e with
  | ELiteral l => literal_wf l
  | EVariable _ => true
  | EFunctionCall _ args => forallb expr_wf args
  | EBinaryOp l _ r => expr_wf l && expr_wf r
  | EUnaryOp _ x => expr_wf x
  | ECase cs els =>
      forallb (λ '(c, t), expr_wf c && expr_wf t) cs
      && match els with Some x => expr_wf x | None => true end
  | ECast x _ => expr_wf x
  end.

(** A registry all of whose functions return well-formed values. *)
Definition registry_wf (reg : FunctionRegistry) : Prop :=
  map_Forall (λ _ f, ∀ args v,
    Forall (λ a, value_wf a = true) args → fn_execute f args = Ok v → value_wf v = true) reg.

Definition context_wf (ctx : gmap string Value) : Prop :=
  map_Forall (λ _ v, value_wf v = true) ctx.

Lemma as_integer_range `{!ValueExternalsOk} v z :
  value_wf v = true → as_integer v = Ok z → in_i64 z = true.
Proof.
  destruct v; simpl; intros Hv Hz; simplify_eq; try done.
  - unfold i64_from_str in Hz.
    match goal with H : ok_or (?o ≫= _) _ = _ |- _ => destruct o as [n|]; simpl in H end; [|done].
    destruct (in_i64 n) eqn:Hn; simpl in Hz; by simplify_eq.
  - apply f64_to_i64_range.
  - destruct (decimal_to_i64 d) as [n|] eqn:Hd; simpl; [|done].
    by eapply decimal_to_i64_range.
  - by destruct b.
Qed.

Lemma cast_wf `{!ValueExternalsOk} v t w :
  value_wf v = true → cast v t = Ok w → value_wf w = true.
Proof.
  intros Hv. unfold cast.
  destruct t; intros Hc; unfold mbind, result_bind in Hc; simplify_eq; try done;
    try (repeat (case_match; simplify_eq); done).
  destruct (as_integer v) as [z| |] eqn:Hz; simplify_eq. simpl.
  eauto using as_integer_range.
Qed.

Lemma arith_wf int_op float_op l r v :
  (∀ a b n, int_op a b = Ok n → in_i64 n = true) →
  arith int_op float_op l r = Ok v → value_wf v = true.
Proof.
  intros Hop. unfold arith, mbind, result_bind.
  destruct l, r; intros Ha; repeat (case_match; simplify_eq); simplify_eq; simpl; eauto.
Qed.

Lemma compare_op_wf test l r v : compare_op test l r = Ok v → value_wf v = true.
Proof.
  unfold compare_op, mbind, result_bind. destruct (coerce_types l r).
  intros ?. by repeat (case_match; simplify_eq).
Qed.

Lemma eval_binary_op_wf l op r v :
  value_wf l = true → value_wf r = true →
  eval_binary_op oc l op r = Ok v → value_wf v = true.
Proof.
  intros Hl Hr. unfold eval_binary_op. destruct (_ && _); [intros ?; by simplify_eq|].
  destruct op; intros Hv.
  1-3: eapply arith_wf; [|exact Hv]; intros a b n; apply i64_checked_range.
  - unfold mbind, result_bind in Hv. by repeat (case_match; simplify_eq).
  - destruct l, r; try done. destruct (_ =? 0)%Z; [done|].
    unfold mbind, result_bind in Hv. destruct (i64_rem _ _) eqn:Hm; simplify_eq.
    simpl in *. eauto with machine_int.
  - by simplify_eq.
  - destruct (coerce_types l r). by simplify_eq.
  - destruct (coerce_types l r). by simplify_eq.
  - eauto using compare_op_wf.
  - eauto using compare_op_wf.
  - eauto using compare_op_wf.
  - eauto using compare_op_wf.
  - by simplify_eq.
  - by simplify_eq.
  - by simplify_eq.
  - by simplify_eq.
Qed.

Lemma eval_unary_op_wf op x v :
  value_wf x = true → eval_unary_op oc op x = Ok v → value_wf v = true.
Proof.
  intros Hx. destruct op; simpl; intros Hv; simplify_eq; try done.
  destruct x; simplify_eq; try done. unfold mbind, result_bind in Hv.
  destruct (i64_neg oc i) eqn:Hn; simplify_eq. simpl. eapply i64_checked_range, Hn.
Qed.

Lemma registry_execute_wf reg name args v :
  registry_wf reg → Forall (λ a, value_wf a = true) args →
  registry_execute reg name args = Ok v → value_wf v = true.
Proof.
  intros Hreg Hargs. unfold registry_execute.
  destruct (reg !! to_uppercase name) as [f|] eqn:Hf; [|done].
  specialize (Hreg _ _ Hf). simpl in Hreg.
  intros ?. repeat (case_match; simplify_eq); eauto.
Qed.

Lemma eval_case_Ok (ev : Expression → result eval_error Value) els cs v :
  eval_case ev els cs = Ok v →
  (∃ c t, (c, t) ∈ cs ∧ ev t = Ok v) ∨
  match els with Some x => ev x = Ok v | None => v = VNull end.
Proof.
  induction cs as [|[c t] cs IH]; simpl; intros Hv.
  - right. destruct els; by simplify_eq.
  - destruct (ev c) as [cv| |]; [|done..]. destruct (as_boolean cv).
    + left. exists c, t. split; [left|done].
    + destruct (IH Hv) as [(c' & t' & Hin & Ht)|Hels]; [|by right].
      left. exists c', t'. split; [by right|done].
Qed.

Lemma eval_expr_wf `{!ValueExternalsOk} reg ctx e v :
  registry_wf reg → context_wf ctx → expr_wf e = true →
  eval_expr oc reg ctx e = Ok v → value_wf v = true.
Proof.
  intros Hreg Hctx. revert v.
  induction e as [l|x|f args IH|l op r IHl IHr|op x IH|cs els IH IHe|x t IH]
    using Expression_rec_nested; cbn [eval_expr expr_wf]; intros v Hwf Hv.
  - simplify_eq. by destruct l.
  - destruct (ctx !! x) eqn:Hx; simpl in Hv; simplify_eq. by apply (Hctx x).
  - apply result_bind_Ok in Hv as (vs & Hvs & Hv).
    eapply registry_execute_wf; [done| |done].
    apply result_mapM_Ok in Hvs. rewrite forallb_forall in Hwf. clear Hv v.
    induction Hvs as [|a v' args vs Ha _ IHf]; constructor.
    + inversion IH; subst. eauto using in_eq.
    + inversion IH; subst. apply IHf; [done|]. intros y Hy. apply Hwf. by right.
  - apply andb_true_iff in Hwf as [Hl Hr].
    apply result_bind_Ok in Hv as (lv & Hlv & Hv).
    apply result_bind_Ok in Hv as (rv & Hrv & Hv).
    eauto using eval_binary_op_wf.
  - apply result_bind_Ok in Hv as (xv & Hxv & Hv). eauto using eval_unary_op_wf.
  - apply andb_true_iff in Hwf as [Hcs Hels].
    apply eval_case_Ok in Hv as [(c & t & Hin & Ht)|Hv].
    + rewrite Forall_forall in IH. destruct (IH _ Hin) as [_ IHt].
      rewrite forallb_forall in Hcs. apply list_elem_of_In in Hin.
      specialize (Hcs _ Hin). simpl in Hcs. apply andb_true_iff in Hcs as [_ Hwt]. eauto.
    + destruct els; [eauto|by subst].
  - apply result_bind_Ok in Hv as (xv & Hxv & Hv). eauto using cast_wf.
Qed.

(** ** Required fields *)

(** The variables of an expression, as a set. *)
Fixpoint expr_vars (e : Expression) : gset string :=
  match e with
  | ELiteral _ => ∅
  | EVariable x => {[ x ]}
  | EFunctionCall _ args => ⋃ (map expr_vars args)
  | EBinaryOp l _ r => expr_vars l ∪ expr_vars r
  | EUnaryOp _ x => expr_vars x
  | ECase cs els =>
      ⋃ (map (λ '(c, t), expr_vars c ∪ expr_vars t) cs)
      ∪ match els with Some x => expr_vars x | None => ∅ end
  | ECast x _ => expr_vars x
  end.

Lemma extract_required_fields_elem e acc x :
  x ∈ extract_required_fields acc e ↔ x ∈ acc ∨ x ∈ expr_vars e.
Proof.
  revert acc x.
  induction e as [l|y|f args IH|l op r IHl IHr|op y IH|cs els IH IHe|y t IH]
    using Expression_rec_nested; intros acc x; cbn [extract_required_fields expr_vars].
  - set_solver.
  - case_bool_decide; [|rewrite elem_of_app]; set_solver.
  - revert acc. induction IH as [|a args Ha _ IHargs]; intros acc; simpl; [set_solver|].
    rewrite IHargs, Ha. set_solver.
  - rewrite IHr, IHl. set_solver.
  - apply IH.
  - assert (Hcs : ∀ acc, x ∈ foldl (λ acc '(c, t),
              extract_required_fields (extract_required_fields acc c) t) acc cs
              ↔ x ∈ acc ∨ x ∈ ⋃ (map (λ '(c, t), expr_vars c ∪ expr_vars t) cs)).
    { clear IHe. induction IH as [|[c t] cs [Hc Ht] _ IHcs]; intros acc'; simpl; [set_solver|].
      rewrite IHcs. simpl in Hc, Ht. rewrite Ht, Hc. set_solver. }
    destruct els; [rewrite IHe|]; rewrite Hcs; set_solver.
  - apply IH.
Qed.

Lemma extract_required_fields_NoDup e acc :
  NoDup acc → NoDup (extract_required_fields acc e).
Proof.
  revert acc.
  induction e as [l|y|f args IH|l op r IHl IHr|op y IH|cs els IH IHe|y t IH]
    using Expression_rec_nested; intros acc Hacc; cbn [extract_required_fields]; auto.
  - case_bool_decide; [done|]. apply NoDup_app. split_and!; [done| |apply NoDup_singleton].
    set_solver.
  - revert acc Hacc. induction IH as [|a args Ha _ IHargs]; intros acc Hacc; simpl; auto.
  - assert (Hcs : ∀ acc, NoDup acc → NoDup (foldl (λ acc '(c, t),
              extract_required_fields (extract_required_fields acc c) t) acc cs)).
    { clear IHe. induction IH as [|[c t] cs [Hc Ht] _ IHcs]; intros acc' Hacc'; simpl; auto. }
    destruct els; auto.
Qed.

(** Evaluation reads no field but the variables. *)
Lemma eval_expr_agree reg ctx ctx' e :
  (∀ x, x ∈ expr_vars e → ctx !! x = ctx' !! x) →
  eval_expr oc reg ctx e = eval_expr oc reg ctx' e.
Proof.
  induction e as [l|y|f args IH|l op r IHl IHr|op y IH|cs els IH IHe|y t IH]
    using Expression_rec_nested; cbn [eval_expr expr_vars]; intros Hag.
  - done.
  - by rewrite Hag by set_solver.
  - f_equal. apply result_mapM_ext. induction IH as [|a args Ha _ IHargs]; constructor.
    + apply Ha. set_solver.
    + apply IHargs. set_solver.
  - rewrite IHl, IHr by set_solver. done.
  - rewrite IH by done. done.
  - induction IH as [|[c t] cs [Hc Ht] _ IHcs]; simpl in *.
    + destruct els; [apply IHe; set_solver|done].
    + rewrite Hc, Ht by set_solver. rewrite IHcs by set_solver. done.
  - rewrite IH by done. done.
Qed.

Lemma has_variables_vars e : has_variables e = false → expr_vars e = ∅.
Proof.
  induction e as [l|y|f args IH|l op r IHl IHr|op y IH|cs els IH IHe|y t IH]
    using Expression_rec_nested; cbn [has_variables expr_vars]; try done.
  - intros Hf. induction IH as [|a args Ha _ IHargs]; [done|]. simpl in *.
    apply orb_false_iff in Hf as [H1 H2]. rewrite Ha, IHargs by done. set_solver.
  - intros [? ?]%orb_false_iff. rewrite IHl, IHr by done. set_solver.
  - intros [Hcs Hels]%orb_false_iff.
    replace (match els with Some x => expr_vars x | None => ∅ end) with (∅ : gset string)
      by (destruct els; [symmetry; auto|done]).
    rewrite (right_id_L ∅ _). clear IHe Hels.
    induction IH as [|[c t] cs [Hc Ht] _ IHcs]; [done|]. simpl in *.
    apply orb_false_iff in Hcs as [[? ?]%orb_false_iff ?].
    rewrite Hc, Ht, IHcs by done. set_solver.
Qed.

(** ** Constants *)

Lemma constant_of_sound reg e l :
  constant_of oc reg e = Ok l →
  ∀ c v ctx, (c, v) ∈ l → eval_expr oc reg ctx c = Ok v.
Proof.
  unfold constant_of. destruct (is_constant e && negb (has_variables e)) eqn:Hc;
    intros Hl c v ctx Hin; [|by simplify_eq; set_solver].
  apply andb_true_iff in Hc as [_ Hv]. apply negb_true_iff, has_variables_vars in Hv.
  destruct (eval_expr oc reg ∅ e) eqn:He; simplify_eq; [|set_solver].
  apply list_elem_of_singleton in Hin. simplify_eq.
  rewrite <- He. apply eval_expr_agree. rewrite Hv. set_solver.
Qed.

Lemma precompute_constants_sound reg e l :
  precompute_constants oc reg e = Ok l →
  ∀ c v ctx, (c, v) ∈ l → eval_expr oc reg ctx c = Ok v.
Proof.
  revert l.
  induction e as [lit|y|f args IH|a op b IHl IHr|op y IH|cs els IH IHe|y t IH]
    using Expression_rec_nested; intros res Hres c v ctx Hin;
    cbn [precompute_constants] in Hres;
    apply result_bind_Ok in Hres as (here & Hhere & Hres);
    apply result_bind_Ok in Hres as (sub & Hsub & Hres); simplify_eq;
    apply elem_of_app in Hin as [Hin|Hin]; try (by eapply constant_of_sound).
  - simplify_eq. set_solver.
  - simplify_eq. set_solver.
  - apply result_bind_Ok in Hsub as (ls & Hls & ?). simplify_eq.
    apply result_mapM_Ok in Hls. clear Hhere.
    induction Hls as [|x y xs ys Hx _ IHf]; [set_solver|].
    inversion IH; subst. simpl in Hin. apply elem_of_app in Hin as [?|?]; eauto.
  - apply result_bind_Ok in Hsub as (l1 & Hl1 & Hsub).
    apply result_bind_Ok in Hsub as (l2 & Hl2 & ?). simplify_eq.
    apply elem_of_app in Hin as [?|?]; eauto.
  - eauto.
  - apply result_bind_Ok in Hsub as (ls & Hls & Hsub).
    apply result_bind_Ok in Hsub as (lels & Hlels & ?). simplify_eq.
    apply elem_of_app in Hin as [Hin|Hin].
    + apply result_mapM_Ok in Hls. clear Hhere IHe Hlels.
      induction Hls as [|[x1 x2] y xs ys Hx _ IHf]; [set_solver|].
      inversion IH as [|? ? [H1 H2]]; subst. simpl in *.
      apply elem_of_app in Hin as [Hin|?]; [|eauto].
      apply result_bind_Ok in Hx as (l1 & Hl1 & Hx).
      apply result_bind_Ok in Hx as (l2 & Hl2 & ?). simplify_eq.
      apply elem_of_app in Hin as [?|?]; eauto.
    + destruct els; [eauto|]. simplify_eq. set_solver.
  - eauto.
Qed.
End Facts.

(** ** Plans *)

Section PlanFacts.
Context `{VE : ValueExternals}.
Context (oc : bool) (reg : gmap string TransformFunction).

Lemma row_values_wf (row : gmap string string) : context_wf (VString <$> row).
Proof.
  intros x v Hx. rewrite lookup_fmap in Hx. by destruct (row !! x); simpl in Hx; simplify_eq.
Qed.

Lemma execute_batch_map plan batch :
  execute_batch oc reg plan batch = map (execute_single oc reg plan) batch.
Proof. unfold execute_batch. by destruct (_ && _). Qed.

(** Machine integers stay in range: when the integer literals of an
    expression are 64-bit and the registered functions return 64-bit
    integers, every row of a batch, on the parallel and on the sequential
    path, has the result its own single-row execution has, and every value
    among those results holds only integers of the [i64] range, whatever the
    arithmetic in between and under either build profile. *)
Theorem execute_batch_in_range `{!ValueExternalsOk} plan batch i row r :
  registry_wf reg → expr_wf (root plan) = true →
  batch !! i = Some row → execute_batch oc reg plan batch !! i = Some r →
  r = execute_single oc reg plan row ∧ ∀ v, r = Ok v → value_wf v = true.
Proof.
  intros Hreg Hwf Hrow Hr. rewrite execute_batch_map in Hr.
  rewrite list_lookup_fmap, Hrow in Hr. simplify_eq/=.
  split; [done|]. intros v Hv. eapply eval_expr_wf; eauto using row_values_wf.
Qed.

(** The required fields of a plan are exact: [from_ast] lists every
    variable of the expression once and nothing else, and two rows that agree
    on the listed fields give the same result. *)
Theorem plan_required_fields_exact e plan :
  from_ast oc reg e = Ok plan →
  NoDup (required_fields plan) ∧
  (∀ x, x ∈ required_fields plan ↔ x ∈ expr_vars e) ∧
  ∀ row row' : gmap string string,
    (∀ x, x ∈ required_fields plan → row !! x = row' !! x) →
    execute_single oc reg plan row = execute_single oc reg plan row'.
Proof.
  unfold from_ast. intros (cs & _ & ?)%result_bind_Ok. simplify_eq/=.
  assert (Hex : ∀ x, x ∈ extract_required_fields [] e ↔ x ∈ expr_vars e).
  { intros x. rewrite extract_required_fields_elem. set_solver. }
  split_and!; [apply extract_required_fields_NoDup, NoDup_nil_2|done|].
  intros row row' Hag. unfold execute_single. simpl. apply eval_expr_agree.
  intros x Hx%Hex. by rewrite !lookup_fmap, Hag.
Qed.

(** The precomputed constants of a plan are right: each entry of the table
    that [from_ast] builds is the value its expression evaluates to on every
    row. *)
Theorem plan_constants_sound e plan c v (row : gmap string string) :
  from_ast oc reg e = Ok plan → (c, v) ∈ constants plan →
  eval_expr oc reg (VString <$> row) c = Ok v.
Proof.
  unfold from_ast. intros (cs & Hcs & ?)%result_bind_Ok Hin. simplify_eq/=.
  by eapply precompute_constants_sound.
Qed.
End PlanFacts.

(** ** A concrete instance of the external types

    Decimals are unscaled integers, dates and times numbers: enough to run the
    engine on concrete rows. *)

Definition sample_externals : ValueExternals := {|
  Decimal := Z;
  decimal_eqb := Z.eqb;
  decimal_to_string := i64_to_string;
  decimal_to_i64 := λ z, if in_i64 z then Some z else None;
  decimal_to_f64 := λ z, if in_i64 z then Some (f64_of_i64 z) else None;
  decimal_from_str := i64_from_str;
  decimal_from_i64 := λ z, z;
  decimal_from_f64_retain := λ f, Some (f64_to_i64 f);
  decimal_zero := 0%Z;
  NaiveDate := Z;
  date_eqb := Z.eqb;
  date_format := i64_to_string;
  date_display := i64_to_string;
  date_parse := i64_from_str;
  NaiveDateTime := Z;
  timestamp_eqb := Z.eqb;
  timestamp_format := i64_to_string;
  timestamp_display := i64_to_string;
  timestamp_parse := i64_from_str;
  timestamp_date := λ z, z;
|}.

#[local] Existing Instance sample_externals.

#[global] Instance sample_externals_ok : @ValueExternalsOk sample_externals.
Proof. constructor. simpl. intros d z. destruct (in_i64 d) eqn:E; by intros ?; simplify_eq. Qed.

(** [{a} + {b} * 2] over the rows of the witnesses. *)
Definition sample_expr : Expression :=
  EBinaryOp (ECast (EVariable "a") TyInteger) Add
    (EBinaryOp (ECast (EVariable "b") TyInteger) Multiply (ELiteral (LInteger 2))).
Definition sample_row : gmap string string := {[ "a" := "5"; "b" := " 7 " ]}.

Definition sample_plan : ExecutionPlan := {|
  root := sample_expr;
  constants := [(ELiteral (LInteger 2), VInteger 2)];
  required_fields := ["a"; "b"];
  is_parallel_safe := true;
|}.

Lemma sample_plan_ok oc : from_ast oc ∅ sample_expr = Ok sample_plan.
Proof. reflexivity. Qed.

Lemma execute_batch_in_range_witness :
  Ok (VInteger 19) = execute_single true ∅ sample_plan sample_row ∧
  ∀ v, Ok (E := eval_error) (VInteger 19) = Ok v → value_wf v = true.
Proof.
  apply (execute_batch_in_range true ∅ sample_plan [sample_row] 0 sample_row (Ok (VInteger 19)));
    [apply map_Forall_empty|reflexivity|reflexivity|reflexivity].
Defined.

Lemma plan_required_fields_exact_witness :
  NoDup (required_fields sample_plan) ∧
  (∀ x, x ∈ required_fields sample_plan ↔ x ∈ expr_vars sample_expr) ∧
  ∀ row row' : gmap string string,
    (∀ x, x ∈ required_fields sample_plan → row !! x = row' !! x) →
    execute_single true ∅ sample_plan row = execute_single true ∅ sample_plan row'.
Proof. apply (plan_required_fields_exact true ∅ sample_expr sample_plan). reflexivity. Defined.

Lemma plan_constants_sound_witness :
  eval_expr true ∅ (VString <$> sample_row) (ELiteral (LInteger 2)) = Ok (VInteger 2).
Proof.
  apply (plan_constants_sound true ∅ sample_expr sample_plan); [reflexivity|].
  apply list_elem_of_here.
Defined.

(** * Transformation engine: [LIKE] matching is correct

    The matcher of [executor.rs] cuts the pattern at the wildcards and looks for
    each part greedily.  This file proves it equivalent to the declarative
    meaning of a pattern, where [%] stands for any text. *)

(** Reference: [likes p t] iff the text [t] matches the pattern [p]. *)
Inductive likes : string → string → Prop :=
  | likes_nil : likes "" ""
  | likes_char c p t : c ≠ "%"%char → likes p t → likes (String c p) (String c t)
  | likes_wild p t1 t2 : likes p t2 → likes (String "%" p) (t1 +:+ t2).

(** Text matched by the parts that follow a wildcard. *)
Fixpoint after_wild (ps : list string) (t : string) : Prop :=
  match ps with
  | [] => True
  | [p] => ∃ a, t = a +:+ p
  | p :: ps' => ∃ a r, t = a +:+ p +:+ r ∧ after_wild ps' r
  end.

Lemma after_wild_cons p q ps t :
  after_wild (p :: q :: ps) t ↔ ∃ a r, t = a +:+ p +:+ r ∧ after_wild (q :: ps) r.
Proof. done. Qed.

(** More text before a match does not hurt. *)
Lemma after_wild_mono ps a t : after_wild ps t → after_wild ps (a +:+ t).
Proof.
  destruct ps as [|p [|q ps]]; [done| |].
  - intros [b ->]. exists (a +:+ b). by rewrite str_app_assoc.
  - rewrite !after_wild_cons. intros (b & r & -> & Hr).
    exists (a +:+ b), r. by rewrite str_app_assoc.
Qed.

Lemma likes_part p rest t :
  str_contains_char "%" p = false →
  likes (p +:+ rest) t ↔ ∃ r, t = p +:+ r ∧ likes rest r.
Proof.
  revert t. induction p as [|c p IH]; intros t Hp.
  - split; [intros Hl; by exists t|]. by intros (r & -> & Hl).
  - cbn [str_contains_char] in Hp. apply orb_false_iff in Hp as [Hc Hp].
    apply Ascii.eqb_neq in Hc. rewrite str_app_cons. split.
    + inversion 1 as [|c' p' t' _ Hl|]; simplify_eq.
      apply IH in Hl as (r & -> & Hr); [|done]. by exists r.
    + intros (r & -> & Hr). rewrite str_app_cons. constructor; [done|].
      apply IH; eauto.
Qed.

Lemma likes_part_nil p t :
  str_contains_char "%" p = false → likes p t ↔ t = p.
Proof.
  intros Hp. rewrite <- (str_app_nil_r p) at 1. rewrite likes_part by done. split.
  - intros (r & -> & Hr). inversion Hr. by rewrite str_app_nil_r.
  - intros ->. exists "". rewrite str_app_nil_r. split; [done|constructor].
Qed.

Lemma likes_wild_iff rest t :
  likes (String "%" rest) t ↔ ∃ a r, t = a +:+ r ∧ likes rest r.
Proof.
  split.
  - inversion 1; simplify_eq; eauto.
  - intros (a & r & -> & Hr). by constructor.
Qed.

Lemma str_join_cons c p q ps :
  str_join c (p :: q :: ps) = p +:+ String c (str_join c (q :: ps)).
Proof. done. Qed.

Lemma likes_after_wild ps t :
  ps ≠ [] →
  Forall (λ p, str_contains_char "%" p = false) ps →
  likes (String "%" (str_join "%" ps)) t ↔ after_wild ps t.
Proof.
  revert t. induction ps as [|p [|q ps] IH]; intros t Hne Hps; [done| |].
  - inversion_clear Hps as [|? ? Hp _]. rewrite likes_wild_iff. simpl.
    setoid_rewrite likes_part_nil; [|done]. naive_solver.
  - inversion_clear Hps as [|? ? Hp Hps']. rewrite likes_wild_iff, after_wild_cons.
    rewrite str_join_cons. setoid_rewrite likes_part; [|done].
    setoid_rewrite IH; [|done|done]. naive_solver.
Qed.

(** The whole pattern: its first part is anchored at the start of the text. *)
Lemma likes_split pattern t p q ps :
  split_char "%" pattern = p :: q :: ps →
  likes pattern t ↔ ∃ r, t = p +:+ r ∧ after_wild (q :: ps) r.
Proof.
  intros Hs. pose proof (split_char_join "%" pattern) as Hj.
  pose proof (split_char_no_sep "%" pattern) as Hno. rewrite Hs in Hj, Hno.
  inversion_clear Hno as [|? ? Hp Hno']. rewrite str_join_cons in Hj. rewrite <- Hj.
  rewrite likes_part by done.
  setoid_rewrite likes_after_wild; [|done|done]. done.
Qed.

(** ** How the pattern starts and ends *)

Lemma contains_char_split c s :
  str_contains_char c s = true → ∃ p q ps, split_char c s = p :: q :: ps.
Proof.
  induction s as [|d s IH]; cbn [str_contains_char split_char]; [done|].
  destruct (split_char c s) as [|p ps] eqn:E; [by apply split_char_nonempty in E|].
  destruct (Ascii.eqb c d); [eauto|]. simpl. intros Hc.
  destruct (IH Hc) as (p' & q & ps' & ?). simplify_eq. eauto.
Qed.

Lemma contains_char_false_split c s :
  str_contains_char c s = false → split_char c s = [s].
Proof.
  induction s as [|d s IH]; cbn [str_contains_char split_char]; [done|].
  intros [Hc Hs]%orb_false_iff. rewrite IH by done. by rewrite Hc.
Qed.

Lemma starts_with_split c s p ps :
  split_char c s = p :: ps → ps ≠ [] → starts_with s (String c "") = String.eqb p "".
Proof.
  destruct s as [|d s]; cbn [split_char]; [intros ?; by simplify_eq|].
  destruct (split_char c s) as [|p' ps'] eqn:E; [by apply split_char_nonempty in E|].
  unfold starts_with. cbn [String.prefix].
  destruct (Ascii.eqb_spec c d) as [->|Hn]; intros ? ?; simplify_eq.
  - destruct (ascii_dec d d); [by destruct s|done].
  - by destruct (ascii_dec c d).
Qed.

Lemma contains_ends_with c s :
  str_contains_char c s = false → ends_with s (String c "") = false.
Proof.
  intros Hs. apply not_true_iff_false. intros [a ->]%ends_with_iff.
  induction a as [|d a IH]; [simpl in Hs; by rewrite Ascii.eqb_refl in Hs|].
  rewrite str_app_cons in Hs. cbn [str_contains_char] in Hs.
  apply orb_false_iff in Hs as [_ Hs]. auto.
Qed.

Lemma ends_with_cons d s c :
  s ≠ "" → ends_with (String d s) (String c "") = ends_with s (String c "").
Proof.
  intros Hs. cbn [ends_with].
  destruct (String.eqb_spec (String d s) (String c "")); [by simplify_eq|done].
Qed.

Lemma ends_with_split c s ps :
  split_char c s = ps → (2 ≤ length ps)%nat →
  ends_with s (String c "") = bool_decide (list.last ps = Some "").
Proof.
  revert ps. induction s as [|d s IH]; intros ps; cbn [split_char].
  - intros <-. simpl. lia.
  - destruct (split_char c s) as [|p' ps'] eqn:E; [by apply split_char_nonempty in E|].
    destruct (str_contains_char c s) eqn:Hc.
    + destruct (contains_char_split _ _ Hc) as (p & q & qs & Hsp).
      rewrite E in Hsp. simplify_eq. specialize (IH _ eq_refl ltac:(simpl; lia)).
      rewrite ends_with_cons by (by intros ->). rewrite IH.
      destruct (Ascii.eqb c d); intros <- _; done.
    + pose proof (contains_char_false_split _ _ Hc) as Hs. rewrite E in Hs. simplify_eq.
      destruct (Ascii.eqb_spec c d) as [->|Hn]; intros <-; [|simpl; lia]. intros _.
      destruct s as [|e s]; [simpl; by rewrite Ascii.eqb_refl|].
      rewrite ends_with_cons by done. rewrite contains_ends_with by done. done.
Qed.

(** ** The loop *)

Lemma after_wild_find p q ps t :
  p ≠ "" →
  after_wild (p :: q :: ps) t ↔
  ∃ j, str_find t p = Some j ∧ after_wild (q :: ps) (str_drop (j + String.length p) t).
Proof.
  intros Hp. rewrite after_wild_cons. split.
  - intros (a & r & Ht & Hr).
    destruct (str_find_total t p) as [j Hj]; [eauto|]. exists j. split; [done|].
    apply str_find_Some in Hj as (a' & b' & Ht' & Hlen & Hmin).
    specialize (Hmin _ _ Ht).
    assert (str_drop (j + String.length p) t = b') as ->.
    { rewrite Ht', <- Hlen, <- str_drop_drop, !str_drop_app. done. }
    assert (∃ x, b' = x +:+ r) as [x ->]; [|by apply after_wild_mono].
    exists (str_drop (j + String.length p) (a +:+ p)).
    assert (b' = str_drop (j + String.length p) ((a +:+ p) +:+ r)) as ->.
    { rewrite str_app_assoc, <- Ht, Ht', <- Hlen, <- str_drop_drop, !str_drop_app. done. }
    assert (j + String.length p ≤ String.length (a +:+ p))%nat as Hle
      by (rewrite str_app_length; lia).
    clear -Hle. revert Hle. generalize (a +:+ p). generalize (j + String.length p)%nat.
    intros n s. revert n. induction s as [|c s IH]; intros [|n] Hle; simpl in *; try done; [lia|].
    apply IH. lia.
  - intros (j & Hj & Hr). apply str_find_Some in Hj as (a & b & Ht & Hlen & _).
    exists a, b. split; [done|]. rewrite Ht, <- Hlen, <- str_drop_drop, !str_drop_app in Hr. done.
Qed.

(** From the second part on, the loop decides [after_wild] of the rest. *)
Lemma like_loop_after text pattern n i pos ps :
  (1 ≤ i)%nat → n = (i + length ps)%nat → ps ≠ [] →
  ends_with pattern "%" = bool_decide (list.last ps = Some "") →
  like_loop text pattern n i pos ps = true ↔ after_wild ps (str_drop pos text).
Proof.
  revert i pos. induction ps as [|p [|q ps] IH]; intros i pos Hi Hn Hne Hend; [done| |].
  - cbn [like_loop]. rewrite Hend. destruct (String.eqb_spec p "") as [->|Hp].
    + simpl. split; [|done]. intros _. exists (str_drop pos text). by rewrite str_app_nil_r.
    + simpl in Hn. rewrite bool_decide_eq_false_2 by (simpl; congruence).
      replace (i =? 0)%nat with false by (symmetry; apply Nat.eqb_neq; lia).
      replace (i =? n - 1)%nat with true by (symmetry; apply Nat.eqb_eq; lia).
      simpl. apply ends_with_iff.
  - assert (IH' : ∀ pos, like_loop text pattern n (S i) pos (q :: ps) = true
                   ↔ after_wild (q :: ps) (str_drop pos text)).
    { intros pos'. apply IH; [lia|simpl in *; lia|done|done]. }
    remember (q :: ps) as rest. cbn [like_loop].
    destruct (String.eqb_spec p "") as [->|Hp].
    + rewrite IH'. subst rest. rewrite after_wild_cons. split.
      * intros Hr. exists "", (str_drop pos text). done.
      * intros (a & r & Heq & Hr). rewrite Heq. by apply after_wild_mono.
    + replace (i =? 0)%nat with false by (symmetry; apply Nat.eqb_neq; lia).
      replace (i =? n - 1)%nat with false
        by (symmetry; apply Nat.eqb_neq; subst; simpl; lia).
      subst rest. cbn [andb]. rewrite after_wild_find by done.
      destruct (str_find (str_drop pos text) p) as [j|]; [|naive_solver].
      rewrite IH'. setoid_rewrite str_drop_drop. naive_solver.
Qed.

(** C38: [LIKE] is correct: [match_like_pattern text pattern] answers true exactly
    when the text matches the pattern, [%] standing for any text and every other
    character for itself. The greedy left-to-right search of the code is complete. *)
Theorem match_like_pattern_correct (text pattern : string) :
  match_like_pattern text pattern = true ↔ likes pattern text.
Proof.
  unfold match_like_pattern. destruct (str_contains_char "%" pattern) eqn:Hc.
  - destruct (contains_char_split _ _ Hc) as (p & q & ps & Hs).
    rewrite (likes_split _ _ _ _ _ Hs). rewrite Hs.
    pose proof (starts_with_split _ _ _ _ Hs ltac:(done)) as Hst.
    pose proof (ends_with_split _ _ _ Hs ltac:(simpl; lia)) as Hend.
    change (list.last (p :: q :: ps)) with (list.last (q :: ps)) in Hend.
    remember (q :: ps) as rest. cbn [like_loop]. rewrite Hst.
    destruct (String.eqb_spec p "") as [->|Hp].
    + rewrite like_loop_after by (subst; simpl; done || lia). naive_solver.
    + cbn. destruct (starts_with text p) eqn:Ht.
      * apply starts_with_iff in Ht as [r ->].
        rewrite like_loop_after by (subst; simpl; done || lia).
        rewrite str_drop_app. split; [eauto|]. intros (r' & Heq & ?).
        apply str_app_inj_l in Heq. by subst.
      * split; [done|]. intros (r & -> & _). exfalso. revert Ht.
        apply not_false_iff_true. apply starts_with_iff. eauto.
  - rewrite likes_part_nil by done. split; [by intros ?%String.eqb_eq|intros ->; apply String.eqb_refl].
Qed.
