(* ===== verification/TransformFunctionFacts.v ===== *)
(** * Transformation engine: properties of the registry and the built-ins

    The registry's table of built-ins, the absence of out-of-range indexing in
    the built-ins its arity guards protect, and the 64-bit invariant of their
    results. *)

From Stdlib Require Import ZArith Lia Ascii.
From Stdlib Require Import SpecFloat.
From stdpp Require Import base numbers option strings gmap list.
From S2P Require Import Prelude RustStd F64 TransformAst TransformTypes TransformFunctions.
From S2P Require Import TransformExec TransformExecFacts.

Section FunctionFacts.
Context `{VE : ValueExternals}.
Context (oc : bool).

Abbreviation FunctionRegistry := (gmap string TransformFunction).

(** ** What the built-ins return *)

Definition res_wf (m : result eval_error Value) : Prop :=
  ∀ v, m = Ok v → value_wf v = true.

Definition args_wf (args : list Value) : Prop := Forall (λ a, value_wf a = true) args.

Lemma res_wf_ok v : value_wf v = true → res_wf (Ok v).
Proof. intros Hv w ?. by simplify_eq. Qed.

Lemma res_wf_err e : res_wf (Err e).
Proof. by intros ??. Qed.

Lemma res_wf_panic : res_wf Panic.
Proof. by intros ??. Qed.

Lemma res_wf_if (b : bool) m m' : res_wf m → res_wf m' → res_wf (if b then m else m').
Proof. by destruct b. Qed.

Lemma res_wf_bind {A} (m : result eval_error A) f :
  (∀ a, m = Ok a → res_wf (f a)) → res_wf (m ≫= f).
Proof. intros Hf v (a & Ha & Hv)%result_bind_Ok. by eapply Hf. Qed.

Lemma res_wf_idx args i : args_wf args → res_wf (idx args i).
Proof.
  unfold idx. intros HF v Hv. destruct (args !! i) eqn:E; simplify_eq.
  by eapply Forall_lookup_1 in HF.
Qed.

Lemma res_wf_unless_null args k : (∀ v, res_wf (k v)) → res_wf (unless_null args k).
Proof.
  intros Hk. apply res_wf_bind. intros v _. apply res_wf_if; [by apply res_wf_ok|done].
Qed.

Lemma coalesce_wf args : args_wf args → res_wf (coalesce_execute args).
Proof.
  induction 1 as [|a args Ha _ IH]; simpl; [by apply res_wf_ok|].
  apply res_wf_if; [done|by apply res_wf_ok].
Qed.

Lemma case_pairs_wf n : ∀ args, (length args ≤ n)%nat → args_wf args →
  res_wf (case_pairs args).
Proof.
  induction n as [|n IH]; intros [|c [|x args]] Hn HF; simpl in *; try lia;
    try apply res_wf_panic; inversion_clear HF as [|? ? Hc HF']; [by apply res_wf_ok|].
  inversion_clear HF'. apply res_wf_if; [by apply res_wf_ok|]. apply IH; [lia|done].
Qed.

Lemma mod_wf `{!ValueExternalsOk} args : args_wf args → res_wf (mod_execute args).
Proof.
  intros HF. unfold mod_execute.
  apply res_wf_bind. intros x Hx. apply res_wf_if; [by apply res_wf_ok|].
  apply res_wf_bind. intros y Hy. apply res_wf_if; [by apply res_wf_ok|].
  apply res_wf_bind. intros a Ha. apply res_wf_bind. intros b Hb.
  apply res_wf_if; [apply res_wf_err|]. apply res_wf_bind. intros r Hr. apply res_wf_ok.
  apply (res_wf_idx _ _ HF) in Hx, Hy.
  eapply i64_rem_range; [| |exact Hr]; eauto using as_integer_range.
Qed.

Lemma abs_wf args : args_wf args → res_wf (abs_execute oc args).
Proof.
  intros HF. apply res_wf_bind. intros v _.
  destruct v; try (by apply res_wf_ok); apply res_wf_bind; intros n Hn; apply res_wf_ok;
    try done. by eapply i64_checked_range.
Qed.

Lemma modelled_builtins_wf `{!ValueExternalsOk} :
  Forall (λ p, ∀ args, args_wf args → res_wf (fn_execute p.2 args)) (modelled_builtins oc).
Proof.
  unfold modelled_builtins.
  repeat (apply List.Forall_cons; [intros args HF; cbn [mk_fn fn_execute snd]|]);
    [..|constructor].
  all: first
    [ by apply coalesce_wf | by apply mod_wf | by apply abs_wf | by apply res_wf_idx
    | by apply res_wf_if; [apply res_wf_err|by eapply case_pairs_wf]
    | apply res_wf_unless_null; intros x | idtac ].
  all: repeat first
    [ apply res_wf_ok; solve [done|apply wrap_i64_range|apply f64_to_i64_range
                             |by eapply res_wf_idx]
    | apply res_wf_err | apply res_wf_panic | by apply res_wf_idx
    | apply res_wf_if | apply res_wf_bind; intros ? ? | progress cbv zeta | case_match ].
Qed.

Lemma register_all_Forall (P : string → TransformFunction → Prop) fns reg :
  Forall (λ p, P (to_uppercase p.1) p.2) fns → map_Forall P reg →
  map_Forall P (register_all fns reg).
Proof.
  intros HF. revert reg. induction HF as [|[name f] fns Hf _ IH]; intros reg Hreg; [done|].
  apply IH. by apply map_Forall_insert_2.
Qed.

(** The table of built-ins returns 64-bit integers only. *)
Lemma with_builtins_wf `{!ValueExternalsOk} ext :
  registry_wf (register_all ext ∅) → registry_wf (with_builtins oc ext).
Proof.
  intros Hext. unfold registry_wf, with_builtins.
  apply (register_all_Forall (λ _ f, ∀ args v, args_wf args → fn_execute f args = Ok v →
           value_wf v = true)); [|done].
  eapply Forall_impl; [apply modelled_builtins_wf|]. intros [name f] Hf args v HF Hv.
  by eapply Hf.
Qed.

(** ** Arity guards and indexing *)

Lemma register_all_other fns reg k :
  Forall (λ p, to_uppercase p.1 ≠ k) fns → register_all fns reg !! k = reg !! k.
Proof.
  intros HF. revert reg. induction HF as [|[name f] fns Hf _ IH]; intros reg; [done|].
  change (register_all _ reg) with (register_all fns (register reg name f)).
  rewrite IH. by apply lookup_insert_ne.
Qed.

Lemma register_all_union fns m reg :
  register_all fns (m ∪ reg) = register_all fns m ∪ reg.
Proof.
  revert m. induction fns as [|[name f] fns IH]; intros m; [done|].
  change (register_all fns (register (m ∪ reg) name f)
          = register_all fns (register m name f) ∪ reg).
  rewrite <- IH. f_equal. apply insert_union_l.
Qed.

(** A modelled built-in is found under its name whatever else is registered. *)
Lemma with_builtins_lookup ext k f :
  with_builtins oc [] !! k = Some f → with_builtins oc ext !! k = Some f.
Proof.
  unfold with_builtins. intros Hk.
  rewrite <- (left_id_L ∅ (∪) (register_all ext ∅)), register_all_union.
  by apply lookup_union_Some_l.
Qed.

(** [m] does not panic. *)
Definition no_panic {A} (m : result eval_error A) : Prop := m ≠ Panic.

Lemma no_panic_bind {A B} (m : result eval_error A) (f : A → result eval_error B) :
  no_panic m → (∀ a, no_panic (f a)) → no_panic (m ≫= f).
Proof. unfold no_panic. destruct m; simpl; auto. Qed.

Lemma no_panic_if {A} (b : bool) (m m' : result eval_error A) :
  (b = true → no_panic m) → (b = false → no_panic m') → no_panic (if b then m else m').
Proof. destruct b; auto. Qed.

Lemma no_panic_idx args i : (i < length args)%nat → no_panic (idx args i).
Proof. unfold no_panic, idx. intros [x ->]%lookup_lt_is_Some_2. done. Qed.

Lemma no_panic_as_integer v : no_panic (as_integer v).
Proof. unfold no_panic, as_integer, ok_or. repeat case_match; done. Qed.

Lemma no_panic_as_float v : no_panic (as_float v).
Proof. unfold no_panic, as_float, ok_or. repeat case_match; done. Qed.

Lemma no_panic_usize_arg args i : (i < length args)%nat → no_panic (usize_arg args i).
Proof.
  intros Hi. apply no_panic_bind; [by apply no_panic_idx|]. intros v.
  apply no_panic_bind; [apply no_panic_as_integer|]. done.
Qed.

Lemma no_panic_unless_null args k :
  (0 < length args)%nat → (∀ v, no_panic (k v)) → no_panic (unless_null args k).
Proof.
  intros Ha Hk. apply no_panic_bind; [by apply no_panic_idx|]. intros v.
  by apply no_panic_if.
Qed.

Lemma no_panic_usize_bind {A} args i (f : Z → result eval_error A) :
  (i < length args)%nat → (∀ n, (0 ≤ n)%Z → no_panic (f n)) →
  no_panic (usize_arg args i ≫= f).
Proof.
  intros Hi Hf. unfold usize_arg. pose proof (no_panic_idx args i Hi) as Hx.
  destruct (idx args i) as [v| |]; simpl; [|done..].
  pose proof (no_panic_as_integer v) as Hz. destruct (as_integer v); simpl; [|done..].
  apply Hf. by apply Z.mod_pos_bound.
Qed.

Lemma no_panic_coalesce args : no_panic (coalesce_execute args).
Proof. induction args as [|a args IH]; simpl; [done|]. by destruct (coalesce_skips a). Qed.

Lemma no_panic_case_pairs n : ∀ args, (length args ≤ n)%nat →
  Nat.even (length args) = false → no_panic (case_pairs args).
Proof.
  induction n as [|n IH]; intros [|c [|x args]] Hn Ho; simpl in *; try lia; try done.
  apply no_panic_if; intros _; [done|]. apply IH; [lia|done].
Qed.

Lemma no_panic_split_part parts index :
  (0 ≤ index)%Z → (index =? 0)%Z = false → (Z.of_nat (length parts) <? index)%Z = false →
  no_panic (match parts !! Z.to_nat (index - 1) with
            | Some p => Ok (VString p) | None => Panic end).
Proof.
  intros H0 H1%Z.eqb_neq H2%Z.ltb_ge.
  destruct (lookup_lt_is_Some_2 parts (Z.to_nat (index - 1))) as [p ->]; [lia|done].
Qed.
End FunctionFacts.

Section Safety.
Context `{VE : ValueExternals}.

(** What the registry guarantees about the number of arguments. *)
Definition arity_ok (f : TransformFunction) (n : nat) : Prop :=
  (fn_min_args f ≤ n)%nat ∧ ∀ max, fn_max_args f = Some max → (n ≤ max)%nat.

(** The built-ins that can panic whatever the build profile. *)
Definition panicking_builtins : list string := ["REPEAT"; "MOD"].

Lemma no_panic_mask_text text c vs ve : no_panic (mask_text false text c vs ve).
Proof.
  apply no_panic_bind; [by unfold usize_checked; destruct (_ && _)|]. intros n.
  apply no_panic_if; intros _; [done|].
  apply no_panic_bind; [by unfold usize_checked; destruct (_ && _)|]. done.
Qed.

Lemma no_panic_abs args : (0 < length args)%nat → no_panic (abs_execute false args).
Proof.
  intros Ha. apply no_panic_bind; [by apply no_panic_idx|]. intros [] ; try done;
    (apply no_panic_bind; [|done]); try apply no_panic_as_float.
  unfold i64_abs, i64_checked, no_panic. by destruct (in_i64 _).
Qed.

Lemma modelled_builtins_no_panic :
  Forall (λ p, p.1 ∉ panicking_builtins → ∀ args, arity_ok p.2 (length args) →
               no_panic (fn_execute p.2 args)) (modelled_builtins false).
Proof.
  unfold modelled_builtins.
  repeat (apply List.Forall_cons;
    [cbn [fst snd]; intros Hn args [Hmin _]; cbn [mk_fn fn_min_args fn_execute] in *|]);
    [..|constructor].
  all: try (exfalso; apply Hn; by repeat constructor).
  all: clear Hn.
  all: try (by apply no_panic_coalesce).
  all: try (by apply no_panic_abs).
  all: repeat match goal with
    | H : (_ <? _)%nat = true |- _ => apply Nat.ltb_lt in H
    | H : (_ || _) = false |- _ => apply orb_false_iff in H as [_ H]
    | |- no_panic (Ok _) => done
    | |- no_panic (Err _) => done
    | |- no_panic (idx _ _) => apply no_panic_idx; lia
    | |- no_panic (usize_arg _ _) => apply no_panic_usize_arg; lia
    | |- no_panic (as_float _) => apply no_panic_as_float
    | |- no_panic (as_integer _) => apply no_panic_as_integer
    | |- no_panic (mask_text _ _ _ _ _) => apply no_panic_mask_text
    | |- no_panic (case_pairs _) => by eapply no_panic_case_pairs
    | |- no_panic (if _ then _ else _) => apply no_panic_if; intros
    | |- no_panic (usize_arg _ _ ≫= _) => apply no_panic_usize_bind; [lia|intros]
    | |- no_panic (_ ≫= _) => apply no_panic_bind; [|intros]
    | |- no_panic (match _ !! Z.to_nat _ with _ => _ end) => by apply no_panic_split_part
    | |- no_panic (match ?v with _ => _ end) => by destruct v
    | |- no_panic (let _ := _ in _) => cbv zeta
    | |- no_panic (unless_null _ _) => apply no_panic_unless_null; [lia|intros; cbv zeta]
    | |- no_panic (mask_execute _ _) => unfold mask_execute
    | |- no_panic (?f _ _) => unfold f
    end.
Qed.

Lemma modelled_builtins_upper :
  Forall (λ p, to_uppercase p.1 = p.1) (modelled_builtins false).
Proof. by repeat constructor. Qed.

Lemma builtins_no_panic name args :
  to_uppercase name ∉ panicking_builtins →
  no_panic (registry_execute (with_builtins false []) name args).
Proof.
  intros Hname. unfold registry_execute.
  destruct (with_builtins false [] !! to_uppercase name) as [f|] eqn:Hf; [|done].
  assert (Hall : map_Forall (λ k f, k ∉ panicking_builtins → ∀ args,
            arity_ok f (length args) → no_panic (fn_execute f args))
            (with_builtins false [])).
  { apply register_all_Forall; [|apply map_Forall_empty].
    pose proof modelled_builtins_upper as Hup. pose proof modelled_builtins_no_panic as Hnp.
    rewrite Forall_forall in *. intros p Hp. rewrite (Hup p Hp). auto. }
  specialize (Hall _ _ Hf Hname args). unfold arity_ok in Hall.
  destruct (Nat.ltb_spec (length args) (fn_min_args f)); [done|].
  destruct (fn_max_args f) as [max|]; [|apply Hall; split; [lia|done]].
  destruct (Nat.ltb_spec max (length args)); [done|].
  apply Hall. split; [lia|]. intros ??. simplify_eq. lia.
Qed.

(** The arity guards of [FunctionRegistry::execute] protect every index
    expression of the built-ins: in a release build, a call of any modelled
    built-in but [REPEAT] and [MOD], under any capitalisation of its name and
    with any arguments, returns a value or an error and never panics. *)
Theorem builtins_never_panic name args :
  to_uppercase name ∉ ["REPEAT"; "MOD"] →
  registry_execute (with_builtins false []) name args ≠ Panic.
Proof. apply builtins_no_panic. Qed.
End Safety.

Section SafetyWitnesses.
#[local] Existing Instance sample_externals.

(** A call with too few arguments and one past the end of the text. *)
Lemma builtins_never_panic_witness :
  registry_execute (with_builtins false []) "left" [VString "abc"] ≠ Panic ∧
  registry_execute (with_builtins false []) "Split_Part"
    [VString "a,b"; VString ","; VInteger 9] ≠ Panic.
Proof.
  split; apply builtins_never_panic; apply (bool_decide_unpack _); exact I.
Defined.

(** [MOD] is excluded for a reason. *)
Theorem mod_min_panics :
  registry_execute (with_builtins false []) "MOD" [VInteger i64_min; VInteger (-1)] = Panic.
Proof. reflexivity. Qed.
End SafetyWitnesses.

(** * Transformation engine: laws of the text functions and of the registry

    What [MASK] hides and what [SLUG] produces, how [LEFT], [SUBSTRING] and
    [RIGHT] fit together, and the registry's dispatch by name. *)

(** ** MASK *)

Lemma mask_chars_length c vs ht k s :
  String.length (mask_chars c vs ht k s) = String.length s.
Proof. revert k. induction s as [|x s IH]; intros k; simpl; [done|]. by rewrite IH. Qed.

Lemma mask_chars_get c vs ht k s i :
  String.get i (mask_chars c vs ht k s) =
  (λ x, if (k + Z.of_nat i <? vs)%Z || (ht <=? k + Z.of_nat i)%Z then x else c)
    <$> String.get i s.
Proof.
  revert k i. induction s as [|x s IH]; intros k [|i]; simpl; try done.
  - by rewrite Z.add_0_r.
  - rewrite IH. by replace (k + 1 + Z.of_nat i)%Z with (k + Z.pos (Pos.of_succ_nat i))%Z by lia.
Qed.

Lemma usize_checked_in oc z :
  (0 ≤ z < 2 ^ 64)%Z → usize_checked oc z = Ok z.
Proof.
  intros Hz. unfold usize_checked.
  by rewrite (proj2 (Z.leb_le 0 z)), (proj2 (Z.ltb_lt z (2 ^ 64))) by lia.
Qed.

Lemma as_usize_in z : (0 ≤ z)%Z → in_i64 z = true → as_usize z = z.
Proof.
  intros H0 Hz%in_i64_spec. unfold i64_min, i64_max in Hz. apply Z.mod_small. lia.
Qed.

(** ** Slugs *)

Lemma str_all_map_id (p : ascii → bool) f s :
  (∀ c, p c = true → f c = c) → str_all p s = true → str_map f s = s.
Proof.
  intros Hf. induction s as [|c s IH]; simpl; [done|].
  intros [Hc Hs]%andb_true_iff. by rewrite Hf, IH.
Qed.

Lemma str_all_str_map (p : ascii → bool) f s :
  (∀ c, p (f c) = true) → str_all p (str_map f s) = true.
Proof. intros Hf. induction s as [|c s IH]; simpl; [done|]. by rewrite Hf, IH. Qed.

Lemma str_map_map f g s : str_map f (str_map g s) = str_map (λ c, f (g c)) s.
Proof. induction s as [|c s IH]; simpl; [done|]. by rewrite IH. Qed.

Lemma str_all_split p c s :
  str_all p s = true → Forall (λ w, str_all p w = true) (split_char c s).
Proof.
  induction s as [|d s IH]; simpl; [by repeat constructor|].
  intros [Hd Hs]%andb_true_iff. specialize (IH Hs).
  destruct (split_char c s) as [|w ws]; [by constructor; [simpl; rewrite Hd|]|].
  inversion_clear IH. destruct (Ascii.eqb c d); repeat constructor; try done.
  simpl. by apply andb_true_iff.
Qed.

Lemma join_str_join c ws : join (String c "") ws = str_join c ws.
Proof.
  induction ws as [|w ws IH]; [done|]. destruct ws as [|w' ws]; [done|].
  cbn [join str_join] in *. by rewrite IH.
Qed.

Lemma str_all_join p c ws :
  p c = true → Forall (λ w, str_all p w = true) ws → str_all p (str_join c ws) = true.
Proof.
  intros Hc. induction 1 as [|w ws Hw HF IH]; [done|]. destruct ws as [|w' ws]; [done|].
  cbn [str_join] in *. rewrite str_all_app, Hw. simpl. rewrite Hc. exact IH.
Qed.

Lemma split_char_app c w s :
  str_contains_char c w = false → split_char c (w +:+ String c s) = w :: split_char c s.
Proof.
  induction w as [|d w IH].
  - intros _. change ("" +:+ String c s) with (String c s). simpl.
    destruct (split_char c s) eqn:E; [by apply split_char_nonempty in E|].
    by rewrite Ascii.eqb_refl.
  - intros [Hd Hw]%orb_false_iff. rewrite str_app_cons. simpl. rewrite (IH Hw). by rewrite Hd.
Qed.

Lemma split_char_none c w : str_contains_char c w = false → split_char c w = [w].
Proof.
  induction w as [|d w IH]; [done|]. intros [Hd Hw]%orb_false_iff. simpl.
  rewrite (IH Hw). by rewrite Hd.
Qed.

Lemma split_char_str_join c ws :
  ws ≠ [] → Forall (λ w, str_contains_char c w = false) ws → split_char c (str_join c ws) = ws.
Proof.
  intros Hne HF. induction HF as [|w ws Hw HF IH]; [done|].
  destruct ws as [|w' ws]; [by apply split_char_none|].
  cbn [str_join] in *. rewrite split_char_app by done. by rewrite IH.
Qed.

(** A character that slugification leaves alone. *)
Definition slug_stable (c : ascii) : bool :=
  Ascii.eqb (ascii_to_lower c) c && Ascii.eqb (slug_char c) c.

Lemma slug_char_stable c : slug_stable (slug_char (ascii_to_lower c)) = true.
Proof. by destruct c as [[][][][][][][][]]. Qed.

Lemma filter_id {A} (p : A → bool) l : Forall (λ x, p x = true) l → List.filter p l = l.
Proof. induction 1 as [|x l Hx _ IH]; simpl; [done|]. by rewrite Hx, IH. Qed.

Lemma Forall_filter {A} (p : A → bool) (P : A → Prop) l :
  Forall P l → Forall P (List.filter p l).
Proof. induction 1; simpl; [done|]. destruct (p x); [by constructor|done]. Qed.

Lemma filter_Forall {A} (p : A → bool) l : Forall (λ x, p x = true) (List.filter p l).
Proof. induction l as [|x l IH]; simpl; [done|]. destruct (p x) eqn:E; [by constructor|done]. Qed.

Definition slug_words (s : string) : list string :=
  List.filter nonempty_str (split_char "-" (str_map slug_char (to_lowercase s))).

Lemma slugify_words s : slugify s = str_join "-" (slug_words s).
Proof. apply join_str_join. Qed.

Lemma slugify_all s : str_all slug_stable (slugify s) = true.
Proof.
  rewrite slugify_words. apply str_all_join; [done|]. apply Forall_filter, str_all_split.
  unfold to_lowercase. rewrite str_map_map. apply str_all_str_map, slug_char_stable.
Qed.

Lemma slug_words_slugify s : slug_words (slugify s) = slug_words s.
Proof.
  unfold slug_words at 1. unfold to_lowercase. rewrite str_map_map.
  rewrite (str_all_map_id slug_stable) by
    (try apply slugify_all; intros c [->%Ascii.eqb_eq ->%Ascii.eqb_eq]%andb_true_iff; done).
  rewrite slugify_words.
  destruct (decide (slug_words s = [])) as [->|Hne]; [done|].
  rewrite split_char_str_join; [apply filter_id, filter_Forall|done|].
  apply Forall_filter, split_char_no_sep.
Qed.

Section TextFacts.
Context `{VE : ValueExternals}.
Context (oc : bool).

(** What [MASK] hides: with non-negative visible counts that do not cover
    the text, the result has the text's length, keeps exactly the first
    [visible_start] and the last [visible_end] characters, and holds the mask
    character at every other position. *)
Theorem mask_execute_spec text c vs ve :
  (0 ≤ vs)%Z → (0 ≤ ve)%Z → in_i64 (str_size text) = true → (vs + ve < str_size text)%Z →
  ∃ r, mask_execute oc [VString text; VString (String c ""); VInteger vs; VInteger ve]
       = Ok (VString r) ∧
    String.length r = String.length text ∧
    ∀ i, String.get i r =
         if (Z.of_nat i <? vs)%Z || (str_size text - ve <=? Z.of_nat i)%Z
         then String.get i text
         else (λ _, c) <$> String.get i text.
Proof.
  intros Hvs Hve Hlen Hsum.
  pose proof Hlen as Hb. apply in_i64_spec in Hb. unfold i64_min, i64_max in Hb.
  exists (mask_chars c vs (str_size text - ve) 0 text).
  split_and!; [|apply mask_chars_length|].
  - unfold mask_execute, unless_null, usize_arg, mask_text. simpl.
    unfold as_usize. rewrite !Z.mod_small, usize_checked_in by lia. simpl.
    rewrite usize_checked_in by lia. cbn.
    by rewrite (proj2 (Z.leb_gt (str_size text) (vs + ve))).
  - intros i. rewrite mask_chars_get. simpl.
    destruct (_ || _); destruct (String.get i text); done.
Qed.

(** Outside that range: a negative count wraps to a huge [usize], and a
    release build returns the text unmasked. *)
Theorem mask_negative_count_reveals :
  mask_execute false [VString "123-45-6789"; VString "*"; VInteger (-1); VInteger 0]
  = Ok (VString "123-45-6789").
Proof. reflexivity. Qed.

(** ** Slicing *)

Lemma str_skip_drop n s : (0 ≤ n)%Z → str_skip n s = str_drop (Z.to_nat n) s.
Proof.
  intros Hn. unfold str_skip, str_size.
  destruct (Z.leb_spec n (Z.of_nat (String.length s))); [by rewrite Z.min_l by lia|].
  rewrite Z.min_r, Nat2Z.id by lia. clear VE oc.
  rewrite (str_drop_all (String.length s)), str_drop_all by lia. done.
Qed.

(** [LEFT], [SUBSTRING] and [RIGHT] tile a text: the first [n]
    characters, the [m] characters from the 1-based position [n + 1] on and
    the remaining ones at the right end, concatenated, give the text back. *)
Theorem left_substring_right_tile s n m :
  (0 ≤ n)%Z → (0 ≤ m)%Z → in_i64 (str_size s) = true → (n + m ≤ str_size s)%Z →
  ∃ a b c,
    left_execute [VString s; VInteger n] = Ok (VString a) ∧
    substring_execute [VString s; VInteger (n + 1); VInteger m] = Ok (VString b) ∧
    right_execute [VString s; VInteger (str_size s - n - m)] = Ok (VString c) ∧
    a +:+ b +:+ c = s.
Proof.
  intros Hn Hm Hlen%in_i64_spec Hsum. unfold i64_min, i64_max in Hlen.
  exists (str_take (Z.to_nat n) s), (str_take (Z.to_nat m) (str_drop (Z.to_nat n) s)),
    (str_drop (Z.to_nat m) (str_drop (Z.to_nat n) s)).
  unfold left_execute, substring_execute, right_execute, unless_null, usize_arg, as_usize. simpl.
  rewrite !Z.mod_small by lia.
  assert (Hdrop : str_size (str_drop (Z.to_nat n) s) = (str_size s - n)%Z)
    by (apply str_drop_size; lia).
  split_and!.
  - unfold str_takez. by rewrite Z.min_l by lia.
  - destruct (Z.ltb_spec 0 (n + 1)); [|lia]. replace (n + 1 - 1)%Z with n by lia.
    rewrite str_skip_drop by lia. unfold str_takez. by rewrite Hdrop, Z.min_l by lia.
  - destruct (Z.leb_spec (str_size s) (str_size s - n - m)).
    + assert (n = 0%Z) as -> by lia. assert (m = 0%Z) as -> by lia. done.
    + rewrite str_skip_drop, str_drop_drop by lia. do 3 f_equal. lia.
  - by rewrite !str_take_drop.
Qed.

(** What [SLUG] produces: its result holds only lower-case letters, digits
    and hyphens (characters a second pass leaves alone), no two hyphens
    follow one another and none is at an end (every piece between hyphens is
    non-empty), and a slug's slug is itself. *)
Theorem slug_execute_spec s :
  ∃ r, slug_execute [VString s] = Ok (VString r) ∧
    str_all (λ c, is_alphanumeric c && Ascii.eqb (ascii_to_lower c) c || Ascii.eqb c "-") r
      = true ∧
    (r = "" ∨ Forall (λ w, w ≠ "") (split_char "-" r)) ∧
    slug_execute [VString r] = Ok (VString r).
Proof.
  exists (slugify s). split_and!; [done| | |].
  - eapply str_all_impl; [|apply slugify_all]. intros c. by destruct c as [[][][][][][][][]].
  - destruct (decide (slug_words s = [])) as [E|Hne].
    { left. by rewrite slugify_words, E. }
    right. rewrite slugify_words, split_char_str_join; [|done|apply Forall_filter, split_char_no_sep].
    eapply Forall_impl; [apply filter_Forall|]. intros w Hw ->. done.
  - unfold slug_execute, unless_null. simpl. do 2 f_equal.
    by rewrite slugify_words, slug_words_slugify, slugify_words.
Qed.
End TextFacts.

(** ** The registry *)

Section RegistryFacts.
Context `{VE : ValueExternals}.

(** The registry dispatches without regard to case: a function registered
    under any spelling of a name is the one a call under any other spelling
    runs, when the number of arguments is within the function's bounds, and a
    call of any other name behaves as before the registration. *)
Theorem register_then_execute reg name f name' args :
  arity_ok f (length args) →
  (to_uppercase name' = to_uppercase name →
     registry_execute (register reg name f) name' args = fn_execute f args) ∧
  (to_uppercase name' ≠ to_uppercase name →
     registry_execute (register reg name f) name' args = registry_execute reg name' args).
Proof.
  intros [Hmin Hmax]. unfold registry_execute, register. split; intros Hn.
  - rewrite Hn, lookup_insert_eq. destruct (Nat.ltb_spec (length args) (fn_min_args f)); [lia|].
    destruct (fn_max_args f) as [max|]; [|done].
    destruct (Nat.ltb_spec max (length args)); [|done]. specialize (Hmax max eq_refl). lia.
  - by rewrite lookup_insert_ne.
Qed.
End RegistryFacts.

(** ** Witnesses *)

Section TextWitnesses.
#[local] Existing Instance sample_externals.

Lemma mask_execute_spec_witness :
  ∃ r, mask_execute true [VString "123-45-6789"; VString "*"; VInteger 0; VInteger 4]
       = Ok (VString r) ∧
    String.length r = 11%nat ∧
    ∀ i, String.get i r =
         if (Z.of_nat i <? 0)%Z || (str_size "123-45-6789" - 4 <=? Z.of_nat i)%Z
         then String.get i "123-45-6789"
         else (λ _, "*"%char) <$> String.get i "123-45-6789".
Proof. apply mask_execute_spec; [lia|lia|reflexivity|reflexivity]. Defined.

Lemma left_substring_right_tile_witness :
  ∃ a b c,
    left_execute [VString "verify"; VInteger 2] = Ok (VString a) ∧
    substring_execute [VString "verify"; VInteger 3; VInteger 3] = Ok (VString b) ∧
    right_execute [VString "verify"; VInteger 1] = Ok (VString c) ∧
    a +:+ b +:+ c = "verify".
Proof.
  apply (left_substring_right_tile "verify" 2 3);
    [lia|lia|reflexivity|by apply Z.leb_le].
Defined.

Lemma register_then_execute_witness :
  registry_execute (register (with_builtins true []) "shout" (mk_fn upper_execute 1 (Some 1%nat)))
    "Shout" [VString "hi"] = Ok (VString "HI").
Proof.
  apply (register_then_execute (with_builtins true []) "shout"
           (mk_fn upper_execute 1 (Some 1%nat)) "Shout" [VString "hi"]); [|reflexivity].
  split; [done|]. intros max [= <-]. done.
Defined.
End TextWitnesses.
