(* ===== verification/TransformOptimizer.v ===== *)
(** * Transformation engine: the optimizer

    Models [mapping/loader/transformation/optimizer.rs]: constant folding,
    algebraic simplification and their composition. *)

From Stdlib Require Import ZArith Lia Ascii.
From Stdlib Require Import SpecFloat.
From stdpp Require Import base numbers option strings gmap list.
From S2P Require Import Prelude RustStd F64 TransformAst TransformTypes TransformFunctions.
From S2P Require Import TransformExec.

Section Optimizer.
Context (overflow_checks : bool).

Abbreviation ores := (result eval_error Expression).

(** [evaluate_binary_literals]. *)
Definition evaluate_binary_literals (l : Literal) (op : BinaryOp) (r : Literal) : ores :=
  let as_is := Ok (EBinaryOp (ELiteral l) op (ELiteral r)) in
  let int (m : result eval_error Z) := n ← m; Ok (ELiteral (LInteger n)) in
  let bool (b : bool) : ores := Ok (ELiteral (LBoolean b)) in
  match l, op, r with
  | LInteger a, Add, LInteger b => int (i64_add overflow_checks a b)
  | LInteger a, Subtract, LInteger b => int (i64_sub overflow_checks a b)
  | LInteger a, Multiply, LInteger b => int (i64_mul overflow_checks a b)
  | LInteger a, Divide, LInteger b =>
      if (b =? 0)%Z then as_is else int (i64_div a b)
  | LInteger a, Modulo, LInteger b =>
      if (b =? 0)%Z then as_is else int (i64_rem a b)
  | LFloat a, Add, LFloat b => Ok (ELiteral (LFloat (f64_add a b)))
  | LFloat a, Subtract, LFloat b => Ok (ELiteral (LFloat (f64_sub a b)))
  | LFloat a, Multiply, LFloat b => Ok (ELiteral (LFloat (f64_mul a b)))
  | LFloat a, Divide, LFloat b =>
      if f64_eqb b f64_zero then as_is else Ok (ELiteral (LFloat (f64_div a b)))
  | LString a, Concat, LString b => Ok (ELiteral (LString (a +:+ b)))
  | LBoolean a, And, LBoolean b => bool (a && b)
  | LBoolean a, Or, LBoolean b => bool (a || b)
  | LInteger a, Equal, LInteger b => bool (a =? b)%Z
  | LInteger a, NotEqual, LInteger b => bool (negb (a =? b)%Z)
  | LInteger a, LessThan, LInteger b => bool (a <? b)%Z
  | LInteger a, LessThanOrEqual, LInteger b => bool (a <=? b)%Z
  | LInteger a, GreaterThan, LInteger b => bool (b <? a)%Z
  | LInteger a, GreaterThanOrEqual, LInteger b => bool (b <=? a)%Z
  | _, _, _ => as_is
  end.

(** [evaluate_unary_literal]. *)
Definition evaluate_unary_literal (op : UnaryOp) (lit : Literal) : ores :=
  match op, lit with
  | Negate, LInteger i => n ← i64_neg overflow_checks i; Ok (ELiteral (LInteger n))
  | Negate, LFloat f => Ok (ELiteral (LFloat (f64_neg f)))
  | Not, LBoolean b => Ok (ELiteral (LBoolean (negb b)))
  | IsNull, LNull => Ok (ELiteral (LBoolean true))
  | IsNull, _ => Ok (ELiteral (LBoolean false))
  | IsNotNull, LNull => Ok (ELiteral (LBoolean false))
  | IsNotNull, _ => Ok (ELiteral (LBoolean true))
  | _, _ => Ok (EUnaryOp op (ELiteral lit))
  end.

Definition is_lit_bool (b : bool) (e : Expression) : bool :=
  match e with
  | ELiteral (LBoolean b') => Bool.eqb b b'
  | _ => false
  end.

(** The [CASE] part of [fold_constants], after the clauses are folded. *)
Definition fold_case (conditions : list (Expression * Expression))
    (else_expr : option Expression) : Expression :=
  match List.find (λ c, is_lit_bool true c.1) conditions with
  | Some (_, then_expr) => then_expr
  | None =>
      let conditions := List.filter (λ c, negb (is_lit_bool false c.1)) conditions in
      match conditions with
      | [] =>
          match else_expr with
          | Some e => e
          | None => ELiteral LNull
          end
      | _ => ECase conditions else_expr
      end
  end.

(** [fold_constants]. *)
Fixpoint fold_constants (e : Expression) : ores :=
  match e with
  | EBinaryOp lhs op rhs =>
      l ← fold_constants lhs;
      r ← fold_constants rhs;
      match l, r with
      | ELiteral a, ELiteral b => evaluate_binary_literals a op b
      | _, _ => Ok (EBinaryOp l op r)
      end
  | EUnaryOp op expr =>
      x ← fold_constants expr;
      match x with
      | ELiteral lit => evaluate_unary_literal op lit
      | _ => Ok (EUnaryOp op x)
      end
  | EFunctionCall name args =>
      args' ← result_mapM fold_constants args;
      Ok (EFunctionCall name args')
  | ECase conditions else_expr =>
      conditions' ← result_mapM (λ '(cond, then_expr),
        c ← fold_constants cond;
        t ← fold_constants then_expr;
        Ok (c, t)) conditions;
      else' ← match else_expr with
              | Some e => x ← fold_constants e; Ok (Some x)
              | None => Ok None
              end;
      Ok (fold_case conditions' else')
  | ECast expr target_type =>
      x ← fold_constants expr;
      Ok (ECast x target_type)
  | _ => Ok e
  end.

Definition is_int (n : Z) (e : Expression) : bool :=
  match e with
  | ELiteral (LInteger i) => (i =? n)%Z
  | _ => false
  end.

(** The rewriting of one binary node, after its operands. *)
Definition simplify_binary (l : Expression) (op : BinaryOp) (r : Expression) : Expression :=
  match op with
  | Add =>
      if is_int 0 r then l
      else if is_int 0 l then r
      else EBinaryOp l op r
  | Subtract => if is_int 0 r then l else EBinaryOp l op r
  | Multiply =>
      if is_int 0 r || is_int 0 l then ELiteral (LInteger 0)
      else if is_int 1 r then l
      else if is_int 1 l then r
      else EBinaryOp l op r
  | Divide => if is_int 1 r then l else EBinaryOp l op r
  | And =>
      if is_lit_bool true r then l
      else if is_lit_bool true l then r
      else if is_lit_bool false r || is_lit_bool false l then ELiteral (LBoolean false)
      else EBinaryOp l op r
  | Or =>
      if is_lit_bool true r || is_lit_bool true l then ELiteral (LBoolean true)
      else if is_lit_bool false r then l
      else if is_lit_bool false l then r
      else EBinaryOp l op r
  | Equal =>
      match l, r with
      | EVariable x, EVariable y =>
          if String.eqb x y then ELiteral (LBoolean true) else EBinaryOp l op r
      | _, _ => EBinaryOp l op r
      end
  | _ => EBinaryOp l op r
  end.

(** The rewriting of one unary node: double negations. *)
Definition simplify_unary (op : UnaryOp) (e : Expression) : Expression :=
  match op, e with
  | Not, EUnaryOp Not inner => inner
  | Negate, EUnaryOp Negate inner => inner
  | _, _ => EUnaryOp op e
  end.

Definition is_lit_null (e : Expression) : bool :=
  match e with ELiteral LNull => true | _ => false end.

(** The rewriting of one function call: [COALESCE] drops null literals. *)
Definition simplify_call (name : string) (args : list Expression) : Expression :=
  if String.eqb (to_uppercase name) "COALESCE" then
    match List.filter (λ a, negb (is_lit_null a)) args with
    | [] => ELiteral LNull
    | [a] => a
    | non_null_args => EFunctionCall name non_null_args
    end
  else EFunctionCall name args.

(** [simplify_algebraic]; it never fails. *)
Fixpoint simplify_algebraic (e : Expression) : Expression :=
  match e with
  | EBinaryOp lhs op rhs =>
      simplify_binary (simplify_algebraic lhs) op (simplify_algebraic rhs)
  | EUnaryOp op expr => simplify_unary op (simplify_algebraic expr)
  | EFunctionCall name args => simplify_call name (map simplify_algebraic args)
  | ECase conditions else_expr =>
      ECase (map (λ '(cond, then_expr),
                    (simplify_algebraic cond, simplify_algebraic then_expr)) conditions)
            (match else_expr with
             | Some e => Some (simplify_algebraic e)
             | None => None
             end)
  | ECast expr target_type => ECast (simplify_algebraic expr) target_type
  | _ => e
  end.

(** [eliminate_common_subexpressions]: the identity. *)
Definition eliminate_common_subexpressions (e : Expression) : Expression := e.

(** The fields of [ExpressionOptimizer]. *)
Record ExpressionOptimizer : Type := {
  enable_constant_folding : bool;
  enable_algebraic_simplification : bool;
  enable_cse : bool;
}.

(** [ExpressionOptimizer::new]. *)
Definition new_optimizer : ExpressionOptimizer :=
  {| enable_constant_folding := true;
     enable_algebraic_simplification := true;
     enable_cse := true |}.

(** [ExpressionOptimizer::optimize]. *)
Definition optimize (o : ExpressionOptimizer) (e : Expression) : ores :=
  e ← (if enable_constant_folding o then fold_constants e else Ok e);
  let e := if enable_algebraic_simplification o then simplify_algebraic e else e in
  let e := if enable_cse o then eliminate_common_subexpressions e else e in
  Ok e.
End Optimizer.
