(* ===== verification/TransformOptimizerFacts.v ===== *)
(** * Transformation engine: when constant folding preserves meaning

    Constant folding is proved exact on every expression outside two shapes, for
    which counterexamples are given, and total on expressions without integer
    division.  The file ends with the static kinds of expressions (integer,
    boolean, possibly null), which [TransformSimplifyFacts] builds on. *)

From Stdlib Require Import ZArith Lia Ascii.
From Stdlib Require Import SpecFloat.
From stdpp Require Import base numbers option strings gmap list.
From S2P Require Import Prelude RustStd F64 TransformAst TransformTypes TransformFunctions.
From S2P Require Import TransformExec TransformExecFacts TransformOptimizer.

Section FoldFacts.
Context `{VE : ValueExternals}.
Context (oc : bool) (reg : gmap string TransformFunction).

(** ** Where folding is exact *)

Definition folds_to_int (e : Expression) : bool :=
  match fold_constants oc e with
  | Ok (ELiteral (LInteger _)) => true
  | _ => false
  end.

Definition folds_to_bool (b : bool) (e : Expression) : bool :=
  match fold_constants oc e with
  | Ok x => is_lit_bool b x
  | _ => false
  end.

(** A condition that folds to [true] comes only after conditions that fold to
    [false]. *)
Fixpoint true_case_first (cs : list (Expression * Expression)) : bool :=
  match cs with
  | [] => true
  | (c, _) :: cs' =>
      if folds_to_bool true c then true
      else if folds_to_bool false c then true_case_first cs'
      else forallb (λ c, negb (folds_to_bool true c.1)) cs'
  end.

(** No division of two integer constants, and [CASE] clauses as above. *)
Fixpoint fold_safe (e : Expression) : bool :=
  match e with
  | EBinaryOp l op r =>
      fold_safe l && fold_safe r
      && negb (bool_decide (op = Divide) && folds_to_int l && folds_to_int r)
  | EUnaryOp _ x => fold_safe x
  | EFunctionCall _ args => forallb fold_safe args
  | ECase cs els =>
      forallb (λ '(c, t), fold_safe c && fold_safe t) cs
      && match els with Some x => fold_safe x | None => true end
      && true_case_first cs
  | ECast x _ => fold_safe x
  | _ => true
  end.

Abbreviation ev ctx := (eval_expr oc reg ctx).

Lemma compare_test_ltb a b : (ordering_as_i32 (a ?= b)%Z <? 0)%Z = (a <? b)%Z.
Proof. unfold Z.ltb at 2. by destruct (a ?= b)%Z. Qed.
Lemma compare_test_leb a b : (ordering_as_i32 (a ?= b)%Z <=? 0)%Z = (a <=? b)%Z.
Proof. unfold Z.leb at 2. by destruct (a ?= b)%Z. Qed.
Lemma compare_test_gtb a b : (0 <? ordering_as_i32 (a ?= b)%Z)%Z = (b <? a)%Z.
Proof. unfold Z.ltb at 2. rewrite (Z.compare_antisym a b). by destruct (a ?= b)%Z. Qed.
Lemma compare_test_geb a b : (0 <=? ordering_as_i32 (a ?= b)%Z)%Z = (b <=? a)%Z.
Proof. unfold Z.leb at 2. rewrite (Z.compare_antisym a b). by destruct (a ?= b)%Z. Qed.

Lemma evaluate_binary_literals_sound ctx a op b e' :
  (op = Divide → ∀ i j, ¬ (a = LInteger i ∧ b = LInteger j)) →
  evaluate_binary_literals oc a op b = Ok e' →
  ev ctx e' = eval_binary_op oc (eval_literal a) op (eval_literal b).
Proof.
  intros Hdiv Hev.
  destruct op, a, b; simpl in Hev; simplify_eq; try done;
    try (exfalso; eapply Hdiv; by eauto);
    unfold eval_binary_op, compare_op; simpl;
    rewrite ?compare_test_ltb, ?compare_test_leb, ?compare_test_gtb, ?compare_test_geb;
    try done;
    repeat match type of Hev with
    | context [if ?c then _ else _] => destruct c eqn:?
    end; simplify_eq; try (simpl; unfold eval_binary_op; simpl; by repeat case_match);
    apply result_bind_Ok in Hev as (n & Hn & ?); simplify_eq; simpl; by rewrite Hn.
Qed.

Lemma evaluate_unary_literal_sound ctx op a e' :
  evaluate_unary_literal oc op a = Ok e' →
  ev ctx e' = eval_unary_op oc op (eval_literal a).
Proof.
  intros Hev. destruct op, a; simpl in Hev; simplify_eq; try done.
  apply result_bind_Ok in Hev as (n & Hn & ?). simplify_eq. simpl. by rewrite Hn.
Qed.

Lemma is_lit_bool_spec b e : is_lit_bool b e = true → e = ELiteral (LBoolean b).
Proof. destruct e as [[]| | | | | |]; simpl; try done. by intros <-%eqb_prop. Qed.

(** ** Cases *)

Definition folded_pair (p q : Expression * Expression) : Prop :=
  fold_constants oc p.1 = Ok q.1 ∧ fold_constants oc p.2 = Ok q.2.

Lemma folds_to_bool_fold b e e' :
  fold_constants oc e = Ok e' → folds_to_bool b e = is_lit_bool b e'.
Proof. unfold folds_to_bool. by intros ->. Qed.

(** Dropping the clauses whose condition is the literal [false]. *)
Lemma eval_case_drop_false ctx els cs :
  eval_case (ev ctx) els (List.filter (λ c, negb (is_lit_bool false c.1)) cs)
  = eval_case (ev ctx) els cs.
Proof.
  induction cs as [|[c t] cs IH]; simpl; [done|].
  destruct (is_lit_bool false c) eqn:Hc; simpl; [|by rewrite IH].
  apply is_lit_bool_spec in Hc as ->. simpl. done.
Qed.

Lemma find_true_none cs cs' :
  Forall2 folded_pair cs cs' →
  forallb (λ c, negb (folds_to_bool true c.1)) cs = true →
  List.find (λ c, is_lit_bool true c.1) cs' = None.
Proof.
  induction 1 as [|p q cs cs' [Hp _] _ IH]; simpl; [done|].
  rewrite (folds_to_bool_fold _ _ _ Hp). destruct (is_lit_bool true q.1); simpl; [done|auto].
Qed.

Lemma fold_case_sound ctx cs cs' els :
  Forall2 folded_pair cs cs' → true_case_first cs = true →
  ev ctx (fold_case cs' els) = eval_case (ev ctx) els cs'.
Proof.
  intros HF Hfirst. unfold fold_case.
  destruct (List.find (λ c, is_lit_bool true c.1) cs') as [[c t]|] eqn:Hfind.
  - induction HF as [|[c0 t0] [c1 t1] cs cs' [Hc _] HF IH]; [done|]. simpl in *.
    rewrite !(folds_to_bool_fold _ _ _ Hc) in Hfirst.
    destruct (is_lit_bool true c1) eqn:Ht; simplify_eq.
    { apply is_lit_bool_spec in Ht as ->. done. }
    destruct (is_lit_bool false c1) eqn:Hf.
    + apply is_lit_bool_spec in Hf as ->. simpl. auto.
    + by rewrite (find_true_none _ _ HF Hfirst) in Hfind.
  - rewrite <- (eval_case_drop_false ctx els cs').
    destruct (List.filter _ cs') eqn:Hfl; [by destruct els|done].
Qed.

Lemma eval_case_ext ctx cs cs' els els' :
  Forall2 (λ p q, ev ctx p.1 = ev ctx q.1 ∧ ev ctx p.2 = ev ctx q.2) cs cs' →
  option_Forall2 (λ x y, ev ctx x = ev ctx y) els els' →
  eval_case (ev ctx) els cs = eval_case (ev ctx) els' cs'.
Proof.
  intros HF Hels. induction HF as [|[c t] [c' t'] cs cs' [Hc Ht] _ IH]; simpl in *.
  - by destruct Hels.
  - by rewrite Hc, Ht, IH.
Qed.

Lemma fold_pairs_Ok cs cs' :
  result_mapM (λ '(cond, then_expr),
    c ← fold_constants oc cond; t ← fold_constants oc then_expr; Ok (c, t)) cs = Ok cs' →
  Forall2 folded_pair cs cs'.
Proof.
  intros HF%result_mapM_Ok. eapply Forall2_impl; [done|]. intros [c t] q Hq.
  apply result_bind_Ok in Hq as (c' & Hc & Hq).
  apply result_bind_Ok in Hq as (t' & Ht & ?). by simplify_eq.
Qed.

Lemma fold_constants_exact ctx e e' :
  fold_safe e = true → fold_constants oc e = Ok e' → ev ctx e' = ev ctx e.
Proof.
  revert e'.
  induction e as [l|y|f args IH|l op r IHl IHr|op y IH|cs els IH IHe|y t IH]
    using Expression_rec_nested; cbn [fold_safe fold_constants]; intros e' Hs He;
    simplify_eq; try done.
  - apply result_bind_Ok in He as (args' & Hargs & ?). simplify_eq. cbn [eval_expr].
    f_equal. clear f. apply result_mapM_Ok in Hargs.
    induction Hargs as [|a a' args args' Ha _ IHf]; [done|]. simpl in *.
    inversion IH as [|? ? IHa IHargs]; subst. apply andb_true_iff in Hs as [Hs1 Hs2].
    rewrite (IHa _ Hs1 Ha). by rewrite IHf.
  - rewrite !andb_true_iff in Hs. destruct Hs as [[Hl Hr] Hdiv].
    apply result_bind_Ok in He as (l' & Hl' & He).
    apply result_bind_Ok in He as (r' & Hr' & He). cbn [eval_expr].
    rewrite <- (IHl _ Hl Hl'), <- (IHr _ Hr Hr').
    destruct l' as [a| | | | | |], r' as [b| | | | | |]; simplify_eq; try done.
    simpl. eapply evaluate_binary_literals_sound; [|done]. intros -> i j [-> ->].
    revert Hdiv. unfold folds_to_int. by rewrite Hl', Hr'.
  - apply result_bind_Ok in He as (y' & Hy' & He). cbn [eval_expr].
    rewrite <- (IH _ Hs Hy'). destruct y' as [a| | | | | |]; simplify_eq; try done.
    simpl. by eapply evaluate_unary_literal_sound.
  - rewrite !andb_true_iff in Hs. destruct Hs as [[Hcs Hels] Hfirst].
    apply result_bind_Ok in He as (cs' & Hcs' & He).
    apply result_bind_Ok in He as (els' & Hels' & ?). simplify_eq. cbn [eval_expr].
    apply fold_pairs_Ok in Hcs'. rewrite (fold_case_sound ctx _ _ els' Hcs' Hfirst).
    symmetry. apply eval_case_ext.
    + clear Hfirst. induction Hcs' as [|[c t] [c' t'] cs cs' [Hc Ht] _ IHf]; constructor.
      * simpl in *. inversion IH as [|? ? [H1 H2]]; subst.
        rewrite !andb_true_iff in Hcs. destruct Hcs as [[? ?] ?].
        split; symmetry; eauto.
      * inversion IH; subst. simpl in Hcs. apply andb_true_iff in Hcs as [_ ?]. auto.
    + destruct els as [x|]; [|by simplify_eq; constructor].
      apply result_bind_Ok in Hels' as (x' & Hx' & ?). simplify_eq.
      constructor. symmetry. auto.
  - apply result_bind_Ok in He as (y' & Hy' & He). simplify_eq. cbn [eval_expr].
    by rewrite (IH _ Hs Hy').
Qed.
End FoldFacts.

(** ** Constant folding is exact *)

Section FoldClaims.
Context `{VE : ValueExternals}.

(** Constant folding preserves meaning: on an expression without a quotient
    of two integer constants and in which a [CASE] condition that folds to
    true only follows conditions that fold to false, the folded expression
    evaluates, in every context, with every registry and under either build
    profile, to exactly what the original does: the same value, the same
    error or the same panic. *)
Theorem fold_constants_preserves oc reg ctx e e' :
  fold_safe oc e = true → fold_constants oc e = Ok e' →
  eval_expr oc reg ctx e' = eval_expr oc reg ctx e.
Proof. apply fold_constants_exact. Qed.

(** Outside those expressions it does not: integer constants are divided as
    integers by the optimizer and as floats by the executor. *)
Theorem fold_integer_division_diverges oc reg ctx :
  let e := EBinaryOp (ELiteral (LInteger 7)) Divide (ELiteral (LInteger 2)) in
  fold_constants oc e = Ok (ELiteral (LInteger 3)) ∧
  eval_expr oc reg ctx (ELiteral (LInteger 3)) = Ok (VInteger 3) ∧
  eval_expr oc reg ctx e = Ok (VFloat (f64_div (f64_of_i64 7) (f64_of_i64 2))).
Proof. split_and!; reflexivity. Qed.

(** A [CASE] whose second condition is the constant true loses its first
    branch. *)
Theorem fold_case_drops_branch oc reg :
  let e := ECase [(EBinaryOp (EVariable "a") Equal (ELiteral (LString "x")),
                   ELiteral (LInteger 1));
                  (ELiteral (LBoolean true), ELiteral (LInteger 2))] None in
  fold_constants oc e = Ok (ELiteral (LInteger 2)) ∧
  eval_expr oc reg {[ "a" := VString "x" ]} e = Ok (VInteger 1).
Proof. split; reflexivity. Qed.
End FoldClaims.

(** ** Folding keeps integers in range *)

Section FoldWf.
Context (oc : bool).

Lemma int_literal_wf (m : result eval_error Z) e' :
  (∀ n, m = Ok n → in_i64 n = true) →
  (n ← m; Ok (ELiteral (LInteger n))) = Ok e' → expr_wf e' = true.
Proof. intros Hm (n & Hn & ?)%result_bind_Ok. simplify_eq. simpl. eauto. Qed.

Lemma evaluate_binary_literals_wf a op b e' :
  literal_wf a = true → literal_wf b = true →
  evaluate_binary_literals oc a op b = Ok e' → expr_wf e' = true.
Proof.
  intros Ha Hb He.
  assert (Hkeep : expr_wf (EBinaryOp (ELiteral a) op (ELiteral b)) = true)
    by (simpl; by rewrite Ha, Hb).
  destruct op, a, b; cbn [evaluate_binary_literals] in He; simplify_eq; try done;
    repeat case_match; simplify_eq; try done; revert He; apply int_literal_wf;
    eauto with machine_int.
Qed.

Lemma evaluate_unary_literal_wf op a e' :
  literal_wf a = true → evaluate_unary_literal oc op a = Ok e' → expr_wf e' = true.
Proof.
  intros Ha He. destruct op, a; cbn [evaluate_unary_literal] in He; simplify_eq; try done.
  revert He. apply int_literal_wf. eauto with machine_int.
Qed.

Lemma fold_case_wf cs els :
  Forall (λ p, expr_wf p.1 = true ∧ expr_wf p.2 = true) cs →
  match els with Some x => expr_wf x | None => true end = true →
  expr_wf (fold_case cs els) = true.
Proof.
  intros HF Hels. unfold fold_case.
  destruct (List.find _ cs) as [[c t]|] eqn:Hf.
  { apply find_some in Hf as [Hin _]. rewrite Forall_forall in HF.
    by destruct (HF (c, t)) as [_ ?]; [apply list_elem_of_In|]. }
  destruct (List.filter _ cs) as [|p ps] eqn:Hfl; [by destruct els|].
  cbn [expr_wf]. apply andb_true_iff. split; [|done]. rewrite <- Hfl.
  apply forallb_forall. intros [c t] [Hin _]%filter_In. rewrite Forall_forall in HF.
  apply andb_true_iff, (HF (c, t)). by apply list_elem_of_In.
Qed.

Lemma fold_constants_wf e e' :
  expr_wf e = true → fold_constants oc e = Ok e' → expr_wf e' = true.
Proof.
  revert e'.
  induction e as [l|y|f args IH|l op r IHl IHr|op y IH|cs els IH IHe|y t IH]
    using Expression_rec_nested; cbn [expr_wf fold_constants]; intros e' Hwf He;
    simplify_eq; try done.
  - apply result_bind_Ok in He as (args' & Hargs & ?). simplify_eq. cbn [expr_wf].
    apply result_mapM_Ok in Hargs.
    induction Hargs as [|a a' args args' Ha _ IHf]; [done|]. simpl in *.
    inversion IH; subst. rewrite !andb_true_iff in *. intuition.
  - apply andb_true_iff in Hwf as [Hl Hr].
    apply result_bind_Ok in He as (l' & Hl' & He).
    apply result_bind_Ok in He as (r' & Hr' & He).
    specialize (IHl _ Hl Hl'). specialize (IHr _ Hr Hr').
    assert (expr_wf (EBinaryOp l' op r') = true) by (simpl; by apply andb_true_iff).
    destruct l', r'; simplify_eq; try done. exact (evaluate_binary_literals_wf _ _ _ _ IHl IHr He).
  - apply result_bind_Ok in He as (y' & Hy' & He). specialize (IH _ Hwf Hy').
    destruct y'; simplify_eq; try done. exact (evaluate_unary_literal_wf _ _ _ IH He).
  - apply andb_true_iff in Hwf as [Hcs Hels].
    apply result_bind_Ok in He as (cs' & Hcs' & He).
    apply result_bind_Ok in He as (els' & Hels' & ?). simplify_eq.
    apply fold_pairs_Ok in Hcs'. apply fold_case_wf.
    + induction Hcs' as [|[c t] [c' t'] cs cs' [Hc Ht] _ IHf]; constructor;
        inversion IH as [|? ? [H1 H2]]; subst; simpl in *; rewrite !andb_true_iff in Hcs;
        destruct Hcs as [[? ?] ?]; eauto.
    + destruct els; [|by simplify_eq].
      apply result_bind_Ok in Hels' as (x' & Hx' & ?). simplify_eq. eauto.
  - apply result_bind_Ok in He as (y' & Hy' & He). simplify_eq. simpl. eauto.
Qed.
End FoldWf.

(** ** Folding always answers *)

Section FoldTotal.
(** No integer division or remainder, whose overflow panics in every build. *)
Fixpoint div_free (e : Expression) : bool :=
  match e with
  | EBinaryOp l op r =>
      div_free l && div_free r
      && match op with Divide | Modulo => false | _ => true end
  | EUnaryOp _ x => div_free x
  | EFunctionCall _ args => forallb div_free args
  | ECase cs els =>
      forallb (λ '(c, t), div_free c && div_free t) cs
      && match els with Some x => div_free x | None => true end
  | ECast x _ => div_free x
  | _ => true
  end.

Lemma i64_checked_release {E} z : ∃ n, i64_checked (E := E) false z = Ok n.
Proof. unfold i64_checked. destruct (in_i64 z); eauto. Qed.

Lemma evaluate_binary_literals_total a op b :
  match op with Divide | Modulo => false | _ => true end = true →
  ∃ e', evaluate_binary_literals false a op b = Ok e'.
Proof.
  intros Hop.
  destruct op, a, b; try done; simpl; eauto; unfold i64_add, i64_sub, i64_mul;
    match goal with |- context [i64_checked false ?z] =>
      destruct (i64_checked_release (E := eval_error) z) as [n ->] end; simpl; eauto.
Qed.

Lemma evaluate_unary_literal_total op a :
  ∃ e', evaluate_unary_literal false op a = Ok e'.
Proof.
  destruct op, a; simpl; eauto. unfold i64_neg.
  destruct (i64_checked_release (E := eval_error) (- i)) as [n ->]. simpl; eauto.
Qed.

Lemma result_mapM_exists {E A B} (f : A → result E B) l :
  Forall (λ x, ∃ y, f x = Ok y) l → ∃ k, result_mapM f l = Ok k.
Proof.
  induction 1 as [|x l [y Hy] _ [k Hk]]; simpl; [eauto|]. rewrite Hy, Hk. eauto.
Qed.

Lemma fold_constants_total_release e :
  div_free e = true → ∃ e', fold_constants false e = Ok e'.
Proof.
  induction e as [l|y|f args IH|l op r IHl IHr|op y IH|cs els IH IHe|y t IH]
    using Expression_rec_nested; cbn [div_free fold_constants]; intros Hd; eauto.
  - destruct (result_mapM_exists (fold_constants false) args) as [k ->]; simpl; [|eauto].
    rewrite forallb_forall in Hd. rewrite Forall_forall in IH |- *.
    intros x Hx. apply IH; [done|]. by apply Hd, list_elem_of_In.
  - rewrite !andb_true_iff in Hd. destruct Hd as [[Hl Hr] Hop].
    destruct (IHl Hl) as [l' ->], (IHr Hr) as [r' ->]. simpl.
    destruct l', r'; eauto. by apply evaluate_binary_literals_total.
  - destruct (IH Hd) as [y' ->]. simpl. destruct y'; eauto.
    apply evaluate_unary_literal_total.
  - rewrite andb_true_iff in Hd. destruct Hd as [Hcs Hels].
    match goal with |- context [result_mapM ?g cs] =>
      destruct (result_mapM_exists g cs) as [k ->] end.
    + rewrite forallb_forall in Hcs. rewrite Forall_forall in IH |- *.
      intros [c t] Hx. destruct (IH _ Hx) as [H1 H2].
      specialize (Hcs (c, t) ltac:(by apply list_elem_of_In)).
      apply andb_true_iff in Hcs as [Hc Ht].
      destruct (H1 Hc) as [c' Hc'], (H2 Ht) as [t' Ht']. simpl in *.
      rewrite Hc'. simpl. rewrite Ht'. simpl. eauto.
    + simpl. destruct els as [x|]; simpl; [|eauto].
      destruct (IHe Hels) as [x' ->]. simpl. eauto.
  - destruct (IH Hd) as [y' ->]. simpl. eauto.
Qed.
End FoldTotal.

Section FoldTotalClaims.
(** Constant folding always answers in a release build: on an expression
    without integer division and remainder, whose overflow panics in every
    profile, [fold_constants] returns an expression, whatever overflows. *)
Theorem fold_constants_answers e :
  div_free e = true → ∃ e', fold_constants false e = Ok e'.
Proof. apply fold_constants_total_release. Qed.

(** With [%] it does not: [i64::MIN % -1] panics while folding. *)
Theorem fold_remainder_panics :
  fold_constants false
    (EBinaryOp (ELiteral (LInteger i64_min)) Modulo (ELiteral (LInteger (-1)))) = Panic.
Proof. reflexivity. Qed.
End FoldTotalClaims.

(** ** Witnesses *)

Section FoldWitnesses.
#[local] Existing Instance sample_externals.

(** [CASE WHEN 1 = 2 THEN 'no' WHEN {a} = 'x' THEN 'a' || 'b' ELSE - 3 END] *)
Definition sample_foldable : Expression :=
  ECase [(EBinaryOp (ELiteral (LInteger 1)) Equal (ELiteral (LInteger 2)),
          ELiteral (LString "no"));
         (EBinaryOp (EVariable "a") Equal (ELiteral (LString "x")),
          EBinaryOp (ELiteral (LString "a")) Concat (ELiteral (LString "b")))]
        (Some (EUnaryOp Negate (ELiteral (LInteger 3)))).

Lemma fold_constants_preserves_witness :
  eval_expr true ∅ {[ "a" := VString "x" ]}
    (ECase [(EBinaryOp (EVariable "a") Equal (ELiteral (LString "x")),
             ELiteral (LString "ab"))] (Some (ELiteral (LInteger (-3)))))
  = eval_expr true ∅ {[ "a" := VString "x" ]} sample_foldable.
Proof. apply fold_constants_preserves; reflexivity. Defined.

Lemma fold_constants_answers_witness :
  ∃ e', fold_constants false
          (EBinaryOp (ELiteral (LInteger i64_max)) Add (ELiteral (LInteger 1))) = Ok e'.
Proof. apply fold_constants_answers. reflexivity. Defined.
End FoldWitnesses.

(** ** Static kinds of expressions *)

Inductive kind := KInt | KBool | KStr | KAny.

#[global] Instance kind_eq_dec : EqDecision kind.
Proof. solve_decision. Defined.

Definition kind_join (a b : kind * bool) : kind * bool :=
  (if decide (a.1 = b.1) then a.1 else KAny, a.2 || b.2).

Definition cast_kind (t : DataType) (k : kind * bool) : kind * bool :=
  match t with
  | TyString => (KStr, false)
  | TyInteger => (KInt, false)
  | TyBoolean => (KBool, false)
  | TyUnknown => k
  | _ => (KAny, false)
  end.

(** The kind of the value of an expression over a row of text fields, and
    whether it can be null. *)
Fixpoint static_kind (e : Expression) : kind * bool :=
  match e with
  | ELiteral (LInteger _) => (KInt, false)
  | ELiteral (LBoolean _) => (KBool, false)
  | ELiteral (LString _) => (KStr, false)
  | ELiteral (LFloat _) => (KAny, false)
  | ELiteral LNull => (KAny, true)
  | EVariable _ => (KStr, false)
  | EFunctionCall _ _ => (KAny, true)
  | EBinaryOp l op r =>
      let n := (static_kind l).2 || (static_kind r).2 in
      match op with
      | Add | Subtract | Multiply =>
          (if decide ((static_kind l).1 = KInt ∧ (static_kind r).1 = KInt) then KInt else KAny, n)
      | Modulo => (KInt, n)
      | Divide => (KAny, n)
      | Concat => (KStr, n)
      | Equal | NotEqual => (KBool, false)
      | _ => (KBool, n)
      end
  | EUnaryOp Negate x =>
      (if decide ((static_kind x).1 = KInt) then KInt else KAny, (static_kind x).2)
  | EUnaryOp _ _ => (KBool, false)
  | ECase cs els =>
      foldr (λ '(_, t) acc, kind_join (static_kind t) acc)
            (match els with Some x => static_kind x | None => (KAny, true) end) cs
  | ECast x t => cast_kind t (static_kind x)
  end.

Section KindFacts.
Context `{VE : ValueExternals}.
Context (oc : bool) (reg : gmap string TransformFunction) (row : gmap string string).

Abbreviation evr := (eval_expr oc reg (VString <$> row)).

Definition kind_ok (k : kind * bool) (v : Value) : Prop :=
  (v = VNull ∧ k.2 = true) ∨
  (v ≠ VNull ∧ match k.1 with
               | KInt => ∃ i, v = VInteger i
               | KBool => ∃ b, v = VBoolean b
               | KStr => ∃ s, v = VString s
               | KAny => True
               end).

Lemma kind_ok_join_l a b v : kind_ok a v → kind_ok (kind_join a b) v.
Proof.
  unfold kind_ok, kind_join. simpl. intros [[-> ->]|[Hv Hk]]; [by left|right].
  split; [done|]. by case_decide.
Qed.

Lemma kind_ok_join_r a b v : kind_ok b v → kind_ok (kind_join a b) v.
Proof.
  unfold kind_ok, kind_join. simpl. intros [[-> ->]|[Hv Hk]].
  - left. by rewrite orb_true_r.
  - right. split; [done|]. case_decide as E; [by rewrite E|done].
Qed.

Lemma kind_ok_int k v : kind_ok k v → k.1 = KInt → v = VNull ∨ ∃ i, v = VInteger i.
Proof. intros [[-> _]|[_ Hk]] E; [by left|]. rewrite E in Hk. eauto. Qed.

Lemma kind_ok_nonnull k v : kind_ok k v → k.2 = false → v ≠ VNull.
Proof. intros [[_ ?]|[? _]] ?; congruence. Qed.

Lemma kind_ok_is_null k v : kind_ok k v → is_null v = true → k.2 = true.
Proof. intros [[_ Hk]|[? _]]; [done|]. by destruct v. Qed.

Lemma arith_kind int_op float_op l r v :
  arith int_op float_op l r = Ok v →
  v ≠ VNull ∧ (∀ i j, l = VInteger i → r = VInteger j → ∃ n, v = VInteger n).
Proof.
  unfold arith, mbind, result_bind.
  destruct l, r; intros Hv; repeat (case_match; simplify_eq); simplify_eq;
    (split; [done|]; intros; simplify_eq; eauto).
Qed.

Lemma eval_binary_kind kl kr l op r v :
  kind_ok kl l → kind_ok kr r → eval_binary_op oc l op r = Ok v →
  kind_ok (match op with
           | Add | Subtract | Multiply =>
               (if decide (kl.1 = KInt ∧ kr.1 = KInt) then KInt else KAny, kl.2 || kr.2)
           | Modulo => (KInt, kl.2 || kr.2)
           | Divide => (KAny, kl.2 || kr.2)
           | Concat => (KStr, kl.2 || kr.2)
           | Equal | NotEqual => (KBool, false)
           | _ => (KBool, kl.2 || kr.2)
           end) v.
Proof.
  intros Hl Hr. unfold eval_binary_op.
  destruct (match op with Equal | NotEqual => false | _ => true end
            && (is_null l || is_null r)) eqn:Hn.
  - intros ?. simplify_eq. apply andb_true_iff in Hn as [Hop Hn].
    assert (kl.2 || kr.2 = true) as Hk.
    { apply orb_true_iff in Hn as [Hn|Hn]; apply orb_true_iff; eauto using kind_ok_is_null. }
    destruct op; try done; left; by rewrite Hk.
  - destruct op; intros Hv.
    1-3: apply arith_kind in Hv as [Hv Hi]; right; split; [done|]; simpl;
      case_decide as E; [|done]; destruct E as [E1 E2]; simpl in Hn;
      destruct (kind_ok_int _ _ Hl E1) as [->|[i Hi1]]; [done|];
      destruct (kind_ok_int _ _ Hr E2) as [->|[j Hj1]]; [by rewrite orb_true_r in Hn|]; eauto.
    + right. split; [|done]. unfold mbind, result_bind in Hv.
      by repeat (case_match; simplify_eq).
    + right. destruct l, r; try done. destruct (_ =? 0)%Z; [done|].
      unfold mbind, result_bind in Hv. case_match; simplify_eq. simpl. eauto.
    + right. simplify_eq. simpl. eauto.
    + right. destruct (coerce_types l r). simplify_eq. simpl. eauto.
    + right. destruct (coerce_types l r). simplify_eq. simpl. eauto.
    + right. unfold compare_op in Hv. destruct (coerce_types l r).
      apply result_bind_Ok in Hv as (c & _ & ?). simplify_eq. simpl. eauto.
    + right. unfold compare_op in Hv. destruct (coerce_types l r).
      apply result_bind_Ok in Hv as (c & _ & ?). simplify_eq. simpl. eauto.
    + right. unfold compare_op in Hv. destruct (coerce_types l r).
      apply result_bind_Ok in Hv as (c & _ & ?). simplify_eq. simpl. eauto.
    + right. unfold compare_op in Hv. destruct (coerce_types l r).
      apply result_bind_Ok in Hv as (c & _ & ?). simplify_eq. simpl. eauto.
    + right. simplify_eq. simpl. eauto.
    + right. simplify_eq. simpl. eauto.
    + right. simplify_eq. simpl. eauto.
    + right. simplify_eq. simpl. eauto.
Qed.

Lemma cast_kind_ok x t v k : kind_ok k x → cast x t = Ok v → kind_ok (cast_kind t k) v.
Proof.
  intros Hx Hc. unfold cast, mbind, result_bind in Hc.
  destruct t; simplify_eq; try done; right;
    repeat (case_match; simplify_eq); simplify_eq; simpl; eauto.
Qed.

Lemma static_kind_sound e v : evr e = Ok v → kind_ok (static_kind e) v.
Proof.
  revert v.
  induction e as [l|y|f args IH|l op r IHl IHr|op y IH|cs els IH IHe|y t IH]
    using Expression_rec_nested; cbn [eval_expr]; intros v Hv.
  - simplify_eq. unfold kind_ok. destruct l; simpl; eauto.
  - simpl. rewrite lookup_fmap in Hv. destruct (row !! y); simpl in Hv; simplify_eq.
    right. simpl. eauto.
  - unfold kind_ok. simpl. destruct v; first [by left | by right].
  - apply result_bind_Ok in Hv as (lv & Hlv & Hv).
    apply result_bind_Ok in Hv as (rv & Hrv & Hv).
    pose proof (eval_binary_kind _ _ _ _ _ _ (IHl _ Hlv) (IHr _ Hrv) Hv) as Hk.
    cbn [static_kind]. by destruct op.
  - apply result_bind_Ok in Hv as (yv & Hyv & Hv). specialize (IH _ Hyv).
    destruct op; simpl in Hv; simplify_eq; try (right; simpl; by eauto).
    cbn [static_kind]. destruct yv; simplify_eq; try done.
    + apply result_bind_Ok in Hv as (n & _ & ?). simplify_eq.
      right. simpl. split; [done|]. case_decide; eauto.
    + right. simpl. split; [done|]. case_decide as E; [|done].
      by destruct (kind_ok_int _ _ IH E) as [|[??]].
    + left. split; [done|]. simpl. by apply (kind_ok_is_null _ _ IH).
  - cbn [static_kind]. revert Hv. induction IH as [|[c t] cs [_ Ht] _ IHcs]; simpl; intros Hv.
    + destruct els; [eauto|]. simplify_eq. by left.
    + destruct (eval_expr oc reg (VString <$> row) c); [|done..].
      destruct (as_boolean a); [apply kind_ok_join_l; eauto|apply kind_ok_join_r; eauto].
  - apply result_bind_Ok in Hv as (yv & Hyv & Hv). cbn [static_kind].
    eauto using cast_kind_ok.
Qed.
End KindFacts.
