(* ===== verification/TransformSimplifyFacts.v ===== *)
(** * Transformation engine: when algebraic simplification preserves meaning

    Every rewriting rule of the optimizer keeps the value of a row expression
    whose operands have the static kind the rule is right for (an integer for
    [x + 0], a boolean for [x AND true], ...); the rules applied outside that
    condition are refuted on concrete rows. *)

From Stdlib Require Import ZArith Lia Ascii.
From Stdlib Require Import SpecFloat.
From stdpp Require Import base numbers option strings gmap list.
From S2P Require Import Prelude RustStd F64 TransformAst TransformTypes TransformFunctions.
From S2P Require Import TransformExec TransformExecFacts TransformOptimizer.
From S2P Require Import TransformOptimizerFacts TransformFunctionFacts.

(** ** Where algebraic simplification is sound *)

Definition k_int (e : Expression) : bool := bool_decide ((static_kind e).1 = KInt).
Definition k_bool (e : Expression) : bool := bool_decide ((static_kind e).1 = KBool).
Definition k_nonnull (e : Expression) : bool := negb (static_kind e).2.

(** The operand a rule keeps (or drops) must be of the kind the rule is right
    for: an integer for [x + 0], a boolean for [x AND true], never null for
    [x * 0] and [x AND false]. *)
Definition binary_rule_safe (l : Expression) (op : BinaryOp) (r : Expression) : bool :=
  match op with
  | Add => if is_int 0 r then k_int l else if is_int 0 l then k_int r else true
  | Subtract => if is_int 0 r then k_int l else true
  | Multiply =>
      if is_int 0 r then k_int l && k_nonnull l
      else if is_int 0 l then k_int r && k_nonnull r
      else if is_int 1 r then k_int l
      else if is_int 1 l then k_int r
      else true
  | Divide => negb (is_int 1 r)
  | And =>
      if is_lit_bool true r then k_bool l
      else if is_lit_bool true l then k_bool r
      else if is_lit_bool false r then k_nonnull l
      else if is_lit_bool false l then k_nonnull r
      else true
  | Or =>
      if is_lit_bool true r then k_nonnull l
      else if is_lit_bool true l then k_nonnull r
      else if is_lit_bool false r then k_bool l
      else if is_lit_bool false l then k_bool r
      else true
  | _ => true
  end.

Definition unary_rule_safe (op : UnaryOp) (e : Expression) : bool :=
  match op, e with
  | Not, EUnaryOp Not inner => k_bool inner && k_nonnull inner
  | _, _ => true
  end.

Definition call_rule_safe (name : string) (args : list Expression) : bool :=
  if String.eqb (to_uppercase name) "COALESCE" then
    match List.filter (λ a, negb (is_lit_null a)) args with
    | [a] => k_int a || k_bool a
    | _ => true
    end
  else true.

Fixpoint simplify_safe (e : Expression) : bool :=
  match e with
  | EBinaryOp l op r =>
      simplify_safe l && simplify_safe r
      && binary_rule_safe (simplify_algebraic l) op (simplify_algebraic r)
  | EUnaryOp op x => simplify_safe x && unary_rule_safe op (simplify_algebraic x)
  | EFunctionCall name args =>
      forallb simplify_safe args && call_rule_safe name (map simplify_algebraic args)
  | ECase cs els =>
      forallb (λ '(c, t), simplify_safe c && simplify_safe t) cs
      && match els with Some x => simplify_safe x | None => true end
  | ECast x _ => simplify_safe x
  | _ => true
  end.

Section SimplifyFacts.
Context `{VE : ValueExternals} `{!ValueExternalsOk}.
Context (oc : bool) (reg : gmap string TransformFunction) (row : gmap string string).
Context (Hreg : registry_wf reg).
Context (Hcoalesce : reg !! "COALESCE" = Some (mk_fn coalesce_execute 1 None)).

Abbreviation evr := (eval_expr oc reg (VString <$> row)).

Lemma row_context_wf : context_wf (VString <$> row).
Proof.
  intros x v Hx. rewrite lookup_fmap in Hx. by destruct (row !! x); simpl in Hx; simplify_eq.
Qed.

Lemma evr_wf e v : expr_wf e = true → evr e = Ok v → value_wf v = true.
Proof. intros. eapply eval_expr_wf; eauto using row_context_wf. Qed.

Lemma is_int_eval n e v : is_int n e = true → evr e = Ok v → v = VInteger n.
Proof. destruct e as [[]| | | | | |]; simpl; try done. intros ->%Z.eqb_eq ?. by simplify_eq. Qed.

Lemma is_lit_bool_eval b e v : is_lit_bool b e = true → evr e = Ok v → v = VBoolean b.
Proof. intros ->%is_lit_bool_spec ?. by simplify_eq/=. Qed.

Lemma k_int_eval e v : k_int e = true → evr e = Ok v → v = VNull ∨ ∃ i, v = VInteger i.
Proof.
  intros Hk%bool_decide_eq_true Hv. eapply kind_ok_int; [|done]. by eapply static_kind_sound.
Qed.

Lemma k_bool_eval e v : k_bool e = true → evr e = Ok v → v = VNull ∨ ∃ b, v = VBoolean b.
Proof.
  intros Hk%bool_decide_eq_true Hv. apply static_kind_sound in Hv as [[-> _]|[_ Hv]]; [by left|].
  rewrite Hk in Hv. by right.
Qed.

Lemma k_nonnull_eval e v : k_nonnull e = true → evr e = Ok v → v ≠ VNull.
Proof.
  intros Hk%negb_true_iff Hv. eapply kind_ok_nonnull; [|done]. by eapply static_kind_sound.
Qed.

(** Turn the static facts about evaluated operands into equations. *)
Ltac use_kinds :=
  repeat match goal with
  | H : _ && _ = true |- _ => apply andb_true_iff in H as [? ?]
  | H : is_int _ ?e = true, He : eval_expr _ _ _ ?e = Ok ?v |- _ =>
      pose proof (is_int_eval _ _ _ H He); clear H; subst v
  | H : is_lit_bool _ ?e = true, He : eval_expr _ _ _ ?e = Ok ?v |- _ =>
      pose proof (is_lit_bool_eval _ _ _ H He); clear H; subst v
  | H : k_nonnull ?e = true, He : eval_expr _ _ _ ?e = Ok ?v |- _ =>
      pose proof (k_nonnull_eval _ _ H He); clear H
  | H : k_int ?e = true, He : eval_expr _ _ _ ?e = Ok ?v |- _ =>
      destruct (k_int_eval _ _ H He) as [->|[? ->]]; clear H
  | H : k_bool ?e = true, He : eval_expr _ _ _ ?e = Ok ?v |- _ =>
      destruct (k_bool_eval _ _ H He) as [->|[? ->]]; clear H
  end.

Lemma int_identity m n v :
  m = n → in_i64 n = true →
  (z ← i64_checked oc m; Ok (VInteger z)) = Ok (E := eval_error) v → v = VInteger n.
Proof. intros -> Hn Hv. rewrite i64_checked_in in Hv by done. by simplify_eq/=. Qed.

Lemma simplify_binary_sound l op r lv rv v :
  evr l = Ok lv → evr r = Ok rv → value_wf lv = true → value_wf rv = true →
  binary_rule_safe l op r = true → eval_binary_op oc lv op rv = Ok v →
  evr (simplify_binary l op r) = Ok v.
Proof.
  intros Hl Hr Wl Wr Hs Hv.
  assert (Hkeep : evr (EBinaryOp l op r) = Ok v) by (simpl; by rewrite Hl; simpl; rewrite Hr).
  unfold simplify_binary, binary_rule_safe in *. destruct op; try done.
  - destruct (is_int 0 r) eqn:?; [|destruct (is_int 0 l) eqn:?; [|done]]; use_kinds;
      unfold eval_binary_op in Hv; simpl in Hv; simplify_eq; try done;
      rewrite ?Hl, ?Hr; f_equal; symmetry;
      (eapply int_identity; [| |exact Hv]; [lia|done]).
  - destruct (is_int 0 r) eqn:?; [|done]; use_kinds;
      unfold eval_binary_op in Hv; simpl in Hv; simplify_eq; try done.
    rewrite Hl. f_equal. symmetry.
    eapply int_identity; [| |exact Hv]; [lia|done].
  - destruct (is_int 0 r) eqn:?; [|destruct (is_int 0 l) eqn:?];
      [| |destruct (is_int 1 r) eqn:?; [|destruct (is_int 1 l) eqn:?; [|done]]];
      use_kinds;
      unfold eval_binary_op in Hv; simpl in Hv; simplify_eq; try done;
      cbn [orb eval_expr eval_literal]; rewrite ?Hl, ?Hr; f_equal; symmetry;
      (eapply int_identity; [| |exact Hv]; [lia|done]).
  - destruct (is_int 1 r); done.
  - destruct l as [| x | | | | |], r as [|y| | | | |]; try done.
    destruct (String.eqb_spec x y) as [->|]; [|done]. rewrite Hl in Hr. simplify_eq.
    simpl in Hl. rewrite lookup_fmap in Hl. destruct (row !! y); simpl in Hl; simplify_eq.
    unfold eval_binary_op in Hv. simpl in Hv. rewrite String.eqb_refl in Hv. by simplify_eq.
  - destruct (is_lit_bool true r) eqn:?; [|destruct (is_lit_bool true l) eqn:?];
      [| |destruct (is_lit_bool false r) eqn:?; [|destruct (is_lit_bool false l) eqn:?; [|done]]];
      use_kinds; cbn [orb]; rewrite ?Hl, ?Hr;
      unfold eval_binary_op in Hv; simpl in Hv; simplify_eq; try done;
      rewrite ?andb_true_r, ?orb_false_r; try done.
    + destruct lv; simplify_eq/=; rewrite ?andb_false_r in *; simplify_eq; done.
    + destruct rv; simplify_eq/=; done.
  - destruct (is_lit_bool true r) eqn:?; [|destruct (is_lit_bool true l) eqn:?];
      [| |destruct (is_lit_bool false r) eqn:?; [|destruct (is_lit_bool false l) eqn:?; [|done]]];
      use_kinds; cbn [orb]; rewrite ?Hl, ?Hr;
      unfold eval_binary_op in Hv; simpl in Hv; simplify_eq; try done;
      rewrite ?orb_false_r; try done.
    + destruct lv; simplify_eq/=; rewrite ?orb_true_r in *; simplify_eq; done.
    + destruct rv; simplify_eq/=; done.
Qed.

Lemma i64_neg_neg i n m :
  in_i64 i = true → i64_neg (E := eval_error) oc i = Ok n →
  i64_neg (E := eval_error) oc n = Ok m → m = i.
Proof.
  unfold i64_neg, i64_checked. intros Hi Hn Hm.
  destruct (in_i64 (- i)) eqn:E; simplify_eq.
  - rewrite Z.opp_involutive, Hi in Hm. by simplify_eq.
  - destruct oc; simplify_eq.
    assert (i = i64_min) as ->.
    { apply in_i64_spec in Hi. apply not_true_iff_false in E. rewrite in_i64_spec in E.
      unfold i64_min, i64_max in *. lia. }
    vm_compute in Hm. by simplify_eq.
Qed.

Lemma simplify_unary_sound op e x v :
  evr e = Ok x → expr_wf e = true → unary_rule_safe op e = true →
  eval_unary_op oc op x = Ok v → evr (simplify_unary op e) = Ok v.
Proof.
  intros He Hwf Hs Hv.
  assert (Hkeep : evr (EUnaryOp op e) = Ok v) by (simpl; by rewrite He).
  unfold simplify_unary, unary_rule_safe in *.
  destruct op; try done; destruct e as [| | | |[] inner| |]; try done;
    cbn [eval_expr] in He; apply result_bind_Ok in He as (y & Hy & He).
  - assert (Hwy : value_wf y = true)
      by (apply (evr_wf inner); [exact Hwf|exact Hy]).
    rewrite Hy. f_equal. destruct y; simpl in He; simplify_eq; try done.
    + apply result_bind_Ok in He as (n & Hn & ?). simplify_eq. simpl in Hv.
      apply result_bind_Ok in Hv as (m & Hm & ?). simplify_eq. f_equal. symmetry.
      by eapply i64_neg_neg.
    + simpl in Hv. simplify_eq. f_equal. unfold f64_neg.
      by destruct f; simpl; rewrite ?negb_involutive.
    + by simplify_eq/=.
  - use_kinds; [done|]. simpl in *. simplify_eq. simpl. rewrite negb_involutive. done.
Qed.

(** ** COALESCE *)

Lemma coalesce_drop_null args vs :
  Forall2 (λ a v, evr a = Ok v) args vs →
  ∃ vs', Forall2 (λ a v, evr a = Ok v) (List.filter (λ a, negb (is_lit_null a)) args) vs' ∧
         coalesce_execute vs' = coalesce_execute vs.
Proof.
  induction 1 as [|a v args vs Ha _ (vs' & IH1 & IH2)]; simpl; [by exists []|].
  destruct (is_lit_null a) eqn:Hn; simpl.
  - destruct a as [[]| | | | | |]; try done. simpl in Ha. simplify_eq. by exists vs'.
  - exists (v :: vs'). split; [by constructor|]. simpl. by rewrite IH2.
Qed.

Lemma simplify_call_sound name args vs v :
  result_mapM evr args = Ok vs → call_rule_safe name args = true →
  registry_execute reg name vs = Ok v → evr (simplify_call name args) = Ok v.
Proof.
  intros Hvs Hs Hv.
  assert (Hkeep : evr (EFunctionCall name args) = Ok v) by (simpl; by rewrite Hvs).
  unfold simplify_call, call_rule_safe in *.
  destruct (String.eqb_spec (to_uppercase name) "COALESCE") as [Hname|]; [|done].
  unfold registry_execute in Hv. rewrite Hname, Hcoalesce in Hv. simpl in Hv.
  destruct (length vs <? 1)%nat; [done|].
  apply result_mapM_Ok, coalesce_drop_null in Hvs as (vs' & HF & Hco). rewrite <- Hco in Hv.
  destruct HF as [|a v1 l1 l2 Ha [|a2 v2 l1' l2' Ha2 HF]].
  - simpl in *. by simplify_eq.
  - simpl in Hv. rewrite Ha. apply orb_true_iff in Hs as [Hk|Hk]; use_kinds; by simplify_eq/=.
  - cbn [eval_expr].
    assert (result_mapM evr (a :: a2 :: l1') = Ok (v1 :: v2 :: l2')) as Hm
      by (apply result_mapM_Ok; by repeat constructor).
    rewrite Hm. cbn. unfold registry_execute. by rewrite Hname, Hcoalesce.
Qed.

(** ** The whole pass *)

Lemma simplify_wf e : expr_wf e = true → expr_wf (simplify_algebraic e) = true.
Proof.
  induction e as [l|y|f args IH|l op r IHl IHr|op y IH|cs els IH IHe|y t IH]
    using Expression_rec_nested; cbn [expr_wf simplify_algebraic]; auto; intros Hwf.
  - assert (Hall : forallb expr_wf (map simplify_algebraic args) = true).
    { clear f. induction IH as [|a args Ha _ IHa]; [done|]. simpl in *.
      apply andb_true_iff in Hwf as [? ?]. apply andb_true_iff. auto. }
    unfold simplify_call. destruct (String.eqb _ _); [|done].
    assert (Hf : forallb expr_wf (List.filter (λ a, negb (is_lit_null a))
                   (map simplify_algebraic args)) = true).
    { rewrite forallb_forall in Hall |- *. intros x [? _]%filter_In. auto. }
    destruct (List.filter _ _) as [|a [|b l]]; [done| |done].
    simpl in Hf. by apply andb_true_iff in Hf as [? _].
  - apply andb_true_iff in Hwf as [Hl Hr]. specialize (IHl Hl). specialize (IHr Hr).
    assert (expr_wf (EBinaryOp (simplify_algebraic l) op (simplify_algebraic r)) = true)
      by (simpl; by apply andb_true_iff).
    unfold simplify_binary. destruct op; repeat case_match; done.
  - specialize (IH Hwf). unfold simplify_unary. by repeat case_match.
  - apply andb_true_iff in Hwf as [Hcs Hels]. apply andb_true_iff. split.
    + clear IHe. induction IH as [|[c t] cs [Hc Ht] _ IHc]; [done|]. simpl in *.
      rewrite !andb_true_iff in *. intuition.
    + destruct els; auto.
Qed.

Lemma eval_case_mono cs els v :
  Forall (λ p, (∀ v, evr p.1 = Ok v → evr (simplify_algebraic p.1) = Ok v) ∧
               (∀ v, evr p.2 = Ok v → evr (simplify_algebraic p.2) = Ok v)) cs →
  (∀ v, match els with Some x => evr x | None => Ok VNull end = Ok v →
        match els with Some x => evr (simplify_algebraic x) | None => Ok VNull end = Ok v) →
  eval_case evr els cs = Ok v →
  eval_case evr (match els with Some x => Some (simplify_algebraic x) | None => None end)
    (map (λ '(c, t), (simplify_algebraic c, simplify_algebraic t)) cs) = Ok v.
Proof.
  intros HF Hels. induction HF as [|[c t] cs [Hc Ht] _ IH]; simpl in *.
  - intros Hv. destruct els; eauto.
  - destruct (evr c) as [cv| |] eqn:Hcv; [|done..]. rewrite (Hc _ eq_refl).
    destruct (as_boolean cv); eauto.
Qed.

Lemma simplify_algebraic_sound e v :
  expr_wf e = true → simplify_safe e = true →
  evr e = Ok v → evr (simplify_algebraic e) = Ok v.
Proof.
  revert v.
  induction e as [l|y|f args IH|l op r IHl IHr|op y IH|cs els IH IHe|y t IH]
    using Expression_rec_nested; intros v Hwf Hs Hv;
    cbn [expr_wf simplify_safe simplify_algebraic] in *; try done.
  - cbn [eval_expr] in Hv. apply result_bind_Ok in Hv as (vs & Hvs & Hv).
    apply andb_true_iff in Hs as [Hs Hrule].
    eapply simplify_call_sound; [|done|done].
    apply result_mapM_Ok. apply result_mapM_Ok in Hvs. clear Hrule Hv.
    induction Hvs as [|a w args vs Ha _ IHf]; simpl; constructor.
    + inversion IH; subst. simpl in *. rewrite !andb_true_iff in *. intuition.
    + inversion IH; subst. simpl in *. rewrite !andb_true_iff in *. intuition.
  - rewrite !andb_true_iff in *. destruct Hwf as [Wl Wr], Hs as [[Sl Sr] Hrule].
    cbn [eval_expr] in Hv. apply result_bind_Ok in Hv as (lv & Hl & Hv).
    apply result_bind_Ok in Hv as (rv & Hr & Hv).
    eapply simplify_binary_sound; eauto.
    all: by eapply evr_wf; [|eassumption].
  - rewrite !andb_true_iff in *. destruct Hs as [Sy Hrule].
    cbn [eval_expr] in Hv. apply result_bind_Ok in Hv as (x & Hx & Hv).
    eapply simplify_unary_sound; eauto using simplify_wf.
  - rewrite !andb_true_iff in *. destruct Hwf as [Wcs Wels], Hs as [Scs Sels].
    cbn [eval_expr] in *. apply eval_case_mono; [| |done].
    + clear Hv. induction IH as [|[c t] cs [Hc Ht] _ IHc]; constructor; simpl in *;
        rewrite !andb_true_iff in *; intuition.
    + intros w Hw. destruct els; auto.
  - cbn [eval_expr] in *. apply result_bind_Ok in Hv as (x & Hx & Hv).
    by rewrite (IH _ Hwf Hs Hx).
Qed.
End SimplifyFacts.

(** ** The optimizer as a whole *)

(** The conditions of both passes, each on the expression the pass sees. *)
Definition optimize_safe (oc : bool) (e : Expression) : bool :=
  fold_safe oc e
  && match fold_constants oc e with Ok f => simplify_safe f | _ => true end.

Section OptimizeFacts.
Context `{VE : ValueExternals} `{!ValueExternalsOk}.
Context (oc : bool) (ext : list (string * TransformFunction)).
Context (Hext : registry_wf (register_all ext ∅)).

Abbreviation reg := (with_builtins oc ext).

Lemma builtin_coalesce : reg !! "COALESCE" = Some (mk_fn coalesce_execute 1 None).
Proof. apply with_builtins_lookup. reflexivity. Qed.

(** Algebraic simplification refines: on a well-formed expression whose
    rewritten operands have the static kind the rewriting rules need, every
    row on which the expression evaluates to a value gives the same value for
    the simplified expression. *)
Theorem simplify_algebraic_refines (row : gmap string string) e v :
  expr_wf e = true → simplify_safe e = true →
  eval_expr oc reg (VString <$> row) e = Ok v →
  eval_expr oc reg (VString <$> row) (simplify_algebraic e) = Ok v.
Proof. apply simplify_algebraic_sound; [by apply with_builtins_wf|apply builtin_coalesce]. Qed.

Lemma optimize_Ok e e' :
  optimize oc new_optimizer e = Ok e' ↔
  ∃ f, fold_constants oc e = Ok f ∧ e' = simplify_algebraic f.
Proof.
  unfold optimize. simpl. rewrite result_bind_Ok. unfold eliminate_common_subexpressions.
  split; intros (f & Hf & He); exists f; split; auto; congruence.
Qed.

(** C3: the optimizer is correct end to end: where the conditions of both passes
    hold, [optimize] with every pass enabled yields an expression that gives
    the original's value on every row on which the original has one. *)
Theorem optimize_refines e e' (row : gmap string string) v :
  expr_wf e = true → optimize_safe oc e = true →
  optimize oc new_optimizer e = Ok e' →
  eval_expr oc reg (VString <$> row) e = Ok v →
  eval_expr oc reg (VString <$> row) e' = Ok v.
Proof.
  intros Hwf [Hf Hs]%andb_true_iff (f & Hfold & ->)%optimize_Ok Hv.
  rewrite Hfold in Hs. rewrite <- (fold_constants_exact _ reg _ _ _ Hf Hfold) in Hv.
  apply simplify_algebraic_sound;
    [by apply with_builtins_wf|apply builtin_coalesce| |exact Hs|exact Hv].
  exact (fold_constants_wf _ _ _ Hwf Hfold).
Qed.

(** Rules applied outside their conditions: over a row of text, [{a} + 0] is
    the number and its simplification [{a}] the text; and [COALESCE] skips
    empty text while its simplification keeps it. *)
Theorem simplify_add_zero_changes_type :
  let e := EBinaryOp (EVariable "a") Add (ELiteral (LInteger 0)) in
  simplify_algebraic e = EVariable "a" ∧
  eval_expr oc reg (VString <$> ({[ "a" := "5" ]} : gmap string string)) e
    = Ok (VFloat (f64_add (f64_of_i64 5) (f64_of_i64 0))) ∧
  eval_expr oc reg (VString <$> ({[ "a" := "5" ]} : gmap string string))
    (simplify_algebraic e) = Ok (VString "5").
Proof. split_and!; reflexivity. Qed.

Theorem simplify_coalesce_keeps_empty :
  let e := EFunctionCall "COALESCE" [ELiteral LNull; EVariable "a"] in
  simplify_algebraic e = EVariable "a" ∧
  eval_expr oc reg (VString <$> ({[ "a" := "" ]} : gmap string string)) e = Ok VNull ∧
  eval_expr oc reg (VString <$> ({[ "a" := "" ]} : gmap string string))
    (simplify_algebraic e) = Ok (VString "").
Proof.
  split_and!; [reflexivity| |reflexivity].
  cbn [eval_expr result_mapM eval_literal ok_or]. unfold registry_execute.
  change (to_uppercase "COALESCE") with "COALESCE". rewrite builtin_coalesce. reflexivity.
Qed.
End OptimizeFacts.

(** ** Witnesses *)

Section SimplifyWitnesses.
#[local] Existing Instance sample_externals.

(** [(CAST({a} AS INTEGER) + 0) * 1 = 5 AND TRUE] *)
Definition sample_simplifiable : Expression :=
  EBinaryOp
    (EBinaryOp
      (EBinaryOp
        (EBinaryOp (ECast (EVariable "a") TyInteger) Add (ELiteral (LInteger 0)))
        Multiply (ELiteral (LInteger 1)))
      Equal (ELiteral (LInteger 5)))
    And (EBinaryOp (ELiteral (LInteger 2)) GreaterThan (ELiteral (LInteger 1))).

Definition sample_simplified : Expression :=
  EBinaryOp (ECast (EVariable "a") TyInteger) Equal (ELiteral (LInteger 5)).

Lemma simplify_algebraic_refines_witness :
  eval_expr true (with_builtins true []) (VString <$> ({[ "a" := "5" ]} : gmap string string))
    (simplify_algebraic
      (EBinaryOp (ECast (EVariable "a") TyInteger) Add (ELiteral (LInteger 0))))
  = Ok (VInteger 5).
Proof.
  apply simplify_algebraic_refines;
    [apply map_Forall_empty|reflexivity|reflexivity|reflexivity].
Defined.

Lemma optimize_refines_witness :
  eval_expr true (with_builtins true []) (VString <$> ({[ "a" := "5" ]} : gmap string string))
    sample_simplified = Ok (VBoolean true).
Proof.
  apply (optimize_refines true [] (map_Forall_empty _) sample_simplifiable);
    reflexivity.
Defined.
End SimplifyWitnesses.
