(* ===== verification/TransformTypesFacts.v ===== *)
(** * Transformation engine: casts and the soundness of the type checker

    A cast gives the type it is asked for, and what the strict type checker
    accepts evaluates to a value of the type it answers. *)

From Stdlib Require Import ZArith Lia Ascii.
From Stdlib Require Import SpecFloat.
From stdpp Require Import base numbers option strings gmap list.
From S2P Require Import Prelude RustStd F64 TransformAst TransformTypes TransformFunctions.
From S2P Require Import TransformExec TransformExecFacts TransformFunctionFacts.

(** ** Decimal text has no blanks *)

Fixpoint no_blank (s : string) : bool :=
  match s with
  | EmptyString => true
  | String c s' => negb (is_whitespace c) && no_blank s'
  end.

Lemma trim_no_blank s : no_blank s = true → trim s = s.
Proof.
  intros Hs. unfold trim.
  assert (trim_start s = s) as ->.
  { destruct s as [|c s]; [done|]. simpl in *. by destruct (is_whitespace c). }
  induction s as [|c s IH]; [done|]. simpl in *. apply andb_true_iff in Hs as [Hc Hs].
  rewrite (IH Hs). destruct s; [by destruct (is_whitespace c)|done].
Qed.

Lemma no_blank_uint d : no_blank (DecimalString.NilEmpty.string_of_uint d) = true.
Proof. by induction d. Qed.

Lemma trim_i64_to_string z : trim (i64_to_string z) = i64_to_string z.
Proof.
  apply trim_no_blank. unfold i64_to_string.
  assert (Hu : ∀ d, no_blank (DecimalString.NilZero.string_of_uint d) = true).
  { intros d. unfold DecimalString.NilZero.string_of_uint. destruct d; [done|apply no_blank_uint..]. }
  destruct (Z.to_int z); simpl; [apply Hu|]. rewrite Hu. done.
Qed.

Section TypeFacts.
Context `{VE : ValueExternals}.

(** A value is null or of the type; the precision of a decimal is not part of
    its value. *)
Definition has_type (t : DataType) (v : Value) : bool :=
  is_null v ||
  match t, v with
  | TyUnknown, _ => true
  | TyString, VString _ | TyInteger, VInteger _ | TyFloat, VFloat _
  | TyDecimal _ _, VDecimal _ | TyBoolean, VBoolean _
  | TyDate, VDate _ | TyTimestamp, VTimestamp _ => true
  | _, _ => false
  end.

Lemma cast_has_type v t w : cast v t = Ok w → has_type t w = true.
Proof.
  unfold cast, mbind, result_bind. intros Hc.
  destruct t; repeat (case_match; simplify_eq); simplify_eq; try done.
  by destruct w.
Qed.

(** [Value::cast] delivers what it is asked for: a successful cast gives a
    value of the target type, and casting that value to the same type again
    changes nothing. *)
Theorem cast_idempotent v t w :
  cast v t = Ok w → has_type t w = true ∧ cast w t = Ok w.
Proof.
  intros Hc. split; [by eapply cast_has_type|].
  destruct t; simpl in Hc;
    try (apply result_bind_Ok in Hc as (x & _ & ?)); simplify_eq; try done;
    destruct v; simplify_eq; try done;
    apply result_bind_Ok in Hc as (x & _ & ?); by simplify_eq.
Qed.

(** Integers survive a round trip through text: casting any [i64] value to
    a string and that string back to an integer gives the same value, the
    [trim] of [as_integer] included. *)
Theorem cast_integer_string_roundtrip i :
  in_i64 i = true →
  (s ← cast (VInteger i) TyString; cast s TyInteger) = Ok (VInteger i).
Proof.
  intros Hi. simpl. by rewrite trim_i64_to_string, i64_from_to_string.
Qed.
End TypeFacts.

(** ** Soundness of strict checking *)

Definition checks_as_integer (e : Expression) : bool :=
  match check true e with Ok TyInteger => true | _ => false end.

(** Expressions whose checked type is the type of their value: no [CASE] (only
    its first branch is checked), no [COALESCE] (only the first known argument
    is), no quotient of two integers (which is a float at run time). *)
Fixpoint checked_fragment (e : Expression) : bool :=
  match e with
  | ELiteral _ | EVariable _ | ECast _ _ => true
  | EFunctionCall name _ => negb (String.eqb (to_uppercase name) "COALESCE")
  | EBinaryOp l op r =>
      checked_fragment l && checked_fragment r
      && negb (bool_decide (op = Divide)
               && checks_as_integer l && checks_as_integer r)
  | EUnaryOp _ x => checked_fragment x
  | ECase _ _ => false
  end.

Section CheckerFacts.
Context `{VE : ValueExternals}.
Context (oc : bool) (ext : list (string * TransformFunction)).

Abbreviation reg := (with_builtins oc ext).

Lemma str_in_elem s l : str_in s l = true → s ∈ l.
Proof.
  unfold str_in. rewrite existsb_exists. intros (x & Hx & ->%String.eqb_eq).
  by apply list_elem_of_In.
Qed.

(** A built-in of the table that returns null or a value of type [t]. *)
Definition returns_type (t : DataType) (name : string) : Prop :=
  ∃ f, with_builtins oc [] !! name = Some f ∧
       ∀ args v, fn_execute f args = Ok v → has_type t v = true.

Lemma returns_type_execute t name args v :
  returns_type t (to_uppercase name) → registry_execute reg name args = Ok v →
  has_type t v = true.
Proof.
  intros (f & Hf & Ht). apply (with_builtins_lookup oc ext) in Hf.
  unfold registry_execute. rewrite Hf. intros Hv.
  repeat (case_match; simplify_eq); eauto.
Qed.

Lemma unless_null_type t args k v :
  (∀ x w, k x = Ok w → has_type t w = true) → unless_null args k = Ok v → has_type t v = true.
Proof.
  intros Hk Hv. apply result_bind_Ok in Hv as (x & _ & Hv).
  destruct (is_null x); [by simplify_eq|eauto].
Qed.

Lemma string_builtins_type name :
  name ∈ ["UPPER"; "LOWER"; "TRIM"; "LTRIM"; "RTRIM"] ∨ name = "CONCAT" ∨ name = "SUBSTRING" →
  returns_type TyString name.
Proof.
  rewrite !elem_of_cons, elem_of_nil.
  intros Hn; repeat destruct Hn as [Hn|Hn]; subst; try done;
    (eexists; split; [reflexivity|]); intros args v; cbn [fn_execute].
  1-5: intros Hv; eapply unless_null_type; [|exact Hv]; intros x w Hw; by simplify_eq/=.
  - intros Hv. unfold concat_execute in Hv. simpl in Hv. by simplify_eq.
  - intros Hv. eapply unless_null_type; [|exact Hv]. intros x w Hw. simpl in Hw.
    apply result_bind_Ok in Hw as (n & _ & Hw). destruct (2 <? length args)%nat; [|by simplify_eq].
    apply result_bind_Ok in Hw as (m & _ & Hw). by simplify_eq.
Qed.

Lemma length_builtin_type : returns_type TyInteger "LENGTH".
Proof.
  eexists. split; [reflexivity|]. intros args v Hv.
  eapply unless_null_type; [|exact Hv]. intros x w Hw. by simplify_eq/=.
Qed.

Lemma function_type_sound chk name args vs t v :
  String.eqb (to_uppercase name) "COALESCE" = false →
  check_function_types chk name args = Ok t →
  registry_execute reg name vs = Ok v → has_type t v = true.
Proof.
  intros Hco Hc Hv. unfold check_function_types in Hc. rewrite Hco in Hc.
  destruct (str_in (to_uppercase name) _) eqn:E1.
  { apply str_in_elem in E1. case_match; simplify_eq.
    eauto using returns_type_execute, string_builtins_type. }
  destruct (String.eqb_spec (to_uppercase name) "CONCAT").
  { case_match; simplify_eq. eauto using returns_type_execute, string_builtins_type. }
  destruct (String.eqb_spec (to_uppercase name) "LENGTH") as [E|].
  { case_match; simplify_eq. eapply returns_type_execute; [|done].
    rewrite E. apply length_builtin_type. }
  destruct (String.eqb_spec (to_uppercase name) "SUBSTRING").
  { case_match; simplify_eq. eauto using returns_type_execute, string_builtins_type. }
  simplify_eq. unfold has_type. apply orb_true_r.
Qed.

Lemma arith_type (int_op : Z → Z → result eval_error Z) float_op tl tr t l r v :
  has_type tl l = true → has_type tr r = true → is_null l || is_null r = false →
  match tl, tr with
  | TyInteger, TyInteger => Ok (E := eval_error) TyInteger
  | TyFloat, _ | _, TyFloat => Ok TyFloat
  | TyUnknown, _ | _, TyUnknown => Ok TyUnknown
  | _, _ => Err IncompatibleArithmetic
  end = Ok t →
  arith int_op float_op l r = Ok v → has_type t v = true.
Proof.
  intros Hl Hr [Nl Nr]%orb_false_iff Ht Hv. unfold has_type in *. rewrite Nl in Hl. rewrite Nr in Hr.
  simpl in *.
  assert (t = TyUnknown ∨ (t = TyInteger ∧ ∃ i j, l = VInteger i ∧ r = VInteger j)
          ∨ (t = TyFloat ∧ ((∃ x, l = VFloat x) ∨ (∃ y, r = VFloat y)))) as Hcases.
  { destruct tl, tr; simplify_eq; auto; destruct l, r; try done; eauto 10. }
  destruct Hcases as [->|[(-> & i & j & -> & ->)|[-> Hf]]]; [apply orb_true_r| |].
  - simpl in Hv. apply result_bind_Ok in Hv as (n & _ & ?). by simplify_eq.
  - destruct Hf as [[x ->]|[y ->]]; unfold arith in Hv.
    + destruct r; simplify_eq; try done;
        repeat (apply result_bind_Ok in Hv as (? & _ & Hv)); by simplify_eq.
    + destruct l; simplify_eq; try done;
        repeat (apply result_bind_Ok in Hv as (? & _ & Hv)); by simplify_eq.
Qed.

Lemma compare_type test l r v : compare_op test l r = Ok v → has_type TyBoolean v = true.
Proof.
  unfold compare_op. destruct (coerce_types l r).
  intros (c & _ & ?)%result_bind_Ok. by simplify_eq.
Qed.

Lemma binary_type_sound tl op tr t l r v :
  has_type tl l = true → has_type tr r = true →
  (op = Divide → ¬ (tl = TyInteger ∧ tr = TyInteger)) →
  check_binary_op_types true tl op tr = Ok t →
  eval_binary_op oc l op r = Ok v → has_type t v = true.
Proof.
  intros Hl Hr Hdiv Ht Hv. unfold eval_binary_op in Hv.
  destruct (match op with Equal | NotEqual => false | _ => true end
            && (is_null l || is_null r)) eqn:Hn; [by simplify_eq|].
  destruct op; simpl in Ht, Hv, Hn; simplify_eq; try done;
    try exact (arith_type _ _ _ _ _ _ _ _ Hl Hr Hn Ht Hv); try exact (compare_type _ _ _ _ Hv).
  - apply result_bind_Ok in Hv as (a & _ & Hv). apply result_bind_Ok in Hv as (b & _ & Hv).
    destruct (f64_eqb b f64_zero); simplify_eq.
    destruct tl, tr; simplify_eq; try done. by destruct Hdiv.
  - destruct l; try done. destruct r; try done. case_match; [done|].
    apply result_bind_Ok in Hv as (n & _ & ?). simplify_eq.
    destruct tl, tr; by simplify_eq.
  - destruct (coerce_types l r). by simplify_eq.
  - destruct (coerce_types l r). by simplify_eq.
  - case_match; by simplify_eq.
  - case_match; by simplify_eq.
  - case_match; by simplify_eq.
  - case_match; by simplify_eq.
Qed.

Lemma unary_type_sound op t t' x v :
  has_type t x = true → check_unary_op_type true op t = Ok t' →
  eval_unary_op oc op x = Ok v → has_type t' v = true.
Proof.
  intros Hx Ht Hv. destruct op; cbn [check_unary_op_type eval_unary_op] in Ht, Hv; simplify_eq;
    try done; destruct (true && _); simplify_eq; try done.
  destruct x; simplify_eq; try done.
  apply result_bind_Ok in Hv as (n & _ & ?). simplify_eq. by destruct t'.
Qed.

Lemma check_strict_sound ctx e t v :
  checked_fragment e = true → check true e = Ok t →
  eval_expr oc reg ctx e = Ok v → has_type t v = true.
Proof.
  revert t v.
  induction e as [l|y|f args IH|l op r IHl IHr|op y IH|cs els IH IHe|y ty IH]
    using Expression_rec_nested; cbn [checked_fragment check eval_expr]; intros t v Hf Ht Hv.
  - simplify_eq. by destruct l.
  - simplify_eq. unfold has_type. apply orb_true_r.
  - apply result_bind_Ok in Hv as (vs & _ & Hv). apply negb_true_iff in Hf.
    by eapply function_type_sound.
  - rewrite !andb_true_iff in Hf. destruct Hf as [[Fl Fr] Hd].
    apply result_bind_Ok in Ht as (tl & Htl & Ht). apply result_bind_Ok in Ht as (tr & Htr & Ht).
    apply result_bind_Ok in Hv as (lv & Hlv & Hv). apply result_bind_Ok in Hv as (rv & Hrv & Hv).
    eapply binary_type_sound; [by eapply IHl|by eapply IHr| |done|done].
    intros -> [-> ->]. unfold checks_as_integer in Hd. by rewrite Htl, Htr in Hd.
  - apply result_bind_Ok in Ht as (ty & Hty & Ht).
    apply result_bind_Ok in Hv as (x & Hx & Hv). eapply unary_type_sound; eauto.
  - done.
  - simplify_eq. apply result_bind_Ok in Hv as (x & Hx & Hv). by eapply cast_has_type.
Qed.

(** C39: soundness of the strict type checker: on expressions without [CASE],
    [COALESCE] and quotients of two integers, when [TypeChecker::check] in
    strict mode answers a type, every value the expression evaluates to, in
    any context and with the built-in functions, is null or of that type. *)
Theorem strict_checker_sound ctx e t v :
  checked_fragment e = true → check true e = Ok t →
  eval_expr oc reg ctx e = Ok v → has_type t v = true.
Proof. apply check_strict_sound. Qed.

(** The quotient of two integers, outside the fragment: checked as an integer,
    evaluated to a float. *)
Theorem strict_checker_integer_division :
  let e := EBinaryOp (ELiteral (LInteger 7)) Divide (ELiteral (LInteger 2)) in
  check true e = Ok TyInteger ∧
  eval_expr oc reg ∅ e = Ok (VFloat (f64_div (f64_of_i64 7) (f64_of_i64 2))).
Proof. split; reflexivity. Qed.
End CheckerFacts.

Section TypeWitnesses.
#[local] Existing Instance sample_externals.

Lemma cast_idempotent_witness :
  has_type TyInteger (VInteger 42) = true ∧ cast (VInteger 42) TyInteger = Ok (VInteger 42).
Proof. apply (cast_idempotent (VString " 42 ")). reflexivity. Defined.

Lemma cast_integer_string_roundtrip_witness :
  (s ← cast (VInteger i64_min) TyString; cast s TyInteger) = Ok (VInteger i64_min).
Proof. apply cast_integer_string_roundtrip. reflexivity. Defined.

(** [LENGTH(UPPER({a})) + 1] on a row. *)
Lemma strict_checker_sound_witness :
  has_type TyInteger (VInteger 4) = true.
Proof.
  apply (strict_checker_sound true [] {[ "a" := VString "abc" ]}
           (EBinaryOp (EFunctionCall "LENGTH" [EFunctionCall "upper" [EVariable "a"]])
              Add (ELiteral (LInteger 1)))); reflexivity.
Defined.
End TypeWitnesses.
