(* ===== verification/AuditEntry.v ===== *)
(** * Audit trail: hashes and signed entries

    Models [bitemporal/audit/crypto.rs] and [bitemporal/audit/entry.rs].
    SHA-256, Ed25519, hexadecimal text and the serde encodings come from
    crates; they are the fields of the class [AuditExternals], and what the
    audit trail relies on is the class [AuditExternalsOk]. *)

From Stdlib Require Import ZArith Lia Ascii.
From stdpp Require Import base numbers option strings gmap vector list.
From S2P Require Import Prelude Bytes.

(** [Hash]: an array of 32 bytes, and the arrays of entries. *)
Definition Hash : Type := vec byte 32.
Definition Bytes32 : Type := vec byte 32.
Definition Bytes64 : Type := vec byte 64.

#[global] Instance Hash_eq_dec : EqDecision Hash := vec_dec.

(** [Hash::ZERO]. *)
Definition HASH_ZERO : Hash := vreplicate 32 Byte.x00.

(** [Hash::as_bytes]. *)
Definition as_bytes (h : Hash) : list byte := vec_to_list h.

(** [copy_from_slice] into an array of [n] bytes; [None] where it panics. *)
Fixpoint copy_from_slice (n : nat) (bytes : list byte) : option (vec byte n) :=
  match n, bytes with
  | O, [] => Some [#]
  | S n', b :: bytes' => v ← copy_from_slice n' bytes'; Some (b ::: v)
  | _, _ => None
  end.

Lemma copy_from_slice_vec n (v : vec byte n) : copy_from_slice n (vec_to_list v) = Some v.
Proof. induction v as [|b n v IH]; simpl; [done|]. by rewrite IH. Qed.

(** ** Data of the entries *)

Class ChronoTypes := { DateTimeUtc : Type }.

Section EntryData.
Context `{CT : ChronoTypes}.

Record TransactionId : Type := {
  tx_seq : Z;
  tx_timestamp : DateTimeUtc;
  tx_node_id : Z;
}.

Inductive AuditOperation : Type := Insert | Update | Delete | Query.

(** [AuditEntry]. *)
Record AuditEntry : Type := {
  tx_id : TransactionId;
  operation : AuditOperation;
  node_id : Z;
  timestamp : Z;
  subject : option string;
  predicate : option string;
  object : option string;
  initiator : string;
}.

(** [SignedAuditEntry]. *)
Record SignedAuditEntry : Type := {
  entry : AuditEntry;
  entry_hash : Hash;
  previous_hash : Hash;
  signature : Bytes64;
  public_key : Bytes32;
}.

(** [AuditEntry::new]; [now] is the clock's milliseconds. *)
Definition new_entry (now : Z) (tx_id : TransactionId) (operation : AuditOperation)
    (node_id : Z) (initiator : string) : AuditEntry :=
  {| tx_id := tx_id; operation := operation; node_id := node_id; timestamp := now;
     subject := None; predicate := None; object := None; initiator := initiator |}.

(** [AuditEntry::with_triple]. *)
Definition with_triple (e : AuditEntry) (subject predicate object : string) : AuditEntry :=
  {| tx_id := tx_id e; operation := operation e; node_id := node_id e;
     timestamp := timestamp e; subject := Some subject; predicate := Some predicate;
     object := Some object; initiator := initiator e |}.
End EntryData.

(** What the crates provide. *)
Class AuditExternals := {
  #[global] audit_chrono :: ChronoTypes;
  (** [sha2::Sha256] over the concatenation of its updates. *)
  sha256 : list byte → Hash;
  (** [ed25519_dalek]. *)
  SigningKey : Type;
  VerifyingKey : Type;
  verifying_key : SigningKey → VerifyingKey;
  vk_to_bytes : VerifyingKey → Bytes32;
  vk_from_bytes : Bytes32 → option VerifyingKey;
  ed_sign : SigningKey → list byte → Bytes64;
  ed_verify : VerifyingKey → list byte → Bytes64 → bool;
  (** [serde_json::to_string] of an entry, as UTF-8 bytes. *)
  entry_json : AuditEntry → list byte;
  (** [bincode] of a signed entry and of a vector of them. *)
  bincode_entry : SignedAuditEntry → list byte;
  unbincode_entry : list byte → option SignedAuditEntry;
  bincode_entries : list SignedAuditEntry → list byte;
  unbincode_entries : list byte → option (list SignedAuditEntry);
  (** [hex::encode] and [hex::decode]. *)
  hex_encode : list byte → string;
  hex_decode : string → option (list byte);
}.

(** What the audit trail relies on: a key verifies what its secret key signed,
    encodings decode, and hexadecimal text has two characters per byte. *)
Class AuditExternalsOk `{AuditExternals} : Prop := {
  vk_from_to_bytes sk :
    vk_from_bytes (vk_to_bytes (verifying_key sk)) = Some (verifying_key sk);
  ed_verify_sign sk m : ed_verify (verifying_key sk) m (ed_sign sk m) = true;
  entry_json_inj e e' : entry_json e = entry_json e' → e = e';
  unbincode_bincode_entry s : unbincode_entry (bincode_entry s) = Some s;
  unbincode_bincode_entries l : unbincode_entries (bincode_entries l) = Some l;
  hex_decode_encode b : hex_decode (hex_encode b) = Some b;
  hex_encode_length b : String.length (hex_encode b) = (2 * length b)%nat;
}.

Section Entries.
Context `{AE : AuditExternals}.

(** [Hash::compute]. *)
Definition compute (data : list byte) : Hash := sha256 data.

(** [Hash::compute_multi]. *)
Definition compute_multi (inputs : list (list byte)) : Hash := sha256 (concat inputs).

(** [Hash::from_bytes]. *)
Definition hash_from_bytes (bytes : list byte) : option Hash :=
  if (length bytes =? 32)%nat then copy_from_slice 32 bytes else None.

(** [Hash::to_hex] and [Hash::from_hex]. *)
Definition to_hex (h : Hash) : string := hex_encode (as_bytes h).
Definition from_hex (s : string) : option Hash :=
  if (String.length s =? 64)%nat then bytes ← hex_decode s; hash_from_bytes bytes
  else None.

(** [AuditEntry::compute_hash]. *)
Definition compute_hash (e : AuditEntry) : Hash := compute (entry_json e).

(** The signed message. *)
Definition chain_message (entry_hash previous_hash : Hash) : list byte :=
  as_bytes entry_hash ++ as_bytes previous_hash.

(** [AuditEntry::sign]. *)
Definition sign (e : AuditEntry) (signing_key : SigningKey) (previous_hash : Hash)
    : SignedAuditEntry :=
  let entry_hash := compute_hash e in
  {| entry := e;
     entry_hash := entry_hash;
     previous_hash := previous_hash;
     signature := ed_sign signing_key (chain_message entry_hash previous_hash);
     public_key := vk_to_bytes (verifying_key signing_key) |}.

(** [SignedAuditEntry::verify_signature]. *)
Definition verify_signature (s : SignedAuditEntry) : bool :=
  match vk_from_bytes (public_key s) with
  | Some key => ed_verify key (chain_message (entry_hash s) (previous_hash s)) (signature s)
  | None => false
  end.

(** [SignedAuditEntry::verify_entry_hash]. *)
Definition verify_entry_hash (s : SignedAuditEntry) : bool :=
  bool_decide (compute_hash (entry s) = entry_hash s).

(** [SignedAuditEntry::verify]. *)
Definition verify_signed (s : SignedAuditEntry) : bool :=
  verify_entry_hash s && verify_signature s.

(** [SignedAuditEntry::to_bytes] and [from_bytes]. *)
Definition signed_to_bytes (s : SignedAuditEntry) : list byte := bincode_entry s.
Definition signed_from_bytes (b : list byte) : option SignedAuditEntry := unbincode_entry b.

(** ** Facts *)

(** Two given inputs that differ and have the same digest, and two among the given
    ones. *)
Definition collide (a b : list byte) : Prop := a ≠ b ∧ sha256 a = sha256 b.

Definition collision_among (xs ys : list (list byte)) : Prop :=
  ∃ a b, a ∈ xs ∧ b ∈ ys ∧ collide a b.

Lemma sha256_inj a b : sha256 a = sha256 b → a = b ∨ collide a b.
Proof. intros Hab. destruct (decide (a = b)); [by left|by right]. Qed.

Lemma collision_head a b xs ys : collide a b → collision_among (a :: xs) (b :: ys).
Proof. intros H. exists a, b. split; [left|split; [left|exact H]]. Qed.

Lemma collision_among_mono xs ys xs' ys' :
  collision_among xs ys → xs ⊆ xs' → ys ⊆ ys' → collision_among xs' ys'.
Proof. intros (a & b & Ha & Hb & H) Hx Hy. exists a, b. eauto. Qed.

Lemma as_bytes_inj h h' : as_bytes h = as_bytes h' → h = h'.
Proof. apply vec_to_list_inj2. Qed.

Lemma as_bytes_length h : length (as_bytes h) = 32%nat.
Proof. apply length_vec_to_list. Qed.

Lemma hash_from_as_bytes h : hash_from_bytes (as_bytes h) = Some h.
Proof.
  unfold hash_from_bytes. rewrite as_bytes_length. simpl. apply (copy_from_slice_vec 32).
Qed.

Context `{!AuditExternalsOk}.

Lemma sign_verifies e sk prev : verify_signed (sign e sk prev) = true.
Proof.
  unfold verify_signed, verify_entry_hash, verify_signature. simpl.
  rewrite bool_decide_true by done. by rewrite vk_from_to_bytes, ed_verify_sign.
Qed.

(** A verified entry's hash determines its content, up to a collision. *)
Lemma verified_hash_binds s s' :
  verify_entry_hash s = true → verify_entry_hash s' = true →
  entry_hash s = entry_hash s' →
  entry s = entry s' ∨ collide (entry_json (entry s)) (entry_json (entry s')).
Proof.
  intros Hs%bool_decide_eq_true Hs'%bool_decide_eq_true E.
  rewrite <- Hs, <- Hs' in E. apply sha256_inj in E as [E|?]; [|by right].
  left. by apply entry_json_inj.
Qed.

(** A hash survives the round trips through bytes and through hexadecimal
    text, and text of another length is refused. *)
Theorem hash_hex_roundtrip h s :
  from_hex (to_hex h) = Some h ∧ hash_from_bytes (as_bytes h) = Some h ∧
  (String.length s ≠ 64%nat → from_hex s = None).
Proof.
  unfold from_hex, to_hex. split_and!.
  - rewrite hex_encode_length, as_bytes_length. simpl.
    rewrite hex_decode_encode. simpl. apply hash_from_as_bytes.
  - apply hash_from_as_bytes.
  - intros Hs. by destruct (Nat.eqb_spec (String.length s) 64).
Qed.
End Entries.
