(* ===== verification/AuditMerkle.v ===== *)
(** * Audit trail: Merkle trees

    Models [bitemporal/audit/merkle.rs]: the tree is built bottom-up in a table
    of nodes, as in the source.  [tree_node] is the reference definition of a
    balanced hash tree; the table is proved to hold exactly its nodes, proofs
    of inclusion are complete, and sound up to a SHA-256 collision. *)

From Stdlib Require Import ZArith Lia Ascii.
From stdpp Require Import base numbers option strings gmap vector list.
From S2P Require Import Prelude Bytes AuditEntry.

Section Merkle.
Context `{AE : AuditExternals}.

(** [MerkleTree]. *)
Record MerkleTree : Type := {
  root : Hash;
  height : nat;
  leaves : list Hash;
  nodes : gmap (nat * nat) Hash;
}.

(** [MerkleProof]. *)
Record MerkleProof : Type := {
  leaf_index : nat;
  leaf_hash : Hash;
  siblings : list Hash;
  proof_root : Hash;
}.

(** [MerkleTree::hash_pair]. *)
Definition hash_pair (l r : Hash) : Hash := compute (as_bytes l ++ as_bytes r).

(** [MerkleTree::empty]. *)
Definition empty_tree : MerkleTree :=
  {| root := HASH_ZERO; height := 0; leaves := []; nodes := ∅ |}.

(** [usize::next_power_of_two]. *)
Definition next_power_of_two (n : nat) : nat :=
  if (n <=? 1)%nat then 1%nat else (2 ^ S (Nat.log2 (n - 1)))%nat.

(** The padding loop. *)
Definition pad (ls : list Hash) : list Hash :=
  ls ++ replicate (next_power_of_two (length ls) - length ls) HASH_ZERO.

(** The loop that stores the leaves, from index [i] on, at level 0. *)
Fixpoint store_leaves (i : nat) (ls : list Hash) (ns : gmap (nat * nat) Hash)
    : gmap (nat * nat) Hash :=
  match ls with
  | [] => ns
  | h :: ls' => store_leaves (S i) ls' (<[(0%nat, i) := h]> ns)
  end.

(** One iteration of the inner loop: the parent at [(level, i)]. *)
Definition build_node (level : nat) (ns : gmap (nat * nat) Hash) (i : nat)
    : result unit (gmap (nat * nat) Hash) :=
  match ns !! (level - 1, i * 2)%nat, ns !! (level - 1, i * 2 + 1)%nat with
  | Some l, Some r => Ok (<[(level, i) := hash_pair l r]> ns)
  | _, _ => Panic
  end.

(** One iteration of the outer loop. *)
Definition build_level (h : nat) (ns : gmap (nat * nat) Hash) (level : nat)
    : result unit (gmap (nat * nat) Hash) :=
  let prev_level_size := (2 ^ (h - level + 1))%nat in
  let level_size := (prev_level_size / 2)%nat in
  result_foldM (build_node level) ns (seq 0 level_size).

(** [MerkleTree::from_leaves].  The height is the base-2 logarithm of a power
    of two, which is exact in [f64]. *)
Definition from_leaves (ls : list Hash) : result unit MerkleTree :=
  match ls with
  | [] => Ok empty_tree
  | _ =>
      let ls := pad ls in
      let h := Nat.log2 (length ls) in
      ns ← result_foldM (build_level h) (store_leaves 0 ls ∅) (seq 1 h);
      match ns !! (h, 0%nat) with
      | Some r => Ok {| root := r; height := h; leaves := ls; nodes := ns |}
      | None => Panic
      end
  end.

(** [MerkleTree::from_entries]. *)
Definition from_entries (es : list SignedAuditEntry) : result unit MerkleTree :=
  match es with
  | [] => Ok empty_tree
  | _ => from_leaves (map entry_hash es)
  end.

(** [MerkleTree::len] and [is_empty]. *)
Definition tree_len (t : MerkleTree) : nat := length (leaves t).
Definition tree_is_empty (t : MerkleTree) : bool :=
  match leaves t with [] => true | _ => false end.

Definition sibling_index (i : nat) : nat := if Nat.even i then (i + 1)%nat else (i - 1)%nat.

(** The loop of [MerkleTree::proof]: the remaining levels from [level] on. *)
Fixpoint proof_siblings (t : MerkleTree) (level n current_index : nat) : list Hash :=
  match n with
  | O => []
  | S n' =>
      (match nodes t !! (level, sibling_index current_index) with
       | Some s => s
       | None => HASH_ZERO
       end) :: proof_siblings t (S level) n' (current_index / 2)
  end.

(** [MerkleTree::proof]. *)
Definition proof (t : MerkleTree) (index : nat) : option MerkleProof :=
  match leaves t !! index with
  | None => None
  | Some h =>
      Some {| leaf_index := index; leaf_hash := h;
              siblings := proof_siblings t 0 (height t) index; proof_root := root t |}
  end.

(** The loop of [MerkleProof::verify]. *)
Fixpoint climb (current : Hash) (index : nat) (sibs : list Hash) : Hash :=
  match sibs with
  | [] => current
  | s :: sibs' =>
      climb (if Nat.even index then hash_pair current s else hash_pair s current)
            (index / 2) sibs'
  end.

(** [MerkleProof::verify]. *)
Definition verify_proof (p : MerkleProof) : bool :=
  bool_decide (climb (leaf_hash p) (leaf_index p) (siblings p) = proof_root p).

(** [MerkleProof::size]. *)
Definition proof_size (p : MerkleProof) : nat := (8 + 32 + length (siblings p) * 32 + 32)%nat.

(** [BatchProof] and its operations. *)
Record BatchProof : Type := {
  batch_root : Hash;
  proofs : list MerkleProof;
}.

Definition verify_batch (b : BatchProof) : bool :=
  forallb (λ p, bool_decide (proof_root p = batch_root b) && verify_proof p) (proofs b).

Definition batch_len (b : BatchProof) : nat := length (proofs b).
Definition batch_size (b : BatchProof) : nat := (32 + sum_list_with proof_size (proofs b))%nat.

(** ** The reference tree *)

Fixpoint tree_node (ls : list Hash) (level i : nat) : Hash :=
  match level with
  | O => default HASH_ZERO (ls !! i)
  | S level' => hash_pair (tree_node ls level' (2 * i)) (tree_node ls level' (2 * i + 1))
  end.

(** The table holds the nodes of the levels below [level] and the first [k]
    nodes of [level]. *)
Definition nodes_upto (ls : list Hash) (h level k : nat) (ns : gmap (nat * nat) Hash) : Prop :=
  ∀ l i, (i < 2 ^ (h - l))%nat → (l ≤ h)%nat →
    ((l < level)%nat ∨ (l = level ∧ (i < k)%nat)) →
    ns !! (l, i) = Some (tree_node ls l i).

Lemma store_leaves_lookup k ls ns i :
  store_leaves k ls ns !! (0%nat, i)
  = if decide (k ≤ i < k + length ls)%nat then ls !! (i - k)%nat else ns !! (0%nat, i).
Proof.
  revert k ns. induction ls as [|h ls IH]; intros k ns; simpl.
  - case_decide; [lia|done].
  - rewrite IH. destruct (decide (i = k)) as [->|Hne].
    + rewrite decide_False, decide_True, lookup_insert_eq, Nat.sub_diag by lia. done.
    + rewrite lookup_insert_ne by congruence. repeat case_decide; try lia; [|done].
      by replace (i - k)%nat with (S (i - S k)) by lia.
Qed.

Lemma pow2_split h l : (l < h)%nat → (2 ^ (h - l) = 2 * 2 ^ (h - S l))%nat.
Proof. intros Hl. by replace (h - l)%nat with (S (h - S l)) by lia. Qed.

Lemma build_node_ok ls h level i ns :
  (0 < level ≤ h)%nat → (i < 2 ^ (h - level))%nat → nodes_upto ls h level i ns →
  ∃ ns', build_node level ns i = Ok ns' ∧ nodes_upto ls h level (S i) ns'.
Proof.
  intros Hl Hi Hns. unfold build_node.
  pose proof (pow2_split h (level - 1) ltac:(lia)) as Hp.
  replace (S (level - 1)) with level in Hp by lia.
  rewrite (Hns (level - 1) (i * 2))%nat by lia.
  rewrite (Hns (level - 1) (i * 2 + 1))%nat by lia.
  eexists. split; [done|]. intros l j Hj Hlh Hc.
  destruct (decide ((l, j) = (level, i))) as [[= -> ->]|Hne].
  - rewrite lookup_insert_eq. f_equal. destruct level as [|level]; [lia|]. simpl.
    rewrite Nat.sub_0_r. f_equal; f_equal; lia.
  - rewrite lookup_insert_ne by done. apply Hns; [done|done|].
    destruct Hc as [?|[-> ?]]; [by left|]. right. split; [done|].
    assert (j ≠ i) by (intros ->; done). lia.
Qed.

Lemma build_level_ok ls h level ns :
  (0 < level ≤ h)%nat → nodes_upto ls h level 0 ns →
  ∃ ns', build_level h ns level = Ok ns' ∧ nodes_upto ls h (S level) 0 ns'.
Proof.
  intros Hl Hns. unfold build_level.
  assert ((2 ^ (h - level + 1) / 2 = 2 ^ (h - level))%nat) as ->.
  { rewrite Nat.pow_add_r, Nat.div_mul; [done|lia]. }
  destruct (result_foldM_seq (build_node level) (nodes_upto ls h level) 0
              (2 ^ (h - level)) ns) as (ns' & Hf & Hns').
  - done.
  - intros i s Hi. apply build_node_ok; [done|lia].
  - exists ns'. split; [done|]. intros l i Hi Hlh Hc. apply Hns'; [done|done|].
    destruct (decide (l = level)) as [->|]; [right; simpl; split; [done|lia]|left; lia].
Qed.

(** ** Padding *)

Lemma next_power_of_two_spec n :
  (∃ k, next_power_of_two n = 2 ^ k)%nat ∧ (n ≤ next_power_of_two n)%nat.
Proof.
  unfold next_power_of_two. destruct (Nat.leb_spec n 1).
  - split; [by exists 0%nat|lia].
  - split; [by eexists|]. pose proof (Nat.log2_spec (n - 1) ltac:(lia)). lia.
Qed.

Lemma pad_length ls : length (pad ls) = (2 ^ Nat.log2 (length (pad ls)))%nat.
Proof.
  unfold pad. rewrite length_app, length_replicate.
  destruct (next_power_of_two_spec (length ls)) as [[k Hk] Hle].
  replace (_ + _)%nat with (2 ^ k)%nat by lia. by rewrite Nat.log2_pow2 by lia.
Qed.

Lemma pad_lookup ls i h : ls !! i = Some h → pad ls !! i = Some h.
Proof. apply lookup_app_l_Some. Qed.

(** ** The built tree *)

(** The tree of a list of leaves: what [from_leaves] promises. *)
Record tree_of (ls : list Hash) (t : MerkleTree) : Prop := {
  tree_leaves : leaves t = pad ls;
  tree_height : height t = Nat.log2 (length (pad ls));
  tree_root : root t = tree_node (pad ls) (height t) 0;
  tree_nodes l i : (l ≤ height t)%nat → (i < 2 ^ (height t - l))%nat →
    nodes t !! (l, i) = Some (tree_node (pad ls) l i);
}.

Lemma from_leaves_tree ls :
  ls ≠ [] → ∃ t, from_leaves ls = Ok t ∧ tree_of ls t.
Proof.
  intros Hne. unfold from_leaves. destruct ls as [|x ls0]; [done|].
  set (ls := x :: ls0). set (h := Nat.log2 (length (pad ls))).
  destruct (result_foldM_seq (build_level h) (λ level, nodes_upto (pad ls) h level 0)
              1 h (store_leaves 0 (pad ls) ∅)) as (ns & Hns & Hok).
  - intros l i Hi Hl [?|[_ ?]]; [|lia]. assert (l = 0%nat) as -> by lia.
    rewrite Nat.sub_0_r in Hi. unfold h in Hi. rewrite <- pad_length in Hi.
    rewrite store_leaves_lookup, decide_True, Nat.sub_0_r by lia. simpl.
    destruct (lookup_lt_is_Some_2 (pad ls) i Hi) as [y Hy]. by rewrite Hy.
  - intros level s Hl. apply build_level_ok. lia.
  - cbv zeta. fold h. rewrite Hns. simpl.
    assert (∀ l i, (l ≤ h)%nat → (i < 2 ^ (h - l))%nat →
              ns !! (l, i) = Some (tree_node (pad ls) l i)) as Hall.
    { intros l i Hl Hi. apply Hok; [done|done|left; lia]. }
    rewrite Hall by (rewrite ?Nat.sub_diag; simpl; lia).
    eexists. split; [done|]. by constructor.
Qed.

(** ** Inclusion proofs *)

Lemma halves i : i = if Nat.even i then (2 * (i / 2))%nat else (2 * (i / 2) + 1)%nat.
Proof.
  rewrite <- Nat.div2_div. pose proof (Nat.div2_odd i) as Hi.
  rewrite <- Nat.negb_even in Hi. destruct (Nat.even i); simpl in *; lia.
Qed.

Lemma half_lt i n : (i < 2 ^ S n)%nat → (i / 2 < 2 ^ n)%nat.
Proof.
  rewrite Nat.pow_succ_r'. intros Hi. pose proof (halves i). destruct (Nat.even i); lia.
Qed.

Lemma sibling_lt i n : (i < 2 ^ S n)%nat → (sibling_index i < 2 ^ S n)%nat.
Proof.
  intros Hi. pose proof (half_lt i n Hi). pose proof (halves i).
  unfold sibling_index. rewrite Nat.pow_succ_r' in *. destruct (Nat.even i); lia.
Qed.

(** The parent of a node, from the node and its sibling. *)
Lemma tree_node_parent ls level i :
  (if Nat.even i then hash_pair (tree_node ls level i) (tree_node ls level (sibling_index i))
   else hash_pair (tree_node ls level (sibling_index i)) (tree_node ls level i))
  = tree_node ls (S level) (i / 2).
Proof.
  cbn [tree_node]. pose proof (halves i) as Hi. unfold sibling_index.
  destruct (Nat.even i); f_equal; f_equal; lia.
Qed.

Lemma climb_siblings t ls level n i :
  tree_of ls t → (level + n = height t)%nat → (i < 2 ^ n)%nat →
  climb (tree_node (pad ls) level i) i (proof_siblings t level n i) = root t.
Proof.
  intros Ht. revert level i. induction n as [|n IH]; intros level i Hn Hi; cbn [proof_siblings climb].
  - rewrite (tree_root _ _ Ht). replace level with (height t) by lia.
    f_equal. simpl in Hi. lia.
  - rewrite (tree_nodes _ _ Ht)
      by (replace (height t - level)%nat with (S n) by lia; eauto using sibling_lt with lia).
    rewrite tree_node_parent. apply IH; [lia|by apply half_lt].
Qed.

Lemma proof_siblings_length t level n i : length (proof_siblings t level n i) = n.
Proof. revert level i. induction n as [|n IH]; intros; simpl; auto. Qed.

Lemma pad_length_tree ls t : tree_of ls t → length (leaves t) = (2 ^ height t)%nat.
Proof. intros Ht. rewrite (tree_leaves _ _ Ht), (tree_height _ _ Ht). apply pad_length. Qed.

Lemma proof_complete ls t i p :
  tree_of ls t → proof t i = Some p →
  verify_proof p = true ∧ leaves t !! i = Some (leaf_hash p) ∧ proof_root p = root t ∧
  leaf_index p = i ∧ length (siblings p) = height t.
Proof.
  intros Ht. unfold proof. destruct (leaves t !! i) as [h|] eqn:Hi; [|done].
  intros [= <-]. split_and!; simpl; auto using proof_siblings_length.
  apply bool_decide_eq_true. simpl.
  rewrite <- (climb_siblings t ls 0 (height t) i Ht eq_refl).
  - simpl. by rewrite <- (tree_leaves _ _ Ht), Hi.
  - rewrite <- (pad_length_tree _ _ Ht). by eapply lookup_lt_Some.
Qed.

(** ** Soundness *)

(** What is hashed for a pair, on the way up from a leaf, and below a node. *)
Definition pair_input (l r : Hash) : list byte := as_bytes l ++ as_bytes r.

Fixpoint climb_inputs (current : Hash) (index : nat) (sibs : list Hash) : list (list byte) :=
  match sibs with
  | [] => []
  | s :: sibs' =>
      (if Nat.even index then pair_input current s else pair_input s current)
      :: climb_inputs (if Nat.even index then hash_pair current s else hash_pair s current)
           (index / 2) sibs'
  end.

Definition proof_inputs (p : MerkleProof) : list (list byte) :=
  climb_inputs (leaf_hash p) (leaf_index p) (siblings p).

Fixpoint tree_inputs (ls : list Hash) (level i : nat) : list (list byte) :=
  match level with
  | O => []
  | S level' =>
      pair_input (tree_node ls level' (2 * i)) (tree_node ls level' (2 * i + 1))
      :: tree_inputs ls level' (2 * i) ++ tree_inputs ls level' (2 * i + 1)
  end.

Lemma hash_pair_inj l r l' r' :
  hash_pair l r = hash_pair l' r' →
  (l = l' ∧ r = r') ∨ collide (pair_input l r) (pair_input l' r').
Proof.
  intros [E|?]%sha256_inj; [|by right]. left.
  apply app_inj_1 in E as [? ?]; [|by rewrite !as_bytes_length].
  eauto using as_bytes_inj.
Qed.

Lemma climb_inj cur cur' i sibs sibs' :
  length sibs = length sibs' → climb cur i sibs = climb cur' i sibs' →
  cur = cur' ∨ collision_among (climb_inputs cur i sibs) (climb_inputs cur' i sibs').
Proof.
  revert sibs' cur cur' i. induction sibs as [|s sibs IH]; intros [|s' sibs'] cur cur' i Hlen E;
    simpl in *; try done; [by left|].
  apply IH in E as [E|Hc]; [|right|lia].
  - destruct (Nat.even i); apply hash_pair_inj in E as [[??]|?]; auto;
      right; by apply collision_head.
  - eapply collision_among_mono; [done|set_solver..].
Qed.

Lemma proof_sound ls t p :
  tree_of ls t → proof_root p = root t → length (siblings p) = height t →
  (leaf_index p < 2 ^ height t)%nat → verify_proof p = true →
  ∃ q, proof t (leaf_index p) = Some q ∧
    (leaf_hash p = leaf_hash q ∨ collision_among (proof_inputs p) (proof_inputs q)).
Proof.
  intros Ht Hroot Hlen Hi Hv%bool_decide_eq_true. rewrite Hroot in Hv.
  rewrite <- (climb_siblings t ls 0 (height t) (leaf_index p) Ht eq_refl Hi) in Hv.
  apply climb_inj in Hv; [|by rewrite proof_siblings_length].
  assert (leaf_index p < length (pad ls))%nat as Hlt.
  { rewrite <- (tree_leaves _ _ Ht), (pad_length_tree _ _ Ht). done. }
  destruct (lookup_lt_is_Some_2 _ _ Hlt) as [x Hx]. unfold proof.
  rewrite (tree_leaves _ _ Ht), Hx. eexists. split; [reflexivity|].
  simpl in Hv. rewrite Hx in Hv. exact Hv.
Qed.

(** The root determines the leaves of a level, up to a collision. *)
Lemma tree_node_binds ls ls' h k :
  tree_node ls h k = tree_node ls' h k →
  (∀ i, (k * 2 ^ h ≤ i < (k + 1) * 2 ^ h)%nat →
     default HASH_ZERO (ls !! i) = default HASH_ZERO (ls' !! i)) ∨
  collision_among (tree_inputs ls h k) (tree_inputs ls' h k).
Proof.
  revert k. induction h as [|h IH]; intros k E.
  - left. intros i Hi. assert (i = k) as -> by (simpl in Hi; lia). done.
  - cbn [tree_node] in E. cbn [tree_inputs].
    apply hash_pair_inj in E as [[E1 E2]|?];
      [|right; by apply collision_head].
    destruct (IH _ E1) as [H1|?];
      [|right; eapply collision_among_mono; [done|set_solver..]].
    destruct (IH _ E2) as [H2|?];
      [|right; eapply collision_among_mono; [done|set_solver..]].
    left. intros i Hi.
    replace (2 ^ S h)%nat with (2 ^ h + 2 ^ h)%nat in Hi by (simpl; lia).
    destruct (decide (i < (2 * k + 1) * 2 ^ h)%nat); [apply H1; lia|apply H2; lia].
Qed.

(** ** Properties *)

Lemma next_power_bounds n :
  n ≠ 0%nat → (n ≤ next_power_of_two n < 2 * n)%nat.
Proof.
  intros Hn. unfold next_power_of_two. destruct (Nat.leb_spec n 1); [lia|].
  pose proof (Nat.log2_spec (n - 1)) as [H1 H2]; [lia|]. rewrite Nat.pow_succ_r' in *. lia.
Qed.

(** C30: construction refines the reference tree: for every non-empty list of
    leaves, [from_leaves] never hits an [unwrap] on a missing node; the leaves of
    the tree it returns are the given ones followed by as many zero hashes as make
    them two to the height of the tree, less than twice as many as were given; it has
    the reference root, and at every level and position exactly the reference node. *)
Theorem merkle_tree_refines ls :
  ls ≠ [] →
  ∃ t, from_leaves ls = Ok t ∧
    leaves t = pad ls ∧ length (leaves t) = (2 ^ height t)%nat ∧
    pad ls = ls ++ replicate (2 ^ height t - length ls) HASH_ZERO ∧
    (length ls ≤ 2 ^ height t < 2 * length ls)%nat ∧
    root t = tree_node (pad ls) (height t) 0 ∧
    ∀ l i, (l ≤ height t)%nat → (i < 2 ^ (height t - l))%nat →
      nodes t !! (l, i) = Some (tree_node (pad ls) l i).
Proof.
  intros Hne. destruct (from_leaves_tree ls Hne) as (t & Ht & Hok). exists t.
  pose proof (pad_length_tree _ _ Hok) as Hl. pose proof (tree_leaves _ _ Hok) as Hp.
  assert (length ls ≠ 0%nat) as Hn by (by destruct ls).
  pose proof (next_power_bounds (length ls) Hn) as Hb.
  assert (2 ^ height t = next_power_of_two (length ls))%nat as Hh.
  { rewrite <- Hl, Hp. unfold pad. rewrite length_app, length_replicate. lia. }
  split_and!; try done; try (rewrite Hh; lia); [|by destruct Hok..].
  unfold pad. by rewrite Hh.
Qed.

(** Inclusion proofs are complete: for every leaf given to [from_leaves],
    [proof] at its index answers a proof of that very leaf, with one sibling
    per level of the tree, that [MerkleProof::verify] accepts against the
    tree's root. *)
Theorem merkle_proof_complete ls i h :
  ls !! i = Some h →
  ∃ t p, from_leaves ls = Ok t ∧ proof t i = Some p ∧
    leaf_hash p = h ∧ leaf_index p = i ∧ proof_root p = root t ∧
    length (siblings p) = height t ∧ verify_proof p = true.
Proof.
  intros Hi. destruct (from_leaves_tree ls) as (t & Ht & Hok); [by intros ->|].
  destruct (proof t i) as [p|] eqn:Hp.
  - pose proof (proof_complete _ _ _ _ Hok Hp) as (Hv & Hl & Hr & Hx & Hs).
    exists t, p. rewrite (tree_leaves _ _ Hok), (pad_lookup _ _ _ Hi) in Hl.
    by simplify_eq.
  - unfold proof in Hp. by rewrite (tree_leaves _ _ Hok), (pad_lookup _ _ _ Hi) in Hp.
Qed.

(** Inclusion proofs are sound: a proof that verifies against the root of a
    tree, with the tree's number of levels and an index of its lowest level,
    proves a leaf that the tree really has at that index, unless two of the texts
    hashed on its way and on the way of the tree's own proof collide. *)
Theorem merkle_proof_sound ls t p :
  ls ≠ [] → from_leaves ls = Ok t →
  proof_root p = root t → length (siblings p) = height t →
  (leaf_index p < 2 ^ height t)%nat → verify_proof p = true →
  pad ls !! leaf_index p = Some (leaf_hash p) ∨
  ∃ q, proof t (leaf_index p) = Some q ∧ collision_among (proof_inputs p) (proof_inputs q).
Proof.
  intros (t' & Ht' & Hok)%from_leaves_tree Ht Hr Hs Hi Hv.
  rewrite Ht in Ht'. injection Ht' as <-.
  rewrite <- (tree_leaves _ _ Hok).
  destruct (proof_sound _ _ _ Hok Hr Hs Hi Hv) as (q & Hq & [->|?]); [left|by eauto].
  unfold proof in Hq. destruct (leaves t !! leaf_index p); by simplify_eq.
Qed.

(** The number of siblings is not checked by [verify]: the root itself passes
    as a leaf of its own tree, with an empty path. *)
Theorem merkle_root_verifies_as_leaf t :
  verify_proof {| leaf_index := 0; leaf_hash := root t; siblings := []; proof_root := root t |}
  = true.
Proof. unfold verify_proof. by rewrite bool_decide_true. Qed.
End Merkle.
