(* ===== verification/AuditStore.v ===== *)
(** * Audit trail: the persistent store

    Models [bitemporal/audit/store.rs] over the interface of an embedded
    key-value store: the class [KvStore] has RocksDB's operations on column
    families, [KvStoreOk] their documented laws.  Every operation can fail. *)

From Stdlib Require Import ZArith Lia Ascii.
From stdpp Require Import base numbers option strings gmap vector list.
From S2P Require Import Prelude Bytes AuditEntry.

(** The column families. *)
Inductive ColumnFamily : Type := CF_ENTRIES | CF_METADATA | CF_ARCHIVE.

#[global] Instance ColumnFamily_eq_dec : EqDecision ColumnFamily.
Proof. solve_decision. Defined.

(** The errors of the store. *)
Inductive store_error : Type := DbError | DecodeError | BadMetadata.

(** An open database with its three column families. *)
Class KvStore := {
  DB : Type;
  get_cf : DB → ColumnFamily → list byte → result store_error (option (list byte));
  put_cf : DB → ColumnFamily → list byte → list byte → result store_error DB;
  delete_cf : DB → ColumnFamily → list byte → result store_error DB;
}.

(** A read after a successful write or delete sees it; other keys keep what they
    had. *)
Class KvStoreOk `{KvStore} : Prop := {
  get_put_same db cf k v db' : put_cf db cf k v = Ok db' → get_cf db' cf k = Ok (Some v);
  get_put_other db cf k v db' cf' k' :
    put_cf db cf k v = Ok db' → (cf', k') ≠ (cf, k) → get_cf db' cf' k' = get_cf db cf' k';
  get_delete_same db cf k db' : delete_cf db cf k = Ok db' → get_cf db' cf k = Ok None;
  get_delete_other db cf k db' cf' k' :
    delete_cf db cf k = Ok db' → (cf', k') ≠ (cf, k) → get_cf db' cf' k' = get_cf db cf' k';
}.

(** ** Keys *)

(** Metadata keys: the ASCII codes of their names. *)
Definition ascii_bytes (s : string) : list byte := String.list_byte_of_string s.
Definition KEY_HEAD_HASH : list byte := ascii_bytes "head_hash".
Definition KEY_CHAIN_LENGTH : list byte := ascii_bytes "chain_length".
Definition KEY_GENESIS_HASH : list byte := ascii_bytes "genesis_hash".
Definition KEY_PUBLIC_KEY : list byte := ascii_bytes "public_key".

Section Store.
Context `{AE : AuditExternals} `{KV : KvStore}.

(** [AuditStore::append]. *)
Definition store_append (db : DB) (index : Z) (e : SignedAuditEntry)
    : result store_error DB :=
  let entry_bytes := signed_to_bytes e in
  db ← put_cf db CF_ENTRIES (to_be_bytes index) entry_bytes;
  db ← put_cf db CF_METADATA KEY_HEAD_HASH (as_bytes (entry_hash e));
  put_cf db CF_METADATA KEY_CHAIN_LENGTH (to_be_bytes (index + 1)).

Definition decode_entry (bytes : list byte) : result store_error (option SignedAuditEntry) :=
  match signed_from_bytes bytes with
  | Some e => Ok (Some e)
  | None => Err DecodeError
  end.

(** [AuditStore::get]: the main family, then the archive. *)
Definition store_get (db : DB) (index : Z) : result store_error (option SignedAuditEntry) :=
  let key := to_be_bytes index in
  m ← get_cf db CF_ENTRIES key;
  match m with
  | Some bytes => decode_entry bytes
  | None =>
      a ← get_cf db CF_ARCHIVE key;
      match a with
      | Some bytes => decode_entry bytes
      | None => Ok None
      end
  end.

(** [AuditStore::length]: [copy_from_slice] panics on another length. *)
Definition store_length (db : DB) : result store_error Z :=
  m ← get_cf db CF_METADATA KEY_CHAIN_LENGTH;
  match m with
  | Some bytes => if (length bytes =? 8)%nat then Ok (from_be_bytes bytes) else Panic
  | None => Ok 0%Z
  end.

(** [AuditStore::get_range]; a missing entry is skipped. *)
Definition get_indices (db : DB) (idxs : list Z) : result store_error (list SignedAuditEntry) :=
  result_foldM (λ acc i,
    m ← store_get db i;
    Ok (match m with Some e => acc ++ [e] | None => acc end)) [] idxs.

Definition get_range (db : DB) (start fin : Z) : result store_error (list SignedAuditEntry) :=
  get_indices db (seqZ start (fin - start)).

(** [AuditStore::get_all]. *)
Definition store_get_all (db : DB) : result store_error (list SignedAuditEntry) :=
  len ← store_length db;
  get_indices db (seqZ 0 len).

Definition hash_metadata (db : DB) (key : list byte) : result store_error (option Hash) :=
  m ← get_cf db CF_METADATA key;
  match m with
  | Some bytes =>
      match hash_from_bytes bytes with Some h => Ok (Some h) | None => Err BadMetadata end
  | None => Ok None
  end.

(** [AuditStore::head_hash], [genesis_hash] and [public_key]. *)
Definition store_head_hash (db : DB) : result store_error (option Hash) :=
  hash_metadata db KEY_HEAD_HASH.
Definition store_genesis_hash (db : DB) : result store_error (option Hash) :=
  hash_metadata db KEY_GENESIS_HASH.
Definition store_public_key (db : DB) : result store_error (option Bytes32) :=
  hash_metadata db KEY_PUBLIC_KEY.

(** [AuditStore::set_genesis_hash] and [set_public_key]. *)
Definition set_genesis_hash (db : DB) (h : Hash) : result store_error DB :=
  put_cf db CF_METADATA KEY_GENESIS_HASH (as_bytes h).
Definition set_public_key (db : DB) (pk : Bytes32) : result store_error DB :=
  put_cf db CF_METADATA KEY_PUBLIC_KEY (vec_to_list pk).

(** One iteration of the loop of [AuditStore::compact]. *)
Definition compact_one (st : DB * nat) (i : Z) : result store_error (DB * nat) :=
  let '(db, compacted) := st in
  let key := to_be_bytes i in
  m ← get_cf db CF_ENTRIES key;
  match m with
  | Some bytes =>
      db ← put_cf db CF_ARCHIVE key bytes;
      db ← delete_cf db CF_ENTRIES key;
      Ok (db, S compacted)
  | None => Ok (db, compacted)
  end.

(** [AuditStore::compact]. *)
Definition compact (db : DB) (keep_recent : Z) : result store_error (DB * nat) :=
  len ← store_length db;
  if (len <=? keep_recent)%Z then Ok (db, 0%nat)
  else result_foldM compact_one (db, 0%nat) (seqZ 0 (len - keep_recent)).
End Store.

Section StoreFacts.
Context `{AE : AuditExternals} `{!AuditExternalsOk} `{KV : KvStore} `{!KvStoreOk}.

(** The abstract content of a store: its length record and its entries, each
    in the main family or in the archive. *)
Record store_holds (db : DB) (es : list SignedAuditEntry) : Prop := {
  holds_length : store_length db = Ok (Z.of_nat (length es));
  holds_get (i : nat) e : es !! i = Some e → store_get db (Z.of_nat i) = Ok (Some e);
}.

(** A store just opened on an empty directory. *)
Definition fresh_store (db : DB) : Prop := ∀ cf k, get_cf db cf k = Ok None.

Lemma fresh_store_holds db : fresh_store db → store_holds db [].
Proof.
  intros Hf. split; [|done]. unfold store_length. by rewrite Hf.
Qed.

(** Entries and metadata live in different families. *)
Lemma put_metadata_get db k v db' i :
  put_cf db CF_METADATA k v = Ok db' → store_get db' i = store_get db i.
Proof. intros Hp. unfold store_get. by rewrite !(get_put_other _ _ _ _ _ _ _ Hp) by done. Qed.

Lemma put_metadata_length db k v db' :
  put_cf db CF_METADATA k v = Ok db' → k ≠ KEY_CHAIN_LENGTH →
  store_length db' = store_length db.
Proof.
  intros Hp Hk. unfold store_length.
  by rewrite (get_put_other _ _ _ _ _ CF_METADATA KEY_CHAIN_LENGTH Hp) by congruence.
Qed.

Lemma put_metadata_holds db k v db' es :
  put_cf db CF_METADATA k v = Ok db' → k ≠ KEY_CHAIN_LENGTH →
  store_holds db es → store_holds db' es.
Proof.
  intros Hp Hk [Hl Hg]. split.
  - by rewrite (put_metadata_length _ _ _ _ Hp Hk).
  - intros i e Hi. rewrite (put_metadata_get _ _ _ _ _ Hp). auto.
Qed.

Lemma put_entry_get db i e db' j :
  (0 ≤ i < 2 ^ 64)%Z → (0 ≤ j < 2 ^ 64)%Z →
  put_cf db CF_ENTRIES (to_be_bytes i) (signed_to_bytes e) = Ok db' →
  store_get db' j = if decide (i = j) then Ok (Some e) else store_get db j.
Proof.
  intros Hi Hj Hp. unfold store_get. case_decide as E.
  - subst j. rewrite (get_put_same _ _ _ _ _ Hp). simpl. unfold decode_entry.
    unfold signed_from_bytes, signed_to_bytes. by rewrite unbincode_bincode_entry.
  - assert (to_be_bytes j ≠ to_be_bytes i) by (intros E'; by apply E, to_be_bytes_inj).
    by rewrite !(get_put_other _ _ _ _ _ _ _ Hp) by congruence.
Qed.

Lemma store_append_holds db es e db' :
  store_holds db es → (Z.of_nat (length es) + 1 < 2 ^ 64)%Z →
  store_append db (Z.of_nat (length es)) e = Ok db' → store_holds db' (es ++ [e]).
Proof.
  intros [Hl Hg] Hlen Hap. unfold store_append in Hap.
  apply result_bind_Ok in Hap as (db1 & H1 & Hap).
  apply result_bind_Ok in Hap as (db2 & H2 & H3). split.
  - unfold store_length. rewrite (get_put_same _ _ _ _ _ H3).
    rewrite length_app, Nat2Z.inj_add.
    change (Ok (from_be_bytes (to_be_bytes (Z.of_nat (length es) + 1)))
            = Ok (E := store_error) (Z.of_nat (length es) + 1)%Z).
    by rewrite from_to_be_bytes by lia.
  - intros i e' Hi. pose proof (lookup_lt_Some _ _ _ Hi) as Hlt.
    rewrite length_app in Hlt. simpl in Hlt.
    rewrite (put_metadata_get _ _ _ _ _ H3), (put_metadata_get _ _ _ _ _ H2).
    rewrite (put_entry_get db (Z.of_nat (length es)) e db1 (Z.of_nat i)) by (done || lia).
    case_decide as E.
    + assert (i = length es) as -> by lia.
      rewrite lookup_app_r, Nat.sub_diag in Hi by lia. simpl in Hi. by simplify_eq.
    + apply Hg. rewrite lookup_app_l in Hi by lia. done.
Qed.

Lemma get_indices_holds db (es : list SignedAuditEntry) start acc :
  (∀ (i : nat) e, es !! i = Some e → store_get db (start + Z.of_nat i) = Ok (Some e)) →
  result_foldM (λ acc i,
    m ← store_get db i;
    Ok (match m with Some e => acc ++ [e] | None => acc end)) acc
    (seqZ start (Z.of_nat (length es))) = Ok (acc ++ es).
Proof.
  revert start acc. induction es as [|e es IH]; intros start acc Hg.
  - simpl. by rewrite app_nil_r.
  - cbn [length]. rewrite seqZ_cons by lia. cbn [result_foldM].
    pose proof (Hg 0%nat e eq_refl) as Hhd. rewrite Z.add_0_r in Hhd. rewrite Hhd. simpl.
    replace (Z.pred _) with (Z.of_nat (length es)) by lia.
    rewrite IH, <- app_assoc; [done|].
    intros i e' Hi. rewrite <- (Hg (S i) e' Hi). f_equal. lia.
Qed.

Lemma store_get_all_holds db es : store_holds db es → store_get_all db = Ok es.
Proof.
  intros [Hl Hg]. unfold store_get_all. rewrite Hl. simpl.
  unfold get_indices. by rewrite (get_indices_holds db es 0 []).
Qed.

(** ** Compaction *)

Lemma compact_one_get db n i db' n' j :
  (0 ≤ i < 2 ^ 64)%Z → (0 ≤ j < 2 ^ 64)%Z →
  compact_one (db, n) i = Ok (db', n') →
  store_get db' j = store_get db j ∧ store_length db' = store_length db.
Proof.
  intros Hi Hj Hc. unfold compact_one in Hc.
  apply result_bind_Ok in Hc as ([bytes|] & Hm & Hc); [|by simplify_eq].
  apply result_bind_Ok in Hc as (db1 & H1 & Hc).
  apply result_bind_Ok in Hc as (db2 & H2 & ?). simplify_eq.
  assert (Hlen : store_length db' = store_length db).
  { unfold store_length.
    by rewrite (get_delete_other _ _ _ _ _ _ H2), (get_put_other _ _ _ _ _ _ _ H1) by done. }
  split; [|done]. unfold store_get. destruct (decide (i = j)) as [->|E].
  - rewrite (get_delete_same _ _ _ _ H2), Hm. simpl.
    rewrite (get_delete_other _ _ _ _ _ _ H2), (get_put_same _ _ _ _ _ H1) by done. done.
  - assert (to_be_bytes j ≠ to_be_bytes i) by (intros E'; by apply E, to_be_bytes_inj).
    rewrite !(get_delete_other _ _ _ _ _ _ H2) by congruence.
    by rewrite !(get_put_other _ _ _ _ _ _ _ H1) by congruence.
Qed.

Lemma compact_loop_get idxs st db' n' j :
  Forall (λ i, 0 ≤ i < 2 ^ 64)%Z idxs → (0 ≤ j < 2 ^ 64)%Z →
  result_foldM compact_one st idxs = Ok (db', n') →
  store_get db' j = store_get st.1 j ∧ store_length db' = store_length st.1.
Proof.
  intros HF Hj. revert st. induction HF as [|i idxs Hi _ IH]; intros [db n] Hc; cbn [result_foldM] in Hc.
  - by simplify_eq.
  - destruct (compact_one (db, n) i) as [[db1 n1]| |] eqn:H1; [|done..].
    apply IH in Hc as [Hg Hl]. simpl in *.
    destruct (compact_one_get _ _ _ _ _ j Hi Hj H1) as [Hg1 Hl1]. split; congruence.
Qed.

Lemma compact_holds db es keep db' n :
  store_holds db es → (Z.of_nat (length es) < 2 ^ 64)%Z → (0 ≤ keep)%Z →
  compact db keep = Ok (db', n) → store_holds db' es.
Proof.
  intros [Hl Hg] Hlen Hk Hc. unfold compact in Hc. rewrite Hl in Hc. simpl in Hc.
  destruct (Z.of_nat (length es) <=? keep)%Z; [by simplify_eq|].
  assert (HF : Forall (λ i, 0 ≤ i < 2 ^ 64)%Z (seqZ 0 (Z.of_nat (length es) - keep))).
  { apply Forall_forall. intros i Hi%elem_of_seqZ. lia. }
  split.
  - destruct (compact_loop_get _ _ _ _ 0%Z HF ltac:(lia) Hc) as [_ ->]. done.
  - intros i e Hi. pose proof (lookup_lt_Some _ _ _ Hi).
    destruct (compact_loop_get _ _ _ _ (Z.of_nat i) HF ltac:(lia) Hc) as [-> _]. auto.
Qed.

(** A database without I/O errors. *)
Definition kv_reliable : Prop :=
  (∀ db cf k, ∃ m, get_cf db cf k = Ok m) ∧
  (∀ db cf k v, ∃ db', put_cf db cf k v = Ok db') ∧
  (∀ db cf k, ∃ db', delete_cf db cf k = Ok db').

Lemma compact_total db es keep :
  kv_reliable → store_holds db es → ∃ r, compact db keep = Ok r.
Proof.
  intros (Hget & Hput & Hdel) [Hl _]. unfold compact. rewrite Hl. simpl.
  destruct (Z.of_nat (length es) <=? keep)%Z; [eauto|].
  generalize (db, 0%nat). induction (seqZ 0 _) as [|i idxs IH]; intros [db0 n0]; [simpl; eauto|].
  cbn [result_foldM]. unfold compact_one.
  destruct (Hget db0 CF_ENTRIES (to_be_bytes i)) as [[bytes|] ->]; simpl; [|eauto].
  destruct (Hput db0 CF_ARCHIVE (to_be_bytes i) bytes) as [db1 ->]. simpl.
  destruct (Hdel db1 CF_ENTRIES (to_be_bytes i)) as [db2 ->]. simpl. eauto.
Qed.

(** Compaction loses nothing: after [AuditStore::compact] has moved old
    entries to the archive family, reading the whole store still gives every
    entry, in order; and on a database without I/O errors it does return. *)
Theorem compact_keeps_entries db es keep :
  store_holds db es → (Z.of_nat (length es) < 2 ^ 64)%Z → (0 ≤ keep)%Z →
  (kv_reliable → ∃ r, compact db keep = Ok r) ∧
  ∀ db' n, compact db keep = Ok (db', n) → store_get_all db' = Ok es.
Proof.
  intros Hes Hlen Hk. split; [eauto using compact_total|].
  intros db' n Hc. apply store_get_all_holds. by eapply compact_holds.
Qed.
End StoreFacts.
