(* ===== verification/AuditChain.v ===== *)
(** * Audit trail: the append-only chain and its verifiers

    Models [bitemporal/audit/chain.rs] and [bitemporal/audit/verifier.rs].  The
    chain's [RwLock] serialises its operations: each is a function on the
    chain's state. *)

From Stdlib Require Import ZArith Lia Ascii.
From stdpp Require Import base numbers option strings gmap vector list.
From S2P Require Import Prelude Bytes AuditEntry AuditMerkle AuditStore.

Section Chain.
Context `{AE : AuditExternals} `{KV : KvStore}.

(** [AuditChain]. *)
Record AuditChain : Type := {
  entries : list SignedAuditEntry;
  signing_key : SigningKey;
  genesis_hash : Hash;
  store : option DB;
}.

Inductive chain_error : Type :=
  | FirstEntryNotGenesis
  | EntryFailedVerification (i : nat)
  | HashChainBroken (i : nat) (expected got : Hash)
  | DeserializeFailed
  | PublicKeyMismatch
  | MerkleFailed
  | StoreFailed (e : store_error).

Definition with_store {A} (m : result store_error A) : result chain_error A :=
  match m with
  | Ok a => Ok a
  | Err e => Err (StoreFailed e)
  | Panic => Panic
  end.

(** [AuditChain::new]. *)
Definition new_chain (sk : SigningKey) : AuditChain :=
  {| entries := []; signing_key := sk; genesis_hash := HASH_ZERO; store := None |}.

(** [AuditChain::new_with_store], on an opened database. *)
Definition new_with_store (sk : SigningKey) (db : DB) : result chain_error AuditChain :=
  db ← with_store (set_genesis_hash db HASH_ZERO);
  db ← with_store (set_public_key db (vk_to_bytes (verifying_key sk)));
  Ok {| entries := []; signing_key := sk; genesis_hash := HASH_ZERO; store := Some db |}.

(** [AuditChain::from_store], on an opened database. *)
Definition from_store (sk : SigningKey) (db : DB) : result chain_error AuditChain :=
  es ← with_store (store_get_all db);
  gh ← with_store (store_genesis_hash db);
  stored_pk ← with_store (store_public_key db);
  let current_pk := vk_to_bytes (verifying_key sk) in
  let chain := {| entries := es; signing_key := sk; genesis_hash := default HASH_ZERO gh;
                  store := Some db |} in
  match stored_pk with
  | Some pk => if bool_decide (pk = current_pk) then Ok chain else Err PublicKeyMismatch
  | None => Ok chain
  end.

(** [AuditChain::last] and [head_hash]. *)
Definition chain_last (c : AuditChain) : option SignedAuditEntry := last (entries c).
Definition head_hash (c : AuditChain) : Hash :=
  match chain_last c with Some e => entry_hash e | None => genesis_hash c end.

Definition set_entries (c : AuditChain) (es : list SignedAuditEntry) : AuditChain :=
  {| entries := es; signing_key := signing_key c; genesis_hash := genesis_hash c;
     store := store c |}.

(** [AuditChain::append]: a failed write panics. *)
Definition append (c : AuditChain) (e : AuditEntry)
    : result chain_error (AuditChain * SignedAuditEntry) :=
  let previous_hash :=
    match last (entries c) with Some s => entry_hash s | None => genesis_hash c end in
  let signed := sign e (signing_key c) previous_hash in
  let index := Z.of_nat (length (entries c)) in
  match store c with
  | Some db =>
      match store_append db index signed with
      | Ok db' =>
          Ok ({| entries := entries c ++ [signed]; signing_key := signing_key c;
                 genesis_hash := genesis_hash c; store := Some db' |}, signed)
      | _ => Panic
      end
  | None => Ok (set_entries c (entries c ++ [signed]), signed)
  end.

(** [AuditChain::len], [is_empty], [get], [get_all]. *)
Definition chain_len (c : AuditChain) : nat := length (entries c).
Definition chain_is_empty (c : AuditChain) : bool :=
  match entries c with [] => true | _ => false end.
Definition chain_get (c : AuditChain) (i : nat) : option SignedAuditEntry := entries c !! i.
Definition chain_get_all (c : AuditChain) : list SignedAuditEntry := entries c.

(** The loop of [AuditChain::verify]: [prev] is the entry before index [i]. *)
Fixpoint verify_loop (i : nat) (prev : option SignedAuditEntry) (es : list SignedAuditEntry)
    : result chain_error () :=
  match es with
  | [] => Ok ()
  | e :: es' =>
      if negb (verify_signed e) then Err (EntryFailedVerification i)
      else
        match prev with
        | Some p =>
            if bool_decide (previous_hash e = entry_hash p)
            then verify_loop (S i) (Some e) es'
            else Err (HashChainBroken i (entry_hash p) (previous_hash e))
        | None => verify_loop (S i) (Some e) es'
        end
  end.

Definition verify_entries (genesis : Hash) (es : list SignedAuditEntry)
    : result chain_error () :=
  match es with
  | [] => Ok ()
  | e0 :: _ =>
      if bool_decide (previous_hash e0 = genesis) then verify_loop 0 None es
      else Err FirstEntryNotGenesis
  end.

(** [AuditChain::verify]. *)
Definition verify_chain (c : AuditChain) : result chain_error () :=
  verify_entries (genesis_hash c) (entries c).

(** [AuditChain::export] and [AuditChain::import]. *)
Definition export (c : AuditChain) : list byte := bincode_entries (entries c).
Definition import (c : AuditChain) (bytes : list byte) : result chain_error AuditChain :=
  match unbincode_entries bytes with
  | None => Err DeserializeFailed
  | Some imported =>
      let temp_chain := set_entries (new_chain (signing_key c)) imported in
      _ ← verify_chain temp_chain;
      Ok (set_entries c (entries temp_chain))
  end.

(** [AuditChain::public_key]. *)
Definition chain_public_key (c : AuditChain) : Bytes32 :=
  vk_to_bytes (verifying_key (signing_key c)).

(** [build_merkle_tree], [merkle_root], [merkle_proof], [batch_merkle_proof]. *)
Definition build_merkle_tree (c : AuditChain) : result unit MerkleTree :=
  from_entries (entries c).
Definition merkle_root (c : AuditChain) : result unit Hash :=
  t ← build_merkle_tree c; Ok (root t).
Definition merkle_proof (c : AuditChain) (index : nat) : result unit (option MerkleProof) :=
  if (chain_len c <=? index)%nat then Ok None
  else t ← build_merkle_tree c; Ok (proof t index).
Definition batch_merkle_proof (c : AuditChain) (indices : list nat) : result unit BatchProof :=
  t ← build_merkle_tree c;
  Ok {| batch_root := root t; proofs := omap (proof t) indices |}.

(** [AuditChain::verify_with_merkle]. *)
Definition verify_with_merkle (c : AuditChain) : result chain_error () :=
  match entries c with
  | [] => Ok ()
  | _ =>
      match batch_merkle_proof c (seq 0 (length (entries c))) with
      | Ok batch => if verify_batch batch then Ok () else Err MerkleFailed
      | _ => Panic
      end
  end.

(** ** The detailed verifier *)

(** [VerificationError] and [VerificationResult]. *)
Inductive VerificationError : Type :=
  | InvalidSignature (index : nat)
  | InvalidEntryHash (index : nat)
  | BrokenChain (index : nat) (expected actual : string)
  | BadGenesisLink (actual : string)
  | DuplicateHash (index : nat) (hash : string)
  | TimestampRegression (index : nat) (current previous : Z).

Record VerificationResult : Type := {
  valid : bool;
  entries_verified : nat;
  errors : list VerificationError;
}.

Definition success (n : nat) : VerificationResult :=
  {| valid := true; entries_verified := n; errors := [] |}.
Definition failure (n : nat) (errs : list VerificationError) : VerificationResult :=
  {| valid := false; entries_verified := n; errors := errs |}.

Definition push_if (b : bool) (e : VerificationError) : list VerificationError :=
  if b then [e] else [].

(** The errors of one iteration of [ChainVerifier::verify], in order. *)
Definition entry_errors (i : nat) (prev : option SignedAuditEntry) (seen : gset string)
    (e : SignedAuditEntry) : list VerificationError :=
  let hash_hex := to_hex (entry_hash e) in
  push_if (negb (verify_signature e)) (InvalidSignature i) ++
  push_if (negb (verify_entry_hash e)) (InvalidEntryHash i) ++
  push_if (bool_decide (hash_hex ∈ seen)) (DuplicateHash i hash_hex) ++
  match prev with
  | Some p =>
      push_if (negb (bool_decide (previous_hash e = entry_hash p)))
        (BrokenChain i (to_hex (entry_hash p)) (to_hex (previous_hash e))) ++
      push_if (timestamp (entry e) <? timestamp (entry p))%Z
        (TimestampRegression i (timestamp (entry e)) (timestamp (entry p)))
  | None => []
  end.

(** Its loop. *)
Fixpoint verifier_loop (i : nat) (prev : option SignedAuditEntry) (seen : gset string)
    (es : list SignedAuditEntry) : list VerificationError :=
  match es with
  | [] => []
  | e :: es' =>
      entry_errors i prev seen e ++
      verifier_loop (S i) (Some e) ({[ to_hex (entry_hash e) ]} ∪ seen) es'
  end.

Definition verification_result (n : nat) (errs : list VerificationError)
    : VerificationResult :=
  match errs with [] => success n | _ => failure n errs end.

(** [ChainVerifier::verify]. *)
Definition verifier_verify (c : AuditChain) : VerificationResult :=
  match entries c with
  | [] => success 0
  | e0 :: _ =>
      verification_result (length (entries c))
        (push_if (negb (bool_decide (previous_hash e0 = HASH_ZERO)))
           (BadGenesisLink (to_hex (previous_hash e0))) ++
         verifier_loop 0 None ∅ (entries c))
  end.

(** [ChainVerifier::verify_entry], [verify_linkage] and [verify_range]. *)
Definition verify_entry (e : SignedAuditEntry) : bool := verify_signed e.
Definition verify_linkage (prev curr : SignedAuditEntry) : bool :=
  bool_decide (previous_hash curr = entry_hash prev).

Fixpoint range_loop (i : nat) (prev : option SignedAuditEntry) (es : list SignedAuditEntry)
    : list VerificationError :=
  match es with
  | [] => []
  | e :: es' =>
      push_if (negb (verify_entry e)) (InvalidSignature i) ++
      match prev with
      | Some p =>
          push_if (negb (verify_linkage p e))
            (BrokenChain i (to_hex (entry_hash p)) (to_hex (previous_hash e)))
      | None => []
      end ++ range_loop (S i) (Some e) es'
  end.

Definition verify_range (es : list SignedAuditEntry) : VerificationResult :=
  match es with
  | [] => success 0
  | _ => verification_result (length es) (range_loop 0 None es)
  end.

(** [ChainVerifier::compute_merkle_root] and [verify_merkle_proof]. *)
Definition compute_merkle_root (c : AuditChain) : result unit Hash := merkle_root c.
Definition verify_merkle_proof (p : MerkleProof) : bool := verify_proof p.
End Chain.
