(* ===== verification/AuditChainFacts.v ===== *)
(** * Audit trail: properties of the chain

    What [verify] accepts, that every operation keeps the chain verifiable, what
    survives a restart, what tampering is detected, and what the two verifiers
    and the Merkle root mean for one another. *)

From stdpp Require Import base numbers option strings gmap vector list.
From S2P Require Import Prelude Bytes AuditEntry AuditMerkle AuditStore AuditChain.

From Stdlib Require Import ZArith Lia Ascii Sorting.Sorted.

Section ChainFacts.
Context `{AE : AuditExternals} `{!AuditExternalsOk} `{KV : KvStore}.

(** ** The abstract chain *)

(** Each entry names the hash of the one before it, the first one [prev]. *)
Fixpoint linked (prev : Hash) (es : list SignedAuditEntry) : Prop :=
  match es with
  | [] => True
  | e :: es' => previous_hash e = prev ∧ linked (entry_hash e) es'
  end.

Definition chain_valid (genesis : Hash) (es : list SignedAuditEntry) : Prop :=
  Forall (λ e, verify_signed e = true) es ∧ linked genesis es.

Lemma linked_snoc prev es e :
  linked prev (es ++ [e]) ↔
  linked prev es ∧
  previous_hash e = match last es with Some s => entry_hash s | None => prev end.
Proof.
  revert prev. induction es as [|x es IH]; intros prev; cbn [linked app].
  - simpl. tauto.
  - rewrite IH, last_cons. destruct (last es); tauto.
Qed.

Lemma verify_loop_Ok i p es :
  verify_loop i (Some p) es = Ok () ↔
  Forall (λ e, verify_signed e = true) es ∧ linked (entry_hash p) es.
Proof.
  revert i p. induction es as [|e es IH]; intros i p; simpl; [by split|].
  rewrite Forall_cons. destruct (verify_signed e); simpl; [|split; [done|naive_solver]].
  case_bool_decide as Hp; [rewrite IH; naive_solver|]. split; [done|naive_solver].
Qed.

Lemma verify_entries_Ok g es : verify_entries g es = Ok () ↔ chain_valid g es.
Proof.
  unfold verify_entries, chain_valid. destruct es as [|e es]; [split; [by repeat constructor|done]|].
  rewrite Forall_cons. cbn [verify_loop linked].
  case_bool_decide as Hg; [|split; [done|naive_solver]].
  destruct (verify_signed e); simpl; [|split; [done|naive_solver]].
  rewrite verify_loop_Ok. naive_solver.
Qed.

(** What [AuditChain::verify] accepts: exactly the chains all of whose
    entries have a matching entry hash and a valid signature, whose first
    entry names the genesis hash and whose every other entry names the hash
    of the entry before it. *)
Theorem verify_chain_iff c :
  verify_chain c = Ok () ↔
  Forall (λ e, verify_entry_hash e = true ∧ verify_signature e = true) (entries c) ∧
  linked (genesis_hash c) (entries c).
Proof.
  unfold verify_chain. rewrite verify_entries_Ok. unfold chain_valid.
  by setoid_rewrite andb_true_iff.
Qed.

(** ** Operations *)

Lemma sign_valid g es e sk :
  chain_valid g es →
  chain_valid g (es ++ [sign e sk match last es with Some s => entry_hash s | None => g end]).
Proof.
  intros [HF Hl]. split.
  - apply Forall_app. split; [done|]. apply Forall_singleton, sign_verifies.
  - apply linked_snoc. done.
Qed.

Lemma append_inv c e c' s :
  append c e = Ok (c', s) →
  s = sign e (signing_key c) (head_hash c) ∧ entries c' = entries c ++ [s] ∧
  signing_key c' = signing_key c ∧ genesis_hash c' = genesis_hash c ∧
  match store c with
  | Some db => ∃ db', store_append db (Z.of_nat (length (entries c))) s = Ok db' ∧
                      store c' = Some db'
  | None => store c' = None
  end.
Proof.
  unfold append, head_hash, chain_last. destruct (store c) as [db|] eqn:Hst.
  - destruct (store_append _ _ _) as [db'| |] eqn:Hs; intros ?; simplify_eq/=. eauto 10.
  - intros ?. by simplify_eq/=.
Qed.

Lemma import_inv c bytes c' :
  import c bytes = Ok c' →
  chain_valid HASH_ZERO (entries c') ∧ genesis_hash c' = genesis_hash c ∧
  signing_key c' = signing_key c ∧ store c' = store c.
Proof.
  unfold import. destruct (unbincode_entries bytes) as [es|]; [|done].
  intros (u & Hv & ?)%result_bind_Ok. simplify_eq. destruct u. simpl.
  by apply verify_entries_Ok in Hv.
Qed.

(** The chains a process can reach from a new one by the operations that
    change them. *)
Inductive reachable : AuditChain → Prop :=
  | reach_new sk : reachable (new_chain sk)
  | reach_new_store sk db c : new_with_store sk db = Ok c → reachable c
  | reach_append c e c' s : reachable c → append c e = Ok (c', s) → reachable c'
  | reach_import c bytes c' : reachable c → import c bytes = Ok c' → reachable c'.

Lemma new_with_store_inv sk db c :
  new_with_store sk db = Ok c →
  entries c = [] ∧ genesis_hash c = HASH_ZERO ∧ signing_key c = sk.
Proof.
  unfold new_with_store. intros (db1 & _ & H1)%result_bind_Ok.
  apply result_bind_Ok in H1 as (db2 & _ & ?). by simplify_eq/=.
Qed.

Lemma reachable_valid c :
  reachable c → genesis_hash c = HASH_ZERO ∧ chain_valid HASH_ZERO (entries c).
Proof.
  induction 1 as [sk|sk db c Hn|c e c' s _ [Hg HV] Ha|c bytes c' _ [Hg HV] Hi].
  - split; [done|]. split; [constructor|done].
  - apply new_with_store_inv in Hn as (He & Hg & _). rewrite He. split; [done|].
    split; [constructor|done].
  - apply append_inv in Ha as (-> & He & _ & Hg' & _). rewrite He, Hg', Hg. split; [done|].
    unfold head_hash, chain_last. rewrite Hg. by apply sign_valid.
  - apply import_inv in Hi as (HV' & Hg' & _). by rewrite Hg'.
Qed.

(** C2: every chain stays verifiable: whatever sequence of appends and
    successful imports a process performs on a new chain, in memory or
    persistent, [AuditChain::verify] accepts the result. *)
Theorem reachable_chains_verify c : reachable c → verify_chain c = Ok ().
Proof.
  intros [Hg HV]%reachable_valid. unfold verify_chain. rewrite Hg. by apply verify_entries_Ok.
Qed.

Lemma store_set_entries c es : store (set_entries c es) = store c.
Proof. done. Qed.

Lemma export_import_Ok c c' :
  genesis_hash c = HASH_ZERO → verify_chain c = Ok () →
  import c' (export c) = Ok (set_entries c' (entries c)).
Proof.
  unfold import, export, verify_chain. intros -> Hv.
  rewrite unbincode_bincode_entries. unfold verify_chain. simpl. by rewrite Hv.
Qed.

(** Export and import round trip: what any verifiable chain with the
    standard genesis exports, every chain imports, whoever's signing key
    either of them has; the importing chain gets exactly those entries, and
    bytes that do not decode to a verifiable chain leave no new state. *)
Theorem export_import_roundtrip c c' bytes :
  (genesis_hash c = HASH_ZERO → verify_chain c = Ok () →
     import c' (export c) = Ok (set_entries c' (entries c))) ∧
  (∀ c'', import c' bytes = Ok c'' →
     ∃ es, unbincode_entries bytes = Some es ∧ verify_entries HASH_ZERO es = Ok () ∧
           c'' = set_entries c' es).
Proof.
  split; [apply export_import_Ok|].
  unfold import. intros c''. destruct (unbincode_entries bytes) as [es|]; [|done].
    intros ([] & Hv & ?)%result_bind_Ok. simplify_eq. eauto.
Qed.
End ChainFacts.

(** ** Persistence *)

Section Persistence.
Context `{AE : AuditExternals} `{!AuditExternalsOk} `{KV : KvStore} `{!KvStoreOk}.

(** The chains of a process that only appends to a new persistent chain. *)
Inductive appended (sk : SigningKey) : AuditChain → Prop :=
  | appended_new db c : fresh_store db → new_with_store sk db = Ok c → appended sk c
  | appended_append c e c' s :
      appended sk c → append c e = Ok (c', s) → appended sk c'.

(** The store of such a chain holds its entries, its genesis and its key. *)
Definition store_mirrors (sk : SigningKey) (c : AuditChain) : Prop :=
  ∃ db, store c = Some db ∧ store_holds db (entries c) ∧
    store_genesis_hash db = Ok (Some HASH_ZERO) ∧
    store_public_key db = Ok (Some (vk_to_bytes (verifying_key sk))).

Lemma hash_metadata_put db k v db' key :
  put_cf db CF_METADATA k v = Ok db' → key ≠ k →
  hash_metadata db' key = hash_metadata db key.
Proof.
  intros Hp Hk. unfold hash_metadata.
  by rewrite (get_put_other _ _ _ _ _ CF_METADATA key Hp) by congruence.
Qed.

Lemma hash_metadata_put_same db k h db' :
  put_cf db CF_METADATA k (as_bytes h) = Ok db' → hash_metadata db' k = Ok (Some h).
Proof.
  intros Hp. unfold hash_metadata. rewrite (get_put_same _ _ _ _ _ Hp). simpl.
  by rewrite hash_from_as_bytes.
Qed.

Lemma store_append_metadata db i e db' key :
  store_append db i e = Ok db' → key ≠ KEY_HEAD_HASH → key ≠ KEY_CHAIN_LENGTH →
  hash_metadata db' key = hash_metadata db key.
Proof.
  intros (db1 & H1 & Hap)%result_bind_Ok Hk1 Hk2.
  apply result_bind_Ok in Hap as (db2 & H2 & H3).
  rewrite (hash_metadata_put _ _ _ _ _ H3 Hk2), (hash_metadata_put _ _ _ _ _ H2 Hk1).
  unfold hash_metadata. by rewrite (get_put_other _ _ _ _ _ CF_METADATA key H1) by done.
Qed.

Lemma with_store_Ok {A} (m : result store_error A) a : with_store m = Ok a ↔ m = Ok a.
Proof. destruct m; simpl; split; intros ?; by simplify_eq. Qed.

Lemma new_with_store_mirrors sk db c :
  fresh_store db → new_with_store sk db = Ok c → store_mirrors sk c.
Proof.
  intros Hf. unfold new_with_store. intros (db1 & H1 & Hn)%result_bind_Ok.
  apply result_bind_Ok in Hn as (db2 & H2 & ?). simplify_eq.
  apply with_store_Ok in H1, H2. exists db2. simpl. split_and!; [done| | |].
  - eapply put_metadata_holds; [exact H2|done|].
    eapply put_metadata_holds; [exact H1|done|]. by apply fresh_store_holds.
  - unfold store_genesis_hash. rewrite (hash_metadata_put _ _ _ _ _ H2) by done.
    by eapply hash_metadata_put_same.
  - by eapply hash_metadata_put_same.
Qed.

Lemma append_mirrors sk c e c' s :
  (Z.of_nat (length (entries c)) + 1 < 2 ^ 64)%Z →
  store_mirrors sk c → append c e = Ok (c', s) → store_mirrors sk c'.
Proof.
  intros Hlen (db & Hst & Hh & Hg & Hk) Ha.
  apply append_inv in Ha as (_ & He & _ & _ & Hs). rewrite Hst in Hs.
  destruct Hs as (db' & Hap & Hst'). exists db'. rewrite He. split_and!; [done| | |].
  - by eapply store_append_holds.
  - unfold store_genesis_hash. rewrite (store_append_metadata _ _ _ _ _ Hap) by done. exact Hg.
  - unfold store_public_key. rewrite (store_append_metadata _ _ _ _ _ Hap) by done. exact Hk.
Qed.

Lemma appended_reachable sk c : appended sk c → reachable c ∧ signing_key c = sk.
Proof.
  induction 1 as [db c _ Hn|c e c' s _ [Hr Hsk] Ha].
  - split; [by eapply reach_new_store|]. by apply new_with_store_inv in Hn as (_ & _ & ?).
  - split; [by eapply reach_append|]. apply append_inv in Ha as (_ & _ & Hk & _). congruence.
Qed.

Lemma appended_mirrors sk c :
  appended sk c → (Z.of_nat (length (entries c)) < 2 ^ 64)%Z → store_mirrors sk c.
Proof.
  induction 1 as [db c Hf Hn|c e c' s _ IH Ha]; intros Hlen; [by eapply new_with_store_mirrors|].
  pose proof (append_inv _ _ _ _ Ha) as (_ & He & _). rewrite He, length_app in Hlen.
  simpl in Hlen. eapply append_mirrors; [|apply IH; lia|done]. lia.
Qed.

Lemma from_store_mirrors sk c db :
  store_mirrors sk c → store c = Some db →
  from_store sk db = Ok {| entries := entries c; signing_key := sk;
                           genesis_hash := HASH_ZERO; store := Some db |}.
Proof.
  intros (db' & Hst & Hh & Hg & Hk) Hdb. simplify_eq. unfold from_store.
  rewrite (store_get_all_holds _ _ Hh), Hg, Hk. simpl. by rewrite bool_decide_true.
Qed.

(** C35: crash recovery: when a process has created a persistent chain on a fresh
    store and appended to it, reopening its store with the same key, by
    [AuditChain::from_store], succeeds and gives a chain with the same
    entries, the same genesis hash and the same key, which verifies; with a
    key of other public bytes it is refused. *)
Theorem recovery_restores_chain sk c db sk' :
  appended sk c → (Z.of_nat (length (entries c)) < 2 ^ 64)%Z → store c = Some db →
  (∃ c', from_store sk db = Ok c' ∧ entries c' = entries c ∧
     genesis_hash c' = genesis_hash c ∧ signing_key c' = signing_key c ∧
     verify_chain c' = Ok ()) ∧
  (vk_to_bytes (verifying_key sk') ≠ vk_to_bytes (verifying_key sk) →
     from_store sk' db = Err PublicKeyMismatch).
Proof.
  intros Ha Hlen Hdb. pose proof (appended_mirrors _ _ Ha Hlen) as Hm.
  pose proof (appended_reachable _ _ Ha) as [Hr Hsk].
  apply reachable_valid in Hr as [Hg HV]. split.
  - eexists. split; [by apply (from_store_mirrors sk c db)|]. simpl. split_and!; try done.
    by apply verify_entries_Ok.
  - intros Hne. destruct Hm as (db' & Hst & Hh & Hgen & Hk). simplify_eq. unfold from_store.
    rewrite (store_get_all_holds _ _ Hh), Hgen, Hk. simpl. by rewrite bool_decide_false.
Qed.
End Persistence.

(** ** Tampering *)

Section Tampering.
Context `{AE : AuditExternals} `{!AuditExternalsOk} `{KV : KvStore}.

(** The hash the entry after [es] must name. *)
Definition link_after (g : Hash) (es : list SignedAuditEntry) : Hash :=
  match last es with Some s => entry_hash s | None => g end.

Lemma verify_loop_skip i p es1 es2 :
  Forall (λ e, verify_signed e = true) es1 → linked (entry_hash p) es1 →
  verify_loop i (Some p) (es1 ++ es2)
  = verify_loop (i + length es1) (Some (default p (last es1))) es2.
Proof.
  intros HF. revert i p. induction HF as [|e es1 He HF IH]; intros i p; simpl.
  - by rewrite Nat.add_0_r.
  - intros [Hp Hl]. rewrite He, bool_decide_true by done. simpl. rewrite IH by done.
    rewrite last_cons. f_equal; [lia|]. by destruct (last es1).
Qed.

Lemma verify_entries_skip g es1 s es2 :
  chain_valid g es1 → es1 ≠ [] →
  verify_entries g (es1 ++ s :: es2)
  = verify_loop (length es1) (last es1) (s :: es2).
Proof.
  intros [HF Hl] Hne. destruct es1 as [|e es1]; [done|]. inversion_clear HF as [|? ? He HF'].
  destruct Hl as [Hg Hl]. unfold verify_entries. cbn [app].
  rewrite bool_decide_true by done. cbn [verify_loop]. rewrite He. cbn [negb].
  rewrite verify_loop_skip by done. rewrite last_cons. cbn [length plus].
  by destruct (last es1).
Qed.

(** A forged entry in a valid position is reported at its index. *)
Lemma forged_entry_reported g es1 s es2 :
  chain_valid g es1 → previous_hash s = link_after g es1 → verify_signed s = false →
  verify_entries g (es1 ++ s :: es2) = Err (EntryFailedVerification (length es1)).
Proof.
  intros HV Hp Hs. destruct (decide (es1 = [])) as [->|Hne].
  - simpl in *. rewrite bool_decide_true, Hs by done. done.
  - rewrite verify_entries_skip by done. cbn [verify_loop]. by rewrite Hs.
Qed.

(** An entry that names another hash is reported as such. *)
Lemma misplaced_entry_reported g es1 s es2 :
  chain_valid g es1 → verify_signed s = true → previous_hash s ≠ link_after g es1 →
  verify_entries g (es1 ++ s :: es2) =
  Err (if decide (es1 = []) then FirstEntryNotGenesis
       else HashChainBroken (length es1) (link_after g es1) (previous_hash s)).
Proof.
  intros HV Hs Hp. case_decide as Hne.
  - subst es1. simpl in *. by rewrite bool_decide_false.
  - rewrite verify_entries_skip by done. cbn [verify_loop]. rewrite Hs. cbn [negb].
    unfold link_after in *. destruct (last es1) eqn:E; [by rewrite bool_decide_false|].
    by apply last_None in E.
Qed.

Lemma chain_valid_app g es1 s es2 :
  chain_valid g (es1 ++ s :: es2) →
  chain_valid g es1 ∧ verify_signed s = true ∧ previous_hash s = link_after g es1 ∧
  chain_valid (entry_hash s) es2.
Proof.
  intros [HF Hl]. apply Forall_app in HF as [HF1 HF2]. inversion_clear HF2.
  assert (linked g es1 ∧ previous_hash s = link_after g es1 ∧ linked (entry_hash s) es2)
    as (? & ? & ?); [|done].
  clear HF1 H0. revert g Hl. induction es1 as [|x es1 IH]; intros g [Hx Hl]; simpl in *; [done|].
  apply IH in Hl as (? & Hs & ?). split_and!; try done.
  unfold link_after in *. rewrite last_cons. by destruct (last es1).
Qed.

(** An entry whose content was replaced, hash and signature kept. *)
Definition with_content (s : SignedAuditEntry) (e : AuditEntry) : SignedAuditEntry :=
  {| entry := e; entry_hash := entry_hash s; previous_hash := previous_hash s;
     signature := signature s; public_key := public_key s |}.

(** C1: tampering with a verifiable chain is detected, and reported where it
    happened: after replacing the content of the entry at index [i] by any
    other content, [verify] reports entry [i], unless the JSON texts of those two
    contents differ and have the same SHA-256 digest; after deleting an entry that another one follows, [verify]
    reports the broken link at its place, unless the deleted entry's hash is
    the one its follower's new predecessor (or the genesis) has. *)
Theorem tampering_detected g es1 s es2 :
  verify_entries g (es1 ++ s :: es2) = Ok () →
  (∀ e, e ≠ entry s →
     verify_entries g (es1 ++ with_content s e :: es2)
     = Err (EntryFailedVerification (length es1)) ∨
     collide (entry_json e) (entry_json (entry s))) ∧
  (∀ y es3, es2 = y :: es3 → entry_hash s ≠ link_after g es1 →
     verify_entries g (es1 ++ es2) =
     Err (if decide (es1 = []) then FirstEntryNotGenesis
          else HashChainBroken (length es1) (link_after g es1) (entry_hash s))).
Proof.
  intros (HV & Hs & Hp & HV2)%verify_entries_Ok%chain_valid_app. split.
  - intros e Hne. destruct (verify_signed (with_content s e)) eqn:Hs'.
    + right. apply andb_true_iff in Hs as [Hs _]. apply andb_true_iff in Hs' as [Hs' _].
      destruct (verified_hash_binds _ _ Hs' Hs eq_refl) as [?|?]; done.
    + left. by apply forged_entry_reported.
  - intros y es3 -> Hne. destruct HV2 as [HF [Hy _]]. inversion_clear HF.
    rewrite <- Hy in *. by apply misplaced_entry_reported.
Qed.

(** ** The two verifiers *)

Lemma to_hex_inj h h' : to_hex h = to_hex h' → h = h'.
Proof.
  unfold to_hex. intros E. apply as_bytes_inj.
  assert (Some (as_bytes h) = Some (as_bytes h')) as [=]; [|done].
  by rewrite <- !hex_decode_encode, E.
Qed.

Definition stamp (e : SignedAuditEntry) : Z := timestamp (entry e).

Lemma push_if_nil b e : push_if b e = [] ↔ b = false.
Proof. by destruct b. Qed.

Lemma negb_bool_decide_false P `{Decision P} : negb (bool_decide P) = false ↔ P.
Proof. rewrite negb_false_iff. apply bool_decide_eq_true. Qed.

Lemma entry_errors_nil i prev seen e :
  entry_errors i prev seen e = [] ↔
  verify_signed e = true ∧ to_hex (entry_hash e) ∉ seen ∧
  match prev with
  | Some p => previous_hash e = entry_hash p ∧ (stamp p ≤ stamp e)%Z
  | None => True
  end.
Proof.
  unfold entry_errors, verify_signed. rewrite !app_nil, !push_if_nil, !negb_false_iff.
  rewrite bool_decide_eq_false, andb_true_iff.
  destruct prev as [p|]; [|tauto].
  rewrite app_nil, !push_if_nil, negb_bool_decide_false, Z.ltb_ge. unfold stamp. tauto.
Qed.

Lemma verifier_loop_nil i prev seen es :
  verifier_loop i prev seen es = [] ↔
  Forall (λ e, verify_signed e = true) es ∧
  NoDup (entry_hash <$> es) ∧ (∀ e, e ∈ es → to_hex (entry_hash e) ∉ seen) ∧
  match prev with
  | Some p => linked (entry_hash p) es ∧ Sorted Z.le (stamp <$> p :: es)
  | None => match es with
            | [] => True
            | e :: es' => linked (entry_hash e) es' ∧ Sorted Z.le (stamp <$> es)
            end
  end.
Proof.
  revert i prev seen. induction es as [|e es IH]; intros i prev seen.
  - simpl. split; [|done]. intros _. split_and!; try constructor; [set_solver|].
    destruct prev; [|done]. split; [done|]. by repeat constructor.
  - cbn [verifier_loop]. rewrite app_nil, entry_errors_nil, IH, !fmap_cons, Forall_cons, NoDup_cons.
    assert (Hs : ∀ p : SignedAuditEntry, Sorted Z.le (stamp p :: stamp e :: (stamp <$> es)) ↔
               (stamp p ≤ stamp e)%Z ∧ Sorted Z.le (stamp e :: (stamp <$> es))).
    { intros p. split.
      - intros Hsrt. inversion Hsrt as [|? ? ? Hd]; subst. by inversion Hd; subst.
      - intros [? ?]. constructor; [done|]. by constructor. }
    assert (Hin : entry_hash e ∉ entry_hash <$> es ↔
               ∀ e', e' ∈ es → to_hex (entry_hash e') ≠ to_hex (entry_hash e)).
    { rewrite list_elem_of_fmap. split.
      - intros Hn e' He' E%to_hex_inj. apply Hn. by exists e'.
      - intros Hn (e' & E & He'). apply (Hn e' He'). by rewrite E. }
    rewrite Hin. setoid_rewrite elem_of_union. setoid_rewrite elem_of_singleton.
    setoid_rewrite elem_of_cons.
    destruct prev as [p|]; cbn [linked]; [rewrite !fmap_cons, Hs|]; naive_solver.
Qed.

Lemma verification_result_valid n errs :
  valid (verification_result n errs) = true ↔ errs = [].
Proof. by destruct errs. Qed.

(** The detailed verifier and [AuditChain::verify] agree: on a chain with
    the standard genesis, [ChainVerifier::verify] reports no error exactly
    when [AuditChain::verify] accepts the chain, no two entries have the same
    hash, and the timestamps never decrease. *)
Theorem verifier_agrees c :
  genesis_hash c = HASH_ZERO →
  valid (verifier_verify c) = true ↔
  verify_chain c = Ok () ∧ NoDup (entry_hash <$> entries c) ∧
  Sorted Z.le (stamp <$> entries c).
Proof.
  intros Hg. unfold verify_chain. rewrite verify_entries_Ok, Hg. unfold verifier_verify.
  destruct (entries c) as [|e es].
  - split; [|done]. intros _. split_and!; repeat constructor.
  - rewrite verification_result_valid, app_nil, push_if_nil, negb_bool_decide_false.
    rewrite verifier_loop_nil. unfold chain_valid. cbn [linked]. set_solver.
Qed.
End Tampering.

(** ** Merkle roots of chains *)

Section MerkleChain.
Context `{AE : AuditExternals} `{!AuditExternalsOk} `{KV : KvStore}.

Lemma from_entries_tree es :
  es ≠ [] → ∃ t, from_entries es = Ok t ∧ tree_of (map entry_hash es) t.
Proof.
  intros Hne. destruct es as [|e es]; [done|]. unfold from_entries. by apply from_leaves_tree.
Qed.

Lemma merkle_root_tree c t :
  entries c ≠ [] → build_merkle_tree c = Ok t →
  tree_of (map entry_hash (entries c)) t.
Proof.
  intros (t' & Ht' & Hok)%from_entries_tree Ht. unfold build_merkle_tree in Ht.
  rewrite Ht in Ht'. by injection Ht' as ->.
Qed.

(** What is hashed for the Merkle root of some entries, and for their contents. *)
Definition root_inputs (es : list SignedAuditEntry) : list (list byte) :=
  let ls := pad (map entry_hash es) in tree_inputs ls (Nat.log2 (length ls)) 0.

Definition content_inputs (es : list SignedAuditEntry) : list (list byte) :=
  map (λ s, entry_json (entry s)) es.

Lemma equal_roots_equal_hashes es es' t t' :
  length es = length es' → tree_of (map entry_hash es) t → tree_of (map entry_hash es') t' →
  root t = root t' →
  map entry_hash es = map entry_hash es' ∨ collision_among (root_inputs es) (root_inputs es').
Proof.
  intros Hlen Ht Ht' Hr.
  assert (Hp : length (pad (map entry_hash es)) = length (pad (map entry_hash es'))).
  { unfold pad. by rewrite !length_app, !length_replicate, !length_map, Hlen. }
  assert (Hh : height t = height t')
    by (by rewrite (tree_height _ _ Ht), (tree_height _ _ Ht'), Hp).
  rewrite (tree_root _ _ Ht), (tree_root _ _ Ht'), <- Hh in Hr.
  apply tree_node_binds in Hr as [Hall|?];
    [left|right; unfold root_inputs; by rewrite <- Hp, <- (tree_height _ _ Ht)].
  apply list_eq. intros i. destruct (decide (i < length es)%nat) as [Hi|Hi].
  - destruct (lookup_lt_is_Some_2 (map entry_hash es) i) as [x Hx]; [by rewrite length_map|].
    destruct (lookup_lt_is_Some_2 (map entry_hash es') i) as [x' Hx'];
      [by rewrite length_map, <- Hlen|].
    specialize (Hall i). rewrite (pad_lookup _ _ _ Hx), (pad_lookup _ _ _ Hx') in Hall.
    rewrite Hx, Hx'. f_equal. apply Hall. simpl. split; [lia|].
    rewrite (tree_height _ _ Ht), <- pad_length. rewrite Nat.add_0_r.
    unfold pad. rewrite length_app, length_map. lia.
  - rewrite !lookup_ge_None_2; [done|rewrite length_map; lia..].
Qed.

(** Verified entries with the same hashes have the same contents. *)
Lemma equal_hashes_equal_entries es es' :
  Forall (λ s, verify_signed s = true) es → Forall (λ s, verify_signed s = true) es' →
  map entry_hash es = map entry_hash es' →
  map entry es = map entry es' ∨ collision_among (content_inputs es) (content_inputs es').
Proof.
  intros HF. revert es'. induction HF as [|s es Hs _ IH]; intros [|s' es'] HF' E; try done;
    [by left|]. simpl in E. injection E as E1 E2. inversion_clear HF' as [|? ? Hs' HF''].
  destruct (IH _ HF'' E2) as [Heq|?];
    [|right; eapply collision_among_mono; [done|set_solver..]].
  apply andb_true_iff in Hs as [Hs _], Hs' as [Hs' _].
  destruct (verified_hash_binds _ _ Hs Hs' E1) as [Heq'|?].
  - left. simpl. by rewrite Heq, Heq'.
  - right. by apply collision_head.
Qed.

(** The Merkle root commits to the history: two verifiable chains of the
    same length with the same [merkle_root] hold the same audit entries in
    the same order, unless two of the texts hashed for their contents and their
    roots collide. *)
Theorem merkle_root_binds c c' r :
  verify_chain c = Ok () → verify_chain c' = Ok () → chain_len c = chain_len c' →
  merkle_root c = Ok r → merkle_root c' = Ok r →
  map entry (entries c) = map entry (entries c') ∨
  collision_among (content_inputs (entries c) ++ root_inputs (entries c))
    (content_inputs (entries c') ++ root_inputs (entries c')).
Proof.
  unfold verify_chain, chain_len. intros [HF _]%verify_entries_Ok [HF' _]%verify_entries_Ok Hlen
    (t & Ht & [= <-])%result_bind_Ok (t' & Ht' & [= Hr])%result_bind_Ok.
  destruct (decide (entries c = [])) as [E|Hne].
  { left. rewrite E in *. by destruct (entries c'). }
  assert (Hne' : entries c' ≠ []).
  { intros E. rewrite E in Hlen. by destruct (entries c). }
  apply (merkle_root_tree _ _ Hne) in Ht. apply (merkle_root_tree _ _ Hne') in Ht'.
  destruct (equal_roots_equal_hashes _ _ _ _ Hlen Ht Ht' (eq_sym Hr)) as [E|?];
    [|right; eapply collision_among_mono; [done|set_solver..]].
  destruct (equal_hashes_equal_entries _ _ HF HF' E) as [?|?]; [by left|].
  right. eapply collision_among_mono; [done|set_solver..].
Qed.

(** ** What the checks do not cover *)

Lemma batch_of_tree_verifies ls t indices :
  tree_of ls t → verify_batch {| batch_root := root t; proofs := omap (proof t) indices |} = true.
Proof.
  intros Ht. apply forallb_forall. intros p Hp%list_elem_of_In. simpl in *.
  apply list_elem_of_omap in Hp as (i & _ & Hp).
  destruct (proof_complete _ _ _ _ Ht Hp) as (Hv & _ & Hr & _).
  by rewrite bool_decide_true, Hv.
Qed.

(** [verify_with_merkle] checks proofs it has just derived from the entries
    themselves: it accepts every chain, whatever its content. *)
Theorem verify_with_merkle_accepts_all c : verify_with_merkle c = Ok ().
Proof.
  unfold verify_with_merkle. destruct (entries c) as [|e es] eqn:E; [done|].
  destruct (from_entries_tree (entries c)) as (t & Ht & Hok); [by rewrite E|].
  assert (∀ idxs, batch_merkle_proof c idxs
            = Ok {| batch_root := root t; proofs := omap (proof t) idxs |}) as ->
    by (intros; unfold batch_merkle_proof, build_merkle_tree; by rewrite Ht).
  by rewrite (batch_of_tree_verifies _ _ _ Hok).
Qed.

(** The head hash does not depend on the entries before the last one: two
    chains with different first entries have the same head. *)
Theorem head_hash_ignores_history (sk : SigningKey) (a b x : AuditEntry) :
  ∃ c c', verify_chain c = Ok () ∧ verify_chain c' = Ok () ∧
    map entry (entries c) = [a; x] ∧ map entry (entries c') = [b; x] ∧
    head_hash c = head_hash c'.
Proof.
  assert (Hv : ∀ y, verify_chain (set_entries (new_chain sk)
      [sign y sk HASH_ZERO; sign x sk (compute_hash y)]) = Ok ()).
  { intros y. unfold verify_chain. apply verify_entries_Ok. split; [|done].
    repeat constructor; apply sign_verifies. }
  eexists _, _. split_and!; [apply (Hv a)|apply (Hv b)|done..].
Qed.
End MerkleChain.
