(* ===== verification/AuditSample.v ===== *)
(** * Audit trail: a concrete instance and the trail run on it

    An executable stand-in for the crates (a toy digest, signatures that are
    keyed digests, encodings derived from enumerations of the data, an
    association list as database), on which the hypotheses of the audit
    trail's theorems are discharged and the theorems applied. *)

From stdpp Require Import base numbers option strings gmap vector countable list.
From S2P Require Import Prelude Bytes AuditEntry AuditMerkle AuditStore AuditChain.
From S2P Require Import AuditChainFacts.

From Stdlib Require Import ZArith Lia Ascii Sorting.Sorted.

(** ** Encodings *)

#[local] Instance sample_chrono : ChronoTypes := {| DateTimeUtc := Z |}.

#[local] Instance TransactionId_eq_dec : EqDecision TransactionId.
Proof. solve_decision. Defined.
#[local] Instance AuditOperation_eq_dec : EqDecision AuditOperation.
Proof. solve_decision. Defined.
#[local] Instance AuditEntry_eq_dec : EqDecision AuditEntry.
Proof. solve_decision. Defined.
#[local] Instance Bytes64_eq_dec : EqDecision Bytes64 := vec_dec.
#[local] Instance SignedAuditEntry_eq_dec : EqDecision SignedAuditEntry.
Proof. solve_decision. Defined.

#[local] Instance byte_countable : Countable byte.
Proof. refine (inj_countable Byte.to_N Byte.of_N _). apply Byte.of_to_N. Defined.

#[local] Instance AuditOperation_countable : Countable AuditOperation.
Proof.
  refine (inj_countable'
    (λ o, match o with Insert => 0 | Update => 1 | Delete => 2 | Query => 3 end)%N
    (λ n, match n with 0 => Insert | 1 => Update | 2 => Delete | _ => Query end)%N _).
  by intros [].
Defined.

(** Records as lists of the codes of their fields. *)
Definition entry_codes (e : AuditEntry) : list positive :=
  [encode (tx_seq (tx_id e)); encode (tx_timestamp (tx_id e) : Z); encode (tx_node_id (tx_id e));
   encode (operation e); encode (node_id e); encode (timestamp e); encode (subject e);
   encode (predicate e); encode (object e); encode (initiator e)].

Definition entry_of_codes (l : list positive) : option AuditEntry :=
  match l with
  | [a; b; c; d; e; f; g; h; i; j] =>
      seq ← decode a; ts ← decode b; nd ← decode c; op ← decode d; n ← decode e;
      t ← decode f; s ← decode g; p ← decode h; o ← decode i; u ← decode j;
      Some {| tx_id := {| tx_seq := seq; tx_timestamp := ts : Z; tx_node_id := nd |};
              operation := op; node_id := n; timestamp := t; subject := s; predicate := p;
              object := o; initiator := u |}
  | _ => None
  end.

#[local] Instance AuditEntry_countable : Countable AuditEntry.
Proof.
  refine (inj_countable entry_codes entry_of_codes _).
  intros [[a b c] d e f g h i j]. unfold entry_codes, entry_of_codes.
  by rewrite !decode_encode.
Defined.

#[local] Instance Hash_countable : Countable Hash :=
  inj_countable vec_to_list (copy_from_slice 32) (copy_from_slice_vec 32).
#[local] Instance Bytes64_countable : Countable Bytes64 :=
  inj_countable vec_to_list (copy_from_slice 64) (copy_from_slice_vec 64).

Definition signed_codes (s : SignedAuditEntry) : list positive :=
  [encode (entry s); encode (entry_hash s); encode (previous_hash s); encode (signature s);
   encode (public_key s : Hash)].

Definition signed_of_codes (l : list positive) : option SignedAuditEntry :=
  match l with
  | [a; b; c; d; e] =>
      x ← decode a; h ← decode b; p ← decode c; g ← decode d; k ← decode e;
      Some {| entry := x; entry_hash := h; previous_hash := p; signature := g;
              public_key := k : Hash |}
  | _ => None
  end.

#[local] Instance SignedAuditEntry_countable : Countable SignedAuditEntry.
Proof.
  refine (inj_countable signed_codes signed_of_codes _).
  intros [a b c d e]. unfold signed_codes, signed_of_codes.
  by rewrite !decode_encode.
Defined.

(** ** Digests and hexadecimal text *)

Definition toy_state (data : list byte) : Z :=
  foldl (λ acc b, (acc * 1000003 + byte_val b + 7) mod 2 ^ 256)%Z 5381%Z data.

Definition toy_digest (n : nat) (data : list byte) : vec byte n :=
  let state := toy_state data in
  fun_to_vec (λ i : fin n, low_byte (Z.shiftr state (3 * Z.of_nat (fin_to_nat i)))).

Definition hex_digit (n : N) : ascii :=
  if (n <? 10)%N then ascii_of_N (48 + n) else ascii_of_N (87 + n).

Definition hex_value (c : ascii) : option N :=
  let n := N_of_ascii c in
  if ((48 <=? n) && (n <=? 57))%N then Some (n - 48)%N
  else if ((97 <=? n) && (n <=? 102))%N then Some (n - 87)%N
  else None.

Fixpoint toy_hex_encode (bs : list byte) : string :=
  match bs with
  | [] => EmptyString
  | b :: bs' =>
      String (hex_digit (Byte.to_N b / 16))
        (String (hex_digit (Byte.to_N b mod 16)) (toy_hex_encode bs'))
  end.

Fixpoint toy_hex_decode (s : string) : option (list byte) :=
  match s with
  | EmptyString => Some []
  | String c (String d s') =>
      hi ← hex_value c;
      lo ← hex_value d;
      b ← Byte.of_N (16 * hi + lo);
      bs ← toy_hex_decode s';
      Some (b :: bs)
  | _ => None
  end.

Lemma toy_hex_decode_encode bs : toy_hex_decode (toy_hex_encode bs) = Some bs.
Proof.
  induction bs as [|b bs IH]; [done|]. cbn [toy_hex_encode toy_hex_decode]. rewrite IH.
  by destruct b.
Qed.

Lemma toy_hex_encode_length bs : String.length (toy_hex_encode bs) = (2 * length bs)%nat.
Proof. induction bs as [|b bs IH]; simpl; [done|]. rewrite IH. simpl. lia. Qed.

(** ** The instances *)

#[local] Instance sample_audit : AuditExternals := {|
  audit_chrono := sample_chrono;
  sha256 := toy_digest 32;
  SigningKey := Bytes32;
  VerifyingKey := Bytes32;
  verifying_key := id;
  vk_to_bytes := id;
  vk_from_bytes := Some;
  ed_sign := λ sk m, toy_digest 64 (m ++ vec_to_list sk);
  ed_verify := λ vk m s, bool_decide (s = toy_digest 64 (m ++ vec_to_list vk));
  entry_json := λ e, pos_bytes (encode e);
  bincode_entry := λ s, pos_bytes (encode s);
  unbincode_entry := λ b, decode (bytes_pos b);
  bincode_entries := λ l, pos_bytes (encode l);
  unbincode_entries := λ b, decode (bytes_pos b);
  hex_encode := toy_hex_encode;
  hex_decode := toy_hex_decode;
|}.

#[local] Instance sample_audit_ok : AuditExternalsOk.
Proof.
  constructor; simpl.
  - done.
  - intros sk m. by apply bool_decide_eq_true.
  - intros e e' E. apply (f_equal bytes_pos) in E. rewrite !bytes_pos_bytes in E.
    by apply (inj encode) in E.
  - intros s. by rewrite bytes_pos_bytes, decode_encode.
  - intros l. by rewrite bytes_pos_bytes, decode_encode.
  - apply toy_hex_decode_encode.
  - apply toy_hex_encode_length.
Qed.

(** The database: the last write of a key wins. *)
Definition kv_table : Type := list ((ColumnFamily * list byte) * list byte).

Definition kv_lookup (db : kv_table) (cf : ColumnFamily) (k : list byte) : option (list byte) :=
  snd <$> List.find (λ p, bool_decide (p.1 = (cf, k))) db.

#[local] Instance sample_kv : KvStore := {|
  DB := kv_table;
  get_cf := λ db cf k, Ok (kv_lookup db cf k);
  put_cf := λ db cf k v, Ok (((cf, k), v) :: db);
  delete_cf := λ db cf k, Ok (List.filter (λ p, negb (bool_decide (p.1 = (cf, k)))) db);
|}.

#[local] Instance sample_kv_ok : KvStoreOk.
Proof.
  constructor; simpl; unfold kv_lookup.
  - intros db cf k v db' [= <-]. simpl. by rewrite bool_decide_true.
  - intros db cf k v db' cf' k' [= <-] Hne. simpl. by rewrite bool_decide_false by congruence.
  - intros db cf k db' [= <-]. do 2 f_equal. induction db as [|[p v] db IH]; simpl; [done|].
    case_bool_decide as E; simpl; [done|]. by rewrite bool_decide_false.
  - intros db cf k db' cf' k' [= <-] Hne. do 2 f_equal.
    induction db as [|[p v] db IH]; simpl; [done|].
    case_bool_decide as E; simpl.
    + rewrite bool_decide_false by congruence. done.
    + by case_bool_decide.
Qed.

(** ** A trail of three entries *)

Definition sample_key : SigningKey := vreplicate 32 Byte.x2a.
Definition other_key : SigningKey := vreplicate 32 Byte.x07.

Definition sample_entry (n : Z) : AuditEntry :=
  with_triple (new_entry (1000 + n) {| tx_seq := n; tx_timestamp := 0%Z; tx_node_id := 1 |}
                 Insert 1 "loader") "s" "p" "o".

Definition append_all (c : AuditChain) (es : list AuditEntry) : result chain_error AuditChain :=
  result_foldM (λ c e, p ← append c e; Ok p.1) c es.

Lemma append_all_ind (P : AuditChain → Prop) c es c' :
  P c → (∀ c e c' s, P c → append c e = Ok (c', s) → P c') →
  append_all c es = Ok c' → P c'.
Proof.
  intros Hc Hstep. unfold append_all. revert c Hc.
  induction es as [|e es IH]; intros c Hc Ha; cbn [result_foldM] in Ha; [by simplify_eq|].
  destruct (append c e) as [[c1 s1]| |] eqn:E; cbn in Ha; eauto; done.
Qed.

Definition unwrap {E A} (d : A) (m : result E A) : A := match m with Ok a => a | _ => d end.

Definition is_ok {E A} (m : result E A) : bool := match m with Ok _ => true | _ => false end.

Lemma unwrap_ok {E A} (d : A) (m : result E A) : is_ok m = true → m = Ok (unwrap d m).
Proof. by destruct m. Qed.

Definition sample_chain : AuditChain :=
  unwrap (new_chain sample_key) (append_all (new_chain sample_key) (map sample_entry [1; 2; 3]%Z)).

Example sample_chain_len : length (entries sample_chain) = 3%nat.
Proof. vm_compute. reflexivity. Qed.

(** ** Witnesses *)

Definition sample_leaves : list Hash := map entry_hash (entries sample_chain).
Definition sample_tree : MerkleTree := unwrap empty_tree (from_leaves sample_leaves).
Definition sample_proof : MerkleProof :=
  default {| leaf_index := 0; leaf_hash := HASH_ZERO; siblings := []; proof_root := HASH_ZERO |}
    (proof sample_tree 2).

Lemma merkle_tree_refines_witness :
  ∃ t, from_leaves sample_leaves = Ok t ∧
    leaves t = pad sample_leaves ∧ length (leaves t) = (2 ^ height t)%nat ∧
    pad sample_leaves =
      sample_leaves ++ replicate (2 ^ height t - length sample_leaves) HASH_ZERO ∧
    (length sample_leaves ≤ 2 ^ height t < 2 * length sample_leaves)%nat ∧
    root t = tree_node (pad sample_leaves) (height t) 0 ∧
    ∀ l i, (l ≤ height t)%nat → (i < 2 ^ (height t - l))%nat →
      nodes t !! (l, i) = Some (tree_node (pad sample_leaves) l i).
Proof. apply merkle_tree_refines. vm_compute. discriminate. Defined.

Lemma merkle_proof_complete_witness :
  ∃ t p, from_leaves [HASH_ZERO; HASH_ZERO; HASH_ZERO] = Ok t ∧ proof t 2 = Some p ∧
    leaf_hash p = HASH_ZERO ∧ leaf_index p = 2%nat ∧ proof_root p = root t ∧
    length (siblings p) = height t ∧ verify_proof p = true.
Proof. apply merkle_proof_complete. reflexivity. Defined.

Lemma merkle_proof_sound_witness :
  pad sample_leaves !! leaf_index sample_proof = Some (leaf_hash sample_proof) ∨
  ∃ q, proof sample_tree (leaf_index sample_proof) = Some q ∧
    collision_among (proof_inputs sample_proof) (proof_inputs q).
Proof.
  apply (merkle_proof_sound sample_leaves sample_tree sample_proof).
  - vm_compute. discriminate.
  - apply unwrap_ok. vm_compute. reflexivity.
  - vm_compute. reflexivity.
  - vm_compute. reflexivity.
  - vm_compute. lia.
  - vm_compute. reflexivity.
Defined.

Lemma reachable_chains_verify_witness : verify_chain sample_chain = Ok ().
Proof.
  apply reachable_chains_verify.
  apply (append_all_ind reachable (new_chain sample_key) (map sample_entry [1; 2; 3]%Z));
    [apply reach_new|exact reach_append|apply unwrap_ok; vm_compute; reflexivity].
Defined.

Lemma export_import_roundtrip_witness :
  import (new_chain other_key) (export sample_chain)
  = Ok (set_entries (new_chain other_key) (entries sample_chain)).
Proof.
  apply (export_import_roundtrip sample_chain (new_chain other_key) []);
    vm_compute; reflexivity.
Defined.

Definition sample_empty : AuditChain :=
  unwrap (new_chain sample_key) (new_with_store sample_key ([] : kv_table)).
Definition sample_persistent : AuditChain :=
  unwrap (new_chain sample_key) (append_all sample_empty (map sample_entry [1; 2]%Z)).

Lemma sample_appended : appended sample_key sample_persistent.
Proof.
  apply (append_all_ind (appended sample_key) sample_empty (map sample_entry [1; 2]%Z));
    [|exact (appended_append sample_key)|apply unwrap_ok; vm_compute; reflexivity].
  apply (appended_new (KV := sample_kv) sample_key []); [done|].
  apply unwrap_ok. vm_compute. reflexivity.
Qed.

Definition sample_db : DB := default ([] : kv_table) (store sample_persistent).

Lemma sample_db_store : store sample_persistent = Some sample_db.
Proof.
  destruct (appended_mirrors _ _ sample_appended) as (db & Hdb & _); [vm_compute; reflexivity|].
  unfold sample_db. by rewrite Hdb.
Qed.

Lemma sample_db_holds : store_holds sample_db (entries sample_persistent).
Proof.
  destruct (appended_mirrors _ _ sample_appended) as (db & Hdb & Hh & _);
    [vm_compute; reflexivity|].
  unfold sample_db. by rewrite Hdb.
Qed.

Lemma compact_keeps_entries_witness :
  (kv_reliable → ∃ r, compact sample_db 1 = Ok r) ∧
  ∀ db' n, compact sample_db 1 = Ok (db', n) → store_get_all db' = Ok (entries sample_persistent).
Proof.
  apply compact_keeps_entries; [apply sample_db_holds|vm_compute; reflexivity|lia].
Defined.

Lemma recovery_restores_chain_witness :
  ∃ c', from_store sample_key sample_db = Ok c' ∧
    entries c' = entries sample_persistent ∧
    genesis_hash c' = genesis_hash sample_persistent ∧
    signing_key c' = signing_key sample_persistent ∧ verify_chain c' = Ok ().
Proof.
  apply (recovery_restores_chain sample_key sample_persistent sample_db other_key);
    [apply sample_appended|vm_compute; reflexivity|apply sample_db_store].
Defined.

Definition first_signed : SignedAuditEntry := sign (sample_entry 1) sample_key HASH_ZERO.
Definition second_signed : SignedAuditEntry :=
  sign (sample_entry 2) sample_key (entry_hash first_signed).

Lemma tampering_detected_witness :
  verify_entries HASH_ZERO (with_content first_signed (sample_entry 9) :: [second_signed])
  = Err (EntryFailedVerification 0) ∨
  collide (entry_json (sample_entry 9)) (entry_json (entry first_signed)).
Proof.
  apply (tampering_detected (AE := sample_audit) HASH_ZERO [] first_signed [second_signed]);
    vm_compute; [reflexivity|discriminate].
Defined.

Lemma verifier_agrees_witness :
  valid (verifier_verify sample_chain) = true ↔
  verify_chain sample_chain = Ok () ∧ NoDup (entry_hash <$> entries sample_chain) ∧
  Sorted Z.le (stamp <$> entries sample_chain).
Proof. apply verifier_agrees. vm_compute. reflexivity. Defined.

Lemma merkle_root_binds_witness :
  map entry (entries sample_chain) = map entry (entries sample_chain) ∨
  let texts := content_inputs (entries sample_chain) ++ root_inputs (entries sample_chain) in
  collision_among texts texts.
Proof.
  eapply (merkle_root_binds sample_chain sample_chain); vm_compute; reflexivity.
Defined.

(** ** What the checks do not cover *)

(** A chain signed throughout by another key is accepted on import. *)
Theorem import_accepts_foreign_key :
  ∃ c, import (new_chain other_key) (export sample_chain) = Ok c ∧
    Forall (λ s, public_key s ≠ chain_public_key c) (entries c).
Proof.
  exists (set_entries (new_chain other_key) (entries sample_chain)). split.
  - apply export_import_Ok; vm_compute; reflexivity.
  - vm_compute. repeat constructor; discriminate.
Qed.

(** A batch proof of a chain of three entries also proves index 3, a padding
    leaf. *)
Theorem batch_proof_covers_padding :
  merkle_proof sample_chain 3 = Ok None ∧
  batch_len <$> batch_merkle_proof sample_chain [3%nat] = Ok 1%nat.
Proof. split; vm_compute; reflexivity. Qed.

(** An import replaces the entries in memory and not in the store: after a
    restart the entries imported are gone. *)
Theorem import_not_persisted :
  ∃ c, import sample_persistent (export sample_chain) = Ok c ∧
    length (entries c) = 3%nat ∧
    (c' ← from_store sample_key sample_db; Ok (length (entries c'))) = Ok 2%nat ∧
    store c = Some sample_db.
Proof.
  exists (set_entries sample_persistent (entries sample_chain)).
  refine (conj _ (conj _ (conj _ _))).
  - apply (export_import_Ok sample_chain sample_persistent); vm_compute; reflexivity.
  - vm_compute. reflexivity.
  - rewrite (from_store_mirrors sample_key sample_persistent sample_db);
      [vm_compute; reflexivity| |apply sample_db_store].
    apply appended_mirrors; [apply sample_appended|vm_compute; reflexivity].
  - rewrite store_set_entries. exact sample_db_store.
Qed.

(** Two appends of the same content are a duplicate to the detailed verifier
    only. *)
Theorem duplicate_content_reported :
  ∃ c, append_all (new_chain sample_key) [sample_entry 1; sample_entry 1] = Ok c ∧
    verify_chain c = Ok () ∧ valid (verifier_verify c) = false.
Proof.
  exists (unwrap (new_chain sample_key)
            (append_all (new_chain sample_key) [sample_entry 1; sample_entry 1])).
  split; [apply unwrap_ok; vm_compute; reflexivity|]. split; vm_compute; reflexivity.
Qed.
