(* ===== verification/BTree.v ===== *)
(** * Ordered maps

    The standard library's [BTreeMap] with integer keys: an association list in
    strictly increasing order of the keys, with the operations the code uses.
    [btree_range_from] is [range(k..)]. *)

From stdpp Require Import base numbers option gmap list.
From S2P Require Import Prelude.

From Stdlib Require Import ZArith Lia Sorting.Sorted.

Section BTree.
Context {V : Type}.

Definition btree : Type := list (Z * V).

Fixpoint btree_get (k : Z) (m : btree) : option V :=
  match m with
  | [] => None
  | (k', v) :: m' =>
      if (k =? k')%Z then Some v else btree_get k m'
  end.

Definition btree_contains (k : Z) (m : btree) : bool :=
  match btree_get k m with Some _ => true | None => false end.

Fixpoint btree_insert (k : Z) (v : V) (m : btree) : btree :=
  match m with
  | [] => [(k, v)]
  | (k', v') :: m' =>
      if (k <? k')%Z then (k, v) :: m
      else if (k =? k')%Z then (k, v) :: m'
      else (k', v') :: btree_insert k v m'
  end.

Definition btree_remove (k : Z) (m : btree) : btree :=
  List.filter (λ p, negb (p.1 =? k)%Z) m.

Definition btree_range_from (k : Z) (m : btree) : btree :=
  List.filter (λ p, (k <=? p.1)%Z) m.

Definition keys_of (m : btree) : list Z := map fst m.

(** The keys increase strictly. *)
Definition btree_ok (m : btree) : Prop := StronglySorted Z.lt (keys_of m).

(** ** Laws *)

Lemma btree_ok_cons k v m :
  btree_ok ((k, v) :: m) ↔ btree_ok m ∧ ∀ k' v', (k', v') ∈ m → (k < k')%Z.
Proof.
  unfold btree_ok, keys_of. simpl. split.
  - intros Hs. inversion_clear Hs as [|? ? Hm HF]. split; [done|].
    intros k' v' Hin. rewrite Forall_forall in HF. apply HF.
    apply list_elem_of_In, in_map_iff. exists (k', v'). split; [done|by apply list_elem_of_In].
  - intros [Hm Hlt]. constructor; [done|]. apply Forall_forall. intros k' Hk'.
    apply list_elem_of_In, in_map_iff in Hk' as ([k1 v1] & <- & Hin).
    apply (Hlt k1 v1). by apply list_elem_of_In.
Qed.

Lemma btree_get_elem k v m : btree_get k m = Some v → (k, v) ∈ m.
Proof.
  induction m as [|[k' v'] m IH]; simpl; [done|].
  destruct (Z.eqb_spec k k') as [->|]; intros ?; simplify_eq; [left|right; auto].
Qed.

Lemma btree_elem_get k v m : btree_ok m → (k, v) ∈ m → btree_get k m = Some v.
Proof.
  induction m as [|[k' v'] m IH]; simpl; [by intros _ ?%elem_of_nil|].
  intros [Hm Hlt]%btree_ok_cons [?|Hin]%elem_of_cons; simplify_eq.
  - by rewrite Z.eqb_refl.
  - destruct (Z.eqb_spec k k') as [->|]; [|auto]. specialize (Hlt _ _ Hin). lia.
Qed.

Lemma btree_insert_elem k v m k1 v1 :
  btree_ok m →
  (k1, v1) ∈ btree_insert k v m ↔ (k1 = k ∧ v1 = v) ∨ (k1 ≠ k ∧ (k1, v1) ∈ m).
Proof.
  induction m as [|[k' v'] m IH]; simpl; intros Hok.
  - rewrite list_elem_of_singleton. set_solver.
  - apply btree_ok_cons in Hok as [Hm Hlt].
    destruct (Z.ltb_spec k k'); [|destruct (Z.eqb_spec k k') as [->|]].
    + rewrite !elem_of_cons. split.
      * intros [?|[?|Hin]]; simplify_eq; [by left|right..]; (split; [|set_solver]); [lia|].
        specialize (Hlt _ _ Hin). lia.
      * intros [[-> ->]|[_ ?]]; set_solver.
    + rewrite !elem_of_cons. split.
      * intros [?|Hin]; simplify_eq; [by left|]. right. specialize (Hlt _ _ Hin).
        split; [lia|by right].
      * intros [[-> ->]|[? [?|?]]]; simplify_eq; set_solver.
    + rewrite !elem_of_cons, IH by done. split.
      * intros [?|[?|[? ?]]]; simplify_eq; [right; split; [done|by left]|by left|].
        right. split; [done|by right].
      * intros [?|[? [?|?]]]; simplify_eq; auto.
Qed.

Lemma btree_insert_ok k v m : btree_ok m → btree_ok (btree_insert k v m).
Proof.
  induction m as [|[k' v'] m IH]; simpl; intros Hok.
  - apply btree_ok_cons. split; [constructor|]. by intros ? ? ?%elem_of_nil.
  - apply btree_ok_cons in Hok as [Hm Hlt].
    destruct (Z.ltb_spec k k'); [|destruct (Z.eqb_spec k k') as [->|]]; apply btree_ok_cons.
    + split; [by apply btree_ok_cons|]. intros k1 v1 [?|Hin]%elem_of_cons; simplify_eq; [done|].
      specialize (Hlt _ _ Hin). lia.
    + done.
    + split; [auto|]. intros k1 v1. rewrite btree_insert_elem by done.
      intros [[-> ->]|[_ Hin]]; [lia|eauto].
Qed.

Lemma filter_elem (p : Z * V → bool) m x : x ∈ List.filter p m ↔ x ∈ m ∧ p x = true.
Proof. by rewrite !list_elem_of_In, filter_In. Qed.

Lemma btree_filter_ok (p : Z * V → bool) m : btree_ok m → btree_ok (List.filter p m).
Proof.
  induction m as [|[k v] m IH]; simpl; [done|]. intros [Hm Hlt]%btree_ok_cons.
  destruct (p (k, v)); [|auto]. apply btree_ok_cons. split; [auto|].
  intros k' v' [Hin _]%filter_elem. eauto.
Qed.

Lemma btree_remove_elem k m k1 v1 :
  (k1, v1) ∈ btree_remove k m ↔ (k1, v1) ∈ m ∧ k1 ≠ k.
Proof. unfold btree_remove. rewrite filter_elem. simpl. by rewrite negb_true_iff, Z.eqb_neq. Qed.

Lemma btree_range_elem k m k1 v1 :
  (k1, v1) ∈ btree_range_from k m ↔ (k1, v1) ∈ m ∧ (k ≤ k1)%Z.
Proof. unfold btree_range_from. rewrite filter_elem. simpl. by rewrite Z.leb_le. Qed.

(** The first pair has the least key. *)
Lemma btree_head_least k v m k1 v1 :
  btree_ok ((k, v) :: m) → (k1, v1) ∈ (k, v) :: m → (k ≤ k1)%Z.
Proof.
  intros [_ Hlt]%btree_ok_cons [?|Hin]%elem_of_cons; simplify_eq; [lia|].
  specialize (Hlt _ _ Hin). lia.
Qed.

(** Two ordered maps with the same pairs are the same. *)
Lemma btree_ext m m' :
  btree_ok m → btree_ok m' → (∀ k v, (k, v) ∈ m ↔ (k, v) ∈ m') → m = m'.
Proof.
  revert m'. induction m as [|[k v] m IH]; intros [|[k' v'] m'] Hm Hm' Hel; [done| | |].
  - destruct (elem_of_nil (k', v')) as [[] _]. apply Hel. by left.
  - destruct (elem_of_nil (k, v)) as [[] _]. apply Hel. by left.
  - assert (Hin : (k, v) ∈ (k', v') :: m') by (apply Hel; by left).
    assert (Hin' : (k', v') ∈ (k, v) :: m) by (apply Hel; by left).
    assert (k = k') as ->.
    { pose proof (btree_head_least _ _ _ _ _ Hm Hin'). pose proof (btree_head_least _ _ _ _ _ Hm' Hin). lia. }
    apply (btree_elem_get _ _ _ Hm') in Hin. simpl in Hin. rewrite Z.eqb_refl in Hin. simplify_eq.
    apply btree_ok_cons in Hm as [Hm Hlt]. apply btree_ok_cons in Hm' as [Hm' Hlt'].
    f_equal. apply IH; [done..|]. intros k1 v1. specialize (Hel k1 v1).
    rewrite !elem_of_cons in Hel. split; intros H1.
    + specialize (Hlt _ _ H1). destruct Hel as [[|] _]; [by right|simplify_eq; lia|done].
    + specialize (Hlt' _ _ H1). destruct Hel as [_ [|]]; [by right|simplify_eq; lia|done].
Qed.
End BTree.
Arguments btree V : clear implicits.
