(* ===== verification/HashRing.v ===== *)
(** * The standard library's default hasher

    [calculate_hash] and [calculate_hash_bytes] of [ha/consistent_hash.rs] feed
    a key to [DefaultHasher::new()], which is SipHash-1-3 with two zero keys.
    The ring's theorems hold for every hash function with 64-bit results; this
    section has the one the program runs. *)

From Stdlib Require Import ZArith Lia Ascii.
From stdpp Require Import base numbers option strings list.
From S2P Require Import Prelude RustStd.

#[local] Open Scope Z_scope.

Definition wrap_u64 (z : Z) : Z := z mod 2 ^ 64.

(** [u64::rotate_left]. *)
Definition rotl (z k : Z) : Z := wrap_u64 (Z.lor (Z.shiftl z k) (Z.shiftr z (64 - k))).

(** The hasher's state. *)
Record sip_state : Type := { v0 : Z; v1 : Z; v2 : Z; v3 : Z }.

Definition sip_round (s : sip_state) : sip_state :=
  let a0 := wrap_u64 (v0 s + v1 s) in
  let a2 := wrap_u64 (v2 s + v3 s) in
  let a1 := Z.lxor (rotl (v1 s) 13) a0 in
  let a3 := Z.lxor (rotl (v3 s) 16) a2 in
  let b2 := wrap_u64 (a2 + a1) in
  let b0 := wrap_u64 (rotl a0 32 + a3) in
  {| v0 := b0; v1 := Z.lxor (rotl a1 17) b2; v2 := rotl b2 32; v3 := Z.lxor (rotl a3 21) b0 |}.

Definition sip_rounds (n : nat) (s : sip_state) : sip_state := Nat.iter n sip_round s.

(** One message word. *)
Definition sip_word (c : nat) (s : sip_state) (m : Z) : sip_state :=
  let s := sip_rounds c {| v0 := v0 s; v1 := v1 s; v2 := v2 s; v3 := Z.lxor (v3 s) m |} in
  {| v0 := Z.lxor (v0 s) m; v1 := v1 s; v2 := v2 s; v3 := v3 s |}.

(** Bytes, lowest first. *)
Fixpoint le_value (bs : list Z) : Z :=
  match bs with
  | [] => 0
  | b :: bs' => b + 256 * le_value bs'
  end.

(** The words of a message of [len] bytes: eight bytes at a time, then the rest
    with the length in the top byte. *)
Fixpoint sip_words (len : Z) (bs : list Z) : list Z :=
  match bs with
  | b0 :: b1 :: b2 :: b3 :: b4 :: b5 :: b6 :: b7 :: rest =>
      le_value [b0; b1; b2; b3; b4; b5; b6; b7] :: sip_words len rest
  | rest => [le_value rest + Z.shiftl (len mod 256) 56]
  end.

Definition sip_init (k0 k1 : Z) : sip_state :=
  {| v0 := Z.lxor k0 0x736f6d6570736575; v1 := Z.lxor k1 0x646f72616e646f6d;
     v2 := Z.lxor k0 0x6c7967656e657261; v3 := Z.lxor k1 0x7465646279746573 |}.

Definition sip_finish (d : nat) (s : sip_state) : Z :=
  let s := sip_rounds d {| v0 := v0 s; v1 := v1 s; v2 := Z.lxor (v2 s) 255; v3 := v3 s |} in
  wrap_u64 (Z.lxor (Z.lxor (v0 s) (v1 s)) (Z.lxor (v2 s) (v3 s))).

Definition siphash (c d : nat) (k0 k1 : Z) (bs : list Z) : Z :=
  sip_finish d (foldl (sip_word c) (sip_init k0 k1) (sip_words (Z.of_nat (length bs)) bs)).

(** The published test vector of SipHash-2-4: key [00..0f], message [00..0e]. *)
Example siphash_2_4_vector :
  siphash 2 4 0x0706050403020100 0x0f0e0d0c0b0a0908 (seqZ 0 15) = 0xa129ca6149be45e5.
Proof. reflexivity. Qed.

(** [DefaultHasher::new()] on what was written to it. *)
Definition default_hasher (bs : list Z) : Z := siphash 1 3 0 0 bs.

(** What the hasher answers when nothing is written to it. *)
Example default_hasher_empty : default_hasher [] = 15130871412783076140.
Proof. reflexivity. Qed.

Definition str_bytes (s : string) : list Z :=
  (λ c, Z.of_N (N_of_ascii c)) <$> String.list_ascii_of_string s.

(** [calculate_hash]: [str] writes its bytes and a final [0xff]. *)
Definition calculate_hash (key : string) : Z := default_hasher (str_bytes key ++ [255]).

(** [calculate_hash_bytes]: a slice writes its length as eight bytes first. *)
Definition usize_le_bytes (n : Z) : list Z :=
  (λ i, Z.shiftr n (8 * i) mod 256) <$> seqZ 0 8.
Definition calculate_hash_bytes (bytes : list Z) : Z :=
  default_hasher (usize_le_bytes (Z.of_nat (length bytes)) ++ bytes).

Lemma default_hasher_range bs : 0 ≤ default_hasher bs < 2 ^ 64.
Proof. by apply Z.mod_pos_bound. Qed.

Lemma calculate_hash_range key : 0 ≤ calculate_hash key < 2 ^ 64.
Proof. by apply Z.mod_pos_bound. Qed.

(** * The consistent hash ring

    Models [ha/consistent_hash.rs].  The hash function is a section variable, so
    that the theorems hold for every function with 64-bit results and not only
    for today's [DefaultHasher]; the one above is the concrete one.  The ring's
    [BTreeMap] is the ordered map of [BTree]. *)

From Stdlib Require Import SpecFloat.
From stdpp Require Import base numbers option strings gmap list.
From S2P Require Import F64 BTree.

Abbreviation ShardId := Z.

(** [VirtualNode]. *)
Record VirtualNode : Type := {
  vn_hash : Z;
  vn_shard : ShardId;
  vn_index : Z;
}.

#[global] Instance VirtualNode_eq_dec : EqDecision VirtualNode.
Proof. solve_decision. Defined.

(** [ConsistentHashRing]. *)
Record ConsistentHashRing : Type := {
  nodes : btree VirtualNode;
  shard_nodes : gmap ShardId (list VirtualNode);
  virtual_node_counts : gmap ShardId Z;
}.

Inductive ring_error : Type :=
  | ShardExists (s : ShardId)
  | ShardNotFound (s : ShardId)
  | VnodeNotFound (h : Z).

#[global] Instance ring_error_eq_dec : EqDecision ring_error.
Proof. solve_decision. Defined.

(** [ConsistentHashRing::new]. *)
Definition new_ring : ConsistentHashRing :=
  {| nodes := []; shard_nodes := ∅; virtual_node_counts := ∅ |}.

(** [ConsistentHashRing::clear]. *)
Definition clear (r : ConsistentHashRing) : ConsistentHashRing :=
  {| nodes := []; shard_nodes := ∅; virtual_node_counts := ∅ |}.

(** [ConsistentHashRing::find_shard]. *)
Definition find_vnode (r : ConsistentHashRing) (hash : Z) : option VirtualNode :=
  match btree_range_from hash (nodes r) with
  | (_, v) :: _ => Some v
  | [] => snd <$> head (nodes r)
  end.
Definition find_shard (r : ConsistentHashRing) (hash : Z) : option ShardId :=
  match nodes r with
  | [] => None
  | _ => vn_shard <$> find_vnode r hash
  end.

(** The loop of [find_shards_with_replicas]: [shards] in order, no shard twice;
    [seen_shards] holds the same shards. *)
Fixpoint replica_loop (replica_count : nat) (shards : list ShardId) (vs : list VirtualNode)
    : list ShardId :=
  match vs with
  | [] => shards
  | v :: vs' =>
      if bool_decide (vn_shard v ∈ shards) then replica_loop replica_count shards vs'
      else
        let shards := shards ++ [vn_shard v] in
        if (replica_count <=? length shards)%nat then shards
        else replica_loop replica_count shards vs'
  end.

(** [ConsistentHashRing::find_shards_with_replicas]. *)
Definition find_shards_with_replicas (r : ConsistentHashRing) (hash : Z) (replica_count : nat)
    : list ShardId :=
  match nodes r with
  | [] => []
  | _ => replica_loop replica_count [] (map snd (btree_range_from hash (nodes r) ++ nodes r))
  end.

(** [ConsistentHashRing::remove_shard]. *)
Definition remove_shard (r : ConsistentHashRing) (s : ShardId)
    : result ring_error (ConsistentHashRing * list VirtualNode) :=
  match shard_nodes r !! s with
  | None => Err (ShardNotFound s)
  | Some vnodes =>
      Ok ({| nodes := foldl (λ m v, btree_remove (vn_hash v) m) (nodes r) vnodes;
             shard_nodes := delete s (shard_nodes r);
             virtual_node_counts := delete s (virtual_node_counts r) |}, vnodes)
  end.

(** [ConsistentHashRing::reassign_virtual_node]. *)
Definition reassign_virtual_node (r : ConsistentHashRing) (vnode_hash : Z) (new_shard : ShardId)
    : result ring_error ConsistentHashRing :=
  match btree_get vnode_hash (nodes r) with
  | None => Err (VnodeNotFound vnode_hash)
  | Some v =>
      let old_shard := vn_shard v in
      let v' := {| vn_hash := vn_hash v; vn_shard := new_shard; vn_index := vn_index v |} in
      let sn :=
        match shard_nodes r !! old_shard with
        | Some vs => <[old_shard :=
                        List.filter (λ w, negb (vn_hash w =? vnode_hash)%Z) vs]> (shard_nodes r)
        | None => shard_nodes r
        end in
      let vs := default [] (sn !! new_shard) in
      Ok {| nodes := btree_insert vnode_hash v' (nodes r);
            shard_nodes := <[new_shard := vs ++ [v']]> sn;
            virtual_node_counts := virtual_node_counts r |}
  end.

(** [calculate_load_distribution]: percentages as [f64]. *)
Definition calculate_load_distribution (r : ConsistentHashRing) : gmap ShardId f64 :=
  match nodes r with
  | [] => ∅
  | _ =>
      (λ vs : list VirtualNode,
         f64_mul (f64_div (f64_of_i64 (Z.of_nat (length vs)))
                          (f64_of_i64 (Z.of_nat (length (nodes r))))) (f64_of_i64 100))
      <$> shard_nodes r
  end.

(** [get_shard_vnodes], [total_vnodes], [shard_count] and [is_empty]. *)
Definition get_shard_vnodes (r : ConsistentHashRing) (s : ShardId) : option (list VirtualNode) :=
  shard_nodes r !! s.
Definition total_vnodes (r : ConsistentHashRing) : nat := length (nodes r).
Definition shard_count (r : ConsistentHashRing) : nat := size (shard_nodes r).
Definition ring_is_empty (r : ConsistentHashRing) : bool :=
  match nodes r with [] => true | _ => false end.

(** [format!("shard-{}-vnode-{}", ...)] and its retry. *)
Definition vnode_key (s : ShardId) (i : Z) : string :=
  "shard-" +:+ i64_to_string s +:+ "-vnode-" +:+ i64_to_string i.
Definition retry_key (s : ShardId) (i : Z) : string := vnode_key s i +:+ "-retry".

Section Hashing.
Context (calculate_hash : string → Z).

(** One iteration of the loop of [add_shard]. *)
Definition add_vnode (s : ShardId) (st : btree VirtualNode * list VirtualNode) (i : Z)
    : btree VirtualNode * list VirtualNode :=
  let '(m, vnodes) := st in
  let hash := calculate_hash (vnode_key s i) in
  let hash := if btree_contains hash m then calculate_hash (retry_key s i) else hash in
  let v := {| vn_hash := hash; vn_shard := s; vn_index := i |} in
  (btree_insert hash v m, vnodes ++ [v]).

(** [ConsistentHashRing::add_shard]. *)
Definition add_shard (r : ConsistentHashRing) (s : ShardId) (virtual_nodes : Z)
    : result ring_error ConsistentHashRing :=
  match shard_nodes r !! s with
  | Some _ => Err (ShardExists s)
  | None =>
      let '(m, vnodes) := foldl (add_vnode s) (nodes r, []) (seqZ 0 virtual_nodes) in
      Ok {| nodes := m;
            shard_nodes := <[s := vnodes]> (shard_nodes r);
            virtual_node_counts := <[s := virtual_nodes]> (virtual_node_counts r) |}
  end.

Definition DEFAULT_VIRTUAL_NODES : Z := 150.

(** [ConsistentHashRouter]: its ring, and routing by key. *)
Definition router_add_shard (r : ConsistentHashRing) (s : ShardId)
    : result ring_error ConsistentHashRing := add_shard r s DEFAULT_VIRTUAL_NODES.
Definition add_shard_with_weight (r : ConsistentHashRing) (s : ShardId) (virtual_nodes : Z)
    : result ring_error ConsistentHashRing := add_shard r s virtual_nodes.
Definition router_remove_shard (r : ConsistentHashRing) (s : ShardId)
    : result ring_error (ConsistentHashRing * list VirtualNode) := remove_shard r s.
Definition route (r : ConsistentHashRing) (key : string) : option ShardId :=
  find_shard r (calculate_hash key).
Definition route_with_replicas (r : ConsistentHashRing) (key : string) (n : nat)
    : list ShardId := find_shards_with_replicas r (calculate_hash key) n.
End Hashing.

(** ** Clockwise search *)

(** The clockwise distance from [a] to [b] on the ring of 64-bit numbers. *)
Definition clockwise (a b : Z) : Z := (b - a) mod 2 ^ 64.

Definition in_u64 (z : Z) : Prop := (0 ≤ z < 2 ^ 64)%Z.

Lemma clockwise_ge a b : in_u64 a → in_u64 b → (a ≤ b)%Z → clockwise a b = (b - a)%Z.
Proof. unfold in_u64, clockwise. intros. apply Z.mod_small. lia. Qed.

Lemma clockwise_lt a b :
  in_u64 a → in_u64 b → (b < a)%Z → clockwise a b = (b - a + 2 ^ 64)%Z.
Proof.
  unfold in_u64, clockwise. intros.
  rewrite <- (Z.mod_add _ 1), Z.mod_small by lia. lia.
Qed.

(** Well-formed node tables: ordered, each node under its own hash. *)
Definition nodes_ok (m : btree VirtualNode) : Prop :=
  btree_ok m ∧ ∀ h v, (h, v) ∈ m → vn_hash v = h ∧ in_u64 h.

Lemma find_vnode_closest r hash :
  nodes_ok (nodes r) → in_u64 hash → nodes r ≠ [] →
  ∃ v, find_vnode r hash = Some v ∧ (vn_hash v, v) ∈ nodes r ∧
    ∀ h w, (h, w) ∈ nodes r → (clockwise hash (vn_hash v) ≤ clockwise hash h)%Z.
Proof.
  intros [Hok Hn] Hh Hne. unfold find_vnode.
  destruct (btree_range_from hash (nodes r)) as [|[h v] rest] eqn:Er.
  - assert (Hall : ∀ h w, (h, w) ∈ nodes r → (h < hash)%Z).
    { intros h w Hin. destruct (Z.lt_ge_cases h hash) as [?|Hge]; [done|].
      assert ((h, w) ∈ btree_range_from hash (nodes r)) as Hin'
        by (by apply btree_range_elem). rewrite Er in Hin'. by apply elem_of_nil in Hin'. }
    destruct (nodes r) as [|[h v] m] eqn:En; [done|]. exists v.
    destruct (Hn h v) as [<- Hu]; [by left|]. split_and!; [done|by left|].
    intros h' w Hin. pose proof (Hn _ _ Hin) as [_ Hu'].
    rewrite !clockwise_lt by eauto using list_elem_of_here.
    pose proof (btree_head_least _ _ _ _ _ Hok Hin). lia.
  - assert (Hv : (h, v) ∈ btree_range_from hash (nodes r)) by (rewrite Er; by left).
    apply btree_range_elem in Hv as [Hv Hle]. destruct (Hn h v Hv) as [<- Hu].
    exists v. split_and!; [done|done|]. intros h' w Hin. pose proof (Hn _ _ Hin) as [_ Hu'].
    rewrite (clockwise_ge hash (vn_hash v)) by done.
    destruct (Z.lt_ge_cases h' hash) as [Hlt|Hge].
    + rewrite clockwise_lt by done. unfold in_u64 in *. lia.
    + rewrite clockwise_ge by (done || lia).
      assert ((h', w) ∈ btree_range_from hash (nodes r)) as Hin' by (by apply btree_range_elem).
      rewrite Er in Hin'. pose proof (btree_filter_ok (λ p, (hash <=? p.1)%Z) _ Hok) as Hok'.
      unfold btree_range_from in Er. rewrite Er in Hok'.
      pose proof (btree_head_least _ _ _ _ _ Hok' Hin'). lia.
Qed.
