(* ===== verification/HashRingFacts.v ===== *)
(** * The consistent hash ring: properties

    Routing goes to the closest virtual node clockwise; adding or removing a
    shard moves only keys of that shard; the ring's tables agree with one
    another as long as hashes do not collide. *)

From Stdlib Require Import ZArith Lia Ascii.
From Stdlib Require Import SpecFloat.
From stdpp Require Import base numbers option strings gmap list.
From S2P Require Import Prelude RustStd F64 BTree HashRing.

(** ** Routing *)

Lemma clockwise_inj a b c :
  in_u64 b → in_u64 c → clockwise a b = clockwise a c → b = c.
Proof.
  unfold in_u64, clockwise. intros Hb Hc E.
  assert ((b - c) mod 2 ^ 64 = 0)%Z as Hm.
  { replace (b - c)%Z with ((b - a) - (c - a))%Z by lia.
    rewrite Zminus_mod, E, Z.sub_diag. done. }
  apply Z.mod_divide in Hm as [k Hk]; [|lia]. assert (k = 0)%Z by lia. lia.
Qed.

(** The closest node is the only one that can be found. *)
Lemma find_vnode_unique r hash v :
  nodes_ok (nodes r) → in_u64 hash → (vn_hash v, v) ∈ nodes r →
  (∀ h w, (h, w) ∈ nodes r → (clockwise hash (vn_hash v) ≤ clockwise hash h)%Z) →
  find_vnode r hash = Some v.
Proof.
  intros Hok Hh Hin Hmin.
  destruct (find_vnode_closest r hash Hok Hh) as (w & Hw & Hwin & Hwmin).
  { intros E. rewrite E in Hin. by apply elem_of_nil in Hin. }
  assert (vn_hash v = vn_hash w) as E.
  { destruct Hok as [_ Hn]. pose proof (Hn _ _ Hin) as [_ ?]. pose proof (Hn _ _ Hwin) as [_ ?].
    apply (clockwise_inj hash); [done..|]. specialize (Hmin _ _ Hwin). specialize (Hwmin _ _ Hin).
    lia. }
  rewrite Hw. f_equal. destruct Hok as [Hb _].
  apply (btree_elem_get _ _ _ Hb) in Hin, Hwin. rewrite E in Hin. congruence.
Qed.

Lemma find_shard_vnode r hash : find_shard r hash = vn_shard <$> find_vnode r hash.
Proof.
  unfold find_shard, find_vnode. by destruct (nodes r) eqn:E.
Qed.

(** Two rings that differ only in nodes of shard [s]: what the second one has
    and the first one has not belongs to [s], and no position disappears. *)
Lemma find_shard_grow r r' s hash :
  nodes_ok (nodes r) → nodes_ok (nodes r') → in_u64 hash →
  (∀ h v, (h, v) ∈ nodes r → ∃ v', (h, v') ∈ nodes r') →
  (∀ h v, (h, v) ∈ nodes r' → vn_shard v = s ∨ (h, v) ∈ nodes r) →
  find_shard r' hash = Some s ∨ find_shard r' hash = find_shard r hash.
Proof.
  intros Hok Hok' Hh Hkeep Hnew. rewrite !find_shard_vnode.
  destruct (decide (nodes r' = [])) as [E|Hne].
  { right. unfold find_vnode. rewrite E. destruct (nodes r) as [|[h v] m] eqn:Er; [done|].
    destruct (Hkeep h v) as [v' Hv']; [by left|]. rewrite E in Hv'. by apply elem_of_nil in Hv'. }
  destruct (find_vnode_closest r' hash Hok' Hh Hne) as (w & Hw & Hwin & Hwmin). rewrite Hw. simpl.
  destruct (Hnew _ _ Hwin) as [->|Hin]; [by left|]. right.
  rewrite (find_vnode_unique r hash w); [done..|]. intros h v Hv.
  destruct (Hkeep h v Hv) as [v' Hv']. eauto.
Qed.

(** C29: routing: on a ring with at least one virtual node, [find_shard] answers
    the owner of a node whose clockwise distance from the key's hash, across the
    wrap-around at 2^64, is the least of all nodes; on an empty ring it answers
    none. *)
Theorem find_shard_closest r hash :
  nodes_ok (nodes r) → in_u64 hash →
  (nodes r = [] → find_shard r hash = None) ∧
  (nodes r ≠ [] → ∃ v, find_shard r hash = Some (vn_shard v) ∧ (vn_hash v, v) ∈ nodes r ∧
     ∀ h w, (h, w) ∈ nodes r → (clockwise hash (vn_hash v) ≤ clockwise hash h)%Z).
Proof.
  intros Hok Hh. split.
  - intros E. unfold find_shard. by rewrite E.
  - intros Hne. destruct (find_vnode_closest r hash Hok Hh Hne) as (v & Hv & Hin & Hmin).
    exists v. rewrite find_shard_vnode, Hv. done.
Qed.

(** ** Adding a shard *)

Section Adding.
Context (calculate_hash : string → Z) (Hrange : ∀ k, in_u64 (calculate_hash k)).

Lemma add_vnode_ok s m vs i m' vs' :
  nodes_ok m → add_vnode calculate_hash s (m, vs) i = (m', vs') →
  nodes_ok m' ∧
  (∀ h v, (h, v) ∈ m → ∃ v', (h, v') ∈ m') ∧
  (∀ h v, (h, v) ∈ m' → vn_shard v = s ∨ (h, v) ∈ m).
Proof.
  intros [Hb Hn]. unfold add_vnode.
  set (h0 := if btree_contains _ m then _ else _). intros [= <- <-].
  assert (in_u64 h0) as Hh0 by (unfold h0; destruct (btree_contains _ m); apply Hrange).
  set (v0 := {| vn_hash := h0; vn_shard := s; vn_index := i |}). split_and!.
  - split; [by apply btree_insert_ok|]. intros h v.
    rewrite btree_insert_elem by done. intros [[-> ->]|[_ Hin]]; [done|auto].
  - intros h v Hin. destruct (decide (h = h0)) as [->|Hne].
    + exists v0. apply btree_insert_elem; [done|]. by left.
    + exists v. apply btree_insert_elem; [done|]. by right.
  - intros h v. rewrite btree_insert_elem by done. intros [[-> ->]|[_ Hin]]; [by left|by right].
Qed.

Lemma add_loop_ok s idxs m vs m' vs' :
  nodes_ok m → foldl (add_vnode calculate_hash s) (m, vs) idxs = (m', vs') →
  nodes_ok m' ∧
  (∀ h v, (h, v) ∈ m → ∃ v', (h, v') ∈ m') ∧
  (∀ h v, (h, v) ∈ m' → vn_shard v = s ∨ (h, v) ∈ m).
Proof.
  revert m vs. induction idxs as [|i idxs IH]; intros m vs Hok Hf; cbn [foldl] in Hf.
  - simplify_eq. split_and!; eauto.
  - destruct (add_vnode calculate_hash s (m, vs) i) as [m1 vs1] eqn:E1.
    destruct (add_vnode_ok _ _ _ _ _ _ Hok E1) as (Hok1 & Hk1 & Hn1).
    destruct (IH _ _ Hok1 Hf) as (Hok' & Hk' & Hn'). split_and!; [done| |].
    + intros h v Hin. destruct (Hk1 _ _ Hin) as [v1 Hv1]. eauto.
    + intros h v Hin. destruct (Hn' _ _ Hin) as [?|Hin1]; [by left|]. auto.
Qed.

(** Adding a shard disturbs nothing else: after a successful [add_shard] of
    shard [s], every hash is routed to [s] or to the shard it was routed to
    before; and adding a shard the ring already has is an error. *)
Theorem add_shard_moves_only_to_new r s n hash :
  nodes_ok (nodes r) → in_u64 hash →
  (∀ r', add_shard calculate_hash r s n = Ok r' →
     nodes_ok (nodes r') ∧
     (find_shard r' hash = Some s ∨ find_shard r' hash = find_shard r hash)) ∧
  (is_Some (shard_nodes r !! s) → add_shard calculate_hash r s n = Err (ShardExists s)).
Proof.
  intros Hok Hh. unfold add_shard. split; [|by intros [vs ->]].
  intros r'. destruct (shard_nodes r !! s); [done|].
  destruct (foldl (add_vnode calculate_hash s) (nodes r, []) (seqZ 0 n)) as [m vs] eqn:Hf.
  intros [= <-]. destruct (add_loop_ok _ _ _ _ _ _ Hok Hf) as (Hok' & Hk & Hn).
  split; [done|]. by apply find_shard_grow.
Qed.

(** ** The invariant of the two tables *)

(** Each node is listed once by its owner, and each listed node is on the ring. *)
Record ring_ok (r : ConsistentHashRing) : Prop := {
  ring_nodes : nodes_ok (nodes r);
  ring_listed h v : (h, v) ∈ nodes r →
    ∃ vs, shard_nodes r !! vn_shard v = Some vs ∧ v ∈ vs;
  ring_owned s vs : shard_nodes r !! s = Some vs →
    NoDup vs ∧ ∀ v, v ∈ vs → vn_shard v = s ∧ (vn_hash v, v) ∈ nodes r;
}.

(** The keys of the new virtual nodes hash to free and different positions. *)
Definition collision_free (r : ConsistentHashRing) (s : ShardId) (n : Z) : Prop :=
  (∀ i, (0 ≤ i < n)%Z → btree_contains (calculate_hash (vnode_key s i)) (nodes r) = false) ∧
  (∀ i j, (0 ≤ i < n)%Z → (0 ≤ j < n)%Z →
     calculate_hash (vnode_key s i) = calculate_hash (vnode_key s j) → i = j).

Definition new_vnode (s : ShardId) (i : Z) : VirtualNode :=
  {| vn_hash := calculate_hash (vnode_key s i); vn_shard := s; vn_index := i |}.

Lemma contains_elem h (m : btree VirtualNode) v :
  btree_ok m → (h, v) ∈ m → btree_contains h m = true.
Proof. intros Hb Hin. unfold btree_contains. by rewrite (btree_elem_get _ _ _ Hb Hin). Qed.

(** Without collisions the loop adds exactly the nodes of the keys. *)
Lemma add_loop_free s idxs m vs :
  btree_ok m → NoDup idxs →
  (∀ i, i ∈ idxs → btree_contains (calculate_hash (vnode_key s i)) m = false) →
  (∀ i j, i ∈ idxs → j ∈ idxs →
     calculate_hash (vnode_key s i) = calculate_hash (vnode_key s j) → i = j) →
  ∃ m', foldl (add_vnode calculate_hash s) (m, vs) idxs = (m', vs ++ map (new_vnode s) idxs) ∧
    ∀ h v, (h, v) ∈ m' ↔
      (h, v) ∈ m ∨ ∃ i, i ∈ idxs ∧ v = new_vnode s i ∧ h = vn_hash v.
Proof.
  revert m vs. induction idxs as [|i idxs IH]; intros m vs Hb Hnd Hfree Hinj.
  - exists m. simpl. rewrite app_nil_r. split; [done|]. set_solver.
  - cbn [foldl map]. unfold add_vnode at 2. rewrite Hfree by (by left).
    inversion_clear Hnd as [|? ? Hi Hnd']. fold (new_vnode s i).
    set (h0 := calculate_hash (vnode_key s i)).
    destruct (IH (btree_insert h0 (new_vnode s i) m) (vs ++ [new_vnode s i]))
      as (m' & Hf & Hel).
    + by apply btree_insert_ok.
    + done.
    + intros j Hj. unfold btree_contains.
      destruct (btree_get _ (btree_insert _ _ m)) eqn:E; [|done].
      apply btree_get_elem, btree_insert_elem in E as [[E _]|[_ E]]; [| |done].
      * assert (j = i) as -> by (apply Hinj; [by right|by left|done]). done.
      * apply (contains_elem _ _ _ Hb) in E. rewrite Hfree in E by (by right). done.
    + intros j k Hj Hk. apply Hinj; by right.
    + exists m'. rewrite Hf, <- app_assoc. split; [done|]. intros h v.
      rewrite Hel, btree_insert_elem by done. split.
      * intros [[[-> ->]|[_ ?]]|(j & Hj & -> & ->)]; [right|by left|right].
        -- exists i. split; [by left|done].
        -- exists j. split; [by right|done].
      * intros [Hin|(j & [->|Hj]%elem_of_cons & -> & ->)].
        -- left. right. split; [|done]. intros ->. apply (contains_elem _ _ _ Hb) in Hin.
           unfold h0 in Hin. rewrite Hfree in Hin by (by left). done.
        -- left. by left.
        -- right. eauto.
Qed.

Lemma add_shard_ok r s n r' :
  ring_ok r → collision_free r s n → add_shard calculate_hash r s n = Ok r' → ring_ok r'.
Proof.
  intros [Hok Hlist Hown] [Hfree Hinj] Ha. unfold add_shard in Ha.
  destruct (shard_nodes r !! s) eqn:Hs; [done|].
  destruct (add_loop_free s (seqZ 0 n) (nodes r) []) as (m' & Hf & Hel).
  { apply Hok. } { apply NoDup_seqZ. }
  { intros i Hi%elem_of_seqZ. apply Hfree. lia. }
  { intros i j Hi%elem_of_seqZ Hj%elem_of_seqZ. apply Hinj; lia. }
  rewrite Hf in Ha. injection Ha as <-.
  destruct (add_loop_ok _ _ _ _ _ _ Hok Hf) as (Hok' & _). split; simpl; [done| |].
  - intros h v [Hin|(i & Hi & -> & ->)]%Hel.
    + destruct (Hlist _ _ Hin) as (vs & Hvs & Hv). exists vs. split; [|done].
      rewrite lookup_insert_ne; [done|]. intros E. rewrite <- E in Hvs. congruence.
    + eexists. rewrite lookup_insert_eq. split; [done|].
      apply list_elem_of_In, in_map. by apply list_elem_of_In.
  - intros s' vs. destruct (decide (s' = s)) as [->|Hne].
    + rewrite lookup_insert_eq. intros [= <-]. simpl. split.
      * apply NoDup_fmap_2; [|apply NoDup_seqZ]. intros i j [= _ E]. done.
      * intros v (i & -> & Hi)%list_elem_of_fmap. split; [done|]. apply Hel. right. eauto.
    + rewrite lookup_insert_ne by done. intros Hvs. destruct (Hown _ _ Hvs) as [Hnd Hv].
      split; [done|]. intros v Hin. destruct (Hv v Hin) as [-> Hin']. split; [done|].
      apply Hel. by left.
Qed.
End Adding.

(** ** Removing and reassigning *)

Lemma remove_all_elem vs (m : btree VirtualNode) h v :
  (h, v) ∈ foldl (λ m v, btree_remove (vn_hash v) m) m vs ↔
  (h, v) ∈ m ∧ ∀ w, w ∈ vs → vn_hash w ≠ h.
Proof.
  revert m. induction vs as [|x vs IH]; intros m; simpl.
  - split; [|tauto]. intros Hin. split; [done|]. by intros w ?%elem_of_nil.
  - rewrite IH, btree_remove_elem. setoid_rewrite elem_of_cons. split.
    + intros [[Hin Hx] Hall]. split; [done|]. intros w [->|Hw]; [done|auto].
    + intros [Hin Hall]. split_and!; [done|apply not_eq_sym; auto|auto].
Qed.

Lemma remove_all_ok vs (m : btree VirtualNode) :
  nodes_ok m → nodes_ok (foldl (λ m v, btree_remove (vn_hash v) m) m vs).
Proof.
  intros Hok. split.
  - destruct Hok as [Hb _]. revert m Hb. induction vs as [|x vs IH]; intros m Hb; [done|].
    apply IH. by apply btree_filter_ok.
  - intros h v [Hin _]%remove_all_elem. by apply Hok.
Qed.

(** In a consistent ring, [remove_shard] removes the nodes of the shard, all of
    them and no other. *)
Lemma remove_shard_elem r s r' vs h v :
  ring_ok r → remove_shard r s = Ok (r', vs) →
  (h, v) ∈ nodes r' ↔ (h, v) ∈ nodes r ∧ vn_shard v ≠ s.
Proof.
  intros [Hok Hlist Hown] Hr. unfold remove_shard in Hr.
  destruct (shard_nodes r !! s) as [vs'|] eqn:Hs; simplify_eq. simpl.
  rewrite remove_all_elem. destruct (Hown _ _ Hs) as [_ Hv]. split.
  - intros [Hin Hall]. split; [done|]. intros E.
    destruct (Hlist _ _ Hin) as (ws & Hws & Hvw). rewrite E, Hs in Hws. simplify_eq.
    apply (Hall v Hvw). by apply Hok.
  - intros [Hin Hne]. split; [done|]. intros w Hw E. destruct (Hv w Hw) as [Hws Hwin].
    rewrite E in Hwin. destruct Hok as [Hb _].
    apply (btree_elem_get _ _ _ Hb) in Hin, Hwin. congruence.
Qed.

Lemma remove_shard_ok r s r' vs : ring_ok r → remove_shard r s = Ok (r', vs) → ring_ok r'.
Proof.
  intros Hring Hr. pose proof (remove_shard_elem r s r' vs) as Hel.
  specialize (λ h v, Hel h v Hring Hr). destruct Hring as [Hok Hlist Hown].
  unfold remove_shard in Hr. destruct (shard_nodes r !! s) as [vs'|] eqn:Hs; simplify_eq.
  split; simpl in *; [by apply remove_all_ok| |].
  - intros h v [Hin Hne]%Hel. destruct (Hlist _ _ Hin) as (ws & Hws & Hv). exists ws.
    by rewrite lookup_delete_ne.
  - intros s' ws [Hne Hws]%lookup_delete_Some. destruct (Hown _ _ Hws) as [Hnd Hv].
    split; [done|]. intros v Hin. destruct (Hv v Hin) as [Ev Hin']. split; [done|].
    apply Hel. split; [done|congruence].
Qed.

(** Removing a shard disturbs nothing else: on a consistent ring,
    [remove_shard] returns the shard's virtual nodes, leaves a consistent ring
    that has no node of the shard and all others, and every hash that was not
    routed to the removed shard is routed as before; removing a shard the ring
    has not is an error. *)
Theorem remove_shard_keeps_other_routes r s hash :
  ring_ok r → in_u64 hash →
  (∀ vs, shard_nodes r !! s = Some vs →
     ∃ r', remove_shard r s = Ok (r', vs) ∧ ring_ok r' ∧
       (∀ h v, (h, v) ∈ nodes r' ↔ (h, v) ∈ nodes r ∧ vn_shard v ≠ s) ∧
       (find_shard r hash ≠ Some s → find_shard r' hash = find_shard r hash)) ∧
  (shard_nodes r !! s = None → remove_shard r s = Err (ShardNotFound s)).
Proof.
  intros Hring Hh. split; [|unfold remove_shard; by intros ->].
  intros vs Hs. destruct (remove_shard r s) as [[r' vs']| |] eqn:Hr;
    [|by unfold remove_shard in Hr; rewrite Hs in Hr..].
  assert (vs' = vs) as -> by (unfold remove_shard in Hr; rewrite Hs in Hr; by simplify_eq).
  exists r'. pose proof (remove_shard_ok _ _ _ _ Hring Hr) as Hring'.
  split_and!; [done|done|by intros; eapply remove_shard_elem|].
  pose proof (λ h v, remove_shard_elem r s r' vs h v Hring Hr) as Hel.
  intros Hne. rewrite !find_shard_vnode in *.
  destruct (decide (nodes r = [])) as [E|Hn].
  { assert (nodes r' = []) as E'.
    { apply elem_of_nil_inv. intros [h v] [Hin _]%Hel. rewrite E in Hin. by apply elem_of_nil in Hin. }
    unfold find_vnode. by rewrite E, E'. }
  destruct (find_vnode_closest r hash (ring_nodes _ Hring) Hh Hn) as (v & Hv & Hin & Hmin).
  rewrite Hv in *. simpl in Hne.
  rewrite (find_vnode_unique r' hash v); [done|apply (ring_nodes _ Hring')|done| |].
  - apply Hel. split; [done|congruence].
  - intros h w [Hw _]%Hel. eauto.
Qed.

Lemma retain_elem h w (vs : list VirtualNode) :
  w ∈ List.filter (λ w, negb (vn_hash w =? h)%Z) vs ↔ w ∈ vs ∧ vn_hash w ≠ h.
Proof. by rewrite !list_elem_of_In, filter_In, negb_true_iff, Z.eqb_neq. Qed.

Lemma NoDup_retain (p : VirtualNode → bool) vs : NoDup vs → NoDup (List.filter p vs).
Proof.
  induction 1 as [|x vs Hx _ IH]; simpl; [constructor|].
  destruct (p x); [|done]. constructor; [|done].
  by rewrite list_elem_of_In, filter_In, <- list_elem_of_In; intros [? _].
Qed.

(** The lists of the shards when the node at [h] is taken from its owner. *)
Definition without_node (r : ConsistentHashRing) (h : Z) (v : VirtualNode)
    (vs : list VirtualNode) : gmap ShardId (list VirtualNode) :=
  <[vn_shard v := List.filter (λ w, negb (vn_hash w =? h)%Z) vs]> (shard_nodes r).

Lemma without_node_owned r h v vs s ws :
  ring_ok r → (h, v) ∈ nodes r → shard_nodes r !! vn_shard v = Some vs →
  without_node r h v vs !! s = Some ws →
  NoDup ws ∧ ∀ w, w ∈ ws → vn_shard w = s ∧ (vn_hash w, w) ∈ nodes r ∧ vn_hash w ≠ h.
Proof.
  intros [[Hb _] _ Hown] Hin Hvs. unfold without_node.
  destruct (decide (s = vn_shard v)) as [->|Hne].
  - rewrite lookup_insert_eq. intros [= <-]. destruct (Hown _ _ Hvs) as [Hnd Hvso].
    split; [by apply NoDup_retain|]. intros w [Hw Hwh]%retain_elem. by destruct (Hvso w Hw).
  - rewrite lookup_insert_ne by done. intros Hws. destruct (Hown _ _ Hws) as [? Hw].
    split; [done|]. intros w Hwin. destruct (Hw w Hwin) as [Hws' Hwn]. split_and!; try done.
    intros E. rewrite E in Hwn. apply (btree_elem_get _ _ _ Hb) in Hwn, Hin. congruence.
Qed.

Lemma without_node_listed r h v vs w :
  ring_ok r → shard_nodes r !! vn_shard v = Some vs →
  (vn_hash w, w) ∈ nodes r → vn_hash w ≠ h →
  ∃ ws, without_node r h v vs !! vn_shard w = Some ws ∧ w ∈ ws.
Proof.
  intros [_ Hlist _] Hvs Hw Hwh. destruct (Hlist _ _ Hw) as (ws & Hws & Hwin).
  unfold without_node. destruct (decide (vn_shard w = vn_shard v)) as [E|Hne].
  - rewrite E, lookup_insert_eq. eexists. split; [done|]. apply retain_elem.
    rewrite E, Hvs in Hws. by simplify_eq.
  - rewrite lookup_insert_ne by done. eauto.
Qed.

(** Giving a node to shard [s] on top of lists that do not have it. *)
Lemma give_node_ok r h v' s sn counts :
  nodes_ok (nodes r) → in_u64 h → vn_hash v' = h → vn_shard v' = s →
  (∀ s' ws, sn !! s' = Some ws →
     NoDup ws ∧ ∀ w, w ∈ ws → vn_shard w = s' ∧ (vn_hash w, w) ∈ nodes r ∧ vn_hash w ≠ h) →
  (∀ w, (vn_hash w, w) ∈ nodes r → vn_hash w ≠ h →
     ∃ ws, sn !! vn_shard w = Some ws ∧ w ∈ ws) →
  ring_ok {| nodes := btree_insert h v' (nodes r);
             shard_nodes := <[s := default [] (sn !! s) ++ [v']]> sn;
             virtual_node_counts := counts |}.
Proof.
  intros [Hb Hn] Hu Hvh Hvs Hsn Hsn'. split; simpl.
  - split; [by apply btree_insert_ok|]. intros k w. rewrite btree_insert_elem by done.
    intros [[-> ->]|[_ ?]]; auto.
  - intros k w. rewrite btree_insert_elem by done. intros [[-> ->]|[Hk Hw]].
    + rewrite Hvs, lookup_insert_eq. eexists. split; [done|]. set_solver.
    + destruct (Hn _ _ Hw) as [<- _]. destruct (Hsn' w Hw Hk) as (ws & Hws & Hwin).
      destruct (decide (vn_shard w = s)) as [E|Hne].
      * rewrite E in *. rewrite lookup_insert_eq, Hws. eexists. split; [done|]. set_solver.
      * rewrite lookup_insert_ne by done. eauto.
  - intros s' ws. destruct (decide (s' = s)) as [->|Hne].
    + rewrite lookup_insert_eq. intros [= <-].
      assert (NoDup (default [] (sn !! s)) ∧ ∀ w, w ∈ default [] (sn !! s) →
                vn_shard w = s ∧ (vn_hash w, w) ∈ nodes r ∧ vn_hash w ≠ h) as [Hnd Hw].
      { destruct (sn !! s) as [ws|] eqn:E; [by apply Hsn|]. split; [constructor|set_solver]. }
      split.
      * apply NoDup_app. split_and!; [done| |apply NoDup_singleton].
        intros w Hwin ->%list_elem_of_singleton. by destruct (Hw _ Hwin) as (_ & _ & []).
      * intros w [Hwin| ->%list_elem_of_singleton]%elem_of_app.
        -- destruct (Hw _ Hwin) as (? & Hwn & Hwh). split; [done|].
           apply btree_insert_elem; [done|]. by right.
        -- split; [done|]. apply btree_insert_elem; [done|]. by left.
    + rewrite lookup_insert_ne by done. intros Hws. destruct (Hsn _ _ Hws) as [? Hw].
      split; [done|]. intros w Hwin. destruct (Hw _ Hwin) as (? & Hwn & Hwh). split; [done|].
      apply btree_insert_elem; [done|]. by right.
Qed.

Lemma reassign_ok r h s r' : ring_ok r → reassign_virtual_node r h s = Ok r' → ring_ok r'.
Proof.
  intros Hring Hr. unfold reassign_virtual_node in Hr.
  destruct (btree_get h (nodes r)) as [v|] eqn:Hg; [|done].
  pose proof (btree_get_elem _ _ _ Hg) as Hin.
  destruct (ring_nodes _ Hring) as [_ Hn]. destruct (Hn _ _ Hin) as [Hvh Hu].
  destruct (ring_listed _ Hring _ _ Hin) as (vs & Hvs & Hv). rewrite Hvs in Hr. simplify_eq.
  apply give_node_ok; [apply (ring_nodes _ Hring)|done|done|done| |].
  - intros s' ws. by apply without_node_owned.
  - intros w. by apply without_node_listed.
Qed.

(** ** Reachable rings *)

Section Reachable.
Context (calculate_hash : string → Z) (Hrange : ∀ k, in_u64 (calculate_hash k)).

(** The rings reached by the operations, when no virtual node added collides. *)
Inductive ring_reachable : ConsistentHashRing → Prop :=
  | ring_new : ring_reachable new_ring
  | ring_add r s n r' :
      ring_reachable r → collision_free calculate_hash r s n →
      add_shard calculate_hash r s n = Ok r' → ring_reachable r'
  | ring_remove r s r' vs :
      ring_reachable r → remove_shard r s = Ok (r', vs) → ring_reachable r'
  | ring_reassign r h s r' :
      ring_reachable r → reassign_virtual_node r h s = Ok r' → ring_reachable r'
  | ring_clear r : ring_reachable r → ring_reachable (clear r).

Lemma new_ring_ok : ring_ok new_ring.
Proof.
  split; simpl.
  - split; [constructor|]. by intros h v ?%elem_of_nil.
  - by intros h v ?%elem_of_nil.
  - intros s vs. by rewrite lookup_empty.
Qed.

Lemma ring_reachable_ok r : ring_reachable r → ring_ok r.
Proof.
  induction 1 as [|r s n r' _ IH Hcf Ha|r s r' vs _ IH Hr|r h s r' _ IH Hr|r _ IH].
  - apply new_ring_ok.
  - by eapply add_shard_ok.
  - by eapply remove_shard_ok.
  - by eapply reassign_ok.
  - exact new_ring_ok.
Qed.

(** The ring's tables stay consistent: whatever shards are added without
    hash collisions, removed or cleared, or have virtual nodes reassigned, the node table
    is ordered, every virtual node on the ring is in its owner's list, and
    every node of a shard's list is on the ring once, owned by that shard. *)
Theorem ring_invariant r : ring_reachable r → ring_ok r.
Proof. apply ring_reachable_ok. Qed.
End Reachable.

(** ** Replicas *)

Lemma replica_loop_spec n shards vs :
  NoDup shards → (length shards < n)%nat →
  let res := replica_loop n shards vs in
  NoDup res ∧ (length res ≤ n)%nat ∧ shards `prefix_of` res ∧
  (∀ s, s ∈ res → s ∈ shards ∨ ∃ v, v ∈ vs ∧ vn_shard v = s) ∧
  ((length res < n)%nat → ∀ v, v ∈ vs → vn_shard v ∈ res).
Proof.
  revert shards. induction vs as [|v vs IH]; intros shards Hnd Hlen; simpl.
  - split_and!; [done|lia|done|auto|]. by intros _ v ?%elem_of_nil.
  - case_bool_decide as Hv.
    + destruct (IH shards Hnd Hlen) as (H1 & H2 & H3 & H4 & H5). split_and!; try done.
      * intros s Hs. destruct (H4 s Hs) as [?|(w & ? & ?)]; [by left|right]. exists w.
        split; [by right|done].
      * intros Hl w [->|Hw]%elem_of_cons; [|auto]. destruct H3 as [k ->]. set_solver.
    + assert (Hnd' : NoDup (shards ++ [vn_shard v])).
      { apply NoDup_app. split_and!; [done|set_solver|apply NoDup_singleton]. }
      rewrite length_app. simpl.
      destruct (Nat.leb_spec n (length shards + 1)).
      * split_and!; [done|rewrite length_app; simpl; lia|by exists [vn_shard v]| |].
        -- intros s [?| ->%list_elem_of_singleton]%elem_of_app; [by left|right].
           exists v. split; [by left|done].
        -- rewrite length_app. simpl. lia.
      * destruct (IH (shards ++ [vn_shard v]) Hnd') as (H1 & H2 & H3 & H4 & H5);
          [rewrite length_app; simpl; lia|]. split_and!; try done.
        -- etrans; [|done]. by exists [vn_shard v].
        -- intros s Hs. destruct (H4 s Hs) as [[?| ->%list_elem_of_singleton]%elem_of_app|(w & ? & ?)].
           ++ by left.
           ++ right. exists v. split; [by left|done].
           ++ right. exists w. split; [by right|done].
        -- intros Hl w [->|Hw]%elem_of_cons; [|auto]. destruct H3 as [k ->]. set_solver.
Qed.

(** The walk starts at the node that routing finds. *)
Lemma walk_head r hash :
  nodes r ≠ [] →
  head (map snd (btree_range_from hash (nodes r) ++ nodes r)) = find_vnode r hash.
Proof.
  intros Hne. unfold find_vnode.
  destruct (btree_range_from hash (nodes r)) as [|[h v] m]; [|done].
  by destruct (nodes r) as [|[h v] m].
Qed.

(** Replica sets: for a positive replica count, [find_shards_with_replicas]
    answers different shards, all of them owners of nodes of the ring, the
    first one being the shard [find_shard] routes to; there are never more than
    asked for, and fewer only when every shard of the ring is among them. *)
Theorem replicas_spec r hash n :
  (0 < n)%nat → nodes r ≠ [] →
  let res := find_shards_with_replicas r hash n in
  NoDup res ∧ (length res ≤ n)%nat ∧ head res = find_shard r hash ∧
  (∀ s, s ∈ res → ∃ h v, (h, v) ∈ nodes r ∧ vn_shard v = s) ∧
  ((length res < n)%nat → ∀ h v, (h, v) ∈ nodes r → vn_shard v ∈ res).
Proof.
  intros Hn Hne.
  set (vs := map snd (btree_range_from hash (nodes r) ++ nodes r)).
  assert (find_shards_with_replicas r hash n = replica_loop n [] vs) as ->
    by (unfold find_shards_with_replicas; by destruct (nodes r)).
  cbv zeta.
  assert (Hvs : ∀ v, v ∈ vs ↔ ∃ h, (h, v) ∈ nodes r).
  { intros v. unfold vs. rewrite list_elem_of_fmap. split.
    - intros ([h w] & -> & Hin). exists h. simpl.
      apply elem_of_app in Hin as [[Hin _]%btree_range_elem|Hin]; exact Hin.
    - intros [h Hin]. exists (h, v). split; [done|]. apply elem_of_app. by right. }
  destruct (replica_loop_spec n [] vs (NoDup_nil_2) Hn) as (H1 & H2 & _ & H4 & H5).
  split_and!; [done|done| | |].
  - rewrite find_shard_vnode. pose proof (walk_head r hash Hne) as Hh. fold vs in Hh.
    rewrite <- Hh. destruct vs as [|v vs']; [done|]. cbn [replica_loop head].
    rewrite bool_decide_false by apply not_elem_of_nil. cbn [app length].
    destruct (Nat.leb_spec n 1); [done|].
    destruct (replica_loop_spec n [vn_shard v] vs') as (_ & _ & [k ->] & _);
      [apply NoDup_singleton|done|done].
  - intros s Hs. destruct (H4 s Hs) as [?%elem_of_nil|(v & Hv & <-)]; [done|].
    apply Hvs in Hv as [h Hin]. eauto.
  - intros Hl h v Hin. apply H5; [done|]. apply Hvs. eauto.
Qed.

(** ** Concrete rings *)

Definition ring_or_new (m : result ring_error ConsistentHashRing) : ConsistentHashRing :=
  match m with Ok r => r | _ => new_ring end.
Definition one_shard : ConsistentHashRing := ring_or_new (add_shard calculate_hash new_ring 1 3).
Definition two_shards : ConsistentHashRing := ring_or_new (add_shard calculate_hash one_shard 2 3).

Ltac three_cases i := assert (i = 0 ∨ i = 1 ∨ i = 2)%Z as [->|[->| ->]] by lia.

Lemma one_shard_reachable : ring_reachable calculate_hash one_shard.
Proof.
  apply (ring_add _ new_ring 1 3); [apply ring_new| |reflexivity].
  split; [done|]. intros i j Hi Hj. three_cases i; three_cases j; by vm_compute.
Qed.

Lemma two_shards_reachable : ring_reachable calculate_hash two_shards.
Proof.
  apply (ring_add _ one_shard 2 3); [apply one_shard_reachable| |reflexivity]. split.
  - intros i Hi. three_cases i; by vm_compute.
  - intros i j Hi Hj. three_cases i; three_cases j; by vm_compute.
Qed.

Lemma ring_invariant_witness : ring_ok two_shards.
Proof. apply (ring_invariant calculate_hash calculate_hash_range), two_shards_reachable. Defined.

Lemma find_shard_closest_witness :
  (nodes two_shards = [] → find_shard two_shards 0 = None) ∧
  (nodes two_shards ≠ [] → ∃ v, find_shard two_shards 0 = Some (vn_shard v) ∧
     (vn_hash v, v) ∈ nodes two_shards ∧
     ∀ h w, (h, w) ∈ nodes two_shards → (clockwise 0 (vn_hash v) ≤ clockwise 0 h)%Z).
Proof.
  apply find_shard_closest; [|by split].
  apply (ring_nodes _ (ring_reachable_ok calculate_hash calculate_hash_range _ two_shards_reachable)).
Defined.

Lemma add_shard_moves_only_to_new_witness :
  find_shard two_shards 7 = Some 2%Z ∨ find_shard two_shards 7 = find_shard one_shard 7.
Proof.
  apply (add_shard_moves_only_to_new calculate_hash calculate_hash_range one_shard 2 3 7);
    [|by split|reflexivity].
  refine (ring_nodes _ (ring_reachable_ok calculate_hash calculate_hash_range _ one_shard_reachable)).
Defined.

Lemma remove_shard_keeps_other_routes_witness :
  ∃ r', remove_shard two_shards 2 = Ok (r', default [] (shard_nodes two_shards !! 2%Z)) ∧
    ring_ok r' ∧
    (∀ h v, (h, v) ∈ nodes r' ↔ (h, v) ∈ nodes two_shards ∧ vn_shard v ≠ 2%Z) ∧
    (find_shard two_shards 7 ≠ Some 2%Z → find_shard r' 7 = find_shard two_shards 7).
Proof.
  apply (remove_shard_keeps_other_routes two_shards 2 7);
    [|by split|reflexivity].
  apply (ring_reachable_ok calculate_hash calculate_hash_range), two_shards_reachable.
Defined.

Lemma replicas_spec_witness :
  let res := find_shards_with_replicas two_shards 7 5 in
  NoDup res ∧ (length res ≤ 5)%nat ∧ head res = find_shard two_shards 7 ∧
  (∀ s, s ∈ res → ∃ h v, (h, v) ∈ nodes two_shards ∧ vn_shard v = s) ∧
  ((length res < 5)%nat → ∀ h v, (h, v) ∈ nodes two_shards → vn_shard v ∈ res).
Proof. apply replicas_spec; [lia|vm_compute; discriminate]. Defined.

(** ** Outside the conditions *)

(** A replica count of zero still answers one shard. *)
Theorem zero_replicas_returns_one : length (find_shards_with_replicas two_shards 7 0) = 1%nat.
Proof. reflexivity. Qed.

(** With hashes that collide, the retry of [add_shard] is not checked in turn:
    the second shard takes over the first one's only node, and removing it
    again leaves a ring with a registered shard and no node. *)
Theorem retry_overwrites_other_shard :
  ∃ r1 r2 r3, add_shard (λ _, 42%Z) new_ring 1 1 = Ok r1 ∧
    add_shard (λ _, 42%Z) r1 2 1 = Ok r2 ∧
    find_shard r1 0 = Some 1%Z ∧ find_shard r2 0 = Some 2%Z ∧
    length <$> shard_nodes r2 !! 1%Z = Some 1%nat ∧
    fst <$> remove_shard r2 2 = Ok r3 ∧
    find_shard r3 0 = None ∧ shard_count r3 = 1%nat.
Proof. do 3 eexists. repeat (split; [reflexivity|]). reflexivity. Qed.
