(* ===== verification/CoordState.v ===== *)
(** * The coordinator's replicated state machine

    Models [ha/state_machine.rs] and the data of
    [governance/distributed/shard_metadata.rs].  A command that fails keeps the
    changes it made before the error, so every operation returns the state next
    to its result.  What differs between replicas is an argument of the
    operations: the clock reading [now] and the order in which
    [HashMap::values] lists the shards. *)

From Stdlib Require Import ZArith Lia Ascii.
From Stdlib Require Import SpecFloat.
From stdpp Require Import base numbers option strings gmap list.
From S2P Require Import Prelude RustStd F64 BTree HashRing.

(** [ShardStatus]. *)
Inductive ShardStatus : Type := Active | Draining | Provisioning | Degraded | Down.

#[global] Instance ShardStatus_eq_dec : EqDecision ShardStatus.
Proof. solve_decision. Defined.

(** [HashRange]. *)
Record HashRange : Type := { range_start : Z; range_end : Z }.

(** [ShardMetadata]. *)
Record ShardMetadata : Type := {
  shard_id : ShardId;
  hash_range : HashRange;
  shard_status : ShardStatus;
  leader_address : string;
  replica_addresses : list string;
  triple_count : Z;
  size_bytes : Z;
  last_heartbeat : Z;
  raft_term : Z;
  created_at : Z;
  updated_at : Z;
}.

Definition with_status (m : ShardMetadata) (st : ShardStatus) : ShardMetadata :=
  {| shard_id := shard_id m; hash_range := hash_range m; shard_status := st;
     leader_address := leader_address m; replica_addresses := replica_addresses m;
     triple_count := triple_count m; size_bytes := size_bytes m;
     last_heartbeat := last_heartbeat m; raft_term := raft_term m;
     created_at := created_at m; updated_at := updated_at m |}.

(** [MigrationStatus] and [MigrationState]. *)
Inductive MigrationStatus : Type :=
  | MPlanning | MInProgress | MVerifying | MSwitching | MCompleted | MAborted | MFailed.

Record MigrationState : Type := {
  migration_id : string;
  source_shard : ShardId;
  target_shard : ShardId;
  virtual_nodes : list Z;
  started_at : Z;
  progress : f64;
  migration_status : MigrationStatus;
}.

Definition with_progress (m : MigrationState) (st : MigrationStatus) (p : f64)
    : MigrationState :=
  {| migration_id := migration_id m; source_shard := source_shard m;
     target_shard := target_shard m; virtual_nodes := virtual_nodes m;
     started_at := started_at m; progress := p; migration_status := st |}.

(** [StateCommand]. *)
Inductive StateCommand : Type :=
  | RegisterShard (shard : ShardMetadata)
  | UnregisterShard (s : ShardId)
  | UpdateShardStatus (s : ShardId) (st : ShardStatus)
  | UpdateHeartbeat (s : ShardId) (timestamp : Z)
  | UpdateHashRing (ring : ConsistentHashRing)
  | StartMigration (id : string) (source target : ShardId) (vnodes : list Z)
  | CompleteMigration (id : string)
  | AbortMigration (id : string)
  | UpdateConfig (key value : string).

(** [CoordinatorStateMachine]; [StateSnapshot] has the same fields. *)
Record CoordinatorStateMachine : Type := {
  shards : gmap ShardId ShardMetadata;
  heartbeats : gmap ShardId Z;
  hash_ring : option ConsistentHashRing;
  migrations : gmap string MigrationState;
  config : gmap string string;
  version : Z;
}.

Record StateSnapshot : Type := {
  snap_shards : gmap ShardId ShardMetadata;
  snap_heartbeats : gmap ShardId Z;
  snap_hash_ring : option ConsistentHashRing;
  snap_migrations : gmap string MigrationState;
  snap_config : gmap string string;
  snap_version : Z;
}.

(** One constructor per [anyhow!] message. *)
Inductive state_error : Type :=
  | AlreadyRegistered (s : ShardId)
  | NoSuchShard (s : ShardId)
  | MigrationExists (id : string)
  | NoSuchMigration (id : string)
  | RingFailed (e : ring_error).

#[global] Instance state_error_eq_dec : EqDecision state_error.
Proof. solve_decision. Defined.

Abbreviation sm := CoordinatorStateMachine.
Abbreviation outcome := (result state_error ()).

(** [CoordinatorStateMachine::new]. *)
Definition new_state : sm :=
  {| shards := ∅; heartbeats := ∅; hash_ring := None; migrations := ∅; config := ∅;
     version := 0 |}.

Definition set_shards (s : sm) (x : gmap ShardId ShardMetadata) : sm :=
  {| shards := x; heartbeats := heartbeats s; hash_ring := hash_ring s;
     migrations := migrations s; config := config s; version := version s |}.
Definition set_heartbeats (s : sm) (x : gmap ShardId Z) : sm :=
  {| shards := shards s; heartbeats := x; hash_ring := hash_ring s;
     migrations := migrations s; config := config s; version := version s |}.
Definition set_hash_ring (s : sm) (x : option ConsistentHashRing) : sm :=
  {| shards := shards s; heartbeats := heartbeats s; hash_ring := x;
     migrations := migrations s; config := config s; version := version s |}.
Definition set_migrations (s : sm) (x : gmap string MigrationState) : sm :=
  {| shards := shards s; heartbeats := heartbeats s; hash_ring := hash_ring s;
     migrations := x; config := config s; version := version s |}.
Definition set_config (s : sm) (x : gmap string string) : sm :=
  {| shards := shards s; heartbeats := heartbeats s; hash_ring := hash_ring s;
     migrations := migrations s; config := x; version := version s |}.
Definition set_version (s : sm) (x : Z) : sm :=
  {| shards := shards s; heartbeats := heartbeats s; hash_ring := hash_ring s;
     migrations := migrations s; config := config s; version := x |}.

(** A loop of ring operations: it stops at the first error, with the ring as it
    is then. *)
Fixpoint ring_loop {A} (f : ConsistentHashRing → A → result ring_error ConsistentHashRing)
    (r : ConsistentHashRing) (xs : list A) : ConsistentHashRing * outcome :=
  match xs with
  | [] => (r, Ok ())
  | x :: xs' =>
      match f r x with
      | Ok r' => ring_loop f r' xs'
      | Err e => (r, Err (RingFailed e))
      | Panic => (r, Panic)
      end
  end.

Section StateMachine.
Context (overflow_checks : bool) (calculate_hash : string → Z).

(** [update_shard_status]. *)
Definition update_shard_status (id : ShardId) (st : ShardStatus) (s : sm) : sm * outcome :=
  match shards s !! id with
  | None => (s, Err (NoSuchShard id))
  | Some m => (set_shards s (<[id := with_status m st]> (shards s)), Ok ())
  end.

(** [update_heartbeat]. *)
Definition update_heartbeat (id : ShardId) (timestamp : Z) (s : sm) : sm * outcome :=
  match shards s !! id with
  | None => (s, Err (NoSuchShard id))
  | Some _ => (set_heartbeats s (<[id := timestamp]> (heartbeats s)), Ok ())
  end.

(** [update_hash_ring]. *)
Definition update_hash_ring (ring : ConsistentHashRing) (s : sm) : sm * outcome :=
  (set_hash_ring s (Some ring), Ok ()).

(** The body of the loop of [rebuild_hash_ring]. *)
Definition rebuild_one (ring : ConsistentHashRing) (m : ShardMetadata)
    : result ring_error ConsistentHashRing :=
  if bool_decide (shard_status m = Active)
  then add_shard calculate_hash ring (shard_id m) 150
  else Ok ring.

(** [rebuild_hash_ring]; [values] is the order of [self.shards.values()]. *)
Definition rebuild_hash_ring (values : gmap ShardId ShardMetadata → list ShardMetadata)
    (s : sm) : sm * outcome :=
  match hash_ring s with
  | Some ring =>
      let '(ring, r) := ring_loop rebuild_one (clear ring) (values (shards s)) in
      (set_hash_ring s (Some ring), r)
  | None => (s, Ok ())
  end.

(** [register_shard]. *)
Definition register_shard (now : Z) (values : gmap ShardId ShardMetadata → list ShardMetadata)
    (shard : ShardMetadata) (s : sm) : sm * outcome :=
  let id := shard_id shard in
  match shards s !! id with
  | Some _ => (s, Err (AlreadyRegistered id))
  | None =>
      let s := set_shards s (<[id := shard]> (shards s)) in
      let s := set_heartbeats s (<[id := now]> (heartbeats s)) in
      match hash_ring s with
      | Some _ => rebuild_hash_ring values s
      | None => (s, Ok ())
      end
  end.

(** [unregister_shard]. *)
Definition unregister_shard (values : gmap ShardId ShardMetadata → list ShardMetadata)
    (id : ShardId) (s : sm) : sm * outcome :=
  match shards s !! id with
  | None => (s, Err (NoSuchShard id))
  | Some _ =>
      let s := set_shards s (delete id (shards s)) in
      let s := set_heartbeats s (delete id (heartbeats s)) in
      match hash_ring s with
      | Some _ => rebuild_hash_ring values s
      | None => (s, Ok ())
      end
  end.

(** [start_migration]. *)
Definition start_migration (now : Z) (id : string) (source target : ShardId)
    (vnodes : list Z) (s : sm) : sm * outcome :=
  match migrations s !! id with
  | Some _ => (s, Err (MigrationExists id))
  | None =>
      let m := {| migration_id := id; source_shard := source; target_shard := target;
                  virtual_nodes := vnodes; started_at := now; progress := f64_zero;
                  migration_status := MInProgress |} in
      (set_migrations s (<[id := m]> (migrations s)), Ok ())
  end.

(** [complete_migration]: the migration is marked before the ring is changed. *)
Definition complete_migration (id : string) (s : sm) : sm * outcome :=
  match migrations s !! id with
  | None => (s, Err (NoSuchMigration id))
  | Some m =>
      let m := with_progress m MCompleted (f64_of_i64 100) in
      let s := set_migrations s (<[id := m]> (migrations s)) in
      match hash_ring s with
      | Some ring =>
          let '(ring, r) :=
            ring_loop (λ ring vnode, reassign_virtual_node ring vnode (target_shard m))
              ring (virtual_nodes m) in
          (set_hash_ring s (Some ring), r)
      | None => (s, Ok ())
      end
  end.

(** [abort_migration]. *)
Definition abort_migration (id : string) (s : sm) : sm * outcome :=
  match migrations s !! id with
  | None => (s, Err (NoSuchMigration id))
  | Some m =>
      (set_migrations s (<[id := with_progress m MAborted (progress m)]> (migrations s)), Ok ())
  end.

(** [update_config]. *)
Definition update_config (key value : string) (s : sm) : sm * outcome :=
  (set_config s (<[key := value]> (config s)), Ok ()).

(** The [match] of [apply]. *)
Definition dispatch (now : Z) (values : gmap ShardId ShardMetadata → list ShardMetadata)
    (c : StateCommand) : sm → sm * outcome :=
  match c with
  | RegisterShard shard => register_shard now values shard
  | UnregisterShard id => unregister_shard values id
  | UpdateShardStatus id st => update_shard_status id st
  | UpdateHeartbeat id timestamp => update_heartbeat id timestamp
  | UpdateHashRing ring => update_hash_ring ring
  | StartMigration id source target vnodes => start_migration now id source target vnodes
  | CompleteMigration id => complete_migration id
  | AbortMigration id => abort_migration id
  | UpdateConfig key value => update_config key value
  end.

(** [CoordinatorStateMachine::apply]. *)
Definition apply (now : Z) (values : gmap ShardId ShardMetadata → list ShardMetadata)
    (c : StateCommand) (s : sm) : sm * outcome :=
  let '(s, r) := dispatch now values c s in
  match r with
  | Ok _ =>
      if (version s + 1 <? 2 ^ 64)%Z then (set_version s (version s + 1), Ok ())
      else if overflow_checks then (s, Panic)
      else (set_version s ((version s + 1) mod 2 ^ 64), Ok ())
  | _ => (s, r)
  end.
End StateMachine.

(** [snapshot] and [restore]. *)
Definition snapshot (s : sm) : StateSnapshot :=
  {| snap_shards := shards s; snap_heartbeats := heartbeats s; snap_hash_ring := hash_ring s;
     snap_migrations := migrations s; snap_config := config s; snap_version := version s |}.
Definition restore (s : sm) (x : StateSnapshot) : sm :=
  {| shards := snap_shards x; heartbeats := snap_heartbeats x; hash_ring := snap_hash_ring x;
     migrations := snap_migrations x; config := snap_config x; version := snap_version x |}.
