(* ===== verification/CoordStateFacts.v ===== *)
(** * The coordinator's state machine: properties

    Replicas that apply the same commands agree, whatever their clocks say and
    in whatever order their hash tables list the shards; the ring follows the
    active shards; a failed command changes nothing but for one kind; a
    completed migration moves exactly its virtual nodes. *)

From Stdlib Require Import ZArith Lia Ascii.
From Stdlib Require Import SpecFloat.
From stdpp Require Import base numbers option strings gmap list.
From S2P Require Import Prelude RustStd F64 BTree HashRing HashRingFacts CoordState.

(** ** The ring of a set of shards *)

Section RingOf.
Context (hash : string → Z) (Hrange : ∀ k, in_u64 (hash k)).

(** No two virtual nodes of the shards in [U] have the same hash. *)
Definition distinct_hashes (n : Z) (U : list ShardId) : Prop :=
  ∀ s s' i j, s ∈ U → s' ∈ U → (0 ≤ i < n)%Z → (0 ≤ j < n)%Z →
    hash (vnode_key s i) = hash (vnode_key s' j) → s = s' ∧ i = j.

(** The ring that holds [n] virtual nodes of each shard in [ids]. *)
Record ring_of (n : Z) (ids : list ShardId) (r : ConsistentHashRing) : Prop := {
  of_ok : ring_ok r;
  of_nodes h v : (h, v) ∈ nodes r ↔
    ∃ s i, s ∈ ids ∧ (0 ≤ i < n)%Z ∧ v = new_vnode hash s i ∧ h = vn_hash v;
  of_shards s : shard_nodes r !! s =
    if bool_decide (s ∈ ids) then Some (map (new_vnode hash s) (seqZ 0 n)) else None;
  of_counts s : virtual_node_counts r !! s = if bool_decide (s ∈ ids) then Some n else None;
}.

Lemma ring_of_unique n ids ids' r r' :
  ring_of n ids r → ring_of n ids' r' → (∀ s, s ∈ ids ↔ s ∈ ids') → r = r'.
Proof.
  intros [Hok Hn Hs Hc] [Hok' Hn' Hs' Hc'] Hids.
  destruct r as [ns sn cs], r' as [ns' sn' cs']; simpl in *. f_equal.
  - apply btree_ext; [apply Hok|apply Hok'|]. intros h v. rewrite Hn, Hn'.
    by setoid_rewrite Hids.
  - apply map_eq. intros s. rewrite Hs, Hs'. by rewrite (bool_decide_ext _ _ (Hids s)).
  - apply map_eq. intros s. rewrite Hc, Hc'. by rewrite (bool_decide_ext _ _ (Hids s)).
Qed.

Lemma ring_of_clear n r : ring_of n [] (clear r).
Proof.
  split; simpl; [apply new_ring_ok| |done|done].
  intros h v. rewrite elem_of_nil. split; [done|]. by intros (s & i & ?%elem_of_nil & _).
Qed.

Lemma ring_of_free n ids r s :
  ring_of n ids r → s ∉ ids → distinct_hashes n (s :: ids) → collision_free hash r s n.
Proof.
  intros [Hok Hn _ _] Hs Hd. split.
  - intros i Hi. unfold btree_contains.
    destruct (btree_get _ _) as [v|] eqn:E; [|done].
    apply btree_get_elem, Hn in E as (s' & j & Hs' & Hj & -> & E).
    apply (Hd s s' i j) in E as [<- _]; set_solver.
  - intros i j Hi Hj E. apply (Hd s s i j) in E as [_ ?]; set_solver.
Qed.

Lemma ring_of_add n ids r s :
  ring_of n ids r → s ∉ ids → distinct_hashes n (s :: ids) →
  ∃ r', add_shard hash r s n = Ok r' ∧ ring_of n (s :: ids) r'.
Proof.
  intros Hr Hs Hd. pose proof (ring_of_free _ _ _ _ Hr Hs Hd) as Hcf.
  destruct Hr as [Hok Hn Hsn Hc]. destruct Hcf as [Hfree Hinj].
  destruct (add_loop_free hash Hrange s (seqZ 0 n) (nodes r) []) as (m' & Hf & Hel).
  { apply Hok. } { apply NoDup_seqZ. }
  { intros i Hi%elem_of_seqZ. apply Hfree. lia. }
  { intros i j Hi%elem_of_seqZ Hj%elem_of_seqZ. apply Hinj; lia. }
  destruct (add_shard hash r s n) as [r'| |] eqn:Ha;
    [|unfold add_shard in Ha; rewrite Hsn, bool_decide_false, Hf in Ha by done; done..].
  exists r'. split; [done|].
  pose proof (add_shard_ok hash Hrange r s n r' Hok (conj Hfree Hinj) Ha) as Hok'.
  unfold add_shard in Ha. rewrite Hsn, bool_decide_false, Hf in Ha by done.
  injection Ha as <-.
  split; simpl in *; [done| | |].
  - intros h v. rewrite Hel, Hn. setoid_rewrite elem_of_seqZ. setoid_rewrite elem_of_cons. split.
    + intros [(s' & i & ? & ? & -> & ->)|(i & ? & -> & ->)]; [exists s', i|exists s, i];
        split_and!; auto; lia.
    + intros (s' & i & [->|?] & ? & -> & ->); [right; exists i|left; exists s', i];
        split_and!; auto; lia.
  - intros s'. destruct (decide (s' = s)) as [->|Hne].
    + by rewrite lookup_insert_eq, bool_decide_true by (by left).
    + rewrite lookup_insert_ne, Hsn by done. by rewrite (bool_decide_ext (s' ∈ ids) (s' ∈ s :: ids)) by set_solver.
  - intros s'. destruct (decide (s' = s)) as [->|Hne].
    + by rewrite lookup_insert_eq, bool_decide_true by (by left).
    + rewrite lookup_insert_ne, Hc by done. by rewrite (bool_decide_ext (s' ∈ ids) (s' ∈ s :: ids)) by set_solver.
Qed.

(** ** Rebuilding *)

Definition active_ids (ms : list ShardMetadata) : list ShardId :=
  shard_id <$> filter (λ m, shard_status m = Active) ms.

Lemma rebuild_loop_ok U ms ids r :
  ring_of 150 ids r → distinct_hashes 150 U → ids ⊆ U → active_ids ms ⊆ U →
  NoDup (active_ids ms) → (∀ s, s ∈ ids → s ∉ active_ids ms) →
  ∃ r' ids', ring_loop (rebuild_one hash) r ms = (r', Ok ()) ∧ ring_of 150 ids' r' ∧
    ∀ s, s ∈ ids' ↔ s ∈ ids ∨ s ∈ active_ids ms.
Proof.
  unfold active_ids. intros Hr Hd. revert ids r Hr.
  induction ms as [|m ms IH]; intros ids r Hr Hids Hms Hnd Hdis; simpl.
  - exists r, ids. split_and!; [done..|]. set_solver.
  - unfold rebuild_one at 1. destruct (decide (shard_status m = Active)) as [Ha|Ha].
    + rewrite bool_decide_true by done.
      rewrite filter_cons_True, fmap_cons in Hms, Hnd, Hdis by done.
      apply NoDup_cons in Hnd as [Hm Hnd].
      destruct (ring_of_add 150 ids r (shard_id m)) as (r1 & -> & Hr1); [done|set_solver| |].
      { intros s s' i j Hs Hs'. apply Hd; set_solver. }
      destruct (IH (shard_id m :: ids) r1 Hr1) as (r' & ids' & Hl & Hr' & Hel);
        [set_solver..|].
      exists r', ids'. split_and!; [done..|]. intros s.
      rewrite Hel, filter_cons_True, fmap_cons by done. set_solver.
    + rewrite bool_decide_false by done.
      rewrite filter_cons_False in Hms, Hnd, Hdis by done.
      destruct (IH ids r Hr) as (r' & ids' & Hl & Hr' & Hel); [done..|].
      exists r', ids'. split_and!; [done..|]. intros s. by rewrite Hel, filter_cons_False.
Qed.

(** The registered shards are filed under their own identifiers, all in [U]. *)
Definition state_ok (U : list ShardId) (s : sm) : Prop :=
  ∀ k m, shards s !! k = Some m → shard_id m = k ∧ k ∈ U.

(** An order in which a hash table may list its values. *)
Definition valid_order (values : gmap ShardId ShardMetadata → list ShardMetadata) : Prop :=
  ∀ m, values m ≡ₚ (map_to_list m).*2.

Definition active (s : sm) (x : ShardId) : Prop :=
  ∃ m, shards s !! x = Some m ∧ shard_status m = Active.

Lemma active_ids_elem U s values x :
  state_ok U s → valid_order values → x ∈ active_ids (values (shards s)) ↔ active s x.
Proof.
  intros Hok Hv. unfold active_ids, active. rewrite list_elem_of_fmap.
  setoid_rewrite list_elem_of_filter. setoid_rewrite (Hv (shards s)). split.
  - intros (m & -> & Ha & ([k m'] & -> & Hin)%list_elem_of_fmap).
    apply elem_of_map_to_list in Hin. simpl in *. destruct (Hok _ _ Hin) as [-> _]. eauto.
  - intros (m & Hm & Ha). exists m. destruct (Hok _ _ Hm) as [<- _]. split_and!; [done..|].
    apply list_elem_of_fmap. exists (shard_id m, m). split; [done|]. by apply elem_of_map_to_list.
Qed.

Lemma NoDup_fmap_filter (P : ShardMetadata → Prop) `{!∀ m, Decision (P m)} ms :
  NoDup (shard_id <$> ms) → NoDup (shard_id <$> filter P ms).
Proof.
  induction ms as [|m ms IH]; [done|]. rewrite fmap_cons. intros [Hm Hnd]%NoDup_cons.
  destruct (decide (P m)).
  - rewrite filter_cons_True, fmap_cons by done. apply NoDup_cons. split; [|auto].
    intros (m' & E & [_ Hin]%list_elem_of_filter)%list_elem_of_fmap. apply Hm.
    apply list_elem_of_fmap. eauto.
  - rewrite filter_cons_False by done. auto.
Qed.

Lemma active_ids_NoDup U s values :
  state_ok U s → valid_order values → NoDup (active_ids (values (shards s))).
Proof.
  intros Hok Hv. apply NoDup_fmap_filter. rewrite (Hv (shards s)).
  assert (shard_id <$> (map_to_list (shards s)).*2 = (map_to_list (shards s)).*1) as ->.
  { rewrite <- list_fmap_compose. apply list_fmap_ext. intros i [k m] Hi. simpl.
    apply list_elem_of_lookup_2, elem_of_map_to_list in Hi. by apply Hok in Hi as [-> _]. }
  apply NoDup_fst_map_to_list.
Qed.

Lemma rebuild_ok U s values ring :
  state_ok U s → valid_order values → distinct_hashes 150 U → hash_ring s = Some ring →
  ∃ ring' ids, rebuild_hash_ring hash values s = (set_hash_ring s (Some ring'), Ok ()) ∧
    ring_of 150 ids ring' ∧ ∀ x, x ∈ ids ↔ active s x.
Proof.
  intros Hok Hv Hd Hring. unfold rebuild_hash_ring. rewrite Hring.
  destruct (rebuild_loop_ok U (values (shards s)) [] (clear ring)) as (r' & ids & -> & Hr' & Hel).
  - apply ring_of_clear.
  - done.
  - set_solver.
  - intros x Hx. apply (active_ids_elem U) in Hx as (m & Hm & _); [|done..].
    by apply Hok in Hm as [_ ?].
  - by apply (active_ids_NoDup U).
  - set_solver.
  - exists r', ids. split_and!; [done..|]. intros x. rewrite Hel, (active_ids_elem U) by done. set_solver.
Qed.
End RingOf.

(** ** Logs *)

(** A command with what the replica that applies it sees: its clock and the
    order of its hash table. *)
Record log_step : Type := {
  clock : Z;
  order : gmap ShardId ShardMetadata → list ShardMetadata;
  command : StateCommand;
}.

Section Logs.
Context (overflow_checks : bool) (hash : string → Z).

Fixpoint run_log (s : sm) (l : list log_step) : sm * list outcome :=
  match l with
  | [] => (s, [])
  | st :: l' =>
      let '(s, r) := apply overflow_checks hash (clock st) (order st) (command st) s in
      match r with
      | Panic => (s, [r])
      | _ => let '(s, rs) := run_log s l' in (s, r :: rs)
      end
  end.
End Logs.

(** The log registers only shards of [U]. *)
Definition step_ok (U : list ShardId) (st : log_step) : Prop :=
  valid_order (order st) ∧
  match command st with RegisterShard m => shard_id m ∈ U | _ => True end.

(** States that differ in nothing but clock readings: those of heartbeats and
    the start of migrations. *)
Definition forget_start (m : MigrationState) : MigrationState :=
  {| migration_id := migration_id m; source_shard := source_shard m;
     target_shard := target_shard m; virtual_nodes := virtual_nodes m; started_at := 0;
     progress := progress m; migration_status := migration_status m |}.

Record sm_equiv (s t : sm) : Prop := {
  eq_shards : shards s = shards t;
  eq_heartbeats : dom (heartbeats s) = dom (heartbeats t);
  eq_hash_ring : hash_ring s = hash_ring t;
  eq_migrations : forget_start <$> migrations s = forget_start <$> migrations t;
  eq_config : config s = config t;
  eq_version : version s = version t;
}.
#[global] Instance sm_equivalence : Equivalence sm_equiv.
Proof.
  split.
  - by intros s.
  - intros s t []. by split.
  - intros s t u [] []. split; congruence.
Qed.

#[global] Instance shards_proper : Proper (sm_equiv ==> eq) shards := eq_shards.
#[global] Instance hash_ring_proper : Proper (sm_equiv ==> eq) hash_ring := eq_hash_ring.
#[global] Instance config_proper : Proper (sm_equiv ==> eq) config := eq_config.
#[global] Instance version_proper : Proper (sm_equiv ==> eq) version := eq_version.

#[global] Instance set_version_proper : Proper (sm_equiv ==> eq ==> sm_equiv) set_version.
Proof. intros s t [] v ? <-. by split. Qed.
#[global] Instance set_config_proper : Proper (sm_equiv ==> eq ==> sm_equiv) set_config.
Proof. intros s t [] v ? <-. by split. Qed.
#[global] Instance set_shards_proper : Proper (sm_equiv ==> eq ==> sm_equiv) set_shards.
Proof. intros s t [] v ? <-. by split. Qed.
#[global] Instance set_hash_ring_proper : Proper (sm_equiv ==> eq ==> sm_equiv) set_hash_ring.
Proof. intros s t [] v ? <-. by split. Qed.

Lemma set_heartbeats_equiv s t h h' :
  sm_equiv s t → dom h = dom h' → sm_equiv (set_heartbeats s h) (set_heartbeats t h').
Proof. intros []. by split. Qed.

Lemma set_migrations_equiv s t m m' :
  sm_equiv s t → forget_start <$> m = forget_start <$> m' →
  sm_equiv (set_migrations s m) (set_migrations t m').
Proof. intros []. by split. Qed.

(** Equivalent states hold the same migrations, but for their start. *)
Lemma migration_equiv s t id :
  sm_equiv s t →
  match migrations s !! id, migrations t !! id with
  | Some m, Some m' => forget_start m = forget_start m'
  | None, None => True
  | _, _ => False
  end.
Proof.
  intros H. pose proof (f_equal (lookup id) (eq_migrations _ _ H)) as E.
  rewrite !lookup_fmap in E.
  destruct (migrations s !! id), (migrations t !! id); [by apply Some_inj|done..].
Qed.

Definition pair_equiv (p q : sm * outcome) : Prop := sm_equiv p.1 q.1 ∧ p.2 = q.2.

Section Agreement.
Context (overflow_checks : bool) (hash : string → Z) (Hrange : ∀ k, in_u64 (hash k)).
Context (U : list ShardId) (Hd : distinct_hashes hash 150 U).

Lemma rebuild_equiv s t o o' :
  sm_equiv s t → state_ok U s → valid_order o → valid_order o' →
  pair_equiv (rebuild_hash_ring hash o s) (rebuild_hash_ring hash o' t).
Proof.
  intros H Hs Ho Ho'. destruct (hash_ring s) as [r|] eqn:Hr.
  - assert (state_ok U t) as Ht by (intros k m; rewrite <- (eq_shards _ _ H); apply Hs).
    destruct (rebuild_ok hash Hrange U s o r) as (r1 & ids1 & -> & Hr1 & Ha1); [done..|].
    destruct (rebuild_ok hash Hrange U t o' r) as (r2 & ids2 & -> & Hr2 & Ha2);
      [by rewrite <- ?(eq_hash_ring _ _ H)..|].
    assert (r1 = r2) as ->.
    { apply (ring_of_unique hash 150 ids1 ids2); [done..|]. intros x.
      rewrite Ha1, Ha2. unfold active. by rewrite (eq_shards _ _ H). }
    split; [|done]. simpl. by rewrite H.
  - unfold rebuild_hash_ring. rewrite <- (eq_hash_ring _ _ H), Hr. by split.
Qed.

Lemma register_equiv s t n n' o o' m :
  sm_equiv s t → state_ok U s → valid_order o → valid_order o' → shard_id m ∈ U →
  pair_equiv (register_shard hash n o m s) (register_shard hash n' o' m t).
Proof.
  intros H Hs Ho Ho' Hm. unfold register_shard.
  rewrite <- (eq_shards _ _ H). destruct (shards s !! shard_id m) eqn:E; [by split|].
  set (s1 := set_heartbeats _ _). set (t1 := set_heartbeats (set_shards t _) _).
  assert (sm_equiv s1 t1) as H1.
  { apply set_heartbeats_equiv; [by apply set_shards_proper|]. simpl.
    by rewrite !dom_insert_L, (eq_heartbeats _ _ H). }
  assert (state_ok U s1) as Hs1.
  { intros k m'. simpl. rewrite lookup_insert_Some. intros [[<- <-]|[_ ?]]; [done|auto]. }
  pose proof (eq_hash_ring _ _ H1) as Er. simpl in Er. cbn [hash_ring set_heartbeats s1 t1 set_shards].
  rewrite <- Er. destruct (hash_ring s); [by apply rebuild_equiv|by split].
Qed.

Lemma unregister_equiv s t o o' id :
  sm_equiv s t → state_ok U s → valid_order o → valid_order o' →
  pair_equiv (unregister_shard hash o id s) (unregister_shard hash o' id t).
Proof.
  intros H Hs Ho Ho'. unfold unregister_shard.
  rewrite <- (eq_shards _ _ H). destruct (shards s !! id) eqn:E; [|by split].
  set (s1 := set_heartbeats _ _). set (t1 := set_heartbeats (set_shards t _) _).
  assert (sm_equiv s1 t1) as H1.
  { apply set_heartbeats_equiv; [by apply set_shards_proper|]. simpl.
    by rewrite !dom_delete_L, (eq_heartbeats _ _ H). }
  assert (state_ok U s1) as Hs1.
  { intros k m'. simpl. rewrite lookup_delete_Some. intros [_ ?]. auto. }
  pose proof (eq_hash_ring _ _ H1) as Er. simpl in Er. cbn [hash_ring set_heartbeats s1 t1 set_shards].
  rewrite <- Er. destruct (hash_ring s); [by apply rebuild_equiv|by split].
Qed.

Lemma complete_equiv s t id :
  sm_equiv s t → pair_equiv (complete_migration id s) (complete_migration id t).
Proof.
  intros H. unfold complete_migration. pose proof (migration_equiv s t id H) as Hm.
  destruct (migrations s !! id) as [m|], (migrations t !! id) as [m'|]; [|done|done|by split].
  pose proof Hm as Hf. unfold forget_start in Hf.
  injection Hf as E1 E2 E3 E4 E5 E6. simpl. rewrite <- (eq_hash_ring _ _ H), <- E3, <- E4.
  assert (sm_equiv (set_migrations s (<[id:=with_progress m MCompleted (f64_of_i64 100)]> (migrations s)))
                   (set_migrations t (<[id:=with_progress m' MCompleted (f64_of_i64 100)]> (migrations t)))) as H1.
  { apply set_migrations_equiv; [done|]. rewrite !fmap_insert, (eq_migrations _ _ H). f_equal.
    unfold forget_start. simpl. congruence. }
  destruct (hash_ring s) as [r|]; [|by split].
  destruct (ring_loop _ r (virtual_nodes m)) as [r1 res]. split; [|done]. simpl. by rewrite H1.
Qed.

Lemma start_equiv s t n n' id a b vs :
  sm_equiv s t → pair_equiv (start_migration n id a b vs s) (start_migration n' id a b vs t).
Proof.
  intros H. unfold start_migration. pose proof (migration_equiv s t id H) as Hm.
  destruct (migrations s !! id) as [m|], (migrations t !! id) as [m'|]; [by split|done|done|].
  split; [|done]. simpl. apply set_migrations_equiv; [done|].
  by rewrite !fmap_insert, (eq_migrations _ _ H).
Qed.

Lemma abort_equiv s t id :
  sm_equiv s t → pair_equiv (abort_migration id s) (abort_migration id t).
Proof.
  intros H. unfold abort_migration. pose proof (migration_equiv s t id H) as Hm.
  destruct (migrations s !! id) as [m|], (migrations t !! id) as [m'|]; [|done|done|by split].
  split; [|done]. simpl. apply set_migrations_equiv; [done|].
  rewrite !fmap_insert, (eq_migrations _ _ H). f_equal.
  unfold forget_start in *. simpl. congruence.
Qed.

Lemma dispatch_equiv s t n n' o o' c :
  sm_equiv s t → state_ok U s →
  step_ok U {| clock := n; order := o; command := c |} →
  step_ok U {| clock := n'; order := o'; command := c |} →
  pair_equiv (dispatch hash n o c s) (dispatch hash n' o' c t).
Proof.
  intros H Hs [Ho Hc] [Ho' _]. destruct c as [m|id|id st|id ts|r|id a b vs|id|id|k v]; simpl in *.
  - by apply register_equiv.
  - by apply unregister_equiv.
  - unfold update_shard_status. rewrite <- (eq_shards _ _ H).
    destruct (shards s !! id); split; simpl; by rewrite ?H.
  - unfold update_heartbeat. rewrite <- (eq_shards _ _ H).
    destruct (shards s !! id); split; simpl; [|done..].
    apply set_heartbeats_equiv; [done|]. by rewrite !dom_insert_L, (eq_heartbeats _ _ H).
  - split; simpl; [by rewrite H|done].
  - by apply start_equiv.
  - by apply complete_equiv.
  - by apply abort_equiv.
  - split; simpl; [|done]. by rewrite (eq_config _ _ H), H.
Qed.

Lemma apply_equiv s t n n' o o' c :
  sm_equiv s t → state_ok U s →
  step_ok U {| clock := n; order := o; command := c |} →
  step_ok U {| clock := n'; order := o'; command := c |} →
  pair_equiv (apply overflow_checks hash n o c s) (apply overflow_checks hash n' o' c t).
Proof.
  intros H Hs Ho Ho'. unfold apply.
  destruct (dispatch_equiv s t n n' o o' c) as [H1 H2]; [done..|].
  destruct (dispatch hash n o c s) as [s1 r1], (dispatch hash n' o' c t) as [t1 r2].
  simpl in *. subst r2. destruct r1; [|by split..].
  rewrite <- (eq_version _ _ H1). destruct (version s1 + 1 <? 2 ^ 64)%Z; [by split; [rewrite H1|]|].
  destruct overflow_checks; split; simpl; by rewrite ?H1.
Qed.
End Agreement.

(** ** The invariant, and what a command changes *)

Section Properties.
Context (overflow_checks : bool) (hash : string → Z) (Hrange : ∀ k, in_u64 (hash k)).
Context (U : list ShardId) (Hd : distinct_hashes hash 150 U).

Lemma rebuild_shards o s : shards (rebuild_hash_ring hash o s).1 = shards s.
Proof. unfold rebuild_hash_ring. destruct (hash_ring s); [by destruct (ring_loop _ _ _)|done]. Qed.

Lemma rebuild_shards_eq o s s' r :
  rebuild_hash_ring hash o s = (s', r) → shards s' = shards s.
Proof. intros E. by rewrite <- (rebuild_shards o s), E. Qed.

Lemma dispatch_shards n o c s :
  state_ok U s → step_ok U {| clock := n; order := o; command := c |} →
  state_ok U (dispatch hash n o c s).1.
Proof.
  intros Hs [_ Hc]. destruct c as [m|id|id st|id ts|r|id a b vs|id|id|k v]; simpl in *; [..|done].
  - unfold register_shard. destruct (shards s !! _); [done|].
    assert (state_ok U (set_shards s (<[shard_id m := m]> (shards s)))) as H1.
    { intros k m'. simpl. rewrite lookup_insert_Some. intros [[<- <-]|[_ ?]]; [done|auto]. }
    cbn [hash_ring set_heartbeats set_shards]. destruct (hash_ring s); [|done].
    unfold state_ok. by rewrite rebuild_shards.
  - unfold unregister_shard. destruct (shards s !! _); [|done].
    assert (state_ok U (set_shards s (delete id (shards s)))) as H1.
    { intros k m'. simpl. rewrite lookup_delete_Some. intros [_ ?]. auto. }
    cbn [hash_ring set_heartbeats set_shards]. destruct (hash_ring s); [|done].
    unfold state_ok. by rewrite rebuild_shards.
  - unfold update_shard_status. destruct (shards s !! id) as [m|] eqn:E; [|done]. simpl.
    intros k m'. simpl. rewrite lookup_insert_Some. intros [[<- <-]|[_ ?]]; [|auto].
    by apply Hs in E.
  - unfold update_heartbeat. by destruct (shards s !! id).
  - done.
  - unfold start_migration. by destruct (migrations s !! id).
  - unfold complete_migration. destruct (migrations s !! id); [|done].
    cbn [hash_ring set_migrations]. destruct (hash_ring s); [by destruct (ring_loop _ _ _)|done].
  - unfold abort_migration. by destruct (migrations s !! id).
Qed.

Lemma apply_shards n o c s :
  shards (apply overflow_checks hash n o c s).1 = shards (dispatch hash n o c s).1.
Proof.
  unfold apply. destruct (dispatch hash n o c s) as [s1 []]; [|done..].
  destruct (version s1 + 1 <? 2 ^ 64)%Z; [done|]. by destruct overflow_checks.
Qed.

Lemma apply_state_ok st s :
  state_ok U s → step_ok U st →
  state_ok U (apply overflow_checks hash (clock st) (order st) (command st) s).1.
Proof.
  intros Hs Hst. unfold state_ok. rewrite apply_shards. apply dispatch_shards; [done|].
  by destruct st.
Qed.

Lemma run_log_state_ok l s :
  state_ok U s → Forall (step_ok U) l → state_ok U (run_log overflow_checks hash s l).1.
Proof.
  intros Hs Hl. revert s Hs. induction Hl as [|st l Hst Hl IH]; intros s Hs; simpl; [done|].
  pose proof (apply_state_ok st s Hs Hst) as Hs1.
  destruct (apply _ _ _ _ _ s) as [s1 r]. simpl in Hs1. destruct r; [| |done];
    (specialize (IH s1 Hs1); by destruct (run_log _ _ s1 l)).
Qed.

Lemma new_state_ok : state_ok U new_state.
Proof. intros k m. simpl. by rewrite lookup_empty. Qed.

Lemma run_log_equiv l l' s t :
  sm_equiv s t → state_ok U s → state_ok U t →
  Forall (step_ok U) l → Forall (step_ok U) l' → map command l = map command l' →
  sm_equiv (run_log overflow_checks hash s l).1 (run_log overflow_checks hash t l').1 ∧
  (run_log overflow_checks hash s l).2 = (run_log overflow_checks hash t l').2.
Proof.
  intros H Hs Ht Hl. revert l' s t H Hs Ht.
  induction Hl as [|st l Hst Hl IH]; intros [|st' l'] s t H Hs Ht Hl' E; simplify_eq/=; [done|].
  inversion_clear Hl' as [|? ? Hst' Hl'']. rename select (command st = command st') into Ec.
  pose proof (apply_state_ok st s Hs Hst) as Hs1. pose proof (apply_state_ok st' t Ht Hst') as Ht1.
  destruct (apply_equiv overflow_checks hash Hrange U Hd s t (clock st) (clock st')
              (order st) (order st') (command st)) as [Heq Hres]; [done|done|by destruct st| |].
  { rewrite Ec. by destruct st'. }
  rewrite <- Ec in Ht1 |- *.
  destruct (apply _ _ _ _ _ s) as [s1 r], (apply _ _ (clock st') _ _ t) as [t1 r'].
  simpl in *. subst r'. destruct r; [| |by split].
  all: destruct (IH l' s1 t1) as [H3 H4]; try done.
  all: destruct (run_log _ _ s1 l), (run_log _ _ t1 l'); simpl in *; by subst.
Qed.

(** Replicas agree: two coordinators that start empty and apply the same
    commands get the same result for each of them and end with the same shards,
    the same hash ring (hence the same routes), the same configuration and
    version and the same migrations, whatever their clocks read and in whatever
    order their hash tables list the shards while the ring is rebuilt, as long
    as no two virtual nodes of the registered shards collide. *)
Theorem replicas_agree l l' :
  Forall (step_ok U) l → Forall (step_ok U) l' → map command l = map command l' →
  let '(s, rs) := run_log overflow_checks hash new_state l in
  let '(t, rs') := run_log overflow_checks hash new_state l' in
  rs = rs' ∧ sm_equiv s t.
Proof.
  intros Hl Hl' E.
  destruct (run_log_equiv l l' new_state new_state) as [H1 H2];
    [done|apply new_state_ok..|done|done|done|].
  by destruct (run_log _ _ new_state l), (run_log _ _ new_state l').
Qed.

(** ** The ring follows the active shards *)

Lemma find_shard_elem r h x :
  find_shard r h = Some x → ∃ k v, (k, v) ∈ nodes r ∧ vn_shard v = x.
Proof.
  rewrite find_shard_vnode. unfold find_vnode.
  destruct (btree_range_from h (nodes r)) as [|[k v] rest] eqn:E.
  - destruct (nodes r) as [|[k v] m]; simpl; intros; simplify_eq. exists k, v. by split; [left|].
  - simpl. intros [= <-]. exists k, v. split; [|done].
    assert ((k, v) ∈ btree_range_from h (nodes r)) as Hin by (rewrite E; by left).
    by apply btree_range_elem in Hin as [? _].
Qed.

Lemma apply_Ok n o c s s' u :
  apply overflow_checks hash n o c s = (s', Ok u) →
  ∃ s1, dispatch hash n o c s = (s1, Ok ()) ∧ s' = set_version s1 (version s').
Proof.
  unfold apply. destruct (dispatch hash n o c s) as [s1 [[]| |]]; [|done..].
  intros H. exists s1. split; [done|].
  destruct (version s1 + 1 <? 2 ^ 64)%Z; [by injection H as <- <-|].
  destruct overflow_checks; [done|by injection H as <- <-].
Qed.

(** The commands that change which shards are registered. *)
Definition membership_command (c : StateCommand) : Prop :=
  match c with RegisterShard _ | UnregisterShard _ => True | _ => False end.

Lemma membership_rebuilds n o c s s1 r :
  membership_command c → hash_ring s = Some r → dispatch hash n o c s = (s1, Ok ()) →
  ∃ s0, s1 = (rebuild_hash_ring hash o s0).1 ∧ hash_ring s0 = Some r.
Proof.
  intros Hc Hr. destruct c as [m|id| | | | | | |]; [..|done|done|done|done|done|done|done]; simpl.
  - unfold register_shard. destruct (shards s !! _); [done|].
    cbn [hash_ring set_heartbeats set_shards]. rewrite Hr.
    intros E. eexists. split; [by rewrite E|]. done.
  - unfold unregister_shard. destruct (shards s !! _); [|done].
    cbn [hash_ring set_heartbeats set_shards]. rewrite Hr.
    intros E. eexists. split; [by rewrite E|]. done.
Qed.

(** The ring follows the shards: once a coordinator has a hash ring, every
    successful registration or removal of a shard, after any commands, leaves a
    consistent ring that holds exactly the 150 virtual nodes of each active
    registered shard, so that every key is routed to an active shard, and to
    none only when there is no active shard. *)
Theorem ring_follows_shards l st s s' u r :
  Forall (step_ok U) (l ++ [st]) → (run_log overflow_checks hash new_state l).1 = s →
  membership_command (command st) → hash_ring s = Some r →
  apply overflow_checks hash (clock st) (order st) (command st) s = (s', Ok u) →
  ∃ r', hash_ring s' = Some r' ∧ ring_ok r' ∧
    (∀ h v, (h, v) ∈ nodes r' ↔
       ∃ x i, active s' x ∧ (0 ≤ i < 150)%Z ∧ v = new_vnode hash x i ∧ h = vn_hash v) ∧
    (∀ key x, find_shard r' key = Some x → active s' x) ∧
    (∀ key, find_shard r' key = None → ∀ x, ¬ active s' x).
Proof.
  intros [Hl Hst]%Forall_app Hs Hc Hr Ha. rewrite Forall_singleton in Hst.
  assert (state_ok U s) as Hok by (subst s; by apply run_log_state_ok, Hl; apply new_state_ok).
  pose proof (apply_state_ok st s Hok Hst) as Hok'. rewrite Ha in Hok'. simpl in Hok'.
  destruct (apply_Ok _ _ _ _ _ _ Ha) as (s1 & Hdis & Es').
  destruct (membership_rebuilds _ _ _ _ _ _ Hc Hr Hdis) as (s0 & -> & Hr0).
  assert (shards s' = shards s0) as Esh by (rewrite Es'; simpl; apply rebuild_shards).
  assert (state_ok U s0) as Hok0 by (intros k m; rewrite <- Esh; apply Hok').
  destruct (rebuild_ok hash Hrange U s0 (order st) r) as (r' & ids & Hre & Hof & Hids);
    [done|apply Hst|done|done|].
  assert (Hact : ∀ x, active s0 x ↔ active s' x) by (intros x; unfold active; by rewrite Esh).
  exists r'. rewrite Hre in Es'. assert (hash_ring s' = Some r') as Hring by (by rewrite Es').
  assert (Hn : ∀ h v, (h, v) ∈ nodes r' ↔
    ∃ x i, active s' x ∧ (0 ≤ i < 150)%Z ∧ v = new_vnode hash x i ∧ h = vn_hash v).
  { intros h v. rewrite (of_nodes _ _ _ _ Hof). setoid_rewrite Hids. by setoid_rewrite Hact. }
  split_and!; [done|apply (of_ok _ _ _ _ Hof)|done| |].
  - intros key x (k & v & (y & i & Hy & _ & -> & _)%Hn & <-)%find_shard_elem. done.
  - intros key Hf x Hx. unfold find_shard in Hf.
    assert ((vn_hash (new_vnode hash x 0), new_vnode hash x 0) ∈ nodes r') as Hin
      by (apply Hn; exists x, 0%Z; by split_and!).
    unfold find_vnode in Hf. destruct (nodes r') as [|[k v] m]; [by apply elem_of_nil in Hin|].
    by destruct (btree_range_from _ _) as [|[]].
Qed.

(** ** Failing commands and the version *)

Lemma ring_loop_no_panic {A} (f : ConsistentHashRing → A → result ring_error ConsistentHashRing)
    r xs :
  (∀ r x, f r x ≠ Panic) → (ring_loop f r xs).2 ≠ Panic.
Proof.
  intros Hf. revert r. induction xs as [|x xs IH]; intros r; simpl; [done|].
  destruct (f r x) eqn:E; [apply IH|done|]. by apply Hf in E.
Qed.

Lemma rebuild_no_panic o s : (rebuild_hash_ring hash o s).2 ≠ Panic.
Proof.
  unfold rebuild_hash_ring. destruct (hash_ring s) as [r|]; [|done].
  pose proof (ring_loop_no_panic (rebuild_one hash) (clear r) (o (shards s))) as H.
  destruct (ring_loop _ _ _). simpl in *. apply H. clear. intros r m. unfold rebuild_one, add_shard.
  destruct (bool_decide _); [|done]. destruct (shard_nodes r !! _); [done|]. by destruct (foldl _ _ _).
Qed.

Lemma complete_no_panic id s : (complete_migration id s).2 ≠ Panic.
Proof.
  unfold complete_migration. destruct (migrations s !! id) as [m|]; [|done].
  cbn [hash_ring set_migrations]. destruct (hash_ring s) as [r|]; [|done].
  match goal with |- context [ring_loop ?f r ?xs] => pose proof (ring_loop_no_panic f r xs) as H end.
  destruct (ring_loop _ _ _). simpl in *. apply H. clear. intros r h.
  unfold reassign_virtual_node. by destruct (btree_get h (nodes r)).
Qed.

Lemma dispatch_no_panic n o c s : (dispatch hash n o c s).2 ≠ Panic.
Proof.
  destruct c as [m|id|id st|id ts|r|id a b vs|id|id|k v]; simpl; [..|done].
  - unfold register_shard. destruct (shards s !! _); [done|].
    cbn [hash_ring set_heartbeats set_shards]. destruct (hash_ring s); [apply rebuild_no_panic|done].
  - unfold unregister_shard. destruct (shards s !! _); [|done].
    cbn [hash_ring set_heartbeats set_shards]. destruct (hash_ring s); [apply rebuild_no_panic|done].
  - unfold update_shard_status. by destruct (shards s !! id).
  - unfold update_heartbeat. by destruct (shards s !! id).
  - done.
  - unfold start_migration. by destruct (migrations s !! id).
  - apply complete_no_panic.
  - unfold abort_migration. by destruct (migrations s !! id).
Qed.

Lemma rebuild_version o s : version (rebuild_hash_ring hash o s).1 = version s.
Proof. unfold rebuild_hash_ring. destruct (hash_ring s); [by destruct (ring_loop _ _ _)|done]. Qed.

Lemma dispatch_version n o c s : version (dispatch hash n o c s).1 = version s.
Proof.
  destruct c as [m|id|id st|id ts|r|id a b vs|id|id|k v]; simpl; [..|done].
  - unfold register_shard. destruct (shards s !! _); [done|].
    cbn [hash_ring set_heartbeats set_shards]. destruct (hash_ring s); [|done].
    by rewrite rebuild_version.
  - unfold unregister_shard. destruct (shards s !! _); [|done].
    cbn [hash_ring set_heartbeats set_shards]. destruct (hash_ring s); [|done].
    by rewrite rebuild_version.
  - unfold update_shard_status. by destruct (shards s !! id).
  - unfold update_heartbeat. by destruct (shards s !! id).
  - done.
  - unfold start_migration. by destruct (migrations s !! id).
  - unfold complete_migration. destruct (migrations s !! id); [|done].
    cbn [hash_ring set_migrations]. destruct (hash_ring s); [by destruct (ring_loop _ _ _)|done].
  - unfold abort_migration. by destruct (migrations s !! id).
Qed.

Lemma dispatch_Err n o c s s' e :
  state_ok U s → step_ok U {| clock := n; order := o; command := c |} →
  dispatch hash n o c s = (s', Err e) → (∀ id, c ≠ CompleteMigration id) → s' = s.
Proof.
  intros Hs Hst E Hc. pose proof (dispatch_shards n o c s Hs Hst) as Hok. rewrite E in Hok.
  destruct Hst as [Ho _].
  assert (Hre : ∀ s0, (state_ok U s0 → rebuild_hash_ring hash o s0 = (s', Err e) → False)).
  { intros s0 Hs0. unfold rebuild_hash_ring. destruct (hash_ring s0) as [r|] eqn:Hr; [|done].
    destruct (rebuild_ok hash Hrange U s0 o r) as (r' & ids & Hb & _); [done..|].
    unfold rebuild_hash_ring in Hb. rewrite Hr in Hb. rewrite Hb. done. }
  destruct c as [m|id|id st|id ts|r|id a b vs|id|id|k v]; simpl in E.
  - unfold register_shard in E. destruct (shards s !! _); [by simplify_eq|].
    cbn [hash_ring set_heartbeats set_shards] in E. destruct (hash_ring s); [|done].
    exfalso. eapply Hre; [|exact E]. simpl in Hok.
    intros k m' Hk. apply Hok. by rewrite (rebuild_shards_eq _ _ _ _ E).
  - unfold unregister_shard in E. destruct (shards s !! _); [|by simplify_eq].
    cbn [hash_ring set_heartbeats set_shards] in E. destruct (hash_ring s); [|done].
    exfalso. eapply Hre; [|exact E]. simpl in Hok.
    intros k m' Hk. apply Hok. by rewrite (rebuild_shards_eq _ _ _ _ E).
  - unfold update_shard_status in E. by destruct (shards s !! id); simplify_eq.
  - unfold update_heartbeat in E. by destruct (shards s !! id); simplify_eq.
  - done.
  - unfold start_migration in E. by destruct (migrations s !! id); simplify_eq.
  - by destruct (Hc id).
  - unfold abort_migration in E. by destruct (migrations s !! id); simplify_eq.
  - done.
Qed.

Definition ok_count (rs : list outcome) : Z :=
  Z.of_nat (length (filter (λ r, r = Ok ()) rs)).

Lemma apply_cases n o c s s' r :
  (0 ≤ version s < 2 ^ 64 - 1)%Z → apply overflow_checks hash n o c s = (s', r) →
  r ≠ Panic ∧ version s' = (version s + if bool_decide (r = Ok ()) then 1 else 0)%Z.
Proof.
  intros Hv. unfold apply. pose proof (dispatch_no_panic n o c s) as Hp.
  pose proof (dispatch_version n o c s) as Hver.
  destruct (dispatch hash n o c s) as [s1 [[]|e|]]; simpl in *; [| |done].
  - rewrite Hver. destruct (Z.ltb_spec (version s + 1) (2 ^ 64)); [|lia].
    intros [= <- <-]. by rewrite bool_decide_true.
  - intros [= <- <-]. rewrite bool_decide_false by done. split; [done|lia].
Qed.

Lemma run_log_version l s :
  (0 ≤ version s)%Z → (version s + Z.of_nat (length l) < 2 ^ 64)%Z →
  let '(s', rs) := run_log overflow_checks hash s l in
  Panic ∉ rs ∧ length rs = length l ∧ version s' = (version s + ok_count rs)%Z.
Proof.
  revert s. induction l as [|st l IH]; intros s H0 Hlen; cbn [run_log length] in *.
  - split_and!; [set_solver|done|]. unfold ok_count. simpl. lia.
  - destruct (apply _ _ _ _ _ s) as [s1 r] eqn:E.
    apply apply_cases in E as [Hr Hv]; [|lia].
    specialize (IH s1). destruct r as [[]|e|]; [| |done].
    all: destruct (run_log _ _ s1 l) as [s' rs];
      destruct IH as (Hp & Hl & Hver); [rewrite ?Hv; case_bool_decide; lia..|].
    all: split_and!; [set_solver|simpl; lia|]; rewrite Hver, Hv; unfold ok_count.
    + rewrite bool_decide_true, filter_cons_True by done. simpl. lia.
    + rewrite bool_decide_false, filter_cons_False by done. lia.
Qed.

(** Errors and versions: no command of a log makes a coordinator panic, each
    gets an outcome, the version is the number of commands that succeeded, and
    a command that fails afterwards leaves the state as it was, unless it
    completes a migration. *)
Theorem failed_commands_keep_state l s rs :
  Forall (step_ok U) l → (Z.of_nat (length l) < 2 ^ 64)%Z →
  run_log overflow_checks hash new_state l = (s, rs) →
  Panic ∉ rs ∧ length rs = length l ∧ version s = ok_count rs ∧
  ∀ st s' e, step_ok U st → (∀ id, command st ≠ CompleteMigration id) →
    apply overflow_checks hash (clock st) (order st) (command st) s = (s', Err e) → s' = s.
Proof.
  intros Hl Hlen E. pose proof (run_log_version l new_state) as Hv. rewrite E in Hv.
  destruct Hv as (Hp & Hn & Hver); [done|simpl; lia|]. split_and!; [done..|].
  intros [n o c] s' e Hst Hc. unfold apply. simpl.
  pose proof (run_log_state_ok l new_state new_state_ok Hl) as Hok. rewrite E in Hok.
  destruct (dispatch hash n o c s) as [s1 [[]|e'|]] eqn:Ed; [|intros [= <- <-]|done].
  - destruct (version s1 + 1 <? 2 ^ 64)%Z; [done|]. by destruct overflow_checks.
  - by eapply dispatch_Err.
Qed.
End Properties.

(** ** Migrations *)

Definition given_to (t : ShardId) (v : VirtualNode) : VirtualNode :=
  {| vn_hash := vn_hash v; vn_shard := t; vn_index := vn_index v |}.

Lemma reassign_Ok r h t :
  (∃ r', reassign_virtual_node r h t = Ok r') ↔ btree_contains h (nodes r) = true.
Proof.
  unfold reassign_virtual_node, btree_contains. destruct (btree_get h (nodes r)); [naive_solver|].
  split; [by intros [r' ?]|done].
Qed.

Lemma reassign_elem r h t r' k v :
  btree_ok (nodes r) → reassign_virtual_node r h t = Ok r' →
  (k, v) ∈ nodes r' ↔
  ∃ w, (k, w) ∈ nodes r ∧ v = if bool_decide (k = h) then given_to t w else w.
Proof.
  intros Hb. unfold reassign_virtual_node.
  destruct (btree_get h (nodes r)) as [w|] eqn:Hg; [|done]. intros [= <-]. simpl.
  rewrite btree_insert_elem by done. split.
  - intros [[-> ->]|[Hne Hin]].
    + exists w. rewrite bool_decide_true by done. split; [by apply btree_get_elem|done].
    + exists v. by rewrite bool_decide_false.
  - intros (w' & Hin & ->). case_bool_decide as E; [|by right]. subst k. left. split; [done|].
    apply (btree_elem_get _ _ _ Hb) in Hin. by simplify_eq.
Qed.

Lemma reassign_contains r h t r' k :
  btree_ok (nodes r) → reassign_virtual_node r h t = Ok r' →
  btree_contains k (nodes r') = btree_contains k (nodes r).
Proof.
  intros Hb Hr. assert (btree_ok (nodes r')) as Hb'.
  { unfold reassign_virtual_node in Hr. destruct (btree_get h (nodes r)); simplify_eq.
    by apply btree_insert_ok. }
  apply eq_bool_prop_intro. unfold btree_contains. split; intros Hk.
  - destruct (btree_get k (nodes r')) as [v|] eqn:E; [|done].
    apply btree_get_elem, (reassign_elem _ _ _ _ _ _ Hb Hr) in E as (w & Hw & _).
    by rewrite (btree_elem_get _ _ _ Hb Hw).
  - destruct (btree_get k (nodes r)) as [v|] eqn:E; [|done].
    apply btree_get_elem in E. erewrite btree_elem_get; [done|done|].
    apply (reassign_elem _ _ _ _ _ _ Hb Hr). eauto.
Qed.

Lemma reassign_loop_iff t hs r :
  ring_ok r →
  (ring_loop (λ r h, reassign_virtual_node r h t) r hs).2 = Ok () ↔
  ∀ h, h ∈ hs → btree_contains h (nodes r) = true.
Proof.
  revert r. induction hs as [|h hs IH]; intros r Hok; simpl; [set_solver|].
  destruct (reassign_virtual_node r h t) as [r1|e|] eqn:E; simpl.
  - pose proof (reassign_ok _ _ _ _ Hok E) as Hok1. rewrite IH by done.
    destruct (ring_nodes _ Hok) as [Hb _].
    setoid_rewrite (reassign_contains _ _ _ _ _ Hb E). split; [|set_solver].
    intros Hall k [->|Hk]%elem_of_cons; [|auto]. apply (reassign_Ok r h t). eauto.
  - split; [done|]. intros Hall. destruct (proj2 (reassign_Ok r h t)) as [r' ?]; [set_solver|congruence].
  - split; [done|]. intros Hall. destruct (proj2 (reassign_Ok r h t)) as [r' ?]; [set_solver|congruence].
Qed.

Lemma reassign_loop_ok t hs r r' :
  ring_ok r → ring_loop (λ r h, reassign_virtual_node r h t) r hs = (r', Ok ()) →
  ring_ok r' ∧ ∀ k v, (k, v) ∈ nodes r' ↔
    ∃ w, (k, w) ∈ nodes r ∧ v = if bool_decide (k ∈ hs) then given_to t w else w.
Proof.
  revert r. induction hs as [|h hs IH]; intros r Hok; simpl.
  - intros [= <-]. split; [done|]. intros k v.
    naive_solver.
  - destruct (reassign_virtual_node r h t) as [r1|e|] eqn:E; [|done..]. intros Hl.
    destruct (IH r1 (reassign_ok _ _ _ _ Hok E) Hl) as [Hok' Hel]. split; [done|].
    intros k v. rewrite Hel. destruct (ring_nodes _ Hok) as [Hb _].
    setoid_rewrite (reassign_elem _ _ _ _ _ _ Hb E).
    split.
    + intros (w & (w' & Hin & ->) & ->). exists w'. split; [done|].
      do 3 case_bool_decide; set_solver.
    + intros (w & Hin & ->). eexists. split; [eauto|].
      do 3 case_bool_decide; set_solver.
Qed.

(** Completing a migration moves exactly its virtual nodes: on a coordinator
    with a consistent ring, the command succeeds when every virtual node of the
    migration is on the ring and only then; afterwards the migration is marked
    completed, the ring is consistent, the migration's nodes belong to its
    target shard and all others to the shard they belonged to, and every key is
    routed to the target or as before. *)
Theorem completed_migration_moves_nodes oc hash n o id s m r :
  migrations s !! id = Some m → hash_ring s = Some r → ring_ok r →
  (0 ≤ version s < 2 ^ 64 - 1)%Z →
  let '(s', res) := apply oc hash n o (CompleteMigration id) s in
  (res = Ok () ↔ ∀ h, h ∈ virtual_nodes m → btree_contains h (nodes r) = true) ∧
  (res = Ok () → ∃ r', hash_ring s' = Some r' ∧ ring_ok r' ∧
     migration_status <$> migrations s' !! id = Some MCompleted ∧
     (∀ k v, (k, v) ∈ nodes r' ↔ ∃ w, (k, w) ∈ nodes r ∧
        v = if bool_decide (k ∈ virtual_nodes m) then given_to (target_shard m) w else w) ∧
     ∀ key, in_u64 key →
       find_shard r' key = Some (target_shard m) ∨ find_shard r' key = find_shard r key).
Proof.
  intros Hm Hr Hok Hv. unfold apply. cbn [dispatch]. unfold complete_migration. rewrite Hm.
  cbn [hash_ring set_migrations virtual_nodes target_shard with_progress]. rewrite Hr.
  pose proof (reassign_loop_iff (target_shard m) (virtual_nodes m) r Hok) as Hiff.
  destruct (ring_loop _ r (virtual_nodes m)) as [r' [[]|e|]] eqn:El; simpl in Hiff;
    [|by split; [rewrite <- Hiff|]..].
  cbn [version set_hash_ring set_migrations].
  destruct (Z.ltb_spec (version s + 1) (2 ^ 64)); [|lia]. split; [by rewrite <- Hiff|]. intros _.
  destruct (reassign_loop_ok _ _ _ _ Hok El) as [Hok' Hel].
  exists r'. split_and!; [done|done| |done|].
  - simpl. by rewrite lookup_insert_eq.
  - intros key Hkey. apply find_shard_grow; [apply (ring_nodes _ Hok)|apply (ring_nodes _ Hok')|done| |].
    + intros h v Hin. eexists. apply Hel. eauto.
    + intros h v (w & Hin & ->)%Hel. case_bool_decide; [by left|by right].
Qed.

(** ** Concrete coordinators *)

(** The default hasher on the shards 1 and 2. *)
Definition key_hashes (hash : string → Z) (n : Z) (U : list ShardId) : list Z :=
  (λ p : Z * Z, hash (vnode_key p.1 p.2)) <$> list_prod U (seqZ 0 n).

Lemma distinct_from_NoDup hash n U : NoDup (key_hashes hash n U) → distinct_hashes hash n U.
Proof.
  unfold key_hashes. intros Hnd s s' i j Hs Hs' Hi Hj E.
  assert (Hin : ∀ a b, a ∈ U → (0 ≤ b < n)%Z → (a, b) ∈ list_prod U (seqZ 0 n)).
  { intros a b Ha Hb. apply list_elem_of_In, in_prod; apply list_elem_of_In; [done|].
    apply elem_of_seqZ. lia. }
  destruct (proj1 (list_elem_of_lookup _ _) (Hin s i Hs Hi)) as [p Hp].
  destruct (proj1 (list_elem_of_lookup _ _) (Hin s' j Hs' Hj)) as [q Hq].
  assert (p = q) as ->.
  { apply (NoDup_lookup _ p q (hash (vnode_key s i)) Hnd); rewrite list_lookup_fmap, ?Hp, ?Hq; [done|].
    simpl. by rewrite E. }
  rewrite Hp in Hq. by simplify_eq.
Qed.

Definition sample_shards : list ShardId := [1; 2]%Z.

Lemma sample_distinct : distinct_hashes calculate_hash 150 sample_shards.
Proof.
  apply distinct_from_NoDup, (bool_decide_unpack _). vm_compute. exact I.
Qed.

Definition sample_shard (id : ShardId) : ShardMetadata :=
  {| shard_id := id; hash_range := {| range_start := 0; range_end := 2 ^ 64 - 1 |};
     shard_status := Active; leader_address := "127.0.0.1:9000"; replica_addresses := [];
     triple_count := 0; size_bytes := 0; last_heartbeat := 0; raft_term := 0; created_at := 0;
     updated_at := 0 |}.

Definition in_order (m : gmap ShardId ShardMetadata) : list ShardMetadata := (map_to_list m).*2.
Definition backwards (m : gmap ShardId ShardMetadata) : list ShardMetadata :=
  reverse (map_to_list m).*2.

Lemma in_order_valid : valid_order in_order.
Proof. by intros m. Qed.
Lemma backwards_valid : valid_order backwards.
Proof. intros m. apply reverse_Permutation. Qed.

(** The same three commands as two replicas see them. *)
Definition sample_log (t : Z) (o : gmap ShardId ShardMetadata → list ShardMetadata)
    : list log_step :=
  (λ c, {| clock := t; order := o; command := c |}) <$>
  [UpdateHashRing new_ring; RegisterShard (sample_shard 1); RegisterShard (sample_shard 2)].

Lemma sample_log_ok t o : valid_order o → Forall (step_ok sample_shards) (sample_log t o).
Proof. intros Ho. repeat constructor; try done; set_solver. Qed.

Lemma replicas_agree_witness :
  let '(s, rs) := run_log false calculate_hash new_state (sample_log 100 in_order) in
  let '(t, rs') := run_log false calculate_hash new_state (sample_log 105 backwards) in
  rs = rs' ∧ sm_equiv s t.
Proof.
  apply (replicas_agree false calculate_hash calculate_hash_range sample_shards sample_distinct);
    [apply sample_log_ok, in_order_valid|apply sample_log_ok, backwards_valid|reflexivity].
Defined.

Definition sample_prefix : list log_step := take 2 (sample_log 100 backwards).
Definition sample_last : log_step :=
  {| clock := 100; order := backwards; command := RegisterShard (sample_shard 2) |}.
Definition sample_before : sm := (run_log false calculate_hash new_state sample_prefix).1.
Definition sample_apply : sm * outcome :=
  apply false calculate_hash (clock sample_last) (order sample_last) (command sample_last)
    sample_before.

Lemma ring_follows_shards_witness :
  ∃ r', hash_ring sample_apply.1 = Some r' ∧ ring_ok r' ∧
    (∀ h v, (h, v) ∈ nodes r' ↔
       ∃ x i, active sample_apply.1 x ∧ (0 ≤ i < 150)%Z ∧ v = new_vnode calculate_hash x i ∧
              h = vn_hash v) ∧
    (∀ key x, find_shard r' key = Some x → active sample_apply.1 x) ∧
    (∀ key, find_shard r' key = None → ∀ x, ¬ active sample_apply.1 x).
Proof.
  apply (ring_follows_shards false calculate_hash calculate_hash_range sample_shards sample_distinct
           sample_prefix sample_last sample_before sample_apply.1 ()
           (default new_ring (hash_ring sample_before))).
  - apply (sample_log_ok 100 backwards), backwards_valid.
  - reflexivity.
  - exact I.
  - vm_compute. reflexivity.
  - vm_compute. reflexivity.
Defined.

Lemma failed_commands_keep_state_witness :
  Panic ∉ (run_log false calculate_hash new_state sample_prefix).2 ∧
  (apply false calculate_hash 101 backwards (RegisterShard (sample_shard 1)) sample_before).1
    = sample_before.
Proof.
  destruct (failed_commands_keep_state false calculate_hash calculate_hash_range sample_shards
              sample_distinct sample_prefix sample_before
              (run_log false calculate_hash new_state sample_prefix).2) as (H1 & _ & _ & H2).
  - apply Forall_take, sample_log_ok, backwards_valid.
  - vm_compute. reflexivity.
  - unfold sample_before. by destruct (run_log _ _ _ _).
  - split; [exact H1|].
    apply (H2 {| clock := 101; order := backwards; command := RegisterShard (sample_shard 1) |}
              _ (AlreadyRegistered 1)).
    + split; [apply backwards_valid|]. clear. apply list_elem_of_here.
    + done.
    + vm_compute. reflexivity.
Defined.

(** A coordinator with the two-shard ring of [HashRingFacts] and a migration of
    one of its virtual nodes to shard 2. *)
Definition sample_vnode : Z := calculate_hash (vnode_key 1 0).
Definition migrating (vnodes : list Z) : sm :=
  (start_migration 100 "m1" 1 2 vnodes (set_hash_ring new_state (Some two_shards))).1.

Lemma completed_migration_moves_nodes_witness :
  let '(s', res) := apply false calculate_hash 101 in_order (CompleteMigration "m1")
                      (migrating [sample_vnode]) in
  (res = Ok () ↔ ∀ h, h ∈ [sample_vnode] → btree_contains h (nodes two_shards) = true) ∧
  (res = Ok () → ∃ r', hash_ring s' = Some r' ∧ ring_ok r' ∧
     migration_status <$> migrations s' !! "m1" = Some MCompleted ∧
     (∀ k v, (k, v) ∈ nodes r' ↔ ∃ w, (k, w) ∈ nodes two_shards ∧
        v = if bool_decide (k ∈ [sample_vnode]) then given_to 2 w else w) ∧
     ∀ key, in_u64 key →
       find_shard r' key = Some 2%Z ∨ find_shard r' key = find_shard two_shards key).
Proof.
  apply (completed_migration_moves_nodes false calculate_hash 101 in_order "m1"
           (migrating [sample_vnode])
           {| migration_id := "m1"; source_shard := 1; target_shard := 2;
              virtual_nodes := [sample_vnode]; started_at := 100; progress := f64_zero;
              migration_status := MInProgress |} two_shards).
  - reflexivity.
  - reflexivity.
  - apply (ring_reachable_ok calculate_hash calculate_hash_range), two_shards_reachable.
  - by split.
Defined.

(** ** Outside the conditions *)

(** A completion that fails has already marked the migration as completed, and
    does not count in the version. *)
Theorem failed_completion_is_marked :
  let '(s', res) := apply false calculate_hash 101 in_order (CompleteMigration "m1")
                      (migrating [7]%Z) in
  res = Err (RingFailed (VnodeNotFound 7)) ∧ version s' = 0%Z ∧
  migration_status <$> migrations s' !! "m1" = Some MCompleted.
Proof. vm_compute. done. Qed.

(** An aborted migration can still be completed. *)
Theorem aborted_migration_completes :
  let s := (apply false calculate_hash 101 in_order (AbortMigration "m1") (migrating [])).1 in
  let '(s', res) := apply false calculate_hash 102 in_order (CompleteMigration "m1") s in
  migration_status <$> migrations s !! "m1" = Some MAborted ∧ res = Ok () ∧
  migration_status <$> migrations s' !! "m1" = Some MCompleted.
Proof. vm_compute. done. Qed.

(** A status change leaves the ring as it is: a shard that goes down is routed
    to until a shard is registered or removed. *)
Theorem down_shard_keeps_its_routes oc hash n o id st s :
  hash_ring (apply oc hash n o (UpdateShardStatus id st) s).1 = hash_ring s.
Proof.
  unfold apply. cbn [dispatch]. unfold update_shard_status.
  destruct (shards s !! id); [|done]. destruct (_ <? _)%Z; [done|]. by destruct oc.
Qed.

(** Replicas read their own clocks while they apply a command, so their
    heartbeat tables differ. *)
Theorem clocks_leak_into_state :
  heartbeats (run_log false calculate_hash new_state (drop 1 (sample_log 100 in_order))).1 ≠
  heartbeats (run_log false calculate_hash new_state (drop 1 (sample_log 105 in_order))).1.
Proof. vm_compute. congruence. Qed.
