(* ===== verification/CircuitBreaker.v ===== *)
(** * The circuit breaker

    Models [arcxa-core/src/reliability/circuit_breaker.rs].  Instants and
    durations are nanoseconds; each operation takes the instants at which it
    reads the clock.  The protected function is a state transformer on the
    world it acts on, so that failing fast can be told from running it.  Each
    operation is one step: the fields' mutexes are not held across an
    operation, so interleavings inside one are outside this model. *)

From Stdlib Require Import ZArith Lia.
From stdpp Require Import base numbers option list.
From S2P Require Import Prelude.

(** [BreakerState]. *)
Inductive BreakerState : Type :=
  | Closed
  | Open (opened_at : Z)
  | HalfOpen.

#[global] Instance BreakerState_eq_dec : EqDecision BreakerState.
Proof. solve_decision. Defined.

(** [CircuitBreakerConfig]; the thresholds are [u32]. *)
Record CircuitBreakerConfig : Type := {
  failure_threshold : Z;
  timeout : Z;
  success_threshold : Z;
}.

(** [CircuitBreakerConfig::default]. *)
Definition default_config : CircuitBreakerConfig :=
  {| failure_threshold := 5; timeout := 30 * 10 ^ 9; success_threshold := 2 |}.

(** The mutable fields of [CircuitBreaker]. *)
Record CircuitBreaker : Type := {
  state : BreakerState;
  consecutive_failures : Z;
  consecutive_successes : Z;
}.

(** [CircuitBreakerError], and the successful outcome. *)
Inductive call_outcome (A E : Type) : Type :=
  | CallOk (a : A)
  | CallFailed (e : E)
  | CircuitOpen.
Arguments CallOk {A E} a.
Arguments CallFailed {A E} e.
Arguments CircuitOpen {A E}.

(** [CircuitBreaker::new]. *)
Definition new_breaker : CircuitBreaker :=
  {| state := Closed; consecutive_failures := 0; consecutive_successes := 0 |}.

(** [Instant::elapsed] saturates at zero. *)
Definition elapsed (now since : Z) : Z := Z.max 0 (now - since).

Definition set_state (b : CircuitBreaker) (s : BreakerState) : CircuitBreaker :=
  {| state := s; consecutive_failures := consecutive_failures b;
     consecutive_successes := consecutive_successes b |}.
Definition set_failures (b : CircuitBreaker) (n : Z) : CircuitBreaker :=
  {| state := state b; consecutive_failures := n;
     consecutive_successes := consecutive_successes b |}.
Definition set_successes (b : CircuitBreaker) (n : Z) : CircuitBreaker :=
  {| state := state b; consecutive_failures := consecutive_failures b;
     consecutive_successes := n |}.

Section Breaker.
Context (overflow_checks : bool) (config : CircuitBreakerConfig).

Abbreviation res := (result unit CircuitBreaker).

(** [*counter += 1] on a [u32]. *)
Definition u32_succ (n : Z) : result unit Z :=
  if (n + 1 <? 2 ^ 32)%Z then Ok (n + 1)%Z
  else if overflow_checks then Panic else Ok ((n + 1) mod 2 ^ 32)%Z.

(** [CircuitBreaker::on_success]. *)
Definition on_success (b : CircuitBreaker) : res :=
  match state b with
  | Closed => Ok (set_failures b 0)
  | HalfOpen =>
      successes ← u32_succ (consecutive_successes b);
      let b := set_successes b successes in
      if (success_threshold config <=? successes)%Z
      then Ok (set_successes (set_failures (set_state b Closed) 0) 0)
      else Ok b
  | Open _ => Ok (set_state b Closed)
  end.

(** [CircuitBreaker::on_failure] at instant [now]. *)
Definition on_failure (now : Z) (b : CircuitBreaker) : res :=
  match state b with
  | Closed =>
      failures ← u32_succ (consecutive_failures b);
      let b := set_failures b failures in
      if (failure_threshold config <=? failures)%Z
      then Ok (set_failures (set_state b (Open now)) 0)
      else Ok b
  | HalfOpen => Ok (set_successes (set_state b (Open now)) 0)
  | Open _ => Ok b
  end.

(** [CircuitBreaker::record_success] and [record_failure]. *)
Definition record_success : CircuitBreaker → res := on_success.
Definition record_failure : Z → CircuitBreaker → res := on_failure.

(** [CircuitBreaker::reset]. *)
Definition reset (b : CircuitBreaker) : CircuitBreaker :=
  set_successes (set_failures (set_state b Closed) 0) 0.

(** [is_open], [is_half_open] and [is_closed]. *)
Definition is_open (b : CircuitBreaker) : bool :=
  match state b with Open _ => true | _ => false end.
Definition is_half_open (b : CircuitBreaker) : bool :=
  match state b with HalfOpen => true | _ => false end.
Definition is_closed (b : CircuitBreaker) : bool :=
  match state b with Closed => true | _ => false end.

(** The state check at the start of [call]; [None]: fail fast. *)
Definition gate_call (now : Z) (b : CircuitBreaker) : option CircuitBreaker :=
  match state b with
  | Open opened_at =>
      if (timeout config <=? elapsed now opened_at)%Z
      then Some (set_successes (set_state b HalfOpen) 0)
      else None
  | Closed | HalfOpen => Some b
  end.

(** [CircuitBreaker::call]: [f] acts on a world; [now] is the instant of the
    state check, [later] that of recording a failure. *)
Definition call {W A E} (now later : Z) (f : W → (A + E) * W) (w : W) (b : CircuitBreaker)
    : result unit (call_outcome A E * W * CircuitBreaker) :=
  match gate_call now b with
  | None => Ok (CircuitOpen, w, b)
  | Some b =>
      let '(r, w) := f w in
      match r with
      | inl a => b ← on_success b; Ok (CallOk a, w, b)
      | inr e => b ← on_failure later b; Ok (CallFailed e, w, b)
      end
  end.

(** ** Steps *)

(** What a client does. *)
Inductive event : Type :=
  | ECall (now later : Z) (ok : bool)
  | ERecordSuccess
  | ERecordFailure (now : Z)
  | EReset.

(** The breaker's side of a call whose function succeeds or fails. *)
Definition step (b : CircuitBreaker) (e : event) : res :=
  match e with
  | ECall now later ok =>
      r ← call now later (λ _ : unit, (if ok then inl tt else inr tt, tt)) tt b; Ok r.2
  | ERecordSuccess => record_success b
  | ERecordFailure now => record_failure now b
  | EReset => Ok (reset b)
  end.

Definition run (b : CircuitBreaker) (es : list event) : res := result_foldM step b es.

(** ** The invariant *)

(** The failure counter is below its threshold and zero unless closed, the
    success counter below its threshold and zero unless half-open. *)
Record breaker_ok (b : CircuitBreaker) : Prop := {
  ok_failures : (0 ≤ consecutive_failures b < Z.max 1 (failure_threshold config))%Z;
  ok_successes : (0 ≤ consecutive_successes b < Z.max 1 (success_threshold config))%Z;
  ok_failures_zero : state b ≠ Closed → consecutive_failures b = 0%Z;
  ok_successes_zero : state b ≠ HalfOpen → consecutive_successes b = 0%Z;
}.

Context (Hft : (0 ≤ failure_threshold config < 2 ^ 32)%Z)
        (Hst : (0 ≤ success_threshold config < 2 ^ 32)%Z).

Lemma new_breaker_ok : breaker_ok new_breaker.
Proof. by split; simpl; try lia. Qed.

Lemma u32_succ_ok n : (0 ≤ n < 2 ^ 32 - 1)%Z → u32_succ n = Ok (n + 1)%Z.
Proof. intros Hn. unfold u32_succ. by rewrite (proj2 (Z.ltb_lt _ _)) by lia. Qed.

Lemma on_success_ok b : breaker_ok b → ∃ b', on_success b = Ok b' ∧ breaker_ok b'.
Proof.
  intros [Hf Hs Hfz Hsz]. unfold on_success. destruct (state b) as [|t|] eqn:E.
  - eexists. split; [done|]. split; simpl; rewrite ?E; try done; lia || auto.
  - eexists. split; [done|]. split; simpl; rewrite ?E; try done; auto.
  - rewrite u32_succ_ok by lia. simpl.
    destruct (Z.leb_spec (success_threshold config) (consecutive_successes b + 1));
      (eexists; split; [done|]); split; simpl; rewrite ?E; try done; lia || auto.
Qed.

Lemma on_failure_ok now b : breaker_ok b → ∃ b', on_failure now b = Ok b' ∧ breaker_ok b'.
Proof.
  intros [Hf Hs Hfz Hsz]. unfold on_failure. destruct (state b) as [|t|] eqn:E.
  - rewrite u32_succ_ok by lia. simpl.
    destruct (Z.leb_spec (failure_threshold config) (consecutive_failures b + 1));
      (eexists; split; [done|]); split; simpl; rewrite ?E; try done; lia || auto.
  - eexists. split; [done|]. split; rewrite ?E; try done.
  - eexists. split; [done|]. split; simpl; rewrite ?E; try done; lia || auto.
Qed.

Lemma gate_call_ok now b b' : breaker_ok b → gate_call now b = Some b' → breaker_ok b'.
Proof.
  intros [Hf Hs Hfz Hsz]. unfold gate_call. destruct (state b) as [|t|] eqn:E;
    intros Ha; simplify_eq; try (split; rewrite ?E; done).
  destruct (_ <=? _)%Z; simplify_eq. split; simpl; try done; try lia. intros _. auto.
Qed.

Lemma call_ok {W A E} now later (f : W → (A + E) * W) w b :
  breaker_ok b → ∃ r, call now later f w b = Ok r ∧ breaker_ok r.2.
Proof.
  intros Hb. unfold call. destruct (gate_call now b) as [b1|] eqn:Ha; [|by eexists].
  apply gate_call_ok in Ha; [|done]. destruct (f w) as [[a|e] w1].
  - destruct (on_success_ok _ Ha) as (b2 & -> & Hb2). by eexists.
  - destruct (on_failure_ok later _ Ha) as (b2 & -> & Hb2). by eexists.
Qed.

Lemma step_ok b e : breaker_ok b → ∃ b', step b e = Ok b' ∧ breaker_ok b'.
Proof.
  intros Hb. destruct e as [now later ok| |now|]; simpl.
  - destruct (call_ok now later (λ _ : unit, (if ok then inl tt else inr tt, tt)) tt b Hb)
      as (r & -> & Hr). simpl. eauto.
  - by apply on_success_ok.
  - by apply on_failure_ok.
  - eexists. split; [done|]. by split; simpl; try lia.
Qed.

Lemma run_ok b es : breaker_ok b → ∃ b', run b es = Ok b' ∧ breaker_ok b'.
Proof.
  revert b. induction es as [|e es IH]; intros b Hb; cbn; [by eexists|].
  destruct (step_ok b e Hb) as (b1 & -> & Hb1). by apply IH.
Qed.

Lemma run_step b e es b' : step b e = Ok b' → run b (e :: es) = run b' es.
Proof. intros He. unfold run. cbn [result_foldM]. by rewrite He. Qed.

Lemma run_app b es es' : run b (es ++ es') = b' ← run b es; run b' es'.
Proof.
  revert b. induction es as [|e es IH]; intros b; [done|]. cbn.
  destruct (step b e); [apply IH|done..].
Qed.

(** The breaker's invariant: whatever sequence of calls, recorded outcomes
    and resets a client performs, no counter overflows (no operation panics in
    a checked build and none wraps), and afterwards both counters are below
    their thresholds, failures are counted only while closed and successes
    only while half-open. *)
Theorem breaker_invariant es :
  ∃ b, run new_breaker es = Ok b ∧ breaker_ok b.
Proof. apply run_ok, new_breaker_ok. Qed.

(** ** Tripping *)

Definition failing (ts : list (Z * Z)) : list event :=
  map (λ '(now, later), ECall now later false) ts.
Definition succeeding (ts : list (Z * Z)) : list event :=
  map (λ '(now, later), ECall now later true) ts.

Definition closed_with (n : Z) : CircuitBreaker :=
  {| state := Closed; consecutive_failures := n; consecutive_successes := 0 |}.
Definition opened_at (t : Z) : CircuitBreaker :=
  {| state := Open t; consecutive_failures := 0; consecutive_successes := 0 |}.
Definition half_open_with (n : Z) : CircuitBreaker :=
  {| state := HalfOpen; consecutive_failures := 0; consecutive_successes := n |}.

Lemma closed_failure n now later :
  (0 ≤ n < failure_threshold config)%Z →
  step (closed_with n) (ECall now later false) =
  Ok (if (failure_threshold config <=? n + 1)%Z then opened_at later else closed_with (n + 1)).
Proof.
  intros Hn. cbn. unfold on_failure. simpl. rewrite u32_succ_ok by lia. simpl.
  by destruct (failure_threshold config <=? n + 1)%Z.
Qed.

Lemma failing_below n ts :
  (0 ≤ n)%Z → (n + Z.of_nat (length ts) < failure_threshold config)%Z →
  run (closed_with n) (failing ts) = Ok (closed_with (n + Z.of_nat (length ts))).
Proof.
  revert n. induction ts as [|[now later] ts IH]; intros n Hn Hlen; cbn [length] in *.
  - cbn. by rewrite Z.add_0_r.
  - unfold run, failing. cbn [map result_foldM]. rewrite closed_failure by lia.
    destruct (Z.leb_spec (failure_threshold config) (n + 1)); [lia|].
    fold (run (closed_with (n + 1)) (failing ts)). rewrite IH by lia. do 2 f_equal. lia.
Qed.

(** The circuit opens at its threshold and not before: a new breaker that
    has seen fewer consecutive failing calls than the failure threshold is
    closed and has counted them all; the call that reaches the threshold opens
    it at that call's instant; and a successful call in between starts the
    count again. *)
Theorem opens_at_threshold ts now later :
  (Z.of_nat (length ts) < failure_threshold config)%Z →
  run new_breaker (failing ts) = Ok (closed_with (Z.of_nat (length ts))) ∧
  (Z.of_nat (length ts) + 1 = failure_threshold config →
     run new_breaker (failing (ts ++ [(now, later)])) = Ok (opened_at later))%Z ∧
  run new_breaker (failing ts ++ succeeding [(now, later)]) = Ok new_breaker.
Proof.
  intros Hlen. pose proof (failing_below 0 ts ltac:(lia) Hlen) as Hrun.
  change (closed_with 0) with new_breaker in Hrun. rewrite Z.add_0_l in Hrun.
  split_and!; [done| |].
  - intros E. unfold failing. rewrite map_app. fold (failing ts). rewrite run_app, Hrun.
    unfold run. cbn [mbind result_bind map result_foldM]. rewrite closed_failure by lia.
    destruct (Z.leb_spec (failure_threshold config) (Z.of_nat (length ts) + 1)); [done|lia].
  - by rewrite run_app, Hrun.
Qed.

(** ** Failing fast *)

(** An open circuit protects the service: while less than the timeout has
    passed since a breaker opened, every call fails fast, without running the
    function it is given and without changing the breaker, however many are
    made. *)
Theorem open_fails_fast {W A E} t (f : W → (A + E) * W) w ts :
  Forall (λ '(now, _), elapsed now t < timeout config)%Z ts →
  run (opened_at t) (succeeding ts) = Ok (opened_at t) ∧
  Forall (λ '(now, later), call now later f w (opened_at t) = Ok (CircuitOpen, w, opened_at t)) ts.
Proof.
  intros HF.
  assert (Hgate : ∀ now, (elapsed now t < timeout config)%Z → gate_call now (opened_at t) = None).
  { intros now Hnow. unfold gate_call. simpl. by rewrite (proj2 (Z.leb_gt _ _)). }
  split.
  - induction HF as [|[now later] ts Hnow _ IH]; [done|].
    unfold run, succeeding. cbn. unfold call. rewrite Hgate by done. exact IH.
  - eapply Forall_impl; [done|]. intros [now later] Hnow. unfold call. by rewrite Hgate.
Qed.

(** ** Recovery *)

(** The counter [n] of a half-open breaker is below this many successes; a threshold of
    zero is met by the first success. *)
Abbreviation successes_needed := (Z.max 1 (success_threshold config)).

(** A call on a half-open breaker. *)
Lemma half_open_call {W A E} (f : W → (A + E) * W) w n now later :
  (0 ≤ n < successes_needed)%Z →
  call now later f w (half_open_with n) =
  match f w with
  | (inl a, w') => Ok (CallOk a, w',
      if (successes_needed <=? n + 1)%Z then new_breaker else half_open_with (n + 1))
  | (inr e, w') => Ok (CallFailed e, w', opened_at later)
  end.
Proof.
  intros Hn. unfold call. simpl. destruct (f w) as [[a|e] w']; [|done].
  unfold on_success. simpl. rewrite u32_succ_ok by lia. simpl.
  destruct (Z.leb_spec (success_threshold config) (n + 1)),
    (Z.leb_spec successes_needed (n + 1)); done || lia.
Qed.

Lemma half_open_success n now later :
  (0 ≤ n)%Z → (n + 1 < successes_needed)%Z →
  step (half_open_with n) (ECall now later true) = Ok (half_open_with (n + 1)).
Proof.
  intros H0 Hn. simpl. rewrite half_open_call by lia. simpl.
  by destruct (Z.leb_spec successes_needed (n + 1)); [lia|].
Qed.

Lemma half_open_below n ts :
  (0 ≤ n)%Z → (n + Z.of_nat (length ts) < successes_needed)%Z →
  run (half_open_with n) (succeeding ts) = Ok (half_open_with (n + Z.of_nat (length ts))).
Proof.
  revert n. induction ts as [|[now later] ts IH]; intros n Hn Hlen; cbn [length] in *.
  - cbn. by rewrite Z.add_0_r.
  - unfold run, succeeding. cbn [map result_foldM]. rewrite half_open_success by lia.
    fold (run (half_open_with (n + 1)) (succeeding ts)). rewrite IH by lia. do 2 f_equal. lia.
Qed.

(** The first call after the timeout behaves as on a half-open breaker. *)
Lemma first_after_timeout {W A E} (f : W → (A + E) * W) w t now later :
  (timeout config ≤ elapsed now t)%Z →
  call now later f w (opened_at t) = call now later f w (half_open_with 0).
Proof.
  intros Hnow. unfold call, gate_call. simpl. by rewrite (proj2 (Z.leb_le _ _)).
Qed.

(** C34: recovery.  A breaker has opened at [t] and since the timeout passed has made
    the calls [ts], all successful and fewer than the success threshold asks for (one,
    for a threshold of zero); [ts] may be empty.  After them it is half-open and has
    counted them, and the next call, which for an empty [ts] is the first one after the
    timeout, runs the function it is given: a success closes the breaker with both
    counters at zero if it is the one the threshold asks for and is counted if not, and
    a failure opens the breaker again at its own instant. *)
Theorem recovers_after_timeout {W A E} t ts now later (f : W → (A + E) * W) w :
  (timeout config ≤ elapsed (hd now ts.*1) t)%Z →
  (Z.of_nat (length ts) < successes_needed)%Z →
  ∃ b, run (opened_at t) (succeeding ts) = Ok b ∧
    (ts ≠ [] → b = half_open_with (Z.of_nat (length ts))) ∧
    call now later f w b =
      match f w with
      | (inl a, w') => Ok (CallOk a, w',
          if (successes_needed <=? Z.of_nat (length ts) + 1)%Z then new_breaker
          else half_open_with (Z.of_nat (length ts) + 1))
      | (inr e, w') => Ok (CallFailed e, w', opened_at later)
      end.
Proof.
  destruct ts as [|[now0 later0] ts]; simpl; intros Hnow Hlen.
  - exists (opened_at t). split_and!; [done..|]. rewrite first_after_timeout by done.
    apply half_open_call. lia.
  - exists (half_open_with (Z.of_nat (S (length ts)))). split_and!; [|done|apply half_open_call; lia].
    unfold run, succeeding. cbn [map result_foldM]. simpl step.
    rewrite first_after_timeout, half_open_call by (done || lia). simpl.
    destruct (Z.leb_spec successes_needed (0 + 1)); [lia|]. simpl.
    fold (run (half_open_with 1) (succeeding ts)). rewrite half_open_below by lia. do 2 f_equal. lia.
Qed.

(** A success recorded while the circuit is open closes it at once, whatever
    the timeout and the success threshold. *)
Theorem late_success_closes_open_circuit t : record_success (opened_at t) = Ok new_breaker.
Proof. reflexivity. Qed.
End Breaker.

(** ** Witnesses, with the default configuration *)

Lemma breaker_invariant_witness :
  ∃ b, run true default_config new_breaker
         [ECall 0 1 false; ERecordFailure 2; ERecordSuccess; EReset] = Ok b ∧
       breaker_ok default_config b.
Proof. apply breaker_invariant; simpl; lia. Defined.

Lemma opens_at_threshold_witness :
  run true default_config new_breaker (failing [(0, 1); (2, 3); (4, 5); (6, 7)]%Z)
    = Ok (closed_with 4) ∧
  run true default_config new_breaker
    (failing ([(0, 1); (2, 3); (4, 5); (6, 7)] ++ [(8, 9)])%Z) = Ok (opened_at 9).
Proof.
  destruct (opens_at_threshold true default_config ltac:(simpl; lia)
              [(0, 1); (2, 3); (4, 5); (6, 7)]%Z 8 9 ltac:(simpl; lia)) as (H1 & H2 & _).
  split; [exact H1|apply H2; reflexivity].
Defined.

Lemma open_fails_fast_witness :
  run true default_config (opened_at 100) (succeeding [(200, 201); (300, 301)]%Z)
    = Ok (opened_at 100) ∧
  Forall (λ '(now, later),
    call true default_config now later (λ w : nat, (inl (B := unit) tt, S w)) 7%nat (opened_at 100)
    = Ok (CircuitOpen, 7%nat, opened_at 100)) [(200, 201); (300, 301)]%Z.
Proof. apply open_fails_fast. by repeat constructor. Defined.

Lemma recovers_after_timeout_witness :
  call true default_config (31 * 10 ^ 9) 2 (λ w : nat, (inl (B := unit) tt, S w)) 7%nat (half_open_with 1)
    = Ok (CallOk tt, 8%nat, new_breaker) ∧
  call true default_config (30 * 10 ^ 9) 2 (λ w : nat, (inr (A := unit) tt, S w)) 7%nat (opened_at 0)
    = Ok (CallFailed tt, 8%nat, opened_at 2).
Proof.
  split.
  - destruct (recovers_after_timeout true default_config ltac:(simpl; lia) 0 [(30 * 10 ^ 9, 1)%Z]
      (31 * 10 ^ 9) 2 (λ w : nat, (inl (B := unit) tt, S w)) 7%nat ltac:(vm_compute; done) ltac:(simpl; lia))
      as (b & _ & Hb & Hc).
    rewrite Hb in Hc by done. exact Hc.
  - destruct (recovers_after_timeout true default_config ltac:(simpl; lia) 0 []
      (30 * 10 ^ 9) 2 (λ w : nat, (inr (A := unit) tt, S w)) 7%nat ltac:(vm_compute; done) ltac:(simpl; lia))
      as (b & Hr & _ & Hc).
    injection Hr as <-. exact Hc.
Defined.
