(* ===== verification/RetryStrategy.v ===== *)
(** * Reliability: retries through the circuit breaker

    Models [reliability/retry_strategy.rs] of the core: the executor that calls
    an operation through a [CircuitBreaker] with exponential backoff, and the
    handling of its outcome with a dead letter queue.  The instants of each
    attempt are arguments; the waits between attempts are returned. *)

From Stdlib Require Import ZArith Lia.
From stdpp Require Import base numbers option strings list.
From S2P Require Import Prelude CircuitBreaker.

Local Open Scope Z_scope.

Record RetryConfig : Type := {
  max_retries : nat;
  initial_backoff_ms : Z;
}.

(** [RetryConfig::default]. *)
Definition default_retry : RetryConfig := {| max_retries := 3; initial_backoff_ms := 100 |}.

Inductive RetryOutcome (E : Type) : Type :=
  | Success (retries_used : nat)
  | OpenedCircuit
  | PermanentFailure (error : E) (retries : nat).
Arguments Success {E} retries_used.
Arguments OpenedCircuit {E}.
Arguments PermanentFailure {E} error retries.

Section Retry.
Context (overflow_checks : bool) (breaker : CircuitBreakerConfig) (config : RetryConfig).
Context {W A E : Type} (f : W → (A + E) * W).

(** Unsigned 64-bit arithmetic. *)
Definition u64_checked (z : Z) : result unit Z :=
  if (0 <=? z) && (z <? 2 ^ 64) then Ok z
  else if overflow_checks then Panic else Ok (z mod 2 ^ 64).

(** [initial_backoff_ms * 2u64.pow(retry_attempt - 1)]. *)
Definition backoff_ms (retry_attempt : nat) : result unit Z :=
  p ← u64_checked (2 ^ (Z.of_nat retry_attempt - 1));
  u64_checked (initial_backoff_ms config * p).

(** [RetryExecutor::retry_with_backoff] from the attempt [retry_attempt], with [n]
    attempts left; [times] gives the instants of each attempt. *)
Fixpoint retry_with_backoff (times : nat → Z * Z) (n retry_attempt : nat) (last_error : E)
    (w : W) (b : CircuitBreaker) : result unit (RetryOutcome E * list Z * W * CircuitBreaker) :=
  match n with
  | O => Ok (PermanentFailure last_error (max_retries config), [], w, b)
  | S n' =>
      wait ← backoff_ms retry_attempt;
      r ← call overflow_checks breaker (times retry_attempt).1 (times retry_attempt).2 f w b;
      let '(o, w, b) := r in
      match o with
      | CallOk _ => Ok (Success retry_attempt, [wait], w, b)
      | CircuitOpen => Ok (OpenedCircuit, [wait], w, b)
      | CallFailed e =>
          r ← retry_with_backoff times n' (S retry_attempt) e w b;
          let '(out, waits, w, b) := r in Ok (out, wait :: waits, w, b)
      end
  end.

(** [RetryExecutor::execute]. *)
Definition execute (times : nat → Z * Z) (w : W) (b : CircuitBreaker)
    : result unit (RetryOutcome E * list Z * W * CircuitBreaker) :=
  r ← call overflow_checks breaker (times 0%nat).1 (times 0%nat).2 f w b;
  let '(o, w, b) := r in
  match o with
  | CallOk _ => Ok (Success 0, [], w, b)
  | CircuitOpen => Ok (OpenedCircuit, [], w, b)
  | CallFailed e => retry_with_backoff times (max_retries config) 1 e w b
  end.
End Retry.

(** ** The dead letter queue *)

(** A write to the queue: the event, the error text and the retries. *)
Definition DlqEntry (Event : Type) : Type := Event * string * nat.

(** [handle_retry_outcome]: the answer and the queue; a failing write of the
    queue ([dlq_ok] false) is only logged. *)
Definition handle_retry_outcome {Event E} (to_string : E → string) (outcome : RetryOutcome E)
    (event : Event) (dlq_ok : bool) (dlq : list (DlqEntry Event)) : bool * list (DlqEntry Event) :=
  let write entry := if dlq_ok then dlq ++ [entry] else dlq in
  match outcome with
  | Success _ => (true, dlq)
  | OpenedCircuit => (false, write (event, "circuit_breaker_open"%string, 0%nat))
  | PermanentFailure error retries => (false, write (event, to_string error, retries))
  end.

(** ** Facts *)

(** The operation with a log of its results. *)
Definition logged {W A E} (f : W → (A + E) * W) (s : list (A + E) * W)
    : (A + E) * (list (A + E) * W) :=
  let '(r, w) := f s.2 in (r, (s.1 ++ [r], w)).

Section Facts.
Context (overflow_checks : bool) (breaker : CircuitBreakerConfig) (config : RetryConfig).
Context {W A E : Type} (f : W → (A + E) * W).

(** The breaker's side of the calls with the results [rs], from attempt [k] on. *)
Fixpoint attempts (times : nat → Z * Z) (k : nat) (rs : list (A + E)) : list event :=
  match rs with
  | [] => []
  | r :: rs =>
      ECall (times k).1 (times k).2 (match r with inl _ => true | inr _ => false end)
        :: attempts times (S k) rs
  end.

(** What an outcome says about the [n] retries after the error [last]: the results
    [new] of the operation and the waits. *)
Definition retries_fit (n k : nat) (last : E) (out : RetryOutcome E) (new : list (A + E))
    (waits : list Z) : Prop :=
  match out with
  | Success m => ∃ es a, new = map inr es ++ [inl a] ∧ m = (k + length es)%nat ∧
      (length es < n)%nat ∧ length waits = S (length es)
  | OpenedCircuit => ∃ es, new = map inr es ∧ (length es < n)%nat ∧ length waits = S (length es)
  | PermanentFailure e r => ∃ es, new = map inr es ∧ length es = n ∧
      r = max_retries config ∧ e = List.last es last ∧ length waits = n
  end.

Lemma last_nonempty {B} (x d d' : B) l : List.last (x :: l) d = List.last (x :: l) d'.
Proof. revert x. induction l as [|y l IH]; intros x; [done|]. apply (IH y). Qed.

Lemma call_cases {B F : Type} (g : W → (B + F) * W) now later w b o w' b' :
  call overflow_checks breaker now later (logged g) w b = Ok (o, w', b') →
  match o with
  | CallOk a => w'.1 = w.1 ++ [inl a] ∧ step overflow_checks breaker b (ECall now later true) = Ok b'
  | CallFailed e => w'.1 = w.1 ++ [inr e] ∧ step overflow_checks breaker b (ECall now later false) = Ok b'
  | CircuitOpen => w' = w ∧ b' = b ∧ gate_call breaker now b = None
  end.
Proof.
  unfold step, call. intros H. destruct (gate_call breaker now b) as [b1|]; [|by simplify_eq].
  unfold logged in H. destruct (g w.2) as [[a|e] w1]; simpl in H;
    apply result_bind_Ok in H as (b2 & Hb & H); simplify_eq; split; [done| |done|];
    simpl; by rewrite Hb.
Qed.

Lemma retries_fit_cons n k last e out new wait waits :
  retries_fit n (S k) e out new waits → retries_fit (S n) k last out (inr e :: new) (wait :: waits).
Proof.
  destruct out; simpl.
  - intros (es & a & -> & -> & ? & ?). exists (e :: es), a. simpl. split_and!; [done|lia..].
  - intros (es & -> & ? & ?). exists (e :: es). simpl. split_and!; [done|lia..].
  - intros (es & -> & ? & ? & -> & ?). exists (e :: es). simpl. split_and!; [done|lia|done| |lia].
    destruct es; [done|]. change (List.last (e :: e0 :: es) last) with (List.last (e0 :: es) last).
    apply last_nonempty.
Qed.

Lemma retry_outcomes times n k last w b out waits w' b' :
  retry_with_backoff overflow_checks breaker config (logged f) times n k last w b
    = Ok (out, waits, w', b') →
  ∃ new, w'.1 = w.1 ++ new ∧ retries_fit n k last out new waits ∧
    run overflow_checks breaker b (attempts times k new) = Ok b' ∧
    (out = OpenedCircuit → gate_call breaker (times (k + length new)%nat).1 b' = None) ∧
    ∀ i z, waits !! i = Some z → backoff_ms overflow_checks config (k + i) = Ok z.
Proof.
  revert k last w b out waits. induction n as [|n IH]; intros k last w b out waits H.
  { simpl in H. simplify_eq. exists []. rewrite app_nil_r. split_and!; [done| |done..].
    by exists []. }
  cbn [retry_with_backoff] in H. apply result_bind_Ok in H as (wait & Hw & H).
  apply result_bind_Ok in H as ([[o w1] b1] & Hc & H). apply call_cases in Hc.
  destruct o as [a|e|].
  - destruct Hc as [Hc Hs]. simplify_eq. exists [inl a].
    split_and!; [done|exists [], a; simpl; split_and!; [done|lia..]|by cbn [attempts]; rewrite (run_step _ _ _ _ _ _ Hs)|done|].
    intros [|i] z Hz; simplify_eq/=. by rewrite Nat.add_0_r.
  - destruct Hc as [Hc Hs]. apply result_bind_Ok in H as ([[[out1 waits1] w2] b2] & Hr & H). simplify_eq.
    apply IH in Hr as (new & Hn & Hf & Hrun & Hopen & Hb). exists (inr e :: new).
    split_and!; [by rewrite Hn, Hc, <- app_assoc|by apply retries_fit_cons|by cbn [attempts]; rewrite (run_step _ _ _ _ _ _ Hs)| |].
    + intros Ho. simpl. rewrite Nat.add_succ_r. by apply Hopen.
    + intros [|i] z Hz; simplify_eq/=; [by rewrite Nat.add_0_r|].
      rewrite Nat.add_succ_r. by apply Hb.
  - destruct Hc as (-> & -> & Hg). simplify_eq. exists []. rewrite app_nil_r.
    split_and!; [done|by exists []; simpl; split_and!; [done|lia|done]|done| |].
    + intros _. simpl. by rewrite Nat.add_0_r.
    + intros [|i] z Hz; simplify_eq/=. by rewrite Nat.add_0_r.
Qed.

Lemma execute_fits times w b out waits w' b' :
  execute overflow_checks breaker config (logged f) times w b = Ok (out, waits, w', b') →
  ∃ calls, w'.1 = w.1 ++ calls ∧ (length calls ≤ S (max_retries config))%nat ∧
    run overflow_checks breaker b (attempts times 0 calls) = Ok b' ∧
    match out with
    | Success m => ∃ es a, calls = map inr es ++ [inl a] ∧ length es = m ∧ length waits = m
    | OpenedCircuit => ∃ es, calls = map inr es ∧ length waits = length es ∧
        (length es ≤ max_retries config)%nat ∧ gate_call breaker (times (length es)).1 b' = None
    | PermanentFailure e r => ∃ es, calls = map inr es ∧ length es = S r ∧
        r = max_retries config ∧ last es = Some e ∧ length waits = r
    end ∧
    ∀ i z, waits !! i = Some z → backoff_ms overflow_checks config (S i) = Ok z.
Proof.
  unfold execute. intros H. apply result_bind_Ok in H as ([[o w1] b1] & Hc & H).
  apply call_cases in Hc. destruct o as [a|e|].
  - destruct Hc as [Hc Hs]. simplify_eq. exists [inl a].
    split_and!; [done|simpl; lia|by cbn [attempts]; rewrite (run_step _ _ _ _ _ _ Hs)| |done]. by exists [], a.
  - destruct Hc as [Hc Hs].
    apply retry_outcomes in H as (new & Hn & Hf & Hrun & Hopen & Hb). exists (inr e :: new).
    assert (run overflow_checks breaker b (attempts times 0 (inr e :: new)) = Ok b')
      by (by cbn [attempts]; rewrite (run_step _ _ _ _ _ _ Hs)).
    split; [by rewrite Hn, Hc, <- app_assoc|].
    destruct out as [m| |e' r]; simpl in Hf.
    + destruct Hf as (es & a & -> & -> & ? & ?).
      split; [simpl; rewrite length_app, length_map; simpl; lia|]. split_and!; [done| |done].
      exists (e :: es), a. by simpl; split_and!; [|lia..].
    + destruct Hf as (es & -> & ? & ?). split; [simpl; rewrite length_map; lia|].
      split_and!; [done| |done]. exists (e :: es). simpl. split_and!; [done|lia..|].
      specialize (Hopen eq_refl). by rewrite length_map in Hopen.
    + destruct Hf as (es & -> & ? & -> & -> & ?). split; [simpl; rewrite length_map; lia|].
      split_and!; [done| |done]. exists (e :: es). simpl. split_and!; [done|lia|done| |lia].
      clear. revert e. induction es as [|y es IH]; intros e; [done|].
      change (last (e :: y :: es)) with (last (y :: es)). rewrite IH.
      f_equal. destruct es as [|z es]; [done|]. exact (last_nonempty z y e es).
  - destruct Hc as (-> & -> & Hg). simplify_eq. exists []. rewrite app_nil_r. split; [done|].
    split; [simpl; lia|]. split_and!; [done| |done]. exists []. by simpl; split_and!; [|lia..|].
Qed.
Context (Hft : 0 ≤ failure_threshold breaker < 2 ^ 32)
        (Hst : 0 ≤ success_threshold breaker < 2 ^ 32).
Context (Hinit : 0 ≤ initial_backoff_ms config < 2 ^ 64) (Hmax : (max_retries config ≤ 64)%nat)
        (Hwait : initial_backoff_ms config * 2 ^ (Z.of_nat (max_retries config) - 1) < 2 ^ 64).

Lemma u64_checked_ok z : 0 ≤ z < 2 ^ 64 → u64_checked overflow_checks z = Ok z.
Proof.
  intros Hz. unfold u64_checked. by rewrite (proj2 (Z.leb_le _ _)), (proj2 (Z.ltb_lt _ _)) by lia.
Qed.

Lemma backoff_ok k :
  (1 ≤ k ≤ max_retries config)%nat →
  backoff_ms overflow_checks config k = Ok (initial_backoff_ms config * 2 ^ (Z.of_nat k - 1)).
Proof.
  intros Hk. unfold backoff_ms.
  assert (0 < 2 ^ (Z.of_nat k - 1) < 2 ^ 64).
  { split; [apply Z.pow_pos_nonneg; lia|apply Z.pow_lt_mono_r; lia]. }
  rewrite u64_checked_ok by lia. cbn. apply u64_checked_ok. split; [lia|].
  eapply Z.le_lt_trans; [|exact Hwait]. apply Z.mul_le_mono_nonneg_l; [lia|].
  apply Z.pow_le_mono_r; lia.
Qed.

Lemma retry_total {X} (g : X → (A + E) * X) times n k last w b :
  breaker_ok breaker b → (1 ≤ k)%nat → (n + k ≤ S (max_retries config))%nat →
  ∃ r, retry_with_backoff overflow_checks breaker config g times n k last w b = Ok r.
Proof using Hft Hst Hinit Hmax Hwait.
  revert k last w b. induction n as [|n IH]; intros k last w b Hb Hk Hn; [by eexists|].
  cbn [retry_with_backoff]. rewrite backoff_ok by lia. cbn.
  destruct (call_ok overflow_checks breaker Hft Hst (times k).1 (times k).2 g w b Hb)
    as ([[o w1] b1] & -> & Hb1). cbn. destruct o as [a|e|]; [by eexists| |by eexists].
  destruct (IH (S k) e w1 b1 Hb1 ltac:(lia) ltac:(lia)) as ([[[out waits] w2] b2] & ->).
  by eexists.
Qed.

Lemma execute_total {X} (g : X → (A + E) * X) times w b :
  breaker_ok breaker b → ∃ r, execute overflow_checks breaker config g times w b = Ok r.
Proof using Hft Hst Hinit Hmax Hwait.
  intros Hb. unfold execute.
  destruct (call_ok overflow_checks breaker Hft Hst (times 0%nat).1 (times 0%nat).2 g w b Hb)
    as ([[o w1] b1] & -> & Hb1). cbn. destruct o as [a|e|]; [by eexists| |by eexists].
  apply retry_total; [done|lia..].
Qed.

(** C37: the executor always answers, and what it reports is what happened.  From
    a breaker in a reachable state, with backoffs that fit [u64], the
    operation is called at most [max_retries + 1] times, and the breaker ends in the
    state these calls and their results, at the instants of the attempts, bring it to;
    [Success] with [m] retries means that the first [m] calls failed and the next one
    succeeded; [OpenedCircuit] that every call made failed and that the breaker, in the
    state it was then left in, refuses the next at the instant of that attempt;
    [PermanentFailure] that all [max_retries + 1] calls failed and that the
    reported error is the last one.  The wait before retry [i + 1] is
    [initial * 2^i] milliseconds. *)
Theorem execute_outcomes times w b :
  breaker_ok breaker b →
  ∃ out waits w' b' calls,
    execute overflow_checks breaker config (logged f) times w b = Ok (out, waits, w', b') ∧
    w'.1 = w.1 ++ calls ∧ (length calls ≤ S (max_retries config))%nat ∧
    run overflow_checks breaker b (attempts times 0 calls) = Ok b' ∧
    match out with
    | Success m => ∃ es a, calls = map inr es ++ [inl a] ∧ length es = m ∧ length waits = m
    | OpenedCircuit => ∃ es, calls = map inr es ∧ length waits = length es ∧
        (length es ≤ max_retries config)%nat ∧ gate_call breaker (times (length es)).1 b' = None
    | PermanentFailure e r => ∃ es, calls = map inr es ∧ length es = S r ∧
        r = max_retries config ∧ last es = Some e ∧ length waits = r
    end ∧
    ∀ i z, waits !! i = Some z → z = initial_backoff_ms config * 2 ^ Z.of_nat i.
Proof using Hft Hst Hinit Hmax Hwait.
  intros Hb. destruct (execute_total (logged f) times w b Hb) as ([[[out waits] w'] b'] & Hx).
  destruct (execute_fits _ _ _ _ _ _ _ Hx) as (calls & Hw & Hl & Hrun & Ho & Hz).
  exists out, waits, w', b', calls. split_and!; [done..|]. intros i z Hi.
  specialize (Hz i z Hi). apply lookup_lt_Some in Hi.
  assert (Hr : (length waits ≤ max_retries config)%nat).
  { destruct out; [destruct Ho as (es & a & -> & <- & ->)|destruct Ho as (es & -> & -> & ? & ?)|
      destruct Ho as (es & -> & ? & -> & ? & ->)];
      rewrite ?length_app, ?length_map in Hl; simpl in Hl; lia. }
  rewrite backoff_ok in Hz by lia. simplify_eq. do 2 f_equal. lia.
Qed.
End Facts.

(** An operation that fails twice, then succeeds. *)
Definition third_time (n : nat) : (nat + nat) * nat := (if 2 <=? n then inl n else inr n, S n)%nat.

Lemma execute_outcomes_witness :
  ∃ out waits w' b' calls,
    execute true default_config default_retry (logged third_time) (λ i, (Z.of_nat i, Z.of_nat i))
      ([], 0%nat) new_breaker = Ok (out, waits, w', b') ∧
    w'.1 = [] ++ calls ∧ (length calls ≤ 4)%nat ∧
    run true default_config new_breaker (attempts (λ i, (Z.of_nat i, Z.of_nat i)) 0 calls) = Ok b' ∧
    ∀ i z, waits !! i = Some z → z = 100 * 2 ^ Z.of_nat i.
Proof.
  destruct (execute_outcomes true default_config default_retry third_time ltac:(simpl; lia) ltac:(simpl; lia)
    ltac:(simpl; lia) ltac:(simpl; lia) ltac:(simpl; lia) (λ i, (Z.of_nat i, Z.of_nat i)) ([], 0%nat)
    new_breaker ltac:(by split; simpl; try lia)) as (out & waits & w' & b' & calls & H1 & H2 & H3 & H4 & _ & H5).
  exists out, waits, w', b', calls. split_and!; [exact H1|exact H2|exact H3|exact H4|exact H5].
Defined.

(** A breaker that trips at the second failure refuses the third attempt. *)
Example tripped_while_retrying :
  execute true {| failure_threshold := 2; timeout := 30 * 10 ^ 9; success_threshold := 2 |}
    default_retry third_time (λ i, (Z.of_nat i, Z.of_nat i)) 0%nat new_breaker
  = Ok (OpenedCircuit, [100; 200], 2%nat, opened_at 1).
Proof. vm_compute. reflexivity. Qed.

Example third_time_runs :
  execute true default_config default_retry third_time (λ i, (Z.of_nat i, Z.of_nat i)) 0%nat new_breaker
  = Ok (Success 2, [100; 200], 3%nat, new_breaker).
Proof. vm_compute. reflexivity. Qed.
