(* ===== verification/Dedup.v ===== *)
(** * Checkpointing: the deduplication state

    Models [checkpointing/dedup.rs] of the core, the map from record ids to the
    time they were last marked with its window, its cleanup, its snapshot and
    its restoration, and the use the ingestion makes of it for one record
    ([deduplicate_with_state] of [ingestion/dataflow.rs]).  The concurrent map's
    operations on one key are atomic, so the state is a map; the instants read from
    the clock are arguments.

    The specification keeps for every record the time it was last let through, for
    ever; the theorem is that forgetting old ones is never observed while the clock
    does not go back and the records of a window fit the map.  A checkpoint saves
    the state, and a recovery goes back to the last one. *)

From Stdlib Require Import ZArith Lia.
From stdpp Require Import base numbers option strings gmap list sorting.
From S2P Require Import Prelude RustStd.

Local Open Scope Z_scope.

Record CheckpointableDedupState : Type := {
  seen_ids : gmap string Z;
  window_ms : Z;
  max_entries : nat;
}.

Definition set_seen (s : CheckpointableDedupState) (m : gmap string Z) : CheckpointableDedupState :=
  {| seen_ids := m; window_ms := window_ms s; max_entries := max_entries s |}.

(** [CheckpointableDedupState::new]. *)
Definition new_dedup (window_ms : Z) (max_entries : nat) : CheckpointableDedupState :=
  {| seen_ids := ∅; window_ms := window_ms; max_entries := max_entries |}.

(** [now_ms]: the milliseconds since the epoch cut to 64 bits; before the epoch
    (a negative reading here) zero. *)
Definition now_ms (clock : Z) : Z := if clock <? 0 then 0 else wrap_i64 clock.

Section Dedup.
Context (overflow_checks : bool).

Definition sub (a b : Z) : result unit Z := i64_sub overflow_checks a b.

(** [is_duplicate] at [now]. *)
Definition is_duplicate (now : Z) (record_id : string) (s : CheckpointableDedupState)
    : result unit (bool * CheckpointableDedupState) :=
  match seen_ids s !! record_id with
  | Some timestamp =>
      age ← sub now timestamp;
      if age <? window_ms s then Ok (true, s)
      else Ok (false, set_seen s (delete record_id (seen_ids s)))
  | None => Ok (false, s)
  end.

(** [cleanup_old_entries] at [now]. *)
Definition cleanup_old_entries (now : Z) (s : CheckpointableDedupState)
    : result unit CheckpointableDedupState :=
  cutoff ← sub now (window_ms s);
  Ok (set_seen s (filter (λ kv, ¬ kv.2 < cutoff) (seen_ids s))).

(** [len] and [is_empty]. *)
Definition len (s : CheckpointableDedupState) : nat := size (seen_ids s).
Definition is_empty (s : CheckpointableDedupState) : bool := (len s =? 0)%nat.

(** [mark_seen] at [now]; [later] is the reading of the cleanup. *)
Definition mark_seen (now later : Z) (record_id : string) (s : CheckpointableDedupState)
    : result unit CheckpointableDedupState :=
  let s := set_seen s (<[record_id := now]> (seen_ids s)) in
  if (max_entries s <? len s)%nat then cleanup_old_entries later s else Ok s.

(** [snapshot] and [restore]. *)
Definition snapshot (s : CheckpointableDedupState) : gmap string Z := seen_ids s.

Definition restore (now : Z) (state : gmap string Z) (s : CheckpointableDedupState)
    : result unit CheckpointableDedupState :=
  let loaded := map_fold (λ k v m, <[k := v]> m) ∅ state in
  cleanup_old_entries now (set_seen s loaded).

(** The body of the loop of [deduplicate_with_state] for one record, the clock being read
    at [asked], [marked] and [later]: whether the record is handed on. *)
Definition deduplicate_record (asked marked later : Z) (record_id : string) (s : CheckpointableDedupState)
    : result unit (bool * CheckpointableDedupState) :=
  r ← is_duplicate asked record_id s;
  if (r.1 : bool) then Ok (false, r.2)
  else s ← mark_seen marked later record_id r.2; Ok (true, s).

(** ** Runs *)

(** What happens to the state: a record comes in, the cleanup task runs, a checkpoint is
    taken, or a new state is restored from the last checkpoint. *)
Inductive dedup_op : Type :=
  | Arrive (asked marked later : Z) (record_id : string)
  | Cleanup (now : Z)
  | TakeCheckpoint
  | Recover (now : Z).

(** A state with the map of the last checkpoint. *)
Definition DedupRun : Type := CheckpointableDedupState * gmap string Z.

(** One operation: whether the record is handed on, if it is one, and the new state. *)
Definition dedup_run (o : dedup_op) (x : DedupRun) : result unit (option bool * DedupRun) :=
  let '(s, saved) := x in
  match o with
  | Arrive asked marked later i =>
      r ← deduplicate_record asked marked later i s; Ok (Some r.1, (r.2, saved))
  | Cleanup now => s ← cleanup_old_entries now s; Ok (None, (s, saved))
  | TakeCheckpoint => Ok (None, (s, snapshot s))
  | Recover now =>
      s ← restore now saved (new_dedup (window_ms s) (max_entries s)); Ok (None, (s, saved))
  end.

Fixpoint dedup_run_all (os : list dedup_op) (x : DedupRun) : result unit (list bool * DedupRun) :=
  match os with
  | [] => Ok ([], x)
  | o :: os =>
      r ← dedup_run o x;
      r' ← dedup_run_all os r.2;
      Ok (option_list r.1 ++ r'.1, r'.2)
  end.

(** ** The specification *)

(** When each record was last let through, for ever, and the same at the last
    checkpoint. *)
Definition DedupSpec : Type := gmap string Z * gmap string Z.

Definition seen_within (window now : Z) (passed : gmap string Z) (i : string) : bool :=
  match passed !! i with Some t => now - t <? window | None => false end.

Definition spec_run (window : Z) (o : dedup_op) (x : DedupSpec) : option bool * DedupSpec :=
  let '(passed, saved) := x in
  match o with
  | Arrive asked marked _ i =>
      if seen_within window asked passed i then (Some false, (passed, saved))
      else (Some true, (<[i := marked]> passed, saved))
  | Cleanup _ => (None, (passed, saved))
  | TakeCheckpoint => (None, (passed, passed))
  | Recover _ => (None, (saved, saved))
  end.

Fixpoint spec_run_all (window : Z) (os : list dedup_op) (x : DedupSpec) : list bool :=
  match os with
  | [] => []
  | o :: os => let r := spec_run window o x in option_list r.1 ++ spec_run_all window os r.2
  end.

(** The records let through that are not older than the window at [now]. *)
Definition fresh (window now : Z) (passed : gmap string Z) : gmap string Z :=
  filter (λ kv, now - window ≤ kv.2) passed.

(** No more than [max] records are let through in a window. *)
Fixpoint within_cap (window : Z) (max : nat) (os : list dedup_op) (x : DedupSpec) : Prop :=
  match os with
  | [] => True
  | o :: os =>
      let x' := (spec_run window o x).2 in
      match o with Arrive _ _ later _ => (size (fresh window later x'.1) ≤ max)%nat | _ => True end ∧
      within_cap window max os x'
  end.

(** The readings of the clock, in order; those of a record that is dropped may be any
    in between. *)
Definition op_times (o : dedup_op) : list Z :=
  match o with
  | Arrive asked marked later _ => [asked; marked; later]
  | Cleanup now | Recover now => [now]
  | TakeCheckpoint => []
  end.

(** ** Refinement *)

Definition window_fits (window : Z) : Prop := 0 ≤ window < 2 ^ 62.
Definition time_fits (t : Z) : Prop := 0 ≤ t < 2 ^ 62.

Lemma sub_Ok a b : - 2 ^ 62 < a < 2 ^ 62 → - 2 ^ 62 < b < 2 ^ 62 → sub a b = Ok (a - b).
Proof.
  intros Ha Hb. unfold sub, i64_sub, i64_checked.
  assert (in_i64 (a - b) = true) as ->; [|done]. apply in_i64_spec. unfold i64_min, i64_max. lia.
Qed.

(** At time [now]: every mark is in the past, and the map has it unless it is
    already out of the window. *)
Record dedup_refines (window now : Z) (seen marks : gmap string Z) : Prop := {
  dr_past : ∀ i t, marks !! i = Some t → 0 ≤ t ≤ now;
  dr_sub : seen ⊆ marks;
  dr_lost : ∀ i t, marks !! i = Some t → seen !! i = None → window ≤ now - t;
}.

Lemma refines_later window now now' seen marks :
  now ≤ now' → dedup_refines window now seen marks → dedup_refines window now' seen marks.
Proof.
  intros Hle [Hp Hs Hl]. split; [|done|].
  - intros i t Hi. specialize (Hp i t Hi). lia.
  - intros i t Hi Hn. specialize (Hl i t Hi Hn). lia.
Qed.

(** A cleanup keeps what is needed, and no more than the fresh marks. *)
Lemma cleanup_refines now s marks :
  window_fits (window_ms s) → time_fits now → dedup_refines (window_ms s) now (seen_ids s) marks →
  ∃ m, cleanup_old_entries now s = Ok (set_seen s m) ∧ dedup_refines (window_ms s) now m marks ∧
    m ⊆ seen_ids s ∧ m ⊆ fresh (window_ms s) now marks.
Proof.
  intros Hwf Ht [Hp Hs Hl]. unfold cleanup_old_entries, window_fits, time_fits in *.
  rewrite sub_Ok by lia. simpl. eexists. split; [reflexivity|].
  assert (Hsub : filter (λ kv, ¬ kv.2 < now - window_ms s) (seen_ids s) ⊆ seen_ids s)
    by apply map_filter_subseteq.
  split_and!; [split; [done|by trans (seen_ids s)|]|done|].
  - intros i t Hi Hn. destruct (seen_ids s !! i) as [t'|] eqn:Hsi; [|by apply (Hl i)].
    pose proof (lookup_weaken _ _ _ _ Hsi Hs) as Hm. assert (t' = t) as -> by congruence.
    apply map_lookup_filter_None in Hn as [Hn|Hn]; [congruence|].
    specialize (Hn t Hsi). simpl in Hn. lia.
  - apply map_subseteq_spec. intros i t [Hi Hf]%map_lookup_filter_Some.
    apply map_lookup_filter_Some. split; [by eapply lookup_weaken|]. simpl in *. lia.
Qed.

Lemma restore_loads (m : gmap string Z) : map_fold (λ k v m, <[k := v]> m) ∅ m = m.
Proof.
  apply (map_fold_weak_ind (λ r m, r = m)); [done|]. by intros k v m' r _ ->.
Qed.

Lemma is_duplicate_refines now i s marks :
  window_fits (window_ms s) → time_fits now → dedup_refines (window_ms s) now (seen_ids s) marks →
  ∃ m, is_duplicate now i s = Ok (seen_within (window_ms s) now marks i, set_seen s m) ∧
    dedup_refines (window_ms s) now m marks ∧ m ⊆ seen_ids s.
Proof.
  intros Hwf Ht [Hp Hs Hl]. unfold is_duplicate, seen_within, window_fits, time_fits in *.
  destruct (seen_ids s !! i) as [t|] eqn:Hi.
  - pose proof (lookup_weaken _ _ _ _ Hi Hs) as Hm. pose proof (Hp i t Hm).
    rewrite Hm, sub_Ok by lia. simpl. destruct (now - t <? window_ms s) eqn:Hlt.
    { exists (seen_ids s). by destruct s. }
    apply Z.ltb_ge in Hlt. eexists. split; [reflexivity|].
    pose proof (delete_subseteq (seen_ids s) i) as Hd.
    split; [split; [done|by trans (seen_ids s)|]|done].
    intros j t' Hj Hnone. destruct (decide (i = j)) as [->|Hne]; [by simplify_eq|].
    rewrite lookup_delete_ne in Hnone by done. by apply (Hl j).
  - exists (seen_ids s). destruct (marks !! i) as [t|] eqn:Hm; [|by destruct s].
    pose proof (Hl i t Hm Hi). rewrite (proj2 (Z.ltb_ge _ _)) by lia. by destruct s.
Qed.

(** A mark, the marks fresh after it fitting the map. *)
Lemma mark_seen_refines now later i s marks :
  window_fits (window_ms s) → time_fits now → time_fits later → now ≤ later →
  dedup_refines (window_ms s) now (seen_ids s) marks →
  (size (fresh (window_ms s) later (<[i := now]> marks)) ≤ max_entries s)%nat →
  ∃ m, mark_seen now later i s = Ok (set_seen s m) ∧
    dedup_refines (window_ms s) later m (<[i := now]> marks) ∧ (size m ≤ max_entries s)%nat.
Proof.
  intros Hwf Ht Ht' Hle Hr Hcap.
  assert (Hm : dedup_refines (window_ms s) later (<[i := now]> (seen_ids s)) (<[i := now]> marks)).
  { apply (refines_later _ _ later) in Hr; [|done]. destruct Hr as [Hp Hs Hl].
    unfold time_fits in *. split.
    - intros j t [[<- <-]|[_ Hj]]%lookup_insert_Some; [lia|eauto].
    - by apply insert_mono.
    - intros j t Hj Hnone. apply lookup_insert_None in Hnone as [Hnone Hne].
      rewrite lookup_insert_ne in Hj by done. by apply (Hl j). }
  unfold mark_seen. destruct (Nat.ltb_spec (max_entries (set_seen s (<[i := now]> (seen_ids s))))
    (len (set_seen s (<[i := now]> (seen_ids s))))) as [Hlt|Hge].
  - destruct (cleanup_refines later (set_seen s (<[i := now]> (seen_ids s))) (<[i := now]> marks))
      as (m & -> & Hm' & _ & Hf); [done..|]. simpl in *. exists m. split_and!; [done..|].
    apply map_subseteq_size in Hf. lia.
  - by eexists.
Qed.

(** The state and the checkpoint each refine their specification. *)
Record run_refines (window : Z) (max : nat) (now : Z) (x : DedupRun) (y : DedupSpec) : Prop := {
  rr_window : window_ms x.1 = window;
  rr_max : max_entries x.1 = max;
  rr_state : dedup_refines window now (seen_ids x.1) y.1;
  rr_saved : dedup_refines window now x.2 y.2;
  rr_size : (size (seen_ids x.1) ≤ max)%nat;
  rr_saved_size : (size x.2 ≤ max)%nat;
}.

(** The times of one operation follow [now] and end at [now']. *)
Definition times_between (now now' : Z) (o : dedup_op) : Prop :=
  match o with
  | Arrive a m l _ => now ≤ a ∧ a ≤ m ∧ m ≤ l ∧ l = now'
  | Cleanup n | Recover n => now ≤ n ∧ n = now'
  | TakeCheckpoint => now = now'
  end.

Lemma arrive_refines window max now asked marked later i s saved passed spec_saved :
  window_fits window → 0 ≤ now → time_fits later → now ≤ asked → asked ≤ marked → marked ≤ later →
  run_refines window max now (s, saved) (passed, spec_saved) →
  let '(o, y) := spec_run window (Arrive asked marked later i) (passed, spec_saved) in
  (size (fresh window later y.1) ≤ max)%nat →
  ∃ x, dedup_run (Arrive asked marked later i) (s, saved) = Ok (o, x) ∧
    run_refines window max later x y.
Proof.
  intros Hwf Hnow Ht Ha Hm Hl [Hw Hmax Hs Hv Hz Hvz]. simpl in *. subst window max.
  unfold deduplicate_record. apply (refines_later _ _ later) in Hv; [|lia].
  assert (time_fits asked ∧ time_fits marked) as [? ?] by (unfold time_fits in *; lia).
  destruct (is_duplicate_refines asked i s passed) as (m & -> & Hm1 & Hsub); [done..| |].
  { by apply (refines_later _ now). }
  pose proof (map_subseteq_size _ _ Hsub). simpl.
  destruct (seen_within (window_ms s) asked passed i); intros Hcap; simpl in *.
  - eexists. split; [done|]. split; simpl; try done; [|lia]. by apply (refines_later _ asked); [lia|].
  - destruct (mark_seen_refines marked later i (set_seen s m) passed) as (m' & -> & Hm' & Hz');
      [done..|by apply (refines_later _ asked)|done|]. simpl.
    eexists. split; [done|]. by split.
Qed.

Lemma dedup_run_refines window max now now' o x y :
  window_fits window → 0 ≤ now → time_fits now' → times_between now now' o →
  match o with Arrive _ _ later _ => (size (fresh window later (spec_run window o y).2.1) ≤ max)%nat
  | _ => True end →
  run_refines window max now x y →
  ∃ x', dedup_run o x = Ok ((spec_run window o y).1, x') ∧
    run_refines window max now' x' (spec_run window o y).2.
Proof.
  intros Hwf Hnow Ht Hb Hcap Hr. destruct x as [s saved], y as [passed spec_saved].
  destruct o as [a m l i|n| |n].
  - destruct Hb as (Ha & Hm & Hl & ->).
    pose proof (arrive_refines window max now a m now' i s saved passed spec_saved
      Hwf Hnow Ht Ha Hm Hl Hr) as H. destruct (spec_run _ _ _) as [o y]. by apply H.
  - destruct Hb as [Hle ->], Hr as [Hw Hmax Hs Hv Hz Hvz]. simpl in *. subst window max.
    apply (refines_later _ _ now') in Hs, Hv; [|done..].
    destruct (cleanup_refines now' s passed Hwf Ht Hs) as (m & -> & Hm & Hsub & _). simpl.
    apply map_subseteq_size in Hsub. eexists. split; [done|]. split; simpl; try done. lia.
  - simpl in Hb. subst now'. destruct Hr. eexists. split; [done|]. by split.
  - destruct Hb as [Hle ->], Hr as [Hw Hmax Hs Hv Hz Hvz]. simpl in *. subst window max.
    apply (refines_later _ _ now') in Hv; [|done]. unfold restore. rewrite restore_loads.
    destruct (cleanup_refines now' (set_seen (new_dedup (window_ms s) (max_entries s)) saved) spec_saved)
      as (m & -> & Hm & Hsub & _); [done..|]. simpl in *. apply map_subseteq_size in Hsub.
    eexists. split; [done|]. split; simpl; try done. lia.
Qed.

(** Every reading of the clock is at or after the one before. *)
Definition clock_monotone (os : list dedup_op) : Prop :=
  Sorted Z.le (0 :: concat (op_times <$> os)) ∧ Forall time_fits (concat (op_times <$> os)).

Lemma op_times_between now o ts :
  time_fits now → Forall time_fits (op_times o) → Sorted Z.le (now :: op_times o ++ ts) →
  ∃ now', times_between now now' o ∧ time_fits now' ∧ Sorted Z.le (now' :: ts).
Proof.
  intros Hn Hf Hs. destruct o; simpl in *; repeat match goal with
    | H : Sorted _ (_ :: _ :: _) |- _ => apply Sorted_inv in H as [? ?]
    | H : HdRel _ _ (_ :: _) |- _ => apply HdRel_inv in H
    | H : Forall _ (_ :: _) |- _ => apply Forall_cons in H as [? ?]
    end; eexists; (split; [first [split_and!; [..|reflexivity]; done|reflexivity]|]); done.
Qed.

Lemma dedup_run_all_refines window max os now x y :
  window_fits window → time_fits now → run_refines window max now x y →
  within_cap window max os y →
  Sorted Z.le (now :: concat (op_times <$> os)) → Forall time_fits (concat (op_times <$> os)) →
  ∃ x', dedup_run_all os x = Ok (spec_run_all window os y, x') ∧ (len x'.1 ≤ max)%nat.
Proof.
  intros Hwf. revert now x y. induction os as [|o os IH]; intros now x y Hn Hr Hcap Hs Hf.
  { eexists. split; [done|]. apply (rr_size _ _ _ _ _ Hr). }
  cbn [dedup_run_all spec_run_all within_cap] in *. rewrite fmap_cons in *. simpl in Hs, Hf.
  apply Forall_app in Hf as [Hf1 Hf2]. destruct Hcap as [Hc1 Hc2].
  destruct (op_times_between now o _ Hn Hf1 Hs) as (now' & Hb & Hn' & Hs').
  destruct (dedup_run_refines window max now now' o x y Hwf (proj1 Hn) Hn' Hb Hc1 Hr) as (x1 & -> & Hr1).
  simpl. destruct (IH now' x1 _ Hn' Hr1 Hc2 Hs' Hf2) as (x2 & -> & Hl). by eexists.
Qed.

(** C33: forgetting is not observed.  A worker deduplicates the records that come in one
    after another, with cleanups at any time, checkpoints and recoveries from the last one
    (the state at the start is one too); the clock does not go back, and no more than
    [max_entries] records are let through within a window ([within_cap]).  Then a record is
    let through exactly when it was not let through less than [window_ms] before, what was
    let through after a checkpoint being forgotten by a recovery from it: the answers are
    those of a specification that keeps the time every record was let through for ever.
    The map never holds more than [max_entries] records and no operation overflows. *)
Theorem dedup_refines_spec window max os :
  window_fits window → clock_monotone os → within_cap window max os (∅, ∅) →
  ∃ x, dedup_run_all os (new_dedup window max, ∅) = Ok (spec_run_all window os (∅, ∅), x) ∧
    (len x.1 ≤ max)%nat.
Proof.
  intros Hwf [Hsorted Hfits] Hcap.
  apply (dedup_run_all_refines window max os 0); [done|done| |done..].
  assert (dedup_refines window 0 ∅ ∅) by by split.
  split; simpl; try done; rewrite map_size_empty; lia.
Qed.
End Dedup.

(** The record [b] passes after the checkpoint, so it passes again after the recovery. *)
Definition sample_ops : list dedup_op :=
  [Arrive 1000 1000 1000 "a"; Arrive 1500 1500 1500 "a"; TakeCheckpoint; Arrive 1600 1600 1700 "b";
   Arrive 1800 1800 1800 "b"; Recover 1900; Arrive 1950 1950 1950 "a"; Arrive 1960 1960 1960 "b";
   Cleanup 2001; Arrive 2600 2600 2600 "a"; Arrive 2700 2700 2700 "b"].

Lemma dedup_refines_spec_witness :
  ∃ x, dedup_run_all true sample_ops (new_dedup 1000 2, ∅)
       = Ok ([true; false; true; false; false; true; true; false], x) ∧ (len x.1 ≤ 2)%nat.
Proof.
  apply (dedup_refines_spec true 1000 2 sample_ops); [by split| |].
  - split; repeat constructor; simpl; lia.
  - repeat split; vm_compute; lia.
Defined.

(** More fresh records than [max_entries] are all kept. *)
Example max_entries_exceeded :
  (s ← mark_seen true 1000 1000 "a" (new_dedup 1000 1);
   s ← mark_seen true 1001 1001 "b" s; Ok (len s)) = Ok 2%nat.
Proof. vm_compute. reflexivity. Qed.

(** With a clock before the epoch every known record is a duplicate. *)
Example clock_before_epoch :
  (s ← mark_seen true 1000 1000 "a" (new_dedup 100 10);
   r ← is_duplicate true (now_ms (-1)) "a" s; Ok r.1) = Ok true.
Proof. vm_compute. reflexivity. Qed.

(** Marks are not tied to the question before them: two workers that share the state and
    ask before either marks both let a record through. *)
Example two_workers_let_through :
  (r1 ← is_duplicate true 1000 "a" (new_dedup 1000 10); r2 ← is_duplicate true 1000 "a" r1.2;
   s ← mark_seen true 1001 1001 "a" r2.2; s ← mark_seen true 1002 1002 "a" s;
   Ok (r1.1, r2.1, len s)) = Ok (false, false, 1%nat).
Proof. vm_compute. reflexivity. Qed.
