(* ===== verification/CheckpointStorage.v ===== *)
(** * Checkpointing: checkpoint files and their manager

    Models [checkpointing/mod.rs], [storage.rs] and [manager.rs] of the core:
    checkpoints, the directory they are written to with its cleanup, the choice
    of the latest one, and the loop that writes them until shutdown.  [bincode]
    and [zstd] are parameters; the file system's answers are arguments. *)

From Stdlib Require Import ZArith Lia Ascii.
From stdpp Require Import base numbers option strings gmap list sorting.
From S2P Require Import Prelude RustStd Bytes Effects.

Local Open Scope Z_scope.

(** ** Checkpoints *)

Record Checkpoint : Type := {
  kafka_offsets : gmap Z Z;
  dedup_state : gmap string Z;
  timestamp : Z;  (* nanoseconds since the epoch; negative before it *)
  worker_count : Z;
  version : Z;
}.

(** [Checkpoint::new] at [now] and the two builders. *)
Definition checkpoint_new (now worker_count : Z) : Checkpoint :=
  {| kafka_offsets := ∅; dedup_state := ∅; timestamp := now; worker_count := worker_count;
     version := 1 |}.

Definition with_offsets (offsets : gmap Z Z) (c : Checkpoint) : Checkpoint :=
  {| kafka_offsets := offsets; dedup_state := dedup_state c; timestamp := timestamp c;
     worker_count := worker_count c; version := version c |}.

Definition with_dedup_state (state : gmap string Z) (c : Checkpoint) : Checkpoint :=
  {| kafka_offsets := kafka_offsets c; dedup_state := state; timestamp := timestamp c;
     worker_count := worker_count c; version := version c |}.

(** [estimated_size]. *)
Definition estimated_size (c : Checkpoint) : Z :=
  Z.of_nat (size (kafka_offsets c)) * 16 + Z.of_nat (size (dedup_state c)) * 100 + 100.

(** [bincode] and [zstd]. *)
Class Codec : Type := {
  serialize : Checkpoint → option (list byte);
  deserialize : list byte → option Checkpoint;
  encode_all : Z → list byte → option (list byte);
  decode_all : list byte → option (list byte);
}.

(** Reading back what was written. *)
Class CodecLaws `{Codec} : Prop := {
  deserialize_serialize c data : serialize c = Some data → deserialize data = Some c;
  decode_encode level data z : encode_all level data = Some z → decode_all z = Some data;
}.

(** ** File names *)

Fixpoint strip_prefix (p s : string) : option string :=
  match p, s with
  | EmptyString, _ => Some s
  | String a p', String b s' => if Ascii.eqb a b then strip_prefix p' s' else None
  | String _ _, EmptyString => None
  end.

Definition strip_suffix (p s : string) : option string :=
  str_rev <$> strip_prefix (str_rev p) (str_rev s).

(** [str::parse::<u128>]. *)
Definition u128_from_str (s : string) : option Z :=
  z ← match s with String "+" r => parse_digits r | _ => parse_digits s end;
  if z <? 2 ^ 128 then Some z else None.

(** [Path::extension]: the text after the last dot, unless the name has none or
    starts with its only one. *)
Fixpoint after_last_dot (s : string) : option string :=
  match s with
  | EmptyString => None
  | String c s' =>
      match after_last_dot s' with
      | Some e => Some e
      | None => if Ascii.eqb c "." then Some s' else None
      end
  end.

Definition extension (filename : string) : option string :=
  match filename with
  | EmptyString => None
  | String _ rest => after_last_dot rest
  end.

Definition is_checkpoint_file (filename : string) : bool :=
  match extension filename with
  | Some ext => String.eqb ext "bin" || String.eqb ext "zst"
  | None => false
  end.

(** [checkpoint_timestamp_from_path]. *)
Definition checkpoint_timestamp_from_path (filename : string) : option Z :=
  base ← match strip_suffix ".bin.zst" filename with
         | Some b => Some b
         | None => strip_suffix ".bin" filename
         end;
  ts ← strip_prefix "checkpoint_" base;
  u128_from_str ts.

(** [system_time_ms]. *)
Definition system_time_ms (ns : Z) : Z := if ns <? 0 then 0 else ns / 10 ^ 6.

(** ** The directory *)

Record StoredFile : Type := {
  content : list byte;
  modified : Z;
}.

Abbreviation Dir := (gmap string StoredFile).

(** [checkpoint_sort_key], without the reading of the metadata failing. *)
Definition checkpoint_sort_key (entry : string * StoredFile) : Z * Z * string :=
  (default 0 (checkpoint_timestamp_from_path entry.1), system_time_ms (modified entry.2), entry.1).

(** The order of tuples. *)
Definition key_leb (a b : Z * Z * string) : bool :=
  (a.1.1 <? b.1.1) || ((a.1.1 =? b.1.1) &&
    ((a.1.2 <? b.1.2) || ((a.1.2 =? b.1.2) && str_leb a.2 b.2))).

Definition entry_le (a b : string * StoredFile) : Prop :=
  Is_true (key_leb (checkpoint_sort_key a) (checkpoint_sort_key b)).

#[global] Instance entry_le_dec : RelDecision entry_le.
Proof. intros a b. unfold entry_le. apply _. Defined.

(** The checkpoint files, newest first: [sort_by_key], then [reverse]. *)
Definition sorted_entries (d : Dir) : list (string * StoredFile) :=
  reverse (merge_sort entry_le
    (List.filter (λ e, is_checkpoint_file e.1) (map_to_list d))).

(** ** Operations *)

Record CheckpointStorage : Type := {
  max_checkpoints : nat;
  compression_level : Z;
}.

(** [CheckpointStorage::new], [with_max_checkpoints], [with_compression_level]. *)
Definition storage_new : CheckpointStorage := {| max_checkpoints := 10; compression_level := 3 |}.
Definition with_max_checkpoints (max : nat) (s : CheckpointStorage) : CheckpointStorage :=
  {| max_checkpoints := max; compression_level := compression_level s |}.
Definition with_compression_level (level : Z) (s : CheckpointStorage) : CheckpointStorage :=
  {| max_checkpoints := max_checkpoints s; compression_level := level |}.

(** The answers of the file system: whether the directory can be read, what a
    failing write leaves in the file, which files cannot be removed (and the text
    of that error) or read, and the modification time of a write. *)
Record FsIo : Type := {
  can_read_dir : bool;
  torn_write : option (list byte);
  can_remove : string → bool;
  remove_error : string;
  can_read : string → bool;
  write_time : Z;
}.

Definition good_fs (now : Z) : FsIo :=
  {| can_read_dir := true; torn_write := None; can_remove := λ _, true;
     remove_error := ""; can_read := λ _, true;
     write_time := now |}.

Section Storage.
Context `{Codec}.
Abbreviation StoreM := (method Dir string).

Definition entries (io : FsIo) : StoreM (list (string * StoredFile)) :=
  _ ← guard_ok (can_read_dir io) "Failed to read checkpoint directory"%string;
  gets sorted_entries.

Definition remove_file (io : FsIo) (msg : string) (e : string * StoredFile) : StoreM unit :=
  _ ← guard_ok (can_remove io e.1) msg;
  modify (delete e.1).

Definition remove_old (io : FsIo) (e : string * StoredFile) : StoreM unit :=
  remove_file io ("Failed to remove old checkpoint: " +:+ e.1) e.

(** [cleanup_old_checkpoints_internal]. *)
Definition cleanup_old_checkpoints (io : FsIo) (max : nat) : StoreM unit :=
  es ← entries io;
  if (max <? length es)%nat then
    _ ← method_mapM (remove_old io) (drop max es); mret tt
  else mret tt.

(** [std::fs::write]: a failing write leaves [torn_write]. *)
Definition fs_write (io : FsIo) (filename : string) (data : list byte) : StoreM unit :=
  match torn_write io with
  | None => modify (<[filename := {| content := data; modified := write_time io |}]>)
  | Some torn =>
      _ ← modify (<[filename := {| content := torn; modified := write_time io |}]>);
      fail "Failed to write checkpoint file"%string
  end.

(** The milliseconds of the file name. *)
Definition file_millis (c : Checkpoint) : StoreM Z :=
  if timestamp c <? 0 then fail "Invalid timestamp"%string else mret (timestamp c / 10 ^ 6).

Definition zst_name (ms : Z) : string := "checkpoint_" +:+ i64_to_string ms +:+ ".bin.zst".
Definition bin_name (ms : Z) : string := "checkpoint_" +:+ i64_to_string ms +:+ ".bin".

(** [CheckpointStorage::write_async]. *)
Definition write_async (s : CheckpointStorage) (io : FsIo) (c : Checkpoint) : StoreM string :=
  ms ← file_millis c;
  let filename := zst_name ms in
  data ← lift (ok_or (serialize c) "Failed to serialize checkpoint"%string);
  compressed ← lift (ok_or (encode_all (compression_level s) data)
                       "Failed to compress checkpoint"%string);
  _ ← fs_write io filename compressed;
  _ ← cleanup_old_checkpoints io (max_checkpoints s);
  mret filename.

(** [CheckpointStorage::write]. *)
Definition write (s : CheckpointStorage) (io : FsIo) (c : Checkpoint) : StoreM string :=
  ms ← file_millis c;
  let filename := bin_name ms in
  data ← lift (ok_or (serialize c) "Failed to serialize checkpoint"%string);
  _ ← fs_write io filename data;
  _ ← cleanup_old_checkpoints io (max_checkpoints s);
  mret filename.

Definition is_zst (filename : string) : bool :=
  match extension filename with Some ext => String.eqb ext "zst" | None => false end.

(** Reading one file. *)
Definition load (io : FsIo) (e : string * StoredFile) : StoreM Checkpoint :=
  _ ← guard_ok (can_read io e.1) "Failed to read checkpoint file"%string;
  decompressed ←
    lift (if is_zst e.1
          then ok_or (decode_all (content e.2)) "Failed to decompress checkpoint"%string
          else Ok (content e.2));
  lift (ok_or (deserialize decompressed) "Failed to deserialize checkpoint"%string).

(** [CheckpointStorage::latest]. *)
Definition latest (io : FsIo) : StoreM (option Checkpoint) :=
  es ← entries io;
  match es with
  | [] => mret None
  | e :: _ => c ← load io e; mret (Some c)
  end.

(** [CheckpointStorage::list] and [clear]. *)
Definition list_checkpoints (io : FsIo) : StoreM (list string) :=
  es ← entries io; mret es.*1.

Definition clear (io : FsIo) : StoreM unit :=
  es ← entries io;
  _ ← method_mapM (remove_file io (remove_error io)) es; mret tt.

(** ** The manager *)

(** What [select!] picks, with what the two closures answer and the clock. *)
Inductive manager_event : Type :=
  | IntervalTick (io : FsIo) (now : Z) (offsets : gmap Z Z) (state : gmap string Z)
  | ShutdownNotified (io : FsIo) (now : Z) (offsets : gmap Z Z) (state : gmap string Z).

(** [CheckpointManager::write_checkpoint]. *)
Definition write_checkpoint (s : CheckpointStorage) (io : FsIo) (now : Z) (offsets : gmap Z Z)
    (state : gmap string Z) (workers : Z) : StoreM unit :=
  let checkpoint := with_dedup_state state (with_offsets offsets (checkpoint_new now workers)) in
  _ ← write_async s io checkpoint; mret tt.

(** The task of [CheckpointManager::start]: errors are logged, the shutdown ends
    it after one more checkpoint. *)
Fixpoint manager_run (s : CheckpointStorage) (workers : Z) (es : list manager_event) : StoreM unit :=
  match es with
  | [] => mret tt
  | IntervalTick io now offsets state :: es =>
      _ ← ignore_errors (write_checkpoint s io now offsets state workers);
      manager_run s workers es
  | ShutdownNotified io now offsets state :: _ =>
      ignore_errors (write_checkpoint s io now offsets state workers)
  end.
End Storage.

(** * The final checkpoint is the one found again

    Theorems about [CheckpointStorage.v]: the names of checkpoint files, their
    order, and what a restart after a shutdown reads. *)

Local Open Scope Z_scope.

(** ** Names *)

Lemma str_rev_app_spec s acc : str_rev_app s acc = str_rev s +:+ acc.
Proof.
  unfold str_rev. revert acc. induction s as [|c s IH]; intros acc; [done|]. simpl.
  by rewrite IH, (IH (String c EmptyString)), str_app_assoc.
Qed.

Lemma str_rev_cons c s : str_rev (String c s) = str_rev s +:+ String c EmptyString.
Proof. unfold str_rev at 1. simpl. apply str_rev_app_spec. Qed.

Lemma str_rev_append a b : str_rev (a +:+ b) = str_rev b +:+ str_rev a.
Proof.
  induction a as [|c a IH]; simpl; [by rewrite str_app_nil_r|].
  change (String c a +:+ b) with (String c (a +:+ b)).
  by rewrite !str_rev_cons, IH, str_app_assoc.
Qed.

Lemma str_rev_involutive s : str_rev (str_rev s) = s.
Proof.
  induction s as [|c s IH]; [done|]. rewrite str_rev_cons, str_rev_append, IH. done.
Qed.

Lemma strip_prefix_app p s : strip_prefix p (p +:+ s) = Some s.
Proof. induction p as [|c p IH]; [by destruct s|]. simpl. by rewrite Ascii.eqb_refl. Qed.

Lemma strip_suffix_app s p : strip_suffix p (s +:+ p) = Some s.
Proof.
  unfold strip_suffix. rewrite str_rev_append, strip_prefix_app. simpl.
  by rewrite str_rev_involutive.
Qed.

Lemma u128_from_to_string z : 0 ≤ z < 2 ^ 128 → u128_from_str (i64_to_string z) = Some z.
Proof.
  intros Hz. unfold u128_from_str, i64_to_string. destruct z as [|p|p]; [done| |lia]. simpl.
  pose proof (string_of_uint_head (Pos.to_uint p)) as Hh.
  assert (Hp : parse_digits (DecimalString.NilZero.string_of_uint (Pos.to_uint p)) = Some (Zpos p)).
  { rewrite parse_digits_to_string by apply pos_to_uint_nonnil.
    f_equal. apply (DecimalZ.of_to (Zpos p)). }
  assert (Hlt : (Zpos p <? 2 ^ 128) = true) by (apply Z.ltb_lt; lia).
  destruct (DecimalString.NilZero.string_of_uint (Pos.to_uint p)) as [|c r];
    [by rewrite Hp; simpl; rewrite Hlt|].
  destruct c as [[][][][][][][][]]; try done; rewrite Hp; cbn -[Z.ltb Z.pow]; by rewrite Hlt.
Qed.

Lemma zst_name_timestamp ms :
  0 ≤ ms < 2 ^ 128 → checkpoint_timestamp_from_path (zst_name ms) = Some ms.
Proof.
  intros Hms. unfold checkpoint_timestamp_from_path, zst_name. rewrite <- str_app_assoc, strip_suffix_app. simpl. exact (u128_from_to_string ms Hms).
Qed.

Lemma after_last_dot_app a s e :
  after_last_dot s = Some e → after_last_dot (a +:+ s) = Some e.
Proof. intros Hs. induction a as [|c a IH]; [done|]. simpl. by rewrite IH. Qed.

Lemma zst_name_extension ms : extension (zst_name ms) = Some "zst"%string.
Proof. unfold zst_name. simpl. by apply (after_last_dot_app ("heckpoint_" +:+ i64_to_string ms)). Qed.

Lemma zst_name_is_checkpoint ms : is_checkpoint_file (zst_name ms) = true.
Proof. unfold is_checkpoint_file. by rewrite zst_name_extension. Qed.

(** ** The order of entries *)

Lemma key_leb_spec a b :
  key_leb a b = true ↔
  a.1.1 < b.1.1 ∨ a.1.1 = b.1.1 ∧ (a.1.2 < b.1.2 ∨ a.1.2 = b.1.2 ∧ str_leb a.2 b.2 = true).
Proof.
  unfold key_leb. rewrite !orb_true_iff, !andb_true_iff, !orb_true_iff, !andb_true_iff,
    !Z.ltb_lt, !Z.eqb_eq. done.
Qed.

#[global] Instance entry_le_total : Total entry_le.
Proof.
  intros a b. unfold entry_le. rewrite !Is_true_true, !key_leb_spec.
  pose proof (str_leb_total (checkpoint_sort_key a).2 (checkpoint_sort_key b).2) as Hs.
  destruct (Z.lt_total (checkpoint_sort_key a).1.1 (checkpoint_sort_key b).1.1) as [?|[?|?]];
    [auto| |auto].
  destruct (Z.lt_total (checkpoint_sort_key a).1.2 (checkpoint_sort_key b).1.2) as [?|[?|?]];
    [auto| |auto 8].
  destruct Hs; [left|right]; auto.
Qed.

#[global] Instance entry_le_trans : Transitive entry_le.
Proof.
  intros a b c. unfold entry_le. rewrite !Is_true_true, !key_leb_spec.
  pose proof (str_leb_trans (checkpoint_sort_key a).2 (checkpoint_sort_key b).2
    (checkpoint_sort_key c).2).
  intros [?|[? [?|[? ?]]]] [?|[? [?|[? ?]]]]; (left; lia) || right; (split; [lia|]);
    (left; lia) || right; (split; [lia|auto]).
Qed.

Definition embedded_ts (e : string * StoredFile) : Z :=
  default 0 (checkpoint_timestamp_from_path e.1).

(** The first entry carries the greatest time stamp. *)
Lemma sorted_entries_head d e es :
  sorted_entries d = e :: es →
  d !! e.1 = Some e.2 ∧
  ∀ name f, d !! name = Some f → is_checkpoint_file name = true →
    embedded_ts (name, f) ≤ embedded_ts e.
Proof.
  unfold sorted_entries. intros Hs.
  set (l := List.filter _ _) in *.
  assert (Hmem : ∀ x, x ∈ merge_sort entry_le l ↔ d !! x.1 = Some x.2 ∧ is_checkpoint_file x.1 = true).
  { intros x. rewrite merge_sort_Permutation. unfold l.
    rewrite list_elem_of_In, filter_In, <- list_elem_of_In.
    destruct x as [n f]. simpl. by rewrite elem_of_map_to_list. }
  apply (f_equal reverse) in Hs. rewrite reverse_involutive, reverse_cons in Hs.
  pose proof (StronglySorted_merge_sort entry_le l) as Hsort. rewrite Hs in Hsort.
  split; [apply Hmem; rewrite Hs; set_solver|].
  intros name f Hf Hc. assert (Hin : (name, f) ∈ reverse es ++ [e]) by (rewrite <- Hs; by apply Hmem).
  apply elem_of_app in Hin as [Hin|Hin%list_elem_of_singleton]; [|by subst e].
  assert (Hle : entry_le (name, f) e).
  { eapply StronglySorted_app_1_elem_of; [exact Hsort|done|set_solver]. }
  unfold entry_le in Hle. rewrite Is_true_true, key_leb_spec in Hle. unfold embedded_ts.
  simpl in Hle. unfold embedded_ts. simpl. destruct Hle as [?|[? _]]; lia.
Qed.

(** ** Directories of checkpoints *)

(** Only checkpoints of the manager, none newer than [M] milliseconds. *)
Definition named_upto (M : Z) (d : gmap string StoredFile) : Prop :=
  ∀ name f, d !! name = Some f → ∃ ms, name = zst_name ms ∧ 0 ≤ ms ≤ M.

Lemma sorted_entries_mem d x :
  x ∈ sorted_entries d ↔ d !! x.1 = Some x.2 ∧ is_checkpoint_file x.1 = true.
Proof.
  unfold sorted_entries. rewrite elem_of_reverse, merge_sort_Permutation.
  rewrite list_elem_of_In, filter_In, <- list_elem_of_In. destruct x as [n f]. simpl.
  by rewrite elem_of_map_to_list.
Qed.

Lemma filter_nodup_fst {A B} (p : A * B → bool) (l : list (A * B)) :
  NoDup l.*1 → NoDup (List.filter p l).*1.
Proof.
  induction l as [|x l IH]; simpl; [done|]. intros [Hx Hl]%NoDup_cons.
  destruct (p x); simpl; [|by apply IH]. constructor; [|by apply IH].
  intros Hin. apply Hx. apply list_elem_of_fmap in Hin as (y & Hy & Hin).
  rewrite list_elem_of_In, filter_In, <- list_elem_of_In in Hin. rewrite Hy.
  apply list_elem_of_fmap_2, Hin.
Qed.

Lemma sorted_entries_nodup d : NoDup (sorted_entries d).*1.
Proof.
  unfold sorted_entries. rewrite reverse_Permutation, merge_sort_Permutation.
  apply filter_nodup_fst, NoDup_fst_map_to_list.
Qed.

(** The checkpoint with the greatest time comes first. *)
Lemma newest_first M d f :
  M < 2 ^ 128 → named_upto M d → d !! zst_name M = Some f →
  ∃ es, sorted_entries d = (zst_name M, f) :: es.
Proof.
  intros HM Hd Hf.
  assert (0 ≤ M) by (destruct (Hd _ _ Hf) as (ms & _ & ?); lia).
  assert (Hin : (zst_name M, f) ∈ sorted_entries d).
  { apply sorted_entries_mem. split; [done|]. apply zst_name_is_checkpoint. }
  destruct (sorted_entries d) as [|[n g] es] eqn:Hes; [by apply elem_of_nil in Hin|].
  destruct (sorted_entries_head d _ _ Hes) as [Hng Hmax]. simpl in Hng.
  destruct (Hd _ _ Hng) as (ms & -> & Hms).
  specialize (Hmax _ _ Hf (zst_name_is_checkpoint M)). unfold embedded_ts in Hmax.
  cbn [fst] in Hmax. rewrite !zst_name_timestamp in Hmax by lia. simpl in Hmax.
  assert (ms = M) as -> by lia. simplify_eq. by exists es.
Qed.

Definition remove_names (l : list (string * StoredFile)) (d : gmap string StoredFile)
    : gmap string StoredFile := foldl (λ d e, delete e.1 d) d l.

Lemma remove_names_lookup l d name :
  remove_names l d !! name = if decide (name ∈ l.*1) then None else d !! name.
Proof.
  revert d. induction l as [|e l IH]; intros d; [done|].
  change (remove_names (e :: l) d) with (remove_names l (delete e.1 d)). rewrite IH, fmap_cons.
  destruct (decide (name ∈ l.*1)) as [Hl|Hl].
  - by rewrite decide_True by (by right).
  - destruct (decide (name = e.1)) as [->|Hne].
    + rewrite lookup_delete_eq. by rewrite decide_True by left.
    + rewrite lookup_delete_ne by done. by rewrite decide_False by (rewrite elem_of_cons; naive_solver).
Qed.

Lemma remove_file_Ok io e d :
  can_remove io e.1 = true → remove_old io e d = (delete e.1 d, Ok tt).
Proof. intros Hio. unfold remove_old, remove_file. unfold_method. by rewrite Hio. Qed.

Lemma remove_all_Ok io l d :
  (∀ n, can_remove io n = true) →
  method_mapM (remove_old io) l d = (remove_names l d, Ok (replicate (length l) tt)).
Proof.
  intros Hio. revert d. induction l as [|e l IH]; intros d; [done|].
  cbn [method_mapM]. unfold method_bind. rewrite remove_file_Ok by done. cbn. by rewrite IH.
Qed.

Lemma size_by_names (d : gmap string StoredFile) l :
  NoDup l → (∀ name g, d !! name = Some g → name ∈ l) → (size d ≤ length l)%nat.
Proof.
  intros Hn Hd. rewrite <- size_dom, <- (size_list_to_set (C := gset string) l) by done.
  apply subseteq_size. intros n (g & Hg)%elem_of_dom. apply elem_of_list_to_set. by eapply Hd.
Qed.

(** Cleaning up keeps the newest checkpoint and at most [max] files. *)
Lemma cleanup_keeps_newest io max M d f :
  can_read_dir io = true → (∀ n, can_remove io n = true) → (0 < max)%nat → M < 2 ^ 128 →
  named_upto M d → d !! zst_name M = Some f →
  ∃ d', cleanup_old_checkpoints io max d = (d', Ok tt) ∧ named_upto M d' ∧
    d' !! zst_name M = Some f ∧ (size d' ≤ max)%nat.
Proof.
  intros Hrd Hrm Hmax HM Hd Hf. destruct (newest_first M d f HM Hd Hf) as (es & Hes).
  unfold cleanup_old_checkpoints, entries. unfold_method. rewrite Hrd. simpl. rewrite Hes.
  pose proof (sorted_entries_nodup d) as Hn. rewrite Hes in Hn.
  assert (Hall : ∀ name g, d !! name = Some g → name ∈ ((zst_name M, f) :: es).*1).
  { intros name g Hg. rewrite <- Hes. apply list_elem_of_fmap. exists (name, g). split; [done|].
    apply sorted_entries_mem. split; [done|]. destruct (Hd _ _ Hg) as (ms & -> & _).
    apply zst_name_is_checkpoint. }
  assert (Hsize : ∀ d' : gmap string StoredFile,
    (∀ name g, d' !! name = Some g → name ∈ (take max ((zst_name M, f) :: es)).*1) →
    (size d' ≤ max)%nat).
  { intros d' Hd'. apply (size_by_names _ (take max ((zst_name M, f) :: es)).*1) in Hd'.
    - rewrite length_fmap, length_take in Hd'. lia.
    - rewrite fmap_take. by eapply sublist_NoDup, sublist_take. }
  destruct (max <? length ((zst_name M, f) :: es))%nat eqn:Hlt.
  - destruct max as [|max]; [lia|]. cbn [drop]. rewrite remove_all_Ok by done. cbn.
    eexists. split; [reflexivity|]. apply NoDup_cons in Hn as [Hn1 Hn2].
    assert (Hdrop : (drop max es).*1 ⊆ es.*1) by (rewrite fmap_drop; apply subseteq_drop).
    split_and!.
    + intros name g. rewrite remove_names_lookup. case_decide; [done|]. apply Hd.
    + rewrite remove_names_lookup. by rewrite decide_False by (by intros ?%Hdrop).
    + apply Hsize. intros name g. rewrite remove_names_lookup. case_decide as Hx; [done|].
      intros Hg. apply Hall in Hg. cbn [take]. rewrite !fmap_cons in *.
      apply elem_of_cons in Hg as [->|Hg]; [left|]. right.
      rewrite <- (take_drop max es), fmap_app in Hg. by apply elem_of_app in Hg as [?|?].
  - apply Nat.ltb_ge in Hlt. eexists. split; [reflexivity|]. split_and!; [done..|].
    apply Hsize. intros name g Hg. rewrite take_ge by done. eauto.
Qed.

(** ** Writing and reading back *)

Section Facts.
Context `{CodecLaws} (s : CheckpointStorage).

Lemma remove_file_named M io e : preserves (named_upto M) (remove_old io e).
Proof.
  unfold remove_old, remove_file. walk_method. apply preserves_modify. intros d Hd name f.
  intros [_ Hf]%lookup_delete_Some. eauto.
Qed.

Lemma cleanup_named M io max : preserves (named_upto M) (cleanup_old_checkpoints io max).
Proof.
  unfold cleanup_old_checkpoints, entries. walk_method.
  apply preserves_mapM. intros e _. apply remove_file_named.
Qed.

Lemma fs_write_named M io ms data :
  0 ≤ ms ≤ M → preserves (named_upto M) (fs_write io (zst_name ms) data).
Proof.
  intros Hms. unfold fs_write. walk_method;
    (apply preserves_modify; intros d Hd name f [[<- _]|[_ Hf]]%lookup_insert_Some; eauto).
Qed.

(** The part of [write_async] after the name is known. *)
Definition write_named (io : FsIo) (c : Checkpoint) (ms : Z) : method (gmap string StoredFile) string string :=
  data ← lift (ok_or (serialize c) "Failed to serialize checkpoint"%string);
  compressed ← lift (ok_or (encode_all (compression_level s) data)
                       "Failed to compress checkpoint"%string);
  _ ← fs_write io (zst_name ms) compressed;
  _ ← cleanup_old_checkpoints io (max_checkpoints s);
  mret (zst_name ms).

Lemma write_async_eq io c d :
  write_async s io c d =
    if timestamp c <? 0 then (d, Err "Invalid timestamp"%string)
    else write_named io c (timestamp c / 10 ^ 6) d.
Proof. unfold write_async, file_millis. by destruct (timestamp c <? 0). Qed.

Lemma write_async_named M io c :
  timestamp c / 10 ^ 6 ≤ M → preserves (named_upto M) (write_async s io c).
Proof.
  intros Hc d d' r Hw Hd. rewrite write_async_eq in Hw.
  destruct (Z.ltb_spec (timestamp c) 0) as [Hneg|Hpos]; [by simplify_eq|].
  revert d d' r Hw Hd. change (preserves (named_upto M) (write_named io c (timestamp c / 10 ^ 6))).
  unfold write_named. walk_method; [apply fs_write_named|apply cleanup_named].
  split; [|done]. apply Z.div_pos; lia.
Qed.

(** A write that the file system accepts leaves the checkpoint as the newest. *)
Lemma write_async_Ok io c data z d M :
  M = timestamp c / 10 ^ 6 → 0 ≤ timestamp c → M < 2 ^ 128 → (0 < max_checkpoints s)%nat →
  can_read_dir io = true → torn_write io = None → (∀ n, can_remove io n = true) →
  serialize c = Some data → encode_all (compression_level s) data = Some z →
  named_upto M d →
  ∃ d' f, write_async s io c d = (d', Ok (zst_name M)) ∧ named_upto M d' ∧
    d' !! zst_name M = Some f ∧ content f = z ∧ (size d' ≤ max_checkpoints s)%nat.
Proof.
  intros -> Hc HM Hmax Hrd Htorn Hrm Hser Henc Hd. rewrite write_async_eq.
  rewrite (proj2 (Z.ltb_ge _ _)) by done. unfold write_named.
  set (M := timestamp c / 10 ^ 6) in *. set (f := {| content := z; modified := write_time io |}).
  assert (HM0 : 0 ≤ M) by (apply Z.div_pos; lia).
  destruct (cleanup_keeps_newest io (max_checkpoints s) M (<[zst_name M := f]> d) f)
    as (d' & Hcl & Hd' & Hf & Hs); try done.
  { intros name g [[<- _]|[_ Hg]]%lookup_insert_Some; [exists M; split; [done|lia]|eauto]. }
  { apply lookup_insert_eq. }
  exists d', f. split; [|done]. rewrite Hser. unfold fs_write. rewrite Htorn.
  unfold mbind, method_MBind, method_bind, lift, modify, ok_or. rewrite Henc. fold f. by rewrite Hcl.
Qed.

(** Reading the latest checkpoint. *)
Lemma latest_Ok io d M f c data z :
  M < 2 ^ 128 → named_upto M d → d !! zst_name M = Some f → content f = z →
  can_read_dir io = true → can_read io (zst_name M) = true →
  serialize c = Some data → encode_all (compression_level s) data = Some z →
  latest io d = (d, Ok (Some c)).
Proof.
  intros HM Hd Hf Hz Hrd Hr Hser Henc. destruct (newest_first M d f HM Hd Hf) as (es & Hes).
  assert (Hload : load io (zst_name M, f) d = (d, Ok c)).
  { unfold load, mbind, method_MBind, method_bind, guard_ok, lift. cbn [fst snd]. rewrite Hr.
    unfold is_zst. rewrite zst_name_extension. cbn [method_ret String.eqb Ascii.eqb Bool.eqb].
    rewrite Hz, (decode_encode _ _ _ Henc). cbn. by rewrite (deserialize_serialize _ _ Hser). }
  unfold latest, entries, mbind, method_MBind, method_bind, guard_ok, gets. rewrite Hrd.
  cbn [method_ret]. by rewrite Hes, Hload.
Qed.

(** ** The manager *)

Lemma write_async_never_panics io c : never_panics (write_async s io c).
Proof.
  intros d. rewrite write_async_eq. destruct (timestamp c <? 0); [done|].
  revert d. change (never_panics (write_named io c (timestamp c / 10 ^ 6))). unfold write_named.
  assert (Hclean : never_panics (cleanup_old_checkpoints io (max_checkpoints s))).
  { unfold cleanup_old_checkpoints, entries. apply never_panics_bind.
    - apply never_panics_bind; [intros d; by destruct (can_read_dir io)|done].
    - intros es. destruct (_ <? _)%nat; [|done]. apply never_panics_bind; [|done].
      apply never_panics_mapM. intros e. unfold remove_old, remove_file. apply never_panics_bind; [|done].
      intros d. by destruct (can_remove io e.1). }
  apply never_panics_bind; [intros d; by destruct (serialize c)|]. intros data.
  apply never_panics_bind; [intros d; by destruct (encode_all _ data)|]. intros z.
  apply never_panics_bind; [intros d; unfold fs_write; by destruct (torn_write io)|]. intros _.
  by apply never_panics_bind.
Qed.

Lemma write_checkpoint_run io now offsets state workers d :
  ignore_errors (write_checkpoint s io now offsets state workers) d =
    ((write_async s io
        (with_dedup_state state (with_offsets offsets (checkpoint_new now workers))) d).1, Ok tt).
Proof.
  rewrite ignore_errors_Ok.
  - f_equal. unfold write_checkpoint, mbind, method_MBind, method_bind.
    by destruct (write_async _ _ _ d) as [d' [a|e|]].
  - apply never_panics_bind; [apply write_async_never_panics|done].
Qed.

(** A tick at or before [now]. *)
Definition tick_before (now : Z) (e : manager_event) : Prop :=
  match e with
  | IntervalTick _ t _ _ => t ≤ now
  | ShutdownNotified _ _ _ _ => False
  end.

Lemma ticks_named workers now ticks d rest :
  Forall (tick_before now) ticks → named_upto (now / 10 ^ 6) d →
  ∃ d', manager_run s workers (ticks ++ rest) d = manager_run s workers rest d' ∧
    named_upto (now / 10 ^ 6) d'.
Proof.
  intros Ht. revert d. induction Ht as [|[io t o st|]]; intros d Hd; [by exists d| |done].
  cbn [manager_run app]. unfold mbind at 1, method_MBind at 1, method_bind.
  rewrite write_checkpoint_run. apply IHHt.
  eapply write_async_named; [|apply surjective_pairing|done]. simpl in *.
  apply Z.div_le_mono; lia.
Qed.

(** After a shutdown the final checkpoint is found again: whatever the
    periodic writes before it did (failed, or left torn files), if the file
    system accepts the write the manager makes when it is told to stop, then
    the directory holds at most [max_checkpoints] files and a restart reads
    back exactly the offsets and the deduplication state captured then. *)
Theorem shutdown_checkpoint_recovered workers ticks io now offsets state data z rio :
  let c := with_dedup_state state (with_offsets offsets (checkpoint_new now workers)) in
  (0 < max_checkpoints s)%nat → 0 ≤ now < 2 ^ 128 → Forall (tick_before now) ticks →
  can_read_dir io = true → torn_write io = None → (∀ n, can_remove io n = true) →
  serialize c = Some data → encode_all (compression_level s) data = Some z →
  can_read_dir rio = true → (∀ n, can_read rio n = true) →
  let d := (manager_run s workers (ticks ++ [ShutdownNotified io now offsets state]) ∅).1 in
  (size d ≤ max_checkpoints s)%nat ∧
  ∃ c', latest rio d = (d, Ok (Some c')) ∧ kafka_offsets c' = offsets ∧ dedup_state c' = state ∧
    worker_count c' = workers.
Proof.
  intros c Hmax Hnow Ht Hrd Htorn Hrm Hser Henc Hrio Hcan d.
  destruct (ticks_named workers now ticks ∅ [ShutdownNotified io now offsets state])
    as (d0 & Hrun & Hd0); [done|by intros ? ?|].
  assert (Hlt : now / 10 ^ 6 < 2 ^ 128).
  { apply (Z.le_lt_trans _ now); [|lia]. apply Z.div_le_upper_bound; lia. }
  destruct (write_async_Ok io c data z d0 (now / 10 ^ 6)) as (d' & f & Hw & Hd' & Hf & Hz & Hs);
    try done; [simpl; lia|].
  assert (d = d') as ->.
  { unfold d. rewrite Hrun. cbn [manager_run]. rewrite write_checkpoint_run. fold c. by rewrite Hw. }
  split; [done|]. exists c. split; [|done]. by eapply latest_Ok.
Qed.
End Facts.

(** ** An instance *)

Definition checkpoint_tuple (c : Checkpoint) : gmap Z Z * gmap string Z * Z * Z * Z :=
  (kafka_offsets c, dedup_state c, timestamp c, worker_count c, version c).

Definition tuple_checkpoint (t : gmap Z Z * gmap string Z * Z * Z * Z) : Checkpoint :=
  let '(o, d, t, w, v) := t in
  {| kafka_offsets := o; dedup_state := d; timestamp := t; worker_count := w; version := v |}.

#[local] Instance sample_codec : Codec := {|
  serialize c := Some (pos_bytes (encode (checkpoint_tuple c)));
  deserialize bs := tuple_checkpoint <$> decode (bytes_pos bs);
  encode_all _ data := Some (Byte.x28 :: data);
  decode_all bs := match bs with Byte.x28 :: data => Some data | _ => None end;
|}.

#[local] Instance sample_codec_laws : CodecLaws.
Proof.
  split.
  - intros c data [= <-]. simpl. rewrite bytes_pos_bytes, countable.decode_encode. by destruct c.
  - by intros level data z [= <-].
Qed.

(** The first periodic write is torn; the final one succeeds. *)
Definition torn_fs (now : Z) : FsIo :=
  {| can_read_dir := true; torn_write := Some []; can_remove := λ _, true;
     remove_error := ""; can_read := λ _, true; write_time := now |}.

Lemma shutdown_checkpoint_recovered_witness :
  let d := (manager_run storage_new 4
    ([IntervalTick (torn_fs 5000000) 5000000 {[0 := 1]} ∅] ++
     [ShutdownNotified (good_fs 7000000) 7000000 {[0 := 2]} {["a"%string := 3]}]) ∅).1 in
  (size d ≤ 10)%nat ∧
  ∃ c', latest (good_fs 0) d = (d, Ok (Some c')) ∧ kafka_offsets c' = {[0 := 2]} ∧
    dedup_state c' = {["a"%string := 3]} ∧ worker_count c' = 4.
Proof.
  eapply (shutdown_checkpoint_recovered storage_new 4 [_] (good_fs 7000000) 7000000);
    try reflexivity; simpl; try lia; try done.
  by repeat constructor.
Defined.

(** A torn final write hides the good checkpoints before it. *)
Example torn_newest_hides_older :
  (let d := (manager_run storage_new 4
     [IntervalTick (good_fs 5000000) 5000000 ∅ ∅; IntervalTick (torn_fs 7000000) 7000000 ∅ ∅] ∅).1 in
   (size d, (latest (good_fs 0) d).2)) = (2%nat, Err "Failed to decompress checkpoint"%string).
Proof. vm_compute. reflexivity. Qed.
