(* ===== verification/WorkflowDefinition.v ===== *)
(** * Workflow definitions

    Models [orchestration/workflow/definition.rs] of the core: the steps of a
    workflow with the configuration of each kind of step, the choice of the
    configuration's variant from the step type when a step is read, and the
    validators.  JSON values and the deserializers serde derives are parameters.
    Errors are the messages of [anyhow::bail!]. *)

From Stdlib Require Import ZArith Ascii SpecFloat.
From stdpp Require Import base numbers option strings gmap list.
From S2P Require Import Prelude RustStd F64.

(** [if !ok { anyhow::bail!(msg) }]. *)
Definition ensure (ok : bool) (msg : string) : result string unit :=
  if ok then Ok tt else Err msg.

(** [for x in l { f(x)?; }]. *)
Definition for_each {A} (f : A → result string unit) (l : list A) : result string unit :=
  result_foldM (λ _, f) tt l.

Definition str_empty (s : string) : bool := String.eqb s "".
Definition list_empty {A} (l : list A) : bool := match l with [] => true | _ => false end.

(** [x < 0.0 || x > 1.0], the range test of every confidence and threshold. *)
Definition outside_unit (x : f64) : bool := f64_ltb x f64_zero || f64_ltb f64_one x.

(** ** Kinds of steps *)

Inductive StepType : Type :=
  | MlPrediction | HeuristicRule | WasmRule | ConfidenceGate | WeightedVote | ConfidenceAggregate
  | CsvSource | DbExtract | FieldTransformer | DbLoader | RdfLoader
  | DataValidator
  | DataJoiner | SemanticMapper | Deduplicator | Aggregator | SosValidation
  | CsvExporter.

#[global] Instance StepType_eq_dec : EqDecision StepType.
Proof. solve_decision. Defined.

(** [StepType::as_str], the text of [Display] too. *)
Definition as_str (t : StepType) : string :=
  match t with
  | MlPrediction => "ml_prediction"
  | HeuristicRule => "heuristic_rule"
  | WasmRule => "wasm_rule"
  | ConfidenceGate => "confidence_gate"
  | WeightedVote => "weighted_vote"
  | ConfidenceAggregate => "confidence_aggregate"
  | CsvSource => "csv_source"
  | DbExtract => "db_extract"
  | FieldTransformer => "field_transformer"
  | DbLoader => "db_loader"
  | RdfLoader => "rdf_loader"
  | DataValidator => "data_validator"
  | DataJoiner => "data_joiner"
  | SemanticMapper => "semantic_mapper"
  | Deduplicator => "deduplicator"
  | Aggregator => "aggregator"
  | SosValidation => "sos_validation"
  | CsvExporter => "csv_exporter"
  end.

(** ** Configurations without JSON values *)

Record FeatureMapping : Type := {
  fm_feature_name : string;
  fm_field_name : string;
  fm_transform : option string;
}.

Record PredictionSpec : Type := {
  ps_attribute_name : string;
  ps_mock_value : string;
  ps_mock_confidence : f64;
}.

Definition validate_prediction_spec (p : PredictionSpec) : result string unit :=
  ensure (negb (str_empty (ps_attribute_name p))) "attribute_name cannot be empty";;
  ensure (negb (outside_unit (ps_mock_confidence p))) "mock_confidence must be between 0.0 and 1.0".

Record MLPredictionConfig : Type := {
  ml_model_id : string;
  ml_model_version : string;
  ml_features : list string;
  ml_feature_mappings : list FeatureMapping;
  ml_predictions : list PredictionSpec;
  ml_confidence_threshold : option f64;
  ml_timeout_ms : Z;
  ml_cache_ttl_secs : option Z;
}.

(** The values serde fills in: [default_model_version], [default_timeout]. *)
Definition default_model_version : string := "1.0.0".
Definition default_timeout : Z := 500.

Definition validate_ml_prediction (c : MLPredictionConfig) : result string unit :=
  ensure (negb (str_empty (ml_model_id c))) "model_id cannot be empty";;
  ensure (negb (list_empty (ml_features c) && list_empty (ml_feature_mappings c)))
    "Either features or feature_mappings must be provided";;
  ensure (negb (list_empty (ml_predictions c)))
    "predictions cannot be empty - specify what attributes to predict";;
  ensure (match ml_confidence_threshold c with
          | Some threshold => negb (outside_unit threshold)
          | None => true
          end) "confidence_threshold must be between 0.0 and 1.0";;
  for_each validate_prediction_spec (ml_predictions c).

Record HeuristicConfig : Type := {
  hc_rule_id : string;
  hc_min_confidence : f64;
}.

Definition validate_heuristic (c : HeuristicConfig) : result string unit :=
  ensure (negb (str_empty (hc_rule_id c))) "rule_id cannot be empty";;
  ensure (negb (outside_unit (hc_min_confidence c))) "min_confidence must be between 0.0 and 1.0".

Record WasmRuleConfig : Type := { wr_rule_id : string }.

Definition validate_wasm_rule (c : WasmRuleConfig) : result string unit :=
  ensure (negb (str_empty (wr_rule_id c))) "rule_id cannot be empty".

Record ConfidenceGateConfig : Type := {
  cg_threshold : f64;
  cg_input_step : option string;
}.

Definition validate_confidence_gate (c : ConfidenceGateConfig) : result string unit :=
  ensure (negb (outside_unit (cg_threshold c))) "threshold must be between 0.0 and 1.0".

(** The weights in the order the map's iterator yields them. *)
Record WeightedVoteConfig : Type := { wv_weights : list (string * f64) }.

(** [values().sum()]: the sum of floats starts at zero. *)
Definition sum_weights (l : list (string * f64)) : f64 :=
  fold_left (λ acc kv, f64_add acc kv.2) l f64_zero.

(** The literal [0.01]. *)
Definition weight_tolerance : f64 := f64_of_decimal false 1 (-2).

Definition validate_weighted_vote (c : WeightedVoteConfig) : result string unit :=
  ensure (negb (list_empty (wv_weights c))) "weights cannot be empty";;
  let total := sum_weights (wv_weights c) in
  ensure (negb (f64_ltb weight_tolerance (f64_abs (f64_sub total f64_one))))
    ("weights must sum to 1.0, got " +:+ f64_to_string total).

Record ConfidenceAggregateConfig : Type := {
  ca_method : string;
  ca_inputs : list string;
}.

Definition valid_methods : list string := ["weighted_average"; "bayesian"; "voting"].

Definition validate_confidence_aggregate (c : ConfidenceAggregateConfig) : result string unit :=
  ensure (existsb (String.eqb (ca_method c)) valid_methods) ("Invalid method: " +:+ ca_method c).

Record CsvSourceConfig : Type := {
  cs_file_path : string;
  cs_delimiter : option Z;
  cs_has_header : option bool;
  cs_encoding : option string;
  cs_skip_rows : option Z;
  cs_max_rows : option Z;
}.

Definition validate_csv_source (c : CsvSourceConfig) : result string unit :=
  ensure (negb (str_empty (cs_file_path c))) "file_path cannot be empty".

Inductive TransformOperation : Type :=
  | OpTrim | OpLower | OpUpper
  | OpRegex (pattern replacement : string)
  | OpConcat (separator : string) (fields : list string)
  | OpSplit (delimiter : string) (index : Z)
  | OpSubstring (start : Z) (length : option Z)
  | OpReplace (from to : string)
  | OpRound (decimals : Z)
  | OpFormatDate (format : string)
  | OpCoalesce (fields : list string)
  | OpIfNull (default_value : string)
  | OpCustom (expression : string).

Record FieldTransformation : Type := {
  ft_field : string;
  ft_operations : list TransformOperation;
}.

Record FieldTransformerConfig : Type := { ft_transformations : list FieldTransformation }.

Definition validate_field_transformer (c : FieldTransformerConfig) : result string unit :=
  ensure (negb (list_empty (ft_transformations c))) "transformations cannot be empty";;
  for_each (λ t,
    ensure (negb (str_empty (ft_field t))) "field name cannot be empty";;
    ensure (negb (list_empty (ft_operations t)))
      ("operations cannot be empty for field " +:+ ft_field t)) (ft_transformations c).

Inductive LoadMode : Type := LoadInsert | LoadUpsert | LoadReplace.

Record DbLoaderConfig : Type := {
  dl_datasource_id : string;
  dl_table_name : string;
  dl_mode : LoadMode;
  dl_key_fields : option (list string);
  dl_batch_size : Z;
  dl_create_table : bool;
  dl_entity_uri : option string;
}.

Definition default_batch_size : Z := 50000.

Definition validate_db_loader (c : DbLoaderConfig) : result string unit :=
  ensure (negb (str_empty (dl_datasource_id c))) "datasource_id cannot be empty";;
  ensure (negb (str_empty (dl_table_name c))) "table_name cannot be empty";;
  ensure (match dl_mode c, dl_key_fields c with LoadUpsert, None => false | _, _ => true end)
    "key_fields required for upsert mode".

Record RdfLoaderConfig : Type := {
  rl_target_graph : option string;
  rl_entity_type : string;
  rl_id_field : string;
  rl_batch_size : Z;
  rl_capture_lineage : bool;
}.

Definition validate_rdf_loader (c : RdfLoaderConfig) : result string unit :=
  ensure (negb (str_empty (rl_entity_type c))) "entity_type cannot be empty";;
  ensure (negb (str_empty (rl_id_field c))) "id_field cannot be empty".

Inductive JoinType : Type := JoinInner | JoinLeft | JoinRight | JoinFull.

Record DataJoinerConfig : Type := {
  dj_join_type : JoinType;
  dj_left_key : list string;
  dj_right_key : list string;
  dj_output_columns : option (list string);
}.

Definition validate_data_joiner (c : DataJoinerConfig) : result string unit :=
  ensure (negb (list_empty (dj_left_key c))) "left_key cannot be empty";;
  ensure (negb (list_empty (dj_right_key c))) "right_key cannot be empty";;
  ensure (length (dj_left_key c) =? length (dj_right_key c))%nat
    "left_key and right_key must have same length".

Inductive MappingMode : Type := MappingAuto | MappingManual | MappingHybrid.

Record SemanticMapperConfig : Type := {
  sm_target_ontology : list string;
  sm_auto_approve_threshold : f64;
  sm_mapping_mode : MappingMode;
  sm_mapping_session_id : option string;
  sm_preserve_original_fields : bool;
  sm_source_id : option string;
  sm_table_name : option string;
  sm_entity_uri : option string;
}.

(** [default_auto_approve_threshold]: the literal [0.95]. *)
Definition default_auto_approve_threshold : f64 := f64_of_decimal false 95 (-2).

Definition validate_semantic_mapper (c : SemanticMapperConfig) : result string unit :=
  ensure (negb (list_empty (sm_target_ontology c))) "target_ontology cannot be empty";;
  ensure (negb (outside_unit (sm_auto_approve_threshold c)))
    "auto_approve_threshold must be between 0.0 and 1.0".

Inductive FuzzyAlgorithm : Type := Levenshtein | JaroWinkler | Soundex.

Definition fuzzy_algorithm_to_string (a : FuzzyAlgorithm) : string :=
  match a with
  | Levenshtein => "levenshtein"
  | JaroWinkler => "jaro-winkler"
  | Soundex => "soundex"
  end.

Inductive DedupMethod : Type :=
  | DedupExact
  | DedupFuzzy (algorithm : FuzzyAlgorithm)
  | DedupSemantic (model : string).

Definition dedup_method_to_string (m : DedupMethod) : string :=
  match m with
  | DedupExact => "exact"
  | DedupFuzzy a => "fuzzy(" +:+ fuzzy_algorithm_to_string a +:+ ")"
  | DedupSemantic model => "semantic(" +:+ model +:+ ")"
  end.

Inductive KeepStrategy : Type := KeepFirst | KeepLast | KeepMerge | KeepHighestQuality.

Record DeduplicatorConfig : Type := {
  dd_method : DedupMethod;
  dd_key_fields : list string;
  dd_threshold : option f64;
  dd_keep : KeepStrategy;
}.

Definition validate_deduplicator (c : DeduplicatorConfig) : result string unit :=
  ensure (negb (list_empty (dd_key_fields c))) "key_fields cannot be empty".

Inductive AggFunction : Type :=
  | AggSum | AggAvg | AggCount | AggMin | AggMax | AggStddev | AggVariance | AggMedian.

Record Aggregation : Type := {
  ag_field : string;
  ag_function : AggFunction;
  ag_alias : option string;
}.

Record AggregatorConfig : Type := {
  ag_group_by : list string;
  ag_aggregations : list Aggregation;
}.

Definition validate_aggregator (c : AggregatorConfig) : result string unit :=
  ensure (negb (list_empty (ag_aggregations c))) "aggregations cannot be empty";;
  for_each (λ a, ensure (negb (str_empty (ag_field a))) "aggregation field cannot be empty")
    (ag_aggregations c).

Record CsvExporterConfig : Type := {
  ce_output_path : string;
  ce_delimiter : option Z;
  ce_include_header : bool;
  ce_encoding : option string;
}.

Definition validate_csv_exporter (c : CsvExporterConfig) : result string unit :=
  ensure (negb (str_empty (ce_output_path c))) "output_path cannot be empty".

Inductive RuleType : Type :=
  | RuleNotNull
  | RuleRegex (pattern : string)
  | RuleRange (min max : f64)
  | RuleInSet (values : list string)
  | RuleUnique
  | RuleLength (min max : Z)
  | RuleDateRange (min max : string)
  | RuleCrossField (other_field operator : string).

Inductive Severity : Type := SeverityError | SeverityWarning.

Inductive FallbackStrategy : Type := ManualReview | RejectFusion | AcceptFusion.

(** ** Configurations with JSON values *)

Section Json.
Context {Value : Type}.

Record DbExtractConfig : Type := {
  dx_datasource_id : string;
  dx_table_name : option string;
  dx_schema_table : option string;
  dx_query : option string;
  dx_incremental : option bool;
  dx_incremental_column : option string;
  dx_last_value : option Value;
  dx_batch_size : Z;
  dx_columns : option (list string);
  dx_include_schema : option bool;
  dx_schema_sample_size : option Z;
}.

Definition is_none {A} (o : option A) : bool := match o with None => true | _ => false end.

Definition validate_db_extract (c : DbExtractConfig) : result string unit :=
  let incremental := default false (dx_incremental c) in
  ensure (negb (str_empty (dx_datasource_id c))) "datasource_id cannot be empty";;
  ensure (negb (is_none (dx_table_name c) && is_none (dx_query c)))
    "Either table_name or query must be provided";;
  ensure (negb (negb (is_none (dx_query c)) && incremental))
    "incremental extraction is only supported in table mode";;
  ensure (negb (incremental && is_none (dx_incremental_column c)))
    "incremental_column required when incremental is true";;
  ensure (negb (incremental && is_none (dx_last_value c)))
    "last_value required when incremental is true";;
  ensure (negb (default false (dx_include_schema c) && is_none (dx_schema_table c)
                && is_none (dx_table_name c)))
    "schema_table or table_name required when include_schema is true".

Record ValidationRule : Type := {
  vr_field : string;
  vr_rule_type : RuleType;
  vr_params : option Value;
  vr_severity : Severity;
}.

Record DataValidatorConfig : Type := {
  dv_rules : list ValidationRule;
  dv_fail_on_error : bool;
}.

Definition validate_data_validator (c : DataValidatorConfig) : result string unit :=
  ensure (negb (list_empty (dv_rules c))) "rules cannot be empty";;
  for_each (λ r, ensure (negb (str_empty (vr_field r))) "field name cannot be empty") (dv_rules c).

Inductive SosValidationSpec : Type :=
  | InterfaceCompatibility (provider_interface_id consumer_interface_id : string)
  | ContractCompliance (contract_id : string)
  | SystemIntegration (source_system_id target_system_id : string)
  | PolicyCheck (sparql_query : string) (context : gmap string Value)
  | DataValidation (interface_id : string) (data : Value).

Definition validate_sos_spec (s : SosValidationSpec) : result string unit :=
  match s with
  | InterfaceCompatibility p c =>
      ensure (negb (str_empty p || str_empty c))
        "provider_interface_id and consumer_interface_id cannot be empty"
  | ContractCompliance c => ensure (negb (str_empty c)) "contract_id cannot be empty"
  | SystemIntegration s t =>
      ensure (negb (str_empty s || str_empty t))
        "source_system_id and target_system_id cannot be empty"
  | PolicyCheck q _ => ensure (negb (str_empty (trim q))) "sparql_query cannot be empty"
  | DataValidation i _ => ensure (negb (str_empty i)) "interface_id cannot be empty"
  end.

Record SosValidationConfig : Type := {
  sv_validation : SosValidationSpec;
  sv_blocking_severities : list string;
  sv_persist_report : bool;
  sv_emit_graph_lineage : bool;
}.

Definition default_blocking_severities : list string := ["error"].

Definition validate_sos_validation (c : SosValidationConfig) : result string unit :=
  validate_sos_spec (sv_validation c);;
  ensure (negb (list_empty (sv_blocking_severities c))) "blocking_severities cannot be empty";;
  for_each (λ severity,
    let s := to_lowercase severity in
    ensure (String.eqb s "error" || String.eqb s "warning" || String.eqb s "info")
      ("Unsupported blocking severity '" +:+ severity +:+ "'; expected error, warning, or info"))
    (sv_blocking_severities c).

(** ** Steps *)

Inductive StepConfig : Type :=
  | MLPredictionCfg (cfg : MLPredictionConfig)
  | HeuristicCfg (cfg : HeuristicConfig)
  | WasmRuleCfg (cfg : WasmRuleConfig)
  | ConfidenceGateCfg (cfg : ConfidenceGateConfig)
  | WeightedVoteCfg (cfg : WeightedVoteConfig)
  | CsvSourceCfg (cfg : CsvSourceConfig)
  | DbLoaderCfg (cfg : DbLoaderConfig)
  | FieldTransformerCfg (cfg : FieldTransformerConfig)
  | DbExtractCfg (cfg : DbExtractConfig)
  | RdfLoaderCfg (cfg : RdfLoaderConfig)
  | DataValidatorCfg (cfg : DataValidatorConfig)
  | DataJoinerCfg (cfg : DataJoinerConfig)
  | SemanticMapperCfg (cfg : SemanticMapperConfig)
  | DeduplicatorCfg (cfg : DeduplicatorConfig)
  | AggregatorCfg (cfg : AggregatorConfig)
  | SosValidationCfg (cfg : SosValidationConfig)
  | CsvExporterCfg (cfg : CsvExporterConfig)
  | ConfidenceAggregateCfg (cfg : ConfidenceAggregateConfig).

(** [StepConfig::validate]. *)
Definition validate_config (c : StepConfig) (t : StepType) : result string unit :=
  match c, t with
  | MLPredictionCfg cfg, MlPrediction => validate_ml_prediction cfg
  | HeuristicCfg cfg, HeuristicRule => validate_heuristic cfg
  | WasmRuleCfg cfg, WasmRule => validate_wasm_rule cfg
  | ConfidenceGateCfg cfg, ConfidenceGate => validate_confidence_gate cfg
  | WeightedVoteCfg cfg, WeightedVote => validate_weighted_vote cfg
  | CsvSourceCfg cfg, CsvSource => validate_csv_source cfg
  | DbLoaderCfg cfg, DbLoader => validate_db_loader cfg
  | FieldTransformerCfg cfg, FieldTransformer => validate_field_transformer cfg
  | DbExtractCfg cfg, DbExtract => validate_db_extract cfg
  | RdfLoaderCfg cfg, RdfLoader => validate_rdf_loader cfg
  | DataValidatorCfg cfg, DataValidator => validate_data_validator cfg
  | DataJoinerCfg cfg, DataJoiner => validate_data_joiner cfg
  | SemanticMapperCfg cfg, SemanticMapper => validate_semantic_mapper cfg
  | DeduplicatorCfg cfg, Deduplicator => validate_deduplicator cfg
  | AggregatorCfg cfg, Aggregator => validate_aggregator cfg
  | SosValidationCfg cfg, SosValidation => validate_sos_validation cfg
  | CsvExporterCfg cfg, CsvExporter => validate_csv_exporter cfg
  | ConfidenceAggregateCfg cfg, ConfidenceAggregate => validate_confidence_aggregate cfg
  | _, _ => Err "Step config type mismatch"
  end.

Record WorkflowStep : Type := {
  step_id : string;
  step_type : StepType;
  step_config : StepConfig;
  depends_on : list string;
}.

(** [WorkflowStep::validate]. *)
Definition validate_step (s : WorkflowStep) : result string unit :=
  ensure (negb (str_empty (step_id s))) "Step ID cannot be empty";;
  validate_config (step_config s) (step_type s).

Record WorkflowDefinition : Type := {
  steps : list WorkflowStep;
  fusion_threshold : f64;
  fallback : FallbackStrategy;
}.

(** The loop of [validate] over [seen_ids]. *)
Definition check_duplicate (seen_ids : gset string) (s : WorkflowStep) : result string (gset string) :=
  if bool_decide (step_id s ∈ seen_ids) then Err ("Duplicate step ID: " +:+ step_id s)
  else Ok ({[step_id s]} ∪ seen_ids).

(** [WorkflowDefinition::validate]. *)
Definition validate (d : WorkflowDefinition) : result string unit :=
  ensure (negb (list_empty (steps d))) "Workflow must have at least one step";;
  result_foldM check_duplicate ∅ (steps d);;
  for_each validate_step (steps d).

(** ** Reading a step *)

(** The configuration type that belongs to a step type. *)
Definition config_of (t : StepType) : Type :=
  match t with
  | MlPrediction => MLPredictionConfig
  | HeuristicRule => HeuristicConfig
  | WasmRule => WasmRuleConfig
  | ConfidenceGate => ConfidenceGateConfig
  | WeightedVote => WeightedVoteConfig
  | ConfidenceAggregate => ConfidenceAggregateConfig
  | CsvSource => CsvSourceConfig
  | DbExtract => DbExtractConfig
  | FieldTransformer => FieldTransformerConfig
  | DbLoader => DbLoaderConfig
  | RdfLoader => RdfLoaderConfig
  | DataValidator => DataValidatorConfig
  | DataJoiner => DataJoinerConfig
  | SemanticMapper => SemanticMapperConfig
  | Deduplicator => DeduplicatorConfig
  | Aggregator => AggregatorConfig
  | SosValidation => SosValidationConfig
  | CsvExporter => CsvExporterConfig
  end.

(** The deserializer serde derives for each configuration type. *)
Context (from_value : ∀ t, Value → option (config_of t)).

(** [StepConfig::from_step_type]. *)
Definition from_step_type (t : StepType) (value : Value) : result string StepConfig :=
  let parse t := ok_or (from_value t value) ("Invalid config for step_type " +:+ as_str t) in
  match t with
  | MlPrediction => MLPredictionCfg <$> parse MlPrediction
  | HeuristicRule => HeuristicCfg <$> parse HeuristicRule
  | WasmRule => WasmRuleCfg <$> parse WasmRule
  | ConfidenceGate => ConfidenceGateCfg <$> parse ConfidenceGate
  | WeightedVote => WeightedVoteCfg <$> parse WeightedVote
  | ConfidenceAggregate => ConfidenceAggregateCfg <$> parse ConfidenceAggregate
  | CsvSource => CsvSourceCfg <$> parse CsvSource
  | DbExtract => DbExtractCfg <$> parse DbExtract
  | FieldTransformer => FieldTransformerCfg <$> parse FieldTransformer
  | DbLoader => DbLoaderCfg <$> parse DbLoader
  | RdfLoader => RdfLoaderCfg <$> parse RdfLoader
  | DataValidator => DataValidatorCfg <$> parse DataValidator
  | DataJoiner => DataJoinerCfg <$> parse DataJoiner
  | SemanticMapper => SemanticMapperCfg <$> parse SemanticMapper
  | Deduplicator => DeduplicatorCfg <$> parse Deduplicator
  | Aggregator => AggregatorCfg <$> parse Aggregator
  | SosValidation => SosValidationCfg <$> parse SosValidation
  | CsvExporter => CsvExporterCfg <$> parse CsvExporter
  end.

(** The fields of [RawStep]. *)
Record RawStep : Type := {
  raw_id : string;
  raw_step_type : StepType;
  raw_config : Value;
  raw_depends_on : list string;
}.

(** [WorkflowStep::deserialize], from the raw fields on. *)
Definition step_deserialize (raw : RawStep) : result string WorkflowStep :=
  config ← from_step_type (raw_step_type raw) (raw_config raw);
  Ok {| step_id := raw_id raw; step_type := raw_step_type raw; step_config := config;
        depends_on := raw_depends_on raw |}.
End Json.
Arguments DbExtractConfig : clear implicits.
Arguments ValidationRule : clear implicits.
Arguments DataValidatorConfig : clear implicits.
Arguments SosValidationSpec : clear implicits.
Arguments SosValidationConfig : clear implicits.
Arguments StepConfig : clear implicits.
Arguments WorkflowStep : clear implicits.
Arguments WorkflowDefinition : clear implicits.
Arguments RawStep : clear implicits.
Arguments config_of : clear implicits.

(** ** Facts *)

Section Facts.
Context {Value : Type}.
Implicit Types d : WorkflowDefinition Value.

Lemma ensure_Ok ok msg u : ensure ok msg = Ok u ↔ ok = true.
Proof. destruct ok, u; simpl; naive_solver. Qed.

Lemma for_each_Ok {A} (f : A → result string unit) l u :
  for_each f l = Ok u ↔ Forall (λ x, f x = Ok tt) l.
Proof.
  destruct u. unfold for_each. induction l as [|x l IH]; simpl; [by rewrite Forall_nil|].
  rewrite Forall_cons, <- IH. destruct (f x) as [[]|e|]; naive_solver.
Qed.

Lemma list_empty_false {A} (l : list A) : negb (list_empty l) = true ↔ l ≠ [].
Proof. destruct l; naive_solver. Qed.

Lemma check_duplicates_Ok seen (l : list (WorkflowStep Value)) :
  (∃ seen', result_foldM check_duplicate seen l = Ok seen') ↔
  NoDup (map step_id l) ∧ ∀ s, s ∈ l → step_id s ∉ seen.
Proof.
  revert seen. induction l as [|x l IH]; intros seen; simpl.
  { split; [intros _; split; [constructor|set_solver]|eauto]. }
  unfold check_duplicate at 1. case_bool_decide as Hx; simpl.
  - split; [by intros (? & ?)|]. intros (_ & H). by destruct (H x); [left|].
  - rewrite IH, NoDup_cons. rewrite list_elem_of_fmap. split.
    + intros (Hn & Hs). split; [split; [|done]|].
      * intros (y & Hy & Hin). specialize (Hs y Hin). set_solver.
      * intros s [->|Hin]%elem_of_cons; [done|]. specialize (Hs s Hin). set_solver.
    + intros ((Hn & Hd) & Hs). split; [done|]. intros s Hin Hs'.
      apply elem_of_union in Hs' as [Hs'%elem_of_singleton|Hs'].
      * apply Hn. eauto.
      * by apply (Hs s); [right|].
Qed.

Lemma validate_Ok d :
  validate d = Ok tt ↔
  steps d ≠ [] ∧ NoDup (map step_id (steps d)) ∧ Forall (λ s, validate_step s = Ok tt) (steps d).
Proof.
  unfold validate. pose proof (check_duplicates_Ok ∅ (steps d)) as Hc. split.
  - rewrite !result_bind_Ok. intros (u & He & H).
    apply result_bind_Ok in H as (seen & Hs & H).
    apply ensure_Ok, list_empty_false in He. apply for_each_Ok in H.
    split; [done|]. split; [|done]. apply Hc. eauto.
  - intros (He & Hn & Hf). destruct (proj2 Hc) as (seen & Hs); [split; [done|set_solver]|].
    apply list_empty_false in He. rewrite He. simpl. rewrite Hs. simpl. by apply for_each_Ok.
Qed.
End Facts.
