(* ===== verification/WorkflowDag.v ===== *)
(** * The step graph of a workflow

    Models [orchestration/workflow/dag.rs] of the core: the graph of the steps
    of a definition, its checks, and the two schedules read from it, the
    execution order and the parallel batches.  [petgraph] is a parameter: the
    class [PetGraph] has the operations the code calls, [PetGraphLaws] what its
    documentation says of them. *)

From Stdlib Require Import ZArith Lia.
From stdpp Require Import base numbers option strings gmap list relations.
From S2P Require Import Prelude RustStd WorkflowDefinition.

(** ** petgraph *)

Inductive Direction : Type := Incoming | Outgoing.

Class PetGraph : Type := {
  DiGraph : Type;
  graph_new : DiGraph;
  add_node : DiGraph → string → DiGraph * nat;
  (** [None]: an endpoint is out of range, which panics. *)
  add_edge : DiGraph → nat → nat → option DiGraph;
  node_weight : DiGraph → nat → option string;
  neighbors_directed : DiGraph → nat → Direction → list nat;
  is_cyclic_directed : DiGraph → bool;
  toposort : DiGraph → option (list nat);
  (** What the laws speak of: the node weights and the edges. *)
  graph_nodes : DiGraph → list string;
  graph_edges : DiGraph → list (nat * nat);
}.

(** [a] comes before [b]. *)
Definition precedes {A} (l : list A) (a b : A) : Prop :=
  ∃ i j, (i < j)%nat ∧ l !! i = Some a ∧ l !! j = Some b.

Definition edge `{PetGraph} (g : DiGraph) (a b : nat) : Prop := (a, b) ∈ graph_edges g.
Definition cyclic `{PetGraph} (g : DiGraph) : Prop := ∃ i, tc (edge g) i i.

(** The documented behaviour: indices are given out from zero, edges join
    existing nodes, the neighbours of a node are the ends of its edges, and
    [toposort] orders every node before its successors unless the graph has a
    cycle, which [is_cyclic_directed] decides. *)
Class PetGraphLaws `{PetGraph} : Prop := {
  new_nodes : graph_nodes graph_new = [];
  new_edges : graph_edges graph_new = [];
  add_node_index g w : (add_node g w).2 = length (graph_nodes g);
  add_node_nodes g w : graph_nodes (add_node g w).1 = graph_nodes g ++ [w];
  add_node_edges g w : graph_edges (add_node g w).1 = graph_edges g;
  add_edge_spec g a b :
    (a < length (graph_nodes g))%nat → (b < length (graph_nodes g))%nat →
    ∃ g', add_edge g a b = Some g' ∧ graph_nodes g' = graph_nodes g ∧
      ∀ e, e ∈ graph_edges g' ↔ e = (a, b) ∨ e ∈ graph_edges g;
  node_weight_spec g i : node_weight g i = graph_nodes g !! i;
  neighbors_incoming g i j : j ∈ neighbors_directed g i Incoming ↔ (j, i) ∈ graph_edges g;
  neighbors_outgoing g i j : j ∈ neighbors_directed g i Outgoing ↔ (i, j) ∈ graph_edges g;
  is_cyclic_spec g : is_cyclic_directed g = true ↔ cyclic g;
  toposort_spec g l :
    toposort g = Some l →
    l ≡ₚ seq 0 (length (graph_nodes g)) ∧ ∀ a b, (a, b) ∈ graph_edges g → precedes l a b;
  toposort_total g : toposort g = None → cyclic g;
}.

Section Dag.
Context {Value : Type} `{PetGraph}.
Abbreviation Step := (WorkflowStep Value).

Record DagExecutor : Type := {
  graph : DiGraph;
  step_index : gmap string nat;
  index_step : gmap nat Step;
}.

(** ** [DagExecutor::from_workflow] *)

(** Adding one step as a node. *)
Definition add_step (st : DagExecutor) (s : Step) : DagExecutor :=
  let '(g, idx) := add_node (graph st) (step_id s) in
  {| graph := g; step_index := <[step_id s := idx]> (step_index st);
     index_step := <[idx := s]> (index_step st) |}.

Definition empty_dag : DagExecutor :=
  {| graph := graph_new; step_index := ∅; index_step := ∅ |}.

Definition unknown_step (s d : string) : string :=
  "Step '" +:+ s +:+ "' depends on unknown step '" +:+ d +:+ "'".

(** The edge for the dependency [dep_id] of step [s]. *)
Definition add_dep (ix : gmap string nat) (s : Step) (step_idx : nat) (g : DiGraph) (dep_id : string)
    : result string DiGraph :=
  dep_idx ← ok_or (ix !! dep_id) (unknown_step (step_id s) dep_id);
  match add_edge g dep_idx step_idx with
  | Some g => Ok g
  | None => Panic
  end.

(** The edges of step [s]; [step_index[&step.id]] panics on a missing key. *)
Definition add_deps (ix : gmap string nat) (g : DiGraph) (s : Step) : result string DiGraph :=
  match ix !! step_id s with
  | None => Panic
  | Some step_idx => result_foldM (add_dep ix s step_idx) g (depends_on s)
  end.

Definition from_workflow (d : WorkflowDefinition Value) : result string DagExecutor :=
  let st := fold_left add_step (steps d) empty_dag in
  g ← result_foldM (add_deps (step_index st)) (graph st) (steps d);
  if is_cyclic_directed g then Err "Workflow contains cyclic dependencies"
  else Ok {| graph := g; step_index := step_index st; index_step := index_step st |}.

(** ** Schedules *)

Definition sorted_nodes (dag : DagExecutor) : result string (list nat) :=
  ok_or (toposort (graph dag)) "Failed to compute topological order".

(** [self.index_step[&idx].clone()]. *)
Definition step_at (dag : DagExecutor) (idx : nat) : result string Step :=
  match index_step dag !! idx with
  | Some s => Ok s
  | None => Panic
  end.

(** [DagExecutor::execution_order]. *)
Definition execution_order (dag : DagExecutor) : result string (list Step) :=
  sorted ← sorted_nodes dag;
  result_mapM (step_at dag) sorted.

(** The level of a node: one more than the greatest level of the visited
    predecessors. *)
Definition node_level (visited : gmap nat nat) (preds : list nat) : nat :=
  fold_left (λ level incoming,
    match visited !! incoming with
    | Some dep_level => Nat.max level (dep_level + 1)
    | None => level
    end) preds 0%nat.

(** [while batches.len() <= level { push } batches[level].push(s)]. *)
Definition push_batch (batches : list (list Step)) (level : nat) (s : Step) : list (list Step) :=
  alter (λ b, b ++ [s]) level
    (batches ++ replicate (S level - length batches) []).

(** One iteration of the loop of [parallel_batches]. *)
Definition batch_step (dag : DagExecutor) (st : list (list Step) * gmap nat nat) (node_idx : nat)
    : result string (list (list Step) * gmap nat nat) :=
  let '(batches, visited) := st in
  let level := node_level visited (neighbors_directed (graph dag) node_idx Incoming) in
  s ← step_at dag node_idx;
  Ok (push_batch batches level s, <[node_idx := level]> visited).

(** [DagExecutor::parallel_batches]. *)
Definition parallel_batches (dag : DagExecutor) : result string (list (list Step)) :=
  sorted ← sorted_nodes dag;
  r ← result_foldM (batch_step dag) ([], ∅) sorted;
  Ok r.1.

(** [self.graph[idx].clone()]. *)
Definition weight_at (dag : DagExecutor) (idx : nat) : result string string :=
  match node_weight (graph dag) idx with
  | Some w => Ok w
  | None => Panic
  end.

Definition get_neighbors (dag : DagExecutor) (sid : string) (dir : Direction)
    : result string (list string) :=
  step_idx ← ok_or (step_index dag !! sid) ("Unknown step: " +:+ sid);
  result_mapM (weight_at dag) (neighbors_directed (graph dag) step_idx dir).

(** [DagExecutor::get_dependencies] and [get_dependents]. *)
Definition get_dependencies (dag : DagExecutor) (sid : string) : result string (list string) :=
  get_neighbors dag sid Incoming.
Definition get_dependents (dag : DagExecutor) (sid : string) : result string (list string) :=
  get_neighbors dag sid Outgoing.
End Dag.
Arguments DagExecutor Value {_}.

(** * Schedules of a workflow respect its dependencies

    Theorems about [WorkflowDag.v], for any graph library that keeps
    [PetGraphLaws]: which definitions become a graph, and what the execution
    order and the parallel batches promise. *)

(** ** The dependencies of a definition, on step ids *)

Section Facts.
Context {Value : Type} `{PetGraphLaws}.
Abbreviation Step := (WorkflowStep Value).
Implicit Types (d : WorkflowDefinition Value) (s t : Step).

Definition ids d : list string := map step_id (steps d).

(** Step [y] depends on step [x]. *)
Definition depends d (x y : string) : Prop :=
  ∃ s, s ∈ steps d ∧ step_id s = y ∧ x ∈ depends_on s.

Definition deps_known d : Prop :=
  ∀ s x, s ∈ steps d → x ∈ depends_on s → x ∈ ids d.

(** What a graph built from [d] holds. *)
Record dag_of d (dag : DagExecutor Value) : Prop := {
  dag_nodes : graph_nodes (graph dag) = ids d;
  dag_steps : ∀ i, index_step dag !! i = steps d !! i;
  dag_index : ∀ x i, step_index dag !! x = Some i ↔ ids d !! i = Some x;
  dag_edges : ∀ a b, (a, b) ∈ graph_edges (graph dag) ↔
    ∃ s x, steps d !! b = Some s ∧ ids d !! a = Some x ∧ x ∈ depends_on s;
}.

(** ** Building the graph *)

Lemma add_steps_spec (l : list Step) :
  NoDup (map step_id l) →
  let st := fold_left add_step l empty_dag in
  graph_nodes (graph st) = map step_id l ∧ graph_edges (graph st) = [] ∧
  (∀ i, index_step st !! i = l !! i) ∧
  (∀ x i, step_index st !! x = Some i ↔ map step_id l !! i = Some x).
Proof.
  induction l as [|s l IH] using rev_ind; intros Hn; cbn zeta.
  { simpl. rewrite new_nodes, new_edges. split_and!; [done..|]. intros x i.
    rewrite lookup_empty. split; intros Hx; discriminate Hx. }
  rewrite fold_left_app. simpl. rewrite map_app in Hn. apply NoDup_app in Hn as (Hn & Hd & _).
  destruct (IH Hn) as (Hno & Hed & His & Hsi). set (st := fold_left add_step l empty_dag) in *.
  unfold add_step. destruct (add_node (graph st) (step_id s)) as [g idx] eqn:Ea. simpl.
  pose proof (add_node_index (graph st) (step_id s)) as Hi.
  pose proof (add_node_nodes (graph st) (step_id s)) as Hns.
  pose proof (add_node_edges (graph st) (step_id s)) as Hes.
  rewrite Ea in Hi, Hns, Hes. simpl in *. rewrite Hno, length_map in Hi. subst idx.
  rewrite map_app, Hns, Hes, Hno, Hed. split_and!; [done..| |].
  - intros i. destruct (decide (i = length l)) as [->|Hne].
    + rewrite lookup_insert_eq. by rewrite list_lookup_middle.
    + rewrite lookup_insert_ne by done. rewrite His.
      destruct (decide (i < length l)%nat); [by rewrite lookup_app_l|].
      rewrite !lookup_ge_None_2; [done|rewrite length_app; simpl; lia|lia].
  - intros x i. destruct (decide (x = step_id s)) as [->|Hne].
    + rewrite lookup_insert_eq. split.
      * intros [= <-]. apply list_lookup_middle. by rewrite length_map.
      * intros Hx%lookup_app_Some. destruct Hx as [Hx|(Hge & Hx)].
        { exfalso. apply (Hd (step_id s)); [by eapply list_elem_of_lookup_2|left]. }
        apply lookup_lt_Some in Hx. simpl in Hx. rewrite length_map in *. f_equal. lia.
    + rewrite lookup_insert_ne by done. rewrite Hsi, lookup_app_Some. split; [by left|].
      intros [Hx|(Hge & Hx)]; [done|]. apply list_lookup_singleton_Some in Hx as [_ Hx]. congruence.
Qed.

Section Edges.
Context (ix : gmap string nat) (n : nat) (Hix : ∀ x i, ix !! x = Some i → (i < n)%nat).

Lemma add_dep_cases s si g :
  length (graph_nodes g) = n → (si < n)%nat → ∀ deps,
  (∃ g', result_foldM (add_dep ix s si) g deps = Ok g' ∧ graph_nodes g' = graph_nodes g ∧
     (∀ x, x ∈ deps → is_Some (ix !! x)) ∧
     ∀ a b, (a, b) ∈ graph_edges g' ↔
       (a, b) ∈ graph_edges g ∨ b = si ∧ ∃ x, x ∈ deps ∧ ix !! x = Some a) ∨
  (∃ x, x ∈ deps ∧ ix !! x = None ∧
     result_foldM (add_dep ix s si) g deps = Err (unknown_step (step_id s) x)).
Proof using All.
  intros Hg Hsi deps. revert g Hg. induction deps as [|x deps IH]; intros g Hg; simpl.
  { left. exists g. set_solver. }
  unfold add_dep at 1 3. destruct (ix !! x) as [i|] eqn:Hx; simpl; [|right; exists x; set_solver].
  destruct (add_edge_spec g i si) as (g1 & -> & Hn1 & He1); [rewrite Hg; eauto|by rewrite Hg|].
  destruct (IH g1) as [(g' & Hf & Hn & Hk & He)|(y & Hy & Hi & Hf)]; [by rewrite Hn1|left|right].
  - exists g'. split; [done|]. split; [by rewrite Hn|]. split; [set_solver|].
    intros a b. rewrite He, He1. set_solver.
  - exists y. set_solver.
Qed.

Lemma add_deps_cases g (l : list Step) :
  length (graph_nodes g) = n → Forall (λ s, is_Some (ix !! step_id s)) l →
  (∃ g', result_foldM (add_deps ix) g l = Ok g' ∧ graph_nodes g' = graph_nodes g ∧
     (∀ s x, s ∈ l → x ∈ depends_on s → is_Some (ix !! x)) ∧
     ∀ a b, (a, b) ∈ graph_edges g' ↔
       (a, b) ∈ graph_edges g ∨
       ∃ s x, s ∈ l ∧ ix !! step_id s = Some b ∧ x ∈ depends_on s ∧ ix !! x = Some a) ∨
  (∃ s x, s ∈ l ∧ x ∈ depends_on s ∧ ix !! x = None ∧
     result_foldM (add_deps ix) g l = Err (unknown_step (step_id s) x)).
Proof using All.
  intros Hg Hl. revert g Hg. induction Hl as [|s l (si & Hsi) Hl IH]; intros g Hg; simpl.
  { left. exists g. set_solver. }
  unfold add_deps at 1 3. rewrite Hsi.
  destruct (add_dep_cases s si g Hg (Hix _ _ Hsi) (depends_on s))
    as [(g1 & -> & Hn1 & Hk1 & He1)|(x & Hx & Hi & ->)]; [|right; exists s, x; set_solver].
  destruct (IH g1) as [(g' & Hf & Hn & Hk & He)|(t & y & Ht & Hy & Hi & Hf)];
    [by rewrite Hn1|left|right; exists t, y; set_solver].
  exists g'. split; [done|]. split; [by rewrite Hn|]. split.
  { intros t x [->|Ht]%elem_of_cons; eauto. }
  intros a b. rewrite He, He1. split.
  - intros [[?|(-> & x & ? & ?)]|(t & x & ? & ? & ? & ?)]; [by left|right..]; [exists s, x|exists t, x];
      set_solver.
  - intros [?|(t & x & [->|Ht]%elem_of_cons & ? & ? & ?)]; [by do 2 left| |right; eauto 8].
    simplify_eq. left. right. eauto.
Qed.
End Edges.

Section Built.
Context d (Hnodup : NoDup (ids d)).

Lemma lookup_ids i s : steps d !! i = Some s → ids d !! i = Some (step_id s).
Proof. intros Hs. unfold ids. by rewrite list_lookup_fmap, Hs. Qed.

Lemma lookup_ids_inv i x : ids d !! i = Some x → ∃ s, steps d !! i = Some s ∧ step_id s = x.
Proof. unfold ids. rewrite list_lookup_fmap. intros (s & ? & ?)%fmap_Some. eauto. Qed.

(** The graph the edges of a definition give, or the first unknown dependency. *)
Lemma from_workflow_cases :
  (∃ dag, dag_of d dag ∧ deps_known d ∧
     from_workflow d =
       if is_cyclic_directed (graph dag) then Err "Workflow contains cyclic dependencies"%string
       else Ok dag) ∨
  (∃ s x, s ∈ steps d ∧ x ∈ depends_on s ∧ x ∉ ids d ∧
     from_workflow d = Err (unknown_step (step_id s) x)).
Proof using All.
  destruct (add_steps_spec (steps d) Hnodup) as (Hno & Hed & His & Hsi).
  unfold from_workflow. set (st := fold_left add_step (steps d) empty_dag) in *.
  destruct (add_deps_cases (step_index st) (length (steps d))) with (g := graph st) (l := steps d)
    as [(g' & -> & Hn & Hk & He)|(s & x & Hs & Hx & Hi & ->)].
  - intros x i Hx. apply Hsi, lookup_lt_Some in Hx. by rewrite length_map in Hx.
  - by rewrite Hno, length_map.
  - apply Forall_forall. intros s (i & Hi)%list_elem_of_lookup. exists i. by apply Hsi, lookup_ids.
  - left. exists {| graph := g'; step_index := step_index st; index_step := index_step st |}.
    split; [|split; [|done]].
    + split; simpl; [by rewrite Hn|done..|]. intros a b. rewrite He, Hed. split.
      * intros [?%elem_of_nil|(s & x & (j & Hj)%list_elem_of_lookup & Hb & Hx & Ha)]; [done|].
        apply Hsi in Hb, Ha. pose proof (lookup_ids j s Hj) as Hs.
        rewrite (NoDup_lookup _ _ _ _ Hnodup Hs Hb) in Hj. eauto.
      * intros (s & x & Hs & Ha & Hx). right. exists s, x. split_and!; [by eapply list_elem_of_lookup_2| |done|].
        { by apply Hsi, lookup_ids. } by apply Hsi.
    + intros s x Hs Hx. destruct (Hk s x Hs Hx) as (i & Hi). apply Hsi in Hi.
      by eapply list_elem_of_lookup_2.
  - right. exists s, x. split_and!; [done..| |done]. intros (i & Hx')%list_elem_of_lookup.
    apply Hsi in Hx'. congruence.
Qed.

(** Cycles of the graph are cycles of the dependencies. *)
Lemma cyclic_depends dag :
  dag_of d dag → deps_known d → cyclic (graph dag) ↔ ∃ x, tc (depends d) x x.
Proof using All.
  intros [_ _ Hix Hed] Hk. split.
  - intros (i & Hi). exists (default ""%string (ids d !! i)).
    revert Hi. apply (tc_congruence (λ i, default ""%string (ids d !! i))). intros a b Hab.
    apply Hed in Hab as (s & x & Hs & Ha & Hx). rewrite Ha, (lookup_ids b s Hs). simpl.
    exists s. split_and!; [by eapply list_elem_of_lookup_2|done..].
  - intros (x & Hx). exists (default 0%nat (step_index dag !! x)).
    revert Hx. apply (tc_congruence (λ x, default 0%nat (step_index dag !! x))).
    intros a b (s & Hs & <- & Ha). unfold edge. rewrite Hed. pose proof (Hk _ _ Hs Ha) as Hin.
    apply list_elem_of_lookup in Hin as (i & Hi), Hs as (j & Hj). exists s, a.
    rewrite (proj2 (Hix _ _) Hi), (proj2 (Hix _ _) (lookup_ids _ _ Hj)). done.
Qed.

Lemma from_workflow_Ok dag :
  from_workflow d = Ok dag → dag_of d dag ∧ deps_known d ∧ ¬ cyclic (graph dag).
Proof using All.
  intros Hf. destruct from_workflow_cases as [(g & Hg & Hk & He)|(s & x & _ & _ & _ & He)];
    [|congruence].
  rewrite Hf in He. destruct (is_cyclic_directed (graph g)) eqn:Hc; simplify_eq.
  split_and!; [done..|]. rewrite <- is_cyclic_spec. by rewrite Hc.
Qed.
End Built.

(** ** Which definitions are accepted *)

(** C36: exactly the well-formed dependency graphs are accepted: for a definition
    whose step ids are distinct, [from_workflow] never panics; it fails with
    the name of a step and of a dependency of it that no step has, or, when
    every dependency is known, because some step depends on itself through a
    chain of dependencies; otherwise it succeeds. *)
Theorem from_workflow_accepts d :
  NoDup (ids d) →
  match from_workflow d with
  | Ok _ => deps_known d ∧ ¬ ∃ x, tc (depends d) x x
  | Err e =>
      (∃ s x, s ∈ steps d ∧ x ∈ depends_on s ∧ x ∉ ids d ∧ e = unknown_step (step_id s) x) ∨
      (deps_known d ∧ (∃ x, tc (depends d) x x) ∧
       e = "Workflow contains cyclic dependencies"%string)
  | Panic => False
  end.
Proof.
  intros Hn. destruct (from_workflow_cases d Hn) as [(g & Hg & Hk & ->)|(s & x & Hs & Hx & Hi & ->)];
    [|left; eauto 8].
  pose proof (cyclic_depends d Hn g Hg Hk) as Hc. rewrite <- is_cyclic_spec in Hc.
  destruct (is_cyclic_directed (graph g)); [right|]; naive_solver.
Qed.

(** ** The execution order *)

Lemma precedes_prefix {A} (l pre post : list A) a x :
  NoDup l → l = pre ++ x :: post → precedes l a x → a ∈ pre.
Proof.
  intros Hn -> (i & j & Hij & Hi & Hj).
  assert (j = length pre) as ->.
  { eapply NoDup_lookup; [exact Hn|exact Hj|]. by apply list_lookup_middle. }
  rewrite lookup_app_l in Hi by done. by eapply list_elem_of_lookup_2.
Qed.

Lemma omap_seq {A} (pre l : list A) : omap (λ i, (pre ++ l) !! i) (seq (length pre) (length l)) = l.
Proof.
  revert pre. induction l as [|x l IH]; intros pre; [done|]. simpl.
  rewrite list_lookup_middle by done. f_equal.
  specialize (IH (pre ++ [x])). rewrite length_app, <- app_assoc in IH. simpl in IH.
  by rewrite Nat.add_1_r in IH.
Qed.

Lemma omap_perm {A} (l : list A) k : k ≡ₚ seq 0 (length l) → omap (λ i, l !! i) k ≡ₚ l.
Proof. intros ->. by pose proof (omap_seq [] l) as Hs; simpl in Hs; rewrite Hs. Qed.

Lemma omap_split {A B} (f : A → option B) l pre y post :
  omap f l = pre ++ y :: post →
  ∃ lp x lq, l = lp ++ x :: lq ∧ omap f lp = pre ∧ f x = Some y ∧ omap f lq = post.
Proof.
  revert pre. induction l as [|x l IH]; intros pre Hl; [by destruct pre|]. simpl in Hl.
  destruct (f x) as [z|] eqn:Hx.
  - destruct pre as [|z' pre]; simplify_eq/=.
    + by exists [], x, l.
    + destruct (IH pre) as (lp & x' & lq & -> & <- & ? & ?); [done|].
      exists (x :: lp), x', lq. simpl. by rewrite Hx.
  - destruct (IH pre Hl) as (lp & x' & lq & -> & <- & ? & ?).
    exists (x :: lp), x', lq. simpl. by rewrite Hx.
Qed.

Lemma dag_dep_edge d dag :
  dag_of d dag → deps_known d → ∀ i s x, steps d !! i = Some s → x ∈ depends_on s →
  ∃ a t, steps d !! a = Some t ∧ step_id t = x ∧ (a, i) ∈ graph_edges (graph dag).
Proof.
  intros Hdag Hk i s x Hi Hx.
  pose proof (Hk s x (list_elem_of_lookup_2 _ _ _ Hi) Hx) as (a & Ha)%list_elem_of_lookup.
  destruct (lookup_ids_inv _ _ _ Ha) as (t & Ht & <-). exists a, t.
  split_and!; [done..|]. apply (dag_edges _ _ Hdag). eauto.
Qed.

Section Sorted.
Context d dag (Hdag : dag_of d dag) (Hacyclic : ¬ cyclic (graph dag)).

Lemma sorted_nodes_Ok :
  ∃ l, sorted_nodes dag = Ok l ∧ l ≡ₚ seq 0 (length (steps d)) ∧
    ∀ a b, (a, b) ∈ graph_edges (graph dag) → precedes l a b.
Proof using All.
  unfold sorted_nodes. destruct (toposort (graph dag)) as [l|] eqn:Ht.
  - exists l. split; [done|]. apply toposort_spec in Ht.
    by rewrite (dag_nodes _ _ Hdag) in Ht; unfold ids in Ht; rewrite length_map in Ht.
  - by apply toposort_total in Ht.
Qed.

Lemma step_at_Ok i s : step_at dag i = Ok s ↔ steps d !! i = Some s.
Proof using Hdag.
  unfold step_at. rewrite (dag_steps _ _ Hdag). destruct (steps d !! i); naive_solver.
Qed.

Lemma steps_at_Ok l : l ⊆ seq 0 (length (steps d)) →
  result_mapM (step_at dag) l = Ok (omap (λ i, steps d !! i) l).
Proof using Hdag.
  induction l as [|i l IH]; intros Hl; [done|]. simpl.
  assert (i ∈ seq 0 (length (steps d))) as Hi by (apply Hl; left).
  apply elem_of_seq in Hi. destruct (lookup_lt_is_Some_2 (steps d) i) as (s & Hs); [lia|].
  rewrite Hs, (proj2 (step_at_Ok i s) Hs), IH; [done|]. intros j Hj. apply Hl. by right.
Qed.

End Sorted.

(** The execution order runs every step once and after its dependencies:
    for an accepted definition with distinct ids, [execution_order] succeeds
    with a permutation of the steps in which each dependency of a step is the
    id of an earlier one. *)
Theorem execution_order_respects d dag :
  NoDup (ids d) → from_workflow d = Ok dag →
  ∃ order, execution_order dag = Ok order ∧ order ≡ₚ steps d ∧
    ∀ pre s post x, order = pre ++ s :: post → x ∈ depends_on s → x ∈ map step_id pre.
Proof.
  intros Hn Hf. destruct (from_workflow_Ok d Hn dag Hf) as (Hdag & Hk & Hc).
  destruct (sorted_nodes_Ok d dag Hdag Hc) as (l & Hs & Hp & He).
  unfold execution_order. rewrite Hs. simpl.
  rewrite (steps_at_Ok d dag Hdag) by (by rewrite Hp).
  exists (omap (λ i, steps d !! i) l). split; [done|]. split; [by apply omap_perm|].
  intros pre s post x Ho Hx. apply omap_split in Ho as (lp & i & lq & -> & <- & Hi & _).
  destruct (dag_dep_edge d dag Hdag Hk i s x Hi Hx) as (a & t & Ha & <- & Hedge).
  apply He in Hedge.
  assert (a ∈ lp) as Hin by (eapply precedes_prefix; [|done..]; rewrite Hp; apply NoDup_seq).
  apply list_elem_of_fmap. exists t. split; [done|]. apply list_elem_of_omap. eauto.
Qed.

(** ** The parallel batches *)

(** The level of a node is above those of its visited predecessors and is zero
    or just above one of them. *)
Lemma node_level_spec (visited : gmap nat nat) preds :
  (∀ a la, a ∈ preds → visited !! a = Some la → (la < node_level visited preds)%nat) ∧
  (∀ lv, node_level visited preds = S lv → ∃ a, a ∈ preds ∧ visited !! a = Some lv).
Proof.
  unfold node_level. induction preds as [|p preds IH] using rev_ind; [split; [set_solver|done]|].
  rewrite fold_left_app. simpl. destruct IH as [IH1 IH2].
  set (lv0 := fold_left _ preds 0%nat) in *. split.
  - intros a la Ha Hla. apply elem_of_app in Ha as [Ha|Ha%list_elem_of_singleton]; [|subst a].
    + specialize (IH1 a la Ha Hla). destruct (visited !! p); lia.
    + rewrite Hla. lia.
  - intros lv Hlv. destruct (visited !! p) as [lp|] eqn:Hp.
    + destruct (decide (lv0 ≤ lp)%nat).
      * exists p. rewrite Hp. split; [set_solver|f_equal; lia].
      * destruct (IH2 lv) as (a & ? & ?); [lia|]. exists a. set_solver.
    + destruct (IH2 lv Hlv) as (a & ? & ?). exists a. set_solver.
Qed.

Lemma push_batch_le (bs : list (list Step)) lv s :
  (lv ≤ length bs)%nat →
  push_batch bs lv s =
    if decide (lv = length bs) then bs ++ [[s]] else alter (λ b, b ++ [s]) lv bs.
Proof.
  intros Hlv. unfold push_batch. case_decide as Hd.
  - subst lv. replace (S (length bs) - length bs)%nat with 1%nat by lia. simpl.
    rewrite alter_app_r_alt by lia. by rewrite Nat.sub_diag.
  - replace (S lv - length bs)%nat with 0%nat by lia. simpl. by rewrite app_nil_r.
Qed.

Lemma push_batch_lookup bs lv s l :
  (lv ≤ length bs)%nat →
  push_batch bs lv s !! l =
    if decide (l = lv) then Some (default [] (bs !! lv) ++ [s]) else bs !! l.
Proof.
  intros Hlv. rewrite push_batch_le by done. repeat case_decide; subst.
  - rewrite list_lookup_middle by done. by rewrite lookup_ge_None_2 by lia.
  - destruct (decide (l < length bs)%nat); [by rewrite lookup_app_l|].
    rewrite !lookup_ge_None_2; [done|lia|rewrite length_app; simpl; lia].
  - rewrite list_lookup_alter_eq. destruct (lookup_lt_is_Some_2 bs lv) as (b & ->); [lia|done].
  - by rewrite list_lookup_alter_ne by done.
Qed.

Lemma concat_alter_perm (bs : list (list Step)) lv s :
  (lv < length bs)%nat → concat (alter (λ b, b ++ [s]) lv bs) ≡ₚ s :: concat bs.
Proof.
  revert lv. induction bs as [|b bs IH]; intros [|lv] Hlv; simpl in *; [lia..| |].
  - rewrite <- app_assoc. symmetry. apply Permutation_middle.
  - change (b ++ concat (alter (λ b, b ++ [s]) lv bs) ≡ₚ s :: b ++ concat bs).
    rewrite IH by lia. symmetry. apply Permutation_middle.
Qed.

Lemma push_batch_concat bs lv s :
  (lv ≤ length bs)%nat → concat (push_batch bs lv s) ≡ₚ s :: concat bs.
Proof.
  intros Hlv. rewrite push_batch_le by done. case_decide.
  - rewrite concat_app. simpl. by rewrite Permutation_app_comm.
  - apply concat_alter_perm. lia.
Qed.

Section Batches.
Context d dag (Hdag : dag_of d dag) (Hacyclic : ¬ cyclic (graph dag)).

(** What the loop knows after the nodes [pre]. *)
Record batches_inv (pre : list nat) (st : list (list Step) * gmap nat nat) : Prop := {
  bi_dom : ∀ i, is_Some (st.2 !! i) ↔ i ∈ pre;
  bi_above : ∀ a i lv, st.2 !! i = Some lv → (a, i) ∈ graph_edges (graph dag) →
    ∃ la, st.2 !! a = Some la ∧ (la < lv)%nat;
  bi_just : ∀ i lv, st.2 !! i = Some (S lv) →
    ∃ a, (a, i) ∈ graph_edges (graph dag) ∧ st.2 !! a = Some lv;
  bi_perm : concat st.1 ≡ₚ omap (λ i, steps d !! i) pre;
  bi_in : ∀ l b s, st.1 !! l = Some b → s ∈ b → ∃ i, steps d !! i = Some s ∧ st.2 !! i = Some l;
  bi_out : ∀ i l, st.2 !! i = Some l → ∃ b s, st.1 !! l = Some b ∧ steps d !! i = Some s ∧ s ∈ b;
  bi_nonempty : [] ∉ st.1;
}.

Lemma batches_inv_empty : batches_inv [] ([], ∅).
Proof.
  split; simpl; try done; intros; rewrite ?lookup_empty in *; try done; try set_solver.
Qed.

(** The level of the next node fits the batches there are. *)
Lemma next_level_le pre st preds :
  batches_inv pre st → (node_level st.2 preds ≤ length st.1)%nat.
Proof.
  intros Hst. destruct (node_level st.2 preds) as [|lv] eqn:Hlv; [lia|].
  destruct (proj2 (node_level_spec st.2 preds) lv Hlv) as (a & _ & Ha).
  destruct (bi_out _ _ Hst a lv Ha) as (b & s & Hb & _). by apply lookup_lt_Some in Hb.
Qed.

Lemma batch_step_inv pre x st :
  x ∉ pre → (x < length (steps d))%nat →
  (∀ a, (a, x) ∈ graph_edges (graph dag) → a ∈ pre) →
  batches_inv pre st →
  ∃ st', batch_step dag st x = Ok st' ∧ batches_inv (pre ++ [x]) st'.
Proof using All.
  intros Hx Hlt Hpre Hst. destruct st as [bs vis]. unfold batch_step.
  destruct (lookup_lt_is_Some_2 (steps d) x Hlt) as (s & Hs).
  rewrite (proj2 (step_at_Ok d dag Hdag x s) Hs). cbn.
  set (preds := neighbors_directed _ _ _). set (lv := node_level vis preds).
  pose proof (next_level_le pre (bs, vis) preds Hst : lv ≤ length bs)%nat as Hlv.
  destruct (node_level_spec vis preds) as [Habove Hjust]. fold lv in Habove, Hjust.
  eexists. split; [reflexivity|]. destruct Hst as [Hdom Hab Hju Hperm Hin Hout Hne]; simpl in *.
  assert (Hnx : vis !! x = None) by (apply eq_None_not_Some; by rewrite Hdom).
  assert (Hkeep : ∀ i l, vis !! i = Some l → <[x := lv]> vis !! i = Some l).
  { intros i l Hi. rewrite lookup_insert_ne; [done|]. intros ->. congruence. }
  split; simpl.
  - intros i. rewrite lookup_insert_is_Some', Hdom, elem_of_app, list_elem_of_singleton. naive_solver.
  - intros a i l Hi Hedge. apply lookup_insert_Some in Hi as [(<- & <-)|(Hne' & Hi)].
    + destruct (proj2 (Hdom a) (Hpre a Hedge)) as (la & Hla). exists la. split; [by apply Hkeep|].
      apply (Habove a); [by apply neighbors_incoming|done].
    + destruct (Hab a i l Hi Hedge) as (la & ? & ?). eauto.
  - intros i l Hi. apply lookup_insert_Some in Hi as [(<- & Hl)|(Hne' & Hi)].
    + destruct (Hjust l Hl) as (a & Ha & Hla). exists a. split; [by apply neighbors_incoming|auto].
    + destruct (Hju i l Hi) as (a & ? & ?). eauto.
  - rewrite push_batch_concat by done. rewrite Hperm, omap_app. simpl. rewrite Hs.
    by rewrite Permutation_app_comm.
  - intros l b t Hb Ht. rewrite push_batch_lookup in Hb by done. case_decide as Hd; simplify_eq.
    + apply elem_of_app in Ht as [Ht|Ht%list_elem_of_singleton].
      * destruct (bs !! lv) as [b|] eqn:Hb; simpl in Ht; [|by apply elem_of_nil in Ht].
        destruct (Hin _ _ _ Hb Ht) as (i & ? & ?). eauto.
      * subst t. exists x. by rewrite lookup_insert_eq.
    + destruct (Hin _ _ _ Hb Ht) as (i & ? & ?). eauto.
  - intros i l Hi. rewrite push_batch_lookup by done.
    apply lookup_insert_Some in Hi as [(<- & <-)|(Hne' & Hi)].
    + rewrite decide_True by done. eexists _, s. split_and!; [done..|set_solver].
    + destruct (Hout i l Hi) as (b & t & Hb & Ht & Hin'). case_decide as Hd; subst.
      * rewrite Hb. simpl. exists (b ++ [s]), t. set_solver.
      * eauto.
  - intros (l & Hl)%list_elem_of_lookup. rewrite push_batch_lookup in Hl by done.
    case_decide; simplify_eq; [by destruct (default [] (bs !! lv))|].
    by apply Hne, (list_elem_of_lookup_2 _ l).
Qed.

Lemma batches_run :
  ∃ st l, sorted_nodes dag = Ok l ∧ result_foldM (batch_step dag) ([], ∅) l = Ok st ∧
    l ≡ₚ seq 0 (length (steps d)) ∧ batches_inv l st.
Proof using All.
  destruct (sorted_nodes_Ok d dag Hdag Hacyclic) as (l & Hs & Hp & He).
  assert (Hn : NoDup l) by (rewrite Hp; apply NoDup_seq).
  destruct (result_foldM_prefix (batch_step dag) batches_inv l ([], ∅)) as (st & Hf & Hi);
    [apply batches_inv_empty| |by exists st, l].
  intros pre x post st Hl Hst. apply batch_step_inv; [| |by eauto using precedes_prefix|done].
  - rewrite Hl in Hn. apply NoDup_app in Hn as (_ & Hn & _). intros Hx. apply (Hn x Hx). by left.
  - assert (x ∈ l) as Hx by (rewrite Hl; set_solver). rewrite Hp in Hx. apply elem_of_seq in Hx. lia.
Qed.
End Batches.

(** C27: parallel batches are the levels of the graph: for an accepted definition
    with distinct ids, [parallel_batches] succeeds; the batches together hold
    every step once and none is empty; each dependency of a step is in an
    earlier batch, so the steps of a batch can run side by side; and a step
    outside the first batch has a dependency in the batch just before its own,
    so no step could be scheduled earlier. *)
Theorem parallel_batches_levels d dag :
  NoDup (ids d) → from_workflow d = Ok dag →
  ∃ batches, parallel_batches dag = Ok batches ∧
    concat batches ≡ₚ steps d ∧ [] ∉ batches ∧
    (∀ l b s x, batches !! l = Some b → s ∈ b → x ∈ depends_on s →
       ∃ l' b' t, (l' < l)%nat ∧ batches !! l' = Some b' ∧ t ∈ b' ∧ step_id t = x) ∧
    (∀ l b s, batches !! S l = Some b → s ∈ b →
       ∃ b' t, batches !! l = Some b' ∧ t ∈ b' ∧ step_id t ∈ depends_on s).
Proof.
  intros Hn Hf. destruct (from_workflow_Ok d Hn dag Hf) as (Hdag & Hk & Hc).
  destruct (batches_run d dag Hdag Hc) as (st & l & Hs & Hr & Hp & Hi).
  unfold parallel_batches. rewrite Hs. simpl. rewrite Hr. simpl. exists st.1. split; [done|].
  split; [rewrite (bi_perm _ _ _ _ Hi); by apply omap_perm|].
  split; [apply (bi_nonempty _ _ _ _ Hi)|]. split.
  - intros lv b s x Hb Hsb Hx. destruct (bi_in _ _ _ _ Hi lv b s Hb Hsb) as (i & His & Hlv).
    destruct (dag_dep_edge d dag Hdag Hk i s x His Hx) as (a & t & Ha & <- & He).
    destruct (bi_above _ _ _ _ Hi a i lv Hlv He) as (la & Hla & Hlt).
    destruct (bi_out _ _ _ _ Hi a la Hla) as (b' & t' & Hb' & Ht & Hin). simplify_eq. eauto 8.
  - intros lv b s Hb Hsb. destruct (bi_in _ _ _ _ Hi (S lv) b s Hb Hsb) as (i & His & Hlv).
    destruct (bi_just _ _ _ _ Hi i lv Hlv) as (a & He & Ha).
    destruct (bi_out _ _ _ _ Hi a lv Ha) as (b' & t & Hb' & Ht & Hin). exists b', t.
    split_and!; [done..|]. apply (dag_edges _ _ Hdag) in He as (s' & x & Hs' & Hx & Hdep).
    rewrite (lookup_ids d a t Ht) in Hx. by simplify_eq.
Qed.
End Facts.
