(* ===== verification/WorkflowEngine.v ===== *)
(** * The workflow registry

    Models the registry of [orchestration/workflow/engine.rs] of the core:
    registering, restoring, updating, deleting and counting executions of
    workflows, with the persistence callback and the undoing of a change that
    could not be persisted.  Running a workflow is not modelled.

    Each change holds the registry's lock, releases it, calls the callback and
    takes the lock again to undo the change if the callback failed: a change is
    a [begin] on the registry, a call, and a [finish].  [run] is one change
    without interference, [engine_step] the interleavings of several. *)

From Stdlib Require Import ZArith Lia Ascii.
From stdpp Require Import base numbers option strings gmap list relations.
From S2P Require Import Prelude RustStd WorkflowDefinition WorkflowDag.

Local Open Scope Z_scope.

(** An [anyhow] error: its contexts, outermost first, and the root message. *)
Definition Error : Type := list string.

Definition context {A} (msg : string) (r : result string A) : result Error A :=
  match r with
  | Ok a => Ok a
  | Err e => Err [msg; e]
  | Panic => Panic
  end.

Section Engine.
Context {Value : Type} `{PetGraph} (overflow_checks : bool).

(** ** Data *)

Record RegisteredWorkflow : Type := {
  rw_id : string;
  rw_name : string;
  rw_description : option string;
  rw_tags : list string;
  rw_definition : WorkflowDefinition Value;
  rw_version : string;
  rw_created_at : Z;
  rw_execution_count : Z;
  rw_last_executed_at : option Z;
}.

Record WorkflowMetadata : Type := {
  wm_id : string;
  wm_name : string;
  wm_description : option string;
  wm_tags : list string;
  wm_definition : WorkflowDefinition Value;
  wm_version : string;
  wm_created_at : Z;
  wm_execution_count : Z;
  wm_last_executed_at : option Z;
}.

Definition to_metadata (w : RegisteredWorkflow) : WorkflowMetadata :=
  {| wm_id := rw_id w; wm_name := rw_name w; wm_description := rw_description w;
     wm_tags := rw_tags w; wm_definition := rw_definition w; wm_version := rw_version w;
     wm_created_at := rw_created_at w; wm_execution_count := rw_execution_count w;
     wm_last_executed_at := rw_last_executed_at w |}.

Definition from_metadata (m : WorkflowMetadata) : RegisteredWorkflow :=
  {| rw_id := wm_id m; rw_name := wm_name m; rw_description := wm_description m;
     rw_tags := wm_tags m; rw_definition := wm_definition m; rw_version := wm_version m;
     rw_created_at := wm_created_at m; rw_execution_count := wm_execution_count m;
     rw_last_executed_at := wm_last_executed_at m |}.

Inductive WorkflowPersistenceEvent : Type :=
  | Upsert (metadata : WorkflowMetadata)
  | Delete (workflow_id : string).

(** The map behind the lock. *)
Abbreviation registry := (gmap string RegisteredWorkflow).

(** What a change does if the callback fails. *)
Inductive undo : Type :=
  | UndoRemove (workflow_id : string)
  | UndoInsert (workflow_id : string) (w : RegisteredWorkflow)
  | UndoCounters (workflow_id : string) (count : Z) (last : option Z).

Definition set_counters (count : Z) (last : option Z) (w : RegisteredWorkflow) : RegisteredWorkflow :=
  {| rw_id := rw_id w; rw_name := rw_name w; rw_description := rw_description w;
     rw_tags := rw_tags w; rw_definition := rw_definition w; rw_version := rw_version w;
     rw_created_at := rw_created_at w; rw_execution_count := count; rw_last_executed_at := last |}.

Definition apply_undo (u : undo) (r : registry) : registry :=
  match u with
  | UndoRemove i => delete i r
  | UndoInsert i w => <[i := w]> r
  | UndoCounters i count last => alter (set_counters count last) i r
  end.

Inductive answer : Type :=
  | AnswerId (workflow_id : string)
  | AnswerMetadata (metadata : WorkflowMetadata)
  | AnswerUnit.

(** A change between its two uses of the lock. *)
Record change : Type := {
  ch_event : WorkflowPersistenceEvent;
  ch_undo : undo;
  ch_context : string;
  ch_answer : answer;
}.

(** ** Checks *)

(** [definition.validate()] and [DagExecutor::from_workflow] with their contexts. *)
Definition check_definition (d : WorkflowDefinition Value) (dag_context : string)
    : result Error unit :=
  context "Invalid workflow definition" (validate d);;
  context dag_context (from_workflow d);;
  Ok tt.

(** [WorkflowEngine::validate_workflow]. *)
Definition validate_workflow (d : WorkflowDefinition Value) : result string unit :=
  validate d;;
  from_workflow d;;
  Ok tt.

(** ** The first half of each change *)

(** [WorkflowEngine::register_workflow]. *)
Definition register_begin (workflow_id name : string) (definition : WorkflowDefinition Value)
    (description : option string) (tags : list string) (now : Z) (r : registry)
    : result Error (registry * change) :=
  check_definition definition "Failed to build DAG from workflow";;
  if bool_decide (is_Some (r !! workflow_id)) then Err ["Workflow already exists: " +:+ workflow_id]
  else
    let w := {| rw_id := workflow_id; rw_name := name; rw_description := description;
                rw_tags := tags; rw_definition := definition; rw_version := "1.0.0";
                rw_created_at := now; rw_execution_count := 0; rw_last_executed_at := None |} in
    Ok (<[workflow_id := w]> r,
        {| ch_event := Upsert (to_metadata w); ch_undo := UndoRemove workflow_id;
           ch_context := "Failed to persist workflow metadata";
           ch_answer := AnswerId workflow_id |}).

Definition not_found (workflow_id : string) : Error := ["Workflow not found: " +:+ workflow_id].

(** [str::parse::<u32>]: an optional plus sign, digits, no overflow. *)
Definition u32_from_str (s : string) : option Z :=
  z ← match s with String "+" r => parse_digits r | _ => parse_digits s end;
  if z <? 2 ^ 32 then Some z else None.

(** The next version: the first dotted part plus one. *)
Definition next_version (version : string) : result Error string :=
  match str_split version "." with
  | [] => Panic
  | part :: _ =>
      let major := default 1 (u32_from_str part) in
      next ← (if major + 1 <? 2 ^ 32 then Ok (major + 1)
              else if overflow_checks then Panic else Ok ((major + 1) mod 2 ^ 32));
      Ok (i64_to_string next +:+ ".0.0")
  end.

(** [WorkflowEngine::update_workflow]. *)
Definition update_begin (workflow_id name : string) (description : option string)
    (tags : list string) (definition : WorkflowDefinition Value) (r : registry)
    : result Error (registry * change) :=
  check_definition definition "Failed to build DAG from workflow";;
  w ← ok_or (r !! workflow_id) (not_found workflow_id);
  version ← next_version (rw_version w);
  let w' := {| rw_id := rw_id w; rw_name := name; rw_description := description;
               rw_tags := tags; rw_definition := definition; rw_version := version;
               rw_created_at := rw_created_at w; rw_execution_count := rw_execution_count w;
               rw_last_executed_at := rw_last_executed_at w |} in
  Ok (<[workflow_id := w']> r,
      {| ch_event := Upsert (to_metadata w'); ch_undo := UndoInsert workflow_id w;
         ch_context := "Failed to persist updated workflow metadata";
         ch_answer := AnswerMetadata (to_metadata w') |}).

(** [WorkflowEngine::delete_workflow]. *)
Definition delete_begin (workflow_id : string) (r : registry) : result Error (registry * change) :=
  w ← ok_or (r !! workflow_id) (not_found workflow_id);
  Ok (delete workflow_id r,
      {| ch_event := Delete workflow_id; ch_undo := UndoInsert workflow_id w;
         ch_context := "Failed to delete persisted workflow metadata";
         ch_answer := AnswerUnit |}).

(** [execution_count += 1] on a [u64]. *)
Definition u64_succ (n : Z) : result Error Z :=
  if n + 1 <? 2 ^ 64 then Ok (n + 1)
  else if overflow_checks then Panic else Ok ((n + 1) mod 2 ^ 64).

(** [WorkflowEngine::record_execution]. *)
Definition record_begin (workflow_id : string) (now : Z) (r : registry)
    : result Error (registry * change) :=
  w ← ok_or (r !! workflow_id) (not_found workflow_id);
  count ← u64_succ (rw_execution_count w);
  let w' := set_counters count (Some now) w in
  Ok (<[workflow_id := w']> r,
      {| ch_event := Upsert (to_metadata w');
         ch_undo := UndoCounters workflow_id (rw_execution_count w) (rw_last_executed_at w);
         ch_context := "Failed to persist workflow execution metadata";
         ch_answer := AnswerUnit |}).

(** The methods that change the registry and persist the change. *)
Inductive command : Type :=
  | RegisterWorkflow (workflow_id name : string) (definition : WorkflowDefinition Value)
      (description : option string) (tags : list string) (now : Z)
  | UpdateWorkflow (workflow_id name : string) (description : option string)
      (tags : list string) (definition : WorkflowDefinition Value)
  | DeleteWorkflow (workflow_id : string)
  | RecordExecution (workflow_id : string) (now : Z).

Definition begin (c : command) : registry → result Error (registry * change) :=
  match c with
  | RegisterWorkflow i n d ds ts now => register_begin i n d ds ts now
  | UpdateWorkflow i n ds ts d => update_begin i n ds ts d
  | DeleteWorkflow i => delete_begin i
  | RecordExecution i now => record_begin i now
  end.

(** The second half: undo the change if it was not persisted. *)
Definition finish (ch : change) (persisted : result Error unit) (r : registry)
    : registry * result Error answer :=
  match persisted with
  | Ok _ => (r, Ok (ch_answer ch))
  | Err e => (apply_undo (ch_undo ch) r, Err (ch_context ch :: e))
  | Panic => (r, Panic)
  end.

(** ** Reading and restoring *)

(** [WorkflowEngine::hydrate_workflow]. *)
Definition hydrate_workflow (m : WorkflowMetadata) (r : registry) : result Error registry :=
  check_definition (wm_definition m) "Failed to build DAG from persisted workflow";;
  if bool_decide (is_Some (r !! wm_id m)) then Err ["Workflow already exists: " +:+ wm_id m]
  else Ok (<[wm_id m := from_metadata m]> r).

(** [get_workflow], [get_workflow_definition] and [list_workflows]. *)
Definition get_workflow (workflow_id : string) (r : registry) : option WorkflowMetadata :=
  to_metadata <$> r !! workflow_id.

Definition get_workflow_definition (workflow_id : string) (r : registry)
    : result Error (WorkflowDefinition Value) :=
  ok_or (rw_definition <$> r !! workflow_id) (not_found workflow_id).

Definition list_workflows (r : registry) : list (string * WorkflowMetadata) :=
  prod_map id to_metadata <$> map_to_list r.

Record WorkflowSummary : Type := {
  su_id : string;
  su_name : string;
  su_version : string;
  su_step_count : nat;
  su_created_at : Z;
  su_execution_count : Z;
  su_last_executed_at : option Z;
}.

(** [WorkflowEngine::list_workflow_summaries]. *)
Definition list_workflow_summaries (r : registry) : list WorkflowSummary :=
  (λ '(_, w),
    {| su_id := rw_id w; su_name := rw_name w; su_version := rw_version w;
       su_step_count := length (steps (rw_definition w)); su_created_at := rw_created_at w;
       su_execution_count := rw_execution_count w;
       su_last_executed_at := rw_last_executed_at w |}) <$> map_to_list r.

(** ** The callback *)

Section Callback.
Context {W : Type}.
Definition callback : Type := WorkflowPersistenceEvent → W → W * result Error unit.

(** [persist_workflow_metadata_change]; without a callback nothing happens. *)
Definition persist_workflow_metadata_change (cb : option callback)
    (event : WorkflowPersistenceEvent) (w : W) : W * result Error unit :=
  match cb with
  | Some cb => cb event w
  | None => (w, Ok tt)
  end.

(** One method call with nothing in between. *)
Definition run (cb : option callback) (c : command) (st : registry * W)
    : registry * W * result Error answer :=
  match begin c st.1 with
  | Ok (r, ch) =>
      let '(w, persisted) := persist_workflow_metadata_change cb (ch_event ch) st.2 in
      let '(r, a) := finish ch persisted r in (r, w, a)
  | Err e => (st.1, st.2, Err e)
  | Panic => (st.1, st.2, Panic)
  end.

Definition run_all (cb : option callback) (cs : list command) (st : registry * W) : registry * W :=
  fold_left (λ st c, (run cb c st).1) cs st.

(** ** Interleavings *)

(** The registry, the callback's world and the changes under way, each with the
    result of the callback once it has returned. *)
Record engine_state : Type := {
  es_registry : registry;
  es_world : W;
  es_pending : list (change * option (result Error unit));
}.

Inductive engine_step (cb : option callback) : engine_state → engine_state → Prop :=
  | step_begin c st r ch :
      begin c (es_registry st) = Ok (r, ch) →
      engine_step cb st {| es_registry := r; es_world := es_world st;
                           es_pending := es_pending st ++ [(ch, None)] |}
  | step_call st p q ch w res :
      es_pending st = p ++ (ch, None) :: q →
      persist_workflow_metadata_change cb (ch_event ch) (es_world st) = (w, res) →
      engine_step cb st {| es_registry := es_registry st; es_world := w;
                           es_pending := p ++ (ch, Some res) :: q |}
  | step_finish st p q ch res :
      es_pending st = p ++ (ch, Some res) :: q →
      engine_step cb st {| es_registry := (finish ch res (es_registry st)).1;
                           es_world := es_world st; es_pending := p ++ q |}
  | step_hydrate st m r :
      hydrate_workflow m (es_registry st) = Ok r →
      engine_step cb st {| es_registry := r; es_world := es_world st;
                           es_pending := es_pending st |}.

(** [WorkflowEngine::new]. *)
Definition new_engine (w : W) : engine_state :=
  {| es_registry := ∅; es_world := w; es_pending := [] |}.
End Callback.
End Engine.
Arguments RegisteredWorkflow : clear implicits.
Arguments WorkflowMetadata : clear implicits.
Arguments WorkflowPersistenceEvent : clear implicits.
Arguments undo : clear implicits.
Arguments change : clear implicits.
Arguments command : clear implicits.
Arguments callback : clear implicits.
Arguments engine_state : clear implicits.
