(* ===== verification/WorkflowEngineFacts.v ===== *)
(** * What the workflow registry promises

    Theorems about [WorkflowEngine.v]: an invariant of every interleaving, the
    registry as a mirror of what was persisted when changes do not overlap, and
    what an undone change destroys when they do. *)

From Stdlib Require Import ZArith Lia.
From stdpp Require Import base numbers option strings gmap list relations.
From S2P Require Import Prelude RustStd WorkflowDefinition WorkflowDag WorkflowEngine.

Local Open Scope Z_scope.

Section Facts.
Context {Value : Type} `{PetGraphLaws} (overflow_checks : bool).
Abbreviation registry := (gmap string (RegisteredWorkflow Value)).
Implicit Types (r : registry) (c : command Value) (d : WorkflowDefinition Value).

(** ** Accepted definitions *)

Lemma check_definition_Ok d msg :
  check_definition d msg = Ok tt ↔ validate d = Ok tt ∧ ∃ dag, from_workflow d = Ok dag.
Proof.
  unfold check_definition, context. destruct (validate d) as [[]| |]; simpl; [|naive_solver..].
  destruct (from_workflow d); simpl; naive_solver.
Qed.

(** A definition that can be scheduled. *)
Definition runnable d : Prop :=
  steps d ≠ [] ∧ NoDup (ids d) ∧ Forall (λ s, validate_step s = Ok tt) (steps d) ∧
  deps_known d ∧ ¬ ∃ x, tc (depends d) x x.

Lemma checked_runnable d msg : check_definition d msg = Ok tt → runnable d.
Proof.
  intros ((Hs & Hn & Hv)%validate_Ok & dag & Hdag)%check_definition_Ok.
  destruct (from_workflow_Ok d Hn dag Hdag) as (Hof & Hk & Hc). split_and!; try done.
  by rewrite <- (cyclic_depends d Hn dag Hof Hk).
Qed.

Lemma runnable_checked d msg : runnable d → check_definition d msg = Ok tt.
Proof.
  intros (Hs & Hn & Hv & Hk & Hc). apply check_definition_Ok.
  split; [by apply validate_Ok|].
  destruct (from_workflow_cases d Hn) as [(dag & Hof & _ & ->)|(s & x & Hin & Hx & Hno & _)].
  - destruct (is_cyclic_directed (graph dag)) eqn:Hcyc; [|eauto].
    apply is_cyclic_spec in Hcyc. by apply (cyclic_depends d Hn dag Hof Hk) in Hcyc.
  - by destruct Hno; eapply Hk.
Qed.

(** Every workflow is stored under its id and can be scheduled. *)
Definition registry_ok r : Prop :=
  ∀ i w, r !! i = Some w → rw_id w = i ∧ runnable (rw_definition w).

Definition undo_ok (u : undo Value) : Prop :=
  match u with
  | UndoInsert i w => rw_id w = i ∧ runnable (rw_definition w)
  | _ => True
  end.

Lemma registry_ok_insert r i w :
  registry_ok r → rw_id w = i ∧ runnable (rw_definition w) → registry_ok (<[i := w]> r).
Proof. intros Hr Hw j v [[<- <-]|[_ Hj]]%lookup_insert_Some; eauto. Qed.

Lemma apply_undo_ok u r : undo_ok u → registry_ok r → registry_ok (apply_undo u r).
Proof.
  intros Hu Hr. destruct u as [i|i w|i n l]; simpl.
  - intros j v [_ Hj]%lookup_delete_Some. eauto.
  - by apply registry_ok_insert.
  - intros j v Hj. destruct (decide (i = j)) as [->|Hne].
    + rewrite lookup_alter_eq in Hj. apply fmap_Some in Hj as (w & Hw & ->). exact (Hr j w Hw).
    + rewrite lookup_alter_ne in Hj by done. eauto.
Qed.

(** ** One change *)

(** What the first half of a change leaves: the undo gives the old registry back
    and the event turns the old metadata into the new. *)
Definition apply_event (e : WorkflowPersistenceEvent Value)
    (m : gmap string (WorkflowMetadata Value)) : gmap string (WorkflowMetadata Value) :=
  match e with
  | Upsert md => <[wm_id md := md]> m
  | Delete i => delete i m
  end.

Record begin_spec r r' (ch : change Value) : Prop := {
  bs_ok : registry_ok r';
  bs_undo_ok : undo_ok (ch_undo ch);
  bs_undo : apply_undo (ch_undo ch) r' = r;
  bs_event : to_metadata <$> r' = apply_event (ch_event ch) (to_metadata <$> r);
}.

Lemma set_counters_same w :
  set_counters (Value := Value) (rw_execution_count w) (rw_last_executed_at w) w = w.
Proof. by destruct w. Qed.

Lemma begin_spec_insert r i w w' u ctx a :
  registry_ok r → rw_id w' = i → runnable (rw_definition w') → r !! i = Some w →
  undo_ok u → apply_undo u (<[i := w']> r) = r →
  begin_spec r (<[i := w']> r)
    {| ch_event := Upsert (to_metadata w'); ch_undo := u; ch_context := ctx; ch_answer := a |}.
Proof.
  intros Hr Hi Hd Hw Hu Hun. split; simpl; [by apply registry_ok_insert|done..|].
  by rewrite fmap_insert, Hi.
Qed.

Lemma begin_Ok c r r' ch :
  registry_ok r → begin overflow_checks c r = Ok (r', ch) → begin_spec r r' ch.
Proof.
  intros Hr Hb. destruct c as [i n d ds ts now|i n ds ts d|i|i now]; simpl in Hb.
  - apply result_bind_Ok in Hb as ([] & Hd%checked_runnable & Hb). case_bool_decide as Hi; [done|].
    apply eq_None_not_Some in Hi. cbv zeta in Hb. simplify_eq. split; simpl; [by apply registry_ok_insert|done| |].
    + by apply delete_insert_id.
    + by rewrite fmap_insert.
  - apply result_bind_Ok in Hb as ([] & Hd%checked_runnable & Hb).
    apply result_bind_Ok in Hb as (w & Hw & Hb). destruct (r !! i) as [w0|] eqn:Hi; simplify_eq/=.
    apply result_bind_Ok in Hb as (v & _ & Hb). cbv zeta in Hb. simplify_eq. destruct (Hr i w Hi) as [Hid Hrun].
    eapply begin_spec_insert; simpl; try done. rewrite insert_insert_eq. by apply insert_id.
  - apply result_bind_Ok in Hb as (w & Hw & Hb). destruct (r !! i) as [w0|] eqn:Hi; simplify_eq/=.
    destruct (Hr i w Hi) as [Hid Hrun]. split; simpl; [|done| |].
    + intros j v [_ Hj]%lookup_delete_Some. eauto.
    + by apply insert_delete_id.
    + by rewrite fmap_delete.
  - apply result_bind_Ok in Hb as (w & Hw & Hb). destruct (r !! i) as [w0|] eqn:Hi; simplify_eq/=.
    apply result_bind_Ok in Hb as (k & _ & Hb). cbv zeta in Hb. simplify_eq. destruct (Hr i w Hi) as [Hid Hrun].
    eapply begin_spec_insert; simpl; try done. rewrite alter_insert_eq. simpl.
    apply map_eq. intros j. destruct (decide (i = j)) as [->|Hne].
    + rewrite lookup_insert_eq, Hi. by destruct w.
    + by rewrite lookup_insert_ne.
Qed.

Lemma hydrate_ok m r r' :
  registry_ok r → hydrate_workflow m r = Ok r' → registry_ok r'.
Proof.
  intros Hr Hh. unfold hydrate_workflow in Hh.
  apply result_bind_Ok in Hh as ([] & Hd%checked_runnable & Hh).
  case_bool_decide; simplify_eq. by apply registry_ok_insert.
Qed.

(** ** Every interleaving *)

Section Interleaving.
Context {W : Type} (cb : option (callback Value W)).

Definition state_ok (st : engine_state Value W) : Prop :=
  registry_ok (es_registry st) ∧ Forall (λ p, undo_ok (ch_undo p.1)) (es_pending st).

Lemma engine_step_ok st st' : engine_step overflow_checks cb st st' → state_ok st → state_ok st'.
Proof.
  intros Hstep [Hr Hp]. destruct Hstep as [c st r ch Hb|st p q ch w res Hq _|st p q ch res Hq|st m r Hh].
  - destruct (begin_Ok c _ r ch Hr Hb) as [Hr' Hu _ _]. split; simpl; [done|].
    apply Forall_app. split; [done|by repeat constructor].
  - rewrite Hq in Hp. split; simpl; [done|]. rewrite Forall_app, Forall_cons in *. naive_solver.
  - rewrite Hq in Hp. rewrite Forall_app, Forall_cons in Hp. destruct Hp as (Hp1 & Hu & Hp2).
    split; simpl; [|by apply Forall_app].
    destruct res; simpl; [done| |done]. by apply apply_undo_ok.
  - split; simpl; [by eapply hydrate_ok|done].
Qed.

(** C23: whatever changes overlap and whatever the persistence callback answers,
    every workflow in the registry is stored under its own id and can be
    scheduled: it has at least one step, its step ids are distinct, every step
    passed its validator, every dependency is a step and no step depends on
    itself through others. *)
Theorem registry_invariant w st i v :
  rtc (engine_step overflow_checks cb) (new_engine w) st →
  es_registry st !! i = Some v → rw_id v = i ∧ runnable (rw_definition v).
Proof.
  intros Hrtc. cut (state_ok st); [intros [Hr _]; apply Hr|].
  assert (Hnew : state_ok (new_engine w)) by (split; [by intros ? ?|constructor]).
  revert Hnew. induction Hrtc; [done|]. eauto using engine_step_ok.
Qed.
End Interleaving.

(** ** Restoring *)

(** The start of an engine: the persisted workflows are restored one by one. *)
Definition hydrate_all (l : list (WorkflowMetadata Value)) : result Error registry :=
  result_foldM (λ r m, hydrate_workflow m r) ∅ l.

Lemma from_to_metadata (w : RegisteredWorkflow Value) : from_metadata (to_metadata w) = w.
Proof. by destruct w. Qed.

Lemma hydrate_all_Ok (l : list (WorkflowMetadata Value)) :
  NoDup (map wm_id l) → Forall (λ m, runnable (wm_definition m)) l →
  ∃ r, hydrate_all l = Ok r ∧
    ∀ i w, r !! i = Some w ↔ ∃ m, m ∈ l ∧ wm_id m = i ∧ from_metadata m = w.
Proof.
  intros Hn Hrun.
  apply (result_foldM_prefix _ (λ pre r, ∀ i w, r !! i = Some w ↔
    ∃ m, m ∈ pre ∧ wm_id m = i ∧ from_metadata m = w)).
  { intros i w. rewrite lookup_empty. set_solver. }
  intros pre m post r -> Hr. apply Forall_app in Hrun as [_ [Hm _]%Forall_cons].
  rewrite map_app in Hn. apply NoDup_app in Hn as (_ & Hn & _). unfold hydrate_workflow.
  rewrite (runnable_checked _ _ Hm). simpl.
  assert (Hfresh : r !! wm_id m = None).
  { apply eq_None_not_Some. intros (w & (m' & Hin & Hid & _)%Hr).
    apply (Hn (wm_id m)); [|left]. rewrite <- Hid. by apply list_elem_of_fmap_2. }
  rewrite bool_decide_false by (by rewrite Hfresh; intros []). eexists. split; [reflexivity|].
  intros i w. rewrite lookup_insert_Some, Hr. split.
  - intros [[<- <-]|[Hne (m' & Hin & Hid & Hw)]]; [exists m|exists m']; set_solver.
  - intros (m' & Hin & Hid & Hw). apply elem_of_app in Hin as [Hin|Hin%list_elem_of_singleton].
    + right. split; [|eauto]. intros Heq. apply (Hn (wm_id m)); [|left].
      rewrite Heq, <- Hid. by apply list_elem_of_fmap_2.
    + subst m'. by left.
Qed.

(** ** Changes one after the other *)

Section Sequential.
Context {W : Type} (cb : callback Value W).

(** The store behind the callback: a successful call applies the event, a
    failing one leaves the store as it was. *)
Context (stored : W → gmap string (WorkflowMetadata Value)).
Context (cb_stores : ∀ e w, match cb e w with
                            | (w', Ok _) => stored w' = apply_event e (stored w)
                            | (w', Err _) => stored w' = stored w
                            | (_, Panic) => False
                            end).

Definition mirrors (st : registry * W) : Prop :=
  registry_ok st.1 ∧ stored st.2 = to_metadata <$> st.1.

Lemma run_mirrors c st :
  mirrors st →
  let '(r, w, a) := run overflow_checks (Some cb) c st in
  mirrors (r, w) ∧ match a with Ok _ => True | _ => r = st.1 end.
Proof using All.
  intros [Hr Hm]. unfold run. destruct (begin overflow_checks c st.1) as [[r ch]|e|] eqn:Hb;
    [|done..].
  destruct (begin_Ok c _ _ _ Hr Hb) as [Hr' _ Hu He]. simpl.
  pose proof (cb_stores (ch_event ch) st.2) as Hc.
  destruct (cb (ch_event ch) st.2) as [w [u|e|]]; simpl; [| |done].
  - split; [|done]. split; simpl; [done|]. by rewrite Hc, Hm, He.
  - rewrite Hu. split; [|done]. split; simpl; [done|]. by rewrite Hc.
Qed.

Lemma run_all_mirrors cs st : mirrors st → mirrors (run_all overflow_checks (Some cb) cs st).
Proof using All.
  revert st. induction cs as [|c cs IH]; intros st Hst; [done|]. simpl. apply IH.
  pose proof (run_mirrors c st Hst) as Hrun.
  destruct (run overflow_checks (Some cb) c st) as [[r w] a]. apply Hrun.
Qed.

(** The registry is what is stored: when changes do not overlap and the
    callback applies exactly the events it accepts, then after any sequence of
    registrations, updates, deletions and recorded executions, successful or
    not, the stored metadata is the metadata of the registry. *)
Lemma registry_mirrors_store cs w :
  stored w = ∅ →
  let '(r, w') := run_all overflow_checks (Some cb) cs (∅, w) in
  ∀ i, stored w' !! i = get_workflow i r.
Proof using All.
  intros Hw. destruct (run_all_mirrors cs (∅, w)) as [_ Hm].
  { split; simpl; [by intros ? ?|by rewrite Hw, fmap_empty]. }
  destruct (run_all overflow_checks (Some cb) cs (∅, w)) as [r w']. simpl in Hm.
  intros i. by rewrite Hm, lookup_fmap.
Qed.

(** A change that fails changes nothing: when changes do not overlap, a
    command that answers with an error (an invalid definition, a name taken or
    missing, or a refused write, which is undone) leaves the registry and the
    stored metadata as they were. *)
Lemma failed_change_undone cs c w r1 w1 r2 w2 e :
  stored w = ∅ →
  run_all overflow_checks (Some cb) cs (∅, w) = (r1, w1) →
  run overflow_checks (Some cb) c (r1, w1) = (r2, w2, Err e) →
  r2 = r1 ∧ stored w2 = stored w1.
Proof using All.
  intros Hw Hall Hrun. pose proof (run_all_mirrors cs (∅, w)) as Hm. rewrite Hall in Hm.
  assert (Hm1 : mirrors (r1, w1)).
  { apply Hm. split; simpl; [by intros ? ?|by rewrite Hw, fmap_empty]. }
  pose proof (run_mirrors c (r1, w1) Hm1) as Hc. rewrite Hrun in Hc. destruct Hc as [[_ Hc] ->].
  split; [done|]. destruct Hm1 as [_ Hm1]. simpl in *. congruence.
Qed.

(** Restarting loses nothing: when changes do not overlap and the callback
    applies exactly the events it accepts, then after any sequence of
    registrations, updates, deletions and recorded executions, successful or
    not, a new engine that restores the stored workflows in any order has the
    same registry. *)
Theorem restart_restores_registry cs w r w' l :
  stored w = ∅ →
  run_all overflow_checks (Some cb) cs (∅, w) = (r, w') →
  l ≡ₚ (map_to_list (stored w')).*2 →
  hydrate_all l = Ok r.
Proof using All.
  intros Hw Hrun Hl. destruct (run_all_mirrors cs (∅, w)) as [Hr Hm].
  { split; simpl; [by intros ? ?|by rewrite Hw, fmap_empty]. }
  rewrite Hrun in Hr, Hm. simpl in *.
  assert (Hin : ∀ m, m ∈ l ↔ ∃ v, r !! wm_id m = Some v ∧ m = to_metadata v).
  { intros m. rewrite Hl, list_elem_of_fmap. split.
    - intros ([i m'] & -> & Hi%elem_of_map_to_list). rewrite Hm, lookup_fmap in Hi.
      apply fmap_Some in Hi as (v & Hv & ->). simpl. destruct (Hr i v Hv) as [-> _]. eauto.
    - intros (v & Hv & ->). exists (wm_id (to_metadata v), to_metadata v). split; [done|].
      apply elem_of_map_to_list. by rewrite Hm, lookup_fmap, Hv. }
  destruct (hydrate_all_Ok l) as (r' & -> & Hr').
  - change (map wm_id l) with (wm_id <$> l). rewrite Hl, <- list_fmap_compose.
    rewrite (list_fmap_ext _ fst); [apply NoDup_fst_map_to_list|].
    intros k [i m] Hk. simpl. apply list_elem_of_lookup_2, elem_of_map_to_list in Hk.
    rewrite Hm, lookup_fmap in Hk. apply fmap_Some in Hk as (v & Hv & ->). by apply Hr.
  - apply Forall_forall. intros m (v & Hv & ->)%Hin. simpl. by eapply Hr.
  - f_equal. apply map_eq. intros i. apply option_eq. intros v. rewrite Hr'. split.
    + intros (m & (v' & Hv & ->)%Hin & <- & <-). by rewrite from_to_metadata.
    + intros Hv. destruct (Hr i v Hv) as [Hid _]. exists (to_metadata v).
      rewrite from_to_metadata, Hin. simpl. rewrite Hid. eauto.
Qed.
End Sequential.

(** ** Overlapping changes *)

(** An undone update can erase a later one that succeeded: if two updates of
    a workflow overlap so that both have changed the registry, the second is
    then persisted and the first refused, the undo of the first puts the
    workflow back to what it was before both, although the second update was
    persisted and its caller told so. *)
Theorem undone_update_erases_other {W} (cb : callback Value W) r i v nA dsA tsA dA nB dsB tsB dB
    r1 chA r2 chB w w1 w2 e :
  r !! i = Some v →
  begin overflow_checks (UpdateWorkflow i nA dsA tsA dA) r = Ok (r1, chA) →
  begin overflow_checks (UpdateWorkflow i nB dsB tsB dB) r1 = Ok (r2, chB) →
  cb (ch_event chB) w = (w1, Ok tt) →
  cb (ch_event chA) w1 = (w2, Err e) →
  (∃ m, ch_event chB = Upsert m ∧ ch_answer chB = AnswerMetadata m ∧
     wm_name m = nB ∧ wm_definition m = dB) ∧
  rtc (engine_step overflow_checks (Some cb))
    {| es_registry := r; es_world := w; es_pending := [] |}
    {| es_registry := r; es_world := w2; es_pending := [] |}.
Proof.
  intros Hv HA HB HcB HcA.
  assert (Hr : apply_undo (ch_undo chA) r2 = r ∧ ∃ m, ch_event chB = Upsert m ∧
    ch_answer chB = AnswerMetadata m ∧ wm_name m = nB ∧ wm_definition m = dB).
  { simpl in HA, HB. apply result_bind_Ok in HA as (_ & _ & HA), HB as (_ & _ & HB).
    rewrite Hv in HA. simpl in HA. apply result_bind_Ok in HA as (vA & _ & HA).
    cbv zeta in HA. simplify_eq. rewrite lookup_insert_eq in HB. simpl in HB.
    apply result_bind_Ok in HB as (vB & _ & HB). cbv zeta in HB. simplify_eq. simpl.
    rewrite !insert_insert_eq. split; [by apply insert_id|eauto]. }
  destruct Hr as [Hr Hm]. split; [done|].
  eapply rtc_l; [by eapply step_begin|]. eapply rtc_l; [by eapply step_begin|]. simpl.
  eapply rtc_l; [by eapply (step_call _ _ _ [(chA, None)] [])|]. simpl.
  eapply rtc_l; [by eapply (step_call _ _ _ [] [(chB, Some (Ok tt))])|]. simpl.
  eapply rtc_l; [by eapply (step_finish _ _ _ [(chA, Some (Err e))] [])|]. simpl.
  eapply rtc_l; [by eapply (step_finish _ _ _ [] [])|]. simpl. by rewrite Hr.
Qed.
End Facts.
