(* ===== verification/WorkflowSample.v ===== *)
(** * A graph library and a sample workflow

    A small implementation of the graph operations that keeps [PetGraphLaws], so
    the theorems about workflows apply to something, and their instances on a
    diamond of four steps. *)

From Stdlib Require Import ZArith Lia.
From Stdlib Require ListDec.
From stdpp Require Import base numbers option strings gmap list relations.
From S2P Require Import Prelude RustStd F64 WorkflowDefinition WorkflowDag WorkflowEngine.
From S2P Require Import WorkflowEngineFacts.

(** ** Graphs as lists *)

Definition edges_in_range (g : list string * list (nat * nat)) : bool :=
  forallb (λ e, (e.1 <? length g.1)%nat && (e.2 <? length g.1)%nat) g.2.

Definition list_graph : Type := { g : list string * list (nat * nat) | edges_in_range g = true }.

Lemma edges_in_range_spec g :
  edges_in_range g = true ↔ ∀ a b, (a, b) ∈ g.2 → (a < length g.1)%nat ∧ (b < length g.1)%nat.
Proof.
  unfold edges_in_range. rewrite forallb_forall. setoid_rewrite <- list_elem_of_In. split.
  - intros Hg a b Hab. specialize (Hg (a, b) Hab). simpl in Hg.
    apply andb_true_iff in Hg as [?%Nat.ltb_lt ?%Nat.ltb_lt]. done.
  - intros Hg [a b] Hab. destruct (Hg a b Hab). simpl.
    by rewrite (proj2 (Nat.ltb_lt _ _)), (proj2 (Nat.ltb_lt _ _)).
Qed.

Lemma add_node_range (g : list_graph) w :
  edges_in_range ((`g).1 ++ [w], (`g).2) = true.
Proof.
  apply edges_in_range_spec. intros a b Hab. simpl. rewrite length_app.
  destruct (proj1 (edges_in_range_spec _) (proj2_sig g) a b Hab). lia.
Qed.

Lemma add_edge_range (g : list_graph) a b :
  (a < length (`g).1)%nat ∧ (b < length (`g).1)%nat →
  edges_in_range ((`g).1, (a, b) :: (`g).2) = true.
Proof.
  intros Hab. apply edges_in_range_spec. simpl. intros a' b' [Heq|Hin]%elem_of_cons; [by simplify_eq|].
  exact (proj1 (edges_in_range_spec _) (proj2_sig g) a' b' Hin).
Qed.

(** ** Sorting by removing sources *)

Section Kahn.
Context (edges : list (nat * nat)).

Definition is_source (rem : list nat) (i : nat) : bool :=
  forallb (λ e, negb ((e.2 =? i)%nat && bool_decide (e.1 ∈ rem))) edges.

Fixpoint kahn (fuel : nat) (rem : list nat) : option (list nat) :=
  match rem with
  | [] => Some []
  | _ =>
      match fuel with
      | O => None
      | S fuel =>
          i ← List.find (is_source rem) rem;
          l ← kahn fuel (filter (λ j, j ≠ i) rem);
          Some (i :: l)
      end
  end.

Lemma is_source_spec rem i :
  is_source rem i = true ↔ ∀ a, (a, i) ∈ edges → a ∉ rem.
Proof.
  unfold is_source. rewrite forallb_forall. setoid_rewrite <- list_elem_of_In. split.
  - intros Hs a Ha. specialize (Hs _ Ha). simpl in Hs. rewrite Nat.eqb_refl in Hs.
    by case_bool_decide.
  - intros Hs [a b] Hab. simpl. destruct (Nat.eqb_spec b i) as [->|]; [|done].
    by rewrite bool_decide_false by eauto.
Qed.

Lemma precedes_cons {A} (x : A) l a b : precedes l a b → precedes (x :: l) a b.
Proof. intros (i & j & ? & ? & ?). exists (S i), (S j). split_and!; [lia|done..]. Qed.

Lemma filter_remove_perm (i : nat) rem :
  NoDup rem → i ∈ rem → i :: filter (λ j, j ≠ i) rem ≡ₚ rem.
Proof.
  intros Hn Hi. apply NoDup_Permutation; [|done|].
  - constructor; [rewrite list_elem_of_filter; naive_solver|by apply NoDup_filter].
  - intros j. rewrite elem_of_cons, list_elem_of_filter.
    destruct (decide (j = i)) as [->|]; naive_solver.
Qed.

Lemma kahn_nil fuel : kahn fuel [] = Some [].
Proof. by destruct fuel. Qed.

Lemma kahn_S fuel rem :
  rem ≠ [] →
  kahn (S fuel) rem =
    (i ← List.find (is_source rem) rem;
     l ← kahn fuel (filter (λ j, j ≠ i) rem);
     Some (i :: l)).
Proof. by destruct rem. Qed.

Lemma kahn_Some fuel rem l :
  NoDup rem → kahn fuel rem = Some l →
  l ≡ₚ rem ∧ ∀ a b, (a, b) ∈ edges → a ∈ rem → b ∈ rem → precedes l a b.
Proof.
  revert rem l. induction fuel as [|fuel IH]; intros full l Hn Hk;
    (destruct (decide (full = [])) as [->|Hne]; [rewrite kahn_nil in Hk; simplify_eq; split; [done|set_solver]|]).
  { by destruct full. }
  rewrite kahn_S in Hk by done.
  destruct (List.find _ _) as [i|] eqn:Hf; [|done]. simpl in Hk.
  destruct (kahn fuel _) as [l'|] eqn:Hk'; simplify_eq/=.
  apply List.find_some in Hf as [Hi%list_elem_of_In Hs].
  pose proof (proj1 (is_source_spec _ _) Hs) as Hsrc.
  destruct (IH _ _ (NoDup_filter _ _ Hn) Hk') as [Hp He].
  split; [by rewrite Hp, filter_remove_perm|]. intros a b Hab Ha Hb.
  assert (b ≠ i) by (intros ->; by apply (Hsrc a)).
  assert (Hb' : b ∈ filter (λ j, j ≠ i) full) by (apply list_elem_of_filter; done).
  destruct (decide (a = i)) as [->|Hai].
  - rewrite <- Hp in Hb'. apply list_elem_of_lookup in Hb' as (j & Hj).
    exists 0%nat, (S j). split_and!; [lia|done..].
  - apply precedes_cons, He; [done| |done]. by apply list_elem_of_filter.
Qed.

Lemma lookup_s {A} (s : nat → A) n k l1 y l2 :
  s <$> seq 0 n = l1 ++ y :: l2 → k = length l1 → s k = y.
Proof.
  intros Hs ->. apply Some_inj. rewrite <- (list_lookup_middle l1 l2 y _ eq_refl), <- Hs.
  rewrite list_lookup_fmap, lookup_seq_lt; [done|].
  rewrite <- (length_seq n 0), <- (length_fmap s), Hs, length_app. simpl. lia.
Qed.

(** A non-empty set in which every node has a predecessor contains a cycle. *)
Lemma no_source_cycle (rem : list nat) x :
  x ∈ rem → (∀ b, b ∈ rem → is_source rem b = false) → ∃ y, tc (λ a b, (a, b) ∈ edges) y y.
Proof.
  intros Hx Hno.
  assert (Hpred : ∃ p : nat → nat, ∀ b, b ∈ rem → p b ∈ rem ∧ (p b, b) ∈ edges).
  { exists (λ b, default 0%nat (fst <$>
      List.find (λ e, (e.2 =? b)%nat && bool_decide (e.1 ∈ rem)) edges)).
    intros b Hb. specialize (Hno b Hb). destruct (List.find _ edges) as [[a b']|] eqn:Hf; simpl.
    - apply List.find_some in Hf as [Hin%list_elem_of_In [Heq%Nat.eqb_eq Ha]%andb_true_iff].
      simpl in *. subst b'. by apply bool_decide_eq_true in Ha.
    - exfalso. apply not_true_iff_false in Hno. apply Hno. apply forallb_forall.
      intros e He. rewrite (List.find_none _ _ Hf e He). done. }
  destruct Hpred as (p & Hp). set (s := λ k, Nat.iter k p x).
  assert (Hs : ∀ k, s k ∈ rem) by (induction k; [done|by apply Hp]).
  assert (Htc : ∀ i k, tc (λ a b, (a, b) ∈ edges) (s (S k + i)%nat) (s i)).
  { intros i. induction k as [|k IH]; [by apply tc_once, Hp|]. eapply tc_l; [|exact IH]. by apply Hp. }
  destruct (decide (NoDup (s <$> seq 0 (S (length rem))))) as [Hn|Hn].
  - exfalso. apply (Nat.nle_succ_diag_l (length rem)).
    rewrite <- (length_seq (S (length rem)) 0) at 1. rewrite <- (length_fmap s).
    apply submseteq_length, NoDup_submseteq; [done|].
    intros y (k & -> & _)%list_elem_of_fmap. apply Hs.
  - rewrite NoDup_ListNoDup in Hn.
    apply (ListDec.not_NoDup Nat.eq_decidable) in Hn as (y & l1 & l2 & l3 & Heq).
    assert (Hi : s (length l1) = y) by (by eapply lookup_s).
    assert (Hj : s (S (length l2) + length l1)%nat = y).
    { rewrite app_comm_cons, app_assoc in Heq. eapply lookup_s; [exact Heq|].
      rewrite length_app. simpl. lia. }
    exists y. rewrite <- Hj at 1. rewrite <- Hi. apply Htc.
Qed.

Lemma kahn_None fuel rem :
  (length rem ≤ fuel)%nat → kahn fuel rem = None → ∃ y, tc (λ a b, (a, b) ∈ edges) y y.
Proof.
  revert rem. induction fuel as [|fuel IH]; intros rem Hl Hk;
    (destruct (decide (rem = [])) as [->|Hne]; [by rewrite kahn_nil in Hk|]).
  { by destruct rem; simpl in *; [|lia]. }
  rewrite kahn_S in Hk by done. destruct (List.find _ rem) as [i|] eqn:Hf; simpl in Hk.
  - destruct (kahn fuel _) eqn:Hk'; [done|]. apply (IH _) in Hk'; [done|].
    apply List.find_some in Hf as [Hi%list_elem_of_In _].
    cut (length (filter (λ j, j ≠ i) rem) < length rem)%nat; [lia|].
    by apply (length_filter_lt _ _ i); [|naive_solver].
  - destruct rem as [|x rem]; [done|]. apply (no_source_cycle (x :: rem) x); [left|].
    intros b Hb. by apply (List.find_none _ _ Hf), list_elem_of_In.
Qed.
End Kahn.

Definition list_toposort (g : list_graph) : option (list nat) :=
  kahn (`g).2 (length (`g).1) (seq 0 (length (`g).1)).

#[export] Instance list_petgraph : PetGraph := {|
  DiGraph := list_graph;
  graph_new := exist _ ([], []) eq_refl;
  add_node g w := (exist _ ((`g).1 ++ [w], (`g).2) (add_node_range g w), length (`g).1);
  add_edge g a b :=
    match decide ((a < length (`g).1)%nat ∧ (b < length (`g).1)%nat) with
    | left Hab => Some (exist _ ((`g).1, (a, b) :: (`g).2) (add_edge_range g a b Hab))
    | right _ => None
    end;
  node_weight g i := (`g).1 !! i;
  neighbors_directed g i dir :=
    match dir with
    | Incoming => (filter (λ e, e.2 = i) (`g).2).*1
    | Outgoing => (filter (λ e, e.1 = i) (`g).2).*2
    end;
  is_cyclic_directed g := match list_toposort g with Some _ => false | None => true end;
  toposort := list_toposort;
  graph_nodes g := (`g).1;
  graph_edges g := (`g).2;
|}.

Lemma list_toposort_Some g l :
  list_toposort g = Some l →
  l ≡ₚ seq 0 (length (`g).1) ∧ ∀ a b, (a, b) ∈ (`g).2 → precedes l a b.
Proof.
  intros Hl. apply kahn_Some in Hl as [Hp He]; [|apply NoDup_seq]. split; [done|].
  intros a b Hab. destruct (proj1 (edges_in_range_spec _) (proj2_sig g) a b Hab).
  apply He; [done|rewrite elem_of_seq; lia..].
Qed.

Lemma precedes_acyclic (g : list_graph) l :
  l ≡ₚ seq 0 (length (`g).1) → (∀ a b, (a, b) ∈ (`g).2 → precedes l a b) → ¬ cyclic g.
Proof.
  intros Hp He (x & Hx).
  assert (Hn : NoDup l) by (rewrite Hp; apply NoDup_seq).
  assert (Htc : ∀ a b, tc (edge g) a b → precedes l a b); [|].
  { induction 1 as [a b Hab|a b c Hab _ IH]; [by apply He|].
    apply He in Hab as (i & j & Hij & Hi & Hj). destruct IH as (j' & k & Hjk & Hj' & Hk).
    rewrite (NoDup_lookup _ _ _ _ Hn Hj Hj') in Hij. exists i, k. split_and!; [lia|done..]. }
  apply Htc in Hx as (i & j & Hij & Hi & Hj).
  rewrite (NoDup_lookup _ _ _ _ Hn Hi Hj) in Hij. lia.
Qed.

Lemma list_toposort_None g : list_toposort g = None → cyclic g.
Proof. apply kahn_None. by rewrite length_seq. Qed.

#[export] Instance list_petgraph_laws : PetGraphLaws.
Proof.
  split; try done.
  - intros g a b Ha Hb. simpl in *. destruct (decide _) as [Hab|Hab]; [|by destruct Hab].
    eexists. split; [reflexivity|]. split; [done|]. simpl. set_solver.
  - intros g i j. simpl. rewrite list_elem_of_fmap. split.
    + intros ([a b] & -> & [Hb Hab]%list_elem_of_filter). simpl in *. by subst.
    + intros Hji. exists (j, i). split; [done|]. by apply list_elem_of_filter.
  - intros g i j. simpl. rewrite list_elem_of_fmap. split.
    + intros ([a b] & -> & [Hb Hab]%list_elem_of_filter). simpl in *. by subst.
    + intros Hij. exists (i, j). split; [done|]. by apply list_elem_of_filter.
  - intros g. simpl. destruct (list_toposort g) as [l|] eqn:Hl.
    + split; [done|]. intros Hc. apply list_toposort_Some in Hl as [Hp He].
      by apply (precedes_acyclic g l) in Hc.
    + split; [intros _; by apply list_toposort_None|done].
  - apply list_toposort_Some.
  - apply list_toposort_None.
Qed.

(** ** A diamond of steps *)

Definition sample_step (i : string) (deps : list string) : WorkflowStep unit :=
  {| step_id := i; step_type := WasmRule; step_config := WasmRuleCfg {| wr_rule_id := "r" |};
     depends_on := deps |}.

Definition diamond : WorkflowDefinition unit :=
  {| steps := [sample_step "merge" ["left"; "right"]; sample_step "left" ["load"];
               sample_step "right" ["load"]; sample_step "load" []];
     fusion_threshold := f64_zero; fallback := ManualReview |}.

Definition self_loop : WorkflowDefinition unit :=
  {| steps := [sample_step "a" ["b"]; sample_step "b" ["a"]];
     fusion_threshold := f64_zero; fallback := ManualReview |}.

Definition built (r : result string (DagExecutor unit)) : option (DagExecutor unit) :=
  match r with Ok dag => Some dag | _ => None end.

Example diamond_valid : validate_workflow diamond = Ok tt.
Proof. vm_compute. reflexivity. Qed.

Example diamond_batches :
  (dag ← built (from_workflow diamond);
   match parallel_batches dag with
   | Ok bs => Some (map (map step_id) bs)
   | _ => None
   end) = Some [["load"]; ["left"; "right"]; ["merge"]]%string.
Proof. vm_compute. reflexivity. Qed.

Example self_loop_rejected :
  validate_workflow self_loop = Err "Workflow contains cyclic dependencies"%string.
Proof. vm_compute. reflexivity. Qed.

(** A threshold that is not a number passes every range check. *)
Example nan_threshold_accepted :
  validate_confidence_gate {| cg_threshold := SpecFloat.S754_nan; cg_input_step := None |} = Ok tt.
Proof. reflexivity. Qed.

Lemma diamond_nodup : NoDup (ids diamond).
Proof. apply (bool_decide_unpack _). vm_compute. exact I. Qed.

Lemma self_loop_nodup : NoDup (ids self_loop).
Proof. apply (bool_decide_unpack _). vm_compute. exact I. Qed.

(** The graph of the diamond. *)
Definition diamond_dag : DagExecutor unit :=
  match from_workflow diamond with
  | Ok dag => dag
  | _ => empty_dag
  end.

Lemma diamond_dag_Ok : from_workflow diamond = Ok diamond_dag.
Proof.
  unfold diamond_dag.
  assert (Hb : match from_workflow diamond with Ok _ => true | _ => false end = true)
    by (vm_compute; reflexivity).
  by destruct (from_workflow diamond).
Qed.

Lemma from_workflow_accepts_witness :
  match from_workflow self_loop with
  | Ok _ => deps_known self_loop ∧ ¬ ∃ x, tc (depends self_loop) x x
  | Err e =>
      (∃ s x, s ∈ steps self_loop ∧ x ∈ depends_on s ∧ x ∉ ids self_loop ∧
         e = unknown_step (step_id s) x) ∨
      (deps_known self_loop ∧ (∃ x, tc (depends self_loop) x x) ∧
       e = "Workflow contains cyclic dependencies"%string)
  | Panic => False
  end.
Proof. apply from_workflow_accepts, self_loop_nodup. Defined.

Lemma execution_order_respects_witness :
  ∃ order, execution_order diamond_dag = Ok order ∧ order ≡ₚ steps diamond ∧
    ∀ pre s post x, order = pre ++ s :: post → x ∈ depends_on s → x ∈ map step_id pre.
Proof. apply (execution_order_respects diamond); [apply diamond_nodup|apply diamond_dag_Ok]. Defined.

Lemma parallel_batches_levels_witness :
  ∃ batches, parallel_batches diamond_dag = Ok batches ∧
    concat batches ≡ₚ steps diamond ∧ [] ∉ batches ∧
    (∀ l b s x, batches !! l = Some b → s ∈ b → x ∈ depends_on s →
       ∃ l' b' t, (l' < l)%nat ∧ batches !! l' = Some b' ∧ t ∈ b' ∧ step_id t = x) ∧
    (∀ l b s, batches !! S l = Some b → s ∈ b →
       ∃ b' t, batches !! l = Some b' ∧ t ∈ b' ∧ step_id t ∈ depends_on s).
Proof. apply (parallel_batches_levels diamond); [apply diamond_nodup|apply diamond_dag_Ok]. Defined.

(** ** A registry with a store *)

(** A store that refuses the name [bad]. *)
Definition sample_callback : callback unit (gmap string (WorkflowMetadata unit)) :=
  λ e w,
    match e with
    | Upsert m =>
        if String.eqb (wm_name m) "bad" then (w, Err ["refused"]%string)
        else (apply_event e w, Ok tt)
    | Delete _ => (apply_event e w, Ok tt)
    end.

Lemma sample_callback_stores e w :
  match sample_callback e w with
  | (w', Ok _) => w' = apply_event e w
  | (w', Err _) => w' = w
  | (_, Panic) => False
  end.
Proof. destruct e as [m|i]; simpl; [|done]. by destruct (String.eqb _ _). Qed.

Definition sample_register : command unit := RegisterWorkflow "w" "first" diamond None [] 7.

Definition sample_workflow : RegisteredWorkflow unit :=
  {| rw_id := "w"; rw_name := "first"; rw_description := None; rw_tags := [];
     rw_definition := diamond; rw_version := "1.0.0"; rw_created_at := 7;
     rw_execution_count := 0; rw_last_executed_at := None |}.

Lemma check_diamond msg : check_definition diamond msg = Ok tt.
Proof. apply check_definition_Ok. split; [vm_compute; reflexivity|eauto using diamond_dag_Ok]. Qed.

Lemma sample_register_begins :
  ∃ ch, begin true sample_register ∅ = Ok (<["w" := sample_workflow]> ∅, ch).
Proof. simpl. unfold register_begin. rewrite check_diamond. eexists. reflexivity. Qed.

Lemma registry_invariant_witness :
  rw_id sample_workflow = "w"%string ∧ runnable (rw_definition sample_workflow).
Proof.
  destruct sample_register_begins as (ch & Hb).
  apply (registry_invariant true (Some sample_callback) ∅
    {| es_registry := <["w" := sample_workflow]> ∅; es_world := ∅; es_pending := [(ch, None)] |}).
  - apply rtc_once. by apply (step_begin true (Some sample_callback) sample_register (new_engine ∅)).
  - reflexivity.
Defined.

Definition sample_commands : list (command unit) :=
  [sample_register; UpdateWorkflow "w" "bad" None [] diamond; RecordExecution "w" 8;
   RegisterWorkflow "v" "second" diamond None [] 9; DeleteWorkflow "v"].

Lemma restart_restores_registry_witness :
  let st := run_all true (Some sample_callback) sample_commands (∅, ∅) in
  hydrate_all (map_to_list st.2).*2 = Ok st.1.
Proof.
  apply (restart_restores_registry true sample_callback id sample_callback_stores
           sample_commands ∅ _ (run_all true (Some sample_callback) sample_commands (∅, ∅)).2);
    [done|apply surjective_pairing|done].
Defined.

(** The refused update left no trace, the recorded execution did. *)
Example sample_commands_run :
  (λ w, (rw_name w, rw_version w, rw_execution_count w)) <$>
    (run_all true (Some sample_callback) sample_commands (∅, ∅)).1 !! "w"%string
  = Some ("first"%string, "1.0.0"%string, 1%Z).
Proof. vm_compute. reflexivity. Qed.

Definition updated (name : string) (version : string) (w : RegisteredWorkflow unit)
    : RegisteredWorkflow unit :=
  {| rw_id := rw_id w; rw_name := name; rw_description := None; rw_tags := [];
     rw_definition := diamond; rw_version := version; rw_created_at := rw_created_at w;
     rw_execution_count := rw_execution_count w; rw_last_executed_at := rw_last_executed_at w |}.

Lemma sample_update_begins name version w r :
  r !! "w"%string = Some w → next_version true (rw_version w) = Ok version →
  begin true (UpdateWorkflow "w" name None [] diamond) r =
    Ok (<["w" := updated name version w]> r,
        {| ch_event := Upsert (to_metadata (updated name version w));
           ch_undo := UndoInsert "w" w;
           ch_context := "Failed to persist updated workflow metadata";
           ch_answer := AnswerMetadata (to_metadata (updated name version w)) |}).
Proof. intros Hw Hv. simpl. unfold update_begin. rewrite check_diamond, Hw. simpl. by rewrite Hv. Qed.

Lemma version_2 : next_version true "1.0.0" = Ok "2.0.0"%string.
Proof. vm_compute. reflexivity. Qed.

Lemma version_3 : next_version true "2.0.0" = Ok "3.0.0"%string.
Proof. vm_compute. reflexivity. Qed.

Definition sample_state (w : gmap string (WorkflowMetadata unit)) : engine_state unit _ :=
  {| es_registry := {["w" := sample_workflow]}; es_world := w; es_pending := [] |}.

Lemma undone_update_erases_other_witness :
  let second := to_metadata (updated "good" "3.0.0" (updated "bad" "2.0.0" sample_workflow)) in
  (∃ m, Upsert second = Upsert m ∧ AnswerMetadata second = AnswerMetadata m ∧
     wm_name m = "good"%string ∧ wm_definition m = diamond) ∧
  rtc (engine_step true (Some sample_callback))
    (sample_state ∅) (sample_state {["w" := second]}).
Proof.
  intros second.
  apply (undone_update_erases_other true sample_callback {["w" := sample_workflow]} "w" sample_workflow
    "bad" None [] diamond "good" None [] diamond _ _ _ _ ∅ {["w" := second]} {["w" := second]} ["refused"]%string
    (lookup_singleton_eq _ _)
    (sample_update_begins "bad" "2.0.0" sample_workflow _ (lookup_singleton_eq _ _) version_2)
    (sample_update_begins "good" "3.0.0" (updated "bad" "2.0.0" sample_workflow) _
       (lookup_insert_eq _ _ _) version_3)); reflexivity.
Defined.
