(* ===== verification/WalEntry.v ===== *)
(** * Write-ahead log: entries and their binary format

    Models [storage/wal/entry.rs] of the coordinator.  The bincode serializer
    and the CRC-32 hasher are external crates: they are fields of the class
    [WalCodec], and the class [WalCodecOk] states what the log relies on. The
    lineage event an entry can carry is an opaque payload, the field
    [LineageEvent] of the class [LineageModel]. *)

From Stdlib Require Import ZArith Lia Ascii.
From stdpp Require Import base numbers option strings list countable.
From S2P Require Import Prelude RustStd Bytes.

Local Open Scope Z_scope.

Definition u64_max : Z := 2 ^ 64 - 1.

(** [LogSequenceNumber]: a [u64]. *)
Definition LogSequenceNumber : Type := Z.
Definition LSN_ZERO : LogSequenceNumber := 0.

(** [saturating_sub(1)] on a [u64]. *)
Definition saturating_pred (lsn : LogSequenceNumber) : LogSequenceNumber := Z.max 0 (lsn - 1).

Inductive EntryType : Type :=
  | LineageWrite
  | QualityViolationEntry
  | ProfileUpdate
  | RdfInsertTriple
  | RdfDeleteTriple
  | RdfInsertBatch
  | RdfUpdateTriple
  | TransactionBegin
  | TransactionPrepare
  | TransactionCommit
  | TransactionAbort
  | RocksDbWrite
  | KafkaPublish
  | ParquetFlush
  | CheckpointEntry
  | RotationMarker
  | CompactionMarker.

#[global] Instance EntryType_eq_dec : EqDecision EntryType.
Proof. solve_decision. Defined.

Record EntryFlags : Type := mk_flags {
  compressed : bool;
  encrypted : bool;
  idempotent : bool;
  requires_sync : bool;
}.

#[global] Instance EntryFlags_eq_dec : EqDecision EntryFlags.
Proof. solve_decision. Defined.

Definition default_flags : EntryFlags :=
  {| compressed := false; encrypted := false; idempotent := false; requires_sync := true |}.

Record EntryHeader : Type := mk_header {
  lsn : LogSequenceNumber;
  previous_lsn : LogSequenceNumber;
  entry_type : EntryType;
  timestamp_us : Z;
  payload_size : Z;
  checksum : Z;
  flags : EntryFlags;
}.

#[global] Instance EntryHeader_eq_dec : EqDecision EntryHeader.
Proof. solve_decision. Defined.

Inductive RdfOperation : Type := RdfInsert | RdfDelete.

#[global] Instance RdfOperation_eq_dec : EqDecision RdfOperation.
Proof. solve_decision. Defined.

Record RdfTripleEntry : Type := mk_triple {
  subject : string;
  predicate : string;
  object : string;
  datatype : option string;
  language : option string;
  graph : string;
  shard_id : string;
  operation : RdfOperation;
  triple_timestamp_us : Z;
}.

#[global] Instance RdfTripleEntry_eq_dec : EqDecision RdfTripleEntry.
Proof. solve_decision. Defined.

Inductive StorageType : Type := RocksDb | Kafka | Parquet | Archive.

#[global] Instance StorageType_eq_dec : EqDecision StorageType.
Proof. solve_decision. Defined.

Record StorageOptions : Type := mk_storage_options {
  partition : option string;
  replication : option Z;
  compression : option string;
}.

#[global] Instance StorageOptions_eq_dec : EqDecision StorageOptions.
Proof. solve_decision. Defined.

Inductive IsolationLevel : Type :=
  | ReadUncommitted
  | ReadCommitted
  | RepeatableRead
  | Serializable.

#[global] Instance IsolationLevel_eq_dec : EqDecision IsolationLevel.
Proof. solve_decision. Defined.

Record TransactionContext : Type := mk_tx_context {
  ctx_tx_id : Z;
  parent_tx_id : option Z;
  isolation_level : IsolationLevel;
  ctx_participants : list string;
}.

#[global] Instance TransactionContext_eq_dec : EqDecision TransactionContext.
Proof. solve_decision. Defined.

Inductive TransactionOp : Type :=
  | Begin (tx_id timeout_ms : Z)
  | Prepare (tx_id : Z) (participants : list string)
  | Commit (tx_id : Z) (commit_lsn : LogSequenceNumber)
  | Abort (tx_id : Z) (reason : string).

#[global] Instance TransactionOp_eq_dec : EqDecision TransactionOp.
Proof. solve_decision. Defined.

Record StorageCheckpoint : Type := mk_storage_checkpoint {
  cp_storage_type : StorageType;
  last_flushed_lsn : LogSequenceNumber;
  pending_writes : Z;
  cp_state : list byte;
}.

#[global] Instance StorageCheckpoint_eq_dec : EqDecision StorageCheckpoint.
Proof. solve_decision. Defined.

(** The events of the lineage model of the core library. *)
Class LineageModel := { LineageEvent : Type }.

Inductive EntryPayload `{LineageModel} : Type :=
  | Lineage (event : LineageEvent)
  | LineageBatch (events : list LineageEvent)
  | QualityViolation (dataset rule_id : string) (record_ids : list string) (severity : string)
  | RdfTriple (triple : RdfTripleEntry)
  | RdfTripleBatch (triples : list RdfTripleEntry)
  | RdfUpdate (old_triple new_triple : RdfTripleEntry)
  | StorageWrite (storage_type : StorageType) (key value : list byte) (options : StorageOptions)
  | Transaction (op : TransactionOp)
  | Checkpoint (lsn : LogSequenceNumber) (storage_states : list StorageCheckpoint)
  | Raw (bytes : list byte).

Record WalEntry `{LineageModel} : Type := mk_entry {
  header : EntryHeader;
  payload : EntryPayload;
  transaction : option TransactionContext;
}.

(** ** External serializer and checksum *)

(** [bincode::serialize] and [bincode::deserialize] at the three types the log
    stores (a failed read carries the text of the error), the CRC-32 of a byte
    string, and the size of the header in memory. *)
Class WalCodec `{LineageModel} := {
  size_of_EntryHeader : nat;
  serialize_header : EntryHeader → list byte;
  deserialize_header : list byte → result string EntryHeader;
  serialize_payload : EntryPayload → list byte;
  deserialize_payload : list byte → result string EntryPayload;
  serialize_tx : TransactionContext → list byte;
  deserialize_tx : list byte → result string TransactionContext;
  crc32 : list byte → Z;
}.

(** The fields of a header are at their machine width. *)
Definition header_in_range (h : EntryHeader) : Prop :=
  (0 ≤ lsn h ≤ u64_max) ∧ (0 ≤ previous_lsn h ≤ u64_max) ∧
  (0 ≤ timestamp_us h ≤ u64_max) ∧ (0 ≤ payload_size h < 2 ^ 32) ∧
  (0 ≤ checksum h < 2 ^ 32).

(** A payload that reads back as it was written.  The events of lineage need not:
    their transformations hold JSON values, which [bincode] writes but refuses to
    read. *)
Definition payload_readable `{WalCodec} (p : EntryPayload) : Prop :=
  deserialize_payload (serialize_payload p) = Ok p.

Definition lineage_free `{LineageModel} (p : EntryPayload) : bool :=
  match p with Lineage _ | LineageBatch _ => false | _ => true end.

(** Reading back what was written gives the value, except for events of lineage; what
    is read as a header has fields of their width; a header takes as many bytes
    as its size in memory and starts with its sequence number, least
    significant byte first; a transaction context takes at least one byte; a
    checksum is a [u32]. *)
Class WalCodecOk `{WalCodec} : Prop := {
  header_roundtrip h : header_in_range h → deserialize_header (serialize_header h) = Ok h;
  header_read_in_range bs h : deserialize_header bs = Ok h → header_in_range h;
  header_length h : length (serialize_header h) = size_of_EntryHeader;
  header_at_least : (8 ≤ size_of_EntryHeader)%nat;
  header_starts_with_lsn h :
    header_in_range h → take 8 (serialize_header h) = to_le_bytes 8 (lsn h);
  payload_roundtrip p : lineage_free p = true → payload_readable p;
  tx_roundtrip t : deserialize_tx (serialize_tx t) = Ok t;
  tx_nonempty t : serialize_tx t ≠ [];
  crc32_range bs : 0 ≤ crc32 bs < 2 ^ 32;
}.

(** ** Operations *)

Section Entry.
Context `{LM : LineageModel}.

(** Functional update of the fields the code assigns. *)
Definition with_header (e : WalEntry) (h : EntryHeader) : WalEntry :=
  mk_entry _ h (payload e) (transaction e).

Definition with_transaction (e : WalEntry) (t : option TransactionContext) : WalEntry :=
  mk_entry _ (header e) (payload e) t.

Definition set_lsns (h : EntryHeader) (l prev : LogSequenceNumber) : EntryHeader :=
  mk_header l prev (entry_type h) (timestamp_us h) (payload_size h) (checksum h) (flags h).

Definition set_size_checksum (h : EntryHeader) (size sum : Z) : EntryHeader :=
  mk_header (lsn h) (previous_lsn h) (entry_type h) (timestamp_us h) size sum (flags h).

Definition set_idempotent (e : WalEntry) : WalEntry :=
  let h := header e in
  let f := flags h in
  with_header e
    (mk_header (lsn h) (previous_lsn h) (entry_type h) (timestamp_us h) (payload_size h)
       (checksum h) (mk_flags (compressed f) (encrypted f) true (requires_sync f))).

(** [WalEntry::new], at the clock's microseconds [now]. *)
Definition entry_new (now : Z) (l : LogSequenceNumber) (t : EntryType) (p : EntryPayload)
    : WalEntry :=
  {| header :=
       {| lsn := l;
          previous_lsn := saturating_pred l;
          entry_type := t;
          timestamp_us := now mod 2 ^ 64;
          payload_size := 0;
          checksum := 0;
          flags := default_flags |};
     payload := p;
     transaction := None |}.

Definition entry_lineage (now : Z) (l : LogSequenceNumber) (event : LineageEvent) : WalEntry :=
  entry_new now l LineageWrite (Lineage event).

Definition rdf_insert (now : Z) (l : LogSequenceNumber) (triple : RdfTripleEntry) : WalEntry :=
  set_idempotent (entry_new now l RdfInsertTriple (RdfTriple triple)).

Definition rdf_delete (now : Z) (l : LogSequenceNumber) (triple : RdfTripleEntry) : WalEntry :=
  set_idempotent (entry_new now l RdfDeleteTriple (RdfTriple triple)).

Definition rdf_batch_insert (now : Z) (l : LogSequenceNumber) (triples : list RdfTripleEntry)
    : WalEntry :=
  set_idempotent (entry_new now l RdfInsertBatch (RdfTripleBatch triples)).

(** [WalEntry::is_idempotent]. *)
Definition is_idempotent (e : WalEntry) : bool :=
  idempotent (flags (header e)) ||
  match entry_type (header e) with
  | CheckpointEntry | RotationMarker | CompactionMarker => true
  | _ => false
  end.

Context `{WC : !WalCodec}.

(** The serialized transaction context, nothing when there is none. *)
Definition tx_bytes (t : option TransactionContext) : list byte :=
  match t with
  | Some tx => serialize_tx tx
  | None => []
  end.

(** The entry after [to_bytes], which fills in the payload size and the checksum. *)
Definition sealed (e : WalEntry) : WalEntry :=
  let payload_bytes := serialize_payload (payload e) in
  with_header e
    (set_size_checksum (header e)
       (Z.of_nat (length payload_bytes) mod 2 ^ 32)
       (crc32 (payload_bytes ++ tx_bytes (transaction e)))).

(** [WalEntry::to_bytes]: the bytes; [sealed] is what it leaves in [self]. *)
Definition to_bytes (e : WalEntry) : list byte :=
  let payload_bytes := serialize_payload (payload e) in
  serialize_header (header (sealed e)) ++ payload_bytes ++ tx_bytes (transaction e).

(** [WalEntry::from_bytes]. *)
Definition from_bytes (data : list byte) : result string WalEntry :=
  let header_size := size_of_EntryHeader in
  if (length data <? header_size)%nat then Err "Data too short for header"%string
  else
    match deserialize_header (take header_size data) with
    | Err e => Err ("Header deserialize error: " +:+ e)%string
    | Panic => Panic
    | Ok h =>
        let payload_end := (header_size + Z.to_nat (payload_size h))%nat in
        if (length data <? payload_end)%nat then Err "Data too short for payload"%string
        else
          let payload_slice := take (payload_end - header_size) (drop header_size data) in
          match deserialize_payload payload_slice with
          | Err e => Err ("Payload deserialize error: " +:+ e)%string
          | Panic => Panic
          | Ok p =>
              let read_tx :=
                if (payload_end <? length data)%nat then
                  match deserialize_tx (drop payload_end data) with
                  | Ok t => Ok (Some t)
                  | Err e => Err ("Transaction deserialize error: " +:+ e)%string
                  | Panic => Panic
                  end
                else Ok None in
              match read_tx with
              | Err e => Err e
              | Panic => Panic
              | Ok t =>
                  if bool_decide (crc32 (payload_slice ++ tx_bytes t) = checksum h)
                  then Ok (mk_entry _ h p t)
                  else Err "Checksum validation failed"%string
              end
          end
    end.

(** [WalEntry::size_bytes]. *)
Definition size_bytes (e : WalEntry) : Z :=
  Z.of_nat size_of_EntryHeader + payload_size (header e).
End Entry.

(** ** Facts *)

Section EntryFacts.
Context `{LM : LineageModel} `{WC : !WalCodec} `{WO : !WalCodecOk}.

(** An entry the log can store: header fields at their width and a payload that
    reads back and whose length fits the header's [u32]. *)
Definition storable (e : WalEntry) : Prop :=
  (0 ≤ lsn (header e) ≤ u64_max) ∧ (0 ≤ previous_lsn (header e) ≤ u64_max) ∧
  (0 ≤ timestamp_us (header e) ≤ u64_max) ∧
  Z.of_nat (length (serialize_payload (payload e))) < 2 ^ 32 ∧ payload_readable (payload e).

Lemma sealed_in_range e : storable e → header_in_range (header (sealed e)).
Proof.
  intros (? & ? & ? & ? & _). unfold header_in_range, sealed, set_size_checksum; simpl.
  repeat split; try lia; try apply crc32_range; apply Z.mod_pos_bound; lia.
Qed.

Lemma sealed_payload_size e :
  storable e →
  Z.to_nat (payload_size (header (sealed e))) = length (serialize_payload (payload e)).
Proof. intros (_ & _ & _ & ? & _). simpl. rewrite Z.mod_small by lia. lia. Qed.

Lemma to_bytes_length e :
  length (to_bytes e) =
  (size_of_EntryHeader + length (serialize_payload (payload e))
   + length (tx_bytes (transaction e)))%nat.
Proof. unfold to_bytes. rewrite !length_app, header_length. lia. Qed.

Lemma tx_bytes_nil t : tx_bytes t = [] ↔ t = None.
Proof. destruct t; simpl; [|done]. split; [|done]. intros E. by apply tx_nonempty in E. Qed.

(** Reading back a stored entry gives the sealed entry. *)
Lemma from_to_bytes e : storable e → from_bytes (to_bytes e) = Ok (sealed e).
Proof.
  intros Hs. pose proof (sealed_in_range e Hs) as Hr.
  pose proof (sealed_payload_size e Hs) as Hp.
  unfold from_bytes. rewrite to_bytes_length.
  destruct (Nat.ltb_spec (size_of_EntryHeader + length (serialize_payload (payload e))
     + length (tx_bytes (transaction e))) size_of_EntryHeader) as [?|_]; [lia|].
  unfold to_bytes. rewrite take_app_length' by (symmetry; apply header_length).
  rewrite header_roundtrip by done. rewrite Hp.
  destruct (Nat.ltb_spec (size_of_EntryHeader + length (serialize_payload (payload e))
     + length (tx_bytes (transaction e)))
     (size_of_EntryHeader + length (serialize_payload (payload e)))) as [?|_]; [lia|].
  rewrite drop_app_length' by (symmetry; apply header_length).
  rewrite (Nat.add_comm size_of_EntryHeader), Nat.add_sub.
  rewrite take_app_length. destruct Hs as (_ & _ & _ & _ & Hread). rewrite Hread.
  rewrite drop_app_ge by (rewrite header_length; lia).
  rewrite header_length, Nat.add_sub, drop_app_length.
  destruct (transaction e) as [t|] eqn:Ht; simpl tx_bytes.
  - destruct (serialize_tx t) as [|b bs] eqn:Eb; [by apply tx_nonempty in Eb|].
    rewrite <- Eb, (proj2 (Nat.ltb_lt _ _)) by (rewrite Eb; simpl; lia).
    rewrite tx_roundtrip. rewrite bool_decide_true; [|simpl; by rewrite Ht].
    unfold sealed, with_header. simpl. by rewrite Ht.
  - rewrite (proj2 (Nat.ltb_ge _ _)) by (simpl; lia).
    rewrite bool_decide_true; [|simpl; by rewrite Ht].
    unfold sealed, with_header. simpl. by rewrite Ht.
Qed.

(** Bytes that are accepted carry the checksum of their payload and context. *)
Lemma from_bytes_checksum data e :
  from_bytes data = Ok e →
  let payload_slice := take (Z.to_nat (payload_size (header e))) (drop size_of_EntryHeader data) in
  deserialize_header (take size_of_EntryHeader data) = Ok (header e) ∧
  deserialize_payload payload_slice = Ok (payload e) ∧
  crc32 (payload_slice ++ tx_bytes (transaction e)) = checksum (header e).
Proof.
  unfold from_bytes. intros Hfb.
  destruct (Nat.ltb _ _); [done|].
  destruct (deserialize_header _) as [h| |] eqn:Eh; try done.
  rewrite (Nat.add_comm size_of_EntryHeader), Nat.add_sub in Hfb.
  destruct (Nat.ltb _ _); [done|].
  destruct (deserialize_payload _) as [p| |] eqn:Ep; try done.
  repeat case_match; simplify_eq/=; repeat split; try done; by eapply bool_decide_eq_true.
Qed.

(** The first eight bytes of a stored entry are its sequence number. *)
Lemma to_bytes_lsn e :
  storable e → from_le_bytes (take 8 (to_bytes e)) = lsn (header e).
Proof.
  intros Hs. unfold to_bytes.
  rewrite take_app_le by (rewrite header_length; apply header_at_least).
  rewrite header_starts_with_lsn by (by apply sealed_in_range).
  destruct Hs as [Hl _]. apply from_to_le_bytes. unfold u64_max in Hl.
  change (256 ^ Z.of_nat 8) with (2 ^ 64). simpl. lia.
Qed.

(** [size_bytes] of a stored entry leaves out its transaction context. *)
Lemma size_bytes_sealed e :
  storable e →
  size_bytes (sealed e) + Z.of_nat (length (tx_bytes (transaction e))) =
  Z.of_nat (length (to_bytes e)).
Proof.
  intros Hs. rewrite to_bytes_length. unfold size_bytes.
  pose proof (sealed_payload_size e Hs) as Hp.
  destruct Hs as (_ & _ & _ & ? & _). simpl in *. rewrite Z.mod_small in * by lia. lia.
Qed.
End EntryFacts.

(** * Write-ahead log: errors and configuration

    Models [storage/wal/errors.rs] and [storage/wal/config.rs].  An [io::Error]
    is represented by its kind (the kinds the code distinguishes, and the rest);
    a path by what it names in the directory of the log.  Durations are
    milliseconds. *)

From Stdlib Require Import ZArith Lia Ascii SpecFloat.
From stdpp Require Import base numbers option strings list.
From S2P Require Import F64.

Local Open Scope Z_scope.

(** The directory of the log, its archive, and the segment files of both:
    ["wal_{:08}.log"] for the number of a segment. *)
Inductive WalPath : Type :=
  | WalDir
  | ArchiveDir
  | SegmentFile (id : Z)
  | ArchiveFile (id : Z).

Inductive ErrorKind : Type :=
  | NotFoundKind
  | PermissionDenied
  | Interrupted
  | WouldBlock
  | TimedOut
  | OutOfMemory
  | OtherKind.

Inductive TransactionError : Type :=
  | TxNotFound (tx_id : Z)
  | InvalidState (tx_id : Z) (state : string)
  | Deadlock (tx_ids : list Z)
  | TxTimeout (tx_id timeout_ms : Z)
  | TwoPhaseCommitFailed (reason : string)
  | ParticipantFailed (participant reason : string).

Inductive StorageError : Type :=
  | RocksDbError (msg : string)
  | KafkaError (msg : string)
  | ParquetError (msg : string)
  | ArchiveError (msg : string)
  | CoordinationFailed (msg : string).

Inductive RecoveryError : Type :=
  | NoCheckpoint
  | UnrecoverableCorruption (lsn : LogSequenceNumber)
  | IncompleteRecovery (recovered total : Z)
  | ValidationFailed (reason : string)
  | RepairFailed (reason : string).

Inductive RotationError : Type :=
  | CannotRotate (reason : string)
  | CompactionFailed (reason : string)
  | ArchiveFailed (reason : string).

Inductive WalError : Type :=
  | Io (source : ErrorKind) (path : option WalPath)
  | Corruption (lsn : LogSequenceNumber) (details : string) (recoverable : bool)
  | ChecksumMismatch (lsn : LogSequenceNumber) (expected actual : Z)
  | TransactionErr (e : TransactionError)
  | StorageErr (e : StorageError)
  | RecoveryErr (e : RecoveryError)
  | RotationErr (e : RotationError)
  | QuotaExceeded (tenant details : string)
  | WalFull (max_segments : Z)
  | InsufficientDiskSpace (available_bytes required_bytes min_free_bytes : Z)
  | InvalidLsn (lsn : LogSequenceNumber)
  | EntryTooLarge (size max_size : Z)
  | TimeoutErr (operation : string) (timeout_ms : Z)
  | Closed
  | Configuration (msg : string)
  | Serialization (msg : string)
  | Unknown (msg : string).

Inductive ErrorSeverity : Type := Critical | High | Medium | Low.

Inductive RecoveryAction : Type :=
  | Retry
  | RunRecovery
  | RunCompaction
  | ValidateAndRepair
  | RestoreFromBackup
  | FixPermissions
  | CreatePath
  | IncreaseResources
  | IncreaseQuota
  | Restart
  | Manual.

(** [WalError::is_retryable]. *)
Definition is_retryable (e : WalError) : bool :=
  match e with
  | Io (Interrupted | WouldBlock | TimedOut) _ => true
  | TimeoutErr _ _ => true
  | _ => false
  end.

(** [WalError::is_data_loss]. *)
Definition is_data_loss (e : WalError) : bool :=
  match e with
  | Corruption _ _ false => true
  | ChecksumMismatch _ _ _ => true
  | RecoveryErr (UnrecoverableCorruption _) => true
  | _ => false
  end.

(** [WalError::recovery_action]. *)
Definition recovery_action (e : WalError) : RecoveryAction :=
  match e with
  | Io source _ =>
      match source with
      | PermissionDenied => FixPermissions
      | NotFoundKind => CreatePath
      | OutOfMemory => IncreaseResources
      | _ => Retry
      end
  | Corruption _ _ true => RunRecovery
  | Corruption _ _ false => RestoreFromBackup
  | ChecksumMismatch _ _ _ => ValidateAndRepair
  | WalFull _ => RunCompaction
  | QuotaExceeded _ _ => IncreaseQuota
  | Closed => Restart
  | _ => Manual
  end.

(** [WalError::error_type]. *)
Definition error_type (e : WalError) : string :=
  match e with
  | Io _ _ => "io"
  | Corruption _ _ _ => "corruption"
  | ChecksumMismatch _ _ _ => "checksum"
  | TransactionErr _ => "transaction"
  | StorageErr _ => "storage"
  | RecoveryErr _ => "recovery"
  | RotationErr _ => "rotation"
  | QuotaExceeded _ _ => "quota"
  | WalFull _ => "full"
  | InsufficientDiskSpace _ _ _ => "disk_space"
  | InvalidLsn _ => "invalid_lsn"
  | EntryTooLarge _ _ => "oversized"
  | TimeoutErr _ _ => "timeout"
  | Closed => "closed"
  | Configuration _ => "config"
  | Serialization _ => "serialization"
  | Unknown _ => "unknown"
  end%string.

(** [WalError::severity]. *)
Definition severity (e : WalError) : ErrorSeverity :=
  match e with
  | Corruption _ _ false | ChecksumMismatch _ _ _ => Critical
  | Corruption _ _ true | Io _ _ | StorageErr _ | RecoveryErr _ | WalFull _
  | InsufficientDiskSpace _ _ _ => High
  | TransactionErr _ | RotationErr _ | QuotaExceeded _ _ | EntryTooLarge _ _ => Medium
  | TimeoutErr _ _ | InvalidLsn _ | Closed | Configuration _ | Serialization _
  | Unknown _ => Low
  end.

(** ** Configuration *)

Inductive FsyncMode : Type := EveryWrite | BatchSync | OnDemand | Periodic | NoSync.

Inductive RotationPolicy : Type :=
  | RotateSize (max_size : Z)
  | RotateTime (max_age : Z)
  | RotateSizeAndTime (max_size max_age : Z)
  | RotateEntryCount (max_entries : Z)
  | RotateCustom (name : string).

Record GroupCommitConfig : Type := {
  gc_enabled : bool;
  max_wait : Z;
  max_batch : Z;
}.

Record CompactionPolicy : Type := {
  cp_enabled : bool;
  min_segments : Z;
  cp_max_segments : Z;
  compaction_threshold : f64;
  compaction_interval : Z;
  archive_before_compact : bool;
}.

Inductive CompressionCodec : Type := CodecNone | Lz4 | Zstd (level : Z) | Snappy.

Inductive RecoveryMode : Type := Strict | BestEffort | Fast.

Inductive CorruptionTolerance : Type :=
  | FailOnCorruption
  | SkipCorrupted
  | AttemptRepair
  | TruncateAtCorruption.

Inductive QuotaEnforcement : Type := Hard | Soft | Throttle.

Record QuotaConfig : Type := {
  max_bytes_per_tenant : Z;
  max_writes_per_sec : Z;
  quota_max_entries : Z;
  enforcement_mode : QuotaEnforcement;
}.

Record WalConfig : Type := {
  path : string;
  max_file_size : Z;
  max_segments : Z;
  preallocate : bool;
  direct_io : bool;
  min_free_disk_space : Z;
  fsync_mode : FsyncMode;
  sync_interval : Z;
  group_commit : GroupCommitConfig;
  rotation_policy : RotationPolicy;
  compaction_policy : CompactionPolicy;
  write_buffer_size : Z;
  max_batch_size : Z;
  pipeline_depth : Z;
  config_compression : option CompressionCodec;
  recovery_mode : RecoveryMode;
  corruption_tolerance : CorruptionTolerance;
  checkpoint_interval : Z;
  tenant_isolation : bool;
  quota_per_tenant : option QuotaConfig;
  metrics_enabled : bool;
  metrics_prefix : string;
  slow_write_threshold : Z;
  enable_tracing : bool;
  io_timeout : option Z;
}.

Definition default_group_commit : GroupCommitConfig :=
  {| gc_enabled := true; max_wait := 10; max_batch := 100 |}.

Definition default_compaction : CompactionPolicy :=
  {| cp_enabled := true;
     min_segments := 2;
     cp_max_segments := 10;
     compaction_threshold := S754_finite false 4503599627370496 (-53);
     compaction_interval := 3600 * 1000;
     archive_before_compact := true |}.

(** [WalConfig::production], also the default. *)
Definition production : WalConfig :=
  {| path := "/var/lib/graphica/wal";
     max_file_size := 1024 * 1024 * 1024;
     max_segments := 10;
     preallocate := true;
     direct_io := false;
     min_free_disk_space := 10 * 1024 * 1024 * 1024;
     fsync_mode := BatchSync;
     sync_interval := 10;
     group_commit := default_group_commit;
     rotation_policy := RotateSizeAndTime (1024 * 1024 * 1024) (3600 * 1000);
     compaction_policy := default_compaction;
     write_buffer_size := 64 * 1024;
     max_batch_size := 1000;
     pipeline_depth := 100;
     config_compression := Some Lz4;
     recovery_mode := BestEffort;
     corruption_tolerance := SkipCorrupted;
     checkpoint_interval := 60 * 1000;
     tenant_isolation := false;
     quota_per_tenant := None;
     metrics_enabled := true;
     metrics_prefix := "graphica_wal";
     slow_write_threshold := 100;
     enable_tracing := true;
     io_timeout := Some (30 * 1000) |}.

(** The struct update [{ fsync_mode, ..., ..Self::production() }]. *)
Definition production_with (mode : FsyncMode) (interval : Z) (gc : GroupCommitConfig)
    (buffer batch depth : Z) (rm : RecoveryMode) (ct : CorruptionTolerance) : WalConfig :=
  let c := production in
  {| path := path c; max_file_size := max_file_size c; max_segments := max_segments c;
     preallocate := preallocate c; direct_io := direct_io c;
     min_free_disk_space := min_free_disk_space c; fsync_mode := mode;
     sync_interval := interval; group_commit := gc; rotation_policy := rotation_policy c;
     compaction_policy := compaction_policy c; write_buffer_size := buffer;
     max_batch_size := batch; pipeline_depth := depth;
     config_compression := config_compression c; recovery_mode := rm;
     corruption_tolerance := ct; checkpoint_interval := checkpoint_interval c;
     tenant_isolation := tenant_isolation c; quota_per_tenant := quota_per_tenant c;
     metrics_enabled := metrics_enabled c; metrics_prefix := metrics_prefix c;
     slow_write_threshold := slow_write_threshold c; enable_tracing := enable_tracing c;
     io_timeout := io_timeout c |}.

(** [WalConfig::high_durability] and [WalConfig::high_throughput]. *)
Definition high_durability : WalConfig :=
  production_with EveryWrite 1 {| gc_enabled := false; max_wait := 0; max_batch := 1 |}
    (write_buffer_size production) (max_batch_size production) (pipeline_depth production)
    Strict FailOnCorruption.

Definition high_throughput : WalConfig :=
  production_with Periodic 1000 {| gc_enabled := true; max_wait := 100; max_batch := 10000 |}
    (1024 * 1024) 10000 1000 (recovery_mode production) (corruption_tolerance production).

(** Every error of the highest severity means lost data, and no error that is
    worth a retry does. *)
Lemma severity_data_loss e :
  (severity e = Critical → is_data_loss e = true) ∧
  (is_retryable e = true → is_data_loss e = false ∧ severity e ≠ Critical).
Proof. destruct e as [[]|? ? []|? ? ?|?|?|[]|?|?|?|?|?|?|?|?|?|?|?]; simpl; done. Qed.
