(* ===== verification/WalFile.v ===== *)
(** * Write-ahead log: the segmented file

    Models [FileWal] of [storage/wal/file_wal.rs].  The files of the log are the
    record [Disk]: their content as processes see it, what of it has been forced
    to the device, and the archived copies.  What the operating system answers
    (free space, clocks, success of a call) is an argument of each operation.
    An operation is a [method] on the state: an error keeps the changes made
    before it.

    The segment's memory map is shared, so its stores are stores to the file; a
    store past the end of the file kills the process ([Panic]).  The future that
    [Segment::sync] hands to the timer has no suspension point, so the timer
    never interrupts it. *)

From Stdlib Require Import ZArith Lia Ascii.
From stdpp Require Import base numbers option strings gmap list.
From S2P Require Import Prelude RustStd Bytes Effects BTree WalEntry.

Local Open Scope Z_scope.

(** ** Files *)

Record Disk : Type := mk_disk {
  files : gmap Z (list byte);
  durable : gmap Z (list byte);
  archive : gmap Z (list byte);
}.

Definition set_file (d : Disk) (id : Z) (content : list byte) : Disk :=
  mk_disk (<[id := content]> (files d)) (durable d) (archive d).

(** Overwrite the bytes of a file from an offset on; a file that is too short
    is first extended with zeros. *)
Definition splice (off : nat) (bs content : list byte) : list byte :=
  resize off Byte.x00 content ++ bs ++ drop (off + length bs) content.

(** [read_exact] of [size] bytes at an offset. *)
Definition read_exact_at (off size : nat) (content : list byte) : option (list byte) :=
  if (off + size <=? length content)%nat then Some (take size (drop off content)) else None.

(** ** Answers of the operating system *)

(** Each answer is the error the call returned, if any.  Opening, resizing and mapping a segment file, and the clock. *)
Record CreateIo : Type := {
  open_answer : option ErrorKind;
  set_len_answer : option ErrorKind;
  map_answer : option ErrorKind;
  create_time : Z;
}.

(** [flush_async_range]; [write_all] with the bytes written before an error. *)
Record WriteIo : Type := {
  flush_async_answer : option ErrorKind;
  write_all_answer : option (nat * ErrorKind);
}.

Record SyncIo : Type := {
  flush_answer : option ErrorKind;
  sync_all_answer : option ErrorKind;
}.

(** One [append]: the free space, the write, the sync, the age of the segment and
    the rotation. *)
Record AppendIo : Type := {
  free_space : ErrorKind + Z;
  write_io : WriteIo;
  append_sync : SyncIo;
  segment_age : Z;
  create_io : CreateIo;
  rotate_sync : SyncIo;
}.

(** One [append_batch]: a write per entry. *)
Record BatchIo : Type := {
  batch_free_space : ErrorKind + Z;
  batch_write_io : nat → WriteIo;
  batch_sync : SyncIo;
}.

(** One compaction of a segment. *)
Record CompactIo : Type := {
  mkdir_answer : option ErrorKind;
  copy_answer : option ErrorKind;
  remove_answer : option ErrorKind;
}.

(** ** State *)

Section FileWal.
Context `{LM : LineageModel} `{WC : !WalCodec}.

(** [Segment]; [cursor] is the file's own write offset, used without a map. *)
Record Segment : Type := mk_segment {
  seg_id : Z;
  mapped : bool;
  cursor : nat;
  position : nat;
  seg_size : nat;
  start_lsn : LogSequenceNumber;
  end_lsn : option LogSequenceNumber;
  created_at : Z;
  entries : list WalEntry;
  dirty : bool;
}.

Record SegmentInfo : Type := mk_segment_info {
  info_id : Z;
  info_start_lsn : LogSequenceNumber;
  info_end_lsn : option LogSequenceNumber;
  info_size : Z;
  info_entries : Z;
  info_created_at : Z;
  archived : bool;
}.

Record SegmentLocation : Type := mk_location {
  segment_id : Z;
  offset : nat;
  size : nat;
}.

Record FileWal : Type := mk_wal {
  config : WalConfig;
  active_segment : Segment;
  segments : btree SegmentInfo;
  current_lsn : Z;
  committed_lsn : Z;
  lsn_index : gmap Z SegmentLocation;
  shutdown : bool;
  disk : Disk;
}.

Definition WalM : Type → Type := method FileWal WalError.

(** Field updates. *)
Definition set_active (w : FileWal) (s : Segment) : FileWal :=
  mk_wal (config w) s (segments w) (current_lsn w) (committed_lsn w) (lsn_index w)
    (shutdown w) (disk w).
Definition set_segments (w : FileWal) (m : btree SegmentInfo) : FileWal :=
  mk_wal (config w) (active_segment w) m (current_lsn w) (committed_lsn w) (lsn_index w)
    (shutdown w) (disk w).
Definition set_current_lsn (w : FileWal) (l : Z) : FileWal :=
  mk_wal (config w) (active_segment w) (segments w) l (committed_lsn w) (lsn_index w)
    (shutdown w) (disk w).
Definition set_committed_lsn (w : FileWal) (l : Z) : FileWal :=
  mk_wal (config w) (active_segment w) (segments w) (current_lsn w) l (lsn_index w)
    (shutdown w) (disk w).
Definition set_lsn_index (w : FileWal) (m : gmap Z SegmentLocation) : FileWal :=
  mk_wal (config w) (active_segment w) (segments w) (current_lsn w) (committed_lsn w) m
    (shutdown w) (disk w).
Definition set_shutdown (w : FileWal) : FileWal :=
  mk_wal (config w) (active_segment w) (segments w) (current_lsn w) (committed_lsn w)
    (lsn_index w) true (disk w).
Definition set_disk (w : FileWal) (d : Disk) : FileWal :=
  mk_wal (config w) (active_segment w) (segments w) (current_lsn w) (committed_lsn w)
    (lsn_index w) (shutdown w) d.

Definition with_end_lsn (s : Segment) (l : LogSequenceNumber) : Segment :=
  mk_segment (seg_id s) (mapped s) (cursor s) (position s) (seg_size s) (start_lsn s) (Some l)
    (created_at s) (entries s) (dirty s).
Definition with_dirty (s : Segment) (b : bool) : Segment :=
  mk_segment (seg_id s) (mapped s) (cursor s) (position s) (seg_size s) (start_lsn s)
    (end_lsn s) (created_at s) (entries s) b.
Definition with_cursor (s : Segment) (c : nat) : Segment :=
  mk_segment (seg_id s) (mapped s) c (position s) (seg_size s) (start_lsn s) (end_lsn s)
    (created_at s) (entries s) (dirty s).

(** The segment after an entry of [n] bytes has been written. *)
Definition with_entry (s : Segment) (n : nat) (e : WalEntry) : Segment :=
  mk_segment (seg_id s) (mapped s) (cursor s) (position s + n) (seg_size s) (start_lsn s)
    (end_lsn s) (created_at s) (entries s ++ [e]) true.

(** A call's answer as a [WalResult]. *)
Definition io_result (r : option ErrorKind) (p : WalPath) : result WalError unit :=
  match r with
  | None => Ok tt
  | Some k => Err (Io k (Some p))
  end.

(** ** Segments *)

(** [FileWal::create_segment]: an existing file is opened as it is. *)
Definition create_segment (io : CreateIo) (cfg : WalConfig) (id : Z)
    (start : LogSequenceNumber) (d : Disk) : Disk * result WalError Segment :=
  match open_answer io with
  | Some k => (d, Err (Io k (Some (SegmentFile id))))
  | None =>
      let content := default [] (files d !! id) in
      let d := set_file d id content in
      match (if preallocate cfg then set_len_answer io else None) with
      | Some k => (d, Err (Io k (Some (SegmentFile id))))
      | None =>
          let d :=
            if preallocate cfg
            then set_file d id (resize (Z.to_nat (max_file_size cfg)) Byte.x00 content)
            else d in
          match (if negb (direct_io cfg) then map_answer io else None) with
          | Some k => (d, Err (Io k (Some (SegmentFile id))))
          | None =>
              (d, Ok {| seg_id := id;
                        mapped := negb (direct_io cfg);
                        cursor := 0;
                        position := 0;
                        seg_size := Z.to_nat (max_file_size cfg);
                        start_lsn := start;
                        end_lsn := None;
                        created_at := create_time io;
                        entries := [];
                        dirty := false |})
          end
      end
  end.

(** [FileWal::new]: whatever the directory holds, the log starts at segment 0
    and sequence number 0. *)
Definition file_wal_new (mkdir : option ErrorKind) (io : CreateIo) (cfg : WalConfig) (d : Disk)
    : Disk * result WalError FileWal :=
  match mkdir with
  | Some k => (d, Err (Io k (Some WalDir)))
  | None =>
      match create_segment io cfg 0 LSN_ZERO d with
      | (d, Ok s) => (d, Ok (mk_wal cfg s [] 0 0 ∅ false d))
      | (d, Err e) => (d, Err e)
      | (d, Panic) => (d, Panic)
      end
  end.

(** The entry as [write_entry_to_segment] stamps it. *)
Definition stamped (e : WalEntry) (l : LogSequenceNumber) : WalEntry :=
  with_header e (set_lsns (header e) l (saturating_pred l)).

(** The bytes of the file of the active segment. *)
Definition active_file (w : FileWal) : list byte :=
  default [] (files (disk w) !! seg_id (active_segment w)).

(** The write of [write_entry_to_segment], through the map or the file. *)
Definition write_bytes (io : WriteIo) (bs : list byte) : WalM unit :=
  w ← gets id;
  let s := active_segment w in
  let p := SegmentFile (seg_id s) in
  if mapped s then
    let write_start := position s in
    let write_end := (write_start + length bs)%nat in
    if (length (active_file w) <? write_end)%nat then panic
    else
      _ ← modify (λ w, set_disk w
             (set_file (disk w) (seg_id s) (splice write_start bs (active_file w))));
      lift (io_result (flush_async_answer io) p)
  else
    match write_all_answer io with
    | None =>
        modify (λ w, set_active
          (set_disk w (set_file (disk w) (seg_id s) (splice (cursor s) bs (active_file w))))
          (with_cursor s (cursor s + length bs)))
    | Some (k, err) =>
        let part := take k bs in
        _ ← modify (λ w, set_active
          (set_disk w (set_file (disk w) (seg_id s) (splice (cursor s) part (active_file w))))
          (with_cursor s (cursor s + length part)));
        fail (Io err (Some p))
    end.

(** [FileWal::write_entry_to_segment]. *)
Definition write_entry_to_segment (io : WriteIo) (e : WalEntry) (l : LogSequenceNumber)
    : WalM nat :=
  let e := stamped e l in
  let bs := to_bytes e in
  let sz := length bs in
  s ← gets active_segment;
  _ ← guard_ok (position s + sz <=? seg_size s)%nat (WalFull (Z.of_nat (seg_size s)));
  _ ← write_bytes io bs;
  _ ← modify (λ w, set_active w (with_entry (active_segment w) sz (sealed e)));
  mret sz.

(** [Segment::sync] of the active segment: what the file holds becomes durable. *)
Definition segment_sync (io : SyncIo) (mode : FsyncMode) : WalM unit :=
  match mode with
  | EveryWrite | BatchSync | OnDemand =>
      w ← gets id;
      let s := active_segment w in
      let p := SegmentFile (seg_id s) in
      _ ← lift (if mapped s then io_result (flush_answer io) p else Ok tt);
      _ ← lift (io_result (sync_all_answer io) p);
      modify (λ w, set_active
        (set_disk w (mk_disk (files (disk w))
           (<[seg_id s := active_file w]> (durable (disk w))) (archive (disk w))))
        (with_dirty s false))
  | Periodic | NoSync => mret tt
  end.

(** [FileWal::ensure_sufficient_disk_space]. *)
Definition ensure_sufficient_disk_space (free : ErrorKind + Z) (required : nat) : WalM unit :=
  w ← gets id;
  let min_free := min_free_disk_space (config w) in
  if min_free =? 0 then mret tt
  else
    match free with
    | inl k => fail (Io k (Some WalDir))
    | inr available =>
        guard_ok (min_free <=? available)
          (InsufficientDiskSpace available (Z.of_nat required) min_free)
    end.

(** ** Rotation *)

(** [FileWal::should_rotate], with the age of the active segment. *)
Definition should_rotate (age : Z) (w : FileWal) : bool :=
  let s := active_segment w in
  match rotation_policy (config w) with
  | RotateSize max_size => max_size <=? Z.of_nat (position s)
  | RotateTime max_age => max_age <=? age
  | RotateSizeAndTime max_size max_age =>
      (max_size <=? Z.of_nat (position s)) || (max_age <=? age)
  | RotateEntryCount max_entries => max_entries <=? Z.of_nat (length (entries s))
  | RotateCustom _ => false
  end.

(** The first half of [rotate_internal]: the sequence number and the new
    segment, before the active segment is locked. *)
Definition rotate_prepare (io : CreateIo) : WalM (LogSequenceNumber * Segment) :=
  w ← gets id;
  let current := current_lsn w in
  let new_segment_id := seg_id (active_segment w) + 1 in
  let '(d, r) := create_segment io (config w) new_segment_id current (disk w) in
  _ ← modify (λ w, set_disk w d);
  new_segment ← lift r;
  mret (current, new_segment).

(** The second half, under the lock: close, sync and replace the segment. *)
Definition rotate_swap (io : SyncIo) (current : LogSequenceNumber) (new_segment : Segment)
    : WalM unit :=
  _ ← modify (λ w, set_active w (with_end_lsn (active_segment w) current));
  _ ← segment_sync io OnDemand;
  modify (λ w,
    let s := active_segment w in
    let info := mk_segment_info (seg_id s) (start_lsn s) (end_lsn s)
                  (Z.of_nat (position s)) (Z.of_nat (length (entries s))) (created_at s) false in
    set_active (set_segments w (btree_insert (seg_id s) info (segments w))) new_segment).

(** [FileWal::rotate_internal]. *)
Definition rotate_internal (cio : CreateIo) (sio : SyncIo) : WalM unit :=
  p ← rotate_prepare cio;
  rotate_swap sio p.1 p.2.

(** ** Writing *)

(** [fetch_add] on the counter of sequence numbers, which wraps. *)
Definition fetch_add (n : Z) : WalM LogSequenceNumber :=
  l ← gets current_lsn;
  _ ← modify (λ w, set_current_lsn w ((l + n) mod 2 ^ 64));
  mret l.

(** Write an entry and record where it went. *)
Definition write_indexed (io : WriteIo) (e : WalEntry) (l : LogSequenceNumber)
    : WalM LogSequenceNumber :=
  sz ← write_entry_to_segment io e l;
  _ ← modify (λ w,
    let s := active_segment w in
    set_lsn_index w (<[l := mk_location (seg_id s) (position s - sz) sz]> (lsn_index w)));
  mret l.

(** [append]: the part before the lock and the part under it; the rotation has two
    parts of its own, above.  Callers that overlap interleave these parts. *)
Definition append_reserve (free : ErrorKind + Z) (e : WalEntry) : WalM LogSequenceNumber :=
  _ ← ensure_sufficient_disk_space free (length (to_bytes e));
  fetch_add 1.

Definition append_write (wio : WriteIo) (sio : SyncIo) (e : WalEntry) (l : LogSequenceNumber)
    : WalM unit :=
  _ ← write_indexed wio e l;
  mode ← gets (λ w, fsync_mode (config w));
  match mode with
  | EveryWrite => segment_sync sio mode
  | _ => mret tt
  end.

(** [FileWal::append] by a caller that no other overlaps. *)
Definition append (io : AppendIo) (e : WalEntry) : WalM LogSequenceNumber :=
  l ← append_reserve (free_space io) e;
  _ ← append_write (write_io io) (append_sync io) e l;
  rot ← gets (should_rotate (segment_age io));
  _ ← (if (rot : bool) then rotate_internal (create_io io) (rotate_sync io) else mret tt);
  mret l.

(** [FileWal::append_batch]. *)
Definition append_batch (io : BatchIo) (es : list WalEntry) : WalM (list LogSequenceNumber) :=
  let batch_size := sum_list_with (λ e, length (to_bytes e)) es in
  _ ← ensure_sufficient_disk_space (batch_free_space io) batch_size;
  start ← fetch_add (Z.of_nat (length es));
  lsns ← method_mapM (λ p, write_indexed (batch_write_io io p.1) p.2 (start + Z.of_nat p.1))
           (imap pair es);
  mode ← gets (λ w, fsync_mode (config w));
  _ ← match mode with
      | EveryWrite | BatchSync => segment_sync (batch_sync io) mode
      | _ => mret tt
      end;
  mret lsns.

(** [FileWal::sync]. *)
Definition sync (io : SyncIo) : WalM unit := segment_sync io OnDemand.

(** The body of the sync worker, when more than [sync_interval] has passed since
    the last sync ([due]): an error is only logged. *)
Definition sync_tick (due : bool) (io : SyncIo) : WalM unit :=
  s ← gets active_segment;
  mode ← gets (λ w, fsync_mode (config w));
  if dirty s && due then
    ignore_errors (_ ← segment_sync io mode;
                   modify (λ w, set_active w (with_dirty (active_segment w) false)))
  else mret tt.

(** [FileWal::commit] and [FileWal::commit_batch]. *)
Definition commit (l : LogSequenceNumber) : WalM unit :=
  modify (λ w, set_committed_lsn w l).

Definition commit_batch (ls : list LogSequenceNumber) : WalM unit :=
  match ls with
  | [] => mret tt
  | l :: ls' => modify (λ w, set_committed_lsn w (foldl Z.max l ls'))
  end.

(** [FileWal::truncate]. *)
Definition truncate (up_to : LogSequenceNumber) : WalM unit :=
  modify (λ w, set_committed_lsn
    (set_lsn_index w (filter (λ p, up_to < p.1) (lsn_index w))) up_to).

(** [FileWal::close], the workers stopped. *)
Definition close (io : SyncIo) : WalM unit :=
  _ ← modify set_shutdown;
  sync io.

(** ** Compaction *)

(** The archived copy [compact_segment] makes when it is configured. *)
Definition archive_copy (io : CompactIo) (info : SegmentInfo) : WalM unit :=
  cfg ← gets config;
  if archive_before_compact (compaction_policy cfg) then
    _ ← lift (io_result (mkdir_answer io) ArchiveDir);
    d ← gets disk;
    match files d !! info_id info with
    | None => fail (Io NotFoundKind (Some (SegmentFile (info_id info))))
    | Some content =>
        _ ← lift (io_result (copy_answer io) (SegmentFile (info_id info)));
        modify (λ w, set_disk w
          (mk_disk (files d) (durable d) (<[info_id info := content]> (archive d))))
    end
  else mret tt.

(** Its removal of the range [start..=end] from the index. *)
Definition cleanup_index (info : SegmentInfo) (w : FileWal) : FileWal :=
  match info_end_lsn info with
  | Some end_ =>
      set_lsn_index w (filter (λ p, ¬ (info_start_lsn info ≤ p.1 ≤ end_)) (lsn_index w))
  | None => w
  end.

(** Its removal of the file. *)
Definition remove_segment_file (io : CompactIo) (info : SegmentInfo) : WalM unit :=
  d ← gets disk;
  match files d !! info_id info with
  | None => fail (Io NotFoundKind (Some (SegmentFile (info_id info))))
  | Some _ =>
      _ ← lift (io_result (remove_answer io) (SegmentFile (info_id info)));
      modify (λ w, set_disk w
        (mk_disk (delete (info_id info) (files d)) (delete (info_id info) (durable d))
           (archive d)))
  end.

(** [FileWal::compact_segment]. *)
Definition compact_segment (io : CompactIo) (info : SegmentInfo) : WalM unit :=
  _ ← archive_copy io info;
  _ ← modify (cleanup_index info);
  remove_segment_file io info.

Definition eligible (committed : Z) (info : SegmentInfo) : bool :=
  negb (archived info) &&
  match info_end_lsn info with
  | Some end_ => end_ <=? committed
  | None => false
  end.

(** The body of the compaction worker; [io] answers for each segment. *)
Definition compaction_tick (io : Z → CompactIo) : WalM unit :=
  w ← gets id;
  let policy := compaction_policy (config w) in
  if negb (cp_enabled policy) then mret tt
  else
    let el := List.filter (eligible (committed_lsn w)) (map snd (segments w)) in
    if min_segments policy <=? Z.of_nat (length el) then
      _ ← method_mapM (λ info, ignore_errors (compact_segment (io (info_id info)) info)) el;
      mret tt
    else mret tt.

(** ** Reading *)

(** [FileWal::tail_lsn], [FileWal::head_lsn] (the addition traps or wraps), and
    [FileWal::is_healthy]. *)
Definition tail_lsn (w : FileWal) : LogSequenceNumber := current_lsn w.

Definition head_lsn (overflow_checks : bool) (w : FileWal) : result WalError LogSequenceNumber :=
  let h := committed_lsn w + 1 in
  if h <=? u64_max then Ok h else if overflow_checks then Panic else Ok (h mod 2 ^ 64).

Definition is_healthy (w : FileWal) : bool :=
  negb (shutdown w) && (position (active_segment w) <? seg_size (active_segment w))%nat.

Definition lsn_index_size (w : FileWal) : nat := base.size (lsn_index w).

(** [FileWal::read]; [open] is the answer to opening a file that exists. *)
Definition read (open : option ErrorKind) (l : LogSequenceNumber) (w : FileWal)
    : result WalError WalEntry :=
  loc ← ok_or (lsn_index w !! l) (InvalidLsn l);
  info ← ok_or (btree_get (segment_id loc) (segments w)) (InvalidLsn l);
  let p := SegmentFile (info_id info) in
  content ← ok_or (files (disk w) !! info_id info) (Io NotFoundKind (Some p));
  _ ← io_result open p;
  bs ← ok_or (read_exact_at (offset loc) (size loc) content) (Io OtherKind (Some p));
  match from_bytes bs with
  | Ok e => Ok e
  | Err msg =>
      match str_find msg "Checksum" with
      | Some _ => Err (ChecksumMismatch l 0 0)
      | None => Err (Corruption l msg false)
      end
  | Panic => Panic
  end.

(** The loop of [FileWal::scan]: missing numbers are skipped, other errors end it. *)
Fixpoint scan_loop (open : option ErrorKind) (ls : list LogSequenceNumber) (w : FileWal)
    : result WalError (list WalEntry) :=
  match ls with
  | [] => Ok []
  | l :: ls' =>
      match read open l w with
      | Ok e => es ← scan_loop open ls' w; Ok (e :: es)
      | Err (InvalidLsn _) => scan_loop open ls' w
      | Err e => Err e
      | Panic => Panic
      end
  end.

(** [FileWal::scan] of [start..end_]. *)
Definition scan (open : option ErrorKind) (start end_ : LogSequenceNumber) (w : FileWal)
    : result WalError (list WalEntry) :=
  scan_loop open (seqZ start (end_ - start)) w.

(** [FileWal::find]. *)
Definition find (overflow_checks : bool) (open : option ErrorKind) (p : WalEntry → bool)
    (w : FileWal) : result WalError (list WalEntry) :=
  head ← head_lsn overflow_checks w;
  all_entries ← scan open head (tail_lsn w) w;
  Ok (List.filter p all_entries).
End FileWal.

#[global] Arguments segment_sync : simpl never.
