(* ===== verification/WalFileFacts.v ===== *)
(** * Write-ahead log: correctness of the segmented file

    The invariant of [FileWal] and what an acknowledged append promises: its
    bytes stay where the index says they are, whatever operations follow, until
    the index drops them. *)

From Stdlib Require Import ZArith Lia Ascii.
From stdpp Require Import base numbers option strings gmap list.
From S2P Require Import Prelude RustStd Bytes Effects BTree WalEntry WalFile.

Local Open Scope Z_scope.

(** ** Byte ranges *)

Definition slice (off n : nat) (f : list byte) : list byte := take n (drop off f).

Lemma splice_length off bs f :
  (off + length bs ≤ length f)%nat → length (splice off bs f) = length f.
Proof. intros H. unfold splice. rewrite !length_app, length_resize, length_drop. lia. Qed.

Lemma slice_splice_same off bs f : slice off (length bs) (splice off bs f) = bs.
Proof.
  unfold slice, splice. rewrite drop_app_length' by (by rewrite length_resize).
  apply take_app_length.
Qed.

Lemma slice_splice_before o n off bs f :
  (o + n ≤ off)%nat → (off ≤ length f)%nat → slice o n (splice off bs f) = slice o n f.
Proof.
  intros Ho Hf. unfold slice, splice. rewrite resize_le by lia.
  rewrite drop_app_le by (rewrite length_take; lia).
  rewrite take_app_le by (rewrite length_drop, length_take; lia).
  rewrite !take_drop_commute, take_take. f_equal. f_equal. lia.
Qed.

Section FileWalFacts.
Context `{LM : LineageModel} `{WC : !WalCodec}.

(** ** The invariant *)

(** The configuration of all presets: preallocated, memory-mapped segments. *)
Definition mapped_config (cfg : WalConfig) : Prop :=
  direct_io cfg = false ∧ preallocate cfg = true.

(** Where an indexed entry lies: in the part of the active segment that has been
    written, or in a closed segment whose range of numbers has it. *)
Definition placed (w : FileWal) (l : LogSequenceNumber) (loc : SegmentLocation) : Prop :=
  let s := active_segment w in
  (segment_id loc = seg_id s ∧ start_lsn s ≤ l ∧ (offset loc + size loc ≤ position s)%nat) ∨
  (∃ info end_, btree_get (segment_id loc) (segments w) = Some info ∧
     info_end_lsn info = Some end_ ∧ info_start_lsn info ≤ l ≤ end_).

Record wal_inv (w : FileWal) : Prop := {
  inv_config : mapped_config (config w);
  inv_mapped : mapped (active_segment w) = true;
  inv_file : ∃ f, files (disk w) !! seg_id (active_segment w) = Some f ∧
               length f = seg_size (active_segment w);
  inv_position : (position (active_segment w) ≤ seg_size (active_segment w))%nat;
  inv_start : 0 ≤ start_lsn (active_segment w) ≤ current_lsn w;
  inv_segments : ∀ k info, (k, info) ∈ segments w →
    k = info_id info ∧ k < seg_id (active_segment w);
  inv_sorted : btree_ok (segments w);
  inv_index : ∀ l loc, lsn_index w !! l = Some loc →
    0 ≤ l < current_lsn w ∧ placed w l loc ∧
    ∃ f, files (disk w) !! segment_id loc = Some f ∧ (offset loc + size loc ≤ length f)%nat;
}.

(** The entry's bytes are where the index says. *)
Definition holds (l : LogSequenceNumber) (e : WalEntry) (w : FileWal) : Prop :=
  ∃ loc f, lsn_index w !! l = Some loc ∧ files (disk w) !! segment_id loc = Some f ∧
    size loc = length (to_bytes (stamped e l)) ∧
    slice (offset loc) (size loc) f = to_bytes (stamped e l).

(** ... unless the index no longer has it. *)
Definition tracked (l : LogSequenceNumber) (e : WalEntry) (w : FileWal) : Prop :=
  wal_inv w ∧ l < current_lsn w ∧ (lsn_index w !! l = None ∨ holds l e w).

(** The same during a write of the numbers from [lo] to [hi] (excluded). *)
Definition writing (l : LogSequenceNumber) (e : WalEntry) (lo hi : Z) (w : FileWal) : Prop :=
  tracked l e w ∧ start_lsn (active_segment w) ≤ lo ∧ hi ≤ current_lsn w ∧ l < lo.

Lemma placed_segment w l loc :
  wal_inv w → placed w l loc → segment_id loc ≤ seg_id (active_segment w).
Proof.
  intros I [(-> & _)|(info & end_ & Hg & _)]; [lia|].
  apply btree_get_elem, (inv_segments w I) in Hg. lia.
Qed.

(** ** Changes of the active segment's flags *)

(** Two segments that differ only in their bookkeeping fields. *)
Definition same_extent (s s' : Segment) : Prop :=
  seg_id s = seg_id s' ∧ mapped s = mapped s' ∧ position s = position s' ∧
  seg_size s = seg_size s' ∧ start_lsn s = start_lsn s'.

(** States that agree on everything the invariant is about. *)
Definition same_log (w w' : FileWal) : Prop :=
  config w = config w' ∧ same_extent (active_segment w) (active_segment w') ∧
  segments w = segments w' ∧ current_lsn w = current_lsn w' ∧ lsn_index w = lsn_index w' ∧
  files (disk w) = files (disk w').

Lemma wal_inv_same w w' : same_log w w' → wal_inv w → wal_inv w'.
Proof.
  intros (Ec & (E1 & E2 & E3 & E4 & E5) & Es & El & Ei & Ef) [].
  constructor; unfold placed in *; rewrite <- ?Ec, <- ?E1, <- ?E2, <- ?E3, <- ?E4, <- ?E5,
    <- ?Es, <- ?El, <- ?Ei, <- ?Ef; done.
Qed.

Lemma tracked_same l e w w' : same_log w w' → tracked l e w → tracked l e w'.
Proof.
  intros Hs (I & Hl & Ht). split; [by eapply wal_inv_same|].
  destruct Hs as (_ & _ & _ & El & Ei & Ef). unfold holds in *.
  rewrite <- El, <- Ei, <- Ef. done.
Qed.

Lemma writing_same l e lo hi w w' : same_log w w' → writing l e lo hi w → writing l e lo hi w'.
Proof.
  intros Hs (Ht & H). split; [by eapply tracked_same|].
  destruct Hs as (_ & (_ & _ & _ & _ & E5) & _ & El & _). rewrite <- E5, <- El. done.
Qed.

(** A method that keeps [same_log] keeps what is tracked. *)
Definition keeps_log {A} (m : WalM A) : Prop := ∀ w w' r, m w = (w', r) → same_log w w'.

Lemma keeps_log_writing {A} (m : WalM A) l e lo hi :
  keeps_log m → preserves (writing l e lo hi) m.
Proof. intros Hm w w' r Hr. apply writing_same. by eapply Hm. Qed.

Lemma keeps_log_tracked {A} (m : WalM A) l e : keeps_log m → preserves (tracked l e) m.
Proof. intros Hm w w' r Hr. apply tracked_same. by eapply Hm. Qed.

Lemma same_log_refl w : same_log w w.
Proof. repeat split. Qed.

Lemma segment_sync_keeps_log io mode : keeps_log (segment_sync io mode).
Proof.
  intros w w' r. unfold segment_sync.
  unfold io_result. unfold_method.
  destruct mode; simpl; try (intros [= <- <-]; apply same_log_refl);
    destruct (mapped _), (flush_answer io), (sync_all_answer io); simpl;
    intros ?; simplify_eq; repeat split.
Qed.

Lemma sync_tick_keeps_log due io : keeps_log (sync_tick due io).
Proof.
  intros w w' r Hr. unfold sync_tick, ignore_errors in Hr. unfold_method.
  destruct (dirty _ && due); [|simplify_eq; apply same_log_refl].
  destruct (segment_sync _ _ _) as [w1 r1] eqn:Hs. apply segment_sync_keeps_log in Hs.
  destruct r1 as [[]| |]; simplify_eq; done.
Qed.

(** A sync keeps the closing number of the segment and makes its file durable. *)
Lemma segment_sync_end io mode w w' r :
  segment_sync io mode w = (w', r) →
  end_lsn (active_segment w') = end_lsn (active_segment w) ∧
  (r = Ok tt → mode ≠ Periodic → mode ≠ NoSync →
   durable (disk w') !! seg_id (active_segment w) = Some (active_file w)).
Proof.
  unfold segment_sync, io_result. unfold_method.
  destruct mode; simpl; try (by intros [= <- <-]);
    destruct (mapped _), (flush_answer io), (sync_all_answer io); simpl;
    intros ?; simplify_eq; simpl; rewrite ?lookup_insert_eq; done.
Qed.

(** ** Writing *)

(** A store into the free part of the active segment moves nothing. *)
Lemma splice_tracked l e lo hi w off bs :
  writing l e lo hi w → off = position (active_segment w) →
  (off + length bs ≤ length (active_file w))%nat →
  writing l e lo hi
    (set_disk w (set_file (disk w) (seg_id (active_segment w)) (splice off bs (active_file w)))).
Proof.
  intros ((I & Hl & Ht) & Hw) -> Hn.
  destruct (inv_file w I) as (f & Hf & Hlen). unfold active_file in *. rewrite Hf in *. simpl in *.
  pose proof (splice_length _ _ _ Hn) as Hsl.
  split; [split; [|split; [done|]]|done].
  - destruct I; constructor; simpl; try done.
    + exists (splice (position (active_segment w)) bs f). by rewrite lookup_insert_eq, Hsl.
    + intros k loc Hk. destruct (inv_index0 k loc Hk) as ([? ?] & ? & g & Hg & Hlg).
      split_and!; [done..|]. destruct (decide (segment_id loc = seg_id (active_segment w))) as [E|E].
      * rewrite E in *. simplify_eq. eexists. rewrite lookup_insert_eq. split; [done|]. by rewrite Hsl.
      * exists g. by rewrite lookup_insert_ne.
  - destruct Ht as [Ht|(loc & g & Hi & Hg & Hsz & Hb)]; [by left|right].
    destruct (inv_index w I l loc Hi) as (_ & Hp & _).
    destruct (decide (segment_id loc = seg_id (active_segment w))) as [E|E].
    + eexists loc, _. simpl. rewrite E, lookup_insert_eq. split_and!; try done.
      rewrite E in Hg. simplify_eq. rewrite slice_splice_before; [done| |lia].
      destruct Hp as [(_ & _ & ?)|(info & end_ & Hgi & _)]; [done|].
      apply btree_get_elem, (inv_segments w I) in Hgi. lia.
    + exists loc, g. simpl. by rewrite lookup_insert_ne.
Qed.

Lemma write_bytes_writing io bs l e lo hi : preserves (writing l e lo hi) (write_bytes io bs).
Proof.
  intros w w' r Hr Hw. pose proof Hw as ((I & _) & _). revert Hr. unfold write_bytes.
  unfold_method.
  rewrite (inv_mapped w I). destruct (Nat.ltb_spec (length (active_file w))
    (position (active_segment w) + length bs)) as [?|Hn]; intros ?; simplify_eq; [done|].
  unfold io_result in *. repeat case_match; simplify_eq; by apply splice_tracked.
Qed.

(** Marking the bytes as used and indexing them. *)
Lemma entry_tracked l e lo hi w n x l' :
  writing l e lo hi w → lo ≤ l' < hi →
  (position (active_segment w) + n ≤ seg_size (active_segment w))%nat →
  let s := with_entry (active_segment w) n x in
  writing l e lo hi (set_active w s) ∧
  writing l e lo hi
    (set_lsn_index (set_active w s)
       (<[l' := mk_location (seg_id s) (position s - n) n]> (lsn_index w))).
Proof.
  intros ((I & Hl & Ht) & Hlo & Hhi & Hll) Hl' Hn s.
  destruct (inv_file w I) as (f & Hf & Hlen).
  assert (wal_inv (set_active w s)) as I'.
  { destruct I; constructor; simpl; try done.
    intros k loc Hk. destruct (inv_index0 k loc Hk) as ([? ?] & Hp & ?). split_and!; [done|done| |done].
      unfold placed in *; simpl.
      destruct Hp as [(? & ? & ?)|?]; [left|by right]. split_and!; [done..|lia]. }
  split.
  { split; [split; [done|split; [done|]]|done]. done. }
  split; [split; [|split; [done|]]|done].
  - destruct I' as []; constructor; simpl in *; try done.
    intros k loc. rewrite lookup_insert_Some. intros [[<- <-]|[Hne Hk]].
    + split_and!; [|lia| |exists f; simpl; split; [done|lia]]; [lia|].
      unfold placed; simpl. left. split_and!; [done|lia|lia].
    + destruct (inv_index0 k loc Hk) as ([? ?] & ? & ?). done.
  - destruct Ht as [Ht|(loc & g & ?)].
    + left. simpl. rewrite lookup_insert_ne by lia. done.
    + right. exists loc, g. simpl. rewrite lookup_insert_ne by lia. done.
Qed.

(** The state after the bytes of an entry have been stored. *)
Definition stored (w : FileWal) (bs : list byte) : FileWal :=
  set_disk w (set_file (disk w) (seg_id (active_segment w))
    (splice (position (active_segment w)) bs (active_file w))).

Lemma active_file_length w :
  wal_inv w → length (active_file w) = seg_size (active_segment w).
Proof. intros I. destruct (inv_file w I) as (f & Hf & Hlen). unfold active_file. by rewrite Hf. Qed.

(** The outcomes of [write_entry_to_segment] on a mapped segment. *)
Lemma write_entry_outcomes io e l w w' r :
  wal_inv w → write_entry_to_segment io e l w = (w', r) →
  let s := active_segment w in
  let bs := to_bytes (stamped e l) in
  ((seg_size s < position s + length bs)%nat ∧ w' = w ∧ r = Err (WalFull (Z.of_nat (seg_size s)))) ∨
  ((position s + length bs ≤ seg_size s)%nat ∧
   (flush_async_answer io = None ∧ r = Ok (length bs) ∧
      w' = set_active (stored w bs) (with_entry s (length bs) (sealed (stamped e l))) ∨
    ∃ k, flush_async_answer io = Some k ∧ r = Err (Io k (Some (SegmentFile (seg_id s)))) ∧
      w' = stored w bs)).
Proof.
  intros I. unfold write_entry_to_segment, write_bytes, stored.
  unfold_method. pose proof (active_file_length w I) as Hlen.
  destruct (Nat.leb_spec (position (active_segment w) + length (to_bytes (stamped e l)))
    (seg_size (active_segment w))) as [Hle|Hlt]; simpl.
  - rewrite (inv_mapped w I). rewrite (proj2 (Nat.ltb_ge _ _)) by lia.
    destruct (flush_async_answer io) as [k|]; simpl; intros [= <- <-]; right; eauto 10.
  - intros [= <- <-]. left. auto.
Qed.

Lemma stored_writing l e lo hi w bs :
  writing l e lo hi w →
  (position (active_segment w) + length bs ≤ seg_size (active_segment w))%nat →
  writing l e lo hi (stored w bs).
Proof.
  intros Hw Hn. apply splice_tracked; [done..|].
  destruct Hw as ((I & _) & _). rewrite (active_file_length w I). lia.
Qed.

Lemma write_indexed_writing io e' l' l e lo hi :
  lo ≤ l' < hi → preserves (writing l e lo hi) (write_indexed io e' l').
Proof.
  intros Hl' w w' r Hr Hw. pose proof Hw as ((I & _) & _).
  unfold write_indexed in Hr. apply method_bind_inv in Hr
    as [(w1 & sz & Hr & Hr2)|[(err & Hr & ->)|[Hr ->]]];
    destruct (write_entry_outcomes _ _ _ _ _ _ I Hr)
      as [(? & -> & ?)|(Hn & [(_ & ? & ->)|(k & _ & ? & ->)])]; simplify_eq; try done.
  - unfold_method. simplify_eq.
    by eapply (entry_tracked _ _ _ _ (stored w _)); [apply stored_writing|..].
  - by apply stored_writing.
Qed.

(** A successful write leaves the entry's bytes where the index says. *)
Lemma write_indexed_holds io e l w w' r :
  wal_inv w → write_indexed io e l w = (w', Ok r) → r = l ∧ holds l e w'.
Proof.
  intros I Hr. apply method_bind_Ok in Hr as (w1 & sz & Hr & Hr2).
  destruct (write_entry_outcomes _ _ _ _ _ _ I Hr)
    as [(? & -> & ?)|(Hn & [(_ & ? & ->)|(k & _ & ? & ->)])]; simplify_eq.
  unfold_method. simplify_eq.
  split; [done|]. eexists _, _. simpl. rewrite lookup_insert_eq. split; [done|]. simpl.
  rewrite lookup_insert_eq. split_and!; [done..|].
  rewrite Nat.add_sub. apply slice_splice_same.
Qed.

(** ** Rotation *)

Lemma create_segment_ok io cfg id start d d' s :
  mapped_config cfg → create_segment io cfg id start d = (d', Ok s) →
  seg_id s = id ∧ mapped s = true ∧ position s = 0%nat ∧ start_lsn s = start ∧
  entries s = [] ∧ (∃ f, files d' !! id = Some f ∧ length f = seg_size s).
Proof.
  intros [Hd Hp]. unfold create_segment. rewrite Hd, Hp. simpl.
  repeat case_match; intros ?; simplify_eq; simpl. split_and!; try done.
  eexists. rewrite lookup_insert_eq. split; [done|]. by rewrite length_resize.
Qed.

Lemma create_segment_files io cfg id start d d' r k :
  create_segment io cfg id start d = (d', r) → k ≠ id → files d' !! k = files d !! k.
Proof.
  intros H Hk. unfold create_segment in H. repeat case_match; simplify_eq; simpl;
    rewrite ?lookup_insert_ne by done; done.
Qed.

(** Another disk with the same segment files. *)
Lemma tracked_disk l e w d :
  (∀ k, k ≤ seg_id (active_segment w) → files d !! k = files (disk w) !! k) →
  tracked l e w → tracked l e (set_disk w d).
Proof.
  intros Hd (I & Hl & Ht). pose proof (placed_segment w) as Hps.
  split; [|split; [done|]].
  - pose proof I as []. constructor; simpl; try done.
    + rewrite Hd by lia. done.
    + intros k loc Hk. destruct (inv_index0 k loc Hk) as ([? ?] & Hp & f & Hf & ?).
      split_and!; [done..|]. exists f. rewrite Hd; [done|]. by eapply Hps.
  - destruct Ht as [?|(loc & f & Hi & Hf & ?)]; [by left|right]. exists loc, f. simpl.
    rewrite Hd; [done|]. eapply Hps; [done|]. by apply (inv_index w I) in Hi as (_ & ? & _).
Qed.

(** The replacement of the active segment by a fresh one. *)
Definition swapped (w : FileWal) (new_segment : Segment) : FileWal :=
  let s := active_segment w in
  let info := mk_segment_info (seg_id s) (start_lsn s) (end_lsn s)
                (Z.of_nat (position s)) (Z.of_nat (length (entries s))) (created_at s) false in
  set_active (set_segments w (btree_insert (seg_id s) info (segments w))) new_segment.

Lemma swapped_tracked l e w s' :
  tracked l e w → end_lsn (active_segment w) = Some (current_lsn w) →
  seg_id s' = seg_id (active_segment w) + 1 → mapped s' = true → position s' = 0%nat →
  start_lsn s' = current_lsn w →
  (∃ f, files (disk w) !! seg_id s' = Some f ∧ length f = seg_size s') →
  tracked l e (swapped w s').
Proof.
  intros (I & Hl & Ht) Hend Hid Hm Hp Hst Hf. split; [|done].
  destruct I. constructor; simpl; try done.
  - rewrite Hp. lia.
  - lia.
  - intros k info. rewrite btree_insert_elem by done. rewrite Hid. intros [[-> ->]|[_ ?%inv_segments0]].
    + simpl. lia.
    + lia.
  - by apply btree_insert_ok.
  - intros k loc Hk. destruct (inv_index0 k loc Hk) as ([? ?] & Hpl & Hfl).
    split_and!; [done|done| |done]. unfold placed; simpl. right.
    destruct Hpl as [(E & Hks & _)|(info & end_ & Hg & He & Hr)].
    + rewrite E, Hend. eexists _, _. split.
      * apply btree_elem_get; [by apply btree_insert_ok|].
        apply btree_insert_elem; [done|]. by left.
      * simpl. split; [done|lia].
    + exists info, end_. split_and!; [|done|lia..].
      apply btree_elem_get; [by apply btree_insert_ok|]. apply btree_insert_elem; [done|].
      right. apply btree_get_elem in Hg. split; [|done]. apply inv_segments0 in Hg. lia.
Qed.

Lemma rotate_prepare_outcome io w w' r :
  rotate_prepare io w = (w', r) →
  ∃ d rs, create_segment io (config w) (seg_id (active_segment w) + 1) (current_lsn w) (disk w)
            = (d, rs) ∧ w' = set_disk w d ∧
    ∀ p, r = Ok p → p.1 = current_lsn w ∧ rs = Ok p.2.
Proof.
  unfold rotate_prepare. unfold_method.
  destruct (create_segment _ _ _ _ _) as [d [s| |]]; intros ?; simplify_eq;
    eexists _, _; split_and!; try done. by intros ? [= <-].
Qed.

Lemma rotate_prepare_tracked io l e w w' r :
  rotate_prepare io w = (w', r) → tracked l e w → tracked l e w'.
Proof.
  intros (d & rs & Hc & -> & _)%rotate_prepare_outcome Ht.
  apply tracked_disk; [|done]. intros k Hk. eapply create_segment_files; [done|lia].
Qed.

Lemma rotate_tracked cio sio l e : preserves (tracked l e) (rotate_internal cio sio).
Proof.
  intros w w' r Hr Ht. unfold rotate_internal in Hr.
  apply method_bind_inv in Hr as [(w1 & [cur s'] & Hp & Hr)|[(? & ? & _)|(? & _)]];
    [|by eapply rotate_prepare_tracked..].
  pose proof (rotate_prepare_tracked _ _ _ _ _ _ Hp Ht) as Ht1.
  apply rotate_prepare_outcome in Hp as (d & rs & Hc & -> & Hok).
  destruct (Hok _ eq_refl) as [E ->]. simpl in E. subst cur.
  destruct (create_segment_ok _ _ _ _ _ _ _ (inv_config w (proj1 Ht)) Hc)
    as (Hid & Hm & Hp & Hst & _ & Hf).
  unfold rotate_swap in Hr. unfold_method. set (w1 := set_active _ _) in Hr.
  assert (tracked l e w1) as Ht2 by (by eapply tracked_same; [|exact Ht1]; repeat split).
  destruct (segment_sync sio OnDemand w1) as [w2 r2] eqn:Hs.
  pose proof (segment_sync_keeps_log _ _ _ _ _ Hs) as Hsame.
  pose proof (tracked_same _ _ _ _ Hsame Ht2) as Ht3.
  destruct r2 as [[]|err|]; simplify_eq; try done.
  destruct (segment_sync_end _ _ _ _ _ Hs) as [He _].
  destruct Hsame as (_ & (E1 & _) & _ & El & _ & Ef).
  apply (swapped_tracked _ _ w2); rewrite <- ?E1, <- ?El, <- ?Ef, ?He; simpl; try done.
  by rewrite Hid.
Qed.

(** ** Compaction, truncation *)

(** Dropping entries from the index. *)
Lemma index_sub_tracked l e w m :
  m ⊆ lsn_index w → tracked l e w → tracked l e (set_lsn_index w m).
Proof.
  intros Hm (I & Hl & Ht). split; [|split; [done|]].
  - destruct I. constructor; simpl; try done.
    intros k loc Hk. apply inv_index0. by eapply lookup_weaken.
  - simpl. destruct (m !! l) as [loc|] eqn:Hk; [right|by left].
    pose proof (lookup_weaken _ _ _ _ Hk Hm) as Hk'.
    destruct Ht as [?|(loc' & f & Hi & ?)]; [congruence|].
    exists loc, f. simpl. by simplify_eq.
Qed.

(** Removing a file no indexed entry lies in. *)
Lemma remove_file_tracked l e w id du ar :
  id ≠ seg_id (active_segment w) →
  (∀ k loc, lsn_index w !! k = Some loc → segment_id loc ≠ id) →
  tracked l e w → tracked l e (set_disk w (mk_disk (delete id (files (disk w))) du ar)).
Proof.
  intros Hid Hno (I & Hl & Ht). split; [|split; [done|]].
  - destruct I. constructor; simpl; try done.
    + by rewrite lookup_delete_ne.
    + intros k loc Hk. destruct (inv_index0 k loc Hk) as ([? ?] & ? & f & Hf & ?).
      split_and!; [done..|]. exists f. rewrite lookup_delete_ne; [done|]. intros E.
      by apply (Hno _ _ Hk).
  - destruct Ht as [?|(loc & f & Hi & Hf & ?)]; [by left|right]. exists loc, f. simpl.
    rewrite lookup_delete_ne; [done|]. intros E. by apply (Hno _ _ Hi).
Qed.

Lemma archive_tracked l e w d :
  files d = files (disk w) → tracked l e w → tracked l e (set_disk w d).
Proof. intros Hd. apply tracked_disk. intros k _. by rewrite Hd. Qed.

(** The numbers of a closed segment are within its range, so after the cleanup
    no indexed entry lies in it. *)
Lemma cleanup_index_clears w k info end_ :
  wal_inv w → (k, info) ∈ segments w → info_end_lsn info = Some end_ →
  ∀ l loc, lsn_index (cleanup_index info w) !! l = Some loc → segment_id loc ≠ k.
Proof.
  intros I Hk He l loc. unfold cleanup_index. rewrite He. simpl.
  rewrite map_lookup_filter_Some. intros [Hi Hr] E. apply Hr. simpl.
  destruct (inv_index w I l loc Hi) as (_ & Hp & _).
  apply (inv_segments w I) in Hk as Hk'.
  destruct Hp as [(E' & _)|(info' & end' & Hg & He' & ?)]; [lia|].
  apply btree_get_elem in Hg. rewrite E in Hg.
  assert (info' = info) as ->.
  { pose proof (btree_elem_get _ _ _ (inv_sorted w I) Hg) as E1.
    pose proof (btree_elem_get _ _ _ (inv_sorted w I) Hk) as E2. congruence. }
  simplify_eq. done.
Qed.

Lemma archive_copy_outcome io info w w' r :
  archive_copy io info w = (w', r) →
  ∃ d, w' = set_disk w d ∧ files d = files (disk w) ∧ durable d = durable (disk w).
Proof.
  intros Hr. unfold archive_copy, io_result in Hr. unfold_method.
  assert (∃ d, w = set_disk w d ∧ files d = files (disk w) ∧ durable d = durable (disk w))
    as Hw by (exists (disk w); by destruct w).
  destruct (archive_before_compact _); [|by injection Hr as <- _].
  destruct (mkdir_answer io); [by injection Hr as <- _|].
  destruct (files (disk w) !! info_id info); [|by injection Hr as <- _].
  destruct (copy_answer io); injection Hr as <- _; [done|]. by eexists.
Qed.

Lemma remove_segment_file_outcome io info w w' r :
  remove_segment_file io info w = (w', r) →
  w' = w ∨ ∃ du ar, w' = set_disk w (mk_disk (delete (info_id info) (files (disk w))) du ar).
Proof.
  intros Hr. unfold remove_segment_file, io_result in Hr. unfold_method.
  destruct (files (disk w) !! info_id info); [|by simplify_eq; left].
  destruct (remove_answer io); simplify_eq; [by left|]. right. by eexists _, _.
Qed.

Lemma compact_segment_tracked io info l e :
  is_Some (info_end_lsn info) →
  preserves (λ w, tracked l e w ∧ (info_id info, info) ∈ segments w) (compact_segment io info).
Proof.
  intros [end_ He] w w' r Hr [Ht Hin]. unfold compact_segment in Hr.
  assert (∀ w1 r1, archive_copy io info w = (w1, r1) →
    tracked l e w1 ∧ segments w1 = segments w) as Hcopy.
  { intros w1 r1 (d & -> & Hd & _)%archive_copy_outcome. split; [|done].
    by apply archive_tracked. }
  apply method_bind_inv in Hr as [(w1 & u & Hc & Hr)|[(? & Hc & _)|(Hc & _)]];
    apply Hcopy in Hc as [Ht1 Es]; try (rewrite Es; done). rewrite <- Es in Hin.
  unfold_method. assert (tracked l e (cleanup_index info w1)) as Ht2.
  { unfold cleanup_index. rewrite He. apply index_sub_tracked; [apply map_filter_subseteq|done]. }
  assert (segments (cleanup_index info w1) = segments w1 ∧
    active_segment (cleanup_index info w1) = active_segment w1) as [Es2 Ea2]
    by (unfold cleanup_index; by rewrite He).
  apply remove_segment_file_outcome in Hr as [->|(du & ar & ->)]; simpl; rewrite ?Es2; [done|].
  split; [|done]. apply remove_file_tracked; [| |done].
  - rewrite Ea2. apply (inv_segments w1 (proj1 Ht1)) in Hin. lia.
  - eapply cleanup_index_clears; [apply Ht1|done..].
Qed.

Lemma compact_segment_segments io info w w' r :
  compact_segment io info w = (w', r) → segments w' = segments w.
Proof.
  intros Hr. unfold compact_segment in Hr.
  apply method_bind_inv in Hr as [(w1 & u & Hc & Hr)|[(? & Hc & _)|(Hc & _)]];
    apply archive_copy_outcome in Hc as (d & -> & _); try done.
  unfold_method. assert (segments (cleanup_index info (set_disk w d)) = segments w) as Es
    by (unfold cleanup_index; by case_match).
  by apply remove_segment_file_outcome in Hr as [->|(du & ar & ->)].
Qed.

Lemma compaction_tick_tracked io l e : preserves (tracked l e) (compaction_tick io).
Proof.
  intros w w' r Hr Hw. unfold compaction_tick in Hr. unfold mbind, method_MBind, method_bind in Hr.
  simpl in Hr. destruct (cp_enabled _); simpl in Hr; [|by injection Hr as <- _].
  destruct (min_segments _ <=? _); [|by injection Hr as <- _].
  destruct (method_mapM _ _ _) as [w1 r1] eqn:Hm.
  assert (tracked l e w1 ∧ segments w1 = segments w) as [? _];
    [|destruct r1; by injection Hr as <- _].
  eapply (preserves_mapM (λ w1, tracked l e w1 ∧ segments w1 = segments w)); [|done|done].
  intros info Hinfo%list_elem_of_In. apply List.filter_In in Hinfo as [Hin Hel].
  apply List.in_map_iff in Hin as ((k & i) & <- & Hin%list_elem_of_In). simpl in *.
  apply preserves_ignore. intros w2 w3 r3 Hc [Ht2 Es].
  pose proof (inv_segments w (proj1 Hw) _ _ Hin) as [Ek _]. rewrite Ek in Hin.
  split; [|by erewrite compact_segment_segments].
  eapply (compact_segment_tracked _ _ l e); [|exact Hc|by rewrite Es].
  unfold eligible in Hel. destruct (info_end_lsn i); [done|by rewrite andb_false_r in Hel].
Qed.

(** ** Whole operations *)

Lemma ensure_space_state free n w w' r :
  ensure_sufficient_disk_space free n w = (w', r) → w' = w ∧ r ≠ Panic.
Proof.
  intros Hr. unfold ensure_sufficient_disk_space in Hr. unfold_method.
  destruct (_ =? 0); [by injection Hr as <- <-|]. destruct free; [by injection Hr as <- <-|].
  destruct (_ <=? _); by injection Hr as <- <-.
Qed.

Lemma reserve_writing l e w n :
  tracked l e w → 0 ≤ n → current_lsn w + n ≤ u64_max →
  writing l e (current_lsn w) (current_lsn w + n)
    (set_current_lsn w ((current_lsn w + n) mod 2 ^ 64)).
Proof.
  intros (I & Hl & Ht) Hn Hmax. unfold u64_max in Hmax.
  pose proof (inv_start w I). rewrite Z.mod_small by lia.
  split; [split; [|split; [simpl; lia|done]]|simpl; lia].
  destruct I. constructor; simpl; try done; [lia|].
  intros k loc Hk. destruct (inv_index0 k loc Hk) as ([? ?] & ? & ?). split; [lia|done].
Qed.

Lemma fetch_add_outcome n w :
  fetch_add n w = (set_current_lsn w ((current_lsn w + n) mod 2 ^ 64), Ok (current_lsn w)).
Proof. done. Qed.

Lemma append_reserve_outcome free e w w' r :
  append_reserve free e w = (w', r) →
  (w' = w ∧ ∃ err, r = Err err) ∨
  (w' = set_current_lsn w ((current_lsn w + 1) mod 2 ^ 64) ∧ r = Ok (current_lsn w)).
Proof.
  intros Hr. unfold append_reserve in Hr.
  apply method_bind_inv in Hr as [(w1 & u & He & Hr)|[(err & He & ->)|(He & ->)]];
    apply ensure_space_state in He as [-> ?]; [|left; eauto|done].
  right. rewrite fetch_add_outcome in Hr. by simplify_eq.
Qed.

(** The sync of an append, when the mode asks for it. *)
Lemma append_sync_preserves P sio w w' r :
  preserves P (segment_sync sio EveryWrite) →
  (mode ← gets (λ w, fsync_mode (config w));
   match mode with
   | EveryWrite => segment_sync sio mode
   | _ => mret tt
   end) w = (w', r) → P w → P w'.
Proof.
  intros HP Hr. unfold mbind, method_MBind, method_bind, gets in Hr.
  destruct (fsync_mode (config w)); [by eapply HP|by injection Hr as <- _..].
Qed.

Lemma append_write_writing wio sio e' l' l e lo hi :
  lo ≤ l' < hi → preserves (writing l e lo hi) (append_write wio sio e' l').
Proof.
  intros Hl'. unfold append_write.
  apply preserves_bind; [by apply write_indexed_writing|]. intros _.
  apply preserves_bind; [apply preserves_gets|]. intros mode.
  destruct mode; try apply preserves_ret.
  apply keeps_log_writing, segment_sync_keeps_log.
Qed.

(** The rotation at the end of an append. *)
Definition rotate_if (age : Z) (cio : CreateIo) (sio : SyncIo) (l : LogSequenceNumber)
    : WalM LogSequenceNumber :=
  rot ← gets (should_rotate age);
  _ ← (if (rot : bool) then rotate_internal cio sio else mret tt);
  mret l.

Lemma rotate_if_tracked age cio sio l' l e : preserves (tracked l e) (rotate_if age cio sio l').
Proof. unfold rotate_if. walk_method. apply rotate_tracked. Qed.

Lemma rotate_if_returns age cio sio l w w' l' :
  rotate_if age cio sio l w = (w', Ok l') → l' = l.
Proof.
  unfold rotate_if. intros (w1 & rot & _ & Hr)%method_bind_Ok.
  apply method_bind_Ok in Hr as (w2 & u & _ & Hr). by injection Hr.
Qed.

Lemma append_tracked io e' l e w w' r :
  current_lsn w + 1 ≤ u64_max → append io e' w = (w', r) → tracked l e w → tracked l e w'.
Proof.
  intros Hmax Hr Ht. unfold append in Hr.
  apply method_bind_inv in Hr as [(w1 & l' & Hres & Hr)|[(err & Hres & ->)|(Hres & ->)]];
    apply append_reserve_outcome in Hres as [(-> & err' & ?)|(-> & ?)]; simplify_eq; try done.
  pose proof (reserve_writing l e w 1 Ht ltac:(lia) Hmax) as Hw.
  apply method_bind_inv in Hr as [(w2 & u & Hwr & Hr)|[(err & Hwr & ->)|(Hwr & ->)]];
    (eapply append_write_writing in Hwr; [|exact (conj (Z.le_refl _) (Z.lt_succ_diag_r _))]);
    apply Hwr in Hw; [|apply Hw..].
  eapply rotate_if_tracked; [exact Hr|apply Hw].
Qed.

Lemma append_batch_tracked io es l e w w' r :
  current_lsn w + Z.of_nat (length es) ≤ u64_max →
  append_batch io es w = (w', r) → tracked l e w → tracked l e w'.
Proof.
  intros Hmax Hr Ht. unfold append_batch in Hr.
  apply method_bind_inv in Hr as [(w1 & u & He & Hr)|[(err & He & ->)|(He & ->)]];
    apply ensure_space_state in He as [-> ?]; try done.
  pose proof (reserve_writing l e w _ Ht (Nat2Z.is_nonneg _) Hmax) as Hw.
  set (P := writing l e (current_lsn w) (current_lsn w + Z.of_nat (length es))) in Hw.
  assert (∀ w1, P w1 → tracked l e w1) as HP by (by intros w1 [? _]).
  apply method_bind_inv in Hr as [(w1 & start & Hf & Hr)|[(err & Hf & _)|(Hf & _)]];
    rewrite fetch_add_outcome in Hf; simplify_eq.
  apply HP. eapply (preserves_bind P); [| |exact Hr|exact Hw].
  - apply preserves_mapM. intros [i x] Hix. apply list_elem_of_lookup in Hix as [j Hj].
    rewrite list_lookup_imap in Hj. apply fmap_Some in Hj as (y & Hy & [= -> ->]).
    apply lookup_lt_Some in Hy. apply write_indexed_writing. simpl. lia.
  - intros lsns. apply preserves_bind; [apply preserves_gets|]. intros mode.
    apply preserves_bind; [|intros; apply preserves_ret].
    destruct mode; try apply preserves_ret; apply keeps_log_writing, segment_sync_keeps_log.
Qed.

(** The operations a program, its workers and the operating system's answers can
    make the log perform. *)
Inductive wal_op : Type :=
  | OpAppend (io : AppendIo) (e : WalEntry)
  | OpAppendBatch (io : BatchIo) (es : list WalEntry)
  | OpSync (io : SyncIo)
  | OpSyncTick (due : bool) (io : SyncIo)
  | OpCommit (l : LogSequenceNumber)
  | OpCommitBatch (ls : list LogSequenceNumber)
  | OpTruncate (l : LogSequenceNumber)
  | OpCompaction (io : Z → CompactIo)
  | OpClose (io : SyncIo).

(** The state an operation leaves, whatever its result. *)
Definition run_op (op : wal_op) (w : FileWal) : FileWal :=
  match op with
  | OpAppend io e => (append io e w).1
  | OpAppendBatch io es => (append_batch io es w).1
  | OpSync io => (sync io w).1
  | OpSyncTick due io => (sync_tick due io w).1
  | OpCommit l => (commit l w).1
  | OpCommitBatch ls => (commit_batch ls w).1
  | OpTruncate l => (truncate l w).1
  | OpCompaction io => (compaction_tick io w).1
  | OpClose io => (close io w).1
  end.

(** The sequence numbers it takes. *)
Definition op_numbers (op : wal_op) : Z :=
  match op with
  | OpAppend _ _ => 1
  | OpAppendBatch _ es => Z.of_nat (length es)
  | _ => 0
  end.

(** Runs of operations that satisfy [Q], one after another, in which the counter of
    sequence numbers does not pass [u64::MAX]. *)
Inductive wal_steps (Q : wal_op → Prop) : FileWal → FileWal → Prop :=
  | steps_refl w : wal_steps Q w w
  | steps_op w op w' :
      Q op → current_lsn w + op_numbers op ≤ u64_max →
      wal_steps Q (run_op op w) w' → wal_steps Q w w'.

(** The operations that leave the index entry of [l] alone. *)
Definition spares (l : LogSequenceNumber) (op : wal_op) : Prop :=
  match op with
  | OpTruncate up_to => up_to < l
  | OpCompaction _ => False
  | _ => True
  end.

Lemma run_op_tracked op l e w :
  current_lsn w + op_numbers op ≤ u64_max → tracked l e w → tracked l e (run_op op w).
Proof.
  intros Hmax Ht. destruct op; cbn [run_op op_numbers] in *;
    match goal with |- tracked _ _ (?m w).1 => destruct (m w) as [w' r] eqn:Hr; cbn [fst] end.
  - by eapply append_tracked.
  - by eapply append_batch_tracked.
  - eapply keeps_log_tracked; [apply segment_sync_keeps_log|exact Hr|done].
  - eapply (keeps_log_tracked (sync_tick due io)); [|exact Hr|done]. apply sync_tick_keeps_log.
  - unfold commit in Hr. unfold_method. simplify_eq. eapply tracked_same; [|done]. repeat split.
  - unfold commit_batch in Hr. destruct ls; unfold_method; simplify_eq; [done|].
    eapply tracked_same; [|done]. repeat split.
  - unfold truncate in Hr. unfold_method. simplify_eq.
    eapply (tracked_same _ _ (set_lsn_index w _)); [|apply index_sub_tracked; [|done]];
      [repeat split|apply map_filter_subseteq].
  - by eapply compaction_tick_tracked.
  - unfold close in Hr. unfold_method. eapply keeps_log_tracked;
      [apply segment_sync_keeps_log|exact Hr|]. eapply tracked_same; [|done]. repeat split.
Qed.

Lemma steps_tracked Q l e w w' : wal_steps Q w w' → tracked l e w → tracked l e w'.
Proof. induction 1; [done|]. intros. by apply IHwal_steps, run_op_tracked. Qed.

(** ** What stays in the index *)

Definition indexed_at (l : LogSequenceNumber) (loc : SegmentLocation) (w : FileWal) : Prop :=
  lsn_index w !! l = Some loc.

Lemma keeps_log_indexed {A} (m : WalM A) l loc : keeps_log m → preserves (indexed_at l loc) m.
Proof.
  intros Hm w w' r Hr Hi. destruct (Hm _ _ _ Hr) as (_ & _ & _ & _ & E & _).
  unfold indexed_at in *. by rewrite <- E.
Qed.

Lemma write_indexed_indexed io e' l' l loc :
  l ≠ l' → preserves (indexed_at l loc) (write_indexed io e' l').
Proof.
  intros Hne. unfold write_indexed, write_entry_to_segment, write_bytes.
  walk_method; apply preserves_modify; intros; try done.
  unfold indexed_at in *. simpl. by rewrite lookup_insert_ne.
Qed.

Lemma rotate_indexed cio sio l loc : preserves (indexed_at l loc) (rotate_internal cio sio).
Proof.
  intros w w' r Hr Hi. unfold rotate_internal in Hr.
  apply method_bind_inv in Hr as [(w1 & p & Hp & Hr)|[(? & Hp & _)|(Hp & _)]];
    apply rotate_prepare_outcome in Hp as (d & rs & _ & -> & _); try done.
  revert w' r Hr. unfold rotate_swap. intros w' r Hr.
  eapply (preserves_bind (indexed_at l loc)); [| |exact Hr|exact Hi];
    [by apply preserves_modify|]. intros ?.
  apply preserves_bind; [apply keeps_log_indexed, segment_sync_keeps_log|]. intros _.
  by apply preserves_modify.
Qed.

Lemma append_write_indexed wio sio e' l' l loc :
  l ≠ l' → preserves (indexed_at l loc) (append_write wio sio e' l').
Proof.
  intros Hne. unfold append_write.
  apply preserves_bind; [by apply write_indexed_indexed|]. intros _.
  walk_method. apply keeps_log_indexed, segment_sync_keeps_log.
Qed.

Lemma rotate_if_indexed age cio sio l k loc :
  preserves (indexed_at k loc) (rotate_if age cio sio l).
Proof. unfold rotate_if. walk_method. apply rotate_indexed. Qed.

Lemma run_op_indexed op l loc w :
  spares l op → l < current_lsn w → indexed_at l loc w → indexed_at l loc (run_op op w).
Proof.
  intros Hsp Hl Hi. destruct op; cbn [run_op spares] in *;
    match goal with |- indexed_at _ _ (?m w).1 => destruct (m w) as [w' r] eqn:Hr; cbn [fst] end.
  - unfold append in Hr.
    apply method_bind_inv in Hr as [(w1 & l' & Hres & Hr)|[(err & Hres & ->)|(Hres & ->)]];
      apply append_reserve_outcome in Hres as [(-> & err' & ?)|(-> & ?)]; simplify_eq; try done.
    eapply (preserves_bind (indexed_at l loc)); [| |exact Hr|exact Hi].
    + apply append_write_indexed. lia.
    + intros ?. apply rotate_if_indexed.
  - unfold append_batch in Hr.
    apply method_bind_inv in Hr as [(w1 & u & He & Hr)|[(err & He & ->)|(He & ->)]];
      apply ensure_space_state in He as [-> ?]; try done.
    apply method_bind_inv in Hr as [(w1 & start & Hf & Hr)|[(err & Hf & _)|(Hf & _)]];
      rewrite fetch_add_outcome in Hf; simplify_eq.
    eapply (preserves_bind (indexed_at l loc)); [| |exact Hr|exact Hi].
    + apply preserves_mapM. intros [i x] _. apply write_indexed_indexed. simpl. lia.
    + walk_method; apply keeps_log_indexed, segment_sync_keeps_log.
  - eapply keeps_log_indexed; [apply segment_sync_keeps_log|exact Hr|done].
  - eapply keeps_log_indexed; [apply sync_tick_keeps_log|exact Hr|done].
  - unfold commit in Hr. unfold_method. by simplify_eq.
  - unfold commit_batch in Hr. destruct ls; unfold_method; by simplify_eq.
  - unfold truncate in Hr. unfold_method. simplify_eq. unfold indexed_at in *. simpl.
    by apply map_lookup_filter_Some.
  - done.
  - unfold close in Hr. unfold_method.
    eapply keeps_log_indexed; [apply segment_sync_keeps_log|exact Hr|done].
Qed.

Lemma steps_indexed l e loc w w' :
  wal_steps (spares l) w w' → tracked l e w → indexed_at l loc w → indexed_at l loc w'.
Proof.
  induction 1; [done|]. intros Ht Hi. apply IHwal_steps; [by apply run_op_tracked|].
  apply run_op_indexed; [done|apply Ht|done].
Qed.

(** ** From the start of the log *)

Lemma new_inv mkdir io cfg d d' w :
  mapped_config cfg → file_wal_new mkdir io cfg d = (d', Ok w) → wal_inv w ∧ lsn_index w = ∅.
Proof.
  intros Hcfg Hn. unfold file_wal_new in Hn. destruct mkdir; [done|].
  destruct (create_segment io cfg 0 LSN_ZERO d) as [d1 [s| |]] eqn:Hc; simplify_eq.
  apply create_segment_ok in Hc as (Hid & Hm & Hp & Hst & _ & Hf); [|done].
  split; [|done]. constructor; simpl; try done.
  - by rewrite Hid.
  - rewrite Hp. lia.
  - rewrite Hst. unfold LSN_ZERO. lia.
  - by intros ? ? ?%elem_of_nil.
  - constructor.
Qed.

(** No negative number is ever indexed, so the invariant alone is preserved too. *)
Lemma inv_tracked e w : wal_inv w → tracked (-1) e w.
Proof.
  intros I. pose proof (inv_start w I). split; [done|]. split; [lia|]. left.
  destruct (lsn_index w !! (-1)) as [loc|] eqn:Hi; [|done].
  apply (inv_index w I) in Hi. lia.
Qed.

(** Every state of the log satisfies the invariant. *)
Lemma steps_inv Q mkdir io cfg d d' w0 w :
  mapped_config cfg → file_wal_new mkdir io cfg d = (d', Ok w0) → wal_steps Q w0 w → wal_inv w.
Proof.
  intros Hcfg Hn Hs. apply new_inv in Hn as [I Hi]; [|done].
  eapply (steps_tracked Q (-1) (entry_new 0 0 CheckpointEntry (Raw [])) w0 w); [done|].
  by apply inv_tracked.
Qed.

(** The write of a freshly reserved number: the entry is in the active segment. *)
Lemma write_indexed_acknowledged io e w w' l :
  wal_inv w → current_lsn w + 1 ≤ u64_max →
  write_indexed io e (current_lsn w) (set_current_lsn w ((current_lsn w + 1) mod 2 ^ 64))
    = (w', Ok l) →
  l = current_lsn w ∧ tracked l e w' ∧ holds l e w' ∧
  (∃ loc, lsn_index w' !! l = Some loc ∧ segment_id loc = seg_id (active_segment w')) ∧
  config w' = config w.
Proof.
  intros I Hmax Hwi.
  assert (writing (-1) e (current_lsn w) (current_lsn w + 1)
    (set_current_lsn w ((current_lsn w + 1) mod 2 ^ 64))) as Hw.
  { apply reserve_writing; [by apply inv_tracked|lia..]. }
  pose proof (write_indexed_writing _ _ _ _ _ _ _
    (conj (Z.le_refl _) (Z.lt_succ_diag_r _)) _ _ _ Hwi Hw) as Hw3.
  destruct (write_indexed_holds _ _ _ _ _ _ (proj1 (proj1 Hw)) Hwi) as [-> Hh].
  split; [done|]. split.
  { split; [apply Hw3|]. split; [|by right]. destruct Hw3 as (_ & _ & ? & _). lia. }
  split; [done|]. apply method_bind_Ok in Hwi as (w1 & sz & Hwe & Hwi).
  destruct (write_entry_outcomes _ _ _ _ _ _ (proj1 (proj1 Hw)) Hwe)
    as [(? & -> & ?)|(Hn & [(_ & ? & ->)|(k & _ & ? & ->)])]; simplify_eq.
  unfold_method. simplify_eq. split; [|done]. eexists. simpl. by rewrite lookup_insert_eq.
Qed.

(** A successful append is tracked and indexed from then on. *)
Lemma append_acknowledged io e w w' l :
  wal_inv w → current_lsn w + 1 ≤ u64_max → append io e w = (w', Ok l) →
  l = current_lsn w ∧ tracked l e w' ∧ ∃ loc, indexed_at l loc w'.
Proof.
  intros I Hmax Hr. unfold append in Hr.
  apply method_bind_Ok in Hr as (w1 & l' & Hres & Hr).
  apply append_reserve_outcome in Hres as [(-> & err' & ?)|(-> & ?)]; simplify_eq.
  apply method_bind_Ok in Hr as (w2 & u & Hwr & Hr).
  unfold append_write in Hwr. apply method_bind_Ok in Hwr as (w3 & l' & Hwi & Hwr).
  destruct (write_indexed_acknowledged _ _ _ _ _ I Hmax Hwi) as (-> & Ht & Hh & _).
  destruct Hh as (loc & f & Hi & _).
  pose proof (append_sync_preserves _ (append_sync io) _ _ _
    (keeps_log_tracked _ _ _ (segment_sync_keeps_log _ _)) Hwr Ht) as Ht2.
  pose proof (append_sync_preserves _ (append_sync io) _ _ _
    (keeps_log_indexed _ _ _ (segment_sync_keeps_log _ _)) Hwr Hi) as Hi2.
  pose proof (rotate_if_indexed _ _ _ _ _ _ _ _ _ Hr Hi2) as Hi3.
  pose proof (rotate_if_tracked _ _ _ _ _ _ _ _ _ Hr Ht2) as Ht3.
  apply rotate_if_returns in Hr as ->. eauto.
Qed.
End FileWalFacts.

(** ** What an acknowledged append promises *)

Section Promises.
Context `{LM : LineageModel} `{WC : !WalCodec} `{WO : !WalCodecOk}.

Lemma active_not_closed w : wal_inv w → btree_get (seg_id (active_segment w)) (segments w) = None.
Proof.
  intros I. destruct (btree_get _ _) as [info|] eqn:Hg; [|done].
  apply btree_get_elem, (inv_segments w I) in Hg. lia.
Qed.

(** Reading an entry whose bytes are in place. *)
Lemma read_tracked w l e loc :
  tracked l e w → storable (stamped e l) → indexed_at l loc w →
  read None l w =
    if bool_decide (segment_id loc = seg_id (active_segment w)) then Err (InvalidLsn l)
    else Ok (sealed (stamped e l)).
Proof.
  intros (I & _ & Ht) Hs Hi. unfold indexed_at in Hi. unfold read. rewrite Hi. simpl.
  destruct (inv_index w I l loc Hi) as (_ & Hp & f & Hf & Hlen).
  case_bool_decide as Hact.
  - rewrite Hact, active_not_closed; done.
  - destruct Hp as [(? & _)|(info & end_ & Hg & _)]; [done|]. rewrite Hg. simpl.
    pose proof (btree_get_elem _ _ _ Hg) as Hin. apply (inv_segments w I) in Hin as [<- _].
    rewrite Hf. simpl. unfold read_exact_at. rewrite (proj2 (Nat.leb_le _ _)) by done. simpl.
    destruct Ht as [Ht|(loc' & f' & Hi' & Hf' & _ & Hb)]; [congruence|].
    simplify_eq. unfold slice in Hb. by rewrite Hb, from_to_bytes.
Qed.

(** C4: In a log of preallocated, memory-mapped segments, as every preset configures
    it, whose calls run one after another, an entry that [bincode] reads back and whose
    append succeeded is not lost or altered by what the log does later, whatever the
    operating system answers: after any run of appends, batches, syncs, commits,
    truncations below it, and a close, that does not use up the sequence numbers, a
    read of its number returns exactly that entry (with its number, payload size and
    checksum filled in) once its segment has been rotated, and [InvalidLsn]
    while it is in the active segment.  (Appends that overlap can lose an entry when
    both rotate the segment, and a failed direct write misplaces the entries after it:
    see [WalSample].) *)
Theorem acknowledged_entry_reads_back mkdir cio cfg d d0 w0 w io e w1 l w2 :
  mapped_config cfg → file_wal_new mkdir cio cfg d = (d0, Ok w0) →
  wal_steps (λ _, True) w0 w → current_lsn w + 1 ≤ u64_max →
  append io e w = (w1, Ok l) → wal_steps (spares l) w1 w2 → storable (stamped e l) →
  l = current_lsn w ∧
  ∃ loc, lsn_index w2 !! l = Some loc ∧
    read None l w2 =
      if bool_decide (segment_id loc = seg_id (active_segment w2)) then Err (InvalidLsn l)
      else Ok (sealed (stamped e l)).
Proof.
  intros Hcfg Hnew Hs Hmax Ha Hs2 Hst.
  pose proof (steps_inv _ _ _ _ _ _ _ _ Hcfg Hnew Hs) as I.
  destruct (append_acknowledged _ _ _ _ _ I Hmax Ha) as (-> & Ht & loc & Hi).
  split; [done|]. pose proof (steps_indexed _ _ _ _ _ Hs2 Ht Hi) as Hi2.
  exists loc. split; [done|]. apply read_tracked; [|done..]. by eapply steps_tracked.
Qed.

(** Whatever is done to the log, a number that is still indexed reads back as the
    entry that was appended under it. *)
Lemma indexed_entry_reads_back Q mkdir cio cfg d d0 w0 w io e w1 l w2 loc :
  mapped_config cfg → file_wal_new mkdir cio cfg d = (d0, Ok w0) →
  wal_steps (λ _, True) w0 w → current_lsn w + 1 ≤ u64_max →
  append io e w = (w1, Ok l) → wal_steps Q w1 w2 → storable (stamped e l) →
  lsn_index w2 !! l = Some loc → segment_id loc ≠ seg_id (active_segment w2) →
  read None l w2 = Ok (sealed (stamped e l)).
Proof.
  intros Hcfg Hnew Hs Hmax Ha Hs2 Hst Hi Hne.
  pose proof (steps_inv _ _ _ _ _ _ _ _ Hcfg Hnew Hs) as I.
  destruct (append_acknowledged _ _ _ _ _ I Hmax Ha) as (-> & Ht & _).
  rewrite (read_tracked _ _ e loc); [by rewrite bool_decide_false|by eapply steps_tracked|done..].
Qed.

(** ** Durability *)

(** The device has the bytes of [l]. *)
Definition on_device (l : LogSequenceNumber) (e : WalEntry) (w : FileWal) : Prop :=
  ∃ loc f, lsn_index w !! l = Some loc ∧ durable (disk w) !! segment_id loc = Some f ∧
    slice (offset loc) (size loc) f = to_bytes (stamped e l).

(** A sync makes the tracked entries of the active segment durable and keeps
    those that are. *)
Lemma segment_sync_on_device io mode l e w w' r :
  segment_sync io mode w = (w', r) → holds l e w →
  (on_device l e w ∨
   (r = Ok tt ∧ mode = EveryWrite ∧
    ∃ loc, lsn_index w !! l = Some loc ∧ segment_id loc = seg_id (active_segment w))) →
  on_device l e w'.
Proof.
  intros Hr (loc & f & Hi & Hf & Hsz & Hb) Hor.
  assert (w' = w ∨ lsn_index w' = lsn_index w ∧ durable (disk w') =
     <[seg_id (active_segment w) := active_file w]> (durable (disk w))) as Hout.
  { unfold segment_sync, io_result in Hr. unfold_method.
    destruct mode; simpl in Hr; try (by injection Hr as <- _; left);
      destruct (mapped _), (flush_answer io), (sync_all_answer io); simpl in Hr;
      injection Hr as <- _; auto. }
  assert (segment_id loc = seg_id (active_segment w) → active_file w = f) as Haf.
  { intros E. unfold active_file. rewrite <- E, Hf. done. }
  destruct Hor as [(loc' & g & Hi' & Hg & Hb')|(-> & -> & loc' & Hi' & E)].
  - destruct Hout as [->|[Ei Ed]]; [by exists loc', g|]. assert (loc' = loc) as -> by congruence.
    destruct (decide (segment_id loc = seg_id (active_segment w))) as [E|E].
    + exists loc, f. rewrite Ei, Ed, <- E, lookup_insert_eq, (Haf E). done.
    + exists loc, g. rewrite Ei, Ed, lookup_insert_ne by done. done.
  - assert (loc' = loc) as -> by congruence.
    pose proof (segment_sync_keeps_log _ _ _ _ _ Hr) as (_ & _ & _ & _ & Ei & _).
    apply segment_sync_end in Hr as [_ Hd]. specialize (Hd eq_refl ltac:(done) ltac:(done)).
    exists loc, f. rewrite <- Ei, E, Hd, (Haf E). done.
Qed.

Lemma create_segment_durable io cfg id start d d' r :
  create_segment io cfg id start d = (d', r) → durable d' = durable d.
Proof. intros H. unfold create_segment in H. by repeat case_match; simplify_eq. Qed.

Lemma rotate_if_on_device age cio sio l' l e :
  preserves (λ w, wal_inv w ∧ holds l e w ∧ on_device l e w) (rotate_if age cio sio l').
Proof.
  unfold rotate_if. walk_method. intros w w' r Hr (I & Hh & Hd).
  assert (tracked l e w) as Ht.
  { split; [done|]. split; [|by right]. destruct Hh as (loc & f & Hi & _).
    apply (inv_index w I) in Hi as [? _]. lia. }
  pose proof (rotate_tracked _ _ _ _ _ _ _ Hr Ht) as (I' & _ & Ht').
  pose proof Hh as (loc & f & Hi & _).
  pose proof (rotate_indexed _ _ _ _ _ _ _ Hr Hi) as Hi'. unfold indexed_at in Hi'.
  split; [done|]. split; [destruct Ht' as [?|?]; [congruence|done]|].
  unfold rotate_internal in Hr.
  apply method_bind_inv in Hr as [(w1 & [cur s'] & Hp & Hr)|[(? & Hp & _)|(Hp & _)]];
    pose proof (rotate_prepare_tracked _ _ _ _ _ _ Hp Ht) as Ht1;
    apply rotate_prepare_outcome in Hp as (d & rs & Hc & -> & _);
    apply create_segment_durable in Hc;
    (assert (on_device l e (set_disk w d)) as Hd1;
      [unfold on_device in *; simpl; by rewrite Hc|]); [|done..].
  unfold rotate_swap in Hr. unfold_method.
  destruct (segment_sync sio OnDemand _) as [w2 r2] eqn:Hs.
  assert (on_device l e w2) as Hd2.
  { eapply segment_sync_on_device; [exact Hs| |by left].
    destruct Ht1 as (_ & _ & [?|Hh1]); [simpl in *; congruence|exact Hh1]. }
  destruct r2 as [[]| |]; by injection Hr as <- _.
Qed.

(** With a sync after every write (the high-durability preset), an append
    that succeeds leaves the entry on the device, also when it rotated the
    segment: the durable bytes at the indexed place decode to the entry. *)
Theorem acknowledged_entry_is_durable io e w w' l :
  wal_inv w → current_lsn w + 1 ≤ u64_max → fsync_mode (config w) = EveryWrite →
  storable (stamped e l) → append io e w = (w', Ok l) →
  ∃ loc f, lsn_index w' !! l = Some loc ∧ durable (disk w') !! segment_id loc = Some f ∧
    from_bytes (take (size loc) (drop (offset loc) f)) = Ok (sealed (stamped e l)).
Proof.
  intros I Hmax Hmode Hst Hr. cut (on_device l e w').
  { intros (loc & f & ? & ? & Hb). exists loc, f. split_and!; [done..|].
    unfold slice in Hb. by rewrite Hb, from_to_bytes. }
  unfold append in Hr. apply method_bind_Ok in Hr as (w1 & l' & Hres & Hr).
  apply append_reserve_outcome in Hres as [(-> & err' & ?)|(-> & ?)]; simplify_eq.
  apply method_bind_Ok in Hr as (w2 & u & Hwr & Hr).
  pose proof (rotate_if_returns _ _ _ _ _ _ _ Hr) as ->.
  unfold append_write in Hwr. apply method_bind_Ok in Hwr as (w3 & l' & Hwi & Hwr).
  destruct (write_indexed_acknowledged _ _ _ _ _ I Hmax Hwi) as (-> & Ht & Hh & Hact & Hc).
  unfold_method. rewrite Hc, Hmode in Hwr.
  pose proof (segment_sync_keeps_log _ _ _ _ _ Hwr) as Hsame.
  pose proof (tracked_same _ _ _ _ Hsame Ht) as Ht2.
  apply (rotate_if_on_device _ _ _ _ (current_lsn w) e _ _ _ Hr). split; [apply Ht2|]. split.
  - destruct Hh as (loc & f & Hi & Hrest). destruct Hsame as (_ & _ & _ & _ & Ei & Ef).
    exists loc, f. by rewrite <- Ei, <- Ef.
  - destruct u. eapply segment_sync_on_device; [exact Hwr|done|]. by right.
Qed.

(** ** A full segment *)

Lemma stamped_length e l : length (to_bytes (stamped e l)) = length (to_bytes e).
Proof. by rewrite !to_bytes_length. Qed.

(** The entry does not fit in what is left of the active segment. *)
Definition too_large (w : FileWal) (e : WalEntry) : Prop :=
  (seg_size (active_segment w) < position (active_segment w) + length (to_bytes e))%nat.

Lemma append_too_large io e w :
  too_large w e →
  ∃ c err, append io e w = (set_current_lsn w c, Err err) ∧
    (min_free_disk_space (config w) = 0 → err = WalFull (Z.of_nat (seg_size (active_segment w)))).
Proof.
  intros Hl. destruct (append io e w) as [w' r] eqn:Hr.
  destruct (append_reserve (free_space io) e w) as [w1 r1] eqn:Hres.
  unfold append, append_write, write_indexed in Hr. unfold mbind, method_MBind in Hr.
  unfold method_bind in Hr. rewrite Hres in Hr.
  destruct (append_reserve_outcome _ _ _ _ _ Hres) as [(-> & err & ->)|(-> & ->)].
  - exists (current_lsn w), err. injection Hr as <- <-. split; [by destruct w|].
    intros Hz. exfalso. unfold append_reserve, ensure_sufficient_disk_space in Hres.
    unfold_method. rewrite Hz in Hres. done.
  - set (w1 := set_current_lsn w _) in Hr.
    destruct (write_entry_to_segment (write_io io) e (current_lsn w) w1) as [w2 r2] eqn:Hw.
    assert (w2 = w1 ∧ r2 = Err (WalFull (Z.of_nat (seg_size (active_segment w))))) as [-> ->].
    { unfold write_entry_to_segment in Hw. unfold_method. rewrite stamped_length in Hw.
      unfold too_large in Hl. rewrite (proj2 (Nat.leb_gt _ _)) in Hw by exact Hl.
      by injection Hw as <- <-. }
    injection Hr as <- <-. by eexists _, _.
Qed.

(** A sequence of appends, with their results. *)
Fixpoint run_appends (l : list (AppendIo * WalEntry)) (w : FileWal)
    : FileWal * list (result WalError LogSequenceNumber) :=
  match l with
  | [] => (w, [])
  | (io, e) :: l' =>
      let '(w1, r) := append io e w in
      let '(w2, rs) := run_appends l' w1 in
      (w2, r :: rs)
  end.

(** A segment that is full stays full: no append rotates it when its entry
    does not fit.  Any sequence of appends of entries larger than what is left of
    the active segment fails entirely, and changes nothing but the counter of
    sequence numbers, which skips a number for each attempt. *)
Theorem full_segment_rejects_forever l w :
  Forall (λ p, too_large w p.2) l →
  ∃ c rs, run_appends l w = (set_current_lsn w c, rs) ∧
    Forall (λ r, ∃ err, r = Err err) rs ∧
    (min_free_disk_space (config w) = 0 →
     Forall (λ r, r = Err (WalFull (Z.of_nat (seg_size (active_segment w))))) rs).
Proof.
  revert w. induction l as [|[io e] l IH]; intros w Hl; simpl.
  { exists (current_lsn w), []. split; [by destruct w|done]. }
  apply Forall_cons in Hl as [He Hl].
  destruct (append_too_large io e w He) as (c & err & Ha & Herr). rewrite Ha.
  destruct (IH (set_current_lsn w c) Hl) as (c' & rs & Hrs & Hall & Hfull). rewrite Hrs.
  exists c', (Err err :: rs). split; [done|]. split; [constructor; eauto|].
  intros Hz. constructor; [by rewrite Herr|]. by apply Hfull.
Qed.

(** In the production preset a segment is rotated for its size only when it has
    been filled to the last byte. *)
Lemma production_rotates_when_exact w age :
  wal_inv w → config w = production → seg_size (active_segment w) = Z.to_nat (1024 * 1024 * 1024) →
  age < 3600 * 1000 → should_rotate age w = true →
  position (active_segment w) = seg_size (active_segment w).
Proof.
  intros I Hc Hsz Hage. unfold should_rotate. rewrite Hc. cbn [rotation_policy production].
  rewrite (proj2 (Z.leb_gt (3600 * 1000) age)) by lia. rewrite orb_false_r. intros Hp%Z.leb_le.
  pose proof (inv_position w I). rewrite Hsz in *. lia.
Qed.

(** ** The background sync *)

(** In the periodic mode the worker marks the segment clean without forcing
    anything to the device. *)
Lemma periodic_tick_syncs_nothing due io w :
  fsync_mode (config w) = Periodic →
  disk (run_op (OpSyncTick due io) w) = disk w ∧
  (due = true → dirty (active_segment (run_op (OpSyncTick due io) w)) = false).
Proof.
  intros Hm. unfold run_op, sync_tick. unfold_method. rewrite Hm.
  destruct (dirty _) eqn:Hd; destruct due; simpl; done.
Qed.
End Promises.
