(* ===== verification/WalSample.v ===== *)
(** * Write-ahead log: a concrete codec and concrete runs

    An instance of [WalCodec]: fixed-width little-endian headers as the
    serializer writes them, a payload as the bits of its number, the sum of the
    bytes as checksum.  It shows that the laws of [WalCodecOk] can hold, and
    the witnesses and the concrete runs evaluate with it. *)

From Stdlib Require Import ZArith Lia Ascii.
From stdpp Require Import base numbers option strings gmap list countable.
From S2P Require Import Prelude RustStd Bytes Effects BTree WalEntry WalFile WalFileFacts.

Local Open Scope Z_scope.

(** ** Headers *)

Definition type_tag (t : EntryType) : Z :=
  match t with
  | LineageWrite => 0 | QualityViolationEntry => 1 | ProfileUpdate => 2
  | RdfInsertTriple => 3 | RdfDeleteTriple => 4 | RdfInsertBatch => 5 | RdfUpdateTriple => 6
  | TransactionBegin => 7 | TransactionPrepare => 8 | TransactionCommit => 9
  | TransactionAbort => 10 | RocksDbWrite => 11 | KafkaPublish => 12 | ParquetFlush => 13
  | CheckpointEntry => 14 | RotationMarker => 15 | CompactionMarker => 16
  end.

Definition all_types : list EntryType :=
  [LineageWrite; QualityViolationEntry; ProfileUpdate; RdfInsertTriple; RdfDeleteTriple;
   RdfInsertBatch; RdfUpdateTriple; TransactionBegin; TransactionPrepare; TransactionCommit;
   TransactionAbort; RocksDbWrite; KafkaPublish; ParquetFlush; CheckpointEntry;
   RotationMarker; CompactionMarker].

Definition bool_byte (b : bool) : byte := if b then Byte.x01 else Byte.x00.
Definition byte_bool (b : byte) : bool := bool_decide (b = Byte.x01).

Definition flags_bytes (f : EntryFlags) : list byte :=
  map bool_byte [compressed f; encrypted f; idempotent f; requires_sync f].

Definition sample_serialize_header (h : EntryHeader) : list byte :=
  to_le_bytes 8 (lsn h) ++ to_le_bytes 8 (previous_lsn h) ++ to_le_bytes 4 (type_tag (entry_type h))
  ++ to_le_bytes 8 (timestamp_us h) ++ to_le_bytes 4 (payload_size h)
  ++ to_le_bytes 4 (checksum h) ++ flags_bytes (flags h).

(** The integer of [n] bytes at an offset. *)
Definition field (off n : nat) (bs : list byte) : Z := from_le_bytes (take n (drop off bs)).

Definition sample_deserialize_header (bs : list byte) : result string EntryHeader :=
  match all_types !! Z.to_nat (field 16 4 bs), drop 36 bs with
  | Some t, [c; e; i; r] =>
      Ok (mk_header (field 0 8 bs) (field 8 8 bs) t (field 20 8 bs) (field 28 4 bs) (field 32 4 bs)
            (mk_flags (byte_bool c) (byte_bool e) (byte_bool i) (byte_bool r)))
  | _, _ => Err "invalid header"%string
  end.

Lemma field_skip off n k (l r : list byte) :
  length l = k → (k ≤ off)%nat → field off n (l ++ r) = field (off - k) n r.
Proof. intros <- Hk. unfold field. by rewrite drop_app_ge. Qed.

Lemma field_here n z r : 0 ≤ z < 256 ^ Z.of_nat n → field 0 n (to_le_bytes n z ++ r) = z.
Proof.
  intros Hz. unfold field. rewrite drop_0, take_app_length' by (symmetry; apply to_le_bytes_length).
  by apply from_to_le_bytes.
Qed.

Lemma type_tag_lookup t : all_types !! Z.to_nat (type_tag t) = Some t ∧ 0 ≤ type_tag t < 256.
Proof. by destruct t. Qed.

Lemma byte_bool_of b : byte_bool (bool_byte b) = b.
Proof. by destruct b. Qed.

(** Walk over the fields before the one that is read. *)
Ltac read_field :=
  repeat (rewrite field_skip with (k := 8%nat) by (first [apply to_le_bytes_length | lia]) ||
          rewrite field_skip with (k := 4%nat) by (first [apply to_le_bytes_length | lia]));
  simpl Nat.sub; apply field_here.

Lemma sample_header_roundtrip h :
  header_in_range h → sample_deserialize_header (sample_serialize_header h) = Ok h.
Proof.
  intros (Hl & Hp & Ht & Hs & Hc). unfold u64_max in *.
  destruct (type_tag_lookup (entry_type h)) as [Htag Hr].
  set (bs := sample_serialize_header h).
  assert (field 0 8 bs = lsn h) as E1 by (read_field; simpl; lia).
  assert (field 8 8 bs = previous_lsn h) as E2 by (read_field; simpl; lia).
  assert (field 16 4 bs = type_tag (entry_type h)) as E3 by (read_field; simpl; lia).
  assert (field 20 8 bs = timestamp_us h) as E4 by (read_field; simpl; lia).
  assert (field 28 4 bs = payload_size h) as E5 by (read_field; simpl; lia).
  assert (field 32 4 bs = checksum h) as E6 by (read_field; simpl; lia).
  unfold sample_deserialize_header. rewrite E1, E2, E3, E4, E5, E6, Htag.
  assert (drop 36 bs = flags_bytes (flags h)) as ->.
  { unfold bs, sample_serialize_header. rewrite !app_assoc. apply drop_app_length'.
    by rewrite !length_app, !to_le_bytes_length. }
  unfold flags_bytes. simpl. rewrite !byte_bool_of. by destruct h as [? ? ? ? ? ? []].
Qed.

Lemma sample_header_in_range bs h : sample_deserialize_header bs = Ok h → header_in_range h.
Proof.
  unfold sample_deserialize_header. intros H. repeat case_match; simplify_eq.
  pose proof (from_le_bytes_range (take 8 (drop 0 bs))). pose proof (from_le_bytes_range (take 8 (drop 8 bs))).
  pose proof (from_le_bytes_range (take 8 (drop 20 bs))).
  pose proof (from_le_bytes_range (take 4 (drop 28 bs))).
  pose proof (from_le_bytes_range (take 4 (drop 32 bs))).
  assert (∀ n l, (n ≤ 8)%nat → 256 ^ Z.of_nat (length (take n l : list byte)) ≤ 256 ^ Z.of_nat n) as Hle.
  { intros n l _. apply Z.pow_le_mono_r; [lia|]. rewrite length_take. lia. }
  pose proof (Hle 8%nat (drop 0 bs)). pose proof (Hle 8%nat (drop 8 bs)).
  pose proof (Hle 8%nat (drop 20 bs)). pose proof (Hle 4%nat (drop 28 bs)).
  pose proof (Hle 4%nat (drop 32 bs)).
  unfold header_in_range, field, u64_max. simpl lsn. simpl previous_lsn. simpl timestamp_us.
  simpl payload_size. simpl checksum.
  change (256 ^ Z.of_nat 8) with (2 ^ 64) in *. change (256 ^ Z.of_nat 4) with (2 ^ 32) in *. lia.
Qed.

(** ** Payloads and transaction contexts *)

#[global] Instance sample_lineage : LineageModel := {| LineageEvent := string |}.

Definition storage_pair (t : StorageType) : bool * bool :=
  match t with
  | RocksDb => (false, false) | Kafka => (false, true)
  | Parquet => (true, false) | Archive => (true, true)
  end.
Definition pair_storage (p : bool * bool) : StorageType :=
  match p with
  | (false, false) => RocksDb | (false, true) => Kafka
  | (true, false) => Parquet | (true, true) => Archive
  end.

#[global] Program Instance StorageType_countable : Countable StorageType :=
  inj_countable' storage_pair pair_storage _.
Next Obligation. by intros []. Qed.

Definition isolation_pair (l : IsolationLevel) : bool * bool :=
  match l with
  | ReadUncommitted => (false, false) | ReadCommitted => (false, true)
  | RepeatableRead => (true, false) | Serializable => (true, true)
  end.
Definition pair_isolation (p : bool * bool) : IsolationLevel :=
  match p with
  | (false, false) => ReadUncommitted | (false, true) => ReadCommitted
  | (true, false) => RepeatableRead | (true, true) => Serializable
  end.

#[global] Program Instance IsolationLevel_countable : Countable IsolationLevel :=
  inj_countable' isolation_pair pair_isolation _.
Next Obligation. by intros []. Qed.

#[global] Instance RdfTripleEntry_countable : Countable RdfTripleEntry.
Proof.
  refine (inj_countable'
    (λ t, ([subject t; predicate t; object t; graph t; shard_id t], [datatype t; language t],
           bool_decide (operation t = RdfInsert), triple_timestamp_us t))
    (λ p, match p with
          | ([s; q; o; g; h], [d; l], op, ts) =>
              mk_triple s q o d l g h (if (op : bool) then RdfInsert else RdfDelete) ts
          | _ => mk_triple "" "" "" None None "" "" RdfInsert 0
          end) _).
  by intros [? ? ? ? ? ? ? [] ?].
Defined.

#[global] Program Instance StorageOptions_countable : Countable StorageOptions :=
  inj_countable' (λ o, (partition o, replication o, compression o))
    (λ '(p, r, c), mk_storage_options p r c) _.
Next Obligation. by intros []. Qed.

#[global] Program Instance TransactionContext_countable : Countable TransactionContext :=
  inj_countable' (λ t, (ctx_tx_id t, parent_tx_id t, isolation_level t, ctx_participants t))
    (λ '(t, p, i, ps), mk_tx_context t p i ps) _.
Next Obligation. by intros []. Qed.

#[global] Program Instance TransactionOp_countable : Countable TransactionOp :=
  inj_countable'
    (λ o, match o with
          | Begin t ms => inl (inl (t, ms))
          | Prepare t ps => inl (inr (t, ps))
          | Commit t l => inr (inl (t, l))
          | Abort t r => inr (inr (t, r))
          end)
    (λ s, match s with
          | inl (inl (t, ms)) => Begin t ms
          | inl (inr (t, ps)) => Prepare t ps
          | inr (inl (t, l)) => Commit t l
          | inr (inr (t, r)) => Abort t r
          end) _.
Next Obligation. by intros []. Qed.

#[global] Program Instance StorageCheckpoint_countable : Countable StorageCheckpoint :=
  inj_countable' (λ c, (cp_storage_type c, last_flushed_lsn c, pending_writes c, cp_state c))
    (λ '(t, l, p, s), mk_storage_checkpoint t l p s) _.
Next Obligation. by intros []. Qed.

#[global] Instance EntryPayload_eq_dec : EqDecision EntryPayload.
Proof. solve_decision. Defined.

#[global] Program Instance EntryPayload_countable : Countable EntryPayload :=
  inj_countable'
    (λ p, match p with
          | Raw b => inl (inl b)
          | Transaction op => inl (inr op)
          | Lineage e => inr (inl (inl e))
          | LineageBatch es => inr (inl (inr (inl (es : list string))))
          | QualityViolation d r ids s => inr (inl (inr (inr (d, r, ids, s))))
          | RdfTriple t => inr (inr (inl (inl t)))
          | RdfTripleBatch ts => inr (inr (inl (inr (inl ts))))
          | RdfUpdate o n => inr (inr (inl (inr (inr (o, n)))))
          | StorageWrite t k v o => inr (inr (inr (inl (t, k, v, o))))
          | Checkpoint l ss => inr (inr (inr (inr (l, ss))))
          end)
    (λ s, match s with
          | inl (inl b) => Raw b
          | inl (inr op) => Transaction op
          | inr (inl (inl e)) => Lineage (e : LineageEvent)
          | inr (inl (inr (inl es))) => LineageBatch es
          | inr (inl (inr (inr (d, r, ids, s)))) => QualityViolation d r ids s
          | inr (inr (inl (inl t))) => RdfTriple t
          | inr (inr (inl (inr (inl ts)))) => RdfTripleBatch ts
          | inr (inr (inl (inr (inr (o, n))))) => RdfUpdate o n
          | inr (inr (inr (inl (t, k, v, o)))) => StorageWrite t k v o
          | inr (inr (inr (inr (l, ss)))) => Checkpoint l ss
          end) _.
Next Obligation. by intros []. Qed.

(** A countable value as bytes: a mark, then a byte per bit of its number. *)
Definition encode_bytes `{Countable A} (a : A) : list byte := Byte.x02 :: pos_bytes (encode a).

Definition decode_bytes `{Countable A} (bs : list byte) : result string A :=
  match bs with
  | Byte.x02 :: bs' => ok_or (decode (bytes_pos bs')) "invalid bytes"%string
  | _ => Err "invalid bytes"%string
  end.

Lemma decode_bytes_encode `{Countable A} (a : A) : decode_bytes (encode_bytes a) = Ok a.
Proof. simpl. by rewrite bytes_pos_bytes, decode_encode. Qed.

#[global] Instance sample_codec : WalCodec := {|
  size_of_EntryHeader := 40;
  serialize_header := sample_serialize_header;
  deserialize_header := sample_deserialize_header;
  serialize_payload p := encode_bytes p;
  deserialize_payload := decode_bytes;
  serialize_tx t := encode_bytes t;
  deserialize_tx := decode_bytes;
  crc32 bs := foldr (λ b acc, (byte_val b + acc) mod 2 ^ 32) 0 bs;
|}.

#[global] Instance sample_codec_ok : WalCodecOk.
Proof.
  constructor.
  - apply sample_header_roundtrip.
  - apply sample_header_in_range.
  - intros h. cbn [serialize_header size_of_EntryHeader sample_codec].
    unfold sample_serialize_header. by rewrite !length_app, !to_le_bytes_length.
  - simpl. lia.
  - intros h _. cbn [serialize_header sample_codec].
    unfold sample_serialize_header. apply take_app_length'. by rewrite to_le_bytes_length.
  - intros p _. apply decode_bytes_encode.
  - intros t. apply decode_bytes_encode.
  - done.
  - intros [|b bs]; simpl; [lia|]. apply Z.mod_pos_bound. lia.
Qed.

(** ** Concrete logs *)

Definition sample_config (max : Z) (mode : FsyncMode) (policy : RotationPolicy) (direct : bool)
    (min_seg : Z) : WalConfig :=
  let c := production in
  {| path := path c; max_file_size := max; max_segments := max_segments c;
     preallocate := true; direct_io := direct; min_free_disk_space := 0; fsync_mode := mode;
     sync_interval := sync_interval c; group_commit := group_commit c; rotation_policy := policy;
     compaction_policy :=
       {| cp_enabled := true; min_segments := min_seg; cp_max_segments := 10;
          compaction_threshold := compaction_threshold (compaction_policy c);
          compaction_interval := compaction_interval (compaction_policy c);
          archive_before_compact := true |};
     write_buffer_size := write_buffer_size c; max_batch_size := max_batch_size c;
     pipeline_depth := pipeline_depth c; config_compression := config_compression c;
     recovery_mode := recovery_mode c; corruption_tolerance := corruption_tolerance c;
     checkpoint_interval := checkpoint_interval c; tenant_isolation := tenant_isolation c;
     quota_per_tenant := quota_per_tenant c; metrics_enabled := metrics_enabled c;
     metrics_prefix := metrics_prefix c; slow_write_threshold := slow_write_threshold c;
     enable_tracing := enable_tracing c; io_timeout := io_timeout c |}.

(** An operating system in which every call succeeds. *)
Definition fine_create : CreateIo :=
  {| open_answer := None; set_len_answer := None; map_answer := None; create_time := 0 |}.
Definition fine_write : WriteIo := {| flush_async_answer := None; write_all_answer := None |}.
Definition fine_sync : SyncIo := {| flush_answer := None; sync_all_answer := None |}.
Definition fine_append : AppendIo :=
  {| free_space := inr 1000; write_io := fine_write; append_sync := fine_sync; segment_age := 0;
     create_io := fine_create; rotate_sync := fine_sync |}.
Definition fine_compact : CompactIo :=
  {| mkdir_answer := None; copy_answer := None; remove_answer := None |}.

Definition empty_disk : Disk := mk_disk ∅ ∅ ∅.

(** The state [FileWal::new] returns on a disk. *)
Definition opened (cfg : WalConfig) (d : Disk) : FileWal :=
  let d' := set_file d 0 (resize (Z.to_nat (max_file_size cfg)) Byte.x00
                            (default [] (files d !! 0))) in
  mk_wal cfg
    {| seg_id := 0; mapped := negb (direct_io cfg); cursor := 0; position := 0;
       seg_size := Z.to_nat (max_file_size cfg); start_lsn := 0; end_lsn := None;
       created_at := 0; entries := []; dirty := false |}
    [] 0 0 ∅ false d'.

Definition raw (b : list byte) : WalEntry := entry_new 7 0 CheckpointEntry (Raw b).

(** Two entries a segment, synced at every write. *)
Definition two_per_segment : WalConfig := sample_config 100 EveryWrite (RotateEntryCount 2) false 1.
Definition log0 : FileWal := opened two_per_segment empty_disk.
Definition log1 : FileWal := run_op (OpAppend fine_append (raw [])) log0.
Definition log2 : FileWal := run_op (OpAppend fine_append (raw [])) log1.
Definition log3 : FileWal := run_op (OpAppend fine_append (raw [])) log2.

Lemma log0_opened : ∃ d, file_wal_new None fine_create two_per_segment empty_disk = (d, Ok log0).
Proof. eexists. vm_compute. reflexivity. Qed.

Lemma acknowledged_entry_reads_back_witness :
  read None 0 log2 = Ok (sealed (stamped (raw []) 0)) ∧ read None 2 log3 = Err (InvalidLsn 2).
Proof.
  split.
  - destruct log0_opened as [d Hd].
    destruct (acknowledged_entry_reads_back None fine_create two_per_segment empty_disk d log0 log0
      fine_append (raw []) log1 0 log2) as (_ & loc & Hi & Hr).
    + split; reflexivity.
    + exact Hd.
    + constructor.
    + vm_compute. discriminate.
    + vm_compute. reflexivity.
    + apply (steps_op _ log1 (OpAppend fine_append (raw []))); [exact I|vm_compute; discriminate|].
      constructor.
    + unfold storable, payload_readable. vm_compute. repeat split; discriminate.
    + rewrite Hr. revert Hi. vm_compute. intros [= <-]. reflexivity.
  - vm_compute. reflexivity.
Defined.

Lemma log0_inv : wal_inv log0.
Proof. destruct log0_opened as [d Hd]. eapply new_inv in Hd as [? _]; [done|]. split; reflexivity. Qed.

Lemma acknowledged_entry_is_durable_witness :
  ∃ loc f, lsn_index log1 !! 0 = Some loc ∧ durable (disk log1) !! segment_id loc = Some f ∧
    from_bytes (take (size loc) (drop (offset loc) f)) = Ok (sealed (stamped (raw []) 0)).
Proof.
  apply (acknowledged_entry_is_durable fine_append (raw []) log0 log1 0).
  - exact log0_inv.
  - vm_compute. discriminate.
  - reflexivity.
  - unfold storable, payload_readable. vm_compute. repeat split; discriminate.
  - vm_compute. reflexivity.
Defined.

(** Segments of 100 bytes rotated when they hold 100 bytes, as the production
    preset rotates segments of a gigabyte when they hold a gigabyte. *)
Definition sized : WalConfig := sample_config 100 BatchSync (RotateSizeAndTime 100 3600000) false 1.
Definition sized0 : FileWal := opened sized empty_disk.
Definition sized2 : FileWal :=
  run_op (OpAppend fine_append (raw [])) (run_op (OpAppend fine_append (raw [])) sized0).

Lemma full_segment_rejects_forever_witness :
  ∃ c rs, run_appends [(fine_append, raw []); (fine_append, raw [Byte.x01])] sized2
            = (set_current_lsn sized2 c, rs) ∧
    Forall (λ r, ∃ err, r = Err err) rs ∧
    (min_free_disk_space (config sized2) = 0 → Forall (λ r, r = Err (WalFull 100)) rs).
Proof.
  apply (full_segment_rejects_forever [(fine_append, raw []); (fine_append, raw [Byte.x01])] sized2).
  repeat constructor; apply Nat.ltb_lt; vm_compute; reflexivity.
Defined.

(** ** Runs that lose entries *)

(** Compaction removes the index entries of its segment up to and including the
    first number of the next segment, so that entry can no longer be read
    although its segment is not compacted; and a compacted segment is never
    marked, so the next compaction fails on it. *)
Definition log4 : FileWal := run_op (OpAppend fine_append (raw [])) log3.
Definition compacted : FileWal :=
  run_op (OpCompaction (λ _, fine_compact)) (run_op (OpCommit 2) log4).

Example compaction_hides_neighbour :
  read None 2 log4 = Ok (sealed (stamped (raw []) 2)) ∧
  read None 2 compacted = Err (InvalidLsn 2) ∧
  files (disk compacted) !! 1 = files (disk log4) !! 1 ∧
  read None 3 compacted = Ok (sealed (stamped (raw []) 3)).
Proof. vm_compute. auto. Qed.

Example compaction_repeats :
  List.filter (eligible (committed_lsn compacted)) (map snd (segments compacted))
    = List.filter (eligible 2) (map snd (segments log4)) ∧
  (compact_segment fine_compact (mk_segment_info 0 0 (Some 2) 86 2 0 false) compacted).2
    = Err (Io NotFoundKind (Some (SegmentFile 0))).
Proof. vm_compute. auto. Qed.

(** A new log on the directory of an old one starts at the first byte of segment
    0 and at number 0: its first append replaces the durable entry 0. *)
Definition reopened : FileWal := opened two_per_segment (disk log1).

Example reopening_overwrites :
  (∃ d, file_wal_new None fine_create two_per_segment (disk log1) = (d, Ok reopened)) ∧
  (append fine_append (raw [Byte.x01]) reopened).2 = Ok 0 ∧
  take 8 (drop 43 (active_file (run_op (OpAppend fine_append (raw [Byte.x01])) reopened)))
    ≠ take 8 (drop 43 (active_file log1)).
Proof. split; [eexists; vm_compute; reflexivity|]. vm_compute. split; [done|discriminate]. Qed.

(** Without a memory map, a write that fails half-way moves the file's cursor but
    not the position, and later entries are not where the index says. *)
Definition direct : WalConfig := sample_config 200 BatchSync (RotateEntryCount 1) true 1.
Definition half_write : AppendIo :=
  {| free_space := inr 1000;
     write_io := {| flush_async_answer := None; write_all_answer := Some (10%nat, OtherKind) |};
     append_sync := fine_sync; segment_age := 0; create_io := fine_create;
     rotate_sync := fine_sync |}.
Definition direct1 : FileWal := run_op (OpAppend half_write (raw [])) (opened direct empty_disk).

Example direct_write_misplaced :
  (append fine_append (raw []) direct1).2 = Ok 1 ∧
  read None 1 (run_op (OpAppend fine_append (raw [])) direct1)
    ≠ Ok (sealed (stamped (raw []) 1)).
Proof. vm_compute. split; [done|discriminate]. Qed.

(** Two writers that both decide to rotate create the same new segment; the
    second swap restarts it at position 0 while it is in use.  The steps are
    those of [append] by the writers A, B, C and D, in an order the locks allow. *)
Definition racing : WalConfig := sample_config 100 BatchSync (RotateEntryCount 2) false 1.

Definition race : WalM LogSequenceNumber :=
  a ← append_reserve (inr 1000) (raw []);
  _ ← append_write fine_write fine_sync (raw []) a;
  b ← append_reserve (inr 1000) (raw []);
  _ ← append_write fine_write fine_sync (raw []) b;
  ra ← rotate_prepare fine_create;
  rb ← rotate_prepare fine_create;
  _ ← rotate_swap fine_sync ra.1 ra.2;
  c ← append fine_append (raw []);
  _ ← rotate_swap fine_sync rb.1 rb.2;
  _ ← append fine_append (raw []);
  mret c.

Example racing_rotations_lose_an_entry :
  (race (opened racing empty_disk)).2 = Ok 2 ∧
  read None 2 (race (opened racing empty_disk)).1 = Ok (sealed (stamped (raw []) 3)).
Proof. vm_compute. auto. Qed.
