(* ===== verification/WalCoordinator.v ===== *)
(** * Write-ahead log: the two-phase commit coordinator

    Models [storage/wal/coordinator.rs].  The coordinator uses a log through the
    trait of [storage/wal/traits.rs], the class [WriteAheadLog]; what it relies
    on is [WriteAheadLogOk], stated over the sequence [wal_log] of records a log
    has accepted.  An append that fails may or may not have recorded its entry.

    The lock of a transaction's table entry is held through an operation on it,
    so operations are atomic steps here; [commit] and [abort] give it up before they
    take the entry out of the table, which is a second step.  A storage backend is the sequence of
    batches it was asked to write. *)

From Stdlib Require Import ZArith Lia Ascii.
From stdpp Require Import base numbers option strings gmap list.
From S2P Require Import Prelude RustStd Bytes Effects WalEntry.

Local Open Scope Z_scope.

(** ** The trait *)

Class WriteAheadLog `{LineageModel} := {
  Wal : Type;
  WalIo : Type;
  wal_append : WalIo → WalEntry → method Wal WalError LogSequenceNumber;
  wal_append_batch : WalIo → list WalEntry → method Wal WalError (list LogSequenceNumber);
  wal_sync : WalIo → method Wal WalError unit;
  wal_commit_batch : list LogSequenceNumber → method Wal WalError unit;
  wal_tail_lsn : Wal → LogSequenceNumber;
  wal_log : Wal → list WalEntry;
}.

(** A record is the entry it was made from, up to its header. *)
Definition recorded `{LineageModel} (e e' : WalEntry) : Prop :=
  payload e' = payload e ∧ transaction e' = transaction e.

Class WriteAheadLogOk `{WriteAheadLog} : Prop := {
  append_records io e w w' r :
    wal_append io e w = (w', r) →
    (∃ e', recorded e e' ∧ wal_log w' = wal_log w ++ [e']) ∨
    (wal_log w' = wal_log w ∧ ∀ l, r ≠ Ok l);
  append_batch_records io es w w' r :
    wal_append_batch io es w = (w', r) →
    ∃ k es', Forall2 recorded (take k es) es' ∧ wal_log w' = wal_log w ++ es' ∧
      (∀ ls, r = Ok ls → take k es = es);
  sync_records io w w' r : wal_sync io w = (w', r) → wal_log w' = wal_log w;
  commit_records ls w w' r : wal_commit_batch ls w = (w', r) → wal_log w' = wal_log w;
}.

(** ** State *)

Inductive TransactionStatus : Type :=
  | Active
  | Preparing
  | Prepared
  | Committing
  | Committed
  | Aborting
  | Aborted.

#[global] Instance TransactionStatus_eq_dec : EqDecision TransactionStatus.
Proof. solve_decision. Defined.

(** [format!("{:?}", status)] and [format!("{:?}", storage_type)]. *)
Definition status_debug (s : TransactionStatus) : string :=
  match s with
  | Active => "Active" | Preparing => "Preparing" | Prepared => "Prepared"
  | Committing => "Committing" | Committed => "Committed" | Aborting => "Aborting"
  | Aborted => "Aborted"
  end.

Definition storage_debug (t : StorageType) : string :=
  match t with
  | RocksDb => "RocksDb" | Kafka => "Kafka" | Parquet => "Parquet" | Archive => "Archive"
  end.

Record StorageParticipant : Type := mk_participant {
  storage_type : StorageType;
  prepared : bool;
  committed : bool;
  rollback_data : option (list byte);
}.

Record TransactionState `{LineageModel} : Type := mk_tx {
  id : Z;
  created_at : Z;
  timeout : Z;
  participants : list StorageParticipant;
  entries : list WalEntry;
  lsns : list LogSequenceNumber;
  status : TransactionStatus;
  parent_tx : option Z;
}.

(** [RecoveryResult]; a failed transaction is named by its number and error. *)
Record RecoveryResult : Type := mk_recovery {
  recovered_transactions : Z;
  committed_transactions : Z;
  aborted_transactions : Z;
  failed_transactions : list (Z * bool * WalError);
  last_checkpoint_lsn : LogSequenceNumber;
  recovery_end_lsn : LogSequenceNumber;
}.

Section Coordinator.
Context `{LM : LineageModel} `{WAL : !WriteAheadLog}.

(** The coordinator; [storage] is the connected backend, if any: the batches it
    was asked to write for each transaction, and whether it succeeded. *)
Record WalCoordinator : Type := mk_coordinator {
  wal : Wal;
  storage : option (list (Z * list LineageEvent * bool));
  transactions : gmap Z TransactionState;
  next_tx_id : Z;
}.

Definition CoordM : Type → Type := method WalCoordinator WalError.

Definition set_wal (c : WalCoordinator) (w : Wal) : WalCoordinator :=
  mk_coordinator w (storage c) (transactions c) (next_tx_id c).
Definition set_transactions (c : WalCoordinator) (m : gmap Z TransactionState) : WalCoordinator :=
  mk_coordinator (wal c) (storage c) m (next_tx_id c).
Definition set_next_tx_id (c : WalCoordinator) (n : Z) : WalCoordinator :=
  mk_coordinator (wal c) (storage c) (transactions c) n.
Definition set_storage (c : WalCoordinator) s : WalCoordinator :=
  mk_coordinator (wal c) s (transactions c) (next_tx_id c).

Definition with_status (t : TransactionState) (s : TransactionStatus) : TransactionState :=
  mk_tx _ (id t) (created_at t) (timeout t) (participants t) (entries t) (lsns t) s (parent_tx t).
Definition with_lsns (t : TransactionState) (l : list LogSequenceNumber) : TransactionState :=
  mk_tx _ (id t) (created_at t) (timeout t) (participants t) (entries t) l (status t) (parent_tx t).
Definition with_entries (t : TransactionState) (es : list WalEntry) : TransactionState :=
  mk_tx _ (id t) (created_at t) (timeout t) (participants t) es (lsns t) (status t) (parent_tx t).
Definition with_participants (t : TransactionState) (ps : list StorageParticipant)
    : TransactionState :=
  mk_tx _ (id t) (created_at t) (timeout t) ps (entries t) (lsns t) (status t) (parent_tx t).

(** A call of the log. *)
Definition call_wal {A} (m : method Wal WalError A) : CoordM A :=
  λ c, let '(w, r) := m (wal c) in (set_wal c w, r).

(** A write through the [get_mut] reference to a transaction. *)
Definition update_tx (tx_id : Z) (f : TransactionState → TransactionState) : CoordM unit :=
  modify (λ c, set_transactions c (alter f tx_id (transactions c))).

(** [transactions.get_mut(&tx_id).ok_or(NotFound)]. *)
Definition get_tx (tx_id : Z) : CoordM TransactionState :=
  c ← gets (λ c, c);
  lift (ok_or (transactions c !! tx_id) (TransactionErr (TxNotFound tx_id))).

(** The guard on the status. *)
Definition require_status (tx_id : Z) (t : TransactionState) (s : TransactionStatus)
    : CoordM unit :=
  guard_ok (bool_decide (status t = s))
    (TransactionErr (InvalidState tx_id (status_debug (status t)))).

(** ** Operations *)

(** [WalCoordinator::new]. *)
Definition coordinator_new (w : Wal) : WalCoordinator := mk_coordinator w None ∅ 1.

(** [WalCoordinator::connect_storage] of a backend, whose batches are counted
    from now on. *)
Definition connect_storage : CoordM unit := modify (λ c, set_storage c (Some [])).

(** [WalCoordinator::begin_transaction], at the clock [now] (microseconds for the
    entry, milliseconds for the timeout). *)
Definition begin_transaction (io : WalIo) (now_us now_ms : Z) : CoordM Z :=
  tx_id ← gets next_tx_id;
  _ ← modify (λ c, set_next_tx_id c ((tx_id + 1) mod 2 ^ 64));
  let entry := entry_new now_us LSN_ZERO TransactionBegin (Transaction (Begin tx_id 30000)) in
  l ← call_wal (wal_append io entry);
  let state := mk_tx _ tx_id now_ms 30000 [] [] [l] Active None in
  _ ← modify (λ c, set_transactions c (<[tx_id := state]> (transactions c)));
  mret tx_id.

(** The entry of one event. *)
Definition lineage_entry (now_us tx_id : Z) (t : TransactionState) (event : LineageEvent)
    : WalEntry :=
  with_transaction (entry_lineage now_us LSN_ZERO event)
    (Some (mk_tx_context tx_id (parent_tx t) ReadCommitted ["rocksdb"; "kafka"]%string)).

(** Add a participant of a kind, unless there is one. *)
Definition add_participant (ty : StorageType) (t : TransactionState) : TransactionState :=
  if existsb (λ p, bool_decide (storage_type p = ty)) (participants t) then t
  else with_participants t (participants t ++ [mk_participant ty false false None]).

(** [WalCoordinator::add_lineage]. *)
Definition add_lineage (io : WalIo) (now_us tx_id : Z) (events : list LineageEvent)
    : CoordM (list LogSequenceNumber) :=
  t ← get_tx tx_id;
  _ ← require_status tx_id t Active;
  let es := map (lineage_entry now_us tx_id t) events in
  ls ← call_wal (wal_append_batch io es);
  _ ← update_tx tx_id (λ t, with_lsns (with_entries t (entries t ++ es)) (lsns t ++ ls));
  _ ← update_tx tx_id (λ t, add_participant Kafka (add_participant RocksDb t));
  mret ls.

(** The preparation of a participant. *)
Definition prepare_participant (p : StorageParticipant) : StorageParticipant :=
  match storage_type p with
  | RocksDb => mk_participant (storage_type p) true (committed p) (Some [])
  | Kafka | Parquet => mk_participant (storage_type p) true (committed p) (rollback_data p)
  | Archive => p
  end.

(** [WalCoordinator::prepare]. *)
Definition prepare (io : WalIo) (now_us tx_id : Z) : CoordM unit :=
  t ← get_tx tx_id;
  _ ← require_status tx_id t Active;
  _ ← update_tx tx_id (λ t, with_status t Preparing);
  let entry := entry_new now_us LSN_ZERO TransactionPrepare
    (Transaction (Prepare tx_id (map (λ p, storage_debug (storage_type p)) (participants t)))) in
  l ← call_wal (wal_append io entry);
  _ ← update_tx tx_id (λ t, with_lsns t (lsns t ++ [l]));
  _ ← update_tx tx_id (λ t, with_participants t (map prepare_participant (participants t)));
  if forallb prepared (map prepare_participant (participants t)) then
    update_tx tx_id (λ t, with_status t Prepared)
  else
    _ ← update_tx tx_id (λ t, with_status t Aborting);
    fail (TransactionErr (TwoPhaseCommitFailed "Not all participants prepared")).

(** [iter().max().unwrap_or(ZERO)]. *)
Definition max_lsn (l : list LogSequenceNumber) : LogSequenceNumber :=
  match l with
  | [] => LSN_ZERO
  | x :: l' => foldl Z.max x l'
  end.

(** The lineage events among the entries of a transaction. *)
Definition lineage_events (es : list WalEntry) : list LineageEvent :=
  omap (λ e, match payload e with Lineage ev => Some ev | _ => None end) es.

(** [storage.write_batch], which answers with an error text if it fails. *)
Definition write_batch (answer : option string) (tx_id : Z) (events : list LineageEvent)
    : CoordM unit :=
  _ ← modify (λ c, set_storage c
        ((λ calls, calls ++ [(tx_id, events, bool_decide (answer = None))]) <$> storage c));
  match answer with
  | None => mret tt
  | Some msg => fail (StorageErr (CoordinationFailed msg))
  end.

(** The part of [commit] that writes to the backend, when one is connected. *)
Definition commit_storage (answer : option string) (tx_id : Z) (t : TransactionState)
    : CoordM unit :=
  s ← gets storage;
  match s with
  | None => mret tt
  | Some _ =>
      let events := lineage_events (entries t) in
      _ ← (match events with
           | [] => mret tt
           | _ => write_batch answer tx_id events
           end);
      update_tx tx_id (λ t, with_participants t
        (map (λ p, mk_participant (storage_type p) (prepared p) true (rollback_data p))
           (participants t)))
  end.

(** [WalCoordinator::commit], as long as it holds the entry of the transaction. *)
Definition commit_locked (io : WalIo) (answer : option string) (now_us tx_id : Z) : CoordM unit :=
  t ← get_tx tx_id;
  _ ← require_status tx_id t Prepared;
  _ ← update_tx tx_id (λ t, with_status t Committing);
  let entry := entry_new now_us LSN_ZERO TransactionCommit
    (Transaction (Commit tx_id (max_lsn (lsns t)))) in
  _ ← call_wal (wal_append io entry);
  _ ← commit_storage answer tx_id t;
  _ ← call_wal (wal_commit_batch (lsns t));
  update_tx tx_id (λ t, with_status t Committed).

(** [self.transactions.remove(&tx_id)]. *)
Definition remove_tx (tx_id : Z) : CoordM unit :=
  modify (λ c, set_transactions c (delete tx_id (transactions c))).

(** [WalCoordinator::commit]. *)
Definition commit (io : WalIo) (answer : option string) (now_us tx_id : Z) : CoordM unit :=
  _ ← commit_locked io answer now_us tx_id;
  remove_tx tx_id.

(** [WalCoordinator::abort], as long as it holds the entry, and whether it goes on to
    remove it; the rollback of the participants has no effect. *)
Definition abort_locked (io : WalIo) (now_us tx_id : Z) (reason : string) : CoordM bool :=
  t ← get_tx tx_id;
  match status t with
  | Committed | Aborted => mret false
  | _ =>
      _ ← update_tx tx_id (λ t, with_status t Aborting);
      let entry := entry_new now_us LSN_ZERO TransactionAbort (Transaction (Abort tx_id reason)) in
      _ ← call_wal (wal_append io entry);
      _ ← update_tx tx_id (λ t, with_status t Aborted);
      mret true
  end.

(** [WalCoordinator::abort]. *)
Definition abort (io : WalIo) (now_us tx_id : Z) (reason : string) : CoordM unit :=
  removes ← abort_locked io now_us tx_id reason;
  if (removes : bool) then remove_tx tx_id else mret tt.

(** [WalCoordinator::checkpoint]. *)
Definition checkpoint (io sync_io : WalIo) (now_us : Z) : CoordM LogSequenceNumber :=
  c ← gets (λ c, c);
  let tail := wal_tail_lsn (wal c) in
  let states :=
    match storage c with
    | Some _ => [mk_storage_checkpoint RocksDb tail 0 []; mk_storage_checkpoint Kafka tail 0 []]
    | None => []
    end in
  l ← call_wal (wal_append io (entry_new now_us LSN_ZERO CheckpointEntry (Checkpoint tail states)));
  _ ← call_wal (wal_sync sync_io);
  mret l.

(** One pass of the timeout handler at the time [now_ms]; errors are logged. *)
Definition timed_out (now_ms : Z) (c : WalCoordinator) : list Z :=
  map (λ p, id p.2)
    (List.filter (λ p, timeout p.2 <? now_ms - created_at p.2) (map_to_list (transactions c))).

Definition timeout_tick (io : Z → WalIo) (now_us now_ms : Z) : CoordM unit :=
  ids ← gets (timed_out now_ms);
  _ ← method_mapM (λ tx_id, ignore_errors (abort (io tx_id) now_us tx_id "Transaction timeout")) ids;
  mret tt.

(** [WalCoordinator::active_transaction_count], [get_transaction_state]. *)
Definition active_transaction_count (c : WalCoordinator) : nat := base.size (transactions c).
Definition get_transaction_state (c : WalCoordinator) (tx_id : Z) : option TransactionState :=
  transactions c !! tx_id.

(** ** Recovery *)

(** One entry of [reconstruct_transaction_states], at the clock [now_ms]. *)
Definition reconstruct_step (now_ms : Z) (m : gmap Z TransactionState) (e : WalEntry)
    : gmap Z TransactionState :=
  let mark tx_id s :=
    alter (λ t, with_lsns (with_status t s) (lsns t ++ [lsn (header e)])) tx_id m in
  match payload e with
  | Transaction (Begin tx_id timeout_ms) =>
      <[tx_id := mk_tx _ tx_id now_ms timeout_ms [] [e] [lsn (header e)] Active None]> m
  | Transaction (Prepare tx_id _) => mark tx_id Prepared
  | Transaction (Commit tx_id _) => mark tx_id Committed
  | Transaction (Abort tx_id _) => mark tx_id Aborted
  | _ => m
  end.

Definition reconstruct_transaction_states (now_ms : Z) (es : list WalEntry)
    : gmap Z TransactionState :=
  foldl (reconstruct_step now_ms) ∅ es.

(** [recover_commit_transaction] and [recover_abort_transaction]: the visits of
    the participants have no effect. *)
Definition recover_commit_transaction (io sync_io : WalIo) (now_us tx_id : Z) : CoordM unit :=
  c ← gets (λ c, c);
  _ ← call_wal (wal_append io (entry_new now_us LSN_ZERO TransactionCommit
        (Transaction (Commit tx_id (wal_tail_lsn (wal c))))));
  call_wal (wal_sync sync_io).

Definition recover_abort_transaction (io sync_io : WalIo) (now_us tx_id : Z) : CoordM unit :=
  _ ← call_wal (wal_append io (entry_new now_us LSN_ZERO TransactionAbort
        (Transaction (Abort tx_id "Recovered incomplete transaction"))));
  call_wal (wal_sync sync_io).

(** The counters of [recover]. *)
Record RecoveryCounts : Type := mk_counts {
  n_recovered : Z;
  n_committed : Z;
  n_aborted : Z;
  failed : list (Z * bool * WalError);
}.

(** The decision for one reconstructed transaction; a failed attempt is recorded
    with whether it was a commit. *)
Definition recover_one (io sync_io : Z → WalIo) (now_us : Z) (acc : RecoveryCounts)
    (p : Z * TransactionState) : CoordM RecoveryCounts :=
  let '(tx_id, t) := p in
  let acc := mk_counts (n_recovered acc + 1) (n_committed acc) (n_aborted acc) (failed acc) in
  let commits := mk_counts (n_recovered acc) (n_committed acc + 1) (n_aborted acc) (failed acc) in
  let aborts := mk_counts (n_recovered acc) (n_committed acc) (n_aborted acc + 1) (failed acc) in
  let fails b e :=
    mk_counts (n_recovered acc) (n_committed acc) (n_aborted acc) (failed acc ++ [(tx_id, b, e)]) in
  let attempt (m : CoordM unit) (b : bool) (done : RecoveryCounts) : CoordM RecoveryCounts :=
    λ c, match m c with
         | (c', Ok _) => (c', Ok done)
         | (c', Err e) => (c', Ok (fails b e))
         | (c', Panic) => (c', Panic)
         end in
  match status t with
  | Prepared | Committing =>
      attempt (recover_commit_transaction (io tx_id) (sync_io tx_id) now_us tx_id) true commits
  | Aborting | Active =>
      attempt (recover_abort_transaction (io tx_id) (sync_io tx_id) now_us tx_id) false aborts
  | Committed => mret commits
  | Aborted => mret aborts
  | Preparing => mret acc
  end.

Fixpoint recover_all (io sync_io : Z → WalIo) (now_us : Z) (acc : RecoveryCounts)
    (l : list (Z * TransactionState)) : CoordM RecoveryCounts :=
  match l with
  | [] => mret acc
  | p :: l' =>
      acc ← recover_one io sync_io now_us acc p;
      recover_all io sync_io now_us acc l'
  end.

(** [find_last_checkpoint] and [scan_wal_for_recovery]. *)
Definition find_last_checkpoint : CoordM LogSequenceNumber := mret 0.
Definition scan_wal_for_recovery (start_lsn end_lsn : LogSequenceNumber) : CoordM (list WalEntry) :=
  mret [].

(** [WalCoordinator::recover]; [iter] is the order in which the map of
    reconstructed transactions is visited. *)
Definition recover (iter : gmap Z TransactionState → list (Z * TransactionState))
    (io sync_io : Z → WalIo) (now_us now_ms : Z) : CoordM RecoveryResult :=
  checkpoint_lsn ← find_last_checkpoint;
  tail ← gets (λ c, wal_tail_lsn (wal c));
  es ← scan_wal_for_recovery checkpoint_lsn tail;
  acc ← recover_all io sync_io now_us (mk_counts 0 0 0 [])
          (iter (reconstruct_transaction_states now_ms es));
  mret (mk_recovery (n_recovered acc) (n_committed acc) (n_aborted acc) (failed acc)
          checkpoint_lsn tail).
End Coordinator.
