(* ===== verification/WalCoordinatorFacts.v ===== *)
(** * Write-ahead log: correctness of the two-phase commit

    The records a coordinator leaves in its log follow the protocol, a storage
    backend is written only for transactions whose commit is recorded, and a
    finished transaction keeps its outcome: all of it proved against the
    interface of the log. *)

From Stdlib Require Import ZArith Lia Ascii.
From stdpp Require Import base numbers option strings gmap list.
From S2P Require Import Prelude RustStd Bytes Effects WalEntry WalCoordinator.

Local Open Scope Z_scope.

(** ** The records of a transaction *)

Inductive kind : Type := KBegin | KPrepare | KCommit | KAbort.

#[global] Instance kind_eq_dec : EqDecision kind.
Proof. solve_decision. Defined.

Definition op_tx (op : TransactionOp) : Z :=
  match op with
  | Begin t _ | Prepare t _ | Commit t _ | Abort t _ => t
  end.

Definition op_kind (op : TransactionOp) : kind :=
  match op with
  | Begin _ _ => KBegin
  | Prepare _ _ => KPrepare
  | Commit _ _ => KCommit
  | Abort _ _ => KAbort
  end.

Section Trail.
Context `{LM : LineageModel}.

(** What an entry records about a transaction. *)
Definition entry_kind (t : Z) (e : WalEntry) : list kind :=
  match payload e with
  | Transaction op => if bool_decide (op_tx op = t) then [op_kind op] else []
  | _ => []
  end.

Definition trail (t : Z) (log : list WalEntry) : list kind := flat_map (entry_kind t) log.

Lemma trail_app t l l' : trail t (l ++ l') = trail t l ++ trail t l'.
Proof. apply flat_map_app. Qed.

Lemma entry_kind_recorded t e e' : recorded e e' → entry_kind t e' = entry_kind t e.
Proof. intros [E _]. unfold entry_kind. by rewrite E. Qed.

Lemma trail_recorded t es es' : Forall2 recorded es es' → trail t es' = trail t es.
Proof.
  induction 1 as [|e e' es es' He _ IH]; [done|]. unfold trail in *. simpl.
  by rewrite IH, (entry_kind_recorded t e e').
Qed.

(** The status recovery would give to a transaction with these records. *)
Definition kind_status (s : option TransactionStatus) (k : kind) : option TransactionStatus :=
  match k, s with
  | KBegin, _ => Some Active
  | _, None => None
  | KPrepare, Some _ => Some Prepared
  | KCommit, Some _ => Some Committed
  | KAbort, Some _ => Some Aborted
  end.

Lemma reconstruct_status_from now t es m :
  status <$> (foldl (reconstruct_step now) m es !! t) =
  foldl kind_status (status <$> (m !! t)) (trail t es).
Proof.
  revert m. induction es as [|e es IH]; intros m; [done|].
  change (trail t (e :: es)) with (entry_kind t e ++ trail t es).
  rewrite foldl_app. simpl foldl at 1. rewrite IH. f_equal.
  unfold reconstruct_step, entry_kind. destruct (payload e); try done.
  destruct op; simpl; case_bool_decide; subst; simpl;
    rewrite ?lookup_insert_eq, ?lookup_insert_ne, ?lookup_alter_eq, ?lookup_alter_ne by done;
    try done; by destruct (m !! t).
Qed.

(** Recovery sees exactly the records of a transaction, in order. *)
Lemma reconstruct_status now t es :
  status <$> (reconstruct_transaction_states now es !! t) = foldl kind_status None (trail t es).
Proof. apply reconstruct_status_from. Qed.
End Trail.

(** The records the protocol allows: Begin, Prepare, Commit in this order as far
    as it went, then the aborts. *)
Definition bases : list (list kind) :=
  [[KBegin]; [KBegin; KPrepare]; [KBegin; KPrepare; KCommit]].

Definition trail_ok (l : list kind) : Prop :=
  l = [] ∨ ∃ base n, base ∈ bases ∧ l = base ++ repeat KAbort n.

(** The records that go with a status in the table. *)
Definition trail_for (s : TransactionStatus) (l : list kind) : Prop :=
  match s with
  | Active => l = [KBegin]
  | Preparing => l = [KBegin] ∨ l = [KBegin; KPrepare]
  | Prepared => l = [KBegin; KPrepare]
  | Committing => l = [KBegin; KPrepare] ∨ l = [KBegin; KPrepare; KCommit]
  | Aborting => ∃ base n, base ∈ bases ∧ l = base ++ repeat KAbort n
  | Committed => l = [KBegin; KPrepare; KCommit]
  | Aborted => ∃ base n, base ∈ bases ∧ l = base ++ repeat KAbort (S n)
  end.

Lemma bases_cases base :
  base ∈ bases → base = [KBegin] ∨ base = [KBegin; KPrepare] ∨ base = [KBegin; KPrepare; KCommit].
Proof. unfold bases. rewrite !elem_of_cons, elem_of_nil. tauto. Qed.

Lemma base_trail base : base ∈ bases → ∃ b n, b ∈ bases ∧ base = b ++ repeat KAbort n.
Proof. intros. exists base, 0%nat. by rewrite app_nil_r. Qed.

Lemma trail_for_aborting s l : trail_for s l → trail_for Aborting l.
Proof.
  assert (∀ base, base ∈ bases → trail_for Aborting base) as Hb by (intros; by apply base_trail).
  destruct s; simpl trail_for at 1; intros H;
    [|destruct H as [H|H]| |destruct H as [H|H]| |done
     |destruct H as (base & n & ? & ->); by exists base, (S n)];
    subst; apply Hb; unfold bases; set_solver.
Qed.

Lemma trail_for_ok s l : trail_for s l → trail_ok l.
Proof. intros H%trail_for_aborting. by right. Qed.

Lemma aborting_snoc l : trail_for Aborting l → trail_for Aborted (l ++ [KAbort]).
Proof.
  intros (base & n & Hb & ->). exists base, n. split; [done|].
  rewrite <- app_assoc. f_equal. by rewrite <- repeat_cons.
Qed.

Section CoordinatorFacts.
Context `{LM : LineageModel} `{WAL : !WriteAheadLog} `{WOK : !WriteAheadLogOk}.

Definition trail_of (t : Z) (c : WalCoordinator) : list kind := trail t (wal_log (wal c)).

(** ** The invariant *)

Record coord_inv (c : WalCoordinator) : Prop := {
  ci_next : 1 ≤ next_tx_id c;
  ci_fresh t : next_tx_id c ≤ t → transactions c !! t = None ∧ trail_of t c = [];
  ci_table t st : transactions c !! t = Some st →
    id st = t ∧ trail_for (status st) (trail_of t c);
  ci_trail t : trail_ok (trail_of t c);
  ci_storage calls t evs ok :
    storage c = Some calls → (t, evs, ok) ∈ calls → KCommit ∈ trail_of t c;
}.

(** What an operation on the transaction [tx] may touch. *)
Record frame (tx : Z) (c c' : WalCoordinator) : Prop := {
  fr_next : next_tx_id c' = next_tx_id c;
  fr_table t : t ≠ tx → transactions c' !! t = transactions c !! t;
  fr_other t : t ≠ tx → trail_of t c' = trail_of t c;
  fr_own : ∃ k, trail_of tx c' = trail_of tx c ++ k;
  fr_storage calls' : storage c' = Some calls' →
    ∃ calls new, storage c = Some calls ∧ calls' = calls ++ new ∧ Forall (λ x, x.1.1 = tx) new;
}.

Lemma frame_refl tx c : frame tx c c.
Proof.
  constructor; try done; [exists []; by rewrite app_nil_r|].
  intros calls' H. exists calls', []. by rewrite app_nil_r.
Qed.

(** An operation on [tx] keeps the invariant if its own transaction is right
    afterwards. *)
Lemma inv_frame tx c c' :
  coord_inv c → frame tx c c' → tx < next_tx_id c →
  trail_ok (trail_of tx c') →
  (∀ st, transactions c' !! tx = Some st → id st = tx ∧ trail_for (status st) (trail_of tx c')) →
  (storage c' = storage c ∨ KCommit ∈ trail_of tx c') →
  coord_inv c'.
Proof.
  intros I F Hlt Hok Hst Hsto. destruct I, F. constructor.
  - lia.
  - intros t Ht. rewrite fr_table0, fr_other0 by lia. apply ci_fresh0. lia.
  - intros t st. destruct (decide (t = tx)) as [->|Hne]; [apply Hst|].
    rewrite fr_table0, fr_other0 by done. apply ci_table0.
  - intros t. destruct (decide (t = tx)) as [->|Hne]; [done|]. by rewrite fr_other0.
  - intros calls t evs ok Hc Hin. destruct (decide (t = tx)) as [->|Hne].
    + destruct Hsto as [E|?]; [|done]. rewrite E in Hc.
      destruct fr_own0 as [k ->]. apply elem_of_app. left. by eapply ci_storage0.
    + rewrite fr_other0 by done. destruct (fr_storage0 _ Hc) as (calls0 & new & Hs & -> & Hnew).
      apply elem_of_app in Hin as [Hin|Hin]; [by eapply ci_storage0|].
      rewrite Forall_forall in Hnew. by apply Hnew in Hin.
Qed.

(** ** The frame of each operation *)

Lemma frame_trans tx c1 c2 c3 : frame tx c1 c2 → frame tx c2 c3 → frame tx c1 c3.
Proof.
  intros [] []. constructor.
  - congruence.
  - intros t Ht. rewrite fr_table1, fr_table0; done.
  - intros t Ht. rewrite fr_other1, fr_other0; done.
  - destruct fr_own0 as [k E], fr_own1 as [k' E']. exists (k ++ k'). by rewrite E', E, app_assoc.
  - intros calls' Hc. destruct (fr_storage1 _ Hc) as (calls1 & n1 & Hc1 & -> & H1).
    destruct (fr_storage0 _ Hc1) as (calls & n0 & Hc0 & -> & H0).
    exists calls, (n0 ++ n1). rewrite app_assoc. split_and!; [done..|]. by apply Forall_app.
Qed.

(** Methods that stay within the frame of [tx]. *)
Definition framed {A} (tx : Z) (m : CoordM A) : Prop :=
  ∀ c c' r, m c = (c', r) → frame tx c c'.

Lemma framed_preserves {A} tx (m : CoordM A) :
  framed tx m ↔ ∀ c0, preserves (frame tx c0) m.
Proof.
  split.
  - intros Hm c0 c c' r Hr Hf. eapply frame_trans; [done|]. by eapply Hm.
  - intros Hm c c' r Hr. eapply Hm; [done|apply frame_refl].
Qed.

Lemma set_wal_frame tx c w :
  (∃ k, trail tx (wal_log w) = trail_of tx c ++ k) →
  (∀ t, t ≠ tx → trail t (wal_log w) = trail_of t c) → frame tx c (set_wal c w).
Proof.
  intros Hk Ho. constructor; try done. intros calls' H. exists calls', []. by rewrite app_nil_r.
Qed.

(** An append of an entry about [tx], or about no transaction. *)
Lemma append_framed tx io e :
  (∀ t, t ≠ tx → entry_kind t e = []) → framed tx (call_wal (wal_append io e)).
Proof.
  intros He c c' r Hr. unfold call_wal in Hr.
  destruct (wal_append io e (wal c)) as [w r'] eqn:Ha. simplify_eq.
  destruct (append_records _ _ _ _ _ Ha) as [(e' & Hrec & E)|(E & _)];
    apply set_wal_frame; unfold trail_of; rewrite E.
  - rewrite trail_app. by eexists.
  - intros t Ht. rewrite trail_app. simpl. rewrite (entry_kind_recorded t e e') by done.
    by rewrite He, !app_nil_r.
  - exists []. by rewrite app_nil_r.
  - done.
Qed.

Lemma log_kept_framed {A} tx (m : method Wal WalError A) :
  (∀ w w' r, m w = (w', r) → wal_log w' = wal_log w) → framed tx (call_wal m).
Proof.
  intros Hm c c' r Hr. unfold call_wal in Hr. destruct (m (wal c)) as [w r'] eqn:Ha.
  simplify_eq. apply Hm in Ha. apply set_wal_frame; unfold trail_of; rewrite Ha; [|done].
  exists []. by rewrite app_nil_r.
Qed.

Lemma transactions_frame tx c m :
  (∀ t, t ≠ tx → m !! t = transactions c !! t) → frame tx c (set_transactions c m).
Proof.
  intros Hm. constructor; try done; [exists []; by rewrite app_nil_r|].
  intros calls' H. exists calls', []. by rewrite app_nil_r.
Qed.

Lemma update_framed tx f : framed tx (update_tx tx f).
Proof.
  intros c c' r [= <- <-]. apply transactions_frame. intros t Ht. by rewrite lookup_alter_ne.
Qed.

Lemma delete_framed tx :
  framed tx (remove_tx tx).
Proof.
  intros c c' r [= <- <-]. apply transactions_frame. intros t Ht. by rewrite lookup_delete_ne.
Qed.

Lemma write_batch_framed answer tx events : framed tx (write_batch answer tx events).
Proof.
  intros c c' r Hr. unfold write_batch in Hr. unfold_method.
  assert (c' = set_storage c
    ((λ calls, calls ++ [(tx, events, bool_decide (answer = None))]) <$> storage c)) as ->
    by (destruct answer; by simplify_eq).
  constructor; try done; [exists []; by rewrite app_nil_r|].
  simpl. intros calls' (calls & Hc & ->)%fmap_Some. exists calls, [(tx, events, bool_decide (answer = None))].
  split_and!; [done..|]. by constructor.
Qed.

Lemma append_batch_framed tx io es :
  (∀ t, trail t es = []) → framed tx (call_wal (wal_append_batch io es)).
Proof.
  intros He c c' r Hr. unfold call_wal in Hr.
  destruct (wal_append_batch io es (wal c)) as [w r'] eqn:Ha. simplify_eq.
  destruct (append_batch_records _ _ _ _ _ Ha) as (k & es' & Hrec & E & _).
  assert (∀ t, trail t (wal_log w) = trail_of t c) as Ht.
  { intros t. rewrite E, trail_app, (trail_recorded t _ _ Hrec).
    specialize (He t). rewrite <- (take_drop k es), trail_app in He.
    apply app_eq_nil in He as [-> _]. by rewrite app_nil_r. }
  apply set_wal_frame; [|auto]. exists []. by rewrite app_nil_r, Ht.
Qed.

Lemma framed_bind {A B} tx (m : CoordM A) (f : A → CoordM B) :
  framed tx m → (∀ a, framed tx (f a)) → framed tx (m ≫= f).
Proof.
  intros Hm Hf. apply framed_preserves. intros c0. apply preserves_bind.
  - by apply framed_preserves.
  - intros a. by apply framed_preserves.
Qed.

(** Methods that do not change the state. *)
Lemma get_tx_state tx c c' r : get_tx tx c = (c', r) → c' = c.
Proof. unfold get_tx. unfold_method. by intros [= <- _]. Qed.

Lemma get_tx_Ok tx c c' t : get_tx tx c = (c', Ok t) → c' = c ∧ transactions c !! tx = Some t.
Proof.
  unfold get_tx. unfold_method. intros [= <- E]. split; [done|].
  destruct (transactions c !! tx); simpl in E; congruence.
Qed.

Lemma framed_ret {A} tx (a : A) : framed tx (mret a).
Proof. intros c c' r [= <- <-]. apply frame_refl. Qed.

Lemma framed_fail {A} tx err : framed tx (fail err : CoordM A).
Proof. intros c c' r [= <- <-]. apply frame_refl. Qed.

Lemma framed_gets {A} tx (f : WalCoordinator → A) : framed tx (gets f).
Proof. intros c c' r [= <- <-]. apply frame_refl. Qed.

Lemma framed_get_tx tx tx' : framed tx (get_tx tx').
Proof. intros c c' r Hr. apply get_tx_state in Hr as ->. apply frame_refl. Qed.

Lemma framed_require tx tx' t s : framed tx (require_status tx' t s).
Proof.
  intros c c' r Hr. unfold require_status, guard_ok in Hr.
  case_bool_decide; injection Hr as <- _; apply frame_refl.
Qed.

Create HintDb framing.
#[local] Hint Resolve update_framed delete_framed write_batch_framed framed_ret framed_fail
  framed_gets framed_get_tx framed_require : framing.

Ltac walk_frame :=
  repeat match goal with
  | |- ∀ _, framed _ _ => intros ?; cbv beta
  | |- framed _ (_ ≫= _) => apply framed_bind
  | |- framed _ (if ?b then _ else _) => destruct b
  | |- framed _ (match ?x with _ => _ end) => destruct x
  | |- framed _ _ => solve [eauto with framing]
  | |- framed _ (call_wal (wal_append _ _)) =>
      apply append_framed; intros ? ?; unfold entry_kind; simpl; by rewrite bool_decide_false
  | |- framed _ (call_wal (wal_commit_batch _)) => apply log_kept_framed, commit_records
  end.

Lemma lineage_trail t now tx st evs : trail t (map (lineage_entry now tx st) evs) = [].
Proof. by induction evs. Qed.

Lemma add_lineage_framed io now tx evs : framed tx (add_lineage io now tx evs).
Proof. unfold add_lineage. walk_frame. apply append_batch_framed. intros t. apply lineage_trail. Qed.

Lemma prepare_framed io now tx : framed tx (prepare io now tx).
Proof. unfold prepare. walk_frame. Qed.

Lemma commit_locked_framed io answer now tx : framed tx (commit_locked io answer now tx).
Proof. unfold commit_locked, commit_storage. walk_frame. Qed.

Lemma abort_locked_framed io now tx reason : framed tx (abort_locked io now tx reason).
Proof. unfold abort_locked. walk_frame. Qed.

(** ** Each operation keeps the invariant *)

(** An append of a record of [tx]. *)
Lemma append_own tx io e k c c' r :
  entry_kind tx e = [k] → call_wal (wal_append io e) c = (c', r) →
  transactions c' = transactions c ∧ storage c' = storage c ∧
  (trail_of tx c' = trail_of tx c ++ [k] ∨
   (trail_of tx c' = trail_of tx c ∧ ∀ l, r ≠ Ok l)).
Proof.
  intros Hk Hr. unfold call_wal in Hr.
  destruct (wal_append io e (wal c)) as [w r'] eqn:Ha. simplify_eq. split; [done|]. split; [done|].
  unfold trail_of. simpl.
  destruct (append_records _ _ _ _ _ Ha) as [(e' & Hrec & ->)|(-> & ?)]; [left|by right].
  rewrite trail_app. simpl. by rewrite (entry_kind_recorded tx e e'), Hk, app_nil_r.
Qed.

(** The guards in front of an operation on a transaction with a status. *)
Lemma guarded {A} tx s (m : TransactionState → CoordM A) c c' r :
  (t ← get_tx tx; _ ← require_status tx t s; m t) c = (c', r) →
  (c' = c ∧ ∀ a, r ≠ Ok a) ∨
  ∃ t, transactions c !! tx = Some t ∧ status t = s ∧ m t c = (c', r).
Proof.
  intros Hr. unfold get_tx, require_status in Hr. unfold_method.
  destruct (transactions c !! tx) as [t|]; simpl in Hr; [|injection Hr as <- <-; by left].
  case_bool_decide; simpl in Hr; [right; by exists t|injection Hr as <- <-; by left].
Qed.

(** The state of [tx] after an operation fits its records. *)
Definition own_ok (tx : Z) (c : WalCoordinator) : Prop :=
  trail_ok (trail_of tx c) ∧
  ∀ st, transactions c !! tx = Some st → id st = tx ∧ trail_for (status st) (trail_of tx c).

Lemma own_ok_status tx c st :
  transactions c !! tx = Some st → id st = tx → trail_for (status st) (trail_of tx c) → own_ok tx c.
Proof. intros Hst Hid Hf. split; [by eapply trail_for_ok|]. intros ? ?. by simplify_eq. Qed.

(** The transaction has left the table or is about to. *)
Definition ended (tx : Z) (c : WalCoordinator) : Prop :=
  ∀ st, transactions c !! tx = Some st → status st = Committed ∨ status st = Aborted.

Lemma inv_own tx c c' :
  coord_inv c → frame tx c c' → is_Some (transactions c !! tx) → own_ok tx c' →
  (storage c' = storage c ∨ KCommit ∈ trail_of tx c') → coord_inv c'.
Proof.
  intros I F [st Hst] [Hok Hown] Hsto. eapply inv_frame; [done..| |done|done|done].
  destruct (decide (tx < next_tx_id c)); [done|].
  destruct (ci_fresh c I tx) as [E _]; [lia|]. congruence.
Qed.

Lemma add_lineage_inv io now tx evs : preserves coord_inv (add_lineage io now tx evs).
Proof.
  intros c c' r Hr I. pose proof (add_lineage_framed _ _ _ _ _ _ _ Hr) as F.
  unfold add_lineage in Hr. apply guarded in Hr as [[-> _]|(t & Ht & Hs & Hr)]; [done|].
  destruct (ci_table c I tx t Ht) as [Hid Hf]. rewrite Hs in Hf. simpl in Hf.
  assert (trail_of tx c' = trail_of tx c ∧ storage c' = storage c ∧
    ∃ st, transactions c' !! tx = Some st ∧ id st = tx ∧ status st = Active)
    as (Etr & Esto & st & Hst & Hid' & Hs').
  { unfold_method.
    destruct (call_wal (wal_append_batch io (map (lineage_entry now tx t) evs)) c)
      as [c1 r1] eqn:Ha.
    assert (trail_of tx c1 = trail_of tx c ∧ storage c1 = storage c ∧
      transactions c1 = transactions c) as (E1 & E2 & E3).
    { unfold call_wal in Ha. destruct (wal_append_batch _ _ _) as [w r2] eqn:Hb. injection Ha as <- <-.
      split; [|done]. destruct (append_batch_records _ _ _ _ _ Hb) as (k & es' & Hrec & E & _).
      unfold trail_of. simpl. rewrite E, trail_app, (trail_recorded tx _ _ Hrec).
      rewrite <- fmap_take. rewrite lineage_trail. by rewrite app_nil_r. }
    destruct r1 as [ls| |]; injection Hr as <- _; simpl.
    - split; [done|]. split; [done|]. rewrite E3, !lookup_alter_eq, Ht. simpl. eexists.
      split; [done|]. unfold add_participant. simpl.
      repeat case_match; simpl; done.
    - split; [done|]. split; [done|]. exists t. by rewrite E3.
    - split; [done|]. split; [done|]. exists t. by rewrite E3. }
  eapply inv_own; [done..| |by left]. eapply own_ok_status; [done..|].
  by rewrite Hs', Etr.
Qed.

Lemma prepare_inv io now tx : preserves coord_inv (prepare io now tx).
Proof.
  intros c c' r Hr I. pose proof (prepare_framed _ _ _ _ _ _ Hr) as F.
  unfold prepare in Hr. apply guarded in Hr as [[-> _]|(t & Ht & Hs & Hr)]; [done|].
  destruct (ci_table c I tx t Ht) as [Hid Hf]. rewrite Hs in Hf. simpl in Hf.
  unfold_method. set (c1 := set_transactions c _) in Hr. set (e := entry_new _ _ _ _) in Hr.
  destruct (call_wal (wal_append io e) c1) as [c2 r2] eqn:Ha.
  assert (entry_kind tx e = [KPrepare]) as Hk
    by (unfold entry_kind; simpl; by rewrite bool_decide_true).
  destruct (append_own _ _ _ _ _ _ _ Hk Ha) as (Et & Esto & Etr).
  change (trail_of tx c1) with (trail_of tx c) in Etr. rewrite Hf in Etr. simpl in Et, Esto, Etr.
  assert (storage c' = storage c ∧ own_ok tx c') as [Es Hown];
    [|eapply inv_own; [done..|by left]].
  destruct r2 as [l| |]; simpl in Hr.
  - destruct Etr as [Etr|[_ Hn]]; [|by destruct (Hn l)].
    destruct (forallb _ _); injection Hr as <- _; split; try done;
      (eapply own_ok_status; [simpl; rewrite Et; simpl;
        rewrite !lookup_alter_eq, Ht; reflexivity|done|]);
      change (trail_of tx _) with (trail_of tx c2); rewrite Etr; simpl; [done|].
    by apply base_trail; unfold bases; set_solver.
  - injection Hr as <- _. split; [done|]. eapply own_ok_status;
      [simpl; rewrite Et; simpl; rewrite lookup_alter_eq, Ht; reflexivity|done|].
    simpl. destruct Etr as [?|[? _]]; auto.
  - injection Hr as <- _. split; [done|]. eapply own_ok_status;
      [simpl; rewrite Et; simpl; rewrite lookup_alter_eq, Ht; reflexivity|done|].
    simpl. destruct Etr as [?|[? _]]; auto.
Qed.

Lemma commit_storage_own answer tx t c c' r st :
  commit_storage answer tx t c = (c', r) → transactions c !! tx = Some st →
  wal c' = wal c ∧
  ∃ st', transactions c' !! tx = Some st' ∧ id st' = id st ∧ status st' = status st.
Proof.
  intros Hr Hst. unfold commit_storage, write_batch in Hr. unfold_method.
  destruct (storage c) as [calls|]; [|injection Hr as <- _; eauto].
  destruct (lineage_events _); [|destruct answer]; injection Hr as <- _; simpl;
    rewrite ?lookup_alter_eq, ?Hst; simpl; eauto.
Qed.

Lemma commit_batch_own ls c c' r t :
  call_wal (wal_commit_batch ls) c = (c', r) →
  transactions c' = transactions c ∧ trail_of t c' = trail_of t c.
Proof.
  intros Hr. unfold call_wal in Hr. destruct (wal_commit_batch ls (wal c)) as [w r'] eqn:Hc.
  injection Hr as <- _. apply commit_records in Hc. unfold trail_of. simpl. by rewrite Hc.
Qed.

(** The outcomes of a commit that passes its guards. *)
Lemma commit_outcomes io answer now tx c c' r :
  coord_inv c → commit_locked io answer now tx c = (c', r) →
  (c' = c ∧ r ≠ Ok tt) ∨
  (is_Some (transactions c !! tx) ∧ own_ok tx c' ∧
   (storage c' = storage c ∨ KCommit ∈ trail_of tx c') ∧
   (r = Ok tt → ended tx c' ∧ trail_of tx c' = [KBegin; KPrepare; KCommit])).
Proof.
  intros I Hr. unfold commit_locked in Hr.
  apply guarded in Hr as [[-> Hn]|(t & Ht & Hs & Hr)]; [left; by split|right].
  destruct (ci_table c I tx t Ht) as [Hid Hf]. rewrite Hs in Hf. simpl in Hf.
  split; [by eexists|]. unfold_method.
  set (c1 := set_transactions c _) in Hr. set (e := entry_new _ _ _ _) in Hr.
  destruct (call_wal (wal_append io e) c1) as [c2 r2] eqn:Ha.
  assert (entry_kind tx e = [KCommit]) as Hk
    by (unfold entry_kind; simpl; by rewrite bool_decide_true).
  destruct (append_own _ _ _ _ _ _ _ Hk Ha) as (Et & Esto & Etr).
  change (trail_of tx c1) with (trail_of tx c) in Etr. rewrite Hf in Etr. simpl in Et, Esto, Etr.
  assert (transactions c2 !! tx = Some (with_status t Committing)) as Ht2
    by (rewrite Et, lookup_alter_eq, Ht; done).
  destruct r2 as [l|err|].
  2,3: injection Hr as <- <-; split_and!; [|by left|done];
    eapply own_ok_status; [done..|]; simpl; destruct Etr as [?|[? _]]; auto.
  destruct Etr as [Etr|[_ Hn]]; [simpl in Etr|by destruct (Hn l)].
  destruct (commit_storage answer tx t c2) as [c3 r3] eqn:Hcs.
  destruct (commit_storage_own _ _ _ _ _ _ _ Hcs Ht2) as (Ew & st3 & Ht3 & Hid3 & Hs3).
  assert (trail_of tx c3 = [KBegin; KPrepare; KCommit]) as Etr3 by (unfold trail_of; by rewrite Ew).
  destruct r3 as [[]|err|].
  2,3: injection Hr as <- <-; rewrite Etr3; split_and!; [|right; set_solver|done];
    eapply own_ok_status; [done|by rewrite Hid3|]; rewrite Hs3, Etr3; by right.
  destruct (call_wal _ c3) as [c4 r4] eqn:Hcb.
  destruct (commit_batch_own _ _ _ _ tx Hcb) as [Et4 Etr4]. rewrite Etr3 in Etr4.
  destruct r4 as [[]|err|]; injection Hr as <- <-.
  2,3: rewrite Etr4; split_and!; [|right; set_solver|done];
    eapply own_ok_status; [by rewrite Et4|by rewrite Hid3|]; rewrite Hs3, Etr4; by right.
  set (c5 := set_transactions c4 _).
  assert (transactions c5 !! tx = Some (with_status st3 Committed)) as Ht5
    by (simpl; by rewrite Et4, lookup_alter_eq, Ht3).
  change (trail_of tx c5) with (trail_of tx c4).
  split_and!; [|right; rewrite Etr4; set_solver|].
  - eapply own_ok_status; [done|simpl; by rewrite Hid3|]. exact Etr4.
  - split; [|done]. intros st. rewrite Ht5. intros [= <-]. by left.
Qed.

Lemma commit_locked_inv io answer now tx : preserves coord_inv (commit_locked io answer now tx).
Proof.
  intros c c' r Hr I. pose proof (commit_locked_framed _ _ _ _ _ _ _ Hr) as F.
  destruct (commit_outcomes _ _ _ _ _ _ _ I Hr) as [[-> _]|(Hsome & Hown & Hsto & _)]; [done|].
  by eapply inv_own.
Qed.

(** The outcomes of an abort: it fails at the guard, finds the transaction ended, or
    goes through. *)
Lemma abort_outcomes io now tx reason c c' r :
  coord_inv c → abort_locked io now tx reason c = (c', r) →
  (c' = c ∧ (∀ b, r ≠ Ok b)) ∨
  (c' = c ∧ r = Ok false ∧ is_Some (transactions c !! tx) ∧ ended tx c) ∨
  (is_Some (transactions c !! tx) ∧ own_ok tx c' ∧ storage c' = storage c ∧
   (∀ b, r = Ok b → b = true ∧ ended tx c' ∧ trail_for Aborted (trail_of tx c'))).
Proof.
  intros I Hr. unfold abort_locked in Hr.
  apply method_bind_inv in Hr as [(c0 & t & Hg & Hr)|[(err & Hg & ->)|(Hg & ->)]];
    [|apply get_tx_state in Hg as ->; by left..].
  apply get_tx_Ok in Hg as [-> Ht]. destruct (ci_table c I tx t Ht) as [Hid Hf].
  assert (trail_for Aborting (trail_of tx c)) as Hab by (by eapply trail_for_aborting).
  right. destruct (decide (status t = Committed ∨ status t = Aborted)) as [He|He].
  { left. assert (ended tx c) by (intros st Hst; by simplify_eq).
    destruct He as [E|E]; rewrite E in Hr; injection Hr as <- <-; by eauto. }
  right. split; [by eexists|].
  assert (∃ m : CoordM bool, m c = (c', r) ∧ m =
    (_ ← update_tx tx (λ t, with_status t Aborting);
     _ ← call_wal (wal_append io
           (entry_new now LSN_ZERO TransactionAbort (Transaction (Abort tx reason))));
     _ ← update_tx tx (λ t, with_status t Aborted);
     mret true)) as (m & Hm & ->)
    by (destruct (status t); eauto; tauto).
  clear Hr. rename Hm into Hr. unfold_method.
  set (c1 := set_transactions c _) in Hr. set (e := entry_new _ _ _ _) in Hr.
  destruct (call_wal (wal_append io e) c1) as [c2 r2] eqn:Ha.
  assert (entry_kind tx e = [KAbort]) as Hk
    by (unfold entry_kind; simpl; by rewrite bool_decide_true).
  destruct (append_own _ _ _ _ _ _ _ Hk Ha) as (Et & Esto & Etr).
  change (trail_of tx c1) with (trail_of tx c) in Etr. simpl in Et, Esto.
  assert (transactions c2 !! tx = Some (with_status t Aborting)) as Ht2
    by (rewrite Et, lookup_alter_eq, Ht; done).
  assert (trail_for Aborting (trail_of tx c2)) as Hab2.
  { destruct Etr as [->|[-> _]]; [by apply (trail_for_aborting Aborted), aborting_snoc|done]. }
  destruct r2 as [l|err|]; injection Hr as <- <-.
  2,3: split_and!; [by eapply own_ok_status|done|done].
  destruct Etr as [Etr|[_ Hn]]; [|by destruct (Hn l)].
  assert (trail_for Aborted (trail_of tx c2)) as Hab3 by (rewrite Etr; by apply aborting_snoc).
  set (c3 := set_transactions c2 _).
  assert (transactions c3 !! tx = Some (with_status (with_status t Aborting) Aborted)) as Ht3
    by (simpl; by rewrite lookup_alter_eq, Ht2).
  split_and!; [by eapply own_ok_status|done|]. intros b [= <-]. split_and!; [done| |exact Hab3].
  intros st. rewrite Ht3. intros [= <-]. by right.
Qed.

Lemma abort_locked_inv io now tx reason : preserves coord_inv (abort_locked io now tx reason).
Proof.
  intros c c' r Hr I. pose proof (abort_locked_framed _ _ _ _ _ _ _ Hr) as F.
  destruct (abort_outcomes _ _ _ _ _ _ _ I Hr)
    as [[-> _]|[(-> & _)|(Hsome & Hown & Hsto & _)]]; [done..|].
  eapply inv_own; [done..|by left].
Qed.

(** The removal of a transaction from the table keeps its records. *)
Lemma remove_tx_inv tx : preserves coord_inv (remove_tx tx).
Proof.
  intros c c' r [= <- _] []. constructor; simpl; try done.
  - intros t Ht. rewrite lookup_delete_None. split; [|by apply ci_fresh0].
    right. by apply ci_fresh0.
  - intros t st [_ Ht]%lookup_delete_Some. by apply ci_table0.
Qed.

Lemma abort_inv io now tx reason : preserves coord_inv (abort io now tx reason).
Proof.
  unfold abort. apply preserves_bind; [apply abort_locked_inv|].
  intros []; [apply remove_tx_inv|apply preserves_ret].
Qed.

Lemma trail_ok_begin : trail_ok [KBegin].
Proof. right. apply base_trail. unfold bases. set_solver. Qed.

Lemma begin_inv io now_us now_ms c c' r :
  next_tx_id c + 1 ≤ u64_max → begin_transaction io now_us now_ms c = (c', r) →
  coord_inv c → coord_inv c' ∧ next_tx_id c' = next_tx_id c + 1 ∧
    ∀ t, t < next_tx_id c → transactions c' !! t = transactions c !! t ∧ trail_of t c' = trail_of t c.
Proof.
  intros Hmax Hr I. unfold u64_max in Hmax. pose proof (ci_next c I) as Hpos.
  unfold begin_transaction in Hr. unfold_method. set (tx := next_tx_id c) in *.
  rewrite Z.mod_small in Hr by lia.
  set (c1 := set_next_tx_id c _) in Hr. set (e := entry_new _ _ _ _) in Hr.
  destruct (call_wal (wal_append io e) c1) as [c2 r2] eqn:Ha.
  assert (entry_kind tx e = [KBegin]) as Hk
    by (unfold entry_kind; simpl; by rewrite bool_decide_true).
  assert (frame tx c1 c2) as F.
  { eapply append_framed; [|exact Ha]. intros t Ht. unfold entry_kind. simpl.
    by rewrite bool_decide_false. }
  destruct (append_own _ _ _ _ _ _ _ Hk Ha) as (Et & Esto & Etr).
  change (trail_of tx c1) with (trail_of tx c) in Etr. simpl in Et, Esto.
  destruct (ci_fresh c I tx ltac:(lia)) as [Hnone Hnil]. rewrite Hnil in Etr. simpl in Etr.
  assert (∀ t, t ≠ tx → trail_of t c2 = trail_of t c) as Hother
    by (intros t Ht; by rewrite (fr_other _ _ _ F t Ht)).
  assert (trail_ok (trail_of tx c2)) as Hok2
    by (destruct Etr as [->|[-> _]]; [apply trail_ok_begin|by left]).
  assert (∀ m, (∀ t, t ≠ tx → m !! t = transactions c !! t) →
    (∀ st, m !! tx = Some st → id st = tx ∧ trail_for (status st) (trail_of tx c2)) →
    coord_inv (set_transactions c2 m)) as Hinv.
  { intros m Hm Htx. constructor; simpl.
    - rewrite (fr_next _ _ _ F). simpl. lia.
    - rewrite (fr_next _ _ _ F). simpl. intros t Ht. change (trail_of t _) with (trail_of t c2).
      rewrite Hm, Hother by lia. apply (ci_fresh c I). lia.
    - intros t st. change (trail_of t _) with (trail_of t c2).
      destruct (decide (t = tx)) as [->|Hne]; [apply Htx|]. rewrite Hm, Hother by done.
      apply (ci_table c I).
    - intros t. change (trail_of t _) with (trail_of t c2).
      destruct (decide (t = tx)) as [->|Hne]; [done|]. rewrite Hother by done. apply (ci_trail c I).
    - intros calls t evs ok Hc Hin. change (trail_of t _) with (trail_of t c2). rewrite Esto in Hc.
      pose proof (ci_storage c I _ _ _ _ Hc Hin) as Hcm. destruct (decide (t = tx)) as [->|Hne];
        [|by rewrite Hother]. rewrite Hnil in Hcm. by apply elem_of_nil in Hcm. }
  assert (next_tx_id c2 = tx + 1) as Hnext by (by rewrite (fr_next _ _ _ F)).
  destruct r2 as [l| |]; simpl in Hr; injection Hr as <- _.
  - split; [apply Hinv|split; [done|]].
    + intros t Ht. simpl. by rewrite lookup_insert_ne, Et.
    + intros st. simpl. rewrite lookup_insert_eq. intros [= <-]. split; [done|]. simpl.
      destruct Etr as [?|[_ Hn]]; [done|by destruct (Hn l)].
    + intros t Ht. simpl. rewrite lookup_insert_ne, Et by lia.
      split; [done|]. apply Hother. lia.
  - replace c2 with (set_transactions c2 (transactions c)) by (destruct c2; simpl in Et; by subst).
    split; [apply Hinv; [done|by rewrite Hnone]|split; [done|]].
    intros t Ht. split; [done|]. apply Hother. lia.
  - replace c2 with (set_transactions c2 (transactions c)) by (destruct c2; simpl in Et; by subst).
    split; [apply Hinv; [done|by rewrite Hnone]|split; [done|]].
    intros t Ht. split; [done|]. apply Hother. lia.
Qed.

(** Changes that no transaction sees. *)
Definition unseen (c c' : WalCoordinator) : Prop :=
  next_tx_id c' = next_tx_id c ∧ transactions c' = transactions c ∧
  (∀ t, trail_of t c' = trail_of t c) ∧
  (∀ calls', storage c' = Some calls' → storage c = Some calls' ∨ calls' = []).

Lemma unseen_trans c1 c2 c3 : unseen c1 c2 → unseen c2 c3 → unseen c1 c3.
Proof.
  intros (N1 & T1 & E1 & S1) (N2 & T2 & E2 & S2). split; [congruence|]. split; [congruence|]. split.
  - intros t. rewrite E2. apply E1.
  - intros calls' Hc. destruct (S2 _ Hc) as [?|?]; [by apply S1|by right].
Qed.

Lemma unseen_inv c c' : unseen c c' → coord_inv c → coord_inv c'.
Proof.
  intros (En & Et & Etr & Es) []. constructor; rewrite ?En, ?Et.
  - done.
  - intros t. rewrite Etr. apply ci_fresh0.
  - intros t st. rewrite Etr. apply ci_table0.
  - intros t. rewrite Etr. apply ci_trail0.
  - intros calls t evs ok Hc Hin. rewrite Etr. destruct (Es _ Hc) as [?| ->]; [by eapply ci_storage0|].
    by apply elem_of_nil in Hin.
Qed.

Lemma call_unseen {A} (m : method Wal WalError A) c c' r :
  (∀ w w' r, m w = (w', r) → ∀ t, trail t (wal_log w') = trail t (wal_log w)) →
  call_wal m c = (c', r) → unseen c c'.
Proof.
  intros Hm Hr. unfold call_wal in Hr. destruct (m (wal c)) as [w r'] eqn:Hw.
  injection Hr as <- _. split_and!; try done; [|by left]. intros t. by apply (Hm _ _ _ Hw).
Qed.

Lemma checkpoint_unseen io sio now c c' r : checkpoint io sio now c = (c', r) → unseen c c'.
Proof.
  intros Hr. unfold checkpoint in Hr. unfold_method. set (e := entry_new _ _ _ _) in Hr.
  destruct (call_wal (wal_append io e) c) as [c1 r1] eqn:Ha.
  assert (unseen c c1) as H1.
  { eapply call_unseen; [|exact Ha]. intros w w' r' Hw t.
    destruct (append_records _ _ _ _ _ Hw) as [(e' & Hrec & ->)|(-> & _)]; [|done].
    rewrite trail_app. simpl. rewrite (entry_kind_recorded t e e') by done. by rewrite app_nil_r. }
  destruct r1; [|by injection Hr as <- _..].
  destruct (call_wal (wal_sync sio) c1) as [c2 r2] eqn:Hs.
  assert (unseen c1 c2) as H2.
  { eapply call_unseen; [|exact Hs]. intros w w' r' Hw t. by rewrite (sync_records _ _ _ _ Hw). }
  assert (c' = c2) as -> by (destruct r2; by injection Hr).
  by eapply unseen_trans.
Qed.

Lemma recover_unseen iter io sio now_us now_ms c c' r :
  iter ∅ = [] → recover iter io sio now_us now_ms c = (c', r) →
  c' = c ∧ r = Ok (mk_recovery 0 0 0 [] 0 (wal_tail_lsn (wal c))).
Proof.
  intros Hit Hr. unfold recover, scan_wal_for_recovery, find_last_checkpoint in Hr. unfold_method.
  change (iter (reconstruct_transaction_states now_ms []) = []) in Hit.
  rewrite Hit in Hr. simpl in Hr. by injection Hr as <- <-.
Qed.

(** ** Runs *)

(** The steps of the operations on a coordinator, with the answers of the log, the
    backend and the clocks.  [OpCommit] and [OpAbort] are what [commit] and [abort] do
    under the lock of the entry, [OpRemove] the removal that follows some time later,
    when the entry is in its final state.  A pass of the timeout handler that other
    operations interrupt is a sequence of [OpAbort]. *)
Inductive coord_op : Type :=
  | OpBegin (io : WalIo) (now_us now_ms : Z)
  | OpAddLineage (io : WalIo) (now_us tx : Z) (events : list LineageEvent)
  | OpPrepare (io : WalIo) (now_us tx : Z)
  | OpCommit (io : WalIo) (answer : option string) (now_us tx : Z)
  | OpAbort (io : WalIo) (now_us tx : Z) (reason : string)
  | OpRemove (tx : Z)
  | OpCheckpoint (io sync_io : WalIo) (now_us : Z)
  | OpTimeouts (io : Z → WalIo) (now_us now_ms : Z)
  | OpConnect.

Definition ended_bool (tx : Z) (c : WalCoordinator) : bool :=
  match transactions c !! tx with
  | Some st => bool_decide (status st = Committed ∨ status st = Aborted)
  | None => true
  end.

Definition run_coord (op : coord_op) (c : WalCoordinator) : WalCoordinator :=
  match op with
  | OpBegin io us ms => (begin_transaction io us ms c).1
  | OpAddLineage io us tx evs => (add_lineage io us tx evs c).1
  | OpPrepare io us tx => (prepare io us tx c).1
  | OpCommit io a us tx => (commit_locked io a us tx c).1
  | OpAbort io us tx reason => (abort_locked io us tx reason c).1
  | OpRemove tx => if ended_bool tx c then (remove_tx tx c).1 else c
  | OpCheckpoint io sio us => (checkpoint io sio us c).1
  | OpTimeouts io us ms => (timeout_tick io us ms c).1
  | OpConnect => (connect_storage c).1
  end.

(** Runs in which the counter of transactions does not pass [u64::MAX]. *)
Inductive coord_steps : WalCoordinator → WalCoordinator → Prop :=
  | csteps_refl c : coord_steps c c
  | csteps_op c op c' :
      next_tx_id c + 1 ≤ u64_max → coord_steps (run_coord op c) c' → coord_steps c c'.

(** A transaction that has ended, with its records. *)
Definition finished (t : Z) (l : list kind) (c : WalCoordinator) : Prop :=
  coord_inv c ∧ t < next_tx_id c ∧ ended t c ∧ trail_of t c = l.

Lemma finished_frame t l tx c c' :
  frame tx c c' → coord_inv c' → t ≠ tx → finished t l c → finished t l c'.
Proof.
  intros F I' Hne (I & Hlt & Hn & Htr). split; [done|]. unfold ended.
  rewrite (fr_next _ _ _ F), (fr_table _ _ _ F), (fr_other _ _ _ F) by done. done.
Qed.

(** Operations on a transaction that has ended do nothing. *)
Lemma guarded_ended {A} tx s (m : TransactionState → CoordM A) c :
  ended tx c → s ≠ Committed → s ≠ Aborted →
  ((t ← get_tx tx; _ ← require_status tx t s; m t) c).1 = c.
Proof.
  intros He Hc Ha. unfold get_tx, require_status. unfold_method.
  destruct (transactions c !! tx) as [st|] eqn:Hst; [|done]. simpl.
  destruct (He st Hst) as [E|E]; rewrite E; by rewrite bool_decide_false.
Qed.

Lemma abort_locked_ended io now tx reason c : ended tx c → (abort_locked io now tx reason c).1 = c.
Proof.
  intros He. unfold abort_locked, get_tx. unfold_method.
  destruct (transactions c !! tx) as [st|] eqn:Hst; [|done]. simpl.
  destruct (He st Hst) as [E|E]; by rewrite E.
Qed.

Lemma abort_locked_finished io now tx reason t l :
  preserves (finished t l) (abort_locked io now tx reason).
Proof.
  intros c c' r Hr Hf. pose proof Hf as (I & _ & Hn & _).
  destruct (decide (t = tx)) as [->|Hne].
  - pose proof (abort_locked_ended io now tx reason c Hn) as E. rewrite Hr in E. simpl in E. by subst.
  - eapply finished_frame; [by eapply abort_locked_framed|by eapply abort_locked_inv|done..].
Qed.

Lemma remove_tx_finished tx t l : preserves (finished t l) (remove_tx tx).
Proof.
  intros c c' r Hr (I & Hlt & He & Htr). pose proof (remove_tx_inv _ _ _ _ Hr I) as I'.
  injection Hr as <- _. split_and!; try done.
  intros st Hst. simpl in Hst. apply lookup_delete_Some in Hst as [_ Hst]. by apply He.
Qed.

Lemma abort_finished io now tx reason t l : preserves (finished t l) (abort io now tx reason).
Proof.
  unfold abort. apply preserves_bind; [apply abort_locked_finished|].
  intros []; [apply remove_tx_finished|apply preserves_ret].
Qed.

Lemma timeout_finished io us ms t l : preserves (finished t l) (timeout_tick io us ms).
Proof.
  unfold timeout_tick. walk_method. apply preserves_mapM. intros tx _.
  apply preserves_ignore, abort_finished.
Qed.

Lemma timeout_inv io us ms : preserves coord_inv (timeout_tick io us ms).
Proof.
  unfold timeout_tick. walk_method. apply preserves_mapM. intros tx _.
  apply preserves_ignore, abort_inv.
Qed.

Lemma unseen_finished t l c c' : unseen c c' → finished t l c → finished t l c'.
Proof.
  intros U (I & Hlt & Hn & Htr). split; [by eapply unseen_inv|]. unfold ended.
  destruct U as (-> & -> & -> & _). done.
Qed.

Lemma connect_unseen c : unseen c (run_coord OpConnect c).
Proof. split_and!; try done. simpl. intros calls' [= <-]. by right. Qed.

Lemma run_coord_inv op c :
  next_tx_id c + 1 ≤ u64_max → coord_inv c → coord_inv (run_coord op c).
Proof.
  intros Hmax I. destruct op; cbn [run_coord];
    try match goal with |- coord_inv (?m c).1 => destruct (m c) as [c' r] eqn:Hr; cbn [fst] end.
  - by eapply begin_inv.
  - by eapply add_lineage_inv.
  - by eapply prepare_inv.
  - by eapply commit_locked_inv.
  - by eapply abort_locked_inv.
  - destruct (ended_bool tx c); [|done]. by eapply (remove_tx_inv tx c).
  - eapply unseen_inv; [by eapply checkpoint_unseen|done].
  - by eapply timeout_inv.
  - injection Hr as <- _. eapply unseen_inv; [apply connect_unseen|done].
Qed.

Lemma run_coord_finished op t l c :
  next_tx_id c + 1 ≤ u64_max → finished t l c → finished t l (run_coord op c).
Proof.
  intros Hmax Hf. pose proof Hf as (I & Hlt & Hn & Htr).
  pose proof (run_coord_inv op c Hmax I) as I'. destruct op; cbn [run_coord] in *.
  - destruct (begin_transaction io now_us now_ms c) as [c' r] eqn:Hr. simpl in *.
    destruct (begin_inv _ _ _ _ _ _ Hmax Hr I) as (_ & En & Ho).
    destruct (Ho t Hlt) as [Et Etr]. split; [done|]. unfold ended. rewrite En, Et, Etr. split; [lia|done].
  - destruct (decide (t = tx)) as [->|Hne]; [unfold add_lineage; by rewrite guarded_ended|].
    destruct (add_lineage io now_us tx events c) as [c' r] eqn:Hr.
    eapply finished_frame; [by eapply add_lineage_framed|done..].
  - destruct (decide (t = tx)) as [->|Hne]; [unfold prepare; by rewrite guarded_ended|].
    destruct (prepare io now_us tx c) as [c' r] eqn:Hr.
    eapply finished_frame; [by eapply prepare_framed|done..].
  - destruct (decide (t = tx)) as [->|Hne]; [unfold commit_locked; by rewrite guarded_ended|].
    destruct (commit_locked io answer now_us tx c) as [c' r] eqn:Hr.
    eapply finished_frame; [by eapply commit_locked_framed|done..].
  - destruct (abort_locked io now_us tx reason c) as [c' r] eqn:Hr. by eapply abort_locked_finished.
  - destruct (ended_bool tx c); [|done]. by eapply (remove_tx_finished tx t l c).
  - destruct (checkpoint io sync_io now_us c) as [c' r] eqn:Hr.
    eapply unseen_finished; [by eapply checkpoint_unseen|done].
  - destruct (timeout_tick io now_us now_ms c) as [c' r] eqn:Hr. by eapply timeout_finished.
  - eapply unseen_finished; [apply connect_unseen|done].
Qed.

Lemma coord_steps_inv c c' : coord_steps c c' → coord_inv c → coord_inv c'.
Proof. induction 1; [done|]. intros. by apply IHcoord_steps, run_coord_inv. Qed.

Lemma coord_steps_finished t l c c' : coord_steps c c' → finished t l c → finished t l c'.
Proof. induction 1; [done|]. intros. by apply IHcoord_steps, run_coord_finished. Qed.

Lemma coord_new_inv w : wal_log w = [] → coord_inv (coordinator_new w).
Proof.
  intros Hw. constructor; simpl; try done.
  - intros t _. split; [apply lookup_empty|]. unfold trail_of. simpl. by rewrite Hw.
  - intros t. unfold trail_of. simpl. rewrite Hw. by left.
Qed.

(** ** The protocol *)

(** C10: In the log of a coordinator that was started on an empty log and has not used
    up the transaction numbers, whatever operations run, whatever fails and in whatever
    order transactions interleave, the records of each transaction follow
    the two-phase protocol: at most one Begin, then at most one Prepare, then at
    most one Commit, each only after the one before it, and Abort records only
    at the end; and the status in the table never claims a record that is not in
    the log.  (A coordinator started on the log of another one numbers its transactions
    from 1 again and mixes their records: see [WalSystem].) *)
Theorem two_phase_order w c :
  wal_log w = [] → coord_steps (coordinator_new w) c →
  (∀ t, trail_ok (trail t (wal_log (wal c)))) ∧
  (∀ t st, transactions c !! t = Some st →
     id st = t ∧ trail_for (status st) (trail t (wal_log (wal c)))).
Proof.
  intros Hw Hs. pose proof (coord_steps_inv _ _ Hs (coord_new_inv w Hw)) as [].
  split; [exact ci_trail0|exact ci_table0].
Qed.

Lemma trail_elem t k log :
  k ∈ trail t log → ∃ e op, e ∈ log ∧ payload e = Transaction op ∧ op_tx op = t ∧ op_kind op = k.
Proof.
  unfold trail. rewrite list_elem_of_In, in_flat_map. intros (e & He & Hk).
  unfold entry_kind in Hk. destruct (payload e) as [| | | | | | |op| |] eqn:Hp; try done.
  case_bool_decide; [|done]. destruct Hk as [Hk|[]]. exists e, op.
  rewrite list_elem_of_In. done.
Qed.

(** C11: Write-ahead: every batch the storage backend was ever asked to write, also
    one it failed to write, belongs to a transaction whose Commit record is
    already in the log, after its Begin and Prepare records. *)
Theorem storage_written_after_commit w c calls t events ok :
  wal_log w = [] → coord_steps (coordinator_new w) c →
  storage c = Some calls → (t, events, ok) ∈ calls →
  ∃ e l, e ∈ wal_log (wal c) ∧ payload e = Transaction (Commit t l) ∧
    ∃ n, trail t (wal_log (wal c)) = [KBegin; KPrepare; KCommit] ++ repeat KAbort n.
Proof.
  intros Hw Hs Hc Hin. pose proof (coord_steps_inv _ _ Hs (coord_new_inv w Hw)) as I.
  pose proof (ci_storage c I _ _ _ _ Hc Hin) as Hk. unfold trail_of in Hk.
  destruct (trail_elem _ _ _ Hk) as (e & op & He & Hp & Ht & Hop).
  destruct op as [| |tx' l|]; simpl in *; try done. subst tx'.
  exists e, l. split; [done|]. split; [done|].
  destruct (ci_trail c I t) as [E|(base & n & Hb & E)]; unfold trail_of in E; rewrite E in *;
    [by apply elem_of_nil in Hk|]. exists n. f_equal.
  apply elem_of_app in Hk as [Hk|Hk].
  - destruct (bases_cases base Hb) as [->|[->| ->]]; [exfalso; revert Hk..|done];
      rewrite !elem_of_cons, elem_of_nil; naive_solver.
  - apply list_elem_of_In, repeat_spec in Hk. done.
Qed.

(** C9: The outcome of a transaction is final, for a coordinator that was started on an
    empty log and has not used up the transaction numbers.  Once [commit] has succeeded,
    before it removes the transaction from the table, the records of the transaction in
    the log are its Begin, Prepare and Commit in every later state; once [abort] has
    succeeded they never change again, and they end with an Abort record or, when it
    found the transaction committed but not yet removed and did nothing, are those of
    the commit. *)
Theorem outcome_is_final w c io answer now tx reason c1 c2 :
  wal_log w = [] → coord_steps (coordinator_new w) c → coord_steps c1 c2 →
  (commit_locked io answer now tx c = (c1, Ok tt) →
     trail tx (wal_log (wal c2)) = [KBegin; KPrepare; KCommit]) ∧
  (∀ b, abort_locked io now tx reason c = (c1, Ok b) →
     trail tx (wal_log (wal c2)) = trail tx (wal_log (wal c1)) ∧
     ((∃ base n, base ∈ bases ∧ trail tx (wal_log (wal c2)) = base ++ repeat KAbort (S n)) ∨
      (b = false ∧ status <$> (transactions c !! tx) = Some Committed ∧
       trail tx (wal_log (wal c2)) = [KBegin; KPrepare; KCommit]))).
Proof.
  intros Hw Hs Hs2. pose proof (coord_steps_inv _ _ Hs (coord_new_inv w Hw)) as I.
  assert (is_Some (transactions c !! tx) → frame tx c c1 → coord_inv c1 → ended tx c1 →
    trail_of tx c2 = trail_of tx c1) as Hfin.
  { intros [st Hst] F I1 Hn. eapply (coord_steps_finished tx _ c1 c2); [done|].
    split_and!; try done. rewrite (fr_next _ _ _ F).
    destruct (decide (tx < next_tx_id c)); [done|].
    destruct (ci_fresh c I tx) as [E _]; [lia|congruence]. }
  split.
  - intros Hr. change (trail_of tx c2 = [KBegin; KPrepare; KCommit]).
    destruct (commit_outcomes _ _ _ _ _ _ _ I Hr) as [[_ ?]|(Hsome & _ & _ & Hok)]; [done|].
    destruct (Hok eq_refl) as [He <-]. apply Hfin; try done.
    + by eapply commit_locked_framed.
    + by eapply commit_locked_inv.
  - intros b Hr. change (trail tx (wal_log (wal ?x))) with (trail_of tx x).
    pose proof (abort_locked_framed _ _ _ _ _ _ _ Hr) as F.
    pose proof (abort_locked_inv _ _ _ _ _ _ _ Hr I) as I1.
    destruct (abort_outcomes _ _ _ _ _ _ _ I Hr)
      as [[_ Hn]|[(-> & Hb & [st Hst] & He)|(Hsome & _ & _ & Hok)]]; [by destruct (Hn b)| |].
    + rewrite Hfin by (done || by eexists). split; [done|]. destruct (ci_table c I tx st Hst) as [_ Hf].
      destruct (He st Hst) as [E|E]; rewrite E in Hf; [right|by left].
      injection Hb as ->. by rewrite Hst; simpl; rewrite E.
    + destruct (Hok b eq_refl) as (_ & He & Hab). rewrite Hfin by done. split; [done|by left].
Qed.
End CoordinatorFacts.
