(* ===== verification/WalRecovery.v ===== *)
(** * Write-ahead log: recovery of the segment files

    Models [storage/wal/recovery.rs]: the strategy that reads, validates and
    repairs segment files, and the manager that decides about transactions.  A
    segment file is its bytes; reading it fails only at its end.  The loops run
    over the positions of a file, with fuel for each of them and one more; a loop that
    spends it has no answer ([None]), and that this never happens is proved. *)

From Stdlib Require Import ZArith Lia Ascii.
From stdpp Require Import base numbers option strings gmap list.
From S2P Require Import Prelude RustStd Bytes WalEntry WalSample WalCoordinator.
From S2P Require Import WalCoordinatorFacts.

Local Open Scope Z_scope.

(** [SegmentFile]: its number and its bytes. *)
Record SegmentFile : Type := mk_segment_file {
  sf_id : Z;
  content : list byte;
}.

Inductive TransactionRecoveryStatus : Type := RActive | RPrepared | RCommitted | RAborted.

Inductive RecoveryDecision : Type := DecideCommit | DecideAbort | Replay | Skip.

#[global] Instance RecoveryDecision_eq_dec : EqDecision RecoveryDecision.
Proof. solve_decision. Defined.

Record TransactionRecovery : Type := mk_tx_recovery {
  tr_tx_id : Z;
  tr_status : TransactionRecoveryStatus;
  tr_entries : list LogSequenceNumber;
  decision : RecoveryDecision;
}.

Section Recovery.
Context `{LM : LineageModel} `{WC : !WalCodec}.

(** ** Reading a segment *)

Definition max_entry_size : Z := 1024 * 1024 * 10.

(** [DefaultRecoveryStrategy::read_entry_at]. *)
Definition read_entry_at (file : list byte) (position : nat)
    : result WalError (option WalEntry) :=
  let rest := drop position file in
  if (length rest <? 8)%nat then Ok None
  else
    let entry_size := from_le_bytes (take 8 rest) in
    if (entry_size =? 0) || (max_entry_size <? entry_size) then Ok None
    else if Z.of_nat (length rest) <? entry_size then Err (Io OtherKind None)
    else
      match from_bytes (take (Z.to_nat entry_size) rest) with
      | Ok e => Ok (Some e)
      | Err msg => Err (Serialization msg)
      | Panic => Panic
      end.

(** [DefaultRecoveryStrategy::validate_entry]: the checksum of the whole entry
    against the one in its header. *)
Definition validate_entry (e : WalEntry) : bool :=
  let test := with_header e (set_size_checksum (header e) (payload_size (header e)) 0) in
  crc32 (to_bytes test) =? checksum (header e).

(** [DefaultRecoveryStrategy::find_next_entry], over the positions left. *)
Fixpoint find_next_from (n : nat) (file : list byte) (position : nat) : option nat :=
  match n with
  | O => None
  | S n' =>
      match read_entry_at file position with
      | Ok (Some _) => Some position
      | _ => find_next_from n' file (S position)
      end
  end.

Definition max_search : nat := Z.to_nat (1024 * 1024).
#[local] Opaque max_search.

Definition find_next_entry (file : list byte) (start : nat) : option nat :=
  find_next_from (max_search - 1) file (S start).

(** What the recovery of a segment accumulates. *)
Record Recovered : Type := mk_recovered {
  recovered_entries : list WalEntry;
  last_valid_lsn : LogSequenceNumber;
  corrupted_entries : list (LogSequenceNumber * WalError);
}.

(** The loop of [recover] over one segment; [None] when the fuel is spent. *)
Fixpoint recover_loop (tolerance : CorruptionTolerance) (fuel : nat) (file : list byte)
    (position : nat) (acc : Recovered) : option Recovered :=
  match fuel with
  | O => None
  | S fuel' =>
      if (position <? length file)%nat then
        match read_entry_at file position with
        | Ok (Some e) =>
            let next := (position + Z.to_nat (size_bytes e))%nat in
            if validate_entry e then
              recover_loop tolerance fuel' file next
                (mk_recovered (recovered_entries acc ++ [e]) (lsn (header e))
                   (corrupted_entries acc))
            else
              let acc := mk_recovered (recovered_entries acc) (last_valid_lsn acc)
                (corrupted_entries acc ++
                   [(lsn (header e),
                     Corruption (lsn (header e)) "Entry validation failed" true)]) in
              match tolerance with
              | TruncateAtCorruption => Some acc
              | _ => recover_loop tolerance fuel' file next acc
              end
        | Ok None => Some acc
        | Err _ =>
            match find_next_entry file position with
            | Some next => recover_loop tolerance fuel' file next acc
            | None => Some acc
            end
        | Panic => Some acc
        end
      else Some acc
  end.

(** The iterations a file can need. *)
Definition positions (file : list byte) : nat := S (length file).

(** [DefaultRecoveryStrategy::recover]. *)
Definition strategy_recover (tolerance : CorruptionTolerance) (segments : list SegmentFile)
    : option Recovered :=
  foldl (λ r s, acc ← r; recover_loop tolerance (positions (content s)) (content s) 0 acc)
    (Some (mk_recovered [] LSN_ZERO [])) segments.

(** [ValidationReport]; a corrupted segment is named by its number. *)
Record ValidationReport : Type := mk_validation {
  valid_segments : Z;
  corrupted_segments : list Z;
  total_entries : Z;
  valid_entries : Z;
  checksum_failures : list LogSequenceNumber;
}.

(** The loop of [validate] over one segment: the report and whether it is valid. *)
Fixpoint validate_loop (fuel : nat) (file : list byte) (position : nat) (ok : bool)
    (r : ValidationReport) : option (bool * ValidationReport) :=
  match fuel with
  | O => None
  | S fuel' =>
      if (position <? length file)%nat then
        match read_entry_at file position with
        | Ok (Some e) =>
            let next := (position + Z.to_nat (size_bytes e))%nat in
            if validate_entry e then
              validate_loop fuel' file next ok
                (mk_validation (valid_segments r) (corrupted_segments r) (total_entries r + 1)
                   (valid_entries r + 1) (checksum_failures r))
            else
              validate_loop fuel' file next false
                (mk_validation (valid_segments r) (corrupted_segments r) (total_entries r + 1)
                   (valid_entries r) (checksum_failures r ++ [lsn (header e)]))
        | Ok None => Some (ok, r)
        | _ => Some (false, r)
        end
      else Some (ok, r)
  end.

(** [DefaultRecoveryStrategy::validate]. *)
Definition count_segment (id : Z) (ok : bool) (r : ValidationReport) : ValidationReport :=
  if ok then
    mk_validation (valid_segments r + 1) (corrupted_segments r) (total_entries r)
      (valid_entries r) (checksum_failures r)
  else
    mk_validation (valid_segments r) (corrupted_segments r ++ [id]) (total_entries r)
      (valid_entries r) (checksum_failures r).

Definition strategy_validate (segments : list SegmentFile) : option ValidationReport :=
  foldl (λ o s,
    r ← o;
    v ← validate_loop (positions (content s)) (content s) 0 true r;
    Some (count_segment (sf_id s) v.1 v.2))
    (Some (mk_validation 0 [] 0 0 [])) segments.

(** The loop of [repair_segment]: the bytes of the repaired file. *)
Fixpoint repair_loop (fuel : nat) (file : list byte) (position : nat) (out : list byte)
    : option (list byte) :=
  match fuel with
  | O => None
  | S fuel' =>
      if (position <? length file)%nat then
        let skip :=
          match find_next_entry file position with
          | Some next => repair_loop fuel' file next out
          | None => Some out
          end in
        match read_entry_at file position with
        | Ok (Some e) =>
            if validate_entry e then
              repair_loop fuel' file (position + Z.to_nat (size_bytes e)) (out ++ to_bytes e)
            else skip
        | _ => skip
        end
      else Some out
  end.

(** [DefaultRecoveryStrategy::repair], where every file operation succeeds: each
    segment is replaced by what could be read of it. *)
Definition strategy_repair (segments : list SegmentFile) : option (list SegmentFile) :=
  mapM (λ s, mk_segment_file (sf_id s) <$> repair_loop (positions (content s)) (content s) 0 [])
    segments.

(** ** Transactions *)

(** [RecoveryManager::find_last_checkpoint]. *)
Definition find_last_checkpoint (es : list WalEntry) : option LogSequenceNumber :=
  match List.find (λ e, bool_decide (entry_type (header e) = CheckpointEntry)) (rev es) with
  | Some e => Some (lsn (header e))
  | None => None
  end.

(** The state of the first pass of [recover_transactions]. *)
Record FirstPass : Type := mk_pass {
  txs : gmap Z TransactionRecovery;
  committed_txs : gset Z;
  aborted_txs : gset Z;
}.

Definition set_outcome (s : TransactionRecoveryStatus) (d : option RecoveryDecision)
    (t : TransactionRecovery) : TransactionRecovery :=
  mk_tx_recovery (tr_tx_id t) s (tr_entries t) (default (decision t) d).

Definition first_pass_op (p : FirstPass) (e : WalEntry) : FirstPass :=
  match payload e with
  | Transaction (Begin t _) =>
      mk_pass (<[t := mk_tx_recovery t RActive [] DecideAbort]> (txs p))
        (committed_txs p) (aborted_txs p)
  | Transaction (Prepare t _) =>
      mk_pass (alter (set_outcome RPrepared None) t (txs p)) (committed_txs p) (aborted_txs p)
  | Transaction (Commit t _) =>
      mk_pass (alter (set_outcome RCommitted (Some Skip)) t (txs p))
        ({[t]} ∪ committed_txs p) (aborted_txs p)
  | Transaction (Abort t _) =>
      mk_pass (alter (set_outcome RAborted (Some Skip)) t (txs p))
        (committed_txs p) ({[t]} ∪ aborted_txs p)
  | _ => p
  end.

Definition first_pass_step (p : FirstPass) (e : WalEntry) : FirstPass :=
  let p := first_pass_op p e in
  match transaction e with
  | Some ctx =>
      mk_pass
        (alter (λ t, mk_tx_recovery (tr_tx_id t) (tr_status t) (tr_entries t ++ [lsn (header e)])
                       (decision t)) (ctx_tx_id ctx) (txs p))
        (committed_txs p) (aborted_txs p)
  | None => p
  end.

(** The second pass. *)
Definition decide_tx (committed aborted : gset Z) (t : TransactionRecovery) : TransactionRecovery :=
  if negb (bool_decide (tr_tx_id t ∈ committed)) && negb (bool_decide (tr_tx_id t ∈ aborted)) then
    match tr_status t with
    | RPrepared | RActive =>
        mk_tx_recovery (tr_tx_id t) (tr_status t) (tr_entries t) DecideAbort
    | _ => t
    end
  else t.

(** [RecoveryManager::recover_transactions], by transaction number. *)
Definition recover_transactions (es : list WalEntry) : gmap Z TransactionRecovery :=
  let p := foldl first_pass_step (mk_pass ∅ ∅ ∅) es in
  decide_tx (committed_txs p) (aborted_txs p) <$> txs p.

(** [RecoveryManager::recover] on the segments [find_segments] returns in the order
    of their numbers. *)
Record RecoveryReport : Type := mk_report {
  rr_result : Recovered;
  validation : ValidationReport;
  repair : option (list SegmentFile);
  checkpoint_restored : option LogSequenceNumber;
  transactions_recovered : gmap Z TransactionRecovery;
}.

Definition manager_recover (tolerance : CorruptionTolerance) (segments : list SegmentFile)
    : option (result WalError RecoveryReport) :=
  validation ← strategy_validate segments;
  res ← strategy_recover tolerance segments;
  let report repair :=
    mk_report res validation repair (find_last_checkpoint (recovered_entries res))
      (recover_transactions (recovered_entries res)) in
  match corrupted_segments validation with
  | [] => Some (Ok (report None))
  | _ =>
      match tolerance with
      | FailOnCorruption =>
          Some (Err (RecoveryErr (UnrecoverableCorruption
            (match corrupted_entries res with
             | (l, _) :: _ => l
             | [] => LSN_ZERO
             end))))
      | AttemptRepair => repaired ← strategy_repair segments; Some (Ok (report (Some repaired)))
      | _ => Some (Ok (report None))
      end
  end.
End Recovery.

(** ** Facts *)

Section RecoveryFacts.
Context `{LM : LineageModel} `{WC : !WalCodec} `{WO : !WalCodecOk}.

(** Entries that are read make the loops advance. *)
Lemma read_entry_advances file position e :
  read_entry_at file position = Ok (Some e) → 0 < size_bytes e.
Proof.
  unfold read_entry_at, size_bytes. intros H.
  repeat case_match; simplify_eq.
  match goal with Hb : from_bytes _ = Ok _ |- _ => apply from_bytes_checksum in Hb as [Hh _] end.
  apply header_read_in_range in Hh as (_ & _ & _ & ? & _). pose proof header_at_least. lia.
Qed.

Lemma find_next_from_after n file position next :
  find_next_from n file position = Some next → (position ≤ next)%nat.
Proof.
  revert position. induction n as [|n IH]; intros position H; simpl in H; [done|].
  repeat case_match; simplify_eq; try lia; apply IH in H; lia.
Qed.

Lemma find_next_after file position next :
  find_next_entry file position = Some next → (position < next)%nat.
Proof. unfold find_next_entry. intros H. apply find_next_from_after in H. exact H. Qed.

(** Every loop answers within the positions left in the file. *)
Lemma recover_loop_answers tolerance fuel file position acc :
  (length file - position < fuel)%nat →
  is_Some (recover_loop tolerance fuel file position acc).
Proof.
  revert position acc. induction fuel as [|n IH]; intros position acc Hn; [lia|]. simpl.
  destruct (Nat.ltb_spec position (length file)) as [Hlt|]; [|done].
  destruct (read_entry_at file position) as [[e|]|err|] eqn:Hr; try done.
  - apply read_entry_advances in Hr.
    destruct (validate_entry e); [apply IH; lia|]. destruct tolerance; try done; apply IH; lia.
  - destruct (find_next_entry file position) as [next|] eqn:Hf; [|done].
    apply find_next_after in Hf. apply IH; lia.
Qed.

Lemma validate_loop_answers fuel file position ok r :
  (length file - position < fuel)%nat → is_Some (validate_loop fuel file position ok r).
Proof.
  revert position ok r. induction fuel as [|n IH]; intros position ok r Hn; [lia|]. simpl.
  destruct (Nat.ltb_spec position (length file)) as [Hlt|]; [|done].
  destruct (read_entry_at file position) as [[e|]|err|] eqn:Hr; try done.
  apply read_entry_advances in Hr. destruct (validate_entry e); apply IH; lia.
Qed.

Lemma repair_loop_answers fuel file position out :
  (length file - position < fuel)%nat → is_Some (repair_loop fuel file position out).
Proof.
  revert position out. induction fuel as [|n IH]; intros position out Hn; [lia|]. simpl.
  destruct (Nat.ltb_spec position (length file)) as [Hlt|]; [|done].
  assert (is_Some (match find_next_entry file position with
                   | Some next => repair_loop n file next out
                   | None => Some out
                   end)) as Hskip.
  { destruct (find_next_entry file position) as [next|] eqn:Hf; [|done].
    apply find_next_after in Hf. apply IH; lia. }
  destruct (read_entry_at file position) as [[e|]|err|] eqn:Hr; try done.
  apply read_entry_advances in Hr. destruct (validate_entry e); [apply IH; lia|done].
Qed.

(** A fold of steps that answer answers. *)
Lemma foldl_answers {A B} (f : A → B → option A) l (o : option A) :
  (∀ a b, is_Some (f a b)) → is_Some o → is_Some (foldl (λ o b, a ← o; f a b) o l).
Proof.
  intros Hf. revert o. induction l as [|b l IH]; intros o [a ->]; [done|]. apply IH, Hf.
Qed.

Lemma strategy_recover_answers tolerance segments :
  is_Some (strategy_recover tolerance segments).
Proof.
  apply foldl_answers; [|done]. intros acc s. apply recover_loop_answers. unfold positions. lia.
Qed.

Lemma strategy_validate_answers segments : is_Some (strategy_validate segments).
Proof.
  apply (foldl_answers (λ r s, v ← validate_loop (positions (content s)) (content s) 0 true r;
    Some (count_segment (sf_id s) v.1 v.2))); [|done].
  intros r s. destruct (validate_loop_answers (positions (content s)) (content s) 0 true r)
    as [v ->]; [unfold positions; lia|done].
Qed.

Lemma strategy_repair_answers segments : is_Some (strategy_repair segments).
Proof.
  apply mapM_is_Some. apply Forall_true. intros s. apply fmap_is_Some, repair_loop_answers.
  unfold positions. lia.
Qed.

(** C40: recovery terminates on segment files of any content: the loops that validate,
    read and repair a segment go forward at every entry they read and at every gap they
    skip, so each ends within as many iterations as there are bytes left, and one; under
    every tolerance the manager answers with a report or, for corruption it may not
    pass over, the error. *)
Theorem recovery_terminates tolerance segments :
  (∀ fuel file position, (length file - position < fuel)%nat →
     (∀ acc, is_Some (recover_loop tolerance fuel file position acc)) ∧
     (∀ ok r, is_Some (validate_loop fuel file position ok r)) ∧
     ∀ out, is_Some (repair_loop fuel file position out)) ∧
  ∃ r, manager_recover tolerance segments = Some r ∧
    match r with
    | Ok _ => True
    | Err e => tolerance = FailOnCorruption ∧ ∃ l, e = RecoveryErr (UnrecoverableCorruption l)
    | Panic => False
    end.
Proof.
  split; [auto using recover_loop_answers, validate_loop_answers, repair_loop_answers|].
  unfold manager_recover.
  destruct (strategy_validate_answers segments) as [v ->].
  destruct (strategy_recover_answers tolerance segments) as [r ->].
  destruct (strategy_repair_answers segments) as [p Hp]. cbn.
  destruct (corrupted_segments v); [by eexists|].
  destruct tolerance; rewrite ?Hp; eexists; (split; [reflexivity|]); naive_solver.
Qed.

(** ** What recovery reads of a stored entry *)

Lemma read_entry_at_stored file position e rest :
  storable e → drop position file = to_bytes e ++ rest →
  read_entry_at file position =
    let l := lsn (header e) in
    if (l =? 0) || (max_entry_size <? l) then Ok None
    else if Z.of_nat (length (to_bytes e ++ rest)) <? l then Err (Io OtherKind None)
    else
      match from_bytes (take (Z.to_nat l) (to_bytes e ++ rest)) with
      | Ok e' => Ok (Some e')
      | Err msg => Err (Serialization msg)
      | Panic => Panic
      end.
Proof.
  intros Hs Hd. unfold read_entry_at. rewrite Hd.
  pose proof header_at_least as H8. pose proof (to_bytes_length e) as Hlen.
  rewrite (proj2 (Nat.ltb_ge _ _)) by (rewrite length_app; lia).
  rewrite (take_app_le (to_bytes e)) by lia. by rewrite to_bytes_lsn.
Qed.

(** Recovery takes the first eight bytes of an entry for its size; the log
    stores the entry's sequence number there.  Reading at a stored entry
    therefore ends the segment for number 0 and for numbers above the size
    limit, and otherwise reads as many bytes as the entry's number says. *)
Theorem recovery_reads_number_as_size file position e rest :
  storable e → drop position file = to_bytes e ++ rest →
  read_entry_at file position =
    let l := lsn (header e) in
    if (l =? 0) || (max_entry_size <? l) then Ok None
    else if Z.of_nat (length (to_bytes e ++ rest)) <? l then Err (Io OtherKind None)
    else
      match from_bytes (take (Z.to_nat l) (to_bytes e ++ rest)) with
      | Ok e' => Ok (Some e')
      | Err msg => Err (Serialization msg)
      | Panic => Panic
      end.
Proof. apply read_entry_at_stored. Qed.

(** The log's first segment starts with entry 0, so recovery finds nothing in it. *)
Lemma first_segment_recovers_nothing tolerance id e rest acc :
  storable e → lsn (header e) = 0 →
  let s := mk_segment_file id (to_bytes e ++ rest) in
  recover_loop tolerance (positions (content s)) (content s) 0 acc = Some acc ∧
  strategy_validate [s] = Some (mk_validation 1 [] 0 0 []).
Proof.
  intros Hs H0 s.
  assert (read_entry_at (content s) 0 = Ok None) as Hr.
  { rewrite (read_entry_at_stored _ _ e rest) by done. by rewrite H0. }
  unfold strategy_validate, positions. cbn [foldl recover_loop validate_loop mbind option_bind].
  rewrite Hr. by destruct (_ <? _)%nat.
Qed.

(** ** Decisions *)

(** The decision and the status follow the records of the transaction. *)
Definition kind_recovery (o : option (TransactionRecoveryStatus * RecoveryDecision)) (k : kind)
    : option (TransactionRecoveryStatus * RecoveryDecision) :=
  match k, o with
  | KBegin, _ => Some (RActive, DecideAbort)
  | _, None => None
  | KPrepare, Some (_, d) => Some (RPrepared, d)
  | KCommit, Some _ => Some (RCommitted, Skip)
  | KAbort, Some _ => Some (RAborted, Skip)
  end.

Definition outcome_of (o : option TransactionRecovery)
    : option (TransactionRecoveryStatus * RecoveryDecision) :=
  (λ t, (tr_status t, decision t)) <$> o.

Lemma first_pass_step_outcome p e t :
  outcome_of (txs (first_pass_step p e) !! t) =
    foldl kind_recovery (outcome_of (txs p !! t)) (entry_kind t e).
Proof.
  assert (outcome_of (txs (first_pass_op p e) !! t) =
    foldl kind_recovery (outcome_of (txs p !! t)) (entry_kind t e)) as H.
  { unfold first_pass_op, entry_kind, outcome_of. destruct (payload e); try done.
    destruct op; simpl; case_bool_decide; subst; simpl;
      rewrite ?lookup_insert_eq, ?lookup_insert_ne, ?lookup_alter_eq, ?lookup_alter_ne by done;
      try done; by destruct (txs p !! t). }
  rewrite <- H. unfold first_pass_step. destruct (transaction e) as [ctx|]; [|done].
  unfold outcome_of. simpl. destruct (decide (ctx_tx_id ctx = t)) as [<-|Hne].
  - rewrite lookup_alter_eq. by destruct (txs (first_pass_op p e) !! ctx_tx_id ctx).
  - by rewrite lookup_alter_ne.
Qed.

Lemma first_pass_outcome es p t :
  outcome_of (txs (foldl first_pass_step p es) !! t) =
    foldl kind_recovery (outcome_of (txs p !! t)) (trail t es).
Proof.
  revert p. induction es as [|e es IH]; intros p; [done|].
  change (trail t (e :: es)) with (entry_kind t e ++ trail t es).
  rewrite foldl_app, <- first_pass_step_outcome. apply IH.
Qed.

(** The second pass leaves the outcome of a transaction that followed the protocol. *)
Lemma decide_tx_outcome cs abs o :
  match outcome_of o with
  | Some (RActive, d) | Some (RPrepared, d) => d = DecideAbort
  | _ => True
  end →
  outcome_of (decide_tx cs abs <$> o) = outcome_of o.
Proof.
  destruct o as [[id [] es d]|]; simpl; intros H; try done; unfold decide_tx;
    destruct (_ && _); simpl; by subst.
Qed.

Lemma kind_recovery_aborts x n :
  foldl kind_recovery (Some x) (repeat KAbort n) =
    match n with O => Some x | S _ => Some (RAborted, Skip) end.
Proof. destruct n as [|n]; [done|]. simpl. induction n as [|n IH]; [done|]. exact IH. Qed.

(** The outcome the records of a transaction amount to. *)
Lemma trail_outcome l :
  trail_ok l →
  foldl kind_recovery None l =
    match l with
    | [] => None
    | _ => if bool_decide (KAbort ∈ l) then Some (RAborted, Skip)
           else if bool_decide (KCommit ∈ l) then Some (RCommitted, Skip)
           else if bool_decide (KPrepare ∈ l) then Some (RPrepared, DecideAbort)
           else Some (RActive, DecideAbort)
    end.
Proof.
  intros [->|(base & n & Hb & ->)]; [done|].
  destruct (bases_cases base Hb) as [->|[->| ->]]; cbn [app foldl kind_recovery];
    rewrite kind_recovery_aborts; (destruct n as [|n]; [reflexivity|]);
    rewrite bool_decide_true; try done; cbn [repeat app];
    rewrite !elem_of_cons; tauto.
Qed.

(** What recovery decides for a transaction whose records follow the protocol:
    it skips the ones with a Commit or an Abort record and aborts every other
    one, in particular every prepared one; no transaction is ever completed or
    replayed. *)
Theorem recovery_decisions es t :
  trail_ok (trail t es) →
  decision <$> (recover_transactions es !! t) =
    match trail t es with
    | [] => None
    | k => if bool_decide (KCommit ∈ k ∨ KAbort ∈ k) then Some Skip else Some DecideAbort
    end.
Proof.
  intros Hok.
  pose proof (first_pass_outcome es (mk_pass ∅ ∅ ∅) t) as Hfp. simpl in Hfp.
  rewrite lookup_empty in Hfp. simpl in Hfp. unfold recover_transactions. rewrite lookup_fmap.
  set (p := foldl first_pass_step _ es) in *.
  rewrite trail_outcome in Hfp by done.
  assert (∀ o, decision <$> o = snd <$> outcome_of o) as Hd by (by intros [[]|]).
  rewrite Hd, decide_tx_outcome; rewrite Hfp.
  - destruct (trail t es) as [|k l] eqn:El; [done|].
    repeat case_bool_decide; simpl; try done; tauto.
  - destruct (trail t es) as [|k l]; [done|]. by repeat case_bool_decide.
Qed.
End RecoveryFacts.

(** ** Concrete files *)

(** An entry of 43 bytes with the number 43. *)
Definition odd_entry : WalEntry := WalFile.stamped (raw []) 43.

Lemma recovery_terminates_witness :
  let segments := [mk_segment_file 0 (to_bytes odd_entry ++ [Byte.x01; Byte.x02])] in
  (∀ fuel file position, (length file - position < fuel)%nat →
     (∀ acc, is_Some (recover_loop AttemptRepair fuel file position acc)) ∧
     (∀ ok r, is_Some (validate_loop fuel file position ok r)) ∧
     ∀ out, is_Some (repair_loop fuel file position out)) ∧
  ∃ r, manager_recover AttemptRepair segments = Some r ∧
    match r with
    | Ok _ => True
    | Err e => AttemptRepair = FailOnCorruption ∧ ∃ l, e = RecoveryErr (UnrecoverableCorruption l)
    | Panic => False
    end.
Proof. intros segments. apply (recovery_terminates AttemptRepair segments). Defined.

Lemma recovery_reads_number_as_size_witness :
  read_entry_at (to_bytes (raw [])) 0 = Ok None.
Proof.
  apply (recovery_reads_number_as_size (to_bytes (raw [])) 0 (raw []) []).
  - unfold storable, payload_readable. vm_compute. repeat split; discriminate.
  - rewrite app_nil_r. reflexivity.
Defined.

Definition tx_entry (op : TransactionOp) : WalEntry := entry_new 1 0 TransactionBegin (Transaction op).

Lemma recovery_decisions_witness :
  decision <$> (recover_transactions [tx_entry (Begin 1 30000); tx_entry (Prepare 1 [])] !! 1)
    = Some DecideAbort.
Proof.
  apply (recovery_decisions [tx_entry (Begin 1 30000); tx_entry (Prepare 1 [])] 1).
  right. exists [KBegin; KPrepare], 0%nat. split; [|reflexivity].
  unfold bases. rewrite !elem_of_cons. tauto.
Defined.

(** An entry that recovery does read back: its checksum is that of its payload,
    not of the whole entry, so it is not recovered but reported as corrupted,
    and a repair drops it. *)
Example intact_entry_is_corrupted :
  from_bytes (to_bytes odd_entry) = Ok (sealed odd_entry) ∧
  recovered_entries <$> strategy_recover SkipCorrupted [mk_segment_file 0 (to_bytes odd_entry)]
    = Some [] ∧
  corrupted_segments <$> strategy_validate [mk_segment_file 0 (to_bytes odd_entry)] = Some [0].
Proof. vm_compute. auto. Qed.
