(* ===== verification/WalSystem.v ===== *)
(** * Write-ahead log: the coordinator on the segmented file

    [FileWal] implements the interface the coordinator is verified against: the
    instance below pairs the file with the list of the entries it has written.
    The composition shows that a transaction whose commit succeeded has its
    Commit record on the device. *)

From Stdlib Require Import ZArith Lia Ascii.
From stdpp Require Import base numbers option strings gmap list.
From S2P Require Import Prelude RustStd Bytes Effects BTree WalEntry WalFile WalFileFacts.
From S2P Require Import WalSample WalCoordinator WalCoordinatorFacts.

Local Open Scope Z_scope.

Section Instance.
Context `{LM : LineageModel} `{WC : !WalCodec}.

(** The answers of the operating system to one call of the log. *)
Record FileIo : Type := mk_file_io {
  fio_append : AppendIo;
  fio_batch : BatchIo;
  fio_sync : SyncIo;
}.

(** The entry an append writes, if it gets that far. *)
Definition append_written (io : AppendIo) (e : WalEntry) (w : FileWal) : list WalEntry :=
  match append_reserve (free_space io) e w with
  | (w1, Ok l) =>
      match write_indexed (write_io io) e l w1 with
      | (_, Ok _) => [sealed (stamped e l)]
      | _ => []
      end
  | _ => []
  end.

(** The entries of a batch that are written before the first failure. *)
Fixpoint batch_written (io : BatchIo) (start : LogSequenceNumber) (l : list (nat * WalEntry))
    (w : FileWal) : list WalEntry :=
  match l with
  | [] => []
  | (i, e) :: l' =>
      match write_indexed (batch_write_io io i) e (start + Z.of_nat i) w with
      | (w1, Ok _) => sealed (stamped e (start + Z.of_nat i)) :: batch_written io start l' w1
      | _ => []
      end
  end.

Definition append_batch_written (io : BatchIo) (es : list WalEntry) (w : FileWal)
    : list WalEntry :=
  match ensure_sufficient_disk_space (batch_free_space io)
          (sum_list_with (λ e, length (to_bytes e)) es) w with
  | (w1, Ok _) =>
      batch_written io (current_lsn w1) (imap pair es)
        (set_current_lsn w1 ((current_lsn w1 + Z.of_nat (length es)) mod 2 ^ 64))
  | _ => []
  end.

(** Run a method of the file and extend the history. *)
Definition with_history {A} (m : WalM A) (new : FileWal → list WalEntry)
    : method (FileWal * list WalEntry) WalError A :=
  λ p, let '(w', r) := m p.1 in ((w', p.2 ++ new p.1), r).

#[global] Instance FileWal_log : WriteAheadLog := {|
  Wal := FileWal * list WalEntry;
  WalIo := FileIo;
  wal_append io e := with_history (append (fio_append io) e) (append_written (fio_append io) e);
  wal_append_batch io es :=
    with_history (append_batch (fio_batch io) es) (append_batch_written (fio_batch io) es);
  wal_sync io := with_history (sync (fio_sync io)) (λ _, []);
  wal_commit_batch ls := with_history (WalFile.commit_batch ls) (λ _, []);
  wal_tail_lsn p := tail_lsn p.1;
  wal_log p := p.2;
|}.

Lemma sealed_stamped_recorded e l : recorded e (sealed (stamped e l)).
Proof. done. Qed.

Lemma append_written_Ok io e w w' l :
  append io e w = (w', Ok l) → append_written io e w = [sealed (stamped e (current_lsn w))].
Proof.
  intros Hr. unfold append in Hr. apply method_bind_Ok in Hr as (w1 & l1 & Hres & Hr).
  apply method_bind_Ok in Hr as (w2 & u & Hwr & _).
  unfold append_write in Hwr. apply method_bind_Ok in Hwr as (w3 & l3 & Hwi & _).
  unfold append_written. rewrite Hres, Hwi.
  by apply append_reserve_outcome in Hres as [(_ & ? & ?)|(_ & ?)]; simplify_eq.
Qed.

Lemma batch_written_prefix io start l w :
  ∃ k, Forall2 recorded (take k l.*2) (batch_written io start l w).
Proof.
  revert w. induction l as [|[i e] l IH]; intros w; [by exists 0%nat; constructor|]. simpl.
  destruct (write_indexed _ _ _ w) as [w1 [l1| |]]; [|by exists 0%nat; constructor..].
  destruct (IH w1) as [k Hk]. exists (S k). simpl. constructor; [done|exact Hk].
Qed.

Lemma batch_written_all io start l w w' ls :
  method_mapM (λ p, write_indexed (batch_write_io io p.1) p.2 (start + Z.of_nat p.1)) l w
    = (w', Ok ls) →
  Forall2 recorded l.*2 (batch_written io start l w).
Proof.
  revert w w' ls. induction l as [|[i e] l IH]; intros w w' ls Hr; simpl in *; [constructor|].
  unfold method_bind in Hr.
  destruct (write_indexed _ _ _ w) as [w1 [l1| |]]; try done.
  destruct (method_mapM _ l w1) as [w2 [ls2| |]] eqn:Hm; try done.
  constructor; [done|]. by eapply IH.
Qed.

Lemma append_batch_written_prefix io es w :
  ∃ k, Forall2 recorded (take k es) (append_batch_written io es w).
Proof.
  unfold append_batch_written.
  destruct (ensure_sufficient_disk_space _ _ w) as [w1 [u| |]]; [|by exists 0%nat; constructor..].
  destruct (batch_written_prefix io (current_lsn w1) (imap pair es)
    (set_current_lsn w1 ((current_lsn w1 + Z.of_nat (length es)) mod 2 ^ 64))) as [k Hk].
  rewrite imap_pair_snd in Hk. by exists k.
Qed.

Lemma append_batch_written_all io es w w' ls :
  append_batch io es w = (w', Ok ls) → Forall2 recorded es (append_batch_written io es w).
Proof.
  intros Hr. unfold append_batch in Hr. apply method_bind_Ok in Hr as (w1 & u & He & Hr).
  apply method_bind_Ok in Hr as (w2 & start & Hf & Hr). rewrite fetch_add_outcome in Hf.
  injection Hf as <- <-. apply method_bind_Ok in Hr as (w3 & ls' & Hm & _).
  apply batch_written_all in Hm. rewrite imap_pair_snd in Hm.
  unfold append_batch_written. by rewrite He.
Qed.

#[global] Instance FileWal_log_ok : WriteAheadLogOk.
Proof.
  constructor; simpl; unfold with_history.
  - intros io e [w h] w' r Hr. simpl in Hr. destruct (append _ _ w) as [w1 r1] eqn:Ha.
    injection Hr as <- <-. simpl.
    destruct (append_written (fio_append io) e w) as [|e' l'] eqn:Hw.
    + right. rewrite app_nil_r. split; [done|]. intros l ->.
      by rewrite (append_written_Ok _ _ _ _ _ Ha) in Hw.
    + left. exists e'. unfold append_written in Hw. repeat case_match; simplify_eq. done.
  - intros io es [w h] w' r Hr. simpl in Hr. destruct (append_batch _ _ w) as [w1 r1] eqn:Ha.
    injection Hr as <- <-. simpl. destruct r1 as [ls|err|].
    + exists (length es). eexists. rewrite take_ge by done.
      split; [by eapply append_batch_written_all|done].
    + destruct (append_batch_written_prefix (fio_batch io) es w) as [k Hk]. by eexists k, _.
    + destruct (append_batch_written_prefix (fio_batch io) es w) as [k Hk]. by eexists k, _.
  - intros io [w h] w' r Hr. simpl in Hr. destruct (sync _ w). injection Hr as <- _. simpl.
    apply app_nil_r.
  - intros ls [w h] w' r Hr. simpl in Hr. destruct (commit_batch ls w). injection Hr as <- _. simpl.
    apply app_nil_r.
Qed.
End Instance.

(** ** A committed transaction is on the device *)

Section Durability.
Context `{LM : LineageModel} `{WC : !WalCodec} `{WO : !WalCodecOk}.

(** The device holds an entry with a payload. *)
Definition durable_payload (p : EntryPayload) (w : FileWal) : Prop :=
  ∃ l loc f e, lsn_index w !! l = Some loc ∧ durable (disk w) !! segment_id loc = Some f ∧
    from_bytes (take (size loc) (drop (offset loc) f)) = Ok e ∧ payload e = p ∧
    lsn (header e) = l.

(** An acknowledged append of the instance. *)
Lemma wal_append_durable io e (p p' : FileWal * list WalEntry) l :
  wal_inv p.1 → current_lsn p.1 + 1 ≤ u64_max → fsync_mode (config p.1) = EveryWrite →
  storable (stamped e l) → wal_append (WriteAheadLog := FileWal_log) io e p = (p', Ok l) →
  durable_payload (payload e) p'.1.
Proof.
  intros I Hmax Hmode Hst Hr. simpl in Hr. unfold with_history in Hr.
  destruct (append (fio_append io) e p.1) as [w' r'] eqn:Ha. simplify_eq. simpl.
  destruct (acknowledged_entry_is_durable _ _ _ _ _ I Hmax Hmode Hst Ha) as (loc & f & Hi & Hd & Hb).
  exists l, loc, f, (sealed (stamped e l)). done.
Qed.

Lemma commit_batch_durable ls (p p' : FileWal * list WalEntry) r q :
  wal_commit_batch (WriteAheadLog := FileWal_log) ls p = (p', r) →
  durable_payload q p.1 → durable_payload q p'.1.
Proof.
  simpl. unfold with_history, commit_batch. destruct ls; unfold_method; intros [= <- _]; done.
Qed.

(** C31: The coordinator, the two-phase protocol and the segmented file together: on a
    log of preallocated, memory-mapped segments with a sync after every write, whose
    calls so far ran one after another and did not use up the sequence numbers, a
    [commit] that returns success and that no other call overlaps has left the
    transaction's Commit record (of less than 4 GiB) on the device, where the index
    finds it. *)
Theorem committed_record_is_durable mkdir cio cfg d d0 w0 io answer now tx c c' :
  mapped_config cfg → file_wal_new mkdir cio cfg d = (d0, Ok w0) →
  wal_steps (λ _, True) w0 (wal c).1 → current_lsn (wal c).1 + 1 ≤ u64_max →
  fsync_mode (config (wal c).1) = EveryWrite →
  (∀ t, transactions c !! tx = Some t →
     Z.of_nat (length (serialize_payload (Transaction (Commit tx (max_lsn (lsns t)))))) < 2 ^ 32) →
  WalCoordinator.commit (WAL := FileWal_log) io answer now tx c = (c', Ok tt) →
  ∃ l, durable_payload (Transaction (Commit tx l)) (wal c').1.
Proof.
  intros Hcfg Hnew Hsteps Hmax Hmode Hsz Hr.
  pose proof (steps_inv _ _ _ _ _ _ _ _ Hcfg Hnew Hsteps) as I.
  unfold WalCoordinator.commit in Hr. apply method_bind_Ok in Hr as (c0 & u0 & Hr & Hrm).
  injection Hrm as <-. unfold commit_locked in Hr.
  apply guarded in Hr as [[_ Hn]|(t & Ht & Hs & Hr)]; [by destruct (Hn u0)|].
  exists (max_lsn (lsns t)).
  apply method_bind_Ok in Hr as (c1 & u & Hu & Hr). injection Hu as <- _.
  apply method_bind_Ok in Hr as (c2 & l & Ha & Hr). unfold call_wal in Ha.
  destruct (wal_append _ _ _) as [p' r'] eqn:Hap. injection Ha as <- ->.
  assert (l = current_lsn (wal c).1) as El.
  { simpl in Hap. unfold with_history in Hap. destruct (append _ _ _) as [w1 r1] eqn:Ha in Hap.
    injection Hap as _ ->. by apply append_acknowledged in Ha as [-> _]. }
  apply wal_append_durable in Hap; [|done..|].
  2: { pose proof (inv_start _ I). simpl in *. subst l. unfold storable, u64_max in *; simpl.
       unfold saturating_pred. pose proof (Z.mod_pos_bound now (2 ^ 64)). specialize (Hsz t Ht).
       repeat split; try lia. by apply payload_roundtrip. }
  apply method_bind_Ok in Hr as (c3 & u3 & Hcs & Hr).
  apply (commit_storage_own _ _ _ _ _ _ (with_status t Committing)) in Hcs as [Ew _];
    [|simpl; by rewrite lookup_alter_eq, Ht].
  apply method_bind_Ok in Hr as (c4 & u4 & Hcb & Hr). unfold call_wal in Hcb.
  destruct (wal_commit_batch _ _) as [p4 r4] eqn:Hb. injection Hcb as <- ->.
  apply (commit_batch_durable _ _ _ _ (Transaction (Commit tx (max_lsn (lsns t))))) in Hb;
    [|by rewrite Ew].
  by injection Hr as <-.
Qed.
End Durability.

(** ** Concrete runs *)

Definition fine_batch : BatchIo :=
  {| batch_free_space := inr 1000; batch_write_io := λ _, fine_write; batch_sync := fine_sync |}.
Definition fine_file : FileIo := mk_file_io fine_append fine_batch fine_sync.

(** A transaction without writes on a log of one segment, synced at every write. *)
Definition file_config : WalConfig := sample_config 200 EveryWrite (RotateSize 200) false 1.
Definition file0 : WalCoordinator (WAL := FileWal_log) :=
  coordinator_new (opened file_config empty_disk, []).
Definition file1 := run_coord (OpBegin fine_file 5 5) file0.
Definition file2 := run_coord (OpPrepare fine_file 6 1) file1.
Definition file3 := (commit fine_file None 7 1 file2).1.

Lemma file0_opened :
  ∃ d, file_wal_new None fine_create file_config empty_disk
    = (d, Ok (opened file_config empty_disk)).
Proof. eexists. vm_compute. reflexivity. Qed.

Lemma file2_steps : wal_steps (λ _, True) (opened file_config empty_disk) (wal file2).1.
Proof.
  pose (begins := entry_new 5 LSN_ZERO TransactionBegin (Transaction (Begin 1 30000))).
  pose (prepares := entry_new 6 LSN_ZERO TransactionPrepare (Transaction (Prepare 1 []))).
  apply (steps_op _ _ (OpAppend fine_append begins)); [done|vm_compute; discriminate|].
  apply (steps_op _ _ (OpAppend fine_append prepares)); [done|vm_compute; discriminate|].
  assert (run_op (OpAppend fine_append prepares)
    (run_op (OpAppend fine_append begins) (opened file_config empty_disk)) = (wal file2).1) as E
    by (vm_compute; reflexivity).
  rewrite E. constructor.
Qed.

Lemma committed_record_is_durable_witness :
  ∃ l, durable_payload (Transaction (Commit 1 l)) (wal file3).1.
Proof.
  destruct file0_opened as [d Hd].
  apply (committed_record_is_durable None fine_create file_config empty_disk d
    (opened file_config empty_disk) fine_file None 7 1 file2 file3).
  - split; reflexivity.
  - exact Hd.
  - exact file2_steps.
  - vm_compute. discriminate.
  - reflexivity.
  - intros t Ht. vm_compute in Ht. injection Ht as <-. vm_compute. reflexivity.
  - rewrite (surjective_pairing (commit _ _ _ _ _)). apply pair_eq. split; [reflexivity|].
    vm_compute. reflexivity.
Defined.

(** *** A log in memory

    The simplest log: each call succeeds, fails after recording its entry, or
    fails without. *)
Module MemoryLog.
Inductive answer : Type := Fine | FailsAfter | FailsBefore.

Definition mem_append (io : answer) (e : WalEntry) : method (list WalEntry) WalError LogSequenceNumber :=
  λ log,
    match io with
    | Fine => (log ++ [e], Ok (Z.of_nat (length log)))
    | FailsAfter => (log ++ [e], Err Closed)
    | FailsBefore => (log, Err Closed)
    end.

Definition mem_append_batch (io : answer) (es : list WalEntry)
    : method (list WalEntry) WalError (list LogSequenceNumber) :=
  λ log,
    match io with
    | Fine => (log ++ es, Ok (seqZ (Z.of_nat (length log)) (Z.of_nat (length es))))
    | FailsAfter => (log ++ es, Err Closed)
    | FailsBefore => (log, Err Closed)
    end.

#[global] Instance memory_log : WriteAheadLog := {|
  Wal := list WalEntry;
  WalIo := answer;
  wal_append := mem_append;
  wal_append_batch := mem_append_batch;
  wal_sync io log := (log, match io with Fine => Ok tt | _ => Err Closed end);
  wal_commit_batch ls log := (log, Ok tt);
  wal_tail_lsn log := Z.of_nat (length log);
  wal_log log := log;
|}.

Lemma recorded_all (es : list WalEntry) : Forall2 recorded es es.
Proof. induction es; constructor; done. Qed.

#[global] Instance memory_log_ok : WriteAheadLogOk.
Proof.
  constructor; simpl.
  - intros [] e w w' r [= <- <-]; [left; by exists e..|right; done].
  - intros [] es w w' r [= <- <-].
    + exists (length es), es. rewrite take_ge by done. split; [apply recorded_all|done].
    + exists (length es), es. rewrite take_ge by done. split; [apply recorded_all|done].
    + exists 0%nat, []. split; [constructor|]. by rewrite app_nil_r.
  - by intros io w w' r [= <- _].
  - by intros ls w w' r [= <- _].
Qed.

Definition fine : WalIo (WriteAheadLog := memory_log) := Fine.
Definition fails_before : WalIo (WriteAheadLog := memory_log) := FailsBefore.

(** A transaction with an event and a connected backend; its commit succeeds, or
    fails in the backend and is aborted afterwards. *)
Definition empty_log : Wal (WriteAheadLog := memory_log) := [].
Definition mem0 : WalCoordinator := coordinator_new empty_log.
Definition mem4 : WalCoordinator :=
  run_coord (OpPrepare fine 3 1)
    (run_coord (OpAddLineage fine 2 1 ["event"%string])
      (run_coord (OpBegin fine 1 1) (run_coord OpConnect mem0))).
Definition mem5 : WalCoordinator := run_coord (OpCommit fine None 4 1) mem4.
Definition mem_failed : WalCoordinator := run_coord (OpCommit fine (Some "down"%string) 4 1) mem4.

Lemma mem4_steps : coord_steps mem0 mem4.
Proof.
  apply (csteps_op _ OpConnect); [vm_compute; discriminate|].
  apply (csteps_op _ (OpBegin fine 1 1)); [vm_compute; discriminate|].
  apply (csteps_op _ (OpAddLineage fine 2 1 ["event"%string])); [vm_compute; discriminate|].
  apply (csteps_op _ (OpPrepare fine 3 1)); [vm_compute; discriminate|]. constructor.
Qed.

Lemma steps_snoc (c c' : WalCoordinator (WAL := memory_log)) op :
  coord_steps c c' → next_tx_id c' + 1 ≤ u64_max → coord_steps c (run_coord op c').
Proof.
  induction 1 as [c|c op' c' Hn _ IH]; intros Hm.
  - by eapply csteps_op, csteps_refl.
  - eapply csteps_op; [exact Hn|]. by apply IH.
Qed.

Lemma two_phase_order_witness :
  trail_ok (trail 1 (wal_log (wal mem4))) ∧ trail 1 (wal_log (wal mem4)) = [KBegin; KPrepare].
Proof.
  split; [|vm_compute; reflexivity].
  destruct (two_phase_order empty_log mem4) as [H _]; [reflexivity|exact mem4_steps|]. exact (H 1).
Defined.

Lemma storage_written_after_commit_witness :
  ∃ e l, e ∈ wal_log (wal mem_failed) ∧ payload e = Transaction (Commit 1 l) ∧
    ∃ n, trail 1 (wal_log (wal mem_failed)) = [KBegin; KPrepare; KCommit] ++ repeat KAbort n.
Proof.
  apply (storage_written_after_commit empty_log mem_failed [(1, ["event"%string], false)] 1
    ["event"%string] false).
  - reflexivity.
  - apply steps_snoc; [exact mem4_steps|vm_compute; discriminate].
  - vm_compute. reflexivity.
  - apply list_elem_of_singleton. reflexivity.
Defined.

Lemma outcome_is_final_witness :
  trail 1 (wal_log (wal (run_coord (OpAbort fine 8 1 "late") mem5))) = [KBegin; KPrepare; KCommit].
Proof.
  apply (outcome_is_final empty_log mem4 fine None 4 1 "" mem5
    (run_coord (OpAbort fine 8 1 "late") mem5)).
  - reflexivity.
  - exact mem4_steps.
  - apply steps_snoc; [constructor|vm_compute; discriminate].
  - vm_compute. reflexivity.
Defined.

(** An abort that comes between the end of a commit and the removal of the transaction
    succeeds, and the transaction stays committed. *)
Example abort_after_commit_succeeds :
  (abort fine 8 1 "late" mem5).2 = Ok tt ∧
  trail 1 (wal_log (wal (abort fine 8 1 "late" mem5).1)) = [KBegin; KPrepare; KCommit].
Proof. vm_compute. auto. Qed.

(** A commit whose backend write fails leaves its Commit record in the log; the
    transaction is then aborted, by a client or by its timeout, and recovery
    takes it for an aborted one although its Commit record stands. *)
Example failed_commit_is_aborted :
  (commit fine (Some "down"%string) 4 1 mem4).2
    = Err (StorageErr (CoordinationFailed "down"%string)) ∧
  trail 1 (wal_log (wal (run_coord (OpTimeouts (λ _, fine) 5 40000) mem_failed)))
    = [KBegin; KPrepare; KCommit; KAbort].
Proof. vm_compute. auto. Qed.

(** An append that fails in [prepare] leaves the transaction in a state from
    which it can be neither prepared again nor committed. *)
Definition mem_stuck : WalCoordinator :=
  run_coord (OpPrepare fails_before 2 1) (run_coord (OpBegin fine 1 1) mem0).

Example failed_prepare_is_stuck :
  (prepare fine 3 1 mem_stuck).2
    = Err (TransactionErr (InvalidState 1 "Preparing"%string)) ∧
  (commit fine None 4 1 mem_stuck).2
    = Err (TransactionErr (InvalidState 1 "Preparing"%string)).
Proof. vm_compute. auto. Qed.

(** A new coordinator on the same log numbers its transactions from 1 again. *)
Example transaction_ids_repeat :
  trail 1 (wal_log (wal (run_coord (OpBegin fine 9 9) (coordinator_new (wal mem5)))))
    = [KBegin; KPrepare; KCommit; KBegin].
Proof. vm_compute. reflexivity. Qed.
End MemoryLog.
