(* ===== verification/TemporalIndexes.v ===== *)
(** * Bitemporal store: transactions, annotations, temporal indexes

    Models [bitemporal/annotations.rs], [transaction_manager.rs] and the indexes
    of [indexes.rs] of the coordinator: transaction ids, the two time intervals
    of a version, and the column families that find versions by key, by id and
    by time, with the cache of current versions in front of them.  RocksDB, the
    LRU cache, bincode and the date parser are parameters.  A [DateTime] is its
    nanoseconds since the epoch. *)

From Stdlib Require Import ZArith Lia Ascii.
From Stdlib Require String.
From stdpp Require Import base numbers option strings gmap list.
From S2P Require Import Prelude RustStd Bytes Effects.

Local Open Scope Z_scope.

(** ** Transaction ids *)

Record TransactionId : Type := {
  tx_seq : Z;
  tx_timestamp : Z;
  tx_node_id : Z;
}.

(** [global_ordering_key], a [u128]. *)
Definition global_ordering_key (t : TransactionId) : Z :=
  Z.lor (Z.shiftl (tx_node_id t) 64) (tx_seq t).

(** [Ord::cmp]: by sequence number, then by node. *)
Definition tx_cmp (a b : TransactionId) : comparison :=
  match Z.compare (tx_seq a) (tx_seq b) with
  | Eq => Z.compare (tx_node_id a) (tx_node_id b)
  | c => c
  end.

Record TransactionManager : Type := {
  next_seq : Z;
  node_id : Z;
}.

(** [TransactionManager::new] and [with_start_seq]. *)
Definition tm_new (node : Z) : TransactionManager := {| next_seq := 1; node_id := node |}.
Definition with_start_seq (node start_seq : Z) : result unit TransactionManager :=
  if 0 <? start_seq then Ok {| next_seq := start_seq; node_id := node |} else Panic.

(** [begin_transaction] at [now]; [fetch_add] wraps. *)
Definition begin_transaction (now : Z) (m : TransactionManager) : TransactionId * TransactionManager :=
  ({| tx_seq := next_seq m; tx_timestamp := now; tx_node_id := node_id m |},
   {| next_seq := (next_seq m + 1) mod 2 ^ 64; node_id := node_id m |}).

(** ** Annotations *)

Record BitemporalAnnotations : Type := {
  ba_tx_id : TransactionId;
  ba_tx_from : Z;
  ba_tx_to : option Z;
  ba_valid_from : Z;
  ba_valid_to : option Z;
}.

Definition annotations_new (tx : TransactionId) (valid_from : Z) (valid_to : option Z)
    : BitemporalAnnotations :=
  {| ba_tx_id := tx; ba_tx_from := tx_timestamp tx; ba_tx_to := None;
     ba_valid_from := valid_from; ba_valid_to := valid_to |}.

(** [from <= t] and [t < to], with no [to] open-ended. *)
Definition in_interval (from : Z) (to : option Z) (t : Z) : bool :=
  (from <=? t) && match to with Some e => t <? e | None => true end.

Definition is_current_version (a : BitemporalAnnotations) : bool :=
  match ba_tx_to a with None => true | _ => false end.
Definition is_currently_valid (a : BitemporalAnnotations) : bool :=
  match ba_valid_to a with None => true | _ => false end.
Definition visible_at_tx_time (a : BitemporalAnnotations) (t : Z) : bool :=
  in_interval (ba_tx_from a) (ba_tx_to a) t.
Definition valid_at_time (a : BitemporalAnnotations) (t : Z) : bool :=
  in_interval (ba_valid_from a) (ba_valid_to a) t.
Definition visible_at (a : BitemporalAnnotations) (tx_time valid_time : Z) : bool :=
  visible_at_tx_time a tx_time && valid_at_time a valid_time.

Definition annotations_close_version (closing : TransactionId) (a : BitemporalAnnotations)
    : BitemporalAnnotations :=
  {| ba_tx_id := ba_tx_id a; ba_tx_from := ba_tx_from a; ba_tx_to := Some (tx_timestamp closing);
     ba_valid_from := ba_valid_from a; ba_valid_to := ba_valid_to a |}.
Definition close_valid_time (end_time : Z) (a : BitemporalAnnotations) : BitemporalAnnotations :=
  {| ba_tx_id := ba_tx_id a; ba_tx_from := ba_tx_from a; ba_tx_to := ba_tx_to a;
     ba_valid_from := ba_valid_from a; ba_valid_to := Some end_time |}.

(** ** Triples and versions *)

Inductive TripleValue : Type :=
  | Uri (uri : string)
  | Literal (value : string)
  | TypedLiteral (value datatype : string)
  | LanguageLiteral (value lang : string).

Record Annotation : Type := { an_predicate : string; an_object : TripleValue }.

Record AnnotatedTriple : Type := {
  t_subject : string;
  t_predicate : string;
  t_object : string;
  t_annotations : list Annotation;
}.

(** [VersionRef]; [TripleMetadata] has the same fields and is converted field by
    field. *)
Record VersionRef : Type := {
  v_version_id : string;
  v_subject : string;
  v_predicate : string;
  v_object : string;
  v_valid_from : Z;
  v_valid_to : option Z;
  v_tx_from : Z;
  v_tx_to : option Z;
  v_tx_seq : Z;
  v_node_id : Z;
}.

Definition is_current (v : VersionRef) : bool :=
  match v_tx_to v with None => true | _ => false end.
Definition is_valid_at (v : VersionRef) (t : Z) : bool :=
  (v_valid_from v <=? t) && match v_valid_to v with Some e => t <? e | None => true end.
Definition existed_at (v : VersionRef) (t : Z) : bool :=
  (v_tx_from v <=? t) && match v_tx_to v with Some e => t <? e | None => true end.

Definition set_tx_to (to : option Z) (v : VersionRef) : VersionRef :=
  {| v_version_id := v_version_id v; v_subject := v_subject v; v_predicate := v_predicate v;
     v_object := v_object v; v_valid_from := v_valid_from v; v_valid_to := v_valid_to v;
     v_tx_from := v_tx_from v; v_tx_to := to; v_tx_seq := v_tx_seq v; v_node_id := v_node_id v |}.

(** ** Keys *)

Definition hex_char (d : Z) : ascii :=
  ascii_of_nat (Z.to_nat (if d <? 10 then 48 + d else 87 + d)).

(** [{:0wx}] of an integer that fits [w] hexadecimal digits. *)
Fixpoint hex_pad (w : nat) (z : Z) : string :=
  match w with
  | O => EmptyString
  | S w' => hex_pad w' (z / 16) +:+ String (hex_char (z mod 16)) EmptyString
  end.

Definition tx_key (seq node : Z) (version_id : string) : string :=
  hex_pad 16 seq +:+ (":" +:+ (hex_pad 4 node +:+ (":" +:+ version_id))).

Definition sp_key (subject predicate : string) : string := subject +:+ ("|" +:+ predicate).

(** [timestamp_millis], then [Display]. *)
Definition time_key (ns : Z) (subject predicate : string) : string :=
  i64_to_string (ns / 10 ^ 6) +:+ ("|" +:+ (subject +:+ ("|" +:+ predicate))).

(** [str::as_bytes] and [str::from_utf8]. *)
Definition str_bytes (s : string) : list byte := String.list_byte_of_string s.
Definition from_utf8 (bs : list byte) : string := String.string_of_list_byte bs.

(** ** Crates *)

Inductive IndexCf : Type :=
  VersionChains | TxIndex | ValidTime | SystemTime | CurrentVersion | ReverseIndex.

#[global] Instance IndexCf_eq_dec : EqDecision IndexCf.
Proof. solve_decision. Defined.

Class IndexDb : Type := {
  Idb : Type;
  idb_get : Idb → IndexCf → list byte → result string (option (list byte));
  idb_put : Idb → IndexCf → list byte → list byte → result string Idb;
}.

(** A read after a successful write sees it; other keys keep what they had. *)
Class IndexDbOk `{IndexDb} : Prop := {
  idb_get_put db cf k v db' : idb_put db cf k v = Ok db' → idb_get db' cf k = Ok (Some v);
  idb_get_put_other db cf k v db' cf' k' :
    idb_put db cf k v = Ok db' → (cf', k') ≠ (cf, k) → idb_get db' cf' k' = idb_get db cf' k';
}.

(** The LRU cache: [get] changes which entry is evicted next. *)
Class VersionCache : Type := {
  Cache : Type;
  cache_get : Cache → string → Cache * option VersionRef;
  cache_put : Cache → string → VersionRef → Cache;
  cache_pop : Cache → string → Cache;
  cache_peek : Cache → string → option VersionRef;
}.

(** A cache may forget but not invent. *)
Class VersionCacheOk `{VersionCache} : Prop := {
  get_value c k : (cache_get c k).2 = cache_peek c k;
  peek_get c k k' v : cache_peek (cache_get c k).1 k' = Some v → cache_peek c k' = Some v;
  peek_put c k v k' v' :
    cache_peek (cache_put c k v) k' = Some v' → k' = k ∧ v' = v ∨ k' ≠ k ∧ cache_peek c k' = Some v';
  peek_pop c k k' v : cache_peek (cache_pop c k) k' = Some v → k' ≠ k ∧ cache_peek c k' = Some v;
}.

(** bincode on the two stored types, and the parser of chrono. *)
Class IndexCodec : Type := {
  meta_bytes : VersionRef → list byte;
  meta_parse : list byte → option VersionRef;
  chain_bytes : list string → list byte;
  chain_parse : list byte → option (list string);
  parse_from_rfc3339 : string → option Z;
}.

Class IndexCodecOk `{IndexCodec} : Prop := {
  meta_roundtrip v : meta_parse (meta_bytes v) = Some v;
  chain_roundtrip l : chain_parse (chain_bytes l) = Some l;
}.

(** ** The indexes *)

Section Indexes.
Context `{IndexDb} `{VersionCache} `{IndexCodec}.

Record TemporalIndexes : Type := { db : Idb; cache : Cache }.

Abbreviation IndexM := (method TemporalIndexes string).

Definition get_cf (cf : IndexCf) (k : list byte) : IndexM (option (list byte)) :=
  λ st, (st, idb_get (db st) cf k).

Definition put_cf (cf : IndexCf) (k v : list byte) : IndexM unit :=
  λ st, match idb_put (db st) cf k v with
        | Ok d => ({| db := d; cache := cache st |}, Ok tt)
        | Err e => (st, Err e)
        | Panic => (st, Panic)
        end.

Definition pop_cache (k : string) : IndexM unit :=
  modify (λ st, {| db := db st; cache := cache_pop (cache st) k |}).

Definition VALID_FROM : string := "http://graphica.io/ontology#validFrom".
Definition VALID_TO : string := "http://graphica.io/ontology#validTo".

Definition bad_date : string := "invalid RFC 3339 date".

(** One annotation of [extract_valid_time]. *)
Definition extract_step (acc : option Z * option Z) (an : Annotation)
    : result string (option Z * option Z) :=
  if String.eqb (an_predicate an) VALID_FROM then
    match an_object an with
    | TypedLiteral value _ => t ← ok_or (parse_from_rfc3339 value) bad_date; Ok (Some t, acc.2)
    | _ => Ok acc
    end
  else if String.eqb (an_predicate an) VALID_TO then
    match an_object an with
    | TypedLiteral value _ => t ← ok_or (parse_from_rfc3339 value) bad_date; Ok (acc.1, Some t)
    | Literal lit => if String.eqb lit "MAX" then Ok (acc.1, None) else Ok acc
    | _ => Ok acc
    end
  else Ok acc.

(** [extract_valid_time]. *)
Definition extract_valid_time (triple : AnnotatedTriple) : result string (Z * option Z) :=
  acc ← result_foldM extract_step (None, None) (t_annotations triple);
  vf ← ok_or acc.1 "Missing validFrom annotation"%string;
  Ok (vf, acc.2).

(** The metadata of a new version. *)
Definition new_version (triple : AnnotatedTriple) (version_id : string) (tx : TransactionId)
    (valid : Z * option Z) : VersionRef :=
  {| v_version_id := version_id; v_subject := t_subject triple; v_predicate := t_predicate triple;
     v_object := t_object triple; v_valid_from := valid.1; v_valid_to := valid.2;
     v_tx_from := tx_timestamp tx; v_tx_to := None; v_tx_seq := tx_seq tx;
     v_node_id := tx_node_id tx |}.

(** The chain read for appending: an undecodable one counts as empty. *)
Definition read_chain (k : string) : IndexM (list string) :=
  bytes ← get_cf VersionChains (str_bytes k);
  mret (default [] (bytes ≫= chain_parse)).

(** [index_version]. *)
Definition index_version (triple : AnnotatedTriple) (version_id : string) (tx : TransactionId)
    : IndexM unit :=
  valid ← lift (extract_valid_time triple);
  let metadata := new_version triple version_id tx valid in
  let tk := tx_key (tx_seq tx) (tx_node_id tx) version_id in
  let sk := sp_key (t_subject triple) (t_predicate triple) in
  _ ← put_cf TxIndex (str_bytes tk) (meta_bytes metadata);
  _ ← put_cf ReverseIndex (str_bytes version_id) (str_bytes tk);
  chain ← read_chain sk;
  _ ← put_cf VersionChains (str_bytes sk) (chain_bytes (chain ++ [version_id]));
  _ ← put_cf CurrentVersion (str_bytes sk) (str_bytes version_id);
  _ ← pop_cache sk;
  _ ← put_cf ValidTime (str_bytes (time_key valid.1 (t_subject triple) (t_predicate triple)))
        (str_bytes version_id);
  put_cf SystemTime (str_bytes (time_key (tx_timestamp tx) (t_subject triple) (t_predicate triple)))
    (str_bytes version_id).

Definition bad_metadata : string := "metadata does not deserialize".

(** [get_version_by_id]. *)
Definition get_version_by_id (version_id : string) : IndexM (option VersionRef) :=
  tk ← get_cf ReverseIndex (str_bytes version_id);
  match tk with
  | None => mret None
  | Some tk =>
      bytes ← get_cf TxIndex (str_bytes (from_utf8 tk));
      match bytes with
      | None => mret None
      | Some bytes => v ← lift (ok_or (meta_parse bytes) bad_metadata); mret (Some v)
      end
  end.

(** The slow path of [find_current_version]: the version the index points to. *)
Definition stored_current (k : string) : IndexM (option VersionRef) :=
  vid ← get_cf CurrentVersion (str_bytes k);
  match vid with
  | None => mret None
  | Some vid => get_version_by_id (from_utf8 vid)
  end.

Definition lookup_cache (k : string) : IndexM (option VersionRef) :=
  λ st, let '(c, r) := cache_get (cache st) k in ({| db := db st; cache := c |}, Ok r).

Definition populate_cache (k : string) (v : VersionRef) : IndexM unit :=
  modify (λ st, {| db := db st; cache := cache_put (cache st) k v |}).

(** [find_current_version]. *)
Definition find_current_version (subject predicate : string) : IndexM (option VersionRef) :=
  let k := sp_key subject predicate in
  hit ← lookup_cache k;
  match hit with
  | Some v => mret (Some v)
  | None =>
      r ← stored_current k;
      match r with
      | Some v => _ ← populate_cache k v; mret (Some v)
      | None => mret None
      end
  end.

(** [sort_by_key(|v| v.tx_seq)], which is stable. *)
Fixpoint insert_version (v : VersionRef) (l : list VersionRef) : list VersionRef :=
  match l with
  | [] => [v]
  | w :: l' => if v_tx_seq v <=? v_tx_seq w then v :: l else w :: insert_version v l'
  end.

Definition sort_versions (l : list VersionRef) : list VersionRef := foldr insert_version [] l.

(** [get_version_chain]. *)
Definition get_version_chain (subject predicate : string) : IndexM (list VersionRef) :=
  bytes ← get_cf VersionChains (str_bytes (sp_key subject predicate));
  match bytes with
  | None => mret []
  | Some bytes =>
      vids ← lift (ok_or (chain_parse bytes) "chain does not deserialize"%string);
      versions ← method_mapM get_version_by_id vids;
      mret (sort_versions (omap id versions))
  end.

(** [max_by_key]: the last of the greatest. *)
Definition max_by_seq (l : list VersionRef) : option VersionRef :=
  fold_left (λ best v,
    match best with
    | Some b => if v_tx_seq b <=? v_tx_seq v then Some v else best
    | None => Some v
    end) l None.

(** [find_version_at]. *)
Definition find_version_at (subject predicate : string) (valid_time system_time : Z)
    : IndexM (option VersionRef) :=
  chain ← get_version_chain subject predicate;
  mret (max_by_seq (List.filter (λ v, is_valid_at v valid_time && existed_at v system_time) chain)).

(** [supersede_version]. *)
Definition supersede_version (version_id : string) (superseded_at : Z) : IndexM unit :=
  r ← get_cf ReverseIndex (str_bytes version_id);
  tk ← lift (ok_or r ("Version " +:+ version_id +:+ " not found in reverse index"));
  let tk := from_utf8 tk in
  r ← get_cf TxIndex (str_bytes tk);
  bytes ← lift (ok_or r ("Version " +:+ version_id +:+ " metadata not found in transaction index"));
  metadata ← lift (ok_or (meta_parse bytes) bad_metadata);
  _ ← put_cf TxIndex (str_bytes tk) (meta_bytes (set_tx_to (Some superseded_at) metadata));
  pop_cache (sp_key (v_subject metadata) (v_predicate metadata)).
End Indexes.
Arguments TemporalIndexes {_ _}.
