(* ===== verification/TemporalIndexFacts.v ===== *)
(** * Temporal indexes answer from the history, and the past does not change

    The indexes of [TemporalIndexes.v] refine a specification with two maps, the
    versions by id and the ids by key in the order they were indexed; reads
    answer from it, cached or not, and later writes leave answers about earlier
    system times alone. *)

From Stdlib Require Import ZArith Lia Ascii.
From Stdlib Require String.
From stdpp Require Import base numbers option strings gmap list relations sorting.
From S2P Require Import Prelude RustStd Bytes Effects TemporalIndexes.

Local Open Scope Z_scope.

(** ** Keys *)

Lemma str_bytes_inj a b : str_bytes a = str_bytes b → a = b.
Proof.
  intros Hab. rewrite <- (String.string_of_list_byte_of_string a),
    <- (String.string_of_list_byte_of_string b). by apply f_equal.
Qed.

Lemma from_utf8_str_bytes s : from_utf8 (str_bytes s) = s.
Proof. apply String.string_of_list_byte_of_string. Qed.

Lemma hex_pad_length w z : String.length (hex_pad w z) = w.
Proof.
  revert z. induction w as [|w IH]; intros z; [done|]. simpl.
  rewrite str_app_length, IH. simpl. lia.
Qed.

Lemma str_app_inj_length a b c d :
  String.length a = String.length c → a +:+ b = c +:+ d → b = d.
Proof.
  revert c. induction a as [|x a IH]; intros [|y c] Hl Heq; simplify_eq/=; [done|]. eauto.
Qed.

(** The key of a version determines its id. *)
Lemma tx_key_inj s n v s' n' v' : tx_key s n v = tx_key s' n' v' → v = v'.
Proof.
  unfold tx_key. intros Hk. do 4 (apply str_app_inj_length in Hk; [|by rewrite ?hex_pad_length]).
  done.
Qed.

(** ** Sorting *)

Definition seq_sorted (l : list VersionRef) : Prop := Sorted (λ a b, v_tx_seq a ≤ v_tx_seq b) l.

Lemma insert_sorted v l : seq_sorted l → seq_sorted (insert_version v l).
Proof.
  unfold seq_sorted. induction l as [|w l IH]; intros Hl; simpl; [by repeat constructor|].
  destruct (Z.leb_spec (v_tx_seq v) (v_tx_seq w)); [constructor; [done|by constructor]|].
  apply Sorted_inv in Hl as [Hl Hw]. constructor; [by apply IH|].
  destruct l as [|x l]; simpl; [constructor; lia|].
  apply HdRel_inv in Hw. destruct (_ <=? _); constructor; lia.
Qed.

Lemma sort_sorted l : seq_sorted (sort_versions l).
Proof. induction l as [|v l IH]; [constructor|]. by apply insert_sorted. Qed.

Lemma insert_head v l :
  Forall (λ w, v_tx_seq v ≤ v_tx_seq w) l → insert_version v l = v :: l.
Proof. destruct l as [|w l]; [done|]. intros [Hw _]%Forall_cons. simpl. by rewrite (proj2 (Z.leb_le _ _)). Qed.

Lemma filter_insert p v l :
  seq_sorted l →
  List.filter p (insert_version v l) =
    if p v then insert_version v (List.filter p l) else List.filter p l.
Proof.
  intros Hl. apply Sorted_StronglySorted in Hl; [|intros a b c; lia].
  induction Hl as [|w l Hl IH Hw]; simpl; [by destruct (p v)|].
  destruct (Z.leb_spec (v_tx_seq v) (v_tx_seq w)) as [Hle|Hlt].
  - simpl. destruct (p v) eqn:Hv, (p w) eqn:Hpw; try done.
    + simpl. by rewrite (proj2 (Z.leb_le _ _)).
    + symmetry. apply insert_head. apply Forall_forall. intros x Hx.
      rewrite list_elem_of_In, filter_In, <- list_elem_of_In in Hx. destruct Hx as [Hx _].
      eapply Forall_forall in Hw; [|done]. simpl in Hw. lia.
  - simpl. rewrite IH. destruct (p v) eqn:Hv, (p w) eqn:Hpw; try done.
    simpl. by rewrite (proj2 (Z.leb_gt _ _)).
Qed.

Lemma filter_sort p l : List.filter p (sort_versions l) = sort_versions (List.filter p l).
Proof.
  induction l as [|v l IH]; [done|]. simpl. rewrite filter_insert by apply sort_sorted.
  rewrite IH. by destruct (p v).
Qed.

Lemma filter_map_eq {A} (f : A → A) p l :
  (∀ x, x ∈ l → p (f x) = p x) → List.filter p (map f l) = map f (List.filter p l).
Proof.
  induction l as [|x l IH]; intros Hp; [done|]. simpl. rewrite (Hp x) by left.
  rewrite IH; [by destruct (p x)|]. intros y Hy. apply Hp. by right.
Qed.

(** A change of versions that keeps their sequence numbers commutes with sorting
    and choosing. *)
Section Mapped.
Context (f : VersionRef → VersionRef) (Hf : ∀ v, v_tx_seq (f v) = v_tx_seq v).

Lemma insert_map v l : insert_version (f v) (map f l) = map f (insert_version v l).
Proof using Hf. induction l as [|w l IH]; [done|]. simpl. rewrite !Hf, IH. by destruct (_ <=? _). Qed.

Lemma sort_map l : sort_versions (map f l) = map f (sort_versions l).
Proof using Hf. induction l as [|v l IH]; [done|]. simpl. by rewrite IH, insert_map. Qed.

Lemma max_map l : max_by_seq (map f l) = f <$> max_by_seq l.
Proof using Hf.
  unfold max_by_seq. change None with (f <$> @None VersionRef) at 1. generalize (@None VersionRef).
  induction l as [|v l IH]; intros b; [done|]. simpl. rewrite <- IH. f_equal.
  destruct b as [b|]; simpl; [|done]. rewrite !Hf. by destruct (_ <=? _).
Qed.
End Mapped.

(** ** The specification *)

(** The versions by id, and the ids by key, oldest first. *)
Record history : Type := {
  hv : gmap string VersionRef;
  hc : gmap string (list string);
}.

Definition version_key (v : VersionRef) : string := sp_key (v_subject v) (v_predicate v).

(** A new version, at the end of its key's list. *)
Definition add_version (v : VersionRef) (h : history) : history :=
  {| hv := <[v_version_id v := v]> (hv h);
     hc := <[version_key v := default [] (hc h !! version_key v) ++ [v_version_id v]]> (hc h) |}.

(** The end of a version's transaction time. *)
Definition end_version (i : string) (t : Z) (h : history) : history :=
  {| hv := alter (set_tx_to (Some t)) i (hv h); hc := hc h |}.

Definition versions_of (h : history) (k : string) : list VersionRef :=
  omap (λ i, hv h !! i) (default [] (hc h !! k)).

(** The last version indexed under a key. *)
Definition current_of (h : history) (k : string) : option VersionRef :=
  i ← last (default [] (hc h !! k)); hv h !! i.

Definition version_at (h : history) (k : string) (valid_time system_time : Z) : option VersionRef :=
  max_by_seq (List.filter (λ v, is_valid_at v valid_time && existed_at v system_time)
    (sort_versions (versions_of h k))).

Section Refinement.
Context `{IndexDbOk} `{VersionCacheOk} `{IndexCodecOk}.

(** What the column families hold for a history. *)
Record stores (d : Idb) (h : history) : Prop := {
  st_fresh : ∀ i, hv h !! i = None → idb_get d ReverseIndex (str_bytes i) = Ok None;
  st_reverse : ∀ i v, hv h !! i = Some v →
    idb_get d ReverseIndex (str_bytes i) = Ok (Some (str_bytes (tx_key (v_tx_seq v) (v_node_id v) i)));
  st_meta : ∀ i v, hv h !! i = Some v →
    idb_get d TxIndex (str_bytes (tx_key (v_tx_seq v) (v_node_id v) i)) = Ok (Some (meta_bytes v));
  st_chain : ∀ k, idb_get d VersionChains (str_bytes k) = Ok (chain_bytes <$> hc h !! k);
  st_current : ∀ k,
    idb_get d CurrentVersion (str_bytes k) = Ok (str_bytes <$> (hc h !! k ≫= last));
  st_chain_ok : ∀ k l i, hc h !! k = Some l → i ∈ l → ∃ v, hv h !! i = Some v ∧ version_key v = k;
  st_id : ∀ i v, hv h !! i = Some v → v_version_id v = i;
}.

Definition coherent (c : Cache) (h : history) : Prop :=
  ∀ k v, cache_peek c k = Some v → current_of h k = Some v.

(** ** Reads *)

Lemma get_version_by_id_Ok st h i :
  stores (db st) h → get_version_by_id i st = (st, Ok (hv h !! i)).
Proof.
  intros Hs. unfold get_version_by_id, get_cf. unfold_method. destruct (hv h !! i) as [v|] eqn:Hi.
  - rewrite (st_reverse _ _ Hs i v Hi). rewrite from_utf8_str_bytes, (st_meta _ _ Hs i v Hi).
    by rewrite meta_roundtrip.
  - by rewrite (st_fresh _ _ Hs i Hi).
Qed.

Lemma stored_current_Ok st h k :
  stores (db st) h → stored_current k st = (st, Ok (current_of h k)).
Proof.
  intros Hs. unfold stored_current, mbind, method_MBind, method_bind, get_cf.
  rewrite (st_current _ _ Hs). unfold current_of.
  destruct (hc h !! k) as [l|]; simpl; [|done]. destruct (last l) as [i|]; simpl; [|done].
  rewrite from_utf8_str_bytes. by apply get_version_by_id_Ok.
Qed.

Lemma mapM_versions st h l :
  stores (db st) h →
  method_mapM get_version_by_id l st = (st, Ok (map (λ i, hv h !! i) l)).
Proof.
  intros Hs. induction l as [|i l IH]; [done|]. cbn [method_mapM]. unfold method_bind.
  rewrite (get_version_by_id_Ok st h i Hs), IH. done.
Qed.

Lemma omap_id_map {A B} (f : A → option B) l : omap id (map f l) = omap f l.
Proof. induction l as [|x l IH]; [done|]. simpl. destruct (f x); simpl; [f_equal|]; exact IH. Qed.

Lemma get_version_chain_Ok st h s p :
  stores (db st) h →
  get_version_chain s p st = (st, Ok (sort_versions (versions_of h (sp_key s p)))).
Proof.
  intros Hs. unfold get_version_chain, mbind, method_MBind, method_bind, get_cf.
  rewrite (st_chain _ _ Hs). unfold versions_of. destruct (hc h !! sp_key s p) as [l|]; simpl; [|done].
  unfold lift. rewrite chain_roundtrip. simpl. rewrite (mapM_versions st h l Hs).
  by rewrite omap_id_map.
Qed.

Lemma find_version_at_Ok st h s p vt t :
  stores (db st) h → find_version_at s p vt t st = (st, Ok (version_at h (sp_key s p) vt t)).
Proof.
  intros Hs. unfold find_version_at, mbind, method_MBind, method_bind.
  by rewrite (get_version_chain_Ok st h s p Hs).
Qed.

Lemma find_current_version_Ok st h s p :
  stores (db st) h → coherent (cache st) h →
  ∃ st', find_current_version s p st = (st', Ok (current_of h (sp_key s p))) ∧
    stores (db st') h ∧ coherent (cache st') h.
Proof.
  intros Hs Hc. unfold find_current_version, mbind, method_MBind, method_bind, lookup_cache.
  pose proof (get_value (cache st) (sp_key s p)) as Hv.
  pose proof (λ k v, peek_get (cache st) (sp_key s p) k v) as Hp.
  destruct (cache_get (cache st) (sp_key s p)) as [c r] eqn:Hg. simpl in Hv, Hp. subst r.
  assert (Hc' : coherent c h) by (intros k v Hk; eauto).
  destruct (cache_peek (cache st) (sp_key s p)) as [v|] eqn:Hpeek.
  - eexists. split; [unfold mret, method_MRet, method_ret; by rewrite (Hc _ _ Hpeek)|done].
  - rewrite (stored_current_Ok {| db := db st; cache := c |} h) by done.
    destruct (current_of h (sp_key s p)) as [v|] eqn:Hcur; [|eexists; by split].
    eexists. split; [reflexivity|]. split; [done|]. intros k v' Hk. simpl in Hk.
    apply peek_put in Hk as [[-> ->]|[_ Hk]]; [done|eauto].
Qed.

(** ** Writes *)

Lemma idb_get_after d cf k v d' cf' k' :
  idb_put d cf k v = Ok d' →
  idb_get d' cf' k' = if decide ((cf', k') = (cf, k)) then Ok (Some v) else idb_get d cf' k'.
Proof.
  intros Hp. case_decide as Hk; [|by eapply idb_get_put_other].
  simplify_eq. by eapply idb_get_put.
Qed.

Lemma put_cf_inv cf k v st st' u :
  put_cf cf k v st = (st', Ok u) → idb_put (db st) cf k v = Ok (db st') ∧ cache st' = cache st.
Proof. unfold put_cf. destruct (idb_put _ _ _ _); intros ?; by simplify_eq. Qed.

(** The six writes of [index_version]. *)
Lemma index_version_inv triple i tx st st' :
  index_version triple i tx st = (st', Ok tt) →
  ∃ valid chain d1 d2 d3 d4 d5,
    let v := new_version triple i tx valid in
    let tk := tx_key (tx_seq tx) (tx_node_id tx) i in
    extract_valid_time triple = Ok valid ∧
    idb_put (db st) TxIndex (str_bytes tk) (meta_bytes v) = Ok d1 ∧
    idb_put d1 ReverseIndex (str_bytes i) (str_bytes tk) = Ok d2 ∧
    (∃ bytes, idb_get d2 VersionChains (str_bytes (version_key v)) = Ok bytes ∧
       chain = default [] (bytes ≫= chain_parse)) ∧
    idb_put d2 VersionChains (str_bytes (version_key v)) (chain_bytes (chain ++ [i])) = Ok d3 ∧
    idb_put d3 CurrentVersion (str_bytes (version_key v)) (str_bytes i) = Ok d4 ∧
    idb_put d4 ValidTime (str_bytes (time_key valid.1 (t_subject triple) (t_predicate triple)))
      (str_bytes i) = Ok d5 ∧
    idb_put d5 SystemTime
      (str_bytes (time_key (tx_timestamp tx) (t_subject triple) (t_predicate triple)))
      (str_bytes i) = Ok (db st') ∧
    cache st' = cache_pop (cache st) (version_key v).
Proof.
  unfold index_version. intros Hx. apply method_bind_Ok in Hx as (s0 & valid & Hv & Hx).
  unfold lift in Hv. simplify_eq. exists valid.
  apply method_bind_Ok in Hx as (s1 & [] & [Hp1 Hc1]%put_cf_inv & Hx).
  apply method_bind_Ok in Hx as (s2 & [] & [Hp2 Hc2]%put_cf_inv & Hx).
  apply method_bind_Ok in Hx as (s3 & chain & Hch & Hx). exists chain.
  unfold read_chain in Hch. apply method_bind_Ok in Hch as (s3' & bytes & Hget & Hch).
  unfold get_cf in Hget. injection Hget as <- Hget.
  unfold mret, method_MRet, method_ret in Hch. injection Hch as <- <-.
  apply method_bind_Ok in Hx as (s4 & [] & [Hp4 Hc4]%put_cf_inv & Hx).
  apply method_bind_Ok in Hx as (s5 & [] & [Hp5 Hc5]%put_cf_inv & Hx).
  apply method_bind_Ok in Hx as (s6 & [] & Hpop & Hx). unfold pop_cache, modify in Hpop. simplify_eq.
  apply method_bind_Ok in Hx as (s7 & [] & [Hp7 Hc7]%put_cf_inv & Hx).
  apply put_cf_inv in Hx as [Hp8 Hc8]. simpl in *.
  exists (db s1), (db s2), (db s4), (db s5), (db s7). split_and!; try done.
  - eexists. split; [exact Hget|done].
  - by rewrite Hc8, Hc7, Hc5, Hc4, Hc2, Hc1.
Qed.

(** A write to another column family is not seen. *)
Ltac skip_put P := rewrite (idb_get_after _ _ _ _ _ _ _ P), decide_False by congruence.

Lemma pair_decide {A} (cf : IndexCf) (k k' : list byte) (x y : A) :
  (if decide ((cf, k) = (cf, k')) then x else y) = if decide (k = k') then x else y.
Proof. repeat case_decide; congruence. Qed.

(** What each column family holds after [index_version]. *)
Lemma index_version_views triple i tx st st' h :
  stores (db st) h → index_version triple i tx st = (st', Ok tt) →
  ∃ valid,
    let v := new_version triple i tx valid in
    let tk := tx_key (tx_seq tx) (tx_node_id tx) i in
    extract_valid_time triple = Ok valid ∧
    (∀ k, idb_get (db st') ReverseIndex k =
       if decide (k = str_bytes i) then Ok (Some (str_bytes tk)) else idb_get (db st) ReverseIndex k) ∧
    (∀ k, idb_get (db st') TxIndex k =
       if decide (k = str_bytes tk) then Ok (Some (meta_bytes v)) else idb_get (db st) TxIndex k) ∧
    (∀ k, idb_get (db st') VersionChains k =
       if decide (k = str_bytes (version_key v))
       then Ok (Some (chain_bytes (default [] (hc h !! version_key v) ++ [i])))
       else idb_get (db st) VersionChains k) ∧
    (∀ k, idb_get (db st') CurrentVersion k =
       if decide (k = str_bytes (version_key v)) then Ok (Some (str_bytes i))
       else idb_get (db st) CurrentVersion k) ∧
    cache st' = cache_pop (cache st) (version_key v).
Proof.
  intros Hs Hx. apply index_version_inv in Hx as
    (valid & chain & d1 & d2 & d3 & d4 & d5 & Hv & P1 & P2 & (bytes & Hb & ->) & P3 & P4 & P5 & P6 & Hcache).
  exists valid. cbn zeta. set (v := new_version triple i tx valid) in *.
  assert (Hch : default [] (bytes ≫= chain_parse) = default [] (hc h !! version_key v)).
  { rewrite (idb_get_after _ _ _ _ _ _ _ P2), decide_False in Hb by congruence.
    rewrite (idb_get_after _ _ _ _ _ _ _ P1), decide_False in Hb by congruence.
    rewrite (st_chain _ _ Hs) in Hb. injection Hb as <-.
    destruct (hc h !! version_key v); simpl; [by rewrite chain_roundtrip|done]. }
  rewrite Hch in P3. split_and!; try done; intros k; skip_put P6; skip_put P5.
  - skip_put P4. skip_put P3. rewrite (idb_get_after _ _ _ _ _ _ _ P2), pair_decide.
    case_decide; [done|]. by skip_put P1.
  - skip_put P4. skip_put P3. skip_put P2. by rewrite (idb_get_after _ _ _ _ _ _ _ P1), pair_decide.
  - skip_put P4. rewrite (idb_get_after _ _ _ _ _ _ _ P3), pair_decide.
    case_decide; [done|]. skip_put P2. by skip_put P1.
  - rewrite (idb_get_after _ _ _ _ _ _ _ P4), pair_decide. case_decide; [done|].
    skip_put P3. skip_put P2. by skip_put P1.
Qed.

Lemma bytes_decide {A} (a b : string) (x y : A) :
  (if decide (str_bytes a = str_bytes b) then x else y) = if decide (a = b) then x else y.
Proof. repeat case_decide; try done; exfalso; [by auto using str_bytes_inj|congruence]. Qed.

(** A new version does not change what other keys have as current. *)
Lemma current_add_other v h k :
  hv h !! v_version_id v = None → k ≠ version_key v → ∀ w,
  current_of h k = Some w → current_of (add_version v h) k = Some w.
Proof.
  intros Hi Hk w. unfold current_of, add_version. simpl. rewrite lookup_insert_ne by done.
  destruct (last _) as [j|]; [|done]. simpl. intros Hj.
  rewrite lookup_insert_ne; [done|]. intros <-. congruence.
Qed.

Lemma index_version_stores triple i tx st st' h :
  stores (db st) h → coherent (cache st) h → hv h !! i = None →
  index_version triple i tx st = (st', Ok tt) →
  ∃ valid, extract_valid_time triple = Ok valid ∧
    stores (db st') (add_version (new_version triple i tx valid) h) ∧
    coherent (cache st') (add_version (new_version triple i tx valid) h).
Proof.
  intros Hs Hc Hi Hx. apply (index_version_views _ _ _ _ _ h) in Hx as
    (valid & Hv & GR & GT & GC & GU & Hcache); [|done].
  exists valid. split; [done|]. set (v := new_version triple i tx valid) in *.
  split; [split|]; cbn [add_version hv hc].
  - intros j [Hj Hne]%lookup_insert_None. rewrite GR, bytes_decide, decide_False by done.
    by apply (st_fresh _ _ Hs).
  - intros j w [[<- <-]|[Hne Hj]]%lookup_insert_Some; rewrite GR, bytes_decide.
    + by rewrite decide_True.
    + rewrite decide_False by done. by apply (st_reverse _ _ Hs).
  - intros j w [[<- <-]|[Hne Hj]]%lookup_insert_Some; rewrite GT, bytes_decide.
    + by rewrite decide_True.
    + rewrite decide_False; [by apply (st_meta _ _ Hs)|]. intros Hk. apply Hne.
      symmetry. by eapply tx_key_inj.
  - intros k. rewrite GC, bytes_decide. case_decide as Hk; [subst k; by rewrite lookup_insert_eq|].
    rewrite lookup_insert_ne by done. apply (st_chain _ _ Hs).
  - intros k. rewrite GU, bytes_decide. case_decide as Hk.
    + subst k. rewrite lookup_insert_eq. simpl. by rewrite last_snoc.
    + rewrite lookup_insert_ne by done. apply (st_current _ _ Hs).
  - intros k l j Hl Hj. apply lookup_insert_Some in Hl as [[<- <-]|[Hne Hl]].
    + apply elem_of_app in Hj as [Hj|Hj%list_elem_of_singleton].
      * destruct (hc h !! version_key v) as [l|] eqn:Hl; [|by apply elem_of_nil in Hj].
        destruct (st_chain_ok _ _ Hs _ l j Hl Hj) as (w & Hw & Hk). exists w.
        by rewrite lookup_insert_ne by (intros <-; simpl in Hw; congruence).
      * subst j. exists v. by rewrite lookup_insert_eq.
    + destruct (st_chain_ok _ _ Hs _ l j Hl Hj) as (w & Hw & Hk). exists w.
      by rewrite lookup_insert_ne by (intros <-; simpl in Hw; congruence).
  - intros j w [[<- <-]|[Hne Hj]]%lookup_insert_Some; [done|by apply (st_id _ _ Hs)].
  - intros k w Hk. rewrite Hcache in Hk. apply peek_pop in Hk as [Hne Hk].
    by apply current_add_other; [done|done|apply Hc].
Qed.

Lemma supersede_inv i t st st' h :
  stores (db st) h → supersede_version i t st = (st', Ok tt) →
  ∃ v, hv h !! i = Some v ∧
    idb_put (db st) TxIndex (str_bytes (tx_key (v_tx_seq v) (v_node_id v) i))
      (meta_bytes (set_tx_to (Some t) v)) = Ok (db st') ∧
    cache st' = cache_pop (cache st) (version_key v).
Proof.
  intros Hs Hx. unfold supersede_version in Hx.
  apply method_bind_Ok in Hx as (s1 & r & Hr & Hx). unfold get_cf in Hr. injection Hr as <- Hr.
  destruct (hv h !! i) as [v|] eqn:Hi.
  2:{ rewrite (st_fresh _ _ Hs i Hi) in Hr. injection Hr as <-. discriminate Hx. }
  rewrite (st_reverse _ _ Hs i v Hi) in Hr. injection Hr as <-.
  apply method_bind_Ok in Hx as (s2 & tk & Htk & Hx). unfold lift, ok_or in Htk. simplify_eq.
  rewrite from_utf8_str_bytes in Hx.
  apply method_bind_Ok in Hx as (s3 & r & Hr & Hx). unfold get_cf in Hr.
  rewrite (st_meta _ _ Hs i v Hi) in Hr. injection Hr as <- <-.
  apply method_bind_Ok in Hx as (s4 & bytes & Hb & Hx). unfold lift, ok_or in Hb. simplify_eq.
  apply method_bind_Ok in Hx as (s5 & w & Hw & Hx). unfold lift in Hw. rewrite meta_roundtrip in Hw.
  simpl in Hw. simplify_eq. apply method_bind_Ok in Hx as (s6 & [] & [Hp Hc]%put_cf_inv & Hx).
  unfold pop_cache, modify in Hx. simplify_eq. exists w. simpl. by rewrite Hc.
Qed.

Lemma set_tx_to_key i to v :
  tx_key (v_tx_seq (set_tx_to to v)) (v_node_id (set_tx_to to v)) i = tx_key (v_tx_seq v) (v_node_id v) i.
Proof. done. Qed.

Lemma supersede_version_stores i t st st' h :
  stores (db st) h → coherent (cache st) h → supersede_version i t st = (st', Ok tt) →
  stores (db st') (end_version i t h) ∧ coherent (cache st') (end_version i t h).
Proof.
  intros Hs Hc Hx. apply (supersede_inv _ _ _ _ h) in Hx as (v & Hi & P & Hcache); [|done].
  assert (Hlook : ∀ j w, alter (set_tx_to (Some t)) i (hv h) !! j = Some w →
    j = i ∧ w = set_tx_to (Some t) v ∨ j ≠ i ∧ hv h !! j = Some w).
  { intros j w. destruct (decide (i = j)) as [<-|Hne].
    - rewrite lookup_alter_eq, Hi. simpl. naive_solver.
    - rewrite lookup_alter_ne by done. naive_solver. }
  split; [split|]; cbn [end_version hv hc].
  - intros j. rewrite lookup_alter_None. skip_put P. apply (st_fresh _ _ Hs).
  - intros j w [[-> ->]|[Hne Hj]]%Hlook; skip_put P; [|by apply (st_reverse _ _ Hs)].
    rewrite set_tx_to_key. by apply (st_reverse _ _ Hs).
  - intros j w [[-> ->]|[Hne Hj]]%Hlook; rewrite (idb_get_after _ _ _ _ _ _ _ P), pair_decide, bytes_decide.
    + by rewrite set_tx_to_key, decide_True.
    + rewrite decide_False; [by apply (st_meta _ _ Hs)|]. intros Hk. apply Hne. by eapply tx_key_inj.
  - intros k. skip_put P. apply (st_chain _ _ Hs).
  - intros k. skip_put P. apply (st_current _ _ Hs).
  - intros k l j Hl Hj. destruct (st_chain_ok _ _ Hs k l j Hl Hj) as (w & Hw & Hk).
    destruct (decide (i = j)) as [<-|Hne].
    + exists (set_tx_to (Some t) w). rewrite lookup_alter_eq, Hw. done.
    + exists w. by rewrite lookup_alter_ne.
  - intros j w [[-> ->]|[Hne Hj]]%Hlook; [exact (st_id _ _ Hs i v Hi)|by apply (st_id _ _ Hs)].
  - intros k w Hk. rewrite Hcache in Hk. apply peek_pop in Hk as [Hne Hk]. apply Hc in Hk.
    unfold current_of in *. cbn [end_version hv hc]. destruct (hc h !! k) as [l|] eqn:Hl; [|done].
    simpl in *. destruct (last l) as [j|] eqn:Hj; [|done]. simpl in *.
    apply last_Some_elem_of in Hj. destruct (st_chain_ok _ _ Hs k l j Hl Hj) as (w' & Hw' & Hk').
    rewrite lookup_alter_ne; [done|]. intros <-. congruence.
Qed.

(** ** Runs *)

Definition empty_history : history := {| hv := ∅; hc := ∅ |}.

(** An index opened on an empty database. *)
Definition empty_index (st : TemporalIndexes) : Prop :=
  (∀ cf k, idb_get (db st) cf k = Ok None) ∧ ∀ k, cache_peek (cache st) k = None.

(** Successful calls and what they add to the history; version ids are new. *)
Inductive index_step : TemporalIndexes * history → TemporalIndexes * history → Prop :=
  | step_index triple i tx st st' h valid :
      hv h !! i = None → extract_valid_time triple = Ok valid →
      index_version triple i tx st = (st', Ok tt) →
      index_step (st, h) (st', add_version (new_version triple i tx valid) h)
  | step_supersede i t st st' h :
      supersede_version i t st = (st', Ok tt) → index_step (st, h) (st', end_version i t h)
  | step_find s p st st' h r :
      find_current_version s p st = (st', Ok r) → index_step (st, h) (st', h).

Definition refines (x : TemporalIndexes * history) : Prop :=
  stores (db x.1) x.2 ∧ coherent (cache x.1) x.2.

Lemma index_step_refines x y : index_step x y → refines x → refines y.
Proof.
  intros Hstep [Hs Hc]. destruct Hstep as [triple i tx st st' h valid Hi Hv Hx|i t st st' h Hx|s p st st' h r Hx].
  - destruct (index_version_stores triple i tx st st' h Hs Hc Hi Hx) as (valid' & Hv' & Hr).
    rewrite Hv in Hv'. simplify_eq. by destruct Hr.
  - by apply (supersede_version_stores _ _ _ _ _ Hs Hc) in Hx.
  - destruct (find_current_version_Ok st h s p Hs Hc) as (st1 & Hx' & Hr).
    simpl in Hx'. rewrite Hx in Hx'. by simplify_eq.
Qed.

Lemma empty_refines st : empty_index st → refines (st, empty_history).
Proof.
  intros [Hd Hk]. split; simpl.
  - by split; simpl; intros; rewrite ?lookup_empty in *.
  - intros k v Hv. by rewrite Hk in Hv.
Qed.

Lemma steps_refine x y : rtc index_step x y → refines x → refines y.
Proof. induction 1; eauto using index_step_refines. Qed.

(** The version last indexed. *)
Lemma current_last d h k : stores d h → current_of h k = last (versions_of h k).
Proof.
  intros Hs. unfold current_of, versions_of. destruct (hc h !! k) as [l|] eqn:Hl; [|done]. simpl.
  destruct (last l) as [i|] eqn:Hi; simpl.
  - apply last_Some in Hi as [l' ->]. destruct (st_chain_ok _ _ Hs k _ i Hl) as (v & Hv & _).
    { apply elem_of_app. right. left. }
    rewrite omap_app. simpl. by rewrite Hv, last_snoc.
  - apply last_None in Hi as ->. done.
Qed.

(** C32: reads answer from the history, cached or not.  New versions, each under a fresh
    identifier, superseded versions and lookups have run on a fresh index, one after
    another and with success.  When the version last indexed under the key is not
    superseded, [find_current_version] answers with it, with its present metadata,
    whether from the cache or from the database (the only version under the key that is
    not superseded, if the ones before it have been); and when nothing was indexed under
    the key, with nothing.  (Between superseding a version and
    indexing its successor there is no such version, and nothing is said of the
    answer.)  [get_version_chain] answers with all versions indexed under the key, in the
    order of their sequence numbers. *)
Theorem index_reads_history st st' h subject predicate :
  let k := sp_key subject predicate in
  empty_index st → rtc index_step (st, empty_history) (st', h) →
  (∀ older v, versions_of h k = older ++ [v] → is_current v = true →
     (find_current_version subject predicate st').2 = Ok (Some v)) ∧
  (versions_of h k = [] → (find_current_version subject predicate st').2 = Ok None) ∧
  get_version_chain subject predicate st' = (st', Ok (sort_versions (versions_of h k))) ∧
  Sorted (λ a b, v_tx_seq a ≤ v_tx_seq b) (sort_versions (versions_of h k)).
Proof.
  intros k He Hrtc. destruct (steps_refine _ _ Hrtc (empty_refines st He)) as [Hs Hc]. simpl in *.
  destruct (find_current_version_Ok st' h subject predicate Hs Hc) as (st2 & Hx & _).
  rewrite Hx, (current_last _ _ _ Hs). simpl. split_and!.
  - intros older v Hv _. fold k. by rewrite Hv, last_snoc.
  - fold k. by intros ->.
  - by apply get_version_chain_Ok.
  - apply sort_sorted.
Qed.

(** ** The past *)

(** A change after the system time [T]: a version recorded later, or the end,
    later, of a version that had none. *)
Inductive later_change (T : Z) : history → history → Prop :=
  | later_add v h :
      hv h !! v_version_id v = None → T < v_tx_from v → later_change T h (add_version v h)
  | later_end i t v h :
      hv h !! i = Some v → v_tx_to v = None → T < t → later_change T h (end_version i t h)
  | later_read h : later_change T h h.

Definition later_step (T : Z) (x y : TemporalIndexes * history) : Prop :=
  index_step x y ∧ later_change T x.2 y.2.

(** A version without the end of its transaction time. *)
Definition erase (v : VersionRef) : VersionRef := set_tx_to None v.

Lemma versions_add d v h k :
  stores d h → hv h !! v_version_id v = None →
  versions_of (add_version v h) k = versions_of h k ++ if decide (k = version_key v) then [v] else [].
Proof.
  intros Hs Hi.
  assert (Hold : ∀ l, hc h !! k = Some l →
    omap (λ i, <[v_version_id v := v]> (hv h) !! i) l = omap (λ i, hv h !! i) l).
  { intros l Hl. apply list_omap_ext, Forall_Forall2_diag, Forall_forall. intros i Hin.
    destruct (st_chain_ok _ _ Hs k l i Hl Hin) as (w & Hw & _).
    by rewrite lookup_insert_ne by (intros <-; congruence). }
  unfold versions_of, add_version. simpl. case_decide as Hk.
  - subst k. rewrite lookup_insert_eq. simpl. rewrite omap_app. simpl. rewrite lookup_insert_eq.
    f_equal. destruct (hc h !! version_key v) as [l|]; [by apply Hold|done].
  - rewrite lookup_insert_ne by done. rewrite app_nil_r.
    destruct (hc h !! k) as [l|]; [by apply Hold|done].
Qed.

(** The change of one version, on a list of versions. *)
Definition end_in (i : string) (t : Z) (w : VersionRef) : VersionRef :=
  if decide (v_version_id w = i) then set_tx_to (Some t) w else w.

Lemma versions_end d i t h k :
  stores d h → versions_of (end_version i t h) k = map (end_in i t) (versions_of h k).
Proof.
  intros Hs. unfold versions_of. simpl. induction (default [] (hc h !! k)) as [|j l IH]; [done|].
  simpl. destruct (decide (i = j)) as [<-|Hne].
  - rewrite lookup_alter_eq. destruct (hv h !! i) as [w|] eqn:Hi; simpl; [|exact IH].
    unfold end_in at 1. rewrite decide_True by (by apply (st_id _ _ Hs)). f_equal. exact IH.
  - rewrite lookup_alter_ne by done. destruct (hv h !! j) as [w|] eqn:Hj; simpl; [|exact IH].
    unfold end_in at 1. rewrite decide_False by (rewrite (st_id _ _ Hs j w Hj); done).
    f_equal. exact IH.
Qed.

Lemma later_change_keeps T d h h' k vt :
  stores d h → later_change T h h' → erase <$> version_at h' k vt T = erase <$> version_at h k vt T.
Proof.
  intros Hs Hl. unfold version_at. rewrite !filter_sort. destruct Hl as [v h Hi Hv|i t v h Hi Hto Ht|h];
    [| |done].
  - rewrite (versions_add d) by done. rewrite List.filter_app. case_decide; [|by rewrite app_nil_r].
    simpl. replace (existed_at v T) with false; [by rewrite andb_false_r, app_nil_r|].
    unfold existed_at. by rewrite (proj2 (Z.leb_gt _ _)).
  - rewrite (versions_end d) by done. rewrite filter_map_eq.
    + rewrite sort_map, max_map by (intros w; unfold end_in; by case_decide).
      rewrite <- option_fmap_compose. apply option_fmap_ext. intros w. unfold end_in, compose.
      by case_decide.
    + intros w Hw. unfold end_in. case_decide as Hid; [|done]. f_equal.
      assert (w = v) as ->.
      { apply list_elem_of_omap in Hw as (j & _ & Hj). pose proof (st_id _ _ Hs j w Hj). congruence. }
      unfold existed_at. simpl. rewrite Hto. by rewrite (proj2 (Z.ltb_lt _ _) Ht).
Qed.

(** C25: the past does not change: once the clock is past the system time [T],
    recording new versions and superseding current ones does not change what
    [find_version_at] answers about [T], for any valid time (except that the
    version it returns may since have got an end of its transaction time). *)
Theorem past_is_immutable T st st1 st2 h1 h2 subject predicate valid_time :
  empty_index st → rtc index_step (st, empty_history) (st1, h1) →
  rtc (later_step T) (st1, h1) (st2, h2) →
  ∃ r1 r2, find_version_at subject predicate valid_time T st1 = (st1, Ok r1) ∧
    find_version_at subject predicate valid_time T st2 = (st2, Ok r2) ∧
    erase <$> r1 = erase <$> r2.
Proof.
  intros He Hrtc Hlater. pose proof (steps_refine _ _ Hrtc (empty_refines st He)) as Hr.
  exists (version_at h1 (sp_key subject predicate) valid_time T),
    (version_at h2 (sp_key subject predicate) valid_time T).
  split; [by apply find_version_at_Ok, Hr|].
  cut (refines (st2, h2) ∧ erase <$> version_at h2 (sp_key subject predicate) valid_time T
       = erase <$> version_at h1 (sp_key subject predicate) valid_time T).
  { intros [[Hs _] Heq]. split; [by apply find_version_at_Ok|done]. }
  clear Hrtc He. change h1 with (st1, h1).2. change h2 with (st2, h2).2 at 2. revert Hr.
  induction Hlater as [x|x y z [Hxy Hc] Hyz IH]; intros Hr; [done|].
  pose proof (index_step_refines _ _ Hxy Hr) as Hy. destruct (IH Hy) as [Hz Heq]. split; [done|].
  rewrite Heq. destruct Hr as [Hs _]. by eapply later_change_keeps.
Qed.
End Refinement.

(** * Temporal indexes: an instance and concrete runs

    An association list as database, a map as cache and a codec that keep the
    laws of [TemporalIndexes.v]; the theorems applied to a key with two versions,
    and runs that show what the indexes do outside their conditions. *)

From Stdlib Require Import ZArith Lia.
From stdpp Require Import base numbers option strings gmap list relations countable.

Local Open Scope Z_scope.

Definition kv_list : Type := list ((IndexCf * list byte) * list byte).

Fixpoint kv_lookup (k : IndexCf * list byte) (l : kv_list) : option (list byte) :=
  match l with
  | [] => None
  | (k', v) :: l' => if decide (k = k') then Some v else kv_lookup k l'
  end.

#[export] Instance list_db : IndexDb := {|
  Idb := kv_list;
  idb_get d cf k := Ok (kv_lookup (cf, k) d);
  idb_put d cf k v := Ok (((cf, k), v) :: d);
|}.

#[export] Instance list_db_ok : IndexDbOk.
Proof.
  split.
  - intros d cf k v d' [= <-]. simpl. by rewrite decide_True.
  - intros d cf k v d' cf' k' [= <-] Hne. simpl. by rewrite decide_False.
Qed.

#[export] Instance map_cache : VersionCache := {|
  Cache := gmap string VersionRef;
  cache_get c k := (c, c !! k);
  cache_put c k v := <[k := v]> c;
  cache_pop c k := delete k c;
  cache_peek c k := c !! k;
|}.

#[export] Instance map_cache_ok : VersionCacheOk.
Proof.
  split; simpl; try done.
  - intros c k v k' v' [[<- <-]|[? ?]]%lookup_insert_Some; naive_solver.
  - intros c k k' v [? ?]%lookup_delete_Some. naive_solver.
Qed.

Definition version_tuple (v : VersionRef) :=
  (v_version_id v, v_subject v, v_predicate v, v_object v,
   (v_valid_from v, v_valid_to v, v_tx_from v, v_tx_to v, v_tx_seq v, v_node_id v)).

Definition tuple_version
    (t : string * string * string * string * (Z * option Z * Z * option Z * Z * Z)) : VersionRef :=
  let '(i, s, p, o, (vf, vt, tf, te, q, n)) := t in
  {| v_version_id := i; v_subject := s; v_predicate := p; v_object := o; v_valid_from := vf;
     v_valid_to := vt; v_tx_from := tf; v_tx_to := te; v_tx_seq := q; v_node_id := n |}.

#[export] Instance sample_index_codec : IndexCodec := {|
  meta_bytes v := pos_bytes (encode (version_tuple v));
  meta_parse bs := tuple_version <$> decode (bytes_pos bs);
  chain_bytes l := pos_bytes (encode l);
  chain_parse bs := decode (bytes_pos bs);
  parse_from_rfc3339 := i64_from_str;
|}.

#[export] Instance sample_index_codec_ok : IndexCodecOk.
Proof.
  split.
  - intros v. simpl. rewrite bytes_pos_bytes, decode_encode. by destruct v.
  - intros l. simpl. by rewrite bytes_pos_bytes, decode_encode.
Qed.

(** ** Two versions of a balance *)

Definition st_empty : TemporalIndexes := {| db := []; cache := ∅ |}.

Lemma st_empty_ok : empty_index st_empty.
Proof. split; [done|]. intros k. exact (lookup_empty (M := gmap string) k). Qed.

Definition balance (value : string) : AnnotatedTriple :=
  {| t_subject := "acc"; t_predicate := "balance"; t_object := value;
     t_annotations := [{| an_predicate := VALID_FROM; an_object := TypedLiteral "5" "dateTime" |};
                       {| an_predicate := VALID_TO; an_object := Literal "MAX" |}] |}.

Definition tx_at (seq t : Z) : TransactionId :=
  {| tx_seq := seq; tx_timestamp := t; tx_node_id := 1 |}.

(** The state a method leaves. *)
Definition after {A} (m : method TemporalIndexes string A) (st : TemporalIndexes) : TemporalIndexes :=
  (m st).1.

Definition st_one : TemporalIndexes := after (index_version (balance "10") "v1" (tx_at 1 100)) st_empty.
Definition st_ended : TemporalIndexes := after (supersede_version "v1" 200) st_one.
Definition st_two : TemporalIndexes := after (index_version (balance "20") "v2" (tx_at 2 200)) st_ended.

Definition first_version : VersionRef := new_version (balance "10") "v1" (tx_at 1 100) (5, None).
Definition second_version : VersionRef := new_version (balance "20") "v2" (tx_at 2 200) (5, None).

Definition h_one : history := add_version first_version empty_history.
Definition h_ended : history := end_version "v1" 200 h_one.
Definition h_two : history := add_version second_version h_ended.

Lemma after_Ok (m : method TemporalIndexes string unit) st :
  match (m st).2 with Ok _ => true | _ => false end = true → m st = (after m st, Ok tt).
Proof. unfold after. by destruct (m st) as [st' [[]|e|]]. Qed.

Lemma first_step : index_step (st_empty, empty_history) (st_one, h_one).
Proof.
  apply (step_index _ _ _ _ _ _ (5, None)); [reflexivity|reflexivity|].
  apply after_Ok. vm_compute. reflexivity.
Qed.

Lemma second_step : index_step (st_one, h_one) (st_ended, h_ended).
Proof. apply step_supersede, after_Ok. vm_compute. reflexivity. Qed.

Lemma third_step : index_step (st_ended, h_ended) (st_two, h_two).
Proof.
  apply (step_index _ _ _ _ _ _ (5, None)); [reflexivity|reflexivity|].
  apply after_Ok. vm_compute. reflexivity.
Qed.

Lemma index_reads_history_witness :
  (find_current_version "acc" "balance" st_two).2 = Ok (Some second_version) ∧
  get_version_chain "acc" "balance" st_two
    = (st_two, Ok (sort_versions (versions_of h_two (sp_key "acc" "balance")))) ∧
  Sorting.Sorted.Sorted (λ a b, v_tx_seq a ≤ v_tx_seq b)
    (sort_versions (versions_of h_two (sp_key "acc" "balance"))).
Proof.
  destruct (index_reads_history st_empty st_two h_two "acc" "balance" st_empty_ok) as (Hf & _ & Hc & Hs).
  - eapply rtc_l; [apply first_step|]. eapply rtc_l; [apply second_step|]. apply rtc_once, third_step.
  - split_and!; [|exact Hc|exact Hs].
    apply (Hf [set_tx_to (Some 200) first_version]); vm_compute; reflexivity.
Defined.

Lemma past_is_immutable_witness :
  ∃ r1 r2, find_version_at "acc" "balance" 50 150 st_one = (st_one, Ok r1) ∧
    find_version_at "acc" "balance" 50 150 st_two = (st_two, Ok r2) ∧
    erase <$> r1 = erase <$> r2.
Proof.
  apply (past_is_immutable 150 st_empty st_one st_two h_one h_two);
    [apply st_empty_ok|apply rtc_once, first_step|].
  eapply rtc_l; [|apply rtc_once].
  - split; [apply second_step|]. by apply (later_end _ _ _ first_version).
  - split; [apply third_step|]. by apply later_add.
Defined.

(** The balance as of the two system times. *)
Example balances_as_of :
  (option_map v_object <$> (find_version_at "acc" "balance" 50 150 st_two).2,
   option_map v_object <$> (find_version_at "acc" "balance" 50 250 st_two).2)
  = (Ok (Some "10"%string), Ok (Some "20"%string)).
Proof. vm_compute. reflexivity. Qed.

(** ** Outside the conditions *)

(** After a version is superseded and before the next is indexed, it is still
    reported as the current one. *)
Example superseded_still_current :
  option_map is_current <$> (find_current_version "acc" "balance" st_ended).2 = Ok (Some false).
Proof. vm_compute. reflexivity. Qed.

(** Superseding a version again moves the end of its transaction time, and with
    it the answer about a time in between. *)
Example superseded_twice :
  let again := after (supersede_version "v1" 900) st_ended in
  (option_map v_object <$> (find_version_at "acc" "balance" 50 500 st_ended).2,
   option_map v_object <$> (find_version_at "acc" "balance" 50 500 again).2)
  = (Ok None, Ok (Some "10"%string)).
Proof. vm_compute. reflexivity. Qed.

(** Two keys share a chain when a subject or predicate contains the separator. *)
Example keys_collide : sp_key "a|b" "c" = sp_key "a" "b|c".
Proof. reflexivity. Qed.

(** A lookup that has read the database puts an old version back into the cache
    after a concurrent writer has removed it, and it stays there. *)
Example stale_cache :
  let k := sp_key "acc" "balance" in
  let read := (stored_current k st_one).2 in
  let st := after (index_version (balance "20") "v2" (tx_at 2 200))
              (after (supersede_version "v1" 200) st_one) in
  match read with
  | Ok (Some old) =>
      let st := after (populate_cache k old) st in
      option_map v_object <$> (find_current_version "acc" "balance" st).2
  | _ => Ok None
  end = Ok (Some "10"%string).
Proof. vm_compute. reflexivity. Qed.

(** Transaction ids that compare as equal need not be equal. *)
Example tx_order_ignores_time :
  tx_cmp (tx_at 1 100) (tx_at 1 200) = Eq ∧ tx_at 1 100 ≠ tx_at 1 200.
Proof. split; [reflexivity|by intros [=]]. Qed.
