(* ===== verification/RustText.v ===== *)
(** * More of Rust's [str]: slices, searches by character, trimming

    The methods the RDF and SPARQL code uses beyond those of [RustStd], with the
    facts about trimming, first and last characters that its parsers rely on. *)

From Stdlib Require Import Ascii Lia.
From stdpp Require Import base numbers option strings list.
From S2P Require Import Prelude RustStd.

(** The double quote. *)
Definition dquote : ascii := "034"%char.

Definition str1 (c : ascii) : string := String c EmptyString.

(** [&s[a..b]]: panics when the range is not one of the string. *)
Definition str_slice {E} (a b : nat) (s : string) : result E string :=
  if decide (a ≤ b ≤ String.length s) then Ok (str_take (b - a) (str_drop a s)) else Panic.

(** [s.chars().any(p)]. *)
Definition str_any (p : ascii → bool) (s : string) : bool := negb (str_all (λ c, negb (p c)) s).

(** [s.chars().filter(p).collect()]. *)
Fixpoint str_filter (p : ascii → bool) (s : string) : string :=
  match s with
  | EmptyString => EmptyString
  | String c s' => if p c then String c (str_filter p s') else str_filter p s'
  end.

(** [s.find(c)] and [s.rfind(c)] for a character. *)
Fixpoint find_char (c : ascii) (s : string) : option nat :=
  match s with
  | EmptyString => None
  | String d s' => if Ascii.eqb c d then Some 0 else S <$> find_char c s'
  end.

Fixpoint rfind_char (c : ascii) (s : string) : option nat :=
  match s with
  | EmptyString => None
  | String d s' =>
      match rfind_char c s' with
      | Some i => Some (S i)
      | None => if Ascii.eqb c d then Some 0 else None
      end
  end.

(** [char::is_control], [is_ascii_alphabetic] and [is_ascii_alphanumeric]. *)
Definition is_control (c : ascii) : bool :=
  let n := nat_of_ascii c in (n <? 32) || (n =? 127).

Definition is_ascii_alphabetic (c : ascii) : bool :=
  let n := nat_of_ascii c in
  (65 <=? n) && (n <=? 90) || (97 <=? n) && (n <=? 122).

(** ** Facts *)

Lemma str_all_contains p c s :
  str_all p s = true → p c = false → str_contains_char c s = false.
Proof.
  intros Hs Hc. induction s as [|d s IH]; simpl in *; [done|].
  apply andb_true_iff in Hs as [Hd Hs]. rewrite IH by done.
  destruct (Ascii.eqb_spec c d); [congruence|done].
Qed.

Lemma contains_char_app c a b :
  str_contains_char c (a +:+ b) = str_contains_char c a || str_contains_char c b.
Proof. induction a as [|d a IH]; simpl; [done|]. by rewrite IH, orb_assoc. Qed.

Lemma contains_char_all c s :
  str_contains_char c s = false ↔ str_all (λ d, negb (Ascii.eqb c d)) s = true.
Proof.
  induction s as [|d s IH]; simpl; [done|].
  rewrite orb_false_iff, andb_true_iff, negb_true_iff, IH. done.
Qed.

Lemma find_char_app c a b :
  str_contains_char c a = false → find_char c (a +:+ String c b) = Some (String.length a).
Proof.
  induction a as [|d a IH]; simpl; [by rewrite Ascii.eqb_refl|].
  rewrite orb_false_iff. intros [-> ?]. by rewrite IH.
Qed.

Lemma find_char_Some c s i :
  find_char c s = Some i →
  ∃ a b, s = a +:+ String c b ∧ String.length a = i ∧ str_contains_char c a = false.
Proof.
  revert i. induction s as [|d s IH]; intros i; simpl; [done|].
  destruct (Ascii.eqb_spec c d) as [->|Hd].
  - intros [= <-]. by exists EmptyString, s.
  - destruct (find_char c s) as [j|]; simpl; [|done]. intros [= <-].
    destruct (IH j) as (a & b & -> & <- & Ha); [done|].
    exists (String d a), b. split_and!; [done..|]. simpl. rewrite Ha.
    by apply Ascii.eqb_neq in Hd as ->.
Qed.

Lemma find_char_None c s : find_char c s = None ↔ str_contains_char c s = false.
Proof.
  induction s as [|d s IH]; simpl; [done|].
  destruct (Ascii.eqb c d); simpl; [done|]. by rewrite fmap_None.
Qed.

Lemma str_slice_mid {E} (a b c : string) :
  str_slice (E := E) (String.length a) (String.length a + String.length b) (a +:+ (b +:+ c)) =
    Ok b.
Proof.
  unfold str_slice. rewrite decide_True by (rewrite !str_app_length; lia).
  rewrite str_drop_app. f_equal.
  replace (String.length a + String.length b - String.length a) with (String.length b) by lia.
  apply str_take_app.
Qed.

(** The string between its first and its last character. *)
Lemma str_slice_inner {E} c (b : string) d :
  str_slice (E := E) 1 (String.length (String c (b +:+ str1 d)) - 1) (String c (b +:+ str1 d)) =
    Ok b.
Proof.
  rewrite <- (str_slice_mid (E := E) (str1 c) b (str1 d)).
  f_equal. simpl. rewrite str_app_length. simpl. lia.
Qed.

Lemma ends_with_char s c : ends_with s (str1 c) = true ↔ ∃ r, s = r +:+ str1 c.
Proof. apply ends_with_iff. Qed.

Lemma ends_with_snoc s c d : ends_with (s +:+ str1 d) (str1 c) = Ascii.eqb d c.
Proof.
  induction s as [|x s IH]; simpl.
  - unfold str1. simpl. by destruct (Ascii.eqb d c).
  - destruct (s +:+ str1 d) as [|y r] eqn:E; [by destruct s|].
    unfold str1 in *. simpl. destruct (Ascii.eqb x c); simpl; exact IH.
Qed.

Lemma str_snoc_inj a b c d : a +:+ str1 c = b +:+ str1 d → a = b ∧ c = d.
Proof.
  revert b. induction a as [|x a IH]; intros [|y b]; simpl.
  - by intros [= ->].
  - intros [= _ E]. by destruct b.
  - intros [= _ E]. by destruct a.
  - intros [= -> E]. by apply IH in E as [-> ->].
Qed.

Lemma str_snoc_case s : s = EmptyString ∨ ∃ r c, s = r +:+ str1 c.
Proof.
  induction s as [|x s [->|(r & c & ->)]]; [by left|..]; right.
  - by exists EmptyString, x.
  - by exists (String x r), c.
Qed.

(** *** Trimming *)

Lemma trim_start_idemp s : trim_start (trim_start s) = trim_start s.
Proof.
  induction s as [|c s IH]; simpl; [done|].
  destruct (is_whitespace c) eqn:E; [done|]. simpl. by rewrite E.
Qed.

Lemma trim_end_snoc s c :
  trim_end (s +:+ str1 c) = if is_whitespace c then trim_end s else s +:+ str1 c.
Proof.
  induction s as [|x s IH]; simpl; [done|]. rewrite IH.
  destruct (is_whitespace c) eqn:E; [done|].
  by destruct s.
Qed.

(** A string whose first and last characters are not white space. *)
Lemma trim_id c s d :
  is_whitespace c = false → is_whitespace d = false →
  trim (String c (s +:+ str1 d)) = String c (s +:+ str1 d).
Proof.
  intros Hc Hd. unfold trim. simpl. rewrite Hc.
  change (String c (s +:+ str1 d)) with (String c s +:+ str1 d) at 1.
  rewrite trim_end_snoc, Hd. done.
Qed.

Lemma trim_id1 c : is_whitespace c = false → trim (str1 c) = str1 c.
Proof. intros Hc. unfold trim, str1. simpl. rewrite Hc. simpl. by rewrite Hc. Qed.

(** A word without white space. *)
Lemma trim_end_word s :
  str_all (λ c, negb (is_whitespace c)) s = true → trim_end s = s.
Proof.
  destruct (str_snoc_case s) as [->|(r & c & ->)]; [done|].
  rewrite str_all_app, trim_end_snoc. simpl. rewrite andb_true_r, andb_true_iff, negb_true_iff.
  by intros [_ ->].
Qed.

Lemma trim_word s : str_all (λ c, negb (is_whitespace c)) s = true → trim s = s.
Proof.
  intros Hs. unfold trim. destruct s as [|c s]; [done|]. simpl.
  pose proof Hs as Hc. simpl in Hc. apply andb_true_iff in Hc as [Hc _].
  apply negb_true_iff in Hc. rewrite Hc. by apply trim_end_word.
Qed.

(** Trimming leaves nothing to trim. *)
Lemma trim_start_head s c r : trim_start s = String c r → is_whitespace c = false.
Proof.
  induction s as [|d s IH]; simpl; [done|].
  destruct (is_whitespace d) eqn:E; [done|]. by intros [= <- <-].
Qed.

Lemma trim_end_idemp s : trim_end (trim_end s) = trim_end s.
Proof.
  induction s as [|c s IH]; [done|]. simpl.
  destruct (trim_end s) as [|d t] eqn:E.
  - destruct (is_whitespace c) eqn:Ec; simpl; [done|]. by rewrite Ec.
  - change (trim_end (String c (String d t))) with
      (match trim_end (String d t) with
       | EmptyString => if is_whitespace c then EmptyString else String c EmptyString
       | t' => String c t' end).
    by rewrite IH.
Qed.

Lemma trim_end_head s c r : trim_end s = String c r → ∃ r', s = String c r'.
Proof.
  destruct s as [|d s]; simpl; [done|].
  destruct (trim_end s); [destruct (is_whitespace d)|]; intros; simplify_eq; eauto.
Qed.

Lemma trim_idemp s : trim (trim s) = trim s.
Proof.
  unfold trim. destruct (trim_end (trim_start s)) as [|c r] eqn:E; [done|].
  assert (trim_start (String c r) = String c r) as ->.
  { apply trim_end_head in E as [r' E]. simpl. by apply trim_start_head in E as ->. }
  rewrite <- E. apply trim_end_idemp.
Qed.

(** * Splitting texts at a character, integers of a width as text

    [split_once], [rfind] and [splitn] of Rust's [str] for a single character,
    [trim_start_matches], and [parse] for the integer types beyond [i64]. *)

From Stdlib Require Import ZArith Lia Ascii DecimalString DecimalPos DecimalZ.

(** What is before and after the position of a separator. *)
Definition cut_at (s : string) (i : nat) : string * string := (str_take i s, str_drop (S i) s).

(** [s.split_once(c)]. *)
Definition split_once (c : ascii) (s : string) : option (string * string) :=
  cut_at s <$> find_char c s.

(** The same at the last position. *)
Definition rsplit_once (c : ascii) (s : string) : option (string * string) :=
  cut_at s <$> rfind_char c s.

(** [s.splitn(n, c)]. *)
Fixpoint splitn (n : nat) (c : ascii) (s : string) : list string :=
  match n with
  | O => []
  | 1 => [s]
  | S n' =>
      match split_once c s with
      | None => [s]
      | Some (a, b) => a :: splitn n' c b
      end
  end.

(** [s.trim_start_matches(c)]. *)
Fixpoint trim_start_char (c : ascii) (s : string) : string :=
  match s with
  | String d s' => if Ascii.eqb c d then trim_start_char c s' else s
  | EmptyString => EmptyString
  end.

Local Open Scope Z_scope.

(** [str::parse::<u64>]: an optional plus sign and digits. *)
Definition u64_from_str (s : string) : option Z :=
  z ← match s with
      | String "+" r => parse_digits r
      | _ => parse_digits s
      end;
  if z <=? 2 ^ 64 - 1 then Some z else None.

(** [str::parse::<i32>]. *)
Definition i32_from_str (s : string) : option Z :=
  z ← i64_from_str s; if (- 2 ^ 31 <=? z) && (z <=? 2 ^ 31 - 1) then Some z else None.

(** ** Facts *)

Lemma string_of_digits (d : Decimal.uint) :
  str_all (λ c, negb (Ascii.eqb c ":" || Ascii.eqb c "p" || Ascii.eqb c "o" || Ascii.eqb c "r"))
    (NilEmpty.string_of_uint d) = true.
Proof. by induction d. Qed.

(** The decimal text of a number is a sign and digits: it has none of the
    separators of a key. *)
Lemma i64_to_string_plain z :
  str_all (λ c, negb (Ascii.eqb c ":" || Ascii.eqb c "p" || Ascii.eqb c "o" || Ascii.eqb c "r"))
    (i64_to_string z) = true.
Proof.
  unfold i64_to_string. destruct z as [|p|p]; [done| |]; cbn [Z.to_int NilZero.string_of_int];
    pose proof (string_of_digits (Pos.to_uint p)); unfold NilZero.string_of_uint;
    by destruct (Pos.to_uint p).
Qed.

Lemma u64_from_to_string z : 0 ≤ z < 2 ^ 64 → u64_from_str (i64_to_string z) = Some z.
Proof.
  intros Hz. unfold u64_from_str, i64_to_string.
  destruct z as [|p|p]; [done| |lia]. simpl Z.to_int. cbn [NilZero.string_of_int].
  pose proof (string_of_uint_head (Pos.to_uint p)) as Hh.
  assert (parse_digits (NilZero.string_of_uint (Pos.to_uint p)) = Some (Zpos p)) as Hp.
  { rewrite parse_digits_to_string by apply pos_to_uint_nonnil.
    f_equal. apply (DecimalZ.of_to (Zpos p)). }
  assert ((Z.pos p <=? 2 ^ 64 - 1) = true) as Hle by (apply Z.leb_le; lia).
  destruct (NilZero.string_of_uint (Pos.to_uint p)) as [|c r];
    [by rewrite Hp; simpl; rewrite Hle|].
  destruct c as [[][][][][][][][]]; try done; rewrite Hp; simpl; by rewrite Hle.
Qed.

Lemma i32_from_to_string z :
  - 2 ^ 31 ≤ z ≤ 2 ^ 31 - 1 → i32_from_str (i64_to_string z) = Some z.
Proof.
  intros Hz. unfold i32_from_str.
  rewrite i64_from_to_string by (apply in_i64_spec; unfold i64_min, i64_max; lia). simpl.
  by rewrite !(proj2 (Z.leb_le _ _)) by lia.
Qed.

Close Scope Z_scope.

Lemma cut_at_app c a b : cut_at (a +:+ String c b) (String.length a) = (a, b).
Proof.
  unfold cut_at. rewrite str_take_app. f_equal.
  replace (a +:+ String c b) with ((a +:+ str1 c) +:+ b) by by rewrite str_app_assoc.
  replace (S (String.length a)) with (String.length (a +:+ str1 c))
    by (rewrite str_app_length; simpl; lia).
  apply str_drop_app.
Qed.

Lemma split_once_app c a b :
  str_contains_char c a = false → split_once c (a +:+ String c b) = Some (a, b).
Proof. intros Ha. unfold split_once. by rewrite find_char_app, <- (cut_at_app c a b). Qed.

Lemma rfind_char_app c a b :
  str_contains_char c b = false → rfind_char c (a +:+ String c b) = Some (String.length a).
Proof.
  intros Hb. induction a as [|d a IH]; simpl.
  - rewrite Ascii.eqb_refl. enough (rfind_char c b = None) as -> by done.
    induction b as [|e b IH]; [done|]. simpl in *. apply orb_false_iff in Hb as [-> Hb].
    by rewrite IH.
  - unfold String.app in *. by rewrite IH.
Qed.

Lemma rsplit_once_app c a b :
  str_contains_char c b = false → rsplit_once c (a +:+ String c b) = Some (a, b).
Proof. intros Hb. unfold rsplit_once. by rewrite rfind_char_app, <- (cut_at_app c a b). Qed.

Lemma trim_start_char_plain c s : str_contains_char c s = false → trim_start_char c s = s.
Proof. destruct s as [|d s]; [done|]. simpl. by intros [-> _]%orb_false_iff. Qed.

Lemma i64_to_string_no c z :
  Ascii.eqb c ":" || Ascii.eqb c "p" || Ascii.eqb c "o" || Ascii.eqb c "r" = true →
  str_contains_char c (i64_to_string z) = false.
Proof.
  intros Hc. eapply str_all_contains; [apply i64_to_string_plain|]. simpl. by rewrite Hc.
Qed.

(** The parts joined by a separator none of them has are the parts of the split. *)
Lemma split_char_of_join c ps :
  ps ≠ [] → Forall (λ p, str_contains_char c p = false) ps → split_char c (str_join c ps) = ps.
Proof.
  induction ps as [|p ps IH]; [done|]. intros _ [Hp Hps]%Forall_cons.
  assert (∀ q r, str_contains_char c q = false →
            split_char c (q +:+ String c r) = q :: split_char c r) as Hsep.
  { intros q r. induction q as [|d q IHq]; simpl.
    - intros _. destruct (split_char c r) eqn:E; [by apply split_char_nonempty in E|].
      by rewrite Ascii.eqb_refl.
    - intros [Hd Hq]%orb_false_iff. unfold String.app in *. by rewrite IHq, Hd by done. }
  destruct ps as [|p' ps].
  - simpl. clear IH Hps Hsep. induction p as [|d p IH]; [done|]. simpl in *.
    apply orb_false_iff in Hp as [Hd Hp]. rewrite IH by done. by rewrite Hd.
  - change (str_join c (p :: p' :: ps)) with (p +:+ String c (str_join c (p' :: ps))).
    rewrite Hsep by done. by rewrite IH.
Qed.

(** * Texts for concrete runs

    An encoding of any countable value as a text, for instances of the parameters
    that stand for serialization. *)

From Stdlib Require Import Ascii.
From stdpp Require Import base numbers option strings countable list.

Fixpoint pos_text (p : positive) : string :=
  match p with
  | xH => EmptyString
  | xO p' => String "0" (pos_text p')
  | xI p' => String "1" (pos_text p')
  end.

Fixpoint text_pos (s : string) : positive :=
  match s with
  | EmptyString => xH
  | String c s' => if Ascii.eqb c "1" then xI (text_pos s') else xO (text_pos s')
  end.

Lemma text_pos_text p : text_pos (pos_text p) = p.
Proof. induction p as [p IH|p IH|]; simpl; by rewrite ?IH. Qed.

Definition enc_text {A} `{Countable A} (a : A) : string := pos_text (encode a).
Definition dec_text {A} `{Countable A} (s : string) : option A := decode (text_pos s).

Lemma dec_enc_text {A} `{Countable A} (a : A) : dec_text (enc_text a) = Some a.
Proof. unfold dec_text, enc_text. rewrite text_pos_text. apply decode_encode. Qed.
