(* ===== verification/RdfTerm.v ===== *)
(** * RDF terms: parsing, normalizing and validating

    Models [governance/shard_coordinator/rdf/] of the coordinator: [datatype.rs],
    [language.rs], [literal.rs] and [term.rs].  Text in N-Triples syntax becomes a
    typed term, and three terms become the triple sent to a shard.  The context
    anyhow adds to an error is left out: an error is its root cause. *)

From Stdlib Require Import Ascii Lia.
From stdpp Require Import base numbers option strings list.
From S2P Require Import Prelude RustStd RustText.

(** ** XSD data types *)

Definition XSD_TYPES : list string :=
  ["integer"; "int"; "long"; "short"; "byte"; "decimal"; "float"; "double";
   "positiveInteger"; "negativeInteger"; "nonPositiveInteger"; "nonNegativeInteger";
   "unsignedLong"; "unsignedInt"; "unsignedShort"; "unsignedByte";
   "string"; "normalizedString"; "token"; "boolean";
   "dateTime"; "date"; "time"; "gYear"; "gYearMonth"; "gMonthDay"; "gDay"; "gMonth"; "duration";
   "hexBinary"; "base64Binary"; "anyURI"].

(** The local name of an IRI, a prefixed name or a bare name. *)
Definition xsd_local_name (datatype : string) : string :=
  match rfind_char "#" datatype with
  | Some hash_pos => str_drop (hash_pos + 1) datatype
  | None => if starts_with datatype "xsd:" then str_drop 4 datatype else datatype
  end.

Definition is_valid_xsd_datatype (datatype : string) : bool :=
  bool_decide (xsd_local_name datatype ∈ XSD_TYPES).

Definition expand_xsd_datatype (datatype : string) : option string :=
  let local_name := if starts_with datatype "xsd:" then str_drop 4 datatype else datatype in
  if is_valid_xsd_datatype local_name
  then Some ("http://www.w3.org/2001/XMLSchema#" +:+ local_name)
  else None.

(** ** Language tags *)

Definition valid_primary (primary : string) : bool :=
  (2 <=? String.length primary) && (String.length primary <=? 3) &&
  str_all is_ascii_alphabetic primary.

Definition valid_subtag (subtag : string) : bool :=
  negb (String.eqb subtag "") &&
  ((2 <=? String.length subtag) && (String.length subtag <=? 8)) &&
  str_all is_alphanumeric subtag.

Definition is_valid_language_tag (tag : string) : bool :=
  if String.eqb tag "" then false
  else match split_char "-" tag with
       | [] => false
       | primary :: subtags => valid_primary primary && forallb valid_subtag subtags
       end.

(** ** Errors *)

Inductive RdfError : Type :=
  | EmptyRdfObject
  | UriMissingBracket
  | EmptyUri
  | UriIllegalBracket
  | UriWhitespace
  | BlankNodeTooShort
  | BlankNodeEmptyLabel
  | BlankNodeInvalidLabel
  | LiteralWithoutQuote
  | UnterminatedLiteral
  | DatatypeMissingBracket
  | EmptyDatatype
  | EmptyLanguage
  | InvalidLanguage (language : string)
  | UnexpectedCharacters (remaining : string)
  | LiteralNotEnclosed
  | UriTooLong
  | LiteralTooLong
  | DatatypeTooLong
  | LanguageTooLong
  | BlankNodeLabelTooShort
  | BlankNodeLabelTooLong
  | SubjectIsLiteral
  | PredicateNotUri.

#[global] Instance RdfError_eq_dec : EqDecision RdfError.
Proof. solve_decision. Defined.

(** ** Parsing *)

(** Value, data type and language of an object. *)
Definition parts : Type := string * string * string.

Definition parse_uri_reference (input : string) : result RdfError parts :=
  if negb (ends_with input ">") then Err UriMissingBracket
  else
    uri ← str_slice 1 (String.length input - 1) input;
    if String.eqb uri "" then Err EmptyUri
    else if str_contains_char "<" uri || str_contains_char ">" uri then Err UriIllegalBracket
    else if str_any is_whitespace uri then Err UriWhitespace
    else Ok (input, "", "").

Definition parse_blank_node (input : string) : result RdfError parts :=
  if String.length input <? 3 then Err BlankNodeTooShort
  else
    let label := str_drop 2 input in
    if String.eqb label "" then Err BlankNodeEmptyLabel
    else if negb (str_all (λ c, is_alphanumeric c || Ascii.eqb c "_") label)
    then Err BlankNodeInvalidLabel
    else Ok (input, "", "").

(** The loop of [parse_literal] up to the closing quote: the characters pushed,
    and those left in the iterator. *)
Fixpoint scan_literal (escaped : bool) (chars : string) : string * string :=
  match chars with
  | EmptyString => (EmptyString, EmptyString)
  | String ch chars' =>
      if escaped then let '(v, rest) := scan_literal false chars' in (String ch v, rest)
      else if Ascii.eqb ch "\"
      then let '(v, rest) := scan_literal true chars' in (String ch v, rest)
      else if Ascii.eqb ch dquote then (str1 ch, chars')
      else let '(v, rest) := scan_literal false chars' in (String ch v, rest)
  end.

(** The part after [^^]. *)
Definition parse_datatype (datatype_part : string) : result RdfError string :=
  if starts_with datatype_part "<" then
    if negb (ends_with datatype_part ">") then Err DatatypeMissingBracket
    else str_slice 1 (String.length datatype_part - 1) datatype_part
  else if String.eqb datatype_part "" then Err EmptyDatatype
  else Ok datatype_part.

Definition parse_literal (input : string) : result RdfError parts :=
  match input with
  | EmptyString => Err LiteralWithoutQuote
  | String c chars =>
      if negb (Ascii.eqb c dquote) then Err LiteralWithoutQuote
      else
        let '(pushed, remaining) := scan_literal false chars in
        let value := String dquote pushed in
        if negb (ends_with value (str1 dquote)) then Err UnterminatedLiteral
        else if starts_with remaining "^^" then
          datatype ← parse_datatype (str_drop 2 remaining);
          Ok (value, datatype, "")
        else if starts_with remaining "@" then
          let language := str_drop 1 remaining in
          if String.eqb language "" then Err EmptyLanguage
          else if negb (is_valid_language_tag language) then Err (InvalidLanguage language)
          else Ok (value, "", language)
        else if negb (String.eqb remaining "") then Err (UnexpectedCharacters remaining)
        else Ok (value, "", "")
  end.

Definition parse_rdf_object (input : string) : result RdfError parts :=
  let trimmed := trim input in
  if String.eqb trimmed "" then Err EmptyRdfObject
  else if starts_with trimmed "<" then parse_uri_reference trimmed
  else if starts_with trimmed "_:" then parse_blank_node trimmed
  else if starts_with trimmed (str1 dquote) then parse_literal trimmed
  else Ok (trimmed, "", "").

(** ** Terms *)

Inductive RdfTerm : Type :=
  | Uri (uri : string)
  | Literal (value datatype language : string)
  | BlankNode (label : string).

#[global] Instance RdfTerm_eq_dec : EqDecision RdfTerm.
Proof. solve_decision. Defined.

(** The character an escape stands for; [None] keeps the backslash. *)
Definition unescape_char (c : ascii) : option ascii :=
  if Ascii.eqb c dquote then Some dquote
  else if Ascii.eqb c "\" then Some "\"%char
  else if Ascii.eqb c "n" then Some "010"%char
  else if Ascii.eqb c "t" then Some "009"%char
  else if Ascii.eqb c "r" then Some "013"%char
  else if Ascii.eqb c "b" then Some "008"%char
  else if Ascii.eqb c "f" then Some "012"%char
  else None.

Fixpoint unescape (inner : string) : string :=
  match inner with
  | EmptyString => EmptyString
  | String ch rest =>
      if Ascii.eqb ch "\" then
        match rest with
        | EmptyString => "\"
        | String c rest' =>
            match unescape_char c with
            | Some u => String u (unescape rest')
            | None => String "\" (String c (unescape rest'))
            end
        end
      else String ch (unescape rest)
  end.

Definition normalize_literal_value (quoted : string) : result RdfError string :=
  if negb (starts_with quoted (str1 dquote)) || negb (ends_with quoted (str1 dquote))
  then Err LiteralNotEnclosed
  else
    inner ← str_slice 1 (String.length quoted - 1) quoted;
    Ok (unescape inner).

(** [RdfTerm::parse]. *)
Definition parse (input : string) : result RdfError RdfTerm :=
  '(value, datatype, language) ← parse_rdf_object input;
  if starts_with value "<" && ends_with value ">" then
    uri ← str_slice 1 (String.length value - 1) value;
    Ok (Uri uri)
  else if starts_with value "_:" then Ok (BlankNode value)
  else if starts_with value (str1 dquote) && ends_with value (str1 dquote) then
    normalized_value ← normalize_literal_value value;
    Ok (Literal normalized_value datatype language)
  else Ok (Literal value datatype language).

Definition as_proto_object (t : RdfTerm) : parts :=
  match t with
  | Uri uri => (uri, "", "")
  | Literal value datatype language => (value, datatype, language)
  | BlankNode label => (label, "", "")
  end.

(** The limits are in bytes. *)
Definition validate_for_grpc (t : RdfTerm) : result RdfError unit :=
  match t with
  | Uri uri =>
      if String.eqb uri "" then Err EmptyUri
      else if (65536 <? str_size uri)%Z then Err UriTooLong
      else Ok tt
  | Literal value datatype language =>
      if (1048576 <? str_size value)%Z then Err LiteralTooLong
      else if (1024 <? str_size datatype)%Z then Err DatatypeTooLong
      else if (35 <? str_size language)%Z then Err LanguageTooLong
      else Ok tt
  | BlankNode label =>
      if (str_size label <? 3)%Z then Err BlankNodeLabelTooShort
      else if (1024 <? str_size label)%Z then Err BlankNodeLabelTooLong
      else Ok tt
  end.

Definition term_type (t : RdfTerm) : string :=
  match t with
  | Uri _ => "URI"
  | Literal _ _ _ => "Literal"
  | BlankNode _ => "BlankNode"
  end.

(** [RdfTerm::value]. *)
Definition term_value (t : RdfTerm) : string :=
  match t with
  | Uri uri => uri
  | Literal value _ _ => value
  | BlankNode label => label
  end.

(** ** Triples *)

(** The protobuf message [Triple]. *)
Record Triple : Type := {
  subject : string;
  predicate : string;
  object : string;
  object_datatype : string;
  object_language : string;
  graph : string;
}.

#[global] Instance Triple_eq_dec : EqDecision Triple.
Proof. solve_decision. Defined.

Definition subject_value (t : RdfTerm) : result RdfError string :=
  match t with
  | Uri uri => Ok uri
  | BlankNode label => Ok label
  | Literal _ _ _ => Err SubjectIsLiteral
  end.

Definition predicate_value (t : RdfTerm) : result RdfError string :=
  match t with
  | Uri uri => Ok uri
  | _ => Err PredicateNotUri
  end.

Definition build_validated_triple (s p o : string) (g : option string) : result RdfError Triple :=
  subject_term ← parse s;
  predicate_term ← parse p;
  object_term ← parse o;
  _ ← validate_for_grpc subject_term;
  _ ← validate_for_grpc predicate_term;
  _ ← validate_for_grpc object_term;
  sv ← subject_value subject_term;
  pv ← predicate_value predicate_term;
  let '(ov, odt, ol) := as_proto_object object_term in
  Ok {| subject := sv; predicate := pv; object := ov; object_datatype := odt;
        object_language := ol; graph := default "" g |}.

(** * RDF terms are read back as they are written, and only they are sent

    What the parser of [RdfTerm.v] does on every input: it reads back the
    N-Triples text of a term, panics on one input only, and the triples that
    reach a shard have a bracketed predicate and a subject that is not a
    literal. *)

(** ** Writing terms *)

(** The letter of the escape of a character, when N-Triples escapes it. *)
Definition escape_letter (c : ascii) : option ascii :=
  if Ascii.eqb c dquote then Some dquote
  else if Ascii.eqb c "\" then Some "\"%char
  else if Ascii.eqb c "010" then Some "n"%char
  else if Ascii.eqb c "009" then Some "t"%char
  else if Ascii.eqb c "013" then Some "r"%char
  else if Ascii.eqb c "008" then Some "b"%char
  else if Ascii.eqb c "012" then Some "f"%char
  else None.

Fixpoint escape (value : string) : string :=
  match value with
  | EmptyString => EmptyString
  | String c value' =>
      match escape_letter c with
      | Some e => String "\" (String e (escape value'))
      | None => String c (escape value')
      end
  end.

(** The suffix of a literal. *)
Definition print_suffix (datatype language : string) : string :=
  if negb (String.eqb datatype "") then "^^<" +:+ (datatype +:+ ">")
  else if negb (String.eqb language "") then "@" +:+ language
  else "".

(** The N-Triples text of a term. *)
Definition print_term (t : RdfTerm) : string :=
  match t with
  | Uri uri => String "<" (uri +:+ ">")
  | Literal value datatype language =>
      String dquote (escape value +:+ String dquote (print_suffix datatype language))
  | BlankNode label => label
  end.

(** IRIs that can be written between brackets. *)
Definition clean_uri (uri : string) : bool :=
  negb (String.eqb uri "") &&
  str_all (λ c, negb (Ascii.eqb "<" c) && negb (Ascii.eqb ">" c) && negb (is_whitespace c)) uri.

(** Labels of blank nodes. *)
Definition clean_label (label : string) : bool :=
  starts_with label "_:" && negb (String.eqb (str_drop 2 label) "") &&
  str_all (λ c, is_alphanumeric c || Ascii.eqb c "_") (str_drop 2 label).

(** Terms of RDF: a literal has a data type or a language, or neither. *)
Definition wf_term (t : RdfTerm) : bool :=
  match t with
  | Uri uri => clean_uri uri
  | Literal _ datatype language =>
      String.eqb language "" || String.eqb datatype "" && is_valid_language_tag language
  | BlankNode label => clean_label label
  end.

(** ** Escapes *)

Lemma escape_letter_spec c :
  match escape_letter c with
  | Some e => unescape_char e = Some c
  | None => Ascii.eqb c dquote = false ∧ Ascii.eqb c "\" = false
  end.
Proof. destruct c as [[][][][][][][][]]; vm_compute; auto. Qed.

Lemma unescape_escape value : unescape (escape value) = value.
Proof.
  induction value as [|c value IH]; [done|]. simpl.
  pose proof (escape_letter_spec c) as Hc. destruct (escape_letter c) as [e|]; simpl.
  - by rewrite Hc, IH.
  - destruct Hc as [_ ->]. by rewrite IH.
Qed.

(** The scan of a literal stops at the quote that was added. *)
Lemma scan_escape value rest :
  scan_literal false (escape value +:+ String dquote rest) =
    (escape value +:+ str1 dquote, rest).
Proof.
  induction value as [|c value IH]; [done|]. simpl.
  pose proof (escape_letter_spec c) as Hc. destruct (escape_letter c) as [e|]; simpl.
  - by rewrite IH.
  - destruct Hc as [-> ->]. by rewrite IH.
Qed.

(** ** Enclosed strings *)

Lemma starts_with_char s c : starts_with s (str1 c) = true ↔ ∃ r, s = String c r.
Proof. rewrite starts_with_iff. unfold str1. simpl. naive_solver. Qed.

Lemma starts_with_cons x s c : starts_with (String x s) (str1 c) = Ascii.eqb c x.
Proof.
  apply Bool.eq_iff_eq_true. rewrite starts_with_char, Ascii.eqb_eq. naive_solver.
Qed.

Lemma starts_with_other x s c p : c ≠ x → starts_with (String x s) (String c p) = false.
Proof.
  intros Hc. apply not_true_iff_false. rewrite starts_with_iff. intros [r [= ? _]]. done.
Qed.

Lemma enclosed_case s c d :
  starts_with s (str1 c) = true → ends_with s (str1 d) = true →
  (s = str1 c ∧ c = d) ∨ ∃ b, s = String c (b +:+ str1 d).
Proof.
  intros [r ->]%starts_with_char [a Ha]%ends_with_char.
  destruct a as [|x a]; injection Ha as -> ->; [by left|]. right. by exists a.
Qed.

Lemma ends_with_cons_snoc x b d e : ends_with (String x (b +:+ str1 d)) (str1 e) = Ascii.eqb d e.
Proof. apply (ends_with_snoc (String x b)). Qed.

Lemma str_any_false p s : str_any p s = false ↔ str_all (λ c, negb (p c)) s = true.
Proof. unfold str_any. by rewrite negb_false_iff. Qed.

Lemma clean_uri_iff uri :
  clean_uri uri = true ↔
  uri ≠ "" ∧ str_contains_char "<" uri = false ∧ str_contains_char ">" uri = false ∧
  str_any is_whitespace uri = false.
Proof.
  unfold clean_uri. rewrite andb_true_iff, negb_true_iff, String.eqb_neq, str_any_false,
    !contains_char_all. apply and_iff_compat_l.
  induction uri as [|c uri IH]; simpl; [done|]. rewrite !andb_true_iff, IH. tauto.
Qed.

(** [parse_uri_reference] accepts the clean IRIs between brackets. *)
Lemma parse_uri_Ok uri :
  clean_uri uri = true →
  parse_uri_reference (String "<" (uri +:+ ">")) = Ok (String "<" (uri +:+ ">"), "", "").
Proof.
  intros (Hu & Hl & Hr & Hw)%clean_uri_iff. unfold parse_uri_reference.
  change ">" with (str1 ">"). rewrite ends_with_cons_snoc. cbn [Ascii.eqb Bool.eqb negb].
  rewrite str_slice_inner. cbn [mbind result_bind].
  apply String.eqb_neq in Hu as ->. by rewrite Hl, Hr, Hw.
Qed.

Lemma parse_uri_inv s r :
  starts_with s "<" = true → parse_uri_reference s = r →
  (∃ uri, s = String "<" (uri +:+ ">") ∧ clean_uri uri = true ∧ r = Ok (s, "", "")) ∨
  ∃ e, r = Err e.
Proof.
  intros Hs <-. unfold parse_uri_reference.
  destruct (ends_with s ">") eqn:He; simpl; [|eauto].
  destruct (enclosed_case s "<" ">" Hs He) as [[_ ?]|[uri ->]]; [done|].
  rewrite str_slice_inner. cbn [mbind result_bind].
  destruct (clean_uri uri) eqn:Hc.
  - left. exists uri. pose proof Hc as (Hu & Hl & Hr & Hw)%clean_uri_iff.
    apply String.eqb_neq in Hu as ->. rewrite Hl, Hr, Hw. by split_and!.
  - right. destruct (String.eqb uri "") eqn:Hu; [eauto|].
    destruct (str_contains_char "<" uri || str_contains_char ">" uri) eqn:Hb; [eauto|].
    destruct (str_any is_whitespace uri) eqn:Hw; [eauto|].
    apply orb_false_iff in Hb as [Hl Hr]. apply String.eqb_neq in Hu.
    rewrite (proj2 (clean_uri_iff uri)) in Hc; done.
Qed.

(** ** Blank nodes *)

Lemma clean_label_iff label :
  clean_label label = true ↔
  ∃ name, label = "_:" +:+ name ∧ name ≠ "" ∧
    str_all (λ c, is_alphanumeric c || Ascii.eqb c "_") name = true.
Proof.
  unfold clean_label. rewrite !andb_true_iff, negb_true_iff, String.eqb_neq, starts_with_iff.
  split.
  - intros [[[name ->] Hn] Ha]. eauto.
  - intros (name & -> & Hn & Ha). split_and!; eauto.
Qed.

Lemma parse_blank_node_spec s :
  starts_with s "_:" = true →
  if clean_label s then parse_blank_node s = Ok (s, "", "") else ∃ e, parse_blank_node s = Err e.
Proof.
  intros Hs. unfold parse_blank_node, clean_label. rewrite Hs.
  apply starts_with_iff in Hs as [name ->].
  change (str_drop 2 ("_:" +:+ name)) with name.
  destruct name as [|c name]; [simpl; eauto|].
  destruct (str_all _ (String c name)) eqn:Ha; simpl; [done|eauto].
Qed.

(** ** Literals *)

(** What the scan pushes is what it consumes. *)
Lemma scan_literal_app escaped chars v rest :
  scan_literal escaped chars = (v, rest) → chars = v +:+ rest.
Proof.
  revert escaped v rest. induction chars as [|ch chars IH]; intros escaped v rest; simpl.
  { by intros [= <- <-]. }
  destruct escaped; [|destruct (Ascii.eqb ch "\"); [|destruct (Ascii.eqb ch dquote)]];
    [..|by intros [= <- <-]|]; destruct (scan_literal _ chars) as [w r] eqn:E;
    intros [= <- <-]; by rewrite (IH _ _ _ E).
Qed.

Lemma parse_datatype_total d : parse_datatype d ≠ Panic.
Proof.
  unfold parse_datatype. destruct (starts_with d "<") eqn:Hs; [|by case_match].
  destruct (ends_with d ">") eqn:He; [|done]. simpl.
  destruct (enclosed_case d "<" ">" Hs He) as [[_ ?]|[b ->]]; [done|].
  by rewrite str_slice_inner.
Qed.

(** The value of an accepted literal is a quote, alone or with another one at its
    other end. *)
Lemma parse_literal_inv s v d l :
  parse_literal s = Ok (v, d, l) →
  (s = str1 dquote ∧ v = str1 dquote) ∨
  ∃ b rest, v = String dquote (b +:+ str1 dquote) ∧ s = v +:+ rest.
Proof.
  unfold parse_literal. destruct s as [|c chars]; [done|].
  destruct (Ascii.eqb_spec c dquote) as [->|]; cbn [negb]; [|done].
  destruct (scan_literal false chars) as [pushed rest] eqn:E.
  pose proof (scan_literal_app _ _ _ _ E) as Hc.
  destruct (ends_with (String dquote pushed) (str1 dquote)) eqn:He; [|done].
  intros H. assert (v = String dquote pushed) as ->.
  { cbn [negb] in H. unfold mbind, result_bind in H. by repeat case_match; simplify_eq. }
  assert (starts_with (String dquote pushed) (str1 dquote) = true) as Hs
    by (apply starts_with_char; eauto).
  destruct (enclosed_case _ _ _ Hs He) as [[Hv _]|[b Hv]].
  - left. injection Hv as ->. destruct chars as [|x chars]; [done|].
    simpl in E. by repeat case_match; simplify_eq.
  - right. exists b, rest. by rewrite Hv, <- Hv, Hc.
Qed.

Lemma parse_literal_total s : parse_literal s ≠ Panic.
Proof.
  unfold parse_literal. destruct s as [|c chars]; [done|].
  destruct (Ascii.eqb c dquote); cbn [negb]; [|done].
  destruct (scan_literal false chars) as [pushed rest].
  destruct (ends_with _ _); cbn [negb]; [|done].
  destruct (starts_with rest "^^"); [|by repeat case_match].
  pose proof (parse_datatype_total (str_drop 2 rest)). by destruct (parse_datatype _).
Qed.

(** ** Objects *)

(** The three kinds of text, told apart by their first characters. *)
Lemma parse_rdf_object_total s : parse_rdf_object s ≠ Panic.
Proof.
  unfold parse_rdf_object. destruct (String.eqb (trim s) ""); [done|].
  destruct (starts_with (trim s) "<") eqn:Hu.
  { by destruct (parse_uri_inv (trim s) _ Hu eq_refl) as [(? & _ & _ & ->)|[? ->]]. }
  destruct (starts_with (trim s) "_:") eqn:Hb.
  { pose proof (parse_blank_node_spec _ Hb) as H.
    destruct (clean_label _); [by rewrite H|by destruct H as [? ->]]. }
  destruct (starts_with (trim s) (str1 dquote)); [apply parse_literal_total|done].
Qed.

(** What an accepted object looks like. *)
Inductive object_case (t : string) : parts → Prop :=
  | ObjectUri uri :
      t = String "<" (uri +:+ ">") → clean_uri uri = true → object_case t (t, "", "")
  | ObjectBlank : clean_label t = true → object_case t (t, "", "")
  | ObjectQuote d l : t = str1 dquote → object_case t (str1 dquote, d, l)
  | ObjectLiteral b rest d l :
      t = String dquote (b +:+ str1 dquote) +:+ rest →
      object_case t (String dquote (b +:+ str1 dquote), d, l)
  | ObjectBare :
      starts_with t "<" = false → starts_with t "_:" = false →
      starts_with t (str1 dquote) = false → object_case t (t, "", "").

Lemma parse_rdf_object_cases s x :
  parse_rdf_object s = Ok x → object_case (trim s) x.
Proof.
  unfold parse_rdf_object. destruct (String.eqb (trim s) ""); [done|].
  destruct (starts_with (trim s) "<") eqn:Hu.
  { intros H. destruct (parse_uri_inv _ _ Hu H) as [(uri & ? & ? & [= ->])|[e ?]]; [|done].
    by eapply ObjectUri. }
  destruct (starts_with (trim s) "_:") eqn:Hb.
  { pose proof (parse_blank_node_spec _ Hb) as H. destruct (clean_label _) eqn:Hl.
    - rewrite H. intros [= <-]. by apply ObjectBlank.
    - by destruct H as [e ->]. }
  destruct (starts_with (trim s) (str1 dquote)) eqn:Hq.
  - destruct x as [[v d] l]. intros H.
    apply parse_literal_inv in H as [[H ->]|(b & rest & -> & H)];
      [by apply ObjectQuote|by eapply ObjectLiteral].
  - intros [= <-]. by apply ObjectBare.
Qed.

(** ** Terms *)

Lemma bool_eq_false_of c d : c ≠ d → Ascii.eqb c d = false.
Proof. apply Ascii.eqb_neq. Qed.

(** [parse] on each kind of object. *)
Lemma classify_uri uri d l s :
  parse_rdf_object s = Ok (String "<" (uri +:+ ">"), d, l) → parse s = Ok (Uri uri).
Proof.
  intros H. unfold parse. rewrite H. cbn [mbind result_bind].
  change ">" with (str1 ">"). rewrite ends_with_cons_snoc.
  change "<" with (str1 "<"). rewrite starts_with_cons. cbn [andb Ascii.eqb Bool.eqb]. by rewrite str_slice_inner.
Qed.

Lemma classify_blank label d l s :
  parse_rdf_object s = Ok (label, d, l) → clean_label label = true →
  parse s = Ok (BlankNode label).
Proof.
  intros H (name & -> & _ & _)%clean_label_iff. unfold parse. rewrite H.
  cbn [mbind result_bind]. change ("_:" +:+ name) with (String "_" (String ":" name)).
  rewrite starts_with_other by done. cbn [andb].
  by rewrite (proj2 (starts_with_iff _ "_:")) by (by exists name).
Qed.

Lemma classify_literal b d l s :
  parse_rdf_object s = Ok (String dquote (b +:+ str1 dquote), d, l) →
  parse s = Ok (Literal (unescape b) d l).
Proof.
  intros H. unfold parse. rewrite H. cbn [mbind result_bind].
  unfold normalize_literal_value.
  rewrite !ends_with_cons_snoc, !starts_with_cons, !starts_with_other by done.
  cbn [andb negb orb Ascii.eqb Bool.eqb dquote]. by rewrite str_slice_inner.
Qed.

Lemma classify_bare t d l s :
  parse_rdf_object s = Ok (t, d, l) → starts_with t "<" = false → starts_with t "_:" = false →
  starts_with t (str1 dquote) = false → parse s = Ok (Literal t d l).
Proof. intros H Hu Hb Hq. unfold parse. rewrite H. cbn [mbind result_bind]. by rewrite Hu, Hb, Hq. Qed.

Lemma parse_err s e : parse_rdf_object s = Err e → parse s = Err e.
Proof. intros H. unfold parse. by rewrite H. Qed.

(** The outcome of [parse], from the text. *)
Inductive parse_case (s : string) : result RdfError RdfTerm → Prop :=
  | ParseErr e : parse_case s (Err e)
  | ParseUri uri :
      trim s = String "<" (uri +:+ ">") → clean_uri uri = true → parse_case s (Ok (Uri uri))
  | ParseBlank : clean_label (trim s) = true → parse_case s (Ok (BlankNode (trim s)))
  | ParseQuote : trim s = str1 dquote → parse_case s Panic
  | ParseLiteral b rest d l :
      trim s = String dquote (b +:+ str1 dquote) +:+ rest →
      parse_case s (Ok (Literal (unescape b) d l))
  | ParseBare :
      starts_with (trim s) "<" = false → starts_with (trim s) "_:" = false →
      starts_with (trim s) (str1 dquote) = false → parse_case s (Ok (Literal (trim s) "" "")).

Lemma parse_cases s : parse_case s (parse s).
Proof.
  destruct (parse_rdf_object s) as [x|e|] eqn:H.
  - pose proof (parse_rdf_object_cases _ _ H) as Hx. inversion Hx as [uri Ht| |d l|b rest d l|]; subst x.
    + rewrite (classify_uri uri "" "" s) by (by rewrite H, Ht). by apply ParseUri.
    + rewrite (classify_blank _ _ _ _ H) by done. by apply ParseBlank.
    + assert (parse s = Panic) as ->; [|by apply ParseQuote].
      unfold parse. by rewrite H.
    + rewrite (classify_literal _ _ _ _ H). by eapply ParseLiteral.
    + rewrite (classify_bare _ _ _ _ H) by done. by apply ParseBare.
  - rewrite (parse_err _ _ H). apply ParseErr.
  - by apply parse_rdf_object_total in H.
Qed.

(** Parsing a term panics on exactly one text: a lone double quote, with
    white space around it. *)
Theorem parse_panics_iff s : parse s = Panic ↔ trim s = str1 dquote.
Proof.
  split.
  - intros H. pose proof (parse_cases s) as Hc. rewrite H in Hc. by inversion Hc.
  - intros H. unfold parse, parse_rdf_object. by rewrite H.
Qed.

(** *** Reading back *)

Lemma is_valid_language_nonempty l : is_valid_language_tag l = true → l ≠ "".
Proof. by intros H ->. Qed.

Lemma alphanumeric_not_space c : is_alphanumeric c = true → is_whitespace c = false.
Proof. by destruct c as [[][][][][][][][]]. Qed.

Lemma alphabetic_alphanumeric c : is_ascii_alphabetic c = true → is_alphanumeric c = true.
Proof. by destruct c as [[][][][][][][][]]. Qed.

(** The characters of a language tag. *)
Lemma language_chars l :
  is_valid_language_tag l = true →
  str_all (λ c, is_alphanumeric c || Ascii.eqb "-" c) l = true.
Proof.
  unfold is_valid_language_tag. destruct (String.eqb l ""); [done|].
  rewrite <- (split_char_join "-" l) at 2.
  destruct (split_char "-" l) as [|p ps]; [done|]. rewrite andb_true_iff.
  intros [Hp Hps]. apply andb_true_iff in Hp as [_ Hp].
  assert (Forall (λ q, str_all is_alphanumeric q = true) (p :: ps)) as Hall.
  { constructor; [by eapply str_all_impl; [apply alphabetic_alphanumeric|]|].
    apply Is_true_true, forallb_True in Hps. eapply Forall_impl; [exact Hps|]. intros q Hq.
    apply Is_true_true in Hq. by apply andb_true_iff in Hq as [_ Hq]. }
  clear Hp Hps. generalize dependent p. induction ps as [|q ps IH]; intros p Hall.
  - apply Forall_cons in Hall as [Hall _]. simpl.
    eapply str_all_impl; [|exact Hall]. by intros c ->.
  - apply Forall_cons in Hall as [Hp Hall].
    change (str_join "-" (p :: q :: ps)) with (p +:+ String "-" (str_join "-" (q :: ps))).
    rewrite str_all_app. cbn [str_all]. rewrite IH, andb_true_r by done.
    eapply str_all_impl; [|exact Hp]. by intros c ->.
Qed.

Lemma language_not_space l :
  is_valid_language_tag l = true → str_all (λ c, negb (is_whitespace c)) l = true.
Proof.
  intros H%language_chars. eapply str_all_impl; [|exact H]. intros c.
  rewrite orb_true_iff. intros [Hc|Hc]; [by rewrite alphanumeric_not_space|].
  by apply Ascii.eqb_eq in Hc as <-.
Qed.

(** A trimmed text that starts with a quote. *)
Lemma object_literal s :
  trim s = s → starts_with s (str1 dquote) = true → parse_rdf_object s = parse_literal s.
Proof.
  intros Ht [r ->]%starts_with_char. unfold parse_rdf_object. rewrite Ht.
  by rewrite !starts_with_other, starts_with_cons by done.
Qed.

(** The literal a value and a suffix are read as. *)
Lemma literal_suffix value suffix :
  parse_literal (String dquote (escape value +:+ String dquote suffix)) =
    (let v := String dquote (escape value +:+ str1 dquote) in
     if starts_with suffix "^^" then
       datatype ← parse_datatype (str_drop 2 suffix);
       Ok (v, datatype, "")
     else if starts_with suffix "@" then
       let language := str_drop 1 suffix in
       if String.eqb language "" then Err EmptyLanguage
       else if negb (is_valid_language_tag language) then Err (InvalidLanguage language)
       else Ok (v, "", language)
     else if negb (String.eqb suffix "") then Err (UnexpectedCharacters suffix)
     else Ok (v, "", "")).
Proof.
  unfold parse_literal. rewrite Ascii.eqb_refl, scan_escape. cbn [negb].
  by rewrite ends_with_cons_snoc, Ascii.eqb_refl.
Qed.

Lemma print_suffix_read value d l :
  String.eqb l "" || String.eqb d "" && is_valid_language_tag l = true →
  parse_literal (String dquote (escape value +:+ String dquote (print_suffix d l))) =
    Ok (String dquote (escape value +:+ str1 dquote), d, l).
Proof.
  intros Hw. rewrite literal_suffix. unfold print_suffix.
  destruct (String.eqb_spec d "") as [->|Hd]; cbn [negb andb] in *.
  - destruct (String.eqb_spec l "") as [El|Hl]; cbn [negb orb] in *; [by rewrite El|].
    change ("@" +:+ l) with (String "@" l).
    rewrite starts_with_other by done. change "@" with (str1 "@").
    rewrite starts_with_cons. cbn [str_drop Ascii.eqb Bool.eqb].
    apply String.eqb_neq in Hl as ->. by rewrite Hw.
  - rewrite orb_false_r in Hw. apply String.eqb_eq in Hw as ->.
    rewrite (proj2 (starts_with_iff _ "^^")) by (by exists ("<" +:+ (d +:+ ">"))).
    change (str_drop 2 _) with (String "<" (d +:+ str1 ">")). unfold parse_datatype.
    change "<" with (str1 "<"). change ">" with (str1 ">").
    rewrite starts_with_cons, ends_with_cons_snoc. cbn [negb Ascii.eqb Bool.eqb].
    by rewrite str_slice_inner.
Qed.

(** The text of a literal has nothing to trim. *)
Lemma print_literal_trim value d l :
  String.eqb l "" || String.eqb d "" && is_valid_language_tag l = true →
  trim (print_term (Literal value d l)) = print_term (Literal value d l).
Proof.
  intros Hw. simpl. unfold print_suffix.
  destruct (String.eqb_spec d "") as [->|Hd]; cbn [negb andb] in *;
    [destruct (String.eqb_spec l "") as [El|Hl]; cbn [negb orb] in *|].
  - by apply trim_id.
  - destruct (str_snoc_case l) as [->|(r & c & ->)]; [done|].
    apply language_not_space in Hw. rewrite str_all_app in Hw. simpl in Hw.
    rewrite andb_true_r, andb_true_iff, negb_true_iff in Hw. destruct Hw as [_ Hc].
    change (String dquote ("@" +:+ (r +:+ str1 c))) with (String dquote (String "@" r) +:+ str1 c).
    rewrite <- str_app_assoc. by apply trim_id.
  - change (String dquote ("^^<" +:+ (d +:+ ">"))) with
      (String dquote ("^^<" +:+ (d +:+ str1 ">"))).
    rewrite <- (str_app_assoc "^^<"), <- (str_app_cons dquote ("^^<" +:+ d)),
      <- (str_app_assoc (escape value)). by apply trim_id.
Qed.

(** A term written in N-Triples is read back: IRIs, blank nodes, and literals
    with any value, with a data type or a language tag or neither. *)
Lemma parse_print t : wf_term t = true → parse (print_term t) = Ok t.
Proof.
  destruct t as [uri|value d l|label]; cbn [wf_term]; intros Hw.
  - apply (classify_uri _ "" ""). unfold parse_rdf_object. cbn [print_term].
    change (uri +:+ ">") with (uri +:+ str1 ">"). rewrite trim_id by done.
    change "<" with (str1 "<"). rewrite starts_with_cons. cbn [Ascii.eqb Bool.eqb].
    by apply parse_uri_Ok.
  - rewrite <- (unescape_escape value) at 2. apply classify_literal.
    rewrite object_literal; [by apply print_suffix_read|by apply print_literal_trim|].
    by apply starts_with_char; eexists.
  - apply (classify_blank _ "" ""); [|done]. cbn [print_term]. unfold parse_rdf_object.
    pose proof Hw as (name & -> & _ & Ha)%clean_label_iff.
    rewrite trim_word; [|simpl; eapply str_all_impl; [|exact Ha]].
    + change ("_:" +:+ name) with (String "_" (String ":" name)).
      rewrite starts_with_other by done.
      rewrite (proj2 (starts_with_iff _ "_:")) by (by exists name).
      pose proof (parse_blank_node_spec ("_:" +:+ name)) as H. rewrite Hw in H.
      apply H, starts_with_iff. by exists name.
    + intros c. rewrite orb_true_iff. intros [Hc|Hc]; [by rewrite alphanumeric_not_space|].
      by apply Ascii.eqb_eq in Hc as ->.
Qed.

(** ** Triples *)

Lemma validate_Ok_uri u : validate_for_grpc (Uri u) = Ok tt → (str_size u ≤ 65536)%Z.
Proof. simpl. repeat case_match; try done. lia. Qed.

(** Only what the parser reads as an IRI is sent as a predicate, and only
    IRIs and blank nodes as subjects; all three terms keep the size limits. *)
Theorem validated_triple_sound s p o g t :
  build_validated_triple s p o g = Ok t →
  (trim p = String "<" (predicate t +:+ ">") ∧ clean_uri (predicate t) = true) ∧
  (trim s = String "<" (subject t +:+ ">") ∧ clean_uri (subject t) = true ∨
   trim s = subject t ∧ clean_label (subject t) = true) ∧
  (∃ term, parse o = Ok term ∧
     as_proto_object term = (object t, object_datatype t, object_language t)) ∧
  (str_size (subject t) ≤ 65536 ∧ str_size (predicate t) ≤ 65536 ∧
   str_size (object t) ≤ 1048576 ∧ str_size (object_datatype t) ≤ 1024 ∧
   str_size (object_language t) ≤ 35)%Z.
Proof.
  unfold build_validated_triple. intros H.
  apply result_bind_Ok in H as (st & Es & H). apply result_bind_Ok in H as (pt & Ep & H).
  apply result_bind_Ok in H as (ot & Eo & H). apply result_bind_Ok in H as ([] & Vs & H).
  apply result_bind_Ok in H as ([] & Vp & H). apply result_bind_Ok in H as ([] & Vo & H).
  apply result_bind_Ok in H as (sv & Hs & H). apply result_bind_Ok in H as (pv & Hp & H).
  destruct (as_proto_object ot) as [[ov odt] ol] eqn:Ho. simplify_eq/=.
  pose proof (parse_cases s) as Cs. rewrite Es in Cs.
  pose proof (parse_cases p) as Cp. rewrite Ep in Cp.
  destruct pt as [pu| |]; simplify_eq/=. inversion Cp; subst.
  split; [done|]. split; [|split; [by eauto|]].
  - destruct st as [su| |sl]; simplify_eq/=; inversion Cs; subst; auto.
  - repeat split; destruct st, ot; simplify_eq/=; repeat case_match; simplify_eq; try done;
      rewrite ?Z.ltb_ge in *; unfold str_size in *; simpl in *; try lia.
Qed.

(** The triple of three terms, written and read back. *)
Definition triple_of (s p o : RdfTerm) (g : option string) : Triple :=
  let '(ov, odt, ol) := as_proto_object o in
  {| subject := term_value s; predicate := term_value p; object := ov; object_datatype := odt;
     object_language := ol; graph := default "" g |}.

(** What can be the subject and the predicate of a triple. *)
Definition is_resource (t : RdfTerm) : bool := match t with Literal _ _ _ => false | _ => true end.
Definition is_uri (t : RdfTerm) : bool := match t with Uri _ => true | _ => false end.

(** A term that is well formed and within the limits. *)
Definition sendable (t : RdfTerm) : bool :=
  wf_term t && bool_decide (validate_for_grpc t = Ok tt).

Lemma build_printed_triple s p o g :
  sendable s = true → sendable p = true → sendable o = true →
  is_resource s = true → is_uri p = true →
  build_validated_triple (print_term s) (print_term p) (print_term o) g = Ok (triple_of s p o g).
Proof.
  unfold sendable. rewrite !andb_true_iff, !bool_decide_eq_true.
  intros [Ws Vs] [Wp Vp] [Wo Vo] Hs Hp. unfold build_validated_triple.
  rewrite !parse_print by done. cbn [mbind result_bind]. rewrite Vs, Vp, Vo.
  cbn [mbind result_bind]. unfold triple_of.
  destruct s, p; simpl in Hs, Hp; try done; by destruct (as_proto_object o) as [[? ?] ?].
Qed.

(** A predicate without brackets is never sent. *)
Lemma bare_predicate_rejected s p o g t :
  starts_with (trim p) "<" = false → build_validated_triple s p o g ≠ Ok t.
Proof.
  intros Hp H. unfold build_validated_triple in H.
  apply result_bind_Ok in H as (st & _ & H). apply result_bind_Ok in H as (pt & Ep & H).
  pose proof (parse_cases p) as Cp. rewrite Ep in Cp.
  assert (is_uri pt = false) as Hu.
  { inversion Cp as [|uri Ht| | | |]; subst; try done. rewrite Ht in Hp.
    change "<" with (str1 "<") in Hp. by rewrite starts_with_cons in Hp. }
  repeat (apply result_bind_Ok in H as (? & ? & H)). by destruct pt.
Qed.

(** ** Concrete terms *)

Definition quoted (s : string) : string := String dquote (s +:+ str1 dquote).

Lemma validated_triple_sound_witness :
  ∃ t, build_validated_triple "<http://ex.com/s>" " <http://ex.com/p> " (quoted "v") None = Ok t ∧
    trim " <http://ex.com/p> " = String "<" (predicate t +:+ ">").
Proof.
  eexists. split; [vm_compute; reflexivity|].
  refine (proj1 (proj1 (validated_triple_sound "<http://ex.com/s>" " <http://ex.com/p> "
    (quoted "v") None _ _))).
  vm_compute. reflexivity.
Defined.

Example parse_typed :
  parse (quoted "42" +:+ "^^xsd:integer") = Ok (Literal "42" "xsd:integer" "").
Proof. vm_compute. reflexivity. Qed.

(** *** Outside the conditions *)

(** A literal whose only other quote is escaped counts as terminated. *)
Example unterminated_accepted :
  parse (String dquote ("a\" +:+ str1 dquote)) = Ok (Literal "a\" "" "").
Proof. vm_compute. reflexivity. Qed.

(** A full IRI is expanded a second time. *)
Example expand_full_iri :
  expand_xsd_datatype "http://www.w3.org/2001/XMLSchema#integer" =
    Some "http://www.w3.org/2001/XMLSchema#http://www.w3.org/2001/XMLSchema#integer".
Proof. vm_compute. reflexivity. Qed.
