(* ===== verification/SparqlUpdate.v ===== *)
(** * SPARQL updates: building graph operations, reading [INSERT DATA]

    Models [governance/shard_coordinator/sparql/] of the coordinator:
    [validator.rs], [builder.rs] and [insert_parser.rs]. *)

From Stdlib Require Import Ascii Lia ZArith.
From stdpp Require Import base numbers option strings list gmap.
From S2P Require Import Prelude RustStd RustText.

(** ** URIs in queries *)

Definition SUSPICIOUS_KEYWORDS : list string :=
  [" drop "; " insert "; " delete "; " clear "; " load "; " create "; " copy "; " move "; " add "].

(** Characters of URN-style identifiers. *)
Definition urn_char (c : ascii) : bool :=
  is_alphanumeric c || Ascii.eqb c ":" || Ascii.eqb c "/" || Ascii.eqb c "#" ||
  Ascii.eqb c "-" || Ascii.eqb c "_" || Ascii.eqb c ".".

Definition str_contains (text part : string) : bool :=
  match str_find text part with Some _ => true | None => false end.

Definition is_valid_sparql_uri (uri : string) : bool :=
  if String.eqb uri "" then false
  else if str_any is_control uri then false
  else if str_contains_char ">" uri then false
  else if existsb (str_contains (to_lowercase uri)) SUSPICIOUS_KEYWORDS then false
  else if starts_with uri "http://" || starts_with uri "https://" || starts_with uri "urn:"
  then true
  else if starts_with uri "/" || starts_with uri "#" then true
  else str_all urn_char uri.

Definition sanitize_uri (uri : string) : string :=
  str_filter (λ c, negb (is_control c) && negb (Ascii.eqb c ">")) uri.

(** ** Graph operations *)

Inductive SparqlError : Type :=
  | InvalidGraphUri (uri : string)
  | InvalidSourceUri (uri : string)
  | InvalidDestinationUri (uri : string)
  | NotInsert
  | NotInsertData
  | MissingOpeningBrace
  | UnbalancedBraces
  | UndefinedPrefix (prefix : string)
  | InvalidTerm (term : string).

#[global] Instance SparqlError_eq_dec : EqDecision SparqlError.
Proof. solve_decision. Defined.

Definition silent_clause (silent : bool) : string := if silent then " SILENT" else "".

Definition clear_graph (graph_uri : string) : result SparqlError string :=
  if negb (is_valid_sparql_uri graph_uri) then Err (InvalidGraphUri graph_uri)
  else Ok ("CLEAR GRAPH <" +:+ (graph_uri +:+ ">")).

Definition drop_graph (graph_uri : string) (silent : bool) : result SparqlError string :=
  if negb (is_valid_sparql_uri graph_uri) then Err (InvalidGraphUri graph_uri)
  else Ok ("DROP" +:+ (silent_clause silent +:+ (" GRAPH <" +:+ (graph_uri +:+ ">")))).

Definition create_graph (graph_uri : string) : result SparqlError string :=
  if negb (is_valid_sparql_uri graph_uri) then Err (InvalidGraphUri graph_uri)
  else Ok ("CREATE GRAPH <" +:+ (graph_uri +:+ ">")).

Definition copy_graph (source_uri dest_uri : string) (silent : bool)
    : result SparqlError string :=
  if negb (is_valid_sparql_uri source_uri) then Err (InvalidSourceUri source_uri)
  else if negb (is_valid_sparql_uri dest_uri) then Err (InvalidDestinationUri dest_uri)
  else Ok ("COPY" +:+ (silent_clause silent +:+ (" GRAPH <" +:+ (source_uri +:+
             ("> TO <" +:+ (dest_uri +:+ ">")))))).

Definition move_graph (source_uri dest_uri : string) (silent : bool)
    : result SparqlError string :=
  if negb (is_valid_sparql_uri source_uri) then Err (InvalidSourceUri source_uri)
  else if negb (is_valid_sparql_uri dest_uri) then Err (InvalidDestinationUri dest_uri)
  else Ok ("MOVE" +:+ (silent_clause silent +:+ (" GRAPH <" +:+ (source_uri +:+
             ("> TO <" +:+ (dest_uri +:+ ">")))))).

Definition clear_all : string := "CLEAR ALL".
Definition drop_all : string := "DROP ALL".

(** ** [INSERT DATA] *)

Definition prefix_map : Type := gmap string string.

Record InsertParser : Type := {
  query : string;
  prefixes : prefix_map;
  data_block : string;
}.

Definition STANDARD_PREFIXES : prefix_map :=
  <["owl" := "http://www.w3.org/2002/07/owl#"]>
  (<["xsd" := "http://www.w3.org/2001/XMLSchema#"]>
   (<["rdfs" := "http://www.w3.org/2000/01/rdf-schema#"]>
    (<["rdf" := "http://www.w3.org/1999/02/22-rdf-syntax-ns#"]> ∅))).

(** One declaration at the start of [remaining]: its prefix, its URI and how far
    the position moves; [None] when there is no declaration to read. *)
Definition read_prefix (remaining : string) : result SparqlError (option (string * string * nat)) :=
  if starts_with (to_uppercase remaining) "PREFIX" then
    let rest := trim_start (str_drop 6 remaining) in
    match find_char ":" rest with
    | None => Ok None
    | Some colon_pos =>
        let prefix_name := trim (str_take colon_pos rest) in
        let after_colon := trim_start (str_drop (colon_pos + 1) rest) in
        match find_char "<" after_colon, find_char ">" after_colon with
        | Some uri_start, Some uri_end =>
            uri ← str_slice (uri_start + 1) uri_end after_colon;
            Ok (Some (prefix_name, uri,
                  String.length remaining - String.length after_colon + uri_end + 1))
        | _, _ => Ok None
        end
    end
  else Ok None.

(** The loop over the positions of the prefix section; [skip] positions are
    passed over, the next one is that of [s]. *)
Fixpoint prefix_loop (skip : nat) (acc : prefix_map) (s : string) : result SparqlError prefix_map :=
  match s with
  | EmptyString => Ok acc
  | String _ s' =>
      match skip with
      | S k => prefix_loop k acc s'
      | O =>
          let remaining := trim_start s in
          if String.eqb remaining "" then Ok acc
          else
            match read_prefix remaining with
            | Ok (Some (name, uri, moved)) => prefix_loop (moved - 1) (<[name := uri]> acc) s'
            | Ok None => prefix_loop 0 acc s'
            | Err e => Err e
            | Panic => Panic
            end
      end
  end.

Definition extract_prefixes (query : string) : result SparqlError (prefix_map * nat) :=
  insert_pos ← ok_or (str_find (to_uppercase query) "INSERT") NotInsert;
  m ← prefix_loop 0 STANDARD_PREFIXES (str_take insert_pos query);
  Ok (m, insert_pos).

(** The loop that looks for the matching brace: the count it ends with, and the
    position it stopped at. *)
Fixpoint brace_loop (brace_count : Z) (i : nat) (s : string) : Z * option nat :=
  match s with
  | EmptyString => (brace_count, None)
  | String ch s' =>
      if Ascii.eqb ch "{" then brace_loop (brace_count + 1) (S i) s'
      else if Ascii.eqb ch "}" then
        if (brace_count - 1 =? 0)%Z then (0%Z, Some i)
        else brace_loop (brace_count - 1) (S i) s'
      else brace_loop brace_count (S i) s'
  end.

Definition extract_data_block (query : string) : result SparqlError string :=
  insert_pos ← ok_or (str_find (to_uppercase query) "INSERT DATA") NotInsertData;
  open ← ok_or (find_char "{" (str_drop insert_pos query)) MissingOpeningBrace;
  let start := open + insert_pos in
  let '(brace_count, stop) := brace_loop 0 0 (str_drop start query) in
  let stop := match stop with Some i => start + i | None => start end in
  if negb (brace_count =? 0)%Z then Err UnbalancedBraces
  else
    block ← str_slice (start + 1) stop query;
    Ok (trim block).

(** [InsertParser::new]. *)
Definition new_parser (q : string) : result SparqlError InsertParser :=
  let q := trim q in
  '(m, data_start) ← extract_prefixes q;
  block ← extract_data_block (str_drop data_start q);
  Ok {| query := q; prefixes := m; data_block := block |}.

(** *** Tokens *)

Record lexer : Type := {
  tokens : list string;
  current : string;
  in_uri : bool;
  in_literal : bool;
  escape_next : bool;
}.

Definition lex_start : lexer :=
  {| tokens := []; current := ""; in_uri := false; in_literal := false; escape_next := false |}.

(** [current.push(ch)]. *)
Definition push_char (ch : ascii) (l : lexer) : lexer :=
  {| tokens := tokens l; current := current l +:+ str1 ch; in_uri := in_uri l;
     in_literal := in_literal l; escape_next := escape_next l |}.

(** [if !current.is_empty() { tokens.push(current.trim()); current.clear() }]. *)
Definition flush (l : lexer) : lexer :=
  if String.eqb (current l) "" then l
  else {| tokens := tokens l ++ [trim (current l)]; current := ""; in_uri := in_uri l;
          in_literal := in_literal l; escape_next := escape_next l |}.

Definition push_token (t : string) (l : lexer) : lexer :=
  {| tokens := tokens l ++ [t]; current := current l; in_uri := in_uri l;
     in_literal := in_literal l; escape_next := escape_next l |}.

Definition clear_current (l : lexer) : lexer :=
  {| tokens := tokens l; current := ""; in_uri := in_uri l; in_literal := in_literal l;
     escape_next := escape_next l |}.

Definition set_uri (b : bool) (l : lexer) : lexer :=
  {| tokens := tokens l; current := current l; in_uri := b; in_literal := in_literal l;
     escape_next := escape_next l |}.

Definition set_literal (b : bool) (l : lexer) : lexer :=
  {| tokens := tokens l; current := current l; in_uri := in_uri l; in_literal := b;
     escape_next := escape_next l |}.

Definition set_escape (b : bool) (l : lexer) : lexer :=
  {| tokens := tokens l; current := current l; in_uri := in_uri l; in_literal := in_literal l;
     escape_next := b |}.

Definition is_blank (ch : ascii) : bool :=
  Ascii.eqb ch " " || Ascii.eqb ch "009" || Ascii.eqb ch "010" || Ascii.eqb ch "013".

Definition is_separator (ch : ascii) : bool :=
  Ascii.eqb ch ";" || Ascii.eqb ch "," || Ascii.eqb ch ".".

(** The body of the loop of [tokenize], its arms in order. *)
Definition lex_char (l : lexer) (ch : ascii) : lexer :=
  if escape_next l then set_escape false (push_char ch l)
  else if Ascii.eqb ch "\" && in_literal l then push_char ch (set_escape true l)
  else if Ascii.eqb ch "<" && negb (in_literal l) then push_char ch (set_uri true (flush l))
  else if Ascii.eqb ch ">" && in_uri l then
    let l := push_char ch l in
    set_uri false (clear_current (push_token (current l) l))
  else if Ascii.eqb ch dquote && negb (in_uri l) then
    if in_literal l then set_literal false (push_char ch l)
    else push_char ch (set_literal true (flush l))
  else if is_blank ch && (negb (in_uri l) && negb (in_literal l)) then flush l
  else if is_separator ch && (negb (in_uri l) && negb (in_literal l))
  then push_token (str1 ch) (flush l)
  else push_char ch l.

Fixpoint lex (l : lexer) (s : string) : lexer :=
  match s with
  | EmptyString => l
  | String ch s' => lex (lex_char l ch) s'
  end.

Definition tokenize (data : string) : list string := tokens (flush (lex lex_start data)).

(** *** Terms *)

Definition expand_term (m : prefix_map) (term : string) : result SparqlError string :=
  let term := trim term in
  if starts_with term "<" && ends_with term ">" then Ok term
  else if starts_with term (str1 dquote) then Ok term
  else
    match find_char ":" term with
    | Some colon_pos =>
        let pre := str_take colon_pos term in
        match m !! pre with
        | Some base_uri =>
            Ok (String "<" (base_uri +:+ (str_drop (colon_pos + 1) term +:+ ">")))
        | None => Err (UndefinedPrefix pre)
        end
    | None => if starts_with term "_:" then Ok term else Err (InvalidTerm term)
    end.

(** *** Triples

    The three loops of [extract_triples], over the tokens that are left.  Each
    returns the triples it and the loops around it still push. *)

Definition raw_triple : Type := string * string * string.

Section Extract.
Context (m : prefix_map).

Fixpoint subjects (ts : list string) : result SparqlError (list raw_triple) :=
  match ts with
  | [] => Ok []
  | t :: ts' =>
      if String.eqb t "." then subjects ts'
      else
        subject ← expand_term m t;
        predicates subject ts'
  end
with predicates (subject : string) (ts : list string) : result SparqlError (list raw_triple) :=
  match ts with
  | [] => Ok []
  | t :: ts' =>
      if String.eqb t "." then subjects ts'
      else
        predicate ← expand_term m t;
        objects subject predicate ts'
  end
with objects (subject predicate : string) (ts : list string)
    : result SparqlError (list raw_triple) :=
  match ts with
  | [] => Ok []
  | t :: ts' =>
      object ← expand_term m t;
      cons (subject, predicate, object) <$>
        match ts' with
        | [] => Ok []
        | sep :: ts'' =>
            if String.eqb sep "," then objects subject predicate ts''
            else if String.eqb sep ";" then predicates subject ts''
            else if String.eqb sep "." then subjects ts''
            else predicates subject ts'
        end
  end.
End Extract.

Definition extract_triples (p : InsertParser) : result SparqlError (list raw_triple) :=
  subjects (prefixes p) (tokenize (data_block p)).

(** The parser run on a query, as [execute_insert_data] does. *)
Definition parse_insert_data (q : string) : result SparqlError (list raw_triple) :=
  p ← new_parser q;
  extract_triples p.
