(* ===== verification/SparqlUpdateFacts.v ===== *)
(** * SPARQL updates keep their shape, and [INSERT DATA] reads its triples

    A graph operation that is built has the URIs it was given inside its brackets
    and its own keywords outside.  A query written with prefixes, [;] and [,] is
    read as the triples it stands for. *)

From Stdlib Require Import Ascii Lia ZArith.
From stdpp Require Import base numbers option strings list gmap.
From S2P Require Import Prelude RustStd RustText RdfTerm SparqlUpdate.

(** ** Graph operations *)

(** How a SPARQL lexer splits a text: what is outside the brackets, and what
    each pair of brackets holds. *)
Fixpoint shape (inside : bool) (s : string) : string * list string :=
  match s with
  | EmptyString => (EmptyString, if inside then [EmptyString] else [])
  | String c s' =>
      if inside then
        if Ascii.eqb c ">" then
          let '(out, iris) := shape false s' in (String c out, EmptyString :: iris)
        else
          match shape true s' with
          | (out, iri :: iris) => (out, String c iri :: iris)
          | (out, []) => (out, [str1 c])
          end
      else if Ascii.eqb c "<" then
        let '(out, iris) := shape true s' in (String c out, iris)
      else
        let '(out, iris) := shape false s' in (String c out, iris)
  end.

Lemma shape_inside uri s :
  str_contains_char ">" uri = false →
  shape true (uri +:+ String ">" s) =
    let '(out, iris) := shape false s in (String ">" out, uri :: iris).
Proof.
  induction uri as [|c uri IH]; [done|]. cbn [str_contains_char]. rewrite orb_false_iff.
  intros [Hc Hu]. rewrite Ascii.eqb_sym in Hc. rewrite str_app_cons. cbn [shape].
  rewrite Hc, IH by done. by destruct (shape false s).
Qed.

Lemma shape_step a uri s :
  str_contains_char "<" a = false → str_contains_char ">" uri = false →
  shape false (a +:+ String "<" (uri +:+ String ">" s)) =
    let '(out, iris) := shape false s in (a +:+ String "<" (String ">" out), uri :: iris).
Proof.
  intros Ha Hu. induction a as [|c a IH].
  - change ("" +:+ ?x) with x. cbn [shape]. cbn [Ascii.eqb Bool.eqb].
    rewrite shape_inside by done. by destruct (shape false s).
  - cbn [str_contains_char] in Ha. apply orb_false_iff in Ha as [Hc Ha].
    rewrite Ascii.eqb_sym in Hc. rewrite !str_app_cons. cbn [shape].
    rewrite Hc, IH by done. by destruct (shape false s).
Qed.

Lemma shape_one a uri :
  str_contains_char "<" a = false → str_contains_char ">" uri = false →
  shape false (a +:+ String "<" (uri +:+ ">")) = (a +:+ "<>", [uri]).
Proof. intros Ha Hu. exact (shape_step a uri "" Ha Hu). Qed.

Lemma shape_two a u v :
  str_contains_char "<" a = false → str_contains_char ">" u = false →
  str_contains_char ">" v = false →
  shape false (a +:+ String "<" (u +:+ ("> TO <" +:+ (v +:+ ">")))) = (a +:+ "<> TO <>", [u; v]).
Proof.
  intros Ha Hu Hv. pose proof (shape_step a u (" TO <" +:+ (v +:+ ">")) Ha Hu) as H.
  change (" TO <" +:+ (v +:+ ">")) with (" TO " +:+ String "<" (v +:+ ">")) in H.
  rewrite (shape_one " TO ") in H by done. exact H.
Qed.

Lemma valid_uri_closed uri :
  is_valid_sparql_uri uri = true → str_contains_char ">" uri = false.
Proof. unfold is_valid_sparql_uri. by repeat case_match. Qed.

Lemma valid_uri_printable uri :
  is_valid_sparql_uri uri = true → str_any is_control uri = false.
Proof. unfold is_valid_sparql_uri. by repeat case_match. Qed.

(** The operations of the builder. *)
Inductive graph_operation : Type :=
  | ClearGraph (g : string)
  | DropGraph (g : string) (silent : bool)
  | CreateGraph (g : string)
  | CopyGraph (source dest : string) (silent : bool)
  | MoveGraph (source dest : string) (silent : bool).

Definition build (op : graph_operation) : result SparqlError string :=
  match op with
  | ClearGraph g => clear_graph g
  | DropGraph g silent => drop_graph g silent
  | CreateGraph g => create_graph g
  | CopyGraph s d silent => copy_graph s d silent
  | MoveGraph s d silent => move_graph s d silent
  end.

Definition operands (op : graph_operation) : list string :=
  match op with
  | ClearGraph g | DropGraph g _ | CreateGraph g => [g]
  | CopyGraph s d _ | MoveGraph s d _ => [s; d]
  end.

Definition keywords (op : graph_operation) : string :=
  match op with
  | ClearGraph _ => "CLEAR GRAPH <>"
  | DropGraph _ silent => "DROP" +:+ (silent_clause silent +:+ " GRAPH <>")
  | CreateGraph _ => "CREATE GRAPH <>"
  | CopyGraph _ _ silent => "COPY" +:+ (silent_clause silent +:+ " GRAPH <> TO <>")
  | MoveGraph _ _ silent => "MOVE" +:+ (silent_clause silent +:+ " GRAPH <> TO <>")
  end.

(** An operation on two graphs. *)
Lemma two_operands verb s d silent :
  verb = "COPY" ∨ verb = "MOVE" → ∀ q,
  (if negb (is_valid_sparql_uri s) then Err (InvalidSourceUri s)
   else if negb (is_valid_sparql_uri d) then Err (InvalidDestinationUri d)
   else Ok (verb +:+ (silent_clause silent +:+ (" GRAPH <" +:+ (s +:+
          ("> TO <" +:+ (d +:+ ">"))))))) = Ok q →
  Forall (λ u, is_valid_sparql_uri u = true) [s; d] ∧
  shape false q = (verb +:+ (silent_clause silent +:+ " GRAPH <> TO <>"), [s; d]).
Proof.
  intros Hverb q. destruct (is_valid_sparql_uri s) eqn:Hs; simpl; [|done].
  destruct (is_valid_sparql_uri d) eqn:Hd; simpl; [|done]. intros [= <-].
  split; [by rewrite !Forall_cons|]. apply valid_uri_closed in Hs, Hd.
  pose proof (shape_two (verb +:+ (silent_clause silent +:+ " GRAPH ")) s d) as H.
  destruct Hverb as [->| ->], silent; by apply H.
Qed.

(** An update that is built has the keywords of its operation outside the
    brackets and its operands inside, none of them with a control character,
    whatever the operands; it is built unless an operand is rejected. *)
Theorem built_update_shape op :
  (∀ q, build op = Ok q →
     shape false q = (keywords op, operands op) ∧
     Forall (λ u, str_any is_control u = false) (operands op)) ∧
  (Forall (λ u, is_valid_sparql_uri u = true) (operands op) ↔ ∃ q, build op = Ok q).
Proof.
  assert (Hrun : ∀ q, build op = Ok q →
    Forall (λ u, is_valid_sparql_uri u = true) (operands op) ∧
    shape false q = (keywords op, operands op)).
  { intros q. destruct op as [g|g silent|g|s d silent|s d silent]; simpl;
      unfold clear_graph, drop_graph, create_graph, copy_graph, move_graph.
    1-3: destruct (is_valid_sparql_uri g) eqn:Hg; simpl; [|done]; intros [= <-];
      (split; [by rewrite !Forall_cons|]); apply valid_uri_closed in Hg.
    - exact (shape_one "CLEAR GRAPH " g eq_refl Hg).
    - destruct silent; [exact (shape_one "DROP SILENT GRAPH " g eq_refl Hg)|].
      exact (shape_one "DROP GRAPH " g eq_refl Hg).
    - exact (shape_one "CREATE GRAPH " g eq_refl Hg).
    - revert q. apply (two_operands "COPY"). auto.
    - revert q. apply (two_operands "MOVE"). auto. }
  split; [|split].
  - intros q Hq. apply Hrun in Hq as [Hv Hq]. split; [done|].
    eapply Forall_impl; [exact Hv|]. apply valid_uri_printable.
  - intros Hv. destruct op; simpl in *; unfold clear_graph, drop_graph, create_graph,
      copy_graph, move_graph; rewrite !Forall_cons in Hv; destruct_and?;
      repeat match goal with H : is_valid_sparql_uri _ = true |- _ => rewrite H; clear H end;
      by eexists.
  - intros [q Hq]. by apply Hrun in Hq as [? _].
Qed.

(** ** Writing [INSERT DATA] *)

(** Terms of a data block: an IRI, a prefixed name, or a literal with what
    follows its closing quote (nothing, a language tag, a prefixed data type). *)
Inductive data_term : Type :=
  | DataIri (uri : string)
  | DataName (pre name : string)
  | DataLiteral (value suffix : string).

Definition print_data_term (t : data_term) : string :=
  match t with
  | DataIri uri => String "<" (uri +:+ ">")
  | DataName pre name => pre +:+ String ":" name
  | DataLiteral value suffix => String dquote (escape value +:+ String dquote suffix)
  end.

(** Characters that neither start nor end a token. *)
Definition plain_char (c : ascii) : bool :=
  negb (is_whitespace c) && negb (is_separator c) && negb (Ascii.eqb c "<") &&
  negb (Ascii.eqb c dquote).

Definition wf_data_term (m : prefix_map) (t : data_term) : bool :=
  match t with
  | DataIri uri => negb (str_contains_char "<" uri) && negb (str_contains_char ">" uri)
  | DataName pre name =>
      str_all plain_char pre && str_all plain_char name && negb (str_contains_char ":" pre) &&
      bool_decide (is_Some (m !! pre))
  | DataLiteral _ suffix => str_all plain_char suffix
  end.

(** What a term stands for. *)
Definition data_meaning (m : prefix_map) (t : data_term) : string :=
  match t with
  | DataName pre name => String "<" (default "" (m !! pre) +:+ (name +:+ ">"))
  | _ => print_data_term t
  end.

(** A subject with its predicates and their objects. *)
Record statement : Type := {
  st_subject : data_term;
  st_first : data_term * (data_term * list data_term);
  st_more : list (data_term * (data_term * list data_term));
}.

(** The tokens of one predicate with its objects. *)
Definition object_tokens (os : data_term * list data_term) : list string :=
  print_data_term os.1 :: concat (map (λ o, [","; print_data_term o]) os.2).

Definition predicate_tokens (po : data_term * (data_term * list data_term)) : list string :=
  print_data_term po.1 :: object_tokens po.2.

Definition statement_tokens (st : statement) : list string :=
  print_data_term (st_subject st) :: predicate_tokens (st_first st) ++
  concat (map (λ po, ";" :: predicate_tokens po) (st_more st)) ++ ["."].

Definition statement_terms (st : statement) : list data_term :=
  st_subject st ::
  concat (map (λ po, po.1 :: po.2.1 :: po.2.2) (st_first st :: st_more st)).

(** The triples a statement stands for. *)
Definition statement_triples (m : prefix_map) (st : statement) : list raw_triple :=
  concat (map (λ po, map (λ o, (data_meaning m (st_subject st), data_meaning m po.1,
                                data_meaning m o)) (po.2.1 :: po.2.2))
            (st_first st :: st_more st)).

(** ** Tokens *)

(** The state between two tokens. *)
Definition between (ts : list string) : lexer :=
  {| tokens := ts; current := ""; in_uri := false; in_literal := false; escape_next := false |}.

(** The state after a token that only the end or a separator completes. *)
Definition holding (ts : list string) (s : string) : lexer :=
  {| tokens := ts; current := s; in_uri := false; in_literal := false; escape_next := false |}.

(** The last token is complete once flushed. *)
Definition pending (l : lexer) (ts : list string) : Prop :=
  flush l = between ts ∧ in_uri l = false ∧ in_literal l = false ∧ escape_next l = false.

Lemma lex_app l a b : lex l (a +:+ b) = lex (lex l a) b.
Proof. revert l. induction a as [|c a IH]; intros l; [done|]. apply IH. Qed.

Lemma blank_space c : is_blank c = true → is_whitespace c = true.
Proof. by destruct c as [[][][][][][][][]]. Qed.

Lemma plain_char_spec c :
  plain_char c = true →
  is_whitespace c = false ∧ is_blank c = false ∧ is_separator c = false ∧
  Ascii.eqb c "<" = false ∧ Ascii.eqb c dquote = false.
Proof.
  unfold plain_char. rewrite !andb_true_iff, !negb_true_iff. intros [[[Hw Hs] Hl] Hq].
  split_and!; try done. destruct (is_blank c) eqn:Hb; [|done].
  apply blank_space in Hb. congruence.
Qed.

(** Plain characters extend the token. *)
Lemma lex_plain ts w s :
  str_all plain_char w = true → lex (holding ts s) w = holding ts (s +:+ w).
Proof.
  revert s. induction w as [|c w IH]; intros s; cbn [str_all].
  { by rewrite str_app_nil_r. }
  rewrite andb_true_iff. intros [Hc Hw]. cbn [lex].
  destruct (plain_char_spec c Hc) as (_ & Hb & Hsep & Hl & Hq).
  assert (lex_char (holding ts s) c = holding ts (s +:+ str1 c)) as ->.
  { unfold lex_char. cbn [escape_next in_literal in_uri holding negb andb].
    rewrite !andb_false_r, Hl, Hq, Hb, Hsep. done. }
  rewrite IH by done. by rewrite str_app_assoc.
Qed.

(** Inside a literal everything up to the closing quote is pushed. *)
Lemma lex_literal ts value s :
  lex (set_literal true (holding ts s)) (escape value +:+ str1 dquote) =
    holding ts (s +:+ (escape value +:+ str1 dquote)).
Proof.
  revert s. induction value as [|c value IH]; intros s; [done|]. cbn [escape].
  pose proof (escape_letter_spec c) as Hc. destruct (escape_letter c) as [e|].
  - rewrite !str_app_cons. cbn [lex].
    change (lex_char (lex_char (set_literal true (holding ts s)) "\") e) with
      (set_literal true (holding ts ((s +:+ str1 "\") +:+ str1 e))).
    rewrite IH. by rewrite !str_app_assoc.
  - destruct Hc as [Hq Hb]. rewrite str_app_cons. cbn [lex].
    assert (lex_char (set_literal true (holding ts s)) c =
            set_literal true (holding ts (s +:+ str1 c))) as ->.
    { unfold lex_char. cbn [escape_next in_literal in_uri holding set_literal negb andb].
      rewrite Hb, Hq, !andb_false_r. done. }
    rewrite IH. by rewrite !str_app_assoc.
Qed.

(** Inside brackets everything up to the closing one is pushed. *)
Lemma lex_iri ts uri s :
  str_contains_char "<" uri = false → str_contains_char ">" uri = false →
  lex (set_uri true (holding ts s)) (uri +:+ ">") = between (ts ++ [s +:+ (uri +:+ ">")]).
Proof.
  revert s. induction uri as [|c uri IH]; intros s; [done|].
  cbn [str_contains_char]. rewrite !orb_false_iff. intros [Hl Hul] [Hr Hur].
  rewrite Ascii.eqb_sym in Hl. rewrite Ascii.eqb_sym in Hr.
  rewrite str_app_cons. cbn [lex].
  assert (lex_char (set_uri true (holding ts s)) c =
          set_uri true (holding ts (s +:+ str1 c))) as ->.
  { unfold lex_char. cbn [escape_next in_literal in_uri holding set_uri negb andb].
    rewrite Hl, Hr, !andb_false_r. done. }
  rewrite IH by done. by rewrite str_app_assoc.
Qed.

Lemma pending_between ts : pending (between ts) ts.
Proof. done. Qed.

Lemma pending_holding ts s : s ≠ "" → trim s = s → pending (holding ts s) (ts ++ [s]).
Proof.
  intros Hs Ht. split; [|done]. unfold flush. cbn [current holding].
  apply String.eqb_neq in Hs as ->. by rewrite Ht.
Qed.

Lemma plain_not_space c : plain_char c = true → negb (is_whitespace c) = true.
Proof. intros (-> & _)%plain_char_spec. done. Qed.

Lemma name_plain pre name :
  str_all plain_char pre = true → str_all plain_char name = true →
  str_all plain_char (pre +:+ String ":" name) = true.
Proof. intros Hp Hn. rewrite str_all_app, Hp. exact Hn. Qed.

(** The text of a term has nothing to trim. *)
Lemma data_term_trim m t : wf_data_term m t = true → trim (print_data_term t) = print_data_term t.
Proof.
  destruct t as [uri|pre name|value suffix]; cbn [wf_data_term print_data_term].
  - intros _. by apply trim_id.
  - rewrite !andb_true_iff. intros [[[Hp Hn] _] _]. apply trim_word.
    eapply str_all_impl; [apply plain_not_space|]. by apply name_plain.
  - intros Hs. destruct (str_snoc_case suffix) as [->|(r & c & ->)]; [by apply trim_id|].
    rewrite str_all_app, andb_true_iff in Hs. destruct Hs as [_ Hs]. cbn [str_all str1] in Hs.
    rewrite andb_true_r in Hs. apply plain_char_spec in Hs as (Hc & _).
    rewrite <- (str_app_cons dquote r), <- str_app_assoc. by apply trim_id.
Qed.

Lemma data_term_nonempty t : print_data_term t ≠ "".
Proof. destruct t as [uri|[|c pre] name|value suffix]; done. Qed.

Lemma lex_data_term m ts t :
  wf_data_term m t = true →
  pending (lex (between ts) (print_data_term t)) (ts ++ [print_data_term t]).
Proof.
  intros Hw. pose proof (data_term_trim m t Hw) as Ht.
  destruct t as [uri|pre name|value suffix]; cbn [wf_data_term print_data_term] in *.
  - apply andb_true_iff in Hw as [Hl Hr]. apply negb_true_iff in Hl, Hr. cbn [lex].
    change (lex_char (between ts) "<") with (set_uri true (holding ts "<")).
    rewrite lex_iri by done. apply pending_between.
  - rewrite !andb_true_iff in Hw. destruct Hw as [[[Hp Hn] _] _].
    change (between ts) with (holding ts "").
    rewrite lex_plain by (by apply name_plain).
    apply pending_holding; [by destruct pre|done].
  - change (escape value +:+ String dquote suffix) with
      (escape value +:+ (str1 dquote +:+ suffix)) in *.
    rewrite <- str_app_assoc in *. cbn [lex].
    change (lex_char (between ts) dquote) with (set_literal true (holding ts (str1 dquote))).
    rewrite lex_app, lex_literal, lex_plain by done. by apply pending_holding.
Qed.

(** Blanks complete a token, and more blanks change nothing. *)
Lemma lex_blank l ts c : pending l ts → is_blank c = true → lex_char l c = between ts.
Proof.
  intros (Hf & Hu & Hl & He) Hc. rewrite <- Hf. unfold lex_char. rewrite He, Hu, Hl.
  by destruct c as [[][][][][][][][]].
Qed.

Lemma lex_blanks l ts w :
  pending l ts → str_all is_blank w = true → w ≠ "" → lex l w = between ts.
Proof.
  revert l. induction w as [|c w IH]; intros l Hl; [done|]. cbn [str_all lex].
  rewrite andb_true_iff. intros [Hc Hw] _. rewrite (lex_blank _ ts) by done.
  destruct w as [|d w]; [done|]. by apply IH.
Qed.

Definition SEPARATORS : list string := [","; ";"; "."].

Lemma lex_separator l ts s :
  pending l ts → s ∈ SEPARATORS → lex l s = between (ts ++ [s]).
Proof.
  intros (Hf & Hu & Hl & He) Hs.
  assert (∃ c, s = str1 c ∧ is_separator c = true) as (c & -> & Hc).
  { unfold SEPARATORS in Hs. rewrite !elem_of_cons, elem_of_nil in Hs.
    destruct Hs as [->|[->|[->|[]]]]; by eexists. }
  cbn [lex str1].
  assert (lex_char l c = push_token (str1 c) (flush l)) as ->; [|by rewrite Hf].
  unfold lex_char. rewrite He, Hu, Hl. by destruct c as [[][][][][][][][]].
Qed.

(** *** Layout *)

(** Each token with the blanks before it. *)
Fixpoint layout (gaps toks : list string) : string :=
  match gaps, toks with
  | g :: gaps', t :: toks' => g +:+ (t +:+ layout gaps' toks')
  | _, _ => ""
  end.

(** Blanks are needed before a term, not before a separator. *)
Definition gap_ok (g t : string) : Prop :=
  str_all is_blank g = true ∧ (g ≠ "" ∨ t ∈ SEPARATORS).

Definition token_ok (m : prefix_map) (t : string) : Prop :=
  t ∈ SEPARATORS ∨ ∃ d, t = print_data_term d ∧ wf_data_term m d = true.

Lemma lex_between_token m ts t :
  token_ok m t → pending (lex (between ts) t) (ts ++ [t]).
Proof.
  intros [Hs|(d & -> & Hd)]; [|by eapply lex_data_term].
  rewrite (lex_separator _ ts) by done. apply pending_between.
Qed.

Lemma lex_layout m l ts gaps toks :
  pending l ts → Forall2 gap_ok gaps toks → Forall (token_ok m) toks →
  pending (lex l (layout gaps toks)) (ts ++ toks).
Proof.
  intros Hl Hg. revert l ts Hl.
  induction Hg as [|g t gaps toks [Hb Hn] Hg IH]; intros l ts Hl Ht.
  { by rewrite app_nil_r. }
  apply Forall_cons in Ht as [Ht Hts]. cbn [layout]. rewrite !lex_app.
  rewrite (cons_middle t ts toks), app_assoc. apply IH; [|done].
  destruct (decide (g = "")) as [->|Hg'].
  - destruct Hn as [?|Hn]; [done|]. cbn [lex]. rewrite (lex_separator _ ts) by done.
    apply pending_between.
  - rewrite (lex_blanks l ts g) by done. by eapply lex_between_token.
Qed.

(** Laid out tokens are read back. *)
Lemma tokenize_layout m gaps t toks :
  Forall2 gap_ok gaps toks → Forall (token_ok m) (t :: toks) →
  tokenize (t +:+ layout gaps toks) = t :: toks.
Proof.
  intros Hg [Ht Hts]%Forall_cons. unfold tokenize. rewrite lex_app.
  destruct (lex_layout m (lex lex_start t) [t] gaps toks) as [Hf _]; try done.
  - by apply (lex_between_token m []).
  - by rewrite Hf.
Qed.

(** ** Triples *)

Lemma expand_data_term m t :
  wf_data_term m t = true → expand_term m (print_data_term t) = Ok (data_meaning m t).
Proof.
  intros Hw. unfold expand_term. rewrite (data_term_trim m) by done.
  destruct t as [uri|pre name|value suffix]; cbn [wf_data_term print_data_term data_meaning] in *.
  - change "<" with (str1 "<"). change ">" with (str1 ">").
    by rewrite starts_with_cons, ends_with_cons_snoc.
  - rewrite !andb_true_iff, negb_true_iff, bool_decide_eq_true in Hw.
    destruct Hw as [[[Hp Hn] Hc] [base Hm]].
    pose proof (name_plain pre name Hp Hn) as Hpl.
    rewrite find_char_app by done. rewrite str_take_app, Hm.
    assert (str_drop (String.length pre + 1) (pre +:+ String ":" name) = name) as ->.
    { rewrite <- str_drop_drop. by rewrite str_drop_app. }
    destruct (pre +:+ String ":" name) as [|c r] eqn:E; [by destruct pre|].
    cbn [str_all] in Hpl. apply andb_true_iff in Hpl as [Hc' _].
    apply plain_char_spec in Hc' as (_ & _ & _ & Hl & Hq).
    change "<" with (str1 "<"). rewrite !starts_with_cons.
    rewrite Ascii.eqb_sym, Hl, Ascii.eqb_sym, Hq. done.
  - rewrite starts_with_other by done. by rewrite starts_with_cons.
Qed.

(** Terms are not separators. *)
Lemma term_not_separator m t s :
  wf_data_term m t = true → s ∈ SEPARATORS → String.eqb (print_data_term t) s = false.
Proof.
  intros Hw Hs. apply String.eqb_neq. intros E. subst s.
  unfold SEPARATORS in Hs. rewrite !elem_of_cons, elem_of_nil in Hs.
  destruct t as [uri|pre name|value suffix]; cbn [print_data_term] in Hs; [naive_solver| |naive_solver].
  destruct pre as [|c [|d pre]]; naive_solver.
Qed.

Section Extraction.
Context (m : prefix_map).

Notation wf t := (wf_data_term m t = true).

Lemma objects_step s p o sep ts :
  wf o →
  objects m s p (print_data_term o :: sep :: ts) =
    cons (s, p, data_meaning m o) <$>
      (if String.eqb sep "," then objects m s p ts
       else if String.eqb sep ";" then predicates m s ts
       else if String.eqb sep "." then subjects m ts
       else predicates m s (sep :: ts)).
Proof.
  intros Ho. cbn [objects]. rewrite expand_data_term by done. done.
Qed.

Lemma predicates_step s p ts :
  wf p → predicates m s (print_data_term p :: ts) = objects m s (data_meaning m p) ts.
Proof.
  intros Hp. cbn [predicates]. rewrite (term_not_separator m) by (try done; set_solver).
  rewrite expand_data_term by done. done.
Qed.

Lemma subjects_step s ts :
  wf s → subjects m (print_data_term s :: ts) = predicates m (data_meaning m s) ts.
Proof.
  intros Hs. cbn [subjects]. rewrite (term_not_separator m) by (try done; set_solver).
  rewrite expand_data_term by done. done.
Qed.

(** One predicate with its objects. *)
Lemma objects_run s p os sep ts :
  Forall (λ o, wf o) (os.1 :: os.2) → sep ≠ "," →
  objects m s p (object_tokens os ++ sep :: ts) =
    app (map (λ o, (s, p, data_meaning m o)) (os.1 :: os.2)) <$>
      (if String.eqb sep ";" then predicates m s ts
       else if String.eqb sep "." then subjects m ts
       else predicates m s (sep :: ts)).
Proof.
  destruct os as [o os]. cbn [fst snd]. intros Hw Hsep. revert o Hw.
  induction os as [|o' os IH]; intros o [Ho Hos]%Forall_cons.
  - cbn [object_tokens fst snd map concat app]. rewrite objects_step by done.
    apply String.eqb_neq in Hsep as ->. by case_match.
  - change (object_tokens (o, o' :: os) ++ sep :: ts) with
      (print_data_term o :: "," :: (object_tokens (o', os) ++ sep :: ts)).
    rewrite objects_step by done. cbn [String.eqb Ascii.eqb Bool.eqb]. rewrite IH by done.
    destruct (if String.eqb sep ";" then _ else _); done.
Qed.

(** The predicates of a subject, up to the period. *)
Lemma predicates_run s po more ts :
  Forall (λ q, Forall (λ o, wf o) (q.1 :: q.2.1 :: q.2.2)) (po :: more) →
  predicates m s (predicate_tokens po ++
      concat (map (λ q, ";" :: predicate_tokens q) more) ++ "." :: ts) =
    app (concat (map (λ q, map (λ o, (s, data_meaning m q.1, data_meaning m o))
                             (q.2.1 :: q.2.2)) (po :: more))) <$> subjects m ts.
Proof.
  revert po. induction more as [|q more IH]; intros po [Hpo Hmore]%Forall_cons;
    apply Forall_cons in Hpo as [Hp Hos];
    change (predicate_tokens po) with (print_data_term po.1 :: object_tokens po.2);
    rewrite <- app_comm_cons, predicates_step by done.
  - cbn [map concat app]. rewrite objects_run, app_nil_r by done. done.
  - cbn [map concat]. rewrite <- !app_comm_cons, <- app_assoc, objects_run by done.
    cbn [String.eqb Ascii.eqb Bool.eqb].
    rewrite (IH q Hmore).
    destruct (subjects m ts); try done.
    simpl. by repeat (rewrite <- app_assoc; simpl).
Qed.

Definition wf_statement (st : statement) : bool :=
  forallb (wf_data_term m) (statement_terms st).

Lemma wf_statement_spec st :
  wf_statement st = true →
  wf (st_subject st) ∧
  Forall (λ q, Forall (λ o, wf o) (q.1 :: q.2.1 :: q.2.2)) (st_first st :: st_more st).
Proof.
  unfold wf_statement, statement_terms. cbn [forallb]. rewrite andb_true_iff.
  intros [Hs Hq]. split; [done|]. revert Hq.
  induction (st_first st :: st_more st) as [|q qs IH]; [done|]. cbn [map concat].
  rewrite forallb_app, andb_true_iff. intros [Hq Hqs]. constructor; [|by auto].
  apply Is_true_true, forallb_True in Hq. eapply Forall_impl; [exact Hq|].
  intros t Ht. by apply Is_true_true.
Qed.

(** The statements of a block. *)
Lemma subjects_run sts :
  Forall (λ st, wf_statement st = true) sts →
  subjects m (concat (map statement_tokens sts)) = Ok (concat (map (statement_triples m) sts)).
Proof.
  induction 1 as [|st sts [Hs Hq]%wf_statement_spec _ IH]; [done|].
  cbn [map concat]. unfold statement_tokens at 1.
  rewrite <- app_comm_cons, subjects_step by done.
  rewrite <- !app_assoc. cbn [app]. rewrite predicates_run, IH by done. done.
Qed.

Lemma statement_tokens_ok st :
  wf_statement st = true → Forall (token_ok m) (statement_tokens st).
Proof.
  intros [Hs Hq]%wf_statement_spec.
  assert (Hterm : ∀ t, wf t → token_ok m (print_data_term t)) by (intros; right; eauto).
  assert (Hsep : ∀ s, s ∈ SEPARATORS → token_ok m s) by (intros; by left).
  assert (Hpo : ∀ q, Forall (λ o, wf o) (q.1 :: q.2.1 :: q.2.2) →
                     Forall (token_ok m) (predicate_tokens q)).
  { intros [p [o os]] Hall. cbn [fst snd] in Hall.
    apply Forall_cons in Hall as [Hp Hall]. apply Forall_cons in Hall as [Ho Hos].
    unfold predicate_tokens, object_tokens. cbn [fst snd].
    constructor; [by auto|]. constructor; [by auto|].
    induction Hos as [|x os Hx Hos IH]; [constructor|]. cbn [map concat app].
    constructor; [by apply Hsep; set_solver|]. constructor; [by auto|done]. }
  apply Forall_cons in Hq as [Hf Hm]. unfold statement_tokens.
  constructor; [by auto|]. rewrite !Forall_app. split_and!; [by auto| |].
  - induction Hm as [|q qs Hq Hqs IH]; [constructor|]. cbn [map concat].
    rewrite <- app_comm_cons. constructor; [by apply Hsep; set_solver|].
    rewrite Forall_app. by auto.
  - constructor; [|constructor]. apply Hsep. set_solver.
Qed.
End Extraction.

(** ** Prefix declarations *)

Definition newline : ascii := "010"%char.

Definition declaration : Type := string * string.

Definition print_declaration (d : declaration) : string :=
  "PREFIX " +:+ (d.1 +:+ (": <" +:+ (d.2 +:+ ">"))).

Fixpoint print_declarations (ds : list declaration) : string :=
  match ds with
  | [] => ""
  | d :: ds' => print_declaration d +:+ String newline (print_declarations ds')
  end.

Definition wf_declaration (d : declaration) : bool :=
  str_all (λ c, negb (is_whitespace c) && negb (Ascii.eqb ":" c)) d.1 &&
  negb (str_contains_char ">" d.2).

Definition declare (ds : list declaration) (m : prefix_map) : prefix_map :=
  fold_left (λ m d, <[d.1 := d.2]> m) ds m.

Lemma to_uppercase_app a b : to_uppercase (a +:+ b) = to_uppercase a +:+ to_uppercase b.
Proof.
  induction a as [|c a IH]; [done|]. rewrite str_app_cons. unfold to_uppercase in *.
  cbn [str_map]. by rewrite IH, str_app_cons.
Qed.

Lemma to_uppercase_length s : String.length (to_uppercase s) = String.length s.
Proof. induction s as [|c s IH]; [done|]. cbn. by f_equal. Qed.

Lemma find_char_head c s : find_char c (String c s) = Some 0.
Proof. cbn [find_char]. by rewrite Ascii.eqb_refl. Qed.

Lemma trim_start_word a s :
  str_all (λ c, negb (is_whitespace c)) a = true → ∀ c, is_whitespace c = false →
  trim_start (a +:+ String c s) = a +:+ String c s.
Proof.
  intros Ha c Hc. destruct a as [|d a].
  - change ("" +:+ ?x) with x. cbn [trim_start]. by rewrite Hc.
  - cbn [str_all] in Ha. apply andb_true_iff in Ha as [Hd _]. apply negb_true_iff in Hd.
    rewrite str_app_cons. cbn [trim_start]. by rewrite Hd.
Qed.

(** A declaration is read where it starts, and the position moves by its
    length. *)
Lemma read_declaration d s :
  wf_declaration d = true →
  read_prefix (print_declaration d +:+ s) =
    Ok (Some (d.1, d.2, String.length (print_declaration d))).
Proof.
  destruct d as [name uri]. unfold wf_declaration, print_declaration. cbn [fst snd].
  rewrite andb_true_iff, negb_true_iff. intros [Hn Hu].
  assert (str_all (λ c, negb (is_whitespace c)) name = true) as Hw.
  { eapply str_all_impl; [|exact Hn]. intros c. by intros [? _]%andb_true_iff. }
  assert (str_contains_char ":" name = false) as Hc.
  { apply contains_char_all. eapply str_all_impl; [|exact Hn].
    intros c. by intros [_ ?]%andb_true_iff. }
  set (tail := uri +:+ String ">" s).
  assert (("PREFIX " +:+ (name +:+ (": <" +:+ (uri +:+ ">")))) +:+ s =
          "PREFIX " +:+ (name +:+ String ":" (String " " (String "<" tail)))) as ->.
  { unfold tail. rewrite !str_app_assoc. do 3 f_equal. }
  unfold read_prefix. rewrite to_uppercase_app.
  rewrite (proj2 (starts_with_iff _ "PREFIX")) by (eexists; reflexivity).
  change (str_drop 6 ("PREFIX " +:+ ?x)) with (String " " x).
  change (trim_start (String " " ?x)) with (trim_start x).
  rewrite trim_start_word, find_char_app, str_take_app by done.
  assert (str_drop (String.length name + 1) (name +:+ String ":" (String " " (String "<" tail))) =
          String " " (String "<" tail)) as ->.
  { rewrite <- str_drop_drop. by rewrite str_drop_app. }
  change (trim_start (String " " (String "<" tail))) with (String "<" tail).
  rewrite find_char_head.
  assert (find_char ">" (String "<" tail) = Some (String.length uri + 1)) as ->.
  { cbn [find_char Ascii.eqb Bool.eqb]. unfold tail. rewrite find_char_app by done.
    simpl. f_equal. lia. }
  pose proof (str_slice_mid (E := SparqlError) "<" uri (String ">" s)) as Hslice.
  change (0 + 1) with 1. rewrite (Nat.add_comm (String.length uri)).
  change (String.length "<") with 1 in Hslice. change ("<" +:+ ?x) with (String "<" x) in Hslice.
  fold tail in Hslice. rewrite Hslice. cbn [mbind result_bind].
  rewrite (trim_word name) by done. do 2 f_equal.
  rewrite !str_app_length. simpl. rewrite ?str_app_length. simpl. f_equal. lia.
Qed.

(** Positions passed over. *)
Lemma prefix_loop_skip a acc s : prefix_loop (String.length a) acc (a +:+ s) = prefix_loop 0 acc s.
Proof. induction a as [|c a IH]; [done|]. rewrite str_app_cons. exact IH. Qed.

Lemma print_declaration_head d :
  ∃ a, print_declaration d = String "P" (a +:+ ">") .
Proof.
  destruct d as [name uri]. exists ("REFIX " +:+ (name +:+ (": <" +:+ uri))).
  unfold print_declaration. cbn [fst snd]. rewrite !str_app_assoc. done.
Qed.

Lemma prefix_loop_declaration d acc s :
  wf_declaration d = true →
  prefix_loop 0 acc (print_declaration d +:+ s) = prefix_loop 0 (<[d.1 := d.2]> acc) s.
Proof.
  intros Hd. pose proof (read_declaration d s Hd) as Hr.
  destruct (print_declaration_head d) as [a Ha]. rewrite Ha in *.
  rewrite str_app_cons in *. cbn [prefix_loop].
  change (trim_start (String "P" ?x)) with (String "P" x).
  cbn [String.eqb]. rewrite Hr. cbn [String.length].
  rewrite Nat.sub_succ, Nat.sub_0_r. apply prefix_loop_skip.
Qed.

(** After a line break the position ends up one short, on the closing bracket. *)
Lemma prefix_loop_line d acc s :
  wf_declaration d = true →
  prefix_loop 0 acc (String newline (print_declaration d +:+ s)) =
    prefix_loop 0 (<[d.1 := d.2]> acc) s.
Proof.
  intros Hd. pose proof (read_declaration d s Hd) as Hr.
  destruct (print_declaration_head d) as [a Ha]. rewrite Ha in *.
  cbn [prefix_loop]. rewrite str_app_cons in *.
  change (trim_start (String newline (String "P" ?x))) with (String "P" x).
  cbn [String.eqb]. rewrite Hr.
  assert (String.length (String "P" (a +:+ ">")) - 1 = String.length (String "P" a)) as ->.
  { cbn [String.length]. rewrite str_app_length. simpl. lia. }
  rewrite str_app_assoc, <- str_app_cons, prefix_loop_skip. change (">" +:+ s) with (String ">" s). done.
Qed.

Lemma prefix_loop_declarations ds acc :
  Forall (λ d, wf_declaration d = true) ds →
  prefix_loop 0 acc (String newline (print_declarations ds)) = Ok (declare ds acc).
Proof.
  intros Hds. revert acc. induction Hds as [|d ds Hd Hds IH]; intros acc; [done|].
  cbn [print_declarations]. rewrite prefix_loop_line by done. apply IH.
Qed.

Lemma prefix_section ds acc :
  Forall (λ d, wf_declaration d = true) ds →
  prefix_loop 0 acc (print_declarations ds) = Ok (declare ds acc).
Proof.
  intros [|d ds' Hd Hds]; [done|]. cbn [print_declarations].
  rewrite prefix_loop_declaration by done. by rewrite prefix_loop_declarations by done.
Qed.

(** ** Queries *)

Lemma prefix_app_inv p x r :
  String.prefix p (x +:+ r) = true → String.length p ≤ String.length x → String.prefix p x = true.
Proof.
  rewrite !str_prefix_iff. revert x. induction p as [|c p IH]; intros x [q Hq] Hl.
  - by exists x.
  - destruct x as [|d x]; [simpl in Hl; lia|]. rewrite !str_app_cons in Hq.
    injection Hq as -> Hq. destruct (IH x) as [y ->]; [by exists q|simpl in Hl; lia|].
    exists y. by rewrite str_app_cons.
Qed.

(** A search that first succeeds at the end of [a] is not affected by what
    follows. *)
Lemma str_find_extend a p r :
  str_find (a +:+ p) p = Some (String.length a) →
  str_find (a +:+ (p +:+ r)) p = Some (String.length a).
Proof.
  induction a as [|c a IH].
  - change ("" +:+ ?x) with x. intros _.
    assert (String.prefix p (p +:+ r) = true) as Hp by (apply str_prefix_iff; by exists r).
    destruct (p +:+ r); cbn [str_find]; by rewrite Hp.
  - rewrite !str_app_cons. cbn [str_find]. destruct (String.prefix p (String c (a +:+ p))) eqn:Hp.
    { done. }
    destruct (String.prefix p (String c (a +:+ (p +:+ r)))) eqn:Hq.
    + rewrite <- str_app_assoc, <- str_app_cons in Hq.
      apply prefix_app_inv in Hq; [congruence|]. simpl. rewrite str_app_length. lia.
    + destruct (str_find (a +:+ p) p) as [i|]; simpl; [|done]. intros [= ->].
      by rewrite IH.
Qed.

(** The matching brace of a block without braces. *)
Lemma brace_loop_block i s rest :
  str_contains_char "{" s = false → str_contains_char "}" s = false →
  brace_loop 1 i (s +:+ String "}" rest) = (0%Z, Some (i + String.length s)).
Proof.
  revert i. induction s as [|c s IH]; intros i.
  - intros _ _. simpl. by rewrite Nat.add_0_r.
  - cbn [str_contains_char]. rewrite !orb_false_iff. intros [Ho Hso] [Hc Hsc].
    rewrite Ascii.eqb_sym in Ho. rewrite Ascii.eqb_sym in Hc.
    rewrite str_app_cons. cbn [brace_loop]. rewrite Ho, Hc, IH by done.
    simpl. by rewrite Nat.add_succ_r.
Qed.

(** A block between braces. *)
Lemma extract_block s :
  str_contains_char "{" s = false → str_contains_char "}" s = false →
  extract_data_block ("INSERT DATA {" +:+ (s +:+ "}")) = Ok (trim s).
Proof.
  intros Ho Hc. unfold extract_data_block. rewrite to_uppercase_app.
  change (to_uppercase "INSERT DATA {") with ("INSERT DATA" +:+ " {"). rewrite str_app_assoc.
  assert (∀ r, str_find ("INSERT DATA" +:+ r) "INSERT DATA" = Some 0) as ->.
  { intros r. exact (str_find_extend "" "INSERT DATA" r eq_refl). }
  cbn [ok_or mbind result_bind].
  change (str_drop 0 ?x) with x.
  change ("INSERT DATA {" +:+ (s +:+ "}")) with ("INSERT DATA " +:+ String "{" (s +:+ "}")).
  rewrite find_char_app by done. cbn [ok_or mbind result_bind String.length].
  change (12 + 0) with (String.length "INSERT DATA "). rewrite str_drop_app.
  cbn [brace_loop Ascii.eqb Bool.eqb]. change (0 + 1)%Z with 1%Z.
  change (s +:+ "}") with (s +:+ String "}" ""). rewrite brace_loop_block by done.
  cbn [negb Z.eqb].
  pose proof (str_slice_mid (E := SparqlError) "INSERT DATA {" s "}") as Hs.
  change ("INSERT DATA {" +:+ ?x) with ("INSERT DATA " +:+ String "{" x) in Hs.
  change (String.length "INSERT DATA " + 1) with (String.length "INSERT DATA {").
  change (String.length "INSERT DATA " + (1 + String.length s)) with
    (String.length "INSERT DATA {" + String.length s).
  change (String "}" "") with "}".
  rewrite Hs. done.
Qed.

(** Blanks around a text are trimmed. *)
Lemma trim_start_blanks a s : str_all is_blank a = true → trim_start (a +:+ s) = trim_start s.
Proof.
  induction a as [|c a IH]; [done|]. cbn [str_all]. rewrite andb_true_iff.
  intros [Hc%blank_space Ha]. rewrite str_app_cons. cbn [trim_start]. rewrite Hc. by auto.
Qed.

Lemma trim_end_blanks s b : str_all is_blank b = true → trim_end (s +:+ b) = trim_end s.
Proof.
  revert s. induction b as [|c b IH]; intros s; [by rewrite str_app_nil_r|].
  cbn [str_all]. rewrite andb_true_iff. intros [Hc%blank_space Hb].
  change (String c b) with (str1 c +:+ b). rewrite <- str_app_assoc, IH by done.
  by rewrite trim_end_snoc, Hc.
Qed.

Lemma trim_fixed_head c s : trim (String c s) = String c s → is_whitespace c = false.
Proof. intros [r H]%trim_end_head. by eapply trim_start_head. Qed.

Lemma trim_blanks a s b :
  str_all is_blank a = true → str_all is_blank b = true → trim s = s →
  trim (a +:+ (s +:+ b)) = s.
Proof.
  intros Ha Hb Hs. unfold trim. rewrite trim_start_blanks by done.
  destruct s as [|c s].
  - change ("" +:+ b) with b. rewrite <- (str_app_nil_r b), trim_start_blanks by done. done.
  - pose proof (trim_fixed_head _ _ Hs) as Hc. unfold trim in Hs. cbn [trim_start] in Hs.
    rewrite Hc in Hs. rewrite str_app_cons. cbn [trim_start]. rewrite Hc, <- str_app_cons.
    by rewrite trim_end_blanks.
Qed.

(** The text of a query: declarations, then the tokens of the statements, the
    first after [open], the others after [gaps], the brace after [close]. *)
Definition print_query (ds : list declaration) (open : string) (gaps : list string)
    (sts : list statement) (close : string) : string :=
  print_declarations ds +:+ ("INSERT DATA {" +:+
    ((open +:+ (layout ("" :: gaps) (concat (map statement_tokens sts)) +:+ close)) +:+ "}")).

Definition no_braces (s : string) : bool :=
  negb (str_contains_char "{" s) && negb (str_contains_char "}" s).

(** The queries the parser reads as they are meant. *)
Record wf_query (ds : list declaration) (open : string) (gaps : list string)
    (sts : list statement) (close : string) : Prop := {
  wq_declarations : Forall (λ d, wf_declaration d = true) ds;
  wq_insert : str_find (to_uppercase (print_declarations ds +:+ "INSERT")) "INSERT" =
                Some (String.length (print_declarations ds));
  wq_open : str_all is_blank open = true;
  wq_close : str_all is_blank close = true;
  wq_gaps : Forall2 gap_ok gaps (tail (concat (map statement_tokens sts)));
  wq_statements :
    Forall (λ st, wf_statement (declare ds STANDARD_PREFIXES) st = true) sts;
  wq_braces : no_braces (layout ("" :: gaps) (concat (map statement_tokens sts))) = true;
}.

Lemma blank_no_braces s : str_all is_blank s = true → no_braces s = true.
Proof.
  intros Hs. unfold no_braces.
  by rewrite !(str_all_contains is_blank) by done.
Qed.

Lemma no_braces_app a b : no_braces (a +:+ b) = no_braces a && no_braces b.
Proof.
  unfold no_braces. rewrite !contains_char_app, !negb_orb.
  by destruct (str_contains_char "{" a), (str_contains_char "}" a),
    (str_contains_char "{" b), (str_contains_char "}" b).
Qed.

(** The whole text starts and ends with something to keep. *)
Lemma print_query_trim ds open gaps sts close :
  trim (print_query ds open gaps sts close) = print_query ds open gaps sts close.
Proof.
  unfold print_query. rewrite <- (str_app_assoc "INSERT DATA {"), <- str_app_assoc.
  destruct ds as [|d ds]; [by apply trim_id|]. cbn [print_declarations].
  destruct (print_declaration_head d) as [a ->]. rewrite !str_app_cons. by apply trim_id.
Qed.

(** The tokens of a block: a first one, and a period at the end. *)
Lemma block_tokens st sts :
  ∃ x l, concat (map statement_tokens (st :: sts)) = x :: l ++ ["."].
Proof.
  revert st. induction sts as [|st' sts IH]; intros st.
  - eexists _, _. cbn [map concat]. rewrite app_nil_r. unfold statement_tokens.
    rewrite app_assoc. done.
  - destruct (IH st') as (x & l & E). cbn [map concat] in *. rewrite E.
    exists (print_data_term (st_subject st)). eexists. unfold statement_tokens at 1.
    rewrite <- app_comm_cons. f_equal. rewrite (app_comm_cons l ["."] x), app_assoc. done.
Qed.

Lemma layout_last gaps toks t :
  Forall2 gap_ok gaps (toks ++ [t]) → ∃ x, layout gaps (toks ++ [t]) = x +:+ t.
Proof.
  revert gaps. induction toks as [|t' toks IH]; intros gaps H.
  - apply Forall2_cons_inv_r in H as (g & gaps' & _ & H & ->).
    exists g. apply Forall2_nil_inv_r in H as ->. simpl. by rewrite str_app_nil_r.
  - rewrite <- app_comm_cons in *. apply Forall2_cons_inv_r in H as (g & gaps' & _ & H & ->).
    destruct (IH gaps' H) as [x E]. exists (g +:+ (t' +:+ x)). cbn [layout]. rewrite E.
    by rewrite !str_app_assoc.
Qed.

Lemma token_ok_head m t : token_ok m t → ∃ c r, t = String c r ∧ is_whitespace c = false.
Proof.
  unfold token_ok, SEPARATORS. rewrite !elem_of_cons, elem_of_nil. destruct t as [|c r].
  - intros [[?|[?|[?|[]]]]|(d & Hd & _)]; try done. by destruct (data_term_nonempty d).
  - intros Ht. exists c, r. split; [done|].
    destruct Ht as [[E|[E|[E|[]]]]|(d & E & Hd)]; [by injection E as ->..|].
    apply (trim_fixed_head c r). rewrite E. by eapply data_term_trim.
Qed.

Lemma block_tokens_ok m sts :
  Forall (λ st, wf_statement m st = true) sts →
  Forall (token_ok m) (concat (map statement_tokens sts)).
Proof.
  induction 1 as [|st sts Hst _ IH]; [constructor|]. cbn [map concat].
  rewrite Forall_app. split; [by apply statement_tokens_ok|done].
Qed.

(** The block has nothing to trim, and its tokens are read back. *)
Lemma block_text m gaps sts :
  Forall (λ st, wf_statement m st = true) sts →
  Forall2 gap_ok gaps (tail (concat (map statement_tokens sts))) →
  let body := layout ("" :: gaps) (concat (map statement_tokens sts)) in
  trim body = body ∧ tokenize body = concat (map statement_tokens sts).
Proof.
  intros Hw Hg body. subst body. pose proof (block_tokens_ok m sts Hw) as Hok.
  destruct sts as [|st sts]; [done|]. destruct (block_tokens st sts) as (x & l & E).
  rewrite E in *. cbn [tail layout] in *. change ("" +:+ ?y) with y. split.
  - apply Forall_cons in Hok as [Hx _]. apply token_ok_head in Hx as (c & r & -> & Hc).
    destruct (layout_last gaps l "." Hg) as [y ->].
    rewrite <- str_app_assoc, str_app_cons. by apply trim_id.
  - by eapply tokenize_layout.
Qed.


(** ** A query *)

Definition sample_declarations : list declaration := [("ex", "http://ex.com/"); ("xsd", "urn:x:")].

Definition sample_statements : list statement :=
  [{| st_subject := DataName "ex" "s";
      st_first := (DataIri "urn:p", (DataLiteral "a.b" "@en", [DataLiteral "7" "^^xsd:integer"]));
      st_more := [(DataName "rdf" "type", (DataName "xsd" "T", []))] |};
   {| st_subject := DataIri "urn:t a";
      st_first := (DataName "ex" "p", (DataIri "urn:o", [])); st_more := [] |}].

Definition sample_gaps : list string :=
  [" "; " "; ""; " "; ""; " "; " "; " "; str1 newline; " "; " "; ""].

Lemma sample_query_wf : wf_query sample_declarations " " sample_gaps sample_statements " ".
Proof.
  split; try (vm_compute; reflexivity).
  - repeat constructor.
  - cbn. unfold sample_gaps.
    repeat apply Forall2_cons_2; try apply Forall2_nil_2;
      (split; [vm_compute; reflexivity|]);
      first [left; done | right; unfold SEPARATORS; set_solver].
  - repeat constructor.
Qed.


(** *** Outside the conditions *)

(** A blank node has a colon: it is taken for a name with the prefix [_]. *)
Lemma blank_node_rejected m label :
  str_all plain_char label = true → m !! "_" = None →
  expand_term m ("_:" +:+ label) = Err (UndefinedPrefix "_").
Proof.
  intros Hl Hm. unfold expand_term.
  rewrite trim_word by (cbn; by eapply str_all_impl; [apply plain_not_space|]).
  change ("_:" +:+ label) with (String "_" (String ":" label)).
  rewrite !starts_with_other by done. cbn. by rewrite Hm.
Qed.

Definition lit (s : string) : string := String dquote (s +:+ str1 dquote).

(** The data type of a literal, written as an IRI, becomes a token of its own. *)
Example typed_literal_rejected :
  parse_insert_data ("INSERT DATA { <urn:s> <urn:p> " +:+ (lit "42" +:+ "^^<urn:int> . }")) =
    Err (InvalidTerm ".").
Proof. vm_compute. reflexivity. Qed.

(** A brace inside a literal counts. *)
Example brace_in_literal_rejected :
  parse_insert_data ("INSERT DATA { <urn:s> <urn:p> " +:+ (lit "{" +:+ " . }")) =
    Err UnbalancedBraces.
Proof. vm_compute. reflexivity. Qed.

(** The keyword is found inside a declaration, which is then lost. *)
Example insert_in_prefix_rejected :
  parse_insert_data "PREFIX ex: <http://insert.com/> INSERT DATA { ex:s <urn:p> <urn:o> . }" =
    Err (UndefinedPrefix "ex").
Proof. vm_compute. reflexivity. Qed.

(** A closing bracket before the opening one is sliced backwards. *)
Example brackets_swapped_panics :
  parse_insert_data "PREFIX ex: > < INSERT DATA { }" = Panic.
Proof. vm_compute. reflexivity. Qed.
