(* ===== verification/ShardRegistry.v ===== *)
(** * Shard registry and automatic registration

    Models [governance/distributed/shard_metadata.rs], [shard_registry.rs] and
    [auto_registration.rs] of the coordinator: the cluster topology kept in memory
    and in RocksDB, and the handler that gives new shards an identifier and a
    hash range.  The data types of a shard are those of [CoordState].  RocksDB,
    bincode, the UUID parser and the order of [HashMap]s are parameters; the clock
    readings of one call are one argument [now], in seconds.  A panic poisons the
    lock of the topology, which is not modelled: it is an outcome of its own. *)

From Stdlib Require Import ZArith Lia Ascii.
From Stdlib Require String.
From stdpp Require Import base numbers option strings gmap list sorting.
From S2P Require Import Prelude RustStd F64 Bytes Effects HashRing CoordState.

Local Open Scope Z_scope.

(** ** Hash ranges *)

Definition U64_MAX : Z := 2 ^ 64 - 1.

#[global] Instance HashRange_eq_dec : EqDecision HashRange.
Proof. solve_decision. Defined.

#[global] Instance ShardMetadata_eq_dec : EqDecision ShardMetadata.
Proof. solve_decision. Defined.

Definition new_range (s e : Z) : HashRange := {| range_start := s; range_end := e |}.

(** [HashRange::contains]: the end is exclusive. *)
Definition range_contains (r : HashRange) (hash : Z) : bool :=
  (range_start r <=? hash) && (hash <? range_end r).

(** [HashRange::size]: a saturating subtraction. *)
Definition range_size (r : HashRange) : Z := Z.max 0 (range_end r - range_start r).

(** [HashRange::distribute]; the division panics without shards. *)
Definition distribute {E} (num_shards : Z) : result E (list HashRange) :=
  if num_shards =? 0 then Panic
  else
    let size := U64_MAX / num_shards in
    Ok (map (λ i : nat,
          new_range (Z.of_nat i * size)
            (if Z.of_nat i =? num_shards - 1 then U64_MAX else (Z.of_nat i + 1) * size))
        (seq 0 (Z.to_nat num_shards))).

(** ** Metadata *)

Definition new_metadata (id : ShardId) (r : HashRange) (leader : string) (replicas : list string)
    (now : Z) : ShardMetadata :=
  {| shard_id := id; hash_range := r; shard_status := Provisioning; leader_address := leader;
     replica_addresses := replicas; triple_count := 0; size_bytes := 0; last_heartbeat := now;
     raft_term := 0; created_at := now; updated_at := now |}.

(** [ShardMetadata::heartbeat]. *)
Definition heartbeat (now : Z) (s : ShardMetadata) : ShardMetadata :=
  {| shard_id := shard_id s; hash_range := hash_range s; shard_status := shard_status s;
     leader_address := leader_address s; replica_addresses := replica_addresses s;
     triple_count := triple_count s; size_bytes := size_bytes s; last_heartbeat := now;
     raft_term := raft_term s; created_at := created_at s; updated_at := now |}.

(** [ShardMetadata::update_stats]. *)
Definition update_stats (triples bytes now : Z) (s : ShardMetadata) : ShardMetadata :=
  {| shard_id := shard_id s; hash_range := hash_range s; shard_status := shard_status s;
     leader_address := leader_address s; replica_addresses := replica_addresses s;
     triple_count := triples; size_bytes := bytes; last_heartbeat := last_heartbeat s;
     raft_term := raft_term s; created_at := created_at s; updated_at := now |}.

(** The assignments of [update_shard_address]. *)
Definition set_address (address : string) (now : Z) (s : ShardMetadata) : ShardMetadata :=
  {| shard_id := shard_id s; hash_range := hash_range s; shard_status := shard_status s;
     leader_address := address; replica_addresses := replica_addresses s;
     triple_count := triple_count s; size_bytes := size_bytes s;
     last_heartbeat := last_heartbeat s; raft_term := raft_term s; created_at := created_at s;
     updated_at := now |}.

(** The assignments of [rebalance_hash_ranges]. *)
Definition set_range (r : HashRange) (now : Z) (s : ShardMetadata) : ShardMetadata :=
  {| shard_id := shard_id s; hash_range := r; shard_status := shard_status s;
     leader_address := leader_address s; replica_addresses := replica_addresses s;
     triple_count := triple_count s; size_bytes := size_bytes s;
     last_heartbeat := last_heartbeat s; raft_term := raft_term s; created_at := created_at s;
     updated_at := now |}.

Definition all_addresses (s : ShardMetadata) : list string :=
  leader_address s :: replica_addresses s.

(** ** Topology *)

Record ClusterTopology : Type := {
  total_shards : Z;
  replication_factor : Z;
  cluster_version : Z;
  topo_shards : gmap ShardId ShardMetadata;
  total_triples : Z;
  total_size_bytes : Z;
  topo_updated_at : Z;
}.

#[global] Instance ClusterTopology_eq_dec : EqDecision ClusterTopology.
Proof. solve_decision. Defined.

Definition new_topology (replication now : Z) : ClusterTopology :=
  {| total_shards := 0; replication_factor := replication; cluster_version := 0;
     topo_shards := ∅; total_triples := 0; total_size_bytes := 0; topo_updated_at := now |}.

(** The order in which [HashMap::values] lists a table. *)
Class HashOrder : Type := {
  hash_values : gmap ShardId ShardMetadata → list ShardMetadata;
}.

Class HashOrderOk `{HashOrder} : Prop := {
  hash_values_perm m : hash_values m ≡ₚ (map_to_list m).*2;
}.

(** ** Errors *)

Inductive ShardError : Type :=
  | DbFailed (e : string)
  | BadTopology
  | NoSuchShard (id : ShardId)
  | BadShardIdLength (n : nat)
  | EmptyMachineId
  | InvalidMachineId (id : string)
  | AlreadyRegistered (machine_id : string) (id : ShardId)
  | MaxShardsReached (n : Z)
  | InvalidSlot (id total : Z)
  | MachineMismatch (id : ShardId).

(** ** Crates *)

Inductive RegistryCf : Type := CfShards | CfTopology | CfMachineIds.

#[global] Instance RegistryCf_eq_dec : EqDecision RegistryCf.
Proof. solve_decision. Defined.

(** RocksDB. *)
Class RegistryDb : Type := {
  Rdb : Type;
  rdb_get : Rdb → RegistryCf → list byte → result string (option (list byte));
  rdb_put : Rdb → RegistryCf → list byte → list byte → result string Rdb;
  rdb_delete : Rdb → RegistryCf → list byte → result string Rdb;
  rdb_entries : Rdb → RegistryCf → result string (list (list byte * list byte));
}.

(** A read sees the last successful write; other keys keep what they had. *)
Class RegistryDbOk `{RegistryDb} : Prop := {
  rdb_get_put db cf k v db' : rdb_put db cf k v = Ok db' → rdb_get db' cf k = Ok (Some v);
  rdb_get_put_other db cf k v db' cf' k' :
    rdb_put db cf k v = Ok db' → (cf', k') ≠ (cf, k) → rdb_get db' cf' k' = rdb_get db cf' k';
  rdb_get_delete_other db cf k db' cf' k' :
    rdb_delete db cf k = Ok db' → (cf', k') ≠ (cf, k) → rdb_get db' cf' k' = rdb_get db cf' k';
}.

(** bincode and the UUID parser. *)
Class RegistryCodec : Type := {
  topology_bytes : ClusterTopology → list byte;
  topology_parse : list byte → option ClusterTopology;
  shard_bytes : ShardMetadata → list byte;
  uuid_valid : string → bool;
}.

Class RegistryCodecOk `{RegistryCodec} : Prop := {
  topology_roundtrip t : topology_parse (topology_bytes t) = Some t;
}.

(** ** Topology operations *)

Section Registry.
Context (overflow_checks : bool) `{HashOrder} `{RegistryDb} `{RegistryCodec}.

(** Unsigned arithmetic of [w] bits. *)
Definition checked {E} (w z : Z) : result E Z :=
  if (0 <=? z) && (z <? 2 ^ w) then Ok z
  else if overflow_checks then Panic else Ok (z mod 2 ^ w).

(** [iter().sum::<u64>()]. *)
Definition sum_u64 (l : list Z) : result ShardError Z := result_foldM (λ a x, checked 64 (a + x)) 0 l.

(** [recalculate_totals]. *)
Definition recalculate_totals (t : ClusterTopology) : result ShardError ClusterTopology :=
  triples ← sum_u64 (triple_count <$> hash_values (topo_shards t));
  bytes ← sum_u64 (size_bytes <$> hash_values (topo_shards t));
  Ok {| total_shards := total_shards t; replication_factor := replication_factor t;
        cluster_version := cluster_version t; topo_shards := topo_shards t;
        total_triples := triples; total_size_bytes := bytes;
        topo_updated_at := topo_updated_at t |}.

(** What [add_shard] and [remove_shard] do once the table has changed. *)
Definition bump (m : gmap ShardId ShardMetadata) (now : Z) (t : ClusterTopology)
    : result ShardError ClusterTopology :=
  v ← checked 64 (cluster_version t + 1);
  recalculate_totals
    {| total_shards := Z.of_nat (size m) mod 2 ^ 32; replication_factor := replication_factor t;
       cluster_version := v; topo_shards := m; total_triples := total_triples t;
       total_size_bytes := total_size_bytes t; topo_updated_at := now |}.

Definition topo_add_shard (s : ShardMetadata) (now : Z) (t : ClusterTopology)
    : result ShardError ClusterTopology :=
  bump (<[shard_id s := s]> (topo_shards t)) now t.

Definition topo_remove_shard (id : ShardId) (now : Z) (t : ClusterTopology)
    : result ShardError (ClusterTopology * option ShardMetadata) :=
  match topo_shards t !! id with
  | Some s => t' ← bump (delete id (topo_shards t)) now t; Ok (t', Some s)
  | None => Ok (t, None)
  end.

(** [find_shard_for_hash]: the first one of the table's order. *)
Definition find_shard_for_hash (t : ClusterTopology) (hash : Z) : option ShardMetadata :=
  snd <$> list_find (λ s, range_contains (hash_range s) hash = true) (hash_values (topo_shards t)).

Definition active_shards (t : ClusterTopology) : list ShardMetadata :=
  filter (λ s, shard_status s = Active) (hash_values (topo_shards t)).

(** [ShardMetadata::is_healthy]: an unsigned subtraction. *)
Definition shard_healthy (timeout now : Z) (s : ShardMetadata) : result ShardError bool :=
  age ← checked 64 (now - last_heartbeat s);
  Ok (age <? timeout).

Definition healthy_flags (timeout now : Z) (t : ClusterTopology)
    : result ShardError (list (ShardMetadata * bool)) :=
  result_mapM (λ s, (λ b, (s, b)) <$> shard_healthy timeout now s) (hash_values (topo_shards t)).

Definition healthy_shards (timeout now : Z) (t : ClusterTopology)
    : result ShardError (list ShardMetadata) :=
  fl ← healthy_flags timeout now t;
  Ok (filter (λ x, x.2 = true) fl).*1.

(** [count_by_status]. *)
Definition count_by_status (t : ClusterTopology) (st : ShardStatus) : nat :=
  length (filter (λ s, shard_status s = st) (hash_values (topo_shards t))).

(** ** The registry *)

Record ShardRegistry : Type := { topology : ClusterTopology; reg_db : Rdb }.

Abbreviation RegM := (method ShardRegistry ShardError).

Definition db_error {A} (r : result string A) : result ShardError A :=
  match r with
  | Ok a => Ok a
  | Err e => Err (DbFailed e)
  | Panic => Panic
  end.

Definition CURRENT : list byte := String.list_byte_of_string "current".

Definition shard_key (id : ShardId) : list byte := to_le_bytes 4 id.

Definition put_cf (cf : RegistryCf) (k v : list byte) : RegM unit :=
  λ r, match db_error (rdb_put (reg_db r) cf k v) with
       | Ok d => ({| topology := topology r; reg_db := d |}, Ok tt)
       | Err e => (r, Err e)
       | Panic => (r, Panic)
       end.

Definition delete_cf (cf : RegistryCf) (k : list byte) : RegM unit :=
  λ r, match db_error (rdb_delete (reg_db r) cf k) with
       | Ok d => ({| topology := topology r; reg_db := d |}, Ok tt)
       | Err e => (r, Err e)
       | Panic => (r, Panic)
       end.

Definition set_topology (t : ClusterTopology) : RegM unit :=
  modify (λ r, {| topology := t; reg_db := reg_db r |}).

(** [load_topology_from_db]. *)
Definition load_topology (d : Rdb) (replication now : Z) : result ShardError ClusterTopology :=
  bytes ← db_error (rdb_get d CfTopology CURRENT);
  match bytes with
  | Some bs => ok_or (topology_parse bs) BadTopology
  | None => Ok (new_topology replication now)
  end.

(** [ShardRegistry::new] on an open database. *)
Definition open_registry (d : Rdb) (replication now : Z) : result ShardError ShardRegistry :=
  t ← load_topology d replication now;
  Ok {| topology := t; reg_db := d |}.

Definition save_topology : RegM unit :=
  t ← gets topology;
  put_cf CfTopology CURRENT (topology_bytes t).

Definition register_shard (s : ShardMetadata) (now : Z) : RegM unit :=
  t ← gets topology;
  t' ← lift (topo_add_shard s now t);
  _ ← set_topology t';
  _ ← put_cf CfShards (shard_key (shard_id s)) (shard_bytes s);
  save_topology.

(** [register_shards_auto]: the addresses with the ranges [distribute] gives. *)
Definition register_shards_auto (addresses : list (ShardId * string * list string)) (now : Z)
    : RegM unit :=
  ranges ← lift (distribute (Z.of_nat (length addresses) mod 2 ^ 32));
  _ ← method_mapM (λ '(i, (id, leader, replicas)),
        r ← lift (match ranges !! i with Some r => Ok r | None => Panic end);
        register_shard (new_metadata id r leader replicas now) now)
      (imap pair addresses);
  mret tt.

Definition unregister_shard (id : ShardId) (now : Z) : RegM (option ShardMetadata) :=
  t ← gets topology;
  '(t', removed) ← lift (topo_remove_shard id now t);
  _ ← set_topology t';
  match removed with
  | Some s =>
      _ ← delete_cf CfShards (shard_key id);
      _ ← save_topology;
      mret (Some s)
  | None => mret None
  end.

(** A change of one entry, persisted in its own column family. *)
Definition update_shard (id : ShardId) (f : ShardMetadata → ShardMetadata) : RegM unit :=
  t ← gets topology;
  s ← lift (ok_or (topo_shards t !! id) (NoSuchShard id));
  _ ← set_topology
        {| total_shards := total_shards t; replication_factor := replication_factor t;
           cluster_version := cluster_version t; topo_shards := <[id := f s]> (topo_shards t);
           total_triples := total_triples t; total_size_bytes := total_size_bytes t;
           topo_updated_at := topo_updated_at t |};
  put_cf CfShards (shard_key id) (shard_bytes (f s)).

Definition update_heartbeat (id : ShardId) (now : Z) : RegM unit :=
  update_shard id (heartbeat now).

Definition update_shard_status (id : ShardId) (st : ShardStatus) : RegM unit :=
  update_shard id (λ s, with_status s st).

Definition update_shard_address (id : ShardId) (address : string) (now : Z) : RegM unit :=
  update_shard id (set_address address now).

Definition update_shard_stats (id : ShardId) (triples bytes now : Z) : RegM unit :=
  _ ← update_shard id (update_stats triples bytes now);
  t ← gets topology;
  t' ← lift (recalculate_totals t);
  _ ← set_topology t';
  save_topology.

Definition get_shard (id : ShardId) : RegM (option ShardMetadata) :=
  gets (λ r, topo_shards (topology r) !! id).

(** *** Machine identifiers *)

Definition store_machine_id_mapping (machine_id : string) (id : ShardId) : RegM unit :=
  put_cf CfMachineIds (String.list_byte_of_string machine_id) (to_le_bytes 4 id).

Definition get_shard_id_for_machine (machine_id : string) : RegM (option ShardId) :=
  λ r, (r, bytes ← db_error (rdb_get (reg_db r) CfMachineIds
                               (String.list_byte_of_string machine_id));
           match bytes with
           | Some bs =>
               if decide (length bs = 4%nat) then Ok (Some (from_le_bytes bs))
               else Err (BadShardIdLength (length bs))
           | None => Ok None
           end).

Definition delete_machine_id_mapping (machine_id : string) : RegM unit :=
  delete_cf CfMachineIds (String.list_byte_of_string machine_id).

(** Entries of the wrong length are skipped. *)
Definition decode_mappings (entries : list (list byte * list byte)) : list (string * ShardId) :=
  omap (λ '(k, v), if decide (length v = 4%nat)
                   then Some (String.string_of_list_byte k, from_le_bytes v)
                   else None) entries.

Definition get_all_machine_id_mappings : RegM (list (string * ShardId)) :=
  λ r, (r, decode_mappings <$> db_error (rdb_entries (reg_db r) CfMachineIds)).
End Registry.

(** * Automatic registration of shards

    Models [governance/distributed/auto_registration.rs]: a shard that starts is
    given the next identifier and a slice of the hash space, and the slices of all
    shards are computed again.  Calls for one machine exclude each other, calls
    for different machines do not: [plan_registration] is what a call decides from
    the topology it reads, [commit_registration] what it then writes. *)

Local Open Scope Z_scope.

Record RegistrationConfig : Type := {
  max_shards : Z;
  allow_duplicate_machines : bool;
}.

Record ShardRegistrationResult : Type := {
  reg_shard_id : ShardId;
  reg_hash_range : HashRange;
  topology_version : Z;
}.

(** [partition_range]: the slice of index [index] of [total] equal ones. *)
Definition partition_range {E} (index total : Z) : result E HashRange :=
  if negb (0 <? total) || negb (index <? total) then Panic
  else
    let s := (index * 2 ^ 64) / total in
    let e := ((index + 1) * 2 ^ 64) / total in
    Ok (new_range s (if 2 ^ 64 <=? e then U64_MAX else e)).

(** [calculate_hash_range_for_new_shard]. *)
Definition calculate_hash_range_for_new_shard (t : ClusterTopology) (id : ShardId)
    : result ShardError HashRange :=
  if decide (topo_shards t = ∅) then Ok (new_range 0 U64_MAX)
  else
    let total := total_shards t + 1 in
    if total <=? id then Err (InvalidSlot id total) else partition_range id total.

Section Registration.
Context (overflow_checks : bool) (config : RegistrationConfig).
Context `{HashOrder} `{RegistryDb} `{RegistryCodec}.

(** The registry, and the cache of machine identifiers. *)
Record AutoRegistrationHandler : Type := {
  registry : ShardRegistry;
  machine_id_map : gmap string ShardId;
}.

Abbreviation HandlerM := (method AutoRegistrationHandler ShardError).

(** A call of the registry. *)
Definition on_registry {A} (m : method ShardRegistry ShardError A) : HandlerM A :=
  λ h, let '(r, x) := m (registry h) in
       ({| registry := r; machine_id_map := machine_id_map h |}, x).

Definition update_map (f : gmap string ShardId → gmap string ShardId) : HandlerM unit :=
  modify (λ h, {| registry := registry h; machine_id_map := f (machine_id_map h) |}).

Definition validate_machine_id (machine_id : string) : result ShardError unit :=
  if String.eqb machine_id "" then Err EmptyMachineId
  else if uuid_valid machine_id then Ok tt else Err (InvalidMachineId machine_id).

(** [get_stored_machine_id]: the first mapping to the shard. *)
Definition get_stored_machine_id (id : ShardId) : HandlerM (option string) :=
  mappings ← on_registry get_all_machine_id_mappings;
  mret (fst <$> (snd <$> list_find (λ x : string * ShardId, x.2 = id) mappings)).

(** The loop of [find_existing_shard] over the shards of the topology. *)
Fixpoint search_machine (machine_id : string) (shards : list ShardMetadata)
    : HandlerM (option ShardId) :=
  match shards with
  | [] => mret None
  | s :: shards' =>
      stored ← get_stored_machine_id (shard_id s);
      if decide (stored = Some machine_id) then
        _ ← update_map (insert machine_id (shard_id s));
        mret (Some (shard_id s))
      else search_machine machine_id shards'
  end.

Definition find_existing_shard (machine_id : string) : HandlerM (option ShardId) :=
  cached ← gets (λ h, machine_id_map h !! machine_id);
  match cached with
  | Some id => mret (Some id)
  | None =>
      t ← gets (λ h, topology (registry h));
      search_machine machine_id (hash_values (topo_shards t))
  end.

(** The highest identifier of a table. *)
Definition max_id (m : gmap ShardId ShardMetadata) : Z :=
  foldr Z.max 0 (map_to_list m).*1.

Definition allocate_shard_id (t : ClusterTopology) : result ShardError ShardId :=
  if decide (topo_shards t = ∅) then Ok 0
  else checked overflow_checks 32 (max_id (topo_shards t) + 1).

(** [rebalance_hash_ranges]: the slices, in the order of the identifiers. *)
Definition sorted_ids (m : gmap ShardId ShardMetadata) : list ShardId :=
  merge_sort Z.le (map_to_list m).*1.

Definition rebalance_step (shard_count now : Z) (x : nat * ShardId) : HandlerM unit :=
  range ← lift (partition_range (Z.of_nat x.1) shard_count);
  shard ← on_registry (get_shard x.2);
  match shard with
  | Some s =>
      if decide (hash_range s = range) then mret tt
      else on_registry (register_shard overflow_checks (set_range range now s) now)
  | None => mret tt
  end.

Definition rebalance_hash_ranges (now : Z) : HandlerM unit :=
  t ← gets (λ h, topology (registry h));
  if total_shards t =? 0 then mret tt
  else
    _ ← method_mapM (rebalance_step (total_shards t) now)
          (imap pair (sorted_ids (topo_shards t)));
    mret tt.

(** [register_new_shard] up to the allocation of the slot. *)
Definition plan_registration (machine_id : string) : HandlerM (ShardId * HashRange) :=
  _ ← lift (validate_machine_id machine_id);
  existing ← (if allow_duplicate_machines config then mret None
              else find_existing_shard machine_id);
  match existing with
  | Some id => fail (AlreadyRegistered machine_id id)
  | None =>
      t ← gets (λ h, topology (registry h));
      if max_shards config <=? total_shards t then fail (MaxShardsReached (max_shards config))
      else
        t' ← gets (λ h, topology (registry h));
        id ← lift (allocate_shard_id t');
        range ← lift (calculate_hash_range_for_new_shard t id);
        mret (id, range)
  end.

(** The rest of [register_new_shard]. *)
Definition commit_registration (machine_id address : string) (now : Z)
    (plan : ShardId * HashRange) : HandlerM ShardRegistrationResult :=
  let '(id, range) := plan in
  _ ← on_registry (register_shard overflow_checks (new_metadata id range address [] now) now);
  _ ← update_map (insert machine_id id);
  _ ← on_registry (store_machine_id_mapping machine_id id);
  _ ← rebalance_hash_ranges now;
  t ← gets (λ h, topology (registry h));
  mret {| reg_shard_id := id;
          reg_hash_range := default range (hash_range <$> topo_shards t !! id);
          topology_version := cluster_version t |}.

Definition register_new_shard (machine_id address : string) (now : Z)
    : HandlerM ShardRegistrationResult :=
  plan ← plan_registration machine_id;
  commit_registration machine_id address now plan.

Definition reconnect_shard (id : ShardId) (machine_id address : string) (now : Z)
    : HandlerM ShardRegistrationResult :=
  found ← on_registry (get_shard id);
  shard ← lift (ok_or found (NoSuchShard id));
  stored ← get_stored_machine_id id;
  _ ← match stored with
      | Some m => if String.eqb m machine_id then mret tt else fail (MachineMismatch id)
      | None => on_registry (store_machine_id_mapping machine_id id)
      end;
  _ ← on_registry (update_shard_address id address now);
  _ ← on_registry (update_shard_status id Active);
  _ ← on_registry (update_heartbeat id now);
  _ ← update_map (insert machine_id id);
  t ← gets (λ h, topology (registry h));
  mret {| reg_shard_id := id; reg_hash_range := hash_range shard;
          topology_version := cluster_version t |}.

Definition deregister_shard (id : ShardId) (machine_id : string) (graceful : bool) (now : Z)
    : HandlerM unit :=
  stored ← get_stored_machine_id id;
  _ ← match stored with
      | Some m => if String.eqb m machine_id then mret tt else fail (MachineMismatch id)
      | None => mret tt
      end;
  if graceful then on_registry (update_shard_status id Draining)
  else
    _ ← on_registry (unregister_shard overflow_checks id now);
    _ ← update_map (filter (λ x, x.2 ≠ id));
    on_registry (delete_machine_id_mapping machine_id).
End Registration.
