(* ===== verification/ShardRegistryFacts.v ===== *)
(** * Hash ranges partition the hash space; what a restart keeps

    The two ways the coordinator slices the hash space leave no gap and no
    overlap below the last hash; every successful registration leaves the shards
    with such slices.  Removing a shard leaves a hole, and
    when it is not the last one no shard can register any more.  A restart reads
    the topology last saved, which changes of status, address and heartbeat do
    not reach. *)

From Stdlib Require Import ZArith Lia Ascii.
From stdpp Require Import base numbers option strings gmap list sorting.
From S2P Require Import Prelude RustStd Bytes Effects HashRing CoordState ShardRegistry.

Local Open Scope Z_scope.

(** The end of a method that returned. *)
Ltac inv_ret H := simpl in H; unfold mret, method_MRet, method_ret in H; simplify_eq/=.

(** ** Slices *)

(** Consecutive slices [f i, f (i + 1)) of a growing sequence. *)
Lemma slice_exists (f : nat → Z) n h :
  f 0%nat ≤ h < f n → ∃ i, (i < n)%nat ∧ f i ≤ h < f (S i).
Proof.
  induction n as [|n IH]; [lia|]. intros Hh.
  destruct (Z.lt_ge_cases h (f n)) as [Hlt|Hge].
  - destruct IH as (i & Hi & Hf); [lia|]. exists i. split; [lia|done].
  - exists n. split; [lia|]. lia.
Qed.

Lemma slice_unique (f : nat → Z) h i j :
  (∀ a b, (a ≤ b)%nat → f a ≤ f b) → f i ≤ h < f (S i) → f j ≤ h < f (S j) → i = j.
Proof.
  intros Hmono Hi Hj.
  destruct (Nat.lt_trichotomy i j) as [Hlt|[->|Hlt]]; [|done|];
    [specialize (Hmono (S i) j Hlt)|specialize (Hmono (S j) i Hlt)]; lia.
Qed.

(** The bound of index [i] of [partition_range]. *)
Definition bound (total : Z) (i : nat) : Z := Z.of_nat i * 2 ^ 64 / total.

Lemma bound_mono total a b : 0 < total → (a ≤ b)%nat → bound total a ≤ bound total b.
Proof. intros Ht Hab. unfold bound. apply Z.div_le_mono; lia. Qed.

Lemma bound_last total : 0 < total → bound total (Z.to_nat total) = 2 ^ 64.
Proof. intros Ht. unfold bound. rewrite Z2Nat.id by lia. rewrite Z.mul_comm. apply Z.div_mul. lia. Qed.

(** [partition_range] inside its bounds. *)
Lemma partition_range_Ok {E} total (i : nat) :
  (Z.of_nat i < total) →
  partition_range (E := E) (Z.of_nat i) total =
    Ok (new_range (bound total i) (Z.min (bound total (S i)) U64_MAX)).
Proof.
  intros Hi. unfold partition_range.
  replace (negb (0 <? total) || negb (Z.of_nat i <? total)) with false by lia.
  unfold new_range, bound. rewrite Nat2Z.inj_succ, <- Z.add_1_r. do 2 f_equal.
  unfold U64_MAX. destruct (Z.leb_spec (2 ^ 64) ((Z.of_nat i + 1) * 2 ^ 64 / total)); lia.
Qed.

Lemma partition_contains total i h :
  range_contains (new_range (bound total i) (Z.min (bound total (S i)) U64_MAX)) h = true ↔
  bound total i ≤ h < bound total (S i) ∧ h < U64_MAX.
Proof. unfold range_contains, new_range. simpl. lia. Qed.

(** [ranges] cut the hash space: every hash but the last is in exactly one. *)
Definition cuts (ranges : list HashRange) : Prop :=
  ∀ h, 0 ≤ h ≤ U64_MAX →
    (h < U64_MAX → ∃ i r, ranges !! i = Some r ∧ range_contains r h = true) ∧
    (∀ i j r r', ranges !! i = Some r → ranges !! j = Some r' →
       range_contains r h = true → range_contains r' h = true → i = j ∧ h < U64_MAX).

Lemma cuts_slices (f : nat → Z) n (r : nat → HashRange) :
  (∀ a b, (a ≤ b)%nat → f a ≤ f b) → f 0%nat = 0 → U64_MAX ≤ f n →
  (∀ i h, (i < n)%nat → 0 ≤ h ≤ U64_MAX →
     range_contains (r i) h = true ↔ f i ≤ h < f (S i) ∧ h < U64_MAX) →
  cuts (map r (seq 0 n)).
Proof.
  intros Hmono H0 Hn Hr h Hh. split.
  - intros Hlt. destruct (slice_exists f n h) as (i & Hi & Hf); [lia|].
    exists i, (r i). split; [|by apply Hr].
    rewrite <- (Nat.add_0_l i) at 2. by rewrite list_lookup_fmap, lookup_seq_lt.
  - intros i j x y. rewrite !list_lookup_fmap, !fmap_Some.
    intros (? & [-> Hi]%lookup_seq & ->) (? & [-> Hj]%lookup_seq & ->).
    rewrite !Hr by lia. intros [Hfi Hlt] [Hfj _].
    split; [by eapply slice_unique|done].
Qed.

(** [HashRange::distribute] cuts the hash space into as many ranges as there
    are shards: every hash below [u64::MAX] is in exactly one, [u64::MAX] itself
    in none; without shards the division panics. *)
Theorem distribute_cuts {E} num_shards :
  0 ≤ num_shards < 2 ^ 32 →
  if num_shards =? 0 then distribute (E := E) num_shards = Panic
  else ∃ ranges, distribute (E := E) num_shards = Ok ranges ∧
         length ranges = Z.to_nat num_shards ∧ cuts ranges.
Proof.
  intros Hn. unfold distribute. destruct (Z.eqb_spec num_shards 0) as [->|Hz]; [done|].
  set (size := U64_MAX / num_shards).
  assert (Hsize : 0 < size ∧ num_shards * size ≤ U64_MAX).
  { split; [apply Z.div_str_pos; unfold U64_MAX; lia|]. apply Z.mul_div_le. lia. }
  eexists. split; [done|]. rewrite length_map, length_seq. split; [done|].
  apply (cuts_slices (λ i, if Z.of_nat i <? num_shards then Z.of_nat i * size else U64_MAX)).
  - intros a b Hab. destruct (Z.ltb_spec (Z.of_nat a) num_shards),
      (Z.ltb_spec (Z.of_nat b) num_shards); nia.
  - by rewrite (proj2 (Z.ltb_lt _ _)) by lia.
  - rewrite (proj2 (Z.ltb_ge _ _)) by lia. done.
  - intros i h Hi Hh. unfold range_contains, new_range. cbn [range_start range_end].
    rewrite (proj2 (Z.ltb_lt (Z.of_nat i) num_shards)) by lia. rewrite Nat2Z.inj_succ.
    destruct (Z.eqb_spec (Z.of_nat i) (num_shards - 1)),
      (Z.ltb_spec (Z.succ (Z.of_nat i)) num_shards); nia.
Qed.

(** The slices of [partition_range]. *)
Definition slice (total : Z) (i : nat) : HashRange :=
  new_range (bound total i) (Z.min (bound total (S i)) U64_MAX).

Lemma slices_cut total : 0 < total → cuts (map (slice total) (seq 0 (Z.to_nat total))).
Proof.
  intros Ht. apply (cuts_slices (bound total)).
  - intros a b. by apply bound_mono.
  - done.
  - rewrite bound_last by done. unfold U64_MAX. lia.
  - intros i h _ _. apply partition_contains.
Qed.

(** ** Topologies *)

Section Facts.
Context (overflow_checks : bool).
Context `{HashOrderOk} `{RegistryDbOk} `{RegistryCodecOk}.

(** Entries are stored under their identifier, and the count is the table's. *)
Record wf_topology (t : ClusterTopology) : Prop := {
  wt_ids : ∀ k s, topo_shards t !! k = Some s → shard_id s = k;
  wt_total : total_shards t = Z.of_nat (size (topo_shards t)) mod 2 ^ 32;
}.

Lemma recalculate_Ok t t' :
  recalculate_totals overflow_checks t = Ok t' →
  topo_shards t' = topo_shards t ∧ total_shards t' = total_shards t ∧
  cluster_version t' = cluster_version t.
Proof.
  unfold recalculate_totals. intros Hr.
  apply result_bind_Ok in Hr as (a & _ & Hr). apply result_bind_Ok in Hr as (b & _ & Hr).
  by simplify_eq/=.
Qed.

Lemma bump_Ok m now t t' :
  bump overflow_checks m now t = Ok t' →
  topo_shards t' = m ∧ total_shards t' = Z.of_nat (size m) mod 2 ^ 32.
Proof.
  unfold bump. intros Hb. apply result_bind_Ok in Hb as (v & _ & Hb).
  by apply recalculate_Ok in Hb as (-> & -> & _).
Qed.

Lemma add_shard_wf s now t t' :
  topo_add_shard overflow_checks s now t = Ok t' → wf_topology t →
  wf_topology t' ∧ topo_shards t' = <[shard_id s := s]> (topo_shards t).
Proof.
  intros [Hs Ht]%bump_Ok [Hids _]. split; [|done]. split; [|by rewrite Ht, Hs].
  rewrite Hs. intros k s'. rewrite lookup_insert_Some. naive_solver.
Qed.

(** The shard of a hash, whatever the order of the table. *)
Lemma find_shard_Some t h s :
  find_shard_for_hash t h = Some s →
  (∃ k, topo_shards t !! k = Some s) ∧ range_contains (hash_range s) h = true.
Proof.
  unfold find_shard_for_hash. rewrite fmap_Some. intros ([i s'] & Hf & ->).
  apply list_find_Some in Hf as (Hi & Hc & _). split; [|done].
  apply list_elem_of_lookup_2 in Hi. rewrite hash_values_perm in Hi.
  apply list_elem_of_fmap in Hi as ([k s''] & -> & Hk). exists k.
  by apply elem_of_map_to_list in Hk.
Qed.

Lemma find_shard_None t h :
  find_shard_for_hash t h = None ↔
  ∀ k s, topo_shards t !! k = Some s → range_contains (hash_range s) h = false.
Proof.
  unfold find_shard_for_hash. rewrite fmap_None, list_find_None, Forall_forall.
  setoid_rewrite hash_values_perm. setoid_rewrite not_true_iff_false. split.
  - intros Hf k s Hk. apply Hf, list_elem_of_fmap. exists (k, s). split; [done|].
    by apply elem_of_map_to_list.
  - intros Hf s Hs. apply list_elem_of_fmap in Hs as ([k s'] & -> & Hk).
    apply elem_of_map_to_list in Hk. by eapply Hf.
Qed.

(** Every hash but the last has one owner. *)
Definition owned (t : ClusterTopology) : Prop :=
  ∀ h, 0 ≤ h ≤ U64_MAX →
    (h < U64_MAX → ∃ s, find_shard_for_hash t h = Some s) ∧
    (∀ k s k' s', topo_shards t !! k = Some s → topo_shards t !! k' = Some s' →
       range_contains (hash_range s) h = true → range_contains (hash_range s') h = true →
       k = k' ∧ h < U64_MAX).

(** The table with the slices of the identifiers in order. *)
Lemma owned_sliced t ids total :
  0 < total → length ids = Z.to_nat total →
  (∀ k, k ∈ ids ↔ is_Some (topo_shards t !! k)) →
  (∀ i k s, ids !! i = Some k → topo_shards t !! k = Some s → hash_range s = slice total i) →
  owned t.
Proof using All.
  intros Ht Hlen Hids Hr h Hh. destruct (slices_cut total Ht h Hh) as [Hex Huniq].
  assert (Hidx : ∀ k s, topo_shards t !! k = Some s →
    ∃ i, ids !! i = Some k ∧ map (slice total) (seq 0 (Z.to_nat total)) !! i = Some (hash_range s)).
  { intros k s Hk. assert (k ∈ ids) as Hin by (apply Hids; eauto).
    apply list_elem_of_lookup in Hin as [i Hi]. exists i. split; [done|].
    rewrite (Hr i k s Hi Hk), list_lookup_fmap, lookup_seq_lt; [done|].
    apply lookup_lt_Some in Hi. lia. }
  split.
  - intros Hlt. destruct (Hex Hlt) as (i & r & Hi & Hc).
    rewrite list_lookup_fmap, fmap_Some in Hi.
    destruct Hi as (j & [-> Hlt']%lookup_seq & ->).
    destruct (lookup_lt_is_Some_2 ids i) as [k Hk]; [lia|].
    assert (is_Some (topo_shards t !! k)) as [s Hs].
    { apply Hids. by eapply list_elem_of_lookup_2. }
    destruct (find_shard_for_hash t h) as [s'|] eqn:Hf; [eauto|].
    rewrite find_shard_None in Hf. specialize (Hf k s Hs).
    rewrite (Hr i k s Hk Hs) in Hf. simpl in Hc. congruence.
  - intros k s k' s' Hk Hk' Hc Hc'. destruct (Hidx k s Hk) as (i & Hi & Hri).
    destruct (Hidx k' s' Hk') as (j & Hj & Hrj).
    destruct (Huniq i j _ _ Hri Hrj Hc Hc') as [-> ?]. split; [congruence|done].
Qed.
(** ** Rebalancing *)

Context (config : RegistrationConfig).

Notation topo h := (topology (registry h)).

(** Only the range and the time of the last change differ. *)
Definition same_but_range (s s' : ShardMetadata) : Prop :=
  s' = set_range (hash_range s') (updated_at s') s.

Lemma same_but_range_refl s : same_but_range s s.
Proof. by destruct s. Qed.

Lemma same_but_range_trans a b c : same_but_range a b → same_but_range b c → same_but_range a c.
Proof. unfold same_but_range. intros -> ->. by destruct a. Qed.

Lemma put_cf_Ok cf k v (r r' : ShardRegistry) :
  put_cf cf k v r = (r', Ok tt) →
  topology r' = topology r ∧ rdb_put (reg_db r) cf k v = Ok (reg_db r').
Proof.
  unfold put_cf, db_error. destruct (rdb_put (reg_db r) cf k v); intros; by simplify_eq/=.
Qed.

Lemma register_shard_Ok s now r r' :
  register_shard overflow_checks s now r = (r', Ok tt) →
  topo_add_shard overflow_checks s now (topology r) = Ok (topology r').
Proof.
  unfold register_shard. intros Hr.
  apply method_bind_Ok in Hr as (r1 & t & [= <- <-] & Hr).
  apply method_bind_Ok in Hr as (r2 & t' & [= <- Ht] & Hr).
  apply method_bind_Ok in Hr as (r3 & [] & [= <-] & Hr).
  apply method_bind_Ok in Hr as (r4 & [] & [Hp _]%put_cf_Ok & Hr).
  apply method_bind_Ok in Hr as (r5 & t2 & [= <- <-] & [Hq _]%put_cf_Ok).
  by rewrite Hq, Hp, Ht.
Qed.

Lemma on_registry_Ok {A} (m : method ShardRegistry ShardError A) h h' a :
  on_registry m h = (h', Ok a) →
  m (registry h) = (registry h', Ok a) ∧ machine_id_map h' = machine_id_map h.
Proof.
  unfold on_registry. destruct (m (registry h)) as [r x]. intros ?. by simplify_eq/=.
Qed.

Lemma partition_range_slice {E} i total r :
  partition_range (E := E) (Z.of_nat i) total = Ok r → r = slice total i ∧ Z.of_nat i < total.
Proof.
  intros Hr. assert (Z.of_nat i < total) as Hlt.
  { unfold partition_range in Hr. destruct (0 <? total) eqn:?, (Z.of_nat i <? total) eqn:Hi;
      simpl in Hr; try done. lia. }
  rewrite partition_range_Ok in Hr by done. by simplify_eq.
Qed.

(** What a step does to the table. *)
Lemma rebalance_step_Ok total now i k h h' :
  rebalance_step overflow_checks total now (i, k) h = (h', Ok tt) → wf_topology (topo h) →
  wf_topology (topo h') ∧ Z.of_nat i < total ∧
  match topo_shards (topo h) !! k with
  | Some s => ∃ s', topo_shards (topo h') = <[k := s']> (topo_shards (topo h)) ∧
                hash_range s' = slice total i ∧ same_but_range s s'
  | None => topo_shards (topo h') = topo_shards (topo h)
  end.
Proof.
  unfold rebalance_step. cbn [fst snd]. intros Hs Hwf.
  apply method_bind_Ok in Hs as (h1 & r & [= <- Hr] & Hs).
  apply partition_range_slice in Hr as [-> Hi].
  apply method_bind_Ok in Hs as (h2 & o & Hg & Hs).
  unfold on_registry, get_shard, gets in Hg. simplify_eq/=.
  destruct (topo_shards (topo h) !! k) as [s|] eqn:Hk; [|by inv_ret Hs; split_and!].
  destruct (decide (hash_range s = slice total i)) as [Heq|Hne].
  - inv_ret Hs. split_and!; [done..|]. exists s.
    rewrite insert_id by done. split_and!; [done..|apply same_but_range_refl].
  - apply on_registry_Ok in Hs as [Hs _]. apply register_shard_Ok in Hs.
    destruct (add_shard_wf _ _ _ _ Hs) as [Hwf' Ht]; [done|].
    rewrite Ht. split_and!; [done..|]. exists (set_range (slice total i) now s).
    simpl. rewrite (wt_ids _ Hwf k s Hk). by split_and!.
Qed.

Lemma rebalance_loop_Ok total now l h h' us :
  method_mapM (rebalance_step overflow_checks total now) l h = (h', Ok us) →
  wf_topology (topo h) → NoDup l.*2 →
  wf_topology (topo h') ∧
  (∀ i k, (i, k) ∈ l → Z.of_nat i < total) ∧
  (∀ i k s', (i, k) ∈ l → topo_shards (topo h') !! k = Some s' → hash_range s' = slice total i) ∧
  (∀ k, k ∉ l.*2 → topo_shards (topo h') !! k = topo_shards (topo h) !! k) ∧
  (∀ k, option_relation same_but_range (λ _, False) (λ _, False)
          (topo_shards (topo h) !! k) (topo_shards (topo h') !! k)).
Proof.
  revert h us. induction l as [|[i k] l IH]; intros h us Hm Hwf Hnd.
  - inv_ret Hm. split_and!; [done|set_solver|set_solver|done|].
    intros k. destruct (_ !! k); simpl; [apply same_but_range_refl|done].
  - apply method_bind_Ok in Hm as (h1 & [] & Hs & Hm).
    apply method_bind_Ok in Hm as (h2 & us' & Hl & [= -> <-]).
    destruct (rebalance_step_Ok _ _ _ _ _ _ Hs Hwf) as (Hwf1 & Hi & Hstep).
    apply NoDup_cons in Hnd as [Hk Hnd].
    destruct (IH _ _ Hl Hwf1 Hnd) as (Hwf' & Hlt & Hr & Ho & Hsame). clear IH.
    assert (Hother : ∀ k', k' ≠ k → topo_shards (topo h1) !! k' = topo_shards (topo h) !! k').
    { intros k' Hk'. destruct (topo_shards (topo h) !! k); [|by rewrite Hstep].
      destruct Hstep as (s' & -> & _). by rewrite lookup_insert_ne. }
    split_and!; [done|..].
    + intros i' k'. rewrite elem_of_cons. intros [[= -> ->]|Hin]; [done|by eapply Hlt].
    + intros i' k' s'. rewrite elem_of_cons. intros [[= -> ->]|Hin]; [|by apply Hr].
      rewrite Ho by done. destruct (topo_shards (topo h) !! k) as [s|] eqn:E.
      * destruct Hstep as (x & -> & Hx & _). rewrite lookup_insert_eq. by intros [= <-].
      * rewrite Hstep, E. done.
    + intros k' Hk'. cbn [fmap list_fmap snd] in Hk'. rewrite Ho, Hother; [done|set_solver..].
    + intros k'. specialize (Hsame k'). destruct (decide (k' = k)) as [->|Hne].
      * destruct (topo_shards (topo h) !! k) as [s|] eqn:E.
        -- destruct Hstep as (x & Hx & _ & Hsx). rewrite Hx, lookup_insert_eq in Hsame.
           destruct (topo_shards (topo h') !! k); simpl in *; [|done].
           by eapply same_but_range_trans.
        -- by rewrite Hstep, E in Hsame.
      * by rewrite Hother in Hsame.
Qed.
Lemma sorted_ids_perm (m : gmap ShardId ShardMetadata) : sorted_ids m ≡ₚ (map_to_list m).*1.
Proof. apply merge_sort_Permutation. Qed.

Lemma sorted_ids_spec (m : gmap ShardId ShardMetadata) :
  NoDup (sorted_ids m) ∧ length (sorted_ids m) = size m ∧
  ∀ k, k ∈ sorted_ids m ↔ is_Some (m !! k).
Proof.
  split_and!.
  - rewrite sorted_ids_perm. apply NoDup_fst_map_to_list.
  - rewrite sorted_ids_perm, length_fmap. apply length_map_to_list.
  - intros k. rewrite sorted_ids_perm, list_elem_of_fmap. split.
    + intros ([k' s] & -> & Hk). apply elem_of_map_to_list in Hk. eauto.
    + intros [s Hk]. exists (k, s). split; [done|]. by apply elem_of_map_to_list.
Qed.

Lemma elem_of_imap_pair {A} (l : list A) i k : (i, k) ∈ imap pair l ↔ l !! i = Some k.
Proof.
  rewrite list_elem_of_lookup. setoid_rewrite list_lookup_imap. split.
  - intros [j Hj]. apply fmap_Some in Hj as (x & Hx & [= -> ->]). done.
  - intros Hi. exists i. by rewrite Hi.
Qed.

(** After rebalancing every hash but the last has one owner, and nothing but the
    ranges has changed. *)
Lemma rebalance_Ok now h h' :
  rebalance_hash_ranges overflow_checks now h = (h', Ok tt) → wf_topology (topo h) →
  topo_shards (topo h) ≠ ∅ → Z.of_nat (size (topo_shards (topo h))) < 2 ^ 32 →
  wf_topology (topo h') ∧ owned (topo h') ∧
  (∀ k, option_relation same_but_range (λ _, False) (λ _, False)
          (topo_shards (topo h) !! k) (topo_shards (topo h') !! k)).
Proof using All.
  intros Hr Hwf Hne Hsz. unfold rebalance_hash_ranges in Hr.
  apply method_bind_Ok in Hr as (h1 & t & [= <- <-] & Hr).
  pose proof (wt_total _ Hwf) as Ht. rewrite Z.mod_small in Ht by lia.
  assert (0 < total_shards (topo h)) as Hpos.
  { rewrite Ht. assert (size (topo_shards (topo h)) ≠ 0%nat); [|lia].
    intros E. by apply map_size_empty_inv in E. }
  rewrite (proj2 (Z.eqb_neq _ _)) in Hr by lia.
  apply method_bind_Ok in Hr as (h2 & us & Hl & Hr). inv_ret Hr.
  destruct (sorted_ids_spec (topo_shards (topo h))) as (Hnd & Hlen & Hin).
  apply rebalance_loop_Ok in Hl as (Hwf' & _ & Hrange & _ & Hsame);
    [|done|by rewrite imap_pair_snd].
  split_and!; [done| |done].
  apply (owned_sliced _ (sorted_ids (topo_shards (topo h))) (total_shards (topo h))).
  - done.
  - rewrite Hlen, Ht. lia.
  - intros k. rewrite Hin. specialize (Hsame k).
    destruct (topo_shards (topo h) !! k), (topo_shards (topo h') !! k); simpl in Hsame;
      try done; by split; intros [? ?].
  - intros i k s Hi Hk. eapply Hrange; [|exact Hk]. by apply elem_of_imap_pair.
Qed.

(** ** Registration *)

(** Planning reads the registry and changes at most the cache. *)
Lemma stored_keeps_registry id r :
  preserves (λ h, registry h = r) (get_stored_machine_id id).
Proof.
  unfold get_stored_machine_id. apply preserves_bind; [|intros; apply preserves_ret].
  intros h h' x Hm Hh. unfold on_registry, get_all_machine_id_mappings in Hm. by simplify_eq/=.
Qed.

Lemma search_keeps_registry machine_id l r :
  preserves (λ h, registry h = r) (search_machine machine_id l).
Proof.
  induction l as [|s l IH]; simpl; [apply preserves_ret|].
  apply preserves_bind; [apply stored_keeps_registry|]. intros o.
  case_decide; [|done]. apply preserves_bind; [|intros; apply preserves_ret].
  by apply preserves_modify.
Qed.

Lemma find_keeps_registry machine_id r :
  preserves (λ h, registry h = r) (find_existing_shard machine_id).
Proof. unfold find_existing_shard. walk_method; apply search_keeps_registry. Qed.

Lemma plan_keeps_registry machine_id r :
  preserves (λ h, registry h = r) (plan_registration overflow_checks config machine_id).
Proof. unfold plan_registration. walk_method; apply find_keeps_registry. Qed.

(** C20: a successful registration leaves a topology in which every hash below
    [u64::MAX] has exactly one owner, whatever the order of the hash tables; the
    new shard is in it with the range returned, and the shards that were there
    keep everything but their range. *)
Theorem registration_partitions machine_id address now h h' r :
  register_new_shard overflow_checks config machine_id address now h = (h', Ok r) →
  wf_topology (topo h) → Z.of_nat (size (topo_shards (topo h))) < 2 ^ 32 - 1 →
  wf_topology (topo h') ∧ owned (topo h') ∧
  (∃ s, topo_shards (topo h') !! reg_shard_id r = Some s ∧ leader_address s = address ∧
        hash_range s = reg_hash_range r) ∧
  (∀ k s, topo_shards (topo h) !! k = Some s → k ≠ reg_shard_id r →
     ∃ s', topo_shards (topo h') !! k = Some s' ∧ same_but_range s s').
Proof using All.
  intros Hr Hwf Hsz. unfold register_new_shard in Hr.
  apply method_bind_Ok in Hr as (h1 & [id range] & Hp & Hr).
  assert (topo h1 = topo h) as Hp1.
  { apply f_equal. by eapply (plan_keeps_registry machine_id (registry h)); [exact Hp|]. }
  unfold commit_registration in Hr.
  apply method_bind_Ok in Hr as (h2 & [] & Hreg & Hr).
  apply on_registry_Ok in Hreg as [Hreg _]. apply register_shard_Ok in Hreg.
  rewrite Hp1 in Hreg. destruct (add_shard_wf _ _ _ _ Hreg Hwf) as [Hwf2 Hs2].
  apply method_bind_Ok in Hr as (h3 & [] & [= <-] & Hr).
  apply method_bind_Ok in Hr as (h4 & [] & Hst & Hr).
  apply on_registry_Ok in Hst as [[Ht4 _]%put_cf_Ok _]. simpl in Ht4.
  apply method_bind_Ok in Hr as (h5 & [] & Hb & Hr).
  apply method_bind_Ok in Hr as (h6 & t & [= <- <-] & Hr). inv_ret Hr.
  rewrite <- Ht4 in Hwf2, Hs2. clear Hreg.
  destruct (rebalance_Ok _ _ _ Hb) as (Hwf5 & Hown & Hsame); [done|..].
  - rewrite Hs2. apply insert_non_empty.
  - rewrite Hs2, map_size_insert. destruct (topo_shards (topo h) !! _); simpl; lia.
  - split_and!; [done|done|..].
    + specialize (Hsame id). rewrite Hs2 in Hsame. simpl in Hsame.
      rewrite lookup_insert_eq in Hsame. simpl in *.
      destruct (topo_shards (topo h') !! id) as [s|] eqn:E; [|done]. exists s.
      simpl in *. split_and!; [done| |done]. by rewrite Hsame.
    + intros k s Hk Hne. specialize (Hsame k). rewrite Hs2 in Hsame. simpl in *.
      rewrite lookup_insert_ne, Hk in Hsame by done.
      destruct (topo_shards (topo h') !! k) as [s'|]; [|done]. eauto.
Qed.
(** ** Deregistration *)

Lemma max_id_spec (m : gmap ShardId ShardMetadata) k : is_Some (m !! k) → k ≤ max_id m.
Proof.
  intros [s Hk]. assert (k ∈ (map_to_list m).*1) as Hin.
  { apply list_elem_of_fmap. exists (k, s). split; [done|]. by apply elem_of_map_to_list. }
  unfold max_id. induction (map_to_list m).*1 as [|x l IH]; simpl; [set_solver|].
  apply elem_of_cons in Hin as [->|Hin]; [lia|]. specialize (IH Hin). lia.
Qed.

Lemma max_id_in (m : gmap ShardId ShardMetadata) :
  m ≠ ∅ → (∀ k, is_Some (m !! k) → 0 ≤ k) → is_Some (m !! max_id m).
Proof.
  intros Hne Hpos. assert (∀ x, x ∈ (map_to_list m).*1 → is_Some (m !! x)) as Hin.
  { intros x ([k s] & -> & Hk)%list_elem_of_fmap. apply elem_of_map_to_list in Hk. eauto. }
  assert ((map_to_list m).*1 ≠ []) as Hnil.
  { intros E%fmap_nil_inv. by apply map_to_list_empty_iff in E. }
  unfold max_id. assert (∀ l, l ≠ [] → (∀ x, x ∈ l → 0 ≤ x) → foldr Z.max 0 l ∈ l) as Hmax.
  { intros l. induction l as [|x l IH]; [done|]. intros _ Hl. simpl.
    destruct l as [|y l]; [simpl; rewrite Z.max_l by (apply Hl; left); left|].
    destruct (Z.max_spec x (foldr Z.max 0 (y :: l))) as [[_ ->]|[_ ->]]; [right|left].
    apply IH; [done|]. intros z Hz. apply Hl. by right. }
  apply Hin, Hmax; [done|]. auto.
Qed.

(** There are no more entries than identifiers up to the highest. *)
Lemma size_max_id (m : gmap ShardId ShardMetadata) :
  (∀ k, is_Some (m !! k) → 0 ≤ k) → m ≠ ∅ → Z.of_nat (size m) ≤ max_id m + 1.
Proof.
  intros Hpos Hne. destruct (sorted_ids_spec m) as (Hnd & Hlen & Hin). rewrite <- Hlen.
  pose proof (max_id_in m Hne Hpos) as Hmax. pose proof (Hpos _ Hmax).
  assert (sorted_ids m ⊆+ seqZ 0 (max_id m + 1)) as Hsub.
  { apply NoDup_submseteq; [done|]. intros k Hk%Hin. apply elem_of_seqZ.
    pose proof (max_id_spec m k Hk). split; [by auto|lia]. }
  apply submseteq_length in Hsub. rewrite length_seqZ in Hsub. lia.
Qed.

Lemma delete_cf_Ok cf k (r r' : ShardRegistry) :
  delete_cf cf k r = (r', Ok tt) →
  topology r' = topology r ∧ rdb_delete (reg_db r) cf k = Ok (reg_db r').
Proof.
  unfold delete_cf, db_error. destruct (rdb_delete (reg_db r) cf k); intros; by simplify_eq/=.
Qed.

Lemma save_topology_Ok (r r' : ShardRegistry) :
  save_topology r = (r', Ok tt) →
  topology r' = topology r ∧
  rdb_put (reg_db r) CfTopology CURRENT (topology_bytes (topology r)) = Ok (reg_db r').
Proof. intros Hs. by apply put_cf_Ok in Hs. Qed.

Lemma unregister_Ok id now r r' x :
  unregister_shard overflow_checks id now r = (r', Ok x) → wf_topology (topology r) →
  x = topo_shards (topology r) !! id ∧ wf_topology (topology r') ∧
  topo_shards (topology r') = delete id (topo_shards (topology r)).
Proof.
  unfold unregister_shard. intros Hr Hwf.
  apply method_bind_Ok in Hr as (r1 & t & [= <- <-] & Hr).
  apply method_bind_Ok in Hr as (r2 & [t' removed] & [= <- Ht] & Hr).
  apply method_bind_Ok in Hr as (r3 & [] & [= <-] & Hr).
  unfold topo_remove_shard in Ht.
  destruct (topo_shards (topology r) !! id) as [s|] eqn:Hid; simplify_eq.
  - apply result_bind_Ok in Ht as (t1 & Hb & ?). simplify_eq.
    apply bump_Ok in Hb as [Hs Htot].
    apply method_bind_Ok in Hr as (r4 & [] & [Hd _]%delete_cf_Ok & Hr).
    apply method_bind_Ok in Hr as (r5 & [] & [He _]%save_topology_Ok & Hr).
    injection Hr as <- <-. rewrite He, Hd. simpl. split_and!; [done| |done]. split; [|by rewrite Htot, Hs].
    rewrite Hs. intros k s' [_ Hk]%lookup_delete_Some. by apply (wt_ids _ Hwf).
  - inv_ret Hr. split_and!; [done|done|]. by rewrite delete_id.
Qed.

Lemma deregister_Ok id machine_id now h h' :
  deregister_shard overflow_checks id machine_id false now h = (h', Ok tt) →
  wf_topology (topo h) →
  wf_topology (topo h') ∧ topo_shards (topo h') = delete id (topo_shards (topo h)).
Proof.
  unfold deregister_shard. intros Hd Hwf.
  apply method_bind_Ok in Hd as (h1 & stored & Hs & Hd).
  pose proof (stored_keeps_registry id (registry h) _ _ _ Hs eq_refl) as Hs1. cbv beta in Hs1.
  apply method_bind_Ok in Hd as (h2 & [] & Hc & Hd).
  assert (registry h2 = registry h) as Hr2.
  { destruct stored as [m|]; [destruct (String.eqb m machine_id)|]; unfold fail in Hc;
      by inv_ret Hc. }
  apply method_bind_Ok in Hd as (h3 & x & Hu & Hd).
  apply on_registry_Ok in Hu as [Hu _]. rewrite Hr2 in Hu.
  apply unregister_Ok in Hu as (_ & Hwf3 & Hs3); [|done].
  apply method_bind_Ok in Hd as (h4 & [] & [= <-] & Hd).
  apply on_registry_Ok in Hd as [[Hd _]%delete_cf_Ok _]. simpl in Hd. by rewrite Hd.
Qed.

(** The slot of a plan is below the number of shards it makes. *)
Lemma plan_slot machine_id h h' id range :
  plan_registration overflow_checks config machine_id h = (h', Ok (id, range)) →
  topo_shards (topo h) ≠ ∅ → max_id (topo_shards (topo h)) < 2 ^ 32 - 1 →
  (∀ k, is_Some (topo_shards (topo h) !! k) → 0 ≤ k) →
  id = max_id (topo_shards (topo h)) + 1 ∧ id ≤ total_shards (topo h).
Proof.
  intros Hp Hne Hmax Hpos. unfold plan_registration in Hp.
  apply method_bind_Ok in Hp as (h2 & [] & [= <- _] & Hp).
  apply method_bind_Ok in Hp as (h3 & existing & He & Hp).
  assert (registry h3 = registry h) as Hr3.
  { destruct (allow_duplicate_machines config); [by inv_ret He|].
    by eapply find_keeps_registry; [exact He|]. }
  destruct existing as [e|]; [done|].
  apply method_bind_Ok in Hp as (h4 & t & [= <- <-] & Hp). rewrite Hr3 in Hp.
  destruct (max_shards config <=? total_shards (topo h)); [done|].
  apply method_bind_Ok in Hp as (h5 & t' & [= <- <-] & Hp). rewrite Hr3 in Hp.
  apply method_bind_Ok in Hp as (h6 & id' & [= <- Ha] & Hp).
  apply method_bind_Ok in Hp as (h7 & range' & [= <- Hc] & Hp). inv_ret Hp.
  unfold allocate_shard_id in Ha. rewrite decide_False in Ha by done.
  pose proof (Hpos _ (max_id_in _ Hne Hpos)).
  unfold checked in Ha. replace (_ && _) with true in Ha by lia. simplify_eq.
  split; [done|]. unfold calculate_hash_range_for_new_shard in Hc.
  rewrite decide_False in Hc by done. case_match; [done|]. lia.
Qed.

(** A table with fewer entries than identifiers gives no slot to a new shard. *)
Lemma sparse_table_refuses machine_id address now h h' x :
  register_new_shard overflow_checks config machine_id address now h = (h', x) →
  topo_shards (topo h) ≠ ∅ → (∀ k, is_Some (topo_shards (topo h) !! k) → 0 ≤ k) →
  total_shards (topo h) ≤ max_id (topo_shards (topo h)) < 2 ^ 32 - 1 →
  (∀ r, x ≠ Ok r) ∧ topo h' = topo h.
Proof.
  intros Hr Hne Hpos Hmax. unfold register_new_shard in Hr.
  apply method_bind_inv in Hr as [(h1 & [id range] & Hp & _)|[(e & Hp & ->)|[Hp ->]]].
  - apply plan_slot in Hp as [-> ?]; [lia|done|lia|done].
  - split; [done|]. f_equal. by eapply plan_keeps_registry; [exact Hp|].
  - split; [done|]. f_equal. by eapply plan_keeps_registry; [exact Hp|].
Qed.

(** Removing a shard leaves its hashes without an owner, and when it is not
    the one with the highest identifier, no registration succeeds any more: each
    one is refused and leaves the topology as it is. *)
Theorem deregistration_blocks id s machine_id now h h' :
  deregister_shard overflow_checks id machine_id false now h = (h', Ok tt) →
  wf_topology (topo h) → owned (topo h) →
  (∀ k, is_Some (topo_shards (topo h) !! k) → 0 ≤ k < 2 ^ 32 - 1) →
  topo_shards (topo h) !! id = Some s →
  (∀ hash, 0 ≤ hash ≤ U64_MAX → range_contains (hash_range s) hash = true →
     find_shard_for_hash (topo h') hash = None) ∧
  (id ≠ max_id (topo_shards (topo h)) →
   ∀ machine_id' address' now' h'' x,
     register_new_shard overflow_checks config machine_id' address' now' h' = (h'', x) →
     (∀ r, x ≠ Ok r) ∧ topo h'' = topo h').
Proof using All.
  intros Hd Hwf Hown Hids Hs. apply deregister_Ok in Hd as [Hwf' Hs']; [|done]. split.
  - intros hash Hh Hc. apply find_shard_None. intros k s' Hk.
    rewrite Hs' in Hk. apply lookup_delete_Some in Hk as [Hne Hk].
    apply not_true_iff_false. intros Hc'.
    by destruct (proj2 (Hown hash Hh) id s k s' Hs Hk Hc Hc') as [? _].
  - intros Hne machine_id' address' now' h'' x Hr.
    set (m := topo_shards (topo h)) in *.
    assert (m ≠ ∅) as Hm by (intros E; rewrite E in Hs; by rewrite lookup_empty in Hs).
    assert (∀ k, is_Some (m !! k) → 0 ≤ k) as Hpos
      by (intros k [Hk _]%Hids; done).
    pose proof (max_id_in m Hm Hpos) as Hmax.
    assert (is_Some (delete id m !! max_id m)) as Hmax'.
    { rewrite lookup_delete_ne; [done|]. congruence. }
    assert (delete id m ≠ ∅) as Hm'.
    { intros E. rewrite E, lookup_empty in Hmax'. by destruct Hmax'. }
    assert (Hpos' : ∀ k, is_Some (delete id m !! k) → 0 ≤ k).
    { intros k [y Hk]. apply lookup_delete_Some in Hk as [_ Hk]. apply Hpos. eauto. }
    assert (max_id (delete id m) = max_id m) as Heq.
    { apply Z.le_antisymm; [|by apply max_id_spec].
      destruct (max_id_in _ Hm' Hpos') as [y Hy]. apply lookup_delete_Some in Hy as [_ Hy].
      apply max_id_spec. eauto. }
    eapply (sparse_table_refuses _ _ _ _ _ _ Hr); rewrite Hs'; [done..|].
    rewrite Heq. rewrite (wt_total _ Hwf'), Hs'. apply Hids in Hmax as Hlt.
    pose proof (size_max_id m Hpos Hm) as Hsz.
    rewrite map_size_delete, Hs. rewrite Z.mod_small; [|lia].
    assert (size m ≠ 0%nat) by (intros E; by apply map_size_empty_inv in E). lia.
Qed.
(** ** Restarts *)

Inductive registry_op : Type :=
  | OpRegister (s : ShardMetadata) (now : Z)
  | OpUnregister (id : ShardId) (now : Z)
  | OpHeartbeat (id : ShardId) (now : Z)
  | OpStatus (id : ShardId) (st : ShardStatus)
  | OpAddress (id : ShardId) (address : string) (now : Z)
  | OpStats (id : ShardId) (triples bytes now : Z)
  | OpStoreMachine (machine_id : string) (id : ShardId)
  | OpDeleteMachine (machine_id : string).

Definition run_op (op : registry_op) : method ShardRegistry ShardError unit :=
  match op with
  | OpRegister s now => register_shard overflow_checks s now
  | OpUnregister id now => _ ← unregister_shard overflow_checks id now; mret tt
  | OpHeartbeat id now => update_heartbeat id now
  | OpStatus id st => update_shard_status id st
  | OpAddress id address now => update_shard_address id address now
  | OpStats id triples bytes now => update_shard_stats overflow_checks id triples bytes now
  | OpStoreMachine machine_id id => store_machine_id_mapping machine_id id
  | OpDeleteMachine machine_id => delete_machine_id_mapping machine_id
  end.

(** The operations that write the topology. *)
Definition saves (op : registry_op) (r : ShardRegistry) : bool :=
  match op with
  | OpRegister _ _ | OpStats _ _ _ _ => true
  | OpUnregister id _ => bool_decide (is_Some (topo_shards (topology r) !! id))
  | _ => false
  end.

(** The topology a new process starts with. *)
Abbreviation restart r := (load_topology (reg_db r)).

Lemma save_restart (r r' : ShardRegistry) replication now :
  save_topology r = (r', Ok tt) → restart r' replication now = Ok (topology r').
Proof using All.
  intros [Ht Hp]%save_topology_Ok. unfold load_topology. apply rdb_get_put in Hp.
  rewrite Hp. simpl. by rewrite topology_roundtrip, Ht.
Qed.

Lemma put_restart cf k v (r r' : ShardRegistry) replication now :
  put_cf cf k v r = (r', Ok tt) → cf ≠ CfTopology →
  restart r' replication now = restart r replication now.
Proof using All.
  intros [_ Hp]%put_cf_Ok Hcf. unfold load_topology.
  by rewrite (rdb_get_put_other _ _ _ _ _ CfTopology CURRENT Hp) by congruence.
Qed.

Lemma delete_restart cf k (r r' : ShardRegistry) replication now :
  delete_cf cf k r = (r', Ok tt) → cf ≠ CfTopology →
  restart r' replication now = restart r replication now.
Proof using All.
  intros [_ Hp]%delete_cf_Ok Hcf. unfold load_topology.
  by rewrite (rdb_get_delete_other _ _ _ _ CfTopology CURRENT Hp) by congruence.
Qed.

Lemma update_restart id f r r' replication now :
  update_shard id f r = (r', Ok tt) → restart r' replication now = restart r replication now.
Proof using All.
  unfold update_shard. intros Hr.
  apply method_bind_Ok in Hr as (r1 & t & [= <- <-] & Hr).
  apply method_bind_Ok in Hr as (r2 & s & [= <- _] & Hr).
  apply method_bind_Ok in Hr as (r3 & [] & [= <-] & Hr).
  by rewrite (put_restart _ _ _ _ _ _ _ Hr).
Qed.

(** After a registration, a removal or new statistics a restart reads the
    topology as it was; after a change of status, address or heartbeat it reads
    what an earlier operation saved, without the change. *)
Theorem restart_reads_saved op r r' replication now :
  run_op op r = (r', Ok tt) →
  restart r' replication now =
    if saves op r then Ok (topology r') else restart r replication now.
Proof using All.
  destruct op as [s n|id n| | | |id tr by' n| |]; cbn [run_op saves]; intros Hr;
    try by eapply update_restart.
  - unfold register_shard in Hr.
    apply method_bind_Ok in Hr as (r1 & t & [= <- <-] & Hr).
    apply method_bind_Ok in Hr as (r2 & t' & [= <- Ht] & Hr).
    apply method_bind_Ok in Hr as (r3 & [] & [= <-] & Hr).
    apply method_bind_Ok in Hr as (r4 & [] & _ & Hr). by eapply save_restart.
  - apply method_bind_Ok in Hr as (r0 & x & Hr & [= ->]). unfold unregister_shard in Hr.
    apply method_bind_Ok in Hr as (r1 & t & [= <- <-] & Hr).
    apply method_bind_Ok in Hr as (r2 & [t' removed] & [= <- Ht] & Hr).
    apply method_bind_Ok in Hr as (r3 & [] & [= <-] & Hr). unfold topo_remove_shard in Ht.
    destruct (topo_shards (topology r) !! id) as [s|] eqn:Hid; simplify_eq.
    + rewrite bool_decide_eq_true_2 by eauto.
      apply result_bind_Ok in Ht as (t1 & _ & ?). simplify_eq.
      apply method_bind_Ok in Hr as (r4 & [] & _ & Hr).
      apply method_bind_Ok in Hr as (r5 & [] & Hs & [= <- <-]). by eapply save_restart.
    + rewrite bool_decide_eq_false_2 by (by intros [? ?]). by injection Hr as <- <-.
  - unfold update_shard_stats in Hr.
    apply method_bind_Ok in Hr as (r1 & [] & _ & Hr).
    apply method_bind_Ok in Hr as (r2 & t & [= <- <-] & Hr).
    apply method_bind_Ok in Hr as (r3 & t' & [= <- _] & Hr).
    apply method_bind_Ok in Hr as (r4 & [] & [= <-] & Hr). by eapply save_restart.
  - by eapply put_restart.
  - by eapply delete_restart.
Qed.
End Facts.
