(* ===== verification/ShardSample.v ===== *)
(** * The shard registry: an instance and concrete runs

    A database, a codec and a table order that keep the laws of
    [ShardRegistry.v], the theorems of [ShardRegistryFacts.v] applied to small
    clusters, and runs outside their conditions. *)

From Stdlib Require Import ZArith Lia Ascii.
From stdpp Require Import base numbers option strings gmap list sorting countable.
From S2P Require Import Prelude RustStd Bytes Effects HashRing CoordState ShardRegistry.
From S2P Require Import ShardRegistryFacts.

Local Open Scope Z_scope.

(** ** Crates *)

#[export] Instance list_order : HashOrder := {| hash_values m := (map_to_list m).*2 |}.

#[export] Instance list_order_ok : HashOrderOk.
Proof. by split. Qed.

Definition reg_kv : Type := list ((RegistryCf * list byte) * list byte).

Fixpoint reg_lookup (k : RegistryCf * list byte) (l : reg_kv) : option (list byte) :=
  match l with
  | [] => None
  | (k', v) :: l' => if decide (k = k') then Some v else reg_lookup k l'
  end.

Fixpoint reg_remove (k : RegistryCf * list byte) (l : reg_kv) : reg_kv :=
  match l with
  | [] => []
  | (k', v) :: l' => if decide (k = k') then reg_remove k l' else (k', v) :: reg_remove k l'
  end.

Fixpoint reg_entries (cf : RegistryCf) (l : reg_kv) : list (list byte * list byte) :=
  match l with
  | [] => []
  | (cf', k, v) :: l' => if decide (cf = cf') then (k, v) :: reg_entries cf l' else reg_entries cf l'
  end.

Lemma reg_lookup_remove k k' l : k' ≠ k → reg_lookup k' (reg_remove k l) = reg_lookup k' l.
Proof.
  intros Hne. induction l as [|[k2 v] l IH]; [done|]. simpl.
  destruct (decide (k = k2)) as [->|Hk]; [by rewrite decide_False|]. simpl. by rewrite IH.
Qed.

#[export] Instance reg_list_db : RegistryDb := {|
  Rdb := reg_kv;
  rdb_get d cf k := Ok (reg_lookup (cf, k) d);
  rdb_put d cf k v := Ok (((cf, k), v) :: reg_remove (cf, k) d);
  rdb_delete d cf k := Ok (reg_remove (cf, k) d);
  rdb_entries d cf := Ok (reg_entries cf d);
|}.

#[export] Instance reg_list_db_ok : RegistryDbOk.
Proof.
  split.
  - intros d cf k v d' [= <-]. simpl. by rewrite decide_True.
  - intros d cf k v d' cf' k' [= <-] Hne. simpl. rewrite decide_False by done.
    by rewrite reg_lookup_remove.
  - intros d cf k d' cf' k' [= <-] Hne. simpl. by rewrite reg_lookup_remove.
Qed.

(** *** Encoding

    Records are flattened to lists of positives, which keeps the encoding linear
    in their size. *)

Definition status_nat (st : ShardStatus) : nat :=
  match st with Active => 0 | Draining => 1 | Provisioning => 2 | Degraded => 3 | Down => 4 end.

Definition nat_status (n : nat) : ShardStatus :=
  match n with
  | 0%nat => Active
  | 1%nat => Draining
  | 2%nat => Provisioning
  | 3%nat => Degraded
  | _ => Down
  end.

Definition shard_fields (s : ShardMetadata) : list positive :=
  [encode (shard_id s); encode (range_start (hash_range s)); encode (range_end (hash_range s));
   encode (status_nat (shard_status s)); encode (leader_address s);
   positives_flatten (encode <$> replica_addresses s); encode (triple_count s);
   encode (size_bytes s); encode (last_heartbeat s); encode (raft_term s); encode (created_at s);
   encode (updated_at s)].

Definition fields_shard (l : list positive) : option ShardMetadata :=
  match l with
  | [a; b; c; d; e; f; g; h; i; j; k; m] =>
      id ← decode a; s ← decode b; en ← decode c; st ← decode d; leader ← decode e;
      rs ← positives_unflatten f; replicas ← mapM decode rs; tc ← decode g; sb ← decode h;
      hb ← decode i; rt ← decode j; ca ← decode k; ua ← decode m;
      Some {| shard_id := id; hash_range := {| range_start := s; range_end := en |};
              shard_status := nat_status st; leader_address := leader;
              replica_addresses := replicas; triple_count := tc; size_bytes := sb;
              last_heartbeat := hb; raft_term := rt; created_at := ca; updated_at := ua |}
  | _ => None
  end.

Lemma fields_shard_fields s : fields_shard (shard_fields s) = Some s.
Proof.
  unfold fields_shard, shard_fields. rewrite !decode_encode. simpl.
  rewrite positives_unflatten_flatten. simpl.
  rewrite mapM_fmap_Some by (intros; apply decode_encode). simpl.
  destruct s as [id [a b] [] l r tc sb hb rt ca ua]; done.
Qed.

Definition topology_fields (t : ClusterTopology) : list positive :=
  [encode (total_shards t); encode (replication_factor t); encode (cluster_version t);
   encode (total_triples t); encode (total_size_bytes t); encode (topo_updated_at t);
   positives_flatten (encode <$> (map_to_list (topo_shards t)).*1);
   positives_flatten ((λ s, positives_flatten (shard_fields s)) <$> (map_to_list (topo_shards t)).*2)].

Definition fields_topology (l : list positive) : option ClusterTopology :=
  match l with
  | [a; b; c; d; e; f; ks; ss] =>
      ts ← decode a; rf ← decode b; cv ← decode c; tt ← decode d; tb ← decode e; ua ← decode f;
      kl ← positives_unflatten ks; kl ← mapM decode kl;
      sl ← positives_unflatten ss;
      sl ← mapM (λ p, positives_unflatten p ≫= fields_shard) sl;
      Some {| total_shards := ts; replication_factor := rf; cluster_version := cv;
              topo_shards := list_to_map (zip kl sl); total_triples := tt;
              total_size_bytes := tb; topo_updated_at := ua |}
  | _ => None
  end.

Lemma fields_topology_fields t : fields_topology (topology_fields t) = Some t.
Proof.
  unfold fields_topology, topology_fields. rewrite !decode_encode. simpl.
  rewrite !positives_unflatten_flatten. simpl.
  rewrite (mapM_fmap_Some decode encode) by (intros; apply decode_encode). simpl.
  rewrite mapM_fmap_Some; simpl.
  - rewrite zip_fst_snd, list_to_map_to_list. by destruct t.
  - intros s. rewrite positives_unflatten_flatten. apply fields_shard_fields.
Qed.

#[export] Instance reg_sample_codec : RegistryCodec := {|
  topology_bytes t := pos_bytes (positives_flatten (topology_fields t));
  topology_parse bs := positives_unflatten (bytes_pos bs) ≫= fields_topology;
  shard_bytes s := pos_bytes (positives_flatten (shard_fields s));
  uuid_valid s := negb (String.eqb s "");
|}.

#[export] Instance reg_sample_codec_ok : RegistryCodecOk.
Proof.
  split. intros t. simpl. rewrite bytes_pos_bytes, positives_unflatten_flatten.
  apply fields_topology_fields.
Qed.

(** ** Clusters *)

Definition sample_config : RegistrationConfig :=
  {| max_shards := 100; allow_duplicate_machines := false |}.

Definition no_shards : AutoRegistrationHandler :=
  {| registry := {| topology := new_topology 3 0; reg_db := [] |}; machine_id_map := ∅ |}.

Lemma no_shards_wf : wf_topology (topology (registry no_shards)).
Proof. split; [|done]. intros k s. simpl. by rewrite lookup_empty. Qed.

(** The handler after a call. *)
Definition state_of {S A} (x : S * A) : S := x.1.

Definition register (machine_id address : string) (h : AutoRegistrationHandler)
    : AutoRegistrationHandler * result ShardError ShardRegistrationResult :=
  register_new_shard true sample_config machine_id address 10 h.

Definition two_shards : AutoRegistrationHandler :=
  state_of (register "m1" "a1" (state_of (register "m0" "a0" no_shards))).

Definition three_shards : AutoRegistrationHandler := state_of (register "m2" "a2" two_shards).

Example three_ranges :
  (λ s, (shard_id s, range_start (hash_range s), range_end (hash_range s))) <$>
    hash_values (topo_shards (topology (registry three_shards))) =
  [(2, 12297829382473034410, 18446744073709551615);
   (1, 6148914691236517205, 12297829382473034410); (0, 0, 6148914691236517205)].
Proof. vm_compute. reflexivity. Qed.

Lemma distribute_cuts_witness :
  ∃ ranges, distribute (E := ShardError) 3 = Ok ranges ∧ length ranges = 3%nat ∧ cuts ranges.
Proof. apply (distribute_cuts (E := ShardError) 3). lia. Defined.

(** Decidable form of [wf_topology]. *)
Definition wf_topologyb (t : ClusterTopology) : bool :=
  forallb (λ x, Z.eqb (shard_id x.2) x.1) (map_to_list (topo_shards t)) &&
  (total_shards t =? Z.of_nat (size (topo_shards t)) mod 2 ^ 32).

Lemma wf_topologyb_true t : wf_topologyb t = true → wf_topology t.
Proof.
  unfold wf_topologyb. rewrite andb_true_iff, Z.eqb_eq. intros [Hf Ht]. split; [|done].
  intros k s Hk. apply elem_of_map_to_list in Hk. apply Is_true_true, forallb_True in Hf.
  apply list_elem_of_In in Hk. rewrite Forall_forall in Hf. specialize (Hf _ Hk). simpl in Hf.
  by apply Is_true_true, Z.eqb_eq in Hf.
Qed.

Lemma registration_partitions_witness :
  owned (topology (registry three_shards)) ∧
  Z.of_nat (size (topo_shards (topology (registry two_shards)))) < 2 ^ 32 - 1.
Proof.
  split; [|vm_compute; reflexivity].
  assert (∃ r, (register "m2" "a2" two_shards).2 = Ok r) as [r Hr]
    by (eexists; vm_compute; reflexivity).
  apply (registration_partitions true sample_config "m2" "a2" 10 two_shards three_shards r).
  - unfold three_shards, state_of, register in *. rewrite <- Hr. apply surjective_pairing.
  - apply wf_topologyb_true. vm_compute. reflexivity.
  - vm_compute. reflexivity.
Defined.

(** The state after removing the first of three shards. *)
Definition after_removal : AutoRegistrationHandler :=
  state_of (deregister_shard true 0 "m0" false 20 three_shards).

Lemma three_shards_wf : wf_topology (topology (registry three_shards)).
Proof. apply wf_topologyb_true. vm_compute. reflexivity. Qed.

(** A key of a table whose keys have been listed. *)
Lemma keys_listed {A} (m : gmap Z A) ks k :
  (map_to_list m).*1 = ks → is_Some (m !! k) → k ∈ ks.
Proof.
  intros <- [x Hx]. apply list_elem_of_fmap. exists (k, x). split; [done|].
  by apply elem_of_map_to_list.
Qed.

Lemma three_shards_keys k :
  is_Some (topo_shards (topology (registry three_shards)) !! k) → k ∈ [0; 1; 2].
Proof.
  intros Hk. assert (∃ ks, (map_to_list (topo_shards (topology (registry three_shards)))).*1 = ks ∧
    forallb (λ k, (k =? 0) || (k =? 1) || (k =? 2)) ks = true) as (ks & Eks & Hks)
    by (eexists; split; [reflexivity|vm_compute; reflexivity]).
  apply (keys_listed _ ks k Eks) in Hk. clear Eks.
  apply list_elem_of_In in Hk. rewrite forallb_forall in Hks. specialize (Hks k Hk).
  rewrite !elem_of_cons, elem_of_nil. lia.
Qed.

Lemma three_shards_slice (i : nat) s :
  topo_shards (topology (registry three_shards)) !! Z.of_nat i = Some s →
  (i < 3)%nat → hash_range s = slice 3 i.
Proof.
  intros Hs Hi.
  assert (hash_range <$> topo_shards (topology (registry three_shards)) !! Z.of_nat i =
          Some (slice 3 i)) as Hr.
  { clear Hs s. destruct i as [|[|[|i]]]; [vm_compute; reflexivity..|lia]. }
  rewrite Hs in Hr. by injection Hr.
Qed.

Lemma three_shards_owned : owned (topology (registry three_shards)).
Proof.
  apply (owned_sliced true _ [0; 1; 2] 3).
  - lia.
  - reflexivity.
  - intros k. split.
    + intros Hk. rewrite !elem_of_cons, elem_of_nil in Hk.
      destruct Hk as [->|[->|[->|[]]]]; vm_compute; eauto.
    + apply three_shards_keys.
  - intros i k s Hi Hs. destruct i as [|[|[|i]]]; cbn [lookup list_lookup] in Hi;
      [injection Hi as <-..|discriminate Hi]; 
      [apply (three_shards_slice 0)|apply (three_shards_slice 1)|apply (three_shards_slice 2)];
      try exact Hs; lia.
Qed.

Lemma deregistration_blocks_witness :
  find_shard_for_hash (topology (registry after_removal)) 7 = None ∧
  (∀ r, (register "m3" "a3" after_removal).2 ≠ Ok r).
Proof.
  assert ((deregister_shard true 0 "m0" false 20 three_shards).2 = Ok tt) as Hd
    by (vm_compute; reflexivity).
  assert (∃ s, topo_shards (topology (registry three_shards)) !! 0 = Some s ∧
            range_contains (hash_range s) 7 = true) as (s & Es & Hs)
    by (eexists; split; vm_compute; reflexivity).
  destruct (deregistration_blocks true sample_config 0 s "m0" 20 three_shards after_removal)
    as [Hole Hblock]; try assumption; try exact three_shards_wf; try exact three_shards_owned.
  - unfold after_removal, state_of. rewrite <- Hd. apply surjective_pairing.
  - intros k Hk%three_shards_keys. revert Hk. clear.
    rewrite !elem_of_cons, elem_of_nil. lia.
  - split.
    + apply Hole; [vm_compute; split; discriminate|assumption].
    + apply (Hblock ltac:(vm_compute; discriminate) "m3" "a3" 10
        (register "m3" "a3" after_removal).1). apply surjective_pairing.
Defined.

(** Activating a shard is not saved. *)
Lemma restart_reads_saved_witness :
  load_topology (reg_db (state_of (update_shard_status 0 Active (registry two_shards)))) 3 0 =
  load_topology (reg_db (registry two_shards)) 3 0.
Proof.
  refine (restart_reads_saved true sample_config (OpStatus 0 Active) (registry two_shards) _ 3 0 _).
  vm_compute. reflexivity.
Defined.

(** Two machines that register at the same time hold different locks: both plans
    see the same topology and the second shard takes the place of the first. *)
Definition both_planned :
    result ShardError (ShardId * HashRange) * result ShardError (ShardId * HashRange) :=
  ((plan_registration true sample_config "m2" two_shards).2,
   (plan_registration true sample_config "m3" two_shards).2).

Definition both_committed (plan : ShardId * HashRange) : AutoRegistrationHandler :=
  state_of (commit_registration true "m3" "a3" 10 plan
    (state_of (commit_registration true "m2" "a2" 10 plan two_shards))).

Example registrations_race :
  ∃ plan, both_planned = (Ok plan, Ok plan) ∧
    size (topo_shards (topology (registry (both_committed plan)))) = 3%nat ∧
    machine_id_map (both_committed plan) !! "m2" = Some plan.1 ∧
    machine_id_map (both_committed plan) !! "m3" = Some plan.1.
Proof.
  exists (2, new_range (2 * 2 ^ 64 / 3) U64_MAX).
  split_and!; vm_compute; reflexivity.
Qed.
