(* ===== verification/Tasks.v ===== *)
(** * Tasks run concurrently

    An async block spawned on the runtime is a resumption: done with its result,
    or an atomic action on the shared state followed by the rest of the task.
    Between two actions other tasks may run.  [join_all] runs a list of tasks
    under a schedule, the list of the indices of the tasks that act next; what a
    schedule leaves unfinished is then run to its end in order, so every
    interleaving of complete runs is the one of some schedule and [join_all] is
    total.  A panic of a task is a result of its own, the [JoinError].

    [does] describes a task by the events it logs and its result, whatever the
    other tasks do in between; what the task has logged stays in the log. *)

From stdpp Require Import base option list sets.
From S2P Require Import Prelude Effects.

Section Tasks.
Context {S E : Type}.

Inductive task (A : Type) : Type :=
  | Done (r : result E A)
  | Act (m : S → S * task A).

#[global] Arguments Done {A}.
#[global] Arguments Act {A}.

(** Induction over what an action may leave. *)
Fixpoint task_rect' {A} (P : task A → Prop) (Hd : ∀ r, P (Done r))
    (Ha : ∀ m, (∀ s, P (m s).2) → P (Act m)) (t : task A) : P t :=
  match t with
  | Done r => Hd r
  | Act m => Ha m (λ s, task_rect' P Hd Ha (m s).2)
  end.

Definition task_ret A (a : A) : task A := Done (Ok a).

Fixpoint task_bind A B (f : A → task B) (t : task A) : task B :=
  match t with
  | Done (Ok a) => f a
  | Done (Err e) => Done (Err e)
  | Done Panic => Done Panic
  | Act m => Act (λ s, match m s with (s', t') => (s', task_bind A B f t') end)
  end.

(** One atomic action; a computation without one. *)
Definition act {A} (m : method S E A) : task A :=
  Act (λ s, match m s with (s', r) => (s', Done r) end).

Definition pure {A} (r : result E A) : task A := Done r.

Definition step_task {A} (t : task A) (s : S) : S * task A :=
  match t with
  | Done r => (s, Done r)
  | Act m => m s
  end.

(** A task without interruption. *)
Fixpoint run_task {A} (t : task A) (s : S) : S * result E A :=
  match t with
  | Done r => (s, r)
  | Act m => match m s with (s', t') => run_task t' s' end
  end.

Fixpoint advance {A} (sched : list nat) (ts : list (task A)) (s : S) : S * list (task A) :=
  match sched with
  | [] => (s, ts)
  | i :: sched' =>
      match ts !! i with
      | Some t => let '(s', t') := step_task t s in advance sched' (<[i := t']> ts) s'
      | None => advance sched' ts s
      end
  end.

Fixpoint run_all {A} (ts : list (task A)) (s : S) : S * list (result E A) :=
  match ts with
  | [] => (s, [])
  | t :: ts' =>
      let '(s1, r) := run_task t s in
      let '(s2, rs) := run_all ts' s1 in (s2, r :: rs)
  end.

(** [join_all(tasks).await]: the results in the order of the tasks. *)
Definition join_all {A} (sched : list nat) (ts : list (task A)) (s : S) : S * list (result E A) :=
  let '(s', ts') := advance sched ts s in run_all ts' s'.

(** A task awaited in place. *)
Definition await {A} (t : task A) : method S E A := run_task t.
End Tasks.
Arguments task : clear implicits.

#[global] Instance task_MRet {S E} : MRet (task S E) := task_ret.
#[global] Instance task_MBind {S E} : MBind (task S E) := task_bind.

(** [match task.await { Err(e) => .. }]: an error becomes a value, a panic does not. *)
Fixpoint try_task {S E A} (t : task S E A) : task S E (result E A) :=
  match t with
  | Done (Ok a) => Done (Ok (Ok a))
  | Done (Err e) => Done (Ok (Err e))
  | Done Panic => Done Panic
  | Act m => Act (λ s, match m s with (s', t') => (s', try_task t') end)
  end.

(** A task awaited alone: the run of a sequence. *)
Lemma run_task_bind {S E A B} (t : task S E A) (f : A → task S E B) s :
  run_task (t ≫= f) s =
  match run_task t s with
  | (s', Ok a) => run_task (f a) s'
  | (s', Err e) => (s', Err e)
  | (s', Panic) => (s', Panic)
  end.
Proof.
  unfold mbind, task_MBind. revert s.
  induction t as [[a|e|]|m IH] using task_rect'; intros s; simpl; [done..|].
  specialize (IH s). by destruct (m s) as [s' t'].
Qed.

Lemma run_task_act {S E A} (m : method S E A) s : run_task (act m) s = m s.
Proof. simpl. by destruct (m s). Qed.

(** ** Reasoning about tasks *)

Section Does.
Context {S E V : Type} (log : S → list V) (inv : S → Prop).

(** A task that has logged [own]: from a state satisfying the invariant every
    action keeps it and only appends to the log; in the end all the events of the
    task and its result satisfy [Q]. *)
Fixpoint does {A} (own : list V) (t : task S E A) (Q : list V → result E A → Prop) : Prop :=
  match t with
  | Done r => Q own r
  | Act m => ∀ s, inv s → own ⊆ log s →
      match m s with
      | (s', t') => inv s' ∧ ∃ es, log s' = log s ++ es ∧ does (own ++ es) t' Q
      end
  end.

Lemma does_Act {A} own (m : S → S * task S E A) Q :
  does own (Act m) Q ↔
  ∀ s, inv s → own ⊆ log s →
    inv (m s).1 ∧ ∃ es, log (m s).1 = log s ++ es ∧ does (own ++ es) (m s).2 Q.
Proof. simpl. split; intros H s Hs Ho; specialize (H s Hs Ho); by destruct (m s). Qed.

Lemma does_mono {A} own (t : task S E A) Q Q' :
  does own t Q → (∀ es r, Q es r → Q' es r) → does own t Q'.
Proof.
  revert own. induction t as [r|m IH] using task_rect'; intros own; [simpl; auto|].
  rewrite !does_Act. intros Hd HQ s Hs Ho. destruct (Hd s Hs Ho) as (Hi & es & Hl & Hr).
  split; [done|]. exists es. split; [done|]. by apply IH.
Qed.

Lemma does_bind {A B} own (t : task S E A) (f : A → task S E B) Q Q' :
  does own t Q → (∀ es a, Q es (Ok a) → does es (f a) Q') →
  (∀ es e, Q es (Err e) → Q' es (Err e)) → (∀ es, Q es Panic → Q' es Panic) →
  does own (t ≫= f) Q'.
Proof.
  unfold mbind, task_MBind. revert own.
  induction t as [[a|e|]|m IH] using task_rect'; intros own Hd HOk HErr HPanic;
    [exact (HOk _ a Hd)|exact (HErr _ e Hd)|exact (HPanic _ Hd)|].
  simpl. intros s Hs Ho. rewrite does_Act in Hd. destruct (Hd s Hs Ho) as (Hi & es & Hl & Hr).
  specialize (IH s). destruct (m s) as [s' t']. split; [done|]. exists es. split; [done|].
  by apply IH.
Qed.

Lemma does_try {A} own (t : task S E A) Q (Q' : list V → result E (result E A) → Prop) :
  does own t Q → (∀ es a, Q es (Ok a) → Q' es (Ok (Ok a))) →
  (∀ es e, Q es (Err e) → Q' es (Ok (Err e))) → (∀ es, Q es Panic → Q' es Panic) →
  does own (try_task t) Q'.
Proof.
  revert own. induction t as [[a|e|]|m IH] using task_rect'; intros own Hd HOk HErr HPanic;
    [exact (HOk _ a Hd)|exact (HErr _ e Hd)|exact (HPanic _ Hd)|].
  simpl. intros s Hs Ho. rewrite does_Act in Hd. destruct (Hd s Hs Ho) as (Hi & es & Hl & Hr).
  specialize (IH s). destruct (m s) as [s' t']. split; [done|]. exists es. split; [done|].
  by apply IH.
Qed.

Lemma does_act {A} own (m : method S E A) (Q : list V → result E A → Prop) :
  (∀ s, inv s → own ⊆ log s →
     inv (m s).1 ∧ ∃ es, log (m s).1 = log s ++ es ∧ Q (own ++ es) (m s).2) →
  does own (act m) Q.
Proof.
  intros H. simpl. intros s Hs Ho. destruct (H s Hs Ho) as (Hi & es & Hl & HQ).
  destruct (m s) as [s' r]. split; [done|]. by exists es.
Qed.

Lemma does_pure {A} own (r : result E A) (Q : list V → result E A → Prop) :
  Q own r → does own (pure r) Q.
Proof. done. Qed.

Lemma own_grows (own es l l' : list V) : own ⊆ l → l' = l ++ es → own ++ es ⊆ l'.
Proof. intros Ho ->. set_solver. Qed.

Lemma does_run {A} own (t : task S E A) Q s :
  does own t Q → inv s → own ⊆ log s →
  inv (run_task t s).1 ∧ ∃ es, log (run_task t s).1 = log s ++ es ∧ Q (own ++ es) (run_task t s).2.
Proof.
  revert own s. induction t as [r|m IH] using task_rect'; intros own s.
  - intros HQ Hs Ho. split; [done|]. exists []. simpl. by rewrite !app_nil_r.
  - rewrite does_Act. intros Hd Hs Ho. destruct (Hd s Hs Ho) as (Hi & es & Hl & Hr). simpl.
    destruct (m s) as [s' t'] eqn:Em. specialize (IH s). rewrite Em in IH. simpl in *.
    destruct (IH _ s' Hr Hi (own_grows _ _ _ _ Ho Hl)) as (Hi' & es' & Hl' & HQ). split; [done|].
    exists (es ++ es'). by rewrite Hl', Hl, !app_assoc in *.
Qed.

Lemma step_does {A} own (t : task S E A) Q s :
  does own t Q → inv s → own ⊆ log s →
  inv (step_task t s).1 ∧ ∃ es, log (step_task t s).1 = log s ++ es ∧
    does (own ++ es) (step_task t s).2 Q.
Proof.
  intros Hd Hs Ho. destruct t as [r|m].
  - split; [done|]. exists []. by rewrite !app_nil_r.
  - rewrite does_Act in Hd. by apply Hd.
Qed.

Lemma concat_insert {X} (ess : list (list X)) i (es ei : list X) :
  ess !! i = Some ei → concat (<[i := ei ++ es]> ess) ≡ₚ concat ess ++ es.
Proof.
  revert i. induction ess as [|x ess IH]; intros [|i] Hi; simplify_eq/=.
  - rewrite <- !app_assoc. f_equiv. apply Permutation_app_comm.
  - rewrite IH by done. by rewrite !app_assoc.
Qed.

(** The tasks [ts] have logged [ess] and do [Q]. *)
Definition doing {A} (Q : nat → list V → result E A → Prop) (ts : list (task S E A))
    (ess : list (list V)) (s : S) : Prop :=
  length ess = length ts ∧
  ∀ i t es, ts !! i = Some t → ess !! i = Some es → does es t (Q i) ∧ es ⊆ log s.

Lemma advance_does {A} sched (Q : nat → list V → result E A → Prop) ts ess s :
  doing Q ts ess s → inv s →
  inv (advance sched ts s).1 ∧ length (advance sched ts s).2 = length ts ∧
  ∃ ess' new, doing Q (advance sched ts s).2 ess' (advance sched ts s).1 ∧
    log (advance sched ts s).1 = log s ++ new ∧ concat ess' ≡ₚ concat ess ++ new.
Proof.
  revert ts ess s. induction sched as [|k sched IH]; intros ts ess s Hdo Hs; simpl.
  - split_and!; [done..|]. exists ess, []. by rewrite !app_nil_r.
  - destruct (ts !! k) as [t|] eqn:Hk; [|by apply IH]. destruct Hdo as [Hlen Hdo].
    destruct (lookup_lt_is_Some_2 ess k) as [ek Hek];
      [rewrite Hlen; by eapply lookup_lt_Some|].
    destruct (Hdo k t ek Hk Hek) as [Ht Hsub].
    destruct (step_does ek t (Q k) s Ht Hs Hsub) as (Hinv & es & Hlog & Hd).
    destruct (step_task t s) as [s' t'] eqn:Est. simpl in *.
    destruct (IH (<[k := t']> ts) (<[k := ek ++ es]> ess) s')
      as (Hi' & Hlen' & ess' & new & Hdo' & Hl & Hp); [|done|].
    { split; [by rewrite !length_insert|]. intros i u ei. destruct (decide (i = k)) as [->|Hik].
      - rewrite !list_lookup_insert_eq by (by eapply lookup_lt_Some). intros [= <-] [= <-].
        split; [done|]. by eapply own_grows.
      - rewrite !list_lookup_insert_ne by done. intros Hu Hei. destruct (Hdo i u ei Hu Hei).
        split; [done|]. rewrite Hlog. set_solver. }
    rewrite length_insert in Hlen'. split_and!; [done..|]. exists ess', (es ++ new).
    split_and!; [done|by rewrite Hl, Hlog, app_assoc|].
    by rewrite Hp, (concat_insert ess k es ek Hek), app_assoc.
Qed.

Lemma run_all_does {A} (Q : nat → list V → result E A → Prop) ts ess s :
  doing Q ts ess s → inv s →
  inv (run_all ts s).1 ∧ length (run_all ts s).2 = length ts ∧
  ∃ ess' new, length ess' = length ts ∧
    (∀ i r es, (run_all ts s).2 !! i = Some r → ess' !! i = Some es → Q i es r) ∧
    log (run_all ts s).1 = log s ++ new ∧ concat ess' ≡ₚ concat ess ++ new.
Proof.
  revert Q ess s. induction ts as [|t ts IH]; intros Q ess s [Hlen Hdo] Hs; simpl.
  - destruct ess; [|done]. split_and!; [done..|]. exists [], []. by rewrite app_nil_r.
  - destruct ess as [|e0 ess]; [done|]. destruct (Hdo 0 t e0 eq_refl eq_refl) as [Ht Hsub].
    destruct (does_run e0 t (Q 0) s Ht Hs Hsub) as (Hi & es & Hl & Hr).
    destruct (run_task t s) as [s1 r]. simpl in *.
    destruct (IH (λ i, Q (Datatypes.S i)) ess s1) as (Hi' & Hlen' & ess' & new & Hess & HF & Hl' & Hp);
      [|done|].
    { split; [by simplify_eq|]. intros i u ei Hu Hei.
      destruct (Hdo (Datatypes.S i) u ei Hu Hei). split; [done|]. rewrite Hl. set_solver. }
    destruct (run_all ts s1) as [s2 rs]. simpl in *. split_and!; [done|by f_equal|].
    exists ((e0 ++ es) :: ess'), (es ++ new). simpl. split_and!; [by f_equal| | |].
    + intros [|i] r' es' Hr' Hes'; simplify_eq/=; [done|by eapply HF].
    + by rewrite Hl', Hl, app_assoc.
    + rewrite Hp, <- !app_assoc. f_equiv. rewrite !app_assoc. f_equiv. apply Permutation_app_comm.
Qed.

(** Whatever the schedule, every task ends as it would alone: the log grows by an
    interleaving of the tasks' events. *)
Lemma join_all_does {A} sched (Q : nat → list V → result E A → Prop) ts s :
  (∀ i t, ts !! i = Some t → does [] t (Q i)) → inv s →
  inv (join_all sched ts s).1 ∧ length (join_all sched ts s).2 = length ts ∧
  ∃ ess new, length ess = length ts ∧
    (∀ i r es, (join_all sched ts s).2 !! i = Some r → ess !! i = Some es → Q i es r) ∧
    log (join_all sched ts s).1 = log s ++ new ∧ new ≡ₚ concat ess.
Proof.
  intros HQ Hs. unfold join_all.
  destruct (advance_does sched Q ts (replicate (length ts) []) s)
    as (Hi & Hlen & ess & new & Hdo & Hl & Hp); [|done|].
  { split; [apply length_replicate|]. intros i t es Ht [-> _]%lookup_replicate.
    split; [by apply HQ|set_solver]. }
  destruct (advance sched ts s) as [s' ts']. simpl in *.
  destruct (run_all_does Q ts' ess s' Hdo Hi) as (Hi' & Hlen' & ess' & new' & Hess & HF & Hl' & Hp').
  destruct (run_all ts' s') as [s2 rs]. simpl in *. split_and!; [done|congruence|].
  exists ess', (new ++ new'). split_and!; [congruence|done|by rewrite Hl', Hl, app_assoc|].
  rewrite Hp', Hp. assert (concat (replicate (length ts) ([] : list V)) = []) as ->; [|done].
  clear. induction (length ts) as [|n IHn]; [done|exact IHn].
Qed.

(** A task that logs nothing. *)
Definition silent {A} (own : list V) (P : A → Prop) (es : list V) (r : result E A) : Prop :=
  es = own ∧ ∀ a, r = Ok a → P a.

Lemma does_silent_act {A} own (m : method S E A) (P : A → Prop) :
  (∀ s, inv s → own ⊆ log s → inv (m s).1 ∧ log (m s).1 = log s ∧ ∀ a, (m s).2 = Ok a → P a) →
  does own (act m) (silent own P).
Proof.
  intros Hm. apply does_act. intros s Hs Ho. destruct (Hm s Hs Ho) as (Hi & Hl & HP).
  split; [done|]. exists []. by rewrite !app_nil_r.
Qed.

Lemma does_silent_pure {A} own (r : result E A) (P : A → Prop) :
  (∀ a, r = Ok a → P a) → does own (pure r) (silent own P).
Proof. by split. Qed.

Lemma does_silent_bind {A B} own (t : task S E A) (f : A → task S E B) P Q :
  does own t (silent own P) → (∀ a, P a → does own (f a) Q) →
  (∀ e, Q own (Err e)) → Q own Panic → does own (t ≫= f) Q.
Proof.
  intros Ht Hf HErr HPanic. eapply does_bind; [exact Ht|..].
  - intros es a [-> HP]. by apply Hf, HP.
  - intros es e [-> _]. apply HErr.
  - intros es [-> _]. apply HPanic.
Qed.
End Does.
