(* ===== verification/ShardPool.v ===== *)
(** * The coordinator's connections to the shards

    Models [governance/shard_coordinator/connection.rs]: the pool of channels with
    a circuit breaker per shard.  The shards are reached over gRPC.  What is sent
    is logged with its answer in the [history] of the world, and the answers (and
    the clock) may depend on the whole of it: the class [ShardNet] is an arbitrary
    environment.  The pool is a concurrent map: each access to it is one action of
    a task.  The messages are those of [proto/shard_service.proto]. *)

From Stdlib Require Import ZArith Lia.
From stdpp Require Import base numbers option strings gmap list.
From S2P Require Import Prelude RustStd Effects Tasks HashRing CoordState RdfTerm SparqlUpdate.
From S2P Require Import ShardRegistry.

Local Open Scope Z_scope.

(** ** Messages *)

Record InsertBatchRequest : Type := {
  ib_triples : list Triple;
  transactional : bool;
  ib_default_graph : string;
  ib_request_id : string;
}.

Record InsertBatchResponse : Type := {
  inserted_count : Z;
  failed_count : Z;
  failed_indices : list Z;
  ib_duration_ms : Z;
  ib_error : string;
}.

Record ExecuteUpdateRequest : Type := {
  sparql_update : string;
  upd_default_graph : string;
  upd_request_id : string;
  upd_timeout_ms : Z;
}.

Record ExecuteUpdateResponse : Type := {
  upd_inserted_count : Z;
  upd_deleted_count : Z;
  upd_modified_count : Z;
  upd_duration_ms : Z;
  upd_error : string;
  success : bool;
}.

Record QueryRequest : Type := {
  sparql : string;
  limit : Z;
  offset : Z;
  projections : list string;
  query_plan_hint : list Z;
  timeout_ms : Z;
  q_request_id : string;
  timestamp : Z;
}.

(** The value of a variable: [None] when the message carries none. *)
Inductive BindingValue : Type :=
  | BindUri (uri : string)
  | BindLiteral (value datatype language : string)
  | BindBlankNode (id : string)
  | BindNone.

Inductive QueryResponse : Type :=
  | RespTripleBatch (triples : list Triple)
  | RespBinding (bindings : gmap string BindingValue)
  | RespError (message : string)
  | RespEnd (result_count execution_time_ms : Z)
  | RespNone.

(** The streamed answer to a query: messages or a transport error. *)
Definition QueryStream : Type := list (result string QueryResponse).

(** ** Errors of the coordinator *)

Inductive CoordError : Type :=
  | CircuitOpen (url : string) (failures secs : Z)
  | InvalidUrl (url : string)
  | Transport (status : string)
  | NoShardForHash (hash : Z)
  | ShardNotFound (id : ShardId)
  | BadTriple (e : RdfError)
  | BadUpdate (e : SparqlError)
  | InsertRejected (id : ShardId) (failed : Z) (error : string)
  | UpdateRejected (id : ShardId) (error : string)
  | QueryRejected (id : ShardId) (message : string)
  | NoActiveShards
  | ShardsFailed (errors : list (nat * option CoordError))
  | TooFewShards (total successful : nat)
  | TaskPanicked
  | NotACountQuery
  | BadTurtle (e : string).

Definition rdf_error {A} (r : result RdfError A) : result CoordError A :=
  match r with Ok a => Ok a | Err e => Err (BadTriple e) | Panic => Panic end.

Definition sparql_error {A} (r : result SparqlError A) : result CoordError A :=
  match r with Ok a => Ok a | Err e => Err (BadUpdate e) | Panic => Panic end.

Definition transport {A} (r : result string A) : result CoordError A :=
  match r with Ok a => Ok a | Err e => Err (Transport e) | Panic => Panic end.

(** ** The world outside *)

(** What was sent, to which endpoint, with its answer. *)
Inductive Event : Type :=
  | EvConnect (url : string) (ok : bool)
  | EvInsert (url : string) (req : InsertBatchRequest) (resp : result string InsertBatchResponse)
  | EvUpdate (url : string) (req : ExecuteUpdateRequest) (resp : result string ExecuteUpdateResponse)
  | EvQuery (url : string) (req : QueryRequest) (resp : result string QueryStream)
  | EvClock
  | EvSleep (ms : Z).

Class ShardNet : Type := {
  Channel : Type;
  (** the endpoint a channel was opened on *)
  channel_url : Channel → string;
  valid_endpoint : string → bool;
  net_connect : list Event → string → result string Channel;
  net_insert : list Event → Channel → InsertBatchRequest → result string InsertBatchResponse;
  net_update : list Event → Channel → ExecuteUpdateRequest → result string ExecuteUpdateResponse;
  net_query : list Event → Channel → QueryRequest → result string QueryStream;
  (** [Instant::now] and [SystemTime::now], in seconds *)
  net_clock : list Event → Z;
  unix_time : list Event → Z;
  new_uuid : list Event → string;
}.

(** A channel reaches the endpoint it was opened on; [Instant] is monotonic. *)
Class ShardNetOk `{ShardNet} : Prop := {
  connect_url h url ch : net_connect h url = Ok ch → channel_url ch = url;
  clock_mono h e : net_clock h ≤ net_clock (h ++ [e]);
}.

(** ** The pool *)

Inductive ConnectionHealth : Type := Healthy | Degraded | Open.

#[global] Instance ConnectionHealth_eq_dec : EqDecision ConnectionHealth.
Proof. solve_decision. Defined.

Record ConnectionEntry `{ShardNet} : Type := {
  channel : Channel;
  conn_created_at : Z;
  last_success : Z;
  failure_count : Z;
  health : ConnectionHealth;
}.

(** The fields of [ConnectionPool] that do not change; durations in seconds. *)
Record PoolConfig : Type := {
  connect_timeout : Z;
  request_timeout : Z;
  max_failures : Z;
  circuit_reset_duration : Z;
  connection_max_age : Z;
}.

(** [ConnectionPool::new] and [with_config]. *)
Definition new_pool : PoolConfig :=
  {| connect_timeout := 5; request_timeout := 30; max_failures := 3;
     circuit_reset_duration := 30; connection_max_age := 3600 |}.

Definition pool_with_config (connect request failures : Z) : PoolConfig :=
  {| connect_timeout := connect; request_timeout := request; max_failures := failures;
     circuit_reset_duration := 30; connection_max_age := 3600 |}.

Record World `{ShardNet} : Type := {
  connections : gmap string ConnectionEntry;
  history : list Event;
}.

Record ConnectionPoolStats : Type := {
  total_connections : nat;
  healthy_connections : nat;
  degraded_connections : nat;
  open_circuits : nat;
}.

Section Pool.
Context (overflow_checks : bool) `{ShardNet} (config : PoolConfig).

Abbreviation WorldM := (method World CoordError).
Abbreviation WorldT := (task World CoordError).

Definition log_event (e : Event) (w : World) : World :=
  {| connections := connections w; history := history w ++ [e] |}.

Definition set_connections (c : gmap string ConnectionEntry) (w : World) : World :=
  {| connections := c; history := history w |}.

(** [Instant::now()]. *)
Definition instant_now : WorldM Z := λ w, (log_event EvClock w, Ok (net_clock (history w))).

(** What a pooled entry is good for. *)
Inductive Pooled : Type :=
  | Reuse (c : Channel)
  | Create.

(** The lookup of [get_shard_client]; the entry is read under the map's lock. *)
Definition lookup_connection (url : string) : WorldM Pooled :=
  c ← gets connections;
  match c !! url with
  | Some e =>
      now ← instant_now;
      if bool_decide (health e = Open)
      then if circuit_reset_duration config <? now - last_success e
           then mret Create
           else fail (CircuitOpen url (failure_count e) (circuit_reset_duration config))
      else if now - conn_created_at e <? connection_max_age config
           then mret (Reuse (channel e))
           else mret Create
  | None => mret Create
  end.

(** The scheme is added unless the address has one. *)
Definition endpoint_url (url : string) : string :=
  if starts_with url "http://" || starts_with url "https://" then url
  else "http://" +:+ url.

Definition connect (url : string) : WorldM Channel :=
  λ w, let r := net_connect (history w) url in
       (log_event (EvConnect url (match r with Ok _ => true | _ => false end)) w, transport r).

Definition create_connection (url : string) : WorldT Channel :=
  _ ← pure (if valid_endpoint (endpoint_url url) then Ok tt else Err (InvalidUrl (endpoint_url url)));
  ch ← act (connect (endpoint_url url));
  created ← act instant_now;
  last ← act instant_now;
  _ ← act (modify (λ w, set_connections
        (<[url := {| channel := ch; conn_created_at := created; last_success := last;
                     failure_count := 0; health := Healthy |}]> (connections w)) w));
  mret ch.

Definition get_shard_client (url : string) : WorldT Channel :=
  p ← act (lookup_connection url);
  match p with
  | Reuse ch => mret ch
  | Create => create_connection url
  end.

(** [record_success] and [record_failure] under the lock of the entry. *)
Definition record_success (url : string) : WorldM unit :=
  c ← gets connections;
  match c !! url with
  | Some e =>
      now ← instant_now;
      modify (set_connections
        (<[url := {| channel := channel e; conn_created_at := conn_created_at e;
                     last_success := now; failure_count := 0; health := Healthy |}]> c))
  | None => mret tt
  end.

Definition health_after (failures : Z) : ConnectionHealth :=
  if max_failures config <=? failures then Open
  else if 1 <? failures then Degraded
  else Healthy.

Definition record_failure (url : string) : WorldM unit :=
  c ← gets connections;
  match c !! url with
  | Some e =>
      n ← lift (checked overflow_checks 32 (failure_count e + 1));
      modify (set_connections
        (<[url := {| channel := channel e; conn_created_at := conn_created_at e;
                     last_success := last_success e; failure_count := n;
                     health := health_after n |}]> c))
  | None => mret tt
  end.

Definition remove_connection (url : string) : WorldM unit :=
  modify (λ w, set_connections (delete url (connections w)) w).

Definition clear_connections : WorldM unit := modify (set_connections ∅).

Definition count_health (h : ConnectionHealth) (c : gmap string ConnectionEntry) : nat :=
  length (filter (λ e, health e = h) (map_to_list c).*2).

Definition pool_stats : WorldM ConnectionPoolStats :=
  c ← gets connections;
  mret {| total_connections := size c; healthy_connections := count_health Healthy c;
          degraded_connections := count_health Degraded c; open_circuits := count_health Open c |}.

(** *** Requests over a channel *)

Definition request_id : WorldM string := gets (λ w, new_uuid (history w)).

Definition rpc_insert (ch : Channel) (req : InsertBatchRequest) : WorldM InsertBatchResponse :=
  λ w, let r := net_insert (history w) ch req in
       (log_event (EvInsert (channel_url ch) req r) w, transport r).

Definition rpc_update (ch : Channel) (req : ExecuteUpdateRequest) : WorldM ExecuteUpdateResponse :=
  λ w, let r := net_update (history w) ch req in
       (log_event (EvUpdate (channel_url ch) req r) w, transport r).

Definition rpc_query (ch : Channel) (req : QueryRequest) : WorldM QueryStream :=
  λ w, let r := net_query (history w) ch req in
       (log_event (EvQuery (channel_url ch) req r) w, transport r).
End Pool.

(** * The pool under concurrent use

    Every operation of [ShardPool] keeps an entry's channel on the endpoint of its
    key and its circuit in the state its failures give, in any interleaving of
    tasks; what a task sends while it gets a client is only a connection attempt
    to that endpoint. *)

Local Open Scope Z_scope.

(** The events that are requests to a shard. *)
Definition is_request (e : Event) : bool :=
  match e with
  | EvInsert _ _ _ | EvUpdate _ _ _ | EvQuery _ _ _ => true
  | EvConnect _ _ | EvClock | EvSleep _ => false
  end.

Definition requests `{ShardNet} (w : World) : list Event := filter (λ e, is_request e = true) (history w).

Lemma requests_log `{ShardNet} e w :
  requests (log_event e w) = requests w ++ (if is_request e then [e] else []).
Proof.
  unfold requests, log_event. simpl. rewrite filter_app. f_equal.
  by destruct (is_request e) eqn:He; [rewrite filter_cons_True|rewrite filter_cons_False by congruence].
Qed.

Section PoolFacts.
Context (overflow_checks : bool) `{ShardNetOk} (config : PoolConfig).

(** The invariant of an entry. *)
Record entry_ok (url : string) (e : ConnectionEntry) : Prop := {
  eo_url : channel_url (channel e) = endpoint_url url;
  eo_count : 0 ≤ failure_count e < 2 ^ 32;
  eo_health : health e = health_after config (failure_count e);
}.

Definition world_ok (w : World) : Prop :=
  map_Forall entry_ok (connections w).

Context (Hmax : 0 < max_failures config).

(** A further assertion on the connections that fresh entries keep. *)
Context (extra : gmap string ConnectionEntry → Prop).

Definition fresh_ok : Prop :=
  ∀ c url e, extra c → failure_count e = 0 → health e = Healthy → extra (<[url := e]> c).

Context (Hfresh : fresh_ok).

Definition world_inv (w : World) : Prop := world_ok w ∧ extra (connections w).

Lemma health_after_zero : health_after config 0 = Healthy.
Proof using Hmax. unfold health_after. rewrite (proj2 (Z.leb_gt _ _)) by lia. done. Qed.

(** A pool task sends no request. *)
Abbreviation pooled own t P := (does requests world_inv own t (silent own P)).

Lemma instant_now_does own : pooled own (act instant_now) (λ _, True).
Proof. apply does_silent_act. intros w Hw _. split_and!; [done| |done]. simpl. by rewrite requests_log, app_nil_r. Qed.

Lemma lookup_connection_does url own :
  pooled own (act (lookup_connection config url))
    (λ p, ∀ ch, p = Reuse ch → channel_url ch = endpoint_url url).
Proof.
  apply does_silent_act. intros w Hw _. unfold lookup_connection.
  unfold mbind, method_MBind, method_bind, gets. simpl.
  destruct (connections w !! url) as [e|] eqn:He; simpl; [|split_and!; [done..|]].
  - case_bool_decide; case_match; simpl; rewrite requests_log, app_nil_r;
      split_and!; try done; intros p Hp ch Hch; simplify_eq/=; by apply (proj1 Hw url e He).
  - intros p Hp ch Hch. simplify_eq/=.
Qed.

Lemma insert_ok url e (c : gmap string ConnectionEntry) :
  entry_ok url e → map_Forall entry_ok c → map_Forall entry_ok (<[url := e]> c).
Proof. intros He Hc. by apply map_Forall_insert_2. Qed.

Lemma create_connection_does url own :
  pooled own (create_connection url) (λ ch, channel_url ch = endpoint_url url).
Proof using All.
  unfold create_connection.
  eapply does_silent_bind; [by apply (does_silent_pure _ _ _ _ (λ _, True))| |done..].
  intros [] _. eapply does_silent_bind with (P := λ ch, channel_url ch = endpoint_url url);
    [|intros ch Hch|done..].
  { apply does_silent_act. intros w Hw _. split_and!; [done| |].
    - simpl. by rewrite requests_log, app_nil_r.
    - simpl. intros ch. destruct (net_connect _ _) as [c| |] eqn:Hc; [|done..].
      intros [= <-]. by eapply connect_url. }
  eapply does_silent_bind; [apply instant_now_does| |done..]. intros created _.
  eapply does_silent_bind; [apply instant_now_does| |done..]. intros last _.
  eapply does_silent_bind with (P := λ _, True); [| |done..].
  - apply does_silent_act. intros w [Hw Hx] _. split_and!; [|done..].
    split; [|by apply Hfresh]. apply insert_ok; [|done].
    constructor; simpl; [done|lia|by rewrite health_after_zero].
  - intros [] _. apply does_silent_pure. by intros ? [= <-].
Qed.

Lemma get_shard_client_does url own :
  pooled own (get_shard_client config url) (λ ch, channel_url ch = endpoint_url url).
Proof using All.
  unfold get_shard_client. eapply does_silent_bind; [apply lookup_connection_does| |done..].
  intros [ch|] Hp; [|apply create_connection_does].
  apply does_silent_pure. intros ? [= <-]. by apply Hp.
Qed.

Lemma record_success_does url own : pooled own (act (record_success url)) (λ _, True).
Proof using All.
  apply does_silent_act. intros w [Hw Hx] _. unfold record_success.
  unfold mbind, method_MBind, method_bind, gets. simpl.
  destruct (connections w !! url) as [e|] eqn:He; simpl; [|by split_and!].
  split_and!; [|by unfold requests; simpl; rewrite filter_app, app_nil_r|done].
  split; [|by apply Hfresh]. apply insert_ok; [|done]. destruct (Hw url e He). constructor; simpl; [done|lia|].
  by rewrite health_after_zero.
Qed.

Lemma checked_range {E} w z n : 0 < w → checked (E := E) overflow_checks w z = Ok n → 0 ≤ n < 2 ^ w.
Proof.
  unfold checked. intros Hw. destruct ((0 <=? z) && (z <? 2 ^ w)) eqn:Hz; [intros [= <-]; lia|].
  destruct overflow_checks; [done|]. intros [= <-]. apply Z.mod_pos_bound. lia.
Qed.

Lemma record_failure_does url own :
  (∀ c, extra c) →
  pooled own (act (record_failure overflow_checks config url)) (λ _, True).
Proof using All.
  intros Hany. apply does_silent_act. intros w [Hw Hx] _. unfold record_failure.
  unfold mbind, method_MBind, method_bind, gets, lift. simpl.
  destruct (connections w !! url) as [e|] eqn:He; simpl; [|by split_and!].
  destruct (checked _ _ _) as [n| |] eqn:Hn; simpl; [|by split_and!..].
  split_and!; [|done..]. split; [|apply Hany]. apply insert_ok; [|done]. destruct (Hw url e He).
  apply checked_range in Hn; [|lia]. by constructor.
Qed.

Lemma request_id_does own : pooled own (act request_id) (λ _, True).
Proof. by apply does_silent_act. Qed.

(** A request answered, as [P] says, before what follows. *)
Lemma rpc_bind {X B} own (P : result string X → Prop) (m : method World CoordError X)
    (ev : result string X → Event) (f : X → task World CoordError B) Q :
  (∀ w, ∃ a, P a ∧ m w = (log_event (ev a) w, transport a)) → (∀ a, is_request (ev a) = true) →
  (∀ x, P (Ok x) → does requests world_inv (own ++ [ev (Ok x)]) (f x) Q) →
  (∀ a r, (∀ b, r ≠ Ok b) → Q (own ++ [ev a]) r) →
  does requests world_inv own (act m ≫= f) Q.
Proof.
  intros Hm Hev Hf HQ.
  eapply does_bind with (Q := λ es r, ∃ a, P a ∧ es = own ++ [ev a] ∧ r = transport a).
  - apply does_act. intros w Hw _. destruct (Hm w) as (a & Ha & ->). split; [done|].
    exists [ev a]. split; [simpl; by rewrite requests_log, Hev|by exists a].
  - intros es x (a & HP & -> & Ha). destruct a; simplify_eq/=. by apply Hf.
  - intros es e (a & _ & -> & _). by apply HQ.
  - intros es (a & _ & -> & _). by apply HQ.
Qed.
End PoolFacts.
