(* ===== verification/ShardCoordinator.v ===== *)
(** * The RDF store spread over shards

    Models [governance/shard_coordinator/]: [routing.rs], [query_config.rs],
    [insert.rs], [query.rs], [update.rs] and the store of [mod.rs].  A triple is
    routed by the hash of its subject, a batch is sent in parallel to the shards
    its triples belong to, queries and updates are sent to every active shard.
    The topology is the one of the call: a registration while the call runs is
    not modelled.  The tasks of a call run under a schedule, an argument of the
    operation.  The order of [HashMap]s, the text serde_json gives a row and the
    Turtle parser are parameters.  The messages of one answer are taken from the
    stream at once.  Metrics and log messages are left out. *)

From Stdlib Require Import ZArith Lia Ascii.
From stdpp Require Import base numbers option strings gmap list.
From S2P Require Import Prelude RustStd RustText Effects Tasks HashRing CoordState RdfTerm.
From S2P Require Import SparqlUpdate ShardRegistry ShardPool.

Local Open Scope Z_scope.

(** ** Results of queries *)

(** The JSON of one binding, and of one solution. *)
Inductive Cell : Type :=
  | CellNull
  | CellString (s : string)
  | CellLiteral (value datatype language : string).

#[global] Instance Cell_eq_dec : EqDecision Cell.
Proof. solve_decision. Defined.

Abbreviation Row := (gmap string Cell).

Definition binding_cell (b : BindingValue) : Cell :=
  match b with
  | BindUri uri => CellString uri
  | BindLiteral v d l => CellLiteral v d l
  | BindBlankNode bn => CellString bn
  | BindNone => CellNull
  end.

Definition proto_binding_to_json (bindings : gmap string BindingValue) : Row :=
  binding_cell <$> bindings.

Definition proto_triple_to_json (t : Triple) : Row :=
  list_to_map
    [("subject", CellString (subject t)); ("predicate", CellString (predicate t));
     ("object", CellString (object t)); ("datatype", CellString (object_datatype t));
     ("language", CellString (object_language t)); ("graph", CellString (graph t))].

(** ** Configuration of queries *)

Inductive FailureMode : Type :=
  | FailFast
  | BestEffort
  | Majority
  | Quorum (min_shards : nat).

Record QueryConfig : Type := {
  failure_mode : FailureMode;
  shard_timeout_ms : Z;
  enable_deduplication : bool;
  result_limit : option nat;
}.

Definition default_query_config : QueryConfig :=
  {| failure_mode := BestEffort; shard_timeout_ms := 30000; enable_deduplication := true;
     result_limit := None |}.

Definition query_config (m : FailureMode) : QueryConfig :=
  {| failure_mode := m; shard_timeout_ms := 30000; enable_deduplication := true;
     result_limit := None |}.

Definition with_timeout (ms : Z) (c : QueryConfig) : QueryConfig :=
  {| failure_mode := failure_mode c; shard_timeout_ms := ms;
     enable_deduplication := enable_deduplication c; result_limit := result_limit c |}.

Definition with_deduplication (b : bool) (c : QueryConfig) : QueryConfig :=
  {| failure_mode := failure_mode c; shard_timeout_ms := shard_timeout_ms c;
     enable_deduplication := b; result_limit := result_limit c |}.

Definition with_limit (n : nat) (c : QueryConfig) : QueryConfig :=
  {| failure_mode := failure_mode c; shard_timeout_ms := shard_timeout_ms c;
     enable_deduplication := enable_deduplication c; result_limit := Some n |}.

Definition validate_results {X} (c : QueryConfig) (total successful : nat) (errors : list X)
    : result CoordError unit :=
  match failure_mode c with
  | FailFast => match errors with
                | [] => Ok tt
                | _ => Err (TooFewShards total successful)
                end
  | BestEffort => Ok tt
  | Majority => if (successful * 2 <=? total)%nat then Err (TooFewShards total successful) else Ok tt
  | Quorum n => if (successful <? n)%nat then Err (TooFewShards total successful) else Ok tt
  end.

(** ** Crates *)

(** What rio_turtle hands to its callback; the other kinds are skipped. *)
Inductive RioSubject : Type :=
  | SubjNamedNode (iri : string)
  | SubjBlankNode (id : string)
  | SubjOther.

Inductive RioTerm : Type :=
  | TermNamedNode (iri : string)
  | TermBlankNode (id : string)
  | TermLiteral (value : string)
  | TermOther.

Class StoreCrates : Type := {
  (** the order in which a [HashMap] of groups is drained *)
  hash_groups : gmap ShardId (list raw_triple) → list (ShardId * list raw_triple);
  (** [serde_json::to_string]; keys of an object are in order *)
  row_string : Row → string;
  (** rio_turtle's [parse_all]: the triples of a text *)
  turtle_parse : string → result string (list (RioSubject * string * RioTerm));
}.

(** A map is drained of its entries; a JSON text determines its value. *)
Class StoreCratesOk `{StoreCrates} : Prop := {
  hash_groups_perm g : hash_groups g ≡ₚ map_to_list g;
  row_string_inj r r' : row_string r = row_string r' → r = r';
}.

(** ** Routing *)

(** [ShardRouter::calculate_hash] and [calculate_triple_hash]. *)
Definition subject_hash (subject : string) : Z := default_hasher (str_bytes subject ++ [255]).

Definition triple_hash (s p o : string) : Z :=
  default_hasher ((str_bytes s ++ [255]) ++ (str_bytes p ++ [255]) ++ (str_bytes o ++ [255])).

Definition requires_scatter_gather (sparql : string) : bool :=
  let sparql_upper := to_uppercase sparql in
  if str_contains sparql_upper "?S " || str_contains sparql_upper "?SUBJECT" then true
  else if str_contains sparql_upper "COUNT(" || str_contains sparql_upper "SUM(" ||
          str_contains sparql_upper "AVG(" || str_contains sparql_upper "MIN(" ||
          str_contains sparql_upper "MAX(" then true
  else if str_contains sparql_upper " UNION " then true
  else if str_contains sparql_upper "GRAPH " then true
  else true.

Definition extract_bound_subject (sparql : string) : option string :=
  where_idx ← str_find (to_uppercase sparql) "WHERE";
  let after_where := str_drop where_idx sparql in
  open_brace ← find_char "{" after_where;
  let in_pattern := str_drop (open_brace + 1) after_where in
  open_uri ← find_char "<" in_pattern;
  close_uri ← find_char ">" (str_drop (open_uri + 1) in_pattern);
  Some (trim (str_take close_uri (str_drop (open_uri + 1) in_pattern))).

(** ** Results of tasks *)

(** The errors with the index of their task; [None] is a panic. *)
Definition task_errors {A} (rs : list (result CoordError A)) : list (nat * option CoordError) :=
  omap id (imap (λ i r, match r with
                        | Ok _ => None
                        | Err e => Some (i, Some e)
                        | Panic => Some (i, None)
                        end) rs).

Definition task_values {A} (rs : list (result CoordError A)) : list A :=
  omap (λ r, match r with Ok a => Some a | _ => None end) rs.

(** [result.context(..)??] for every result in turn. *)
Fixpoint all_ok {A} (rs : list (result CoordError A)) : result CoordError unit :=
  match rs with
  | [] => Ok tt
  | Ok _ :: rs' => all_ok rs'
  | Err e :: _ => Err e
  | Panic :: _ => Err TaskPanicked
  end.

Section Store.
Context (overflow_checks : bool) `{HashOrder} `{StoreCrates} `{ShardNet}.
Context (pool : PoolConfig) (topo : ClusterTopology).

Abbreviation WorldM := (method World CoordError).
Abbreviation WorldT := (task World CoordError).

Definition route_triple (subject : string) : result CoordError ShardMetadata :=
  let hash := subject_hash subject in
  ok_or (find_shard_for_hash topo hash) (NoShardForHash hash).

Definition push_group (id : ShardId) (t : raw_triple) (groups : gmap ShardId (list raw_triple))
    : gmap ShardId (list raw_triple) :=
  <[id := default [] (groups !! id) ++ [t]]> groups.

Definition route_batch (triples : list raw_triple)
    : result CoordError (gmap ShardId (list raw_triple)) :=
  result_foldM (λ groups '(s, p, o),
    shard ← route_triple s;
    Ok (push_group (shard_id shard) (s, p, o) groups)) ∅ triples.

(** [tokio::spawn] for each task and [join_all]. *)
Definition spawn_all {A} (sched : list nat) (ts : list (WorldT A)) : WorldM (list (result CoordError A)) :=
  λ w, let '(w', rs) := join_all sched ts w in (w', Ok rs).

(** *** Inserting *)

Definition insert_triple (s p o : string) (graph : option string) : WorldM unit :=
  await (
    shard ← pure (route_triple s);
    ch ← get_shard_client pool (leader_address shard);
    t ← pure (rdf_error (build_validated_triple s p o graph));
    id ← act request_id;
    resp ← act (rpc_insert ch {| ib_triples := [t]; transactional := false;
                                 ib_default_graph := default "" graph; ib_request_id := id |});
    if 0 <? failed_count resp
    then _ ← act (record_failure overflow_checks pool (leader_address shard));
         pure (Err (InsertRejected (shard_id shard) (failed_count resp) (ib_error resp)))
    else act (record_success (leader_address shard))).

(** The triples of a group; an empty graph is none. *)
Definition build_group (graph_uri : string) (triples : list raw_triple)
    : result CoordError (list Triple) :=
  result_mapM (λ '(s, p, o), rdf_error (build_validated_triple s p o
    (if String.eqb graph_uri "" then None else Some graph_uri))) triples.

(** The task of one shard of [insert_batch]. *)
Definition insert_group (graph_uri : string) (id : ShardId) (triples : list raw_triple)
    : WorldT (ShardId * nat * Z) :=
  shard ← pure (ok_or (topo_shards topo !! id) (ShardNotFound id));
  ch ← get_shard_client pool (leader_address shard);
  protos ← pure (build_group graph_uri triples);
  rid ← act request_id;
  resp ← act (rpc_insert ch {| ib_triples := protos; transactional := true;
                               ib_default_graph := graph_uri; ib_request_id := rid |});
  if 0 <? failed_count resp
  then _ ← act (record_failure overflow_checks pool (leader_address shard));
       pure (Err (InsertRejected id (failed_count resp) (ib_error resp)))
  else _ ← act (record_success (leader_address shard));
       mret (id, length protos, ib_duration_ms resp).

Definition insert_batch (sched : list nat) (triples : list raw_triple) (graph : option string)
    : WorldM unit :=
  match triples with
  | [] => mret tt
  | _ =>
      groups ← lift (route_batch triples);
      rs ← spawn_all sched
             (map (λ '(id, ts), insert_group (default "" graph) id ts) (hash_groups groups));
      guard_ok (bool_decide (length (task_errors rs) = 0%nat)) (ShardsFailed (task_errors rs))
  end.

(** The delay before attempt [attempt + 1]. *)
Definition backoff (attempt : nat) : result CoordError Z :=
  p ← checked overflow_checks 64 (2 ^ (Z.of_nat attempt - 1));
  checked overflow_checks 64 (100 * p).

(** [insert_batch_with_retry] with [remaining] attempts left after this one. *)
Fixpoint insert_attempts (sched : nat → list nat) (triples : list raw_triple)
    (graph : option string) (remaining attempt : nat) : WorldM unit :=
  λ w, match insert_batch (sched attempt) triples graph w with
       | (w', Err e) =>
           match remaining with
           | O => (w', Err e)
           | S remaining' =>
               (delay ← lift (backoff (S attempt));
                _ ← modify (log_event (EvSleep delay));
                insert_attempts sched triples graph remaining' (S attempt)) w'
           end
       | r => r
       end.

Definition insert_batch_with_retry (sched : nat → list nat) (triples : list raw_triple)
    (graph : option string) (max_retries : nat) : WorldM unit :=
  insert_attempts sched triples graph max_retries 0.

(** *** Querying *)

Definition get_unix_timestamp : WorldM Z :=
  gets (λ w, if unix_time (history w) <? 0 then 0 else unix_time (history w)).

Definition query_request (sparql id : string) (now : Z) : QueryRequest :=
  {| ShardPool.sparql := sparql; limit := 0; offset := 0; projections := [];
     query_plan_hint := []; timeout_ms := 30000; q_request_id := id; timestamp := now |}.

(** The loop over the messages: the rows, and whether the end marker came. *)
Fixpoint collect_stream (id : ShardId) (s : QueryStream) : result CoordError (list Row * bool) :=
  match s with
  | [] => Ok ([], false)
  | Err e :: _ => Err (Transport e)
  | Panic :: _ => Panic
  | Ok (RespBinding b) :: s' =>
      '(rows, e) ← collect_stream id s'; Ok (proto_binding_to_json b :: rows, e)
  | Ok (RespTripleBatch ts) :: s' =>
      '(rows, e) ← collect_stream id s'; Ok (map proto_triple_to_json ts ++ rows, e)
  | Ok (RespEnd _ _) :: _ => Ok ([], true)
  | Ok (RespError m) :: _ => Err (QueryRejected id m)
  | Ok RespNone :: s' => collect_stream id s'
  end.

(** One shard's part of a query. *)
Definition query_shard (sparql : string) (shard : ShardMetadata) : WorldT (list Row) :=
  ch ← get_shard_client pool (leader_address shard);
  rid ← act request_id;
  now ← act get_unix_timestamp;
  stream ← act (rpc_query ch (query_request sparql rid now));
  '(rows, ended) ← pure (collect_stream (shard_id shard) stream);
  if ended : bool
  then _ ← act (record_success (leader_address shard)); mret rows
  else mret rows.

Definition execute_single_shard (sparql subject : string) : WorldM (list Row) :=
  await (shard ← pure (route_triple subject); query_shard sparql shard).

Fixpoint dedup_rows (seen : gset string) (rows : list Row) : list Row :=
  match rows with
  | [] => []
  | r :: rows' =>
      if bool_decide (row_string r ∈ seen) then dedup_rows seen rows'
      else r :: dedup_rows ({[row_string r]} ∪ seen) rows'
  end.

Definition deduplicate_results (rows : list Row) : list Row := dedup_rows ∅ rows.

Definition apply_limit (limit : option nat) (rows : list Row) : list Row :=
  match limit with
  | Some n => if (n <? length rows)%nat then take n rows else rows
  | None => rows
  end.

Definition execute_scatter_gather (config : QueryConfig) (sched : list nat) (sparql : string)
    : WorldM (list Row) :=
  match active_shards topo with
  | [] => fail NoActiveShards
  | shards =>
      rs ← spawn_all sched (map (query_shard sparql) shards);
      _ ← lift (validate_results config (length shards)
                  (length shards - length (task_errors rs)) (task_errors rs));
      let aggregated := concat (task_values rs) in
      let final := if enable_deduplication config then deduplicate_results aggregated
                   else aggregated in
      mret (apply_limit (result_limit config) final)
  end.

Definition execute_query (config : QueryConfig) (sched : list nat) (sparql : string)
    : WorldM (list Row) :=
  if requires_scatter_gather sparql then execute_scatter_gather config sched sparql
  else match extract_bound_subject sparql with
       | Some subject => execute_single_shard sparql subject
       | None => execute_scatter_gather config sched sparql
       end.

(** The number a row adds to a count: a cell is never a JSON number. *)
Definition row_count (r : Row) : Z :=
  match r !! "count" with
  | Some (CellString s) => default 0 (u64_from_str s)
  | _ => 0
  end.

Definition execute_count (config : QueryConfig) (sched : list nat) (sparql : string) : WorldM Z :=
  if str_contains (to_uppercase sparql) "COUNT("
  then rows ← execute_scatter_gather config sched sparql;
       lift (result_foldM (λ a r, checked overflow_checks 64 (a + row_count r)) 0 rows)
  else fail NotACountQuery.

(** *** Updating *)

(** The task of one shard of [execute_update]. *)
Definition update_shard_task (sparql_upd : string) (shard : ShardMetadata) : WorldT (Z * Z * Z) :=
  ch ← get_shard_client pool (leader_address shard);
  rid ← act request_id;
  resp ← act (rpc_update ch {| sparql_update := sparql_upd; upd_default_graph := "";
                               upd_request_id := rid; upd_timeout_ms := 30000 |});
  if negb (success resp) then pure (Err (UpdateRejected (shard_id shard) (upd_error resp)))
  else _ ← act (record_success (leader_address shard));
       mret (upd_inserted_count resp, upd_deleted_count resp, upd_modified_count resp).

(** The running totals, of which only the overflow is observable. *)
Definition add_counts (acc c : Z * Z * Z) : result CoordError (Z * Z * Z) :=
  let '(i, d, m) := acc in
  let '(i', d', m') := c in
  x ← checked overflow_checks 64 (i + i');
  y ← checked overflow_checks 64 (d + d');
  z ← checked overflow_checks 64 (m + m');
  Ok (x, y, z).

(** The task of one shard of [execute_insert_data]. *)
Definition insert_data_task (triples : list Triple) (shard : ShardMetadata) : WorldT (ShardId * Z) :=
  ch ← get_shard_client pool (leader_address shard);
  rid ← act request_id;
  resp ← act (rpc_insert ch {| ib_triples := triples; transactional := false;
                               ib_default_graph := ""; ib_request_id := rid |});
  if (0 <? failed_count resp) && negb (String.eqb (ib_error resp) "")
  then _ ← act (record_failure overflow_checks pool (leader_address shard));
       pure (Err (InsertRejected (shard_id shard) (failed_count resp) (ib_error resp)))
  else _ ← act (record_success (leader_address shard));
       mret (shard_id shard, inserted_count resp).

Definition execute_insert_data (sched : list nat) (sparql_insert : string) : WorldM unit :=
  raw ← lift (sparql_error (parse_insert_data sparql_insert));
  protos ← lift (result_mapM (λ '(s, p, o), rdf_error (build_validated_triple s p o None)) raw);
  match active_shards topo with
  | [] => fail NoActiveShards
  | shards =>
      rs ← spawn_all sched (map (insert_data_task protos) shards);
      _ ← lift (result_foldM (λ a c, checked overflow_checks 64 (a + c.2)) 0 (task_values rs));
      guard_ok (bool_decide (length (task_errors rs) = 0%nat)) (ShardsFailed (task_errors rs))
  end.

Definition execute_update (sched : list nat) (sparql_upd : string) : WorldM unit :=
  if str_contains (to_uppercase (trim sparql_upd)) "INSERT DATA"
  then execute_insert_data sched sparql_upd
  else
    rs ← spawn_all sched (map (update_shard_task sparql_upd) (active_shards topo));
    _ ← lift (result_foldM add_counts (0, 0, 0) (task_values rs));
    guard_ok (bool_decide (length (task_errors rs) = 0%nat)) (ShardsFailed (task_errors rs)).

(** The callback of [parse_turtle]. *)
Definition turtle_triple (t : RioSubject * string * RioTerm) : option raw_triple :=
  let '(subj, pred, obj) := t in
  s ← match subj with
      | SubjNamedNode iri => Some iri
      | SubjBlankNode id => Some ("_:" +:+ id)
      | SubjOther => None
      end;
  o ← match obj with
      | TermNamedNode iri => Some iri
      | TermBlankNode id => Some ("_:" +:+ id)
      | TermLiteral value => Some value
      | TermOther => None
      end;
  Some (s, pred, o).

Definition parse_turtle (turtle : string) : result CoordError (list raw_triple) :=
  match turtle_parse turtle with
  | Ok ts => Ok (omap turtle_triple ts)
  | Err e => Err (BadTurtle e)
  | Panic => Panic
  end.

Definition load_turtle (sched : list nat) (turtle : string) (graph : option string) : WorldM unit :=
  triples ← lift (parse_turtle turtle);
  insert_batch sched triples graph.

Definition load_ontology (sched : list nat) (turtle : string) : WorldM unit :=
  load_turtle sched turtle None.

(** The task of one shard of [clear_graph]. *)
Definition clear_shard_task (graph_uri : string) (shard : ShardMetadata) : WorldT unit :=
  ch ← get_shard_client pool (leader_address shard);
  upd ← pure (sparql_error (SparqlUpdate.clear_graph graph_uri));
  rid ← act request_id;
  resp ← act (rpc_update ch {| sparql_update := upd; upd_default_graph := "";
                               upd_request_id := rid; upd_timeout_ms := 30000 |});
  if negb (success resp) then pure (Err (UpdateRejected (shard_id shard) (upd_error resp)))
  else mret tt.

Definition clear_graph_all (sched : list nat) (graph_uri : string) : WorldM unit :=
  rs ← spawn_all sched (map (clear_shard_task graph_uri) (active_shards topo));
  lift (all_ok rs).

Definition count_query (graph : option string) : string :=
  match graph with
  | Some uri => "SELECT (COUNT(*) as ?count) WHERE { GRAPH <" +:+ uri +:+ "> { ?s ?p ?o } }"
  | None => "SELECT (COUNT(*) as ?count) WHERE { ?s ?p ?o }"
  end.

Definition count_triples (sched : list nat) (graph : option string) : WorldM Z :=
  execute_count default_query_config sched (count_query graph).
End Store.
