(* ===== verification/ShardCoordinatorFacts.v ===== *)
(** * What the sharded store delivers

    For every schedule of the tasks and every behaviour of the network: a batch
    that was accepted has been sent once, each triple to the shard that owns the
    hash of its subject; a query answered in fail-fast mode holds the rows of
    every active shard, once; an update that succeeded was run by every active
    shard.  Queries and updates never open a circuit, and counts are zero. *)

From Stdlib Require Import ZArith Lia Ascii.
From stdpp Require Import base numbers option strings gmap list.
From S2P Require Import Prelude RustStd RustText Effects Tasks HashRing CoordState RdfTerm.
From S2P Require Import SparqlUpdate ShardRegistry ShardRegistryFacts ShardPool ShardCoordinator.

Local Open Scope Z_scope.

(** ** Grouping *)

Section Routing.
Context `{HashOrder} (topo : ClusterTopology).

(** The shard a triple belongs to. *)
Definition owner (t : raw_triple) : option ShardId :=
  shard_id <$> find_shard_for_hash topo (subject_hash t.1.1).

Lemma subject_hash_range s : 0 ≤ subject_hash s ≤ U64_MAX.
Proof.
  unfold subject_hash. generalize (str_bytes s ++ [255]). intros bs.
  pose proof (default_hasher_range bs) as Hr. revert Hr. generalize (default_hasher bs).
  intros z Hz. unfold U64_MAX. lia.
Qed.

(** The triples of a batch that belong to a shard, in order. *)
Definition share (triples : list raw_triple) (id : ShardId) : list raw_triple :=
  filter (λ t, owner t = Some id) triples.

Lemma route_triple_Ok s p o shard :
  route_triple topo s = Ok shard → owner (s, p, o) = Some (shard_id shard).
Proof.
  unfold route_triple, owner, ok_or. simpl. destruct (find_shard_for_hash _ _); [|done].
  by intros [= ->].
Qed.

(** The groups of a batch are the shares that are not empty. *)
Definition grouped (triples : list raw_triple) (groups : gmap ShardId (list raw_triple)) : Prop :=
  ∀ id, groups !! id = match share triples id with [] => None | l => Some l end.

Lemma push_grouped triples groups t id :
  grouped triples groups → owner t = Some id → grouped (triples ++ [t]) (push_group id t groups).
Proof.
  intros Hg Ho k. unfold push_group, share. rewrite filter_app.
  destruct (decide (k = id)) as [->|Hne].
  - rewrite lookup_insert_eq, (Hg id), filter_cons_True, filter_nil by done. unfold share.
    by destruct (filter _ triples).
  - rewrite lookup_insert_ne, (Hg k), filter_cons_False, filter_nil, app_nil_r by congruence. done.
Qed.

Lemma route_fold_groups triples groups before groups' :
  result_foldM (λ groups '(s, p, o),
    shard ← route_triple topo s;
    Ok (push_group (shard_id shard) (s, p, o) groups)) groups triples = Ok groups' →
  grouped before groups → Forall (λ t, is_Some (owner t)) before →
  grouped (before ++ triples) groups' ∧ Forall (λ t, is_Some (owner t)) (before ++ triples).
Proof.
  revert groups before. induction triples as [|[[s p] o] triples IH]; intros groups before Hf Hg Hb.
  - simpl in Hf. rewrite app_nil_r. by simplify_eq.
  - simpl in Hf. apply result_bind_Ok in Hf as (g1 & Hs & Hf).
    apply result_bind_Ok in Hs as (shard & Hs & [= <-]).
    apply (route_triple_Ok s p o) in Hs. rewrite (cons_middle _ before), (assoc_L (++)).
    eapply IH; [exact Hf|by apply push_grouped|]. apply Forall_app. split; [done|].
    constructor; [by eexists|constructor].
Qed.

Lemma route_batch_groups triples groups :
  route_batch topo triples = Ok groups →
  grouped triples groups ∧ Forall (λ t, is_Some (owner t)) triples.
Proof.
  intros Hr. apply (route_fold_groups triples ∅ [] groups Hr); [|constructor].
  intros id. by rewrite lookup_empty.
Qed.

(** A batch is routed unless a triple has no owner. *)
Lemma route_batch_total triples :
  Forall (λ t, is_Some (owner t)) triples → ∃ groups, route_batch topo triples = Ok groups.
Proof.
  unfold route_batch. generalize (∅ : gmap ShardId (list raw_triple)) as g.
  induction triples as [|[[s p] o] triples IH]; intros g Hf; [by eexists|].
  inversion Hf as [|? ? [id Ho] Hf']; subst. simpl.
  unfold owner in Ho. simpl in Ho. unfold route_triple, ok_or.
  destruct (find_shard_for_hash _ _) as [shard|]; [|done]. simpl. by apply IH.
Qed.
End Routing.

(** ** Results of tasks *)

Lemma errors_none_gen {A} (f : nat → result CoordError A → option (nat * option CoordError)) rs :
  (∀ i r, f i r = None → ∃ a, r = Ok a) →
  length (omap id (imap f rs)) = 0%nat → Forall (λ r, ∃ a, r = Ok a) rs.
Proof.
  revert f. induction rs as [|r rs IH]; intros f Hf Hl; [constructor|].
  rewrite imap_cons in Hl. simpl in Hl. destruct (f 0%nat r) eqn:Hr; [done|].
  constructor; [by eapply Hf|]. apply (IH (f ∘ S)); [|done]. intros i x. apply Hf.
Qed.

Lemma errors_none {A} (rs : list (result CoordError A)) :
  length (task_errors rs) = 0%nat → Forall (λ r, ∃ a, r = Ok a) rs.
Proof. apply errors_none_gen. intros i [a|e|]; [by eexists|done..]. Qed.

Lemma outcomes_count_gen {A} (f : nat → result CoordError A → option (nat * option CoordError)) rs :
  (∀ i r, f i r = None ↔ ∃ a, r = Ok a) →
  (length (task_values rs) + length (omap id (imap f rs)) = length rs)%nat.
Proof.
  revert f. induction rs as [|r rs IH]; intros f Hf; [done|].
  specialize (IH (f ∘ S) (λ i x, Hf (S i) x)). rewrite imap_cons. unfold task_values, omap in *. simpl.
  pose proof (Hf 0%nat r) as [H1 H2]. destruct r as [a|e|]; simpl in *.
  - rewrite H2 by (by eexists). simpl. lia.
  - destruct (f 0%nat _); [simpl; lia|]. by destruct H1.
  - destruct (f 0%nat _); [simpl; lia|]. by destruct H1.
Qed.

Lemma outcomes_count {A} (rs : list (result CoordError A)) :
  (length (task_values rs) + length (task_errors rs) = length rs)%nat.
Proof. apply outcomes_count_gen. intros i [a|e|]; naive_solver. Qed.

(** Three lists given by their elements. *)
Lemma Forall3_of_lookup {A B C} (P : A → B → C → Prop) l k m :
  length k = length l → length m = length l →
  (∀ i x y z, l !! i = Some x → k !! i = Some y → m !! i = Some z → P x y z) →
  Forall3 P l k m.
Proof.
  revert k m. induction l as [|x l IH]; intros [|y k] [|z m] Hk Hm HP; simplify_eq/=; constructor.
  - by apply (HP 0%nat).
  - apply IH; [done..|]. intros i. apply (HP (S i)).
Qed.

(** One task for each element of a list, run to the end under any schedule. *)
Lemma fan_out `{ShardNet} {X A} inv (f : X → task World CoordError A) Q xs sched w w' rs :
  (∀ x, does requests inv [] (f x) (Q x)) → inv w →
  spawn_all sched (map f xs) w = (w', Ok rs) →
  inv w' ∧ ∃ ess new, Forall3 Q xs ess rs ∧ requests w' = requests w ++ new ∧ new ≡ₚ concat ess.
Proof.
  intros Hf Hw Hs. unfold spawn_all in Hs.
  destruct (join_all_does requests inv sched (λ i es r, ∀ x, xs !! i = Some x → Q x es r)
    (map f xs) w) as (Hw' & Hlen & ess & new & Hess & HF & Hl & Hp); [|done|].
  { intros i t Ht. rewrite list_lookup_fmap in Ht.
    destruct (xs !! i) as [x|]; simplify_eq/=.
    eapply does_mono; [apply Hf|]. intros es r Hr ? [= <-]. done. }
  destruct (join_all sched (map f xs) w) as [w1 rs1]. simplify_eq/=.
  rewrite length_map in Hlen, Hess. split; [done|]. exists ess, new. split_and!; [|done..].
  apply Forall3_of_lookup; [done..|]. intros i x es r Hx Hes Hr. by eapply HF.
Qed.

(** A task that makes one call and, when it succeeds, was answered as [P] says. *)
Definition one_call {X A} (P : X → A → Event → Prop) (x : X) (es : list Event)
    (r : result CoordError A) : Prop :=
  match r with
  | Ok a => ∃ c, es = [c] ∧ P x a c
  | _ => (length es ≤ 1)%nat
  end.

Lemma one_call_fails {X A} (P : X → A → Event → Prop) x c r :
  (∀ a, r ≠ Ok a) → one_call P x [c] r.
Proof. intros Hr. destruct r as [a| |]; simpl; [by destruct (Hr a)|lia..]. Qed.

(** A task that ends early. *)
Ltac no_call := simpl; lia.

(** The tasks that succeeded, with their results and calls. *)
Lemma calls_made {X A} (P : X → A → Event → Prop) xs ess rs :
  Forall3 (one_call P) xs ess rs →
  ∃ (answers : list (X * A)) calls,
    answers.*1 `sublist_of` xs ∧ answers.*2 = task_values rs ∧
    Forall2 (λ a c, P a.1 a.2 c) answers calls ∧ calls ⊆+ concat ess.
Proof.
  induction 1 as [|x es r xs' ess' rs' Hr _ (answers & calls & Hs & Hv & HF & Hc)].
  { exists [], []. split_and!; constructor. }
  destruct r as [a|e|]; simpl in Hr.
  - destruct Hr as (c & -> & Hr). exists ((x, a) :: answers), (c :: calls). split_and!.
    + simpl. by constructor.
    + unfold task_values. simpl. by f_equal.
    + by constructor.
    + simpl. by constructor.
  - exists answers, calls. split_and!; [by constructor|done|done|].
    simpl. by apply submseteq_inserts_l.
  - exists answers, calls. split_and!; [by constructor|done|done|].
    simpl. by apply submseteq_inserts_l.
Qed.

(** When every task succeeded these are all the calls. *)
Lemma all_calls {X A} (P : X → A → Event → Prop) xs ess rs :
  Forall3 (one_call P) xs ess rs → Forall (λ r, ∃ a, r = Ok a) rs →
  ∃ calls, concat ess = calls ∧ Forall2 (λ x c, ∃ a, P x a c) xs calls.
Proof.
  induction 1 as [|x es r xs' ess' rs' Hx _ IH]; intros Hr; [by exists []|].
  inversion Hr as [|? ? [a ->] Hr']; subst. destruct (IH Hr') as (calls & Hc & HF).
  destruct Hx as (c & -> & Hx). exists (c :: calls). simpl. split; [by f_equal|].
  constructor; [by exists a|done].
Qed.

Section StoreFacts.
Context (overflow_checks : bool) `{HashOrder} `{StoreCratesOk} `{ShardNetOk}.
Context (pool : PoolConfig) (topo : ClusterTopology) (Hmax : 0 < max_failures pool).

(** ** Inserting *)

Lemma fresh_any : fresh_ok (λ _, True).
Proof. done. Qed.

Abbreviation any_inv := (world_inv pool (λ _, True)).

Lemma any_inv_ok w : any_inv w ↔ world_ok pool w.
Proof. unfold world_inv. naive_solver. Qed.

(** The request an accepted group was sent in. *)
Definition delivered (graph_uri : string) (id : ShardId) (triples : list raw_triple)
    (call : Event) : Prop :=
  ∃ shard protos rid resp,
    topo_shards topo !! id = Some shard ∧ build_group graph_uri triples = Ok protos ∧
    failed_count resp ≤ 0 ∧
    call = EvInsert (endpoint_url (leader_address shard))
             {| ib_triples := protos; transactional := true; ib_default_graph := graph_uri;
                ib_request_id := rid |} (Ok resp).

Definition group_call (graph_uri : string) (group : ShardId * list raw_triple)
    (_ : ShardId * nat * Z) (call : Event) : Prop :=
  delivered graph_uri group.1 group.2 call.

Lemma insert_group_does graph_uri id triples :
  does requests any_inv [] (insert_group overflow_checks pool topo graph_uri id triples)
    (one_call (group_call graph_uri) (id, triples)).
Proof using All.
  unfold insert_group.
  eapply does_silent_bind with (P := λ shard, topo_shards topo !! id = Some shard);
    [|intros shard Hshard|no_call..].
  { apply does_silent_pure. intros shard. unfold ok_or. by destruct (topo_shards topo !! id); [intros [= ->]|]. }
  eapply does_silent_bind; [by apply get_shard_client_does, fresh_any| |no_call..]. intros ch Hch. simpl in Hch.
  eapply does_silent_bind with (P := λ protos, build_group graph_uri triples = Ok protos);
    [by apply does_silent_pure|intros protos Hp|no_call..].
  eapply does_silent_bind; [apply request_id_does|intros rid _|no_call..].
  eapply rpc_bind with (P := λ _, True);
    [intros w; by eexists|done|intros resp _|intros; by apply one_call_fails]. destruct (Z.ltb_spec 0 (failed_count resp)) as [Hf|Hf].
  - eapply does_silent_bind; [apply record_failure_does; first [apply fresh_any|done]| |no_call..]. intros [] _. by apply one_call_fails.
  - eapply does_silent_bind; [by apply record_success_does, fresh_any| |no_call..]. intros [] _. simpl.
    rewrite Hch. eexists. split; [done|]. by exists shard, protos, rid, resp.
Qed.

Abbreviation store_insert := (insert_batch overflow_checks pool topo).

(** A batch that was routed, whatever its outcome. *)
Lemma insert_batch_runs sched triples graph w w' r groups :
  triples ≠ [] → store_insert sched triples graph w = (w', r) → world_ok pool w →
  route_batch topo triples = Ok groups →
  world_ok pool w' ∧ ∃ rs ess new,
    Forall3 (one_call (group_call (default "" graph))) (hash_groups groups) ess rs ∧
    requests w' = requests w ++ new ∧ new ≡ₚ concat ess ∧
    r = (if bool_decide (length (task_errors rs) = 0%nat) then Ok tt
         else Err (ShardsFailed (task_errors rs))).
Proof using All.
  intros Hne Hr Hw Hg. unfold insert_batch in Hr. destruct triples as [|t ts]; [done|].
  unfold lift, mbind, method_MBind, method_bind in Hr. rewrite Hg in Hr.
  set (tasks := map _ (hash_groups groups)) in Hr.
  destruct (spawn_all sched tasks w) as [w1 [rs| |]] eqn:Hs;
    [|unfold spawn_all in Hs; destruct (join_all _ _ _); done..].
  apply any_inv_ok in Hw.
  apply (fan_out any_inv _ (one_call (group_call (default "" graph)))) in Hs
    as (Hw1 & ess & new & HF & Hl & Hp); [| |done].
  2: { intros [id l]. apply insert_group_does. }
  rewrite any_inv_ok in Hw1. unfold guard_ok in Hr.
  assert (w' = w1 ∧ r = (if bool_decide (length (task_errors rs) = 0%nat) then Ok tt
            else Err (ShardsFailed (task_errors rs)))) as [-> ->].
  { case_bool_decide; by injection Hr as <- <-. }
  split; [done|]. by exists rs, ess, new.
Qed.

(** The calls of a batch: one to each shard that owns some of its triples. *)
Definition batch_calls (graph : option string) (triples : list raw_triple) (calls : list Event)
    : Prop :=
  ∃ ids, NoDup ids ∧
    Forall (λ t, ∃ id, id ∈ ids ∧ owner topo t = Some id) triples ∧
    Forall2 (λ id call, share topo triples id ≠ [] ∧
      delivered (default "" graph) id (share topo triples id) call) ids calls.

Lemma accepted_calls sched triples graph w w' :
  store_insert sched triples graph w = (w', Ok tt) → world_ok pool w →
  world_ok pool w' ∧ ∃ new calls, requests w' = requests w ++ new ∧ new ≡ₚ calls ∧
    batch_calls graph triples calls.
Proof using All.
  intros Hr Hw. destruct (decide (triples = [])) as [->|Hne].
  { injection Hr as <-. split; [done|]. exists [], []. rewrite app_nil_r.
    split_and!; [done..|]. exists []. by split_and!; repeat constructor. }
  destruct (route_batch topo triples) as [groups| |] eqn:Hg;
    [|unfold insert_batch, lift, mbind, method_MBind, method_bind in Hr; destruct triples; [done|];
      rewrite Hg in Hr; done..].
  destruct (insert_batch_runs _ _ _ _ _ _ _ Hne Hr Hw Hg)
    as (Hw' & rs & ess & new & HF & Hnew & Hp & Hres).
  split; [done|]. case_bool_decide as Herr; [|done]. apply errors_none in Herr.
  destruct (route_batch_groups topo triples groups Hg) as [Hgr Hown].
  destruct (all_calls _ _ _ _ HF Herr) as (calls & Hc & Hcalls).
  exists new, calls. split_and!; [done|by rewrite Hp, Hc|].
  exists (hash_groups groups).*1. split_and!.
  - rewrite hash_groups_perm. apply NoDup_fst_map_to_list.
  - rewrite Forall_forall in *. intros t Ht. destruct (Hown t Ht) as [id Hid].
    exists id. split; [|done]. specialize (Hgr id).
    assert (t ∈ share topo triples id) as Hin by (by apply list_elem_of_filter).
    destruct (share topo triples id) as [|u us]; [by apply not_elem_of_nil in Hin|].
    apply list_elem_of_fmap. exists (id, u :: us). split; [done|].
    rewrite hash_groups_perm. by apply elem_of_map_to_list.
  - apply Forall2_fmap_l, Forall2_same_length_lookup. split; [by eapply Forall2_length|].
    intros i [id l] call Hi Hcall.
    pose proof (Forall2_lookup_lr _ _ _ _ _ _ Hcalls Hi Hcall) as [? Hd]. unfold group_call in Hd. simpl in *.
    apply list_elem_of_lookup_2 in Hi as Hin. rewrite hash_groups_perm in Hin. apply elem_of_map_to_list in Hin.
    rewrite (Hgr id) in Hin. destruct (share topo triples id); by simplify_eq.
Qed.

(** C5: a batch the store reports as inserted was sent once: one request to each
    shard that owns triples of it, with exactly these triples in order, answered
    without a failed triple.  It holds for every schedule of the tasks and every
    behaviour of the network; the pool stays consistent. *)
Theorem accepted_batch_delivered sched triples graph w w' :
  store_insert sched triples graph w = (w', Ok tt) → world_ok pool w →
  world_ok pool w' ∧ ∃ new calls, requests w' = requests w ++ new ∧ new ≡ₚ calls ∧
    batch_calls graph triples calls.
Proof using All. apply accepted_calls. Qed.

(** Every outcome keeps the pool, and the log only grows. *)
Lemma insert_batch_keeps sched triples graph w w' r :
  store_insert sched triples graph w = (w', r) → world_ok pool w →
  world_ok pool w' ∧ requests w `prefix_of` requests w'.
Proof using All.
  intros Hr Hw. destruct (decide (triples = [])) as [->|Hne]; [by injection Hr as <- _|].
  destruct (route_batch topo triples) as [groups| |] eqn:Hg.
  - destruct (insert_batch_runs _ _ _ _ _ _ _ Hne Hr Hw Hg)
      as (Hw' & rs & ess & new & _ & Hnew & _). split; [done|]. by exists new.
  - unfold insert_batch, lift, mbind, method_MBind, method_bind in Hr. destruct triples; [done|].
    rewrite Hg in Hr. by injection Hr as <- _.
  - unfold insert_batch, lift, mbind, method_MBind, method_bind in Hr. destruct triples; [done|].
    rewrite Hg in Hr. by injection Hr as <- _.
Qed.

Lemma attempts_deliver sched triples graph remaining attempt w w' :
  insert_attempts overflow_checks pool topo sched triples graph remaining attempt w = (w', Ok tt) →
  world_ok pool w →
  ∃ w1 k, world_ok pool w1 ∧ requests w `prefix_of` requests w1 ∧
    (attempt ≤ k ≤ attempt + remaining)%nat ∧
    store_insert (sched k) triples graph w1 = (w', Ok tt).
Proof using All.
  revert attempt w. induction remaining as [|n IH]; intros attempt w Hr Hw; simpl in Hr;
    destruct (store_insert (sched attempt) triples graph w) as [w1 [[]|e|]] eqn:Hi;
    simplify_eq/=; try (exists w, attempt; split_and!; [done..|lia|lia|exact Hi]).
  destruct (insert_batch_keeps _ _ _ _ _ _ Hi Hw) as [Hw1 Hpre].
  unfold mbind, method_MBind, method_bind, lift, modify in Hr.
  destruct (backoff overflow_checks (S attempt)) as [d| |]; simplify_eq/=.
  destruct (IH _ _ Hr) as (w2 & k & Hw2 & Hpre2 & Hk & Hi2); [done|].
  exists w2, k. split_and!; [done| |lia|lia|done].
  etrans; [exact Hpre|]. rewrite requests_log, app_nil_r in Hpre2. exact Hpre2.
Qed.
End StoreFacts.

(** ** Querying *)

Section QueryFacts.
Context (overflow_checks : bool) `{HashOrder} `{StoreCratesOk} `{ShardNetOk}.
Context (pool : PoolConfig) (topo : ClusterTopology) (Hmax : 0 < max_failures pool).
Context (extra : gmap string ConnectionEntry → Prop) (Hfresh : fresh_ok extra).

Abbreviation inv := (world_inv pool extra).

(** The call that answered a shard's part of a query. *)
Definition answered (sparql : string) (shard : ShardMetadata) (rows : list Row) (call : Event)
    : Prop :=
  ∃ rid now stream ended,
    collect_stream (shard_id shard) stream = Ok (rows, ended) ∧
    (∃ h ch, net_query h ch (query_request sparql rid now) = Ok stream) ∧
    call = EvQuery (endpoint_url (leader_address shard)) (query_request sparql rid now) (Ok stream).

Lemma query_shard_does sparql shard :
  does requests inv [] (query_shard pool sparql shard) (one_call (answered sparql) shard).
Proof using All.
  unfold query_shard.
  eapply does_silent_bind; [by apply get_shard_client_does| |no_call..]. intros ch Hch. simpl in Hch.
  eapply does_silent_bind; [apply request_id_does|intros rid _|no_call..].
  eapply does_silent_bind with (P := λ _, True); [by apply does_silent_act|intros now _|no_call..].
  eapply rpc_bind with (P := λ a, ∃ h, net_query h ch (query_request sparql rid now) = a);
    [intros w; eexists; split; [by eexists|done]|done|intros stream [h Hh]|intros; by apply one_call_fails].
  eapply does_silent_bind with (P := λ re, collect_stream (shard_id shard) stream = Ok re);
    [by apply does_silent_pure|intros [rows []] Hc|no_call..].
  - eapply does_silent_bind; [by apply record_success_does| |no_call..]. intros [] _.
    simpl. rewrite Hch. eexists. split; [done|]. exists rid, now, stream, true. eauto.
  - simpl. rewrite Hch. eexists. split; [done|]. exists rid, now, stream, false. eauto.
Qed.

(** Removing duplicates keeps one row of each value. *)
Lemma dedup_rows_spec seen rows :
  NoDup (dedup_rows seen rows) ∧
  ∀ r, r ∈ dedup_rows seen rows ↔ r ∈ rows ∧ row_string r ∉ seen.
Proof using All.
  revert seen. induction rows as [|x rows IH]; intros seen; simpl.
  { split; [constructor|]. intros r. rewrite elem_of_nil. tauto. }
  case_bool_decide as Hx.
  - destruct (IH seen) as [Hn Hm]. split; [done|]. intros r. rewrite Hm, elem_of_cons.
    split; [tauto|]. intros [[->|?] ?]; [done|tauto].
  - destruct (IH ({[row_string x]} ∪ seen)) as [Hn Hm]. split.
    + constructor; [|done]. rewrite Hm. intros [_ Hni]. apply Hni. set_solver.
    + intros r. rewrite !elem_of_cons, Hm. split.
      * intros [->|[Hr Hni]]; [tauto|]. split; [tauto|set_solver].
      * intros [[->|Hr] Hni]; [tauto|]. destruct (decide (r = x)) as [->|Hne]; [tauto|].
        right. split; [done|]. rewrite elem_of_union, elem_of_singleton.
        intros [Heq|?]; [|done]. by apply row_string_inj in Heq.
Qed.

(** Enough shards answered for the mode of failure. *)
Definition enough (m : FailureMode) (total answered : nat) : Prop :=
  match m with
  | FailFast => answered = total
  | BestEffort => True
  | Majority => (total < 2 * answered)%nat
  | Quorum n => (n ≤ answered)%nat
  end.

Lemma validate_enough {X} config total answered (errors : list X) :
  (answered + length errors = total)%nat →
  validate_results config total (total - length errors) errors = Ok tt ↔
  enough (failure_mode config) total answered.
Proof.
  intros Ht. unfold validate_results, enough.
  destruct (failure_mode config) as [| | |n].
  - destruct errors; simpl in *; split; intros; try done; lia.
  - done.
  - destruct (Nat.leb_spec ((total - length errors) * 2) total); split; intros; try done; lia.
  - destruct (Nat.ltb_spec (total - length errors) n); split; intros; try done; lia.
Qed.

(** What a query asks for from the rows of the answers. *)
Definition merged (config : QueryConfig) (rows all : list Row) : Prop :=
  ∃ kept, rows = apply_limit (result_limit config) kept ∧
    if enable_deduplication config then NoDup kept ∧ ∀ r, r ∈ kept ↔ r ∈ all else kept = all.

Lemma scatter_gather_runs config sched sparql w w' rows :
  execute_scatter_gather pool topo config sched sparql w = (w', Ok rows) → inv w →
  inv w' ∧ ∃ (answers : list (ShardMetadata * list Row)) calls new,
    answers.*1 `sublist_of` active_shards topo ∧
    enough (failure_mode config) (length (active_shards topo)) (length answers) ∧
    requests w' = requests w ++ new ∧ calls ⊆+ new ∧
    Forall2 (λ a c, answered sparql a.1 a.2 c) answers calls ∧
    merged config rows (concat answers.*2).
Proof using All.
  intros Hr Hw. unfold execute_scatter_gather in Hr.
  destruct (active_shards topo) as [|s0 ss] eqn:Ha; [done|]. rewrite <- Ha in Hr.
  apply method_bind_Ok in Hr as (w1 & rs & Hs & Hr).
  apply method_bind_Ok in Hr as (w2 & [] & [= <- Hv] & [= <- <-]).
  apply (fan_out inv _ (one_call (answered sparql))) in Hs as (Hw1 & ess & new & HF & Hl & Hp);
    [|intros shard; apply query_shard_does|done].
  split; [done|]. destruct (calls_made _ _ _ _ HF) as (answers & calls & Hsub & Hval & Hc & Hm).
  exists answers, calls, new. rewrite <- Ha. split_and!; [done| |done|by rewrite Hp|done|].
  - apply (validate_enough config _ _ (task_errors rs)); [|done].
    rewrite <- (length_fmap snd answers), Hval, (Forall3_length_lr _ _ _ _ HF). apply outcomes_count.
  - rewrite Hval. eexists. split; [done|]. destruct (enable_deduplication config); [|done].
    destruct (dedup_rows_spec ∅ (concat (task_values rs))) as [Hn Hd]. split; [done|].
    intros r. unfold deduplicate_results. rewrite Hd. set_solver.
Qed.

(** Whatever its outcome, a query keeps the invariant. *)
Lemma scatter_gather_keeps config sched sparql w w' r :
  execute_scatter_gather pool topo config sched sparql w = (w', r) → inv w → inv w'.
Proof using All.
  intros Hr Hw. unfold execute_scatter_gather in Hr.
  destruct (active_shards topo) as [|s0 ss]; [by injection Hr as <- _|].
  unfold mbind, method_MBind, method_bind, lift in Hr.
  destruct (spawn_all _ _ w) as [w1 [rs| |]] eqn:Hs;
    [|unfold spawn_all in Hs; destruct (join_all _ _ _); done..].
  apply (fan_out inv _ (one_call (answered sparql))) in Hs as (Hw1 & _);
    [|intros shard; apply query_shard_does|done].
  by destruct (validate_results _ _ _ _); injection Hr as <- _.
Qed.

(** ** Updating *)

(** The call in which a shard ran an update. *)
Definition updated (upd : string) (shard : ShardMetadata) {A} (_ : A) (call : Event) : Prop :=
  ∃ rid resp, success resp = true ∧
    call = EvUpdate (endpoint_url (leader_address shard))
             {| sparql_update := upd; upd_default_graph := ""; upd_request_id := rid;
                upd_timeout_ms := 30000 |} (Ok resp).

Lemma update_task_does upd shard :
  does requests inv [] (update_shard_task pool upd shard) (one_call (λ s, updated upd s) shard).
Proof using All.
  unfold update_shard_task.
  eapply does_silent_bind; [by apply get_shard_client_does| |no_call..]. intros ch Hch. simpl in Hch.
  eapply does_silent_bind; [apply request_id_does|intros rid _|no_call..].
  eapply rpc_bind with (P := λ _, True);
    [intros w; by eexists|done|intros resp _|intros; by apply one_call_fails].
  destruct (success resp) eqn:Hs; simpl negb; cbv iota; [|apply does_pure; by apply one_call_fails].
  eapply does_silent_bind; [by apply record_success_does| |no_call..]. intros [] _.
  simpl. rewrite Hch. eexists. split; [done|]. by exists rid, resp.
Qed.

Lemma clear_task_does graph_uri shard :
  does requests inv [] (clear_shard_task pool graph_uri shard)
    (one_call (λ s a c, ∃ upd, SparqlUpdate.clear_graph graph_uri = Ok upd ∧ updated upd s a c) shard).
Proof using All.
  unfold clear_shard_task.
  eapply does_silent_bind; [by apply get_shard_client_does| |no_call..]. intros ch Hch. simpl in Hch.
  eapply does_silent_bind with (P := λ upd, SparqlUpdate.clear_graph graph_uri = Ok upd);
    [|intros upd Hu|no_call..].
  { apply does_silent_pure. intros upd. destruct (SparqlUpdate.clear_graph graph_uri); simpl;
      by intros [= <-]. }
  eapply does_silent_bind; [apply request_id_does|intros rid _|no_call..].
  eapply rpc_bind with (P := λ _, True);
    [intros w; by eexists|done|intros resp _|intros; by apply one_call_fails].
  destruct (success resp) eqn:Hs; simpl negb; cbv iota; [|apply does_pure; by apply one_call_fails].
  simpl. rewrite Hch. eexists. split; [done|]. exists upd. split; [done|]. by exists rid, resp.
Qed.

(** An update of every active shard, for each outcome. *)
Lemma execute_update_runs sched upd w w' r :
  str_contains (to_uppercase (trim upd)) "INSERT DATA" = false →
  execute_update overflow_checks pool topo sched upd w = (w', r) → inv w →
  inv w' ∧ ∃ new, requests w' = requests w ++ new ∧
    (r = Ok tt → ∃ calls, new ≡ₚ calls ∧
       Forall2 (λ shard c, updated upd shard tt c) (active_shards topo) calls).
Proof using All.
  intros Hi Hr Hw. unfold execute_update in Hr. rewrite Hi in Hr.
  unfold mbind, method_MBind, method_bind, lift in Hr.
  destruct (spawn_all _ _ w) as [w1 [rs| |]] eqn:Hs;
    [|unfold spawn_all in Hs; destruct (join_all _ _ _); done..].
  apply (fan_out inv _ (one_call (λ s, updated upd s))) in Hs as (Hw1 & ess & new & HF & Hl & Hp);
    [|intros shard; apply update_task_does|done].
  assert (w' = w1) as ->.
  { destruct (result_foldM _ _ _) as [?| |]; [|by injection Hr as <- _..].
    unfold guard_ok in Hr. case_bool_decide; by injection Hr as <- _. }
  split; [done|]. exists new. split; [done|]. intros ->.
  destruct (result_foldM _ _ _) as [?| |]; [|done..]. unfold guard_ok in Hr.
  case_bool_decide as He; [|done]. apply errors_none in He.
  destruct (all_calls _ _ _ _ HF He) as (calls & Hc & HF').
  exists calls. split; [by rewrite Hp, Hc|]. eapply Forall2_impl; [exact HF'|].
  by intros shard c [x Hx].
Qed.

Lemma clear_graph_runs sched graph_uri w w' r :
  clear_graph_all pool topo sched graph_uri w = (w', r) → inv w → inv w'.
Proof using All.
  intros Hr Hw. unfold clear_graph_all, mbind, method_MBind, method_bind, lift in Hr.
  destruct (spawn_all _ _ w) as [w1 [rs| |]] eqn:Hs;
    [|unfold spawn_all in Hs; destruct (join_all _ _ _); done..].
  eapply (fan_out inv) in Hs as (Hw1 & _); [|intros shard; apply clear_task_does|done].
  by injection Hr as <- _.
Qed.
End QueryFacts.

(** ** Theorems about the store *)

Section StoreTheorems.
Context (overflow_checks : bool) `{HashOrderOk} `{StoreCratesOk} `{ShardNetOk}.
Context (pool : PoolConfig) (topo : ClusterTopology) (Hmax : 0 < max_failures pool).

(** Every query goes to all shards: the path to a single one is never taken. *)
Lemma scatter_always sparql : requires_scatter_gather sparql = true.
Proof. unfold requires_scatter_gather. by repeat case_match. Qed.

Lemma execute_query_scatters config sched sparql :
  execute_query pool topo config sched sparql = execute_scatter_gather pool topo config sched sparql.
Proof. unfold execute_query. by rewrite scatter_always. Qed.

(** C18: a query that returns was answered by enough active shards for its mode of
    failure (all of them, more than half, the quorum), each by one request; its
    rows are those the answers streamed, each value once when duplicates are
    removed, up to the limit. *)
Theorem query_merges_answers config sched sparql w w' rows :
  execute_query pool topo config sched sparql w = (w', Ok rows) → world_ok pool w →
  world_ok pool w' ∧ ∃ (answers : list (ShardMetadata * list Row)) calls new,
    answers.*1 `sublist_of` active_shards topo ∧
    enough (failure_mode config) (length (active_shards topo)) (length answers) ∧
    requests w' = requests w ++ new ∧ calls ⊆+ new ∧
    Forall2 (λ a c, answered sparql a.1 a.2 c) answers calls ∧
    merged config rows (concat answers.*2).
Proof using All.
  intros Hr Hw. rewrite <- any_inv_ok in Hw |- *. rewrite execute_query_scatters in Hr.
  eapply scatter_gather_runs; first [apply fresh_any|exact Hr|done].
Qed.

(** An update that returns was run successfully by every active shard, in one
    request each; with no active shard it returns without sending anything. *)
Theorem update_runs_everywhere sched upd w w' :
  str_contains (to_uppercase (trim upd)) "INSERT DATA" = false →
  execute_update overflow_checks pool topo sched upd w = (w', Ok tt) → world_ok pool w →
  ∃ calls new, requests w' = requests w ++ new ∧ new ≡ₚ calls ∧
    Forall2 (λ shard c, updated upd shard tt c) (active_shards topo) calls.
Proof using All.
  intros Hi Hr Hw. apply any_inv_ok in Hw.
  eapply execute_update_runs in Hr as (_ & new & Hn & Hc); try first [apply fresh_any|done].
  destruct (Hc eq_refl) as (calls & Hp & HF). by exists calls, new.
Qed.

(** An operation after which no circuit is open that was not open before. *)
Definition opens_none {A} (m : method World CoordError A) : Prop :=
  ∀ w w' r, m w = (w', r) → world_ok pool w →
    ∀ url e, connections w' !! url = Some e → health e = Open →
      ∃ e0, connections w !! url = Some e0 ∧ health e0 = Open.

(** No circuit is open but those of [c0]. *)
Definition calm (c0 c : gmap string ConnectionEntry) : Prop :=
  ∀ url e, c !! url = Some e → health e = Open → ∃ e0, c0 !! url = Some e0 ∧ health e0 = Open.

Lemma fresh_calm c0 : fresh_ok (calm c0).
Proof.
  intros c url e Hc _ He u e' Hu Ho. destruct (decide (u = url)) as [->|Hne].
  - rewrite lookup_insert_eq in Hu. simplify_eq. congruence.
  - rewrite lookup_insert_ne in Hu by done. by eapply Hc.
Qed.

Lemma calm_opens_none {A} (m : method World CoordError A) :
  (∀ c0 w w' r, m w = (w', r) → world_inv pool (calm c0) w → world_inv pool (calm c0) w') →
  opens_none m.
Proof.
  intros Hm w w' r Hr Hw url e He Ho.
  destruct (Hm (connections w) w w' r Hr) as [_ Hc]; [split; [done|]|by eapply Hc].
  intros u e0 Hu Hx. by exists e0.
Qed.

(** Queries, updates other than INSERT DATA and the clearing of a graph never
    open a circuit, however their requests fail: only an answered insert that
    reports failed triples counts as a failure. *)
Theorem failures_open_no_circuit :
  (∀ config sched sparql, opens_none (execute_query pool topo config sched sparql)) ∧
  (∀ sched upd, str_contains (to_uppercase (trim upd)) "INSERT DATA" = false →
     opens_none (execute_update overflow_checks pool topo sched upd)) ∧
  (∀ sched graph_uri, opens_none (clear_graph_all pool topo sched graph_uri)).
Proof using All.
  split_and!.
  - intros config sched sparql. apply calm_opens_none. intros c0 w w' r.
    rewrite execute_query_scatters. apply scatter_gather_keeps; first [apply fresh_calm|done].
  - intros sched upd Hi. apply calm_opens_none. intros c0 w w' r Hr Hw.
    eapply execute_update_runs in Hr as [? _]; try first [apply fresh_calm|done].
  - intros sched graph_uri. apply calm_opens_none. intros c0 w w' r.
    eapply clear_graph_runs; first [apply fresh_calm|done|apply _].
Qed.

(** *** INSERT DATA *)

(** The call in which a shard took the triples of an INSERT DATA. *)
Definition took (protos : list Triple) (shard : ShardMetadata) {A} (_ : A) (call : Event) : Prop :=
  ∃ rid resp, (failed_count resp ≤ 0 ∨ ib_error resp = "") ∧
    call = EvInsert (endpoint_url (leader_address shard))
             {| ib_triples := protos; transactional := false; ib_default_graph := "";
                ib_request_id := rid |} (Ok resp).

Lemma insert_data_task_does protos shard :
  does requests (world_inv pool (λ _, True)) [] (insert_data_task overflow_checks pool protos shard)
    (one_call (λ s, took protos s) shard).
Proof using All.
  unfold insert_data_task.
  eapply does_silent_bind; [by apply get_shard_client_does, fresh_any| |no_call..].
  intros ch Hch. simpl in Hch.
  eapply does_silent_bind; [apply request_id_does|intros rid _|no_call..].
  eapply rpc_bind with (P := λ _, True);
    [intros w; by eexists|done|intros resp _|intros; by apply one_call_fails].
  destruct ((0 <? failed_count resp) && negb (String.eqb (ib_error resp) "")) eqn:Hf.
  - eapply does_silent_bind; [apply record_failure_does; first [apply fresh_any|done]| |no_call..].
    intros [] _. by apply one_call_fails.
  - eapply does_silent_bind; [by apply record_success_does, fresh_any| |no_call..]. intros [] _.
    simpl. rewrite Hch. eexists. split; [done|]. exists rid, resp. split; [|done].
    apply andb_false_iff in Hf as [Hf|Hf]; [left; lia|right].
    by apply negb_false_iff, String.eqb_eq in Hf.
Qed.

Lemma built_triples (raw : list raw_triple) protos :
  result_mapM (λ '(s, p, o), rdf_error (build_validated_triple s p o None)) raw = Ok protos →
  result_mapM (λ '(s, p, o), build_validated_triple s p o None) raw = Ok protos.
Proof.
  revert protos. induction raw as [|[[s p] o] raw IH]; intros protos Hm; [by simplify_eq/=|].
  simpl in Hm. apply result_bind_Ok in Hm as (t & Ht & Hm).
  apply result_bind_Ok in Hm as (ts & Hts & [= <-]). simpl.
  destruct (build_validated_triple s p o None); simplify_eq/=. by rewrite (IH ts Hts).
Qed.

(** An INSERT DATA that returns was sent whole to every active shard, not only
    to the shards that own its subjects. *)
Theorem insert_data_broadcast sched q w w' :
  execute_insert_data overflow_checks pool topo sched q w = (w', Ok tt) → world_ok pool w →
  ∃ raw protos calls new,
    parse_insert_data q = Ok raw ∧
    result_mapM (λ '(s, p, o), build_validated_triple s p o None) raw = Ok protos ∧
    requests w' = requests w ++ new ∧ new ≡ₚ calls ∧ active_shards topo ≠ [] ∧
    Forall2 (λ shard c, took protos shard tt c) (active_shards topo) calls.
Proof using All.
  intros Hr Hw. apply any_inv_ok in Hw. unfold execute_insert_data in Hr.
  apply method_bind_Ok in Hr as (w1 & raw & [= <- Hraw] & Hr).
  apply method_bind_Ok in Hr as (w2 & protos & [= <- Hprotos] & Hr).
  destruct (active_shards topo) as [|s0 ss] eqn:Ha; [done|]. rewrite <- Ha in Hr.
  apply method_bind_Ok in Hr as (w3 & rs & Hs & Hr).
  apply method_bind_Ok in Hr as (w4 & z & [= <- _] & Hr).
  unfold guard_ok in Hr. case_bool_decide as He; [|done]. injection Hr as <-.
  apply errors_none in He.
  eapply fan_out in Hs as (_ & ess & new & HF & Hl & Hp); [|apply insert_data_task_does|done].
  destruct (all_calls _ _ _ _ HF He) as (calls & Hc & HF').
  exists raw, protos, calls, new. rewrite <- Ha. split_and!.
  - by destruct (parse_insert_data q); simplify_eq/=.
  - by apply built_triples.
  - done.
  - by rewrite Hp, Hc.
  - by rewrite Ha.
  - eapply Forall2_impl; [exact HF'|]. by intros shard c [x Hx].
Qed.

(** *** Registered clusters *)

Lemma owner_hash t :
  owned topo → is_Some (owner topo t) ↔ subject_hash t.1.1 < U64_MAX.
Proof.
  intros Ho. unfold owner. pose proof (subject_hash_range t.1.1) as Hr.
  destruct (Ho (subject_hash t.1.1) Hr) as [Hex Huniq]. split.
  - intros [id Hid]. destruct (find_shard_for_hash _ _) as [s|] eqn:Hf; [|done].
    apply find_shard_Some in Hf as [[k Hk] Hc]. by eapply (Huniq k s k s).
  - intros Hlt. destruct (Hex Hlt) as [s ->]. by eexists.
Qed.

(** Once the ranges of the shards cut the hash space, a batch is routed
    exactly when no subject hashes to [u64::MAX], and each triple goes to the
    shard whose range holds the hash of its subject. *)
Theorem owned_batch_routed triples :
  owned topo → wf_topology topo →
  ((∃ groups, route_batch topo triples = Ok groups) ↔
   Forall (λ t : raw_triple, subject_hash t.1.1 < U64_MAX) triples) ∧
  ∀ groups id l t, route_batch topo triples = Ok groups → groups !! id = Some l → t ∈ l →
    ∃ s, topo_shards topo !! id = Some s ∧
      range_contains (hash_range s) (subject_hash t.1.1) = true.
Proof.
  intros Ho Hwf. split; [split|].
  - intros [groups Hg]. apply route_batch_groups in Hg as [_ Hf].
    eapply Forall_impl; [exact Hf|]. intros t. by rewrite owner_hash.
  - intros Hf. apply route_batch_total. eapply Forall_impl; [exact Hf|]. intros t. by rewrite owner_hash.
  - intros groups id l t Hg Hl Ht. apply route_batch_groups in Hg as [Hg _].
    rewrite (Hg id) in Hl. assert (t ∈ share topo triples id) as Hin.
    { destruct (share topo triples id); by simplify_eq. }
    apply list_elem_of_filter in Hin as [Hown _]. unfold owner in Hown.
    destruct (find_shard_for_hash _ _) as [s|] eqn:Hf; simplify_eq/=.
    apply find_shard_Some in Hf as [[k Hk] Hc]. exists s.
    by rewrite (wt_ids _ Hwf k s Hk) in *.
Qed.

(** *** Counting *)

(** Every binding of the variable [count] the network answers with is a literal. *)
Definition literal_counts : Prop :=
  ∀ h ch req stream b v,
    net_query h ch req = Ok stream → Ok (RespBinding b) ∈ stream → b !! "count" = Some v →
    ∃ x d l, v = BindLiteral x d l.

(** Where a row of an answer comes from. *)
Lemma collected_row id stream rows ended row :
  collect_stream id stream = Ok (rows, ended) → row ∈ rows →
  (∃ b, Ok (RespBinding b) ∈ stream ∧ row = proto_binding_to_json b) ∨
  (∃ t, row = proto_triple_to_json t).
Proof.
  revert rows ended. induction stream as [|[[ts|b|m|n k|]| |] stream IH];
    intros rows ended Hc Hin; simpl in Hc; simplify_eq/=; try by apply not_elem_of_nil in Hin.
  - apply result_bind_Ok in Hc as ([rs e] & Hc & [= <- <-]). apply elem_of_app in Hin as [Hin|Hin].
    + apply list_elem_of_fmap in Hin as (t & -> & _). right. by exists t.
    + destruct (IH _ _ Hc Hin) as [(b & Hb & ->)|Ht]; [|by right]. left. exists b.
      split; [by right|done].
  - apply result_bind_Ok in Hc as ([rs e] & Hc & [= <- <-]). apply elem_of_cons in Hin as [->|Hin].
    + left. exists b. split; [left|done].
    + destruct (IH _ _ Hc Hin) as [(b' & Hb & ->)|Ht]; [|by right]. left. exists b'.
      split; [by right|done].
  - destruct (IH _ _ Hc Hin) as [(b' & Hb & ->)|Ht]; [|by right]. left. exists b'.
    split; [by right|done].
Qed.

Lemma answered_counts sparql shard rows call row :
  literal_counts → answered sparql shard rows call → row ∈ rows → row_count row = 0.
Proof.
  intros Hlit (rid & now & stream & ended & Hc & (h & ch & Hq) & _) Hin. unfold row_count.
  destruct (collected_row _ _ _ _ _ Hc Hin) as [(b & Hb & ->)|[t ->]]; [|done].
  unfold proto_binding_to_json. rewrite lookup_fmap.
  destruct (b !! "count") as [v|] eqn:Hv; [|done].
  by destruct (Hlit _ _ _ _ _ _ Hq Hb Hv) as (x & d & l & ->).
Qed.

Lemma merged_rows config rows all row : merged config rows all → row ∈ rows → row ∈ all.
Proof.
  intros (kept & -> & Hk) Hin. assert (row ∈ kept) as Hr.
  { unfold apply_limit in Hin. destruct (result_limit config) as [n|]; [|done].
    destruct (n <? length kept)%nat; [|done].
    rewrite <- (take_drop n kept). apply elem_of_app. by left. }
  destruct (enable_deduplication config); [by apply Hk|by subst].
Qed.

Lemma sum_zero rows :
  Forall (λ r, row_count r = 0) rows →
  result_foldM (λ a r, checked (E := CoordError) overflow_checks 64 (a + row_count r)) 0 rows = Ok 0.
Proof. induction 1 as [|r rows Hr _ IH]; simpl; [done|]. by rewrite Hr. Qed.

(** A count is zero whatever the shards hold, since SPARQL answers a count
    with a literal and the store adds up only bindings that are plain strings. *)
Theorem count_is_zero sched graph w w' n :
  literal_counts → world_ok pool w →
  count_triples overflow_checks pool topo sched graph w = (w', Ok n) → n = 0.
Proof using All.
  intros Hlit Hw Hr. unfold count_triples, execute_count in Hr.
  destruct (str_contains _ _); [|done]. apply any_inv_ok in Hw.
  apply method_bind_Ok in Hr as (w1 & rows & Hs & Hr). injection Hr as _ Hr.
  eapply scatter_gather_runs in Hs as (_ & answers & calls & new & _ & _ & _ & _ & HF & Hm);
    try first [apply fresh_any|done].
  rewrite sum_zero in Hr; [by injection Hr|]. apply Forall_forall. intros row Hin.
  apply (merged_rows _ _ _ _ Hm), list_elem_of_In, in_concat in Hin as (l & Hl & Hin).
  apply list_elem_of_In in Hl, Hin.
  apply list_elem_of_fmap in Hl as ([shard srows] & -> & Ha).
  apply list_elem_of_lookup in Ha as [i Hi].
  destruct (Forall2_lookup_l _ _ _ _ _ HF Hi) as (c & _ & Hc). by eapply answered_counts.
Qed.
End StoreTheorems.
