(* ===== verification/ShardStoreSample.v ===== *)
(** * A small sharded store

    Two active shards and a network on which every connection succeeds and every
    request is answered: the theorems of [ShardCoordinatorFacts] at concrete
    batches, queries and updates. *)

From Stdlib Require Import ZArith Lia Ascii.
From stdpp Require Import base numbers option strings gmap list countable.
From S2P Require Import Prelude RustStd RustText Bytes Effects Tasks HashRing CoordState RdfTerm.
From S2P Require Import SparqlUpdate ShardRegistry ShardRegistryFacts ShardSample ShardPool.
From S2P Require Import ShardCoordinator ShardCoordinatorFacts.

Local Open Scope Z_scope.

(** ** Crates *)

Definition cell_code (c : Cell) : option (string + string * string * string) :=
  match c with
  | CellNull => None
  | CellString s => Some (inl s)
  | CellLiteral v d l => Some (inr (v, d, l))
  end.

Definition cell_decode (x : option (string + string * string * string)) : Cell :=
  match x with
  | None => CellNull
  | Some (inl s) => CellString s
  | Some (inr (v, d, l)) => CellLiteral v d l
  end.

#[export] Instance Cell_countable : Countable Cell.
Proof. apply (inj_countable' cell_code cell_decode). by intros [| |]. Defined.

Definition row_text (r : Row) : string := String.string_of_list_byte (pos_bytes (encode r)).

#[export] Instance sample_crates : StoreCrates := {|
  hash_groups := map_to_list;
  row_string := row_text;
  turtle_parse _ := Ok [(SubjNamedNode "http://a", "http://p", TermNamedNode "http://b")];
|}.

#[export] Instance sample_crates_ok : StoreCratesOk.
Proof.
  split; [done|]. intros r r' Heq. simpl in Heq. unfold row_text in Heq.
  apply (f_equal String.list_byte_of_string) in Heq.
  rewrite !String.list_byte_of_string_of_list_byte in Heq.
  apply (f_equal bytes_pos) in Heq. rewrite !bytes_pos_bytes in Heq. by apply (inj encode).
Qed.

(** ** The network *)

(** Each answer is one solution, a count. *)
Definition sample_stream : QueryStream :=
  [Ok (RespBinding {["count" := BindLiteral "5" "http://www.w3.org/2001/XMLSchema#integer" ""]});
   Ok (RespEnd 1 0)].

#[export] Instance sample_net : ShardNet := {|
  Channel := string;
  channel_url ch := ch;
  valid_endpoint _ := true;
  net_connect _ url := Ok url;
  net_insert _ _ req := Ok {| inserted_count := Z.of_nat (length (ib_triples req));
                              failed_count := 0; failed_indices := []; ib_duration_ms := 1;
                              ib_error := "" |};
  net_update _ _ _ := Ok {| upd_inserted_count := 0; upd_deleted_count := 1;
                            upd_modified_count := 0; upd_duration_ms := 1; upd_error := "";
                            success := true |};
  net_query _ _ _ := Ok sample_stream;
  net_clock h := Z.of_nat (length h);
  unix_time h := 1700000000 + Z.of_nat (length h);
  new_uuid h := str_repeat "u" (length h);
|}.

#[export] Instance sample_net_ok : ShardNetOk.
Proof.
  split; [by intros h url ch [= <-]|]. intros h e. simpl. rewrite length_app. simpl. lia.
Qed.

(** ** A cluster of two active shards *)

Definition sample_shard (id : ShardId) (r : HashRange) (address : string) : ShardMetadata :=
  with_status (new_metadata id r address [] 0) Active.

Definition sample_topology : ClusterTopology :=
  {| total_shards := 2; replication_factor := 1; cluster_version := 2;
     topo_shards := {[0 := sample_shard 0 (new_range 0 (2 ^ 63)) "shard-0:9090";
                      1 := sample_shard 1 (new_range (2 ^ 63) U64_MAX) "shard-1:9090"]};
     total_triples := 0; total_size_bytes := 0; topo_updated_at := 0 |}.

Definition empty_world : World := {| connections := ∅; history := [] |}.

Lemma empty_world_ok : world_ok new_pool empty_world.
Proof. apply map_Forall_empty. Qed.

Definition sample_batch : list raw_triple :=
  [("<http://ex.org/a>", "<http://ex.org/p>", "<http://ex.org/o>");
   ("<http://ex.org/b>", "<http://ex.org/p>", "<http://ex.org/o>");
   ("<http://ex.org/c>", "<http://ex.org/p>", "<http://ex.org/o>")].

(** A schedule in which the tasks of the two shards alternate. *)
Definition alternating : list nat := [0; 1; 1; 0; 0; 1; 0; 1; 1; 0]%nat.

Definition inserted : World * result CoordError unit :=
  insert_batch true new_pool sample_topology alternating sample_batch None empty_world.

(** Both shards own triples of the batch. *)
Example batch_in_two_calls : length (requests inserted.1) = 2%nat.
Proof. vm_compute. reflexivity. Qed.

Lemma accepted_batch_delivered_witness :
  inserted.2 = Ok tt ∧ ∃ new calls, requests inserted.1 = [] ++ new ∧ new ≡ₚ calls ∧
    batch_calls sample_topology None sample_batch calls.
Proof.
  assert (inserted.2 = Ok tt) as Hr by (vm_compute; reflexivity). split; [exact Hr|].
  destruct (accepted_batch_delivered true new_pool sample_topology eq_refl alternating sample_batch
    None empty_world inserted.1) as [_ Hc]; [|exact empty_world_ok|exact Hc].
  rewrite <- Hr. apply surjective_pairing.
Defined.

(** ** Queries *)

Definition strict : QueryConfig := query_config FailFast.

Definition ask : string := "SELECT (COUNT(*) as ?count) WHERE { ?s ?p ?o }".

Definition asked : World * result CoordError (list Row) :=
  execute_query new_pool sample_topology strict alternating ask empty_world.

(** The two answers hold the same row, which is returned once. *)
Example same_rows_merged :
  asked.2 = Ok [{["count" := CellLiteral "5" "http://www.w3.org/2001/XMLSchema#integer" ""]}] ∧
  length (requests asked.1) = 2%nat.
Proof. split; vm_compute; reflexivity. Qed.

Lemma query_merges_answers_witness :
  ∃ rows, asked.2 = Ok rows ∧ ∃ (answers : list (ShardMetadata * list Row)) calls new,
    answers.*1 `sublist_of` active_shards sample_topology ∧
    length answers = length (active_shards sample_topology) ∧
    requests asked.1 = [] ++ new ∧ calls ⊆+ new ∧
    Forall2 (λ a c, answered ask a.1 a.2 c) answers calls ∧
    merged strict rows (concat answers.*2).
Proof.
  assert (∃ rows, asked.2 = Ok rows) as [rows Hr] by (eexists; vm_compute; reflexivity).
  exists rows. split; [exact Hr|].
  destruct (query_merges_answers true new_pool sample_topology eq_refl strict alternating ask
    empty_world asked.1 rows) as [_ Hq]; [|exact empty_world_ok|exact Hq].
  rewrite <- Hr. apply surjective_pairing.
Defined.

Lemma sample_literal_counts : literal_counts.
Proof.
  intros h ch req stream b v [= <-] Hin Hv. unfold sample_stream in Hin.
  rewrite !elem_of_cons, elem_of_nil in Hin. destruct Hin as [[= ->]|[?|[]]]; [|done].
  rewrite lookup_singleton_eq in Hv. simplify_eq. eauto.
Qed.

Definition counted : World * result CoordError Z :=
  count_triples true new_pool sample_topology alternating None empty_world.

(** Each of the two shards counts five triples. *)
Lemma count_is_zero_witness : counted.2 = Ok 0 ∧ ∀ n, counted.2 = Ok n → n = 0.
Proof.
  split; [vm_compute; reflexivity|]. intros n Hn.
  apply (count_is_zero true new_pool sample_topology eq_refl alternating None empty_world
    counted.1 n sample_literal_counts empty_world_ok).
  rewrite <- Hn. apply surjective_pairing.
Defined.

(** ** Updates *)

Definition remove_all : string := "DELETE WHERE { ?s ?p ?o }".

Definition removed : World * result CoordError unit :=
  execute_update true new_pool sample_topology alternating remove_all empty_world.

Lemma update_runs_everywhere_witness :
  length (active_shards sample_topology) = 2%nat ∧
  ∃ calls new, requests removed.1 = [] ++ new ∧ new ≡ₚ calls ∧
    Forall2 (λ shard c, updated remove_all shard tt c) (active_shards sample_topology) calls.
Proof.
  split; [vm_compute; reflexivity|].
  assert (removed.2 = Ok tt) as Hr by (vm_compute; reflexivity).
  apply (update_runs_everywhere true new_pool sample_topology eq_refl alternating remove_all
    empty_world removed.1); [vm_compute; reflexivity| |exact empty_world_ok].
  rewrite <- Hr. apply surjective_pairing.
Defined.

Definition no_shard_active : ClusterTopology :=
  {| total_shards := 0; replication_factor := 1; cluster_version := 0; topo_shards := ∅;
     total_triples := 0; total_size_bytes := 0; topo_updated_at := 0 |}.

(** Without active shards an update is reported done and nothing was sent. *)
Example update_without_shards :
  let r := execute_update true new_pool no_shard_active [] remove_all empty_world in
  r.2 = Ok tt ∧ history r.1 = [].
Proof. split; vm_compute; reflexivity. Qed.

Lemma failures_open_no_circuit_witness :
  opens_none new_pool (execute_query new_pool sample_topology strict alternating ask).
Proof. apply (failures_open_no_circuit true new_pool sample_topology eq_refl). Defined.

Definition insert_text : string :=
  "INSERT DATA { <http://ex.org/a> <http://ex.org/p> <http://ex.org/o> . }".

Definition broadcast : World * result CoordError unit :=
  execute_insert_data true new_pool sample_topology alternating insert_text empty_world.

Lemma insert_data_broadcast_witness :
  length (active_shards sample_topology) = 2%nat ∧
  ∃ raw protos calls new,
    parse_insert_data insert_text = Ok raw ∧
    result_mapM (λ '(s, p, o), build_validated_triple s p o None) raw = Ok protos ∧
    requests broadcast.1 = [] ++ new ∧ new ≡ₚ calls ∧ active_shards sample_topology ≠ [] ∧
    Forall2 (λ shard c, took protos shard tt c) (active_shards sample_topology) calls.
Proof.
  split; [vm_compute; reflexivity|].
  assert (broadcast.2 = Ok tt) as Hr by (vm_compute; reflexivity).
  apply (insert_data_broadcast true new_pool sample_topology eq_refl alternating insert_text
    empty_world broadcast.1); [|exact empty_world_ok].
  rewrite <- Hr. apply surjective_pairing.
Defined.

(** ** Turtle *)

(** The IRIs rio_turtle hands over have no brackets, which the triple builder
    takes for literals: a file with any triple is rejected. *)
Example turtle_rejected :
  ∃ errors, (load_turtle true new_pool sample_topology [] "" None empty_world).2 =
    Err (ShardsFailed errors).
Proof. eexists. vm_compute. reflexivity. Qed.

(** ** Registered shards *)

Lemma owned_batch_routed_witness :
  ∃ groups, route_batch (topology (registry three_shards)) sample_batch = Ok groups.
Proof.
  apply (owned_batch_routed (topology (registry three_shards))).
  - exact three_shards_owned.
  - exact three_shards_wf.
  - repeat constructor.
Defined.
