(* ===== verification/WfRouting.v ===== *)
(** * Workflow routes of the coordinator

    Models [workflows/domain/condition.rs], [route.rs] and [workflow.rs] and
    [workflows/engine/evaluator.rs] and [router.rs] of the coordinator: conditions
    on JSON data and the choice of a route by priority.  A JSON object has its
    keys in order, as serde_json keeps it.  Regular expressions are a parameter.
    Actions are executed elsewhere: their type is a parameter. *)

From Stdlib Require Import ZArith Lia Ascii.
From stdpp Require Import base numbers option strings gmap list.
From S2P Require Import Prelude RustStd F64 RustText.

Local Open Scope Z_scope.

(** ** JSON *)

(** [serde_json::Value]; a number is unsigned, negative or a float. *)
Inductive Json : Type :=
  | JNull
  | JBool (b : bool)
  | JPosInt (n : Z)
  | JNegInt (n : Z)
  | JFloat (f : f64)
  | JString (s : string)
  | JArray (l : list Json)
  | JObject (fields : list (string * Json)).

(** [==] on values. *)
Fixpoint json_eqb (a b : Json) : bool :=
  let fix list_eqb (l k : list Json) : bool :=
    match l, k with
    | [], [] => true
    | x :: l', y :: k' => json_eqb x y && list_eqb l' k'
    | _, _ => false
    end in
  let fix fields_eqb (l k : list (string * Json)) : bool :=
    match l, k with
    | [], [] => true
    | (n, x) :: l', (m, y) :: k' => String.eqb n m && json_eqb x y && fields_eqb l' k'
    | _, _ => false
    end in
  match a, b with
  | JNull, JNull => true
  | JBool x, JBool y => Bool.eqb x y
  | JPosInt x, JPosInt y => x =? y
  | JNegInt x, JNegInt y => x =? y
  | JFloat x, JFloat y => f64_eqb x y
  | JString x, JString y => String.eqb x y
  | JArray l, JArray k => list_eqb l k
  | JObject l, JObject k => fields_eqb l k
  | _, _ => false
  end.

(** [Value::get] with a string. *)
Definition json_get (v : Json) (key : string) : option Json :=
  match v with
  | JObject fields => snd <$> (snd <$> list_find (λ f : string * Json, f.1 = key) fields)
  | _ => None
  end.

Definition as_f64 (v : Json) : option f64 :=
  match v with
  | JPosInt n | JNegInt n => Some (f64_of_i64 n)
  | JFloat f => Some f
  | _ => None
  end.

Definition as_str (v : Json) : option string :=
  match v with JString s => Some s | _ => None end.

Definition is_null (v : Json) : bool :=
  match v with JNull => true | _ => false end.

(** ** Conditions *)

Inductive Condition : Type :=
  | Equals (field : string) (value : Json)
  | NotEquals (field : string) (value : Json)
  | GreaterThan (field : string) (value : Json)
  | LessThan (field : string) (value : Json)
  | GreaterThanOrEqual (field : string) (value : Json)
  | LessThanOrEqual (field : string) (value : Json)
  | Contains (field substring : string)
  | Matches (field pattern : string)
  | Exists (field : string)
  | IsNull (field : string)
  | In (field : string) (values : list Json)
  | And (conditions : list Condition)
  | Or (conditions : list Condition)
  | Not (condition : Condition)
  | Always
  | Never.

Inductive RouteError : Type :=
  | FieldNotFound (field : string)
  | NotNumeric
  | NotAString (field : string)
  | BadPattern (pattern : string)
  | EmptyField
  | EmptyConditions
  | EmptyRouteId
  | EmptyRouteName
  | NoActions
  | EmptyWorkflowId
  | EmptyWorkflowName
  | NoRoutes
  | UnknownDefault (id : string)
  | DuplicateRoute (id : string)
  | WorkflowDisabled (name : string).

(** The regex crate: [None] is an invalid pattern. *)
Class RegexCrate : Type := { regex_match : string → string → option bool }.

(** [extract_field]: a path of keys separated by dots. *)
Definition extract_field (data : Json) (field : string) : option Json :=
  foldl (λ cur part, v ← cur; json_get v part) (Some data) (split_char "." field).

Definition f64_leb (a b : f64) : bool := f64_ltb a b || f64_eqb a b.

Definition compare_numeric (cmp : f64 → f64 → bool) (a b : Json) : result RouteError bool :=
  match as_f64 a, as_f64 b with
  | Some x, Some y => Ok (cmp x y)
  | Some x, None => ok_or (s ← as_str b; y ← f64_from_str s; Some (cmp x y)) NotNumeric
  | None, Some y => ok_or (s ← as_str a; x ← f64_from_str s; Some (cmp x y)) NotNumeric
  | None, None => Err NotNumeric
  end.

Section Evaluator.
Context `{RegexCrate}.

Definition field_value (data : Json) (field : string) : result RouteError Json :=
  ok_or (extract_field data field) (FieldNotFound field).

(** [ConditionEvaluator::evaluate]. *)
Fixpoint evaluate (data : Json) (c : Condition) : result RouteError bool :=
  let fix all_of (cs : list Condition) : result RouteError bool :=
    match cs with
    | [] => Ok true
    | c' :: cs' => b ← evaluate data c'; if b : bool then all_of cs' else Ok false
    end in
  let fix any_of (cs : list Condition) : result RouteError bool :=
    match cs with
    | [] => Ok false
    | c' :: cs' => b ← evaluate data c'; if b : bool then Ok true else any_of cs'
    end in
  match c with
  | Equals f v => x ← field_value data f; Ok (json_eqb x v)
  | NotEquals f v => x ← field_value data f; Ok (negb (json_eqb x v))
  | GreaterThan f v => x ← field_value data f; compare_numeric (λ a b, f64_ltb b a) x v
  | LessThan f v => x ← field_value data f; compare_numeric f64_ltb x v
  | GreaterThanOrEqual f v => x ← field_value data f; compare_numeric (λ a b, f64_leb b a) x v
  | LessThanOrEqual f v => x ← field_value data f; compare_numeric f64_leb x v
  | Contains f sub =>
      x ← field_value data f;
      s ← ok_or (as_str x) (NotAString f);
      Ok (if str_find s sub then true else false)
  | Matches f pattern =>
      x ← field_value data f;
      s ← ok_or (as_str x) (NotAString f);
      ok_or (regex_match pattern s) (BadPattern pattern)
  | Exists f => Ok (if extract_field data f then true else false)
  | IsNull f => Ok (match extract_field data f with None => true | Some v => is_null v end)
  | In f vs => x ← field_value data f; Ok (existsb (λ v, json_eqb v x) vs)
  | And cs => all_of cs
  | Or cs => any_of cs
  | Not c' => b ← evaluate data c'; Ok (negb b)
  | Always => Ok true
  | Never => Ok false
  end.

(** [Condition::validate]. *)
Fixpoint validate_condition (c : Condition) : result RouteError unit :=
  let fix all_valid (cs : list Condition) : result RouteError unit :=
    match cs with
    | [] => Ok tt
    | c' :: cs' => _ ← validate_condition c'; all_valid cs'
    end in
  match c with
  | Equals f _ | NotEquals f _ | GreaterThan f _ | LessThan f _ | GreaterThanOrEqual f _
  | LessThanOrEqual f _ | Contains f _ | Exists f | IsNull f | In f _ =>
      if String.eqb f "" then Err EmptyField else Ok tt
  | Matches f pattern =>
      if String.eqb f "" then Err EmptyField
      else match regex_match pattern "" with Some _ => Ok tt | None => Err (BadPattern pattern) end
  | And cs | Or cs =>
      match cs with [] => Err EmptyConditions | _ => all_valid cs end
  | Not c' => validate_condition c'
  | Always | Never => Ok tt
  end.
End Evaluator.

(** ** Routes and workflows *)

(** The settings of a streaming mode as their JSON. *)
Inductive ExecutionMode : Type :=
  | Batch
  | Streaming (config : Json)
  | MicroBatch (config : Json).

Record WorkflowResourceLimits : Type := {
  max_memory_bytes : option Z;
  max_rows : option Z;
  enforce_limits : bool;
}.

Definition default_resource_limits : WorkflowResourceLimits :=
  {| max_memory_bytes := Some 10000000000; max_rows := Some 200000; enforce_limits := true |}.

Section Routing.
Context (Action : Type).

Record Route : Type := {
  route_id : string;
  route_name : string;
  route_description : string;
  condition : Condition;
  actions : list Action;
  priority : Z;
  route_enabled : bool;
}.

Record Workflow : Type := {
  wf_id : string;
  wf_name : string;
  wf_description : string;
  routes : list Route;
  default_route : option string;
  execution_mode : ExecutionMode;
  wf_version : Z;
  wf_created_at : Z;
  wf_updated_at : Z;
  wf_enabled : bool;
  wf_tags : list string;
  wf_resource_limits : WorkflowResourceLimits;
}.

(** [Route::with_priority]; [Route::new] has priority 0. *)
Definition route_with_priority (id name : string) (c : Condition) (acts : list Action) (p : Z)
    : Route :=
  {| route_id := id; route_name := name; route_description := ""; condition := c; actions := acts;
     priority := p; route_enabled := true |}.

Definition new_route (id name : string) (c : Condition) (acts : list Action) : Route :=
  route_with_priority id name c acts 0.

Definition set_enabled (b : bool) (r : Route) : Route :=
  {| route_id := route_id r; route_name := route_name r; route_description := route_description r;
     condition := condition r; actions := actions r; priority := priority r; route_enabled := b |}.

Definition new_workflow (id name : string) (rs : list Route) (now : Z) : Workflow :=
  {| wf_id := id; wf_name := name; wf_description := ""; routes := rs; default_route := None;
     execution_mode := Batch; wf_version := 1; wf_created_at := now; wf_updated_at := now;
     wf_enabled := true; wf_tags := []; wf_resource_limits := default_resource_limits |}.

Definition with_default_route (id : string) (w : Workflow) : Workflow :=
  {| wf_id := wf_id w; wf_name := wf_name w; wf_description := wf_description w;
     routes := routes w; default_route := Some id; execution_mode := execution_mode w;
     wf_version := wf_version w; wf_created_at := wf_created_at w;
     wf_updated_at := wf_updated_at w; wf_enabled := wf_enabled w; wf_tags := wf_tags w;
     wf_resource_limits := wf_resource_limits w |}.

Definition enabled_routes (w : Workflow) : list Route := List.filter route_enabled (routes w).

(** [sort_by] with the higher priority first; equal ones keep their order. *)
Fixpoint insert_route (r : Route) (l : list Route) : list Route :=
  match l with
  | [] => [r]
  | x :: l' => if priority x <? priority r then r :: l else x :: insert_route r l'
  end.

Definition routes_by_priority (w : Workflow) : list Route :=
  foldl (λ sorted r, insert_route r sorted) [] (routes w).

Definition find_route (w : Workflow) (id : string) : option Route :=
  snd <$> list_find (λ r, route_id r = id) (routes w).

Context `{RegexCrate}.

Definition validate_route (r : Route) : result RouteError unit :=
  if String.eqb (route_id r) "" then Err EmptyRouteId
  else if String.eqb (route_name r) "" then Err EmptyRouteName
  else
    _ ← validate_condition (condition r);
    match actions r with [] => Err NoActions | _ => Ok tt end.

(** The first identifier that occurs twice. *)
Fixpoint check_duplicates (seen : list string) (rs : list Route) : result RouteError unit :=
  match rs with
  | [] => Ok tt
  | r :: rs' =>
      if bool_decide (route_id r ∈ seen) then Err (DuplicateRoute (route_id r))
      else check_duplicates (route_id r :: seen) rs'
  end.

Definition validate_workflow (w : Workflow) : result RouteError unit :=
  if String.eqb (wf_id w) "" then Err EmptyWorkflowId
  else if String.eqb (wf_name w) "" then Err EmptyWorkflowName
  else match routes w with
       | [] => Err NoRoutes
       | rs =>
           _ ← result_mapM validate_route rs;
           _ ← match default_route w with
               | Some d => if existsb (λ r, String.eqb (route_id r) d) rs then Ok tt
                           else Err (UnknownDefault d)
               | None => Ok tt
               end;
           check_duplicates [] rs
       end.

(** The loop of [select_route]: a condition that cannot be evaluated is skipped. *)
Fixpoint first_match (data : Json) (rs : list Route) : option Route :=
  match rs with
  | [] => None
  | r :: rs' =>
      match evaluate data (condition r) with
      | Ok true => Some r
      | _ => first_match data rs'
      end
  end.

Definition select_route (w : Workflow) (data : Json) : result RouteError (option Route) :=
  if negb (wf_enabled w) then Err (WorkflowDisabled (wf_name w))
  else
    match first_match data (List.filter route_enabled (routes_by_priority w)) with
    | Some r => Ok (Some r)
    | None => Ok (d ← default_route w; find_route w d)
    end.

(** [evaluate_all_routes]. *)
Definition evaluate_all_routes (w : Workflow) (data : Json) : list (Route * bool) :=
  map (λ r, (r, match evaluate data (condition r) with Ok b => b | _ => false end))
    (List.filter route_enabled (routes w)).

Record RouteStats : Type := {
  total_samples : nat;
  route_matches : gmap string nat;
  no_match_count : nat;
  default_route_count : nat;
  error_count : nat;
}.

Definition count_sample (w : Workflow) (st : RouteStats) (data : Json) : RouteStats :=
  match select_route w data with
  | Ok (Some r) =>
      {| total_samples := total_samples st;
         route_matches := <[route_id r := S (default 0%nat (route_matches st !! route_id r))]>
                            (route_matches st);
         no_match_count := no_match_count st;
         default_route_count :=
           if bool_decide (default_route w = Some (route_id r)) then S (default_route_count st)
           else default_route_count st;
         error_count := error_count st |}
  | Ok None =>
      {| total_samples := total_samples st; route_matches := route_matches st;
         no_match_count := S (no_match_count st); default_route_count := default_route_count st;
         error_count := error_count st |}
  | _ =>
      {| total_samples := total_samples st; route_matches := route_matches st;
         no_match_count := no_match_count st; default_route_count := default_route_count st;
         error_count := S (error_count st) |}
  end.

Definition get_route_stats (w : Workflow) (samples : list Json) : RouteStats :=
  foldl (count_sample w)
    {| total_samples := length samples; route_matches := ∅; no_match_count := 0%nat;
       default_route_count := 0%nat; error_count := 0%nat |} samples.
End Routing.
Arguments route_id {_}. Arguments route_name {_}. Arguments route_description {_}.
Arguments condition {_}. Arguments actions {_}. Arguments priority {_}. Arguments route_enabled {_}.
Arguments wf_id {_}. Arguments wf_name {_}. Arguments wf_description {_}. Arguments routes {_}.
Arguments default_route {_}. Arguments wf_version {_}. Arguments wf_created_at {_}.
Arguments wf_updated_at {_}. Arguments wf_enabled {_}. Arguments wf_tags {_}.
Arguments execution_mode {_}. Arguments wf_resource_limits {_}. Arguments enabled_routes {_}.
Arguments route_with_priority {_}. Arguments new_route {_}. Arguments set_enabled {_}.
Arguments new_workflow {_}. Arguments with_default_route {_}.
Arguments insert_route {_}. Arguments routes_by_priority {_}. Arguments find_route {_}.
Arguments first_match {_ _}. Arguments select_route {_ _}. Arguments evaluate_all_routes {_ _}.
Arguments validate_route {_ _}. Arguments validate_workflow {_ _}. Arguments check_duplicates {_}.
Arguments get_route_stats {_ _}. Arguments count_sample {_ _}.

#[global] Instance Json_inhabited : Inhabited Json := populate JNull.

(** * The route a workflow takes

    [select_route] is compared with its specification: the enabled route of
    highest priority whose condition holds, the first one in the workflow among
    equals, and otherwise the default route. *)

Local Open Scope Z_scope.

Section RoutingFacts.
Context {Action : Type} `{RegexCrate}.

Implicit Types (r : Route Action) (l s : list (Route Action)).

(** Whether a route can be taken. *)
Definition eligible (data : Json) r : bool :=
  route_enabled r && match evaluate data (condition r) with Ok b => b | _ => false end.

(** The first element that satisfies a test. *)
Fixpoint first_sat (P : Route Action → bool) l : option (Route Action) :=
  match l with
  | [] => None
  | r :: l' => if P r then Some r else first_sat P l'
  end.

Lemma first_match_sat data l :
  first_match data (List.filter route_enabled l) = first_sat (eligible data) l.
Proof.
  induction l as [|r l IH]; [done|]. simpl. unfold eligible at 1.
  destruct (route_enabled r); simpl; [|done].
  destruct (evaluate data (condition r)) as [[]| |]; [done|exact IH..].
Qed.

(** ** Sorting *)

Definition descending s : Prop :=
  ∀ i j x y, s !! i = Some x → s !! j = Some y → (i ≤ j)%nat → priority y ≤ priority x.

Lemma descending_cons x s :
  descending (x :: s) ↔ (∀ y, y ∈ s → priority y ≤ priority x) ∧ descending s.
Proof.
  split.
  - intros Hd. split.
    + intros y [j Hj]%list_elem_of_lookup. apply (Hd 0%nat (S j)); [done|done|lia].
    + intros i j a b Ha Hb Hij. apply (Hd (S i) (S j)); [done|done|lia].
  - intros [Hx Hd] [|i] [|j] a b Ha Hb Hij; simplify_eq/=; [lia| |lia|].
    + apply Hx. by eapply list_elem_of_lookup_2.
    + eapply Hd; [done..|lia].
Qed.

Lemma elem_of_insert_route x r s : x ∈ insert_route r s ↔ x = r ∨ x ∈ s.
Proof.
  induction s as [|y s IH]; simpl; [set_solver|].
  destruct (_ <? _); [set_solver|]. rewrite !elem_of_cons, IH. tauto.
Qed.

Lemma insert_descending r s : descending s → descending (insert_route r s).
Proof.
  induction s as [|x s IH]; intros Hd; simpl.
  - apply descending_cons. split; [set_solver|]. intros i j ? ? Hi; by rewrite lookup_nil in Hi.
  - pose proof Hd as [Hx Hd']%descending_cons. destruct (Z.ltb_spec (priority x) (priority r)).
    + apply descending_cons. split; [|done]. intros y [->|Hy]%elem_of_cons; [lia|].
      specialize (Hx y Hy). lia.
    + apply descending_cons. split; [|by apply IH].
      intros y [->|Hy]%elem_of_insert_route; [lia|by apply Hx].
Qed.

(** ** The best route *)

(** The reference: the last best one is replaced only by a strictly better one. *)
Definition pick (P : Route Action → bool) (acc : option (Route Action)) r : option (Route Action) :=
  if P r
  then match acc with
       | None => Some r
       | Some b => if priority b <? priority r then Some r else Some b
       end
  else acc.

Lemma first_sat_elem P s r : first_sat P s = Some r → r ∈ s ∧ P r = true.
Proof.
  induction s as [|x s IH]; simpl; [done|]. destruct (P x) eqn:Hx.
  - intros [= ->]. split; [left|done].
  - intros Hr. destruct (IH Hr). split; [by right|done].
Qed.

Lemma first_sat_insert P r s :
  descending s → first_sat P (insert_route r s) = pick P (first_sat P s) r.
Proof.
  induction s as [|x s IH]; intros Hd; simpl.
  - unfold pick. by destruct (P r).
  - apply descending_cons in Hd as [Hx Hd].
    destruct (Z.ltb_spec (priority x) (priority r)) as [Hlt|Hge]; simpl.
    + unfold pick. destruct (P r); [|done].
      destruct (if P x then Some x else first_sat P s) as [b|] eqn:Hb; [|done].
      assert (priority b ≤ priority x) as Hle.
      { destruct (P x); [by simplify_eq|]. apply first_sat_elem in Hb as [Hb _]. by apply Hx. }
      by rewrite (proj2 (Z.ltb_lt _ _)) by lia.
    + destruct (P x) eqn:HPx; [|by apply IH]. unfold pick. destruct (P r); [|done].
      by rewrite (proj2 (Z.ltb_ge _ _)) by lia.
Qed.

Lemma sorted_sat P l :
  descending (foldl (λ s r, insert_route r s) [] l) ∧
  first_sat P (foldl (λ s r, insert_route r s) [] l) = foldl (pick P) None l.
Proof.
  induction l as [|r l [Hd IH]] using rev_ind.
  - split; [simpl; intros i j ? ? Hi; by rewrite lookup_nil in Hi|done].
  - rewrite !foldl_snoc. split; [by apply insert_descending|].
    by rewrite first_sat_insert, IH.
Qed.

(** [r] at index [i] is the best route of [l] satisfying [P]. *)
Definition best_at (P : Route Action → bool) l (i : nat) r : Prop :=
  l !! i = Some r ∧ P r = true ∧
  ∀ j x, l !! j = Some x → P x = true →
    priority x < priority r ∨ (priority x = priority r ∧ (i ≤ j)%nat).

Lemma pick_best P l :
  match foldl (pick P) None l with
  | Some r => ∃ i, best_at P l i r
  | None => Forall (λ r, P r = false) l
  end.
Proof.
  induction l as [|x l IH] using rev_ind; [constructor|]. rewrite foldl_snoc.
  assert (∀ j y, (l ++ [x]) !! j = Some y → l !! j = Some y ∨ (j = length l ∧ y = x)) as Hsnoc.
  { intros j y Hj. apply lookup_app_Some in Hj as [Hj|[Hle Hj]]; [by left|right].
    apply list_lookup_singleton_Some in Hj as [Hz ->]. split; [lia|done]. }
  unfold pick at 1. destruct (P x) eqn:HPx.
  - destruct (foldl (pick P) None l) as [b|].
    + destruct IH as (i & Hi & Hb & Hbest).
      destruct (Z.ltb_spec (priority b) (priority x)) as [Hlt|Hge].
      * exists (length l). split; [by rewrite lookup_app_r, Nat.sub_diag by lia|]. split; [done|].
        intros j y Hj HPy. apply Hsnoc in Hj as [Hj|[-> ->]]; [left|by right].
        destruct (Hbest j y Hj HPy); lia.
      * exists i. split; [by apply lookup_app_l_Some|]. split; [done|].
        intros j y Hj HPy. apply Hsnoc in Hj as [Hj|[-> ->]]; [by apply Hbest|].
        apply lookup_lt_Some in Hi. destruct (decide (priority x = priority b)); [right|left]; lia.
    + exists (length l). split; [by rewrite lookup_app_r, Nat.sub_diag by lia|]. split; [done|].
      intros j y Hj HPy. apply Hsnoc in Hj as [Hj|[-> ->]]; [|by right].
      eapply Forall_lookup_1 in IH; [|done]. congruence.
  - destruct (foldl (pick P) None l) as [b|].
    + destruct IH as (i & Hi & Hb & Hbest). exists i. split; [by apply lookup_app_l_Some|].
      split; [done|]. intros j y Hj HPy. apply Hsnoc in Hj as [Hj|[-> ->]]; [by apply Hbest|].
      congruence.
    + apply Forall_app. split; [done|]. by constructor.
Qed.

(** An enabled workflow takes the eligible route of highest priority, the
    first one in its definition among equals; without an eligible route it takes
    the default one if it has one, enabled or not. *)
Theorem select_route_best (w : Workflow Action) data :
  wf_enabled w = true →
  match select_route w data with
  | Ok (Some r) =>
      (∃ i, best_at (eligible data) (routes w) i r) ∨
      (Forall (λ x, eligible data x = false) (routes w) ∧
       default_route w = Some (route_id r) ∧ find_route w (route_id r) = Some r)
  | Ok None =>
      Forall (λ x, eligible data x = false) (routes w) ∧
      (default_route w ≫= find_route w) = None
  | _ => False
  end.
Proof.
  intros Hw. unfold select_route. rewrite Hw. simpl. rewrite first_match_sat.
  unfold routes_by_priority. destruct (sorted_sat (eligible data) (routes w)) as [_ ->].
  pose proof (pick_best (eligible data) (routes w)) as Hp.
  destruct (foldl (pick (eligible data)) None (routes w)) as [r|]; [by left|].
  destruct (default_route w) as [d|]; simpl; [|by split].
  destruct (find_route w d) as [r|] eqn:Hf; [|by split].
  right. unfold find_route in Hf. apply fmap_Some in Hf as ([i x] & Hf & ->). simpl.
  apply list_find_Some in Hf as (Hi & Hid & Hmin). split; [done|]. rewrite <- Hid. split; [done|].
  unfold find_route. apply fmap_Some. exists (i, x). split; [|done].
  apply list_find_Some. split; [done|]. split; [done|]. intros j y Hy. rewrite Hid. by apply Hmin.
Qed.
End RoutingFacts.
