(* ===== verification/BatchJobs.v ===== *)
(** * Batch jobs

    Models [workflows/domain/batch_job.rs] and the planning half of
    [workflows/engine/batch_executor.rs]: a job of workflow executions with
    dependencies, the check that they form no cycle and the waves they are run in.
    A data source is the JSON it is stored as; times are in milliseconds. *)

From Stdlib Require Import ZArith Lia Ascii.
From stdpp Require Import base numbers option strings gmap list.
From S2P Require Import Prelude RustStd F64 RustText WfRouting.

Local Open Scope Z_scope.

(** ** The job *)

Inductive WorkflowExecutionStatus : Type :=
  | RefPending | RefRunning | RefCompleted | RefFailed | RefRetrying | RefCancelled.

Record WorkflowExecutionRef : Type := {
  execution_id : string;
  source : Json;
  target_table : string;
  ref_status : WorkflowExecutionStatus;
  dependencies : list string;
  attempt_number : nat;
  ref_started_at : option Z;
  ref_completed_at : option Z;
  ref_error : option string;
  rows_processed : option nat;
  ref_duration_ms : option Z;
}.

Inductive BatchJobStatus : Type :=
  | JobPending | JobValidating | JobRunning | JobPaused | JobCompleted | JobPartiallyCompleted
  | JobFailed | JobCancelled.

#[global] Instance BatchJobStatus_eq_dec : EqDecision BatchJobStatus.
Proof. solve_decision. Defined.

Inductive TransactionMode : Type :=
  | PerFile
  | AllOrNothing
  | Batched (batch_size : nat).

Record ResourceLimits : Type := {
  max_memory_mb : nat;
  max_db_connections : nat;
  max_file_size_mb : nat;
}.

Definition default_limits : ResourceLimits :=
  {| max_memory_mb := 2048; max_db_connections := 10; max_file_size_mb := 500 |}.

Record BatchJobConfig : Type := {
  max_parallel : nat;
  stop_on_error : bool;
  retry_failed : bool;
  max_retries : nat;
  transaction_mode : TransactionMode;
  resource_limits : ResourceLimits;
  timeout_minutes : option nat;
  enable_dlq : bool;
}.

Definition default_job_config : BatchJobConfig :=
  {| max_parallel := 4; stop_on_error := false; retry_failed := true; max_retries := 3;
     transaction_mode := PerFile; resource_limits := default_limits; timeout_minutes := None;
     enable_dlq := true |}.

Record BatchJobProgress : Type := {
  total_files : nat;
  pending : nat;
  in_progress : nat;
  completed : nat;
  failed : nat;
  retrying : nat;
  progress_percent : f64;
}.

Definition new_progress : BatchJobProgress :=
  {| total_files := 0; pending := 0; in_progress := 0; completed := 0; failed := 0; retrying := 0;
     progress_percent := f64_zero |}.

Record TransactionSummaryInfo : Type := {
  total_transactions : nat;
  committed : nat;
  rolled_back : nat;
}.

Record BatchJob : Type := {
  job_id : string;
  job_name : string;
  job_description : option string;
  job_workflow_id : string;
  job_status : BatchJobStatus;
  progress : BatchJobProgress;
  config : BatchJobConfig;
  workflow_executions : list WorkflowExecutionRef;
  metadata : gmap string string;
  job_created_at : Z;
  job_updated_at : Z;
  job_started_at : option Z;
  job_completed_at : option Z;
  created_by : string;
  dlq_files : list string;
  dlq_row_count : Z;
  transaction_summary : option TransactionSummaryInfo;
}.

Inductive BatchError : Type :=
  | JobNotFound (id : string)
  | NoSuchWorkflow (id : string)
  | DisabledWorkflow (id : string)
  | EmptyName
  | EmptyJobWorkflow
  | NoExecutions
  | NoParallelism
  | UnknownDependency (id dep : string)
  | StoreFailed
  | AlreadyExists (id : string)
  | ExecutionNotFound (id : string)
  | WorkflowWithoutRoutes
  | ActionsFailed (n : nat)
  | Circular (id : string)
  | TooManyWaves
  | Deadlock (waiting : nat)
  | StoppedOnError (e : BatchError)
  | CannotCancel (st : BatchJobStatus)
  | NotPaused (id : string)
  | NoCheckpoint (id : string)
  | BadCheckpoint.

(** [WorkflowExecutionRef::new] with a fresh identifier. *)
Definition new_ref (id : string) (src : Json) (table : string) : WorkflowExecutionRef :=
  {| execution_id := id; source := src; target_table := table; ref_status := RefPending;
     dependencies := []; attempt_number := 0; ref_started_at := None; ref_completed_at := None;
     ref_error := None; rows_processed := None; ref_duration_ms := None |}.

Definition with_dependency (d : string) (e : WorkflowExecutionRef) : WorkflowExecutionRef :=
  {| execution_id := execution_id e; source := source e; target_table := target_table e;
     ref_status := ref_status e; dependencies := dependencies e ++ [d];
     attempt_number := attempt_number e; ref_started_at := ref_started_at e;
     ref_completed_at := ref_completed_at e; ref_error := ref_error e;
     rows_processed := rows_processed e; ref_duration_ms := ref_duration_ms e |}.

(** [BatchJob::new] with a fresh identifier. *)
Definition new_job (id name workflow_id : string) (c : BatchJobConfig) (user : string) (now : Z)
    : BatchJob :=
  {| job_id := id; job_name := name; job_description := None;
     job_workflow_id := workflow_id; job_status := JobPending;
     progress := new_progress; config := c; workflow_executions := [];
     metadata := ∅; job_created_at := now;
     job_updated_at := now; job_started_at := None; job_completed_at := None;
     created_by := user; dlq_files := []; dlq_row_count := 0; transaction_summary := None |}.

Definition add_execution (e : WorkflowExecutionRef) (now : Z) (j : BatchJob) : BatchJob :=
  let es := workflow_executions j ++ [e] in
  let p := progress j in
  {| job_id := job_id j; job_name := job_name j; job_description := job_description j;
     job_workflow_id := job_workflow_id j;
     job_status := job_status j;
     progress := {| total_files := length es; pending := length es; in_progress := in_progress p;
                    completed := completed p; failed := failed p; retrying := retrying p;
                    progress_percent := progress_percent p |};
     config := config j; workflow_executions := es;
     metadata := metadata j; job_created_at := job_created_at j;
     job_updated_at := now; job_started_at := job_started_at j;
     job_completed_at := job_completed_at j; created_by := created_by j; dlq_files := dlq_files j;
     dlq_row_count := dlq_row_count j; transaction_summary := transaction_summary j |}.

Definition is_terminal (st : BatchJobStatus) : bool :=
  match st with
  | JobCompleted | JobPartiallyCompleted | JobFailed | JobCancelled => true
  | _ => false
  end.

(** [BatchJob::update_status]. *)
Definition job_set_status (st : BatchJobStatus) (now : Z) (j : BatchJob) : BatchJob :=
  {| job_id := job_id j; job_name := job_name j; job_description := job_description j;
     job_workflow_id := job_workflow_id j;
     job_status := st; progress := progress j; config := config j;
     workflow_executions := workflow_executions j; metadata := metadata j;
     job_created_at := job_created_at j;
     job_updated_at := now;
     job_started_at :=
       match st, job_started_at j with
       | (JobRunning | JobValidating), None => Some now
       | _, s => s
       end;
     job_completed_at :=
       match is_terminal st, job_completed_at j with
       | true, None => Some now
       | _, c => c
       end;
     created_by := created_by j; dlq_files := dlq_files j;
     dlq_row_count := dlq_row_count j; transaction_summary := transaction_summary j |}.

Definition count_ref (p : BatchJobProgress) (e : WorkflowExecutionRef) : BatchJobProgress :=
  let upd pe ip co fa re :=
    {| total_files := total_files p; pending := pending p + pe; in_progress := in_progress p + ip;
       completed := completed p + co; failed := failed p + fa; retrying := retrying p + re;
       progress_percent := progress_percent p |}%nat in
  match ref_status e with
  | RefPending => upd 1 0 0 0 0
  | RefRunning => upd 0 1 0 0 0
  | RefCompleted => upd 0 0 1 0 0
  | RefFailed => upd 0 0 0 1 0
  | RefRetrying => upd 0 0 0 0 1
  | RefCancelled => upd 0 0 0 1 0
  end%nat.

(** [recalculate_progress]: the share of executions that are done. *)
Definition progress_of (es : list WorkflowExecutionRef) : BatchJobProgress :=
  let p := foldl count_ref {| total_files := length es; pending := 0; in_progress := 0;
             completed := 0; failed := 0; retrying := 0; progress_percent := f64_zero |} es in
  {| total_files := total_files p; pending := pending p; in_progress := in_progress p;
     completed := completed p; failed := failed p; retrying := retrying p;
     progress_percent :=
       if (0 <? length es)%nat
       then f64_mul (f64_div (f64_of_i64 (Z.of_nat (completed p + failed p)))
                       (f64_of_i64 (Z.of_nat (length es)))) (f64_of_i64 100)
       else f64_zero |}.

Definition recalculate_progress (now : Z) (j : BatchJob) : BatchJob :=
  {| job_id := job_id j; job_name := job_name j; job_description := job_description j;
     job_workflow_id := job_workflow_id j;
     job_status := job_status j; progress := progress_of (workflow_executions j);
     config := config j; workflow_executions := workflow_executions j; metadata := metadata j;
     job_created_at := job_created_at j; job_updated_at := now;
     job_started_at := job_started_at j; job_completed_at := job_completed_at j;
     created_by := created_by j; dlq_files := dlq_files j;
     dlq_row_count := dlq_row_count j; transaction_summary := transaction_summary j |}.

Definition can_cancel (j : BatchJob) : bool := negb (is_terminal (job_status j)).

Definition job_duration_ms (j : BatchJob) : option Z :=
  s ← job_started_at j; c ← job_completed_at j; Some (c - s).

(** The first dependency that no execution has. *)
Definition missing_dependency (es : list WorkflowExecutionRef) : option (string * string) :=
  head (e ← es; d ← dependencies e;
        if bool_decide (d ∈ execution_id <$> es) then [] else [(execution_id e, d)]).

Definition validate_job (j : BatchJob) : result BatchError unit :=
  if String.eqb (job_name j) "" then Err EmptyName
  else if String.eqb (job_workflow_id j) "" then Err EmptyJobWorkflow
  else match workflow_executions j with
       | [] => Err NoExecutions
       | es =>
           if (max_parallel (config j) =? 0)%nat then Err NoParallelism
           else match missing_dependency es with
                | Some (e, d) => Err (UnknownDependency e d)
                | None => Ok tt
                end
       end.

Definition dependencies_satisfied (done : gset string) (e : WorkflowExecutionRef) : bool :=
  forallb (λ d, bool_decide (d ∈ done)) (dependencies e).

(** ** Waves *)

Abbreviation ExecMap := (gmap string WorkflowExecutionRef).

(** [collect] into a hash map: a later execution with the same identifier wins. *)
Definition exec_by_id (es : list WorkflowExecutionRef) : ExecMap :=
  foldl (λ m e, <[execution_id e := e]> m) ∅ es.

(** [has_cycle] with the visited nodes and the nodes on the path; the recursion
    visits a new node each time, so as many levels as nodes are enough. *)
Fixpoint has_cycle (fuel : nat) (m : ExecMap) (id : string) (visited stack : gset string)
    : option (bool * gset string * gset string) :=
  match fuel with
  | O => None
  | S fuel' =>
      let fix loop (ds : list string) (visited stack : gset string)
          : option (bool * gset string * gset string) :=
        match ds with
        | [] => Some (false, visited, stack ∖ {[id]})
        | d :: ds' =>
            if bool_decide (d ∈ visited)
            then if bool_decide (d ∈ stack) then Some (true, visited, stack)
                 else loop ds' visited stack
            else '(found, v, s) ← has_cycle fuel' m d visited stack;
                 if found : bool then Some (true, v, s) else loop ds' v s
        end in
      loop (match m !! id with Some e => dependencies e | None => [] end)
        ({[id]} ∪ visited) ({[id]} ∪ stack)
  end.

Fixpoint detect_from (m : ExecMap) (keys : list string) (visited stack : gset string)
    : result BatchError unit :=
  match keys with
  | [] => Ok tt
  | k :: keys' =>
      if bool_decide (k ∈ visited) then detect_from m keys' visited stack
      else match has_cycle (S (size m)) m k visited stack with
           | Some (true, _, _) => Err (Circular k)
           | Some (false, v, s) => detect_from m keys' v s
           | None => Panic
           end
  end.

(** The loop of [resolve_dependencies] with the iterations it still allows. *)
Fixpoint build_waves (iterations : nat) (done : gset string)
    (remaining : list WorkflowExecutionRef)
    : result BatchError (list (list WorkflowExecutionRef)) :=
  match remaining with
  | [] => Ok []
  | _ =>
      match iterations with
      | O => Err TooManyWaves
      | S n =>
          let wave := List.filter (dependencies_satisfied done) remaining in
          let waiting := List.filter (λ e, negb (dependencies_satisfied done e)) remaining in
          match wave with
          | [] => Err (Deadlock (length waiting))
          | _ =>
              waves ← build_waves n (list_to_set (execution_id <$> wave) ∪ done) waiting;
              Ok (wave :: waves)
          end
      end
  end.

(** [exec_by_id.keys()]: the order of a hash map is arbitrary. *)
Class ExecOrder : Type := { exec_keys : ExecMap → list string }.
Class ExecOrderOk `{ExecOrder} : Prop :=
  { exec_keys_perm m : exec_keys m ≡ₚ (map_to_list m).*1 }.

Section Resolve.
Context `{ExecOrder}.

Definition detect_circular_dependencies (m : ExecMap) : result BatchError unit :=
  detect_from m (exec_keys m) ∅ ∅.

Definition resolve_dependencies (es : list WorkflowExecutionRef)
    : result BatchError (list (list WorkflowExecutionRef)) :=
  match missing_dependency es with
  | Some (e, d) => Err (UnknownDependency e d)
  | None =>
      _ ← detect_circular_dependencies (exec_by_id es);
      build_waves (length es + 1) ∅ es
  end.
End Resolve.

(** * Facts on batch jobs

    The waves of a job: a topological order of its executions in which everything
    runs as early as it may, found whenever the dependencies have one. *)

From Stdlib Require Import ZArith Lia.
From stdpp Require Import base numbers option strings gmap list sets.

Implicit Types es : list WorkflowExecutionRef.

(** ** Dependencies *)

Definition dependencies_exist es : Prop :=
  ∀ e d, e ∈ es → d ∈ dependencies e → d ∈ execution_id <$> es.

(** A rank that decreases along dependencies: there is no cycle. *)
Definition ranked (rank : string → nat) es : Prop :=
  ∀ e d, e ∈ es → d ∈ dependencies e → rank d < rank (execution_id e).

Lemma missing_dependency_None es : missing_dependency es = None ↔ dependencies_exist es.
Proof.
  unfold missing_dependency, dependencies_exist. rewrite head_None. split.
  - intros H e d He Hd. apply dec_stable. intros Hn.
    assert (Hin : (execution_id e, d) ∈ ([] : list (string * string))); [|by inversion Hin].
    rewrite <- H. apply list_elem_of_bind. exists e. split; [|done].
    apply list_elem_of_bind. exists d. split; [|done]. rewrite bool_decide_false by done.
    by left.
  - intros H. apply elem_of_nil_inv. intros p (e & Hp & He)%list_elem_of_bind.
    apply list_elem_of_bind in Hp as (d & Hp & Hd). rewrite bool_decide_true in Hp by eauto.
    by inversion Hp.
Qed.

Lemma exec_by_id_Some es id e : exec_by_id es !! id = Some e → e ∈ es ∧ execution_id e = id.
Proof.
  unfold exec_by_id. induction es as [|x es IH] using rev_ind; [done|].
  rewrite foldl_snoc. destruct (decide (execution_id x = id)) as [<-|Hne].
  - rewrite lookup_insert_eq. intros [= ->]. set_solver.
  - rewrite lookup_insert_ne by done. intros [? ?]%IH. set_solver.
Qed.

Lemma dependencies_satisfied_spec fin e :
  dependencies_satisfied fin e = true ↔ ∀ d, d ∈ dependencies e → d ∈ fin.
Proof.
  unfold dependencies_satisfied. rewrite forallb_forall. setoid_rewrite bool_decide_eq_true.
  by setoid_rewrite list_elem_of_In.
Qed.

(** ** The search for cycles *)

Section Search.
Context (m : ExecMap).

(** The loop of [has_cycle] over the dependencies of [id]. *)
Fixpoint cycle_loop (fuel : nat) (id : string) (ds : list string) (visited stack : gset string)
    : option (bool * gset string * gset string) :=
  match ds with
  | [] => Some (false, visited, stack ∖ {[id]})
  | d :: ds' =>
      if bool_decide (d ∈ visited)
      then if bool_decide (d ∈ stack) then Some (true, visited, stack)
           else cycle_loop fuel id ds' visited stack
      else '(found, v, s) ← has_cycle fuel m d visited stack;
           if found : bool then Some (true, v, s) else cycle_loop fuel id ds' v s
  end.

Definition deps_of (id : string) : list string :=
  match m !! id with Some e => dependencies e | None => [] end.

Lemma has_cycle_S fuel id visited stack :
  has_cycle (S fuel) m id visited stack =
  cycle_loop fuel id (deps_of id) ({[id]} ∪ visited) ({[id]} ∪ stack).
Proof.
  simpl. unfold deps_of. generalize ({[id]} ∪ visited), ({[id]} ∪ stack).
  generalize (match m !! id with Some e => dependencies e | None => [] end).
  intros ds. induction ds as [|d ds IH]; intros v s; simpl; [done|].
  repeat case_bool_decide; auto. destruct (has_cycle fuel m d v s) as [[[[] v'] s']|]; simpl; auto.
Qed.

(** Every level visits a node: the fuel is enough. *)
Lemma has_cycle_returns fuel id visited stack :
  id ∉ visited → size (dom m ∖ visited) < fuel →
  ∃ b v s, has_cycle fuel m id visited stack = Some (b, v, s) ∧ visited ⊆ v.
Proof.
  revert id visited stack. induction fuel as [|fuel IH]; intros id visited stack Hid Hf; [lia|].
  rewrite has_cycle_S. unfold deps_of.
  destruct (m !! id) as [e|] eqn:Hm.
  - assert (Hsz : size (dom m ∖ ({[id]} ∪ visited)) < fuel).
    { enough (dom m ∖ ({[id]} ∪ visited) ⊂ dom m ∖ visited) as Hs%subset_size by lia.
      apply elem_of_dom_2 in Hm. set_solver. }
    assert (Hsub : visited ⊆ {[id]} ∪ visited) by set_solver.
    revert Hsz Hsub. generalize ({[id]} ∪ visited), ({[id]} ∪ stack).
    induction (dependencies e) as [|d ds IHds]; intros v s Hsz Hsub; simpl; [eauto 10|].
    case_bool_decide; [case_bool_decide; eauto 10|].
    destruct (IH d v s) as (b & v' & s' & -> & Hv'); [done..|]. simpl.
    destruct b; [do 3 eexists; split; [done|set_solver]|]. apply IHds; [|set_solver].
    enough (size (dom m ∖ v') ≤ size (dom m ∖ v)) by lia. apply subseteq_size. set_solver.
  - do 3 eexists. split; [done|]. set_solver.
Qed.

(** A ranked graph has no cycle to report, and the path is taken back. *)
Lemma has_cycle_ranked rank fuel id visited stack b v s :
  (∀ id' d, d ∈ deps_of id' → rank d < rank id') →
  (∀ x, x ∈ stack → rank id < rank x) →
  has_cycle fuel m id visited stack = Some (b, v, s) → b = false ∧ s ⊆ stack.
Proof.
  intros Hrank. revert id visited stack b v s.
  induction fuel as [|fuel IH]; intros id visited stack b v s Hst; [done|].
  rewrite has_cycle_S.
  assert (Hds : ∀ d, d ∈ deps_of id → rank d < rank id) by auto.
  assert (Hs : ∀ x, x ∈ {[id]} ∪ stack → rank id ≤ rank x) by set_solver by lia.
  assert (Hsub : {[id]} ∪ stack ⊆ {[id]} ∪ stack) by done.
  revert Hs Hsub. generalize ({[id]} ∪ visited). generalize ({[id]} ∪ stack) at 1 2 4.
  induction (deps_of id) as [|d ds IHds]; intros st vs Hs Hsub; simpl.
  { intros [= <- <- <-]. split; [done|]. set_solver. }
  assert (Hd : rank d < rank id) by (apply Hds; left).
  case_bool_decide.
  - rewrite bool_decide_false; [|intros Hin%Hs; lia]. apply IHds; [|done..].
    intros; apply Hds; by right.
  - destruct (has_cycle fuel m d vs st) as [[[b' v'] s']|] eqn:E; [|done]. simpl.
    apply IH in E as [-> Hs']; [|intros x Hx%Hs; lia]. apply IHds; [|set_solver..].
    intros; apply Hds; by right.
Qed.

Lemma detect_from_returns keys visited stack : detect_from m keys visited stack ≠ Panic.
Proof.
  revert visited stack. induction keys as [|k keys IH]; intros visited stack; simpl; [done|].
  case_bool_decide; [done|].
  destruct (has_cycle_returns (S (size m)) k visited stack) as (b & v & s & E & _); [done| |].
  { rewrite <- size_dom. enough (size (dom m ∖ visited) ≤ size (dom m)) by lia.
    apply subseteq_size. set_solver. }
  simpl in E. rewrite E. by destruct b.
Qed.

Lemma detect_from_ranked rank keys visited :
  (∀ id' d, d ∈ deps_of id' → rank d < rank id') →
  detect_from m keys visited ∅ = Ok tt.
Proof.
  intros Hrank. revert visited. induction keys as [|k keys IH]; intros visited; cbn -[has_cycle];
    [done|].
  case_bool_decide; [done|].
  destruct (has_cycle_returns (S (size m)) k visited ∅) as (b & v & s & E & _); [done| |].
  { rewrite <- size_dom. enough (size (dom m ∖ visited) ≤ size (dom m)) by lia.
    apply subseteq_size. set_solver. }
  rewrite E. apply (has_cycle_ranked rank) in E as [-> Hs]; [|done|set_solver].
  assert (s = ∅) as -> by set_solver. apply IH.
Qed.
End Search.

(** ** Waves *)

(** The executions that ran before wave [i]. *)
Definition before (i : nat) (waves : list (list WorkflowExecutionRef)) : list string :=
  execution_id <$> concat (take i waves).

Lemma filter_split {A} (f : A → bool) l :
  List.filter f l ++ List.filter (λ x, negb (f x)) l ≡ₚ l.
Proof.
  induction l as [|x l IH]; simpl; [done|]. destruct (f x); simpl; [by rewrite IH|].
  by rewrite <- Permutation_middle, IH.
Qed.

Lemma elem_of_filter_bool {A} (f : A → bool) l x : x ∈ List.filter f l ↔ x ∈ l ∧ f x = true.
Proof. rewrite !list_elem_of_In. apply filter_In. Qed.

Definition waves_ok (fin : gset string) (waves : list (list WorkflowExecutionRef)) : Prop :=
  [] ∉ waves ∧
  ∀ i w e, waves !! i = Some w → e ∈ w →
    (∀ d, d ∈ dependencies e → d ∈ fin ∨ d ∈ before i waves) ∧
    (∀ j, i = S j → ∃ d, d ∈ dependencies e ∧ d ∉ fin ∧ d ∉ before j waves).

Lemma waves_ok_cons fin w waves :
  w ≠ [] → (∀ e, e ∈ w → dependencies_satisfied fin e = true) →
  (∀ e, e ∈ concat waves → dependencies_satisfied fin e = false) →
  waves_ok (list_to_set (execution_id <$> w) ∪ fin) waves → waves_ok fin (w :: waves).
Proof.
  intros Hw Hdone Hwait [Hne Hok]. split; [intros [?|?]%elem_of_cons; congruence|].
  intros [|i] w' e; simpl; [intros [= <-] He|intros Hi He].
  { split; [|done]. intros d Hd. left. specialize (Hdone e He).
    rewrite dependencies_satisfied_spec in Hdone. auto. }
  destruct (Hok i w' e Hi He) as [H1 H2]. unfold before in *. simpl. rewrite fmap_app. split.
  - intros d Hd. destruct (H1 d Hd); set_solver.
  - intros j [= <-]. destruct i as [|i].
    + assert (dependencies_satisfied fin e ≠ true) as Hns.
      { rewrite Hwait; [done|]. apply list_elem_of_In, in_concat. exists w'.
        split; apply list_elem_of_In; [|done]. by eapply list_elem_of_lookup_2. }
      rewrite dependencies_satisfied_spec in Hns. simpl.
      assert (List.Exists (λ d, d ∉ fin) (dependencies e)) as (d & ? & ?)%Exists_exists; [|set_solver].
      apply dec_stable. intros Hn. apply Hns. intros d Hd. apply dec_stable. intros ?.
      apply Hn, Exists_exists. eauto.
    + destruct (H2 i eq_refl) as (d & ? & ? & ?). exists d. simpl. rewrite fmap_app. set_solver.
Qed.

(** One turn of the loop. *)
Definition ready (fin : gset string) es := List.filter (dependencies_satisfied fin) es.
Definition waiting (fin : gset string) es :=
  List.filter (λ e, negb (dependencies_satisfied fin e)) es.
Definition run_also (fin : gset string) es : gset string :=
  list_to_set (execution_id <$> ready fin es) ∪ fin.

Lemma build_waves_S n fin es :
  es ≠ [] →
  build_waves (S n) fin es =
    if decide (ready fin es = []) then Err (Deadlock (length (waiting fin es)))
    else waves ← build_waves n (run_also fin es) (waiting fin es); Ok (ready fin es :: waves).
Proof.
  intros Hne. destruct es as [|e es]; [done|]. unfold build_waves at 1. fold build_waves.
  unfold run_also, waiting, ready. by destruct (List.filter (dependencies_satisfied fin) _).
Qed.

Lemma build_waves_nil n fin : build_waves n fin [] = Ok [].
Proof. by destruct n. Qed.

Lemma build_waves_sound n fin es waves :
  build_waves n fin es = Ok waves → concat waves ≡ₚ es ∧ waves_ok fin waves.
Proof.
  revert fin es waves. induction n as [|n IH]; intros fin es waves;
    (destruct (decide (es = [])) as [->|Hne];
      [rewrite build_waves_nil; intros [= <-]; split; [done|split; [set_solver|by intros [] ?]]|]).
  { by destruct es. }
  rewrite build_waves_S by done. case_decide as Hr; [done|].
  intros (waves' & Hb & [= <-])%result_bind_Ok. destruct (IH _ _ _ Hb) as [Hp Hok]. split.
  { simpl. rewrite Hp. apply filter_split. }
  apply waves_ok_cons; [done|..|done].
  - by intros e [_ He]%elem_of_filter_bool.
  - intros e. rewrite Hp. intros [_ He]%elem_of_filter_bool. by apply negb_true_iff.
Qed.

(** The execution of least rank is always ready. *)
Lemma ranked_ready rank fin es :
  ranked rank es → es ≠ [] →
  (∀ e d, e ∈ es → d ∈ dependencies e → d ∈ fin ∨ d ∈ execution_id <$> es) →
  ready fin es ≠ [].
Proof.
  intros Hrank Hne Hdep.
  assert (∃ e, e ∈ es ∧ ∀ e', e' ∈ es → rank (execution_id e) ≤ rank (execution_id e'))
    as (e & He & Hmin).
  { clear Hrank Hdep. induction es as [|x es IH]; [done|]. destruct es as [|y es].
    { exists x. set_solver by lia. }
    destruct IH as (e & He & Hmin); [done|].
    destruct (decide (rank (execution_id x) ≤ rank (execution_id e))).
    - exists x. split; [left|]. intros e' [->|He']%elem_of_cons; [done|].
      specialize (Hmin e' He'). lia.
    - exists e. split; [by right|]. intros e' [->|He']%elem_of_cons; [lia|auto]. }
  intros Hnil. assert (Hin : e ∈ ready fin es); [|rewrite Hnil in Hin; by inversion Hin].
  apply elem_of_filter_bool. split; [done|]. apply dependencies_satisfied_spec. intros d Hd.
  destruct (Hdep e d He Hd) as [|(e' & -> & He')%list_elem_of_fmap]; [done|].
  specialize (Hmin e' He'). specialize (Hrank e _ He Hd). lia.
Qed.

Lemma build_waves_ranked rank n fin es :
  ranked rank es → length es ≤ n →
  (∀ e d, e ∈ es → d ∈ dependencies e → d ∈ fin ∨ d ∈ execution_id <$> es) →
  ∃ waves, build_waves n fin es = Ok waves.
Proof.
  revert fin es. induction n as [|n IH]; intros fin es Hrank Hlen Hdep;
    (destruct (decide (es = [])) as [->|Hne]; [rewrite build_waves_nil; eauto|]).
  { destruct es; simpl in *; [done|lia]. }
  pose proof (ranked_ready rank fin es Hrank Hne Hdep) as Hr.
  rewrite build_waves_S, decide_False by done.
  pose proof (filter_split (dependencies_satisfied fin) es) as Hp.
  fold (ready fin es) (waiting fin es) in Hp.
  assert (Hsub : ∀ e, e ∈ waiting fin es → e ∈ es) by (intros e He; rewrite <- Hp; set_solver).
  destruct (IH (run_also fin es) (waiting fin es)) as [waves Hb].
  - intros e d He. by apply Hrank, Hsub.
  - apply Permutation_length in Hp. rewrite length_app in Hp.
    destruct (ready fin es); simpl in *; [done|lia].
  - intros e d He Hd. unfold run_also. destruct (Hdep e d (Hsub e He) Hd) as [|Hin]; [set_solver|].
    rewrite <- Hp in Hin. set_solver.
  - rewrite Hb. eauto.
Qed.

(** ** Resolving the dependencies of a job *)

Lemma resolve_build `{ExecOrder} es waves :
  resolve_dependencies es = Ok waves →
  dependencies_exist es ∧ build_waves (length es + 1) ∅ es = Ok waves.
Proof.
  unfold resolve_dependencies. destruct (missing_dependency es) as [[e d]|] eqn:E; [done|].
  apply missing_dependency_None in E. by intros (? & _ & Hb)%result_bind_Ok.
Qed.

(** [resolve_dependencies] puts the executions of a job in an order: every
    execution is in exactly one wave, no wave is empty, all that an execution
    depends on is in earlier waves, and no execution could have run one wave
    earlier. *)
Theorem waves_topological `{ExecOrder} es waves :
  resolve_dependencies es = Ok waves →
  concat waves ≡ₚ es ∧ [] ∉ waves ∧
  ∀ i w e, waves !! i = Some w → e ∈ w →
    (∀ d, d ∈ dependencies e → d ∈ before i waves) ∧
    (∀ j, i = S j → ∃ d, d ∈ dependencies e ∧ d ∉ before j waves).
Proof.
  intros [_ Hb]%resolve_build. apply build_waves_sound in Hb as [Hp [Hne Hok]].
  split_and!; [done..|]. intros i w e Hi He. destruct (Hok i w e Hi He) as [H1 H2]. split.
  - intros d Hd. destruct (H1 d Hd); set_solver.
  - intros j Hj. destruct (H2 j Hj) as (d & ? & _ & ?). eauto.
Qed.

Lemma ranked_resolves `{ExecOrder} rank es :
  dependencies_exist es → ranked rank es → ∃ waves, resolve_dependencies es = Ok waves.
Proof.
  intros Hdep Hrank. unfold resolve_dependencies.
  rewrite (proj2 (missing_dependency_None es) Hdep). unfold detect_circular_dependencies.
  rewrite (detect_from_ranked _ rank).
  - apply (build_waves_ranked rank); [done|lia|]. intros e d He Hd. right. by eapply Hdep.
  - intros id d. unfold deps_of. destruct (exec_by_id es !! id) as [e|] eqn:E; [|set_solver].
    apply exec_by_id_Some in E as [He <-]. by apply Hrank.
Qed.

(** The wave an execution is in. *)
Definition wave_of (waves : list (list WorkflowExecutionRef)) (id : string) : nat :=
  default 0 (fst <$> list_find (λ w, id ∈ execution_id <$> w) waves).

Lemma wave_of_lookup waves id i w :
  waves !! i = Some w → id ∈ execution_id <$> w →
  wave_of waves id ≤ i ∧ ∃ w', waves !! wave_of waves id = Some w' ∧ id ∈ execution_id <$> w'.
Proof.
  intros Hi Hid. unfold wave_of.
  destruct (list_find_elem_of (λ w, id ∈ execution_id <$> w) waves w) as [[j w'] Hj];
    [by eapply list_elem_of_lookup_2|done|]. rewrite Hj. simpl.
  apply list_find_Some in Hj as (Hj & Hin & Hl). split; [|eauto].
  destruct (decide (j ≤ i)); [done|]. exfalso. by eapply (Hl i w); [|lia|].
Qed.

Lemma before_lookup i waves d :
  d ∈ before i waves → ∃ j w, j < i ∧ waves !! j = Some w ∧ d ∈ execution_id <$> w.
Proof.
  unfold before. intros (e & -> & He)%list_elem_of_fmap.
  apply list_elem_of_In, in_concat in He as (w & Hw & He).
  apply list_elem_of_In, elem_of_take in Hw as (j & Hj & ?).
  exists j, w. split_and!; [done..|]. apply list_elem_of_fmap_2. by apply list_elem_of_In.
Qed.

Lemma NoDup_concat_lookup {A} (ll : list (list A)) i j l k x :
  NoDup (concat ll) → ll !! i = Some l → ll !! j = Some k → x ∈ l → x ∈ k → i = j.
Proof.
  revert i j. induction ll as [|y ll IH]; intros i j; [done|]. simpl.
  rewrite NoDup_app. intros (_ & Hd & Hn).
  assert (Hc : ∀ i' l', ll !! i' = Some l' → ∀ z, z ∈ l' → z ∈ concat ll).
  { intros i' l' Hi z Hz. apply list_elem_of_In, in_concat. exists l'.
    split; apply list_elem_of_In; [by eapply list_elem_of_lookup_2|done]. }
  destruct i as [|i], j as [|j]; simpl; intros Hi Hj Hx Hy; simplify_eq; [done|..].
  - destruct (Hd x Hx). eauto.
  - destruct (Hd x Hy). eauto.
  - f_equal. by eapply IH.
Qed.

Lemma wave_index_unique waves es i1 i2 w1 w2 id :
  concat waves ≡ₚ es → NoDup (execution_id <$> es) →
  waves !! i1 = Some w1 → id ∈ execution_id <$> w1 →
  waves !! i2 = Some w2 → id ∈ execution_id <$> w2 → i1 = i2.
Proof.
  intros Hp Hnd H1' Hi1 H2' Hi2.
  apply (NoDup_concat_lookup (map (fmap execution_id) waves) i1 i2
    (execution_id <$> w1) (execution_id <$> w2) id); [..|done|done].
  - assert (concat (map (fmap execution_id) waves) = execution_id <$> concat waves) as ->
      by (symmetry; apply concat_map). by rewrite Hp.
  - by rewrite (list_lookup_fmap (fmap execution_id)), H1'.
  - by rewrite (list_lookup_fmap (fmap execution_id)), H2'.
Qed.

(** C21: With distinct identifiers, [resolve_dependencies] accepts exactly the jobs
    whose dependencies exist and have no cycle; the search for cycles never
    refuses another one and the bound on the number of waves is never reached. *)
Theorem resolve_accepts_acyclic `{ExecOrder} es :
  NoDup (execution_id <$> es) →
  (∃ waves, resolve_dependencies es = Ok waves) ↔
  dependencies_exist es ∧ ∃ rank, ranked rank es.
Proof.
  intros Hnd. split; [|intros (Hdep & rank & Hrank); by eapply ranked_resolves].
  intros [waves [Hdep Hb]%resolve_build]. split; [done|].
  apply build_waves_sound in Hb as [Hp [_ Hok]]. exists (wave_of waves).
  intros e d He Hd. rewrite <- Hp in He.
  apply list_elem_of_In, in_concat in He as (w & Hw & He).
  apply list_elem_of_In, list_elem_of_lookup in Hw as [i Hi]. apply list_elem_of_In in He.
  destruct (Hok i w e Hi He) as [Hdeps _].
  destruct (wave_of_lookup waves (execution_id e) i w) as (_ & w' & Hw' & Hin);
    [done|by apply list_elem_of_fmap_2|].
  assert (wave_of waves (execution_id e) = i) as ->
    by (eapply (wave_index_unique waves es); [done..|by apply list_elem_of_fmap_2]).
  destruct (Hdeps d Hd) as [|(j & w2 & Hj & Hw2 & Hd2)%before_lookup];
    [set_solver|]. destruct (wave_of_lookup waves d j w2) as [? _]; [done..|lia].
Qed.
