(* ===== verification/KvScan.v ===== *)
(** * Ordered keys of a key-value store

    The column families of RocksDB are ordered by the bytes of their keys.  This
    file has what the stores share: the entries in that order, keys made of parts
    with a separator, big-endian keys of times, sets kept in order; then families of
    lists, and the versioned envelope of stored data. *)

From Stdlib Require Import ZArith Lia Ascii.
From stdpp Require Import base numbers option strings gmap list sorting.
From S2P Require Import Prelude RustStd.

Local Open Scope Z_scope.

(** The entries of a column family in the order of their keys. *)
Definition str_le (a b : string * string) : Prop := Is_true (str_leb a.1 b.1).

#[global] Instance str_le_dec : RelDecision str_le.
Proof. intros a b. unfold str_le. apply _. Defined.

Definition sorted_cf (cf : gmap string string) : list (string * string) :=
  merge_sort str_le (map_to_list cf).

(** ** Order *)

Lemma str_leb_cons c a b : str_leb (String c a) (String c b) = str_leb a b.
Proof. simpl. by rewrite Nat.ltb_irrefl, Nat.eqb_refl. Qed.

Lemma str_leb_app p a b : str_leb (p +:+ a) (p +:+ b) = str_leb a b.
Proof. induction p as [|c p IH]; [done|]. exact (eq_trans (str_leb_cons c _ _) IH). Qed.

#[global] Instance str_le_total : Total str_le.
Proof. intros a b. unfold str_le. rewrite !Is_true_true. apply str_leb_total. Qed.

#[global] Instance str_le_trans : Transitive str_le.
Proof. intros a b c. unfold str_le. rewrite !Is_true_true. apply str_leb_trans. Qed.

Lemma sorted_cf_perm cf : sorted_cf cf ≡ₚ map_to_list cf.
Proof. apply merge_sort_Permutation. Qed.

Lemma StronglySorted_filter_bool {A} (R : relation A) (f : A → bool) l :
  StronglySorted R l → StronglySorted R (List.filter f l).
Proof.
  induction 1 as [|x l _ IH Hx]; simpl; [constructor|]. destruct (f x); [|done].
  constructor; [done|]. rewrite Forall_forall in *. intros y Hy. apply Hx.
  rewrite list_elem_of_In in *. by apply filter_In in Hy as [? _].
Qed.

Lemma StronglySorted_weaken {A} (R R' : relation A) l :
  (∀ x y, x ∈ l → y ∈ l → R x y → R' x y) → StronglySorted R l → StronglySorted R' l.
Proof.
  intros HR Hs. induction Hs as [|x l _ IH Hx]; constructor.
  - apply IH. intros y z ??. apply HR; by right.
  - rewrite Forall_forall in *. intros y Hy. apply HR; [left|by right|auto].
Qed.

(** ** Separators *)

Lemma no_char_suffix sep a b x y :
  str_contains_char sep x = false → str_contains_char sep y = false →
  a +:+ String sep x = b +:+ String sep y → a = b ∧ x = y.
Proof.
  assert (Hc : ∀ a z, str_contains_char sep (a +:+ String sep z) = true).
  { intros a' z. induction a' as [|c a' IH]; simpl; [by rewrite Ascii.eqb_refl|]. rewrite IH. apply orb_true_r. }
  intros Hx Hy. revert b. induction a as [|c a IH]; intros [|c' b]; simpl; intros [=]; subst.
  - done.
  - by rewrite Hc in Hx.
  - by rewrite Hc in Hy.
  - destruct (IH b) as [-> ->]; done.
Qed.


(** ** Big-endian keys *)

(** [k] bytes of a number, the most significant first. *)
Fixpoint be_string (k : nat) (n : Z) : string :=
  match k with
  | O => EmptyString
  | S k' => be_string k' (n / 256) +:+ String (ascii_of_nat (Z.to_nat (n mod 256))) EmptyString
  end.

Lemma be_byte n : nat_of_ascii (ascii_of_nat (Z.to_nat (n mod 256))) = Z.to_nat (n mod 256).
Proof. apply nat_ascii_embedding. pose proof (Z.mod_pos_bound n 256). lia. Qed.

Lemma be_string_order k m n r r' :
  0 ≤ m < 256 ^ Z.of_nat k → 0 ≤ n < 256 ^ Z.of_nat k →
  str_leb (be_string k m +:+ r) (be_string k n +:+ r') = true ↔
  m < n ∨ m = n ∧ str_leb r r' = true.
Proof.
  revert m n r r'. induction k as [|k IH]; intros m n r r' Hm Hn.
  { change (256 ^ Z.of_nat 0) with 1 in *. simpl. split; [intros Hle; right|intros [?|[_ ?]]];
      [split; [lia|done]|lia|done]. }
  rewrite Nat2Z.inj_succ, Z.pow_succ_r in Hm, Hn by lia. cbn [be_string]. rewrite !str_app_assoc, IH.
  - pose proof (Z.div_mod m 256). pose proof (Z.div_mod n 256).
    pose proof (Z.mod_pos_bound m 256). pose proof (Z.mod_pos_bound n 256).
    change (String ?c EmptyString +:+ ?s) with (String c s). cbn [str_leb].
    rewrite !be_byte, orb_true_iff, andb_true_iff, Nat.ltb_lt, Nat.eqb_eq.
    split; [intros [?|[? [?|[? ?]]]]; [left; lia..|right; split; [lia|done]]|].
    intros [?|[? ?]].
    + destruct (Z_lt_le_dec (m / 256) (n / 256)); [by left|]. right. split; [lia|]. left. lia.
    + right. split; [congruence|]. right. split; [congruence|done].
  - split; [apply Z.div_pos; lia|apply Z.div_lt_upper_bound; lia].
  - split; [apply Z.div_pos; lia|apply Z.div_lt_upper_bound; lia].
Qed.

Lemma be_string_leb k m n :
  0 ≤ m < 256 ^ Z.of_nat k → 0 ≤ n < 256 ^ Z.of_nat k →
  str_leb (be_string k m) (be_string k n) = true ↔ m ≤ n.
Proof.
  intros Hm Hn. pose proof (be_string_order k m n "" "" Hm Hn) as H.
  rewrite !str_app_nil_r in H. rewrite H. simpl. intuition lia.
Qed.

Lemma be_string_inj k m n :
  0 ≤ m < 256 ^ Z.of_nat k → 0 ≤ n < 256 ^ Z.of_nat k →
  be_string k m = be_string k n → m = n.
Proof.
  intros Hm Hn Heq.
  pose proof (proj1 (be_string_leb k m n Hm Hn)) as H1. pose proof (proj1 (be_string_leb k n m Hn Hm)) as H2.
  rewrite Heq in H1, H2. assert (str_leb (be_string k n) (be_string k n) = true).
  { destruct (str_leb_total (be_string k n) (be_string k n)); done. }
  specialize (H1 ltac:(done)). specialize (H2 ltac:(done)). lia.
Qed.

Lemma be_string_length k n : String.length (be_string k n) = k.
Proof. revert n. induction k as [|k IH]; intros n; simpl; [done|]. rewrite str_app_length, IH. simpl. lia. Qed.

(** ** Sorting by a number, stable *)

Section SortBy.
Context {A : Type} (key : A → Z).

Fixpoint insert_by (x : A) (l : list A) : list A :=
  match l with
  | [] => [x]
  | y :: l' => if key x <? key y then x :: l else y :: insert_by x l'
  end.

(** [sort_by_key]. *)
Definition sort_by (l : list A) : list A := foldl (λ sorted x, insert_by x sorted) [] l.

Lemma insert_by_perm x l : insert_by x l ≡ₚ x :: l.
Proof.
  induction l as [|y l IH]; simpl; [done|]. destruct (_ <? _); [done|]. rewrite IH. by rewrite Permutation_swap.
Qed.

Lemma sort_by_perm l : sort_by l ≡ₚ l.
Proof.
  unfold sort_by. cut (∀ acc, foldl (λ sorted x, insert_by x sorted) acc l ≡ₚ l ++ acc).
  { intros H. rewrite H. by rewrite app_nil_r. }
  induction l as [|x l IH]; intros acc; simpl; [done|]. rewrite IH, insert_by_perm.
  by rewrite Permutation_middle.
Qed.

Lemma insert_by_sorted x l :
  StronglySorted (λ a b, key a ≤ key b) l → StronglySorted (λ a b, key a ≤ key b) (insert_by x l).
Proof.
  induction 1 as [|y l Hs IH Hy]; simpl; [repeat constructor|].
  destruct (Z.ltb_spec (key x) (key y)).
  - constructor; [by constructor|]. constructor; [lia|]. eapply Forall_impl; [exact Hy|]. simpl. lia.
  - constructor; [done|]. rewrite Forall_forall in *. intros z. rewrite insert_by_perm.
    intros [->|Hz]%elem_of_cons; [done|auto].
Qed.

Lemma sort_by_sorted l : StronglySorted (λ a b, key a ≤ key b) (sort_by l).
Proof.
  unfold sort_by. cut (∀ acc, StronglySorted (λ a b, key a ≤ key b) acc →
    StronglySorted (λ a b, key a ≤ key b) (foldl (λ sorted x, insert_by x sorted) acc l)).
  { intros H. apply H. constructor. }
  induction l as [|x l IH]; intros acc Ha; simpl; [done|]. by apply IH, insert_by_sorted.
Qed.
End SortBy.

(** ** [BTreeSet<String>] *)

Definition str_order (a b : string) : Prop := Is_true (str_leb a b).

#[global] Instance str_order_dec : RelDecision str_order.
Proof. intros a b. unfold str_order. apply _. Defined.

(** The elements of a list, each once, in order. *)
Definition btree_set (l : list string) : list string :=
  merge_sort str_order (elements (list_to_set l : gset string)).

Lemma elem_of_btree_set l x : x ∈ btree_set l ↔ x ∈ l.
Proof.
  unfold btree_set. rewrite (merge_sort_Permutation str_order), elem_of_elements.
  by rewrite elem_of_list_to_set.
Qed.

Lemma btree_set_NoDup l : NoDup (btree_set l).
Proof. unfold btree_set. rewrite (merge_sort_Permutation str_order). apply NoDup_elements. Qed.

(** ** More on separators *)

Lemma no_char_prefix sep a b x y :
  str_contains_char sep a = false → str_contains_char sep b = false →
  a +:+ String sep x = b +:+ String sep y → a = b ∧ x = y.
Proof.
  revert b. induction a as [|c a IH]; intros [|d b]; simpl; intros Ha Hb He.
  - by injection He as ->.
  - injection He as <- _. by rewrite Ascii.eqb_refl in Hb.
  - injection He as -> _. by rewrite Ascii.eqb_refl in Ha.
  - injection He as -> He. apply orb_false_iff in Ha as [_ Ha], Hb as [_ Hb].
    by destruct (IH b Ha Hb He) as [-> ->].
Qed.

Lemma starts_with_drop p k :
  starts_with k p = true ↔ k = p +:+ str_drop (String.length p) k.
Proof.
  rewrite starts_with_iff. split; [intros [t ->]; by rewrite str_drop_app|eauto].
Qed.

Lemma elem_of_sorted_cf cf k v : (k, v) ∈ sorted_cf cf ↔ cf !! k = Some v.
Proof. rewrite sorted_cf_perm. apply elem_of_map_to_list. Qed.

Lemma sorted_cf_sorted cf : StronglySorted str_le (sorted_cf cf).
Proof. apply (StronglySorted_merge_sort str_le). Qed.

Lemma elem_of_filter_cf cf p k v :
  (k, v) ∈ List.filter p (sorted_cf cf) ↔ cf !! k = Some v ∧ p (k, v) = true.
Proof. by rewrite list_elem_of_In, filter_In, <- list_elem_of_In, elem_of_sorted_cf. Qed.

(** The items of an iterator up to the first that fails a test. *)
Fixpoint take_while {A} (p : A → bool) (l : list A) : list A :=
  match l with
  | [] => []
  | x :: l' => if p x then x :: take_while p l' else []
  end.

Lemma take_while_filter {A} (R : relation A) (p : A → bool) l :
  StronglySorted R l → (∀ a b, a ∈ l → b ∈ l → R a b → p b = true → p a = true) →
  take_while p l = List.filter p l.
Proof.
  intros Hs. induction Hs as [|x l Hs IH Hx]; intros Hp; [done|]. simpl.
  rewrite Forall_forall in Hx.
  assert (IH' : take_while p l = List.filter p l).
  { apply IH. intros a b Ha Hb. apply Hp; by right. }
  destruct (p x) eqn:Epx; [by rewrite IH'|]. symmetry.
  destruct (List.filter p l) as [|y k] eqn:Ef; [done|].
  assert (Hy : List.In y (List.filter p l)) by (rewrite Ef; by left).
  apply filter_In in Hy as [Hy%list_elem_of_In Hpy].
  by rewrite (Hp x y) in Epx; [|left|right|apply Hx|].
Qed.

(** The deletes of a batch. *)
Definition delete_keys (ks : list string) (cf : gmap string string) : gmap string string :=
  foldl (λ m k, delete k m) cf ks.

Lemma delete_keys_Some ks cf k d :
  delete_keys ks cf !! k = Some d ↔ cf !! k = Some d ∧ k ∉ ks.
Proof.
  unfold delete_keys. revert cf. induction ks as [|k' ks IH]; intros cf; simpl; [set_solver|].
  rewrite IH, lookup_delete_Some, not_elem_of_cons. naive_solver.
Qed.

(** * An index whose values are encoded lists

    Stores that keep, under each key, the encoding of a list of events, and the
    deletes and replacements that take some of the events out.  [view] is what of an
    event survives the encoding. *)

From Stdlib Require Import Lia.
From stdpp Require Import base numbers option strings gmap list.

(** [.unwrap_or_default()]. *)
Definition ok_or_empty {Err A} (r : result Err (list A)) : list A :=
  match r with Ok l => l | _ => [] end.

(** A batch of puts and deletes of one column family. *)
Definition apply_changes (ch : gmap string (option string)) (cf : gmap string string)
    : gmap string string :=
  merge (λ c v, match c with Some v' => v' | None => v end) ch cf.

Lemma apply_changes_lookup ch cf k :
  apply_changes ch cf !! k = match ch !! k with Some v => v | None => cf !! k end.
Proof. unfold apply_changes. rewrite lookup_merge. by destruct (ch !! k), (cf !! k). Qed.

Section ListIndex.
Context {E X Err : Type} (decode : string → result Err (list E)) (view : E → X).

(** The list under a key. *)
Definition list_at (cf : gmap string string) (k : string) : list E :=
  match cf !! k with
  | Some d => ok_or_empty (decode d)
  | None => []
  end.

(** Every value can be read and is a list with an element. *)
Definition decodes (cf : gmap string string) : Prop :=
  ∀ k d, cf !! k = Some d → ∃ es, decode d = Ok es ∧ es ≠ [].

Definition index_list (cf : gmap string string) : list (string * list E) :=
  (λ kv, (kv.1, list_at cf kv.1)) <$> sorted_cf cf.

Lemma index_list_NoDup cf : NoDup (index_list cf).*1.
Proof.
  unfold index_list. rewrite <- list_fmap_compose.
  rewrite (list_fmap_ext _ fst) by done. rewrite sorted_cf_perm. apply NoDup_fst_map_to_list.
Qed.

Lemma elem_of_index_list cf k es :
  (k, es) ∈ index_list cf ↔ is_Some (cf !! k) ∧ es = list_at cf k.
Proof.
  unfold index_list. rewrite list_elem_of_fmap. split.
  - intros ([k' d] & [= -> ->] & Hd%elem_of_sorted_cf). by rewrite Hd.
  - intros [[d Hd] ->]. exists (k, d). split; [done|]. by apply elem_of_sorted_cf.
Qed.

(** ** Taking events out *)

Context (p : E → bool).

Definition kept : list E → list E := List.filter (λ e, negb (p e)).
Definition removed : list E → list E := List.filter p.

(** What happens to a value: left alone, deleted or replaced. *)
Definition value_change (es : list E) (c : option (option string)) : Prop :=
  match removed es, kept es with
  | [], _ => c = None
  | _, [] => c = Some None
  | _, es' => ∃ d es'', c = Some (Some d) ∧ decode d = Ok es'' ∧ view <$> es'' = view <$> es'
  end.

(** The changes for the part of an index that was visited, and how many events go. *)
Record taken_out (l : list (string * list E)) (ch : gmap string (option string)) (n : nat) : Prop := {
  taken_changes k es : (k, es) ∈ l → value_change es (ch !! k);
  taken_others k : k ∉ l.*1 → ch !! k = None;
  taken_count : n = sum_list_with (λ kv, length (removed kv.2)) l;
}.

Lemma taken_out_nil : taken_out [] ∅ 0.
Proof. split; [by intros ? ? ?%not_elem_of_nil|done|done]. Qed.

(** One more value: unchanged, or with its change entered. *)
Lemma taken_out_same l ch n k es :
  taken_out l ch n → k ∉ l.*1 → removed es = [] → taken_out (l ++ [(k, es)]) ch n.
Proof.
  intros [Hch Hot Hn] Hk Hr. split.
  - intros k' es' [Hin|[= -> ->]%list_elem_of_singleton]%elem_of_app; [by apply Hch|].
    unfold value_change. rewrite Hr. by apply Hot.
  - intros k' Hk'. apply Hot. rewrite fmap_app in Hk'. set_solver.
  - rewrite sum_list_with_app, <- Hn. simpl. rewrite Hr. simpl. lia.
Qed.

Lemma taken_out_change l ch n k es c :
  taken_out l ch n → k ∉ l.*1 → value_change es (Some c) →
  taken_out (l ++ [(k, es)]) (<[k := c]> ch) (n + length (removed es)).
Proof.
  intros [Hch Hot Hn] Hk Hc. split.
  - intros k' es' [Hin|[= -> ->]%list_elem_of_singleton]%elem_of_app.
    + rewrite lookup_insert_ne; [by apply Hch|]. intros <-. apply Hk, list_elem_of_fmap.
      by exists (k, es').
    + by rewrite lookup_insert_eq.
  - intros k' Hk'. rewrite fmap_app in Hk'. rewrite lookup_insert_ne by set_solver.
    apply Hot. set_solver.
  - rewrite sum_list_with_app, <- Hn. simpl. lia.
Qed.

Lemma removed_kept es : removed es = [] → kept es = es.
Proof.
  unfold removed, kept. induction es as [|e es IH]; simpl; [done|].
  destruct (p e); simpl; [done|]. intros Hes. by rewrite IH.
Qed.

(** The index afterwards. *)
Lemma taken_out_lists cf ch n k :
  taken_out (index_list cf) ch n →
  view <$> list_at (apply_changes ch cf) k = view <$> kept (list_at cf k).
Proof.
  intros [Hch Hot _]. unfold list_at at 1. rewrite apply_changes_lookup.
  destruct (decide (is_Some (cf !! k))) as [Hk|Hk].
  - specialize (Hch k (list_at cf k)). rewrite elem_of_index_list in Hch.
    specialize (Hch (conj Hk eq_refl)). unfold value_change in Hch.
    destruct (removed (list_at cf k)) as [|e rem] eqn:Er.
    + rewrite Hch. by rewrite (removed_kept (list_at cf k)).
    + destruct (kept (list_at cf k)) as [|e' ks]; [by rewrite Hch|].
      destruct Hch as (d & es'' & -> & Hdec & Hp). by rewrite Hdec.
  - rewrite Hot.
    + apply eq_None_not_Some in Hk. unfold list_at. by rewrite Hk.
    + intros ([k' es] & -> & Hin)%list_elem_of_fmap. by apply elem_of_index_list in Hin as [? _].
Qed.

Lemma taken_out_decodes cf ch n :
  decodes cf → taken_out (index_list cf) ch n → decodes (apply_changes ch cf).
Proof.
  intros Hok [Hch Hot _] k d. rewrite apply_changes_lookup.
  destruct (ch !! k) as [c|] eqn:Ec; [|apply Hok].
  destruct (decide (k ∈ (index_list cf).*1)) as [([k' es] & -> & Hin)%list_elem_of_fmap|Hk].
  - specialize (Hch _ _ Hin). simpl in Ec. rewrite Ec in Hch. unfold value_change in Hch.
    destruct (removed es), (kept es) as [|e' ks]; try done; [congruence|].
    destruct Hch as (d' & es'' & [= ->] & Hdec & Hp). intros [= <-]. exists es''.
    split; [done|]. by intros ->.
  - by rewrite Hot in Ec.
Qed.

(** When [p] only looks at what survives, nothing it holds for is left. *)
Lemma kept_of_view es es' :
  (∀ e e', view e = view e' → p e = p e') → view <$> es' = view <$> kept es → removed es' = [].
Proof.
  intros Hp. unfold removed, kept. revert es'. induction es as [|e es IH]; intros es'; simpl.
  - by intros ->%fmap_nil_inv.
  - destruct (p e) eqn:Ee; simpl; [apply IH|].
    destruct es' as [|e' es']; [done|]. simpl. intros [= He Hes].
    rewrite (Hp e' e) by done. rewrite Ee. by apply IH.
Qed.

(** The number of events to take out. *)
Definition count_in (cf : gmap string string) : nat :=
  sum_list_with (λ kv, length (removed kv.2)) (index_list cf).

Lemma count_in_zero cf : (∀ k, removed (list_at cf k) = []) → count_in cf = 0.
Proof.
  intros Hk. unfold count_in.
  assert (Forall (λ kv : string * list E, removed kv.2 = []) (index_list cf)) as Hl.
  { apply Forall_forall. intros [k es] Hin. apply elem_of_index_list in Hin as [_ ->]. apply Hk. }
  induction Hl as [|[k es] l Hes Hl IH]; [done|]. simpl in *. by rewrite Hes, IH.
Qed.
End ListIndex.

(** * The versioned envelope of stored data

    Models [storage/serialization_version.rs] of the coordinator. *)

From Stdlib Require Import ZArith.
From stdpp Require Import base numbers option.

Local Open Scope Z_scope.

Inductive SerializationVersion : Type := V1.

#[global] Instance SerializationVersion_eq_dec : EqDecision SerializationVersion.
Proof. solve_decision. Defined.

Definition as_u16 (v : SerializationVersion) : Z := match v with V1 => 1 end.

Definition from_u16 (n : Z) : option SerializationVersion := if n =? 1 then Some V1 else None.

Definition CURRENT_SERIALIZATION_VERSION : SerializationVersion := V1.

Definition is_compatible_with_current (v : SerializationVersion) : bool :=
  as_u16 v <=? as_u16 CURRENT_SERIALIZATION_VERSION.

Record VersionedData (A : Type) : Type := { version : SerializationVersion; data : A }.
Arguments version {A}.
Arguments data {A}.

Definition wrap {A} (x : A) : VersionedData A :=
  {| version := CURRENT_SERIALIZATION_VERSION; data := x |}.

Definition unwrap_current {A} (v : VersionedData A) : result SerializationVersion A :=
  if is_compatible_with_current (version v) then Ok (data v) else Err (version v).

Lemma from_as_u16 v : from_u16 (as_u16 v) = Some v.
Proof. by destruct v. Qed.

(** Every version there is can be read. *)
Lemma unwrap_current_Ok {A} (v : VersionedData A) : unwrap_current v = Ok (data v).
Proof. by destruct v as [[] d]. Qed.
