(* ===== verification/BatchStore.v ===== *)
(** * The store of batch jobs

    Models [workflows/storage/batch_job_store.rs]: jobs in a RocksDB column family
    with a cache in front and two secondary indexes, by user and by status, whose
    keys carry the time of creation.  The JSON encoding of a job and which
    operations of the database fail are parameters; a batch of writes is applied
    as a whole or not at all. *)

From Stdlib Require Import ZArith Lia Ascii.
From stdpp Require Import base numbers option strings gmap list sorting.
From S2P Require Import Prelude RustStd Effects KvScan BatchJobs.

Local Open Scope Z_scope.

(** ** Keys *)

(** [k] decimal digits of a number. *)
Fixpoint digits (k : nat) (n : Z) : string :=
  match k with
  | O => EmptyString
  | S k' => digits k' (n / 10) +:+ String (ascii_of_nat (Z.to_nat (48 + n mod 10))) EmptyString
  end.

(** [{:020}] of a 64-bit integer: the sign is part of the width. *)
Definition pad20 (n : Z) : string :=
  if n <? 0 then String "-" (digits 19 (- n)) else digits 20 n.

(** [{:?}] of a status. *)
Definition status_debug (st : BatchJobStatus) : string :=
  match st with
  | JobPending => "Pending"
  | JobValidating => "Validating"
  | JobRunning => "Running"
  | JobPaused => "Paused"
  | JobCompleted => "Completed"
  | JobPartiallyCompleted => "PartiallyCompleted"
  | JobFailed => "Failed"
  | JobCancelled => "Cancelled"
  end.

Definition index_key (name : string) (j : BatchJob) : string :=
  name +:+ ":" +:+ pad20 (job_created_at j) +:+ ":" +:+ job_id j.

Definition user_key (j : BatchJob) : string := index_key (created_by j) j.
Definition status_key (j : BatchJob) : string := index_key (status_debug (job_status j)) j.

(** ** The store *)

Class JobDb : Type := {
  job_to_json : BatchJob → string;
  job_of_json : string → option BatchJob;
  (** whether the operation of this number succeeds *)
  db_ok : nat → bool;
}.

(** What the indexes depend on. *)
Definition key_of (j : BatchJob) : string * BatchJobStatus * Z * string :=
  (job_id j, job_status j, job_created_at j, created_by j).

(** Strings, enums and dates survive the encoding (a float may lose a digit). *)
Class JobDbOk `{JobDb} : Prop := {
  job_json_key j : ∃ j', job_of_json (job_to_json j) = Some j' ∧ key_of j' = key_of j;
}.

Record BatchJobStore : Type := {
  cf_jobs : gmap string string;
  cf_by_user : gmap string string;
  cf_by_status : gmap string string;
  cache : gmap string BatchJob;
  db_ops : nat;
}.

Definition new_store : BatchJobStore :=
  {| cf_jobs := ∅; cf_by_user := ∅; cf_by_status := ∅; cache := ∅; db_ops := 0 |}.

(** [open] on the database an earlier process left. *)
Definition reopen (s : BatchJobStore) : BatchJobStore :=
  {| cf_jobs := cf_jobs s; cf_by_user := cf_by_user s; cf_by_status := cf_by_status s;
     cache := ∅; db_ops := db_ops s |}.

(** An iterator from the prefix on, until a key has another one. *)
Definition scan_prefix (p : string) (cf : gmap string string) : list string :=
  snd <$> List.filter (λ kv, starts_with kv.1 p) (sorted_cf cf).

(** [skip] and [take] with the numbers of a [usize]. *)
Definition skip_usize {A} (n : Z) (l : list A) : list A :=
  drop (Z.to_nat (Z.min n (Z.of_nat (length l)))) l.
Definition take_usize {A} (n : Z) (l : list A) : list A :=
  take (Z.to_nat (Z.min n (Z.of_nat (length l)))) l.

(** [sort_by(|a, b| b.created_at.cmp(&a.created_at))], which is stable. *)
Fixpoint insert_newest (j : BatchJob) (l : list BatchJob) : list BatchJob :=
  match l with
  | [] => [j]
  | x :: l' => if job_created_at x <? job_created_at j then j :: l else x :: insert_newest j l'
  end.

Definition newest_first (l : list BatchJob) : list BatchJob :=
  foldl (λ sorted j, insert_newest j sorted) [] l.

Section Operations.
Context `{JobDb}.

Abbreviation StoreM := (method BatchJobStore BatchError).

Definition set_cache (f : gmap string BatchJob → gmap string BatchJob) (s : BatchJobStore)
    : BatchJobStore :=
  {| cf_jobs := cf_jobs s; cf_by_user := cf_by_user s; cf_by_status := cf_by_status s;
     cache := f (cache s); db_ops := db_ops s |}.

(** Changes of the three column families. *)
Definition write_batch (fj fu fs : gmap string string → gmap string string) (s : BatchJobStore)
    : BatchJobStore :=
  {| cf_jobs := fj (cf_jobs s); cf_by_user := fu (cf_by_user s);
     cf_by_status := fs (cf_by_status s); cache := cache s; db_ops := db_ops s |}.

(** An operation of the database. *)
Definition db_io : StoreM unit := λ s,
  ({| cf_jobs := cf_jobs s; cf_by_user := cf_by_user s; cf_by_status := cf_by_status s;
      cache := cache s; db_ops := S (db_ops s) |},
   if db_ok (db_ops s) then Ok tt else Err StoreFailed).

Definition create (j : BatchJob) : StoreM unit :=
  _ ← db_io;
  _ ← modify (write_batch <[job_id j := job_to_json j]> <[user_key j := job_id j]>
                <[status_key j := job_id j]>);
  modify (set_cache <[job_id j := j]>).

Definition get (id : string) : StoreM (option BatchJob) :=
  cached ← gets (λ s, cache s !! id);
  match cached with
  | Some j => mret (Some j)
  | None =>
      _ ← db_io;
      stored ← gets (λ s, cf_jobs s !! id);
      match stored with
      | None => mret None
      | Some json =>
          j ← lift (ok_or (job_of_json json) StoreFailed);
          _ ← modify (set_cache <[id := j]>);
          mret (Some j)
      end
  end.

(** The changes of the status index by an update. *)
Definition reindex (old : option BatchJob) (j : BatchJob) (cf : gmap string string)
    : gmap string string :=
  match old with
  | Some o =>
      if decide (job_status o = job_status j) then cf
      else <[index_key (status_debug (job_status j)) j := job_id j]>
             (delete (status_debug (job_status o) +:+ ":" +:+ pad20 (job_created_at o) +:+ ":"
                        +:+ job_id j) cf)
  | None => cf
  end.

Definition update (j : BatchJob) : StoreM unit :=
  old ← get (job_id j);
  _ ← db_io;
  _ ← modify (write_batch <[job_id j := job_to_json j]> id (reindex old j));
  modify (set_cache <[job_id j := j]>).

Definition delete_job (id : string) : StoreM bool :=
  found ← get id;
  match found with
  | None => mret false
  | Some j =>
      let key name := name +:+ ":" +:+ pad20 (job_created_at j) +:+ ":" +:+ id in
      _ ← db_io;
      _ ← modify (write_batch (delete id) (delete (key (created_by j)))
                    (delete (key (status_debug (job_status j)))));
      _ ← modify (set_cache (delete id));
      mret true
  end.

(** The loop over identifiers: those without a job are skipped. *)
Definition fetch (ids : list string) : StoreM (list BatchJob) :=
  found ← method_mapM get ids;
  mret (omap id found).

Definition list_by_user (user : string) (limit offset : Z) : StoreM (list BatchJob) :=
  _ ← db_io;
  ids ← gets (λ s, scan_prefix (user +:+ ":") (cf_by_user s));
  jobs ← fetch (take_usize limit (skip_usize offset ids));
  mret (newest_first jobs).

(** The loop stops when it has pushed [limit] identifiers, so after one at least. *)
Definition list_by_status (st : BatchJobStatus) (limit : Z) : StoreM (list BatchJob) :=
  _ ← db_io;
  ids ← gets (λ s, scan_prefix (status_debug st +:+ ":") (cf_by_status s));
  fetch (take_usize (Z.max 1 limit) ids).

Definition list_all (limit : Z) : StoreM (list BatchJob) :=
  _ ← db_io;
  jsons ← gets (λ s, take_usize (Z.max 1 limit) (snd <$> sorted_cf (cf_jobs s)));
  jobs ← lift (result_mapM (λ json, ok_or (job_of_json json) StoreFailed) jsons);
  mret (newest_first jobs).

Definition count_by_status (st : BatchJobStatus) : StoreM nat :=
  _ ← db_io;
  gets (λ s, length (scan_prefix (status_debug st +:+ ":") (cf_by_status s))).

Definition all_statuses : list BatchJobStatus :=
  [JobPending; JobValidating; JobRunning; JobPaused; JobCompleted; JobPartiallyCompleted;
   JobFailed; JobCancelled].

Record BatchJobStoreStats : Type := {
  total_jobs : nat;
  by_status : list (BatchJobStatus * nat);
  cache_size : nat;
}.

Definition get_stats : StoreM BatchJobStoreStats :=
  jobs ← list_all (2 ^ 64 - 1);
  counts ← method_mapM (λ st, n ← count_by_status st; mret (st, n)) all_statuses;
  size ← gets (λ s, size (cache s));
  mret {| total_jobs := length jobs; by_status := counts; cache_size := size |}.

(** One write per column family. *)
Definition clear_all : StoreM unit :=
  _ ← db_io; _ ← modify (write_batch (λ _, ∅) id id);
  _ ← db_io; _ ← modify (write_batch id (λ _, ∅) id);
  _ ← db_io; _ ← modify (write_batch id id (λ _, ∅));
  modify (set_cache (λ _, ∅)).
End Operations.

(** * Facts on the store of batch jobs

    The cache and both indexes agree with the stored jobs, whatever operations of
    the database fail, but for the jobs that an update put in while the store had none
    of their identifier: these are in no index.  So the list of a status is the list of
    the other jobs that have it, oldest first. *)

Local Open Scope Z_scope.

(** ** Keys *)

(** Times from 1970 on have twenty digits. *)
Definition valid_time (t : Z) : Prop := 0 ≤ t < 10 ^ 20.

Definition plain_id (id : string) : Prop := str_contains_char ":" id = false.

Lemma index_key_id n1 n2 j1 j2 :
  plain_id (job_id j1) → plain_id (job_id j2) →
  index_key n1 j1 = index_key n2 j2 → job_id j1 = job_id j2.
Proof.
  unfold index_key. intros H1 H2 He.
  apply (no_char_suffix ":" (n1 +:+ ":" +:+ pad20 (job_created_at j1))
    (n2 +:+ ":" +:+ pad20 (job_created_at j2)) _ _ H1 H2).
  by rewrite !str_app_assoc in *.
Qed.

Lemma key_of_keys j j' :
  key_of j = key_of j' →
  job_id j = job_id j' ∧ job_status j = job_status j' ∧ status_key j = status_key j' ∧
  user_key j = user_key j' ∧ job_created_at j = job_created_at j'.
Proof.
  unfold key_of, status_key, user_key, index_key. intros [= -> -> -> ->]. done.
Qed.

(** The prefix of a status selects its keys. *)
Lemma status_key_prefix st j :
  starts_with (status_key j) (status_debug st +:+ ":") = bool_decide (job_status j = st).
Proof.
  unfold status_key, index_key, starts_with.
  generalize (pad20 (job_created_at j) +:+ ":" +:+ job_id j). intros rest.
  destruct (job_status j), st, rest; reflexivity.
Qed.

(** ** The order of keys *)

Lemma digit_ascii n : nat_of_ascii (ascii_of_nat (Z.to_nat (48 + n mod 10))) = Z.to_nat (48 + n mod 10).
Proof. apply nat_ascii_embedding. pose proof (Z.mod_pos_bound n 10). lia. Qed.

(** Numbers of as many digits are in the order of their digits. *)
Lemma digits_order k m n r r' :
  0 ≤ m < 10 ^ Z.of_nat k → 0 ≤ n < 10 ^ Z.of_nat k →
  str_leb (digits k m +:+ r) (digits k n +:+ r') = true → m < n ∨ m = n ∧ str_leb r r' = true.
Proof.
  revert m n r r'. induction k as [|k IH]; intros m n r r' Hm Hn.
  { change (10 ^ Z.of_nat 0) with 1 in *. intros Hle. right. split; [lia|exact Hle]. }
  rewrite Nat2Z.inj_succ, Z.pow_succ_r in Hm, Hn by lia. simpl. rewrite !str_app_assoc.
  intros [?|[Hq Hle]]%IH; [left|..].
  - pose proof (Z.div_mod m 10). pose proof (Z.div_mod n 10).
    pose proof (Z.mod_pos_bound m 10). pose proof (Z.mod_pos_bound n 10). lia.
  - pose proof (Z.div_mod m 10). pose proof (Z.div_mod n 10).
    pose proof (Z.mod_pos_bound m 10). pose proof (Z.mod_pos_bound n 10).
    change (str_leb (String (ascii_of_nat (Z.to_nat (48 + m mod 10))) r)
      (String (ascii_of_nat (Z.to_nat (48 + n mod 10))) r') = true) in Hle.
    simpl in Hle. rewrite !digit_ascii, orb_true_iff, andb_true_iff, Nat.ltb_lt, Nat.eqb_eq in Hle.
    destruct Hle as [?|[? ?]]; [left; lia|right; split; [lia|done]].
  - split; [apply Z.div_pos; lia|apply Z.div_lt_upper_bound; lia].
  - split; [apply Z.div_pos; lia|apply Z.div_lt_upper_bound; lia].
Qed.

Lemma status_key_order j j' :
  job_status j = job_status j' → valid_time (job_created_at j) → valid_time (job_created_at j') →
  str_leb (status_key j) (status_key j') = true → job_created_at j ≤ job_created_at j'.
Proof.
  unfold status_key, index_key, valid_time. intros -> Hj Hj'. rewrite !str_leb_app.
  unfold pad20. destruct (Z.ltb_spec (job_created_at j) 0); [lia|].
  destruct (Z.ltb_spec (job_created_at j') 0); [lia|].
  intros Hle. apply (digits_order 20) in Hle; [lia|exact Hj|exact Hj'].
Qed.

(** ** The invariant *)

Section Invariant.
Context `{JobDb, !JobDbOk}.
Implicit Types s : BatchJobStore.

(** The jobs the database holds. *)
Definition stored s : gmap string BatchJob := omap job_of_json (cf_jobs s).

(** An index has the key of every job and nothing else. *)
Definition index_ok (key : BatchJob → string) (cf : gmap string string)
    (jobs : gmap string BatchJob) : Prop :=
  ∀ k i, cf !! k = Some i ↔ ∃ j, jobs !! i = Some j ∧ key j = k.

(** The jobs outside a set of identifiers. *)
Definition listed (unlisted : gset string) (jobs : gmap string BatchJob) : gmap string BatchJob :=
  filter (λ e, e.1 ∉ unlisted) jobs.

(** [U] and [O] are the identifiers that the index by user and the one by status leave out. *)
Record indexed (U O : gset string) s : Prop := {
  json_ok : ∀ i b, cf_jobs s !! i = Some b → is_Some (job_of_json b);
  ids_ok : ∀ i j, stored s !! i = Some j → job_id j = i ∧ plain_id i;
  times_ok : ∀ i j, stored s !! i = Some j → valid_time (job_created_at j);
  cache_ok : ∀ i j, cache s !! i = Some j → key_of <$> stored s !! i = Some (key_of j);
  status_ok : index_ok status_key (cf_by_status s) (listed O (stored s));
  user_ok : index_ok user_key (cf_by_user s) (listed U (stored s));
}.

Lemma indexed_empty s :
  cf_jobs s = ∅ → cf_by_user s = ∅ → cf_by_status s = ∅ → cache s = ∅ → indexed ∅ ∅ s.
Proof.
  intros Hj Hu Ht Hc. assert (stored s = ∅) as Hs by (unfold stored; rewrite Hj; apply omap_empty).
  split; unfold listed; rewrite ?Hs, ?Hj, ?Hu, ?Ht, ?Hc, ?map_filter_empty;
    try by intros ?? []%lookup_empty_Some.
  all: intros k i; rewrite !lookup_empty; naive_solver.
Qed.

Lemma listed_lookup X jobs i j : listed X jobs !! i = Some j ↔ jobs !! i = Some j ∧ i ∉ X.
Proof. apply map_lookup_filter_Some. Qed.

Lemma listed_none X (jobs : gmap string BatchJob) i : i ∈ X → listed X jobs !! i = None.
Proof. intros Hi. apply eq_None_not_Some. by intros [j [_ ?]%listed_lookup]. Qed.

Lemma listed_put X jobs i j : listed (X ∖ {[i]}) (<[i := j]> jobs) = <[i := j]> (listed X jobs).
Proof.
  apply map_eq. intros k. apply option_eq. intros x.
  rewrite listed_lookup, !lookup_insert_Some, listed_lookup. destruct (decide (i = k)); set_solver.
Qed.

Lemma listed_insert_out X jobs i j : i ∉ X → listed X (<[i := j]> jobs) = <[i := j]> (listed X jobs).
Proof. intros Hi. rewrite <- listed_put. f_equal. set_solver. Qed.

Lemma listed_hide X jobs i j :
  i ∈ X ∨ jobs !! i = None → listed ({[i]} ∪ X) (<[i := j]> jobs) = listed X jobs.
Proof.
  intros Hi. apply map_eq. intros k. apply option_eq. intros x.
  rewrite !listed_lookup, lookup_insert_Some. destruct (decide (i = k)) as [->|]; [|set_solver].
  destruct Hi; [set_solver|naive_solver set_solver].
Qed.

Lemma listed_delete X jobs i : listed (X ∖ {[i]}) (delete i jobs) = delete i (listed X jobs).
Proof.
  apply map_eq. intros k. apply option_eq. intros x.
  rewrite lookup_delete_Some, !listed_lookup, lookup_delete_Some. set_solver.
Qed.

Lemma stored_insert i j (m : gmap string string) :
  ∃ j', omap job_of_json (<[i := job_to_json j]> m) = <[i := j']> (omap job_of_json m) ∧
        key_of j' = key_of j.
Proof.
  destruct (job_json_key j) as (j' & Hj & Hk). exists j'. split; [|done].
  by erewrite <- omap_insert_Some by done.
Qed.

(** Keys determine the job. *)
Definition key_inj (key : BatchJob → string) : Prop :=
  ∀ j j', plain_id (job_id j) → plain_id (job_id j') → key j = key j' → job_id j = job_id j'.

Lemma status_key_inj : key_inj status_key.
Proof. intros j j'. apply index_key_id. Qed.

Lemma user_key_inj : key_inj user_key.
Proof. intros j j'. apply index_key_id. Qed.

Definition plain_ids (jobs : gmap string BatchJob) : Prop :=
  ∀ i j, jobs !! i = Some j → job_id j = i ∧ plain_id i.

Lemma index_ok_insert key cf jobs j i :
  key_inj key → plain_ids jobs → plain_id i → job_id j = i → jobs !! i = None →
  index_ok key cf jobs → index_ok key (<[key j := i]> cf) (<[i := j]> jobs).
Proof.
  unfold index_ok. intros Hkey Hids Hp Hi Hn Hok k i'. destruct (decide (k = key j)) as [->|Hk].
  - rewrite lookup_insert_eq. split.
    + intros [= <-]. exists j. by rewrite lookup_insert_eq.
    + intros (j' & Hj' & He). destruct (decide (i' = i)) as [->|Hne]; [done|].
      rewrite lookup_insert_ne in Hj' by done. destruct (Hids _ _ Hj') as [<- ?].
      destruct Hne. rewrite <- Hi. apply Hkey; [done|by rewrite Hi|done].
  - rewrite lookup_insert_ne, Hok by done. destruct (decide (i' = i)) as [->|Hne].
    + rewrite lookup_insert_eq. naive_solver congruence.
    + by rewrite lookup_insert_ne.
Qed.

Lemma index_ok_delete key cf jobs j i :
  key_inj key → plain_ids jobs → jobs !! i = Some j →
  index_ok key cf jobs → index_ok key (delete (key j) cf) (delete i jobs).
Proof.
  unfold index_ok. intros Hkey Hids Hj Hok k i'. rewrite lookup_delete_Some, Hok.
  setoid_rewrite lookup_delete_Some. destruct (Hids _ _ Hj) as [Hi Hp]. split.
  - intros (Hk & j' & Hj' & <-). exists j'. split_and!; [|done..]. intros <-. naive_solver.
  - intros (j' & (Hne & Hj') & <-). split; [|eauto]. intros He.
    destruct (Hids _ _ Hj') as [Hi' Hp']. destruct Hne. rewrite <- Hi, <- Hi'.
    apply Hkey; congruence.
Qed.

Lemma index_ok_same key cf jobs j j' i :
  jobs !! i = Some j → key j' = key j → index_ok key cf jobs → index_ok key cf (<[i := j']> jobs).
Proof.
  unfold index_ok. intros Hj Hk Hok k i'. rewrite Hok. destruct (decide (i' = i)) as [->|Hne].
  - rewrite lookup_insert_eq. naive_solver congruence.
  - by rewrite lookup_insert_ne.
Qed.

(** A job put in under its key, which a job there before has too. *)
Lemma index_ok_put key cf jobs j i :
  key_inj key → plain_ids jobs → plain_id i → job_id j = i →
  (∀ o, jobs !! i = Some o → key o = key j) →
  index_ok key cf jobs → index_ok key (<[key j := i]> cf) (<[i := j]> jobs).
Proof.
  intros Hkey Hids Hp Hi Ho Hok. destruct (jobs !! i) as [o|] eqn:Hj; [|by apply index_ok_insert].
  rewrite insert_id; [|apply Hok; eauto]. eapply index_ok_same; [done| |done]. symmetry. by apply Ho.
Qed.

Lemma plain_ids_listed X jobs : plain_ids jobs → plain_ids (listed X jobs).
Proof. intros Hids i j [? _]%listed_lookup. by apply Hids. Qed.

(** A job that is not there leaves no key behind. *)
Lemma index_ok_absent key cf jobs j i :
  key_inj key → plain_ids jobs → plain_id i → job_id j = i → jobs !! i = None →
  index_ok key cf jobs → delete (key j) cf = cf.
Proof.
  intros Hkey Hids Hp Hi Hn Hok. apply delete_id. apply eq_None_not_Some. intros [i' Hk].
  apply Hok in Hk as (j' & Hj' & Hk). destruct (Hids _ _ Hj') as [Hi' Hp'].
  assert (i' = i) as ->; [|congruence]. rewrite <- Hi, <- Hi'. apply Hkey; congruence.
Qed.

(** A job deleted with its key, whether the index has it or not. *)
Lemma index_ok_remove key cf X jobs j i :
  key_inj key → plain_ids jobs → jobs !! i = Some j →
  index_ok key cf (listed X jobs) →
  index_ok key (delete (key j) cf) (listed (X ∖ {[i]}) (delete i jobs)).
Proof.
  intros Hkey Hids Hj Hok. rewrite listed_delete. destruct (Hids _ _ Hj) as [Hi Hp].
  destruct (decide (i ∈ X)) as [Hx|Hx].
  - rewrite (delete_id (listed X jobs)) by by apply listed_none.
    by rewrite (index_ok_absent key cf (listed X jobs) j i)
      by (done || by apply plain_ids_listed || by apply listed_none).
  - apply index_ok_delete; [done|by apply plain_ids_listed|by apply listed_lookup|done].
Qed.

(** A replaced job, its old key taken out. *)
Lemma index_ok_replace key cf jobs j j' i :
  key_inj key → plain_ids jobs → jobs !! i = Some j → job_id j' = i →
  index_ok key cf jobs → index_ok key (<[key j' := i]> (delete (key j) cf)) (<[i := j']> jobs).
Proof.
  intros Hkey Hids Hj Hi Hok. rewrite <- (insert_delete_eq jobs i).
  destruct (Hids _ _ Hj) as [_ Hp]. apply index_ok_insert; [done|..|done|done|apply lookup_delete_eq|].
  - intros k ? [_ Hk]%lookup_delete_Some. by apply Hids.
  - by apply index_ok_delete.
Qed.

(** ** Operations *)

Definition same_db s s' : Prop :=
  cf_jobs s' = cf_jobs s ∧ cf_by_user s' = cf_by_user s ∧ cf_by_status s' = cf_by_status s.

Lemma same_db_trans s1 s2 s3 : same_db s1 s2 → same_db s2 s3 → same_db s1 s3.
Proof. unfold same_db. intros (? & ? & ?) (? & ? & ?). repeat split; congruence. Qed.

Lemma indexed_same_db U O s s' :
  same_db s s' → (∀ i j, cache s' !! i = Some j → key_of <$> stored s !! i = Some (key_of j)) →
  indexed U O s → indexed U O s'.
Proof.
  intros (Hj & Hu & Hs) Hc [? ? ? ? ? ?]. unfold stored in *.
  split; unfold stored; rewrite ?Hj, ?Hu, ?Hs; auto.
Qed.

Lemma indexed_tick U O s n :
  indexed U O s →
  indexed U O {| cf_jobs := cf_jobs s; cf_by_user := cf_by_user s; cf_by_status := cf_by_status s;
             cache := cache s; db_ops := n |}.
Proof. intros Hs. apply (indexed_same_db _ _ s); [done|by apply (cache_ok _ _ s Hs)|done]. Qed.

Lemma stored_lookup s i b j :
  cf_jobs s !! i = Some b → job_of_json b = Some j → stored s !! i = Some j.
Proof. intros Hb Hj. unfold stored. by rewrite lookup_omap, Hb. Qed.

Definition got (i : string) s (r : result BatchError (option BatchJob)) : Prop :=
  match r with
  | Ok (Some j) => key_of <$> stored s !! i = Some (key_of j)
  | Ok None => stored s !! i = None
  | Err e => e = StoreFailed
  | Panic => False
  end.

Lemma get_spec U O i s s' r :
  get i s = (s', r) → indexed U O s → indexed U O s' ∧ same_db s s' ∧ got i s r.
Proof.
  intros Hg Hs. unfold get, db_io in Hg. unfold_method.
  destruct (cache s !! i) as [j|] eqn:Hc; simplify_eq/=.
  { split_and!; [done|done|]. by eapply cache_ok. }
  destruct (db_ok (db_ops s)); simplify_eq/=; [|split_and!; [by apply indexed_tick|done..]].
  destruct (cf_jobs s !! i) as [b|] eqn:Hb; simplify_eq/=.
  - destruct (json_ok _ _ s Hs i b Hb) as [j Hj]. rewrite Hj in Hg. simplify_eq/=.
    assert (Hst : stored s !! i = Some j) by by eapply stored_lookup.
    split_and!; [|done|by rewrite Hst]. apply (indexed_same_db _ _ s); [done| |done].
    intros i' j'. simpl. destruct (decide (i' = i)) as [->|Hne].
    + rewrite lookup_insert_eq. intros [= <-]. by rewrite Hst.
    + rewrite lookup_insert_ne by done. by apply (cache_ok _ _ s Hs).
  - split_and!; [|done|unfold got, stored; by rewrite lookup_omap, Hb]. by apply indexed_tick.
Qed.

(** The keys after a job is written: jobs written under their identifier, and the
    cache with them. *)
Lemma indexed_put U O U' O' s j fu fs n :
  plain_id (job_id j) → valid_time (job_created_at j) → indexed U O s →
  (∀ j', key_of j' = key_of j →
     index_ok user_key fu (listed U' (<[job_id j := j']> (stored s))) ∧
     index_ok status_key fs (listed O' (<[job_id j := j']> (stored s)))) →
  indexed U' O' {| cf_jobs := <[job_id j := job_to_json j]> (cf_jobs s); cf_by_user := fu;
                   cf_by_status := fs; cache := <[job_id j := j]> (cache s); db_ops := n |}.
Proof.
  intros Hp Ht [Hj Hi Hti Hc Hs Hu] Hix. destruct (stored_insert (job_id j) j (cf_jobs s)) as (j' & He & Hk).
  fold (stored s) in He. destruct (Hix j' Hk) as [Hix1 Hix2]. destruct (key_of_keys _ _ Hk) as (Hid & _ & _ & _ & Hcr).
  split; unfold stored; simpl; rewrite ?He; [|..|done|done].
  - intros i b. rewrite lookup_insert_Some. intros [[_ <-]|[_ ?]]; [|by eapply Hj].
    destruct (job_json_key j) as (? & ? & _). eauto.
  - intros i k. rewrite lookup_insert_Some. intros [[<- <-]|[_ ?]]; [done|by apply Hi].
  - intros i k. rewrite lookup_insert_Some. intros [[_ <-]|[_ ?]]; [by rewrite Hcr|by eapply Hti].
  - intros i k. rewrite lookup_insert_Some. intros [[<- <-]|[? ?]].
    + by rewrite lookup_insert_eq, <- Hk.
    + rewrite lookup_insert_ne by done. by apply Hc.
Qed.

(** A new job, or one created again as it is, is in both indexes. *)
Lemma create_keeps U O j s s' r :
  create j s = (s', r) → plain_id (job_id j) → valid_time (job_created_at j) →
  (∀ o, stored s !! job_id j = Some o → key_of o = key_of j) → indexed U O s →
  match r with
  | Ok _ => indexed (U ∖ {[job_id j]}) (O ∖ {[job_id j]}) s'
  | _ => indexed U O s'
  end.
Proof.
  intros Hc Hp Ht Ho Hs. unfold create, db_io in Hc. unfold_method.
  destruct (db_ok (db_ops s)); simplify_eq/=; [|by apply indexed_tick].
  apply (indexed_put U O _ _ s j); [done..|]. intros j' Hk. destruct (key_of_keys _ _ Hk) as (Hid & _ & Hst & Hu & _).
  rewrite <- Hst, <- Hu, !listed_put. destruct Hs as [_ Hids _ _ ? ?].
  split; apply index_ok_put; auto using user_key_inj, status_key_inj, plain_ids_listed;
    intros o [Hso _]%listed_lookup; specialize (Ho o Hso); rewrite <- Hk in Ho;
    destruct (key_of_keys _ _ Ho) as (_ & _ & ? & ? & _); congruence.
Qed.

(** An update of a stored job that keeps who created it and when. *)
Definition same_creation (j j' : BatchJob) : Prop :=
  job_created_at j' = job_created_at j ∧ created_by j' = created_by j.

(** The index by status after an update of a stored job. *)
Lemma reindex_keeps O jobs o old j j' cf :
  plain_ids jobs → jobs !! job_id j = Some o → key_of old = key_of o → same_creation o j →
  key_of j' = key_of j →
  index_ok status_key cf (listed O jobs) →
  index_ok status_key (reindex (Some old) j cf)
    (listed (if decide (job_status o = job_status j) then O else O ∖ {[job_id j]})
       (<[job_id j := j']> jobs)).
Proof.
  intros Hids Ho Hko [Hca _] Hk Hok. destruct (Hids _ _ Ho) as [Hio Hp].
  destruct (key_of_keys _ _ Hko) as (_ & Hst & _ & _ & Hcr), (key_of_keys _ _ Hk) as (Hid & _ & Hsk & _ & _).
  unfold reindex. rewrite Hst. case_decide as Hd.
  - destruct (decide (job_id j ∈ O)) as [Hx|Hx].
    + assert (O = {[job_id j]} ∪ O) as -> by set_solver. rewrite listed_hide by by left.
      by replace ({[job_id j]} ∪ O) with O by set_solver.
    + rewrite listed_insert_out by done. eapply index_ok_same; [by apply listed_lookup| |done].
      rewrite Hsk. unfold status_key, index_key. congruence.
  - fold (status_key j). rewrite <- Hsk, listed_put.
    assert (status_debug (job_status o) +:+ ":" +:+ pad20 (job_created_at old) +:+ ":"
              +:+ job_id j = status_key o) as -> by (unfold status_key, index_key; congruence).
    pose proof (plain_ids_listed O _ Hids) as Hids'.
    destruct (decide (job_id j ∈ O)) as [Hx|Hx].
    + rewrite (index_ok_absent _ _ (listed O jobs) _ (job_id j)) by (auto using status_key_inj, listed_none).
      apply index_ok_insert; auto using status_key_inj, listed_none.
    + apply index_ok_replace; auto using status_key_inj. by apply listed_lookup.
Qed.

(** The identifiers the index by status leaves out after an update. *)
Definition unlisted_update (j : BatchJob) s (O : gset string) : gset string :=
  match stored s !! job_id j with
  | None => {[job_id j]} ∪ O
  | Some o => if decide (job_status o = job_status j) then O else O ∖ {[job_id j]}
  end.

Lemma user_index_keeps U jobs o j j' cf :
  jobs !! job_id j = Some o → same_creation o j → job_id o = job_id j → key_of j' = key_of j →
  index_ok user_key cf (listed U jobs) → index_ok user_key cf (listed U (<[job_id j := j']> jobs)).
Proof.
  intros Ho [Hca Hby] Hio Hk Hok. destruct (key_of_keys _ _ Hk) as (_ & _ & _ & Huk & _).
  destruct (decide (job_id j ∈ U)) as [Hx|Hx].
  - assert (U = {[job_id j]} ∪ U) as -> by set_solver. rewrite listed_hide by by left.
    by replace ({[job_id j]} ∪ U) with U by set_solver.
  - rewrite listed_insert_out by done. eapply index_ok_same; [by apply listed_lookup| |done].
    rewrite Huk. unfold user_key, index_key. congruence.
Qed.

Lemma update_keeps U O j s s' r :
  update j s = (s', r) → plain_id (job_id j) → valid_time (job_created_at j) →
  (∀ o, stored s !! job_id j = Some o → same_creation o j) → indexed U O s →
  match r with
  | Ok _ => ∃ U', indexed U' (unlisted_update j s O) s'
  | _ => indexed U O s'
  end.
Proof.
  intros Hu Hp Ht Hsame Hs. unfold update in Hu.
  apply method_bind_inv in Hu as [(s1 & old & Hg & Hu)|[(e & Hg & ->)|[Hg ->]]].
  2,3: by eapply get_spec.
  destruct (get_spec _ _ _ _ _ _ Hg Hs) as (Hs1 & (Hdj & Hdu & Hds) & Hgot).
  assert (Hst1 : stored s1 = stored s) by (unfold stored; by rewrite Hdj).
  unfold db_io in Hu. unfold_method. destruct (db_ok (db_ops s1)); simplify_eq/=; [|by apply indexed_tick].
  destruct Hs as [_ Hids _ _ _ _]. pose proof Hs1 as [_ _ _ _ Hsi Hui]. rewrite Hst1 in *.
  unfold unlisted_update. destruct (stored s !! job_id j) as [o|] eqn:Ho.
  - destruct old as [old|]; simpl in Hgot; [|done]. apply (inj Some) in Hgot as Hko.
    destruct (Hids _ _ Ho) as [Hio _].
    exists U. apply (indexed_put U O _ _ s1 j); [done..|]. rewrite Hst1. intros j' Hk. split.
    + eapply user_index_keeps; eauto.
    + eapply reindex_keeps; eauto.
  - destruct old as [old|]; simpl in Hgot; [done|].
    exists ({[job_id j]} ∪ U). apply (indexed_put U O _ _ s1 j); [done..|]. rewrite Hst1. intros j' Hk.
    rewrite !listed_hide by by right. done.
Qed.

Lemma delete_keeps U O i s s' r :
  delete_job i s = (s', r) → indexed U O s →
  match r with
  | Ok true => indexed (U ∖ {[i]}) (O ∖ {[i]}) s'
  | _ => indexed U O s'
  end.
Proof.
  intros Hd Hs. unfold delete_job in Hd.
  apply method_bind_inv in Hd as [(s1 & old & Hg & Hd)|[(e & Hg & ->)|[Hg ->]]].
  2,3: by eapply get_spec.
  destruct (get_spec _ _ _ _ _ _ Hg Hs) as (Hs1 & (Hdj & Hdu & Hds) & Hgot).
  assert (Hst1 : stored s1 = stored s) by (unfold stored; by rewrite Hdj).
  unfold db_io in Hd. unfold_method. destruct old as [j|]; simplify_eq/=; [|done].
  destruct (db_ok (db_ops s1)); simplify_eq/=; [|by apply indexed_tick].
  apply fmap_Some in Hgot as (o & Ho & Hk). destruct (key_of_keys _ _ Hk) as (Hid & _ & Hsk & Huk & _).
  destruct (ids_ok _ _ s Hs _ _ Ho) as [Hio Hp]. destruct Hs1 as [Hj Hids Hti Hc Hsi Hui].
  assert (Hst : omap job_of_json (delete i (cf_jobs s1)) = delete i (stored s1))
    by (unfold stored; apply omap_delete).
  rewrite <- Hst1 in Ho. split; unfold stored; simpl; rewrite ?Hst.
  - intros i' b [_ ?]%lookup_delete_Some. eauto.
  - intros i' k [_ ?]%lookup_delete_Some. eauto.
  - intros i' k [_ ?]%lookup_delete_Some. eauto.
  - intros i' k [? ?]%lookup_delete_Some. rewrite lookup_delete_ne by done. by apply Hc.
  - assert (status_debug (job_status j) +:+ ":" +:+ pad20 (job_created_at j) +:+ ":" +:+ i
      = status_key o) as -> by (rewrite <- Hsk; unfold status_key, index_key; congruence).
    apply index_ok_remove; auto using status_key_inj.
  - assert (created_by j +:+ ":" +:+ pad20 (job_created_at j) +:+ ":" +:+ i
      = user_key o) as -> by (rewrite <- Huk; unfold user_key, index_key; congruence).
    apply index_ok_remove; auto using user_key_inj.
Qed.

Lemma clear_spec s s' : clear_all s = (s', Ok tt) → indexed ∅ ∅ s'.
Proof.
  unfold clear_all, db_io. intros Hc. unfold_method.
  repeat (destruct (db_ok _); simplify_eq/=). by apply indexed_empty.
Qed.

(** ** Listing *)

Lemma get_all U O s ids s' r :
  method_mapM get ids s = (s', r) → indexed U O s → (∀ i, i ∈ ids → is_Some (stored s !! i)) →
  indexed U O s' ∧ same_db s s' ∧
  ∀ found, r = Ok found →
    Forall2 (λ i o, ∃ j, o = Some j ∧ key_of <$> stored s !! i = Some (key_of j)) ids found.
Proof.
  revert s s' r. induction ids as [|i ids IH]; intros s s' r Hm Hs Hids; simpl in Hm.
  { unfold method_ret in Hm. simplify_eq. split_and!; [done..|]. intros ? [= <-]. constructor. }
  apply (method_bind_inv (get i)) in Hm as [(s1 & o & Hg & Hm)|[(e & Hg & ->)|[Hg ->]]];
    destruct (get_spec _ _ _ _ _ _ Hg Hs) as (Hs1 & Hdb & Hgot); [|by split_and!..].
  assert (Hst : stored s1 = stored s) by (unfold stored; by destruct Hdb as (-> & _)).
  apply (method_bind_inv (method_mapM get ids)) in Hm
    as [(s2 & os & Hr & Hm)|[(e & Hr & ->)|[Hr ->]]];
    (destruct (IH _ _ _ Hr Hs1) as (Hs2 & Hdb2 & Hf); [rewrite Hst; set_solver|]).
  2,3: split_and!; [done|by eapply same_db_trans|done].
  unfold method_ret in Hm. simplify_eq. split_and!; [done|by eapply same_db_trans|].
  intros ? [= <-]. constructor; [|rewrite <- Hst; by apply Hf].
  destruct o as [j|]; [eauto|]. destruct (Hids i) as [j Hj]; [left|].
  simpl in Hgot. congruence.
Qed.

(** The entries of an index that have a prefix, as the jobs they stand for. *)
Lemma entries_jobs (jobs : gmap string BatchJob) (key : BatchJob → string) (l : list (string * string)) :
  (∀ ki, ki ∈ l → ∃ j, jobs !! ki.2 = Some j ∧ key j = ki.1) →
  ∃ es : list (string * BatchJob),
    l = (λ e, (key e.2, e.1)) <$> es ∧ ∀ e, e ∈ es → jobs !! e.1 = Some e.2.
Proof.
  induction l as [|[k i] l IH]; intros Hl; [exists []; set_solver|].
  destruct IH as (es & -> & Hes); [intros ki ?; apply Hl; by right|].
  destruct (Hl (k, i)) as (j & Hj & Hk); [left|]. simpl in Hk. subst k. exists ((i, j) :: es). split; [done|].
  intros e [->|He]%elem_of_cons; [done|auto].
Qed.

Lemma StronglySorted_of_fmap {A B} (R : relation B) (f : A → B) l :
  StronglySorted R (f <$> l) → StronglySorted (λ x y, R (f x) (f y)) l.
Proof.
  induction l as [|x l IH]; [constructor|]. rewrite fmap_cons. intros [Hs Hx]%StronglySorted_inv.
  constructor; [by apply IH|]. by rewrite Forall_fmap in Hx.
Qed.

Lemma scan_jobs (jobs : gmap string BatchJob) (key : BatchJob → string) cf p :
  index_ok key cf jobs →
  ∃ es : list (string * BatchJob),
    scan_prefix p cf = es.*1 ∧
    es ≡ₚ map_to_list (filter (λ e, starts_with (key e.2) p = true) jobs) ∧
    StronglySorted (λ a b, str_leb (key a.2) (key b.2) = true) es.
Proof.
  unfold index_ok. intros Hok. set (l := List.filter (λ kv, starts_with kv.1 p) (sorted_cf cf)).
  assert (Hl : ∀ ki, ki ∈ l ↔ cf !! ki.1 = Some ki.2 ∧ starts_with ki.1 p = true).
  { intros [k i]. unfold l. rewrite list_elem_of_In, filter_In, <- list_elem_of_In, sorted_cf_perm,
      elem_of_map_to_list. done. }
  destruct (entries_jobs jobs key l) as (es & Hes & Hst).
  { intros ki [Hki _]%Hl. by apply Hok in Hki. }
  exists es. split_and!.
  - unfold scan_prefix. fold l. rewrite Hes, <- list_fmap_compose. by apply list_fmap_ext.
  - apply NoDup_Permutation; [|apply NoDup_map_to_list|].
    + apply (NoDup_fmap_1 (λ e, (key e.2, e.1))). rewrite <- Hes. unfold l.
      apply NoDup_ListNoDup, List.NoDup_filter, NoDup_ListNoDup. rewrite sorted_cf_perm.
      apply NoDup_map_to_list.
    + intros [i j]. rewrite elem_of_map_to_list, map_lookup_filter_Some. split.
      * intros He. split; [by apply (Hst (i, j))|].
        apply (list_elem_of_fmap_2 (λ e, (key e.2, e.1))) in He. rewrite <- Hes in He.
        by apply Hl in He as [_ ?].
      * intros [Hj Hp]. assert (Hin : (key j, i) ∈ l) by (apply Hl; split; [apply Hok; eauto|done]).
        rewrite Hes in Hin. apply list_elem_of_fmap in Hin as ([i' j'] & [= Hk <-] & He).
        pose proof (Hst _ He) as Hj'. simpl in Hj'. congruence.
  - eapply StronglySorted_weaken; [|apply (StronglySorted_of_fmap str_le (λ e, (key e.2, e.1)))].
    + intros x y _ _. unfold str_le. by rewrite Is_true_true.
    + rewrite <- Hes. unfold l. apply StronglySorted_filter_bool. unfold sorted_cf.
      apply StronglySorted_merge_sort; apply _.
Qed.

(** ** Histories of a store *)

Inductive store_call : Type :=
  | CallCreate (j : BatchJob)
  | CallUpdate (j : BatchJob)
  | CallDelete (i : string)
  | CallGet (i : string)
  | CallClear
  | CallReopen.

Definition run_call (c : store_call) s : BatchJobStore :=
  match c with
  | CallCreate j => (create j s).1
  | CallUpdate j => (update j s).1
  | CallDelete i => (delete_job i s).1
  | CallGet i => (get i s).1
  | CallClear => (clear_all s).1
  | CallReopen => reopen s
  end.

(** A job has an identifier without a colon and a time from 1970 on.  One created under an
    identifier in use has the status and the creation of the job there, and an update of a
    stored job keeps its creation; a job may be updated that is not there.  The store is
    cleared with success. *)
Definition allowed (c : store_call) s : Prop :=
  match c with
  | CallCreate j =>
      plain_id (job_id j) ∧ valid_time (job_created_at j) ∧
      ∀ o, stored s !! job_id j = Some o → key_of o = key_of j
  | CallUpdate j =>
      plain_id (job_id j) ∧ valid_time (job_created_at j) ∧
      ∀ o, stored s !! job_id j = Some o → same_creation o j
  | CallClear => (clear_all s).2 = Ok tt
  | _ => True
  end.

(** The identifiers that the index by status leaves out after a call: an update that finds
    no job adds its own, and one that changes the status takes it away, as do creation,
    deletion and clearing. *)
Definition unlisted_after (c : store_call) s (O : gset string) : gset string :=
  match c with
  | CallCreate j => match (create j s).2 with Ok _ => O ∖ {[job_id j]} | _ => O end
  | CallUpdate j => match (update j s).2 with Ok _ => unlisted_update j s O | _ => O end
  | CallDelete i => match (delete_job i s).2 with Ok true => O ∖ {[i]} | _ => O end
  | CallClear => ∅
  | CallGet _ | CallReopen => O
  end.

Inductive history : BatchJobStore → gset string → Prop :=
  | history_new : history new_store ∅
  | history_call c s O : history s O → allowed c s → history (run_call c s) (unlisted_after c s O).

Lemma history_indexed s O : history s O → ∃ U, indexed U O s.
Proof.
  induction 1 as [|c s O _ [U Hs] Hc]; [exists ∅; by apply indexed_empty|].
  destruct c as [j|j|i|i| |]; simpl in *.
  - destruct Hc as (? & ? & ?). destruct (create j s) as [s' r] eqn:E.
    pose proof (create_keeps _ _ _ _ _ _ E ltac:(done) ltac:(done) ltac:(done) Hs).
    destruct r; simpl; eauto.
  - destruct Hc as (? & ? & ?). destruct (update j s) as [s' r] eqn:E.
    pose proof (update_keeps _ _ _ _ _ _ E ltac:(done) ltac:(done) ltac:(done) Hs).
    destruct r; simpl; eauto.
  - destruct (delete_job i s) as [s' r] eqn:E. pose proof (delete_keeps _ _ _ _ _ _ E Hs).
    destruct r as [[]| |]; simpl; eauto.
  - exists U. destruct (get i s) eqn:E. by eapply get_spec.
  - exists ∅. destruct (clear_all s) as [s' r] eqn:E. simpl in *. subst r. by eapply clear_spec.
  - exists U. apply (indexed_same_db _ _ s); [done| |done]. simpl. intros i j. by rewrite lookup_empty.
Qed.

Lemma fetch_spec U O s ids s' jobs :
  fetch ids s = (s', Ok jobs) → indexed U O s → (∀ i, i ∈ ids → is_Some (stored s !! i)) →
  Forall2 (λ i j, key_of <$> stored s !! i = Some (key_of j)) ids jobs.
Proof.
  intros Hf Hs Hids. unfold fetch in Hf. apply method_bind_Ok in Hf as (s1 & found & Hg & Hr).
  unfold mret, method_MRet, method_ret in Hr. simplify_eq.
  destruct (get_all _ _ _ _ _ _ Hg Hs Hids) as (_ & _ & HF). specialize (HF _ eq_refl).
  clear Hg Hids. induction HF as [|i o ids os (j & -> & Hj) _ IH]; simpl; constructor; auto.
Qed.

Lemma jobs_of_keys s (es : list (string * BatchJob)) jobs :
  (∀ e, e ∈ es → stored s !! e.1 = Some e.2) →
  Forall2 (λ i j, key_of <$> stored s !! i = Some (key_of j)) es.*1 jobs →
  key_of <$> jobs = key_of <$> es.*2.
Proof.
  intros Hes. revert jobs. induction es as [|[i j] es IH]; simpl; intros jobs HF;
    inversion HF as [|? j' ? jobs' Hj HF']; subst; [done|]. rewrite !fmap_cons. f_equal.
  - pose proof (Hes (i, j) ltac:(left)) as Hst. simpl in Hst. rewrite Hst in Hj. simpl in Hj.
    congruence.
  - apply IH; [|done]. intros e He. apply Hes. by right.
Qed.

Lemma take_usize_fmap {A B} (f : A → B) n l : take_usize n (f <$> l) = f <$> take_usize n l.
Proof. unfold take_usize. by rewrite length_fmap, fmap_take. Qed.

Lemma elem_of_take_usize {A} n (l : list A) x : x ∈ take_usize n l → x ∈ l.
Proof. intros (i & ? & _)%elem_of_take. by eapply list_elem_of_lookup_2. Qed.

End Invariant.
