(* ===== verification/BatchExecutor.v ===== *)
(** * The executor of batch jobs

    Models [workflows/engine/batch_executor.rs] with the record of an execution
    ([domain/execution.rs]), the in-memory store of executions
    ([storage/persistence/in_memory_backend.rs]) and the loop over the actions of a
    route ([engine/executor.rs]).  The executions of a wave are concurrent tasks;
    the semaphore only restricts their schedules, all of which are covered.  What a
    single action does, the clock and the order of hash maps are the
    environment's.  A panic of a task is caught when it is joined, as in a build
    that unwinds. *)

From Stdlib Require Import ZArith Lia.
From stdpp Require Import base numbers option strings gmap list.
From S2P Require Import Prelude RustStd F64 RustText Effects Tasks WfRouting BatchJobs BatchStore.

Local Open Scope Z_scope.

(** ** Executions *)

Inductive ActionStatus : Type := ActSuccess | ActFailed | ActSkipped | ActPaused.

#[global] Instance ActionStatus_eq_dec : EqDecision ActionStatus.
Proof. solve_decision. Defined.

Record ActionResult : Type := {
  action_type : string;
  action_status : ActionStatus;
  action_duration_ms : Z;
  action_error : option string;
  action_output : option Json;
}.

Inductive ExecutionStatus : Type :=
  | ExPending | ExRunning | ExPaused | ExCompleted | ExFailed | ExStopped | ExAborted.

#[global] Instance ExecutionStatus_eq_dec : EqDecision ExecutionStatus.
Proof. solve_decision. Defined.

Definition ex_terminal (st : ExecutionStatus) : bool :=
  match st with
  | ExCompleted | ExFailed | ExStopped | ExAborted => true
  | _ => false
  end.

Inductive LogLevel : Type := LogDebug | LogInfo | LogWarning | LogError.

Record ExecutionLog : Type := {
  log_timestamp : Z;
  log_level : LogLevel;
  log_step_id : option string;
  log_message : string;
  log_details : option Json;
}.

(** Step results and runtime metrics, which batch jobs do not use, as their JSON. *)
Record WorkflowExecution : Type := {
  ex_id : string;
  ex_workflow_id : string;
  ex_workflow_name : string;
  ex_status : ExecutionStatus;
  ex_input : Json;
  ex_output : option Json;
  ex_confidence : option f64;
  ex_step_results : list Json;
  ex_runtime_metrics : option Json;
  ex_matched_route : option string;
  ex_matched_route_name : option string;
  ex_started_at : Z;
  ex_updated_at : Z;
  ex_completed_at : option Z;
  ex_duration_ms : option Z;
  ex_error : option string;
  ex_logs : list ExecutionLog;
  ex_current_step : option string;
  ex_actions_executed : nat;
  ex_triggered_by : option string;
  checkpoint_action_index : option nat;
  intermediate_data : option Json;
  action_results : list ActionResult;
}.

Definition new_execution (id workflow_id workflow_name : string) (input : Json)
    (triggered_by : option string) (now : Z) : WorkflowExecution :=
  {| ex_id := id; ex_workflow_id := workflow_id; ex_workflow_name := workflow_name;
     ex_status := ExPending; ex_input := input; ex_output := None; ex_confidence := None;
     ex_step_results := []; ex_runtime_metrics := None; ex_matched_route := None;
     ex_matched_route_name := None; ex_started_at := now; ex_updated_at := now;
     ex_completed_at := None; ex_duration_ms := None; ex_error := None; ex_logs := [];
     ex_current_step := None; ex_actions_executed := 0; ex_triggered_by := triggered_by;
     checkpoint_action_index := None; intermediate_data := None; action_results := [] |}.

(** [WorkflowExecution::update_status]; the duration is cast to [u64]. *)
Definition ex_set_status (st : ExecutionStatus) (now : Z) (x : WorkflowExecution)
    : WorkflowExecution :=
  let ends := ex_terminal st && bool_decide (ex_completed_at x = None) in
  {| ex_id := ex_id x; ex_workflow_id := ex_workflow_id x; ex_workflow_name := ex_workflow_name x;
     ex_status := st; ex_input := ex_input x; ex_output := ex_output x;
     ex_confidence := ex_confidence x; ex_step_results := ex_step_results x;
     ex_runtime_metrics := ex_runtime_metrics x; ex_matched_route := ex_matched_route x;
     ex_matched_route_name := ex_matched_route_name x; ex_started_at := ex_started_at x;
     ex_updated_at := now;
     ex_completed_at := if ends then Some now else ex_completed_at x;
     ex_duration_ms := if ends then Some (as_usize (now - ex_started_at x)) else ex_duration_ms x;
     ex_error := ex_error x; ex_logs := ex_logs x; ex_current_step := ex_current_step x;
     ex_actions_executed := ex_actions_executed x; ex_triggered_by := ex_triggered_by x;
     checkpoint_action_index := checkpoint_action_index x;
     intermediate_data := intermediate_data x; action_results := action_results x |}.

(** The checkpoint and the results of an execution set at a time. *)
Definition ex_set_point (index : option nat) (data : option Json) (rs : list ActionResult) (now : Z)
    (x : WorkflowExecution) : WorkflowExecution :=
  {| ex_id := ex_id x; ex_workflow_id := ex_workflow_id x; ex_workflow_name := ex_workflow_name x;
     ex_status := ex_status x; ex_input := ex_input x; ex_output := ex_output x;
     ex_confidence := ex_confidence x; ex_step_results := ex_step_results x;
     ex_runtime_metrics := ex_runtime_metrics x; ex_matched_route := ex_matched_route x;
     ex_matched_route_name := ex_matched_route_name x; ex_started_at := ex_started_at x;
     ex_updated_at := now; ex_completed_at := ex_completed_at x;
     ex_duration_ms := ex_duration_ms x; ex_error := ex_error x; ex_logs := ex_logs x;
     ex_current_step := ex_current_step x; ex_actions_executed := ex_actions_executed x;
     ex_triggered_by := ex_triggered_by x; checkpoint_action_index := index;
     intermediate_data := data; action_results := rs |}.

Definition checkpoint (index : nat) (data : Json) (now : Z) (x : WorkflowExecution)
    : WorkflowExecution :=
  ex_set_point (Some index) (Some data) (action_results x) now x.

Definition clear_checkpoint (now : Z) (x : WorkflowExecution) : WorkflowExecution :=
  ex_set_point None None (action_results x) now x.

(** [execution.action_results = results]. *)
Definition set_results (rs : list ActionResult) (x : WorkflowExecution) : WorkflowExecution :=
  ex_set_point (checkpoint_action_index x) (intermediate_data x) rs (ex_updated_at x) x.

(** The logs kept apart replace those of the record. *)
Definition with_logs (logs : option (list ExecutionLog)) (x : WorkflowExecution)
    : WorkflowExecution :=
  {| ex_id := ex_id x; ex_workflow_id := ex_workflow_id x; ex_workflow_name := ex_workflow_name x;
     ex_status := ex_status x; ex_input := ex_input x; ex_output := ex_output x;
     ex_confidence := ex_confidence x; ex_step_results := ex_step_results x;
     ex_runtime_metrics := ex_runtime_metrics x; ex_matched_route := ex_matched_route x;
     ex_matched_route_name := ex_matched_route_name x; ex_started_at := ex_started_at x;
     ex_updated_at := ex_updated_at x; ex_completed_at := ex_completed_at x;
     ex_duration_ms := ex_duration_ms x; ex_error := ex_error x;
     ex_logs := default (ex_logs x) logs; ex_current_step := ex_current_step x;
     ex_actions_executed := ex_actions_executed x; ex_triggered_by := ex_triggered_by x;
     checkpoint_action_index := checkpoint_action_index x;
     intermediate_data := intermediate_data x; action_results := action_results x |}.

(** ** The world *)

(** What is observed, with the execution or job it belongs to. *)
Inductive BatchEvent : Type :=
  | EvSaved (id : string) (ok : bool)
  | EvUpdated (id : string) (ok : bool)
  | EvAction (id : string) (index : nat)
  | EvWait (id : string) (ms : Z)
  | EvJob (id : string) (st : BatchJobStatus).

#[global] Instance BatchEvent_eq_dec : EqDecision BatchEvent.
Proof. solve_decision. Defined.

Class BatchEnv : Type := {
  Action : Type;
  (** one action on the data, after what has happened; [None] is a panic *)
  run_action : list BatchEvent → Action → Json → option (Json * ActionResult);
  batch_clock : list BatchEvent → Z;
  wave_order : gmap string (result BatchError unit) → list (string * result BatchError unit);
  overflow_checks : bool;
}.

(** A hash map is iterated over its entries. *)
Class BatchEnvOk `{BatchEnv} : Prop := { wave_order_perm m : wave_order m ≡ₚ map_to_list m }.

Section Executor.
Context `{BatchEnv, ExecOrder, JobDb}.

Record BWorld : Type := {
  job_store : BatchJobStore;
  workflows : gmap string (Workflow Action);
  executions : gmap string WorkflowExecution;
  exec_logs : gmap string (list ExecutionLog);
  events : list BatchEvent;
}.

Abbreviation BatchM := (method BWorld BatchError).
Abbreviation BatchTask := (task BWorld BatchError).

Definition emit (ev : BatchEvent) (w : BWorld) : BWorld :=
  {| job_store := job_store w; workflows := workflows w; executions := executions w;
     exec_logs := exec_logs w; events := events w ++ [ev] |}.

Definition put_execution (x : WorkflowExecution) (w : BWorld) : BWorld :=
  {| job_store := job_store w; workflows := workflows w;
     executions := <[ex_id x := x]> (executions w); exec_logs := exec_logs w; events := events w |}.

Definition clock (w : BWorld) : Z := batch_clock (events w).

(** [save]: only for a new identifier. *)
Definition save_execution (x : WorkflowExecution) : BatchM unit := λ w,
  match executions w !! ex_id x with
  | Some _ => (emit (EvSaved (ex_id x) false) w, Err (AlreadyExists (ex_id x)))
  | None => (emit (EvSaved (ex_id x) true) (put_execution x w), Ok tt)
  end.

Definition get_execution (id : string) : BatchM (option WorkflowExecution) := λ w,
  (w, Ok (with_logs (exec_logs w !! id) <$> executions w !! id)).

(** [update]: only for a saved one. *)
Definition update_execution (x : WorkflowExecution) : BatchM unit := λ w,
  match executions w !! ex_id x with
  | None => (emit (EvUpdated (ex_id x) false) w, Err (ExecutionNotFound (ex_id x)))
  | Some _ => (emit (EvUpdated (ex_id x) true) (put_execution x w), Ok tt)
  end.

(** The job store is part of the world; a written job is observed. *)
Definition in_store {A} (m : method BatchJobStore BatchError A) : BatchM A := λ w,
  match m (job_store w) with
  | (st, r) =>
      ({| job_store := st; workflows := workflows w; executions := executions w;
          exec_logs := exec_logs w; events := events w |}, r)
  end.

Definition update_job (j : BatchJob) : BatchM unit :=
  _ ← in_store (BatchStore.update j);
  modify (emit (EvJob (job_id j) (job_status j))).

(** ** One execution *)

(** [execute_action] on the data. *)
Definition execute_action (id : string) (index : nat) (a : Action) (data : Json)
    : BatchM (Json * ActionResult) := λ w,
  (emit (EvAction id index) w,
   match run_action (events w) a data with
   | Some p => Ok p
   | None => Panic
   end).

(** [execute_actions] from an index on: an action that pauses is the last. *)
Fixpoint execute_actions (id : string) (index : nat) (l : list Action) (data : Json)
    : BatchTask (Json * list ActionResult) :=
  match l with
  | [] => mret (data, [])
  | a :: l' =>
      '(data', r) ← act (execute_action id index a data);
      if decide (action_status r = ActPaused) then mret (data', [r])
      else '(d, rs) ← execute_actions id (S index) l' data'; mret (d, r :: rs)
  end.

Definition find_paused (rs : list ActionResult) : option ActionResult :=
  snd <$> list_find (λ r, action_status r = ActPaused) rs.

Definition failed_actions (rs : list ActionResult) : list ActionResult :=
  filter (λ r, action_status r = ActFailed) rs.

(** The JSON of a checkpoint. *)
Definition checkpoint_json (r : ActionResult) (data : Json) (total executed : nat) : Json :=
  JObject [("executed_actions", JPosInt (Z.of_nat executed)); ("intermediate_data", data);
           ("paused_action_output", default JNull (action_output r));
           ("paused_action_type", JString (action_type r));
           ("total_actions", JPosInt (Z.of_nat total))].

Definition require_execution (id : string) : BatchTask WorkflowExecution :=
  found ← act (get_execution id);
  pure (ok_or found (ExecutionNotFound id)).

Definition execute_workflow_internal (e : WorkflowExecutionRef) (wf : Workflow Action)
    : BatchTask unit :=
  let id := execution_id e in
  _ ← act (λ w, save_execution
        (new_execution id (wf_id wf) (wf_name wf)
           (JObject [("batch_execution", JBool true); ("source", source e);
                     ("target_table", JString (target_table e))]) None (clock w)) w);
  match routes wf with
  | [] => pure (Err WorkflowWithoutRoutes)
  | route :: _ =>
      '(data, rs) ← execute_actions id 0 (actions route) (source e);
      match find_paused rs with
      | Some p =>
          x ← require_execution id;
          act (λ w, update_execution
            (set_results rs (ex_set_status ExPaused (clock w)
               (checkpoint (length rs - 1)
                  (checkpoint_json p data (length (actions route)) (length rs)) (clock w) x))) w)
      | None =>
          match failed_actions rs with
          | [] =>
              x ← require_execution id;
              act (λ w, update_execution
                (set_results rs (ex_set_status ExCompleted (clock w) x)) w)
          | fs => pure (Err (ActionsFailed (length fs)))
          end
      end
  end.

(** [1000 * 2_u64.pow(attempt - 1)], at most 30 seconds. *)
Definition backoff_ms (attempt : nat) : result BatchError Z :=
  let ms := 1000 * 2 ^ (Z.of_nat attempt - 1) in
  ms' ← (if ms <? 2 ^ 64 then Ok ms
         else if overflow_checks then Panic else Ok (ms mod 2 ^ 64));
  Ok (Z.min ms' 30000).

(** The loop of [execute_with_retry] with the retries that are left. *)
Fixpoint retry_loop (left attempt : nat) (retry : bool) (e : WorkflowExecutionRef)
    (wf : Workflow Action) : BatchTask unit :=
  r ← try_task (execute_workflow_internal e wf);
  match r with
  | Err err =>
      match left, retry with
      | S left', true =>
          ms ← pure (backoff_ms attempt);
          _ ← act (modify (emit (EvWait (execution_id e) ms)));
          retry_loop left' (S attempt) retry e wf
      | _, _ => pure (Err err)
      end
  | r => pure r
  end.

Definition execute_with_retry (e : WorkflowExecutionRef) (j : BatchJob) (wf : Workflow Action)
    : BatchTask unit :=
  retry_loop (max_retries (config j)) 1 (retry_failed (config j)) e wf.

(** ** A job *)

(** The results by execution; a task that panicked has none. *)
Definition collect_results (rs : list (string * result BatchError unit))
    : gmap string (result BatchError unit) :=
  foldl (λ m ir, match ir.2 with Panic => m | r => <[ir.1 := r]> m end) ∅ rs.

Definition execute_wave (sched : list nat) (j : BatchJob) (wave : list WorkflowExecutionRef)
    (wf : Workflow Action) : BatchM (gmap string (result BatchError unit)) := λ w,
  match join_all sched ((λ e, execute_with_retry e j wf) <$> wave) w with
  | (w', rs) => (w', Ok (collect_results (zip (execution_id <$> wave) rs)))
  end.

(** The loop over the results of a wave. *)
Fixpoint process_results (rs : list (string * result BatchError unit)) (j : BatchJob)
    (completed failed : gset string) : BatchM (gset string * gset string) :=
  match rs with
  | [] => mret (completed, failed)
  | (id, Err e) :: rs' =>
      if stop_on_error (config j) then
        now ← gets clock;
        _ ← update_job (job_set_status JobFailed now j);
        fail (StoppedOnError e)
      else process_results rs' j completed ({[id]} ∪ failed)
  | (id, _) :: rs' => process_results rs' j ({[id]} ∪ completed) failed
  end.

Definition update_batch_progress (j : BatchJob) : BatchM BatchJob :=
  now ← gets clock;
  let j' := recalculate_progress now j in
  _ ← update_job j';
  mret j'.

(** The waves with a schedule for each. *)
Fixpoint run_waves (scheds : list (list nat)) (waves : list (list WorkflowExecutionRef))
    (j : BatchJob) (wf : Workflow Action) (completed failed : gset string)
    : BatchM (BatchJob * gset string * gset string) :=
  match waves with
  | [] => mret (j, completed, failed)
  | wave :: waves' =>
      results ← execute_wave (default [] (head scheds)) j wave wf;
      '(completed', failed') ← process_results (wave_order results) j completed failed;
      j' ← update_batch_progress j;
      run_waves (tail scheds) waves' j' wf completed' failed'
  end.

(** [execute] until the first wave: the running job, its workflow and its waves. *)
Definition begin_job (id : string)
    : BatchM (BatchJob * Workflow Action * list (list WorkflowExecutionRef)) :=
  found ← in_store (BatchStore.get id);
  j ← lift (ok_or found (JobNotFound id));
  known ← gets workflows;
  wf ← lift (ok_or (known !! job_workflow_id j) (NoSuchWorkflow (job_workflow_id j)));
  _ ← guard_ok (wf_enabled wf) (DisabledWorkflow (wf_id wf));
  _ ← lift (validate_job j);
  now ← gets clock;
  let j' := job_set_status JobRunning now j in
  _ ← update_job j';
  waves ← lift (resolve_dependencies (workflow_executions j'));
  mret (j', wf, waves).

Definition final_status (completed failed : gset string) : BatchJobStatus :=
  if decide (failed = ∅) then JobCompleted
  else if decide (completed = ∅) then JobFailed
  else JobPartiallyCompleted.

Definition end_job (j : BatchJob) (completed failed : gset string) : BatchM unit :=
  now ← gets clock;
  update_job (recalculate_progress now (job_set_status (final_status completed failed) now j)).

Definition execute (scheds : list (list nat)) (id : string) : BatchM unit :=
  '(j, wf, waves) ← begin_job id;
  '(j', completed, failed) ← run_waves scheds waves j wf ∅ ∅;
  end_job j' completed failed.

Definition cancel (id : string) : BatchM unit :=
  found ← in_store (BatchStore.get id);
  j ← lift (ok_or found (JobNotFound id));
  _ ← guard_ok (can_cancel j) (CannotCancel (job_status j));
  now ← gets clock;
  update_job (job_set_status JobCancelled now j).

(** ** Resuming a paused execution *)

(** The rest of [resume_execution] once the checkpoint and the route are found. *)
Definition resume_from (id : string) (x : WorkflowExecution) (route : Route Action) (index : nat)
    (data : Json) : BatchTask unit :=
  now ← act (gets clock);
  let running := clear_checkpoint now (ex_set_status ExRunning now x) in
  _ ← act (update_execution running);
  '(data', rs) ← execute_actions id (S index) (drop (S index) (actions route)) data;
  match find_paused rs with
  | Some p =>
      let index' := (S index + length rs - 1)%nat in
      y ← require_execution id;
      act (λ w, update_execution
        (set_results (action_results y ++ rs)
           (ex_set_status ExPaused (clock w)
              (checkpoint index'
                 (checkpoint_json p data' (length (actions route)) (S index')) (clock w) y))) w)
  | None =>
      match failed_actions rs with
      | [] =>
          act (λ w, update_execution
            (set_results (action_results running ++ rs)
               (ex_set_status ExCompleted (clock w) running)) w)
      | fs =>
          _ ← act (λ w, update_execution (ex_set_status ExFailed (clock w) running) w);
          pure (Err (ActionsFailed (length fs)))
      end
  end.

Definition resume_execution (id : string) : BatchTask unit :=
  x ← require_execution id;
  if negb (bool_decide (ex_status x = ExPaused)) then pure (Err (NotPaused id)) else
  index ← pure (ok_or (checkpoint_action_index x) (NoCheckpoint id));
  point ← pure (ok_or (intermediate_data x) (NoCheckpoint id));
  data ← pure (ok_or (json_get point "intermediate_data") BadCheckpoint);
  known ← act (gets workflows);
  wf ← pure (ok_or (known !! ex_workflow_id x) (NoSuchWorkflow (ex_workflow_id x)));
  match routes wf with
  | [] => pure (Err WorkflowWithoutRoutes)
  | route :: _ =>
      if (length (actions route) <=? S index)%nat
      then act (λ w, update_execution (ex_set_status ExCompleted (clock w) x) w)
      else resume_from id x route index data
  end.
End Executor.
