(* ===== verification/BatchExecutorFacts.v ===== *)
(** * Facts on the executor of batch jobs

    What the tasks of a wave do whatever the schedule: every execution is
    attempted, in the order of the waves; a failed attempt is never made good by a
    retry, because its record is in the way. *)

From Stdlib Require Import ZArith Lia.
From stdpp Require Import base numbers option strings gmap list.
From S2P Require Import Prelude RustStd RustText Effects Tasks WfRouting BatchJobs BatchStore.
From S2P Require Import BatchExecutor.

(** ** Events *)

Definition event_exec (ev : BatchEvent) : option string :=
  match ev with
  | EvSaved id _ | EvUpdated id _ | EvAction id _ | EvWait id _ => Some id
  | EvJob _ _ => None
  end.

Definition is_save (id : string) (ev : BatchEvent) : bool :=
  match ev with EvSaved i _ => bool_decide (i = id) | _ => false end.

(** The attempts to save an execution. *)
Definition saves (id : string) (l : list BatchEvent) : nat := length (List.filter (is_save id) l).

Lemma saves_app id l k : saves id (l ++ k) = saves id l + saves id k.
Proof. unfold saves. by rewrite List.filter_app, length_app. Qed.

Lemma saves_perm id l k : l ≡ₚ k → saves id l = saves id k.
Proof.
  unfold saves. induction 1 as [|x l k _ IH|x y l|l k m _ IH1 _ IH2]; simpl;
    repeat destruct (is_save id _); simpl; congruence.
Qed.

Lemma saves_other id l :
  (∀ ev, ev ∈ l → event_exec ev ≠ Some id) → saves id l = 0.
Proof.
  induction l as [|ev l IH]; intros Hl; [done|]. unfold saves. simpl.
  assert (is_save id ev = false) as ->.
  { destruct ev; simpl; try done. apply bool_decide_eq_false_2. intros ->.
    by apply (Hl (EvSaved id ok)); [left|]. }
  apply IH. intros ev' ?. apply Hl. by right.
Qed.

Section Executor.
Context `{BatchEnv, ExecOrder, JobDb}.
Implicit Types w : BWorld.

(** The records are under their identifiers and a saved one stays. *)
Record saved_kept w : Prop := {
  keyed : ∀ id x, executions w !! id = Some x → ex_id x = id;
  kept : ∀ id ok, EvSaved id ok ∈ events w → is_Some (executions w !! id);
}.

Abbreviation doing := (does (E := BatchError) events saved_kept).

(** ** Tasks that do not save *)

Definition work (id : string) (ev : BatchEvent) : Prop :=
  event_exec ev = Some id ∧ is_save id ev = false.

(** What a task of an execution logs, and what it returns. *)
Definition worked {A} (id : string) (P : A → Prop) (own es : list BatchEvent)
    (r : result BatchError A) : Prop :=
  (∃ new, es = own ++ new ∧ Forall (work id) new) ∧ ∀ a, r = Ok a → P a.

Definition works {A} (id : string) (t : task BWorld BatchError A) (P : A → Prop) : Prop :=
  ∀ own, doing own t (worked id P own).

Lemma works_bind {A B} id (t : task BWorld BatchError A) (f : A → task BWorld BatchError B) P Q :
  works id t P → (∀ a, P a → works id (f a) Q) → works id (t ≫= f) Q.
Proof.
  intros Ht Hf own. eapply does_bind; [apply Ht|..].
  - intros es a [(new & -> & Hn) HP]. eapply does_mono; [by apply Hf, HP|].
    intros es r [(new' & -> & Hn') HQ]. split; [|done]. exists (new ++ new').
    rewrite app_assoc. split; [done|]. by apply Forall_app.
  - intros es e [? _]. by split.
  - intros es [? _]. by split.
Qed.

Lemma works_pure {A} id (r : result BatchError A) (P : A → Prop) :
  (∀ a, r = Ok a → P a) → works id (pure r) P.
Proof. intros HP own. apply does_pure. split; [|done]. exists []. by rewrite app_nil_r. Qed.

(** One action: it logs no save and leaves the records in place. *)
Lemma works_act {A} id (m : method BWorld BatchError A) (P : A → Prop) :
  (∀ w, saved_kept w →
     (∃ new, events (m w).1 = events w ++ new ∧ Forall (work id) new) ∧
     (∀ i x, executions (m w).1 !! i = Some x → ex_id x = i) ∧
     (∀ i, is_Some (executions w !! i) → is_Some (executions (m w).1 !! i)) ∧
     ∀ a, (m w).2 = Ok a → P a) →
  works id (act m) P.
Proof.
  intros Hm own. apply does_act. intros w Hw _.
  destruct (Hm w Hw) as ((new & He & Hn) & Hk & Hx & HP). split; [split; [done|]|].
  - intros i ok. rewrite He. intros [?|Hin]%elem_of_app; [by eapply Hx, kept|].
    rewrite Forall_forall in Hn. destruct (Hn _ Hin) as [[= ->] Hs]. simpl in Hs.
    by rewrite bool_decide_true in Hs.
  - exists new. split; [done|]. split; [eauto|done].
Qed.

Lemma works_quiet {A} id (m : method BWorld BatchError A) (P : A → Prop) :
  (∀ w, saved_kept w → (m w).1 = w ∧ ∀ a, (m w).2 = Ok a → P a) → works id (act m) P.
Proof.
  intros Hm. apply works_act. intros w Hw. destruct (Hm w Hw) as [-> HP].
  split_and!; [|by apply keyed|done|done]. exists []. by rewrite app_nil_r.
Qed.

Definition any {A} (_ : A) : Prop := True.

Lemma works_update id (f : BWorld → WorkflowExecution) :
  (∀ w, ex_id (f w) = id) → works id (act (λ w, update_execution (f w) w)) any.
Proof.
  intros Hf. apply works_act. intros w Hw. unfold update_execution. rewrite Hf.
  destruct (executions w !! id) as [x|] eqn:E; simpl; rewrite ?Hf.
  - split_and!; [exists [EvUpdated id true]; by repeat constructor|..|done].
    + intros i y. destruct (decide (i = id)) as [->|].
      * rewrite lookup_insert_eq. by intros [= <-].
      * rewrite lookup_insert_ne by done. by apply keyed.
    + intros i Hi. destruct (decide (i = id)) as [->|]; [rewrite lookup_insert_eq; eauto|].
      by rewrite lookup_insert_ne.
  - split_and!; [exists [EvUpdated id false]; by repeat constructor|by apply keyed|done|done].
Qed.

Lemma works_actions id index l data : works id (execute_actions id index l data) any.
Proof.
  revert index data. induction l as [|a l IH]; intros index data; [by apply works_pure|].
  cbn [execute_actions]. apply (works_bind _ _ _ any).
  - apply works_act. intros w Hw. simpl. split_and!; [|by apply keyed|done|done].
    exists [EvAction id index]. by repeat constructor.
  - intros [d r] _. case_decide; [by apply works_pure|].
    apply (works_bind _ _ _ any); [apply IH|]. intros [? ?] _. by apply works_pure.
Qed.

Lemma works_require id : works id (require_execution id) (λ x, ex_id x = id).
Proof.
  apply (works_bind _ _ _ (λ o, ∀ x, o = Some x → ex_id x = id)).
  - apply works_quiet. intros w Hw. split; [done|]. intros o [= <-] x.
    intros (y & Hy & ->)%fmap_Some. simpl. by eapply keyed.
  - intros o Ho. apply works_pure. intros x. destruct o; simpl; intros [= <-]. by apply Ho.
Qed.

(** ** Attempts *)

(** One attempt: the record is saved first, which fails when one was saved before. *)
Definition attempted (id : string) (own es : list BatchEvent) (r : result BatchError unit) : Prop :=
  ∃ ok new, es = own ++ EvSaved id ok :: new ∧ Forall (work id) new ∧
    ((∃ ok', EvSaved id ok' ∈ own) → ok = false) ∧ (ok = false → r = Err (AlreadyExists id)).

Lemma internal_attempts e wf own :
  doing own (execute_workflow_internal e wf) (attempted (execution_id e) own).
Proof.
  unfold execute_workflow_internal. set (id := execution_id e).
  eapply (does_bind _ _ _ _ _ (λ es r, ∃ ok, es = own ++ [EvSaved id ok] ∧
    ((∃ ok', EvSaved id ok' ∈ own) → ok = false) ∧
    r = if ok : bool then Ok tt else Err (AlreadyExists id))).
  - apply does_act. intros w Hw Hown. unfold save_execution. cbn [ex_id new_execution].
    destruct (executions w !! id) as [x|] eqn:E; simpl.
    + split; [|exists [EvSaved id false]; split; [done|]; by exists false].
      split; [by apply (keyed w Hw)|]. simpl. intros i ok [?|Hin]%elem_of_app; [by eapply (kept w Hw)|].
      apply list_elem_of_singleton in Hin as [= -> ->]. by rewrite E.
    + split; [split; simpl|].
      * intros i y. destruct (decide (i = id)) as [->|].
        -- rewrite lookup_insert_eq. by intros [= <-].
        -- rewrite lookup_insert_ne by done. by apply (keyed w Hw).
      * intros i ok Hin. destruct (decide (i = id)) as [->|Hne];
          [rewrite lookup_insert_eq; eauto|]. rewrite lookup_insert_ne by done.
        apply elem_of_app in Hin as [?|Hin]; [by eapply (kept w Hw)|].
        apply list_elem_of_singleton in Hin as [= -> ->]. done.
      * exists [EvSaved id true]. split; [done|]. exists true. split_and!; [done| |done].
        intros [ok' Hin%Hown]. destruct (kept w Hw id ok' Hin) as [? ?]. congruence.
  - intros es [] (ok & -> & Hseen & Hr). destruct ok; [|done].
    eapply (does_mono _ _ _ _ (worked id any (own ++ [EvSaved id true]))).
    2: { intros es r [(new & -> & Hn) _]. exists true, new. rewrite <- app_assoc.
         split_and!; [done..|by intros Hs%Hseen|done]. }
    assert (Hu : ∀ f, (∀ w x, ex_id (f w x) = ex_id x) →
      works id (x ← require_execution id; act (λ w, update_execution (f w x) w)) any).
    { intros f Hf. eapply works_bind; [apply works_require|]. intros x Hx. apply works_update.
      intros w. by rewrite Hf. }
    destruct (routes wf) as [|route rest]; [by apply works_pure|].
    eapply (works_bind _ _ _ any); [apply works_actions|]. intros [data rs] _.
    destruct (find_paused rs); [by apply Hu|]. destruct (failed_actions rs); [by apply Hu|].
    by apply works_pure.
  - intros es err (ok & -> & Hseen & Hr). destruct ok; [done|]. injection Hr as ->.
    by exists false, [].
  - intros es (ok & _ & _ & Hr). by destruct ok.
Qed.

Lemma saves_work id l : Forall (work id) l → saves id l = 0.
Proof.
  unfold saves. induction 1 as [|ev l [_ Hev] _ IH]; simpl; [done|]. by rewrite Hev.
Qed.

(** All attempts at an execution: the first one decides, the others only fail. *)
Definition retried (id : string) (left : nat) (retry : bool) (own es : list BatchEvent)
    (r : result BatchError unit) : Prop :=
  ∃ ok rest, es = own ++ EvSaved id ok :: rest ∧ Forall (λ ev, event_exec ev = Some id) rest ∧
    ((∃ ok', EvSaved id ok' ∈ own) → ok = false) ∧
    (r = Ok tt → ok = true ∧ saves id rest = 0) ∧
    (∀ err, r = Err err → saves id rest = (if retry then left else 0) ∧
       (ok = false ∨ retry = true ∧ 0 < left → err = AlreadyExists id)).

Lemma retried_more id left own es ms ok new r :
  Forall (work id) new →
  ((∃ ok', EvSaved id ok' ∈ own) → ok = false) →
  retried id left true (own ++ EvSaved id ok :: new ++ [EvWait id ms]) es r →
  retried id (S left) true own es r.
Proof.
  intros Hn Hseen (ok2 & rest & -> & Hrest & Hs & HOk & HErr).
  rewrite Hs in HOk, HErr by (exists ok; set_solver). clear Hs.
  exists ok, ((new ++ [EvWait id ms]) ++ EvSaved id ok2 :: rest).
  split_and!; [by rewrite <- app_assoc|..|done| |].
  - apply Forall_app; split; [apply Forall_app; split; [|by repeat constructor]|by constructor].
    eapply Forall_impl; [exact Hn|]. by intros ? [? _].
  - intros Hr. by destruct (HOk Hr).
  - intros err Hr. destruct (HErr err Hr) as [Hsv He]. rewrite He by auto. split; [|done].
    rewrite !saves_app, (saves_work _ _ Hn). unfold saves at 1 2. simpl.
    rewrite bool_decide_true by done. simpl. fold (saves id rest). lia.
Qed.

Lemma retry_loop_attempts left attempt retry e wf own :
  doing own (retry_loop left attempt retry e wf) (retried (execution_id e) left retry own).
Proof.
  set (id := execution_id e). revert attempt own.
  assert (Hfirst : ∀ left own es r, attempted id own es r →
    (r = Ok tt ∨ r = Panic ∨ left = 0 ∨ retry = false) → retried id left retry own es r).
  { intros left' own es r (ok & new & -> & Hn & Hseen & Hok) Hr. exists ok, new.
    split_and!; [done|..|done| |].
    - eapply Forall_impl; [exact Hn|]. by intros ? [? _].
    - intros ->. rewrite saves_work by done. split; [|done]. destruct ok; [done|].
      by specialize (Hok eq_refl).
    - intros err ->. rewrite saves_work by done. destruct Hr as [?|[?|[->| ->]]]; [done..| |].
      + split; [by destruct retry|]. intros [?|[_ ?]]; [|lia]. specialize (Hok ltac:(done)). congruence.
      + split; [done|]. intros [?|[? _]]; [|done]. specialize (Hok ltac:(done)). congruence. }
  induction left as [|left IH]; intros attempt own; cbn [retry_loop];
    (eapply (does_bind _ _ _ _ _ (λ es rr, match rr with
      | Ok r => attempted id own es r | Err _ => False | Panic => attempted id own es Panic end));
     [eapply does_try; [apply internal_attempts|done..]|..|done|intros es Ha; apply Hfirst; auto]).
  - intros es r Ha. destruct r; apply does_pure; apply Hfirst; auto.
  - intros es r Ha. destruct r as [[]|err|]; [apply does_pure, Hfirst; auto| |apply does_pure, Hfirst; auto].
    destruct retry eqn:Er; [|apply does_pure, Hfirst; auto].
    destruct Ha as (ok & new & -> & Hn & Hseen & Hok).
    eapply (does_bind _ _ _ _ _ (λ es' r, es' = own ++ EvSaved id ok :: new ∧ ∀ e, r ≠ Err e)).
    { apply does_pure. split; [done|]. intros e'. unfold backoff_ms. simpl.
      destruct (_ <? _)%Z; [done|]. by destruct overflow_checks. }
    + intros es' ms [-> _]. eapply (does_bind _ _ _ _ _ (λ es' r,
        es' = own ++ EvSaved id ok :: new ++ [EvWait id ms] ∧ r = Ok tt)).
      { apply does_act. intros w Hw _. split.
        - split; [by apply (keyed w Hw)|]. simpl. intros i ok' [?|Hin]%elem_of_app;
            [by eapply (kept w Hw)|]. by apply list_elem_of_singleton in Hin.
        - exists [EvWait id ms]. split; [done|]. split; [|done]. by rewrite <- app_assoc. }
      * intros es'' [] [-> _]. eapply does_mono; [apply IH|]. intros es3 r3. by apply retried_more.
      * by intros es'' e' [_ ?].
      * by intros es'' [_ ?].
    + intros es' e' [_ Hne]. by destruct (Hne e').
    + intros es' [-> _]. exists ok, new. split_and!; [done|..|done|done|done].
      eapply Forall_impl; [exact Hn|]. by intros ? [? _].
Qed.

(** ** A wave *)

Lemma saves_concat_zero id (ess : list (list BatchEvent)) :
  (∀ es, es ∈ ess → saves id es = 0) → saves id (concat ess) = 0.
Proof.
  induction ess as [|es ess IH]; intros Hz; simpl; [done|].
  rewrite saves_app, Hz, IH; [done| |left]. intros es' ?. apply Hz. by right.
Qed.

Lemma saves_concat_one id (ess : list (list BatchEvent)) i es :
  ess !! i = Some es → (∀ k es', ess !! k = Some es' → k ≠ i → saves id es' = 0) →
  saves id (concat ess) = saves id es.
Proof.
  revert i. induction ess as [|es0 ess IH]; intros [|i]; simpl; intros Hi Hz; simplify_eq;
    rewrite saves_app.
  - rewrite saves_concat_zero; [lia|]. intros es' [k Hk]%list_elem_of_lookup. by apply (Hz (S k)).
  - rewrite (Hz 0 es0), (IH i); [done..| |done|done].
    intros k es' Hk Hne. apply (Hz (S k)); [done|congruence].
Qed.

Lemma collect_results_in rs id r :
  collect_results rs !! id = Some r → (id, r) ∈ rs ∧ r ≠ Panic.
Proof.
  unfold collect_results. induction rs as [|[i x] rs IH] using rev_ind; [done|].
  rewrite foldl_snoc. simpl. intros Hl.
  enough ((i, x) = (id, r) ∧ r ≠ Panic ∨ (id, r) ∈ rs ∧ r ≠ Panic) as [[<- ?]|[? ?]] by set_solver.
  destruct x as [a|e|]; [..|right; auto]; (destruct (decide (i = id)) as [->|Hne];
    [rewrite lookup_insert_eq in Hl; simplify_eq; by left
    |rewrite lookup_insert_ne in Hl by done; right; auto]).
Qed.

Definition wave_events (wave : list WorkflowExecutionRef) (new : list BatchEvent) : Prop :=
  (∀ ev, ev ∈ new → ∃ e, e ∈ wave ∧ event_exec ev = Some (execution_id e)) ∧
  (∀ e, e ∈ wave → ∃ ok, EvSaved (execution_id e) ok ∈ new).

(** What the result of an execution says of its attempts. *)
Definition result_events (j : BatchJob) (id : string) (new : list BatchEvent)
    (r : result BatchError unit) : Prop :=
  match r with
  | Ok _ => saves id new = 1 ∧ EvSaved id true ∈ new
  | Err err =>
      saves id new = (if retry_failed (config j) then S (max_retries (config j)) else 1) ∧
      (2 ≤ saves id new → err = AlreadyExists id)
  | Panic => False
  end.

Lemma retried_events id left retry es r :
  retried id left retry [] es r →
  (∀ ev, ev ∈ es → event_exec ev = Some id) ∧ (∃ ok, EvSaved id ok ∈ es) ∧
  (r = Ok tt → saves id es = 1 ∧ EvSaved id true ∈ es) ∧
  (∀ err, r = Err err → saves id es = (if retry then S left else 1) ∧
     (2 ≤ saves id es → err = AlreadyExists id)).
Proof.
  intros (ok & rest & -> & Hrest & _ & HOk & HErr). simpl.
  assert (Hs : saves id (EvSaved id ok :: rest) = S (saves id rest)).
  { unfold saves. simpl. by rewrite bool_decide_true. }
  rewrite Hs. split_and!.
  - rewrite Forall_forall in Hrest. intros ev [->|?]%elem_of_cons; [done|auto].
  - exists ok. left.
  - intros Hr. destruct (HOk Hr) as [-> ->]. split; [done|left].
  - intros err Hr. destruct (HErr err Hr) as [-> He]. split; [by destruct retry|].
    intros Hle. apply He. right. destruct retry; [split; [done|lia]|lia].
Qed.

(** The executions of a wave with what each logged and returned. *)
Definition runs (j : BatchJob) (e : WorkflowExecutionRef) (er : list BatchEvent * result BatchError unit)
    : Prop :=
  retried (execution_id e) (max_retries (config j)) (retry_failed (config j)) [] er.1 er.2.

Lemma wave_tasks sched j wave wf w w' results :
  execute_wave sched j wave wf w = (w', Ok results) → saved_kept w →
  saved_kept w' ∧ ∃ ers new, Forall2 (runs j) wave ers ∧ events w' = events w ++ new ∧
    new ≡ₚ concat ers.*1 ∧ results = collect_results (zip (execution_id <$> wave) ers.*2).
Proof.
  unfold execute_wave. intros Hx Hw.
  destruct (join_all_does events saved_kept sched (λ i es r, ∃ e, wave !! i = Some e ∧ runs j e (es, r))
    ((λ e, execute_with_retry e j wf) <$> wave) w)
    as (Hw' & Hlen & ess & new & Hess & HQ & Hlog & Hp); [|done|].
  { intros i t. rewrite list_lookup_fmap. intros (e & He & ->)%fmap_Some.
    eapply does_mono; [apply retry_loop_attempts|]. unfold runs. eauto. }
  destruct (join_all sched _ w) as [w1 rs]. rewrite length_fmap in Hlen, Hess. simplify_eq/=.
  split; [done|]. exists (zip ess rs), new. rewrite fst_zip, snd_zip by lia. split_and!; [|done..].
  apply Forall2_same_length_lookup. split; [rewrite length_zip_with; lia|].
  intros i e [es r] He (? & ? & [= <- <-] & Hes & Hr)%lookup_zip_with_Some.
  destruct (HQ i r es Hr Hes) as (e' & ? & ?). by simplify_eq.
Qed.

Lemma runs_wave_events j wave ers new :
  Forall2 (runs j) wave ers → new ≡ₚ concat ers.*1 → wave_events wave new.
Proof.
  intros HF Hp. split.
  - intros ev. rewrite Hp. intros (es & Hes & Hin)%list_elem_of_In%in_concat.
    apply list_elem_of_In, list_elem_of_fmap in Hes as ([es' r] & -> & Her).
    apply list_elem_of_lookup in Her as [i Hi].
    destruct (Forall2_lookup_r _ _ _ _ _ HF Hi) as (e & He & Hr). exists e.
    split; [by eapply list_elem_of_lookup_2|]. apply retried_events in Hr as [Hr _].
    apply Hr. by apply list_elem_of_In.
  - intros e [i He]%list_elem_of_lookup.
    destruct (Forall2_lookup_l _ _ _ _ _ HF He) as ([es r] & Hi & Hr).
    apply retried_events in Hr as (_ & [ok Hok] & _).
    exists ok. rewrite Hp. apply list_elem_of_In, in_concat. exists es.
    split; apply list_elem_of_In; [|done]. apply (list_elem_of_fmap_2' _ _ (es, r)); [|done].
    by eapply list_elem_of_lookup_2.
Qed.

Lemma runs_result j wave ers new id r :
  Forall2 (runs j) wave ers → new ≡ₚ concat ers.*1 → NoDup (execution_id <$> wave) →
  collect_results (zip (execution_id <$> wave) ers.*2) !! id = Some r →
  result_events j id new r.
Proof.
  intros HF Hp Hnd [[i Hi]%list_elem_of_lookup Hnp]%collect_results_in.
  apply lookup_zip_with_Some in Hi as (? & ? & [= <- <-] & Hid & Hr).
  rewrite list_lookup_fmap in Hid. apply fmap_Some in Hid as (e & He & ->).
  destruct (Forall2_lookup_l _ _ _ _ _ HF He) as ([es r'] & Hi & Hruns).
  rewrite list_lookup_fmap, Hi in Hr. simpl in Hr. injection Hr as <-.
  assert (Hone : saves (execution_id e) new = saves (execution_id e) es).
  { rewrite (saves_perm _ _ _ Hp). apply (saves_concat_one _ _ i); [by rewrite list_lookup_fmap, Hi|].
    intros k es' Hk Hne. rewrite list_lookup_fmap in Hk. apply fmap_Some in Hk as ([es2 r2] & Hk & ->).
    destruct (Forall2_lookup_r _ _ _ _ _ HF Hk) as (e2 & He2 & Hr2). apply saves_other.
    intros ev Hev Heq. apply retried_events in Hr2 as [Hr2 _]. specialize (Hr2 ev Hev).
    destruct Hne. apply (NoDup_lookup _ k i (execution_id e) Hnd); rewrite list_lookup_fmap;
      [rewrite He2|rewrite He]; simpl; congruence. }
  assert (Hin : ∀ ev, ev ∈ es → ev ∈ new).
  { intros ev Hev. rewrite Hp. apply list_elem_of_In, in_concat. exists es.
    split; apply list_elem_of_In; [|done]. apply (list_elem_of_fmap_2' _ _ (es, r')); [|done].
    by eapply list_elem_of_lookup_2. }
  apply retried_events in Hruns as (_ & _ & HOk & HErr). unfold result_events. rewrite Hone.
  destruct r' as [[]|err|]; [|by apply HErr|done]. destruct (HOk eq_refl). auto.
Qed.

(** In a wave with distinct identifiers, under every schedule: an execution
    that succeeded did so on its first and only attempt; one that failed was
    attempted as often as the configuration allows, and every retry failed because
    the record of the first attempt exists: retrying never helps. *)
Theorem retries_never_help sched j wave wf w w' results :
  saved_kept w → NoDup (execution_id <$> wave) →
  execute_wave sched j wave wf w = (w', Ok results) →
  ∃ new, events w' = events w ++ new ∧
    ∀ id r, results !! id = Some r → result_events j id new r.
Proof.
  intros Hw Hnd (_ & ers & new & HF & Hl & Hp & ->)%wave_tasks; [|done]. exists new.
  split; [done|]. intros id r. by eapply runs_result.
Qed.

(** ** The order of a job *)

(** A method that only writes the job. *)
Definition administrative {A} (m : method BWorld BatchError A) : Prop :=
  ∀ w w' r, m w = (w', r) →
    executions w' = executions w ∧
    ∃ new, events w' = events w ++ new ∧ Forall (λ ev, event_exec ev = None) new.

Lemma administrative_same {A} (m : method BWorld BatchError A) :
  (∀ w, executions (m w).1 = executions w ∧ events (m w).1 = events w) → administrative m.
Proof.
  intros Hm w w' r E. specialize (Hm w). rewrite E in Hm. destruct Hm as [? He]. split; [done|].
  exists []. rewrite app_nil_r. by split.
Qed.

Lemma administrative_bind {A B} (m : method BWorld BatchError A) (f : A → method BWorld BatchError B) :
  administrative m → (∀ a, administrative (f a)) → administrative (m ≫= f).
Proof.
  intros Hm Hf w w' r [(w1 & a & E1 & E2)|[(e & E & ->)|[E ->]]]%method_bind_inv;
    [|by eapply Hm..].
  destruct (Hm _ _ _ E1) as (Hx1 & new1 & He1 & H1'), (Hf _ _ _ _ E2) as (Hx2 & new2 & He2 & H2').
  split; [congruence|]. exists (new1 ++ new2). rewrite He2, He1, app_assoc. split; [done|].
  by apply Forall_app.
Qed.

Lemma administrative_store {A} (m : method BatchJobStore BatchError A) : administrative (in_store m).
Proof. apply administrative_same. intros w. unfold in_store. by destruct (m _). Qed.

Lemma administrative_update_job j : administrative (update_job j).
Proof.
  apply administrative_bind; [apply administrative_store|]. intros _ w w' r [= <- <-].
  split; [done|]. exists [EvJob (job_id j) (job_status j)]. by repeat constructor.
Qed.

Lemma administrative_results rs j c f : administrative (process_results rs j c f).
Proof.
  revert c f. induction rs as [|[id [u|e|]] rs IH]; intros c f; simpl; auto.
  { by apply administrative_same. }
  destruct (stop_on_error (config j)); [|apply IH].
  apply administrative_bind; [by apply administrative_same|]. intros now.
  apply administrative_bind; [apply administrative_update_job|]. intros _. by apply administrative_same.
Qed.

Lemma administrative_progress j : administrative (update_batch_progress j).
Proof.
  apply administrative_bind; [by apply administrative_same|]. intros now.
  apply administrative_bind; [apply administrative_update_job|]. intros _. by apply administrative_same.
Qed.

Lemma administrative_kept {A} (m : method BWorld BatchError A) w w' r :
  administrative m → m w = (w', r) → saved_kept w → saved_kept w'.
Proof.
  intros Hm E [Hk Hs]. destruct (Hm _ _ _ E) as (Hx & new & He & Hn). split; rewrite Hx; [done|].
  intros id ok. rewrite He. intros [?|Hin]%elem_of_app; [by eapply Hs|].
  rewrite Forall_forall in Hn. by specialize (Hn _ Hin).
Qed.

(** The events of a wave, with the writes of the job that follow it. *)
Definition block_of (wave : list WorkflowExecutionRef) (block : list BatchEvent) : Prop :=
  (∀ ev id, ev ∈ block → event_exec ev = Some id → id ∈ execution_id <$> wave) ∧
  (∀ e, e ∈ wave → ∃ ok, EvSaved (execution_id e) ok ∈ block).

Lemma block_of_wave wave new admin :
  wave_events wave new → Forall (λ ev, event_exec ev = None) admin → block_of wave (new ++ admin).
Proof.
  intros [Hin Hall] Ha. split.
  - intros ev id [Hev|Hev]%elem_of_app Hid.
    + destruct (Hin ev Hev) as (e & He & He'). simplify_eq. by apply list_elem_of_fmap_2.
    + rewrite Forall_forall in Ha. specialize (Ha ev Hev). congruence.
  - intros e [ok Hok]%Hall. exists ok. set_solver.
Qed.

Lemma run_waves_blocks scheds waves j wf c f w w' r :
  run_waves scheds waves j wf c f w = (w', Ok r) → saved_kept w →
  ∃ blocks, events w' = events w ++ concat blocks ∧ Forall2 block_of waves blocks.
Proof.
  revert scheds j c f w. induction waves as [|wave waves IH]; intros scheds j c f w; simpl.
  { intros [= <- <-] _. exists []. by rewrite app_nil_r. }
  intros (w1 & results & E1 & E)%method_bind_Ok Hw.
  apply method_bind_Ok in E as (w2 & [c' f'] & E2 & E).
  apply method_bind_Ok in E as (w3 & j' & E3 & E).
  destruct (wave_tasks _ _ _ _ _ _ _ E1 Hw) as (Hw1 & ers & new & HF & Hl1 & Hp & ->).
  pose proof (administrative_kept _ _ _ _ (administrative_results _ _ _ _) E2 Hw1) as Hw2.
  pose proof (administrative_kept _ _ _ _ (administrative_progress _) E3 Hw2) as Hw3.
  destruct (administrative_results _ _ _ _ _ _ _ E2) as (_ & n2 & Hl2 & Hn2).
  destruct (administrative_progress _ _ _ _ E3) as (_ & n3 & Hl3 & Hn3).
  destruct (IH _ _ _ _ _ E Hw3) as (blocks & Hl & HB).
  exists ((new ++ n2 ++ n3) :: blocks). split.
  - rewrite Hl, Hl3, Hl2, Hl1. simpl. by rewrite <- !app_assoc.
  - constructor; [|done]. apply block_of_wave; [by eapply runs_wave_events|by apply Forall_app].
Qed.

Lemma concat_position {A} (ll : list (list A)) p x :
  concat ll !! p = Some x →
  ∃ i l, ll !! i = Some l ∧ x ∈ l ∧
    length (concat (take i ll)) ≤ p < length (concat (take (S i) ll)).
Proof.
  revert p. induction ll as [|l ll IH]; intros p; [done|]. simpl.
  destruct (decide (p < length l)) as [Hp|Hp].
  - rewrite lookup_app_l by done. intros Hx. exists 0, l. simpl. rewrite length_app.
    split_and!; [done|by eapply list_elem_of_lookup_2|lia..].
  - rewrite lookup_app_r by lia. intros (i & l' & Hi & Hx & Hlen)%IH. exists (S i), l'. simpl in *.
    rewrite !length_app in *. split_and!; [done..|lia|lia].
Qed.

Lemma take_concat_le {A} (ll : list (list A)) i k :
  i ≤ k → length (concat (take i ll)) ≤ length (concat (take k ll)).
Proof.
  revert i k. induction ll as [|l ll IH]; intros [|i] [|k] Hik; simpl; try lia.
  rewrite !length_app. specialize (IH i k). lia.
Qed.

Lemma begin_job_spec id w w' j wf waves :
  begin_job id w = (w', Ok (j, wf, waves)) →
  executions w' = executions w ∧
  (∃ new, events w' = events w ++ new ∧ Forall (λ ev, event_exec ev = None) new) ∧
  resolve_dependencies (workflow_executions j) = Ok waves ∧
  ∃ j0, (BatchStore.get id (job_store w)).2 = Ok (Some j0) ∧
    workflow_executions j = workflow_executions j0.
Proof.
  intros E. unfold begin_job in E. apply method_bind_Ok in E as (w1 & found & E1 & E).
  apply method_bind_Ok in E as (w2 & j0 & E2 & E). unfold lift in E2.
  destruct found as [j1|]; simplify_eq/=.
  apply method_bind_Ok in E as (w3 & known & E3 & E). unfold gets in E3. simplify_eq.
  apply method_bind_Ok in E as (w4 & wf0 & E4 & E). unfold lift in E4. simplify_eq.
  apply method_bind_Ok in E as (w5 & [] & E5 & E). unfold guard_ok in E5.
  destruct (wf_enabled wf0); unfold method_ret, fail in E5; simplify_eq.
  apply method_bind_Ok in E as (w6 & [] & E6 & E). unfold lift in E6. simplify_eq.
  apply method_bind_Ok in E as (w7 & now & E7 & E). unfold gets in E7. simplify_eq.
  apply method_bind_Ok in E as (w8 & [] & E8 & E).
  apply method_bind_Ok in E as (w9 & ws & E9 & E). unfold lift in E9.
  unfold mret, method_MRet, method_ret in E. simplify_eq.
  destruct (administrative_store _ _ _ _ E1) as (Hx1 & n1 & He1 & Hn1).
  destruct (administrative_update_job _ _ _ _ E8) as (Hx2 & n2 & He2 & Hn2).
  split_and!; [congruence| |done|].
  - exists (n1 ++ n2). rewrite He2, He1, app_assoc. split; [done|]. by apply Forall_app.
  - eexists. split; [unfold in_store in E1; destruct (BatchStore.get id _); by simplify_eq|done].
Qed.

(** The blocks of a job between its own writes. *)
Lemma execute_blocks scheds id w w' :
  execute scheds id w = (w', Ok tt) → saved_kept w →
  ∃ j waves first blocks last,
    (BatchStore.get id (job_store w)).2 = Ok (Some j) ∧
    resolve_dependencies (workflow_executions j) = Ok waves ∧
    events w' = events w ++ concat (first :: blocks ++ [last]) ∧
    Forall2 block_of waves blocks ∧
    Forall (λ ev, event_exec ev = None) first ∧ Forall (λ ev, event_exec ev = None) last.
Proof.
  intros E Hw. unfold execute in E. apply method_bind_Ok in E as (w1 & [[j wf] waves] & E1 & E).
  apply method_bind_Ok in E as (w2 & [[j' c] f] & E2 & E3).
  destruct (begin_job_spec _ _ _ _ _ _ E1) as (Hx & (first & He1 & Hf) & Hres & j0 & Hj & Hes).
  assert (Hw1 : saved_kept w1).
  { destruct Hw as [Hk Hs]. split; rewrite Hx; [done|]. intros i ok. rewrite He1.
    intros [?|Hin]%elem_of_app; [by eapply Hs|]. rewrite Forall_forall in Hf. by specialize (Hf _ Hin). }
  destruct (run_waves_blocks _ _ _ _ _ _ _ _ _ E2 Hw1) as (blocks & He2 & HB).
  assert (Ha : administrative (end_job j' c f)).
  { apply administrative_bind; [by apply administrative_same|]. intros. apply administrative_update_job. }
  destruct (Ha _ _ _ E3) as (_ & last & He3 & Hl). rewrite Hes in Hres.
  exists j0, waves, first, blocks, last. split_and!; [done..| |done|done|done].
  rewrite He3, He2, He1. simpl. rewrite concat_app. simpl. by rewrite app_nil_r, <- !app_assoc.
Qed.

(** The block an event of an execution is in is the one of its wave. *)
Lemma block_index waves first blocks last k b ev id :
  Forall2 block_of waves blocks → Forall (λ ev, event_exec ev = None) first →
  Forall (λ ev, event_exec ev = None) last →
  (first :: blocks ++ [last]) !! k = Some b → ev ∈ b → event_exec ev = Some id →
  ∃ i wave, k = S i ∧ waves !! i = Some wave ∧ id ∈ execution_id <$> wave.
Proof.
  intros HB Hf Hl Hk Hev Hid. rewrite Forall_forall in Hf, Hl. destruct k as [|k]; simpl in Hk.
  { simplify_eq. specialize (Hf ev Hev). congruence. }
  apply lookup_app_Some in Hk as [Hk|[_ Hk]].
  - destruct (Forall2_lookup_r _ _ _ _ _ HB Hk) as (wave & Hw & Hb & _). exists k, wave.
    split_and!; [done..|]. by eapply Hb.
  - apply list_lookup_singleton_Some in Hk as [_ <-]. specialize (Hl ev Hev). congruence.
Qed.

(** C8: A job that ran to its end attempted every one of its executions, and all
    that was done for an execution came after all that was done for the executions
    it depends on, whatever the schedules of its waves. *)
Theorem dependencies_run_first scheds id j w w' :
  saved_kept w → execute scheds id w = (w', Ok tt) →
  (BatchStore.get id (job_store w)).2 = Ok (Some j) → NoDup (execution_id <$> workflow_executions j) →
  ∃ new, events w' = events w ++ new ∧
    (∀ e, e ∈ workflow_executions j → ∃ ok, EvSaved (execution_id e) ok ∈ new) ∧
    ∀ e d p q evd eve, e ∈ workflow_executions j → d ∈ dependencies e →
      new !! p = Some evd → event_exec evd = Some d →
      new !! q = Some eve → event_exec eve = Some (execution_id e) → p < q.
Proof.
  intros Hw E Hj Hnd.
  destruct (execute_blocks _ _ _ _ E Hw)
    as (j' & waves & first & blocks & last & Hj' & Hres & He & HB & Hf & Hl).
  rewrite Hj in Hj'. injection Hj' as <-. exists (concat (first :: blocks ++ [last])). split; [done|].
  apply resolve_build in Hres as [_ Hb]. apply build_waves_sound in Hb as [Hp [_ Hok]]. split.
  - intros e He'. rewrite <- Hp in He'. apply list_elem_of_In, in_concat in He' as (wave & Hwv & He').
    apply list_elem_of_In, list_elem_of_lookup in Hwv as [i Hi]. apply list_elem_of_In in He'.
    destruct (Forall2_lookup_l _ _ _ _ _ HB Hi) as (b & Hbi & _ & Hall).
    destruct (Hall e He') as [ok Hin]. exists ok. apply list_elem_of_In, in_concat. exists b.
    split; apply list_elem_of_In; [|done]. right. apply elem_of_app. left. by eapply list_elem_of_lookup_2.
  - intros e d p q evd eve He' Hd (kd & bd & Hkd & Hind & Hpd)%concat_position Hxd
      (ke & be & Hke & Hine & Hpe)%concat_position Hxe.
    destruct (block_index _ _ _ _ _ _ _ _ HB Hf Hl Hkd Hind Hxd) as (i1 & w1 & -> & Hw1 & Hid1).
    destruct (block_index _ _ _ _ _ _ _ _ HB Hf Hl Hke Hine Hxe) as (i2 & w2 & -> & Hw2 & Hid2).
    rewrite <- Hp in He'. apply list_elem_of_In, in_concat in He' as (w3 & Hw3 & He').
    apply list_elem_of_In, list_elem_of_lookup in Hw3 as [i3 Hw3]. apply list_elem_of_In in He'.
    assert (i2 = i3) as -> by (eapply (wave_index_unique waves); [done..|by apply list_elem_of_fmap_2]).
    destruct (Hok i3 w3 e Hw3 He') as [Hdeps _].
    destruct (Hdeps d Hd) as [|(i4 & w4 & Hlt & Hw4 & Hid4)%before_lookup]; [set_solver|].
    assert (i1 = i4) as -> by (by eapply (wave_index_unique waves)).
    pose proof (take_concat_le (first :: blocks ++ [last]) (S (S i4)) (S i3)). lia.
Qed.
End Executor.

(** * Paused executions

    An execution that pauses and is resumed, however often, runs every action of
    its route at most once and in order; when it completes it has run them all. *)

(** The indexes of the actions run for an execution. *)
Definition action_of (id : string) (ev : BatchEvent) : option nat :=
  match ev with
  | EvAction i k => if decide (i = id) then Some k else None
  | _ => None
  end.

Definition actions_of (id : string) (l : list BatchEvent) : list nat := omap (action_of id) l.

Section Resume.
Context `{BatchEnv, ExecOrder, JobDb}.
Implicit Types w : BWorld.

(** The world after actions: records and workflows as before. *)
Definition ran (id : string) (from k : nat) w w' : Prop :=
  executions w' = executions w ∧ workflows w' = workflows w ∧ exec_logs w' = exec_logs w ∧
  actions_of id (events w') = actions_of id (events w) ++ seq from k.

Lemma actions_run id index l data w w' r :
  run_task (execute_actions id index l data) w = (w', r) →
  ∃ k, ran id index k w w' ∧ k ≤ length l ∧
    ∀ d rs, r = Ok (d, rs) → k = length rs ∧
      match find_paused rs with Some _ => 0 < k | None => k = length l end.
Proof.
  revert index data w w' r. induction l as [|a l IH]; intros index data w w' r.
  { intros [= <- <-]. exists 0. split_and!; [split_and!; [done..|by rewrite app_nil_r]|done|].
    intros d rs [= <- <-]. done. }
  cbn [execute_actions]. rewrite run_task_bind, run_task_act. unfold execute_action.
  assert (Hone : ran id index 1 w (emit (EvAction id index) w)).
  { split_and!; [done..|]. simpl. unfold actions_of. rewrite omap_app. simpl. by rewrite decide_True. }
  destruct (run_action (events w) a data) as [[d' ar]|]; cycle 1.
  { intros [= <- <-]. exists 1. split_and!; [done|simpl; lia|done]. }
  case_decide as Hp.
  { intros [= <- <-]. exists 1. split_and!; [done|simpl; lia|]. intros d rs [= <- <-]. split; [done|].
    unfold find_paused. simpl. rewrite decide_True by done. simpl. lia. }
  rewrite run_task_bind. destruct (run_task (execute_actions id (S index) l d') _) as [w1 r1] eqn:E.
  destruct (IH _ _ _ _ _ E) as (k & (Hx & Hwf & Hlg & Ha) & Hk & Hr). intros E'.
  assert (w' = w1) as -> by (destruct r1 as [[? ?]| |]; by simplify_eq/=).
  exists (S k). split_and!; [|simpl; lia|].
  - destruct Hone as (_ & _ & _ & Hone). split_and!; [done..|]. by rewrite Ha, Hone, <- app_assoc.
  - intros d rs ->. destruct r1 as [[d1 rs1]| |]; simplify_eq/=.
    destruct (Hr _ _ eq_refl) as [-> Hf]. split; [done|]. unfold find_paused in *. simpl.
    rewrite decide_False by done. destruct (list_find _ rs1) as [[? ?]|]; simpl in *; lia.
Qed.

(** ** Where an execution stands *)

(** The first [m] actions have been run; a pause is after the last of them. *)
Definition stands (id wfid : string) (n m : nat) (x : WorkflowExecution) w : Prop :=
  executions w !! id = Some x ∧ ex_id x = id ∧ ex_workflow_id x = wfid ∧
  actions_of id (events w) = seq 0 m ∧ m ≤ n ∧
  (ex_status x = ExPaused → 0 < m ∧ checkpoint_action_index x = Some (m - 1)) ∧
  (ex_status x = ExCompleted → m = n).

Definition progressing (id wfid : string) (n : nat) w : Prop := ∃ m x, stands id wfid n m x w.

(** A written record. *)
Lemma stands_update id wfid n m m' x y w w0 r :
  update_execution y w = (w0, r) → stands id wfid n m x w →
  ex_id y = id → ex_workflow_id y = wfid → m' = m →
  (ex_status y = ExPaused → 0 < m' ∧ checkpoint_action_index y = Some (m' - 1)) →
  (ex_status y = ExCompleted → m' = n) →
  stands id wfid n m' y w0 ∧ workflows w0 = workflows w ∧ r = Ok tt.
Proof.
  intros E (Hx & _ & _ & Ha & Hm & _) Hid Hwf -> Hp Hc. unfold update_execution in E.
  rewrite Hid, Hx in E. injection E as <- <-. split; [|done]. unfold stands. simpl.
  rewrite Hid, lookup_insert_eq. split_and!; [done..| |done|done|done].
  unfold actions_of in *. rewrite omap_app. simpl. by rewrite app_nil_r.
Qed.

Lemma stands_run id wfid n m k x w w' :
  ran id m k w w' → m + k ≤ n → ex_status x ≠ ExPaused → ex_status x ≠ ExCompleted →
  stands id wfid n m x w → stands id wfid n (m + k) x w'.
Proof.
  intros (Hx & _ & _ & Ha) Hk Hnp Hnc (? & ? & ? & Hs & ? & _). unfold stands. rewrite Hx, Ha, Hs.
  split_and!; [done..|by rewrite seq_app|done|done|done].
Qed.

Lemma require_run id w x :
  executions w !! id = Some x →
  run_task (require_execution id) w = (w, Ok (with_logs (exec_logs w !! id) x)).
Proof.
  intros Hx. unfold require_execution. rewrite run_task_bind, run_task_act. unfold get_execution.
  by rewrite Hx.
Qed.

Lemma first_run e wf route rest w :
  routes wf = route :: rest → executions w !! execution_id e = None →
  actions_of (execution_id e) (events w) = [] →
  progressing (execution_id e) (wf_id wf) (length (actions route))
    (run_task (execute_workflow_internal e wf) w).1 ∧
  workflows (run_task (execute_workflow_internal e wf) w).1 = workflows w.
Proof.
  intros Hr Hn Ha. unfold execute_workflow_internal. set (id := execution_id e) in *.
  rewrite run_task_bind, run_task_act. unfold save_execution. cbn [ex_id new_execution].
  rewrite Hn, Hr.
  set (x0 := new_execution id _ _ _ _ _). set (w1 := emit (EvSaved id true) (put_execution x0 w)).
  assert (H1' : stands id (wf_id wf) (length (actions route)) 0 x0 w1).
  { unfold stands. simpl. rewrite lookup_insert_eq. split_and!; [done..| |lia|done|done].
    unfold actions_of in *. rewrite omap_app. simpl. by rewrite app_nil_r. }
  rewrite run_task_bind. destruct (run_task (execute_actions id 0 _ _) w1) as [w2 r] eqn:E.
  destruct (actions_run _ _ _ _ _ _ _ E) as (k & Hran & Hk & Hres).
  assert (H2' : stands id (wf_id wf) (length (actions route)) (0 + k) x0 w2) by by eapply stands_run.
  assert (Hwf : workflows w2 = workflows w) by apply Hran.
  destruct r as [[data rs]|err|]; [|split; [by exists k, x0|done]..]. simpl in H2'.
  destruct (Hres _ _ eq_refl) as [-> Hf].
  destruct (find_paused rs) as [p|].
  - rewrite run_task_bind, (require_run _ _ _ (proj1 H2')), run_task_act.
    destruct (update_execution _ w2) as [w3 r3] eqn:E3.
    destruct (stands_update _ _ _ _ (length rs) _ _ _ _ _ E3 H2') as (H3' & Hw3 & _); [done..|].
    split; [by do 2 eexists|simpl; congruence].
  - destruct (failed_actions rs); [|split; [by exists (length rs), x0|done]].
    rewrite run_task_bind, (require_run _ _ _ (proj1 H2')), run_task_act.
    destruct (update_execution _ w2) as [w3 r3] eqn:E3.
    destruct (stands_update _ _ _ _ (length rs) _ _ _ _ _ E3 H2') as (H3' & Hw3 & _); [done..|].
    split; [by do 2 eexists|simpl; congruence].
Qed.

Lemma resume_from_run id wfid route m x0 x data w :
  stands id wfid (length (actions route)) m x0 w → ex_id x = id → ex_workflow_id x = wfid → 0 < m →
  let w' := (run_task (resume_from id x route (m - 1) data) w).1 in
  progressing id wfid (length (actions route)) w' ∧ workflows w' = workflows w.
Proof.
  intros Hs Hid Hwf Hm. unfold resume_from. replace (S (m - 1)) with m by lia.
  rewrite run_task_bind, run_task_act. cbn [gets]. set (running := clear_checkpoint _ _).
  rewrite run_task_bind, run_task_act. destruct (update_execution running w) as [w1 r1] eqn:E1.
  destruct (stands_update _ _ _ _ m _ _ _ _ _ E1 Hs) as (H1' & Hw1 & ->); [done..|].
  rewrite run_task_bind. destruct (run_task (execute_actions id m _ _) w1) as [w2 r] eqn:E.
  destruct (actions_run _ _ _ _ _ _ _ E) as (k & Hran & Hk & Hres). rewrite length_drop in Hk, Hres.
  assert (Hle : m ≤ length (actions route)) by apply H1'.
  assert (H2' : stands id wfid (length (actions route)) (m + k) running w2)
    by (eapply stands_run; [done|lia|done..]).
  assert (Hw2 : workflows w2 = workflows w) by (rewrite <- Hw1; apply Hran).
  destruct r as [[data' rs]|err|]; [|split; [by do 2 eexists|done]..].
  destruct (Hres _ _ eq_refl) as [-> Hf]. destruct (find_paused rs) as [p|].
  - rewrite run_task_bind, (require_run _ _ _ (proj1 H2')), run_task_act.
    destruct (update_execution _ w2) as [w3 r3] eqn:E3.
    destruct (stands_update _ _ _ _ (m + length rs) _ _ _ _ _ E3 H2') as (H3' & Hw3 & _);
      [done|done|done| |done|]; [intros _; simpl; split; [lia|f_equal; lia]|].
    split; [by do 2 eexists|simpl; congruence].
  - destruct (failed_actions rs); [|rewrite run_task_bind]; rewrite run_task_act;
      destruct (update_execution _ w2) as [w3 r3] eqn:E3;
      (destruct (stands_update _ _ _ _ (m + length rs) _ _ _ _ _ E3 H2') as (H3' & Hw3 & ->);
        [done|done|done|done|simpl; lia|]; split; [by do 2 eexists|simpl; congruence]).
Qed.

Lemma resume_run id wf route rest w :
  workflows w !! wf_id wf = Some wf → routes wf = route :: rest →
  progressing id (wf_id wf) (length (actions route)) w →
  let w' := (run_task (resume_execution id) w).1 in
  progressing id (wf_id wf) (length (actions route)) w' ∧ workflows w' = workflows w.
Proof.
  intros Hwf Hr (m & x & Hs). pose proof Hs as (Hx & Hid & Hwid & _ & _ & Hp & _).
  assert (Hsame : progressing id (wf_id wf) (length (actions route)) w ∧ workflows w = workflows w)
    by (split; [by exists m, x|done]).
  unfold resume_execution. rewrite run_task_bind, (require_run _ _ _ Hx).
  set (y := with_logs _ x). cbn [ex_status y with_logs].
  case_bool_decide as Hst; cbn [negb]; [|done]. destruct (Hp Hst) as [Hm Hc].
  rewrite run_task_bind. cbn [checkpoint_action_index y with_logs]. rewrite Hc. cbn [ok_or pure run_task].
  rewrite run_task_bind. destruct (intermediate_data y) as [point|]; [|done]. cbn [ok_or pure run_task].
  rewrite run_task_bind. destruct (json_get point _) as [data|]; [|done]. cbn [ok_or pure run_task].
  rewrite run_task_bind, run_task_act. cbn [gets]. rewrite run_task_bind.
  cbn [ex_workflow_id y with_logs]. rewrite Hwid, Hwf. cbn [ok_or pure run_task]. rewrite Hr.
  destruct (Nat.leb_spec (length (actions route)) (S (m - 1))) as [Hle|Hlt].
  - rewrite run_task_act. destruct (update_execution _ w) as [w1 r1] eqn:E1.
    assert (m ≤ length (actions route)) by apply Hs.
    destruct (stands_update _ _ _ _ m _ _ _ _ _ E1 Hs) as (H1' & Hw1 & _); [done..|simpl; lia|].
    split; [by do 2 eexists|done].
  - by apply (resume_from_run id (wf_id wf) route m x).
Qed.

(** The life of an execution in a store that others use too: its first run, then
    resumptions one after another, each begun when the one before has answered.  Two
    resumptions that overlap are not such a life: both may pass the check of the status
    before either changes it, and the remaining actions then run twice. *)
Inductive lifetime (e : WorkflowExecutionRef) (wf : Workflow Action) : BWorld → Prop :=
  | life_start w :
      executions w !! execution_id e = None → actions_of (execution_id e) (events w) = [] →
      workflows w !! wf_id wf = Some wf →
      lifetime e wf (run_task (execute_workflow_internal e wf) w).1
  | life_resume w : lifetime e wf w → lifetime e wf (run_task (resume_execution (execution_id e)) w).1
  | life_other w w' :
      lifetime e wf w → executions w' !! execution_id e = executions w !! execution_id e →
      actions_of (execution_id e) (events w') = actions_of (execution_id e) (events w) →
      workflows w' !! wf_id wf = workflows w !! wf_id wf → lifetime e wf w'.

(** C15: However often an execution pauses and is resumed, as long as its runs do not
    overlap (each resumption starts after the first run and the resumptions before it have
    answered, see [lifetime]), the actions run for it are the first ones of its route, each
    exactly once and in order; a pause remembers the last of them, and a completed
    execution has run all of them. *)
Theorem actions_run_once e wf route rest w :
  routes wf = route :: rest → lifetime e wf w →
  ∃ m x, executions w !! execution_id e = Some x ∧
    actions_of (execution_id e) (events w) = seq 0 m ∧ m ≤ length (actions route) ∧
    (ex_status x = ExPaused → checkpoint_action_index x = Some (m - 1) ∧ 0 < m) ∧
    (ex_status x = ExCompleted → m = length (actions route)).
Proof.
  intros Hr Hl.
  enough (progressing (execution_id e) (wf_id wf) (length (actions route)) w ∧
          workflows w !! wf_id wf = Some wf) as [(m & x & ? & _ & _ & ? & ? & Hp & ?) _].
  { exists m, x. split_and!; [done..| |done]. intros Hs. by destruct (Hp Hs). }
  induction Hl as [w Hn Ha Hwf|w _ [IH Hwf]|w w' _ [(m & x & Hx & Hs) Hwf] He Hev Hw].
  - destruct (first_run e wf route rest w Hr Hn Ha) as [? Hw]. split; [done|by rewrite Hw].
  - destruct (resume_run _ _ _ _ _ Hwf Hr IH) as [? Hw]. split; [done|by rewrite Hw].
  - split; [|congruence]. exists m, x. unfold stands in *. rewrite He, Hev. by split.
Qed.
End Resume.
