(* ===== verification/BatchSample.v ===== *)
(** * Routes and batch jobs: an instance and concrete runs

    A regular expression crate, an environment and a database that keep the laws
    of the workflow engine, the theorems on routes and batch jobs applied to small
    workflows, and runs outside their conditions. *)

From Stdlib Require Import ZArith Lia Ascii.
From stdpp Require Import base numbers option strings gmap list sorting countable.
From S2P Require Import Prelude RustText RustStd F64 Effects Tasks WfRouting BatchJobs BatchStore.
From S2P Require Import BatchExecutor BatchExecutorFacts.

Local Open Scope Z_scope.

(** ** Parameters *)

(** Patterns are literal prefixes. *)
#[export] Instance prefix_regex : RegexCrate :=
  {| regex_match p s := Some (starts_with s p) |}.

Inductive DemoAction : Type := Work | Break | AskApproval | Crash.

Definition demo_result (st : ActionStatus) : ActionResult :=
  {| action_type := "demo"; action_status := st; action_duration_ms := 1; action_error := None;
     action_output := None |}.

#[export] Instance demo_env : BatchEnv := {|
  Action := DemoAction;
  run_action _ a data :=
    match a with
    | Work => Some (data, demo_result ActSuccess)
    | Break => Some (data, demo_result ActFailed)
    | AskApproval => Some (data, demo_result ActPaused)
    | Crash => None
    end;
  batch_clock l := Z.of_nat (length l);
  wave_order m := map_to_list m;
  overflow_checks := true;
|}.

#[export] Instance demo_env_ok : BatchEnvOk.
Proof. by split. Qed.

#[export] Instance list_exec_order : ExecOrder := {| exec_keys m := (map_to_list m).*1 |}.

#[export] Instance list_exec_order_ok : ExecOrderOk.
Proof. by split. Qed.

(** A text that keeps the key of a job. *)
Definition status_nat (st : BatchJobStatus) : nat :=
  match st with
  | JobPending => 0 | JobValidating => 1 | JobRunning => 2 | JobPaused => 3 | JobCompleted => 4
  | JobPartiallyCompleted => 5 | JobFailed => 6 | JobCancelled => 7
  end.

Definition nat_status (n : nat) : BatchJobStatus := nth n all_statuses JobPending.

Lemma nat_status_nat st : nat_status (status_nat st) = st.
Proof. by destruct st. Qed.

Definition key_fields (j : BatchJob) : list positive :=
  [encode (job_id j); encode (status_nat (job_status j)); encode (job_created_at j);
   encode (created_by j)].

Definition fields_job (l : list positive) : option BatchJob :=
  match l with
  | [a; b; c; d] =>
      i ← decode a; n ← decode b; t ← decode c; u ← decode d;
      Some (job_set_status (nat_status n) t (new_job i "" "" default_job_config u t))
  | _ => None
  end.

#[export] Instance key_db : JobDb := {|
  job_to_json j := pos_text (positives_flatten (key_fields j));
  job_of_json s := positives_unflatten (text_pos s) ≫= fields_job;
  db_ok _ := true;
|}.

Lemma fields_job_key j :
  fields_job (key_fields j) =
  Some (job_set_status (job_status j) (job_created_at j)
          (new_job (job_id j) "" "" default_job_config (created_by j) (job_created_at j))).
Proof.
  unfold fields_job, key_fields. rewrite !decode_encode. cbn [mbind option_bind].
  by rewrite nat_status_nat.
Qed.

#[export] Instance key_db_ok : JobDbOk.
Proof.
  split. intros j. unfold job_to_json, job_of_json, key_db.
  rewrite text_pos_text, positives_unflatten_flatten. cbn [mbind option_bind].
  rewrite fields_job_key. by eexists.
Qed.

(** ** Routes *)

Definition demo_route (id : string) (c : Condition) (p : Z) (l : list DemoAction) : Route DemoAction :=
  route_with_priority id id c l p.

Definition demo_flow (rs : list (Route DemoAction)) : Workflow DemoAction :=
  new_workflow "flow" "Flow" rs 0.

Definition is_gold : Condition := Equals "customer.level" (JString "gold").

Definition priority_flow : Workflow DemoAction :=
  with_default_route "all"
    (demo_flow [demo_route "all" (Exists "customer") 1 [Work]; demo_route "gold" is_gold 5 [Work]]).

Definition gold_order : Json := JObject [("customer", JObject [("level", JString "gold")])].

(** An order of a gold customer takes the route of higher priority. *)
Lemma select_route_best_witness :
  (∃ i, best_at (eligible gold_order) (routes priority_flow) i (demo_route "gold" is_gold 5 [Work])) ∨
  (Forall (λ x, eligible gold_order x = false) (routes priority_flow) ∧
   default_route priority_flow = Some "gold"%string ∧
   find_route priority_flow "gold" = Some (demo_route "gold" is_gold 5 [Work])).
Proof. exact (select_route_best priority_flow gold_order eq_refl). Defined.

(** ** Waves *)

Definition exec_ref (id : string) (deps : list string) : WorkflowExecutionRef :=
  foldl (λ e d, with_dependency d e) (new_ref id (JString id) "table") deps.

Definition load : WorkflowExecutionRef := exec_ref "load" [].
Definition clean : WorkflowExecutionRef := exec_ref "clean" ["load"].
Definition report : WorkflowExecutionRef := exec_ref "report" ["load"; "clean"].
Definition other : WorkflowExecutionRef := exec_ref "other" [].

Definition sample_waves : list (list WorkflowExecutionRef) := [[load; other]; [clean]; [report]].

Lemma waves_topological_witness :
  concat sample_waves ≡ₚ [report; load; clean; other] ∧ [] ∉ sample_waves ∧
  ∀ i w e, sample_waves !! i = Some w → e ∈ w →
    (∀ d, d ∈ dependencies e → d ∈ before i sample_waves) ∧
    (∀ j, i = S j → ∃ d, d ∈ dependencies e ∧ d ∉ before j sample_waves).
Proof. apply waves_topological. vm_compute. reflexivity. Defined.

(** Three executions in a circle are refused, as the equivalence says. *)
Definition circle : list WorkflowExecutionRef :=
  [exec_ref "a" ["b"]; exec_ref "b" ["c"]; exec_ref "c" ["a"]].

Lemma resolve_accepts_acyclic_witness :
  (∃ waves, resolve_dependencies circle = Ok waves) ↔
  dependencies_exist circle ∧ ∃ rank, ranked rank circle.
Proof.
  apply resolve_accepts_acyclic. apply (bool_decide_unpack _). vm_compute. reflexivity.
Defined.

Example circle_refused : ∃ id, resolve_dependencies circle = Err (Circular id).
Proof. eexists. vm_compute. reflexivity. Qed.

(** ** The store *)

Definition demo_job (id user : string) (t : Z) (es : list WorkflowExecutionRef) : BatchJob :=
  foldl (λ j e, add_execution e t j) (new_job id "demo" "flow" default_job_config user t) es.

Definition job_a : BatchJob := demo_job "a" "ann" 20 [load].
Definition job_b : BatchJob := demo_job "b" "ann" 10 [load].
Definition job_c : BatchJob := demo_job "c" "ann:x" 30 [load].

(** Three jobs, of which one runs; a job that is deleted and then updated by its
    executor is stored again, but in no index. *)
Definition job_d : BatchJob := demo_job "d" "ann" 15 [load].

Definition four_calls : list store_call :=
  [CallCreate job_a; CallCreate job_b; CallCreate job_c; CallCreate job_d; CallReopen;
   CallUpdate (job_set_status JobRunning 40 job_c); CallDelete "d"; CallUpdate job_d].

Definition after_calls : BatchJobStore * gset string :=
  foldl (λ so c, (run_call c so.1, unlisted_after c so.1 so.2)) (new_store, ∅) four_calls.

Definition three_jobs : BatchJobStore := after_calls.1.

Lemma after_calls_history : history after_calls.1 after_calls.2.
Proof.
  unfold after_calls, four_calls. cbn [foldl fst snd].
  repeat apply history_call; [apply history_new|..]; try done.
  all: split_and!; [reflexivity|done..|intros o Ho; vm_compute in Ho; by simplify_eq].
Qed.


(** The job that was deleted and then updated can be read, and is in no listing. *)
Example updated_after_deletion_unlisted :
  (fmap (M := option) job_id <$> (get "d" three_jobs).2,
   fmap (M := list) job_id <$> (list_by_status JobPending 10 three_jobs).2)
  = (Ok (Some "d"%string), Ok ["b"; "a"]%string).
Proof. vm_compute. reflexivity. Qed.

(** The first page of a user's jobs is the oldest one, and another user whose name
    continues after a colon is taken for the same. *)
Example first_page_is_oldest :
  fmap (M := list) job_id <$> (list_by_user "ann" 1 0 three_jobs).2 = Ok ["b"%string].
Proof. vm_compute. reflexivity. Qed.

Example colon_user_listed :
  fmap (M := list) job_id <$> (list_by_user "ann" 10 0 three_jobs).2 = Ok ["c"; "a"; "b"]%string.
Proof. vm_compute. reflexivity. Qed.

(** ** Jobs *)

Definition demo_world (js : list BatchJob) (wfs : list (Workflow DemoAction)) : BWorld :=
  {| job_store := foldl (λ s j, (create j s).1) new_store js;
     workflows := list_to_map ((λ w, (wf_id w, w)) <$> wfs); executions := ∅; exec_logs := ∅;
     events := [] |}.

Lemma demo_world_kept js wfs : saved_kept (demo_world js wfs).
Proof. split; simpl; [intros id x; by rewrite lookup_empty|set_solver]. Qed.

Definition report_job : BatchJob := demo_job "nightly" "ann" 5 [report; load; clean; other].

(** One action of the route. *)
Definition flow_of (l : list DemoAction) : Workflow DemoAction :=
  demo_flow [demo_route "only" (Exists "x") 1 l].

Definition nightly : BWorld := demo_world [report_job] [flow_of [Work; Work]].

(** A schedule that interleaves the first wave. *)
Definition nightly_run : BWorld * result BatchError unit :=
  execute [[0; 1; 1; 0; 1]%nat] "nightly" nightly.

Lemma run_pair {A B} (p : A * B) (b : B) : p.2 = b → p = (p.1, b).
Proof. intros <-. apply surjective_pairing. Qed.

Lemma dependencies_run_first_witness :
  ∃ new, events nightly_run.1 = events nightly ++ new ∧
    (∀ e, e ∈ workflow_executions report_job → ∃ ok, EvSaved (execution_id e) ok ∈ new) ∧
    ∀ e d p q evd eve, e ∈ workflow_executions report_job → d ∈ dependencies e →
      new !! p = Some evd → event_exec evd = Some d →
      new !! q = Some eve → event_exec eve = Some (execution_id e) → (p < q)%nat.
Proof.
  apply (dependencies_run_first [[0; 1; 1; 0; 1]%nat] "nightly" report_job nightly nightly_run.1).
  - apply demo_world_kept.
  - apply run_pair. vm_compute. reflexivity.
  - vm_compute. reflexivity.
  - apply (bool_decide_unpack _). vm_compute. reflexivity.
Defined.

(** The job is completed, but its progress still counts every file as pending. *)
Example progress_never_moves :
  match cache (job_store nightly_run.1) !! "nightly"%string with
  | Some j => job_status j = JobCompleted ∧ pending (progress j) = 4%nat ∧
              completed (progress j) = 0%nat
  | None => False
  end.
Proof. vm_compute. done. Qed.

(** Retries of a failing workflow. *)
Definition failing : Workflow Action := flow_of [Break].

Definition failing_wave : BWorld * result BatchError (gmap string (result BatchError unit)) :=
  execute_wave [] report_job [load; other] failing (demo_world [] []).

Definition failing_results : gmap string (result BatchError unit) :=
  match failing_wave.2 with Ok m => m | _ => ∅ end.

Lemma retries_never_help_witness :
  ∃ new, events failing_wave.1 = events (demo_world [] []) ++ new ∧
    ∀ id r, failing_results !! id = Some r → result_events report_job id new r.
Proof.
  apply (retries_never_help [] report_job [load; other] (failing : Workflow Action)).
  - apply demo_world_kept.
  - apply (bool_decide_unpack _). vm_compute. reflexivity.
  - apply run_pair. unfold failing_results, failing_wave, execute_wave. by destruct (join_all _ _ _).
Defined.

(** The error of a failed execution is the one of its last retry. *)
Example retry_error :
  failing_results !! "load"%string = Some (Err (AlreadyExists "load")) ∧
  saves "load" (events failing_wave.1) = 4%nat.
Proof. vm_compute. done. Qed.

(** Dependents of a failed execution are run all the same. *)
Example dependents_of_failures_run :
  let w := demo_world [demo_job "j" "ann" 5 [load; clean]] [failing] in
  EvAction "clean" 0 ∈ events (execute [] "j" w).1.
Proof. apply (bool_decide_unpack _). vm_compute. reflexivity. Qed.

(** ** Pauses *)

Definition approval : Workflow Action := flow_of [Work; AskApproval; Work].

Definition paused_world : BWorld :=
  (run_task (execute_workflow_internal load (approval : Workflow Action)) (demo_world [] [approval])).1.

Definition resumed_world : BWorld := (run_task (resume_execution "load") paused_world).1.

Lemma actions_run_once_witness :
  ∃ m x, executions resumed_world !! "load"%string = Some x ∧
    actions_of "load" (events resumed_world) = seq 0 m ∧ (m ≤ 3)%nat ∧
    (ex_status x = ExPaused → checkpoint_action_index x = Some (m - 1)%nat ∧ (0 < m)%nat) ∧
    (ex_status x = ExCompleted → m = 3%nat).
Proof.
  apply (actions_run_once load (approval : Workflow Action)
    (demo_route "only" (Exists "x") 1 [Work; AskApproval; Work]) []); [reflexivity|].
  apply life_resume, life_start; vm_compute; reflexivity.
Defined.

Example resumed_completes :
  ex_status <$> executions paused_world !! "load"%string = Some ExPaused ∧
  ex_status <$> executions resumed_world !! "load"%string = Some ExCompleted ∧
  actions_of "load" (events resumed_world) = [0; 1; 2]%nat.
Proof. vm_compute. done. Qed.

(** Two resumptions that overlap both run the rest of the actions. *)
Example double_resume :
  actions_of "load"
    (events (join_all [0; 1]%nat [resume_execution "load"; resume_execution "load"] paused_world).1)
  = [0; 1; 2; 2]%nat.
Proof. vm_compute. reflexivity. Qed.

(** ** Other endings *)

Definition job_status_of (id : string) (w : BWorld) : option BatchJobStatus :=
  job_status <$> cache (job_store w) !! id.

(** A record whose actions failed is never marked. *)
Example failed_stays_pending :
  ex_status <$> executions failing_wave.1 !! "load"%string = Some ExPending.
Proof. vm_compute. reflexivity. Qed.

(** A job that cannot be planned has been marked as running. *)
Example circular_job_left_running :
  let w := demo_world [demo_job "j" "ann" 5 circle] [flow_of [Work]] in
  (∃ id, (execute [] "j" w).2 = Err (Circular id)) ∧
  job_status_of "j" (execute [] "j" w).1 = Some JobRunning.
Proof. split; [eexists|]; vm_compute; reflexivity. Qed.

(** An execution that panics counts neither as completed nor as failed. *)
Example crashed_job_completed :
  let w := demo_world [demo_job "j" "ann" 5 [load]] [flow_of [Crash]] in
  job_status_of "j" (execute [] "j" w).1 = Some JobCompleted.
Proof. vm_compute. reflexivity. Qed.

(** A cancellation during the run is overwritten at its end. *)
Example cancel_overwritten :
  let w := demo_world [demo_job "j" "ann" 5 [load]] [flow_of [Work]] in
  match begin_job "j" w with
  | (w1, Ok (j, wf, waves)) =>
      let w2 := (cancel "j" w1).1 in
      job_status_of "j" w2 = Some JobCancelled ∧
      match run_waves [] waves j wf ∅ ∅ w2 with
      | (w3, Ok (j', c, f)) => job_status_of "j" (end_job j' c f w3).1 = Some JobCompleted
      | _ => False
      end
  | _ => False
  end.
Proof. vm_compute. done. Qed.

(** The default route is taken even when it is disabled. *)
Example disabled_default_taken :
  let off := set_enabled false (demo_route "off" is_gold 1 [Work]) in
  fmap (M := option) route_id <$> select_route (with_default_route "off" (demo_flow [off])) JNull =
  Ok (Some "off"%string).
Proof. vm_compute. reflexivity. Qed.
