(* ===== verification/HealthMonitor.v ===== *)
(** * The health monitor of the shards

    Models [ha/health_monitor.rs] of the coordinator: for every shard a health
    state driven by probes and heartbeats, a circuit breaker and a window of
    response times.  Every operation holds the write lock, so it is one step; a
    panic inside poisons the lock, and every later operation panics on it.  Times
    and durations are in nanoseconds.  The capacity a vector really gets and the
    order of a hash map are parameters. *)

From Stdlib Require Import ZArith Lia.
From stdpp Require Import base numbers option gmap list sorting.
From S2P Require Import Prelude RustStd F64 Effects.

Local Open Scope Z_scope.

Abbreviation ShardId := Z.

Inductive ShardHealth : Type := Healthy | Degraded | Unhealthy | Down.

#[global] Instance ShardHealth_eq_dec : EqDecision ShardHealth.
Proof. solve_decision. Defined.

Definition is_available (h : ShardHealth) : bool :=
  match h with Healthy | Degraded => true | _ => false end.

Definition should_probe (h : ShardHealth) : bool :=
  match h with Down => false | _ => true end.

(** ** Circuit breaker *)

Inductive CircuitState : Type := Closed | Open | HalfOpen.

#[global] Instance CircuitState_eq_dec : EqDecision CircuitState.
Proof. solve_decision. Defined.

Record CircuitBreakerConfig : Type := {
  failure_threshold : Z;
  success_threshold : Z;
  timeout : Z;
  reset_timeout : Z;
}.

Definition default_breaker_config : CircuitBreakerConfig :=
  {| failure_threshold := 5; success_threshold := 3; timeout := 30 * 10 ^ 9;
     reset_timeout := 60 * 10 ^ 9 |}.

Record CircuitBreaker : Type := {
  state : CircuitState;
  failure_count : Z;
  success_count : Z;
  last_failure : option Z;
  opened_at : option Z;
  breaker_config : CircuitBreakerConfig;
}.

Definition new_breaker (c : CircuitBreakerConfig) : CircuitBreaker :=
  {| state := Closed; failure_count := 0; success_count := 0; last_failure := None;
     opened_at := None; breaker_config := c |}.

(** [Instant::elapsed], zero for a later instant. *)
Definition elapsed (now t : Z) : Z := Z.max 0 (now - t).

Section Breaker.
Context {E : Type} (overflow_checks : bool).

(** [n += 1] on a [u32]. *)
Definition u32_incr (n : Z) : result E Z :=
  if n + 1 <? 2 ^ 32 then Ok (n + 1) else if overflow_checks then Panic else Ok 0.

Definition open (now : Z) (b : CircuitBreaker) : CircuitBreaker :=
  {| state := Open; failure_count := 0; success_count := 0; last_failure := last_failure b;
     opened_at := Some now; breaker_config := breaker_config b |}.

Definition close (b : CircuitBreaker) : CircuitBreaker :=
  {| state := Closed; failure_count := 0; success_count := 0; last_failure := last_failure b;
     opened_at := None; breaker_config := breaker_config b |}.

Definition set_counts (f s : Z) (b : CircuitBreaker) : CircuitBreaker :=
  {| state := state b; failure_count := f; success_count := s; last_failure := last_failure b;
     opened_at := opened_at b; breaker_config := breaker_config b |}.

Definition record_success (now : Z) (b : CircuitBreaker) : result E CircuitBreaker :=
  match state b with
  | HalfOpen =>
      n ← u32_incr (success_count b);
      if success_threshold (breaker_config b) <=? n then Ok (close b)
      else Ok (set_counts (failure_count b) n b)
  | Closed =>
      Ok (if 0 <? failure_count b
          then match last_failure b with
               | Some t =>
                   if reset_timeout (breaker_config b) <? elapsed now t
                   then set_counts 0 (success_count b) b
                   else b
               | None => b
               end
          else b)
  | Open => Ok b
  end.

Definition failed_at (now : Z) (b : CircuitBreaker) : CircuitBreaker :=
  {| state := state b; failure_count := failure_count b; success_count := success_count b;
     last_failure := Some now; opened_at := opened_at b; breaker_config := breaker_config b |}.

Definition record_failure (now : Z) (b : CircuitBreaker) : result E CircuitBreaker :=
  let b := failed_at now b in
  match state b with
  | Closed =>
      n ← u32_incr (failure_count b);
      let b := set_counts n (success_count b) b in
      Ok (if failure_threshold (breaker_config b) <=? n then open now b else b)
  | HalfOpen => Ok (open now b)
  | Open => Ok b
  end.

Definition update_state (now : Z) (b : CircuitBreaker) : CircuitBreaker :=
  match state b, opened_at b with
  | Open, Some t =>
      if timeout (breaker_config b) <=? elapsed now t
      then {| state := HalfOpen; failure_count := failure_count b; success_count := 0;
              last_failure := last_failure b; opened_at := opened_at b;
              breaker_config := breaker_config b |}
      else b
  | _, _ => b
  end.

Definition should_allow (now : Z) (b : CircuitBreaker) : CircuitBreaker * bool :=
  let b := update_state now b in
  (b, match state b with Closed => true | Open => false | HalfOpen => true end).
End Breaker.

(** ** Response times *)

Record ResponseTimeTracker : Type := {
  times : list Z;
  position : nat;
  capacity : nat;
}.

(** [Vec::with_capacity]: at least what is asked for, and nothing for nothing. *)
Class VecCapacity : Type := { vec_capacity : nat → nat }.
Class VecCapacityOk `{VecCapacity} : Prop := {
  vec_capacity_le n : (n ≤ vec_capacity n)%nat;
  vec_capacity_zero : vec_capacity 0 = 0%nat;
}.

Definition new_tracker `{VecCapacity} (window : nat) : ResponseTimeTracker :=
  {| times := []; position := 0; capacity := vec_capacity window |}.

(** [ResponseTimeTracker::record]; the index panics in an empty vector. *)
Definition record {E} (d : Z) (t : ResponseTimeTracker) : result E ResponseTimeTracker :=
  if (length (times t) <? capacity t)%nat
  then Ok {| times := times t ++ [d]; position := position t; capacity := capacity t |}
  else if (position t <? length (times t))%nat
  then Ok {| times := <[position t := d]> (times t);
             position := ((position t + 1) mod length (times t))%nat; capacity := capacity t |}
  else Panic.

(** [as usize] of a double saturates at zero. *)
Definition percentile (p : f64) (t : ResponseTimeTracker) : option Z :=
  match times t with
  | [] => None
  | l =>
      let sorted := merge_sort Z.le l in
      let index := Z.max 0 (f64_to_i64 (f64_mul (f64_div p (f64_of_i64 100))
                                          (f64_of_i64 (Z.of_nat (length l))))) in
      sorted !! Z.to_nat (Z.min index (Z.of_nat (length l) - 1))
  end.

(** ** The monitor *)

Record ShardHealthState : Type := {
  health : ShardHealth;
  circuit_breaker : CircuitBreaker;
  last_heartbeat : option Z;
  last_probe_success : option Z;
  probe_failures : Z;
  response_times : ResponseTimeTracker;
}.

Record HealthMonitorConfig : Type := {
  heartbeat_timeout : Z;
  probe_interval : Z;
  probe_timeout : Z;
  degraded_threshold : Z;
  unhealthy_threshold : Z;
  down_threshold : Z;
  response_time_window : nat;
  breaker : CircuitBreakerConfig;
}.

Definition default_monitor_config : HealthMonitorConfig :=
  {| heartbeat_timeout := 30 * 10 ^ 9; probe_interval := 10 * 10 ^ 9; probe_timeout := 5 * 10 ^ 9;
     degraded_threshold := 2; unhealthy_threshold := 5; down_threshold := 10;
     response_time_window := 100; breaker := default_breaker_config |}.

Record HealthMonitor : Type := {
  health_states : gmap ShardId ShardHealthState;
  poisoned : bool;
}.

Definition new_monitor : HealthMonitor := {| health_states := ∅; poisoned := false |}.

Record HealthStats : Type := {
  total_shards : nat;
  healthy : nat;
  degraded : nat;
  unhealthy : nat;
  down : nat;
  circuits_open : nat;
  circuits_half_open : nat;
}.

(** The order of the table. *)
Class HealthOrder : Type := {
  health_entries : gmap ShardId ShardHealthState → list (ShardId * ShardHealthState);
}.
Class HealthOrderOk `{HealthOrder} : Prop := {
  health_entries_perm m : health_entries m ≡ₚ map_to_list m;
}.

Section Monitor.
Context (overflow_checks : bool) (config : HealthMonitorConfig) `{VecCapacity, HealthOrder}.

Abbreviation MonitorM := (method HealthMonitor unit).

(** [write().unwrap()]: a panic of what follows poisons the lock, so that nothing it
    changed before can be read any more. *)
Definition locked {A} (f : gmap ShardId ShardHealthState
    → result unit (gmap ShardId ShardHealthState * A)) : MonitorM A := λ m,
  if poisoned m then (m, Panic)
  else match f (health_states m) with
       | Ok (s, a) => ({| health_states := s; poisoned := false |}, Ok a)
       | Err e => (m, Err e)
       | Panic => ({| health_states := health_states m; poisoned := true |}, Panic)
       end.

(** [if let Some(state) = states.get_mut(&shard_id)]. *)
Definition on_shard (id : ShardId) (f : ShardHealthState → result unit ShardHealthState)
    : MonitorM unit :=
  locked (λ s, match s !! id with
               | Some x => y ← f x; Ok (<[id := y]> s, tt)
               | None => Ok (s, tt)
               end).

Definition register_shard (id : ShardId) (now : Z) : MonitorM unit :=
  locked (λ s, Ok (<[id :=
    {| health := Healthy; circuit_breaker := new_breaker (breaker config);
       last_heartbeat := Some now; last_probe_success := None; probe_failures := 0;
       response_times := new_tracker (response_time_window config) |}]> s, tt)).

Definition unregister_shard (id : ShardId) : MonitorM unit :=
  locked (λ s, Ok (delete id s, tt)).

Definition set_health (h : ShardHealth) (x : ShardHealthState) : ShardHealthState :=
  {| health := h; circuit_breaker := circuit_breaker x; last_heartbeat := last_heartbeat x;
     last_probe_success := last_probe_success x; probe_failures := probe_failures x;
     response_times := response_times x |}.

Definition update_heartbeat (id : ShardId) (now : Z) : MonitorM unit :=
  on_shard id (λ x, Ok
    {| health := health x; circuit_breaker := circuit_breaker x; last_heartbeat := Some now;
       last_probe_success := last_probe_success x; probe_failures := probe_failures x;
       response_times := response_times x |}).

Definition probe_succeeded (response_time now : Z) (x : ShardHealthState)
    : result unit ShardHealthState :=
  rt ← record response_time (response_times x);
  b ← record_success overflow_checks now (circuit_breaker x);
  Ok {| health := Healthy; circuit_breaker := b; last_heartbeat := last_heartbeat x;
        last_probe_success := Some now; probe_failures := 0; response_times := rt |}.

Definition record_probe_success (id : ShardId) (response_time now : Z) : MonitorM unit :=
  on_shard id (probe_succeeded response_time now).

(** The health after a number of failed probes. *)
Definition health_after (failures : Z) (h : ShardHealth) : ShardHealth :=
  if down_threshold config <=? failures then Down
  else if unhealthy_threshold config <=? failures then Unhealthy
  else if degraded_threshold config <=? failures then Degraded
  else h.

Definition probe_failed (now : Z) (x : ShardHealthState) : result unit ShardHealthState :=
  n ← u32_incr overflow_checks (probe_failures x);
  b ← record_failure overflow_checks now (circuit_breaker x);
  Ok {| health := health_after n (health x); circuit_breaker := b;
        last_heartbeat := last_heartbeat x; last_probe_success := last_probe_success x;
        probe_failures := n; response_times := response_times x |}.

Definition record_probe_failure (id : ShardId) (now : Z) : MonitorM unit :=
  on_shard id (probe_failed now).

Definition get_health (id : ShardId) : MonitorM (option ShardHealth) :=
  locked (λ s, Ok (s, health <$> s !! id)).

(** The breaker is asked only for an available shard. *)
Definition should_route_to (id : ShardId) (now : Z) : MonitorM bool :=
  locked (λ s, Ok
    match s !! id with
    | Some x =>
        if is_available (health x) then
          let '(b, ok) := should_allow now (circuit_breaker x) in
          (<[id := {| health := health x; circuit_breaker := b;
                      last_heartbeat := last_heartbeat x;
                      last_probe_success := last_probe_success x;
                      probe_failures := probe_failures x;
                      response_times := response_times x |}]> s, ok)
        else (s, false)
    | None => (s, false)
    end).

Definition get_healthy_shards : MonitorM (list ShardId) :=
  locked (λ s, Ok (s, (filter (λ e, health e.2 = Healthy) (health_entries s)).*1)).

Definition count_where (P : ShardHealthState → bool) (s : gmap ShardId ShardHealthState) : nat :=
  length (List.filter (λ e, P e.2) (health_entries s)).

Definition get_stats : MonitorM HealthStats :=
  locked (λ s, Ok (s,
    {| total_shards := size s;
       healthy := count_where (λ x, bool_decide (health x = Healthy)) s;
       degraded := count_where (λ x, bool_decide (health x = Degraded)) s;
       unhealthy := count_where (λ x, bool_decide (health x = Unhealthy)) s;
       down := count_where (λ x, bool_decide (health x = Down)) s;
       circuits_open := count_where (λ x, bool_decide (state (circuit_breaker x) = Open)) s;
       circuits_half_open :=
         count_where (λ x, bool_decide (state (circuit_breaker x) = HalfOpen)) s |})).

Definition check_heartbeat (now : Z) (x : ShardHealthState) : ShardHealthState :=
  match last_heartbeat x with
  | Some t => if heartbeat_timeout config <? elapsed now t then set_health Down x else x
  | None => x
  end.

Definition check_heartbeat_timeouts (now : Z) : MonitorM unit :=
  locked (λ s, Ok (check_heartbeat now <$> s, tt)).
End Monitor.

Definition health_percentage (st : HealthStats) : f64 :=
  if (total_shards st =? 0)%nat then f64_zero
  else f64_mul (f64_div (f64_of_i64 (Z.of_nat (healthy st)))
                  (f64_of_i64 (Z.of_nat (total_shards st)))) (f64_of_i64 100).

Definition is_cluster_healthy (st : HealthStats) : bool :=
  (total_shards st / 2 <? healthy st)%nat.

(** * Facts on the health monitor

    The window of response times holds the last ones; a shard whose probes keep
    failing is not routed to, whatever else happens. *)

Local Open Scope Z_scope.

(** ** The window *)

Definition record_all {E} (ds : list Z) (t : ResponseTimeTracker) : result E ResponseTimeTracker :=
  result_foldM (λ t d, record d t) t ds.

(** The recorded times, oldest first. *)
Definition in_order (t : ResponseTimeTracker) : list Z :=
  drop (position t) (times t) ++ take (position t) (times t).

Definition last_n {A} (n : nat) (l : list A) : list A := drop (length l - n) l.

Record tracks (c : nat) (ds : list Z) (t : ResponseTimeTracker) : Prop := {
  tracks_capacity : capacity t = c;
  tracks_length : length (times t) = Nat.min (length ds) c;
  tracks_position : (position t < c)%nat;
  tracks_start : (length ds < c)%nat → position t = 0%nat;
  tracks_order : in_order t = last_n c ds;
}.

Lemma in_order_push d t :
  position t = 0%nat →
  in_order {| times := times t ++ [d]; position := position t; capacity := capacity t |} =
  in_order t ++ [d].
Proof. intros Hp. unfold in_order. simpl. rewrite Hp. by rewrite !drop_0, !take_0, !app_nil_r. Qed.

Lemma in_order_overwrite d t :
  (position t < length (times t))%nat →
  in_order {| times := <[position t := d]> (times t);
              position := ((position t + 1) mod length (times t))%nat; capacity := capacity t |} =
  tail (in_order t) ++ [d].
Proof.
  intros Hp. unfold in_order. simpl. set (p := position t) in *.
  destruct (lookup_lt_is_Some_2 (times t) p Hp) as [x Hx].
  rewrite (drop_S _ x p Hx). simpl. rewrite insert_take_drop by done.
  assert (Htake : length (take p (times t)) = p) by (rewrite length_take; lia).
  destruct (decide (p + 1 = length (times t))%nat) as [He|Hne].
  - rewrite He, Nat.Div0.mod_same, drop_0, take_0, app_nil_r.
    assert (drop (S p) (times t) = []) as -> by (apply drop_ge; lia). done.
  - rewrite Nat.mod_small, Nat.add_1_r by lia.
    rewrite drop_app, take_app, Htake. rewrite (drop_ge (take p _)), (take_ge (take p _)) by lia.
    replace (S p - p)%nat with 1%nat by lia. simpl. by rewrite drop_0, take_0, <- app_assoc.
Qed.

Lemma record_tracks {E} c ds t d :
  tracks c ds t → ∃ t', record (E := E) d t = Ok t' ∧ tracks c (ds ++ [d]) t'.
Proof.
  intros [Hc Hl Hp Hs Ho]. unfold record. rewrite Hc.
  destruct (Nat.ltb_spec (length (times t)) c) as [Hlt|Hge].
  - eexists. split; [done|]. assert (Hlen : (length ds < c)%nat) by lia.
    split; simpl; rewrite ?length_app; simpl; [done|lia|done|by intros; apply Hs|].
    rewrite <- Hc, in_order_push, Ho, Hc by auto. unfold last_n. rewrite length_app. simpl.
    replace (length ds - c)%nat with 0%nat by lia.
    by replace (length ds + 1 - c)%nat with 0%nat by lia.
  - assert (Hfull : length (times t) = c) by lia.
    rewrite (proj2 (Nat.ltb_lt _ _)) by lia. eexists. split; [done|].
    split; simpl; rewrite ?length_app, ?length_insert; simpl; [done|lia| |lia|].
    { rewrite Hfull. apply Nat.mod_upper_bound. lia. }
    rewrite <- Hc, in_order_overwrite, Ho, Hc by lia. unfold last_n. rewrite length_app. simpl.
    rewrite drop_app_le by lia. f_equal. change (tail ?l) with (drop 1 l).
    rewrite drop_drop. f_equal. lia.
Qed.

(** The window holds the last response times: with room for at least one,
    recording any times never panics and leaves, in order, the last as many as the
    vector has room for. *)
Theorem window_holds_last {E} `{VecCapacity} window ds :
  (0 < vec_capacity window)%nat →
  ∃ t, record_all (E := E) ds (new_tracker window) = Ok t ∧
    in_order t = last_n (vec_capacity window) ds.
Proof.
  intros Hc.
  destruct (result_foldM_prefix (λ t d, record (E := E) d t)
    (tracks (vec_capacity window)) ds (new_tracker window)) as (t & Ht & Htr).
  - split; simpl; [done|lia|done|done|done].
  - intros pre x post t _ Htr. by apply record_tracks.
  - exists t. split; [done|]. apply (tracks_order _ _ _ Htr).
Qed.

(** ** Histories *)

Inductive call : Type :=
  | Register (id : ShardId) (now : Z)
  | Unregister (id : ShardId)
  | Heartbeat (id : ShardId) (now : Z)
  | ProbeOk (id : ShardId) (response_time now : Z)
  | ProbeFail (id : ShardId) (now : Z)
  | Route (id : ShardId) (now : Z)
  | CheckTimeouts (now : Z).

Section Histories.
Context (overflow_checks : bool) (config : HealthMonitorConfig) `{VecCapacity, HealthOrder}.

Definition run_call (m : HealthMonitor) (c : call) : HealthMonitor :=
  match c with
  | Register id now => (register_shard config id now m).1
  | Unregister id => (unregister_shard id m).1
  | Heartbeat id now => (update_heartbeat id now m).1
  | ProbeOk id rt now => (record_probe_success overflow_checks id rt now m).1
  | ProbeFail id now => (record_probe_failure overflow_checks config id now m).1
  | Route id now => (should_route_to id now m).1
  | CheckTimeouts now => (check_heartbeat_timeouts config now m).1
  end.

Definition monitor_after (l : list call) : HealthMonitor := foldl run_call new_monitor l.

(** The failed probes of a shard since it was registered or answered one. *)
Definition count_failures (id : ShardId) (n : option Z) (c : call) : option Z :=
  match c with
  | Register i _ => if decide (i = id) then Some 0 else n
  | Unregister i => if decide (i = id) then None else n
  | ProbeOk i _ _ => if decide (i = id) then (λ _, 0) <$> n else n
  | ProbeFail i _ => if decide (i = id) then Z.succ <$> n else n
  | _ => n
  end.

Definition failures (id : ShardId) (l : list call) : option Z := foldl (count_failures id) None l.

(** What the state of a shard remembers of its probes. *)
Definition counted (n : option Z) (x : option ShardHealthState) : Prop :=
  match n, x with
  | Some n, Some x =>
      0 ≤ n ∧ (n < 2 ^ 32 → probe_failures x = n ∧
        (unhealthy_threshold config ≤ n → is_available (health x) = false))
  | None, None => True
  | _, _ => False
  end.

Definition agrees (id : ShardId) (n : option Z) (m : HealthMonitor) : Prop :=
  poisoned m = false → counted n (health_states m !! id).

Lemma agrees_locked {A} id n n' m (f : gmap ShardId ShardHealthState →
    result unit (gmap ShardId ShardHealthState * A)) :
  agrees id n m →
  (∀ s s' a, counted n (s !! id) → f s = Ok (s', a) → counted n' (s' !! id)) →
  (∀ s e, f s ≠ Err e) → agrees id n' (locked f m).1.
Proof.
  intros Hag Hf He. unfold agrees, locked in *. destruct (poisoned m) eqn:Hp; simpl; [by rewrite Hp|].
  specialize (Hag eq_refl). destruct (f (health_states m)) as [[s' a]|e|] eqn:E; simpl;
    [|by destruct (He _ _ E)|done].
  intros _. by eapply Hf.
Qed.

(** A shard's state changed in place, the others as they were. *)
Lemma agrees_on_shard id n n' m i f :
  agrees id n m → (i ≠ id → n' = n) →
  (∀ x y, i = id → counted n (Some x) → f x = Ok y → counted n' (Some y)) →
  (i = id → n = None → n' = None) → (∀ x e, f x ≠ Err e) →
  agrees id n' (on_shard i f m).1.
Proof.
  intros Hag Hne Hf Hn He. unfold on_shard. eapply agrees_locked; [exact Hag|..].
  - intros s s' a Hc. destruct (s !! i) as [x|] eqn:Hx.
    + intros (y & Hy & [= <- <-])%result_bind_Ok. destruct (decide (i = id)) as [->|Hi].
      * rewrite lookup_insert_eq. rewrite Hx in Hc. by eapply Hf.
      * rewrite lookup_insert_ne by done. by rewrite Hne.
    + intros [= <- <-]. destruct (decide (i = id)) as [->|Hi]; [|by rewrite Hne].
      rewrite Hx in *. unfold counted in *. destruct n; [done|]. by rewrite Hn.
  - intros s e. destruct (s !! i) as [x|]; [|done]. destruct (f x) eqn:E; simpl; [done| |done].
    by destruct (He _ _ E).
Qed.

Lemma record_success_no_err {E} ov now b e : record_success (E := E) ov now b ≠ Err e.
Proof.
  unfold record_success, u32_incr. destruct (state b); simpl; [done..|].
  destruct (_ <? _); simpl; [by destruct (_ <=? _)|]. destruct ov; simpl; [done|].
  by destruct (_ <=? _).
Qed.

Lemma record_failure_no_err {E} ov now b e : record_failure (E := E) ov now b ≠ Err e.
Proof.
  unfold record_failure, u32_incr. simpl. destruct (state b); simpl; [|done..].
  destruct (_ <? _); simpl; [done|]. by destruct ov.
Qed.

Lemma probe_succeeded_no_err rt now x e : probe_succeeded overflow_checks rt now x ≠ Err e.
Proof.
  unfold probe_succeeded. unfold record. repeat destruct (_ <? _)%nat; simpl; try done;
    (destruct (record_success _ _ _) eqn:E; simpl; [done| |done]; by apply record_success_no_err in E).
Qed.

Lemma probe_failed_no_err now x e : probe_failed overflow_checks config now x ≠ Err e.
Proof.
  unfold probe_failed, u32_incr. destruct (_ <? _); simpl; [|destruct overflow_checks; simpl; [done|]];
    (destruct (record_failure _ _ _) eqn:E; simpl; [done| |done]; by apply record_failure_no_err in E).
Qed.

Lemma probe_failed_counted n now x y :
  counted n (Some x) → probe_failed overflow_checks config now x = Ok y →
  counted (Z.succ <$> n) (Some y).
Proof.
  destruct n as [n|]; [|done]. intros [Hpos Hc] Hp. simpl. split; [lia|]. intros Hlt.
  destruct Hc as [Hn _]; [lia|]. unfold probe_failed, u32_incr in Hp. rewrite Hn in Hp.
  rewrite (proj2 (Z.ltb_lt _ _)) in Hp by lia.
  apply result_bind_Ok in Hp as (k & [= <-] & Hp). apply result_bind_Ok in Hp as (b & _ & [= <-]).
  simpl. split; [lia|]. intros Hu. unfold health_after.
  destruct (down_threshold config <=? n + 1); [done|].
  by rewrite (proj2 (Z.leb_le (unhealthy_threshold config) (n + 1))) by lia.
Qed.

Lemma run_call_agrees id n m c :
  0 < unhealthy_threshold config → agrees id n m → agrees id (count_failures id n c) (run_call m c).
Proof.
  intros Hu Hag. destruct c as [i now|i|i now|i rt now|i now|i now|now]; simpl.
  - eapply agrees_locked; [exact Hag| |done]. intros s s' a Hc [= <- <-]. case_decide as Hi.
    + subst. rewrite lookup_insert_eq. simpl. split; [lia|]. intros _. split; [done|lia].
    + by rewrite lookup_insert_ne.
  - eapply agrees_locked; [exact Hag| |done]. intros s s' a Hc [= <- <-]. case_decide as Hi.
    + subst. by rewrite lookup_delete_eq.
    + by rewrite lookup_delete_ne.
  - apply (agrees_on_shard id n); [done|done| |done|done]. by intros x y _ Hc [= <-].
  - apply (agrees_on_shard id n); [done|by intros; rewrite decide_False| |by intros -> ->; case_decide
      |intros; apply probe_succeeded_no_err].
    intros x y -> Hc Hp. rewrite decide_True by done. destruct n as [n|]; [|done].
    unfold probe_succeeded in Hp. apply result_bind_Ok in Hp as (t & _ & Hp).
    apply result_bind_Ok in Hp as (b & _ & [= <-]). simpl. split; [lia|]. intros _. split; [done|lia].
  - apply (agrees_on_shard id n); [done|by intros; rewrite decide_False| |by intros -> ->; case_decide
      |intros; apply probe_failed_no_err].
    intros x y -> Hc Hp. rewrite decide_True by done. by eapply probe_failed_counted.
  - eapply agrees_locked; [exact Hag| |done]. intros s s' a Hc Hr. destruct (s !! i) as [x|] eqn:Hx;
      [|by simplify_eq]. destruct (is_available (health x)); [|by simplify_eq].
    destruct (should_allow _ _). simplify_eq. destruct (decide (i = id)) as [->|Hi].
    + rewrite lookup_insert_eq. rewrite Hx in Hc. exact Hc.
    + by rewrite lookup_insert_ne.
  - eapply agrees_locked; [exact Hag| |done]. intros s s' a Hc [= <- <-]. rewrite lookup_fmap.
    destruct n as [n|], (s !! id) as [x|]; simpl in *; try done. destruct Hc as [Hpos Hc].
    split; [done|]. intros Hlt. destruct (Hc Hlt) as [Hp Ha]. unfold check_heartbeat.
    destruct (last_heartbeat x); [|done]. destruct (_ <? _); [|done]. by split.
Qed.

(** A shard whose last probes failed as often as the threshold for unhealthy
    shards is not routed to, whatever calls, heartbeats, checks and questions came
    in between and whatever happened to the other shards, as long as the counter
    of failures fits its type. *)
Theorem failing_shard_not_routed id l n now :
  0 < unhealthy_threshold config ≤ n → failures id l = Some n → n < 2 ^ 32 →
  (should_route_to id now (monitor_after l)).2 ≠ Ok true.
Proof.
  intros Hn Hf Hlt. assert (Hag : agrees id (failures id l) (monitor_after l)).
  { clear Hf. unfold failures, monitor_after. induction l as [|c l IH] using rev_ind; [done|].
    rewrite !foldl_snoc. apply run_call_agrees; [lia|done]. }
  rewrite Hf in Hag. unfold should_route_to, locked. destruct (poisoned (monitor_after l)) eqn:Hp; [done|].
  specialize (Hag Hp). destruct (health_states (monitor_after l) !! id) as [x|]; [|done].
  destruct Hag as [_ Hc]. destruct (Hc Hlt) as [_ Ha]. rewrite Ha by lia. done.
Qed.
End Histories.

(** * The health monitor: concrete runs

    An instance of the parameters, the theorems on small
    histories, and histories on which the monitor surprises. *)

Local Open Scope Z_scope.

#[export] Instance exact_capacity : VecCapacity := {| vec_capacity n := n |}.

#[export] Instance exact_capacity_ok : VecCapacityOk.
Proof. by split. Qed.

#[export] Instance list_health_order : HealthOrder := {| health_entries m := map_to_list m |}.

#[export] Instance list_health_order_ok : HealthOrderOk.
Proof. by split. Qed.

(** Five times through a window of three. *)
Example window_of_three :
  ∃ t, record_all (E := unit) [5; 6; 7; 8; 9] (new_tracker 3) = Ok t ∧
    in_order t = last_n 3 [5; 6; 7; 8; 9].
Proof. exact (window_holds_last (E := unit) 3 [5; 6; 7; 8; 9] (Nat.lt_0_succ 2)). Qed.

Example full_window :
  times <$> record_all (E := unit) [5; 6; 7; 8; 9] (new_tracker 3) = Ok [8; 9; 7] ∧
  last_n 3 [5; 6; 7; 8; 9] = [7; 8; 9].
Proof. vm_compute. done. Qed.

Definition after : list call → HealthMonitor := monitor_after true default_monitor_config.

(** Five failures, with a heartbeat and another shard in between. *)
Definition failing : list call :=
  [Register 1 0; Register 2 0; ProbeFail 1 1; ProbeFail 1 2; Heartbeat 1 3; ProbeFail 1 4;
   ProbeOk 2 7 5; ProbeFail 1 6; ProbeFail 1 7].

Lemma failing_shard_not_routed_witness : (should_route_to 1 8 (after failing)).2 ≠ Ok true.
Proof.
  apply (failing_shard_not_routed true default_monitor_config 1 failing 5 8);
    [vm_compute; split; congruence|vm_compute; reflexivity|lia].
Defined.

Example failing_unhealthy : (get_health 1 (after failing)).2 = Ok (Some Unhealthy).
Proof. vm_compute. reflexivity. Qed.

(** ** Outside the conditions *)

Definition minute : Z := 60 * 10 ^ 9.

(** A shard that is down because its heartbeats stopped is routed to again after
    two failed probes, which make it merely degraded. *)
Example failed_probes_revive :
  (get_health 1 (after [Register 1 0; CheckTimeouts minute])).2 = Ok (Some Down) ∧
  let l := [Register 1 0; CheckTimeouts minute; ProbeFail 1 minute; ProbeFail 1 minute] in
  (get_health 1 (after l)).2 = Ok (Some Degraded) ∧ (should_route_to 1 minute (after l)).2 = Ok true.
Proof. vm_compute. done. Qed.

(** Heartbeats that come again do not bring it back. *)
Example heartbeats_do_not_revive :
  (get_health 1 (after [Register 1 0; CheckTimeouts minute; Heartbeat 1 minute;
                        CheckTimeouts minute])).2 = Ok (Some Down).
Proof. vm_compute. reflexivity. Qed.

(** Failures add up over the successes between them, so a shard whose every second
    probe succeeds is blocked. *)
Example alternating_probes_open :
  let l := Register 1 0 :: concat (replicate 5 [ProbeFail 1 1; ProbeOk 1 1 1]) in
  (get_health 1 (after l)).2 = Ok (Some Healthy) ∧ (should_route_to 1 2 (after l)).2 = Ok false.
Proof. vm_compute. done. Qed.

(** A window of no response times: the first successful probe panics, and every
    later call with it. *)
Definition no_window : HealthMonitorConfig :=
  {| heartbeat_timeout := 30 * 10 ^ 9; probe_interval := 10 ^ 9; probe_timeout := 10 ^ 9;
     degraded_threshold := 2; unhealthy_threshold := 5; down_threshold := 10;
     response_time_window := 0; breaker := default_breaker_config |}.

Example empty_window_poisons :
  (get_health 2 (monitor_after true no_window [Register 1 0; Register 2 0; ProbeOk 1 1 1])).2 = Panic.
Proof. vm_compute. reflexivity. Qed.
