(* ===== verification/LineageGraph.v ===== *)
(** * Lineage events and the lineage graph

    Models [core/lineage/mod.rs] of the core: the events that record where a
    record came from, and the graph over them with its two indexes, the walks
    upstream and downstream, the search for cycles and the depth.  Times are in
    nanoseconds; the order in which a hash set is iterated is a parameter. *)

From Stdlib Require Import ZArith Lia Ascii.
From stdpp Require Import base numbers option strings gmap list.
From S2P Require Import Prelude RustStd F64 WfRouting.

(** ** Events *)

Record CdcPosition : Type := {
  topic : string;
  partition : Z;
  offset : Z;
  lsn : option string;
}.

#[global] Instance CdcPosition_eq_dec : EqDecision CdcPosition.
Proof. solve_decision. Defined.
#[global] Program Instance CdcPosition_countable : Countable CdcPosition :=
  inj_countable' (λ p, (topic p, partition p, offset p, lsn p))
    (λ '(t, p, o, l), {| topic := t; partition := p; offset := o; lsn := l |}) _.
Next Obligation. by intros []. Qed.

Record DataRef : Type := {
  system : string;
  path : string;
  ref_version : option string;
  extracted_at : Z;
  cdc_position : option CdcPosition;
}.

#[global] Instance DataRef_eq_dec : EqDecision DataRef.
Proof. solve_decision. Defined.
#[global] Program Instance DataRef_countable : Countable DataRef :=
  inj_countable' (λ r, (system r, path r, ref_version r, extracted_at r, cdc_position r))
    (λ '(s, p, v, t, c), {| system := s; path := p; ref_version := v; extracted_at := t;
                            cdc_position := c |}) _.
Next Obligation. by intros []. Qed.

Record TransformRef : Type := {
  transform_id : string;
  transform_type : string;
  rule_id : string;
  transform_version : string;
  parameters : gmap string Json;
  applied_at : Z;
  fields_modified : list string;
}.

Record ModelMetrics : Type := {
  accuracy : option f64;
  precision : option f64;
  recall : option f64;
  f1_score : option f64;
  rmse : option f64;
  custom_metrics : gmap string f64;
}.

Record ModelRef : Type := {
  model_id : string;
  model_version : string;
  model_type : string;
  params_hash : string;
  training_data : list DataRef;
  metrics : ModelMetrics;
  registry_uri : string;
  inference_at : Z;
  features_used : list string;
  outputs : list string;
}.

Record LineageEvent : Type := {
  event_id : string;
  dataset : string;
  record_id : string;
  source_refs : list DataRef;
  transforms : list TransformRef;
  model_refs : list ModelRef;
  output_ref : DataRef;
  ts : Z;
  run_id : string;
  tenant_id : string;
  correlation_id : option string;
  metadata : gmap string string;
}.

(** ** The graph *)

Record LineageGraph : Type := {
  events : list LineageEvent;
  record_index : gmap string (list nat);
  data_ref_index : gmap string (gset string);
}.

(** [format!("{}:{}", system, path)]. *)
Definition ref_key (r : DataRef) : string := system r +:+ ":" +:+ path r.

(** The body of the loop of [LineageGraph::new]. *)
Definition index_event
    (ix : gmap string (list nat) * gmap string (gset string)) (ie : nat * LineageEvent)
    : gmap string (list nat) * gmap string (gset string) :=
  let '(records, refs) := ix in
  let '(idx, e) := ie in
  let key := ref_key (output_ref e) in
  (<[record_id e := default [] (records !! record_id e) ++ [idx]]> records,
   <[key := {[record_id e]} ∪ default ∅ (refs !! key)]> refs).

Definition new_graph (es : list LineageEvent) : LineageGraph :=
  let ix := foldl index_event (∅, ∅) (imap pair es) in
  {| events := es; record_index := ix.1; data_ref_index := ix.2 |}.

Definition from_events : list LineageEvent → LineageGraph := new_graph.

(** The indexes of a graph made by [new_graph] are in range. *)
Definition get_events_for_record (g : LineageGraph) (id : string) : list LineageEvent :=
  match record_index g !! id with
  | Some idxs => omap (λ i, events g !! i) idxs
  | None => []
  end.

Definition upstream (g : LineageGraph) (id : string) : list DataRef :=
  get_events_for_record g id ≫= source_refs.

Definition downstream (g : LineageGraph) (id : string) : list DataRef :=
  output_ref <$> get_events_for_record g id.

Definition models_in_chain (g : LineageGraph) (id : string) : list ModelRef :=
  get_events_for_record g id ≫= model_refs.

(** The order of a hash set. *)
Class SetOrder : Type := { set_entries : gset string → list string }.
Class SetOrderOk `{SetOrder} : Prop := {
  set_entries_perm s : set_entries s ≡ₚ elements s;
}.

(** ** Walks *)

(** The loop of the two walks: a stack of records to visit with their depths.
    [expand] is the body for one record: the records it pushes and its result. *)
Section Walk.
Context {A : Type} (expand : gset string → string → A → list string * A) (max_depth : nat).

Fixpoint walk (fuel : nat) (visited : gset string) (to_visit : list (string * nat)) (result : A)
    : option A :=
  match to_visit with
  | [] => Some result
  | (current, depth) :: rest =>
      match fuel with
      | O => None
      | S fuel' =>
          if bool_decide (max_depth < depth)%nat || bool_decide (current ∈ visited)
          then walk fuel' visited rest result
          else
            let visited := {[current]} ∪ visited in
            let '(pushed, result) := expand visited current result in
            walk fuel' visited (reverse ((λ id, (id, S depth)) <$> pushed) ++ rest) result
      end
  end.
End Walk.

Section Queries.
Context `{SetOrder} (g : LineageGraph).

(** [data_ref_index.get(key)]: the records whose output has this key. *)
Definition producers (key : string) : list string :=
  match data_ref_index g !! key with
  | Some s => set_entries s
  | None => []
  end.

Definition source_records (id : string) : list string :=
  upstream g id ≫= λ s, producers (ref_key s).

Definition output_records (id : string) : list string :=
  get_events_for_record g id ≫= λ e, producers (ref_key (output_ref e)).

Definition upstream_expand (visited : gset string) (id : string) (result : gset DataRef)
    : list string * gset DataRef :=
  (filter (λ r, r ∉ visited) (source_records id), list_to_set (upstream g id) ∪ result).

Definition downstream_expand (visited : gset string) (id : string) (result : gset string)
    : list string * gset string :=
  let consumers := filter (λ r, r ∉ visited) (output_records id) in
  (consumers, list_to_set consumers ∪ result).

(** Enough iterations: every record is visited at most once. *)
Definition walk_fuel (successors : string → list string) : nat :=
  S (sum_list_with (λ id, length (successors id)) (elements (dom (record_index g)))).

Definition upstream_recursive (id : string) (max_depth : nat) : option (gset DataRef) :=
  walk upstream_expand max_depth (walk_fuel source_records) ∅ [(id, 0%nat)] ∅.

Definition downstream_recursive (id : string) (max_depth : nat) : option (gset string) :=
  walk downstream_expand max_depth (walk_fuel output_records) ∅ [(id, 0%nat)] ∅.

Definition full_lineage_chain (id : string) (max_depth : nat) : option LineageGraph :=
  up ← upstream_recursive id max_depth;
  down ← downstream_recursive id max_depth;
  let of_refs := ⋃ ((λ r, list_to_set (producers (ref_key r))) <$> elements up) in
  let ids : gset string := {[id]} ∪ of_refs ∪ down in
  Some (new_graph (set_entries ids ≫= get_events_for_record g)).

(** ** Recursive searches *)

(** The loop over the consumers in [detect_cycle]; the state is [visited] and
    [recursion_stack]. *)
Fixpoint cycle_loop
    (detect : string → gset string * gset string → option (gset string * gset string * bool))
    (id : string) (cs : list string) (st : gset string * gset string)
    : option (gset string * gset string * bool) :=
  match cs with
  | [] => Some (st.1, st.2 ∖ {[id]}, false)
  | c :: cs' =>
      if decide (c ∉ st.1) then
        match detect c st with
        | None => None
        | Some (st', true) => Some (st', true)
        | Some (st', false) => cycle_loop detect id cs' st'
        end
      else if decide (c ∈ st.2) then Some (st, true)
      else cycle_loop detect id cs' st
  end.

Fixpoint detect_cycle (fuel : nat) (id : string) (st : gset string * gset string)
    : option (gset string * gset string * bool) :=
  match fuel with
  | O => None
  | S fuel' =>
      cycle_loop (detect_cycle fuel') id (output_records id) ({[id]} ∪ st.1, {[id]} ∪ st.2)
  end.

Definition has_circular_dependency (id : string) : option bool :=
  snd <$> detect_cycle (S (S (size (record_index g)))) id (∅, ∅).

(** [dfs] of [lineage_depth]. *)
Fixpoint depth_loop (dfs : string → gset string → option (gset string * nat))
    (cs : list string) (visited : gset string) (max_child_depth : nat)
    : option (gset string * nat) :=
  match cs with
  | [] => Some (visited, max_child_depth)
  | c :: cs' =>
      match dfs c visited with
      | None => None
      | Some (visited', child_depth) =>
          depth_loop dfs cs' visited' (Nat.max max_child_depth child_depth)
      end
  end.

Fixpoint depth_dfs (fuel : nat) (id : string) (depth : nat) (visited : gset string)
    : option (gset string * nat) :=
  match fuel with
  | O => None
  | S fuel' =>
      if decide (id ∈ visited) then Some (visited, depth)
      else depth_loop (λ c v, depth_dfs fuel' c (S depth) v) (source_records id)
             ({[id]} ∪ visited) depth
  end.

Definition lineage_depth (id : string) : option nat :=
  snd <$> depth_dfs (S (S (size (record_index g)))) id 0 ∅.
End Queries.

(** * Facts on the lineage graph

    The indexes of a graph stand for its events; the walks end, stay within their
    depth and, with enough of it, reach everything; the search for cycles and the
    walk downstream follow the records that share an output. *)

From stdpp Require Import base numbers option strings gmap list relations.

(** ** The loop of the walks *)

Section Walks.
Context {A : Type} (expand : gset string → string → A → list string * A) (max_depth : nat).
Context (succ : string → list string) (records : gset string).
Context (Hpush : ∀ v id r, (expand v id r).1 = filter (λ x, x ∉ v) (succ id)).
Context (Hout : ∀ id, id ∉ records → succ id = []).
Context (Hin : ∀ id x, x ∈ succ id → x ∈ records).

Definition edge (a b : string) : Prop := b ∈ succ a.

(** What the visits still to come can push. *)
Definition unvisited_cost (v : gset string) (l : list string) : nat :=
  sum_list_with (λ id, if decide (id ∈ v) then 0%nat else length (succ id)) l.

Lemma unvisited_cost_mono v w l : v ⊆ w → (unvisited_cost w l ≤ unvisited_cost v l)%nat.
Proof.
  clear A expand Hpush Hout Hin.
  intros Hsub. unfold unvisited_cost. induction l as [|x l IH]; simpl; [done|].
  repeat case_decide; set_solver by lia.
Qed.

Lemma unvisited_cost_visit v c l :
  c ∈ l → c ∉ v → (unvisited_cost ({[c]} ∪ v) l + length (succ c) ≤ unvisited_cost v l)%nat.
Proof.
  clear A expand Hpush Hout Hin.
  intros Hc Hv. induction l as [|x l IH]; [by apply not_elem_of_nil in Hc|].
  unfold unvisited_cost in *. simpl. destruct (decide (x = c)) as [->|Hne].
  - rewrite decide_True, decide_False by set_solver.
    pose proof (unvisited_cost_mono v ({[c]} ∪ v) l ltac:(set_solver)). unfold unvisited_cost in *. lia.
  - apply elem_of_cons in Hc as [->|Hc]; [done|]. specialize (IH Hc).
    destruct (decide (x ∈ v)).
    + rewrite decide_True by set_solver. lia.
    + rewrite decide_False by set_solver. lia.
Qed.

Lemma visit_cost v c :
  c ∉ v → (unvisited_cost ({[c]} ∪ v) (elements records) + length (succ c)
           ≤ unvisited_cost v (elements records))%nat.
Proof.
  clear A expand Hpush Hin.
  intros Hv. destruct (decide (c ∈ records)) as [Hc|Hc].
  - apply unvisited_cost_visit; [by apply elem_of_elements|done].
  - rewrite (Hout _ Hc). simpl. rewrite Nat.add_0_r. apply unvisited_cost_mono. set_solver.
Qed.

Lemma walk_total fuel v stack r :
  (length stack + unvisited_cost v (elements records) ≤ fuel)%nat →
  ∃ r', walk expand max_depth fuel v stack r = Some r'.
Proof.
  clear Hin.
  revert v stack r. induction fuel as [|fuel IH]; intros v [|[c d] stack] r Hf; simpl in *; eauto;
    [lia|].
  destruct (bool_decide _ || bool_decide (c ∈ v)) eqn:Hskip; [apply IH; lia|].
  apply orb_false_iff in Hskip as [_ Hc%bool_decide_eq_false_1].
  pose proof (visit_cost v c Hc). specialize (Hpush ({[c]} ∪ v) c r).
  destruct (expand _ _ _) as [pushed r']. simpl in Hpush. apply IH.
  rewrite length_app, length_reverse, length_fmap, Hpush.
  pose proof (length_filter (λ x, x ∉ {[c]} ∪ v) (succ c)). lia.
Qed.

(** A property of the state of the loop, kept by both kinds of iterations. *)
Lemma walk_inv (P : gset string → list (string * nat) → A → Prop) fuel v stack r r' :
  (∀ v c d rest r, P v ((c, d) :: rest) r → (max_depth < d)%nat ∨ c ∈ v → P v rest r) →
  (∀ v c d rest r, P v ((c, d) :: rest) r → (d ≤ max_depth)%nat → c ∉ v →
     P ({[c]} ∪ v) (reverse ((λ id, (id, S d)) <$> filter (λ x, x ∉ {[c]} ∪ v) (succ c)) ++ rest)
       (expand ({[c]} ∪ v) c r).2) →
  P v stack r → walk expand max_depth fuel v stack r = Some r' → ∃ v', P v' [] r'.
Proof.
  clear Hout Hin.
  intros Hs Hv. revert v stack r.
  induction fuel as [|fuel IH]; intros v [|[c d] stack] r HP Hw; simpl in *; simplify_eq; eauto.
  destruct (bool_decide _ || bool_decide (c ∈ v)) eqn:Hskip.
  - eapply IH; [|exact Hw]. eapply Hs; [exact HP|].
    apply orb_true_iff in Hskip as [?%bool_decide_eq_true_1|?%bool_decide_eq_true_1]; auto.
  - apply orb_false_iff in Hskip as [Hd%bool_decide_eq_false_1 Hc%bool_decide_eq_false_1].
    pose proof (Hv v c d stack r HP ltac:(lia) Hc) as HP'.
    specialize (Hpush ({[c]} ∪ v) c r). destruct (expand _ _ _) as [pushed r1]. simpl in *.
    subst pushed. by eapply IH.
Qed.

(** The state of a walk from [start]. *)
Record walked (start : string) (v : gset string) (stack : list (string * nat)) : Prop := {
  walked_steps r d : (r, d) ∈ stack → nsteps edge d start r;
  walked_near r : r ∈ v → ∃ d, (d ≤ max_depth)%nat ∧ nsteps edge d start r;
  walked_known r : r ∈ v ∨ (∃ d, (r, d) ∈ stack) → r ∈ ({[start]} ∪ records);
  walked_depth r d : (r, d) ∈ stack → (d ≤ size v)%nat;
  walked_closed : (size records ≤ max_depth)%nat →
    (start ∈ v ∨ ∃ d, (start, d) ∈ stack) ∧
    ∀ a b, a ∈ v → edge a b → b ∈ v ∨ ∃ d, (b, d) ∈ stack;
}.

Lemma walked_start start : walked start ∅ [(start, 0%nat)].
Proof.
  clear A expand Hpush Hout Hin.
  split.
  - intros r d [= -> ->]%list_elem_of_singleton. constructor.
  - set_solver.
  - intros r [?|[d [= -> ->]%list_elem_of_singleton]]; set_solver.
  - intros r d [= -> ->]%list_elem_of_singleton. lia.
  - intros _. split; [right; exists 0%nat; by left|set_solver].
Qed.

Lemma walked_skip start v c d rest :
  walked start v ((c, d) :: rest) → (max_depth < d)%nat ∨ c ∈ v → walked start v rest.
Proof.
  clear A expand Hpush Hout Hin.
  intros [H1 H2 H3 H4 H5] Hskip.
  assert (Hc : (size records ≤ max_depth)%nat → c ∈ v).
  { intros Hsz. destruct Hskip as [Hd|]; [|done]. destruct (decide (c ∈ v)) as [|Hcv]; [done|].
    exfalso. specialize (H4 c d ltac:(by left)).
    assert (Hsub : {[c]} ∪ v ⊆ {[start]} ∪ records).
    { intros x [->%elem_of_singleton|Hx]%elem_of_union; apply H3; [right; exists d; by left|auto]. }
    apply subseteq_size in Hsub. rewrite size_union, size_singleton in Hsub by set_solver.
    pose proof (size_union_alt {[start]} records). rewrite size_singleton in *.
    pose proof (subseteq_size (records ∖ {[start]}) records ltac:(set_solver)). lia. }
  assert (Hkeep : ∀ x, (size records ≤ max_depth)%nat → (x ∈ v ∨ ∃ d', (x, d') ∈ (c, d) :: rest) →
                       x ∈ v ∨ ∃ d', (x, d') ∈ rest).
  { intros x Hsz [?|[d' [[= -> ->]|Hx]%elem_of_cons]]; eauto. }
  split.
  - intros r e Hr. apply H1. by right.
  - done.
  - intros r [?|[e Hr]]; apply H3; [by left|right; exists e; by right].
  - intros r e Hr. eapply H4. by right.
  - intros Hsz. specialize (H5 Hsz) as [Hst Hcl]. split; [auto|]. intros a b Ha Hab. eauto.
Qed.

Lemma walked_visit start v c d rest :
  walked start v ((c, d) :: rest) → (d ≤ max_depth)%nat → c ∉ v →
  walked start ({[c]} ∪ v)
    (reverse ((λ id, (id, S d)) <$> filter (λ x, x ∉ {[c]} ∪ v) (succ c)) ++ rest).
Proof.
  clear A expand Hpush Hout.
  intros [H1 H2 H3 H4 H5] Hd Hc. specialize (H1 c d ltac:(by left)) as Hcd.
  assert (Hnew : ∀ x e, (x, e) ∈ reverse ((λ id, (id, S d)) <$> filter (λ x, x ∉ {[c]} ∪ v) (succ c))
            ↔ e = S d ∧ x ∉ {[c]} ∪ v ∧ edge c x).
  { intros x e. rewrite elem_of_reverse, list_elem_of_fmap. setoid_rewrite list_elem_of_filter.
    unfold edge. naive_solver. }
  split.
  - intros r e [Hr|Hr]%elem_of_app; [|by apply H1; right]. apply Hnew in Hr as (-> & _ & Hr).
    by eapply nsteps_r.
  - intros r [->%elem_of_singleton|Hr]%elem_of_union; eauto.
  - intros r [[->%elem_of_singleton|Hr]%elem_of_union|[e [Hr|Hr]%elem_of_app]].
    + apply H3. right. exists d. by left.
    + apply H3. by left.
    + apply Hnew in Hr as (_ & _ & Hr). apply elem_of_union_r. by eapply Hin.
    + apply H3. right. exists e. by right.
  - intros r e Hr. rewrite size_union, size_singleton by set_solver.
    apply elem_of_app in Hr as [Hr|Hr].
    + apply Hnew in Hr as (-> & _ & _). specialize (H4 c d ltac:(by left)). lia.
    + specialize (H4 r e ltac:(by right)). lia.
  - intros Hsz. specialize (H5 Hsz) as [Hst Hcl].
    assert (Hkeep : ∀ x, (x ∈ v ∨ ∃ d', (x, d') ∈ (c, d) :: rest) → x ∈ {[c]} ∪ v ∨
      ∃ e, (x, e) ∈ reverse ((λ id, (id, S d)) <$> filter (λ x, x ∉ {[c]} ∪ v) (succ c)) ++ rest).
    { intros x [?|[e [[= -> ->]|Hx]%elem_of_cons]]; [set_solver..|].
      right. exists e. apply elem_of_app. by right. }
    split; [auto|]. intros a b [->%elem_of_singleton|Ha]%elem_of_union Hab; [|eauto].
    destruct (decide (b ∈ {[c]} ∪ v)) as [|Hb]; [auto|]. right. exists (S d).
    apply elem_of_app. left. by apply Hnew.
Qed.

Lemma walked_reaches start v :
  walked start v [] → (size records ≤ max_depth)%nat → ∀ r, rtc edge start r → r ∈ v.
Proof.
  clear A expand Hpush Hout Hin.
  intros Hw Hsz. destruct (walked_closed _ _ _ Hw Hsz) as [Hst Hcl].
  assert (Hnil : ∀ x, x ∈ v ∨ (∃ d : nat, (x, d) ∈ []) → x ∈ v).
  { intros x [?|[d []%not_elem_of_nil]]. done. }
  intros r Hr. apply Hnil in Hst. clear Hw. revert Hst. induction Hr as [|a b c Hab _ IH]; eauto.
Qed.
End Walks.

(** ** The indexes *)

Definition record_events (es : list LineageEvent) (id : string) : list LineageEvent :=
  filter (λ e, record_id e = id) es.

Record indexed (es : list LineageEvent)
    (ix : gmap string (list nat) * gmap string (gset string)) : Prop := {
  indexed_dom id : id ∈ dom ix.1 ↔ ∃ e, e ∈ es ∧ record_id e = id;
  indexed_range id i : i ∈ default [] (ix.1 !! id) → (i < length es)%nat;
  indexed_events id : omap (λ i, es !! i) (default [] (ix.1 !! id)) = record_events es id;
  indexed_refs key r :
    r ∈ default ∅ (ix.2 !! key) ↔ ∃ e, e ∈ es ∧ record_id e = r ∧ ref_key (output_ref e) = key;
}.

Lemma index_event_ok es ix e :
  indexed es ix → indexed (es ++ [e]) (index_event ix (length es, e)).
Proof.
  intros [H1 H2 H3 H4]. destruct ix as [records refs]. simpl in *.
  assert (Hlast : (es ++ [e]) !! length es = Some e) by (by apply list_lookup_middle).
  assert (Hold : ∀ l : list nat, (∀ i, i ∈ l → (i < length es)%nat) →
            omap (λ i, (es ++ [e]) !! i) l = omap (λ i, es !! i) l).
  { intros l. induction l as [|i l IH]; intros Hl; csimpl; [done|].
    rewrite lookup_app_l by (apply Hl; left). rewrite IH; [done|]. intros j Hj. apply Hl. by right. }
  assert (Hev : ∀ id, record_events (es ++ [e]) id =
            record_events es id ++ (if decide (record_id e = id) then [e] else [])).
  { intros id. unfold record_events. rewrite filter_app. f_equal. }
  split; simpl.
  - intros id. rewrite dom_insert, elem_of_union, elem_of_singleton, H1. set_solver.
  - intros id i. rewrite length_app. simpl. destruct (decide (record_id e = id)) as [<-|Hne].
    + rewrite lookup_insert_eq. simpl. intros [Hi%H2| ->%list_elem_of_singleton]%elem_of_app; lia.
    + rewrite lookup_insert_ne by done. intros Hi%H2. lia.
  - intros id. rewrite Hev. destruct (decide (record_id e = id)) as [<-|Hne].
    + rewrite lookup_insert_eq. simpl. rewrite omap_app, Hold by apply H2. rewrite H3. simpl.
      by rewrite Hlast.
    + rewrite lookup_insert_ne, Hold, app_nil_r by (done || apply H2). apply H3.
  - intros key r. destruct (decide (ref_key (output_ref e) = key)) as [<-|Hne].
    + rewrite lookup_insert_eq. simpl. rewrite elem_of_union, H4. set_solver.
    + rewrite lookup_insert_ne by done. rewrite H4. set_solver.
Qed.

Lemma new_graph_indexed es : indexed es (record_index (new_graph es), data_ref_index (new_graph es)).
Proof.
  unfold new_graph. simpl. rewrite <- surjective_pairing.
  induction es as [|e es IH] using rev_ind.
  - split; simpl; set_solver.
  - rewrite imap_app. simpl. rewrite foldl_app, Nat.add_0_r. simpl. by apply index_event_ok.
Qed.

Lemma get_events_new es id : get_events_for_record (new_graph es) id = record_events es id.
Proof.
  pose proof (indexed_events _ _ (new_graph_indexed es) id) as H. cbn [fst] in H.
  unfold get_events_for_record. by destruct (record_index (new_graph es) !! id).
Qed.

(** The sources of a record, and the records its sources are the outputs of. *)
Definition source_of (es : list LineageEvent) (r : string) (s : DataRef) : Prop :=
  ∃ e, e ∈ es ∧ record_id e = r ∧ s ∈ source_refs e.

Definition writes (es : list LineageEvent) (r key : string) : Prop :=
  ∃ e, e ∈ es ∧ record_id e = r ∧ ref_key (output_ref e) = key.

Definition derived_from (es : list LineageEvent) (a b : string) : Prop :=
  ∃ s, source_of es a s ∧ writes es b (ref_key s).

(** Records with an output in common. *)
Definition share_output (es : list LineageEvent) (a b : string) : Prop :=
  ∃ key, writes es a key ∧ writes es b key.

Lemma upstream_new es id s : s ∈ upstream (new_graph es) id ↔ source_of es id s.
Proof.
  unfold upstream, source_of. rewrite get_events_new, list_elem_of_bind.
  unfold record_events. setoid_rewrite list_elem_of_filter. naive_solver.
Qed.

Section Graph.
Context `{SetOrder, !SetOrderOk} (es : list LineageEvent).

Let g := new_graph es.

Lemma elem_of_producers key r : r ∈ producers g key ↔ writes es r key.
Proof.
  pose proof (indexed_refs _ _ (new_graph_indexed es) key r) as Hr. cbn [snd] in Hr. fold g in Hr.
  unfold writes. rewrite <- Hr. unfold producers.
  destruct (data_ref_index g !! key); simpl; [|set_solver].
  by rewrite set_entries_perm, elem_of_elements.
Qed.

Lemma elem_of_source_records a b : b ∈ source_records g a ↔ derived_from es a b.
Proof.
  unfold source_records, derived_from. rewrite list_elem_of_bind.
  setoid_rewrite elem_of_producers. unfold g. setoid_rewrite upstream_new. naive_solver.
Qed.

Lemma elem_of_output_records a b : b ∈ output_records g a ↔ share_output es a b.
Proof.
  unfold output_records, share_output. rewrite list_elem_of_bind.
  setoid_rewrite elem_of_producers. unfold g. rewrite get_events_new.
  unfold record_events. setoid_rewrite list_elem_of_filter. unfold writes. naive_solver.
Qed.

Lemma elem_of_records r : r ∈ dom (record_index g) ↔ ∃ e, e ∈ es ∧ record_id e = r.
Proof. apply (indexed_dom _ _ (new_graph_indexed es)). Qed.

Lemma writes_record r key : writes es r key → r ∈ dom (record_index g).
Proof. intros (e & He & Hr & _). apply elem_of_records. eauto. Qed.

Lemma walk_from {A} (expand : gset string → string → A → list string * A) succ max_depth id r
    (P : gset string → list (string * nat) → A → Prop) :
  (∀ v x r, (expand v x r).1 = filter (λ y, y ∉ v) (succ x)) →
  (∀ x, x ∉ dom (record_index g) → succ x = []) →
  (∀ x y, y ∈ succ x → y ∈ dom (record_index g)) →
  P ∅ [(id, 0%nat)] r →
  (∀ v c d rest r, P v ((c, d) :: rest) r → P v rest r) →
  (∀ v c d rest r, P v ((c, d) :: rest) r → c ∉ v →
     P ({[c]} ∪ v) (reverse ((λ id, (id, S d)) <$> filter (λ x, x ∉ {[c]} ∪ v) (succ c)) ++ rest)
       (expand ({[c]} ∪ v) c r).2) →
  ∃ r' v, walk expand max_depth (walk_fuel g succ) ∅ [(id, 0%nat)] r = Some r' ∧ P v [] r' ∧
    walked max_depth succ (dom (record_index g)) id v [].
Proof.
  intros Hp Ho Hi Hinit Hs Hv.
  destruct (walk_total expand max_depth succ (dom (record_index g)) Hp Ho
              (walk_fuel g succ) ∅ [(id, 0%nat)] r) as [r' Hr'].
  { unfold walk_fuel, unvisited_cost. simpl. apply le_n_S. clear.
    induction (elements _); simpl; [done|]. case_decide; set_solver by lia. }
  destruct (walk_inv expand max_depth succ Hp
    (λ v st r, P v st r ∧ walked max_depth succ (dom (record_index g)) id v st)
    (walk_fuel g succ) ∅ [(id, 0%nat)] r r') as [v [HP Hw]]; [..|done|eauto].
  - intros v c d rest r1 [HP Hw] Hskip. split; [by eapply Hs|by eapply walked_skip].
  - intros v c d rest r1 [HP Hw] Hd Hc. split; [by apply Hv|by eapply walked_visit].
  - split; [done|apply walked_start].
Qed.

Lemma nsteps_impl {A} (R S : A → A → Prop) n x y :
  (∀ a b, R a b → S a b) → nsteps R n x y → nsteps S n x y.
Proof. intros HRS. induction 1; econstructor; eauto. Qed.

(** C16: The walk upstream always ends.  What it answers are sources of records at
    most [max_depth] derivations away; when [max_depth] is at least the number of
    records, it answers every source of every record the start was derived from,
    directly or not. *)
Theorem upstream_recursive_exact id max_depth :
  ∃ result, upstream_recursive g id max_depth = Some result ∧
    (∀ s, s ∈ result → ∃ n r, (n ≤ max_depth)%nat ∧ nsteps (derived_from es) n id r ∧
                              source_of es r s) ∧
    ((size (record_index g) ≤ max_depth)%nat →
     ∀ r s, rtc (derived_from es) id r → source_of es r s → s ∈ result).
Proof.
  destruct (walk_from (upstream_expand g) (source_records g) max_depth id ∅
    (λ v _ res, ∀ s, s ∈ res ↔ ∃ r, r ∈ v ∧ source_of es r s)) as (res & v & Hr & HP & Hw).
  - done.
  - intros x Hx. apply elem_of_nil_inv. intros y (s & (e & He & <- & _) & _)%elem_of_source_records.
    apply Hx, elem_of_records. eauto.
  - intros x y (s & _ & Hw)%elem_of_source_records. by eapply writes_record.
  - set_solver.
  - done.
  - intros v c d rest r HP Hc s. simpl. rewrite elem_of_union, elem_of_list_to_set, HP.
    unfold g. rewrite upstream_new. set_solver.
  - exists res. split; [done|]. split.
    + intros s (r & Hrv & Hs)%HP. destruct (walked_near _ _ _ _ _ _ Hw r Hrv) as (n & Hn & Hst).
      exists n, r. split_and!; [done| |done]. eapply nsteps_impl; [|exact Hst].
      intros a b. apply elem_of_source_records.
    + intros Hsz r s Hr' Hs. apply HP. exists r. split; [|done].
      eapply (walked_reaches max_depth (source_records g) (dom (record_index g)));
        [exact Hw|by rewrite size_dom|]. eapply rtc_subrel; [|exact Hr'].
      intros a b. apply elem_of_source_records.
Qed.

(** The walk downstream follows shared outputs, not consumers: it always ends,
    and the records it answers are those connected to the start by records that
    write the same place (all of them when [max_depth] is at least the number of
    records).  Whether a record reads what another one wrote plays no role. *)
Theorem downstream_follows_outputs id max_depth :
  ∃ result, downstream_recursive g id max_depth = Some result ∧
    (∀ r, r ∈ result → r ≠ id ∧ rtc (share_output es) id r) ∧
    ((size (record_index g) ≤ max_depth)%nat →
     ∀ r, r ≠ id → rtc (share_output es) id r → r ∈ result).
Proof.
  destruct (walk_from (downstream_expand g) (output_records g) max_depth id ∅
    (λ v st res, (id ∈ v ∨ v = ∅ ∧ ∀ r d, (r, d) ∈ st → r = id) ∧
       (∀ r, r ∈ v ∨ (∃ d, (r, d) ∈ st) → r = id ∨ r ∈ res) ∧
       (∀ r, r ∈ v ∨ r ∈ res ∨ (∃ d, (r, d) ∈ st) → rtc (share_output es) id r) ∧ id ∉ res))
    as (res & v & Hr & (_ & Hv & Hres & Hid) & Hw).
  - done.
  - intros x Hx. apply elem_of_nil_inv. intros y (key & (e & He & <- & _) & _)%elem_of_output_records.
    apply Hx, elem_of_records. eauto.
  - intros x y (key & _ & Hy)%elem_of_output_records. by eapply writes_record.
  - split_and!; [right; set_solver|set_solver| |set_solver].
    intros r [?|[?|[d [= -> ->]%list_elem_of_singleton]]]; [set_solver..|done].
  - intros v c d rest r (H1 & H2 & H3 & H4). split_and!; [set_solver..|done].
  - intros v c d rest r (H1 & H2 & H3 & H4) Hc. simpl.
    assert (Hci : id ∈ ({[c]} ∪ v : gset string)).
    { destruct H1 as [?|[-> Hst]]; [set_solver|]. specialize (Hst c d ltac:(by left)). set_solver. }
    assert (Hcr : rtc (share_output es) id c) by (apply H3; right; right; exists d; by left).
    assert (Hnew : ∀ x, x ∈ filter (λ y, y ∉ {[c]} ∪ v) (output_records g c) ↔
              x ∉ {[c]} ∪ v ∧ share_output es c x).
    { intros x. by rewrite list_elem_of_filter, elem_of_output_records. }
    assert (Hst : ∀ x, (∃ e, (x, e) ∈ reverse ((λ id, (id, S d)) <$>
              filter (λ y, y ∉ {[c]} ∪ v) (output_records g c)) ++ rest) ↔
              (x ∉ {[c]} ∪ v ∧ share_output es c x) ∨ ∃ e, (x, e) ∈ rest).
    { intros x. setoid_rewrite elem_of_app. setoid_rewrite elem_of_reverse.
      setoid_rewrite list_elem_of_fmap. setoid_rewrite Hnew. naive_solver. }
    assert (Hres : ∀ x, x ∈ list_to_set (filter (λ y, y ∉ {[c]} ∪ v) (output_records g c)) ∪ r ↔
              (x ∉ {[c]} ∪ v ∧ share_output es c x) ∨ x ∈ r).
    { intros x. by rewrite elem_of_union, elem_of_list_to_set, Hnew. }
    assert (Hrest : ∀ x e, (x, e) ∈ rest → ∃ e', (x, e') ∈ (c, d) :: rest) by (intros; exists e; by right).
    split_and!; [by left| | |].
    + intros x. rewrite Hst, Hres. intros Hx.
      destruct (decide (x = c)) as [->|Hne].
      { destruct (H2 c); [right; exists d; by left|auto..]. }
      destruct Hx as [Hx|[?|[e He]]]; [|auto|].
      * destruct (H2 x); [left; set_solver|auto..].
      * destruct (H2 x); [eauto..|auto].
    + intros x. rewrite Hst, Hres.
      assert (Hstep : share_output es c x → rtc (share_output es) id x)
        by (intros; by eapply rtc_r).
      intros [[->%elem_of_singleton|?]%elem_of_union|[[[_ ?]|?]|[[_ ?]|[e ?]]]]; auto.
      apply H3. eauto.
    + rewrite Hres. intros [[? _]|?]; done.
  - exists res. split; [done|]. split.
    + intros r Hres'. split; [by intros ->|auto].
    + intros Hsz r Hne Hr'. destruct (Hv r) as [?|?]; [|done..]. left.
      eapply (walked_reaches max_depth (output_records g) (dom (record_index g)));
        [exact Hw|by rewrite size_dom|]. eapply rtc_subrel; [|exact Hr'].
      intros a b. apply elem_of_output_records.
Qed.

(** ** Cycles and depth *)

Lemma shares_itself id : (∃ e, e ∈ es ∧ record_id e = id) → id ∈ output_records g id.
Proof.
  intros (e & He & Hid). apply elem_of_output_records. exists (ref_key (output_ref e)).
  split; exists e; done.
Qed.

Lemma size_unvisited (v : gset string) id :
  id ∈ dom (record_index g) → id ∉ v →
  size (dom (record_index g) ∖ v) = S (size (dom (record_index g) ∖ ({[id]} ∪ v))).
Proof.
  intros Hid Hv.
  replace (dom (record_index g) ∖ v) with
    ({[id]} ∪ dom (record_index g) ∖ ({[id]} ∪ v)).
  - rewrite size_union, size_singleton by set_solver. lia.
  - apply set_eq. intros x. destruct (decide (x = id)) as [->|]; set_solver.
Qed.

Lemma detect_cycle_S fuel id st :
  detect_cycle g (S fuel) id st =
  cycle_loop (detect_cycle g fuel) id (output_records g id) ({[id]} ∪ st.1, {[id]} ∪ st.2).
Proof. done. Qed.

Lemma detect_cycle_own_output fuel id v :
  (∃ e, e ∈ es ∧ record_id e = id) → id ∉ v →
  (size (dom (record_index g) ∖ v) ≤ fuel)%nat →
  ∃ st, detect_cycle g (S fuel) id (v, v) = Some (st, true).
Proof.
  revert id v. induction fuel as [|fuel IH]; intros id v He Hv Hf;
    pose proof (proj2 (elem_of_records id) He) as Hid;
    rewrite (size_unvisited v id Hid Hv) in Hf; [lia|].
  rewrite detect_cycle_S. pose proof (shares_itself id He) as Hself.
  assert (Hall : ∀ x, x ∈ output_records g id → ∃ e, e ∈ es ∧ record_id e = x).
  { intros x (key & _ & (e & ? & ? & _))%elem_of_output_records. eauto. }
  destruct (output_records g id) as [|c cs]; [by apply not_elem_of_nil in Hself|].
  cbn [cycle_loop fst snd]. case_decide as Hc.
  - destruct (IH c ({[id]} ∪ v)) as [st Hst]; [apply Hall; by left|done|lia|].
    rewrite Hst. eauto.
  - rewrite decide_True; [eauto|]. done.
Qed.

(** The search for circular dependencies always ends, and it reports one for
    every record that has an event, whatever the events are: the record itself is
    found among the writers of its own output. *)
Theorem circular_for_every_record id :
  has_circular_dependency g id = Some (bool_decide (id ∈ record_id <$> es)).
Proof.
  unfold has_circular_dependency. destruct (decide (id ∈ record_id <$> es)) as [He|Hne].
  - rewrite bool_decide_true by done.
    destruct (detect_cycle_own_output (S (size (record_index g))) id ∅) as [st Hst]; [|set_solver| |].
    + apply list_elem_of_fmap in He as (e & -> & ?). eauto.
    + rewrite difference_empty_L, size_dom. lia.
    + by rewrite Hst.
  - rewrite bool_decide_false by done. rewrite detect_cycle_S.
    replace (output_records g id) with (@nil string); [done|]. symmetry. apply elem_of_nil_inv.
    intros y (key & (e & He & <- & _) & _)%elem_of_output_records. by apply Hne, list_elem_of_fmap_2.
Qed.

Lemma depth_dfs_S fuel id depth v :
  depth_dfs g (S fuel) id depth v =
  if decide (id ∈ v) then Some (v, depth)
  else depth_loop (λ c v, depth_dfs g fuel c (S depth) v) (source_records g id) ({[id]} ∪ v) depth.
Proof. done. Qed.

(** A depth the search can answer for a record it enters at [depth]. *)
Definition depth_found (id : string) (depth d : nat) : Prop :=
  ∃ n r, d = (depth + n)%nat ∧ nsteps (derived_from es) n id r.

Lemma depth_loop_ok dfs id depth cs v m :
  (∀ c w, c ∈ cs → v ⊆ w →
     ∃ w' d, dfs c w = Some (w', d) ∧ w ⊆ w' ∧ depth_found c (S depth) d) →
  (∀ c, c ∈ cs → derived_from es id c) → depth_found id depth m →
  ∃ v' d, depth_loop dfs cs v m = Some (v', d) ∧ v ⊆ v' ∧ depth_found id depth d.
Proof.
  revert v m. induction cs as [|c cs IH]; intros v m Hdfs Hcs Hm; [simpl; eauto|].
  destruct (Hdfs c v) as (w & d & Hd & Hw & n & r & -> & Hn); [by left|done|].
  cbn [depth_loop]. rewrite Hd.
  destruct (IH w (Nat.max m (S depth + n))) as (v' & d' & ? & ? & ?).
  - intros c' w' Hc' Hw'. apply Hdfs; [by right|set_solver].
  - intros c' Hc'. apply Hcs. by right.
  - destruct (Nat.max_spec m (S depth + n)) as [[_ ->]|[_ ->]]; [|done].
    exists (S n), r. split; [lia|]. econstructor; [|done]. apply Hcs. by left.
  - exists v', d'. split_and!; [done|set_solver|done].
Qed.

Lemma depth_dfs_ok fuel id depth v :
  (size (dom (record_index g) ∖ v) ≤ fuel)%nat →
  ∃ v' d, depth_dfs g (S fuel) id depth v = Some (v', d) ∧ v ⊆ v' ∧ depth_found id depth d.
Proof.
  revert id depth v. induction fuel as [fuel IH] using lt_wf_ind. intros id depth v Hf.
  rewrite depth_dfs_S.
  assert (Hself : depth_found id depth depth) by (exists 0%nat, id; split; [lia|constructor]).
  case_decide as Hv; [eauto|].
  destruct (depth_loop_ok (λ c v, depth_dfs g fuel c (S depth) v) id depth (source_records g id)
         ({[id]} ∪ v) depth) as (v' & d' & Hl & Hsub & Hd); [| |done|].
  - intros c w Hc Hw. apply elem_of_source_records in Hc as (s & (e & He & <- & _) & _).
    rewrite (size_unvisited v (record_id e)) in Hf by (done || (apply elem_of_records; eauto)).
    destruct fuel as [|fuel]; [lia|]. apply IH; [lia|].
    pose proof (subseteq_size (dom (record_index g) ∖ w)
      (dom (record_index g) ∖ ({[record_id e]} ∪ v)) ltac:(set_solver)). lia.
  - intros c Hc. by apply elem_of_source_records.
  - exists v', d'. split_and!; [exact Hl|set_solver|done].
Qed.

(** The depth is the length of a chain of derivations that exists. *)
Theorem lineage_depth_attained id :
  ∃ d r, lineage_depth g id = Some d ∧ nsteps (derived_from es) d id r.
Proof.
  destruct (depth_dfs_ok (S (size (record_index g))) id 0 ∅) as (v & d & Hd & _ & n & r & -> & Hn).
  - rewrite difference_empty_L, size_dom. lia.
  - exists n, r. unfold lineage_depth. by rewrite Hd.
Qed.
End Graph.
