(* ===== verification/LineageStore.v ===== *)
(** * The store of lineage events

    Models [LineageSink] of [core/lineage/mod.rs] as a class and its implementation
    in RocksDB, [storage/rocks.rs] of the coordinator: events by identifier, four
    inverted indexes whose keys end in the identifier, and two indexes by time.
    The JSON encoding of an event and which operations of the database fail are
    parameters; a batch of writes is applied as a whole or not at all.  Writes go
    straight to the database; the optional pool of writers is left out. *)

From Stdlib Require Import ZArith Lia Ascii.
From Stdlib Require Import SpecFloat.
From stdpp Require Import base numbers option strings gmap list sorting.
From S2P Require Import Prelude RustStd F64 Effects KvScan LineageGraph.

Local Open Scope Z_scope.

Inductive LineageError : Type := LineageDbFailed | LineageDecodeFailed.

(** [LineageSink]: what the analyses ask of a store. *)
Class LineageSink : Type := {
  Sink : Type;
  sink_write : LineageEvent → method Sink LineageError unit;
  sink_record_lineage : string → method Sink LineageError (list LineageEvent);
  sink_model_impact : string → string → method Sink LineageError (list LineageEvent);
  sink_time_range : Z → Z → method Sink LineageError (list LineageEvent);
  sink_run_lineage : string → method Sink LineageError (list LineageEvent);
  sink_lineage_as_of : string → Z → method Sink LineageError (list LineageEvent);
}.

(** ** Keys *)

(** [DateTime::timestamp]: whole seconds. *)
Definition second (t : Z) : Z := t / 10 ^ 9.

(** [to_be_bytes] of a signed number is that of its two's complement. *)
Definition timestamp_to_key (t : Z) : string := be_string 8 (second t mod 2 ^ 64).

Definition time_travel_key (record : string) (t : Z) : string :=
  record +:+ "|" +:+ timestamp_to_key t.

Definition inverted_key (prefix id : string) : string := prefix +:+ "|" +:+ id.

Definition model_key (m : ModelRef) : string := model_id m +:+ ":" +:+ model_version m.

(** ** The store *)

Class LineageDb : Type := {
  event_to_json : LineageEvent → string;
  event_of_json : string → option LineageEvent;
  (** whether the operation of this number succeeds *)
  lineage_db_ok : nat → bool;
}.

(** What the indexes depend on. *)
Definition event_core (e : LineageEvent)
    : string * string * string * string * Z * list string :=
  (event_id e, record_id e, run_id e, tenant_id e, ts e, model_key <$> model_refs e).

(** JSON has no infinity and no NaN: [serde_json] writes them as [null], which it does
    not read back as one of the custom metrics of a model. *)
Definition f64_finite (x : f64) : bool :=
  match x with S754_nan | S754_infinity _ => false | _ => true end.

Definition finite_metrics (e : LineageEvent) : bool :=
  forallb (λ m, bool_decide (map_Forall (λ _ x, f64_finite x = true) (custom_metrics (metrics m))))
    (model_refs e).

(** Strings and dates survive the encoding (a float may lose a digit), when the metrics
    are finite. *)
Class LineageDbOk `{LineageDb} : Prop := {
  event_json_core e : finite_metrics e = true →
    ∃ e', event_of_json (event_to_json e) = Some e' ∧ event_core e' = event_core e;
}.

Record RocksLineageStore : Type := {
  cf_primary : gmap string string;
  cf_record_index : gmap string string;
  cf_model_index : gmap string string;
  cf_run_index : gmap string string;
  cf_tenant_index : gmap string string;
  cf_time_index : gmap string string;
  cf_time_travel : gmap string string;
  lineage_ops : nat;
}.

Definition new_lineage_store : RocksLineageStore :=
  {| cf_primary := ∅; cf_record_index := ∅; cf_model_index := ∅; cf_run_index := ∅;
     cf_tenant_index := ∅; cf_time_index := ∅; cf_time_travel := ∅; lineage_ops := 0 |}.

Section Store.
Context `{LineageDb}.

Abbreviation LineageM := (method RocksLineageStore LineageError).

Definition lineage_io : LineageM unit := λ s,
  ({| cf_primary := cf_primary s; cf_record_index := cf_record_index s;
      cf_model_index := cf_model_index s; cf_run_index := cf_run_index s;
      cf_tenant_index := cf_tenant_index s; cf_time_index := cf_time_index s;
      cf_time_travel := cf_time_travel s; lineage_ops := S (lineage_ops s) |},
   if lineage_db_ok (lineage_ops s) then Ok tt else Err LineageDbFailed).

Definition add_to_inverted_index (prefix id : string) (cf : gmap string string)
    : gmap string string := <[inverted_key prefix id := ""]> cf.

(** The writes of [write_batch] for one event. *)
Definition put_event (s : RocksLineageStore) (e : LineageEvent) : RocksLineageStore :=
  let id := event_id e in
  {| cf_primary := <[id := event_to_json e]> (cf_primary s);
     cf_record_index := add_to_inverted_index (record_id e) id (cf_record_index s);
     cf_model_index := foldl (λ cf m, add_to_inverted_index (model_key m) id cf)
                         (cf_model_index s) (model_refs e);
     cf_run_index := add_to_inverted_index (run_id e) id (cf_run_index s);
     cf_tenant_index := add_to_inverted_index (tenant_id e) id (cf_tenant_index s);
     cf_time_index := <[timestamp_to_key (ts e) := id]> (cf_time_index s);
     cf_time_travel := <[time_travel_key (record_id e) (ts e) := id]> (cf_time_travel s);
     lineage_ops := lineage_ops s |}.

Definition write_batch (es : list LineageEvent) : LineageM unit :=
  _ ← lineage_io;
  modify (λ s, foldl put_event s es).

(** An event by identifier, when it is there. *)
Definition read_event (id : string) : LineageM (option LineageEvent) :=
  _ ← lineage_io;
  stored ← gets (λ s, cf_primary s !! id);
  match stored with
  | None => mret None
  | Some json => e ← lift (ok_or (event_of_json json) LineageDecodeFailed); mret (Some e)
  end.

Definition read_events (ids : list string) : LineageM (list LineageEvent) :=
  found ← method_mapM read_event ids;
  mret (sort_by ts (omap id found)).

Definition get_events_by_ids (ids : list string) : LineageM (list LineageEvent) :=
  read_events (btree_set ids).

(** The keys from the prefix on, until one has another prefix; the identifier is
    what follows. *)
Definition get_events_by_prefix (cf : RocksLineageStore → gmap string string) (prefix : string)
    : LineageM (list LineageEvent) :=
  let prefix_key := prefix +:+ "|" in
  _ ← lineage_io;
  ids ← gets (λ s, (λ kv, str_drop (String.length prefix_key) kv.1) <$>
                     List.filter (λ kv, starts_with kv.1 prefix_key) (sorted_cf (cf s)));
  read_events ids.

Definition get_record_lineage (record : string) : LineageM (list LineageEvent) :=
  get_events_by_prefix cf_record_index record.

Definition get_model_impact (model version : string) : LineageM (list LineageEvent) :=
  get_events_by_prefix cf_model_index (model +:+ ":" +:+ version).

Definition get_run_lineage (run : string) : LineageM (list LineageEvent) :=
  get_events_by_prefix cf_run_index run.

(** From the key of the start on, until a key is past that of the end. *)
Definition range_ids (start fin : Z) (cf : gmap string string) : list string :=
  snd <$> List.filter (λ kv, str_leb (timestamp_to_key start) kv.1 &&
                             str_leb kv.1 (timestamp_to_key fin)) (sorted_cf cf).

Definition query_by_time_range (start fin : Z) : LineageM (list LineageEvent) :=
  _ ← lineage_io;
  ids ← gets (λ s, range_ids start fin (cf_time_index s));
  get_events_by_ids ids.

(** The identifiers under the keys of a record, up to the key of the time. *)
Definition as_of_ids (record : string) (as_of : Z) (cf : gmap string string) : list string :=
  let prefix := record +:+ "|" in
  snd <$> take_while (λ kv, str_leb (str_drop (String.length prefix) kv.1) (timestamp_to_key as_of))
            (List.filter (λ kv, starts_with kv.1 prefix) (sorted_cf cf)).

Definition get_lineage_as_of (record : string) (as_of : Z) : LineageM (list LineageEvent) :=
  _ ← lineage_io;
  ids ← gets (λ s, as_of_ids record as_of (cf_time_travel s));
  match ids with
  | [] => mret []
  | _ => get_events_by_ids ids
  end.

Definition delete_event_from_indexes (s : RocksLineageStore) (e : LineageEvent) : RocksLineageStore :=
  let id := event_id e in
  {| cf_primary := cf_primary s;
     cf_record_index := delete (inverted_key (record_id e) id) (cf_record_index s);
     cf_model_index := foldl (λ cf m, delete (inverted_key (model_key m) id) cf)
                         (cf_model_index s) (model_refs e);
     cf_run_index := delete (inverted_key (run_id e) id) (cf_run_index s);
     cf_tenant_index := delete (inverted_key (tenant_id e) id) (cf_tenant_index s);
     cf_time_index := delete (timestamp_to_key (ts e)) (cf_time_index s);
     cf_time_travel := delete (time_travel_key (record_id e) (ts e)) (cf_time_travel s);
     lineage_ops := lineage_ops s |}.

Definition delete_primary (s : RocksLineageStore) (id : string) : RocksLineageStore :=
  {| cf_primary := delete id (cf_primary s); cf_record_index := cf_record_index s;
     cf_model_index := cf_model_index s; cf_run_index := cf_run_index s;
     cf_tenant_index := cf_tenant_index s; cf_time_index := cf_time_index s;
     cf_time_travel := cf_time_travel s; lineage_ops := lineage_ops s |}.

(** The deletes of [delete_before] for one identifier. *)
Definition delete_event (s : RocksLineageStore) (x : string * option LineageEvent)
    : RocksLineageStore :=
  delete_primary (match x.2 with Some e => delete_event_from_indexes s e | None => s end) x.1.

(** [delete_before]: the events the time index has before the cutoff. *)
Definition delete_before (cutoff : Z) : LineageM nat :=
  _ ← lineage_io;
  ids ← gets (λ s, btree_set (snd <$> List.filter
                 (λ kv, negb (str_leb (timestamp_to_key cutoff) kv.1)) (sorted_cf (cf_time_index s))));
  found ← method_mapM (λ id, e ← read_event id; mret (id, e)) ids;
  _ ← lineage_io;
  _ ← modify (λ s, foldl delete_event s found);
  mret (length ids).

#[export] Instance rocks_sink : LineageSink := {|
  Sink := RocksLineageStore;
  sink_write e := write_batch [e];
  sink_record_lineage := get_record_lineage;
  sink_model_impact := get_model_impact;
  sink_time_range := query_by_time_range;
  sink_run_lineage := get_run_lineage;
  sink_lineage_as_of := get_lineage_as_of;
|}.
End Store.
