(* ===== verification/LineageStoreFacts.v ===== *)
(** * Facts on the store of lineage events

    Whatever was written and deleted, and whatever operations of the database
    failed, the indexes agree with the stored events; so a record has the lineage
    its stored events say, now and as of a time. *)

From Stdlib Require Import ZArith Lia Ascii.
From stdpp Require Import base numbers option strings gmap list sorting.
From S2P Require Import Prelude RustStd Effects KvScan LineageGraph LineageStore.

Local Open Scope Z_scope.

(** Identifiers (UUIDs) have no separator. *)
Definition plain (s : string) : Prop := str_contains_char "|" s = false.

Lemma inverted_key_inj p q a b :
  plain a → plain b → inverted_key p a = inverted_key q b → p = q ∧ a = b.
Proof. apply no_char_suffix. Qed.

Section Store.
Context `{LineageDb, !LineageDbOk}.

(** The event of every identifier that was ever written. *)
Context (origin : string → LineageEvent) (known : string → Prop).
Context (known_ok : ∀ id, known id →
  event_id (origin id) = id ∧ plain id ∧ finite_metrics (origin id) = true).

Definition stored (s : RocksLineageStore) (e : LineageEvent) : Prop :=
  ∃ json, cf_primary s !! event_id e = Some json ∧ event_of_json json = Some e.

(** An inverted index: complete for the stored events, and no key but theirs. *)
Definition inverted_ok (keys : LineageEvent → list string) (s : RocksLineageStore)
    (cf : gmap string string) : Prop :=
  (∀ id p, id ∈ dom (cf_primary s) → p ∈ keys (origin id) → inverted_key p id ∈ dom cf) ∧
  (∀ k, k ∈ dom cf → ∃ p id, k = inverted_key p id ∧ known id ∧ p ∈ keys (origin id)).

(** An index by time: what it has is where it belongs. *)
Definition timed_ok (key : LineageEvent → string) (cf : gmap string string) : Prop :=
  ∀ k id, cf !! k = Some id → known id ∧ k = key (origin id).

Definition travel_key (e : LineageEvent) : string := time_travel_key (record_id e) (ts e).

Record store_ok (s : RocksLineageStore) : Prop := {
  ok_primary id json : cf_primary s !! id = Some json →
    known id ∧ ∃ e, event_of_json json = Some e ∧ event_core e = event_core (origin id);
  ok_record : inverted_ok (λ e, [record_id e]) s (cf_record_index s);
  ok_model : inverted_ok (λ e, model_key <$> model_refs e) s (cf_model_index s);
  ok_run : inverted_ok (λ e, [run_id e]) s (cf_run_index s);
  ok_tenant : inverted_ok (λ e, [tenant_id e]) s (cf_tenant_index s);
  ok_time : timed_ok (λ e, timestamp_to_key (ts e)) (cf_time_index s);
  ok_travel : timed_ok travel_key (cf_time_travel s);
}.

Lemma new_store_ok : store_ok new_lineage_store.
Proof. split; [done|split; set_solver..|done|done]. Qed.

Lemma core_id e e' : event_core e = event_core e' → event_id e = event_id e'.
Proof. by intros [= ->]. Qed.

Lemma stored_core s e :
  store_ok s → stored s e → known (event_id e) ∧ event_core e = event_core (origin (event_id e)).
Proof.
  intros Hok (json & Hj & He). destruct (ok_primary s Hok _ _ Hj) as (Hk & e' & He' & Hc).
  assert (e' = e) as -> by congruence. auto.
Qed.

(** ** Writing *)

Lemma inverted_put keys s s' cf cf' id :
  known id → inverted_ok keys s cf → dom (cf_primary s') = {[id]} ∪ dom (cf_primary s) →
  (∀ k, k ∈ dom cf' ↔ k ∈ dom cf ∨ ∃ p, p ∈ keys (origin id) ∧ k = inverted_key p id) →
  inverted_ok keys s' cf'.
Proof.
  intros Hk [H1 H2] Hd Hcf. split.
  - intros i p Hi Hp. apply Hcf. rewrite Hd in Hi.
    apply elem_of_union in Hi as [->%elem_of_singleton|Hi]; eauto.
  - intros k [?|(p & Hp & ->)]%Hcf; eauto.
Qed.

Lemma dom_add_keys {A} (f : A → string) id l cf k :
  k ∈ dom (foldl (λ cf m, add_to_inverted_index (f m) id cf) cf l) ↔
  k ∈ dom cf ∨ ∃ p, p ∈ f <$> l ∧ k = inverted_key p id.
Proof.
  revert cf. induction l as [|m l IH]; intros cf; simpl; [set_solver|].
  rewrite IH. unfold add_to_inverted_index. rewrite dom_insert. set_solver.
Qed.

Lemma timed_put key cf id e :
  known id → origin id = e → timed_ok key cf → timed_ok key (<[key e := id]> cf).
Proof.
  intros Hk He Hok k i. rewrite lookup_insert_Some. intros [[<- <-]|[_ ?]]; [by rewrite He|eauto].
Qed.

Lemma put_event_ok s e :
  known (event_id e) → origin (event_id e) = e → store_ok s → store_ok (put_event s e).
Proof.
  intros Hk He [H1 H2 H3 H4 H5 H6 H7]. split; simpl.
  - intros id json. rewrite lookup_insert_Some. intros [[<- <-]|[_ ?]]; [|eauto].
    split; [done|]. destruct (known_ok _ Hk) as (_ & _ & Hfin). rewrite He in Hfin.
    destruct (event_json_core e Hfin) as (e' & ? & ?). exists e'. by rewrite He.
  - eapply inverted_put; [done|exact H2|simpl; by rewrite dom_insert_L|]. intros k.
    unfold add_to_inverted_index. rewrite dom_insert, He. set_solver.
  - eapply inverted_put; [done|exact H3|simpl; by rewrite dom_insert_L|]. intros k.
    by rewrite dom_add_keys, He.
  - eapply inverted_put; [done|exact H4|simpl; by rewrite dom_insert_L|]. intros k.
    unfold add_to_inverted_index. rewrite dom_insert, He. set_solver.
  - eapply inverted_put; [done|exact H5|simpl; by rewrite dom_insert_L|]. intros k.
    unfold add_to_inverted_index. rewrite dom_insert, He. set_solver.
  - by apply (timed_put (λ e, timestamp_to_key (ts e))).
  - by apply (timed_put travel_key).
Qed.

Lemma put_events_ok s es :
  (∀ e, e ∈ es → known (event_id e) ∧ origin (event_id e) = e) → store_ok s →
  store_ok (foldl put_event s es).
Proof.
  revert s. induction es as [|e es IH]; intros s Hes Hok; simpl; [done|].
  apply IH; [intros; apply Hes; by right|]. apply put_event_ok; [apply Hes; left..|done].
Qed.

(** ** Deleting *)

Lemma inverted_delete keys s s' cf cf' id :
  known id → (∀ i, i ∈ dom (cf_primary s) → known i) → inverted_ok keys s cf →
  dom (cf_primary s') = dom (cf_primary s) ∖ {[id]} →
  (∀ k, k ∈ dom cf' ↔ k ∈ dom cf ∧ ∀ p, p ∈ keys (origin id) → k ≠ inverted_key p id) →
  inverted_ok keys s' cf'.
Proof.
  intros Hk Hks [H1 H2] Hd Hcf. split.
  - intros i p. rewrite Hd, elem_of_difference, elem_of_singleton. intros [Hi Hne] Hp.
    apply Hcf. split; [by apply H1|]. intros q _ Heq.
    apply inverted_key_inj in Heq as [_ ?]; [done|by apply known_ok, Hks|by apply known_ok].
  - intros k [? _]%Hcf. eauto.
Qed.

Lemma dom_delete_keys {A} (f : A → string) id l (cf : gmap string string) k :
  k ∈ dom (foldl (λ cf m, delete (inverted_key (f m) id) cf) cf l) ↔
  k ∈ dom cf ∧ ∀ p, p ∈ f <$> l → k ≠ inverted_key p id.
Proof.
  revert cf. induction l as [|m l IH]; intros cf; simpl; [set_solver|].
  rewrite IH, dom_delete. set_solver.
Qed.

Lemma timed_delete key cf k : timed_ok key cf → timed_ok key (delete k cf).
Proof. intros Hok k' i. rewrite lookup_delete_Some. intros [_ ?]. eauto. Qed.

(** What [delete_before] has read for an identifier. *)
Definition read_ok (s : RocksLineageStore) (x : string * option LineageEvent) : Prop :=
  match x.2 with
  | Some e => known x.1 ∧ event_core e = event_core (origin x.1)
  | None => x.1 ∉ dom (cf_primary s)
  end.

Lemma delete_event_ok s x : store_ok s → read_ok s x → store_ok (delete_event s x).
Proof.
  intros Hok. destruct x as [id [e|]]; unfold read_ok, delete_event; simpl.
  - intros [Hk Hc]. pose proof Hok as [H1 H2 H3 H4 H5 H6 H7].
    assert (Hd : ∀ i, i ∈ dom (cf_primary s) → known i).
    { intros i [json Hj]%elem_of_dom. by apply (H1 i json). }
    pose proof (known_ok _ Hk) as [Hid _]. injection Hc as E1 E2 E3 E4 E5 E6.
    rewrite Hid in E1. subst id.
    split; simpl.
    + intros i json. rewrite lookup_delete_Some. intros [_ ?]. eauto.
    + eapply inverted_delete; [done|done|exact H2|simpl; by rewrite dom_delete_L|]. intros k.
      rewrite dom_delete, E2. set_solver.
    + eapply inverted_delete; [done|done|exact H3|simpl; by rewrite dom_delete_L|]. intros k.
      by rewrite dom_delete_keys, E6.
    + eapply inverted_delete; [done|done|exact H4|simpl; by rewrite dom_delete_L|]. intros k.
      rewrite dom_delete, E3. set_solver.
    + eapply inverted_delete; [done|done|exact H5|simpl; by rewrite dom_delete_L|]. intros k.
      rewrite dom_delete, E4. set_solver.
    + by apply timed_delete.
    + by apply timed_delete.
  - intros Hn%not_elem_of_dom. replace (delete_primary s id) with s; [done|].
    unfold delete_primary. rewrite delete_id by done. by destruct s.
Qed.

Lemma read_ok_delete s x y : read_ok s y → read_ok (delete_event s x) y.
Proof.
  destruct y as [id [e|]]; unfold read_ok; simpl; [done|].
  destruct x as [i [e|]]; unfold delete_event; simpl; rewrite dom_delete; set_solver.
Qed.

Lemma delete_events_ok s found :
  store_ok s → Forall (read_ok s) found → store_ok (foldl delete_event s found).
Proof.
  revert s. induction found as [|x found IH]; intros s Hok Hf; simpl; [done|].
  apply Forall_cons in Hf as [Hx Hf]. apply IH; [by apply delete_event_ok|].
  eapply Forall_impl; [exact Hf|]. intros y. by apply read_ok_delete.
Qed.

(** ** Reading *)

(** The same content after some more operations. *)
Definition with_ops (n : nat) (s : RocksLineageStore) : RocksLineageStore :=
  {| cf_primary := cf_primary s; cf_record_index := cf_record_index s;
     cf_model_index := cf_model_index s; cf_run_index := cf_run_index s;
     cf_tenant_index := cf_tenant_index s; cf_time_index := cf_time_index s;
     cf_time_travel := cf_time_travel s; lineage_ops := n |}.

Definition content_of (s0 s : RocksLineageStore) : Prop := ∃ n, s = with_ops n s0.

Lemma content_refl s : content_of s s.
Proof. exists (lineage_ops s). by destruct s. Qed.

Lemma store_ok_content s0 s : content_of s0 s → store_ok s0 → store_ok s.
Proof. intros [n ->] [H1 H2 H3 H4 H5 H6 H7]. by split. Qed.

Abbreviation Reads s0 := (reads (content_of s0) (λ e, e = LineageDbFailed)).

Lemma reads_io s0 : Reads s0 (λ _, True) lineage_io.
Proof.
  intros s [n ->]. unfold lineage_io. simpl. split; [by eexists|]. by destruct (lineage_db_ok _).
Qed.

Lemma io_content s s' r : lineage_io s = (s', r) → content_of s s'.
Proof. intros [= <- _]. by eexists. Qed.

Lemma content_trans s1 s2 s3 : content_of s1 s2 → content_of s2 s3 → content_of s1 s3.
Proof. intros [n ->] [m ->]. by exists m. Qed.

Lemma reads_read_event s0 id :
  store_ok s0 →
  Reads s0 (λ o, ∀ e, o = Some e ↔ event_id e = id ∧ stored s0 e) (read_event id).
Proof.
  intros Hok. unfold read_event. eapply reads_bind; [apply reads_io|]. intros _ _.
  eapply (reads_bind _ _ (λ o, o = cf_primary s0 !! id)); [apply reads_gets; by intros s [n ->]|].
  intros o Ho. destruct o as [json|].
  - destruct (ok_primary s0 Hok id json) as (Hk & e & He & Hc); [done|].
    assert (Hid : event_id e = id).
    { rewrite (core_id _ _ Hc). by apply known_ok. }
    eapply (reads_bind _ _ (λ x, x = e)); [apply reads_ok_or; congruence|]. intros x ->.
    apply reads_ret. intros y. unfold stored. split.
    + intros [= <-]. split; [done|]. exists json. rewrite Hid. done.
    + intros [Hy (json' & Hj & Hy')]. congruence.
  - apply reads_ret. intros e. unfold stored. split; [done|]. intros [<- (json & Hj & _)]. congruence.
Qed.

Lemma reads_read_events s0 ids :
  store_ok s0 →
  Reads s0 (λ l, StronglySorted (λ a b, ts a ≤ ts b) l ∧
              ∀ x, x ∈ l ↔ stored s0 x ∧ event_id x ∈ ids) (read_events ids).
Proof.
  intros Hok. unfold read_events.
  eapply reads_bind; [apply reads_mapM; intros; by apply reads_read_event|].
  intros found Hf. apply reads_ret. split; [apply sort_by_sorted|]. intros x.
  rewrite sort_by_perm, list_elem_of_omap. split.
  - intros (o & Ho & Hx). apply list_elem_of_lookup in Ho as [i Hi].
    destruct (Forall2_lookup_r _ _ _ _ _ Hf Hi) as (id & Hid & HQ).
    change (o = Some x) in Hx. destruct (proj1 (HQ x) Hx) as [Hxi Hxs]. split; [done|]. rewrite Hxi. by eapply list_elem_of_lookup_2.
  - intros [Hx Hid]. apply list_elem_of_lookup in Hid as [i Hi].
    destruct (Forall2_lookup_l _ _ _ _ _ Hf Hi) as (o & Ho & HQ).
    exists o. split; [by eapply list_elem_of_lookup_2|]. by apply HQ.
Qed.

Lemma reads_by_prefix s0 cf keys p :
  store_ok s0 → inverted_ok keys s0 (cf s0) → (∀ n, cf (with_ops n s0) = cf s0) →
  (∀ e e', event_core e = event_core e' → keys e = keys e') →
  Reads s0 (λ l, StronglySorted (λ a b, ts a ≤ ts b) l ∧
              ∀ x, x ∈ l ↔ stored s0 x ∧ p ∈ keys x) (get_events_by_prefix cf p).
Proof.
  intros Hok [Hi1 Hi2] Hcf Hkeys. unfold get_events_by_prefix.
  eapply reads_bind; [apply reads_io|]. intros _ _.
  eapply (reads_bind _ _ (λ ids, ∀ id, known id → id ∈ ids ↔ inverted_key p id ∈ dom (cf s0))).
  { apply reads_gets. intros s [n ->] id Hid. rewrite Hcf, list_elem_of_fmap. split.
    - intros ([k v] & -> & [Hk Hp]%elem_of_filter_cf). simpl in *. apply starts_with_drop in Hp.
      rewrite str_app_assoc in Hp. unfold inverted_key. change ("|" +:+ ?x) with (String "|" x) in *.
      rewrite <- Hp. by apply elem_of_dom_2 in Hk.
    - intros [v Hv]%elem_of_dom. exists (inverted_key p id, v). unfold inverted_key in *.
      rewrite elem_of_filter_cf. simpl. rewrite <- str_app_assoc in *. split; [by rewrite str_drop_app|].
      split; [done|]. apply starts_with_iff. eauto. }
  intros ids Hids. eapply reads_weaken; [|by apply reads_read_events].
  intros l [Hs Hl]. split; [done|]. intros x. rewrite Hl. split.
  - intros [Hx Hid]. split; [done|]. destruct (stored_core s0 x Hok Hx) as [Hk Hc].
    apply Hids in Hid; [|done]. destruct (Hi2 _ Hid) as (q & i & Heq & Hki & Hq).
    apply inverted_key_inj in Heq as [-> <-]; [by rewrite (Hkeys _ _ Hc)|by apply known_ok..].
  - intros [Hx Hp]. split; [done|]. destruct (stored_core s0 x Hok Hx) as [Hk Hc]. apply Hids; [done|].
    apply Hi1; [|by rewrite <- (Hkeys _ _ Hc)]. destruct Hx as (json & Hj & _). by eapply elem_of_dom_2.
Qed.

(** ** Histories *)

Inductive lineage_call : Type :=
  | WriteBatch (es : list LineageEvent)
  | DeleteBefore (cutoff : Z).

Definition run_lineage_call (s : RocksLineageStore) (c : lineage_call) : RocksLineageStore :=
  match c with
  | WriteBatch es => (write_batch es s).1
  | DeleteBefore t => (delete_before t s).1
  end.

Definition store_after (h : list lineage_call) : RocksLineageStore :=
  foldl run_lineage_call new_lineage_store h.

Definition written (c : lineage_call) : list LineageEvent :=
  match c with WriteBatch es => es | DeleteBefore _ => [] end.

Lemma write_batch_ok es s :
  (∀ e, e ∈ es → known (event_id e) ∧ origin (event_id e) = e) → store_ok s →
  store_ok (write_batch es s).1.
Proof.
  intros Hes Hok. unfold write_batch, mbind, method_MBind, method_bind, lineage_io.
  destruct (lineage_db_ok _); simpl; [apply put_events_ok; [done|]|];
    (eapply store_ok_content; [|exact Hok]; by eexists).
Qed.

Lemma reads_found s0 ids :
  store_ok s0 → (∀ id, id ∈ ids → known id) →
  Reads s0 (Forall (read_ok s0)) (method_mapM (λ id, e ← read_event id; mret (id, e)) ids).
Proof.
  intros Hok Hids. eapply reads_weaken; [|apply (reads_mapM _ _ (λ id x, id = x.1 ∧ read_ok s0 x))].
  - intros found Hf. clear Hids. induction Hf as [|id x ids' xs [_ Hx] _ IH]; by constructor.
  - intros id Hid. eapply reads_bind; [by apply reads_read_event|]. intros o Ho. apply reads_ret.
    split; [done|]. unfold read_ok. simpl. destruct o as [e|].
    + destruct (proj1 (Ho e)) as [<- He]; [done|]. by apply (stored_core s0).
    + intros [json Hj]%elem_of_dom. destruct (ok_primary s0 Hok id json Hj) as (Hk & e & He & Hc).
      destruct (known_ok id Hk) as [Hoid _]. assert (event_id e = id) by (by rewrite (core_id _ _ Hc)).
      specialize (proj2 (Ho e)) as Hn. discriminate Hn. split; [done|]. exists json. by subst.
Qed.

(** [delete_before] ends early, or deletes what it has read. *)
Lemma delete_before_cases t s :
  store_ok s →
  content_of s (delete_before t s).1 ∨
  ∃ s1 found, content_of s s1 ∧ Forall (read_ok s1) found ∧
    (delete_before t s).1 = foldl delete_event s1 found.
Proof.
  intros Hok. destruct (delete_before t s) as [s' r] eqn:E. simpl. unfold delete_before in E.
  apply method_bind_inv in E as [(s1 & [] & E1 & E)|[(e & E1 & _)|[E1 _]]];
    apply io_content in E1; [|by left..].
  apply method_bind_inv in E as [(? & ids & [= <- <-] & E)|[(e & [=] & _)|[[=] _]]].
  set (ids := btree_set _) in E.
  assert (Hids : ∀ id, id ∈ ids → known id).
  { intros id. unfold ids. rewrite elem_of_btree_set, list_elem_of_fmap.
    intros ([k v] & -> & [Hk _]%elem_of_filter_cf). destruct E1 as [n ->].
    by apply (ok_time s Hok k). }
  clearbody ids. pose proof (reads_found s ids Hok Hids s1 E1) as [Hc Hf].
  apply method_bind_inv in E as [(s2 & found & E2 & E)|[(e & E2 & _)|[E2 _]]];
    rewrite E2 in Hc, Hf; simpl in Hc, Hf; [|by left..].
  apply method_bind_inv in E as [(s3 & [] & E3 & E)|[(e & E3 & _)|[E3 _]]];
    apply io_content, (content_trans _ _ _ Hc) in E3; [|by left..].
  injection E as <- _. right. exists s3, found. split_and!; [done| |done].
  destruct E3 as [n ->]. eapply Forall_impl; [exact Hf|]. by intros [i [e|]].
Qed.

Lemma delete_before_ok t s : store_ok s → store_ok (delete_before t s).1.
Proof.
  intros Hok. destruct (delete_before_cases t s Hok) as [?|(s1 & found & Hc & Hf & ->)];
    [by eapply store_ok_content|]. apply delete_events_ok; [by eapply store_ok_content|done].
Qed.
End Store.

(** * Lineage of a record, now and as of a time

    The queries of the lineage store after any history of writes, deletes and
    failures of the database.  The index of a record is exact; the index by time is
    exact as long as no two events of a record fall into the same second. *)

Local Open Scope Z_scope.

Section Histories.
Context `{LineageDb, !LineageDbOk} (origin : string → LineageEvent).

Definition all_written (h : list lineage_call) : list LineageEvent := h ≫= written.

(** Every event has an identifier of its own, without the separator of keys, and finite
    metrics. *)
Definition sound_history (h : list lineage_call) : Prop :=
  ∀ e, e ∈ all_written h →
    origin (event_id e) = e ∧ plain (event_id e) ∧ finite_metrics e = true.

Definition known_in (h : list lineage_call) (id : string) : Prop :=
  ∃ e, e ∈ all_written h ∧ event_id e = id.

Lemma known_in_ok h id :
  sound_history h → known_in h id →
  event_id (origin id) = id ∧ plain id ∧ finite_metrics (origin id) = true.
Proof. intros Hu (e & He & <-). by destruct (Hu e He) as [-> ?]. Qed.

Lemma store_after_inv (P : RocksLineageStore → Prop) h :
  P new_lineage_store →
  (∀ s es, P s → (∀ e, e ∈ es → e ∈ all_written h) → P (write_batch es s).1) →
  (∀ s t, P s → P (delete_before t s).1) → P (store_after h).
Proof.
  intros Hnew Hw Hd.
  cut (∀ h', h' `prefix_of` h → P (store_after h')); [intros Hc; by apply Hc|].
  intros h'. unfold store_after. induction h' as [|c h' IH] using rev_ind; intros [k Hk]; [done|].
  rewrite foldl_snoc. specialize (IH ltac:(exists (c :: k); by rewrite Hk, <- app_assoc)).
  destruct c as [es|t]; simpl; [|by apply Hd]. apply Hw; [done|]. intros e He. rewrite Hk.
  unfold all_written. rewrite !bind_app. simpl. set_solver.
Qed.

Lemma store_after_ok h : sound_history h → store_ok origin (known_in h) (store_after h).
Proof.
  intros Hu. pose proof (λ id, known_in_ok h id Hu) as Hk. apply store_after_inv.
  - by apply new_store_ok.
  - intros s es Hs Hes. apply write_batch_ok; [done| |done]. intros e He. split; [exists e; auto|].
    by apply Hu, Hes.
  - intros s t Hs. by apply delete_before_ok.
Qed.

(** ** What was written is stored *)

Lemma put_events_primary s es id :
  cf_primary (foldl put_event s es) !! id =
  match last (filter (λ e, event_id e = id) es) with
  | Some e => Some (event_to_json e)
  | None => cf_primary s !! id
  end.
Proof.
  revert s. induction es as [|e es IH] using rev_ind; intros s; [done|].
  rewrite foldl_snoc, filter_app, filter_cons, filter_nil. simpl. case_decide as He.
  - rewrite last_snoc, <- He. apply lookup_insert_eq.
  - rewrite app_nil_r, lookup_insert_ne by done. apply IH.
Qed.

Lemma write_batch_stored es s s' e :
  (∀ x, x ∈ es → origin (event_id x) = x) → finite_metrics e = true →
  write_batch es s = (s', Ok tt) → e ∈ es →
  ∃ x, stored s' x ∧ event_core x = event_core e.
Proof.
  intros Hes Hfin Hw He. unfold write_batch, mbind, method_MBind, method_bind, lineage_io in Hw.
  destruct (lineage_db_ok _); [|done]. injection Hw as <-.
  destruct (event_json_core e Hfin) as (x & Hx & Hc). exists x. split; [|done].
  exists (event_to_json e). split; [|done]. rewrite put_events_primary, (core_id _ _ Hc).
  assert (Hf : e ∈ filter (λ y, event_id y = event_id e) es) by (by apply list_elem_of_filter).
  destruct (last _) as [y|] eqn:Hl.
  - apply last_Some_elem_of, list_elem_of_filter in Hl as [Hid Hy].
    rewrite <- (Hes y Hy), <- (Hes e He), Hid. done.
  - apply last_None in Hl. rewrite Hl in Hf. by apply not_elem_of_nil in Hf.
Qed.

(** C13: The lineage of a record is exact, when every event that is ever written has an
    identifier of its own without the separator [|], as UUIDs have, and custom metrics
    that are finite numbers.  After any history of writes, deletes and failures, once a
    batch is acknowledged, the lineage of any record is the list of its stored events by
    time, each event of the batch among them; the query fails only when an operation of
    the database does.  (Metrics that are not finite make it fail: see [LineageSample].) *)
Theorem record_lineage_exact h es s record :
  sound_history (h ++ [WriteBatch es]) → write_batch es (store_after h) = (s, Ok tt) →
  match (get_record_lineage record s).2 with
  | Ok l => StronglySorted (λ a b, ts a ≤ ts b) l ∧
            (∀ x, x ∈ l ↔ stored s x ∧ record_id x = record) ∧
            (∀ e, e ∈ es → record_id e = record → ∃ x, x ∈ l ∧ event_core x = event_core e)
  | Err e => e = LineageDbFailed
  | Panic => False
  end.
Proof.
  intros Hu Hw.
  assert (Hs : s = store_after (h ++ [WriteBatch es])).
  { unfold store_after in *. rewrite foldl_snoc. simpl. by rewrite Hw. }
  pose proof (store_after_ok _ Hu) as Hok. rewrite <- Hs in Hok.
  destruct (reads_by_prefix origin (known_in (h ++ [WriteBatch es])) (λ id, known_in_ok _ id Hu) s
    cf_record_index (λ e, [record_id e]) record Hok (ok_record _ _ _ Hok)) with (s := s) as [_ Hr].
  - done.
  - by intros e e' [= _ ->].
  - apply content_refl.
  - unfold get_record_lineage. destruct (_.2) as [l|e|]; [|done..]. destruct Hr as [Hsort Hl].
    assert (Hl' : ∀ x, x ∈ l ↔ stored s x ∧ record_id x = record).
    { intros x. rewrite Hl, list_elem_of_singleton. naive_solver. }
    split_and!; [done|done|]. intros e He Hr.
    assert (Hes : ∀ y, y ∈ es → y ∈ all_written (h ++ [WriteBatch es])).
    { intros y Hy. unfold all_written. rewrite bind_app. simpl. set_solver. }
    destruct (write_batch_stored es (store_after h) s e) as (x & Hx & Hc); [| |done|done|].
    + intros y Hy. by apply Hu, Hes.
    + by apply Hu, Hes.
    + exists x. split; [|done]. apply Hl'. split; [done|]. injection Hc. congruence.
Qed.
(** ** The indexes by time *)

(** Complete when no two events have the same key. *)
Section Timed.
Context (h : list lineage_call) (Hu : sound_history h).
Context (key : LineageEvent → string) (cf : RocksLineageStore → gmap string string).
Context (Hkey : ∀ e e', event_core e = event_core e' → key e = key e').
Context (Hput : ∀ s e, cf (put_event s e) = <[key e := event_id e]> (cf s)).
Context (Hdel : ∀ s e, cf (delete_event_from_indexes s e) = delete (key e) (cf s)).
Context (Hprim : ∀ s id, cf (delete_primary s id) = cf s).
Context (Hops : ∀ s n, cf (with_ops n s) = cf s).
Context (Hinj : ∀ a b, known_in h a → known_in h b → key (origin a) = key (origin b) → a = b).

Definition timed_complete (s : RocksLineageStore) : Prop :=
  store_ok origin (known_in h) s ∧
  ∀ id, id ∈ dom (cf_primary s) → cf s !! key (origin id) = Some id.

Lemma primary_known s id :
  store_ok origin (known_in h) s → id ∈ dom (cf_primary s) → known_in h id.
Proof. intros Hok [json Hj]%elem_of_dom. by apply (ok_primary _ _ s Hok id json). Qed.

Lemma timed_complete_put s e :
  e ∈ all_written h → timed_complete s → timed_complete (put_event s e).
Proof.
  intros He [Hok Hc]. destruct (Hu e He) as [Ho _].
  assert (Hk : known_in h (event_id e)) by (exists e; auto).
  split; [apply put_event_ok; auto; intros i; by apply known_in_ok|]. intros id. rewrite Hput. simpl. rewrite dom_insert.
  destruct (decide (id = event_id e)) as [->|Hne]; [rewrite Ho; by rewrite lookup_insert_eq|].
  intros [?%elem_of_singleton|Hid]%elem_of_union; [done|]. rewrite lookup_insert_ne; [auto|].
  intros Heq. apply Hne. apply Hinj; [by eapply primary_known|done|]. by rewrite Ho.
Qed.

Lemma timed_complete_delete s x :
  read_ok origin (known_in h) s x → timed_complete s → timed_complete (delete_event s x).
Proof.
  intros Hx [Hok Hc]. split; [apply delete_event_ok; auto; intros i; by apply known_in_ok|].
  intros id. destruct x as [i [e|]]; unfold delete_event, read_ok in *; simpl in *; rewrite dom_delete, Hprim.
  - intros [Hid Hne]%elem_of_difference. rewrite Hdel, lookup_delete_ne; [auto|].
    destruct Hx as [Hk Hcore]. rewrite (Hkey _ _ Hcore). intros Heq. apply Hne, elem_of_singleton.
    symmetry. apply Hinj; [done|by eapply primary_known|done].
  - intros [Hid _]%elem_of_difference. auto.
Qed.

Lemma timed_complete_content s0 s : content_of s0 s → timed_complete s0 → timed_complete s.
Proof.
  intros Hco [Hok Hc]. split; [by eapply store_ok_content|]. destruct Hco as [n ->].
  intros id Hid. rewrite Hops. by apply Hc.
Qed.

Lemma timed_complete_after : timed_complete (store_after h).
Proof.
  pose proof (λ id, known_in_ok h id Hu) as Hk. apply (store_after_inv timed_complete).
  - split; [by apply new_store_ok|set_solver].
  - intros s es Hs Hes. destruct (write_batch es s) as [s' r] eqn:E. simpl. unfold write_batch in E.
    apply method_bind_inv in E as [(s1 & [] & E1 & E)|[(e & E1 & _)|[E1 _]]];
      apply io_content in E1; [|by eapply timed_complete_content..].
    injection E as <- _. apply (timed_complete_content _ _ E1) in Hs. clear E1. revert s1 Hs.
    induction es as [|e es IH]; intros s1 Hs; simpl; [done|]. apply IH; [set_solver|].
    apply timed_complete_put; [apply Hes; left|done].
  - intros s t Hs. destruct (delete_before_cases origin (known_in h) Hk t s (proj1 Hs))
      as [Hco|(s1 & found & Hco & Hf & ->)]; [by eapply timed_complete_content|].
    apply (timed_complete_content _ _ Hco) in Hs. clear Hco. revert s1 Hs Hf.
    induction found as [|x found IH]; intros s1 Hs Hf; simpl; [done|].
    apply Forall_cons in Hf as [Hx Hf]. apply IH; [by apply timed_complete_delete|].
    eapply Forall_impl; [exact Hf|]. intros y. by apply read_ok_delete.
Qed.
End Timed.
(** ** Queries by time *)

(** From 1970 until the end of [i64]. *)
Definition valid_time (t : Z) : Prop := 0 ≤ t < 2 ^ 63 * 10 ^ 9.

Lemma second_range t : valid_time t → 0 ≤ second t < 2 ^ 63.
Proof.
  unfold valid_time, second. intros Ht. split; [apply Z.div_pos; lia|].
  apply Z.div_lt_upper_bound; lia.
Qed.

Lemma timestamp_key_leb a b :
  valid_time a → valid_time b →
  str_leb (timestamp_to_key a) (timestamp_to_key b) = true ↔ second a ≤ second b.
Proof.
  intros Ha%second_range Hb%second_range. unfold timestamp_to_key.
  assert (2 ^ 63 < 2 ^ 64 ∧ 2 ^ 64 = 256 ^ Z.of_nat 8) as [? ?] by done.
  rewrite !Z.mod_small, be_string_leb by lia. done.
Qed.

Lemma timestamp_key_inj a b :
  valid_time a → valid_time b → timestamp_to_key a = timestamp_to_key b → second a = second b.
Proof.
  intros Ha Hb Heq.
  pose proof (timestamp_key_leb a b Ha Hb) as H1. pose proof (timestamp_key_leb b a Hb Ha) as H2.
  rewrite Heq in H1, H2.
  assert (str_leb (timestamp_to_key b) (timestamp_to_key b) = true) as Hr.
  { by destruct (str_leb_total (timestamp_to_key b) (timestamp_to_key b)). }
  apply H1 in Hr as ?. apply H2 in Hr. lia.
Qed.

Lemma time_travel_key_inj r r' t t' :
  plain r → plain r' → time_travel_key r t = time_travel_key r' t' →
  r = r' ∧ timestamp_to_key t = timestamp_to_key t'.
Proof. apply no_char_prefix. Qed.

Section Queries.
Context (h : list lineage_call) (Hu : sound_history h).
Context (Ht : ∀ e, e ∈ all_written h → valid_time (ts e)).

Let s := store_after h.

Lemma known_written id : known_in h id → origin id ∈ all_written h ∧ event_id (origin id) = id.
Proof. intros (e & He & <-). by destruct (Hu e He) as [-> _]. Qed.

Lemma stored_origin x :
  stored s x → known_in h (event_id x) ∧ event_id x ∈ dom (cf_primary s) ∧
    record_id x = record_id (origin (event_id x)) ∧ ts x = ts (origin (event_id x)).
Proof.
  intros Hx. destruct (stored_core _ _ _ _ (store_after_ok h Hu) Hx) as [Hk Hc].
  split; [done|]. split; [destruct Hx as (json & Hj & _); by eapply elem_of_dom_2|].
  injection Hc as _ -> _ _ -> _. done.
Qed.

Lemma elem_of_as_of_ids record as_of x :
  (∀ e, e ∈ all_written h → plain (record_id e)) → plain record → valid_time as_of →
  timed_complete h travel_key cf_time_travel s → stored s x →
  event_id x ∈ as_of_ids record as_of (cf_time_travel s) ↔
  record_id x = record ∧ second (ts x) ≤ second as_of.
Proof.
  intros Hplain Hrec Has [Hok Hc] Hx. pose proof (ok_travel _ _ _ Hok) as Htr.
  destruct (stored_origin x Hx) as (Hkx & Hdx & Hrx & Htx).
  destruct (known_written _ Hkx) as [Hwx Hidx]. unfold as_of_ids.
  rewrite (take_while_filter str_le); [|apply StronglySorted_filter_bool, sorted_cf_sorted|].
  - rewrite Hrx, Htx, list_elem_of_fmap. split.
    + intros ([k v] & Hv & Hin). simpl in Hv. subst v.
      rewrite list_elem_of_In, filter_In, <- list_elem_of_In, elem_of_filter_cf in Hin.
      destruct Hin as [[Hcf Hp%starts_with_drop] Hle]. simpl in *.
      destruct (Htr _ _ Hcf) as [_ ->]. unfold travel_key in Hp.
      rewrite str_app_assoc in Hp. apply no_char_prefix in Hp as [Hr _]; [|by apply Hplain|done].
      split; [done|]. unfold travel_key, time_travel_key in Hle.
      rewrite Hr, <- str_app_assoc, str_drop_app in Hle. apply timestamp_key_leb; auto.
    + intros [Hr Hle]. exists (travel_key (origin (event_id x)), event_id x). split; [done|].
      specialize (Hc _ Hdx).
      rewrite list_elem_of_In, filter_In, <- list_elem_of_In, elem_of_filter_cf. simpl.
      unfold travel_key, time_travel_key in *. rewrite Hr, <- str_app_assoc in *.
      split; [split; [done|apply starts_with_iff; eauto]|].
      rewrite str_drop_app. apply timestamp_key_leb; auto.
  - intros [k v] [k' v'] [_ Hk1]%elem_of_filter_cf [_ Hk2]%elem_of_filter_cf. unfold str_le. simpl in *.
    apply starts_with_drop in Hk1, Hk2. rewrite Hk1, Hk2, Is_true_true, str_leb_app, <- Hk1, <- Hk2.
    apply str_leb_trans.
Qed.

(** A query that reads the events of some identifiers. *)
Lemma reads_ids (Q : LineageEvent → Prop) ids :
  (∀ x, stored s x → event_id x ∈ ids ↔ Q x) →
  reads (content_of s) (λ e, e = LineageDbFailed) (λ l,
    StronglySorted (λ a b, ts a ≤ ts b) l ∧ ∀ x, x ∈ l ↔ stored s x ∧ Q x) (get_events_by_ids ids).
Proof.
  intros Hids. eapply reads_weaken; [|eapply reads_read_events].
  - intros l [Hs Hl]. split; [done|]. intros x. rewrite Hl, elem_of_btree_set.
    split; intros [Hx ?]; (split; [done|]); by apply Hids.
  - intros id. by apply known_in_ok.
  - by apply store_after_ok.
Qed.


(** Two events in the same second hide one another from queries by time. *)
Lemma range_exact start fin :
  valid_time start → valid_time fin →
  reads (content_of s) (λ e, e = LineageDbFailed)
    (λ l, ∀ x, (x ∈ l → stored s x ∧ second start ≤ second (ts x) ≤ second fin) ∧
       ((∀ e e', e ∈ all_written h → e' ∈ all_written h → second (ts e) = second (ts e') → e = e') →
        stored s x → second start ≤ second (ts x) ≤ second fin → x ∈ l))
    (query_by_time_range start fin).
Proof.
  intros Hst Hfin. eapply reads_bind; [apply reads_io|]. intros _ _.
  eapply (reads_bind _ _ (λ ids, ids = range_ids start fin (cf_time_index s)));
    [apply reads_gets; by intros s' [n ->]|]. intros ids ->.
  pose proof (store_after_ok h Hu) as Hok. fold s in Hok. pose proof (ok_time _ _ _ Hok) as Htm.
  eapply reads_weaken; [|eapply (reads_ids (λ x, event_id x ∈ range_ids start fin (cf_time_index s)));
    by intros]. intros l [_ Hl] x. rewrite Hl. unfold range_ids. rewrite list_elem_of_fmap.
  split.
  - intros [Hx ([k v] & Hv & [Hcf Hp]%elem_of_filter_cf)]. split; [done|]. simpl in *. subst v.
    destruct (stored_origin x Hx) as (Hk & _ & _ & ->). destruct (known_written _ Hk) as [Hw _].
    destruct (Htm _ _ Hcf) as [_ ->]. apply andb_true_iff in Hp as [H1 H2].
    split; apply timestamp_key_leb; auto.
  - intros Hdist Hx [H1 H2]. split; [done|]. destruct (stored_origin x Hx) as (Hk & Hd & _ & Htx).
    destruct (known_written _ Hk) as [Hw _].
    assert (Hc : timed_complete h (λ e, timestamp_to_key (ts e)) cf_time_index s).
    { apply timed_complete_after; try done.
      - by intros e e' [= _ _ _ _ -> _].
      - intros a b [Ha Ea]%known_written [Hb Eb]%known_written Heq. rewrite <- Ea, <- Eb. f_equal.
        apply Hdist; [done..|]. apply timestamp_key_inj; auto. }
    exists (timestamp_to_key (ts x), event_id x). split; [done|]. rewrite elem_of_filter_cf. simpl.
    split; [rewrite Htx; by apply Hc|]. rewrite Htx in *.
    apply andb_true_iff. split; apply timestamp_key_leb; auto.
Qed.
End Queries.
End Histories.
