(* ===== verification/ImpactAnalysis.v ===== *)
(** * Impact analysis over lineage

    Models [core/lineage/impact.rs]: what a change of a source affects, where an
    output came from, and simulated changes.  The analyses are written against the
    interface [LineageSink] of [LineageStore.v]; the times they read from the clock
    are arguments, and the order of a hash map is a parameter. *)

From Stdlib Require Import ZArith Lia Ascii.
From stdpp Require Import base numbers option strings gmap list.
From S2P Require Import Prelude RustStd Effects LineageGraph LineageStore.

Local Open Scope Z_scope.

Inductive RiskLevel : Type := Low | Medium | High | Critical.

Inductive ChangeType : Type := SchemaModification | TransformationUpdate | DataSourceRemoval.

Record ProposedChange : Type := {
  change_type : ChangeType;
  target : string;
  details : gmap string string;
}.

Record ImpactReport : Type := {
  affected_records : list string;
  affected_models : list ModelRef;
  affected_datasets : list string;
  risk_level : RiskLevel;
  can_replay : bool;
  analysis_timestamp : Z;
}.

Record TransformationStep : Type := {
  step_transform_type : string;
  step_rule_id : string;
  step_version : string;
  step_applied_at : Z;
}.

Record QualityIssue : Type := {
  issue_rule_id : string;
  issue_severity : string;
  issue_message : string;
  detected_at : Z;
}.

Record RootCauseReport : Type := {
  report_record_id : string;
  source_data_refs : list DataRef;
  transformation_chain : list TransformationStep;
  models_applied : list ModelRef;
  quality_issues : list QualityIssue;
  report_can_replay : bool;
  replay_commands : list string;
}.

Record SimulationReport : Type := {
  simulated_change : ProposedChange;
  affected_records_count : nat;
  affected_models_count : nat;
  simulated_datasets : list string;
  breaking_changes : list string;
  warnings : list string;
  recommendation : string;
}.

(** The order of the tables that end up in a report. *)
Class ReportOrder : Type := {
  ref_entries : gset DataRef → list DataRef;
  position_entries : gmap string CdcPosition → list (string * CdcPosition);
}.
Class ReportOrderOk `{ReportOrder} : Prop := {
  ref_entries_perm s : ref_entries s ≡ₚ elements s;
  position_entries_perm m : position_entries m ≡ₚ map_to_list m;
}.

Definition days (n : Z) : Z := n * 86400 * 10 ^ 9.

Definition uses_source (source : DataRef) (e : LineageEvent) : bool :=
  existsb (λ s, String.eqb (system s) (system source) && String.eqb (path s) (path source))
    (source_refs e).

Definition has_position (e : LineageEvent) : bool :=
  existsb (λ s, bool_decide (is_Some (cdc_position s))) (source_refs e).

Definition risk_of (models records : nat) : RiskLevel :=
  if (5 <? models)%nat then Critical
  else if (1 <? models)%nat then High
  else if (100 <? records)%nat then Medium
  else Low.

Section Analyzer.
Context `{LineageSink, SetOrder, ReportOrder}.

Abbreviation AnalysisM := (method Sink LineageError).

Definition distinct (l : list string) : gset string := list_to_set l.

Definition forward_impact (source : DataRef) (as_of : option Z) (now finished : Z)
    : AnalysisM ImpactReport :=
  let as_of_ts := default now as_of in
  all ← sink_time_range (as_of_ts - days 365) as_of_ts;
  let g := from_events all in
  let used := List.filter (uses_source source) (events g) in
  let records := distinct (record_id <$> used) in
  let models := used ≫= model_refs in
  mret {| affected_records := set_entries records; affected_models := models;
          affected_datasets := set_entries (distinct (dataset <$> used));
          risk_level := risk_of (length models) (size records);
          can_replay := existsb has_position used; analysis_timestamp := finished |}.

Definition transformation_step (t : TransformRef) : TransformationStep :=
  {| step_transform_type := transform_type t; step_rule_id := rule_id t;
     step_version := transform_version t; step_applied_at := applied_at t |}.

(** [cdc_positions.insert] for one source. *)
Definition add_position (m : gmap string CdcPosition) (s : DataRef) : gmap string CdcPosition :=
  match cdc_position s with
  | Some p => <[ref_key s := p]> m
  | None => m
  end.

Definition replay_command (p : CdcPosition) : string :=
  "kafka-console-consumer --bootstrap-server localhost:9092 --topic " +:+ topic p +:+
  " --partition " +:+ i64_to_string (partition p) +:+ " --offset " +:+ i64_to_string (offset p) +:+
  " --max-messages 1".

Definition quality_issue (e : LineageEvent) (t : TransformRef) : option QualityIssue :=
  if starts_with (rule_id t) "quality_check_"
  then Some {| issue_rule_id := rule_id t; issue_severity := "Warning";
               issue_message := "Quality rule " +:+ rule_id t +:+ " applied"; detected_at := ts e |}
  else None.

Definition empty_report (record : string) : RootCauseReport :=
  {| report_record_id := record; source_data_refs := []; transformation_chain := [];
     models_applied := []; quality_issues := []; report_can_replay := false;
     replay_commands := [] |}.

Definition root_cause_analysis (record : string) (as_of : option Z) : AnalysisM RootCauseReport :=
  es ← match as_of with
       | Some t => sink_lineage_as_of record t
       | None => sink_record_lineage record
       end;
  match es with
  | [] => mret (empty_report record)
  | _ =>
      let g := from_events es in
      match upstream_recursive g record 10 with
      | None => panic
      | Some upstream_sources =>
          let own := List.filter (λ e, String.eqb (record_id e) record) (events g) in
          let cdc_positions := foldl add_position ∅ (own ≫= source_refs) in
          mret {| report_record_id := record;
                  source_data_refs := ref_entries upstream_sources;
                  transformation_chain := transformation_step <$> (own ≫= transforms);
                  models_applied := own ≫= model_refs;
                  quality_issues := own ≫= λ e, omap (quality_issue e) (transforms e);
                  report_can_replay := negb (bool_decide (cdc_positions = ∅));
                  replay_commands := (λ e, replay_command e.2) <$> position_entries cdc_positions |}
      end
  end.

(** ** Simulated changes *)

Definition simulate_schema_change (c : ProposedChange) (now : Z) : AnalysisM SimulationReport :=
  let source := {| system := target c; path := default "" (details c !! "table");
                   ref_version := None; extracted_at := now; cdc_position := None |} in
  impact ← forward_impact source None now now;
  let breaking :=
    if decide (is_Some (details c !! "remove_column"))
    then ["Column removal may break downstream consumers"]
    else if decide (is_Some (details c !! "change_type"))
    then ["Type change may cause parsing errors"]
    else [] in
  mret {| simulated_change := c; affected_records_count := length (affected_records impact);
          affected_models_count := length (affected_models impact);
          simulated_datasets := affected_datasets impact; breaking_changes := breaking;
          warnings := [];
          recommendation := match breaking with
                            | [] => "Safe to proceed"
                            | _ => "Review breaking changes before proceeding"
                            end |}.

Definition uses_transform (name : string) (e : LineageEvent) : bool :=
  existsb (λ t, String.eqb (rule_id t) name || String.eqb (transform_type t) name) (transforms e).

Definition count_text (n : nat) : string := i64_to_string (Z.of_nat n).

(** The breaking changes and warnings of a change of a transformation. *)
Definition transformation_effects (c : ProposedChange) (name : string) (records datasets : nat)
    : list string * list string :=
  match details c !! "change_type" with
  | Some kind =>
      if String.eqb kind "logic_change" then
        (["Logic change in transformation '" +:+ name +:+ "' will affect " +:+ count_text records
            +:+ " records across " +:+ count_text datasets +:+ " datasets"],
         ["All downstream consumers should be validated with new logic"])
      else if String.eqb kind "parameter_change" then
        if decide (details c !! "backwards_compatible" = Some "false")
        then (["Non-backwards-compatible parameter change in '" +:+ name +:+ "'"], [])
        else ([], ["Parameter change in '" +:+ name +:+ "' - verify output consistency"])
      else if String.eqb kind "version_upgrade" then
        ([], ["Version upgrade for '" +:+ name +:+ "' from "
                +:+ default "unknown" (details c !! "old_version") +:+ " to "
                +:+ default "unknown" (details c !! "new_version") +:+ " - test thoroughly"])
      else if String.eqb kind "deprecation" then
        (["Transformation '" +:+ name +:+ "' is being deprecated - " +:+ count_text records
            +:+ " records need migration"],
         ["Plan migration strategy for all dependent datasets"])
      else ([], ["Unknown change type: " +:+ kind])
  | None =>
      ([], ["Transformation '" +:+ name +:+ "' change will affect " +:+ count_text records
              +:+ " records"])
  end.

Definition simulate_transformation_change (c : ProposedChange) (now end_time : Z)
    : AnalysisM SimulationReport :=
  let name := default (target c) (details c !! "transform_name") in
  all ← sink_time_range (now - days 365) end_time;
  let g := from_events all in
  let used := List.filter (uses_transform name) (events g) in
  let records := distinct (record_id <$> used) in
  let datasets := distinct (dataset <$> used) in
  let models := used ≫= model_refs in
  let '(breaking, warned) := transformation_effects c name (size records) (size datasets) in
  let warned :=
    if (length models =? 0)%nat then warned
    else warned ++ [count_text (length models) +:+
                    " ML models use data from this transformation - retesting recommended"] in
  mret {| simulated_change := c; affected_records_count := size records;
          affected_models_count := length models; simulated_datasets := set_entries datasets;
          breaking_changes := breaking; warnings := warned;
          recommendation :=
            match breaking with
            | _ :: _ => "CAUTION: Breaking changes detected. Create rollback plan and test in staging environment"
            | [] =>
                if (Z.of_nat (size records) >? 10000)
                then "High impact change. Deploy incrementally and monitor closely"
                else if (Z.of_nat (size records) >? 1000)
                then "Moderate impact. Test thoroughly before deployment"
                else "Low impact change. Standard testing procedures apply"
            end |}.

Definition simulate_source_removal (c : ProposedChange) (now : Z) : AnalysisM SimulationReport :=
  let source := {| system := target c; path := ""; ref_version := None; extracted_at := now;
                   cdc_position := None |} in
  impact ← forward_impact source None now now;
  mret {| simulated_change := c; affected_records_count := length (affected_records impact);
          affected_models_count := length (affected_models impact);
          simulated_datasets := affected_datasets impact;
          breaking_changes := ["Source removal will break all downstream consumers"];
          warnings := (λ ds, "Dataset " +:+ ds +:+ " will lose data source")
                        <$> affected_datasets impact;
          recommendation := "DO NOT PROCEED - critical dependencies exist" |}.

Definition simulate_change (c : ProposedChange) (now end_time : Z) : AnalysisM SimulationReport :=
  match change_type c with
  | SchemaModification => simulate_schema_change c now
  | TransformationUpdate => simulate_transformation_change c now end_time
  | DataSourceRemoval => simulate_source_removal c now
  end.
End Analyzer.

(** * Facts on impact analysis

    What the analyses find is stated against the promises a lineage store makes
    ([LineageSinkOk]), which the RocksDB store keeps after any history. *)

From stdpp Require Import base numbers option strings gmap list relations sorting.
From S2P Require Import KvScan LineageStoreFacts.

Local Open Scope Z_scope.

(** ** The promises *)

Class LineageSinkOk `{LineageSink} : Type := {
  sink_inv : Sink → Prop;
  (** the events a store has *)
  sink_holds : Sink → LineageEvent → Prop;
  (** whether no two of them are in the same second *)
  sink_spread : Sink → Prop;
  promise_record s id : sink_inv s →
    match (sink_record_lineage id s).2 with
    | Ok l => ∀ x, x ∈ l ↔ sink_holds s x ∧ record_id x = id
    | Err _ => True
    | Panic => False
    end;
  promise_range s a b : sink_inv s → valid_time a → valid_time b →
    match (sink_time_range a b s).2 with
    | Ok l => ∀ x, (x ∈ l → sink_holds s x ∧ second a ≤ second (ts x) ≤ second b) ∧
        (sink_spread s → sink_holds s x → second a ≤ second (ts x) ≤ second b → x ∈ l)
    | Err _ => True
    | Panic => False
    end;
}.

(** The RocksDB store after a history keeps them. *)
Section Rocks.
Context `{LineageDb, !LineageDbOk} (origin : string → LineageEvent) (h : list lineage_call).
Context (Hu : sound_history origin h) (Ht : ∀ e, e ∈ all_written h → valid_time (ts e)).

#[export] Program Instance rocks_sink_ok : LineageSinkOk (H := rocks_sink) := {|
  sink_inv s := s = store_after h;
  sink_holds s x := stored s x;
  sink_spread s := ∀ e e', e ∈ all_written h → e' ∈ all_written h →
                     second (ts e) = second (ts e') → e = e';
|}.
Next Obligation.
  intros s id ->. pose proof (store_after_ok origin h Hu) as Hok.
  destruct (reads_by_prefix origin (known_in h) (λ i, known_in_ok origin h i Hu) (store_after h)
    cf_record_index (λ e, [record_id e]) id Hok (ok_record _ _ _ Hok)) with (s := store_after h)
    as [_ Hr]; [done|by intros e e' [= _ ->]|apply content_refl|]. simpl. unfold get_record_lineage.
  destruct (_.2) as [l|e|]; [|done..]. intros x. rewrite (proj2 Hr), list_elem_of_singleton. naive_solver.
Qed.
Next Obligation.
  intros s a b -> Ha Hb.
  destruct (range_exact origin h Hu Ht a b Ha Hb (store_after h) (content_refl _)) as [_ Hr].
  simpl. by destruct (_.2) as [l|e|].
Qed.
End Rocks.

(** ** The analyses *)

Section Analyses.
Context `{SetOrder, !SetOrderOk, ReportOrder, !ReportOrderOk, LS : LineageSink, OK : !LineageSinkOk}.

Lemma elem_of_distinct l r : r ∈ set_entries (distinct l) ↔ r ∈ l.
Proof. rewrite set_entries_perm, elem_of_elements. apply elem_of_list_to_set. Qed.

(** The forward analysis finds the readers of a source.  Every record it
    reports has a stored event of the year before that reads the source; when no
    two events share a second, every such event has its record and its dataset
    reported.  It never panics. *)
Theorem forward_impact_finds_readers s source as_of now fin :
  sink_inv s → valid_time (default now as_of) → days 365 ≤ default now as_of →
  let recent e := second (default now as_of - days 365) ≤ second (ts e) ≤ second (default now as_of) in
  match (forward_impact source as_of now fin s).2 with
  | Ok rep =>
      (∀ r, r ∈ affected_records rep →
         ∃ e, sink_holds s e ∧ recent e ∧ uses_source source e = true ∧ record_id e = r) ∧
      (sink_spread s → ∀ e, sink_holds s e → recent e → uses_source source e = true →
         record_id e ∈ affected_records rep ∧ dataset e ∈ affected_datasets rep)
  | Err _ => True
  | Panic => False
  end.
Proof.
  intros Hinv Hv Hd recent. unfold forward_impact, mbind, method_MBind, method_bind.
  assert (Hv' : valid_time (default now as_of - days 365)) by (unfold valid_time, days in *; lia).
  pose proof (promise_range s _ _ Hinv Hv' Hv) as Hp.
  destruct (sink_time_range _ _ s) as [s' [l|e|]]; simpl in *; [|done..]. split.
  - intros r Hr. apply elem_of_distinct, list_elem_of_fmap in Hr as (e & -> & He).
    rewrite list_elem_of_In, filter_In, <- list_elem_of_In in He. destruct He as [He Hus].
    apply Hp in He as [??]. eauto.
  - intros Hsp e He Hrec Hus. rewrite !elem_of_distinct, !list_elem_of_fmap.
    assert (e ∈ List.filter (uses_source source) l).
    { rewrite list_elem_of_In, filter_In, <- list_elem_of_In. split; [by apply Hp|done]. }
    split; eauto.
Qed.

(** A graph of the events of one record leads nowhere else. *)
Lemma derived_own es id a n :
  (∀ e, e ∈ es → record_id e = id) → nsteps (derived_from es) n id a → a = id.
Proof.
  intros Hes. assert (Hgen : ∀ x, nsteps (derived_from es) n x a → x = id → a = id); [|eauto].
  intros x. induction 1 as [|m x y z (s & _ & e & He & <- & _) _ IH]; [done|]. intros _. auto.
Qed.

Lemma one_record es id :
  (∀ e, e ∈ es → record_id e = id) → (size (record_index (new_graph es)) ≤ 1)%nat.
Proof.
  intros Hes. rewrite <- size_dom, <- (size_singleton (C := gset string) id).
  apply subseteq_size. intros r (e & He & <-)%elem_of_records. rewrite (Hes e He). set_solver.
Qed.

(** The backward analysis goes one step.  The sources it reports for a record
    are the sources of the record's own stored events, and none of what those were
    derived from, although it walks the graph with ten hops; it never panics. *)
Theorem root_cause_own_sources s record :
  sink_inv s →
  match (root_cause_analysis record None s).2 with
  | Ok rep => ∀ r, r ∈ source_data_refs rep ↔
                ∃ e, sink_holds s e ∧ record_id e = record ∧ r ∈ source_refs e
  | Err _ => True
  | Panic => False
  end.
Proof.
  intros Hinv. pose proof (promise_record s record Hinv) as Hp.
  unfold root_cause_analysis, mbind, method_MBind, method_bind.
  destruct (sink_record_lineage record s) as [s' [l|e|]]; simpl in *; [|done..].
  assert (Hown : ∀ e, e ∈ l → record_id e = record) by (intros e He; by apply Hp).
  assert (Hsrc : ∀ r, source_of l record r ↔ ∃ e, sink_holds s e ∧ record_id e = record ∧ r ∈ source_refs e).
  { intros r. unfold source_of. split.
    - intros (e & He & Hr & Hs). exists e. by apply Hp in He as [? _].
    - intros (e & He & Hr & Hs). exists e. split_and!; [by apply Hp|done|done]. }
  destruct l as [|e0 l0] eqn:El; [|rewrite <- El in *].
  { simpl. intros r. rewrite <- Hsrc. unfold source_of. set_solver. }
  unfold from_events. destruct (upstream_recursive_exact l record 10) as (res & -> & Hsound & Hcompl).
  simpl. intros r. rewrite <- Hsrc, ref_entries_perm, elem_of_elements. split.
  - intros (n & a & _ & Hn & Hs)%Hsound. by rewrite (derived_own l record a n Hown Hn) in Hs.
  - intros Hs. pose proof (one_record l record Hown). apply (Hcompl ltac:(lia) record); done.
Qed.
End Analyses.
