(* ===== verification/LineageSample.v ===== *)
(** * Lineage: concrete runs

    Instances of the parameters, the theorems on small histories, and histories on
    which the graph, the store and the analyses surprise. *)

From Stdlib Require Import ZArith Lia Ascii.
From Stdlib Require Import SpecFloat.
From stdpp Require Import base numbers option strings gmap list sorting.
From S2P Require Import Prelude RustText RustStd Effects KvScan LineageGraph LineageStore.
From S2P Require Import LineageStoreFacts ImpactAnalysis.

Local Open Scope Z_scope.

#[export] Instance element_order : SetOrder := {| set_entries s := elements s |}.
#[export] Instance element_order_ok : SetOrderOk.
Proof. by split. Qed.

#[export] Instance list_report_order : ReportOrder :=
  {| ref_entries s := elements s; position_entries m := map_to_list m |}.
#[export] Instance list_report_order_ok : ReportOrderOk.
Proof. by split. Qed.

(** ** Events *)

Definition place (sys p : string) : DataRef :=
  {| system := sys; path := p; ref_version := None; extracted_at := 0; cdc_position := None |}.

Definition no_metrics : ModelMetrics :=
  {| accuracy := None; precision := None; recall := None; f1_score := None; rmse := None;
     custom_metrics := ∅ |}.

Definition model (k : string * string) : ModelRef :=
  {| model_id := k.1; model_version := k.2; model_type := ""; params_hash := "";
     training_data := []; metrics := no_metrics; registry_uri := ""; inference_at := 0;
     features_used := []; outputs := [] |}.

Definition event_fields : Type :=
  string * string * string * string * string * Z * list DataRef * DataRef * list (string * string).

Definition event_of (f : event_fields) : LineageEvent :=
  let '(id, d, r, run, t, at_, srcs, out, ms) := f in
  {| event_id := id; dataset := d; record_id := r; source_refs := srcs; transforms := [];
     model_refs := model <$> ms; output_ref := out; ts := at_; run_id := run; tenant_id := t;
     correlation_id := None; metadata := ∅ |}.

Definition fields_of (e : LineageEvent) : event_fields :=
  (event_id e, dataset e, record_id e, run_id e, tenant_id e, ts e, source_refs e, output_ref e,
   (λ m, (model_id m, model_version m)) <$> model_refs e).

Lemma event_of_fields e : event_core (event_of (fields_of e)) = event_core e.
Proof.
  unfold event_core, event_of, fields_of. simpl. apply f_equal. rewrite <- !list_fmap_compose.
  by apply list_fmap_ext.
Qed.

(** A text that keeps these fields. *)
#[export] Instance text_db : LineageDb := {|
  event_to_json e := enc_text (fields_of e);
  event_of_json s := event_of <$> dec_text s;
  lineage_db_ok _ := true;
|}.

#[export] Instance text_db_ok : LineageDbOk.
Proof.
  split. intros e _. exists (event_of (fields_of e)). split; [|apply event_of_fields].
  unfold event_of_json, event_to_json, text_db. by rewrite dec_enc_text.
Qed.

Definition sec : Z := 10 ^ 9.
Definition year : Z := days 365.

(** An event with a one-letter identifier that reads some tables and writes one. *)
Definition derive (id r : string) (at_ : Z) (srcs : list string) (out : string) : LineageEvent :=
  event_of (id, "sales", r, "run", "t", at_, place "db" <$> srcs, place "db" out, []).

(** ** The graph *)

(** From [r] to [x] in one step and, over [a], in two; [y] is two steps away. *)
Definition detour : list LineageEvent :=
  [derive "1" "r" 0 ["X"; "A"] "R"; derive "2" "a" 0 ["X"] "A"; derive "3" "x" 0 ["Y"] "X";
   derive "4" "y" 0 ["Z"] "Y"].

Example detour_full :
  place "db" "Z" ∈ default ∅ (upstream_recursive (new_graph detour) "r" 4).
Proof. vm_compute. auto. Qed.

(** The source of [y] is within two steps of [r], but the walk comes to [x] over the
    detour first and does not visit it again. *)
Example depth_limit_misses_near :
  nsteps (derived_from detour) 2 "r" "y" ∧
  place "db" "Z" ∉ default ∅ (upstream_recursive (new_graph detour) "r" 2).
Proof.
  split; [|vm_compute; intros H; set_solver].
  assert (Hs : ∀ a b e e' s, e ∈ detour → e' ∈ detour → record_id e = a → record_id e' = b →
            s ∈ source_refs e → ref_key (output_ref e') = ref_key s → derived_from detour a b).
  { intros a b e e' s ?????? . exists s. split; [exists e|exists e']; done. }
  eapply nsteps_l; [apply (Hs "r" "x" (derive "1" "r" 0 ["X"; "A"] "R") (derive "3" "x" 0 ["Y"] "X")
    (place "db" "X")); set_solver|].
  eapply nsteps_l; [apply (Hs "x" "y" (derive "3" "x" 0 ["Y"] "X") (derive "4" "y" 0 ["Z"] "Y")
    (place "db" "Y")); set_solver|constructor].
Qed.

(** [r] reads what [x] wrote, and is not found downstream of it. *)
Example consumers_not_downstream :
  derived_from detour "r" "x" ∧
  downstream_recursive (new_graph detour) "x" 10 = Some ∅.
Proof.
  split; [|vm_compute; reflexivity]. exists (place "db" "X").
  split; [exists (derive "1" "r" 0 ["X"; "A"] "R")|exists (derive "3" "x" 0 ["Y"] "X")]; set_solver.
Qed.

(** The longest chain from [r] has three steps ([a], [x], [y]); visiting [x] directly
    first cuts it. *)
Example depth_depends_on_order :
  lineage_depth (new_graph detour) "r" = Some 2%nat ∧
  lineage_depth (new_graph (derive "1" "r" 0 ["A"; "X"] "R" :: tail detour)) "r" = Some 3%nat.
Proof. vm_compute. done. Qed.

Lemma upstream_recursive_exact_witness :
  ∃ result, upstream_recursive (new_graph detour) "r" 10 = Some result ∧
    ∀ r s, rtc (derived_from detour) "r" r → source_of detour r s → s ∈ result.
Proof.
  destruct (upstream_recursive_exact detour "r" 10) as (result & Hr & _ & Hall).
  exists result. split; [exact Hr|]. apply Hall. vm_compute. lia.
Defined.

Lemma downstream_follows_outputs_witness :
  ∃ result, downstream_recursive (new_graph detour) "x" 10 = Some result ∧
    ∀ r, r ∈ result → r ≠ "x" ∧ rtc (share_output detour) "x" r.
Proof.
  destruct (downstream_follows_outputs detour "x" 10) as (result & Hr & Hs & _). by exists result.
Defined.

Lemma circular_for_every_record_witness :
  has_circular_dependency (new_graph detour) "y" = Some true ∧
  has_circular_dependency (new_graph detour) "z" = Some false.
Proof.
  split; [exact (circular_for_every_record detour "y")|exact (circular_for_every_record detour "z")].
Defined.

(** ** The store *)

Definition first : LineageEvent := derive "e1" "r" (2 * year) ["A"] "R".
Definition other : LineageEvent := derive "e2" "x" (2 * year + sec) ["A"] "X".
Definition later : LineageEvent := derive "e3" "r" (2 * year + 2 * sec) ["B"] "R".
(** In the same second as [later]. *)
Definition close : LineageEvent := derive "e4" "r" (2 * year + 2 * sec + 1) ["C"] "R".

Definition demo_origin (id : string) : LineageEvent :=
  if String.eqb id "e1" then first else if String.eqb id "e2" then other
  else if String.eqb id "e3" then later else close.

Definition demo_history : list lineage_call := [WriteBatch [first; other]].
Definition demo_store : RocksLineageStore := store_after (demo_history ++ [WriteBatch [later]]).

Lemma demo_unique : sound_history demo_origin (demo_history ++ [WriteBatch [later]]).
Proof. intros e He. vm_compute in He. repeat (apply elem_of_cons in He as [->|He]; [by vm_compute|]). by apply not_elem_of_nil in He. Qed.

Lemma demo_times : ∀ e, e ∈ all_written (demo_history ++ [WriteBatch [later]]) → valid_time (ts e).
Proof.
  intros e He. vm_compute in He.
  repeat (apply elem_of_cons in He as [->|He]; [split; [by vm_compute|by vm_compute]|]).
  by apply not_elem_of_nil in He.
Qed.

Lemma record_lineage_exact_witness :
  match (get_record_lineage "r" demo_store).2 with
  | Ok l => StronglySorted (λ a b, ts a ≤ ts b) l ∧
            (∀ x, x ∈ l ↔ stored demo_store x ∧ record_id x = "r") ∧
            (∀ e, e ∈ [later] → record_id e = "r" → ∃ x, x ∈ l ∧ event_core x = event_core e)
  | Err e => e = LineageDbFailed
  | Panic => False
  end.
Proof.
  exact (record_lineage_exact demo_origin demo_history [later] demo_store "r" demo_unique eq_refl).
Defined.


Definition ids_of (r : result LineageError (list LineageEvent)) : result LineageError (list string) :=
  (λ l : list LineageEvent, event_id <$> l) <$> r.

Example as_of_first :
  ids_of (get_lineage_as_of "r" (2 * year + sec) demo_store).2 = Ok ["e1"].
Proof. vm_compute. reflexivity. Qed.

(** A metric that is not a number is acknowledged, and the lineage of its record cannot be
    read any more.  The encoding here writes such an event as a text that has no value. *)
Definition null_db : LineageDb := {|
  event_to_json e := if finite_metrics e then enc_text (fields_of e) else "";
  event_of_json s := if String.eqb s "" then None else event_of <$> dec_text s;
  lineage_db_ok _ := true;
|}.

Definition nan_model : ModelRef :=
  {| model_id := "m"; model_version := "1"; model_type := ""; params_hash := "";
     training_data := [];
     metrics := {| accuracy := None; precision := None; recall := None; f1_score := None;
                   rmse := None; custom_metrics := {["loss" := S754_nan]} |};
     registry_uri := ""; inference_at := 0; features_used := []; outputs := [] |}.

Definition nan_event : LineageEvent :=
  {| event_id := "e9"; dataset := "sales"; record_id := "r"; source_refs := []; transforms := [];
     model_refs := [nan_model]; output_ref := place "db" "R"; ts := 2 * year; run_id := "run";
     tenant_id := "t"; correlation_id := None; metadata := ∅ |}.

Example nan_metric_blocks_record :
  (write_batch (H := null_db) [nan_event] new_lineage_store).2 = Ok tt ∧
  (get_record_lineage (H := null_db) "r"
     (write_batch (H := null_db) [nan_event] new_lineage_store).1).2 = Err LineageDecodeFailed.
Proof. vm_compute. done. Qed.

(** Two events in one second: the first one is missing from queries by time, and a
    deletion by time leaves it behind. *)
Definition crowded : RocksLineageStore := store_after [WriteBatch [later; close]].

Example same_second_hidden :
  ids_of (get_record_lineage "r" crowded).2 = Ok ["e3"; "e4"] ∧
  ids_of (query_by_time_range 0 (4 * year) crowded).2 = Ok ["e4"] ∧
  ids_of (get_lineage_as_of "r" (4 * year) crowded).2 = Ok ["e4"].
Proof. vm_compute. done. Qed.

Example same_second_kept :
  ids_of
    (get_record_lineage "r" (store_after [WriteBatch [later; close]; DeleteBefore (4 * year)])).2
  = Ok ["e3"].
Proof. vm_compute. reflexivity. Qed.

(** A second event of the same second is reported as existing before it happened. *)
Example as_of_counts_whole_seconds :
  ids_of (get_lineage_as_of "r" (ts later) (store_after [WriteBatch [close]])).2 = Ok ["e4"]
  ∧ ts later < ts close.
Proof. vm_compute. done. Qed.

(** ** The analyses *)

#[local] Instance demo_sink_ok : LineageSinkOk (H := rocks_sink) :=
  rocks_sink_ok demo_origin _ demo_unique demo_times.

Lemma forward_impact_finds_readers_witness :
  match (forward_impact (H := rocks_sink) (place "db" "A") None (3 * year) 0 demo_store).2 with
  | Ok rep => ∀ r, r ∈ affected_records rep →
      ∃ e, stored demo_store e ∧
        second (3 * year - year) ≤ second (ts e) ≤ second (3 * year) ∧
        uses_source (place "db" "A") e = true ∧ record_id e = r
  | _ => True
  end.
Proof.
  pose proof (forward_impact_finds_readers (OK := demo_sink_ok) demo_store (place "db" "A") None (3 * year) 0
    eq_refl ltac:(by vm_compute) ltac:(by vm_compute)) as Hf.
  destruct (_.2) as [rep|e|]; [|done..]. exact (proj1 Hf).
Defined.

Example readers_of_A :
  (λ rep, (affected_records rep, risk_level rep)) <$>
    (forward_impact (H := rocks_sink) (place "db" "A") None (3 * year) 0 demo_store).2
  = Ok (["r"; "x"], Low).
Proof. vm_compute. reflexivity. Qed.

Lemma root_cause_own_sources_witness :
  match (root_cause_analysis (H := rocks_sink) "r" None demo_store).2 with
  | Ok rep => ∀ r, r ∈ source_data_refs rep ↔
                ∃ e, stored demo_store e ∧ record_id e = "r" ∧ r ∈ source_refs e
  | Err _ => True
  | Panic => False
  end.
Proof. exact (root_cause_own_sources (OK := demo_sink_ok) demo_store "r" eq_refl). Defined.

(** Removing a system: only sources without a path count, so nothing depends on it. *)
Example removal_affects_nothing :
  (λ rep, (affected_records_count rep, recommendation rep)) <$>
    (simulate_source_removal (H := rocks_sink)
       {| change_type := DataSourceRemoval; target := "db"; details := ∅ |} (3 * year) demo_store).2
  = Ok (0%nat, "DO NOT PROCEED - critical dependencies exist").
Proof. vm_compute. reflexivity. Qed.
