(* ===== verification/Gdpr.v ===== *)
(** * Erasure of personal data: requests, results, retention and legal holds

    Models [gdpr/types.rs], [gdpr/data_erasure.rs] and [gdpr/retention.rs] of the
    core: a request to erase the data of a subject and the report a storage backend
    gives of it, the interface every backend implements ([DataErasure], with the laws
    the coordinator relies on), retention policies and legal holds.  Times are in
    nanoseconds; the times and identifiers an operation draws are arguments. *)

From Stdlib Require Import ZArith Lia Ascii.
From stdpp Require Import base numbers option strings gmap list.
From S2P Require Import Prelude RustStd Effects.

Local Open Scope Z_scope.

(** ** Data subjects *)

Record DataSubjectId : Type := { subject_id : string; id_type : string }.

Definition user (id : string) : DataSubjectId := {| subject_id := id; id_type := "user_id" |}.
Definition email (id : string) : DataSubjectId := {| subject_id := id; id_type := "email" |}.
Definition tenant (id : string) : DataSubjectId := {| subject_id := id; id_type := "tenant_id" |}.

(** ** Requests *)

Inductive ErasureStrategy : Type := HardDelete | Tombstone | Anonymize | ArchiveThenDelete.

#[global] Instance ErasureStrategy_eq_dec : EqDecision ErasureStrategy.
Proof. solve_decision. Defined.

Record ErasureRequest : Type := {
  request_id : string;
  data_subject : DataSubjectId;
  requested_at : Z;
  requested_by : string;
  reason : option string;
  dry_run : bool;
  target_backends : option (list string);
  strategy : option ErasureStrategy;
}.

Definition new_request (subject : DataSubjectId) (by_ : string) (uid : string) (now : Z)
    : ErasureRequest :=
  {| request_id := uid; data_subject := subject; requested_at := now; requested_by := by_;
     reason := None; dry_run := false; target_backends := None; strategy := None |}.

Definition as_dry_run (r : ErasureRequest) : ErasureRequest :=
  {| request_id := request_id r; data_subject := data_subject r; requested_at := requested_at r;
     requested_by := requested_by r; reason := reason r; dry_run := true;
     target_backends := target_backends r; strategy := strategy r |}.

Definition with_strategy (st : ErasureStrategy) (r : ErasureRequest) : ErasureRequest :=
  {| request_id := request_id r; data_subject := data_subject r; requested_at := requested_at r;
     requested_by := requested_by r; reason := reason r; dry_run := dry_run r;
     target_backends := target_backends r; strategy := Some st |}.

(** ** Reports *)

Record BackendErasureResult : Type := {
  backend_name : string;
  backend_success : bool;
  records_erased : Z;
  strategy_used : ErasureStrategy;
  result_details : gmap string Z;
  error_message : option string;
  result_warnings : list string;
}.

Definition backend_succeeded (name : string) (records : Z) (st : ErasureStrategy)
    : BackendErasureResult :=
  {| backend_name := name; backend_success := true; records_erased := records;
     strategy_used := st; result_details := ∅; error_message := None; result_warnings := [] |}.

Definition backend_failed (name error : string) (st : ErasureStrategy) : BackendErasureResult :=
  {| backend_name := name; backend_success := false; records_erased := 0;
     strategy_used := st; result_details := ∅; error_message := Some error;
     result_warnings := [] |}.

Definition with_detail (category : string) (count : Z) (r : BackendErasureResult)
    : BackendErasureResult :=
  {| backend_name := backend_name r; backend_success := backend_success r;
     records_erased := records_erased r; strategy_used := strategy_used r;
     result_details := <[category := count]> (result_details r);
     error_message := error_message r; result_warnings := result_warnings r |}.

Definition with_warning (w : string) (r : BackendErasureResult) : BackendErasureResult :=
  {| backend_name := backend_name r; backend_success := backend_success r;
     records_erased := records_erased r; strategy_used := strategy_used r;
     result_details := result_details r; error_message := error_message r;
     result_warnings := result_warnings r ++ [w] |}.

(** The numbers are of records and backends that exist: their sums do not overflow. *)
Record ErasureResult : Type := {
  erasure_request : ErasureRequest;
  started_at : Z;
  completed_at : Z;
  success : bool;
  backend_results : gmap string BackendErasureResult;
  total_records_erased : Z;
  total_backends_processed : nat;
  backends_succeeded : nat;
  backends_failed : nat;
  audit_event_id : string;
}.

(** What an erasure draws from the clock and the generator of identifiers. *)
Record Stamp : Type := { uid : string; begun : Z; ended : Z }.

Definition new_result (r : ErasureRequest) (st : Stamp) : ErasureResult :=
  {| erasure_request := r; started_at := begun st; completed_at := begun st; success := true;
     backend_results := ∅; total_records_erased := 0; total_backends_processed := 0;
     backends_succeeded := 0; backends_failed := 0; audit_event_id := uid st |}.

Definition add_backend_result (name : string) (b : BackendErasureResult) (r : ErasureResult)
    : ErasureResult :=
  {| erasure_request := erasure_request r; started_at := started_at r;
     completed_at := completed_at r; success := success r && backend_success b;
     backend_results := <[name := b]> (backend_results r);
     total_records_erased := total_records_erased r + records_erased b;
     total_backends_processed := S (total_backends_processed r);
     backends_succeeded := if backend_success b then S (backends_succeeded r) else backends_succeeded r;
     backends_failed := if backend_success b then backends_failed r else S (backends_failed r);
     audit_event_id := audit_event_id r |}.

Definition finalize (st : Stamp) (r : ErasureResult) : ErasureResult :=
  {| erasure_request := erasure_request r; started_at := started_at r; completed_at := ended st;
     success := success r; backend_results := backend_results r;
     total_records_erased := total_records_erased r;
     total_backends_processed := total_backends_processed r;
     backends_succeeded := backends_succeeded r; backends_failed := backends_failed r;
     audit_event_id := audit_event_id r |}.

(** The report of a dry run. *)
Definition dry_report (name category : string) (count : Z) : BackendErasureResult :=
  with_warning ("Dry run - no data was actually deleted. Would have deleted "
                +:+ i64_to_string count +:+ " records.")
    (with_detail category count (backend_succeeded name 0 HardDelete)).

Definition unsupported_report (name id_type : string) : BackendErasureResult :=
  backend_failed name ("Unsupported data subject type: " +:+ id_type
                       +:+ ". Supported types: 'tenant_id', 'user_id'.") HardDelete.

(** The report of a backend on itself. *)
Definition one_report (name : string) (r : ErasureRequest) (st : Stamp) (b : BackendErasureResult)
    : ErasureResult := finalize st (add_backend_result name b (new_result r st)).

(** ** The interface of a backend *)

Class DataErasure : Type := {
  Backend : Type;
  BackendError : Type;
  backend_error_text : BackendError → string;
  erase_data_subject : ErasureRequest → Stamp → method Backend BackendError ErasureResult;
  count_data_subject_records : DataSubjectId → method Backend BackendError Z;
  get_data_breakdown : DataSubjectId → method Backend BackendError (gmap string Z);
}.

(** The provided method [verify_erasure]. *)
Definition verify_backend `{DataErasure} (d : DataSubjectId) : method Backend BackendError bool :=
  n ← count_data_subject_records d; mret (n =? 0).

(** What the coordinator relies on: a backend that is in order stays in order; its
    report is a success when all its parts are; a dry run and an erasure that ends in
    an error leave the data alone; and when an erasure is reported as a success there
    is no stored record left among those the backend counts, so that counting gives
    zero.  A backend is settled when nothing waits in its memory to be stored; erasing
    does not look at what waits and adds nothing to it. *)
Class ErasureOk `{DataErasure} : Type := {
  backend_ok : Backend → Prop;
  backend_same : relation Backend;
  no_records : DataSubjectId → Backend → Prop;
  settled : Backend → Prop;
  erase_spec r st s : backend_ok s →
    let '(s', res) := erase_data_subject r st s in
    match res with
    | Ok x =>
        backend_ok s' ∧
        (map_Forall (λ _ b, backend_success b = true) (backend_results x) → success x = true) ∧
        (dry_run r = true → backend_same s s' ∧
           map_Forall (λ _ b, records_erased b = 0) (backend_results x)) ∧
        (dry_run r = false → success x = true → no_records (data_subject r) s')
    | Err _ => backend_ok s' ∧ backend_same s s'
    | Panic => False
    end;
  erase_settled r st s : settled s → settled (erase_data_subject r st s).1;
  count_spec d s : backend_ok s →
    let '(s', res) := count_data_subject_records d s in
    backend_ok s' ∧ backend_same s s' ∧
    match res with
    | Ok n => no_records d s → n = 0
    | Err _ => True
    | Panic => False
    end;
}.

(** ** Retention *)

Inductive DataCategory : Type :=
| PersonalIdentifiers
| Financial
| AuditLogs
| UserContent
| SystemLogs
| Marketing
| Analytics
| Backups
| Custom (name : string).

#[global] Instance DataCategory_eq_dec : EqDecision DataCategory.
Proof. solve_decision. Defined.
#[global] Instance DataCategory_countable : Countable DataCategory.
Proof.
  refine (inj_countable'
    (λ c, match c with
          | PersonalIdentifiers => inl 0%nat | Financial => inl 1%nat | AuditLogs => inl 2%nat
          | UserContent => inl 3%nat | SystemLogs => inl 4%nat | Marketing => inl 5%nat
          | Analytics => inl 6%nat | Backups => inl 7%nat | Custom s => inr s
          end)
    (λ x, match x with
          | inl 0%nat => PersonalIdentifiers | inl 1%nat => Financial | inl 2%nat => AuditLogs
          | inl 3%nat => UserContent | inl 4%nat => SystemLogs | inl 5%nat => Marketing
          | inl 6%nat => Analytics | inl _ => Backups | inr s => Custom s
          end) _).
  by intros [].
Defined.

Record RetentionPolicy : Type := {
  policy_id : string;
  policy_name : string;
  data_category : DataCategory;
  min_retention_days : option Z;
  max_retention_days : option Z;
  legal_basis : string;
  jurisdiction : option string;
  allow_override : bool;
  policy_metadata : gmap string string;
}.

Definition new_policy (id name : string) (c : DataCategory) (min_days max_days : option Z)
    : RetentionPolicy :=
  {| policy_id := id; policy_name := name; data_category := c; min_retention_days := min_days;
     max_retention_days := max_days; legal_basis := ""; jurisdiction := None;
     allow_override := false; policy_metadata := ∅ |}.

Inductive RetentionViolation : Type :=
| RetainedFor (min_days age : Z)
| SubjectUnderHold (subject : string)
| CategoryUnderHold (c : DataCategory) (holds : nat).

(** [Duration::num_days]: the divisions truncate. *)
Definition num_days (d : Z) : Z := Z.quot (Z.quot d (10 ^ 9)) 86400.

Definition policy_can_delete (p : RetentionPolicy) (created now : Z) : result RetentionViolation bool :=
  let age := num_days (now - created) in
  _ ← match min_retention_days p with
      | Some min_days => if age <? min_days then Err (RetainedFor min_days age) else Ok tt
      | None => Ok tt
      end;
  match max_retention_days p with
  | Some max_days => if max_days <? age then Ok true else Ok true
  | None => Ok true
  end.

Record LegalHold : Type := {
  hold_id : string;
  hold_name : string;
  placed_at : Z;
  placed_by : string;
  hold_reason : string;
  data_subjects : list string;
  data_categories : list DataCategory;
  expires_at : option Z;
  active : bool;
  hold_metadata : gmap string string;
}.

Definition new_hold (id name by_ why : string) (now : Z) : LegalHold :=
  {| hold_id := id; hold_name := name; placed_at := now; placed_by := by_; hold_reason := why;
     data_subjects := []; data_categories := []; expires_at := None; active := true;
     hold_metadata := ∅ |}.

Definition add_data_subject (s : string) (h : LegalHold) : LegalHold :=
  {| hold_id := hold_id h; hold_name := hold_name h; placed_at := placed_at h;
     placed_by := placed_by h; hold_reason := hold_reason h;
     data_subjects := data_subjects h ++ [s]; data_categories := data_categories h;
     expires_at := expires_at h; active := active h; hold_metadata := hold_metadata h |}.

Definition add_data_category (c : DataCategory) (h : LegalHold) : LegalHold :=
  {| hold_id := hold_id h; hold_name := hold_name h; placed_at := placed_at h;
     placed_by := placed_by h; hold_reason := hold_reason h;
     data_subjects := data_subjects h; data_categories := data_categories h ++ [c];
     expires_at := expires_at h; active := active h; hold_metadata := hold_metadata h |}.

Definition with_expiry (t : Z) (h : LegalHold) : LegalHold :=
  {| hold_id := hold_id h; hold_name := hold_name h; placed_at := placed_at h;
     placed_by := placed_by h; hold_reason := hold_reason h;
     data_subjects := data_subjects h; data_categories := data_categories h;
     expires_at := Some t; active := active h; hold_metadata := hold_metadata h |}.

Definition release (h : LegalHold) : LegalHold :=
  {| hold_id := hold_id h; hold_name := hold_name h; placed_at := placed_at h;
     placed_by := placed_by h; hold_reason := hold_reason h;
     data_subjects := data_subjects h; data_categories := data_categories h;
     expires_at := expires_at h; active := false; hold_metadata := hold_metadata h |}.

Definition is_active (now : Z) (h : LegalHold) : bool :=
  if active h then
    match expires_at h with
    | Some expiry => now <? expiry
    | None => true
    end
  else false.

Definition covers_subject (now : Z) (s : string) (h : LegalHold) : bool :=
  is_active now h && existsb (String.eqb s) (data_subjects h).

Definition covers_category (now : Z) (c : DataCategory) (h : LegalHold) : bool :=
  is_active now h && bool_decide (c ∈ data_categories h).

Record RetentionManager : Type := {
  policies : gmap DataCategory RetentionPolicy;
  legal_holds : gmap string LegalHold;
}.

Definition new_manager : RetentionManager := {| policies := ∅; legal_holds := ∅ |}.

Definition add_policy (p : RetentionPolicy) (m : RetentionManager) : RetentionManager :=
  {| policies := <[data_category p := p]> (policies m); legal_holds := legal_holds m |}.

Definition get_policy (m : RetentionManager) (c : DataCategory) : option RetentionPolicy :=
  policies m !! c.

Definition add_legal_hold (h : LegalHold) (m : RetentionManager) : RetentionManager :=
  {| policies := policies m; legal_holds := <[hold_id h := h]> (legal_holds m) |}.

Definition remove_legal_hold (id : string) (m : RetentionManager) : RetentionManager :=
  {| policies := policies m; legal_holds := delete id (legal_holds m) |}.

(** The order of the table is left open by the code, and nothing depends on it. *)
Definition holds_of (m : RetentionManager) : list LegalHold := snd <$> map_to_list (legal_holds m).

Definition get_active_holds_for_subject (m : RetentionManager) (now : Z) (s : string)
    : list LegalHold := List.filter (covers_subject now s) (holds_of m).

Definition is_subject_under_hold (m : RetentionManager) (now : Z) (s : string) : bool :=
  existsb (covers_subject now s) (holds_of m).

Definition can_delete (m : RetentionManager) (c : DataCategory) (subject : string) (created now : Z)
    : result RetentionViolation bool :=
  if is_subject_under_hold m now subject then Err (SubjectUnderHold subject)
  else
    match List.filter (covers_category now c) (holds_of m) with
    | [] =>
        match get_policy m c with
        | Some p => policy_can_delete p created now
        | None => Ok true
        end
    | holds => Err (CategoryUnderHold c (length holds))
    end.

(** [RetentionManager::default], the identifiers of its policies given. *)
Definition default_manager (id1 id2 id3 : string) : RetentionManager :=
  add_policy
    {| policy_id := id3; policy_name := "Personal Data Retention";
       data_category := PersonalIdentifiers; min_retention_days := None;
       max_retention_days := Some 1095; legal_basis := "GDPR Article 5(1)(e) - Storage Limitation";
       jurisdiction := Some "EU"; allow_override := true; policy_metadata := ∅ |}
  (add_policy
    {| policy_id := id2; policy_name := "Audit Log Retention"; data_category := AuditLogs;
       min_retention_days := Some 2555; max_retention_days := None;
       legal_basis := "Regulatory compliance"; jurisdiction := None; allow_override := false;
       policy_metadata := ∅ |}
  (add_policy
    {| policy_id := id1; policy_name := "Financial Records Retention";
       data_category := Financial; min_retention_days := Some 2555;
       max_retention_days := Some 3650; legal_basis := "Tax law compliance";
       jurisdiction := None; allow_override := false; policy_metadata := ∅ |} new_manager)).

(** ** Facts *)

(** A hold that stops an erasure at a time. *)
Definition held (m : RetentionManager) (now : Z) (P : LegalHold → Prop) : Prop :=
  ∃ k h, legal_holds m !! k = Some h ∧ active h = true ∧
    (∀ t, expires_at h = Some t → now < t) ∧ P h.

Lemma is_active_iff now h :
  is_active now h = true ↔ active h = true ∧ (∀ t, expires_at h = Some t → now < t).
Proof.
  unfold is_active. destruct (active h), (expires_at h) as [t|]; simpl; [|naive_solver..].
  rewrite Z.ltb_lt. split; [|naive_solver]. intros Hlt. split; [done|]. by intros ? [= <-].
Qed.

Lemma elem_of_holds m h : h ∈ holds_of m ↔ ∃ k, legal_holds m !! k = Some h.
Proof.
  unfold holds_of. rewrite list_elem_of_fmap. split.
  - intros ([k h'] & -> & Hk). exists k. by apply elem_of_map_to_list.
  - intros [k Hk]. exists (k, h). split; [done|]. by apply elem_of_map_to_list.
Qed.

Lemma under_hold_iff m now s :
  is_subject_under_hold m now s = true ↔ held m now (λ h, s ∈ data_subjects h).
Proof.
  unfold is_subject_under_hold. rewrite existsb_exists. split.
  - intros (h & [k Hk]%list_elem_of_In%elem_of_holds & [Ha Hs]%andb_true_iff).
    apply is_active_iff in Ha as [? ?]. apply existsb_exists in Hs as (x & Hx & <-%String.eqb_eq).
    exists k, h. split_and!; [done..|]. by apply list_elem_of_In.
  - intros (k & h & Hk & Ha & Ht & Hs). exists h. split; [apply list_elem_of_In, elem_of_holds; eauto|].
    apply andb_true_iff. split; [by apply is_active_iff|].
    apply existsb_exists. exists s. split; [by apply list_elem_of_In|apply String.eqb_refl].
Qed.

Lemma category_hold_iff m now c :
  List.filter (covers_category now c) (holds_of m) ≠ [] ↔
  held m now (λ h, c ∈ data_categories h).
Proof.
  split.
  - destruct (List.filter _ _) as [|h l] eqn:E; [done|]. intros _.
    assert (In h (List.filter (covers_category now c) (holds_of m))) as Hin by (rewrite E; by left).
    apply List.filter_In in Hin as [[k Hk]%list_elem_of_In%elem_of_holds [Ha Hc]%andb_true_iff].
    apply is_active_iff in Ha as [? ?]. apply bool_decide_eq_true in Hc. by exists k, h.
  - intros (k & h & Hk & Ha & Ht & Hc) E.
    assert (In h (List.filter (covers_category now c) (holds_of m))) as Hin; [|by rewrite E in Hin].
    apply List.filter_In. split; [apply list_elem_of_In, elem_of_holds; eauto|].
    apply andb_true_iff. split; [by apply is_active_iff|by apply bool_decide_eq_true].
Qed.

Lemma policy_can_delete_iff p created now :
  policy_can_delete p created now = Ok true ↔
  ∀ d, min_retention_days p = Some d → d ≤ num_days (now - created).
Proof.
  unfold policy_can_delete.
  replace (match max_retention_days p with
           | Some m => if m <? num_days (now - created) then Ok true else Ok true
           | None => Ok true end) with (Ok (E := RetentionViolation) true)
    by (destruct (max_retention_days p); [case_match|]; done).
  destruct (min_retention_days p) as [d|]; simpl.
  - destruct (Z.ltb_spec (num_days (now - created)) d); split; try done.
    + intros Hd. specialize (Hd d eq_refl). lia.
    + by intros _ ? [= <-].
  - split; [done|done].
Qed.

(** Data may be deleted exactly when no active hold names its subject or its
    category, and it is as old as the minimum of the category's policy asks, in whole
    days; in every other case the answer is an error and never a plain no. *)
Theorem can_delete_iff m c subject created now :
  (can_delete m c subject created now = Ok true ↔
     ¬ held m now (λ h, subject ∈ data_subjects h) ∧
     ¬ held m now (λ h, c ∈ data_categories h) ∧
     ∀ p d, policies m !! c = Some p → min_retention_days p = Some d →
       d ≤ num_days (now - created)) ∧
  can_delete m c subject created now ≠ Ok false ∧ can_delete m c subject created now ≠ Panic.
Proof.
  unfold can_delete. destruct (is_subject_under_hold m now subject) eqn:Es.
  { apply under_hold_iff in Es. split; [|done]. split; [done|]. by intros [[] ?]. }
  assert (¬ held m now (λ h, subject ∈ data_subjects h)) as Hs.
  { rewrite <- under_hold_iff. congruence. }
  pose proof (category_hold_iff m now c) as Hc. destruct (List.filter _ _) as [|h l].
  2:{ split; [|done]. split; [done|]. intros (_ & [] & _). by apply Hc. }
  assert (¬ held m now (λ h, c ∈ data_categories h)) as Hc' by by intros H%Hc.
  unfold get_policy. destruct (policies m !! c) as [p|] eqn:Ep.
  - split.
    + rewrite policy_can_delete_iff. naive_solver.
    + unfold policy_can_delete. repeat (case_match; simplify_eq/=); done.
  - naive_solver.
Qed.

(** * Erasures: facts the backends share

    The report a backend gives on itself, and erasures that only read. *)

From Stdlib Require Import ZArith Lia.

Local Open Scope Z_scope.

Lemma one_report_success name r st b :
  map_Forall (λ _ b, backend_success b = true) (backend_results (one_report name r st b)) →
  success (one_report name r st b) = true.
Proof. intros Hb. simpl. apply (Hb name). apply lookup_insert_eq. Qed.

Lemma one_report_zero name r st b :
  records_erased b = 0 →
  map_Forall (λ _ b, records_erased b = 0) (backend_results (one_report name r st b)).
Proof. intros Hb. apply map_Forall_insert_2; [done|apply map_Forall_empty]. Qed.

Lemma bind_ret_bind {S E A B C} (m : method S E A) (f : A → B) (k : B → method S E C) s :
  (b ← (n ← m; mret (f n)); k b) s = (n ← m; k (f n)) s.
Proof. unfold mbind, method_MBind, method_bind. by destruct (m s) as [s1 [a|e|]]. Qed.

Section Backend.
Context {S E : Type} (ok : S → Prop) (same : relation S) (none : DataSubjectId → S → Prop).
Context (F : E → Prop).

(** What an erasure leaves when it ends. *)
Definition erasure_left (r : ErasureRequest) (s s' : S) (x : ErasureResult) : Prop :=
  ok s' ∧
  (map_Forall (λ _ b, backend_success b = true) (backend_results x) → success x = true) ∧
  (dry_run r = true → same s s' ∧ map_Forall (λ _ b, records_erased b = 0) (backend_results x)) ∧
  (dry_run r = false → success x = true → none (data_subject r) s').

(** An erasure that only reads. *)
Lemma quiet_erasure name r st s s' res (m : method S E BackendErasureResult) :
  ok s → (∀ s', same s s' → ok s') → (∀ d s', same s s' → none d s → none d s') → same s s →
  reads (same s) F (λ b, records_erased b = 0 ∧
    (dry_run r = false → backend_success b = true → none (data_subject r) s)) m →
  (b ← m; mret (one_report name r st b)) s = (s', res) →
  match res with
  | Ok x => erasure_left r s s' x
  | Err e => same s s' ∧ F e
  | Panic => False
  end.
Proof.
  intros Hok Hsame Hnone Hrefl Hm Hw. destruct (Hm s Hrefl) as [Hs Hb].
  destruct (method_bind_inv _ _ _ _ _ Hw) as [(s1 & b & E1 & [= <- <-])|[(err & E1 & ->)|[E1 ->]]];
    rewrite E1 in *; simpl in *; [|done..].
  destruct Hb as [Hz Hn]. split_and!.
  - by apply Hsame.
  - apply one_report_success.
  - intros _. split; [done|by apply one_report_zero].
  - intros Hd Hsucc. by eapply Hnone, Hn.
Qed.
End Backend.
