(* ===== verification/RowLineage.v ===== *)
(** * Identifiers of rows and their keys

    Models the identifiers of [core/lineage/row_level.rs]: where a row comes from,
    the key under which the store of row lineage keeps it ([to_key]) and the parser
    of such keys ([from_key]). *)

From Stdlib Require Import ZArith Lia Ascii.
From stdpp Require Import base numbers option strings gmap list.
From S2P Require Import Prelude RustStd RustText KvScan.

Local Open Scope Z_scope.

Inductive DatabaseType : Type :=
  Postgres | DB2 | Oracle | SAPHANA | MySQL | Snowflake | Databricks.

Inductive SourceType : Type :=
| Csv
| Database (db : DatabaseType)
| Kafka
| S3.

Inductive RowPosition : Type :=
| RowNumber (n : Z)
| PrimaryKey (keys : gmap string string)
| KafkaOffset (partition offset : Z)
| ParquetIndex (index : Z).

Record RowId : Type := {
  source_type : SourceType;
  source_id : string;
  position : RowPosition;
}.

#[global] Instance DatabaseType_eq_dec : EqDecision DatabaseType.
Proof. solve_decision. Defined.
#[global] Instance SourceType_eq_dec : EqDecision SourceType.
Proof. solve_decision. Defined.
#[global] Instance RowPosition_eq_dec : EqDecision RowPosition.
Proof. solve_decision. Defined.
#[global] Instance RowId_eq_dec : EqDecision RowId.
Proof. solve_decision. Defined.

(** ** Constructors *)

Definition csv (file_path : string) (row_number : Z) : RowId :=
  {| source_type := Csv; source_id := file_path; position := RowNumber row_number |}.

Definition database (db : DatabaseType) (table : string) (primary_keys : gmap string string) : RowId :=
  {| source_type := Database db; source_id := table; position := PrimaryKey primary_keys |}.

Definition kafka (topic : string) (partition offset : Z) : RowId :=
  {| source_type := Kafka; source_id := topic; position := KafkaOffset partition offset |}.

Definition s3 (bucket key : string) (index : Z) : RowId :=
  {| source_type := S3; source_id := bucket +:+ "/" +:+ key; position := ParquetIndex index |}.

(** ** Keys *)

Definition database_text (db : DatabaseType) : string :=
  match db with
  | Postgres => "postgres"
  | DB2 => "db2"
  | Oracle => "oracle"
  | SAPHANA => "saphana"
  | MySQL => "mysql"
  | Snowflake => "snowflake"
  | Databricks => "databricks"
  end.

Definition source_text (t : SourceType) : string :=
  match t with
  | Csv => "csv"
  | Database db => database_text db
  | Kafka => "kafka"
  | S3 => "s3"
  end.

Definition pk_pair (kv : string * string) : string := kv.1 +:+ "=" +:+ kv.2.

Definition position_text (p : RowPosition) : string :=
  match p with
  | RowNumber n => i64_to_string n
  | PrimaryKey keys => str_join "," (pk_pair <$> sorted_cf keys)
  | KafkaOffset p o => "p" +:+ i64_to_string p +:+ ":o" +:+ i64_to_string o
  | ParquetIndex i => "r" +:+ i64_to_string i
  end.

Definition to_key (r : RowId) : string :=
  source_text (source_type r) +:+ ":" +:+ source_id r +:+ ":" +:+ position_text (position r).

Inductive RowKeyError : Type :=
| MissingSourceType
| MissingRowNumber
| InvalidNumber
| InvalidDatabaseKey
| InvalidPrimaryKey
| MissingPartition
| MissingOffset
| MissingRowIndex
| InvalidS3Path
| UnsupportedSource (t : string).

Abbreviation KeyResult := (result RowKeyError).

Definition number (o : option Z) : KeyResult Z := ok_or o InvalidNumber.

(** The map of a primary key, one pair after the other. *)
Definition insert_pair (pk : gmap string string) (pair : string) : KeyResult (gmap string string) :=
  '(k, v) ← ok_or (split_once "=" pair) InvalidPrimaryKey;
  mret (<[k := v]> pk).

Definition database_of (t : string) : option DatabaseType :=
  if String.eqb t "db2" then Some DB2
  else if String.eqb t "postgres" then Some Postgres
  else if String.eqb t "oracle" then Some Oracle
  else if String.eqb t "hana" || String.eqb t "saphana" then Some SAPHANA
  else if String.eqb t "mysql" then Some MySQL
  else if String.eqb t "snowflake" then Some Snowflake
  else if String.eqb t "databricks" then Some Databricks
  else None.

Definition csv_of_key (rest : string) : KeyResult RowId :=
  '(path, n) ← ok_or (rsplit_once ":" rest) MissingRowNumber;
  row_number ← number (u64_from_str n);
  mret (csv path row_number).

Definition database_of_key (db : DatabaseType) (rest : string) : KeyResult RowId :=
  '(table, pk_part) ← ok_or (split_once ":" rest) InvalidDatabaseKey;
  pk ← result_foldM insert_pair ∅ (split_char "," pk_part);
  mret (database db table pk).

Definition kafka_of_key (rest : string) : KeyResult RowId :=
  match splitn 3 ":" rest with
  | [topic; p; o] =>
      partition ← number (i32_from_str (trim_start_char "p" p));
      offset ← number (i64_from_str (trim_start_char "o" o));
      mret (kafka topic partition offset)
  | [_; p] => _ ← number (i32_from_str (trim_start_char "p" p)); Err MissingOffset
  | _ => Err MissingPartition
  end.

Definition s3_of_key (rest : string) : KeyResult RowId :=
  '(bucket_key, n) ← ok_or (rsplit_once ":" rest) MissingRowIndex;
  row_index ← number (u64_from_str (trim_start_char "r" n));
  '(bucket, object_key) ← ok_or (split_once "/" bucket_key) InvalidS3Path;
  mret (s3 bucket object_key row_index).

Definition from_key (key : string) : KeyResult RowId :=
  '(t, rest) ← ok_or (split_once ":" key) MissingSourceType;
  if String.eqb t "csv" then csv_of_key rest
  else match database_of t with
       | Some db => database_of_key db rest
       | None =>
           if String.eqb t "kafka" then kafka_of_key rest
           else if String.eqb t "s3" then s3_of_key rest
           else Err (UnsupportedSource t)
       end.

(** ** Which identifiers a key stands for *)

(** A pair of a primary key that can be told from its neighbours. *)
Definition plain_pair (kv : string * string) : bool :=
  negb (str_contains_char "=" kv.1) && negb (str_contains_char "," kv.1) &&
  negb (str_contains_char "," kv.2).

(** What the constructors build from numbers of the right width, with none of the
    separators where the parser would take them for one. *)
Definition keyable (r : RowId) : bool :=
  match source_type r, position r with
  | Csv, RowNumber n => (0 <=? n) && (n <? 2 ^ 64)
  | Database _, PrimaryKey keys =>
      negb (str_contains_char ":" (source_id r)) && bool_decide (keys ≠ ∅) &&
      forallb plain_pair (map_to_list keys)
  | Kafka, KafkaOffset p o =>
      negb (str_contains_char ":" (source_id r)) &&
      (- 2 ^ 31 <=? p) && (p <=? 2 ^ 31 - 1) && in_i64 o
  | S3, ParquetIndex i => str_contains_char "/" (source_id r) && (0 <=? i) && (i <? 2 ^ 64)
  | _, _ => false
  end.

Lemma source_text_no_colon t : str_contains_char ":" (source_text t) = false.
Proof. by destruct t as [|[]| |]. Qed.

Lemma csv_of_key_print path n :
  0 ≤ n < 2 ^ 64 → csv_of_key (path +:+ ":" +:+ i64_to_string n) = Ok (csv path n).
Proof.
  intros Hn. unfold csv_of_key.
  change (":" +:+ i64_to_string n) with (String ":" (i64_to_string n)).
  rewrite rsplit_once_app by by apply i64_to_string_no. simpl.
  by rewrite u64_from_to_string by done.
Qed.

Lemma insert_pairs_print kvs pk :
  forallb plain_pair kvs = true →
  result_foldM insert_pair pk (pk_pair <$> kvs)
  = Ok (foldl (λ m kv, <[kv.1 := kv.2]> m) pk kvs).
Proof.
  revert pk. induction kvs as [|[k v] kvs IH]; intros pk; [done|]. simpl.
  intros [Hkv Hkvs]%andb_true_iff. unfold insert_pair at 1, pk_pair at 1. simpl.
  unfold plain_pair in Hkv. simpl in Hkv. apply andb_true_iff in Hkv as [[Hk _]%andb_true_iff _].
  apply negb_true_iff in Hk.
  change ("=" +:+ v) with (String "=" v). rewrite split_once_app by done. simpl.
  by apply IH.
Qed.

Lemma foldl_insert_sorted (keys : gmap string string) :
  foldl (λ m kv, <[kv.1 := kv.2]> m) ∅ (sorted_cf keys) = keys.
Proof.
  assert (∀ l (m : gmap string string), NoDup l.*1 →
            foldl (λ m kv, <[kv.1 := kv.2]> m) m l = list_to_map l ∪ m) as Hl.
  { intros l. induction l as [|[k v] l IH]; intros m; simpl; [by rewrite (left_id ∅ _)|].
    intros [Hk Hl]%NoDup_cons. rewrite IH by done. rewrite <- insert_union_l.
    rewrite insert_union_r; [done|]. by apply not_elem_of_list_to_map. }
  rewrite Hl by (rewrite sorted_cf_perm; apply NoDup_fst_map_to_list).
  rewrite (right_id ∅ _), (list_to_map_proper (sorted_cf keys) (map_to_list keys));
    [apply list_to_map_to_list| |apply sorted_cf_perm].
  rewrite sorted_cf_perm. apply NoDup_fst_map_to_list.
Qed.

Lemma database_of_key_print db table keys :
  str_contains_char ":" table = false → keys ≠ ∅ →
  forallb plain_pair (map_to_list keys) = true →
  database_of_key db (table +:+ ":" +:+ str_join "," (pk_pair <$> sorted_cf keys))
  = Ok (database db table keys).
Proof.
  intros Ht Hne Hp. unfold database_of_key.
  change (":" +:+ str_join "," (pk_pair <$> sorted_cf keys))
    with (String ":" (str_join "," (pk_pair <$> sorted_cf keys))).
  rewrite split_once_app by done. simpl.
  assert (forallb plain_pair (sorted_cf keys) = true) as Hs.
  { apply forallb_forall. intros x Hx. apply list_elem_of_In in Hx.
    rewrite sorted_cf_perm in Hx. apply list_elem_of_In in Hx.
    by eapply forallb_forall in Hp. }
  rewrite split_char_of_join.
  - rewrite insert_pairs_print by done. simpl. by rewrite foldl_insert_sorted.
  - intros Hnil%fmap_nil_inv. apply Hne, map_to_list_empty_iff.
    by rewrite <- Permutation_nil_r, <- Hnil, sorted_cf_perm.
  - apply Forall_fmap, Forall_forall. intros [k v] Hkv. unfold compose, pk_pair. simpl.
    apply list_elem_of_In in Hkv. eapply forallb_forall in Hs; [|done].
    unfold plain_pair in Hs. simpl in Hs.
    apply andb_true_iff in Hs as [[_ Hk]%andb_true_iff Hv].
    apply negb_true_iff in Hk, Hv. rewrite !contains_char_app, Hk, Hv. done.
Qed.

Lemma kafka_of_key_print topic p o :
  str_contains_char ":" topic = false → - 2 ^ 31 ≤ p ≤ 2 ^ 31 - 1 → in_i64 o = true →
  kafka_of_key (topic +:+ ":" +:+ "p" +:+ i64_to_string p +:+ ":o" +:+ i64_to_string o)
  = Ok (kafka topic p o).
Proof.
  intros Ht Hp Ho. unfold kafka_of_key. cbn [splitn].
  change (":" +:+ "p" +:+ ?x) with (String ":" (String "p" x)).
  rewrite split_once_app by done.
  change (String "p" (i64_to_string p +:+ ":o" +:+ ?x))
    with (String "p" (i64_to_string p) +:+ String ":" (String "o" x)).
  rewrite split_once_app by (simpl; by apply i64_to_string_no).
  simpl. rewrite !trim_start_char_plain by by apply i64_to_string_no.
  rewrite i32_from_to_string by done. simpl. by rewrite i64_from_to_string.
Qed.

Lemma s3_of_key_print id i :
  str_contains_char "/" id = true → 0 ≤ i < 2 ^ 64 →
  s3_of_key (id +:+ ":" +:+ "r" +:+ i64_to_string i)
  = Ok {| source_type := S3; source_id := id; position := ParquetIndex i |}.
Proof.
  intros Hid Hi. unfold s3_of_key.
  change (":" +:+ "r" +:+ i64_to_string i) with (String ":" (String "r" (i64_to_string i))).
  rewrite rsplit_once_app by (simpl; by apply i64_to_string_no). simpl.
  rewrite trim_start_char_plain by by apply i64_to_string_no.
  rewrite u64_from_to_string by done. simpl.
  destruct (find_char "/" id) as [n|] eqn:En; [|apply find_char_None in En; congruence].
  destruct (find_char_Some _ _ _ En) as (a & b & -> & <- & Ha).
  by rewrite split_once_app by done.
Qed.

(** C28: the key of a row is read back as that row: [from_key] inverts [to_key] on every
    identifier with the fields its source calls for, unless a text that ends at a
    separator has that separator in it.  In particular two such rows never share a
    key of the row index. *)
Theorem row_key_roundtrip r : keyable r = true → from_key (to_key r) = Ok r.
Proof.
  destruct r as [t id pos]. unfold keyable, from_key, to_key. simpl. intros Hk.
  change (":" +:+ id +:+ ?x) with (String ":" (id +:+ x)).
  rewrite split_once_app by apply source_text_no_colon. simpl.
  destruct t as [|db| |], pos as [n|keys|p o|i]; try done; simpl in *.
  - apply csv_of_key_print. lia.
  - apply andb_true_iff in Hk as [[Ht Hne]%andb_true_iff Hp]. apply negb_true_iff in Ht.
    apply bool_decide_eq_true in Hne.
    destruct db; simpl; by apply database_of_key_print.
  - apply andb_true_iff in Hk as [[[Ht Hp1]%andb_true_iff Hp2]%andb_true_iff Ho].
    apply negb_true_iff in Ht. apply kafka_of_key_print; [done|lia|done].
  - apply andb_true_iff in Hk as [[Ht Hp1]%andb_true_iff Hp2]. apply s3_of_key_print; [done|lia].
Qed.

(** * The store of row lineage

    Models the events of [core/lineage/row_level.rs] and their store in RocksDB,
    [storage/row_lineage_store.rs] of the coordinator: the buffer of writes, the seven column
    families, the statistics of jobs, the queries, and the erasure of a user's or a
    tenant's data.  The encodings (JSON, bincode, zstd) and which operations of the
    database fail are parameters.  A batch of writes is applied as a whole; the reads
    made while it is built see the database without it. *)

From S2P Require Import Effects F64 WfRouting Gdpr.

Local Open Scope Z_scope.

#[global] Instance DatabaseType_countable : Countable DatabaseType.
Proof.
  refine (inj_countable'
    (λ d, match d with Postgres => 0 | DB2 => 1 | Oracle => 2 | SAPHANA => 3 | MySQL => 4
          | Snowflake => 5 | Databricks => 6 end)%nat
    (λ n, match n with 0 => Postgres | 1 => DB2 | 2 => Oracle | 3 => SAPHANA | 4 => MySQL
          | 5 => Snowflake | _ => Databricks end)%nat _).
  by intros [].
Defined.

#[global] Instance SourceType_countable : Countable SourceType.
Proof.
  refine (inj_countable'
    (λ t, match t with Csv => inl 0%nat | Kafka => inl 1%nat | S3 => inl 2%nat
          | Database d => inr d end)
    (λ x, match x with inl 0%nat => Csv | inl 1%nat => Kafka | inl _ => S3
          | inr d => Database d end) _).
  by intros [].
Defined.

#[global] Instance RowPosition_countable : Countable RowPosition.
Proof.
  refine (inj_countable'
    (λ p, match p with RowNumber n => inl (inl n) | PrimaryKey m => inl (inr m)
          | KafkaOffset p o => inr (inl (p, o)) | ParquetIndex i => inr (inr i) end)
    (λ x, match x with inl (inl n) => RowNumber n | inl (inr m) => PrimaryKey m
          | inr (inl (p, o)) => KafkaOffset p o | inr (inr i) => ParquetIndex i end) _).
  by intros [].
Defined.

#[global] Instance RowId_countable : Countable RowId.
Proof.
  refine (inj_countable' (λ r, (source_type r, source_id r, position r))
    (λ '(t, s, p), {| source_type := t; source_id := s; position := p |}) _).
  by intros [].
Defined.

(** ** Events *)

Record QualityViolation : Type := {
  violated_rule : string;
  field : string;
  constraint : string;
  message : string;
}.

Inductive ProcessingOutcome : Type :=
| Processed (output_location : string)
| Filtered (reason rule_id : string)
| ValidationFailed (violations : list QualityViolation)
| Failed (error : string).

Record RowTransformation : Type := {
  row_transform_type : string;
  fields : list string;
  before_values : option (gmap string Json);
  after_values : option (gmap string Json);
  row_applied_at : Z;
}.

Record RowLineageEvent : Type := {
  row_id : RowId;
  batch_id : string;
  job_id : string;
  step_id : option string;
  timestamp : Z;
  outcome : ProcessingOutcome;
  transformations : list RowTransformation;
  output_row_id : option RowId;
  row_tenant : string;
  row_correlation : option string;
}.

Record JobStatistics : Type := {
  stats_job : string;
  total_rows : Z;
  success_count : Z;
  filtered_count : Z;
  failed_count : Z;
  filter_reasons : gmap string Z;
  avg_processing_time_ms : f64;
  start_time : Z;
  end_time : option Z;
}.

Record JourneyStep : Type := {
  activity : string;
  step_timestamp : Z;
  duration_ms : Z;
  step_outcome : ProcessingOutcome;
}.

Record RowJourney : Type := {
  journey_source : RowId;
  steps : list JourneyStep;
  destination : option RowId;
  total_duration_ms : Z;
}.

Inductive RowError : Type :=
| RowDbFailed
| RowDecodeFailed
| RowCompressFailed
| IncompatibleVersion (v : SerializationVersion)
| UnsupportedSubject (id_type : string).

Definition unwrapped {A} (v : VersionedData A) : result RowError A :=
  match unwrap_current v with
  | Ok x => Ok x
  | Err w => Err (IncompatibleVersion w)
  | Panic => Panic
  end.

(** ** Encodings *)

Class RowDb : Type := {
  versioned_to_json : VersionedData (list RowLineageEvent) → string;
  versioned_of_json : string → option (VersionedData (list RowLineageEvent));
  events_of_json : string → option (list RowLineageEvent);
  versioned_of_bincode : string → option (VersionedData (list RowLineageEvent));
  events_of_bincode : string → option (list RowLineageEvent);
  zstd_encode : string → option string;
  zstd_decode : string → option string;
  ids_to_bincode : list RowId → string;
  ids_of_bincode : string → option (list RowId);
  texts_to_bincode : list string → string;
  filtered_to_bincode : RowId * string → string;
  filtered_of_bincode : string → option (RowId * string);
  stats_to_bincode : JobStatistics → string;
  stats_of_bincode : string → option JobStatistics;
  (** whether the operation of this number succeeds *)
  row_db_ok : nat → bool;
  (** how an error prints *)
  row_error_text : RowError → string;
}.

(** The first four bytes of compressed data. *)
Definition ZSTD_MAGIC : string :=
  String "040" (String "181" (String "047" (String "253" EmptyString))).

Definition looks_like_zstd (bytes : string) : bool := starts_with bytes ZSTD_MAGIC.

(** An event without the values of its transformations: their floats may lose a
    digit in JSON. *)
Definition plain_transformation (t : RowTransformation) : string * list string * Z :=
  (row_transform_type t, fields t, row_applied_at t).

Definition plain_event (e : RowLineageEvent) :=
  (row_id e, batch_id e, job_id e, step_id e, timestamp e, outcome e,
   plain_transformation <$> transformations e, output_row_id e, row_tenant e, row_correlation e).

(** What the encodings promise: JSON keeps everything but digits of floats and is an
    object, the others keep everything, and compressed data has its mark. *)
Class RowDbOk `{RowDb} : Prop := {
  json_events es : ∃ v, versioned_of_json (versioned_to_json (wrap es)) = Some v ∧
    version v = V1 ∧ plain_event <$> data v = plain_event <$> es;
  json_object v : starts_with (versioned_to_json v) "{" = true;
  zstd_total s : is_Some (zstd_encode s);
  zstd_marked s z : zstd_encode s = Some z → looks_like_zstd z = true ∧ zstd_decode z = Some s;
  bincode_ids ids : ids_of_bincode (ids_to_bincode ids) = Some ids;
  bincode_filtered x : filtered_of_bincode (filtered_to_bincode x) = Some x;
  bincode_stats st : stats_of_bincode (stats_to_bincode st) = Some st;
}.

Section Store.
Context (overflow_checks : bool) `{RowDb}.

Definition serialize_row_events (es : list RowLineageEvent) : result RowError string :=
  let serialized := versioned_to_json (wrap es) in
  if 1024 <? str_size serialized then ok_or (zstd_encode serialized) RowCompressFailed
  else Ok serialized.

Definition deserialize_row_events_payload (bytes : string) : result RowError (list RowLineageEvent) :=
  match versioned_of_json bytes with
  | Some v => unwrapped v
  | None =>
      match events_of_json bytes with
      | Some es => Ok es
      | None =>
          match versioned_of_bincode bytes with
          | Some v => unwrapped v
          | None => ok_or (events_of_bincode bytes) RowDecodeFailed
          end
      end
  end.

Definition deserialize_row_events (bytes : string) : result RowError (list RowLineageEvent) :=
  if looks_like_zstd bytes then
    decompressed ← ok_or (zstd_decode bytes) RowDecodeFailed;
    match deserialize_row_events_payload decompressed with
    | Err _ => Err RowDecodeFailed
    | r => r
    end
  else deserialize_row_events_payload bytes.

(** ** The store *)

Record RowLineageStore : Type := {
  by_row : gmap string string;
  by_batch : gmap string string;
  by_job : gmap string string;
  filtered : gmap string string;
  stats : gmap string string;
  row_transforms : gmap string string;
  by_tenant : gmap string string;
  write_buffer : list RowLineageEvent;
  row_ops : nat;
}.

Definition max_buffer_size : nat := 1000.

Definition new_row_store : RowLineageStore :=
  {| by_row := ∅; by_batch := ∅; by_job := ∅; filtered := ∅; stats := ∅; row_transforms := ∅;
     by_tenant := ∅; write_buffer := []; row_ops := 0 |}.

Definition set_buffer (b : list RowLineageEvent) (s : RowLineageStore) : RowLineageStore :=
  {| by_row := by_row s; by_batch := by_batch s; by_job := by_job s; filtered := filtered s;
     stats := stats s; row_transforms := row_transforms s; by_tenant := by_tenant s;
     write_buffer := b; row_ops := row_ops s |}.

Abbreviation RowM := (method RowLineageStore RowError).

Definition row_io : RowM unit := λ s,
  ({| by_row := by_row s; by_batch := by_batch s; by_job := by_job s; filtered := filtered s;
      stats := stats s; row_transforms := row_transforms s; by_tenant := by_tenant s;
      write_buffer := write_buffer s; row_ops := S (row_ops s) |},
   if row_db_ok (row_ops s) then Ok tt else Err RowDbFailed).

(** ** Writes *)

(** What the loop of [write_events_internal] collects. *)
Record Gathered : Type := {
  new_rows : gmap string string;
  job_stats : gmap string JobStatistics;
  batch_rows : gmap string (list RowId);
  job_batches : gmap string (list string);
  tenant_rows : gmap string (list RowId);
  filtered_rows : list (string * (RowId * string));
}.

Definition nothing_gathered : Gathered :=
  {| new_rows := ∅; job_stats := ∅; batch_rows := ∅; job_batches := ∅; tenant_rows := ∅;
     filtered_rows := [] |}.

(** [map.entry(k).or_default().push(x)]. *)
Definition push_at {A} (k : string) (x : A) (m : gmap string (list A)) : gmap string (list A) :=
  <[k := default [] (m !! k) ++ [x]]> m.

Definition append_event_to_row_index (rows : gmap string string) (id : RowId) (e : RowLineageEvent)
    : RowM (gmap string string) :=
  _ ← row_io;
  existing ← gets (λ s, by_row s !! to_key id);
  let row_events := match existing with
                    | Some d => ok_or_empty (deserialize_row_events d)
                    | None => []
                    end in
  data ← lift (serialize_row_events (row_events ++ [e]));
  mret (<[to_key id := data]> rows).

Definition new_job_statistics (job : string) (start : Z) : JobStatistics :=
  {| stats_job := job; total_rows := 0; success_count := 0; filtered_count := 0;
     failed_count := 0; filter_reasons := ∅; avg_processing_time_ms := f64_zero;
     start_time := start; end_time := None |}.

Definition earlier_start (start : Z) (st : JobStatistics) : JobStatistics :=
  {| stats_job := stats_job st; total_rows := total_rows st; success_count := success_count st;
     filtered_count := filtered_count st; failed_count := failed_count st;
     filter_reasons := filter_reasons st; avg_processing_time_ms := avg_processing_time_ms st;
     start_time := if start <? start_time st then start else start_time st;
     end_time := end_time st |}.

Definition load_job_statistics (job : string) (start : Z) : RowM JobStatistics :=
  _ ← row_io;
  existing ← gets (λ s, stats s !! job);
  match existing with
  | Some d => st ← lift (ok_or (stats_of_bincode d) RowDecodeFailed); mret (earlier_start start st)
  | None => mret (new_job_statistics job start)
  end.

(** [x += 1] on a [u64]. *)
Definition u64_incr (x : Z) : result RowError Z :=
  if x + 1 <? 2 ^ 64 then Ok (x + 1) else if overflow_checks then Panic else Ok ((x + 1) mod 2 ^ 64).

(** The update of the statistics for one event. *)
Definition count_event (st : JobStatistics) (e : RowLineageEvent) : result RowError JobStatistics :=
  total ← u64_incr (total_rows st);
  let st := earlier_start (timestamp e) st in
  let counted ok f bad reasons :=
    {| stats_job := stats_job st; total_rows := total; success_count := ok; filtered_count := f;
       failed_count := bad; filter_reasons := reasons;
       avg_processing_time_ms := avg_processing_time_ms st; start_time := start_time st;
       end_time := end_time st |} in
  match outcome e with
  | Processed _ =>
      ok ← u64_incr (success_count st);
      mret (counted ok (filtered_count st) (failed_count st) (filter_reasons st))
  | Filtered reason _ =>
      f ← u64_incr (filtered_count st);
      n ← u64_incr (default 0 (filter_reasons st !! reason));
      mret (counted (success_count st) f (failed_count st) (<[reason := n]> (filter_reasons st)))
  | Failed _ | ValidationFailed _ =>
      bad ← u64_incr (failed_count st);
      mret (counted (success_count st) (filtered_count st) bad (filter_reasons st))
  end.

Definition filtered_key (job : string) (t : Z) : string :=
  job +:+ ":" +:+ i64_to_string (t / 10 ^ 9).

(** The rows of one event and, for the output, of another. *)
Definition index_rows (rows : gmap string string) (e : RowLineageEvent) : RowM (gmap string string) :=
  rows ← append_event_to_row_index rows (row_id e) e;
  match output_row_id e with
  | Some out => append_event_to_row_index rows out e
  | None => mret rows
  end.

Definition gather_event (g : Gathered) (e : RowLineageEvent) : RowM Gathered :=
  rows ← index_rows (new_rows g) e;
  st ← match job_stats g !! job_id e with
       | Some st => mret st
       | None => load_job_statistics (job_id e) (timestamp e)
       end;
  st ← lift (count_event st e);
  mret {| new_rows := rows;
          job_stats := <[job_id e := st]> (job_stats g);
          batch_rows := push_at (batch_id e) (row_id e) (batch_rows g);
          job_batches := push_at (job_id e) (batch_id e) (job_batches g);
          tenant_rows := push_at (row_tenant e) (row_id e) (tenant_rows g);
          filtered_rows :=
            match outcome e with
            | Filtered reason _ =>
                filtered_rows g ++ [(filtered_key (job_id e) (timestamp e), (row_id e, reason))]
            | _ => filtered_rows g
            end |}.

(** The identifiers of a tenant with the new ones behind. *)
Definition merge_tenant (x : string * list RowId) : RowM (string * string) :=
  _ ← row_io;
  existing ← gets (λ s, by_tenant s !! x.1);
  let all_row_ids := match existing with
                     | Some d => default [] (ids_of_bincode d)
                     | None => []
                     end ++ x.2 in
  mret (x.1, ids_to_bincode all_row_ids).

(** The writes of the batch. *)
Definition apply_gathered (g : Gathered) (tenants : list (string * string)) (s : RowLineageStore)
    : RowLineageStore :=
  {| by_row := new_rows g ∪ by_row s;
     by_batch := (ids_to_bincode <$> batch_rows g) ∪ by_batch s;
     by_job := (texts_to_bincode ∘ btree_set <$> job_batches g) ∪ by_job s;
     filtered := foldl (λ m x, <[x.1 := filtered_to_bincode x.2]> m) (filtered s) (filtered_rows g);
     stats := (stats_to_bincode <$> job_stats g) ∪ stats s;
     row_transforms := row_transforms s;
     by_tenant := list_to_map tenants ∪ by_tenant s;
     write_buffer := write_buffer s; row_ops := row_ops s |}.

Definition write_events_internal (es : list RowLineageEvent) : RowM unit :=
  match es with
  | [] => mret tt
  | _ =>
      g ← method_foldM gather_event nothing_gathered es;
      tenants ← method_mapM merge_tenant (map_to_list (tenant_rows g));
      _ ← row_io;
      modify (apply_gathered g tenants)
  end.

Definition flush_buffer : RowM unit :=
  buffer ← gets write_buffer;
  match buffer with
  | [] => mret tt
  | _ => _ ← modify (set_buffer []); write_events_internal buffer
  end.

Definition write_row (e : RowLineageEvent) : RowM unit :=
  _ ← modify (λ s, set_buffer (write_buffer s ++ [e]) s);
  buffer ← gets write_buffer;
  if (max_buffer_size <=? length buffer)%nat
  then _ ← modify (set_buffer []); write_events_internal buffer
  else mret tt.

Definition write_rows_batch (es : list RowLineageEvent) : RowM unit :=
  match es with
  | [] => mret tt
  | _ => _ ← flush_buffer; write_events_internal es
  end.

(** ** Queries *)

Definition get_row_lineage (id : RowId) : RowM (list RowLineageEvent) :=
  _ ← row_io;
  stored ← gets (λ s, by_row s !! to_key id);
  match stored with
  | Some d => lift (deserialize_row_events d)
  | None => mret []
  end.

Definition get_batch_lineage (batch : string) : RowM (list RowLineageEvent) :=
  _ ← row_io;
  stored ← gets (λ s, by_batch s !! batch);
  match stored with
  | Some d =>
      ids ← lift (ok_or (ids_of_bincode d) RowDecodeFailed);
      found ← method_mapM get_row_lineage ids;
      mret (mjoin found)
  | None => mret []
  end.

Definition get_filtered_rows (job : string) (start fin : Z) : RowM (list (RowId * string)) :=
  let prefix := job +:+ ":" in
  _ ← row_io;
  found ← gets (λ s, take_while
                  (λ kv, starts_with kv.1 prefix && str_leb kv.1 (filtered_key job fin))
                  (List.filter (λ kv, str_leb (filtered_key job start) kv.1) (sorted_cf (filtered s))));
  method_mapM (λ kv, lift (ok_or (filtered_of_bincode kv.2) RowDecodeFailed)) found.

Definition get_row_transformations (id : RowId) : RowM (list RowTransformation) :=
  es ← get_row_lineage id; mret (es ≫= transformations).

(** [(a - b).num_milliseconds() as u64]. *)
Definition millis_since (a b : Z) : Z := Z.quot (a - b) (10 ^ 6) mod 2 ^ 64.

Fixpoint journey_steps (last_time : Z) (es : list RowLineageEvent) : list JourneyStep :=
  match es with
  | [] => []
  | e :: es' =>
      {| activity := job_id e +:+ " in " +:+ batch_id e; step_timestamp := timestamp e;
         duration_ms := millis_since (timestamp e) last_time; step_outcome := outcome e |}
      :: journey_steps (timestamp e) es'
  end.

Definition trace_row_journey (id : RowId) : RowM RowJourney :=
  es ← get_row_lineage id;
  match es with
  | [] => mret {| journey_source := id; steps := []; destination := None; total_duration_ms := 0 |}
  | e :: es' =>
      let final := default e (last es) in
      mret {| journey_source := id; steps := journey_steps (timestamp e) es;
              destination := output_row_id final;
              total_duration_ms := millis_since (timestamp final) (timestamp e) |}
  end.

(** How well a key matches: as a whole, at its start, or inside. *)
Definition match_rank (query key : string) : option nat :=
  let k := to_lowercase key in
  if String.eqb k query then Some 0%nat
  else if starts_with k query then Some 1%nat
  else if bool_decide (is_Some (str_find k query)) then Some 2%nat
  else None.

(** The exact, prefix and other matches found so far; the keys of the index are
    distinct, so none is skipped as seen before. *)
Definition collect_match (query : string) (limit : nat) (acc : list RowId * list RowId * list RowId)
    (key : string) : list RowId * list RowId * list RowId :=
  let '(exact, prefix, inside) := acc in
  match match_rank query key with
  | None => acc
  | Some rank =>
      if (length exact + length prefix + length inside <? limit)%nat then
        match from_key key with
        | Ok id =>
            match rank with
            | O => (exact ++ [id], prefix, inside)
            | 1%nat => (exact, prefix ++ [id], inside)
            | _ => (exact, prefix, inside ++ [id])
            end
        | _ => acc
        end
      else acc
  end.

Definition search_row_keys (query : string) (limit : nat) : RowM (list RowId) :=
  let q := to_lowercase (trim query) in
  if String.eqb q "" || (limit =? 0)%nat then mret []
  else
    _ ← row_io;
    keys ← gets (λ s, (sorted_cf (by_row s)).*1);
    let '(exact, prefix, inside) := foldl (collect_match q limit) ([], [], []) keys in
    mret (take limit (exact ++ prefix ++ inside)).

Definition get_job_stats (job : string) (now : Z) : RowM JobStatistics :=
  _ ← row_io;
  stored ← gets (λ s, stats s !! job);
  match stored with
  | Some d => lift (ok_or (stats_of_bincode d) RowDecodeFailed)
  | None => mret (new_job_statistics job now)
  end.

(** ** Erasure *)

Definition get_tenant_row_ids (t : string) : RowM (list RowId) :=
  _ ← row_io;
  stored ← gets (λ s, by_tenant s !! t);
  match stored with
  | Some d => lift (ok_or (ids_of_bincode d) RowDecodeFailed)
  | None => mret []
  end.

Definition count_tenant_records (t : string) : RowM Z :=
  ids ← get_tenant_row_ids t; mret (Z.of_nat (length ids)).

Definition of_user (u : string) (e : RowLineageEvent) : bool :=
  bool_decide (row_correlation e = Some u) || String.eqb (row_tenant e) u.

(** Every row of the index with its events. *)
Definition all_row_events : RowM (list (string * list RowLineageEvent)) :=
  _ ← row_io;
  rows ← gets (λ s, sorted_cf (by_row s));
  method_mapM (λ kv, es ← lift (deserialize_row_events kv.2); mret (kv.1, es)) rows.

Definition count_user_records (u : string) : RowM Z :=
  rows ← all_row_events;
  mret (Z.of_nat (sum_list_with (λ kv, length (List.filter (of_user u) kv.2)) rows)).

(** What erasing a user collects: the new value of a row (none: deleted), the number
    of events removed, and the rows to take out of the index of each tenant. *)
Record Erased : Type := {
  changed_rows : gmap string (option string);
  deleted_events : nat;
  removed_row_ids : gmap string (gset RowId);
}.

Definition nothing_erased : Erased :=
  {| changed_rows := ∅; deleted_events := 0; removed_row_ids := ∅ |}.

Definition remove_id (id : RowId) (m : gmap string (gset RowId)) (t : string)
    : gmap string (gset RowId) := <[t := {[id]} ∪ default ∅ (m !! t)]> m.

Definition erase_row (u : string) (dry : bool) (x : Erased) (kv : string * list RowLineageEvent)
    : result RowError Erased :=
  let removed := List.filter (of_user u) kv.2 in
  let kept := List.filter (λ e, negb (of_user u e)) kv.2 in
  match removed with
  | [] => Ok x
  | example :: _ =>
      let n := (deleted_events x + length removed)%nat in
      if dry then
        Ok {| changed_rows := changed_rows x; deleted_events := n;
              removed_row_ids := removed_row_ids x |}
      else
        match kept with
        | [] =>
            Ok {| changed_rows := <[kv.1 := None]> (changed_rows x); deleted_events := n;
                  removed_row_ids := foldl (remove_id (row_id example)) (removed_row_ids x)
                                       (row_tenant <$> removed) |}
        | _ =>
            data ← serialize_row_events kept;
            Ok {| changed_rows := <[kv.1 := Some data]> (changed_rows x); deleted_events := n;
                  removed_row_ids := removed_row_ids x |}
        end
  end.

(** The new index of a tenant, when it has one. *)
Definition shrink_tenant (x : string * gset RowId) : RowM (option (string * option string)) :=
  _ ← row_io;
  stored ← gets (λ s, by_tenant s !! x.1);
  match stored with
  | None => mret None
  | Some d =>
      match filter (λ id, id ∉ x.2) (default [] (ids_of_bincode d)) with
      | [] => mret (Some (x.1, None))
      | ids => mret (Some (x.1, Some (ids_to_bincode ids)))
      end
  end.

Definition apply_erasure (ch : gmap string (option string)) (tenants : list (string * option string))
    (s : RowLineageStore) : RowLineageStore :=
  {| by_row := apply_changes ch (by_row s); by_batch := by_batch s; by_job := by_job s;
     filtered := filtered s; stats := stats s;
     row_transforms := apply_changes (omap (λ c, match c with None => Some None | Some _ => None end) ch)
                         (row_transforms s);
     by_tenant := apply_changes (list_to_map tenants) (by_tenant s);
     write_buffer := write_buffer s; row_ops := row_ops s |}.

Definition erase_user_records (u : string) (dry : bool) : RowM Z :=
  rows ← all_row_events;
  x ← lift (result_foldM (erase_row u dry) nothing_erased rows);
  if dry then mret (Z.of_nat (deleted_events x))
  else
    tenants ← method_mapM shrink_tenant (map_to_list (removed_row_ids x));
    _ ← row_io;
    _ ← modify (apply_erasure (changed_rows x) (omap id tenants));
    mret (Z.of_nat (deleted_events x)).

Definition delete_tenant (t : string) (ids : list RowId) (s : RowLineageStore) : RowLineageStore :=
  {| by_row := delete_keys (to_key <$> ids) (by_row s); by_batch := by_batch s; by_job := by_job s;
     filtered := filtered s; stats := stats s;
     row_transforms := delete_keys (to_key <$> ids) (row_transforms s);
     by_tenant := delete t (by_tenant s);
     write_buffer := write_buffer s; row_ops := row_ops s |}.

Definition erase_row_subject (r : ErasureRequest) (st : Stamp) : RowM ErasureResult :=
  let report b := mret (one_report "row_lineage" r st b) in
  let subject := subject_id (data_subject r) in
  if String.eqb (id_type (data_subject r)) "user_id" then
    if dry_run r then
      n ← count_user_records subject;
      report (dry_report "row_lineage" "row_lineage_events_would_be_deleted" n)
    else
      n ← erase_user_records subject false;
      report (with_detail "row_lineage_events" n (backend_succeeded "row_lineage" n HardDelete))
  else if negb (String.eqb (id_type (data_subject r)) "tenant_id") then
    report (unsupported_report "row_lineage" (id_type (data_subject r)))
  else if dry_run r then
    n ← count_tenant_records subject;
    report (dry_report "row_lineage" "row_lineage_events_would_be_deleted" n)
  else
    ids ← get_tenant_row_ids subject;
    if (length ids =? 0)%nat then
      report (with_warning "No data found for tenant" (backend_succeeded "row_lineage" 0 HardDelete))
    else
      let n := Z.of_nat (length ids) in
      _ ← row_io;
      _ ← modify (delete_tenant subject ids);
      report (with_detail "tenant_index_entries" 1
                (with_detail "row_lineage_events" n (backend_succeeded "row_lineage" n HardDelete))).

Definition count_row_subject (d : DataSubjectId) : RowM Z :=
  if String.eqb (id_type d) "tenant_id" then count_tenant_records (subject_id d)
  else if String.eqb (id_type d) "user_id" then count_user_records (subject_id d)
  else fail (UnsupportedSubject (id_type d)).

Definition row_breakdown (d : DataSubjectId) : RowM (gmap string Z) :=
  n ← count_row_subject d; mret {["row_lineage_events" := n]}.
End Store.

#[export] Instance row_erasure `{RowDb} : DataErasure := {|
  Backend := RowLineageStore;
  BackendError := RowError;
  backend_error_text := row_error_text;
  erase_data_subject := erase_row_subject;
  count_data_subject_records := count_row_subject;
  get_data_breakdown := row_breakdown;
|}.
