(* ===== verification/RowLineageFacts.v ===== *)
(** * What the store of row lineage records

    The invariant of the store, what a batch of events adds to the index of rows and
    to the statistics of jobs, and that a batch that fails adds nothing. *)

From Stdlib Require Import ZArith Lia Ascii.
From stdpp Require Import base numbers option strings gmap list.
From S2P Require Import Prelude RustStd RustText Effects KvScan RowLineage Gdpr.

Local Open Scope Z_scope.

Section Facts.
Context (overflow_checks : bool) `{RowDbOk}.

(** The events under a key. *)
Definition rows_at (s : RowLineageStore) (k : string) : list RowLineageEvent :=
  list_at deserialize_row_events (by_row s) k.

Definition plain_rows (s : RowLineageStore) (k : string) := plain_event <$> rows_at s k.

(** The statistics of a job. *)
Definition stats_at (s : RowLineageStore) (job : string) : option JobStatistics :=
  stats s !! job ≫= stats_of_bincode.

Definition tenant_ids (s : RowLineageStore) (t : string) : list RowId :=
  match by_tenant s !! t with
  | Some d => default [] (ids_of_bincode d)
  | None => []
  end.

(** The counters of a job add up. *)
Definition stats_ok (st : JobStatistics) : Prop :=
  0 ≤ success_count st ∧ 0 ≤ filtered_count st ∧ 0 ≤ failed_count st ∧
  total_rows st = success_count st + filtered_count st + failed_count st ∧
  map_Forall (λ _ n, 0 ≤ n ≤ filtered_count st) (filter_reasons st).

(** Everything in the store can be read. *)
Record row_store_ok (s : RowLineageStore) : Prop := {
  rows_decode : decodes deserialize_row_events (by_row s);
  tenants_decode t d : by_tenant s !! t = Some d → is_Some (ids_of_bincode d);
  stats_decode job d : stats s !! job = Some d → ∃ st, stats_of_bincode d = Some st ∧ stats_ok st;
}.

(** The same data, with operations of the database in between. *)
Definition same_data (s s' : RowLineageStore) : Prop :=
  by_row s' = by_row s ∧ by_batch s' = by_batch s ∧ by_job s' = by_job s ∧
  filtered s' = filtered s ∧ stats s' = stats s ∧ row_transforms s' = row_transforms s ∧
  by_tenant s' = by_tenant s ∧ write_buffer s' = write_buffer s.

#[global] Instance same_data_equiv : Equivalence same_data.
Proof.
  split; [by intros s|intros s1 s2 H1; unfold same_data in *; naive_solver|].
  intros s1 s2 s3 H1 H2. unfold same_data in *. destruct_and!. split_and!; congruence.
Qed.

Lemma same_data_rows s s' k : same_data s s' → rows_at s' k = rows_at s k.
Proof. intros (Hr & _). unfold rows_at. by rewrite Hr. Qed.

Lemma same_data_ok s s' : same_data s s' → row_store_ok s → row_store_ok s'.
Proof.
  intros (Hr & _ & _ & _ & Hst & _ & Ht & _) []. split; rewrite ?Hr, ?Hst, ?Ht; done.
Qed.

(** ** Encodings *)

Lemma json_not_zstd v : looks_like_zstd (versioned_to_json v) = false.
Proof.
  pose proof (json_object v) as Hj. apply starts_with_iff in Hj as [r ->].
  reflexivity.
Qed.

Lemma deserialize_json es :
  ∃ es', deserialize_row_events_payload (versioned_to_json (wrap es)) = Ok es' ∧
    plain_event <$> es' = plain_event <$> es.
Proof.
  destruct (json_events es) as (v & Hv & _ & Hd). exists (data v). split; [|done].
  unfold deserialize_row_events_payload, unwrapped. by rewrite Hv, unwrap_current_Ok.
Qed.

Lemma serialize_roundtrip es :
  ∃ d es', serialize_row_events es = Ok d ∧ deserialize_row_events d = Ok es' ∧
    plain_event <$> es' = plain_event <$> es.
Proof.
  destruct (deserialize_json es) as (es' & Hes' & Hp). unfold serialize_row_events.
  case_match.
  - destruct (zstd_total (versioned_to_json (wrap es))) as [z Hz].
    destruct (zstd_marked _ _ Hz) as [Hm Hdec]. exists z, es'. rewrite Hz. split_and!; [done| |done].
    unfold deserialize_row_events. rewrite Hm, Hdec. simpl. by rewrite Hes'.
  - eexists _, es'. split_and!; [done| |done].
    unfold deserialize_row_events. by rewrite json_not_zstd.
Qed.

(** ** Reads *)

(** The only error that is left when everything can be read. *)
Definition db_failed (e : RowError) : Prop := e = RowDbFailed.

Lemma row_io_reads s0 : reads (same_data s0) db_failed (λ _, True) row_io.
Proof. intros s Hs. split; [done|]. unfold row_io. simpl. by destruct (row_db_ok _). Qed.

Lemma reads_stored {A} s0 (f : RowLineageStore → A) (P : A → Prop) :
  (∀ s, same_data s0 s → f s = f s0) → P (f s0) →
  reads (same_data s0) db_failed P (gets f).
Proof. intros Hf HP s Hs. split; [done|]. simpl. by rewrite Hf. Qed.

(** Follow an operation that only reads. *)
Lemma row_reads_io {A} s0 (Q : A → Prop) (m : method RowLineageStore RowError A) :
  reads (same_data s0) db_failed Q m → reads (same_data s0) db_failed Q (_ ← row_io; m).
Proof. intros Hm. eapply reads_bind; [apply row_io_reads|done]. Qed.

Lemma reads_field {A B} s0 (f : RowLineageStore → A) (Q : B → Prop)
    (m : A → method RowLineageStore RowError B) :
  (∀ s, same_data s0 s → f s = f s0) → reads (same_data s0) db_failed Q (m (f s0)) →
  reads (same_data s0) db_failed Q (x ← gets f; m x).
Proof.
  intros Hf Hm. eapply (reads_bind _ _ (λ x, x = f s0)); [by apply reads_stored|].
  by intros x ->.
Qed.

Lemma reads_lift_ok {A} s0 (Q : A → Prop) (r : result RowError A) a :
  r = Ok a → Q a → reads (same_data s0) db_failed Q (lift r).
Proof. intros -> HQ s Hs. done. Qed.

(** ** One batch *)

Definition touches (k : string) (e : RowLineageEvent) : Prop :=
  to_key (row_id e) = k ∨ to_key <$> output_row_id e = Some k.

#[global] Instance touches_dec k e : Decision (touches k e).
Proof. unfold touches. apply _. Defined.

(** The rows a batch writes: the old events and the last new one. *)
Definition rows_gathered (s0 : RowLineageStore) (l : list RowLineageEvent) (rows : gmap string string)
    : Prop :=
  ∀ k, match last (filter (touches k) l) with
       | None => rows !! k = None
       | Some e => ∃ d es, rows !! k = Some d ∧ deserialize_row_events d = Ok es ∧
           plain_event <$> es = plain_rows s0 k ++ [plain_event e]
       end.

Lemma append_event_spec s0 rows id e :
  reads (same_data s0) db_failed
    (λ rows', ∃ d es, rows' = <[to_key id := d]> rows ∧ deserialize_row_events d = Ok es ∧
       plain_event <$> es = plain_rows s0 (to_key id) ++ [plain_event e])
    (append_event_to_row_index rows id e).
Proof.
  unfold append_event_to_row_index. apply row_reads_io.
  apply reads_field; [by intros s (-> & _)|].
  change (match by_row s0 !! to_key id with Some d => _ | None => _ end) with (rows_at s0 (to_key id)).
  destruct (serialize_roundtrip (rows_at s0 (to_key id) ++ [e])) as (d & es & Hd & Hes & Hp).
  eapply (reads_bind _ _ (λ d', d' = d)); [by eapply reads_lift_ok|]. intros ? ->.
  apply reads_ret. exists d, es. split_and!; [done..|]. rewrite Hp. by rewrite fmap_app.
Qed.

Lemma index_rows_spec s0 l rows e :
  rows_gathered s0 l rows →
  reads (same_data s0) db_failed (rows_gathered s0 (l ++ [e])) (index_rows rows e).
Proof.
  intros Hl. unfold index_rows.
  eapply reads_bind; [apply append_event_spec|].
  intros rows1 (d1 & es1 & -> & Hd1 & Hp1).
  assert (∀ k, filter (touches k) (l ++ [e]) =
            filter (touches k) l ++ (if decide (touches k e) then [e] else [])) as Hf.
  { intros k. rewrite filter_app, filter_cons, filter_nil. done. }
  destruct (output_row_id e) as [out|] eqn:Eo.
  - eapply reads_weaken; [|apply append_event_spec].
    intros rows2 (d2 & es2 & -> & Hd2 & Hp2) k. rewrite Hf. specialize (Hl k).
    case_decide as Ht.
    + rewrite last_snoc. destruct (decide (to_key out = k)) as [<-|Hk].
      * exists d2, es2. by rewrite lookup_insert_eq.
      * destruct Ht as [Ht|Ht]; [|rewrite Eo in Ht; simplify_eq/=].
        rewrite lookup_insert_ne by done. rewrite <- Ht in *. exists d1, es1.
        by rewrite lookup_insert_eq.
    + rewrite (right_id_L [] (++)). rewrite !lookup_insert_ne; [done| |].
      * intros Hk. apply Ht. by left.
      * intros Hk. apply Ht. right. rewrite Eo. simpl. by rewrite Hk.
  - apply reads_ret. intros k. rewrite Hf. specialize (Hl k). case_decide as Ht.
    + rewrite last_snoc. destruct Ht as [<-|Ht]; [|by rewrite Eo in Ht].
      exists d1, es1. by rewrite lookup_insert_eq.
    + rewrite (right_id_L [] (++)), lookup_insert_ne; [done|]. intros Hk. apply Ht. by left.
Qed.

(** ** Statistics *)

Definition is_success (e : RowLineageEvent) : bool :=
  match outcome e with Processed _ => true | _ => false end.
Definition is_filtered (e : RowLineageEvent) : bool :=
  match outcome e with Filtered _ _ => true | _ => false end.
Definition filtered_for (why : string) (e : RowLineageEvent) : bool :=
  match outcome e with Filtered reason _ => String.eqb reason why | _ => false end.

Definition tally (p : RowLineageEvent → bool) (l : list RowLineageEvent) : Z :=
  Z.of_nat (length (List.filter p l)).

(** The second statistics count the first and the events. *)
Record adds (st0 : JobStatistics) (l : list RowLineageEvent) (st : JobStatistics) : Prop := {
  adds_total : total_rows st = total_rows st0 + Z.of_nat (length l);
  adds_success : success_count st = success_count st0 + tally is_success l;
  adds_filtered : filtered_count st = filtered_count st0 + tally is_filtered l;
  adds_failed : failed_count st = failed_count st0
    + tally (λ e, negb (is_success e) && negb (is_filtered e)) l;
  adds_reasons why : default 0 (filter_reasons st !! why)
    = default 0 (filter_reasons st0 !! why) + tally (filtered_for why) l;
}.

Lemma tally_app p l k : tally p (l ++ k) = tally p l + tally p k.
Proof. unfold tally. rewrite List.filter_app, length_app. lia. Qed.

Lemma adds_trans a b c l k : adds a l b → adds b k c → adds a (l ++ k) c.
Proof.
  intros [H1 H2 H3 H4 H5] [K1 K2 K3 K4 K5].
  split; intros; rewrite ?length_app, ?tally_app, ?K5, ?H5; lia.
Qed.

Lemma adds_nil st0 st :
  total_rows st = total_rows st0 → success_count st = success_count st0 →
  filtered_count st = filtered_count st0 → failed_count st = failed_count st0 →
  filter_reasons st = filter_reasons st0 → adds st0 [] st.
Proof. intros Ht Hs Hf Hb Hr. split; unfold tally; simpl; try lia. intros why. rewrite Hr. lia. Qed.

Lemma u64_incr_small z : z + 1 < 2 ^ 64 → u64_incr overflow_checks z = Ok (z + 1).
Proof. intros Hz. unfold u64_incr. by rewrite (proj2 (Z.ltb_lt _ _)). Qed.

Lemma reason_bound st why :
  stats_ok st → 0 ≤ default 0 (filter_reasons st !! why) ≤ filtered_count st.
Proof.
  intros (_ & ? & _ & _ & Hr). destruct (filter_reasons st !! why) as [n|] eqn:E; simpl; [|lia].
  apply (Hr _ _ E).
Qed.

Lemma count_event_spec st e :
  stats_ok st → total_rows st + 1 < 2 ^ 64 →
  ∃ st', count_event overflow_checks st e = Ok st' ∧ stats_ok st' ∧ adds st [e] st'.
Proof.
  intros Hok Hroom. pose proof (λ why, reason_bound st why Hok) as Hbound.
  destruct Hok as (Hs & Hf & Hb & Ht & Hr).
  unfold count_event. rewrite (u64_incr_small (total_rows st)) by lia. simpl.
  assert (∀ f, filtered_count st ≤ f →
    map_Forall (λ _ n, 0 ≤ n ≤ f) (filter_reasons st)) as Hmono.
  { intros f ? k n Hn. specialize (Hr k n Hn). simpl in Hr. lia. }
  destruct (outcome e) as [loc|why rule|vs|err] eqn:Eo; simpl;
    rewrite ?u64_incr_small by lia; simpl;
    rewrite ?u64_incr_small by (specialize (Hbound why); lia); simpl;
    (eexists; split; [done|]; split;
      [unfold stats_ok; simpl; split_and!; try lia; try (apply Hmono; lia)
      |split; simpl; unfold tally, is_success, is_filtered, filtered_for; simpl; intros; rewrite ?Eo; simpl; try lia]).
  - apply map_Forall_insert_2; [specialize (Hbound why); lia|apply Hmono; lia].
  - destruct (String.eqb_spec why why0) as [->|Hne]; [by rewrite lookup_insert_eq|].
    rewrite lookup_insert_ne by done. simpl. lia.
Qed.

Definition base_stats (s0 : RowLineageStore) (job : string) : JobStatistics :=
  default (new_job_statistics job 0) (stats_at s0 job).

Definition of_job (job : string) (l : list RowLineageEvent) : list RowLineageEvent :=
  filter (λ e, job_id e = job) l.

Definition stats_gathered (s0 : RowLineageStore) (l : list RowLineageEvent)
    (m : gmap string JobStatistics) : Prop :=
  ∀ job, match m !! job with
         | None => of_job job l = []
         | Some st => stats_ok st ∧ adds (base_stats s0 job) (of_job job l) st
         end.

(** No counter reaches its limit with so many more events. *)
Definition room (s0 : RowLineageStore) (n : nat) : Prop :=
  ∀ job, total_rows (base_stats s0 job) + Z.of_nat n < 2 ^ 64.

Lemma new_stats_ok job t : stats_ok (new_job_statistics job t).
Proof. unfold stats_ok. simpl. split_and!; try lia. apply map_Forall_empty. Qed.

Lemma load_statistics_spec s0 job t :
  row_store_ok s0 →
  reads (same_data s0) db_failed (λ st, stats_ok st ∧ adds (base_stats s0 job) [] st)
    (load_job_statistics job t).
Proof.
  intros Hok. unfold load_job_statistics. apply row_reads_io.
  apply reads_field; [by intros s (_ & _ & _ & _ & -> & _)|].
  unfold base_stats, stats_at. destruct (stats s0 !! job) as [d|] eqn:Ed; simpl.
  - destruct (stats_decode _ Hok _ _ Ed) as (st & Hst & Hst').
    rewrite Hst. simpl. apply (reads_bind _ _ (λ st', st' = st)); [by eapply reads_lift_ok|].
    intros ? ->. apply reads_ret. split; [done|]. by apply adds_nil.
  - apply reads_ret. split; [apply new_stats_ok|]. by apply adds_nil.
Qed.

Lemma of_job_snoc job l e :
  of_job job (l ++ [e]) = of_job job l ++ (if decide (job_id e = job) then [e] else []).
Proof. unfold of_job. by rewrite filter_app, filter_cons, filter_nil. Qed.

Lemma stats_step s0 l m e st st' :
  stats_gathered s0 l m →
  adds (base_stats s0 (job_id e)) (of_job (job_id e) l) st → adds st [e] st' → stats_ok st' →
  stats_gathered s0 (l ++ [e]) (<[job_id e := st']> m).
Proof.
  intros Hm Hst Hst' Hok job. rewrite of_job_snoc. case_decide as Hj.
  - subst job. rewrite lookup_insert_eq. split; [done|]. by eapply adds_trans.
  - rewrite lookup_insert_ne by done. rewrite (right_id_L [] (++)). apply Hm.
Qed.

(** ** The loop over a batch *)

Definition of_tenant (t : string) (l : list RowLineageEvent) : list RowId :=
  row_id <$> filter (λ e, row_tenant e = t) l.

Record gathered (s0 : RowLineageStore) (l : list RowLineageEvent) (g : Gathered) : Prop := {
  gathered_rows : rows_gathered s0 l (new_rows g);
  gathered_stats : stats_gathered s0 l (job_stats g);
  gathered_tenants t : default [] (tenant_rows g !! t) = of_tenant t l;
}.

Lemma gathered_nothing s0 : gathered s0 [] nothing_gathered.
Proof. split; intros k; by rewrite ?lookup_empty. Qed.

Lemma push_at_lookup {A} k k' (x : A) m :
  default [] (push_at k x m !! k') = default [] (m !! k') ++ (if decide (k = k') then [x] else []).
Proof.
  unfold push_at. case_decide as Hk.
  - subst. by rewrite lookup_insert_eq.
  - by rewrite lookup_insert_ne, (right_id_L [] (++)).
Qed.

Lemma gather_event_spec s0 n l g e :
  row_store_ok s0 → room s0 n → (length l < n)%nat → gathered s0 l g →
  reads (same_data s0) db_failed (gathered s0 (l ++ [e])) (gather_event overflow_checks g e).
Proof.
  intros Hok Hroom Hlen [Hrows Hstats Hten]. unfold gather_event.
  eapply reads_bind; [by apply index_rows_spec|]. intros rows Hrows'.
  apply (reads_bind _ _ (λ st, stats_ok st ∧
           adds (base_stats s0 (job_id e)) (of_job (job_id e) l) st)).
  { specialize (Hstats (job_id e)). destruct (job_stats g !! job_id e) as [st|].
    - by apply reads_ret.
    - rewrite Hstats. by apply load_statistics_spec. }
  intros st [Hst Hadd].
  destruct (count_event_spec st e) as (st' & Hst' & Hok' & Hadd'); [done|..].
  { rewrite (adds_total _ _ _ Hadd). specialize (Hroom (job_id e)).
    assert (length (of_job (job_id e) l) ≤ length l)%nat by apply length_filter. lia. }
  eapply (reads_bind _ _ (λ x, x = st')); [by eapply reads_lift_ok|]. intros ? ->.
  apply reads_ret. split; simpl; [done|by eapply stats_step|].
  intros t. rewrite push_at_lookup, Hten. unfold of_tenant.
  rewrite filter_app, filter_cons, filter_nil, fmap_app. by case_decide.
Qed.

Lemma gather_spec s0 es :
  row_store_ok s0 → room s0 (length es) →
  reads (same_data s0) db_failed (gathered s0 es)
    (method_foldM (gather_event overflow_checks) nothing_gathered es).
Proof.
  intros Hok Hroom. apply (reads_foldM _ _ (gathered s0)); [apply gathered_nothing|].
  intros l1 e l2 g -> Hg. eapply gather_event_spec; [done|done| |done].
  rewrite length_app. simpl. lia.
Qed.

Lemma merge_tenant_spec s0 x :
  reads (same_data s0) db_failed
    (λ y, y = (x.1, ids_to_bincode (tenant_ids s0 x.1 ++ x.2))) (merge_tenant x).
Proof.
  unfold merge_tenant. apply row_reads_io.
  apply reads_field; [by intros s (_ & _ & _ & _ & _ & _ & -> & _)|]. by apply reads_ret.
Qed.

Lemma merge_tenants_spec s0 l :
  reads (same_data s0) db_failed
    (λ ys, ys = (λ x, (x.1, ids_to_bincode (tenant_ids s0 x.1 ++ x.2))) <$> l)
    (method_mapM merge_tenant l).
Proof.
  eapply reads_weaken; [|apply (reads_mapM _ _ (λ x y, y = (x.1, ids_to_bincode (tenant_ids s0 x.1 ++ x.2))));
    intros; apply merge_tenant_spec].
  intros ys Hys. induction Hys; simpl; by f_equal.
Qed.

(** What a batch leaves when it is written. *)
Record batch_written (es : list RowLineageEvent) (s s' : RowLineageStore) : Prop := {
  written_ok : row_store_ok s';
  written_buffer : write_buffer s' = write_buffer s;
  written_rows k : plain_rows s' k
    = plain_rows s k ++ option_list (plain_event <$> last (filter (touches k) es));
  written_stats job : of_job job es ≠ [] →
    ∃ st, stats_at s' job = Some st ∧ adds (base_stats s job) (of_job job es) st;
  written_tenants t : tenant_ids s' t = tenant_ids s t ++ of_tenant t es;
  written_total job : total_rows (base_stats s' job)
    = total_rows (base_stats s job) + Z.of_nat (length (of_job job es));
}.

Lemma tenants_map s0 (m : gmap string (list RowId)) t :
  (list_to_map ((λ x, (x.1, ids_to_bincode (tenant_ids s0 x.1 ++ x.2))) <$> map_to_list m)
     : gmap string string) !! t
  = (λ ids, ids_to_bincode (tenant_ids s0 t ++ ids)) <$> m !! t.
Proof.
  destruct (m !! t) as [ids|] eqn:Em; simpl.
  - apply elem_of_list_to_map.
    + rewrite <- list_fmap_compose. apply NoDup_fst_map_to_list.
    + apply list_elem_of_fmap. exists (t, ids). split; [done|]. by apply elem_of_map_to_list.
  - apply not_elem_of_list_to_map. rewrite <- list_fmap_compose.
    intros ([t' ids] & -> & Hin)%list_elem_of_fmap. apply elem_of_map_to_list in Hin.
    simpl in Em. congruence.
Qed.

Lemma apply_gathered_spec es g s0 :
  row_store_ok s0 → gathered s0 es g →
  batch_written es s0 (apply_gathered g
    ((λ x, (x.1, ids_to_bincode (tenant_ids s0 x.1 ++ x.2))) <$> map_to_list (tenant_rows g)) s0).
Proof.
  intros Hok [Hrows Hstats Hten]. set (s' := apply_gathered _ _ _).
  assert (∀ k, plain_rows s' k
    = plain_rows s0 k ++ option_list (plain_event <$> last (filter (touches k) es))) as Hr.
  { intros k. specialize (Hrows k). unfold plain_rows at 1, rows_at, list_at, s'. simpl.
    destruct (last _) as [e|]; simpl.
    - destruct Hrows as (d & es' & Hd & Hdec & Hp).
      rewrite (lookup_union_Some_l _ _ _ _ Hd), Hdec. simpl. by rewrite Hp.
    - rewrite lookup_union_r by done. by rewrite (right_id_L [] (++)). }
  assert (∀ t, by_tenant s' !! t = match tenant_rows g !! t with
      | Some ids => Some (ids_to_bincode (tenant_ids s0 t ++ ids))
      | None => by_tenant s0 !! t end) as Ht.
  { intros t. unfold s'. simpl. rewrite lookup_union, tenants_map.
    destruct (tenant_rows g !! t), (by_tenant s0 !! t); done. }
  split; [split|done|exact Hr| | |].
  - intros k d Hd. specialize (Hrows k). unfold s' in Hd. simpl in Hd.
    destruct (last _) as [e|].
    + destruct Hrows as (d' & es' & Hd' & Hdec & Hp).
      rewrite (lookup_union_Some_l _ _ _ _ Hd') in Hd. simplify_eq.
      exists es'. split; [done|]. intros ->. simpl in Hp. by destruct (plain_rows s0 k).
    + rewrite lookup_union_r in Hd by done. by eapply rows_decode.
  - intros t d Hd. rewrite Ht in Hd. destruct (tenant_rows g !! t); simplify_eq.
    + by rewrite bincode_ids.
    + by eapply tenants_decode.
  - intros job d Hd. specialize (Hstats job). unfold s' in Hd. simpl in Hd.
    destruct (job_stats g !! job) as [st|] eqn:Ej.
    + erewrite lookup_union_Some_l in Hd by (rewrite lookup_fmap, Ej; done). injection Hd as <-.
      exists st. by rewrite bincode_stats; destruct Hstats.
    + rewrite lookup_union_r in Hd by (rewrite lookup_fmap, Ej; done). by eapply stats_decode.
  - intros job Hne. specialize (Hstats job). destruct (job_stats g !! job) as [st|] eqn:Ej; [|done].
    exists st. split; [|apply Hstats]. unfold stats_at, s'. simpl.
    erewrite lookup_union_Some_l by (rewrite lookup_fmap, Ej; done). simpl. apply bincode_stats.
  - intros t. unfold tenant_ids at 1. rewrite Ht. specialize (Hten t).
    destruct (tenant_rows g !! t) as [ids|]; simpl in *.
    + rewrite bincode_ids. by rewrite <- Hten.
    + rewrite <- Hten. by rewrite (right_id_L [] (++)).
  - intros job. specialize (Hstats job). unfold base_stats at 1, stats_at, s'. simpl.
    destruct (job_stats g !! job) as [st|] eqn:Ej.
    + erewrite lookup_union_Some_l by (rewrite lookup_fmap, Ej; done). simpl. rewrite bincode_stats.
      destruct Hstats as [_ Hadd]. apply (adds_total _ _ _ Hadd).
    + rewrite lookup_union_r by (rewrite lookup_fmap, Ej; done). rewrite Hstats. simpl.
      by rewrite Z.add_0_r.
Qed.

Lemma apply_same_data g ts s0 s : same_data s0 s → same_data (apply_gathered g ts s0) (apply_gathered g ts s).
Proof. unfold same_data. simpl. intros (-> & -> & -> & -> & -> & -> & -> & ->). done. Qed.

Lemma same_data_written es s0 s s' : batch_written es s0 s → same_data s s' → batch_written es s0 s'.
Proof.
  intros [Hok Hb Hr Hst Ht Hn] Hs. pose proof Hs as (Er & _ & _ & _ & Est & _ & Et & Eb).
  split; unfold base_stats, plain_rows, rows_at, stats_at, tenant_ids in *; rewrite ?Er, ?Est, ?Et, ?Eb; try done.
  by eapply same_data_ok.
Qed.

Lemma write_events_spec es s s' r :
  row_store_ok s → room s (length es) → es ≠ [] →
  write_events_internal overflow_checks es s = (s', r) →
  match r with
  | Ok _ => batch_written es s s'
  | Err e => same_data s s' ∧ db_failed e
  | Panic => False
  end.
Proof.
  intros Hok Hroom Hne. unfold write_events_internal. destruct es as [|e es']; [done|].
  set (es := e :: es') in *. clearbody es. clear e es'. intros Hw.
  assert (same_data s s) as Hs by reflexivity.
  destruct (gather_spec s es Hok Hroom s Hs) as [Hs1 Hg].
  destruct (method_bind_inv _ _ _ _ _ Hw) as [(s1 & g & E1 & Hw1)|[(err & E1 & ->)|[E1 ->]]];
    rewrite E1 in *; simpl in *; [|done..].
  destruct (merge_tenants_spec s (map_to_list (tenant_rows g)) s1 Hs1) as [Hs2 Ht].
  destruct (method_bind_inv _ _ _ _ _ Hw1) as [(s2 & ts & E2 & Hw2)|[(err & E2 & ->)|[E2 ->]]];
    rewrite E2 in *; simpl in *; [|done..].
  destruct (row_io_reads s s2 Hs2) as [Hs3 Hio].
  destruct (method_bind_inv _ _ _ _ _ Hw2) as [(s3 & [] & E3 & Hw3)|[(err & E3 & ->)|[E3 ->]]];
    rewrite E3 in *; simpl in *; [|done..].
  injection Hw3 as <- <-. subst ts.
  eapply same_data_written; [by apply apply_gathered_spec|]. by apply apply_same_data.
Qed.

Lemma get_row_lineage_spec s0 id :
  row_store_ok s0 →
  reads (same_data s0) db_failed (λ es, es = rows_at s0 (to_key id)) (get_row_lineage id).
Proof.
  intros Hok. unfold get_row_lineage. apply row_reads_io.
  apply reads_field; [by intros s (-> & _)|]. unfold rows_at, list_at.
  destruct (by_row s0 !! to_key id) as [d|] eqn:Ed; [|by apply reads_ret].
  destruct (rows_decode _ Hok _ _ Ed) as (es & Hes & _). rewrite Hes. by eapply reads_lift_ok.
Qed.

Lemma get_job_stats_spec s0 job now :
  row_store_ok s0 →
  reads (same_data s0) db_failed
    (λ st, st = default (new_job_statistics job now) (stats_at s0 job)) (get_job_stats job now).
Proof.
  intros Hok. unfold get_job_stats. apply row_reads_io.
  apply reads_field; [by intros s (_ & _ & _ & _ & -> & _)|]. unfold stats_at.
  destruct (stats s0 !! job) as [d|] eqn:Ed; simpl; [|by apply reads_ret].
  destruct (stats_decode _ Hok _ _ Ed) as (st & Hst & _). rewrite Hst. by eapply reads_lift_ok.
Qed.

(** [m] answers [a], or the database fails. *)
Definition answers {A} (m : method RowLineageStore RowError A) (s : RowLineageStore) (P : A → Prop)
    : Prop :=
  same_data s (m s).1 ∧
  match (m s).2 with Ok a => P a | Err e => e = RowDbFailed | Panic => False end.

Lemma reads_answers {A} (m : method RowLineageStore RowError A) s P :
  reads (same_data s) db_failed P m → answers m s P.
Proof. intros Hm. destruct (Hm s) as [? ?]; [reflexivity|]. done. Qed.

Lemma write_rows_batch_internal es s s' r :
  es ≠ [] → write_buffer s = [] → write_rows_batch overflow_checks es s = (s', r) →
  write_events_internal overflow_checks es s = (s', r).
Proof.
  intros Hne Hb. unfold write_rows_batch. destruct es as [|e es]; [done|].
  unfold flush_buffer. unfold mbind at 1, method_MBind at 1, method_bind at 1.
  unfold mbind at 1, method_MBind at 1, method_bind at 1, gets at 1. by rewrite Hb.
Qed.

(** No two of the events touch the same row. *)
Definition rows_once (es : list RowLineageEvent) : Prop :=
  ∀ k, (length (filter (touches k) es) ≤ 1)%nat.

(** The events of a list for a row. *)
Definition plain_for (k : string) (es : list RowLineageEvent) := plain_event <$> filter (touches k) es.

Lemma written_once es s s' k :
  batch_written es s s' → rows_once es → plain_rows s' k = plain_rows s k ++ plain_for k es.
Proof.
  intros Hw Ho. rewrite (written_rows _ _ _ Hw). f_equal. unfold plain_for. specialize (Ho k).
  destruct (filter (touches k) es) as [|e [|? ?]]; [done..|]. simpl in Ho. lia.
Qed.

Lemma room_weaken s n m : room s n → (m ≤ n)%nat → room s m.
Proof. intros Hr Hm job. specialize (Hr job). lia. Qed.

Lemma room_written es s s' n : batch_written es s s' → room s (length es + n) → room s' n.
Proof.
  intros Hw Hr job. specialize (Hr job). rewrite (written_total _ _ _ Hw).
  pose proof (length_filter (λ e, job_id e = job) es). unfold of_job. lia.
Qed.

(** What a flush of the waiting events leaves. *)
Lemma flush_spec n s s' r :
  row_store_ok s → room s (length (write_buffer s) + n) → rows_once (write_buffer s) →
  flush_buffer overflow_checks s = (s', r) →
  write_buffer s' = [] ∧ row_store_ok s' ∧
  match r with
  | Ok _ => room s' n ∧ ∀ k, plain_rows s' k = plain_rows s k ++ plain_for k (write_buffer s)
  | Err e => e = RowDbFailed ∧ ∀ k, plain_rows s' k = plain_rows s k
  | Panic => False
  end.
Proof.
  intros Hok Hroom Hone. unfold flush_buffer.
  unfold mbind, method_MBind, method_bind, gets, modify.
  destruct (write_buffer s) as [|e b] eqn:Eb; cbv beta iota.
  { intros [= <- <-]. split_and!; [done..|]. intros k. unfold plain_for.
    rewrite filter_nil. simpl. by rewrite app_nil_r. }
  set (es := e :: b) in *. assert (es ≠ []) as Hne by done. clearbody es. intros Hw.
  apply write_events_spec in Hw; [|by destruct Hok; split|exact (room_weaken s _ _ Hroom (Nat.le_add_r _ _))|done].
  destruct r as [[]|err|]; [| |done].
  - split_and!; [by rewrite (written_buffer _ _ _ Hw)|apply Hw|by eapply room_written|].
    intros k. exact (written_once _ _ _ k Hw Hone).
  - destruct Hw as [Hs ->]. split_and!; [|eapply same_data_ok; [exact Hs|by destruct Hok; split]|done|].
    + by destruct Hs as (_ & _ & _ & _ & _ & _ & _ & ->).
    + intros k. unfold plain_rows. by rewrite (same_data_rows _ _ _ Hs).
Qed.

(** C12: a batch of row events first stores the events that wait in the buffer and then
    its own.  When no row is touched by two events of the batch, or by two that wait, and
    no counter of a job reaches its limit, a batch that succeeds has added to every row,
    behind the events it had, those that waited for it and those of the batch that come
    from it or go to it, and nothing else: asking for the lineage of a row gives exactly
    these, or the database fails.  A batch that fails has stored none of its events, and of
    those that waited all or none; they no longer wait. *)
Theorem rows_recorded es s s' r :
  row_store_ok s → room s (length (write_buffer s) + length es) →
  rows_once es → rows_once (write_buffer s) → es ≠ [] →
  write_rows_batch overflow_checks es s = (s', r) →
  row_store_ok s' ∧ write_buffer s' = [] ∧
  match r with
  | Ok _ =>
      ∀ id, let k := to_key id in
        answers (get_row_lineage id) s' (λ found,
          plain_event <$> found =
            plain_rows s k ++ plain_for k (write_buffer s) ++ plain_for k es)
  | Err e =>
      e = RowDbFailed ∧
      ((∀ k, plain_rows s' k = plain_rows s k) ∨
       (∀ k, plain_rows s' k = plain_rows s k ++ plain_for k (write_buffer s)))
  | Panic => False
  end.
Proof.
  intros Hok Hroom Ho Hob Hne Hw. unfold write_rows_batch in Hw.
  destruct es as [|e es0]; [done|]. set (es := e :: es0) in *. clearbody es. clear e es0.
  destruct (method_bind_inv _ _ _ _ _ Hw) as [(s1 & [] & E1 & Hw1)|[(err & E1 & ->)|[E1 ->]]];
    apply (flush_spec (length es)) in E1 as (Hb1 & Hok1 & Hf); try done.
  2:{ destruct Hf as [-> Hf]. split_and!; auto. }
  destruct Hf as [Hroom1 Hf]. apply write_events_spec in Hw1; [|done..].
  destruct r as [[]|err|]; [| |done].
  - split_and!; [apply Hw1|by rewrite (written_buffer _ _ _ Hw1)|]. intros id k.
    apply reads_answers. eapply reads_weaken; [|apply get_row_lineage_spec, Hw1].
    intros found ->. fold k.
    change (plain_rows s' k = plain_rows s k ++ plain_for k (write_buffer s) ++ plain_for k es).
    by rewrite (written_once _ _ _ k Hw1 Ho), Hf, <- app_assoc.
  - destruct Hw1 as [Hs ->]. split_and!; [by eapply same_data_ok|
      by destruct Hs as (_ & _ & _ & _ & _ & _ & _ & ->)|done|].
    right. intros k. rewrite <- Hf. unfold plain_rows. by rewrite (same_data_rows _ _ _ Hs).
Qed.

(** The statistics of a job count every event written for it, by outcome and by the
    reason a row was filtered for, and the three outcomes add up to the total. *)
Theorem job_statistics_exact es s s' job now :
  row_store_ok s → room s (length es) → of_job job es ≠ [] → write_buffer s = [] →
  write_rows_batch overflow_checks es s = (s', Ok tt) →
  answers (get_job_stats job now) s' (λ st,
    adds (base_stats s job) (of_job job es) st ∧
    total_rows st = success_count st + filtered_count st + failed_count st).
Proof.
  intros Hok Hroom Hj Hb Hw.
  assert (es ≠ []) as Hne by (by intros ->).
  apply write_rows_batch_internal in Hw; [|done..]. apply write_events_spec in Hw; [|done..].
  destruct Hw as [Hok' _ _ Hst _ _]. destruct (Hst job Hj) as (st & Est & Hadd).
  apply reads_answers. eapply reads_weaken; [|by apply get_job_stats_spec].
  intros ? ->. rewrite Est. simpl. split; [done|]. unfold stats_at in Est.
  destruct (stats s' !! job) as [d|] eqn:Ed; [|done]. simpl in Est.
  destruct (stats_decode _ Hok' _ _ Ed) as (st' & Hst' & Hst''). simplify_eq. apply Hst''.
Qed.
End Facts.

(** * Erasing a user from the store of row lineage

    Erasing a user removes exactly that user's events, all or none of them, and the
    store keeps the promises of [DataErasure]. *)

Local Open Scope Z_scope.

Section Erasure.
Context `{RowDbOk}.

Abbreviation kept u := (KvScan.kept (of_user u)).
Abbreviation removed u := (KvScan.removed (of_user u)).

Definition row_list (s : RowLineageStore) : list (string * list RowLineageEvent) :=
  index_list deserialize_row_events (by_row s).

(** The number of events of a user. *)
Definition user_events (u : string) (s : RowLineageStore) : nat :=
  count_in deserialize_row_events (of_user u) (by_row s).

Lemma all_row_events_spec s0 :
  row_store_ok s0 →
  reads (same_data s0) db_failed (λ rows, rows = row_list s0) all_row_events.
Proof.
  intros Hok. unfold all_row_events. apply row_reads_io.
  apply reads_field; [by intros s (-> & _)|].
  eapply reads_weaken; [|apply (reads_mapM _ _ (λ kv y, y = (kv.1, rows_at s0 kv.1)))].
  - intros ys Hys. unfold row_list, index_list. induction Hys; simpl; by f_equal.
  - intros [k d] Hd%elem_of_sorted_cf. simpl. unfold rows_at, list_at. rewrite Hd.
    destruct (rows_decode _ Hok _ _ Hd) as (es & Hes & _). rewrite Hes.
    eapply (reads_bind _ _ (λ x, x = es)); [by eapply reads_lift_ok|]. intros ? ->.
    by apply reads_ret.
Qed.

Lemma count_user_spec s0 u :
  row_store_ok s0 →
  reads (same_data s0) db_failed (λ n, n = Z.of_nat (user_events u s0)) (count_user_records u).
Proof.
  intros Hok. eapply reads_bind; [by apply all_row_events_spec|]. intros ? ->. by apply reads_ret.
Qed.

(** ** One row *)

Definition erased (u : string) (l : list (string * list RowLineageEvent)) (x : Erased) : Prop :=
  taken_out deserialize_row_events plain_event (of_user u) l (changed_rows x) (deleted_events x).

Lemma erase_row_spec u l x k es :
  erased u l x → k ∉ l.*1 →
  ∃ x', erase_row u false x (k, es) = Ok x' ∧ erased u (l ++ [(k, es)]) x'.
Proof.
  intros Hx Hk. unfold erase_row. simpl. fold (removed u es) (kept u es).
  unfold erased in *.
  destruct (removed u es) as [|e0 rem] eqn:Er; [exists x; split; [done|by apply taken_out_same]|].
  destruct (kept u es) as [|e1 ks] eqn:Ek.
  - eexists. split; [done|]. cbn [changed_rows deleted_events]. rewrite <- Er.
    apply taken_out_change; [done..|].
    unfold value_change. by rewrite Er, Ek.
  - destruct (serialize_roundtrip (e1 :: ks)) as (d & es'' & Hd & Hdec & Hp). rewrite Hd.
    eexists. split; [done|]. cbn [changed_rows deleted_events]. rewrite <- Er.
    apply taken_out_change; [done..|].
    unfold value_change. rewrite Er, Ek. eauto.
Qed.

Lemma erase_rows_spec u l :
  NoDup l.*1 → ∃ x, result_foldM (erase_row u false) nothing_erased l = Ok x ∧ erased u l x.
Proof.
  intros Hl. apply (result_foldM_prefix _ (erased u)); [apply taken_out_nil|].
  intros l1 [k es] l2 x El Hx. apply erase_row_spec; [done|].
  rewrite El, fmap_app in Hl. apply NoDup_app in Hl as (_ & Hl & _).
  intros Hin. apply (Hl k Hin). left.
Qed.

(** ** The store after an erasure *)

Lemma shrink_tenant_spec s0 x :
  reads (same_data s0) db_failed
    (λ y, ∀ t d, y = Some (t, Some d) → is_Some (ids_of_bincode d)) (shrink_tenant x).
Proof.
  unfold shrink_tenant. apply row_reads_io.
  apply reads_field; [by intros s (_ & _ & _ & _ & _ & _ & -> & _)|].
  repeat case_match; apply reads_ret; intros t d' [=]; subst. by rewrite bincode_ids.
Qed.

Lemma kept_event u e e' : plain_event e = plain_event e' → of_user u e = of_user u e'.
Proof.
  intros Heq. unfold of_user.
  by rewrite (f_equal snd Heq : row_correlation e = row_correlation e'),
    (f_equal (λ x, x.1.2) Heq : row_tenant e = row_tenant e').
Qed.

Lemma erased_rows u s x ts k :
  erased u (row_list s) x →
  plain_rows (apply_erasure (changed_rows x) ts s) k = plain_event <$> kept u (rows_at s k).
Proof. apply taken_out_lists. Qed.

Lemma kept_of_plain u es es' :
  plain_event <$> es' = plain_event <$> kept u es → removed u es' = [].
Proof. apply kept_of_view, kept_event. Qed.

Lemma erased_ok u s x ts :
  row_store_ok s → erased u (row_list s) x →
  (∀ t d, (t, Some d) ∈ ts → is_Some (ids_of_bincode d)) →
  row_store_ok (apply_erasure (changed_rows x) ts s).
Proof.
  intros Hok Hx Hts. split; simpl.
  - eapply taken_out_decodes; [apply (rows_decode _ Hok)|exact Hx].
  - intros t d. rewrite apply_changes_lookup.
    destruct ((list_to_map ts : gmap string (option string)) !! t) as [c|] eqn:Et.
    + intros ->. apply elem_of_list_to_map_2 in Et. by eapply Hts.
    + apply (tenants_decode _ Hok).
  - apply (stats_decode _ Hok).
Qed.

Lemma erase_user_spec u s s' r :
  row_store_ok s → erase_user_records u false s = (s', r) →
  match r with
  | Ok n =>
      row_store_ok s' ∧ n = Z.of_nat (user_events u s) ∧
      (∀ k, plain_rows s' k = plain_event <$> kept u (rows_at s k)) ∧
      write_buffer s' = write_buffer s
  | Err e => same_data s s' ∧ db_failed e
  | Panic => False
  end.
Proof.
  intros Hok Hw. assert (same_data s s) as Hs by reflexivity. unfold erase_user_records in Hw.
  destruct (all_row_events_spec s Hok s Hs) as [Hs1 Hrows].
  destruct (method_bind_inv _ _ _ _ _ Hw) as [(s1 & rows & E1 & Hw1)|[(err & E1 & ->)|[E1 ->]]];
    rewrite E1 in *; simpl in *; [|done..]. subst rows. clear Hw E1.
  destruct (erase_rows_spec u (row_list s) (index_list_NoDup _ _)) as (x & Ex & Hx).
  rewrite Ex in Hw1. unfold lift at 1 in Hw1. unfold mbind at 1, method_MBind at 1, method_bind at 1 in Hw1.
  assert (reads (same_data s) db_failed
    (Forall2 (λ _ y, ∀ t d, y = Some (t, Some d) → is_Some (ids_of_bincode d))
       (map_to_list (removed_row_ids x)))
    (method_mapM shrink_tenant (map_to_list (removed_row_ids x)))) as Hm.
  { apply reads_mapM. intros; apply shrink_tenant_spec. }
  destruct (Hm s1 Hs1) as [Hs2 Hts]. clear Hm.
  destruct (method_bind_inv _ _ _ _ _ Hw1) as [(s2 & ts & E2 & Hw2)|[(err & E2 & ->)|[E2 ->]]];
    rewrite E2 in *; simpl in *; [|done..]. clear Hw1 E2.
  destruct (row_io_reads s s2 Hs2) as [Hs3 Hio].
  destruct (method_bind_inv _ _ _ _ _ Hw2) as [(s3 & [] & E3 & Hw3)|[(err & E3 & ->)|[E3 ->]]];
    rewrite E3 in *; simpl in *; [|done..].
  injection Hw3 as <- <-.
  assert (∀ k, rows_at s3 k = rows_at s k) as Hr by (intros k; by apply same_data_rows).
  assert (row_list s3 = row_list s) as Hl by (unfold row_list; by destruct Hs3 as (-> & _)).
  split_and!.
  - apply (erased_ok u); [by eapply same_data_ok|by rewrite Hl|].
    intros t d Hin. apply list_elem_of_omap in Hin as (y & Hy & Ey). simpl in Ey. subst y.
    apply list_elem_of_lookup in Hy as [i Hi].
    destruct (Forall2_lookup_r _ _ _ _ _ Hts Hi) as (? & _ & Hd). by eapply Hd.
  - f_equal. apply (taken_count _ _ _ _ _ _ Hx).
  - intros k. erewrite erased_rows; [by rewrite Hr|by rewrite Hl].
  - simpl. by destruct Hs3 as (_ & _ & _ & _ & _ & _ & _ & ->).
Qed.

(** C7: erasing a user removes that user's events from every row and no others, says how
    many there were, and counting afterwards finds none; an erasure that fails has
    removed nothing.  Events still in the write buffer are not looked at. *)
Theorem erase_user_exact u s s' r :
  row_store_ok s → erase_user_records u false s = (s', r) →
  match r with
  | Ok n =>
      row_store_ok s' ∧ answers (count_user_records u) s (λ m, m = n) ∧
      (∀ id, answers (get_row_lineage id) s' (λ found, plain_event <$> found
         = plain_event <$> List.filter (λ e, negb (of_user u e)) (rows_at s (to_key id)))) ∧
      answers (count_user_records u) s' (λ m, m = 0) ∧ write_buffer s' = write_buffer s
  | Err e => same_data s s' ∧ e = RowDbFailed
  | Panic => False
  end.
Proof.
  intros Hok Hw. apply erase_user_spec in Hw; [|done]. destruct r as [n|e|]; [|done..].
  destruct Hw as (Hok' & -> & Hr & Hb).
  split_and!; [done|by apply reads_answers, count_user_spec| | |done].
  - intros id. apply reads_answers. eapply reads_weaken; [|by apply get_row_lineage_spec].
    intros ? ->. apply (Hr (to_key id)).
  - apply reads_answers. eapply reads_weaken; [|by apply count_user_spec]. intros ? ->.
    unfold user_events. rewrite count_in_zero; [done|]. intros k. apply (kept_of_plain u (rows_at s k)), Hr.
Qed.

(** ** The interface *)

(** The stored events of a user under the keys of rows, and the index of a tenant.  What
    waits in the buffer and the list of filtered rows are not counted. *)
Definition row_no_records (d : DataSubjectId) (s : RowLineageStore) : Prop :=
  if String.eqb (id_type d) "user_id" then ∀ k, removed (subject_id d) (rows_at s k) = []
  else if String.eqb (id_type d) "tenant_id" then tenant_ids s (subject_id d) = []
  else False.

Lemma tenant_ids_spec s0 t :
  row_store_ok s0 →
  reads (same_data s0) db_failed (λ ids, ids = tenant_ids s0 t) (get_tenant_row_ids t).
Proof.
  intros Hok. unfold get_tenant_row_ids. apply row_reads_io.
  apply reads_field; [by intros s (_ & _ & _ & _ & _ & _ & -> & _)|]. unfold tenant_ids.
  destruct (by_tenant s0 !! t) as [d|] eqn:Ed; simpl; [|by apply reads_ret].
  destruct (tenants_decode _ Hok _ _ Ed) as [ids Hids]. rewrite Hids. by eapply reads_lift_ok.
Qed.

Lemma count_tenant_spec s0 t :
  row_store_ok s0 →
  reads (same_data s0) db_failed (λ n, n = Z.of_nat (length (tenant_ids s0 t))) (count_tenant_records t).
Proof.
  intros Hok. eapply reads_bind; [by apply tenant_ids_spec|]. intros ? ->. by apply reads_ret.
Qed.

Lemma delete_tenant_ok t ids s : row_store_ok s → row_store_ok (delete_tenant t ids s).
Proof.
  intros Hok. split; simpl.
  - intros k d [Hd _]%delete_keys_Some. by eapply rows_decode.
  - intros t' d [_ Hd]%lookup_delete_Some. by eapply tenants_decode.
  - apply (stats_decode _ Hok).
Qed.

Lemma same_no_records s s' d : same_data s s' → row_no_records d s → row_no_records d s'.
Proof.
  intros Hs. unfold row_no_records, tenant_ids. destruct (String.eqb _ "user_id").
  - intros Hk k. by rewrite (same_data_rows s).
  - by destruct Hs as (_ & _ & _ & _ & _ & _ & -> & _).
Qed.

Abbreviation erasure_left := (erasure_left row_store_ok same_data row_no_records).

Lemma row_erase_spec r st s s' res :
  row_store_ok s → erase_row_subject r st s = (s', res) →
  match res with
  | Ok x => erasure_left r s s' x
  | Err e => same_data s s' ∧ db_failed e
  | Panic => False
  end.
Proof.
  intros Hok. unfold erase_row_subject.
  destruct (String.eqb (id_type (data_subject r)) "user_id") eqn:Eu.
  - destruct (dry_run r) eqn:Edry.
    + intros Hw. eapply (quiet_erasure row_store_ok same_data row_no_records db_failed "row_lineage" r st s s' res (n ← count_user_records (subject_id (data_subject r));
        mret (dry_report "row_lineage" "row_lineage_events_would_be_deleted" n))); [done|by intros; eapply same_data_ok|intros; by eapply same_no_records|reflexivity| |].
      * eapply reads_bind; [by apply count_user_spec|]. intros n _. apply reads_ret.
        split; [done|congruence].
      * rewrite <- Hw. apply (bind_ret_bind _ (dry_report _ _) (λ b, mret (one_report "row_lineage" r st b))).
    + intros Hw.
      destruct (method_bind_inv _ _ _ _ _ Hw) as [(s1 & n & E1 & [= <- <-])|[(err & E1 & ->)|[E1 ->]]];
        apply erase_user_spec in E1; try done.
      destruct E1 as (Hok' & -> & Hr & _). split_and!; [done|apply one_report_success|congruence|].
      intros _ _. unfold row_no_records. rewrite Eu. intros k.
      eapply (kept_of_plain _ (rows_at s k)), Hr.
  - destruct (String.eqb (id_type (data_subject r)) "tenant_id") eqn:Et; simpl.
    2:{ intros [= <- <-]. split_and!; [done|apply one_report_success| |done].
        intros _. split; [reflexivity|by apply one_report_zero]. }
    destruct (dry_run r) eqn:Edry.
    + intros Hw. eapply (quiet_erasure row_store_ok same_data row_no_records db_failed "row_lineage" r st s s' res (n ← count_tenant_records (subject_id (data_subject r));
        mret (dry_report "row_lineage" "row_lineage_events_would_be_deleted" n))); [done|by intros; eapply same_data_ok|intros; by eapply same_no_records|reflexivity| |].
      * eapply reads_bind; [by apply count_tenant_spec|]. intros n _. apply reads_ret.
        split; [done|congruence].
      * rewrite <- Hw. apply (bind_ret_bind _ (dry_report _ _) (λ b, mret (one_report "row_lineage" r st b))).
    + intros Hw. destruct (tenant_ids_spec s (subject_id (data_subject r)) Hok s) as [Hs1 Hids]; [reflexivity|].
      destruct (method_bind_inv _ _ _ _ _ Hw) as [(s1 & ids & E1 & Hw1)|[(err & E1 & ->)|[E1 ->]]];
        rewrite E1 in *; simpl in *; [|done..]. subst ids.
      destruct (Nat.eqb_spec (length (tenant_ids s (subject_id (data_subject r)))) 0) as [El|El].
      * injection Hw1 as <- <-. apply nil_length_inv in El.
        split_and!; [by eapply same_data_ok|apply one_report_success|congruence|].
        intros _ _. unfold row_no_records. rewrite Eu, Et. unfold tenant_ids in *.
        by destruct Hs1 as (_ & _ & _ & _ & _ & _ & -> & _).
      * destruct (row_io_reads s s1 Hs1) as [Hs2 Hio].
        destruct (method_bind_inv _ _ _ _ _ Hw1) as [(s2 & [] & E2 & Hw2)|[(err & E2 & ->)|[E2 ->]]];
          rewrite E2 in *; simpl in *; [|done..].
        injection Hw2 as <- <-.
        split_and!; [by eapply delete_tenant_ok, same_data_ok|apply one_report_success|congruence|].
        intros _ _. unfold row_no_records. rewrite Eu, Et. unfold tenant_ids. simpl.
        by rewrite lookup_delete_eq.
Qed.

Lemma row_count_spec d s s' res :
  row_store_ok s → count_row_subject d s = (s', res) →
  same_data s s' ∧
  match res with
  | Ok n => row_no_records d s → n = 0
  | Err _ => True
  | Panic => False
  end.
Proof.
  intros Hok Hw. unfold count_row_subject in Hw. assert (same_data s s) as Hs by reflexivity.
  unfold row_no_records. destruct (String.eqb_spec (id_type d) "tenant_id") as [Et|Et].
  - rewrite Et. simpl. destruct (count_tenant_spec s (subject_id d) Hok s Hs) as [Hs' Hn].
    rewrite Hw in *. simpl in *. split; [done|]. destruct res as [n|e|]; [|done..].
    intros Hnil. by rewrite Hn, Hnil.
  - destruct (String.eqb_spec (id_type d) "user_id") as [Eu|Eu].
    + destruct (count_user_spec s (subject_id d) Hok s Hs) as [Hs' Hn].
      rewrite Hw in *. simpl in *. split; [done|]. destruct res as [n|e|]; [|done..].
      intros Hnil. by rewrite Hn; unfold user_events; rewrite count_in_zero.
    + injection Hw as <- <-. done.
Qed.
End Erasure.

(** The erasure leaves the buffer alone. *)
Lemma row_erase_buffer `{RowDb} r st b :
  preserves (λ s, write_buffer s = b) (erase_row_subject r st).
Proof.
  assert (preserves (λ s, write_buffer s = b) row_io) as Hio.
  { intros s s' res [= <- _]. done. }
  unfold erase_row_subject, erase_user_records, count_user_records, count_tenant_records,
    get_tenant_row_ids, all_row_events.
  walk_method; try exact Hio; try (apply preserves_modify; by intros);
    try (apply preserves_mapM; intros; unfold shrink_tenant; walk_method; try exact Hio).
Qed.

#[export] Instance row_erasure_ok `{RowDbOk} : ErasureOk.
Proof.
  refine {| backend_ok := row_store_ok; backend_same := same_data; no_records := row_no_records;
            settled s := write_buffer s = [] |}.
  - intros r st s Hok. simpl. destruct (erase_row_subject r st s) as [s' res] eqn:E.
    pose proof (row_erase_spec r st s s' res Hok E) as Hr.
    destruct res as [x|e|]; [exact Hr| |done]. destruct Hr as [Hs _]. split; [|done].
    by eapply same_data_ok.
  - intros r st s Hs. simpl. destruct (erase_row_subject r st s) as [s' res] eqn:E.
    exact (row_erase_buffer _ _ [] _ _ _ E Hs).
  - intros d s Hok. simpl. destruct (count_row_subject d s) as [s' res] eqn:E.
    destruct (row_count_spec d s s' res Hok E) as [Hs Hr]. split; [|by split].
    by eapply same_data_ok.
Defined.
