(* ===== verification/GdprCoordinator.v ===== *)
(** * The coordinator of erasures

    Models [gdpr/coordinator.rs] of the coordinator over three backends that are known
    only by the interface [DataErasure] and its laws [ErasureOk]: an erasure runs
    through the backends in turn and gathers their reports, a backend that fails does
    not stop the others.  The times read from the clock and the identifiers drawn are
    arguments. *)

From Stdlib Require Import ZArith Lia Ascii.
From stdpp Require Import base numbers option strings gmap list.
From S2P Require Import Prelude RustStd Effects Gdpr.

Local Open Scope Z_scope.

Inductive GdprError : Type :=
| UnderLegalHold (user : string) (holds : list string)
| BackendFailed (message : string).

(** The readings of the clock before the backends are asked. *)
Record ErasureTimes : Type := {
  holds_checked : Z;
  holds_listed : Z;
  assumed_created : Z;
  policy_checked : Z;
  request_made : Z;
}.

(** The identifier of the request and what each report draws. *)
Record ErasureStamps : Type := {
  request_uid : string;
  own_stamp : Stamp;
  row_stamp : Stamp;
  column_stamp : Stamp;
  schema_stamp : Stamp;
}.

(** ** One backend *)

Section Backend.
Context `{D : DataErasure}.

(** The results of a backend, in the order of a hash map; the totals do not depend
    on it. *)
Definition add_results (agg : ErasureResult) (m : gmap string BackendErasureResult)
    : ErasureResult := foldl (λ a kb, add_backend_result kb.1 kb.2 a) agg (map_to_list m).

(** The part of an erasure that is the same for each backend. *)
Definition erase_store (name : string) (st : ErasureStrategy) (r : ErasureRequest) (stamp : Stamp)
    (agg : ErasureResult) (o : option Backend) : option Backend * result GdprError ErasureResult :=
  match o with
  | None => (None, Ok agg)
  | Some s =>
      match erase_data_subject r stamp s with
      | (s', Ok res) => (Some s', Ok (add_results agg (backend_results res)))
      | (s', Err e) =>
          (Some s', Ok (add_backend_result name
             (backend_failed name ("Erasure failed: " +:+ backend_error_text e) st) agg))
      | (s', Panic) => (Some s', Panic)
      end
  end.

Definition count_store (d : DataSubjectId) (total : Z) (o : option Backend)
    : option Backend * result GdprError Z :=
  match o with
  | None => (None, Ok total)
  | Some s =>
      match count_data_subject_records d s with
      | (s', Ok n) => (Some s', Ok (total + n))
      | (s', Err e) => (Some s', Err (BackendFailed (backend_error_text e)))
      | (s', Panic) => (Some s', Panic)
      end
  end.

(** [breakdown.extend]: a later entry of the same category wins. *)
Definition breakdown_store (d : DataSubjectId) (acc : gmap string Z) (o : option Backend)
    : option Backend * result GdprError (gmap string Z) :=
  match o with
  | None => (None, Ok acc)
  | Some s =>
      match get_data_breakdown d s with
      | (s', Ok m) => (Some s', Ok (m ∪ acc))
      | (s', Err e) => (Some s', Err (BackendFailed (backend_error_text e)))
      | (s', Panic) => (Some s', Panic)
      end
  end.
End Backend.

(** ** The coordinator *)

Section Coordinator.
Context (Row Column Schema : DataErasure).

Record GdprCoordinator : Type := {
  row_lineage_store : option (@Backend Row);
  column_lineage_store : option (@Backend Column);
  schema_evolution_store : option (@Backend Schema);
  retention_manager : RetentionManager;
}.

Definition with_default_retention (r : option (@Backend Row)) (c : option (@Backend Column))
    (s : option (@Backend Schema)) (id1 id2 id3 : string) : GdprCoordinator :=
  {| row_lineage_store := r; column_lineage_store := c; schema_evolution_store := s;
     retention_manager := default_manager id1 id2 id3 |}.

Abbreviation GdprM := (method GdprCoordinator GdprError).

Definition on_row {A} (f : option (@Backend Row) → option (@Backend Row) * result GdprError A) : GdprM A :=
  λ g, let '(o, res) := f (row_lineage_store g) in
       ({| row_lineage_store := o; column_lineage_store := column_lineage_store g;
           schema_evolution_store := schema_evolution_store g;
           retention_manager := retention_manager g |}, res).

Definition on_column {A} (f : option (@Backend Column) → option (@Backend Column) * result GdprError A)
    : GdprM A :=
  λ g, let '(o, res) := f (column_lineage_store g) in
       ({| row_lineage_store := row_lineage_store g; column_lineage_store := o;
           schema_evolution_store := schema_evolution_store g;
           retention_manager := retention_manager g |}, res).

Definition on_schema {A} (f : option (@Backend Schema) → option (@Backend Schema) * result GdprError A)
    : GdprM A :=
  λ g, let '(o, res) := f (schema_evolution_store g) in
       ({| row_lineage_store := row_lineage_store g;
           column_lineage_store := column_lineage_store g; schema_evolution_store := o;
           retention_manager := retention_manager g |}, res).

(** Through the three backends; [st] goes into the report of one that fails. *)
Definition erase_everywhere (st : ErasureStrategy) (r : ErasureRequest) (x : ErasureStamps)
    : GdprM ErasureResult :=
  agg ← on_row (erase_store "row_lineage" st r (row_stamp x) (new_result r (own_stamp x)));
  agg ← on_column (erase_store "column_lineage" st r (column_stamp x) agg);
  agg ← on_schema (erase_store "schema_evolution" st r (schema_stamp x) agg);
  mret (finalize (own_stamp x) agg).

Definition erase_tenant_data (t : string) (dry : bool) (x : ErasureStamps) (now : Z)
    : GdprM ErasureResult :=
  let request := new_request (tenant t) "gdpr_coordinator" (request_uid x) now in
  erase_everywhere HardDelete (if dry then as_dry_run request else request) x.

Definition erase_user_data (u : string) (dry : bool) (st : ErasureStrategy) (x : ErasureStamps)
    (ts : ErasureTimes) : GdprM ErasureResult :=
  m ← gets retention_manager;
  if is_subject_under_hold m (holds_checked ts) u then
    fail (UnderLegalHold u (hold_name <$> get_active_holds_for_subject m (holds_listed ts) u))
  else
    let request := with_strategy st
                     (new_request (user u) "gdpr_coordinator" (request_uid x) (request_made ts)) in
    let request := if dry then as_dry_run request else request in
    let request :=
      match can_delete m AuditLogs u (assumed_created ts) (policy_checked ts) with
      | Err _ => if decide (st = HardDelete) then with_strategy Anonymize request else request
      | _ => request
      end in
    erase_everywhere st request x.

Definition count_everywhere (d : DataSubjectId) : GdprM Z :=
  n ← on_row (count_store d 0);
  n ← on_column (count_store d n);
  on_schema (count_store d n).

Definition breakdown_everywhere (d : DataSubjectId) : GdprM (gmap string Z) :=
  m ← on_row (breakdown_store d ∅);
  m ← on_column (breakdown_store d m);
  on_schema (breakdown_store d m).

Definition count_user_data (u : string) : GdprM Z := count_everywhere (user u).
Definition count_tenant_data (t : string) : GdprM Z := count_everywhere (tenant t).
Definition get_user_data_breakdown (u : string) : GdprM (gmap string Z) := breakdown_everywhere (user u).
Definition get_tenant_data_breakdown (t : string) : GdprM (gmap string Z) := breakdown_everywhere (tenant t).

Definition verify_erasure (t : string) : GdprM bool := n ← count_tenant_data t; mret (n =? 0).
End Coordinator.
Arguments row_lineage_store {_ _ _}.
Arguments column_lineage_store {_ _ _}.
Arguments schema_evolution_store {_ _ _}.
Arguments retention_manager {_ _ _}.

(** ** Facts *)

Lemma add_results_spec agg m :
  (success (add_results agg m) = true ↔
     success agg = true ∧ map_Forall (λ _ b, backend_success b = true) m) ∧
  (map_Forall (λ _ b, records_erased b = 0) m →
     total_records_erased (add_results agg m) = total_records_erased agg).
Proof.
  unfold add_results. rewrite !map_Forall_to_list.
  generalize (map_to_list m) as l. clear m. intros l. revert agg.
  induction l as [|[k b] l IH]; intros agg; simpl.
  { split; [|done]. split; [by split; [|constructor]|by intros []]. }
  destruct (IH (add_backend_result k b agg)) as [IH1 IH2]. split.
  - rewrite IH1. simpl. rewrite andb_true_iff, Forall_cons. simpl. tauto.
  - intros [Hb Hl]%Forall_cons. rewrite IH2 by done. simpl. simpl in Hb. lia.
Qed.

Section OneBackend.
Context `{ErasureOk}.

Definition store_ok (o : option Backend) : Prop := ∀ s, o = Some s → backend_ok s.
Definition store_same (o o' : option Backend) : Prop := option_Forall2 backend_same o o'.
Definition store_clean (d : DataSubjectId) (o : option Backend) : Prop :=
  ∀ s, o = Some s → no_records d s.

Definition store_settled (o : option Backend) : Prop := ∀ s, o = Some s → settled s.

Lemma erase_store_settled name st r stamp agg o :
  store_settled o → store_settled (erase_store name st r stamp agg o).1.
Proof.
  intros Hs. destruct o as [s|]; [|done]. simpl.
  pose proof (erase_settled r stamp s (Hs s eq_refl)) as He.
  destruct (erase_data_subject r stamp s) as [s' [x|e|]]; by intros ? [= <-].
Qed.

Lemma erase_store_spec name st r stamp agg o o' res :
  store_ok o → erase_store name st r stamp agg o = (o', res) →
  ∃ agg', res = Ok agg' ∧ store_ok o' ∧
    (dry_run r = true → store_same o o' ∧ total_records_erased agg' = total_records_erased agg) ∧
    (success agg' = true → success agg = true ∧
       (dry_run r = false → store_clean (data_subject r) o')).
Proof.
  intros Hok. unfold erase_store. destruct o as [s|].
  2:{ intros [= <- <-]. exists agg. split_and!; [done|done| |].
      - intros _. split; [constructor|done].
      - intros Hs. split; [done|]. by intros _ ? [=]. }
  pose proof (erase_spec r stamp s (Hok s eq_refl)) as He.
  destruct (erase_data_subject r stamp s) as [s' [x|e|]]; [| |done]; intros [= <- <-].
  - destruct He as (Hok' & Hsucc & Hdry & Hclean).
    destruct (add_results_spec agg (backend_results x)) as [Ha Ht].
    eexists. split_and!; [done|by intros ? [= <-]| |].
    + intros [Hs Hz]%Hdry. split; [by constructor|by apply Ht].
    + intros [Hagg Hall]%Ha. split; [done|]. intros Hnd ? [= <-]. auto.
  - destruct He as [Hok' Hs]. eexists. split_and!; [done|by intros ? [= <-]| |].
    + intros _. split; [by constructor|]. simpl. lia.
    + simpl. by rewrite andb_false_r.
Qed.

Lemma count_store_spec d total o o' res :
  store_ok o → count_store d total o = (o', res) →
  store_ok o' ∧ store_same o o' ∧
  match res with
  | Ok n => store_clean d o → n = total
  | Err _ => True
  | Panic => False
  end.
Proof.
  intros Hok. unfold count_store. destruct o as [s|].
  2:{ intros [= <- <-]. split_and!; [done|constructor|done]. }
  pose proof (count_spec d s (Hok s eq_refl)) as Hc.
  destruct (count_data_subject_records d s) as [s' [n|e|]]; destruct Hc as (Hok' & Hs & Hn);
    [| |done]; intros [= <- <-]; (split_and!; [by intros ? [= <-]|by constructor|]); [|done].
  intros Hcl. rewrite (Hn (Hcl s eq_refl)). lia.
Qed.
End OneBackend.

Section Theorems.
Context {Row Column Schema : DataErasure}.
Context {RowOk : @ErasureOk Row} {ColumnOk : @ErasureOk Column} {SchemaOk : @ErasureOk Schema}.

Abbreviation Coord := (GdprCoordinator Row Column Schema).

Definition all_ok (g : Coord) : Prop :=
  store_ok (row_lineage_store g) ∧ store_ok (column_lineage_store g) ∧
  store_ok (schema_evolution_store g).

Definition all_same (g g' : Coord) : Prop :=
  store_same (row_lineage_store g) (row_lineage_store g') ∧
  store_same (column_lineage_store g) (column_lineage_store g') ∧
  store_same (schema_evolution_store g) (schema_evolution_store g') ∧
  retention_manager g' = retention_manager g.

Definition all_clean (d : DataSubjectId) (g : Coord) : Prop :=
  store_clean d (row_lineage_store g) ∧ store_clean d (column_lineage_store g) ∧
  store_clean d (schema_evolution_store g).

Definition all_settled (g : Coord) : Prop :=
  store_settled (row_lineage_store g) ∧ store_settled (column_lineage_store g) ∧
  store_settled (schema_evolution_store g).

Lemma everywhere_spec st r x (g : Coord) :
  all_ok g →
  ∃ g' y, erase_everywhere Row Column Schema st r x g = (g', Ok y) ∧ all_ok g' ∧
    (all_settled g → all_settled g') ∧
    (dry_run r = true → all_same g g' ∧ total_records_erased y = 0) ∧
    (dry_run r = false → success y = true → all_clean (data_subject r) g').
Proof.
  destruct g as [gr gc gs m]. intros (H1 & H2 & H3). unfold erase_everywhere.
  pose proof (erase_store_settled "row_lineage" st r (row_stamp x) (new_result r (own_stamp x)) gr) as S1.
  unfold_method. unfold on_row, on_column, on_schema. simpl in *.
  destruct (erase_store "row_lineage" st r _ _ gr) as [o1 r1] eqn:E1.
  destruct (erase_store_spec _ _ _ _ _ _ _ _ H1 E1) as (a1 & -> & K1 & D1 & C1). simpl.
  pose proof (erase_store_settled "column_lineage" st r (column_stamp x) a1 gc) as S2.
  destruct (erase_store "column_lineage" st r _ _ gc) as [o2 r2] eqn:E2.
  destruct (erase_store_spec _ _ _ _ _ _ _ _ H2 E2) as (a2 & -> & K2 & D2 & C2). simpl.
  pose proof (erase_store_settled "schema_evolution" st r (schema_stamp x) a2 gs) as S3.
  destruct (erase_store "schema_evolution" st r _ _ gs) as [o3 r3] eqn:E3.
  destruct (erase_store_spec _ _ _ _ _ _ _ _ H3 E3) as (a3 & -> & K3 & D3 & C3). simpl.
  eexists _, _. split_and!; [done|done| | |].
  - intros (?&?&?). split_and!; simpl in *; auto.
  - intros Hd. destruct (D1 Hd) as [? T1], (D2 Hd) as [? T2], (D3 Hd) as [? T3].
    split; [done|]. simpl. by rewrite T3, T2, T1.
  - intros Hd Hs. destruct (C3 Hs) as [Hs2 ?], (C2 Hs2) as [Hs1 ?], (C1 Hs1) as [? ?].
    split_and!; simpl; auto.
Qed.

Lemma count_everywhere_spec d (g : Coord) g' res :
  all_ok g → count_everywhere Row Column Schema d g = (g', res) →
  all_ok g' ∧
  match res with
  | Ok n => all_clean d g → n = 0
  | Err _ => True
  | Panic => False
  end.
Proof.
  destruct g as [gr gc gs m]. intros (H1 & H2 & H3). unfold count_everywhere.
  unfold_method. unfold on_row, on_column, on_schema. simpl in *.
  destruct (count_store d 0 gr) as [o1 r1] eqn:E1.
  destruct (count_store_spec _ _ _ _ _ H1 E1) as (K1 & _ & N1).
  destruct r1 as [n1|e1|]; simpl; [|by intros [= <- <-]|done].
  destruct (count_store d n1 gc) as [o2 r2] eqn:E2.
  destruct (count_store_spec _ _ _ _ _ H2 E2) as (K2 & _ & N2).
  destruct r2 as [n2|e2|]; simpl; [|by intros [= <- <-]|done].
  destruct (count_store d n2 gs) as [o3 r3] eqn:E3.
  destruct (count_store_spec _ _ _ _ _ H3 E3) as (K3 & _ & N3).
  intros [= <- <-]. split; [done|]. destruct r3 as [n3|e3|]; [|done..].
  intros (C1 & C2 & C3). rewrite N3, N2, N1 by done. done.
Qed.

Lemma held_user_not_erased u dry st x ts (g : Coord) :
  held (retention_manager g) (holds_checked ts) (λ h, u ∈ data_subjects h) →
  ∃ names, erase_user_data Row Column Schema u dry st x ts g = (g, Err (UnderLegalHold u names)).
Proof.
  intros Hh%under_hold_iff. unfold erase_user_data. unfold_method. rewrite Hh. eauto.
Qed.

(** C6: while an active legal hold names a user, erasing that user's data is refused and no
    backend is touched, whatever the strategy, also in a dry run.  Every other erasure
    ends in a report.  If it was not a dry run and the report is a success, no backend
    has a stored record of the user left among those it counts: counting them gives zero,
    or a backend fails.  Events that wait in the write buffer of a backend are not
    looked at, and can be stored later; if no event waited before the erasure, none does
    after it.  A dry run changes no backend and reports nothing erased. *)
Theorem user_erasure_complete u dry st x ts (g : Coord) :
  all_ok g →
  (held (retention_manager g) (holds_checked ts) (λ h, u ∈ data_subjects h) →
     ∃ names, erase_user_data Row Column Schema u dry st x ts g = (g, Err (UnderLegalHold u names))) ∧
  (¬ held (retention_manager g) (holds_checked ts) (λ h, u ∈ data_subjects h) →
     ∃ g' y, erase_user_data Row Column Schema u dry st x ts g = (g', Ok y) ∧ all_ok g' ∧
       (dry = true → all_same g g' ∧ total_records_erased y = 0) ∧
       (dry = false → success y = true →
          all_clean (user u) g' ∧ (all_settled g → all_settled g') ∧
          ∀ g'' n, count_user_data Row Column Schema u g' = (g'', Ok n) → n = 0)).
Proof.
  intros Hok. split; [apply held_user_not_erased|].
  intros Hh. rewrite <- under_hold_iff in Hh. apply not_true_is_false in Hh.
  unfold erase_user_data. unfold_method. rewrite Hh.
  set (r := match can_delete _ _ _ _ _ with Ok _ => _ | Err _ => _ | Panic => _ end).
  assert (dry_run r = dry ∧ data_subject r = user u) as [Hd Hs].
  { subst r. destruct (can_delete _ _ _ _ _); [|case_decide|]; by destruct dry. }
  destruct (everywhere_spec st r x g Hok) as (g' & y & E & Hok' & Hset & Hdry & Hcl).
  rewrite Hd, Hs in *. exists g', y. split_and!; [done|done|done|].
  intros Hnd Hsucc. specialize (Hcl Hnd Hsucc). split; [done|]. split; [done|].
  intros g'' n Hc. by apply count_everywhere_spec in Hc as [_ Hn]; [apply Hn|].
Qed.

(** Erasing a tenant does not look at the holds. *)
Theorem tenant_erasure_complete t dry x now (g : Coord) :
  all_ok g →
  ∃ g' y, erase_tenant_data Row Column Schema t dry x now g = (g', Ok y) ∧ all_ok g' ∧
    (dry = true → all_same g g' ∧ total_records_erased y = 0) ∧
    (dry = false → success y = true →
       ∀ g'' b, verify_erasure Row Column Schema t g' = (g'', Ok b) → b = true).
Proof.
  intros Hok. unfold erase_tenant_data. set (r := if dry then _ else _).
  assert (dry_run r = dry ∧ data_subject r = tenant t) as [Hd Hs] by by destruct dry.
  destruct (everywhere_spec HardDelete r x g Hok) as (g' & y & E & Hok' & _ & Hdry & Hcl).
  rewrite Hd, Hs in *. exists g', y. split_and!; [done|done|done|].
  intros Hnd Hsucc g'' b Hv. specialize (Hcl Hnd Hsucc). unfold verify_erasure in Hv.
  destruct (method_bind_inv _ _ _ _ _ Hv) as [(s1 & n & Hc & [= <- <-])|[(? & ? & ?)|[? ?]]]; [|done..].
  apply count_everywhere_spec in Hc as [_ Hn]; [|done]. by rewrite Hn.
Qed.
End Theorems.
