(* ===== verification/SchemaStore.v ===== *)
(** * The store of schema changes

    Models [core/lineage/schema_evolution.rs] of the core and its store in RocksDB,
    [storage/schema_evolution_store.rs] of the coordinator: recording changes and
    versions of a schema, the queries by datasource, table and time, the comparison of
    two versions, and the erasure of a user's or a tenant's events.  The encoding and
    which operations of the database fail are parameters.  Each put of a recording is
    an operation of its own, so a failure leaves those before it. *)

From Stdlib Require Import ZArith Lia Ascii.
From stdpp Require Import base numbers option strings gmap list.
From S2P Require Import Prelude RustStd Effects F64 WfRouting KvScan Gdpr.

Local Open Scope Z_scope.

(** ** Changes *)

Inductive SchemaChangeType : Type :=
| TableAdded
| TableDropped
| TableRenamed (old_name new_name : string)
| ColumnAdded
| ColumnDropped
| ColumnRenamed (old_name new_name : string)
| DataTypeChanged (old_type new_type : string)
| NullabilityChanged (old_nullable new_nullable : bool)
| DefaultValueChanged (old_default new_default : option string)
| PrimaryKeyAdded (columns : list string)
| PrimaryKeyDropped (columns : list string)
| ForeignKeyAdded (columns : list string) (referenced_table : string) (referenced_columns : list string)
| ForeignKeyDropped (columns : list string) (referenced_table : string) (referenced_columns : list string)
| IndexAdded (index_name : string) (columns : list string)
| IndexDropped (index_name : string) (columns : list string)
| ConstraintAdded (constraint_name constraint_type : string)
| ConstraintDropped (constraint_name constraint_type : string).

Inductive SchemaElementType : Type := ElementTable | ElementColumn | ElementIndex | ElementConstraint.

Record SchemaElement : Type := {
  element_type : SchemaElementType;
  element_name : string;
  element_data_type : option string;
  element_nullable : option bool;
  element_default : option string;
  element_position : option Z;
  element_comment : option string;
  properties : option Json;
}.

Record SchemaChangeEvent : Type := {
  sc_id : string;
  sc_datasource : string;
  sc_schema : option string;
  sc_table : string;
  sc_column : option string;
  change_type : SchemaChangeType;
  before_state : option SchemaElement;
  after_state : option SchemaElement;
  detected_at : Z;
  migration_script : option string;
  migration_id : option string;
  initiated_by : string;
  sc_tenant : string;
  is_breaking : bool;
  impact_summary : option string;
}.

Definition is_change_breaking (c : SchemaChangeType) : bool :=
  match c with
  | TableDropped | ColumnDropped | DataTypeChanged _ _ | NullabilityChanged _ false
  | PrimaryKeyDropped _ | ForeignKeyDropped _ _ _ => true
  | _ => false
  end.

Definition new_change (id datasource table : string) (c : SchemaChangeType) (by_ tenant : string)
    (now : Z) : SchemaChangeEvent :=
  {| sc_id := id; sc_datasource := datasource; sc_schema := None; sc_table := table;
     sc_column := None; change_type := c; before_state := None; after_state := None;
     detected_at := now; migration_script := None; migration_id := None; initiated_by := by_;
     sc_tenant := tenant; is_breaking := is_change_breaking c; impact_summary := None |}.

(** ** Versions *)

Record ColumnSchema : Type := {
  column_name : string;
  column_data_type : string;
  column_nullable : bool;
  column_default : option string;
  column_position : Z;
  column_comment : option string;
}.

Record ForeignKeySchema : Type := {
  fk_name : string;
  fk_columns : list string;
  fk_table : string;
  fk_referenced : list string;
}.

Record IndexSchema : Type := {
  index_name : string;
  index_columns : list string;
  index_unique : bool;
  index_type : option string;
}.

Record TableSchema : Type := {
  table_name : string;
  table_columns : list ColumnSchema;
  primary_key : option (list string);
  foreign_keys : list ForeignKeySchema;
  indexes : list IndexSchema;
  table_comment : option string;
}.

Record SchemaVersion : Type := {
  version_id : string;
  sv_datasource : string;
  sv_schema : option string;
  created_at : Z;
  sv_migration : option string;
  tables : list TableSchema;
  previous_version : option string;
  git_commit : option string;
  tags : list string;
}.

Inductive DriftSeverity : Type := DriftNone | DriftLow | DriftMedium | DriftHigh | DriftCritical.

Record SchemaDriftAnalysis : Type := {
  source_version : string;
  target_version : string;
  changes : list SchemaChangeEvent;
  breaking_changes_count : nat;
  non_breaking_changes_count : nat;
  tables_added : gset string;
  tables_dropped : gset string;
  tables_modified : gset string;
  severity : DriftSeverity;
  analyzed_at : Z;
}.

Inductive MigrationRisk : Type := RiskNone | RiskLow | RiskMedium | RiskHigh | RiskCritical.

Record MigrationImpactAnalysis : Type := {
  analyzed_change : SchemaChangeEvent;
  affected_queries : list string;
  affected_jobs : list string;
  affected_workflows : list string;
  affected_dashboards : list string;
  impact_score : f64;
  migration_steps : list string;
  migration_risk : MigrationRisk;
}.

(** ** The store *)

Inductive SchemaError : Type :=
| SchemaDbFailed
| SchemaDecodeFailed
| SchemaIncompatible (v : SerializationVersion)
| VersionNotFound (id : string)
| SchemaUnsupported (id_type : string).

Class SchemaDb : Type := {
  change_to_bincode : VersionedData SchemaChangeEvent → string;
  change_of_bincode : string → option (VersionedData SchemaChangeEvent);
  version_to_bincode : VersionedData SchemaVersion → string;
  version_of_bincode : string → option (VersionedData SchemaVersion);
  (** whether the operation of this number succeeds *)
  schema_db_ok : nat → bool;
  schema_error_text : SchemaError → string;
}.

(** The format is not self-describing: it reads back what has no free-form properties. *)
Definition plain_element (o : option SchemaElement) : Prop :=
  ∀ x, o = Some x → properties x = None.

Definition plain_change (e : SchemaChangeEvent) : Prop :=
  plain_element (before_state e) ∧ plain_element (after_state e).

Class SchemaDbOk `{SchemaDb} : Prop := {
  bincode_change e : plain_change e → change_of_bincode (change_to_bincode (wrap e)) = Some (wrap e);
  bincode_version v : version_of_bincode (version_to_bincode (wrap v)) = Some (wrap v);
}.

Record SchemaEvolutionStore : Type := {
  cf_schema_events : gmap string string;
  cf_by_datasource : gmap string string;
  cf_by_table : gmap string string;
  cf_by_time : gmap string string;
  cf_schema_versions : gmap string string;
  cf_versions_by_datasource : gmap string string;
  cf_by_tenant : gmap string string;
  schema_ops : nat;
}.

Definition open_schema_store : SchemaEvolutionStore :=
  {| cf_schema_events := ∅; cf_by_datasource := ∅; cf_by_table := ∅; cf_by_time := ∅;
     cf_schema_versions := ∅; cf_versions_by_datasource := ∅; cf_by_tenant := ∅; schema_ops := 0 |}.

(** The families an event is put in, and those of versions. *)
Definition set_event_families (ev ds tb tm tn : gmap string string) (s : SchemaEvolutionStore)
    : SchemaEvolutionStore :=
  {| cf_schema_events := ev; cf_by_datasource := ds; cf_by_table := tb; cf_by_time := tm;
     cf_schema_versions := cf_schema_versions s;
     cf_versions_by_datasource := cf_versions_by_datasource s; cf_by_tenant := tn;
     schema_ops := schema_ops s |}.

Definition set_version_families (vs ds : gmap string string) (s : SchemaEvolutionStore)
    : SchemaEvolutionStore :=
  {| cf_schema_events := cf_schema_events s; cf_by_datasource := cf_by_datasource s;
     cf_by_table := cf_by_table s; cf_by_time := cf_by_time s; cf_schema_versions := vs;
     cf_versions_by_datasource := ds; cf_by_tenant := cf_by_tenant s; schema_ops := schema_ops s |}.

Section Store.
Context `{SchemaDb}.

Abbreviation SchemaM := (method SchemaEvolutionStore SchemaError).

Definition schema_io : SchemaM unit := λ s,
  ({| cf_schema_events := cf_schema_events s; cf_by_datasource := cf_by_datasource s;
      cf_by_table := cf_by_table s; cf_by_time := cf_by_time s;
      cf_schema_versions := cf_schema_versions s;
      cf_versions_by_datasource := cf_versions_by_datasource s; cf_by_tenant := cf_by_tenant s;
      schema_ops := S (schema_ops s) |},
   if schema_db_ok (schema_ops s) then Ok tt else Err SchemaDbFailed).

(** A put that may fail. *)
Definition put (f : SchemaEvolutionStore → SchemaEvolutionStore) : SchemaM unit :=
  _ ← schema_io; modify f.

(** [DateTime::timestamp_millis]. *)
Definition millis (t : Z) : Z := t / 10 ^ 6.

Definition datasource_key (e : SchemaChangeEvent) : string := sc_datasource e +:+ ":" +:+ sc_id e.
Definition table_key (e : SchemaChangeEvent) : string :=
  sc_datasource e +:+ ":" +:+ sc_table e +:+ ":" +:+ sc_id e.
Definition time_key (e : SchemaChangeEvent) : string :=
  i64_to_string (millis (detected_at e)) +:+ ":" +:+ sc_datasource e +:+ ":" +:+ sc_id e.
Definition tenant_key (e : SchemaChangeEvent) : string := sc_tenant e +:+ ":" +:+ sc_id e.

Definition record_schema_change (e : SchemaChangeEvent) : SchemaM unit :=
  let d := change_to_bincode (wrap e) in
  _ ← put (λ s, set_event_families (<[sc_id e := d]> (cf_schema_events s)) (cf_by_datasource s)
                  (cf_by_table s) (cf_by_time s) (cf_by_tenant s) s);
  _ ← put (λ s, set_event_families (cf_schema_events s)
                  (<[datasource_key e := sc_id e]> (cf_by_datasource s))
                  (cf_by_table s) (cf_by_time s) (cf_by_tenant s) s);
  _ ← put (λ s, set_event_families (cf_schema_events s) (cf_by_datasource s)
                  (<[table_key e := sc_id e]> (cf_by_table s)) (cf_by_time s) (cf_by_tenant s) s);
  _ ← put (λ s, set_event_families (cf_schema_events s) (cf_by_datasource s) (cf_by_table s)
                  (<[time_key e := sc_id e]> (cf_by_time s)) (cf_by_tenant s) s);
  put (λ s, set_event_families (cf_schema_events s) (cf_by_datasource s) (cf_by_table s)
              (cf_by_time s) (<[tenant_key e := sc_id e]> (cf_by_tenant s)) s).

Definition record_schema_changes_batch (es : list SchemaChangeEvent) : SchemaM unit :=
  method_foldM (λ _ e, record_schema_change e) tt es.

Definition decode_change (d : string) : result SchemaError SchemaChangeEvent :=
  v ← ok_or (change_of_bincode d) SchemaDecodeFailed;
  match unwrap_current v with
  | Ok e => Ok e
  | Err w => Err (SchemaIncompatible w)
  | Panic => Panic
  end.

Definition decode_version (d : string) : result SchemaError SchemaVersion :=
  v ← ok_or (version_of_bincode d) SchemaDecodeFailed;
  match unwrap_current v with
  | Ok e => Ok e
  | Err w => Err (SchemaIncompatible w)
  | Panic => Panic
  end.

Definition get_schema_change_event (id : string) : SchemaM (option SchemaChangeEvent) :=
  _ ← schema_io;
  stored ← gets (λ s, cf_schema_events s !! id);
  match stored with
  | Some d => e ← lift (decode_change d); mret (Some e)
  | None => mret None
  end.

(** [prefix_iterator_cf] with no extractor of prefixes: every key from the prefix on. *)
Definition keys_from (prefix : string) (cf : gmap string string) : list (string * string) :=
  List.filter (λ kv, str_leb prefix kv.1) (sorted_cf cf).

Definition events_of_ids (ids : list string) : SchemaM (list SchemaChangeEvent) :=
  found ← method_mapM get_schema_change_event ids;
  mret (omap id found).

Definition get_datasource_schema_changes (ds : string) : SchemaM (list SchemaChangeEvent) :=
  _ ← schema_io;
  ids ← gets (λ s, (keys_from (ds +:+ ":") (cf_by_datasource s)).*2);
  events_of_ids ids.

Definition get_table_schema_changes (ds table : string) : SchemaM (list SchemaChangeEvent) :=
  let prefix := ds +:+ ":" +:+ table +:+ ":" in
  _ ← schema_io;
  ids ← gets (λ s, (take_while (λ kv, starts_with kv.1 prefix)
                      (keys_from prefix (cf_by_table s))).*2);
  events_of_ids ids.

(** The number before the first colon of a key. *)
Definition key_time (k : string) : option Z := head (split_char ":" k) ≫= i64_from_str.

(** Keys without a number are skipped; the first one past the end stops the scan. *)
Definition time_range_ids (start fin : Z) (cf : gmap string string) : list string :=
  snd <$> List.filter (λ kv, bool_decide (is_Some (key_time kv.1)))
            (take_while (λ kv, match key_time kv.1 with Some t => t <=? fin | None => true end)
               (keys_from (i64_to_string start +:+ ":") cf)).

Definition get_schema_changes_by_time_range (start fin : Z) : SchemaM (list SchemaChangeEvent) :=
  _ ← schema_io;
  ids ← gets (λ s, time_range_ids start fin (cf_by_time s));
  events_of_ids ids.

Definition get_breaking_changes (ds : string) : SchemaM (list SchemaChangeEvent) :=
  es ← get_datasource_schema_changes ds; mret (List.filter is_breaking es).

(** ** Versions *)

Definition version_key (v : SchemaVersion) : string :=
  sv_datasource v +:+ ":" +:+ i64_to_string (millis (created_at v)) +:+ ":" +:+ version_id v.

Definition save_schema_version (v : SchemaVersion) : SchemaM unit :=
  _ ← put (λ s, set_version_families
                  (<[version_id v := version_to_bincode (wrap v)]> (cf_schema_versions s))
                  (cf_versions_by_datasource s) s);
  put (λ s, set_version_families (cf_schema_versions s)
              (<[version_key v := version_id v]> (cf_versions_by_datasource s)) s).

Definition get_schema_version (id : string) : SchemaM (option SchemaVersion) :=
  _ ← schema_io;
  stored ← gets (λ s, cf_schema_versions s !! id);
  match stored with
  | Some d => v ← lift (decode_version d); mret (Some v)
  | None => mret None
  end.

Definition get_datasource_schema_versions (ds : string) : SchemaM (list SchemaVersion) :=
  _ ← schema_io;
  ids ← gets (λ s, (keys_from (ds +:+ ":") (cf_versions_by_datasource s)).*2);
  found ← method_mapM get_schema_version ids;
  mret (omap id found).

(** Stable, the newest first. *)
Definition get_latest_schema_version (ds : string) : SchemaM (option SchemaVersion) :=
  vs ← get_datasource_schema_versions ds;
  mret (head (sort_by (λ v, - created_at v) vs)).

(** ** Analyses *)

Definition drift_severity (breaking other : nat) : DriftSeverity :=
  if (breaking =? 0)%nat then
    if (other =? 0)%nat then DriftNone else if (other <? 5)%nat then DriftLow else DriftMedium
  else if (breaking <? 3)%nat then DriftHigh
  else DriftCritical.

Definition tables_with (p : SchemaChangeType → bool) (es : list SchemaChangeEvent) : gset string :=
  list_to_set (sc_table <$> List.filter (λ e, p (change_type e)) es).

Definition is_added (c : SchemaChangeType) : bool := match c with TableAdded => true | _ => false end.
Definition is_dropped (c : SchemaChangeType) : bool :=
  match c with TableDropped => true | _ => false end.

Definition analyze_schema_drift (source target : string) (now : Z) : SchemaM SchemaDriftAnalysis :=
  found ← get_schema_version source;
  v ← lift (ok_or found (VersionNotFound source));
  found' ← get_schema_version target;
  v' ← lift (ok_or found' (VersionNotFound target));
  all ← get_schema_changes_by_time_range (millis (created_at v)) (millis (created_at v'));
  let es := List.filter (λ e, String.eqb (sc_datasource e) (sv_datasource v)) all in
  let breaking := length (List.filter is_breaking es) in
  let other := (length es - breaking)%nat in
  mret {| source_version := source; target_version := target; changes := es;
          breaking_changes_count := breaking; non_breaking_changes_count := other;
          tables_added := tables_with is_added es; tables_dropped := tables_with is_dropped es;
          tables_modified := tables_with (λ c, negb (is_added c) && negb (is_dropped c)) es;
          severity := drift_severity breaking other; analyzed_at := now |}.

Definition analyze_migration_impact (c : SchemaChangeEvent) : SchemaM MigrationImpactAnalysis :=
  mret {| analyzed_change := c; affected_queries := []; affected_jobs := [];
          affected_workflows := []; affected_dashboards := []; impact_score := f64_zero;
          migration_steps := ["Review affected queries and update them"; "Update downstream ETL jobs";
                              "Test changes in staging environment"; "Deploy schema migration"];
          migration_risk :=
            if is_breaking c then
              match change_type c with
              | TableDropped | ColumnDropped => RiskCritical
              | _ => RiskHigh
              end
            else RiskLow |}.

Definition all_changes : SchemaM (list SchemaChangeEvent) :=
  _ ← schema_io;
  rows ← gets (λ s, sorted_cf (cf_schema_events s));
  method_mapM (λ kv, lift (decode_change kv.2)) rows.

Definition contains (text part : string) : bool := bool_decide (is_Some (str_find text part)).

Definition search_schema_changes (pattern : string) : SchemaM (list SchemaChangeEvent) :=
  es ← all_changes;
  mret (List.filter (λ e, contains (sc_table e) pattern || contains (sc_datasource e) pattern ||
                          match sc_column e with Some c => contains c pattern | None => false end) es).

(** ** Erasure *)

Definition tenant_entries (t : string) (cf : gmap string string) : list (string * string) :=
  let prefix := t +:+ ":" in take_while (λ kv, starts_with kv.1 prefix) (keys_from prefix cf).

Definition get_tenant_event_ids (t : string) : SchemaM (list string) :=
  _ ← schema_io; gets (λ s, (tenant_entries t (cf_by_tenant s)).*2).

Definition count_tenant_events (t : string) : SchemaM Z :=
  ids ← get_tenant_event_ids t; mret (Z.of_nat (length ids)).

Definition change_of_user (u : string) (e : SchemaChangeEvent) : bool :=
  String.eqb (initiated_by e) u || String.eqb (sc_tenant e) u.

Definition get_user_event_ids (u : string) : SchemaM (list string) :=
  es ← all_changes; mret (sc_id <$> List.filter (change_of_user u) es).

Definition count_user_events (u : string) : SchemaM Z :=
  ids ← get_user_event_ids u; mret (Z.of_nat (length ids)).

(** The deletes of an erasure. *)
Definition delete_changes (ids keys : list string) (s : SchemaEvolutionStore) : SchemaEvolutionStore :=
  set_event_families (delete_keys ids (cf_schema_events s)) (cf_by_datasource s) (cf_by_table s)
    (cf_by_time s) (delete_keys keys (cf_by_tenant s)) s.

Definition erase_user_events (u : string) (dry : bool) : SchemaM Z :=
  ids ← get_user_event_ids u;
  let total := Z.of_nat (length ids) in
  if dry || (total =? 0) then mret total
  else
    _ ← schema_io;
    keys ← gets (λ s, (List.filter (λ kv, bool_decide (kv.2 ∈ ids)) (sorted_cf (cf_by_tenant s))).*1);
    _ ← schema_io;
    _ ← modify (delete_changes ids keys);
    mret total.

(** The deletes of a tenant's events and index entries. *)
Definition erase_tenant_events (t : string) (ids : list string) : SchemaM unit :=
  _ ← schema_io;
  keys ← gets (λ s, (tenant_entries t (cf_by_tenant s)).*1);
  _ ← schema_io;
  modify (delete_changes ids keys).

Definition erase_schema_subject (r : ErasureRequest) (st : Stamp) : SchemaM ErasureResult :=
  let name := "schema_evolution" in
  let report b := mret (one_report name r st b) in
  let subject := subject_id (data_subject r) in
  if String.eqb (id_type (data_subject r)) "user_id" then
    if dry_run r then
      n ← count_user_events subject;
      report (dry_report name "schema_change_events_would_be_deleted" n)
    else
      n ← erase_user_events subject false;
      report (with_detail "schema_change_events" n (backend_succeeded name n HardDelete))
  else if negb (String.eqb (id_type (data_subject r)) "tenant_id") then
    report (unsupported_report name (id_type (data_subject r)))
  else if dry_run r then
    n ← count_tenant_events subject;
    report (dry_report name "schema_change_events_would_be_deleted" n)
  else
    ids ← get_tenant_event_ids subject;
    if (length ids =? 0)%nat then
      report (with_warning "No data found for tenant" (backend_succeeded name 0 HardDelete))
    else
      let n := Z.of_nat (length ids) in
      _ ← erase_tenant_events subject ids;
      report (with_detail "tenant_index_entries" n
                (with_detail "schema_change_events" n (backend_succeeded name n HardDelete))).

Definition count_schema_subject (d : DataSubjectId) : SchemaM Z :=
  if String.eqb (id_type d) "tenant_id" then count_tenant_events (subject_id d)
  else if String.eqb (id_type d) "user_id" then count_user_events (subject_id d)
  else fail (SchemaUnsupported (id_type d)).

Definition schema_breakdown (d : DataSubjectId) : SchemaM (gmap string Z) :=
  n ← count_schema_subject d; mret {["schema_change_events" := n]}.
End Store.

#[export] Instance schema_erasure `{SchemaDb} : DataErasure := {|
  Backend := SchemaEvolutionStore;
  BackendError := SchemaError;
  backend_error_text := schema_error_text;
  erase_data_subject := erase_schema_subject;
  count_data_subject_records := count_schema_subject;
  get_data_breakdown := schema_breakdown;
|}.

(** * Facts about the store of schema changes

    A recorded change is found again and indexed under its tenant; erasing a user or a
    tenant leaves no change of theirs; and the store keeps the promises of
    [DataErasure]. *)

From stdpp Require Import base numbers option strings gmap list sorting.
From S2P Require Import RustText.

Local Open Scope Z_scope.

(** ** Scans of a prefix *)

Lemma leb_between p a b :
  str_leb p a = true → str_leb a b = true → starts_with b p = true → starts_with a p = true.
Proof.
  unfold starts_with. revert a b. induction p as [|c p IH]; intros a b; [by destruct a|].
  destruct a as [|d a], b as [|e b]; try done. simpl.
  destruct (ascii_dec c e) as [->|]; [|done].
  destruct (ascii_dec e d) as [->|Hne].
  - rewrite !Nat.ltb_irrefl, !Nat.eqb_refl. simpl. apply IH.
  - intros H1 H2 _. exfalso. apply Hne.
    rewrite <- (ascii_nat_embedding e), <- (ascii_nat_embedding d). f_equal.
    destruct (Nat.ltb_spec (nat_of_ascii e) (nat_of_ascii d)), (Nat.ltb_spec (nat_of_ascii d) (nat_of_ascii e)),
      (Nat.eqb_spec (nat_of_ascii e) (nat_of_ascii d)), (Nat.eqb_spec (nat_of_ascii d) (nat_of_ascii e));
      simpl in *; try done; lia.
Qed.

Lemma str_leb_refl_prefix p r : str_leb p (p +:+ r) = true.
Proof.
  induction p as [|c p IH]; [by destruct r|]. unfold String.app in *. simpl.
  rewrite Nat.ltb_irrefl, Nat.eqb_refl. simpl. apply IH.
Qed.

Lemma elem_of_keys_from p cf k v :
  (k, v) ∈ keys_from p cf ↔ cf !! k = Some v ∧ str_leb p k = true.
Proof. unfold keys_from. rewrite elem_of_filter_cf. done. Qed.

(** A scan that stops at the first key without the prefix finds all that have it. *)
Lemma prefix_scan_filter p cf :
  take_while (λ kv, starts_with kv.1 p) (keys_from p cf)
  = List.filter (λ kv, starts_with kv.1 p) (keys_from p cf).
Proof.
  apply (take_while_filter str_le); [apply StronglySorted_filter_bool, sorted_cf_sorted|].
  intros [k v] [k' v'] Hk _ Hle Hp. apply elem_of_keys_from in Hk as [_ Hk].
  eapply leb_between; [exact Hk| |exact Hp]. by apply Is_true_true.
Qed.

Lemma elem_of_tenant_entries t cf k v :
  (k, v) ∈ tenant_entries t cf ↔ cf !! k = Some v ∧ starts_with k (t +:+ ":") = true.
Proof.
  unfold tenant_entries. rewrite prefix_scan_filter, list_elem_of_In, filter_In, <- list_elem_of_In,
    elem_of_keys_from. simpl. split; [naive_solver|]. intros [Hk Hp]. split_and!; [done| |done].
  apply starts_with_iff in Hp as [r ->]. apply str_leb_refl_prefix.
Qed.

Section Facts.
Context `{SchemaDbOk}.

(** The change under an identifier. *)
Definition change_at (s : SchemaEvolutionStore) (k : string) (e : SchemaChangeEvent) : Prop :=
  ∃ d, cf_schema_events s !! k = Some d ∧ decode_change d = Ok e.

(** An event that can be read back, with an identifier like those the code makes. *)
Definition recordable (e : SchemaChangeEvent) : Prop :=
  plain_change e ∧ str_contains_char ":" (sc_id e) = false.

(** Every stored change can be read and is under its identifier. *)
Definition schema_ok (s : SchemaEvolutionStore) : Prop :=
  ∀ k d, cf_schema_events s !! k = Some d →
    ∃ e, decode_change d = Ok e ∧ sc_id e = k ∧ str_contains_char ":" k = false.

(** Every stored change is in the index of its tenant. *)
Definition tenant_indexed (s : SchemaEvolutionStore) : Prop :=
  ∀ k e, change_at s k e → cf_by_tenant s !! tenant_key e = Some k.

Definition schema_same (s s' : SchemaEvolutionStore) : Prop :=
  cf_schema_events s' = cf_schema_events s ∧ cf_by_datasource s' = cf_by_datasource s ∧
  cf_by_table s' = cf_by_table s ∧ cf_by_time s' = cf_by_time s ∧
  cf_schema_versions s' = cf_schema_versions s ∧
  cf_versions_by_datasource s' = cf_versions_by_datasource s ∧ cf_by_tenant s' = cf_by_tenant s.

#[global] Instance schema_same_refl : Reflexive schema_same.
Proof. done. Qed.

Lemma schema_same_ok s s' : schema_same s s' → schema_ok s → schema_ok s'.
Proof. intros (He & _). unfold schema_ok. by rewrite He. Qed.

Definition schema_failed (e : SchemaError) : Prop := e = SchemaDbFailed.

Abbreviation sreads s0 := (reads (schema_same s0) schema_failed).

Lemma schema_io_reads s0 : sreads s0 (λ _, True) schema_io.
Proof. intros s Hs. split; [done|]. unfold schema_io. simpl. by destruct (schema_db_ok _). Qed.

Lemma sreads_io {A} s0 (Q : A → Prop) m : sreads s0 Q m → sreads s0 Q (_ ← schema_io; m).
Proof. intros Hm. eapply reads_bind; [apply schema_io_reads|done]. Qed.

Lemma sreads_field {A B} s0 (f : SchemaEvolutionStore → A) (Q : B → Prop)
    (m : A → method SchemaEvolutionStore SchemaError B) :
  (∀ s, schema_same s0 s → f s = f s0) → sreads s0 Q (m (f s0)) → sreads s0 Q (x ← gets f; m x).
Proof.
  intros Hf Hm. eapply (reads_bind _ _ (λ x, x = f s0)).
  - intros s Hs. split; [done|]. by apply Hf.
  - by intros x ->.
Qed.

Lemma sreads_lift {A} s0 (Q : A → Prop) (r : result SchemaError A) a :
  r = Ok a → Q a → sreads s0 Q (lift r).
Proof. intros -> HQ s Hs. done. Qed.

Lemma decode_recorded e : plain_change e → decode_change (change_to_bincode (wrap e)) = Ok e.
Proof. intros He. unfold decode_change. by rewrite bincode_change. Qed.

(** ** Recording *)

Lemma get_change_spec s0 k :
  schema_ok s0 →
  sreads s0 (λ o, ∀ e, o = Some e ↔ change_at s0 k e) (get_schema_change_event k).
Proof.
  intros Hok. unfold get_schema_change_event. apply sreads_io.
  apply sreads_field; [by intros s (-> & _)|]. unfold change_at.
  destruct (cf_schema_events s0 !! k) as [d|] eqn:Ed.
  - destruct (Hok k d Ed) as (e & He & _).
    eapply (reads_bind _ _ (λ x, x = e)); [by eapply sreads_lift|]. intros ? ->.
    apply reads_ret. intros e'. split; [intros [= <-]; eauto|]. naive_solver congruence.
  - apply reads_ret. naive_solver.
Qed.

Lemma put_inv f s s' r :
  put f s = (s', r) →
  (∃ s1, schema_same s s1 ∧ s' = f s1 ∧ r = Ok tt) ∨ (schema_same s s' ∧ r = Err SchemaDbFailed).
Proof.
  unfold put. intros Hp. pose proof (schema_io_reads s s (reflexivity s)) as [Hs Hr].
  destruct (method_bind_inv _ _ _ _ _ Hp) as [(s1 & [] & E1 & [= <- <-])|[(e & E1 & ->)|[E1 ->]]];
    rewrite E1 in *; simpl in *; [left; eauto|right|done].
  split; [done|]. by rewrite Hr.
Qed.

(** What a recording that ends in success leaves, and one that does not. *)
Lemma record_spec e s s' r :
  recordable e → schema_ok s → record_schema_change e s = (s', r) →
  schema_ok s' ∧
  match r with
  | Ok _ =>
      cf_schema_events s' = <[sc_id e := change_to_bincode (wrap e)]> (cf_schema_events s) ∧
      cf_by_datasource s' = <[datasource_key e := sc_id e]> (cf_by_datasource s) ∧
      cf_by_table s' = <[table_key e := sc_id e]> (cf_by_table s) ∧
      cf_by_time s' = <[time_key e := sc_id e]> (cf_by_time s) ∧
      cf_by_tenant s' = <[tenant_key e := sc_id e]> (cf_by_tenant s)
  | Err err => err = SchemaDbFailed
  | Panic => False
  end.
Proof.
  intros [Hp Hid] Hok.
  assert (∀ t, cf_schema_events t = cf_schema_events s ∨
    cf_schema_events t = <[sc_id e := change_to_bincode (wrap e)]> (cf_schema_events s) → schema_ok t) as Hev.
  { intros t [Ht|Ht]; unfold schema_ok; rewrite Ht; [done|]. intros k d.
    destruct (decide (sc_id e = k)) as [<-|Hk].
    - rewrite lookup_insert_eq. intros [= <-]. exists e. split_and!; [by apply decode_recorded|done..].
    - rewrite lookup_insert_ne by done. apply Hok. }
  unfold record_schema_change. intros Hr.
  repeat (apply method_bind_inv in Hr as [(? & [] & Hput & Hr)|[(? & Hput & ->)|[Hput ->]]];
    apply put_inv in Hput as [(? & (? & ? & ? & ? & ? & ? & ?) & -> & ?)|[(? & ? & ? & ? & ? & ? & ?) ?]];
    simplify_eq/=; [|split; [apply Hev; simpl; solve [left; congruence|right; congruence]|done]]).
  apply put_inv in Hr as [(? & (? & ? & ? & ? & ? & ? & ?) & -> & ->)|[(? & ? & ? & ? & ? & ? & ?) ->]];
    simplify_eq/=.
  - split; [apply Hev; right; simpl; congruence|]. split_and!; congruence.
  - split; [apply Hev; right; simpl; congruence|done].
Qed.

Lemma change_at_ok s k e : schema_ok s → change_at s k e → sc_id e = k.
Proof. intros Hok (d & Hd & He). destruct (Hok k d Hd) as (e' & He' & <- & _). congruence. Qed.

Lemma change_at_insert s s' e k e' :
  plain_change e → cf_schema_events s' = <[sc_id e := change_to_bincode (wrap e)]> (cf_schema_events s) →
  change_at s' k e' ↔ (k = sc_id e ∧ e' = e) ∨ (k ≠ sc_id e ∧ change_at s k e').
Proof.
  intros Hp Hs. unfold change_at. rewrite Hs. destruct (decide (k = sc_id e)) as [->|Hk].
  - rewrite lookup_insert_eq. split.
    + intros (d & [= <-] & He). rewrite decode_recorded in He by done. naive_solver.
    + intros [[_ ->]|[? _]]; [|done]. eexists. split; [done|by apply decode_recorded].
  - rewrite lookup_insert_ne by done. naive_solver.
Qed.

(** A change that is recorded is found under its identifier, the others as before, and
    every change stays in the index of its tenant. *)
Theorem change_recorded e s s' :
  recordable e → schema_ok s → tenant_indexed s → record_schema_change e s = (s', Ok tt) →
  schema_ok s' ∧ tenant_indexed s' ∧
  ∀ k e', change_at s' k e' ↔ (k = sc_id e ∧ e' = e) ∨ (k ≠ sc_id e ∧ change_at s k e').
Proof.
  intros He Hok Hix Hr. pose proof He as [Hp Hid].
  apply record_spec in Hr as (Hok' & Hev & _ & _ & _ & Htn); [|done..].
  split_and!; [done| |intros; by apply change_at_insert].
  intros k e' He'. rewrite Htn. 
  apply (change_at_insert s s' e k e' Hp Hev) in He' as [[-> ->]|[Hk He']].
  { apply lookup_insert_eq. }
  rewrite lookup_insert_ne; [by apply Hix|]. intros Eq. apply Hk.
  pose proof He' as (d & Hd & _). destruct (Hok k d Hd) as (_ & _ & _ & Hcol).
  rewrite <- (change_at_ok s k e' Hok He') in *. symmetry.
  by eapply (no_char_suffix ":" (sc_tenant e) (sc_tenant e')).
Qed.

(** ** Erasure *)

Lemma all_changes_spec s0 :
  schema_ok s0 → sreads s0 (λ es, ∀ e, e ∈ es ↔ ∃ k, change_at s0 k e) all_changes.
Proof.
  intros Hok. unfold all_changes. apply sreads_io. apply sreads_field; [by intros s (-> & _)|].
  eapply reads_weaken; [|apply (reads_mapM _ _ (λ kv e, decode_change kv.2 = Ok e))].
  - intros es Hes e. split.
    + intros [i Hi]%list_elem_of_lookup.
      destruct (Forall2_lookup_r _ _ _ _ _ Hes Hi) as ([k d] & Hk & He).
      exists k, d. split; [|done]. apply elem_of_sorted_cf. by eapply list_elem_of_lookup_2.
    + intros (k & d & Hd & He). apply elem_of_sorted_cf, list_elem_of_lookup in Hd as [i Hi].
      destruct (Forall2_lookup_l _ _ _ _ _ Hes Hi) as (e' & He' & Hdec). simpl in Hdec.
      assert (e' = e) as -> by congruence. by eapply list_elem_of_lookup_2.
  - intros [k d] Hd%elem_of_sorted_cf. destruct (Hok k d Hd) as (e & He & _). by eapply sreads_lift.
Qed.

Definition user_ids (u : string) (s : SchemaEvolutionStore) (ids : list string) : Prop :=
  ∀ k, k ∈ ids ↔ ∃ e, change_at s k e ∧ change_of_user u e = true.

Lemma user_ids_spec s0 u : schema_ok s0 → sreads s0 (user_ids u s0) (get_user_event_ids u).
Proof.
  intros Hok. eapply reads_bind; [by apply all_changes_spec|]. intros es Hes. apply reads_ret.
  intros k. rewrite list_elem_of_fmap. split.
  - intros (e & -> & [Hin Hu]%list_elem_of_In%filter_In). apply list_elem_of_In, Hes in Hin as [k Hk].
    exists e. by rewrite (change_at_ok s0 k e).
  - intros (e & Hk & Hu). exists e. split; [by rewrite (change_at_ok s0 k e)|].
    apply list_elem_of_In, filter_In. split; [|done]. apply list_elem_of_In, Hes. eauto.
Qed.

Lemma delete_changes_at ids keys s k e :
  change_at (delete_changes ids keys s) k e ↔ change_at s k e ∧ k ∉ ids.
Proof. unfold change_at. simpl. setoid_rewrite delete_keys_Some. naive_solver. Qed.

Lemma delete_changes_ok ids keys s : schema_ok s → schema_ok (delete_changes ids keys s).
Proof. intros Hok k d [Hd _]%delete_keys_Some. by apply Hok. Qed.

Lemma change_at_same s s' k e : schema_same s s' → change_at s' k e ↔ change_at s k e.
Proof. intros (He & _). unfold change_at. by rewrite He. Qed.

Definition schema_no_records (d : DataSubjectId) (s : SchemaEvolutionStore) : Prop :=
  if String.eqb (id_type d) "user_id" then
    ∀ k e, change_at s k e → change_of_user (subject_id d) e = false
  else if String.eqb (id_type d) "tenant_id" then tenant_entries (subject_id d) (cf_by_tenant s) = []
  else False.

Lemma schema_same_none s s' d : schema_same s s' → schema_no_records d s → schema_no_records d s'.
Proof.
  intros Hs. unfold schema_no_records. destruct (String.eqb _ "user_id").
  - intros Hn k e Hk. apply (Hn k). by rewrite <- change_at_same.
  - by destruct Hs as (_ & _ & _ & _ & _ & _ & ->).
Qed.

Lemma nil_user_ids u s ids : user_ids u s ids → ids = [] →
  ∀ k e, change_at s k e → change_of_user u e = false.
Proof.
  intros Hids -> k e Hk. apply not_true_is_false. intros Hu.
  destruct (Hids k) as [_ Hin]. by apply not_elem_of_nil in Hin; eauto.
Qed.

(** Erasing a user removes that user's changes and no others, from the changes and from
    the index of every tenant; one that fails removes nothing. *)
Theorem schema_user_erased u s s' r :
  schema_ok s → erase_user_events u false s = (s', r) →
  match r with
  | Ok _ =>
      schema_ok s' ∧ (tenant_indexed s → tenant_indexed s') ∧
      ∀ k e, change_at s' k e ↔ change_at s k e ∧ change_of_user u e = false
  | Err err => schema_same s s' ∧ err = SchemaDbFailed
  | Panic => False
  end.
Proof.
  intros Hok Hw. unfold erase_user_events in Hw.
  destruct (user_ids_spec s u Hok s (reflexivity s)) as [Hs1 Hids].
  destruct (method_bind_inv _ _ _ _ _ Hw) as [(s1 & ids & E1 & Hw1)|[(err & E1 & ->)|[E1 ->]]];
    rewrite E1 in *; simpl in *; [|done..]. clear Hw E1.
  destruct (Z.eqb_spec (Z.of_nat (length ids)) 0) as [Hz|Hz].
  { injection Hw1 as <- <-. assert (ids = []) as -> by (destruct ids; [done|simpl in Hz; lia]).
    split_and!; [by eapply schema_same_ok| |].
    - intros Hix k e Hk. rewrite (change_at_same s) in Hk by done.
      destruct Hs1 as (_ & _ & _ & _ & _ & _ & ->). by apply Hix.
    - intros k e. rewrite (change_at_same s) by done. split; [|naive_solver].
      intros Hk. split; [done|]. by eapply nil_user_ids. }
  destruct (schema_io_reads s s1 Hs1) as [Hs2 Hio2].
  destruct (method_bind_inv _ _ _ _ _ Hw1) as [(s2 & [] & E2 & Hw2)|[(err & E2 & ->)|[E2 ->]]];
    rewrite E2 in *; simpl in *; [|done..].
  unfold gets at 1 in Hw2. unfold mbind at 1, method_MBind at 1, method_bind at 1 in Hw2.
  destruct (schema_io_reads s s2 Hs2) as [Hs3 Hio3].
  destruct (method_bind_inv _ _ _ _ _ Hw2) as [(s3 & [] & E3 & Hw3)|[(err & E3 & ->)|[E3 ->]]];
    rewrite E3 in *; simpl in *; [|done..].
  injection Hw3 as <- <-.
  assert (∀ k e, change_at s k e → change_of_user u e = false ↔ k ∉ ids) as Hnot.
  { intros k e Hk. rewrite (Hids k). split.
    - intros Hu (e' & Hk' & Hu'). destruct Hk as (d & Hd & He), Hk' as (d' & Hd' & He'). congruence.
    - intros Hn. apply not_true_is_false. intros Hu. apply Hn. eauto. }
  split_and!.
  - by eapply delete_changes_ok, schema_same_ok.
  - intros Hix k e. rewrite delete_changes_at, (change_at_same s) by done. intros [Hk Hn].
    simpl. apply delete_keys_Some. destruct Hs3 as (_ & _ & _ & _ & _ & _ & ->).
    split; [by apply Hix|]. intros ([k' i] & Ek & Hin)%list_elem_of_fmap. simpl in Ek.
    apply list_elem_of_In, filter_In in Hin as [Hin Hi%bool_decide_eq_true].
    apply list_elem_of_In, elem_of_sorted_cf in Hin.
    destruct Hs2 as (_ & _ & _ & _ & _ & _ & Es2). rewrite Es2, <- Ek, (Hix k e Hk) in Hin.
    simpl in Hi. congruence.
  - intros k e. rewrite delete_changes_at, (change_at_same s) by done. naive_solver.
Qed.

Lemma schema_tenant_ids_spec s0 t :
  sreads s0 (λ ids, ids = (tenant_entries t (cf_by_tenant s0)).*2) (get_tenant_event_ids t).
Proof.
  unfold get_tenant_event_ids. apply sreads_io. intros s Hs. split; [done|].
  simpl. by destruct Hs as (_ & _ & _ & _ & _ & _ & ->).
Qed.

Lemma deleted_tenant_entries t cf :
  tenant_entries t (delete_keys (tenant_entries t cf).*1 cf) = [].
Proof.
  apply elem_of_nil_inv. intros [k v] [[Hk Hn]%delete_keys_Some Hp]%elem_of_tenant_entries.
  apply Hn, list_elem_of_fmap. exists (k, v). split; [done|]. by apply elem_of_tenant_entries.
Qed.

(** The erasure of a tenant once its identifiers are read. *)
Lemma erase_tenant_entries t s s1 s' r :
  schema_ok s → schema_same s s1 →
  erase_tenant_events t (tenant_entries t (cf_by_tenant s)).*2 s1 = (s', r) →
  match r with
  | Ok _ =>
      schema_ok s' ∧ tenant_entries t (cf_by_tenant s') = [] ∧
      ∀ k e, change_at s' k e ↔ change_at s k e ∧ k ∉ (tenant_entries t (cf_by_tenant s)).*2
  | Err err => schema_same s s' ∧ err = SchemaDbFailed
  | Panic => False
  end.
Proof.
  intros Hok Hs1 Hw.
  destruct (schema_io_reads s s1 Hs1) as [Hs2 Hio2].
  destruct (method_bind_inv _ _ _ _ _ Hw) as [(s2 & [] & E2 & Hw2)|[(err & E2 & ->)|[E2 ->]]];
    rewrite E2 in *; simpl in *; [|done..].
  unfold gets at 1 in Hw2. unfold mbind at 1, method_MBind at 1, method_bind at 1 in Hw2.
  destruct (schema_io_reads s s2 Hs2) as [Hs3 Hio3].
  destruct (method_bind_inv _ _ _ _ _ Hw2) as [(s3 & [] & E3 & Hw3)|[(err & E3 & ->)|[E3 ->]]];
    rewrite E3 in *; simpl in *; [|done..].
  injection Hw3 as <- <-. split_and!.
  - by eapply delete_changes_ok, schema_same_ok.
  - simpl. destruct Hs2 as (_ & _ & _ & _ & _ & _ & ->), Hs3 as (_ & _ & _ & _ & _ & _ & ->).
    apply deleted_tenant_entries.
  - intros k e. by rewrite delete_changes_at, (change_at_same s).
Qed.

Lemma schema_count_user_spec s0 u :
  schema_ok s0 →
  sreads s0 (λ n, (∀ k e, change_at s0 k e → change_of_user u e = false) → n = 0) (count_user_events u).
Proof.
  intros Hok. eapply reads_bind; [by apply user_ids_spec|]. intros ids Hids. apply reads_ret.
  intros Hn. destruct ids as [|k ids]; [done|]. destruct (Hids k) as [(e & Hk & Hu) _]; [by left|].
  by rewrite (Hn k e Hk) in Hu.
Qed.

Lemma schema_count_tenant_spec s0 t :
  sreads s0 (λ n, tenant_entries t (cf_by_tenant s0) = [] → n = 0) (count_tenant_events t).
Proof.
  eapply reads_bind; [apply schema_tenant_ids_spec|]. intros ? ->. apply reads_ret. by intros ->.
Qed.

Abbreviation left_schema := (erasure_left schema_ok schema_same schema_no_records).

Lemma schema_quiet r st s s' res (m : method SchemaEvolutionStore SchemaError Z) category :
  schema_ok s → dry_run r = true → sreads s (λ _, True) m →
  (n ← m; mret (one_report "schema_evolution" r st (dry_report "schema_evolution" category n))) s
    = (s', res) →
  match res with
  | Ok x => left_schema r s s' x
  | Err e => schema_same s s' ∧ e = SchemaDbFailed
  | Panic => False
  end.
Proof.
  intros Hok Hd Hm Hw.
  eapply (quiet_erasure _ _ _ schema_failed "schema_evolution" r st s s' res
            (n ← m; mret (dry_report "schema_evolution" category n))).
  - done.
  - intros. by eapply schema_same_ok.
  - intros. by eapply schema_same_none.
  - reflexivity.
  - eapply reads_bind; [exact Hm|]. intros n _. apply reads_ret. split; [done|congruence].
  - rewrite <- Hw. apply (bind_ret_bind _ (dry_report _ _) (λ b, mret (one_report _ r st b))).
Qed.

Lemma schema_erase_spec r st s s' res :
  schema_ok s → erase_schema_subject r st s = (s', res) →
  match res with
  | Ok x => left_schema r s s' x
  | Err e => schema_same s s' ∧ e = SchemaDbFailed
  | Panic => False
  end.
Proof.
  intros Hok. unfold erase_schema_subject.
  destruct (String.eqb (id_type (data_subject r)) "user_id") eqn:Eu.
  - destruct (dry_run r) eqn:Edry; intros Hw.
    + eapply schema_quiet; [done|done| |exact Hw].
      eapply reads_weaken; [|by apply schema_count_user_spec]. done.
    + destruct (method_bind_inv _ _ _ _ _ Hw) as [(s1 & n & E1 & [= <- <-])|[(err & E1 & ->)|[E1 ->]]];
        apply schema_user_erased in E1; try done.
      destruct E1 as (Hok' & _ & Hch). split_and!; [done|apply one_report_success|congruence|].
      intros _ _. unfold schema_no_records. rewrite Eu. intros k e Hk. by apply Hch in Hk as [_ ?].
  - destruct (String.eqb (id_type (data_subject r)) "tenant_id") eqn:Et; simpl.
    2:{ intros [= <- <-]. split_and!; [done|apply one_report_success| |done].
        intros _. split; [reflexivity|by apply one_report_zero]. }
    destruct (dry_run r) eqn:Edry; intros Hw.
    { eapply schema_quiet; [done|done| |exact Hw].
      eapply reads_weaken; [|by apply schema_count_tenant_spec]. done. }
    destruct (schema_tenant_ids_spec s (subject_id (data_subject r)) s (reflexivity s)) as [Hs1 Hids].
    destruct (method_bind_inv _ _ _ _ _ Hw) as [(s1 & ids & E1 & Hw1)|[(err & E1 & ->)|[E1 ->]]];
      rewrite E1 in *; simpl in *; [|done..]. subst ids. rewrite length_fmap in Hw1.
    destruct (Nat.eqb_spec (length (tenant_entries (subject_id (data_subject r)) (cf_by_tenant s))) 0)
      as [El|El].
    + injection Hw1 as <- <-. apply nil_length_inv in El.
      split_and!; [by eapply schema_same_ok|apply one_report_success|congruence|].
      intros _ _. apply (schema_same_none s); [done|]. unfold schema_no_records. by rewrite Eu, Et.
    + destruct (method_bind_inv _ _ _ _ _ Hw1) as [(s2 & [] & E2 & Hw2)|[(err & E2 & ->)|[E2 ->]]];
        apply (erase_tenant_entries _ s) in E2; try done.
      injection Hw2 as <- <-. destruct E2 as (Hok' & Hnil & _).
      split_and!; [done|apply one_report_success|congruence|].
      intros _ _. unfold schema_no_records. by rewrite Eu, Et.
Qed.

Lemma schema_count_spec d s s' res :
  schema_ok s → count_schema_subject d s = (s', res) →
  schema_same s s' ∧
  match res with
  | Ok n => schema_no_records d s → n = 0
  | Err _ => True
  | Panic => False
  end.
Proof.
  intros Hok Hw. unfold count_schema_subject in Hw. unfold schema_no_records.
  destruct (String.eqb_spec (id_type d) "tenant_id") as [Et|Et].
  - rewrite Et. simpl. destruct (schema_count_tenant_spec s (subject_id d) s (reflexivity s)) as [Hs' Hn].
    rewrite Hw in *. split; [done|]. by destruct res.
  - destruct (String.eqb_spec (id_type d) "user_id") as [Eu|Eu].
    + destruct (schema_count_user_spec s (subject_id d) Hok s (reflexivity s)) as [Hs' Hn].
      rewrite Hw in *. split; [done|]. by destruct res.
    + injection Hw as <- <-. done.
Qed.

(** C26: erasing a tenant from the store of schema changes, when it succeeds on a store whose
    changes are all indexed, leaves no change of that tenant, and no change that is not
    in the tenant's index is lost. *)
Theorem tenant_changes_erased r st s s' x :
  schema_ok s → tenant_indexed s → id_type (data_subject r) = "tenant_id" → dry_run r = false →
  erase_schema_subject r st s = (s', Ok x) →
  let t := subject_id (data_subject r) in
  success x = true ∧ (∀ k e, change_at s' k e → sc_tenant e ≠ t) ∧
  ∀ k e, change_at s k e → k ∉ (tenant_entries t (cf_by_tenant s)).*2 → change_at s' k e.
Proof.
  intros Hok Hix Et Hd Hw t. unfold erase_schema_subject in Hw. rewrite Et, Hd in Hw. simpl in Hw.
  fold t in Hw.
  assert (∀ k e, change_at s k e → sc_tenant e = t →
            k ∈ (tenant_entries t (cf_by_tenant s)).*2) as Hin.
  { intros k e Hk Ht. apply list_elem_of_fmap. exists (tenant_key e, k). split; [done|].
    apply elem_of_tenant_entries. split; [by apply Hix|]. unfold tenant_key. rewrite Ht.
    apply starts_with_iff. exists (sc_id e). by rewrite str_app_assoc. }
  destruct (schema_tenant_ids_spec s t s (reflexivity s)) as [Hs1 Hids].
  apply method_bind_Ok in Hw as (s1 & ids & E1 & Hw1). rewrite E1 in *; simpl in *. subst ids.
  rewrite length_fmap in Hw1.
  destruct (Nat.eqb_spec (length (tenant_entries t (cf_by_tenant s))) 0) as [El|El].
  - injection Hw1 as <- <-. apply nil_length_inv in El. split_and!; [done| |].
    + intros k e Hk Ht. rewrite (change_at_same s) in Hk by done. specialize (Hin k e Hk Ht).
      rewrite El in Hin. by apply not_elem_of_nil in Hin.
    + intros k e Hk _. by rewrite (change_at_same s).
  - apply method_bind_Ok in Hw1 as (s2 & [] & E2 & Hw2).
    apply (erase_tenant_entries t s) in E2 as (_ & _ & Hch); [|done..]. injection Hw2 as <- <-.
    split_and!; [done| |].
    + intros k e [Hk Hn]%Hch Ht. eauto.
    + intros k e Hk Hn. by apply Hch.
Qed.
End Facts.

#[export] Instance schema_erasure_ok `{SchemaDbOk} : ErasureOk.
Proof.
  refine {| backend_ok := schema_ok; backend_same := schema_same; no_records := schema_no_records;
            settled _ := True |}.
  - intros r st s Hok. simpl. destruct (erase_schema_subject r st s) as [s' res] eqn:E.
    pose proof (schema_erase_spec r st s s' res Hok E) as Hr.
    destruct res as [x|e|]; [exact Hr| |done]. destruct Hr as [Hs _]. split; [|done].
    by eapply schema_same_ok.
  - done.
  - intros d s Hok. simpl. destruct (count_schema_subject d s) as [s' res] eqn:E.
    destruct (schema_count_spec d s s' res Hok E) as [Hs Hr]. split; [|by split].
    by eapply schema_same_ok.
Defined.
