(* ===== verification/ColumnLineage.v ===== *)
(** * The store of column lineage

    Models the columns and events of [core/lineage/column_level.rs] and their store in
    RocksDB, [storage/column_lineage_store.rs] of the coordinator: the buffer, the eight
    indexes a batch of events is entered in, the lookups, and the erasure of a user's or
    a tenant's data.  The encodings, the order of a hash set and which operations of the
    database fail are parameters.  A batch of writes is applied as a whole; the reads
    made while it is built see the database without it.  The graphs and impact analyses
    over the store are in [ColumnGraph]. *)

From Stdlib Require Import ZArith Lia Ascii.
From stdpp Require Import base numbers option strings gmap list.
From S2P Require Import Prelude RustStd Effects F64 WfRouting KvScan Gdpr.

Local Open Scope Z_scope.

(** ** Columns and events *)

Record ColumnRef : Type := {
  datasource_id : string;
  schema : option string;
  ref_table : string;
  ref_column : string;
  ref_data_type : string;
}.

#[global] Instance ColumnRef_eq_dec : EqDecision ColumnRef.
Proof. solve_decision. Defined.
#[global] Instance ColumnRef_countable : Countable ColumnRef.
Proof.
  refine (inj_countable'
    (λ c, (datasource_id c, schema c, ref_table c, ref_column c, ref_data_type c))
    (λ '(d, s, t, c, y), {| datasource_id := d; schema := s; ref_table := t; ref_column := c;
                            ref_data_type := y |}) _).
  by intros [].
Defined.

Definition fully_qualified_name (c : ColumnRef) : string :=
  match schema c with
  | Some s => datasource_id c +:+ "." +:+ s +:+ "." +:+ ref_table c +:+ "." +:+ ref_column c
  | None => datasource_id c +:+ "." +:+ ref_table c +:+ "." +:+ ref_column c
  end.

Inductive TransformationType : Type :=
| DirectCopy
| SqlExpression
| UdfTransformation (udf_name : string)
| Aggregation (function : string) (group_by : option (list string))
| Join (join_type join_condition : string)
| TypeCast (from_type to_type : string)
| Concatenation (separator : option string)
| Substring (start : Z) (length : option Z)
| Conditional
| MathOperation (operation : string)
| DateTimeOperation (operation : string)
| Lookup (reference_table : string)
| MlTransformation (model_id model_version : string)
| CustomTransformation (description : string).

Record ColumnLineageEvent : Type := {
  cl_id : string;
  source_columns : list ColumnRef;
  target_column : ColumnRef;
  transformation_logic : string;
  transformation_type : TransformationType;
  cl_job : string;
  cl_workflow : option string;
  cl_tenant : string;
  cl_created_at : Z;
  confidence : option f64;
  created_by : string;
  cl_metadata : option Json;
}.

(** The form that is stored: the metadata is a text. *)
Record SerializableColumnLineageEvent : Type := {
  ser_id : string;
  ser_sources : list ColumnRef;
  ser_target : ColumnRef;
  ser_logic : string;
  ser_type : TransformationType;
  ser_job : string;
  ser_workflow : option string;
  ser_tenant : string;
  ser_created_at : Z;
  ser_confidence : option f64;
  ser_created_by : string;
  metadata_json : option string;
}.

Inductive ColumnError : Type :=
| ColumnDbFailed
| ColumnDecodeFailed
| ColumnCompressFailed
| MetadataInvalid (text : string)
| ColumnUnsupported (id_type : string).

Class ColumnDb : Type := {
  json_to_text : Json → string;
  json_of_text : string → option Json;
  events_to_bincode : list SerializableColumnLineageEvent → string;
  events_of_bincode : string → option (list SerializableColumnLineageEvent);
  refs_to_bincode : list ColumnRef → string;
  refs_of_bincode : string → option (list ColumnRef);
  versioned_refs_to_bincode : VersionedData (list ColumnRef) → string;
  versioned_refs_of_bincode : string → option (VersionedData (list ColumnRef));
  versioned_events_to_bincode : VersionedData (list ColumnLineageEvent) → string;
  versioned_events_of_bincode : string → option (VersionedData (list ColumnLineageEvent));
  full_events_of_bincode : string → option (list ColumnLineageEvent);
  column_zstd_encode : string → option string;
  column_zstd_decode : string → option string;
  (** the order of a hash set *)
  ref_entries : gset ColumnRef → list ColumnRef;
  (** whether the operation of this number succeeds *)
  column_db_ok : nat → bool;
  column_error_text : ColumnError → string;
}.

(** [bytes.len() > 4 && bytes[0..4] == magic]. *)
Definition zstd_marked (bytes : string) : bool :=
  (4 <? str_size bytes) &&
  starts_with bytes (String "040" (String "181" (String "047" (String "253" EmptyString)))).

(** What the encodings promise: everything is read back, compressed data has its mark,
    and a list does not have it: it starts with its length, which would have to be
    4247762216. *)
Class ColumnDbOk `{ColumnDb} : Prop := {
  bincode_events es : events_of_bincode (events_to_bincode es) = Some es;
  bincode_unmarked es : zstd_marked (events_to_bincode es) = false;
  column_zstd_total s : is_Some (column_zstd_encode s);
  column_zstd_marked s z : column_zstd_encode s = Some z →
    zstd_marked z = true ∧ column_zstd_decode z = Some s;
  bincode_refs l : refs_of_bincode (refs_to_bincode l) = Some l;
  bincode_versioned_refs v :
    versioned_refs_of_bincode (versioned_refs_to_bincode v) = Some v;
  ref_entries_perm s : ref_entries s ≡ₚ elements s;
  column_json_reads j : is_Some (json_of_text (json_to_text j));
}.

Section Store.
Context `{ColumnDb}.

Definition to_serializable (e : ColumnLineageEvent) : SerializableColumnLineageEvent :=
  {| ser_id := cl_id e; ser_sources := source_columns e; ser_target := target_column e;
     ser_logic := transformation_logic e; ser_type := transformation_type e; ser_job := cl_job e;
     ser_workflow := cl_workflow e; ser_tenant := cl_tenant e; ser_created_at := cl_created_at e;
     ser_confidence := confidence e; ser_created_by := created_by e;
     metadata_json := json_to_text <$> cl_metadata e |}.

Definition of_serializable (e : SerializableColumnLineageEvent) : result ColumnError ColumnLineageEvent :=
  metadata ← match metadata_json e with
             | Some text =>
                 if String.eqb text "" then Ok None
                 else v ← ok_or (json_of_text text) (MetadataInvalid text); Ok (Some v)
             | None => Ok None
             end;
  Ok {| cl_id := ser_id e; source_columns := ser_sources e; target_column := ser_target e;
        transformation_logic := ser_logic e; transformation_type := ser_type e; cl_job := ser_job e;
        cl_workflow := ser_workflow e; cl_tenant := ser_tenant e; cl_created_at := ser_created_at e;
        confidence := ser_confidence e; created_by := ser_created_by e; cl_metadata := metadata |}.

Definition decompressed (bytes : string) : result ColumnError string :=
  if zstd_marked bytes then ok_or (column_zstd_decode bytes) ColumnDecodeFailed else Ok bytes.

Definition decode_serializable_events (bytes : string)
    : result ColumnError (list SerializableColumnLineageEvent) :=
  d ← decompressed bytes; ok_or (events_of_bincode d) ColumnDecodeFailed.

Definition encode_serializable_events (es : list SerializableColumnLineageEvent)
    : result ColumnError string :=
  let serialized := events_to_bincode es in
  if 1024 <? str_size serialized then ok_or (column_zstd_encode serialized) ColumnCompressFailed
  else Ok serialized.

Definition encode_table_key (c : ColumnRef) : string :=
  match schema c with
  | Some s => datasource_id c +:+ "." +:+ s +:+ "." +:+ ref_table c
  | None => datasource_id c +:+ "." +:+ ref_table c
  end.

Definition encode_transform_type (t : TransformationType) : string :=
  match t with
  | DirectCopy => "DIRECT_COPY"
  | SqlExpression => "SQL_EXPRESSION"
  | UdfTransformation n => "UDF:" +:+ n
  | Aggregation f _ => "AGG:" +:+ f
  | Join j _ => "JOIN:" +:+ j
  | TypeCast a b => "CAST:" +:+ a +:+ ":" +:+ b
  | Concatenation _ => "CONCAT"
  | Substring _ _ => "SUBSTRING"
  | Conditional => "CONDITIONAL"
  | MathOperation o => "MATH:" +:+ o
  | DateTimeOperation o => "DATETIME:" +:+ o
  | Lookup t => "LOOKUP:" +:+ t
  | MlTransformation m _ => "ML:" +:+ m
  | CustomTransformation d => "CUSTOM:" +:+ d
  end.

(** ** The store *)

Record ColumnLineageStore : Type := {
  cl_by_column : gmap string string;
  cl_by_table : gmap string string;
  cl_by_transform : gmap string string;
  cl_by_job : gmap string string;
  cl_by_workflow : gmap string string;
  cl_derived : gmap string string;
  cl_by_tenant : gmap string string;
  cl_by_source : gmap string string;
  column_buffer : list ColumnLineageEvent;
  column_ops : nat;
}.

Definition new_column_store : ColumnLineageStore :=
  {| cl_by_column := ∅; cl_by_table := ∅; cl_by_transform := ∅; cl_by_job := ∅;
     cl_by_workflow := ∅; cl_derived := ∅; cl_by_tenant := ∅; cl_by_source := ∅;
     column_buffer := []; column_ops := 0 |}.

Definition set_column_buffer (b : list ColumnLineageEvent) (s : ColumnLineageStore) : ColumnLineageStore :=
  {| cl_by_column := cl_by_column s; cl_by_table := cl_by_table s;
     cl_by_transform := cl_by_transform s; cl_by_job := cl_by_job s;
     cl_by_workflow := cl_by_workflow s; cl_derived := cl_derived s;
     cl_by_tenant := cl_by_tenant s; cl_by_source := cl_by_source s;
     column_buffer := b; column_ops := column_ops s |}.

Abbreviation ColumnM := (method ColumnLineageStore ColumnError).

Definition column_io : ColumnM unit := λ s,
  ({| cl_by_column := cl_by_column s; cl_by_table := cl_by_table s;
      cl_by_transform := cl_by_transform s; cl_by_job := cl_by_job s;
      cl_by_workflow := cl_by_workflow s; cl_derived := cl_derived s;
      cl_by_tenant := cl_by_tenant s; cl_by_source := cl_by_source s;
      column_buffer := column_buffer s; column_ops := S (column_ops s) |},
   if column_db_ok (column_ops s) then Ok tt else Err ColumnDbFailed).

(** [db.get_cf]. *)
Definition get_value (cf : ColumnLineageStore → gmap string string) (k : string)
    : ColumnM (option string) :=
  _ ← column_io; gets (λ s, cf s !! k).

(** ** Writes *)

(** The indexes that one batch builds. *)
Record ColumnIndexes : Type := {
  ix_columns : gmap string string;
  ix_tables : gmap string (gset ColumnRef);
  ix_transforms : gmap string (gset ColumnRef);
  ix_jobs : gmap string (list ColumnLineageEvent);
  ix_workflows : gmap string (list ColumnLineageEvent);
  ix_derived : gmap string (gset ColumnRef);
  ix_tenants : gmap string (gset ColumnRef);
  ix_sources : gmap string (list ColumnRef);
}.

Definition no_indexes : ColumnIndexes :=
  {| ix_columns := ∅; ix_tables := ∅; ix_transforms := ∅; ix_jobs := ∅; ix_workflows := ∅;
     ix_derived := ∅; ix_tenants := ∅; ix_sources := ∅ |}.

(** [map.entry(k).or_default().insert(c)], and with [push]. *)
Definition insert_ref (k : string) (c : ColumnRef) (m : gmap string (gset ColumnRef))
    : gmap string (gset ColumnRef) := <[k := {[c]} ∪ default ∅ (m !! k)]> m.
Definition push_entry {A} (k : string) (x : A) (m : gmap string (list A)) : gmap string (list A) :=
  <[k := default [] (m !! k) ++ [x]]> m.

(** The events of the target with the new one. *)
Definition append_column_event (rows : gmap string string) (e : ColumnLineageEvent)
    : ColumnM (gmap string string) :=
  let target_key := fully_qualified_name (target_column e) in
  existing ← get_value cl_by_column target_key;
  old ← match existing with
        | Some bytes => d ← lift (decompressed bytes); mret (default [] (events_of_bincode d))
        | None => mret []
        end;
  data ← lift (encode_serializable_events (old ++ [to_serializable e]));
  mret (<[target_key := data]> rows).

Definition index_column_event (ix : ColumnIndexes) (e : ColumnLineageEvent) : ColumnM ColumnIndexes :=
  columns ← append_column_event (ix_columns ix) e;
  let target := target_column e in
  let sources := fully_qualified_name <$> source_columns e in
  mret {| ix_columns := columns;
          ix_tables := insert_ref (encode_table_key target) target (ix_tables ix);
          ix_transforms :=
            insert_ref (encode_transform_type (transformation_type e)) target (ix_transforms ix);
          ix_jobs := push_entry (cl_job e) e (ix_jobs ix);
          ix_workflows := match cl_workflow e with
                          | Some w => push_entry w e (ix_workflows ix)
                          | None => ix_workflows ix
                          end;
          ix_derived := foldl (λ m k, insert_ref k target m) (ix_derived ix) sources;
          ix_tenants := insert_ref (cl_tenant e) target (ix_tenants ix);
          ix_sources := foldl (λ m k, push_entry k target m) (ix_sources ix) sources |}.

Definition unwrap_refs (v : VersionedData (list ColumnRef)) : option (list ColumnRef) :=
  match unwrap_current v with Ok l => Some l | _ => None end.

(** The columns of a versioned value, or of an old one without a version. *)
Definition decode_versioned (bytes : string) : option (list ColumnRef) :=
  versioned_refs_of_bincode bytes ≫= unwrap_refs.
Definition decode_refs (bytes : string) : option (list ColumnRef) :=
  match decode_versioned bytes with
  | Some l => Some l
  | None => refs_of_bincode bytes
  end.

(** A set merged with what the database has, written back. *)
Definition merge_refs (cf : ColumnLineageStore → gmap string string)
    (decode : string → option (list ColumnRef)) (encode : list ColumnRef → string)
    (x : string * gset ColumnRef) : ColumnM (string * string) :=
  existing ← get_value cf x.1;
  let old := match existing with Some d => default [] (decode d) | None => [] end in
  mret (x.1, encode (ref_entries (x.2 ∪ list_to_set old))).

(** Sorted by name, stable, the first of each name kept. *)
Fixpoint insert_named (c : ColumnRef) (l : list ColumnRef) : list ColumnRef :=
  match l with
  | [] => [c]
  | c' :: l' =>
      if str_leb (fully_qualified_name c') (fully_qualified_name c)
      then c' :: insert_named c l' else c :: c' :: l'
  end.
Definition sort_named (l : list ColumnRef) : list ColumnRef := foldl (λ acc c, insert_named c acc) [] l.
Fixpoint dedup_named (l : list ColumnRef) : list ColumnRef :=
  match l with
  | [] => []
  | c :: l' =>
      match dedup_named l' with
      | c' :: l'' =>
          if String.eqb (fully_qualified_name c) (fully_qualified_name c') then c :: l''
          else c :: c' :: l''
      | [] => [c]
      end
  end.

Definition merge_sources (x : string * list ColumnRef) : ColumnM (string * string) :=
  existing ← get_value cl_by_source x.1;
  let old := match existing with Some d => default [] (refs_of_bincode d) | None => [] end in
  mret (x.1, refs_to_bincode (dedup_named (sort_named (old ++ x.2)))).

Definition encode_versioned (l : list ColumnRef) : string := versioned_refs_to_bincode (wrap l).
Definition encode_events (es : list ColumnLineageEvent) : string := versioned_events_to_bincode (wrap es).

(** The writes of the batch. *)
Definition apply_indexes (ix : ColumnIndexes) (tables transforms derived tenants sources : list (string * string))
    (s : ColumnLineageStore) : ColumnLineageStore :=
  {| cl_by_column := ix_columns ix ∪ cl_by_column s;
     cl_by_table := list_to_map tables ∪ cl_by_table s;
     cl_by_transform := list_to_map transforms ∪ cl_by_transform s;
     cl_by_job := (encode_events <$> ix_jobs ix) ∪ cl_by_job s;
     cl_by_workflow := (encode_events <$> ix_workflows ix) ∪ cl_by_workflow s;
     cl_derived := list_to_map derived ∪ cl_derived s;
     cl_by_tenant := list_to_map tenants ∪ cl_by_tenant s;
     cl_by_source := list_to_map sources ∪ cl_by_source s;
     column_buffer := column_buffer s; column_ops := column_ops s |}.

Definition write_column_events (es : list ColumnLineageEvent) : ColumnM unit :=
  match es with
  | [] => mret tt
  | _ =>
      ix ← method_foldM index_column_event no_indexes es;
      tables ← method_mapM (merge_refs cl_by_table decode_versioned encode_versioned)
                 (map_to_list (ix_tables ix));
      transforms ← method_mapM (merge_refs cl_by_transform decode_versioned encode_versioned)
                     (map_to_list (ix_transforms ix));
      derived ← method_mapM (merge_refs cl_derived decode_refs encode_versioned)
                  (map_to_list (ix_derived ix));
      tenants ← method_mapM (merge_refs cl_by_tenant refs_of_bincode refs_to_bincode)
                  (map_to_list (ix_tenants ix));
      sources ← method_mapM merge_sources (map_to_list (ix_sources ix));
      _ ← column_io;
      modify (apply_indexes ix tables transforms derived tenants sources)
  end.

Definition flush_columns : ColumnM unit :=
  buffer ← gets column_buffer;
  match buffer with
  | [] => mret tt
  | _ => _ ← modify (set_column_buffer []); write_column_events buffer
  end.

Definition record_column_lineage (e : ColumnLineageEvent) : ColumnM unit :=
  _ ← modify (λ s, set_column_buffer (column_buffer s ++ [e]) s);
  buffer ← gets column_buffer;
  if (1000 <=? length buffer)%nat
  then _ ← modify (set_column_buffer []); write_column_events buffer
  else mret tt.

Definition record_column_lineage_batch : list ColumnLineageEvent → ColumnM unit := write_column_events.

(** ** Lookups *)

(** The events of one target that read the column: values that cannot be read are
    passed over. *)
Definition events_reading (column : string) (target : ColumnRef) : ColumnM (list ColumnLineageEvent) :=
  stored ← get_value cl_by_column (fully_qualified_name target);
  match stored with
  | None => mret []
  | Some bytes =>
      d ← lift (decompressed bytes);
      let es := omap (λ e, match of_serializable e with Ok x => Some x | _ => None end)
                  (default [] (events_of_bincode d)) in
      mret (List.filter (λ e, existsb (λ c, String.eqb (fully_qualified_name c) column)
                                (source_columns e)) es)
  end.

Definition get_column_lineage (c : ColumnRef) : ColumnM (list ColumnLineageEvent) :=
  let key := fully_qualified_name c in
  stored ← get_value cl_by_column key;
  match stored with
  | Some bytes =>
      es ← lift (decode_serializable_events bytes);
      lift (result_mapM of_serializable es)
  | None =>
      indexed ← get_value cl_by_source key;
      match indexed with
      | None => mret []
      | Some bytes =>
          targets ← lift (ok_or (refs_of_bincode bytes) ColumnDecodeFailed);
          found ← method_mapM (events_reading key) targets;
          mret (mjoin found)
      end
  end.

Definition refs_under (cf : ColumnLineageStore → gmap string string) (k : string)
    : ColumnM (list ColumnRef) :=
  stored ← get_value cf k;
  match stored with
  | Some bytes => lift (ok_or (decode_refs bytes) ColumnDecodeFailed)
  | None => mret []
  end.

Definition find_columns_by_transformation (t : TransformationType) : ColumnM (list ColumnRef) :=
  refs_under cl_by_transform (encode_transform_type t).

Definition get_derived_columns (c : ColumnRef) : ColumnM (list ColumnRef) :=
  refs_under cl_derived (fully_qualified_name c).

(** The values are read as lists of whole events, not as they were written. *)
Definition decode_full_events (bytes : string) : option (list ColumnLineageEvent) :=
  match versioned_events_of_bincode bytes with
  | Some v => match unwrap_current v with Ok l => Some l | _ => full_events_of_bincode bytes end
  | None => full_events_of_bincode bytes
  end.

Definition search_column_lineage (pattern : string) : ColumnM (list ColumnLineageEvent) :=
  _ ← column_io;
  rows ← gets (λ s, List.filter (λ kv, bool_decide (is_Some (str_find kv.1 pattern)))
                      (sorted_cf (cl_by_column s)));
  found ← method_mapM (λ kv, lift (ok_or (decode_full_events kv.2) ColumnDecodeFailed)) rows;
  mret (mjoin found).

(** ** Erasure *)

Definition get_tenant_column_refs (t : string) : ColumnM (list ColumnRef) :=
  stored ← get_value cl_by_tenant t;
  match stored with
  | Some bytes => lift (ok_or (refs_of_bincode bytes) ColumnDecodeFailed)
  | None => mret []
  end.

Definition count_tenant_columns (t : string) : ColumnM Z :=
  refs ← get_tenant_column_refs t; mret (Z.of_nat (length refs)).

Definition column_of_user (u : string) (e : SerializableColumnLineageEvent) : bool :=
  String.eqb (ser_created_by e) u || String.eqb (ser_tenant e) u.

Definition all_column_events : ColumnM (list (string * list SerializableColumnLineageEvent)) :=
  _ ← column_io;
  rows ← gets (λ s, sorted_cf (cl_by_column s));
  method_mapM (λ kv, es ← lift (decode_serializable_events kv.2); mret (kv.1, es)) rows.

Definition count_user_columns (u : string) : ColumnM Z :=
  rows ← all_column_events;
  mret (Z.of_nat (sum_list_with (λ kv, length (List.filter (column_of_user u) kv.2)) rows)).

(** The change of one value and the number of events removed so far. *)
Definition erase_column_row (u : string) (dry : bool) (x : gmap string (option string) * nat)
    (kv : string * list SerializableColumnLineageEvent)
    : result ColumnError (gmap string (option string) * nat) :=
  let removed := List.filter (column_of_user u) kv.2 in
  let kept := List.filter (λ e, negb (column_of_user u e)) kv.2 in
  match removed with
  | [] => Ok x
  | _ =>
      let n := (x.2 + length removed)%nat in
      if dry then Ok (x.1, n)
      else
        match kept with
        | [] => Ok (<[kv.1 := None]> x.1, n)
        | _ => data ← encode_serializable_events kept; Ok (<[kv.1 := Some data]> x.1, n)
        end
  end.

Definition set_columns (f : gmap string string → gmap string string)
    (g : gmap string string → gmap string string) (s : ColumnLineageStore) : ColumnLineageStore :=
  {| cl_by_column := f (cl_by_column s); cl_by_table := cl_by_table s;
     cl_by_transform := cl_by_transform s; cl_by_job := cl_by_job s;
     cl_by_workflow := cl_by_workflow s; cl_derived := cl_derived s;
     cl_by_tenant := g (cl_by_tenant s); cl_by_source := cl_by_source s;
     column_buffer := column_buffer s; column_ops := column_ops s |}.

Definition erase_user_columns (u : string) (dry : bool) : ColumnM Z :=
  rows ← all_column_events;
  x ← lift (result_foldM (erase_column_row u dry) (∅, 0%nat) rows);
  if dry then mret (Z.of_nat x.2)
  else
    _ ← column_io;
    _ ← modify (set_columns (apply_changes x.1) (λ m, m));
    mret (Z.of_nat x.2).

Definition erase_column_subject (r : ErasureRequest) (st : Stamp) : ColumnM ErasureResult :=
  let name := "column_lineage" in
  let report b := mret (one_report name r st b) in
  let subject := subject_id (data_subject r) in
  if String.eqb (id_type (data_subject r)) "user_id" then
    if dry_run r then
      n ← count_user_columns subject;
      report (dry_report name "column_lineage_events_would_be_deleted" n)
    else
      n ← erase_user_columns subject false;
      report (with_detail "column_lineage_events" n (backend_succeeded name n HardDelete))
  else if negb (String.eqb (id_type (data_subject r)) "tenant_id") then
    report (unsupported_report name (id_type (data_subject r)))
  else if dry_run r then
    n ← count_tenant_columns subject;
    report (dry_report name "column_lineage_events_would_be_deleted" n)
  else
    refs ← get_tenant_column_refs subject;
    if (length refs =? 0)%nat then
      report (with_warning "No data found for tenant" (backend_succeeded name 0 HardDelete))
    else
      let n := Z.of_nat (length refs) in
      _ ← column_io;
      _ ← modify (set_columns (delete_keys (fully_qualified_name <$> refs)) (delete subject));
      report (with_detail "tenant_index_entries" 1
                (with_detail "column_lineage_events" n (backend_succeeded name n HardDelete))).

Definition count_column_subject (d : DataSubjectId) : ColumnM Z :=
  if String.eqb (id_type d) "tenant_id" then count_tenant_columns (subject_id d)
  else if String.eqb (id_type d) "user_id" then count_user_columns (subject_id d)
  else fail (ColumnUnsupported (id_type d)).

Definition column_breakdown (d : DataSubjectId) : ColumnM (gmap string Z) :=
  n ← count_column_subject d; mret {["column_lineage_events" := n]}.
End Store.

#[export] Instance column_erasure `{ColumnDb} : DataErasure := {|
  Backend := ColumnLineageStore;
  BackendError := ColumnError;
  backend_error_text := column_error_text;
  erase_data_subject := erase_column_subject;
  count_data_subject_records := count_column_subject;
  get_data_breakdown := column_breakdown;
|}.
