(* ===== verification/ColumnLineageFacts.v ===== *)
(** * Facts about the store of column lineage

    What a batch of events enters in the index of columns, of derived columns and of
    tenants; erasing a user removes exactly that user's events; and the store keeps the
    promises of [DataErasure]. *)

From Stdlib Require Import ZArith Lia Ascii.
From stdpp Require Import base numbers option strings gmap list.
From S2P Require Import Prelude RustStd RustText Effects KvScan Gdpr ColumnLineage.

Local Open Scope Z_scope.

Section Facts.
Context `{ColumnDbOk}.

Abbreviation decode_events := decode_serializable_events.

(** The events under the name of a column. *)
Definition column_events (s : ColumnLineageStore) (k : string) : list SerializableColumnLineageEvent :=
  list_at decode_events (cl_by_column s) k.

(** The columns under a key. *)
Definition refs_at (decode : string → option (list ColumnRef)) (cf : gmap string string) (k : string)
    : list ColumnRef :=
  match cf !! k with
  | Some d => default [] (decode d)
  | None => []
  end.

Definition derived_at (s : ColumnLineageStore) : string → list ColumnRef := refs_at decode_refs (cl_derived s).
Definition tenant_refs (s : ColumnLineageStore) : string → list ColumnRef :=
  refs_at refs_of_bincode (cl_by_tenant s).

(** Everything that is looked up can be read. *)
Record column_ok (s : ColumnLineageStore) : Prop := {
  columns_decode : decodes decode_events (cl_by_column s);
  derived_decode k d : cl_derived s !! k = Some d → is_Some (decode_refs d);
  tenant_refs_decode t d : cl_by_tenant s !! t = Some d → is_Some (refs_of_bincode d);
  sources_decode k d : cl_by_source s !! k = Some d → is_Some (refs_of_bincode d);
}.

Definition column_same (s s' : ColumnLineageStore) : Prop :=
  cl_by_column s' = cl_by_column s ∧ cl_by_table s' = cl_by_table s ∧
  cl_by_transform s' = cl_by_transform s ∧ cl_by_job s' = cl_by_job s ∧
  cl_by_workflow s' = cl_by_workflow s ∧ cl_derived s' = cl_derived s ∧
  cl_by_tenant s' = cl_by_tenant s ∧ cl_by_source s' = cl_by_source s ∧
  column_buffer s' = column_buffer s.

#[global] Instance column_same_refl : Reflexive column_same.
Proof. done. Qed.

Lemma column_same_ok s s' : column_same s s' → column_ok s → column_ok s'.
Proof. intros (Hc & _ & _ & _ & _ & Hd & Ht & Hs & _) []. split; rewrite ?Hc, ?Hd, ?Ht, ?Hs; done. Qed.

Definition column_failed (e : ColumnError) : Prop :=
  e = ColumnDbFailed ∧ ∃ n, column_db_ok n = false.

Abbreviation creads s0 := (reads (column_same s0) column_failed).

Lemma column_io_reads s0 : creads s0 (λ _, True) column_io.
Proof.
  intros s Hs. split; [done|]. unfold column_io. simpl.
  destruct (column_db_ok (column_ops s)) eqn:E; [done|]. split; [done|by exists (column_ops s)].
Qed.

Lemma creads_io {A} s0 (Q : A → Prop) m : creads s0 Q m → creads s0 Q (_ ← column_io; m).
Proof. intros Hm. eapply reads_bind; [apply column_io_reads|done]. Qed.

Lemma creads_field {A B} s0 (f : ColumnLineageStore → A) (Q : B → Prop)
    (m : A → method ColumnLineageStore ColumnError B) :
  (∀ s, column_same s0 s → f s = f s0) → creads s0 Q (m (f s0)) → creads s0 Q (x ← gets f; m x).
Proof.
  intros Hf Hm. eapply (reads_bind _ _ (λ x, x = f s0)).
  - intros s Hs. split; [done|]. by apply Hf.
  - by intros x ->.
Qed.

Lemma creads_value {B} s0 cf k (Q : B → Prop) (m : option string → method ColumnLineageStore ColumnError B) :
  (∀ s, column_same s0 s → cf s = cf s0) → creads s0 Q (m (cf s0 !! k)) →
  creads s0 Q (x ← get_value cf k; m x).
Proof.
  intros Hf Hm. eapply (reads_bind _ _ (λ x, x = cf s0 !! k)); [|by intros ? ->].
  unfold get_value. apply creads_io. intros s Hs. split; [done|]. simpl. by rewrite Hf.
Qed.

Lemma creads_lift {A} s0 (Q : A → Prop) (r : result ColumnError A) a :
  r = Ok a → Q a → creads s0 Q (lift r).
Proof. intros -> HQ s Hs. done. Qed.

Lemma encode_events_roundtrip es :
  ∃ d, encode_serializable_events es = Ok d ∧ decode_events d = Ok es.
Proof.
  unfold encode_serializable_events, decode_serializable_events, decompressed. case_match.
  - destruct (column_zstd_total (events_to_bincode es)) as [z Hz].
    destruct (column_zstd_marked _ _ Hz) as [Hm Hd]. exists z. rewrite Hz. split; [done|].
    rewrite Hm, Hd. simpl. by rewrite bincode_events.
  - eexists. split; [done|]. rewrite bincode_unmarked. simpl. by rewrite bincode_events.
Qed.

(** ** One batch *)

Abbreviation name := fully_qualified_name.

(** The values a batch writes: the old events of the target and the last new one. *)
Definition columns_gathered (s0 : ColumnLineageStore) (l : list ColumnLineageEvent)
    (rows : gmap string string) : Prop :=
  ∀ k, match last (filter (λ e, name (target_column e) = k) l) with
       | None => rows !! k = None
       | Some e => ∃ d, rows !! k = Some d ∧
           decode_events d = Ok (column_events s0 k ++ [to_serializable e])
       end.

Lemma old_events s0 k :
  column_ok s0 → ∀ bytes, cl_by_column s0 !! k = Some bytes →
  ∃ d es, decompressed bytes = Ok d ∧ events_of_bincode d = Some es ∧ column_events s0 k = es.
Proof.
  intros Hok bytes Hb. destruct (columns_decode _ Hok _ _ Hb) as (es & Hes & _).
  unfold column_events, list_at. rewrite Hb, Hes. unfold decode_serializable_events in Hes.
  destruct (decompressed bytes) as [d|e|]; simpl in Hes; [|done..].
  destruct (events_of_bincode d) as [es'|] eqn:E; simpl in Hes; [|done]. naive_solver.
Qed.

Lemma append_column_spec s0 l rows e :
  column_ok s0 → columns_gathered s0 l rows →
  creads s0 (columns_gathered s0 (l ++ [e])) (append_column_event rows e).
Proof.
  intros Hok Hl. unfold append_column_event. set (k := name (target_column e)).
  apply creads_value; [by intros s (-> & _)|].
  eapply (reads_bind _ _ (λ old, old = column_events s0 k)).
  { destruct (cl_by_column s0 !! k) as [bytes|] eqn:Eb.
    - destruct (old_events s0 k Hok bytes Eb) as (d & es & Hd & Hes & ->).
      eapply (reads_bind _ _ (λ x, x = d)); [by eapply creads_lift|]. intros ? ->.
      apply reads_ret. by rewrite Hes.
    - apply reads_ret. unfold column_events, list_at. by rewrite Eb. }
  intros ? ->. destruct (encode_events_roundtrip (column_events s0 k ++ [to_serializable e])) as (d & Hd & Hdec).
  eapply (reads_bind _ _ (λ x, x = d)); [by eapply creads_lift|]. intros ? ->. apply reads_ret.
  intros k'. rewrite filter_app, filter_cons, filter_nil. specialize (Hl k'). case_decide as Hk.
  - rewrite last_snoc. subst k'. exists d. by rewrite lookup_insert_eq.
  - by rewrite (right_id_L [] (++)), lookup_insert_ne.
Qed.

(** The sets hold the columns of a list of pairs. *)
Definition set_gathered (pairs : list (string * ColumnRef)) (m : gmap string (gset ColumnRef)) : Prop :=
  ∀ k c, c ∈ default ∅ (m !! k) ↔ (k, c) ∈ pairs.

Lemma insert_ref_gathered pairs m k c :
  set_gathered pairs m → set_gathered (pairs ++ [(k, c)]) (insert_ref k c m).
Proof.
  intros Hm k' c'. unfold insert_ref. rewrite elem_of_app, list_elem_of_singleton.
  destruct (decide (k = k')) as [<-|Hk].
  - rewrite lookup_insert_eq. simpl. rewrite elem_of_union, elem_of_singleton, (Hm k c'). naive_solver.
  - rewrite lookup_insert_ne by done. rewrite (Hm k' c'). naive_solver.
Qed.

Lemma insert_refs_gathered pairs m ks c :
  set_gathered pairs m →
  set_gathered (pairs ++ ((λ k, (k, c)) <$> ks)) (foldl (λ m k, insert_ref k c m) m ks).
Proof.
  revert pairs m. induction ks as [|k ks IH]; intros pairs m Hm; simpl.
  - by rewrite (right_id_L [] (++)).
  - apply insert_ref_gathered with (k := k) (c := c) in Hm. apply IH in Hm.
    by rewrite <- (assoc_L (++)) in Hm.
Qed.

Definition derived_pairs (l : list ColumnLineageEvent) : list (string * ColumnRef) :=
  l ≫= λ e, (λ c, (name c, target_column e)) <$> source_columns e.
Definition tenant_pairs (l : list ColumnLineageEvent) : list (string * ColumnRef) :=
  (λ e, (cl_tenant e, target_column e)) <$> l.

Record indexed_batch (s0 : ColumnLineageStore) (l : list ColumnLineageEvent) (ix : ColumnIndexes) : Prop := {
  batch_columns : columns_gathered s0 l (ix_columns ix);
  batch_derived : set_gathered (derived_pairs l) (ix_derived ix);
  batch_tenants : set_gathered (tenant_pairs l) (ix_tenants ix);
}.

Lemma index_batch_spec s0 es :
  column_ok s0 →
  creads s0 (indexed_batch s0 es) (method_foldM index_column_event no_indexes es).
Proof.
  intros Hok. apply (reads_foldM _ _ (indexed_batch s0)).
  { split; simpl; [by intros k|..]; intros k c; rewrite lookup_empty; simpl; set_solver. }
  intros l1 e l2 ix -> [Hc Hd Ht]. unfold index_column_event.
  eapply reads_bind; [by apply append_column_spec|]. intros rows Hrows. apply reads_ret.
  split; simpl; [done| |].
  - unfold derived_pairs. rewrite bind_app. simpl. rewrite (right_id_L [] (++)).
    apply (insert_refs_gathered _ _ (name <$> source_columns e) (target_column e)) in Hd.
    by rewrite <- list_fmap_compose in Hd.
  - unfold tenant_pairs. rewrite fmap_app. by apply insert_ref_gathered.
Qed.

(** ** Merging with the database *)

Lemma merge_refs_spec s0 cf decode encode l :
  (∀ s, column_same s0 s → cf s = cf s0) →
  creads s0 (λ ys, ys = (λ x, (x.1, encode (ref_entries (x.2 ∪ list_to_set (refs_at decode (cf s0) x.1))))) <$> l)
    (method_mapM (merge_refs cf decode encode) l).
Proof.
  intros Hcf.
  eapply reads_weaken; [|apply (reads_mapM _ _ (λ x y,
    y = (x.1, encode (ref_entries (x.2 ∪ list_to_set (refs_at decode (cf s0) x.1))))))].
  - intros ys Hys. induction Hys; simpl; by f_equal.
  - intros x _. unfold merge_refs. apply creads_value; [done|]. by apply reads_ret.
Qed.

Lemma merge_sources_reads s0 l :
  creads s0 (λ ys, Forall (λ y, ∃ cs, y.2 = refs_to_bincode cs) ys) (method_mapM merge_sources l).
Proof.
  eapply reads_weaken; [|apply (reads_mapM _ _ (λ _ y, ∃ cs, y.2 = refs_to_bincode cs))].
  - intros ys Hys. induction Hys; by constructor.
  - intros x _. unfold merge_sources.
    apply creads_value; [by intros s (_ & _ & _ & _ & _ & _ & _ & -> & _)|]. apply reads_ret. simpl. eauto.
Qed.

(** An index of sets after the merge. *)
Lemma merged_lookup (decode : string → option (list ColumnRef)) encode (m : gmap string (gset ColumnRef)) cf k :
  (list_to_map ((λ x, (x.1, encode (ref_entries (x.2 ∪ list_to_set (refs_at decode cf x.1))))) <$> map_to_list m)
     ∪ cf : gmap string string) !! k
  = match m !! k with
    | Some cs => Some (encode (ref_entries (cs ∪ list_to_set (refs_at decode cf k))))
    | None => cf !! k
    end.
Proof.
  rewrite lookup_union.
  assert ((list_to_map ((λ x, (x.1, encode (ref_entries (x.2 ∪ list_to_set (refs_at decode cf x.1)))))
      <$> map_to_list m) : gmap string string) !! k
    = (λ cs, encode (ref_entries (cs ∪ list_to_set (refs_at decode cf k)))) <$> m !! k) as ->.
  - destruct (m !! k) as [cs|] eqn:Em; simpl.
    + apply elem_of_list_to_map.
      * rewrite <- list_fmap_compose. apply NoDup_fst_map_to_list.
      * apply list_elem_of_fmap. exists (k, cs). split; [done|]. by apply elem_of_map_to_list.
    + apply not_elem_of_list_to_map. rewrite <- list_fmap_compose.
      intros ([k' cs] & -> & Hin)%list_elem_of_fmap. apply elem_of_map_to_list in Hin.
      simpl in Em. congruence.
  - destruct (m !! k); simpl; [by destruct (cf !! k)|]. by destruct (cf !! k).
Qed.

Lemma merged_refs (decode : string → option (list ColumnRef)) encode pairs m cf cf' k c :
  (∀ l, decode (encode l) = Some l) → set_gathered pairs m →
  cf' = list_to_map ((λ x, (x.1, encode (ref_entries (x.2 ∪ list_to_set (refs_at decode cf x.1))))) <$> map_to_list m)
     ∪ cf →
  c ∈ refs_at decode cf' k ↔ c ∈ refs_at decode cf k ∨ (k, c) ∈ pairs.
Proof.
  intros Hdec Hm ->. unfold refs_at at 1. rewrite merged_lookup.
  specialize (Hm k c). destruct (m !! k) as [cs|]; simpl in *.
  - rewrite Hdec. simpl. rewrite ref_entries_perm, elem_of_elements, elem_of_union, elem_of_list_to_set, Hm.
    tauto.
  - unfold refs_at. set_solver.
Qed.

Lemma decode_encode_versioned l : decode_refs (encode_versioned l) = Some l.
Proof.
  unfold decode_refs, decode_versioned, encode_versioned. by rewrite bincode_versioned_refs.
Qed.

(** What a batch leaves when it is written. *)
Record columns_written (es : list ColumnLineageEvent) (s s' : ColumnLineageStore) : Prop := {
  columns_ok : column_ok s';
  columns_events k : column_events s' k = column_events s k ++
    option_list (to_serializable <$> last (filter (λ e, name (target_column e) = k) es));
  columns_derived k c : c ∈ derived_at s' k ↔ c ∈ derived_at s k ∨ (k, c) ∈ derived_pairs es;
  columns_tenants t c : c ∈ tenant_refs s' t ↔ c ∈ tenant_refs s t ∨ (t, c) ∈ tenant_pairs es;
}.

Lemma apply_indexes_spec es ix tables transforms sources derived tenants s0 s3 :
  column_ok s0 → column_same s0 s3 → indexed_batch s0 es ix →
  derived = (λ x, (x.1, encode_versioned (ref_entries (x.2 ∪ list_to_set (derived_at s0 x.1)))))
              <$> map_to_list (ix_derived ix) →
  tenants = (λ x, (x.1, refs_to_bincode (ref_entries (x.2 ∪ list_to_set (tenant_refs s0 x.1)))))
              <$> map_to_list (ix_tenants ix) →
  Forall (λ y, ∃ cs, y.2 = refs_to_bincode cs) sources →
  columns_written es s0 (apply_indexes ix tables transforms derived tenants sources s3).
Proof.
  intros Hok Hs [Hc Hd Ht] -> -> Hsrc. set (s' := apply_indexes _ _ _ _ _ _ _).
  destruct Hs as (Ec & _ & _ & _ & _ & Ed & Et & Esrc & _).
  assert (∀ k d, cl_by_column s' !! k = Some d →
    decode_events d = Ok (column_events s0 k ++
      option_list (to_serializable <$> last (filter (λ e, name (target_column e) = k) es)))) as Hcol.
  { intros k d. specialize (Hc k). unfold s'. simpl. rewrite Ec.
    destruct (last _) as [e|]; simpl.
    - destruct Hc as (d' & Hd' & Hdec). rewrite (lookup_union_Some_l _ _ _ _ Hd'). by intros [= <-].
    - rewrite lookup_union_r by done. intros Hd0. rewrite (right_id_L [] (++)).
      destruct (columns_decode _ Hok _ _ Hd0) as (es0 & Hes0 & _).
      unfold column_events, list_at. by rewrite Hd0, Hes0. }
  split; [split| | |].
  - intros k d Hk. pose proof (Hcol k d Hk) as Hdec. eexists. split; [exact Hdec|].
    specialize (Hc k). unfold s' in Hk. simpl in Hk. rewrite Ec in Hk.
    destruct (last _) as [e|]; [by destruct (column_events s0 k)|].
    rewrite lookup_union_r in Hk by done. simpl. rewrite (right_id_L [] (++)).
    destruct (columns_decode _ Hok _ _ Hk) as (es0 & Hes0 & Hne).
    unfold column_events, list_at. by rewrite Hk, Hes0.
  - intros k d. unfold s'. simpl. unfold derived_at. rewrite Ed, merged_lookup.
    destruct (ix_derived ix !! k); [|apply (derived_decode _ Hok)].
    intros [= <-]. by rewrite decode_encode_versioned.
  - intros t d. unfold s'. simpl. unfold tenant_refs. rewrite Et, merged_lookup.
    destruct (ix_tenants ix !! t); [|apply (tenant_refs_decode _ Hok)].
    intros [= <-]. by rewrite bincode_refs.
  - intros k d. unfold s'. simpl. rewrite Esrc.
    intros [Hk|[_ Hk]]%lookup_union_Some_raw; [|by eapply sources_decode].
    apply elem_of_list_to_map_2 in Hk. rewrite Forall_forall in Hsrc.
    destruct (Hsrc _ Hk) as [cs Hcs]. simpl in Hcs. subst d. by rewrite bincode_refs.
  - intros k. specialize (Hcol k). unfold column_events at 1, list_at.
    destruct (cl_by_column s' !! k) as [d|] eqn:Ek; [by rewrite (Hcol d)|].
    specialize (Hc k). unfold s' in Ek. simpl in Ek. rewrite Ec in Ek.
    apply lookup_union_None in Ek as [Ek1 Ek2]. destruct (last _) as [e|].
    + destruct Hc as (d & Hd' & _). congruence.
    + simpl. rewrite (right_id_L [] (++)). unfold column_events, list_at. by rewrite Ek2.
  - intros k c. eapply merged_refs; [apply decode_encode_versioned|exact Hd|].
    unfold s'. simpl. by rewrite Ed.
  - intros t c. eapply merged_refs; [apply bincode_refs|exact Ht|].
    unfold s'. simpl. by rewrite Et.
Qed.

Lemma bind_reads {A B} s0 (Q : A → Prop) (m : method ColumnLineageStore ColumnError A)
    (f : A → method ColumnLineageStore ColumnError B) s s' r :
  creads s0 Q m → column_same s0 s → (m ≫= f) s = (s', r) →
  (∃ s1 a, column_same s0 s1 ∧ Q a ∧ f a s1 = (s', r)) ∨ (column_same s0 s' ∧ r = Err ColumnDbFailed).
Proof.
  intros Hm Hs Hw. destruct (Hm s Hs) as [Hs1 HQ].
  destruct (method_bind_inv _ _ _ _ _ Hw) as [(s1 & a & E1 & Hw1)|[(e & E1 & ->)|[E1 ->]]];
    rewrite E1 in *; simpl in *; [left; eauto|right|done].
  split; [done|]. by destruct HQ as [-> _].
Qed.

Lemma derived_spec s0 c :
  column_ok s0 → creads s0 (λ l, l = derived_at s0 (name c)) (get_derived_columns c).
Proof.
  intros Hok. unfold get_derived_columns, refs_under.
  apply creads_value; [by intros s (_ & _ & _ & _ & _ & -> & _)|]. unfold derived_at, refs_at.
  destruct (cl_derived s0 !! name c) as [d|] eqn:Ed; [|by apply reads_ret].
  destruct (derived_decode _ Hok _ _ Ed) as [l Hl]. rewrite Hl. by eapply creads_lift.
Qed.
Lemma elem_of_derived_pairs l k t :
  (k, t) ∈ derived_pairs l ↔ ∃ e, e ∈ l ∧ t = target_column e ∧ k ∈ name <$> source_columns e.
Proof.
  unfold derived_pairs. rewrite list_elem_of_bind. setoid_rewrite list_elem_of_fmap. naive_solver.
Qed.

Lemma write_columns_spec es s s' r :
  column_ok s → es ≠ [] → write_column_events es s = (s', r) →
  match r with
  | Ok _ => columns_written es s s'
  | Err e => column_same s s' ∧ e = ColumnDbFailed
  | Panic => False
  end.
Proof.
  intros Hok Hne. unfold write_column_events.
  destruct es as [|e0 es0]; [done|]. set (es := e0 :: es0) in *. clearbody es. intros Hw.
  eapply (bind_reads s) in Hw as [(s1 & ix & Hs1 & Hix & Hw)|[? ->]];
    [|done|by apply index_batch_spec|reflexivity].
  eapply (bind_reads s) in Hw as [(s2 & tables & Hs2 & _ & Hw)|[? ->]];
    [|done|by apply merge_refs_spec; intros ? (_ & -> & _)|done].
  eapply (bind_reads s) in Hw as [(s3 & transforms & Hs3 & _ & Hw)|[? ->]];
    [|done|by apply merge_refs_spec; intros ? (_ & _ & -> & _)|done].
  eapply (bind_reads s) in Hw as [(s4 & derived & Hs4 & Hd & Hw)|[? ->]];
    [|done|by apply (merge_refs_spec s cl_derived decode_refs); intros ? (_ & _ & _ & _ & _ & -> & _)|done].
  eapply (bind_reads s) in Hw as [(s5 & tenants & Hs5 & Ht & Hw)|[? ->]];
    [|done|by apply (merge_refs_spec s cl_by_tenant refs_of_bincode);
      intros ? (_ & _ & _ & _ & _ & _ & -> & _)|done].
  eapply (bind_reads s) in Hw as [(s6 & sources & Hs6 & Hsrc & Hw)|[? ->]];
    [|done|apply merge_sources_reads|done].
  eapply (bind_reads s) in Hw as [(s7 & [] & Hs7 & _ & Hw)|[? ->]]; [|done|apply column_io_reads|done].
  injection Hw as <- <-.
  exact (apply_indexes_spec es ix tables transforms sources derived tenants s s7 Hok Hs7 Hix Hd Ht Hsrc).
Qed.

(** No two of the events have the same target. *)
Definition targets_once (es : list ColumnLineageEvent) : Prop :=
  ∀ k, (length (filter (λ e, name (target_column e) = k) es) ≤ 1)%nat.

(** C24: a batch of column lineage in which no two events have the same target, once it is
    written, has added its event for a column to the events of that column, behind those
    it had, and nothing to any other column; it has entered every target under each source
    of its event, so that asking for the columns derived from a source finds exactly the
    old ones and these, and under the tenant of its event.  A batch that fails, which it
    does only when the database fails, changes nothing. *)
Theorem columns_recorded es s s' r :
  column_ok s → targets_once es → es ≠ [] → record_column_lineage_batch es s = (s', r) →
  match r with
  | Ok _ =>
      column_ok s' ∧
      (∀ k, column_events s' k = column_events s k ++
         (to_serializable <$> filter (λ e, name (target_column e) = k) es)) ∧
      (∀ c, match (get_derived_columns c s').2 with
            | Ok l => ∀ t, t ∈ l ↔ t ∈ derived_at s (name c) ∨
                ∃ e, e ∈ es ∧ t = target_column e ∧ name c ∈ name <$> source_columns e
            | Err e => e = ColumnDbFailed
            | Panic => False
            end) ∧
      (∀ t c, c ∈ tenant_refs s' t ↔ c ∈ tenant_refs s t ∨ (t, c) ∈ tenant_pairs es)
  | Err e => column_same s s' ∧ e = ColumnDbFailed
  | Panic => False
  end.
Proof.
  intros Hok Hone Hne Hw. apply write_columns_spec in Hw; [|done..].
  destruct r as [[]|e|]; [|done..]. destruct Hw as [Hok' Hev Hder Hten]. split_and!; try done.
  - intros k. rewrite Hev. f_equal. specialize (Hone k).
    destruct (filter _ es) as [|e [|? ?]]; [done..|]. simpl in Hone. lia.
  - intros c. destruct (derived_spec _ c Hok' _ (reflexivity _)) as [_ Hr].
    destruct (get_derived_columns c _).2 as [l|e|]; [|apply Hr|done]. subst l. intros t.
    by rewrite Hder, elem_of_derived_pairs.
Qed.

(** ** Erasure *)

Abbreviation kept u := (KvScan.kept (column_of_user u)).
Abbreviation removed u := (KvScan.removed (column_of_user u)).

Definition column_list (s : ColumnLineageStore) : list (string * list SerializableColumnLineageEvent) :=
  index_list decode_events (cl_by_column s).

Lemma all_column_events_spec s0 :
  column_ok s0 → creads s0 (λ rows, rows = column_list s0) all_column_events.
Proof.
  intros Hok. unfold all_column_events. apply creads_io. apply creads_field; [by intros s (-> & _)|].
  eapply reads_weaken; [|apply (reads_mapM _ _ (λ kv y, y = (kv.1, column_events s0 kv.1)))].
  - intros ys Hys. unfold column_list, index_list. induction Hys; simpl; by f_equal.
  - intros [k d] Hd%elem_of_sorted_cf. simpl. unfold column_events, list_at. rewrite Hd.
    destruct (columns_decode _ Hok _ _ Hd) as (es & Hes & _). rewrite Hes.
    eapply (reads_bind _ _ (λ x, x = es)); [by eapply creads_lift|]. intros ? ->.
    by apply reads_ret.
Qed.

Lemma column_count_user s0 u :
  column_ok s0 →
  creads s0 (λ n, n = Z.of_nat (count_in decode_events (column_of_user u) (cl_by_column s0)))
    (count_user_columns u).
Proof.
  intros Hok. eapply reads_bind; [by apply all_column_events_spec|]. intros ? ->. by apply reads_ret.
Qed.

Lemma erase_columns_spec u l :
  NoDup l.*1 → ∃ x, result_foldM (erase_column_row u false) (∅, 0%nat) l = Ok x ∧
    taken_out decode_events (λ e, e) (column_of_user u) l x.1 x.2.
Proof.
  intros Hl.
  apply (result_foldM_prefix _ (λ l x, taken_out decode_events (λ e, e) (column_of_user u) l x.1 x.2));
    [apply taken_out_nil|].
  intros l1 [k es] l2 x El Hx.
  assert (k ∉ l1.*1) as Hk.
  { rewrite El, fmap_app in Hl. apply NoDup_app in Hl as (_ & Hl & _). intros Hin. apply (Hl k Hin). left. }
  unfold erase_column_row. simpl. fold (removed u es) (kept u es).
  destruct (removed u es) as [|e0 rem] eqn:Er; [exists x; split; [done|by apply taken_out_same]|].
  destruct (kept u es) as [|e1 ks] eqn:Ek.
  - eexists. split; [done|]. cbn [fst snd]. rewrite <- Er. apply taken_out_change; [done..|].
    unfold value_change. by rewrite Er, Ek.
  - destruct (encode_events_roundtrip (e1 :: ks)) as (d & Hd & Hdec). rewrite Hd.
    eexists. split; [done|]. cbn [fst snd]. rewrite <- Er. apply taken_out_change; [done..|].
    unfold value_change. rewrite Er, Ek. eauto.
Qed.

(** Erasing a user removes that user's events from every column and no others. *)
Theorem column_user_erased u s s' r :
  column_ok s → erase_user_columns u false s = (s', r) →
  match r with
  | Ok n =>
      column_ok s' ∧ n = Z.of_nat (count_in decode_events (column_of_user u) (cl_by_column s)) ∧
      ∀ k, column_events s' k = List.filter (λ e, negb (column_of_user u e)) (column_events s k)
  | Err e => column_same s s' ∧ e = ColumnDbFailed
  | Panic => False
  end.
Proof.
  intros Hok Hw. unfold erase_user_columns in Hw.
  eapply (bind_reads s (λ rows, rows = column_list s)) in Hw as [(s1 & rows & Hs1 & -> & Hw)|[? ->]];
    [|done|by apply all_column_events_spec|reflexivity].
  destruct (erase_columns_spec u (column_list s) (index_list_NoDup _ _)) as (x & Ex & Hx).
  rewrite Ex in Hw. unfold lift at 1 in Hw. unfold mbind at 1, method_MBind at 1, method_bind at 1 in Hw.
  eapply (bind_reads s) in Hw as [(s2 & [] & Hs2 & _ & Hw)|[? ->]]; [|done|apply column_io_reads|done].
  injection Hw as <- <-. pose proof Hs2 as (Ec & _ & _ & _ & _ & Ed & Et & _). split_and!.
  - split; simpl.
    + rewrite Ec. eapply taken_out_decodes; [apply (columns_decode _ Hok)|exact Hx].
    + rewrite Ed. apply (derived_decode _ Hok).
    + rewrite Et. apply (tenant_refs_decode _ Hok).
    + destruct Hs2 as (_ & _ & _ & _ & _ & _ & _ & -> & _). apply (sources_decode _ Hok).
  - f_equal. apply (taken_count _ _ _ _ _ _ Hx).
  - intros k. unfold column_events. simpl. rewrite Ec.
    pose proof (taken_out_lists _ _ _ _ _ _ k Hx) as Hk. by rewrite !list_fmap_id in Hk.
Qed.

Definition column_no_records (d : DataSubjectId) (s : ColumnLineageStore) : Prop :=
  if String.eqb (id_type d) "user_id" then ∀ k, removed (subject_id d) (column_events s k) = []
  else if String.eqb (id_type d) "tenant_id" then tenant_refs s (subject_id d) = []
  else False.

Lemma column_same_none s s' d : column_same s s' → column_no_records d s → column_no_records d s'.
Proof.
  intros Hs. pose proof Hs as (Ec & _ & _ & _ & _ & _ & Et & _).
  unfold column_no_records, column_events, tenant_refs. by rewrite Ec, Et.
Qed.

Lemma column_tenant_spec s0 t :
  column_ok s0 → creads s0 (λ l, l = tenant_refs s0 t) (get_tenant_column_refs t).
Proof.
  intros Hok. unfold get_tenant_column_refs.
  apply creads_value; [by intros s (_ & _ & _ & _ & _ & _ & -> & _)|]. unfold tenant_refs, refs_at.
  destruct (cl_by_tenant s0 !! t) as [d|] eqn:Ed; [|by apply reads_ret].
  destruct (tenant_refs_decode _ Hok _ _ Ed) as [l Hl]. rewrite Hl. by eapply creads_lift.
Qed.

Lemma column_count_tenant s0 t :
  column_ok s0 → creads s0 (λ n, n = Z.of_nat (length (tenant_refs s0 t))) (count_tenant_columns t).
Proof.
  intros Hok. eapply reads_bind; [by apply column_tenant_spec|]. intros ? ->. by apply reads_ret.
Qed.

Abbreviation left_columns := (erasure_left column_ok column_same column_no_records).

Lemma column_quiet r st s s' res (m : method ColumnLineageStore ColumnError Z) category :
  column_ok s → dry_run r = true → creads s (λ _, True) m →
  (n ← m; mret (one_report "column_lineage" r st (dry_report "column_lineage" category n))) s = (s', res) →
  match res with
  | Ok x => left_columns r s s' x
  | Err e => column_same s s' ∧ e = ColumnDbFailed
  | Panic => False
  end.
Proof.
  intros Hok Hd Hm Hw.
  cut (match res with
       | Ok x => left_columns r s s' x
       | Err e => column_same s s' ∧ column_failed e
       | Panic => False
       end); [by destruct res as [x|e|]; [|intros [? [-> _]]|]|].
  eapply (quiet_erasure _ _ _ column_failed "column_lineage" r st s s' res
            (n ← m; mret (dry_report "column_lineage" category n))).
  - done.
  - intros. by eapply column_same_ok.
  - intros. by eapply column_same_none.
  - reflexivity.
  - eapply reads_bind; [exact Hm|]. intros n _. apply reads_ret. split; [done|congruence].
  - rewrite <- Hw. apply (bind_ret_bind _ (dry_report _ _) (λ b, mret (one_report _ r st b))).
Qed.

Lemma kept_removed u es : removed u (List.filter (λ e, negb (column_of_user u e)) es) = [].
Proof.
  apply (kept_of_view (λ e, e) (column_of_user u) es); [by intros ? ? ->|done].
Qed.

Lemma delete_columns_ok ks t s :
  column_ok s → column_ok (set_columns (delete_keys ks) (delete t) s).
Proof.
  intros Hok. split; simpl.
  - intros k d [Hd _]%delete_keys_Some. by eapply columns_decode.
  - apply (derived_decode _ Hok).
  - intros t' d [_ Hd]%lookup_delete_Some. by eapply tenant_refs_decode.
  - apply (sources_decode _ Hok).
Qed.

Lemma column_erase_spec r st s s' res :
  column_ok s → erase_column_subject r st s = (s', res) →
  match res with
  | Ok x => left_columns r s s' x
  | Err e => column_same s s' ∧ e = ColumnDbFailed
  | Panic => False
  end.
Proof.
  intros Hok. unfold erase_column_subject.
  destruct (String.eqb (id_type (data_subject r)) "user_id") eqn:Eu.
  - destruct (dry_run r) eqn:Edry; intros Hw.
    + eapply column_quiet; [done|done| |exact Hw].
      eapply reads_weaken; [|by apply column_count_user]. done.
    + destruct (method_bind_inv _ _ _ _ _ Hw) as [(s1 & n & E1 & [= <- <-])|[(err & E1 & ->)|[E1 ->]]];
        apply column_user_erased in E1; try done.
      destruct E1 as (Hok' & _ & Hch). split_and!; [done|apply one_report_success|congruence|].
      intros _ _. unfold column_no_records. rewrite Eu. intros k. rewrite Hch. apply kept_removed.
  - destruct (String.eqb (id_type (data_subject r)) "tenant_id") eqn:Et; simpl.
    2:{ intros [= <- <-]. split_and!; [done|apply one_report_success| |done].
        intros _. split; [reflexivity|by apply one_report_zero]. }
    destruct (dry_run r) eqn:Edry; intros Hw.
    { eapply column_quiet; [done|done| |exact Hw].
      eapply reads_weaken; [|by apply column_count_tenant]. done. }
    eapply (bind_reads s (λ l, l = tenant_refs s (subject_id (data_subject r)))) in Hw
      as [(s1 & refs & Hs1 & -> & Hw)|[? ->]]; [|done|by apply column_tenant_spec|reflexivity].
    destruct (Nat.eqb_spec (length (tenant_refs s (subject_id (data_subject r)))) 0) as [El|El].
    + injection Hw as <- <-. apply nil_length_inv in El.
      split_and!; [by eapply column_same_ok|apply one_report_success|congruence|].
      intros _ _. apply (column_same_none s); [done|]. unfold column_no_records. by rewrite Eu, Et.
    + eapply (bind_reads s) in Hw as [(s2 & [] & Hs2 & _ & Hw)|[? ->]]; [|done|apply column_io_reads|done].
      injection Hw as <- <-.
      split_and!; [by eapply delete_columns_ok, column_same_ok|apply one_report_success|congruence|].
      intros _ _. unfold column_no_records. rewrite Eu, Et. unfold tenant_refs, refs_at. simpl.
      by rewrite lookup_delete_eq.
Qed.

Lemma column_count_spec d s s' res :
  column_ok s → count_column_subject d s = (s', res) →
  column_same s s' ∧
  match res with
  | Ok n => column_no_records d s → n = 0
  | Err _ => True
  | Panic => False
  end.
Proof.
  intros Hok Hw. unfold count_column_subject in Hw. unfold column_no_records.
  destruct (String.eqb_spec (id_type d) "tenant_id") as [Et|Et].
  - rewrite Et. simpl. destruct (column_count_tenant s (subject_id d) Hok s (reflexivity s)) as [Hs' Hn].
    rewrite Hw in *. split; [done|]. destruct res; [|done..]. simpl in Hn. intros Hnil. by rewrite Hn, Hnil.
  - destruct (String.eqb_spec (id_type d) "user_id") as [Eu|Eu].
    + destruct (column_count_user s (subject_id d) Hok s (reflexivity s)) as [Hs' Hn].
      rewrite Hw in *. split; [done|]. destruct res; [|done..]. simpl in Hn. intros Hnil.
      by rewrite Hn, count_in_zero.
    + injection Hw as <- <-. done.
Qed.
End Facts.

(** The erasure leaves the buffer alone. *)
Lemma column_erase_buffer `{ColumnDb} r st b :
  preserves (λ s, column_buffer s = b) (erase_column_subject r st).
Proof.
  assert (preserves (λ s, column_buffer s = b) column_io) as Hio.
  { intros s s' res [= <- _]. done. }
  unfold erase_column_subject, erase_user_columns, count_user_columns, count_tenant_columns,
    get_tenant_column_refs, get_value, all_column_events.
  walk_method; try exact Hio; try (apply preserves_modify; by intros);
    apply preserves_mapM; intros; walk_method.
Qed.

#[export] Instance column_erasure_ok `{ColumnDbOk} : ErasureOk.
Proof.
  refine {| backend_ok := column_ok; backend_same := column_same; no_records := column_no_records;
            settled s := column_buffer s = [] |}.
  - intros r st s Hok. simpl. destruct (erase_column_subject r st s) as [s' res] eqn:E.
    pose proof (column_erase_spec r st s s' res Hok E) as Hr.
    destruct res as [x|e|]; [exact Hr| |done]. destruct Hr as [Hs _]. split; [|done].
    by eapply column_same_ok.
  - intros r st s Hs. simpl. destruct (erase_column_subject r st s) as [s' res] eqn:E.
    exact (column_erase_buffer _ _ [] _ _ _ E Hs).
  - intros d s Hok. simpl. destruct (count_column_subject d s) as [s' res] eqn:E.
    destruct (column_count_spec d s s' res Hok E) as [Hs Hr]. split; [|by split].
    by eapply column_same_ok.
Defined.
