(* ===== verification/ColumnGraph.v ===== *)
(** * The graph of columns

    Models the walks over the store of column lineage, the rest of
    [storage/column_lineage_store.rs] of the coordinator: the graph of a column's
    sources with its statistics and the search for cycles, the columns that depend on a
    column, and which of them count as critical.  [f64::log2] is a parameter.  Then
    what these walks find. *)

From Stdlib Require Import ZArith Lia Ascii.
From stdpp Require Import base numbers option strings gmap list relations.
From S2P Require Import Prelude RustStd RustText Effects F64 KvScan Gdpr ColumnLineage.
From S2P Require Import ColumnLineageFacts.

Local Open Scope Z_scope.

Abbreviation name := fully_qualified_name.

(** ** Reports *)

Record ColumnLineageStatistics : Type := {
  source_datasources : nat;
  source_tables : nat;
  source_column_count : nat;
  transformation_types : gmap string nat;
  has_circular_dependency : bool;
  average_confidence : option f64;
}.

Record ColumnLineageGraph : Type := {
  graph_column : ColumnRef;
  graph_sources : list ColumnRef;
  direct_dependencies : list ColumnLineageEvent;
  all_transformations : list ColumnLineageEvent;
  lineage_depth : nat;
  total_transformations : nat;
  statistics : ColumnLineageStatistics;
}.

(** Sets whose order the report leaves open. *)
Record ColumnImpactAnalysis : Type := {
  impact_column : ColumnRef;
  affected_columns : list ColumnRef;
  affected_pipelines : gset string;
  affected_jobs : gset string;
  estimated_records_affected : option Z;
  impact_depth : nat;
  total_downstream_transformations : nat;
  critical_dependencies : list ColumnRef;
}.

(** ** Critical columns *)

Definition has (text part : string) : bool := bool_decide (is_Some (str_find text part)).

Definition is_critical_column (c : ColumnRef) : bool :=
  let datasource := to_lowercase (datasource_id c) in
  let table := to_lowercase (ref_table c) in
  let is_production := has datasource "prod" || has datasource "production" ||
    ends_with datasource "-prd" || starts_with datasource "prd-" in
  let is_critical_table :=
    existsb (starts_with table) ["fact_"; "fct_"; "dim_"; "master_"; "ref_"] ||
    existsb (has table) ["customer"; "order"; "transaction"; "payment"; "invoice"; "account"] ||
    existsb (starts_with table) ["rpt_"; "report_"; "agg_"; "mv_"] ||
    has table "_aggregate" in
  let is_public_schema :=
    match schema c with
    | Some s =>
        let s := to_lowercase s in
        String.eqb s "public" || String.eqb s "dbo" || has s "publish" || has s "analytics" ||
        has s "reporting"
    | None => false
    end in
  is_production || is_critical_table || is_public_schema.

Section Graph.
(** [(n as f64).log2().ceil() as usize]. *)
Context `{ColumnDb} (log2_ceil : nat → nat).

Abbreviation ColumnM := (method ColumnLineageStore ColumnError).

(** The events that produce a column. *)
Definition own_lineage (c : ColumnRef) : ColumnM (list ColumnLineageEvent) :=
  es ← get_column_lineage c;
  mret (List.filter (λ e, String.eqb (name (target_column e)) (name c)) es).

(** ** Walks

    The columns visited and what was collected. *)
Fixpoint trace {I} (fetch : ColumnRef → ColumnM (list I)) (next : I → list ColumnRef)
    (max_depth : nat) (c : ColumnRef) (st : gset string * list I) : ColumnM (gset string * list I) :=
  match max_depth with
  | O => mret st
  | S depth =>
      if bool_decide (name c ∈ st.1) then mret st
      else
        items ← fetch c;
        method_foldM
          (λ st i, method_foldM (λ st c', trace fetch next depth c' st) (st.1, st.2 ++ [i]) (next i))
          ({[name c]} ∪ st.1, st.2) items
  end.

Definition trace_upstream_recursive
  : nat → ColumnRef → gset string * list ColumnLineageEvent →
    ColumnM (gset string * list ColumnLineageEvent) := trace own_lineage source_columns.

Definition trace_downstream_recursive
  : nat → ColumnRef → gset string * list ColumnRef → ColumnM (gset string * list ColumnRef) :=
  trace get_derived_columns (λ d, [d]).

(** ** Cycles

    The columns visited and those on the way; no answer when the fuel is spent. *)
Definition cycle_state : Type := gset string * gset string.

Fixpoint cycle_sources (dfs : ColumnRef → cycle_state → ColumnM (option (bool * cycle_state)))
    (l : list ColumnRef) (st : cycle_state) : ColumnM (option (bool * cycle_state)) :=
  match l with
  | [] => mret (Some (false, st))
  | c :: l' =>
      r ← dfs c st;
      match r with
      | Some (false, st') => cycle_sources dfs l' st'
      | _ => mret r
      end
  end.

Fixpoint detect_cycle_dfs (fuel : nat) (c : ColumnRef) (st : cycle_state)
    : ColumnM (option (bool * cycle_state)) :=
  match fuel with
  | O => mret None
  | S fuel' =>
      if bool_decide (name c ∈ st.2) then mret (Some (true, st))
      else if bool_decide (name c ∈ st.1) then mret (Some (false, st))
      else
        es ← own_lineage c;
        r ← cycle_sources (detect_cycle_dfs fuel') (es ≫= source_columns)
              ({[name c]} ∪ st.1, {[name c]} ∪ st.2);
        mret (match r with
              | Some (false, (v, p)) => Some (false, (v, p ∖ {[name c]}))
              | _ => r
              end)
  end.

(** A column that is visited has an entry in the index or no sources. *)
Definition detect_cycle (c : ColumnRef) : ColumnM (option bool) :=
  n ← gets (λ s, size (cl_by_column s));
  r ← detect_cycle_dfs (S n) c (∅, ∅);
  mret (fst <$> r).

(** [.unwrap_or(false)]. *)
Definition or_false (m : ColumnM (option bool)) : ColumnM (option bool) := λ s,
  match m s with
  | (s', Err _) => (s', Ok (Some false))
  | r => r
  end.

(** ** Reports *)

(** [retain] on identifiers not seen before. *)
Fixpoint unique_events (seen : gset string) (es : list ColumnLineageEvent) : list ColumnLineageEvent :=
  match es with
  | [] => []
  | e :: es' =>
      if bool_decide (cl_id e ∈ seen) then unique_events seen es'
      else e :: unique_events ({[cl_id e]} ∪ seen) es'
  end.

Definition count_type (m : gmap string nat) (e : ColumnLineageEvent) : gmap string nat :=
  let k := encode_transform_type (transformation_type e) in
  <[k := S (default 0%nat (m !! k))]> m.

Definition mean_confidence (es : list ColumnLineageEvent) : option f64 :=
  match omap confidence es with
  | [] => None
  | cs => Some (f64_div (foldl f64_add f64_zero cs) (f64_of_i64 (Z.of_nat (length cs))))
  end.

Definition trace_column_graph (c : ColumnRef) (max_depth : nat) : ColumnM (option ColumnLineageGraph) :=
  walked ← trace_upstream_recursive max_depth c (∅, []);
  let es := unique_events ∅ walked.2 in
  direct ← own_lineage c;
  let sources : gset ColumnRef := list_to_set (es ≫= source_columns) in
  circular ← or_false (detect_cycle c);
  mret (circular ≫= λ b, Some
    {| graph_column := c;
       graph_sources := ref_entries sources;
       direct_dependencies := direct;
       all_transformations := es;
       lineage_depth := match es with [] => 0%nat | _ => log2_ceil (size walked.1) end;
       total_transformations := length es;
       statistics :=
         {| source_datasources := size (set_map datasource_id sources : gset string);
            source_tables := size (set_map encode_table_key sources : gset string);
            source_column_count := size sources;
            transformation_types := foldl count_type ∅ es;
            has_circular_dependency := b;
            average_confidence := mean_confidence es |} |}).

Definition analyze_column_impact (c : ColumnRef) : ColumnM ColumnImpactAnalysis :=
  walked ← trace_downstream_recursive 10 c (∅, []);
  let affected := walked.2 in
  found ← method_mapM get_column_lineage affected;
  let es := mjoin found in
  mret {| impact_column := c;
          affected_columns := affected;
          affected_pipelines := list_to_set (omap cl_workflow es);
          affected_jobs := list_to_set (cl_job <$> es);
          estimated_records_affected := None;
          impact_depth := match affected with [] => 0%nat | _ => log2_ceil (length affected) end;
          total_downstream_transformations := size walked.1;
          critical_dependencies := List.filter is_critical_column affected |}.
End Graph.

(** ** What a walk finds *)

Lemma foldl_inv {A B} (P : A → Prop) (f : A → B → A) l a :
  P a → (∀ a x, x ∈ l → P a → P (f a x)) → P (foldl f a l).
Proof.
  revert a. induction l as [|x l IH]; intros a Ha Hf; [done|]. simpl. apply IH.
  - apply Hf; [left|done].
  - intros ? ? Hx. apply Hf. by right.
Qed.

Section PureTrace.
Context {I : Type} (items : string → list I) (next : I → list ColumnRef).

(** The walk without the database. *)
Fixpoint trace_pure (max_depth : nat) (k : string) (st : gset string * list I) : gset string * list I :=
  match max_depth with
  | O => st
  | S depth =>
      if bool_decide (k ∈ st.1) then st
      else
        foldl (λ st i, foldl (λ st c, trace_pure depth (name c) st) (st.1, st.2 ++ [i]) (next i))
          ({[k]} ∪ st.1, st.2) (items k)
  end.

Definition step (k k' : string) : Prop := ∃ i, i ∈ items k ∧ k' ∈ name <$> next i.

Lemma trace_sound d k st i :
  i ∈ (trace_pure d k st).2 → i ∈ st.2 ∨ ∃ x, rtc step k x ∧ i ∈ items x.
Proof.
  revert k st i. induction d as [|d IH]; intros k st i; simpl; [by left|].
  case_bool_decide; [by left|]. revert i.
  apply (foldl_inv (λ st' : gset string * list I,
    ∀ i, i ∈ st'.2 → i ∈ st.2 ∨ ∃ x, rtc step k x ∧ i ∈ items x)); [by left|].
  intros st1 j Hj H1. apply (foldl_inv (λ st' : gset string * list I,
    ∀ i, i ∈ st'.2 → i ∈ st.2 ∨ ∃ x, rtc step k x ∧ i ∈ items x)).
  - intros i [Hi| ->%list_elem_of_singleton]%elem_of_app; [by apply H1|]. right. by exists k.
  - intros st2 c Hc H2 i [Hi|(x & Hx & Hi)]%IH; [by apply H2|]. right. exists x. split; [|done].
    eapply rtc_l; [|done]. exists j. split; [done|]. by apply list_elem_of_fmap_2.
Qed.

(** Between two states of a walk: what is new is finished. *)
Record grown (st st' : gset string * list I) : Prop := {
  grown_visited : st.1 ⊆ st'.1;
  grown_items i : i ∈ st.2 → i ∈ st'.2;
  grown_closed x y : x ∈ st'.1 → x ∉ st.1 → step x y → y ∈ st'.1;
  grown_collected x i : x ∈ st'.1 → x ∉ st.1 → i ∈ items x → i ∈ st'.2;
}.

Lemma grown_same st st' : st.1 = st'.1 → (∀ i, i ∈ st.2 → i ∈ st'.2) → grown st st'.
Proof. intros E Hi. split; rewrite ?E; [done|done|done|done]. Qed.

Lemma grown_trans st1 st2 st3 : grown st1 st2 → grown st2 st3 → grown st1 st3.
Proof.
  intros [A1 A2 A3 A4] [B1 B2 B3 B4]. split; [set_solver|auto| |].
  - intros x y Hx Hn Hs. destruct (decide (x ∈ st2.1)); [apply B1; eauto|eauto].
  - intros x i Hx Hn Hs. destruct (decide (x ∈ st2.1)); [apply B2; eauto|eauto].
Qed.

(** A loop of steps that grow the state and leave [R] behind. *)
Lemma foldl_grown {X} (R : X → gset string * list I → Prop) (f : gset string * list I → X → gset string * list I)
    (st0 : gset string * list I) (l : list X) st :
  (∀ x a b, grown a b → R x a → R x b) →
  (∀ a x, x ∈ l → st0.1 ⊆ a.1 → grown a (f a x) ∧ R x (f a x)) →
  st0.1 ⊆ st.1 → grown st (foldl f st l) ∧ ∀ x, x ∈ l → R x (foldl f st l).
Proof.
  intros HR. revert st. induction l as [|x l IH]; intros st Hf Hst; simpl.
  { split; [by apply grown_same|]. by intros ? ?%not_elem_of_nil. }
  destruct (Hf st x) as [Hg Hx]; [left|done|].
  destruct (IH (f st x)) as [Hg' Hl].
  - intros a y Hy. apply Hf. by right.
  - pose proof (grown_visited _ _ Hg). set_solver.
  - split; [by eapply grown_trans|]. intros y [->|Hy]%elem_of_cons; [by eapply HR|by apply Hl].
Qed.

Context (U : gset string).
Hypothesis items_in : ∀ x, items x ≠ [] → x ∈ U.

Lemma trace_complete d k st :
  (size (U ∖ st.1) < d)%nat → grown st (trace_pure d k st) ∧ k ∈ (trace_pure d k st).1.
Proof.
  revert k st. induction d as [|d IH]; intros k st Hd; simpl; [lia|].
  case_bool_decide as Hk; [split; [by apply grown_same|done]|].
  set (st0 := ({[k]} ∪ st.1, st.2)).
  assert (∀ c a, items k ≠ [] → st0.1 ⊆ a.1 →
    grown a (trace_pure d c a) ∧ c ∈ (trace_pure d c a).1) as Hrec.
  { intros c a Hne Ha. apply IH. apply items_in in Hne.
    assert (size (U ∖ a.1) ≤ size (U ∖ st0.1))%nat by (apply subseteq_size; set_solver).
    assert (size (U ∖ st0.1) < size (U ∖ st.1))%nat; [|lia].
    apply subset_size. unfold st0. simpl. set_solver. }
  destruct (foldl_grown (λ i st', i ∈ st'.2 ∧ ∀ c, c ∈ next i → name c ∈ st'.1)
    (λ st i, foldl (λ st c, trace_pure d (name c) st) (st.1, st.2 ++ [i]) (next i)) st0 (items k) st0)
    as [Hg Hi]; [| |done|].
  - intros i a b [Hv Hit _ _] [Hi Hc]. split; [by apply Hit|]. intros c Hin. by apply Hv, Hc.
  - intros a i Hi Ha. assert (items k ≠ []) as Hne by (by intros E; rewrite E in Hi; apply not_elem_of_nil in Hi).
    set (a' := (a.1, a.2 ++ [i])).
    assert (grown a a') as Haa by (apply grown_same; [done|]; intros; apply elem_of_app; by left).
    destruct (foldl_grown (λ c st', name c ∈ st'.1) (λ st c, trace_pure d (name c) st) st0 (next i) a')
      as [Hg Hc]; [| |done|].
    + intros c b b' [Hv _ _ _] Hc. by apply Hv.
    + intros b c _ Hb. by apply Hrec.
    + split; [by eapply grown_trans|]. split; [|done]. apply Hg, elem_of_app. right. by apply list_elem_of_singleton.
  - assert (k ∈ (foldl (λ st i, foldl (λ st c, trace_pure d (name c) st) (st.1, st.2 ++ [i]) (next i))
                  st0 (items k)).1) as Hkin by (apply Hg; unfold st0; set_solver).
    split; [|done]. destruct Hg as [Hv Hit Hcl Hco]. unfold st0 in Hv, Hit, Hcl, Hco. simpl in *.
    split; [set_solver|done| |].
    + intros x y Hx Hn (i & Hix & Hy). destruct (decide (x = k)) as [->|Hne].
      * apply list_elem_of_fmap in Hy as (c & -> & Hc). by eapply Hi.
      * eapply Hcl; [done|set_solver|]. by exists i.
    + intros x i Hx Hn Hix. destruct (decide (x = k)) as [->|Hne]; [by apply Hi|].
      eapply Hco; [done|set_solver|done].
Qed.

Lemma trace_exact d k i :
  (size U < d)%nat → i ∈ (trace_pure d k (∅, [])).2 ↔ ∃ x, rtc step k x ∧ i ∈ items x.
Proof.
  intros Hd. split.
  { intros [Hi%not_elem_of_nil|Hi]%trace_sound; done. }
  destruct (trace_complete d k (∅, [])) as [Hg Hk].
  { simpl. by rewrite difference_empty_L. }
  revert Hg Hk. generalize (trace_pure d k (∅, [])) as st. intros st Hg Hk (x & Hx & Hi).
  eapply (grown_collected _ _ Hg x); [|set_solver|done].
  clear Hi. induction Hx as [|x y z Hxy _ IH]; [done|]. apply IH.
  eapply (grown_closed _ _ Hg x y); [done|set_solver|done].
Qed.
End PureTrace.

(** ** Which columns are on a cycle *)

Section PureCycle.
Context (succ : string → list string) (edge : relation string).
Hypothesis edge_succ : ∀ k k', edge k k' ↔ k' ∈ succ k.

Fixpoint loop_pure (dfs : string → cycle_state → option (bool * cycle_state)) (l : list string)
    (st : cycle_state) : option (bool * cycle_state) :=
  match l with
  | [] => Some (false, st)
  | k :: l' =>
      match dfs k st with
      | Some (false, st') => loop_pure dfs l' st'
      | r => r
      end
  end.

Fixpoint dfs_pure (fuel : nat) (k : string) (st : cycle_state) : option (bool * cycle_state) :=
  match fuel with
  | O => None
  | S fuel' =>
      if bool_decide (k ∈ st.2) then Some (true, st)
      else if bool_decide (k ∈ st.1) then Some (false, st)
      else
        match loop_pure (dfs_pure fuel') (succ k) ({[k]} ∪ st.1, {[k]} ∪ st.2) with
        | Some (false, (v, p)) => Some (false, (v, p ∖ {[k]}))
        | r => r
        end
  end.

Definition cyclic (k : string) : Prop := ∃ x, rtc edge k x ∧ tc edge x x.

Lemma cyclic_edge k k' : edge k k' → cyclic k' → cyclic k.
Proof. intros He (x & Hr & Hx). exists x. split; [by eapply rtc_l|done]. Qed.

Lemma acyclic_node k : (∀ k', edge k k' → ¬ cyclic k') → ¬ cyclic k.
Proof.
  intros Hk (x & Hr & Hx). apply rtc_inv in Hr as [<-|(d & Hd & Hr)].
  - assert (∃ d, edge k d ∧ rtc edge d k) as (d & Hd & Hr).
    { inversion Hx as [? ? Hx'|? y ? Hy Hz]; subst; [by exists k|]. exists y. split; [done|by apply tc_rtc]. }
    apply (Hk d Hd). by exists k.
  - apply (Hk d Hd). by exists x.
Qed.

(** A finished search: the way is as before, and a cycle was there to be found. *)
Lemma loop_found (dfs : string → cycle_state → option (bool * cycle_state)) l st b st' (k : string) :
  (∀ d v b' s', d ∈ l → st.1 ⊆ v → dfs d (v, st.2) = Some (b', s') →
     v ⊆ s'.1 ∧ (b' = true → cyclic d) ∧ (b' = false → s'.2 = st.2)) →
  (∀ d, d ∈ l → edge k d) → loop_pure dfs l st = Some (b, st') →
  st.1 ⊆ st'.1 ∧ (b = true → cyclic k) ∧ (b = false → st'.2 = st.2).
Proof.
  destruct st as [v p]. simpl. revert v. induction l as [|d l IH]; intros v Hd He; simpl.
  { by intros [= <- <-]. }
  destruct (dfs d (v, p)) as [[[] [v' p']]|] eqn:E; [| |done].
  - intros [= <- <-]. destruct (Hd d v true (v', p')) as (? & ? & _); [left|done|done|].
    split; [done|]. split; [|done]. intros _. eapply cyclic_edge; [apply He; left|auto].
  - destruct (Hd d v false (v', p')) as (Hv & _ & Hp); [left|done|done|]. simpl in *.
    rewrite (Hp eq_refl). intros Hl. destruct (IH v') as (? & ? & ?); [| |exact Hl|].
    + intros d' v0 b' s' Hd' Hv0. apply Hd; [by right|set_solver].
    + intros d' Hd'. apply He. by right.
    + split_and!; [set_solver|done|done].
Qed.

Lemma dfs_found fuel k st b st' :
  (∀ x, x ∈ st.2 → tc edge x k) → dfs_pure fuel k st = Some (b, st') →
  st.1 ⊆ st'.1 ∧ (b = true → cyclic k) ∧ (b = false → st'.2 = st.2).
Proof.
  revert k st b st'. induction fuel as [|fuel IH]; intros k [v p] b st' Hp; [done|]. simpl in *.
  case_bool_decide as H1.
  { intros [= <- <-]. split_and!; [done| |done]. intros _. exists k. split; [constructor|auto]. }
  case_bool_decide as H2; [by intros [= <- <-]|].
  destruct (loop_pure _ _ _) as [[b' [v' p']]|] eqn:E; [|done].
  apply (loop_found _ _ _ _ _ k) in E as (Hv & Hc & Hs); [| |by intros d Hd; apply edge_succ].
  - simpl in *. destruct b'; intros [= <- <-]; simpl.
    + split_and!; [set_solver|auto|done].
    + rewrite (Hs eq_refl). split_and!; [set_solver|done|]. intros _. set_solver.
  - intros d w b1 s1 Hd Hw Hr. apply IH in Hr; [done|]. simpl.
    intros x [->%elem_of_singleton|Hx]%elem_of_union; [by apply tc_once, edge_succ|].
    eapply tc_r; [by apply Hp|by apply edge_succ].
Qed.

(** When no cycle was found there is none. *)
Lemma dfs_none fuel k st st' :
  (∀ x, x ∈ st.1 → x ∉ st.2 → ¬ cyclic x) → dfs_pure fuel k st = Some (false, st') →
  ¬ cyclic k ∧ st'.2 = st.2 ∧ ∀ x, x ∈ st'.1 → x ∉ st'.2 → ¬ cyclic x.
Proof.
  revert k st st'. induction fuel as [|fuel IH]; intros k [v p] st' Hp; [done|]. simpl in *.
  case_bool_decide as H1; [done|]. case_bool_decide as H2; [intros [= <-]; auto|].
  destruct (loop_pure _ _ _) as [[[] [v' p']]|] eqn:E; [done| |done]. intros [= <-]. simpl.
  assert (∀ l w r, (∀ x, x ∈ w → x ∉ {[k]} ∪ p → ¬ cyclic x) →
    loop_pure (dfs_pure fuel) l (w, {[k]} ∪ p) = Some (false, r) →
    r.2 = {[k]} ∪ p ∧ (∀ d, d ∈ l → ¬ cyclic d) ∧ ∀ x, x ∈ r.1 → x ∉ {[k]} ∪ p → ¬ cyclic x) as Hloop.
  { clear v' p' E. intros l. induction l as [|d l IHl]; intros w r Hw; simpl.
    { intros [= <-]. split_and!; [done| |done]. by intros ? ?%not_elem_of_nil. }
    destruct (dfs_pure fuel d _) as [[[] [w' q]]|] eqn:E; [done| |done].
    apply IH in E as (Hd & Hq & Hw'); [|done]. simpl in *. subst q.
    intros Hl. apply IHl in Hl as (? & Hl & ?); [|done]. split_and!; [done| |done].
    intros d' [->|Hd']%elem_of_cons; auto. }
  apply Hloop in E as (Hq & Hl & Hv); [|set_solver]. simpl in *. subst p'.
  assert (¬ cyclic k) as Hk by (apply acyclic_node; intros ? ?%edge_succ; by apply Hl).
  split_and!; [done|set_solver|]. intros x Hx Hn. destruct (decide (x = k)) as [->|]; [done|].
  apply Hv; set_solver.
Qed.

Context (U : gset string).
Hypothesis succ_in : ∀ x, succ x ≠ [] → x ∈ U.

Lemma dfs_total fuel k st :
  (size (U ∖ st.1) < fuel)%nat → ∃ b st', dfs_pure fuel k st = Some (b, st') ∧ st.1 ⊆ st'.1.
Proof.
  revert k st. induction fuel as [|fuel IH]; intros k [v p] Hf; simpl in *; [lia|].
  repeat case_bool_decide; [by eexists _, _..|].
  assert (k ∈ U → ∀ l w q, {[k]} ∪ v ⊆ w → ∃ b st', loop_pure (dfs_pure fuel) l (w, q) = Some (b, st')
    ∧ w ⊆ st'.1) as Hloop.
  { intros HkU l. induction l as [|d l IHl]; intros w q Hw; [by eexists _, _|]. simpl.
    destruct (IH d (w, q)) as (b & [w' q'] & E & Hw').
    { assert (size (U ∖ w) ≤ size (U ∖ ({[k]} ∪ v)))%nat by (apply subseteq_size; set_solver).
      assert (size (U ∖ ({[k]} ∪ v)) < size (U ∖ v))%nat by (apply subset_size; set_solver).
      simpl. lia. }
    rewrite E. destruct b; [by eexists _, _|]. simpl in *.
    destruct (IHl w' q') as (b & st' & E' & ?); [set_solver|].
    rewrite E'. eexists _, _. split; [done|]. set_solver. }
  assert (∃ b st', loop_pure (dfs_pure fuel) (succ k) ({[k]} ∪ v, {[k]} ∪ p) = Some (b, st') ∧ {[k]} ∪ v ⊆ st'.1)
    as (b & [v' p'] & E & Hv).
  { destruct (decide (succ k = [])) as [->|Hne]; [by eexists _, _|]. by apply Hloop; [apply succ_in|]. }
  rewrite E. simpl in *. destruct b; eexists _, _; (split; [done|]); simpl; set_solver.
Qed.

Lemma dfs_exact k : ∃ b st', dfs_pure (S (size U)) k (∅, ∅) = Some (b, st') ∧ (b = true ↔ cyclic k).
Proof.
  destruct (dfs_total (S (size U)) k (∅, ∅)) as (b & st' & E & _).
  { simpl. rewrite difference_empty_L. lia. }
  exists b, st'. split; [done|]. split.
  - intros ->. apply dfs_found in E as (_ & Hc & _); [auto|set_solver].
  - intros Hc. destruct b; [done|]. apply dfs_none in E as (Hn & _); [done|set_solver].
Qed.
End PureCycle.

(** ** The store as a graph *)

Section Facts.
Context `{ColumnDbOk}.

Abbreviation creads s0 := (reads (column_same s0) column_failed).

Definition to_event (e : SerializableColumnLineageEvent) : option ColumnLineageEvent :=
  match of_serializable e with Ok x => Some x | _ => None end.

(** The events that produce the column of a name. *)
Definition producing (s : ColumnLineageStore) (k : string) : list ColumnLineageEvent :=
  omap to_event (column_events s k).

(** The event under a name produces the column of that name and can be read. *)
Record graph_ok (s : ColumnLineageStore) : Prop := {
  graph_columns : column_ok s;
  graph_targets k e : e ∈ column_events s k → name (ser_target e) = k;
  graph_events k e : e ∈ column_events s k → ∃ x, of_serializable e = Ok x;
}.

Lemma of_serializable_target e x : of_serializable e = Ok x → target_column x = ser_target e.
Proof.
  unfold of_serializable. intros (o & _ & [= <-])%result_bind_Ok. done.
Qed.

Lemma of_to_serializable e : ∃ x, of_serializable (to_serializable e) = Ok x.
Proof.
  unfold of_serializable, to_serializable. simpl. destruct (cl_metadata e) as [j|]; simpl; [|eauto].
  destruct (String.eqb _ _); simpl; [eauto|]. destruct (column_json_reads j) as [v ->]. simpl. eauto.
Qed.

Lemma graph_ok_new : graph_ok new_column_store.
Proof.
  split; [split; intros ? ? [=]|..]; intros k e; unfold column_events, list_at; simpl; by intros ?%not_elem_of_nil.
Qed.

(** Batches keep the store in order. *)
Lemma graph_ok_written es s s' : graph_ok s → columns_written es s s' → graph_ok s'.
Proof.
  intros [Hc Ht He] Hw. split; [apply Hw|..]; intros k e; rewrite (columns_events _ _ _ Hw k);
    (intros [Hin|Hin]%elem_of_app; [by eauto|]);
    destruct (last _) as [x|] eqn:Hl; simpl in Hin; [|by apply not_elem_of_nil in Hin| |by apply not_elem_of_nil in Hin];
    apply list_elem_of_singleton in Hin as ->; [|apply of_to_serializable].
  apply last_Some_elem_of, list_elem_of_filter in Hl as [Hl _]. exact Hl.
Qed.

(** An erasure of a user too. *)
Lemma graph_ok_erased u s s' n :
  graph_ok s → erase_user_columns u false s = (s', Ok n) → graph_ok s'.
Proof.
  intros [Hc Ht He] Hw. apply column_user_erased in Hw as (Hok & _ & Hk); [|done].
  split; [done|..]; intros k e; rewrite Hk; intros Hin;
    apply list_elem_of_In, filter_In in Hin as [Hin%list_elem_of_In _]; eauto.
Qed.

(** ** Lookups *)

Lemma parse_events es :
  (∀ e, e ∈ es → ∃ x, of_serializable e = Ok x) → result_mapM of_serializable es = Ok (omap to_event es).
Proof.
  intros He. induction es as [|e es IH]; [done|]. simpl. unfold to_event at 1.
  destruct (He e) as [x Hx]; [left|]. rewrite Hx, IH; [done|]. intros e' ?. apply He. by right.
Qed.

Lemma producing_target s k x : graph_ok s → x ∈ producing s k → name (target_column x) = k.
Proof.
  intros Hg (e & He & Hx)%list_elem_of_omap. unfold to_event in Hx.
  destruct (of_serializable e) as [y| |] eqn:E; [|done..]. injection Hx as <-.
  rewrite (of_serializable_target _ _ E). by apply (graph_targets _ Hg).
Qed.

(** What the events of other columns are not. *)
Lemma events_reading_spec s0 key t k :
  graph_ok s0 → cl_by_column s0 !! k = None →
  creads s0 (λ l, ∀ e, e ∈ l → name (target_column e) ≠ k) (events_reading key t).
Proof.
  intros Hg Hk. unfold events_reading.
  apply creads_value; [by intros s (-> & _)|].
  destruct (cl_by_column s0 !! name t) as [d|] eqn:Ed; [|by apply reads_ret; intros ? ?%not_elem_of_nil].
  destruct (columns_decode _ (graph_columns _ Hg) _ _ Ed) as (es & Hes & _).
  assert (column_events s0 (name t) = es) as Ece by (unfold column_events, list_at; by rewrite Ed, Hes).
  unfold decode_serializable_events in Hes. apply result_bind_Ok in Hes as (b & Hb & Hes).
  eapply (reads_bind _ _ (λ x, x = b)); [by eapply creads_lift|]. intros ? ->. apply reads_ret.
  destruct (ColumnLineage.events_of_bincode b) as [es'|]; [|done]. injection Hes as ->. simpl.
  intros x Hx. apply list_elem_of_In, filter_In in Hx as [Hx%list_elem_of_In _].
  assert (x ∈ producing s0 (name t)) as Hp by (unfold producing; by rewrite Ece).
  apply producing_target in Hp; [|done]. congruence.
Qed.

Lemma filter_all {A} (p : A → bool) l : (∀ x, x ∈ l → p x = true) → List.filter p l = l.
Proof.
  induction l as [|x l IH]; intros Hp; [done|]. simpl. rewrite (Hp x) by left.
  f_equal. apply IH. intros y ?. apply Hp. by right.
Qed.
Lemma filter_nothing {A} (p : A → bool) l : (∀ x, x ∈ l → p x = false) → List.filter p l = [].
Proof.
  induction l as [|x l IH]; intros Hp; [done|]. simpl. rewrite (Hp x) by left.
  apply IH. intros y ?. apply Hp. by right.
Qed.

Lemma get_lineage_spec s0 c :
  graph_ok s0 →
  creads s0 (λ l, List.filter (λ e, String.eqb (name (target_column e)) (name c)) l = producing s0 (name c))
    (get_column_lineage c).
Proof.
  intros Hg. unfold get_column_lineage. apply creads_value; [by intros s (-> & _)|].
  destruct (cl_by_column s0 !! name c) as [d|] eqn:Ed.
  - destruct (columns_decode _ (graph_columns _ Hg) _ _ Ed) as (es & Hes & _).
    assert (column_events s0 (name c) = es) as Ece by (unfold column_events, list_at; by rewrite Ed, Hes).
    eapply (reads_bind _ _ (λ x, x = es)); [by eapply creads_lift|]. intros ? ->.
    eapply creads_lift; [apply parse_events; intros e He; eapply graph_events; [done|by rewrite Ece]|].
    unfold producing. rewrite Ece. apply filter_all. intros x Hx. apply String.eqb_eq.
    apply (producing_target s0); [done|]. unfold producing. by rewrite Ece.
  - assert (producing s0 (name c) = []) as -> by (unfold producing, column_events, list_at; by rewrite Ed).
    apply creads_value; [by intros s (_ & _ & _ & _ & _ & _ & _ & -> & _)|].
    destruct (cl_by_source s0 !! name c) as [d|] eqn:Es; [|by apply reads_ret].
    destruct (sources_decode _ (graph_columns _ Hg) _ _ Es) as [ts Hts]. rewrite Hts.
    eapply (reads_bind _ _ (λ x, x = ts)); [by eapply creads_lift|]. intros ? ->.
    eapply (reads_bind _ _ (λ found, ∀ l, l ∈ found → ∀ e, e ∈ l → name (target_column e) ≠ name c)).
    + eapply reads_weaken; [|apply (reads_mapM _ _ (λ _ l, ∀ e, e ∈ l → name (target_column e) ≠ name c))].
      * intros ls Hls l Hl e He. apply list_elem_of_lookup in Hl as [i Hi].
        destruct (Forall2_lookup_r _ _ _ _ _ Hls Hi) as (? & _ & Hq). by apply Hq.
      * intros t _. by apply events_reading_spec.
    + intros found Hf. apply reads_ret. apply filter_nothing. intros e He.
      apply list_elem_of_join in He as (l & He & Hl). apply String.eqb_neq. by eapply Hf.
Qed.

Lemma own_lineage_spec s0 c :
  graph_ok s0 → creads s0 (λ l, l = producing s0 (name c)) (own_lineage c).
Proof.
  intros Hg. eapply reads_bind; [by apply get_lineage_spec|]. intros l Hl. by apply reads_ret.
Qed.

(** ** Walks *)

Lemma creads_foldl {A B} s0 (g : B → A → B) (f : B → A → method ColumnLineageStore ColumnError B) l b :
  (∀ b x, creads s0 (λ r, r = g b x) (f b x)) → creads s0 (λ r, r = foldl g b l) (method_foldM f b l).
Proof.
  intros Hf. apply (reads_foldM _ _ (λ l r, r = foldl g b l)); [done|].
  intros l1 x l2 r _ ->. rewrite foldl_snoc. apply Hf.
Qed.

Lemma trace_reads {I} s0 (fetch : ColumnRef → method ColumnLineageStore ColumnError (list I)) next items d c st :
  (∀ c, creads s0 (λ l, l = items (name c)) (fetch c)) →
  creads s0 (λ r, r = trace_pure items next d (name c) st) (trace fetch next d c st).
Proof.
  intros Hf. revert c st. induction d as [|d IH]; intros c st; simpl; [by apply reads_ret|].
  case_bool_decide; [by apply reads_ret|].
  eapply reads_bind; [apply Hf|]. intros ? ->. apply creads_foldl. intros b i.
  apply creads_foldl. intros b' c'. apply IH.
Qed.

Lemma cycle_reads s0 (sources : string → list ColumnRef) fuel c st :
  (∀ c, creads s0 (λ es, es ≫= source_columns = sources (name c)) (own_lineage c)) →
  creads s0 (λ r, r = dfs_pure (λ k, name <$> sources k) fuel (name c) st) (detect_cycle_dfs fuel c st).
Proof.
  intros Hs. revert c st. induction fuel as [|fuel IH]; intros c st; simpl; [by apply reads_ret|].
  case_bool_decide; [by apply reads_ret|]. case_bool_decide; [by apply reads_ret|].
  eapply reads_bind; [apply Hs|]. intros es ->.
  eapply (reads_bind _ _ (λ r, r = loop_pure (dfs_pure (λ k, name <$> sources k) fuel)
    (name <$> sources (name c)) ({[name c]} ∪ st.1, {[name c]} ∪ st.2))); [|intros ? ->; apply reads_ret; by destruct (loop_pure _ _ _) as [[[] []]|]].
  generalize (sources (name c)) as l, ({[name c]} ∪ st.1, {[name c]} ∪ st.2) as st1.
  intros l. induction l as [|d l IHl]; intros st1; simpl; [by apply reads_ret|].
  eapply reads_bind; [apply IH|]. intros ? ->.
  destruct (dfs_pure _ fuel (name d) st1) as [[[] st2]|]; [by apply reads_ret|apply IHl|by apply reads_ret].
Qed.

(** A column is made from the sources of the events that produce it. *)
Definition made_from (s : ColumnLineageStore) : relation string := step (producing s) source_columns.

(** A column is made from itself, or from a column that is. *)
Definition in_cycle (s : ColumnLineageStore) : string → Prop := cyclic (made_from s).

Lemma producing_in s x : producing s x ≠ [] → x ∈ dom (cl_by_column s).
Proof.
  unfold producing, column_events, list_at. intros Hx. apply elem_of_dom.
  destruct (cl_by_column s !! x); [eauto|done].
Qed.

Lemma detect_cycle_spec s0 c :
  graph_ok s0 →
  creads s0 (λ r, ∃ b, r = Some b ∧ (b = true ↔ in_cycle s0 (name c))) (detect_cycle c).
Proof.
  intros Hg. unfold detect_cycle. apply creads_field; [by intros s (-> & _)|].
  eapply reads_bind.
  { apply (cycle_reads s0 (λ k, producing s0 k ≫= source_columns)). intros c'.
    eapply reads_weaken; [|by apply own_lineage_spec]. by intros ? ->. }
  intros ? ->. apply reads_ret.
  destruct (dfs_exact (λ k, name <$> (producing s0 k ≫= source_columns)) (made_from s0)) with
    (U := dom (cl_by_column s0)) (k := name c) as (b & st' & E & Hb).
  - intros k k'. unfold made_from, step. rewrite list_elem_of_fmap. setoid_rewrite list_elem_of_bind.
    setoid_rewrite list_elem_of_fmap. naive_solver.
  - intros x Hx. apply producing_in. intros E. by rewrite E in Hx.
  - rewrite size_dom in E. rewrite E. exists b. done.
Qed.

Lemma or_false_spec s0 c s :
  graph_ok s0 → column_same s0 s →
  ∃ b, (or_false (detect_cycle c) s).2 = Ok (Some b) ∧ (b = true → in_cycle s0 (name c)) ∧
    (in_cycle s0 (name c) → b = true ∨ (detect_cycle c s).2 = Err ColumnDbFailed).
Proof.
  intros Hg Hs. destruct (detect_cycle_spec s0 c Hg s Hs) as [_ H2]. unfold or_false.
  destruct (detect_cycle c s) as [s' [r|e|]]; simpl in *; [| |done].
  - destruct H2 as (b & -> & Hb). exists b. naive_solver.
  - exists false. destruct H2 as [-> _]. naive_solver.
Qed.

(** ** Reports *)

Lemma creads_result {A} s (Q : A → Prop) (m : method ColumnLineageStore ColumnError A) :
  creads s Q m → match (m s).2 with Ok a => Q a | Err e => e = ColumnDbFailed | Panic => False end.
Proof.
  intros Hm. destruct (Hm s (reflexivity s)) as [_ Hq]. destruct (m s).2; [done|apply Hq|done].
Qed.

Lemma unique_subset seen es e : e ∈ unique_events seen es → e ∈ es.
Proof.
  revert seen. induction es as [|x es IH]; intros seen; simpl; [done|]. case_bool_decide.
  - intros He. right. by eapply IH.
  - intros [->|He]%elem_of_cons; [left|right; by eapply IH].
Qed.

Lemma unique_covers seen es e :
  e ∈ es → cl_id e ∈ seen ∨ ∃ e', e' ∈ unique_events seen es ∧ cl_id e' = cl_id e.
Proof.
  revert seen. induction es as [|x es IH]; intros seen; simpl; [by intros ?%not_elem_of_nil|].
  intros [->|He]%elem_of_cons; case_bool_decide as Hx.
  - by left.
  - right. exists x. split; [left|done].
  - by apply IH.
  - destruct (IH ({[cl_id x]} ∪ seen) He) as [[Heq%elem_of_singleton|?]%elem_of_union|(e' & ? & ?)].
    + right. exists x. split; [left|done].
    + by left.
    + right. exists e'. split; [by right|done].
Qed.

Lemma unique_nodup seen es :
  NoDup (cl_id <$> unique_events seen es) ∧ ∀ e, e ∈ unique_events seen es → cl_id e ∉ seen.
Proof.
  revert seen. induction es as [|x es IH]; intros seen; simpl.
  { split; [constructor|by intros e ?%not_elem_of_nil]. }
  case_bool_decide as Hx; [apply IH|]. destruct (IH ({[cl_id x]} ∪ seen)) as [Hn Hs]. split.
  - rewrite fmap_cons. constructor; [|done]. intros (e & He & Hin)%list_elem_of_fmap.
    specialize (Hs e Hin). set_solver.
  - intros e [->|Hin]%elem_of_cons; [done|]. specialize (Hs e Hin). set_solver.
Qed.

(** The search for a cycle that [trace_column_graph] makes, after the walk and the read
    of the column's own events, ends in an error of the database. *)
Definition cycle_search_failed (c : ColumnRef) (max_depth : nat) (s : ColumnLineageStore) : Prop :=
  ∃ s1 walked s2 direct,
    trace_upstream_recursive max_depth c (∅, []) s = (s1, Ok walked) ∧
    own_lineage c s1 = (s2, Ok direct) ∧
    (detect_cycle c s2).2 = Err ColumnDbFailed.

(** The events of a graph. *)
Lemma graph_events_spec c max_depth s :
  (size (cl_by_column s) < max_depth)%nat →
  let es := unique_events ∅ (trace_pure (producing s) source_columns max_depth (name c) (∅, [])).2 in
  NoDup (cl_id <$> es) ∧
  (∀ e, e ∈ es → ∃ x, rtc (made_from s) (name c) x ∧ e ∈ producing s x) ∧
  (∀ x e, rtc (made_from s) (name c) x → e ∈ producing s x → ∃ e', e' ∈ es ∧ cl_id e' = cl_id e).
Proof.
  intros Hd es.
  pose proof (λ e, trace_exact (producing s) source_columns (dom (cl_by_column s)) (producing_in s)
    max_depth (name c) e ltac:(by rewrite size_dom)) as Ht.
  split_and!; [apply unique_nodup|intros e He%unique_subset; by apply Ht|].
  intros x e Hx He.
  destruct (unique_covers ∅ (trace_pure (producing s) source_columns max_depth (name c) (∅, [])).2 e)
    as [?|?]; [apply Ht; eauto|set_solver|done].
Qed.

(** C17: in a column store whose tables fit each other and hold under each name readable
    events that produce the column of that name ([graph_ok], which a new store has and
    recording keeps), and with a depth of more than the number of columns with events,
    the graph of a column holds only events that the column is made by, directly or
    over other columns, no two of them with the same identifier, and for every event
    that the column is so made by one with its identifier; its direct dependencies are
    the events that produce the column; it is said to be circular only when the column is
    made from a column that is made from itself; and when it is, it is said to be,
    unless the search for the cycle itself, made in the state after the walk and the
    read of the column's events, ended in an error of the database. *)
Theorem column_graph_exact log2_ceil c max_depth s :
  graph_ok s → (size (cl_by_column s) < max_depth)%nat →
  match (trace_column_graph log2_ceil c max_depth s).2 with
  | Ok r => ∃ g, r = Some g ∧
      NoDup (cl_id <$> all_transformations g) ∧
      (∀ e, e ∈ all_transformations g →
         ∃ x, rtc (made_from s) (name c) x ∧ e ∈ producing s x) ∧
      (∀ x e, rtc (made_from s) (name c) x → e ∈ producing s x →
         ∃ e', e' ∈ all_transformations g ∧ cl_id e' = cl_id e) ∧
      direct_dependencies g = producing s (name c) ∧
      (has_circular_dependency (statistics g) = true → in_cycle s (name c)) ∧
      (in_cycle s (name c) →
         has_circular_dependency (statistics g) = true ∨ cycle_search_failed c max_depth s)
  | Err e => e = ColumnDbFailed
  | Panic => False
  end.
Proof.
  intros Hg Hd. pose proof (graph_events_spec c max_depth s Hd) as Hes.
  unfold trace_column_graph. unfold mbind, method_MBind, method_bind.
  destruct (trace_reads s own_lineage source_columns (producing s) max_depth c (∅, []) (λ c', own_lineage_spec s c' Hg)
    s (reflexivity s)) as [Hs1 H1].
  destruct (trace_upstream_recursive max_depth c (∅, []) s) as [s1 [walked|e|]] eqn:E1;
    unfold trace_upstream_recursive in E1; rewrite E1 in H1, Hs1; [|apply H1|done].
  simpl in Hs1, H1. subst walked. destruct (own_lineage_spec s c Hg s1 Hs1) as [Hs2 H2].
  destruct (own_lineage c s1) as [s2 [direct|e|]] eqn:E2; simpl in *; [subst direct|apply H2|done].
  destruct (or_false_spec s c s2 Hg Hs2) as (b & Hb & Hb1 & Hb2).
  destruct (or_false (detect_cycle c) s2) as [s3 r3]. simpl in Hb. subst r3. simpl.
  eexists. split; [reflexivity|]. simpl. destruct Hes as (Hn & He1 & He2). split_and!; try done.
  intros Hc. destruct (Hb2 Hc) as [?|Hf]; [by left|right]. by do 4 eexists.
Qed.

(** The columns affected by a change are derived from the column, directly or over
    others; with fewer than ten source columns they are all there are. *)
Theorem column_impact_exact log2_ceil c s :
  graph_ok s →
  match (analyze_column_impact log2_ceil c s).2 with
  | Ok g =>
      let derived := step (derived_at s) (λ d, [d]) in
      (∀ d, d ∈ affected_columns g → ∃ x, rtc derived (name c) x ∧ d ∈ derived_at s x) ∧
      ((size (cl_derived s) < 10)%nat →
         ∀ x d, rtc derived (name c) x → d ∈ derived_at s x → d ∈ affected_columns g) ∧
      critical_dependencies g = List.filter is_critical_column (affected_columns g)
  | Err e => e = ColumnDbFailed
  | Panic => False
  end.
Proof.
  intros Hg. apply creads_result.
  unfold analyze_column_impact. eapply reads_bind.
  { apply (trace_reads s get_derived_columns (λ d, [d]) (derived_at s)). intros c'.
    apply derived_spec, Hg. }
  intros ? ->. eapply (reads_bind _ _ (λ _, True)).
  { eapply reads_weaken; [|apply (reads_mapM _ _ (λ _ _, True))]; [done|].
    intros x _. eapply reads_weaken; [|by apply get_lineage_spec]. done. }
  intros found _. apply reads_ret. cbn -[trace_pure]. split_and!; [| |done].
  - intros d [?%not_elem_of_nil|?]%trace_sound; done.
  - intros Hsz x d Hx Hd. apply (trace_exact (derived_at s) (λ d, [d]) (dom (cl_derived s))); [|by rewrite size_dom|eauto].
    intros y Hy. apply elem_of_dom. unfold derived_at, refs_at in Hy.
    destruct (cl_derived s !! y); [eauto|done].
Qed.
End Facts.
