(* ===== verification/Anonymizer.v ===== *)
(** * Anonymization of personal data

    Models [gdpr/anonymization.rs] of the core: the strategies by which a value is
    hashed, masked, generalized or replaced, and the two methods for addresses and
    phone numbers.  A string is its UTF-8 bytes and a [char] the bytes that encode it,
    since the code slices by bytes and a slice that cuts a character panics.  SHA-256
    in hexadecimal and [char::is_numeric] are parameters, the UUIDs that are drawn and
    the build profile are arguments.  The counter is the only state. *)

From Stdlib Require Import ZArith Lia Ascii DecimalString.
From stdpp Require Import base numbers option strings list.
From S2P Require Import Prelude RustStd RustText Effects.

Local Open Scope Z_scope.

(** ** UTF-8 *)

(** A byte [10xxxxxx], which does not begin a character. *)
Definition is_continuation (c : ascii) : bool :=
  ((128 <=? nat_of_ascii c) && (nat_of_ascii c <? 192))%nat.

(** [s.is_char_boundary(i)]: at the end, or before a byte that begins a character. *)
Definition is_char_boundary (i : nat) (s : string) : bool :=
  match i with
  | O => true
  | _ => match String.get i s with
         | Some c => negb (is_continuation c)
         | None => Nat.eqb i (String.length s)
         end
  end.

(** [&s[..n]] and [&s[n..]]. *)
Definition slice_to {E} (n : nat) (s : string) : result E string :=
  if is_char_boundary n s then Ok (str_take n s) else Panic.
Definition slice_from {E} (n : nat) (s : string) : result E string :=
  if is_char_boundary n s then Ok (str_drop n s) else Panic.

(** [s.chars()]. *)
Fixpoint chars (s : string) : list string :=
  match s with
  | EmptyString => []
  | String c r =>
      match chars r with
      | (String d _ as x) :: xs =>
          if is_continuation d then String c x :: xs else str1 c :: x :: xs
      | _ => [str1 c]
      end
  end.

(** [iter.collect::<String>()]. *)
Definition collect : list string → string := foldr String.append "".

(** A string that begins with a character, and one of ASCII characters. *)
Definition starts_char (s : string) : bool :=
  match s with String c _ => negb (is_continuation c) | EmptyString => true end.
Definition is_ascii (s : string) : bool := str_all (λ c, (nat_of_ascii c <? 128)%nat) s.

(** ** Strategies *)

Inductive GeographicLevel : Type := Country | State | City | PostalPrefix.
Inductive DateLevel : Type := Year | Quarter | Month | Week.

Inductive GeneralizationRules : Type :=
  | AgeRange (range_size : Z)
  | Geographic (level : GeographicLevel)
  | DateTruncation (level : DateLevel)
  | Custom (func_name : string).

Inductive AnonymizationStrategy : Type :=
  | Hash (salt : option string)
  | Mask (mask_char : string) (preserve_last : nat)
  | Generalize (rules : GeneralizationRules)
  | RandomUuid
  | Sequential (prefix : string).

Definition default_strategy : AnonymizationStrategy := Hash None.

Record Anonymizer : Type := { strategy : AnonymizationStrategy; counter : Z }.

Definition new (st : AnonymizationStrategy) : Anonymizer := {| strategy := st; counter := 0 |}.
Definition default_hash : Anonymizer := new (Hash None).
Definition with_salt (salt : string) : Anonymizer := new (Hash (Some salt)).
Definition with_mask (mask_char : string) (preserve_last : nat) : Anonymizer :=
  new (Mask mask_char preserve_last).

(** What the crates and the Unicode tables give. *)
Class AnonymizerEnv : Type := {
  sha256_hex : string → string;
  is_numeric : string → bool;
}.

(** Digits are numeric and the other ASCII characters are not. *)
Class AnonymizerEnvOk {AE : AnonymizerEnv} : Prop := {
  numeric_ascii c :
    (nat_of_ascii c < 128)%nat →
    is_numeric (str1 c) = ((48 <=? nat_of_ascii c) && (nat_of_ascii c <=? 57))%nat;
}.

Section Anonymize.
Context {E : Type} `{AE : AnonymizerEnv} (overflow_checks : bool).

(** [str::parse::<u32>]. *)
Definition u32_from_str (s : string) : option Z :=
  z ← u64_from_str s; if z <? 2 ^ 32 then Some z else None.

(** [u32] addition and division. *)
Definition u32_add (a b : Z) : result E Z :=
  if a + b <? 2 ^ 32 then Ok (a + b)
  else if overflow_checks then Panic else Ok ((a + b) mod 2 ^ 32).
Definition u32_div (a b : Z) : result E Z := if b =? 0 then Panic else Ok (a / b).

(** [Anonymizer::generalize].  The product of a quotient and its divisor does not
    overflow. *)
Definition generalize (value : string) (rules : GeneralizationRules) : result E string :=
  match rules with
  | AgeRange range_size =>
      match u32_from_str value with
      | Some age =>
          q ← u32_div age range_size;
          let range_start := q * range_size in
          range_end ← u32_add range_start range_size;
          Ok (i64_to_string range_start +:+ "-" +:+ i64_to_string range_end)
      | None => Ok "**REDACTED**"
      end
  | Geographic PostalPrefix =>
      if (3 <=? String.length value)%nat then p ← slice_to 3 value; Ok (p +:+ "**")
      else Ok "***"
  | Geographic _ => Ok "**REGION**"
  | DateTruncation Year =>
      if (4 <=? String.length value)%nat then slice_to 4 value else Ok "****"
  | DateTruncation Month =>
      if (7 <=? String.length value)%nat then slice_to 7 value else Ok "****-**"
  | DateTruncation _ => Ok "**REDACTED**"
  | Custom func_name => Ok ("**CUSTOM:" +:+ func_name +:+ "**")
  end.

(** The branch of [Anonymizer::anonymize] for [Mask]. *)
Definition mask (mask_char : string) (preserve_last : nat) (value : string) : result E string :=
  let len := String.length value in
  if (len <=? preserve_last)%nat then Ok (str_repeat mask_char len)
  else
    let mask_count := (len - preserve_last)%nat in
    preserved ← slice_from mask_count value;
    Ok (str_repeat mask_char mask_count +:+ preserved).

(** [counter.fetch_add(1)]: the value before, and the counter wraps. *)
Definition fetch_add : method Anonymizer E Z :=
  λ a, ({| strategy := strategy a; counter := as_usize (counter a + 1) |}, Ok (counter a)).

(** [Anonymizer::anonymize]; [uuid] is the one drawn if it is. *)
Definition anonymize (uuid value : string) : method Anonymizer E string :=
  st ← gets strategy;
  match st with
  | Hash salt => mret (sha256_hex (value +:+ default "" salt))
  | Mask mask_char preserve_last => lift (mask mask_char preserve_last value)
  | Generalize rules => lift (generalize value rules)
  | RandomUuid => mret uuid
  | Sequential prefix => count ← fetch_add; mret (prefix +:+ i64_to_string count)
  end.

(** [Anonymizer::anonymize_email]. *)
Definition anonymize_email (uuid mail : string) (preserve_domain : bool)
    : method Anonymizer E string :=
  match find_char "@" mail with
  | Some at_pos =>
      let local := str_take at_pos mail in
      let domain := str_drop at_pos mail in
      anonymized_local ← anonymize uuid local;
      if preserve_domain then
        d ← lift (slice_from 1 domain); mret (anonymized_local +:+ "@" +:+ d)
      else mret (anonymized_local +:+ "@example.com")
  | None => anonymize uuid mail
  end.

(** [Anonymizer::anonymize_phone]. *)
Definition anonymize_phone (phone : string) (preserve_area_code : bool) : result E string :=
  let digits := collect (List.filter is_numeric (chars phone)) in
  if preserve_area_code && (6 <=? String.length digits)%nat then
    area_code ← slice_to 3 digits;
    Ok (area_code +:+ "-" +:+ str_repeat "*" (String.length digits - 3))
  else Ok (str_repeat "*" (Nat.max (String.length digits) 10)).
End Anonymize.

(** ** Facts on text *)

Lemma str_get_drop i s :
  String.get i s = match str_drop i s with String c _ => Some c | EmptyString => None end.
Proof. revert s. induction i as [|i IH]; intros [|c s]; simpl; try done. Qed.

Lemma str_drop_nil i s : str_drop i s = "" → (String.length s ≤ i)%nat.
Proof.
  revert s. induction i as [|i IH]; intros [|c s] H; simpl in *; try done; try lia.
  apply IH in H. lia.
Qed.

(** Within a string, whether a position is a boundary depends on what follows it. *)
Lemma boundary_drop i s :
  (0 < i ≤ String.length s)%nat → is_char_boundary i s = starts_char (str_drop i s).
Proof.
  intros Hi. unfold is_char_boundary. destruct i as [|i]; [lia|]. rewrite str_get_drop.
  destruct (str_drop (S i) s) as [|c r] eqn:Hd; cbn [starts_char]; [|done].
  apply str_drop_nil in Hd. apply Nat.eqb_eq. lia.
Qed.

Lemma ascii_drop n s : is_ascii s = true → is_ascii (str_drop n s) = true.
Proof.
  intros H. unfold is_ascii in *. rewrite <- (str_take_drop n s), str_all_app in H.
  by apply andb_true_iff in H as [_ H].
Qed.

Lemma ascii_starts s : is_ascii s = true → starts_char s = true.
Proof.
  destruct s as [|c s]; [done|]. unfold is_ascii. cbn [str_all starts_char]. intros H.
  apply andb_true_iff in H as [H _]. apply Nat.ltb_lt in H. unfold is_continuation.
  by replace (128 <=? nat_of_ascii c)%nat with false by (symmetry; apply Nat.leb_gt; lia).
Qed.

Lemma ascii_boundary i s :
  is_ascii s = true → (i ≤ String.length s)%nat → is_char_boundary i s = true.
Proof.
  intros Hs Hi. destruct i; [done|]. rewrite boundary_drop by lia.
  by apply ascii_starts, ascii_drop.
Qed.

Lemma chars_cons s : s ≠ "" → ∃ x xs, chars s = x :: xs ∧ x ≠ "".
Proof.
  destruct s as [|c s]; [done|]. intros _. simpl.
  destruct (chars s) as [|[|d x] xs]; [by eexists _, _|by eexists _, _|].
  destruct (is_continuation d); by eexists _, _.
Qed.

(** The characters of a string, put together, are the string. *)
Lemma collect_chars s : collect (chars s) = s.
Proof.
  induction s as [|c s IH]; [done|]. cbn [chars].
  destruct (decide (s = "")) as [->|Hs]; [done|].
  destruct (chars_cons s Hs) as (x & xs & Hc & Hx). rewrite Hc in *.
  destruct x as [|d x]; [done|]. unfold collect in *. cbn [foldr] in IH.
  destruct (is_continuation d); cbn [foldr]; by rewrite <- IH.
Qed.

(** In ASCII every byte is a character. *)
Lemma chars_ascii s : is_ascii s = true → chars s = str1 <$> String.list_ascii_of_string s.
Proof.
  induction s as [|c s IH]; [done|]. unfold is_ascii. cbn [str_all]. intros H.
  apply andb_true_iff in H as [_ H]. cbn [chars String.list_ascii_of_string fmap list_fmap].
  rewrite (IH H). destruct s as [|d s]; [done|]. cbn [String.list_ascii_of_string fmap list_fmap str1].
  pose proof (ascii_starts (String d s) H) as Hd. cbn [starts_char] in Hd.
  apply negb_true_iff in Hd. by rewrite Hd.
Qed.

(** ** Masks *)

Section Masks.
Context {E : Type}.
Implicit Types (value m : string) (k : nat).

(** What a mask returns is the masked part and the last [k] bytes; it panics exactly
    when those do not begin a character. *)
Lemma mask_result m k value :
  (k < String.length value)%nat →
  mask (E := E) m k value =
    let kept := str_drop (String.length value - k) value in
    if starts_char kept || Nat.eqb k 0
    then Ok (str_repeat m (String.length value - k) +:+ kept) else Panic.
Proof.
  intros Hk. unfold mask, slice_from. rewrite (proj2 (Nat.leb_gt _ _)) by lia.
  rewrite boundary_drop by lia. cbv zeta. destruct k as [|k].
  - rewrite Nat.sub_0_r, str_drop_all by lia. done.
  - rewrite orb_false_r. by destruct (starts_char _).
Qed.

(** A masked value tells no more than the length of the value and its last [k]
    bytes, and when it is not longer than these only the length. *)
Theorem mask_reveals m k v w :
  String.length v = String.length w →
  ((k < String.length v)%nat →
     str_drop (String.length v - k) v = str_drop (String.length w - k) w) →
  mask (E := E) m k v = mask m k w.
Proof.
  intros Hl Hd. destruct (decide (k < String.length v)%nat) as [Hk|Hk].
  - rewrite !mask_result by lia. by rewrite (Hd Hk), Hl.
  - unfold mask. rewrite Hl, !(proj2 (Nat.leb_le _ _)) by lia. done.
Qed.

(** An ASCII value is always masked. *)
Theorem mask_ascii m k value :
  is_ascii value = true →
  mask (E := E) m k value =
    Ok (if (String.length value <=? k)%nat then str_repeat m (String.length value)
        else str_repeat m (String.length value - k)
               +:+ str_drop (String.length value - k) value).
Proof.
  intros Ha. destruct (Nat.leb_spec (String.length value) k) as [Hk|Hk].
  - unfold mask. by rewrite (proj2 (Nat.leb_le _ _)) by lia.
  - rewrite mask_result by lia. cbv zeta. by rewrite (ascii_starts _ (ascii_drop _ _ Ha)).
Qed.
End Masks.

(** ** Ranges of ages *)

Lemma i64_to_string_inj a b :
  0 ≤ a < 2 ^ 64 → 0 ≤ b < 2 ^ 64 → i64_to_string a = i64_to_string b → a = b.
Proof.
  intros Ha Hb H. pose proof (u64_from_to_string a Ha) as H1.
  rewrite H, u64_from_to_string in H1 by done. by injection H1.
Qed.

Lemma digits_no_minus (d : Decimal.uint) :
  str_contains_char "-" (NilEmpty.string_of_uint d) = false.
Proof. by induction d. Qed.

Lemma i64_to_string_no_minus z : 0 ≤ z → str_contains_char "-" (i64_to_string z) = false.
Proof.
  intros Hz. unfold i64_to_string. destruct z as [|p|p]; [done| |lia].
  cbn [Z.to_int NilZero.string_of_int]. pose proof (digits_no_minus (Pos.to_uint p)).
  unfold NilZero.string_of_uint. by destruct (Pos.to_uint p).
Qed.

(** A text is cut at the first separator in one way. *)
Lemma first_sep_inj c a b a' b' :
  str_contains_char c a = false → str_contains_char c a' = false →
  a +:+ String c b = a' +:+ String c b' → a = a' ∧ b = b'.
Proof.
  intros Ha Ha' H. pose proof (find_char_app c a b Ha) as Hf.
  rewrite H, (find_char_app c a' b' Ha') in Hf. injection Hf as Hl.
  assert (a = a') as ->; [|split; [done|by injection (str_app_inj_l _ _ _ H)]].
  rewrite <- (str_take_app a (String c b)), H, <- Hl. apply str_take_app.
Qed.

Lemma u32_from_str_range s z : u32_from_str s = Some z → 0 ≤ z < 2 ^ 32.
Proof.
  unfold u32_from_str, u64_from_str, parse_digits. intros H.
  apply bind_Some in H as (y & (x & Hx & Hy)%bind_Some & H).
  case_match; [|done]. case_match; [|done]. simplify_eq. split; [|by apply Z.ltb_lt].
  assert (∃ d, z = Z.of_uint d) as [d ->]; [|unfold Z.of_uint; lia].
  destruct s as [|[[][][][][][][][]] s]; apply fmap_Some in Hx as (d & _ & ->); by exists d.
Qed.

Section Ages.
Context {E : Type} `{AE : AnonymizerEnv} (oc : bool).

(** The text of the range of an age, when the end of the range is a [u32]. *)
Lemma generalize_age value age size :
  0 < size → u32_from_str value = Some age → age / size * size + size < 2 ^ 32 →
  generalize (E := E) oc value (AgeRange size) =
    Ok (i64_to_string (age / size * size) +:+ "-" +:+ i64_to_string (age / size * size + size)).
Proof.
  intros Hs Hp Hb. unfold generalize. rewrite Hp. unfold u32_div, u32_add, mbind, result_bind.
  by rewrite (proj2 (Z.eqb_neq size 0)), (proj2 (Z.ltb_lt _ _)) by lia.
Qed.

(** Such a range has the age, the size that was asked for, and begins at a multiple
    of it. *)
Theorem age_range_holds value age size :
  0 < size → u32_from_str value = Some age → age / size * size + size < 2 ^ 32 →
  ∃ lo, generalize (E := E) oc value (AgeRange size) =
          Ok (i64_to_string lo +:+ "-" +:+ i64_to_string (lo + size)) ∧
        lo ≤ age < lo + size ∧ (size | lo).
Proof.
  intros Hs Hp Hb. exists (age / size * size). split_and!.
  - by apply generalize_age.
  - pose proof (Z.mul_div_le age size Hs). lia.
  - pose proof (Z.mul_succ_div_gt age size Hs). lia.
  - by exists (age / size).
Qed.

(** Two ages get the same text exactly when they are in the same range. *)
Theorem same_age_range v w a b size :
  0 < size → u32_from_str v = Some a → u32_from_str w = Some b →
  a / size * size + size < 2 ^ 32 → b / size * size + size < 2 ^ 32 →
  generalize (E := E) oc v (AgeRange size) = generalize oc w (AgeRange size) ↔
    a / size = b / size.
Proof.
  intros Hs Hv Hw Ha Hb. rewrite (generalize_age v a), (generalize_age w b) by done.
  apply u32_from_str_range in Hv, Hw.
  assert (0 ≤ a / size ∧ 0 ≤ b / size) as [??] by (split; apply Z.div_pos; lia).
  split; [|by intros ->]. intros [= Heq].
  apply first_sep_inj in Heq as [Heq _]; [|apply i64_to_string_no_minus; nia..].
  apply i64_to_string_inj in Heq; [|nia..]. nia.
Qed.

(** A size of zero panics on every age. *)
Theorem age_range_zero value age :
  u32_from_str value = Some age → generalize (E := E) oc value (AgeRange 0) = Panic.
Proof. intros H. unfold generalize. by rewrite H. Qed.
End Ages.

(** ** Replacements by a counter *)

Section Sequence.
Context {E : Type} `{AE : AnonymizerEnv} (oc : bool).

(** The texts a counter gives from [n] on. *)
Definition numbered (prefix : string) (n : Z) (len : nat) : list string :=
  (λ z, prefix +:+ i64_to_string z) <$> seqZ n (Z.of_nat len).

Lemma sequential_call uuid prefix value n :
  anonymize (E := E) oc uuid value {| strategy := Sequential prefix; counter := n |} =
    ({| strategy := Sequential prefix; counter := as_usize (n + 1) |},
     Ok (prefix +:+ i64_to_string n)).
Proof. done. Qed.

(** The calls of a sequential anonymizer, one after another, get the numbers from the
    counter on, whatever the values are, as long as the counter does not wrap. *)
Theorem sequential_run uuid prefix values n :
  0 ≤ n → n + Z.of_nat (length values) < 2 ^ 64 →
  method_mapM (anonymize (E := E) oc uuid) values {| strategy := Sequential prefix; counter := n |} =
    ({| strategy := Sequential prefix; counter := n + Z.of_nat (length values) |},
     Ok (numbered prefix n (length values))).
Proof.
  revert n. induction values as [|v values IH]; intros n Hn Hl.
  - simpl. by rewrite Z.add_0_r.
  - cbn [length] in Hl. cbn [method_mapM]. unfold method_bind at 1.
    rewrite sequential_call. unfold as_usize. rewrite Z.mod_small by lia.
    unfold method_bind at 1.
    rewrite IH by lia. unfold numbered. cbn [length].
    rewrite (seqZ_cons n (Z.of_nat (S (length values)))) by lia.
    replace (Z.pred (Z.of_nat (S (length values)))) with (Z.of_nat (length values)) by lia.
    rewrite fmap_cons. unfold method_ret, Z.succ. by rewrite Nat2Z.inj_succ, <- Z.add_1_l, Z.add_assoc.
Qed.

(** Those texts are all different. *)
Theorem numbered_nodup prefix n len :
  0 ≤ n → n + Z.of_nat len < 2 ^ 64 → NoDup (numbered prefix n len).
Proof.
  intros Hn Hl. apply NoDup_fmap_2_strong; [|apply NoDup_seqZ].
  intros a b Ha Hb H. apply elem_of_seqZ in Ha, Hb.
  apply str_app_inj_l, i64_to_string_inj in H; lia.
Qed.
End Sequence.

(** ** Addresses *)

Section Email.
Context {E : Type} `{AE : AnonymizerEnv} (oc : bool).

(** The local part of an address is anonymized and nothing of it kept; the domain,
    which begins with a character, is kept or replaced as a whole.  Only the first
    [@] counts. *)
Theorem email_parts uuid local domain keep a :
  str_contains_char "@" local = false → starts_char domain = true →
  anonymize_email (E := E) oc uuid (local +:+ String "@" domain) keep a =
    (x ← anonymize oc uuid local;
     mret (x +:+ "@" +:+ (if keep then domain else "example.com"))) a.
Proof.
  intros Hl Hd. unfold anonymize_email. rewrite find_char_app by done.
  rewrite str_take_app, str_drop_app. unfold mbind, method_MBind, method_bind.
  destruct (anonymize oc uuid local a) as [a' [x| |]]; [|done..].
  destruct keep; [|done]. unfold lift, slice_from.
  rewrite boundary_drop by (simpl; lia). cbn [str_drop].
  replace (str_drop 0 domain) with domain by by destruct domain. by rewrite Hd.
Qed.

(** A text without an [@] is anonymized as it is. *)
Theorem email_plain uuid s keep :
  str_contains_char "@" s = false →
  anonymize_email (E := E) oc uuid s keep = anonymize oc uuid s.
Proof. intros H. unfold anonymize_email. by rewrite (proj2 (find_char_None _ _) H). Qed.
End Email.

(** ** Phone numbers *)

Definition is_digit (c : ascii) : bool := ((48 <=? nat_of_ascii c) && (nat_of_ascii c <=? 57))%nat.

Section Phone.
Context {E : Type} `{AE : AnonymizerEnv} {OK : AnonymizerEnvOk}.

(** The digits of a number written in ASCII. *)
Lemma digits_ascii phone :
  is_ascii phone = true → collect (List.filter is_numeric (chars phone)) = str_filter is_digit phone.
Proof.
  intros Ha. rewrite chars_ascii by done. revert Ha.
  induction phone as [|c s IH]; [done|]. unfold is_ascii. cbn [str_all]. intros H.
  apply andb_true_iff in H as [Hc Hs]. apply Nat.ltb_lt in Hc.
  cbn [String.list_ascii_of_string fmap list_fmap List.filter str_filter].
  rewrite (numeric_ascii c Hc). fold (is_digit c).
  destruct (is_digit c); [|by apply IH]. unfold collect. cbn [foldr].
  by rewrite <- (IH Hs).
Qed.

Lemma filter_ascii p s : is_ascii s = true → is_ascii (str_filter p s) = true.
Proof.
  unfold is_ascii. induction s as [|c s IH]; [done|]. cbn [str_all str_filter]. intros H.
  apply andb_true_iff in H as [Hc Hs]. destruct (p c); [|by apply IH].
  cbn [str_all]. by rewrite Hc, IH.
Qed.

(** A number written in ASCII never panics, and the text that replaces it is of its
    first three digits, when they are kept and there are six, and of how many there
    are. *)
Theorem phone_ascii phone keep :
  is_ascii phone = true →
  let digits := str_filter is_digit phone in
  anonymize_phone (E := E) phone keep =
    Ok (if keep && (6 <=? String.length digits)%nat
        then str_take 3 digits +:+ "-" +:+ str_repeat "*" (String.length digits - 3)
        else str_repeat "*" (Nat.max (String.length digits) 10)).
Proof.
  intros Ha digits. unfold anonymize_phone. rewrite digits_ascii by done. fold digits.
  destruct keep; cbn [andb]; [|done].
  destruct (Nat.leb_spec 6 (String.length digits)) as [Hl|Hl]; [|done].
  unfold slice_to. rewrite ascii_boundary; [done| |lia]. by apply filter_ascii.
Qed.
End Phone.

(** ** Concrete runs *)

Module AnonymizerSample.

(** The Arabic-Indic digits are numeric too; a mark stands for the hash. *)
#[global] Instance sample_env : AnonymizerEnv := {|
  sha256_hex := λ s, "#" +:+ s;
  is_numeric := λ c, match c with
                     | String b EmptyString => is_digit b
                     | String l (String b EmptyString) =>
                         Ascii.eqb l "217"%char
                         && ((160 <=? nat_of_ascii b) && (nat_of_ascii b <=? 169))%nat
                     | _ => false
                     end |}.

#[global] Instance sample_env_ok : AnonymizerEnvOk.
Proof. by constructor. Qed.

Definition eight_digits : string :=
  collect ((λ n, String "217"%char (str1 (ascii_of_nat (160 + n)))) <$> seq 0 8).

(** The runs of the unit tests. *)
Example masked : mask (E := unit) "*" 4 "user@example.com" = Ok "************.com".
Proof. vm_compute. reflexivity. Qed.

Example ages_test :
  (λ v, generalize (E := unit) true v (AgeRange 10)) <$> ["25"; "5"; "42"; "old"] =
    [Ok "20-30"; Ok "0-10"; Ok "40-50"; Ok "**REDACTED**"].
Proof. vm_compute. reflexivity. Qed.

Example postal_test :
  (λ v, generalize (E := unit) true v (Geographic PostalPrefix)) <$> ["94105"; "12345-6789"; "9"] =
    [Ok "941**"; Ok "123**"; Ok "***"].
Proof. vm_compute. reflexivity. Qed.

Example phone_test :
  (anonymize_phone (E := unit) "(555) 123-4567") <$> [true; false] =
    [Ok "555-*******"; Ok "**********"].
Proof. vm_compute. reflexivity. Qed.

Example sequence_test :
  (method_mapM (E := unit) (anonymize true "") ["alice"; "bob"] (new (Sequential "user_"))).2 =
    Ok ["user_0"; "user_1"].
Proof.
  unfold new. rewrite sequential_run by (vm_compute; congruence). reflexivity.
Qed.

Example email_test :
  (anonymize_email (E := unit) true "" "ann@example.org" true default_hash).2
    = Ok "#ann@example.org".
Proof.
  change "ann@example.org" with ("ann" +:+ String "@" "example.org").
  by rewrite email_parts.
Qed.

(** *** Outside the conditions *)

(** A mask that would cut a character panics: four bytes of [3é€] cut the [é]. *)
Theorem mask_cuts_character :
  mask (E := unit) "*" 4
    (String "3" (String "195" (String "169" (String "226" (String "130" (str1 "172"))))))%char
  = Panic.
Proof. vm_compute. reflexivity. Qed.

(** So does a phone number in digits that are not ASCII. *)
Theorem phone_cuts_character : anonymize_phone (E := unit) eight_digits true = Panic.
Proof. vm_compute. reflexivity. Qed.

(** The year of a date that does not begin with it is the day and the month. *)
Theorem year_keeps_day :
  generalize (E := unit) true "25/12/1980" (DateTruncation Year) = Ok "25/1".
Proof. vm_compute. reflexivity. Qed.

(** The last range of ages: its end does not fit, and the release build writes a range
    that ends before it begins. *)
Theorem last_range_overflows :
  (λ oc, generalize (E := unit) oc "4294967295" (AgeRange 10)) <$> [true; false] =
    [Panic; Ok "4294967290-4"].
Proof. vm_compute. reflexivity. Qed.

(** The area code of a number that begins with its country code is the country code and
    the first digits of the area. *)
Theorem area_code_of_country :
  anonymize_phone (E := unit) "+1 555 123 4567" true = Ok "155-********".
Proof. vm_compute. reflexivity. Qed.
End AnonymizerSample.

(** The value and the salt are hashed as one text: a value that ends as the salt begins
    has the hash of a shorter value with a longer salt. *)
Theorem salt_boundary_lost {E} `{AnonymizerEnv} oc uuid a b c :
  (anonymize (E := E) oc uuid (a +:+ b) (with_salt c)).2 =
  (anonymize (E := E) oc uuid a (with_salt (b +:+ c))).2.
Proof.
  change (Ok (E := E) (sha256_hex ((a +:+ b) +:+ c)) = Ok (sha256_hex (a +:+ (b +:+ c)))).
  by rewrite str_app_assoc.
Qed.
