(* ===== verification/GdprSample.v ===== *)
(** * Texts for the stores of row, schema and column lineage

    Instances of the encodings the three stores take as parameters, so that they can be
    run.  JSON is an object, compressed data has its mark, and which operations of the
    database fail is left as an argument. *)

From Stdlib Require Import ZArith Lia Ascii.
From Stdlib Require Import SpecFloat.
From stdpp Require Import base numbers option strings gmap list countable.
From S2P Require Import Prelude RustText RustStd Effects F64 WfRouting KvScan Gdpr RowLineage.
From S2P Require Import SchemaStore ColumnLineage.

Local Open Scope Z_scope.

(** ** Codes *)

#[global] Instance f64_countable : Countable f64.
Proof.
  refine (inj_countable'
    (λ f, match f with
          | S754_zero b => inl (inl b) | S754_infinity b => inl (inr (Some b))
          | S754_nan => inl (inr None) | S754_finite b m e => inr (b, m, e)
          end)
    (λ x, match x with
          | inl (inl b) => S754_zero b | inl (inr (Some b)) => S754_infinity b
          | inl (inr None) => S754_nan | inr (b, m, e) => S754_finite b m e
          end) _).
  by intros [].
Defined.

#[global] Instance QualityViolation_eq_dec : EqDecision QualityViolation.
Proof. solve_decision. Defined.
#[global] Instance QualityViolation_countable : Countable QualityViolation.
Proof.
  refine (inj_countable' (λ v, ((violated_rule v, field v), (constraint v, message v)))
    (λ '((r, f), (c, m)), {| violated_rule := r; field := f; constraint := c; message := m |}) _).
  by intros [].
Defined.

#[global] Instance ProcessingOutcome_eq_dec : EqDecision ProcessingOutcome.
Proof. solve_decision. Defined.
#[global] Instance ProcessingOutcome_countable : Countable ProcessingOutcome.
Proof.
  refine (inj_countable'
    (λ o, match o with
          | Processed l => inl (inl l) | Filtered r i => inl (inr (r, i))
          | ValidationFailed v => inr (inl v) | Failed e => inr (inr e)
          end)
    (λ x, match x with
          | inl (inl l) => Processed l | inl (inr (r, i)) => Filtered r i
          | inr (inl v) => ValidationFailed v | inr (inr e) => Failed e
          end) _).
  by intros [].
Defined.

#[global] Instance JobStatistics_eq_dec : EqDecision JobStatistics.
Proof. solve_decision. Defined.
#[global] Instance JobStatistics_countable : Countable JobStatistics.
Proof.
  refine (inj_countable'
    (λ s, (((stats_job s, total_rows s), (success_count s, filtered_count s)),
           ((failed_count s, filter_reasons s), (avg_processing_time_ms s, (start_time s, end_time s)))))
    (λ '(((j, t), (s, f)), ((b, r), (a, (st, en)))),
       {| stats_job := j; total_rows := t; success_count := s; filtered_count := f; failed_count := b;
          filter_reasons := r; avg_processing_time_ms := a; start_time := st; end_time := en |}) _).
  by intros [].
Defined.

(** A tag with texts. *)
Definition change_code (c : SchemaChangeType) : nat * list (list string) :=
  let flag b := if (b : bool) then ["t"] else [] in
  match c with
  | TableAdded => (0%nat, [])
  | TableDropped => (1%nat, [])
  | TableRenamed a b => (2%nat, [[a]; [b]])
  | ColumnAdded => (3%nat, [])
  | ColumnDropped => (4%nat, [])
  | ColumnRenamed a b => (5%nat, [[a]; [b]])
  | DataTypeChanged a b => (6%nat, [[a]; [b]])
  | NullabilityChanged a b => (7%nat, [flag a; flag b])
  | DefaultValueChanged a b => (8%nat, [option_list a; option_list b])
  | PrimaryKeyAdded cs => (9%nat, [cs])
  | PrimaryKeyDropped cs => (10%nat, [cs])
  | ForeignKeyAdded cs t rs => (11%nat, [cs; [t]; rs])
  | ForeignKeyDropped cs t rs => (12%nat, [cs; [t]; rs])
  | IndexAdded n cs => (13%nat, [[n]; cs])
  | IndexDropped n cs => (14%nat, [[n]; cs])
  | ConstraintAdded a b => (15%nat, [[a]; [b]])
  | ConstraintDropped a b => (16%nat, [[a]; [b]])
  end.

Definition code_change (x : nat * list (list string)) : SchemaChangeType :=
  let flag l := match (l : list string) with [] => false | _ => true end in
  match x with
  | (1%nat, _) => TableDropped
  | (2%nat, [[a]; [b]]) => TableRenamed a b
  | (3%nat, _) => ColumnAdded
  | (4%nat, _) => ColumnDropped
  | (5%nat, [[a]; [b]]) => ColumnRenamed a b
  | (6%nat, [[a]; [b]]) => DataTypeChanged a b
  | (7%nat, [a; b]) => NullabilityChanged (flag a) (flag b)
  | (8%nat, [a; b]) => DefaultValueChanged (head a) (head b)
  | (9%nat, [cs]) => PrimaryKeyAdded cs
  | (10%nat, [cs]) => PrimaryKeyDropped cs
  | (11%nat, [cs; [t]; rs]) => ForeignKeyAdded cs t rs
  | (12%nat, [cs; [t]; rs]) => ForeignKeyDropped cs t rs
  | (13%nat, [[n]; cs]) => IndexAdded n cs
  | (14%nat, [[n]; cs]) => IndexDropped n cs
  | (15%nat, [[a]; [b]]) => ConstraintAdded a b
  | (16%nat, [[a]; [b]]) => ConstraintDropped a b
  | _ => TableAdded
  end.

Lemma code_change_code c : code_change (change_code c) = c.
Proof. by destruct c as [| | | | | | |[] []|[] []| | | | | | | |]. Qed.

Definition transform_code (t : TransformationType) : nat * (list (list string) * list Z) :=
  match t with
  | DirectCopy => (0%nat, ([], []))
  | SqlExpression => (1%nat, ([], []))
  | UdfTransformation n => (2%nat, ([[n]], []))
  | Aggregation f g => (3%nat, ([f] :: option_list g, []))
  | Join a b => (4%nat, ([[a]; [b]], []))
  | TypeCast a b => (5%nat, ([[a]; [b]], []))
  | Concatenation s => (6%nat, ([option_list s], []))
  | Substring a l => (7%nat, ([], a :: option_list l))
  | Conditional => (8%nat, ([], []))
  | MathOperation o => (9%nat, ([[o]], []))
  | DateTimeOperation o => (10%nat, ([[o]], []))
  | Lookup t => (11%nat, ([[t]], []))
  | MlTransformation a b => (12%nat, ([[a]; [b]], []))
  | CustomTransformation d => (13%nat, ([[d]], []))
  end.

Definition code_transform (x : nat * (list (list string) * list Z)) : TransformationType :=
  match x with
  | (1%nat, _) => SqlExpression
  | (2%nat, ([[n]], _)) => UdfTransformation n
  | (3%nat, ([f] :: g, _)) => Aggregation f (head g)
  | (4%nat, ([[a]; [b]], _)) => Join a b
  | (5%nat, ([[a]; [b]], _)) => TypeCast a b
  | (6%nat, ([s], _)) => Concatenation (head s)
  | (7%nat, (_, a :: l)) => Substring a (head l)
  | (8%nat, _) => Conditional
  | (9%nat, ([[o]], _)) => MathOperation o
  | (10%nat, ([[o]], _)) => DateTimeOperation o
  | (11%nat, ([[t]], _)) => Lookup t
  | (12%nat, ([[a]; [b]], _)) => MlTransformation a b
  | (13%nat, ([[d]], _)) => CustomTransformation d
  | _ => DirectCopy
  end.

Lemma code_transform_code t : code_transform (transform_code t) = t.
Proof. by destruct t as [| | |? []| | |[]|? []| | | | | |]. Qed.

#[global] Instance TransformationType_eq_dec : EqDecision TransformationType.
Proof. solve_decision. Defined.
#[global] Instance TransformationType_countable : Countable TransformationType :=
  inj_countable' transform_code code_transform code_transform_code.

#[global] Instance Serializable_eq_dec : EqDecision SerializableColumnLineageEvent.
Proof. solve_decision. Defined.
#[global] Instance Serializable_countable : Countable SerializableColumnLineageEvent.
Proof.
  refine (inj_countable'
    (λ e, (((ser_id e, ser_sources e), (ser_target e, (ser_logic e, ser_type e))),
           (((ser_job e, ser_workflow e), (ser_tenant e, ser_created_at e)),
            ((ser_confidence e, ser_created_by e), metadata_json e))))
    (λ '(((i, ss), (t, (l, y))), (((j, w), (n, c)), ((f, b), m))),
       {| ser_id := i; ser_sources := ss; ser_target := t; ser_logic := l; ser_type := y; ser_job := j;
          ser_workflow := w; ser_tenant := n; ser_created_at := c; ser_confidence := f;
          ser_created_by := b; metadata_json := m |}) _).
  by intros [].
Defined.

(** ** Rows *)

Definition row_fields : Type :=
  ((RowId * (string * string)) * (option string * Z)) *
  ((ProcessingOutcome * list ((string * list string) * Z)) * (option RowId * (string * option string))).

Definition row_of (f : row_fields) : RowLineageEvent :=
  let '(((r, (b, j)), (st, at_)), ((o, ts), (out, (t, c)))) := f in
  {| row_id := r; batch_id := b; job_id := j; step_id := st; timestamp := at_; outcome := o;
     transformations := (λ x, {| row_transform_type := x.1.1; fields := x.1.2; before_values := None;
                                 after_values := None; row_applied_at := x.2 |}) <$> ts;
     output_row_id := out; row_tenant := t; row_correlation := c |}.

Definition fields_of_row (e : RowLineageEvent) : row_fields :=
  (((row_id e, (batch_id e, job_id e)), (step_id e, timestamp e)),
   ((outcome e, plain_transformation <$> transformations e),
    (output_row_id e, (row_tenant e, row_correlation e)))).

Lemma row_of_fields e : plain_event (row_of (fields_of_row e)) = plain_event e.
Proof.
  unfold plain_event, row_of, fields_of_row. simpl. rewrite <- !list_fmap_compose. reflexivity.
Qed.

Definition rows_text (es : list RowLineageEvent) : string := enc_text (A := list row_fields) (fields_of_row <$> es).
Definition text_rows (s : string) : option (list RowLineageEvent) :=
  (λ l, row_of <$> (l : list row_fields)) <$> (dec_text s : option (list row_fields)).
Lemma text_rows_text es : text_rows (rows_text es) = Some (row_of <$> (fields_of_row <$> es)).
Proof. unfold text_rows, rows_text. by rewrite dec_enc_text. Qed.

Definition after_brace (s : string) : option string :=
  match s with String "{" r => Some r | _ => None end.

Definition after_magic (s : string) : option string :=
  match s with
  | String _ (String _ (String _ (String _ r))) => Some r
  | _ => None
  end.

Definition row_text_db (ok : nat → bool) : RowDb := {|
  versioned_to_json v := String "{" (rows_text (data v));
  versioned_of_json s := wrap <$> (after_brace s ≫= text_rows);
  events_of_json _ := None;
  versioned_of_bincode _ := None;
  RowLineage.events_of_bincode _ := None;
  zstd_encode s := Some (ZSTD_MAGIC +:+ s);
  zstd_decode := after_magic;
  ids_to_bincode := enc_text;
  ids_of_bincode := dec_text;
  texts_to_bincode := enc_text;
  filtered_to_bincode := enc_text;
  filtered_of_bincode := dec_text;
  stats_to_bincode := enc_text;
  stats_of_bincode := dec_text;
  row_db_ok := ok;
  row_error_text _ := "row lineage failed";
|}.

Lemma row_text_db_ok ok : RowDbOk (H := row_text_db ok).
Proof.
  split; simpl.
  - intros es. exists (wrap (row_of <$> (fields_of_row <$> es))). rewrite text_rows_text. split_and!; [done..|].
    simpl. rewrite <- !list_fmap_compose. apply list_fmap_ext. intros _ e _. apply row_of_fields.
  - intros v. by destruct (rows_text (data v)).
  - eauto.
  - intros s z [= <-]. split; [by destruct s|done].
  - intros ids. apply dec_enc_text.
  - intros x. apply dec_enc_text.
  - intros st. apply dec_enc_text.
Qed.

(** ** Schema changes *)

Definition element_fields : Type := ((nat * string) * (option string * option bool)) *
  ((option string * option Z) * option string).

Definition element_of (f : element_fields) : SchemaElement :=
  let '(((k, n), (t, nl)), ((d, p), c)) := f in
  {| element_type := match k with
                     | 0%nat => ElementTable | 1%nat => ElementColumn | 2%nat => ElementIndex
                     | _ => ElementConstraint end;
     element_name := n; element_data_type := t; element_nullable := nl; element_default := d;
     element_position := p; element_comment := c; properties := None |}.

Definition fields_of_element (x : SchemaElement) : element_fields :=
  (((match element_type x with
     | ElementTable => 0 | ElementColumn => 1 | ElementIndex => 2 | ElementConstraint => 3 end%nat,
     element_name x), (element_data_type x, element_nullable x)),
   ((element_default x, element_position x), element_comment x)).

Lemma element_of_fields x : properties x = None → element_of (fields_of_element x) = x.
Proof. destruct x as [[] ? ? ? ? ? ? p]; simpl; by intros ->. Qed.

Definition change_fields : Type :=
  (((string * string) * (option string * string)) *
   ((option string * (nat * list (list string))) * (option element_fields * option element_fields))) *
  (((Z * option string) * (option string * string)) * ((string * bool) * option string)).

Definition change_of (f : change_fields) : SchemaChangeEvent :=
  let '((((i, ds), (sc, tb)), ((co, ct), (b, a))), (((at_, ms), (mi, by_)), ((t, br), im))) := f in
  {| sc_id := i; sc_datasource := ds; sc_schema := sc; sc_table := tb; sc_column := co;
     change_type := code_change ct; before_state := element_of <$> b; after_state := element_of <$> a;
     detected_at := at_; migration_script := ms; migration_id := mi; initiated_by := by_;
     sc_tenant := t; is_breaking := br; impact_summary := im |}.

Definition fields_of_change (e : SchemaChangeEvent) : change_fields :=
  ((((sc_id e, sc_datasource e), (sc_schema e, sc_table e)),
    ((sc_column e, change_code (change_type e)),
     (fields_of_element <$> before_state e, fields_of_element <$> after_state e))),
   (((detected_at e, migration_script e), (migration_id e, initiated_by e)),
    ((sc_tenant e, is_breaking e), impact_summary e))).

Lemma change_of_fields e : plain_change e → change_of (fields_of_change e) = e.
Proof.
  destruct e as [? ? ? ? ? ct b a]. unfold plain_change, plain_element, change_of, fields_of_change. simpl.
  intros [Hb Ha]. rewrite code_change_code.
  assert (∀ o, (∀ x, o = Some x → properties x = None) → element_of <$> (fields_of_element <$> o) = o) as Ho.
  { intros [x|] Hx; [|done]. change (Some (element_of (fields_of_element x)) = Some x). by rewrite element_of_fields by auto. }
  by rewrite !Ho.
Qed.

(** A version by its tables' names and columns. *)
Definition column_fields : Type := ((string * string) * (bool * option string)) * (Z * option string).
Definition column_of (f : column_fields) : ColumnSchema :=
  let '(((n, t), (nl, d)), (p, c)) := f in
  {| column_name := n; column_data_type := t; column_nullable := nl; column_default := d;
     column_position := p; column_comment := c |}.
Definition fields_of_column (c : ColumnSchema) : column_fields :=
  (((column_name c, column_data_type c), (column_nullable c, column_default c)),
   (column_position c, column_comment c)).

Definition table_fields : Type :=
  ((string * list column_fields) * (option (list string) * list ((string * list string) * (string * list string)))) *
  (list ((string * list string) * (bool * option string)) * option string).
Definition table_of (f : table_fields) : TableSchema :=
  let '(((n, cs), (pk, fks)), (ixs, c)) := f in
  {| table_name := n; table_columns := column_of <$> cs; primary_key := pk;
     foreign_keys := (λ x, {| fk_name := x.1.1; fk_columns := x.1.2; fk_table := x.2.1;
                              fk_referenced := x.2.2 |}) <$> fks;
     indexes := (λ x, {| index_name := x.1.1; index_columns := x.1.2; index_unique := x.2.1;
                         index_type := x.2.2 |}) <$> ixs;
     table_comment := c |}.
Definition fields_of_table (t : TableSchema) : table_fields :=
  (((table_name t, fields_of_column <$> table_columns t),
    (primary_key t, (λ k, ((fk_name k, fk_columns k), (fk_table k, fk_referenced k))) <$> foreign_keys t)),
   ((λ i, ((index_name i, index_columns i), (index_unique i, index_type i))) <$> indexes t, table_comment t)).

Lemma fmap_back {A B} (f : A → B) (g : B → A) (l : list A) : (∀ x, g (f x) = x) → g <$> (f <$> l) = l.
Proof.
  intros Hg. rewrite <- list_fmap_compose. rewrite <- (list_fmap_id l) at 2. apply list_fmap_ext.
  intros _ x _. apply Hg.
Qed.

Lemma table_of_fields t : table_of (fields_of_table t) = t.
Proof.
  destruct t as [n cs pk fks ixs c]. unfold table_of, fields_of_table. simpl.
  rewrite !fmap_back; [done|by intros []..].
Qed.

Definition version_fields : Type :=
  ((string * string) * (option string * Z)) *
  ((option string * list table_fields) * (option string * (option string * list string))).
Definition version_of (f : version_fields) : SchemaVersion :=
  let '(((i, ds), (sc, at_)), ((m, ts), (p, (g, tg)))) := f in
  {| version_id := i; sv_datasource := ds; sv_schema := sc; created_at := at_; sv_migration := m;
     tables := table_of <$> ts; previous_version := p; git_commit := g; tags := tg |}.
Definition fields_of_version (v : SchemaVersion) : version_fields :=
  (((version_id v, sv_datasource v), (sv_schema v, created_at v)),
   ((sv_migration v, fields_of_table <$> tables v), (previous_version v, (git_commit v, tags v)))).

Lemma version_of_fields v : version_of (fields_of_version v) = v.
Proof.
  destruct v. unfold version_of, fields_of_version. simpl.
  rewrite fmap_back; [done|apply table_of_fields].
Qed.

Definition schema_text_db (ok : nat → bool) : SchemaDb := {|
  change_to_bincode v := enc_text (A := change_fields) (fields_of_change (data v));
  change_of_bincode s := (λ f, wrap (change_of f)) <$> dec_text (A := change_fields) s;
  version_to_bincode v := enc_text (A := version_fields) (fields_of_version (data v));
  version_of_bincode s := (λ f, wrap (version_of f)) <$> dec_text (A := version_fields) s;
  schema_db_ok := ok;
  schema_error_text _ := "schema evolution failed";
|}.

Lemma schema_text_db_ok ok : SchemaDbOk (H := schema_text_db ok).
Proof.
  split; [intros e He|intros v];
    unfold change_of_bincode, change_to_bincode, version_of_bincode, version_to_bincode, schema_text_db;
    rewrite dec_enc_text; cbn [data wrap fmap option_fmap option_map].
  - by rewrite change_of_fields.
  - by rewrite version_of_fields.
Qed.

(** ** Columns *)

Definition column_text_db (ok : nat → bool) : ColumnDb := {|
  json_to_text _ := "";
  json_of_text _ := Some JNull;
  events_to_bincode := enc_text;
  ColumnLineage.events_of_bincode := dec_text;
  refs_to_bincode := enc_text;
  refs_of_bincode := dec_text;
  versioned_refs_to_bincode v := enc_text (data v);
  versioned_refs_of_bincode s := wrap <$> dec_text s;
  versioned_events_to_bincode v := enc_text (cl_id <$> data v);
  versioned_events_of_bincode _ := None;
  full_events_of_bincode _ := None;
  column_zstd_encode s := Some (ZSTD_MAGIC +:+ String "0" s);
  column_zstd_decode s := after_magic s ≫= λ r, match r with String _ r' => Some r' | _ => None end;
  ref_entries := elements;
  column_db_ok := ok;
  column_error_text _ := "column lineage failed";
|}.

Lemma pos_text_unmarked p : zstd_marked (pos_text p) = false.
Proof. unfold zstd_marked. apply andb_false_iff. right. by destruct p. Qed.

Lemma column_text_db_ok ok : ColumnDbOk (H := column_text_db ok).
Proof.
  split; simpl.
  - intros es. apply dec_enc_text.
  - intros es. apply pos_text_unmarked.
  - eauto.
  - intros s z [= <-]. split; [|done]. unfold zstd_marked. apply andb_true_iff. split; [|done]. apply Z.ltb_lt. unfold str_size. simpl. lia.
  - intros l. apply dec_enc_text.
  - intros [[] l]. change (wrap <$> dec_text (A := list ColumnRef) (enc_text l) = Some (wrap l)).
    by rewrite dec_enc_text.
  - done.
  - eauto.
Qed.

Definition always (_ : nat) : bool := true.
#[export] Instance good_rows : RowDb := row_text_db always.
#[export] Instance good_rows_ok : RowDbOk := row_text_db_ok always.
#[export] Instance good_schemas : SchemaDb := schema_text_db always.
#[export] Instance good_schemas_ok : SchemaDbOk := schema_text_db_ok always.
#[export] Instance good_columns : ColumnDb := column_text_db always.
#[export] Instance good_columns_ok : ColumnDbOk := column_text_db_ok always.

(** * Row, schema and column lineage and their erasure: concrete runs

    The theorems on small stores, and runs on which the stores and the coordinator of
    erasures surprise. *)

From stdpp Require Import base numbers option strings gmap list.
From S2P Require Import ColumnGraph RowLineageFacts GdprCoordinator ColumnLineageFacts.

Local Open Scope Z_scope.

Definition run {S E A} (m : method S E A) (s : S) : S := (m s).1.

(** ** Keys of rows *)

Definition orders (k : string) : RowId := database Postgres "orders" {["id" := k]}.

Lemma row_key_roundtrip_witness : from_key (to_key (orders "7")) = Ok (orders "7").
Proof. apply row_key_roundtrip. vm_compute. reflexivity. Defined.

(** A colon in the name of a table is taken for the separator. *)
Example colon_in_table :
  from_key (to_key (database Postgres "public:orders" {["id" := "7"]}))
  = Ok (database Postgres "public" {["orders:id" := "7"]}).
Proof. vm_compute. reflexivity. Qed.

(** Two rows with one key. *)
Example row_keys_collide :
  to_key (database Postgres "a" {["b:c" := "1"]}) = to_key (database Postgres "a:b" {["c" := "1"]})
  ∧ to_key (orders "1,x=2") = to_key (database Postgres "orders" {["id" := "1"; "x" := "2"]}).
Proof. vm_compute. done. Qed.

(** ** Rows *)

Definition at_row (r : RowId) (job t : string) (at_ : Z) (o : ProcessingOutcome)
    (out : option RowId) (u : option string) : RowLineageEvent :=
  {| row_id := r; batch_id := "b"; job_id := job; step_id := None; timestamp := at_; outcome := o;
     transformations := []; output_row_id := out; row_tenant := t; row_correlation := u |}.

Definition r1 : RowId := csv "f" 1.
Definition r2 : RowId := csv "f" 2.
Definition e1 : RowLineageEvent := at_row r1 "j" "t" 5 (Processed "o") None (Some "u").
Definition e2 : RowLineageEvent := at_row r2 "j" "t" 3 (Filtered "old" "rule") None (Some "v").

Lemma new_row_store_ok : row_store_ok new_row_store.
Proof. split; [intros ? ? [=]..]. Qed.

Lemma new_row_store_room n : Z.of_nat n < 2 ^ 64 → room new_row_store n.
Proof. intros Hn job. done. Qed.

Lemma e1_e2_once : rows_once [e1; e2].
Proof.
  intros k. unfold touches. rewrite !filter_cons, filter_nil.
  repeat case_decide; simpl; try lia. exfalso.
  match goal with
  | H1 : _ ∨ _, H2 : _ ∨ _ |- _ => destruct H1 as [<-|[=]], H2 as [Hk|[=]]
  end. by vm_compute in Hk.
Qed.

(** An event waits when the batch comes. *)
Definition waiting : RowLineageStore :=
  run (write_row true (at_row r1 "j" "t" 4 (Processed "o") None None)) new_row_store.

Lemma rows_recorded_witness :
  let s' := run (write_rows_batch true [e1; e2]) waiting in
  row_store_ok s' ∧
  answers (get_row_lineage r1) s'
    (λ found, plain_event <$> found =
       plain_rows waiting (to_key r1) ++
         [plain_event (at_row r1 "j" "t" 4 (Processed "o") None None)] ++ [plain_event e1]).
Proof.
  pose proof (rows_recorded true [e1; e2] waiting
    (write_rows_batch true [e1; e2] waiting).1 (write_rows_batch true [e1; e2] waiting).2) as Hr.
  destruct (Hr ltac:(split; [intros ? ? [=]..]) ltac:(done) e1_e2_once
    ltac:(intros k; etransitivity; [apply length_filter|done]) ltac:(done)
    (surjective_pairing _)) as (Hok & _ & H).
  assert ((write_rows_batch true [e1; e2] waiting).2 = Ok tt) as E by by vm_compute.
  rewrite E in H. split; [exact Hok|]. destruct (H r1) as [Hs Ha]. split; [exact Hs|].
  unfold run. destruct (get_row_lineage r1 _).2 as [found|e|]; [|exact Ha|done].
  rewrite Ha. vm_compute. reflexivity.
Defined.

Definition two_rows : RowLineageStore := run (write_rows_batch true [e1; e2]) new_row_store.

Lemma job_statistics_exact_witness :
  answers (get_job_stats "j" 0) two_rows (λ st,
    adds (base_stats new_row_store "j") [e1; e2] st ∧
    total_rows st = success_count st + filtered_count st + failed_count st).
Proof.
  apply (job_statistics_exact true [e1; e2] new_row_store two_rows "j" 0 new_row_store_ok
    (new_row_store_room 2 eq_refl)); [done|done|by vm_compute].
Defined.

Lemma two_rows_ok : row_store_ok two_rows.
Proof.
  pose proof (write_events_spec true [e1; e2] new_row_store _ _ new_row_store_ok
    (new_row_store_room 2 eq_refl) ltac:(done) (surjective_pairing _)) as Hr.
  assert ((write_events_internal true [e1; e2] new_row_store).2 = Ok tt) as E by by vm_compute.
  rewrite E in Hr. apply Hr.
Qed.

Lemma erase_user_exact_witness :
  (erase_user_records "u" false two_rows).2 = Ok 1 ∧
  answers (count_user_records "u") (run (erase_user_records "u" false) two_rows) (λ n, n = 0).
Proof.
  pose proof (erase_user_exact "u" two_rows _ _ two_rows_ok (surjective_pairing _)) as He.
  assert ((erase_user_records "u" false two_rows).2 = Ok 1) as E by by vm_compute.
  rewrite E in He. split; [exact E|]. apply He.
Defined.

Definition row_events (s : RowLineageStore) (r : RowId) : result RowError (list Z) :=
  (λ l : list RowLineageEvent, timestamp <$> l) <$> (get_row_lineage r s).2.

(** Two events for one row in a batch: the first is lost. *)
Example batch_keeps_last :
  row_events (run (write_rows_batch true [e1; at_row r1 "j" "t" 9 (Processed "o") None None]) new_row_store) r1
  = Ok [9].
Proof. vm_compute. reflexivity. Qed.

(** A flush that fails has emptied the buffer. *)
Definition failing : RowDb := row_text_db (λ n, negb (n =? 0)%nat).

Example failed_flush_loses :
  let s := run (write_row (H := failing) true e1) new_row_store in
  let s' := run (flush_buffer (H := failing) true) s in
  length (write_buffer s) = 1%nat ∧ (flush_buffer (H := failing) true s).2 = Err RowDbFailed ∧
  write_buffer s' = [] ∧ row_events s' r1 = Ok [].
Proof. vm_compute. done. Qed.

(** An event in the buffer is not erased and appears afterwards. *)
Example buffered_survives_erasure :
  let s := run (write_row true e1) new_row_store in
  let s' := run (erase_user_records "u" false) s in
  (count_user_records "u" s').2 = Ok 0 ∧ row_events (run (flush_buffer true) s') r1 = Ok [5].
Proof. vm_compute. done. Qed.

(** A row derived from another: erasing the tenant leaves the copy under the output. *)
Definition derived : RowLineageEvent := at_row r1 "j" "t" 5 (Processed "o") (Some r2) (Some "u").
Definition one_derived : RowLineageStore := run (write_rows_batch true [derived]) new_row_store.

Definition tenant_request (t : string) : ErasureRequest := new_request (tenant t) "x" "id" 0.
Definition user_request (u : string) : ErasureRequest := new_request (user u) "x" "id" 0.
Definition stamp : Stamp := {| uid := "s"; begun := 1; ended := 2 |}.

Example output_survives_tenant_erasure :
  let s := run (erase_row_subject (tenant_request "t") stamp) one_derived in
  row_events s r1 = Ok [] ∧ row_events s r2 = Ok [5] ∧
  (count_tenant_records "t" s).2 = Ok 0 ∧ (count_user_records "t" s).2 = Ok 1.
Proof. vm_compute. done. Qed.

(** Deleting the lineage of a user's only output row takes the source row out of the
    index of the tenant, although another user's event on it stays. *)
Example user_erasure_hides_from_tenant :
  let s := run (write_rows_batch true [at_row r1 "j" "t" 7 (Processed "o") None (Some "v")]) one_derived in
  let s' := run (erase_user_records "u" false) s in
  row_events s' r1 = Ok [7] ∧ (count_tenant_records "t" s').2 = Ok 0 ∧
  row_events (run (erase_row_subject (tenant_request "t") stamp) s') r1 = Ok [7].
Proof. vm_compute. done. Qed.

(** Erasing a tenant deletes the events of other tenants on the same row. *)
Example tenant_erasure_takes_others :
  let s := run (write_rows_batch true [e1]) new_row_store in
  let s := run (write_rows_batch true [at_row r1 "j" "other" 8 (Processed "o") None None]) s in
  row_events s r1 = Ok [5; 8] ∧
  row_events (run (erase_row_subject (tenant_request "t") stamp) s) r1 = Ok [].
Proof. vm_compute. done. Qed.

(** Events that arrive late give steps of 2^64 milliseconds. *)
Example journey_wraps :
  duration_ms <$> journey_steps 9000000 [at_row r1 "j" "t" 9000000 (Processed "o") None None;
                                          at_row r1 "j" "t" 4000000 (Processed "o") None None]
  = [0; 2 ^ 64 - 5].
Proof. vm_compute. reflexivity. Qed.

(** ** Schema changes *)

Definition change (id ds t : string) (at_ : Z) : SchemaChangeEvent :=
  new_change id ds "orders" ColumnDropped "admin" t at_.

Definition c1 : SchemaChangeEvent := change "1" "ds" "a" 0.
Definition c2 : SchemaChangeEvent := change "2" "ds" "z" 0.
Definition two_changes : SchemaEvolutionStore :=
  run (record_schema_change c2) (run (record_schema_change c1) open_schema_store).

Lemma record_run e s :
  recordable e → schema_ok s ∧ tenant_indexed s → (record_schema_change e s).2 = Ok tt →
  schema_ok (run (record_schema_change e) s) ∧ tenant_indexed (run (record_schema_change e) s).
Proof.
  intros He [Hok Hix] Hr.
  destruct (change_recorded e s (run (record_schema_change e) s) He Hok Hix) as (H1 & H2 & _).
  - unfold run. rewrite <- Hr. apply surjective_pairing.
  - exact (conj H1 H2).
Qed.

Lemma two_changes_ok : schema_ok two_changes ∧ tenant_indexed two_changes.
Proof.
  apply record_run; [by repeat split; intros ? [=]| |by vm_compute].
  apply record_run; [by repeat split; intros ? [=]| |by vm_compute].
  split; [intros ? ? [=]|intros ? ? (? & [=] & _)].
Qed.

Lemma tenant_changes_erased_witness :
  let s' := run (erase_schema_subject (tenant_request "a") stamp) two_changes in
  (∀ k e, change_at s' k e → sc_tenant e ≠ "a") ∧ change_at s' "2" c2.
Proof.
  assert (∃ x, erase_schema_subject (tenant_request "a") stamp two_changes
               = (run (erase_schema_subject (tenant_request "a") stamp) two_changes, Ok x)) as [x Ex].
  { destruct (erase_schema_subject (tenant_request "a") stamp two_changes) as [s' [x|e|]] eqn:E.
    - exists x. unfold run. by rewrite E.
    - apply (f_equal (λ p, match p.2 with Ok _ => true | _ => false end)) in E. by vm_compute in E.
    - apply (f_equal (λ p, match p.2 with Ok _ => true | _ => false end)) in E. by vm_compute in E. }
  destruct (tenant_changes_erased (tenant_request "a") stamp two_changes _ x (proj1 two_changes_ok)
    (proj2 two_changes_ok) eq_refl eq_refl Ex) as (_ & Hno & Hk).
  split; [exact Hno|]. apply Hk.
  - exists (change_to_bincode (wrap c2)). split; by vm_compute.
  - vm_compute. intros Hin. apply elem_of_cons in Hin as [Hin|Hin]; [done|by apply not_elem_of_nil in Hin].
Defined.

Definition change_ids (r : result SchemaError (list SchemaChangeEvent)) : result SchemaError (list string) :=
  (λ l : list SchemaChangeEvent, sc_id <$> l) <$> r.

(** Asking for a datasource gives every datasource behind it in the order of keys. *)
Example datasource_gives_others :
  change_ids (get_datasource_schema_changes "ds"
    (run (record_schema_changes_batch [c1; change "9" "other" "a" 0; change "3" "zz" "a" 0]) open_schema_store)).2
  = Ok ["1"; "9"; "3"] ∧
  change_ids (get_datasource_schema_changes "ds"
    (run (record_schema_changes_batch [c1; change "9" "a" "a" 0]) open_schema_store)).2 = Ok ["1"].
Proof. vm_compute. done. Qed.

Definition version_at (id ds : string) (at_ : Z) : SchemaVersion :=
  {| version_id := id; sv_datasource := ds; sv_schema := None; created_at := at_; sv_migration := None;
     tables := []; previous_version := None; git_commit := None; tags := [] |}.

(** The latest version may be that of another datasource. *)
Example latest_of_another :
  let s := run (save_schema_version (version_at "v1" "a" 1)) open_schema_store in
  let s := run (save_schema_version (version_at "v2" "b" 2)) s in
  (λ o : option SchemaVersion, version_id <$> o) <$> (get_latest_schema_version "a" s).2 = Ok (Some "v2").
Proof. vm_compute. reflexivity. Qed.

(** Times are compared as texts: a range that starts at 9 leaves out a change at 10. *)
Example time_range_by_text :
  let s := run (record_schema_change (change "1" "ds" "a" (10 * 10 ^ 6))) open_schema_store in
  change_ids (get_schema_changes_by_time_range 9 20 s).2 = Ok [] ∧
  change_ids (get_schema_changes_by_time_range 10 20 s).2 = Ok ["1"].
Proof. vm_compute. done. Qed.

(** A change whose last put failed is not in the index of its tenant: an erasure of
    the tenant that reports a success leaves it. *)
Definition half_db : SchemaDb := schema_text_db (λ n, negb (n =? 4)%nat).

Example half_recorded_survives :
  let s := run (record_schema_change (H := half_db) c1) open_schema_store in
  let out := erase_schema_subject (H := half_db) (tenant_request "a") stamp s in
  (record_schema_change (H := half_db) c1 open_schema_store).2 = Err SchemaDbFailed ∧
  success <$> out.2 = Ok true ∧
  (λ o : option SchemaChangeEvent, sc_tenant <$> o) <$> (get_schema_change_event (H := half_db) "1" out.1).2 = Ok (Some "a").
Proof. vm_compute. done. Qed.

(** Erasing tenant [a] takes the changes of tenant [a:b]. *)
Example tenant_prefix_takes_others :
  let s := run (record_schema_change (change "1" "ds" "a:b" 0)) open_schema_store in
  let out := erase_schema_subject (tenant_request "a") stamp s in
  total_records_erased <$> out.2 = Ok 1 ∧ (get_schema_change_event "1" out.1).2 = Ok None.
Proof. vm_compute. done. Qed.

(** ** Columns *)

Definition col (n : string) : ColumnRef :=
  {| datasource_id := "d"; schema := None; ref_table := "t"; ref_column := n; ref_data_type := "int" |}.

Definition into (id : string) (srcs : list string) (t by_ : string) (at_ : Z) : ColumnLineageEvent :=
  {| cl_id := id; source_columns := col <$> srcs; target_column := col t; transformation_logic := "";
     transformation_type := DirectCopy; cl_job := "j"; cl_workflow := None; cl_tenant := "a";
     cl_created_at := at_; confidence := None; created_by := by_; cl_metadata := None |}.

Lemma new_column_store_ok : column_ok new_column_store.
Proof. split; [intros ? ? [=]..]. Qed.

Definition two_columns : list ColumnLineageEvent := [into "1" ["x"; "y"] "z" "u" 1; into "2" ["x"] "w" "v" 2].

Lemma two_columns_once : targets_once two_columns.
Proof.
  intros k. unfold two_columns. rewrite !filter_cons, filter_nil.
  repeat case_decide; simpl; try lia. subst k. by vm_compute in *.
Qed.

Lemma columns_recorded_witness :
  let s' := run (record_column_lineage_batch two_columns) new_column_store in
  match (get_derived_columns (col "x") s').2 with
  | Ok l => ∀ t, t ∈ l ↔ t ∈ derived_at new_column_store "d.t.x" ∨
      ∃ e, e ∈ two_columns ∧ t = target_column e ∧ "d.t.x" ∈ fully_qualified_name <$> source_columns e
  | Err e => e = ColumnDbFailed
  | Panic => False
  end.
Proof.
  pose proof (columns_recorded two_columns new_column_store _ _ new_column_store_ok
    two_columns_once ltac:(done) (surjective_pairing _)) as Hr.
  assert ((record_column_lineage_batch two_columns new_column_store).2 = Ok tt) as E by by vm_compute.
  rewrite E in Hr. destruct Hr as (_ & _ & Hr & _). exact (Hr (col "x")).
Defined.

(** Two events for one column in a batch: the first is lost, though both are counted
    under their sources. *)
Example column_batch_keeps_last :
  let s := run (record_column_lineage_batch [into "1" ["x"] "z" "u" 1; into "2" ["y"] "z" "u" 2]) new_column_store in
  (λ l : list ColumnLineageEvent, cl_id <$> l) <$> (get_column_lineage (col "z") s).2 = Ok ["2"] ∧
  (λ l : list ColumnRef, ref_column <$> l) <$> (get_derived_columns (col "x") s).2 = Ok ["z"].
Proof. vm_compute. done. Qed.

(** The events of a user are erased, the columns derived from theirs stay known. *)
Example derived_survives_erasure :
  let s := run (record_column_lineage_batch [into "1" ["x"] "z" "u" 1]) new_column_store in
  let s' := run (erase_user_columns "u" false) s in
  (λ l : list ColumnLineageEvent, cl_id <$> l) <$> (get_column_lineage (col "z") s').2 = Ok [] ∧
  (λ l : list ColumnRef, ref_column <$> l) <$> (get_derived_columns (col "x") s').2 = Ok ["z"].
Proof. vm_compute. done. Qed.

(** ** The graph of columns *)

Definition columns_after (es : list ColumnLineageEvent) : ColumnLineageStore :=
  run (record_column_lineage_batch es) new_column_store.

Lemma two_columns_graph : graph_ok (columns_after two_columns).
Proof.
  apply (graph_ok_written two_columns new_column_store); [apply graph_ok_new|].
  pose proof (write_columns_spec two_columns new_column_store _ _ new_column_store_ok ltac:(done)
    (surjective_pairing _)) as Hr.
  assert ((write_column_events two_columns new_column_store).2 = Ok tt) as E by by vm_compute.
  rewrite E in Hr. exact Hr.
Qed.

Lemma column_graph_exact_witness :
  match (trace_column_graph (λ n, n) (col "z") 3 (columns_after two_columns)).2 with
  | Ok r => ∃ g, r = Some g ∧ NoDup (cl_id <$> all_transformations g) ∧
      direct_dependencies g = producing (columns_after two_columns) "d.t.z"
  | Err e => e = ColumnDbFailed
  | Panic => False
  end.
Proof.
  pose proof (column_graph_exact (λ n, n) (col "z") 3 (columns_after two_columns) two_columns_graph
    ltac:(vm_compute; lia)) as Hg.
  destruct (trace_column_graph _ _ _ _).2 as [r|e|]; [|exact Hg..].
  destruct Hg as (g & Hr & Hn & _ & _ & Hd & _). exists g. split_and!; [exact Hr|exact Hn|exact Hd].
Defined.

Definition graph_events (c : string) (depth : nat) (s : ColumnLineageStore)
    : result ColumnError (option (list string * bool)) :=
  (λ o : option ColumnLineageGraph,
     (λ g, (cl_id <$> all_transformations g, has_circular_dependency (statistics g))) <$> o)
  <$> (trace_column_graph (λ n, n) (col c) depth s).2.

Example graph_of_z : graph_events "z" 3 (columns_after two_columns) = Ok (Some (["1"], false)).
Proof. vm_compute. reflexivity. Qed.

(** A column made from itself over another. *)
Example circular_columns :
  graph_events "z" 3 (columns_after [into "1" ["x"] "z" "u" 1; into "2" ["z"] "x" "u" 1])
  = Ok (Some (["1"; "2"], true)).
Proof. vm_compute. reflexivity. Qed.

(** The column [y] is two steps from [r]; the walk comes to [x] over [a] first, too
    deep to go on to [y], and does not come back. *)
Example column_depth_misses_near :
  let s := columns_after [into "1" ["a"; "x"] "r" "u" 1; into "2" ["x"] "a" "u" 1;
                          into "3" ["y"] "x" "u" 1; into "4" ["w"] "y" "u" 1] in
  graph_events "r" 3 s = Ok (Some (["1"; "2"; "3"], false)) ∧
  graph_events "x" 2 s = Ok (Some (["3"; "4"], false)).
Proof. vm_compute. done. Qed.

(** A column on two ways is affected twice. *)
Example affected_twice :
  (λ g, ref_column <$> affected_columns g) <$>
    (analyze_column_impact (λ n, n) (col "x")
       (columns_after [into "1" ["x"] "a" "u" 1; into "2" ["x"] "b" "u" 1; into "3" ["a"; "b"] "c" "u" 1])).2
  = Ok ["a"; "c"; "b"; "c"].
Proof. vm_compute. reflexivity. Qed.

(** ** The coordinator *)

Abbreviation Coord := (GdprCoordinator row_erasure column_erasure schema_erasure).

Definition year : Z := 365 * 86400 * 10 ^ 9.
Definition now : Z := 50 * year.
Definition clock : ErasureTimes :=
  {| holds_checked := now; holds_listed := now; assumed_created := now; policy_checked := now;
     request_made := now |}.
Definition stamps : ErasureStamps :=
  {| request_uid := "r"; own_stamp := stamp; row_stamp := stamp; column_stamp := stamp;
     schema_stamp := stamp |}.

Definition coord : Coord :=
  with_default_retention row_erasure column_erasure schema_erasure
    (Some two_rows) (Some (run (record_column_lineage_batch two_columns) new_column_store))
    (Some two_changes) "p1" "p2" "p3".

Definition with_hold (h : LegalHold) (g : Coord) : Coord :=
  {| row_lineage_store := row_lineage_store g; column_lineage_store := column_lineage_store g;
     schema_evolution_store := schema_evolution_store g;
     retention_manager := add_legal_hold h (retention_manager g) |}.

Definition lawsuit : LegalHold := add_data_subject "u" (new_hold "h" "lawsuit" "legal" "case 7" 0).

Lemma coord_columns_ok : column_ok (run (record_column_lineage_batch two_columns) new_column_store).
Proof.
  pose proof (write_columns_spec two_columns new_column_store _ _ new_column_store_ok ltac:(done)
    (surjective_pairing _)) as Hr.
  assert ((write_column_events two_columns new_column_store).2 = Ok tt) as E by by vm_compute.
  rewrite E in Hr. apply Hr.
Qed.

Abbreviation coord_in_order :=
  (all_ok (RowOk := row_erasure_ok) (ColumnOk := column_erasure_ok) (SchemaOk := schema_erasure_ok)).

Lemma three_stores_ok r c s i1 i2 i3 :
  row_store_ok r → column_ok c → schema_ok s →
  coord_in_order (with_default_retention row_erasure column_erasure schema_erasure
                    (Some r) (Some c) (Some s) i1 i2 i3).
Proof. intros ? ? ?. split_and!; by intros ? [= <-]. Qed.

Lemma coord_ok : coord_in_order coord.
Proof. exact (three_stores_ok _ _ _ _ _ _ two_rows_ok coord_columns_ok (proj1 two_changes_ok)). Qed.

Lemma user_erasure_complete_witness :
  (∃ g' y, erase_user_data row_erasure column_erasure schema_erasure "u" false HardDelete stamps clock coord
             = (g', Ok y) ∧
     (success y = true →
        ∀ g'' n, count_user_data row_erasure column_erasure schema_erasure "u" g' = (g'', Ok n) → n = 0)) ∧
  ∃ names, erase_user_data row_erasure column_erasure schema_erasure "u" false HardDelete stamps clock
             (with_hold lawsuit coord)
           = (with_hold lawsuit coord, Err (UnderLegalHold "u" names)).
Proof.
  pose proof (λ g, user_erasure_complete (RowOk := row_erasure_ok) (ColumnOk := column_erasure_ok)
    (SchemaOk := schema_erasure_ok) "u" false HardDelete stamps clock g) as H. split.
  - destruct (H coord coord_ok) as [_ Hc]. destruct Hc as (g' & y & E & _ & _ & Hc).
    + intros (k & h & Hk & _). by vm_compute in Hk.
    + exists g', y. split; [exact E|]. intros Hs. apply (Hc eq_refl Hs).
  - destruct (H (with_hold lawsuit coord) coord_ok) as [Hh _]. apply Hh.
    exists "h", lawsuit. split_and!; [by vm_compute|done|done|]. by left.
Defined.

(** The erasure succeeds, and it deletes: the retention of audit logs is taken as
    violated by data created just now, and the anonymization it asks for instead is a
    strategy that no backend looks at. *)
Example retention_asks_for_anonymization :
  (λ y, (success y, total_records_erased y, strategy (erasure_request y),
         (λ b, (strategy_used b, records_erased b)) <$> backend_results y !! "row_lineage")) <$>
    (erase_user_data row_erasure column_erasure schema_erasure "u" false HardDelete stamps clock coord).2
  = Ok (true, 2, Some Anonymize, Some (HardDelete, 1)).
Proof. vm_compute. reflexivity. Qed.

(** The data of a tenant is erased under a hold that names it. *)
Example tenant_erasure_ignores_holds :
  let g := with_hold (add_data_subject "t" (new_hold "h" "lawsuit" "legal" "case 7" 0)) coord in
  is_subject_under_hold (retention_manager g) now "t" = true ∧
  (λ y, (success y, total_records_erased y)) <$>
    (erase_tenant_data row_erasure column_erasure schema_erasure "t" false stamps now g).2 = Ok (true, 2).
Proof. vm_compute. done. Qed.
